(* ===== verification/_CoqProject ===== *)
-Q . S2P
Prelude.v
Float64.v
Frames.v
Queues.v
ClockQueue.v
G711.v
Vad.v
VadController.v
Text.v
Strings.v
TextAgg.v
Numbers.v
LlmContext.v
Aggregators.v
AssistantFacts.v
AssistantRuns.v
ToolCalls.v
ToolCallRuns.v
ToolRegistry.v
WsService.v
TurnCompletion.v
SeqMatcher.v
WordText.v
SegmentMap.v
WordTracker.v
WordFacts.v
Sequencer.v
SequencerFacts.v
Tts.v
TtsFacts.v
Json.v
AsyncTool.v
Summary.v
SummaryFacts.v
Adapters.v
AnthropicAdapter.v
GeminiAdapter.v
SmallAggs.v
Prog.v
GatedContext.v
Flows.v
FlowFacts.v
TurnStrategies.v
UserTurn.v
TurnTiming.v
IdleMute.v
UserAgg.v
TurnProcessor.v
Processor.v
ProcessorRuns.v
Parallel.v
SyncParallel.v
Switcher.v
Worker.v
WorkerFacts.v
Jobs.v
JobFacts.v
Calls.v
Recording.v
Stt.v
SttFacts.v
MediaSender.v
TransportOutput.v
MediaAudio.v
MediaFacts.v
