(* ===== verification/Prelude.v ===== *)
(** * Voxigo: a verification development

    Voxigo is a framework for voice agents: processors are linked into a pipeline,
    frames travel it in both directions, and each processor handles them on
    goroutines of its own.  This library models the parts of [src/] that decide
    what such a pipeline does, as they are written, and proves what they promise.

    ** How the program is put together

    A frame ([src/frames/]) is a system, data or control frame.  A processor
    ([src/processor/processor.go]) handles system frames at once on its input
    goroutine and hands the others to a process goroutine, through two queues
    ([src/processor/queue.go]); an interruption cancels and remakes the latter, and
    pause gates ([src/processor/pause.go]) hold either.  Pipelines
    ([src/pipeline/]) chain processors, run branches in parallel, or switch between
    services.  Between the transport, whose audio passes the voice activity
    detector ([src/audio/vad/]), and the language model sits the logic of turns
    ([src/processor/turns/]): who speaks, when the user's turn starts and ends, when
    the user is idle or muted.  The conversation is a context
    ([src/frames/llm_context.go]) that the aggregators
    ([src/processor/aggregators/]) write: what the user said, what the assistant said,
    the tools it called.  The language service ([src/service/llm/]) runs the model on
    it, sets the tool calls going and gates what is spoken on whether the user was
    done; its words are cut into sentences and made speakable ([src/utils/text/]) and
    leave through the transport's queues ([src/transport/]).  A worker
    ([src/pipeline/worker.go]) runs a pipeline to its end, and a flow ([src/flows/])
    leads the conversation from node to node by queueing frames with it.

    ** Files

    Each file opens with the source it models; definitions keep the names of the
    functions, methods and types they translate.

    - [Prelude.v] (this file): record update, machine integers, the hint database
      [voxigo], list lemmas, reachability.  [Float64.v]: IEEE binary64 as the code
      uses it, and durations.
    - [Frames.v]: frames, categories, ids, directions.
    - [Queues.v]: the processor, bus and sender queues, as instances of one
      interface, [StableQueue], and the wake-up protocol they share.
    - [ClockQueue.v]: [src/transport/clockqueue.go], over a model of
      [container/heap].
    - [G711.v]: [src/audio/g711/].  [Vad.v]: the debouncing of
      [src/audio/vad/vad.go] and the loudness window.  [VadController.v]:
      [src/audio/vad/controller/] and the processor around it.
    - [Text.v]: UTF-8, [strings.Fields] and the wake-phrase patterns.
      [TurnStrategies.v]: the start and stop strategies and the controller of
      [src/processor/turns/].  [UserTurn.v], [TurnTiming.v]: what holds of them.
      [IdleMute.v]: the idle watch and the mute strategies.  [TurnProcessor.v]: the
      processor that announces turns.
    - [Strings.v]: [strings.Index] and its kin over bytes.  [TextAgg.v]: the text
      aggregators of [src/utils/text/].  [Numbers.v]: numbers, dates and amounts as
      they are spoken ([numbers.go] and [transforms.go] there).
    - [UserAgg.v]: the user half of the aggregators, over the controller.
    - [LlmContext.v]: the conversation and its tools ([src/frames/llm_context.go],
      [async_tool.go]).  [Aggregators.v]: the assistant aggregator.
      [AssistantFacts.v]: what holds of it.
    - [ToolCalls.v]: the tool calls of the language service as a step relation
      ([src/service/llm/llm.go], [asynctool.go]).  [ToolCallRuns.v]: what holds of
      every run.  [ToolRegistry.v]: its registry of tools and its system instruction.
      [TurnCompletion.v]: its turn-completion gating ([turncompletion.go]).
    - [Json.v]: the JSON a tool message holds, written and read back.  [AsyncTool.v]:
      the messages by which a tool reports in the background, read.
    - [Summary.v]: conversations summarized ([src/utils/context/] and the summarizer of
      the aggregators).  [SummaryFacts.v]: what holds of every run.
    - [Adapters.v], [AnthropicAdapter.v], [GeminiAdapter.v]: the conversation rewritten
      for a provider: what the adapters share, and OpenAI's, Perplexity's and Mistral's;
      Anthropic's; Gemini's.
    - [SmallAggs.v]: the gate, the response gatherer and the sentence cutters of
      [src/processor/aggregators/].  [GatedContext.v]: its gate on the conversation, opened
      by a notifier.
    - [Prog.v]: programs of several goroutines over one state, and how one is reasoned
      about among the others; what [Flows.v], [Worker.v], [Jobs.v], [GatedContext.v], [Stt.v]
      and [MediaSender.v] are written in.
    - [Flows.v]: the flow manager and its actions ([src/flows/]).  [FlowFacts.v]: what
      holds of every run.
    - [Worker.v]: the pipeline worker ([src/pipeline/worker.go], [monitors.go],
      [filter.go], [setup.go]).  [WorkerFacts.v]: what holds of every run.
    - [Jobs.v]: the jobs workers give one another ([src/workers/jobs.go],
      [src/pipeline/jobcontext/]).  [JobFacts.v]: what holds of every run.
    - [Calls.v]: control tags in streamed text ([src/internal/tagscan/]) and the processors
      of phone calls: menus, voicemail, keys ([src/processor/ivr/], [voicemail/], [dtmf/]).
    - [Recording.v]: PCM put together ([src/audio/utils.go]) and the recorder
      ([src/processor/audiobuffer/]).
    - [Stt.v]: the base of the recognition services, [src/service/stt/].  [SttFacts.v]:
      what holds of every run.
    - [MediaSender.v]: the senders of a transport's output ([src/transport/mediasender.go],
      [framequeue.go]).  [TransportOutput.v]: their destinations ([output.go]) and the background
      sound mixed in ([src/audio/mixer/]).  [MediaFacts.v]: what holds of every run.
    - [WsService.v]: the connections a service keeps ([src/service/wsservice/]) and the
      waits between attempts ([src/utils/network/]).
    - [SeqMatcher.v], [WordText.v], [SegmentMap.v], [WordTracker.v]: following the
      words of a synthesis, [src/utils/context/] ([sequencematcher.go]; [alnum.go],
      [markup.go], [charwords.go], [wordtimestamps.go]; [segmentmap.go]; [tracker.go]).
      [WordFacts.v]: a plain text word by word.
    - [Sequencer.v]: the order of what is spoken ([sequencer.go], [parallel.go] there).
      [SequencerFacts.v]: what holds of every run of it.
    - [Tts.v]: the speech-synthesis base, [src/service/tts/], as programs of several
      goroutines over one state.  [TtsFacts.v]: the playlist it keeps to.
    - [Processor.v]: the processor base as a step relation over its goroutines.
      [ProcessorRuns.v]: what holds of every run.
    - [Parallel.v], [SyncParallel.v], [Switcher.v]: [src/pipeline/parallel.go],
      [syncparallel.go] and [switcher.go], with the usability of services
      ([src/processor/usable.go]) and the error categories
      ([src/utils/errors/errors.go]).

    ** How the code is rendered

    A struct is a record threaded explicitly, [r <| f := v |>] being an
    assignment; shared mutable objects (the strategies of a controller) live in a
    store and are referred to by address.  Integers of a fixed width wrap; a
    duration is its nanoseconds, a 64-bit integer; a float64 is a [spec_float]
    of the Standard Library.  What runs concurrently is a step relation whose steps are the code's
    critical sections or, where a file says so, whole calls; a theorem about it
    speaks of every interleaving.  A timer is a pending callback with a deadline,
    and the clock advances between the steps.  Code that is not the program's (the
    speech models, the user's processors and handlers) is a parameter or is left
    free.  Recursion that is not structural runs on fuel, and each such function
    has a lemma that the fuel it is given is enough.

    ** What is proved

    - Queues: each refines a stable priority queue over its arrivals, and no wake-up
      is lost.  The clock queue delivers the earliest frame and never oversleeps.
    - Processors: nothing is handled before the StartFrame; order; nothing
      uninterruptible is lost between queue and handler; a pause holds and a resume
      reaches whoever waits.  Four schedules the code does not intend are exhibited.
    - Pipelines: a parallel pipeline lets a frame out once, and the lifecycle frames
      wait for every branch; a synchronized one releases together; a switcher
      answers every error as documented and keeps working while it can.
    - The worker: what it puts into the pipeline is what was queued, in order, up to the
      frame that ends the run; the end is reported once; a canceled run goes on to its
      end, but for the one wait that cancellation does not reach, which is exhibited.
    - Jobs: a group ends once and one way, with its caller and its workers told; a job
      taken on is kept until it is answered; handlers that take turns do, unless one is
      called off.  Five cases the documents promise otherwise are exhibited.
    - Phone calls: a response comes to the same keys, statuses and words however it is cut;
      a call is told to be voicemail or a person once; every key is typed once.
    - Recordings: a track is what was heard, once and in order, with only silence between;
      what is delivered is aligned; a turn keeps its beginning; a WAV file is read back.
    - Flows: a wait for actions lets nothing by that is still going on; a node's frames
      are queued in the order documented; a transition is made once, to the node asked
      for last.  The waits that never end and the moves that get lost are exhibited.
    - Turns: whatever the strategies, frames and timing, the reports of the
      controller follow the turn protocol; the watchdog closes a stuck turn; the
      speech timeout is on time; wake phrases and the completion gate decide alone.
    - Text: the simple aggregator delivers the sentences of a text however it arrives;
      the tag-skipping one loses nothing and equals it away from tags; a pattern's units
      carry its type.  Every 64-bit integer but the least is spoken so that it reads
      back, and a date is spoken exactly when the calendar has it.
    - Conversation: every tool call is followed by its result, a batch of calls asks the
      model to run once, and assistant turns alternate.  What the user says is written
      once, or dropped once, or still held, and a turn is reported to have said just what
      was written in it.  Summaries, however they interleave with what is said, lose
      nothing they do not stand for and part no call from its result; the cases where
      the documents promise more are exhibited.  A tool's message is read back as it was.
    - Providers: whatever the conversation, the requests made of it for Anthropic,
      Perplexity, Mistral and Gemini have the shape each accepts, with nothing said lost
      but what is named.
    - Gates and gatherers: a gate lets out in order what it held; a response is reported
      whole; sentences lose nothing of the text; one conversation is let through for each
      notification, and nothing before the start.  Where they fall short is exhibited.
    - Language service: a call ends at most once and each of its reports is broadcast
      once, under every interleaving of handlers, deadlines, interruptions and
      cancellations; a deadline ends it; a sequential service takes calls in turn; the
      cancel tools offered are exactly those needed.  A response is gated as a whole
      however it is cut, and at most one is spoken per turn.
    - Synthesis: skipped frames leave the sequencer in order, as soon as nothing ahead is
      unspoken, and all by the end of their context; a word running over sentences is
      carried on and this ends; the words of a plain text stand for themselves, and
      whatever the words, the cursors stay in their texts.  Under every interleaving of
      the base's goroutines what is played out is what an abstract playlist plays, the
      pipeline's end waits for it, and so many silent contexts in a row write the service
      off.  Five schedules the code does not intend are exhibited.
    - Recognition: every piece of audio is sent once, held or lost for a reason; speech is
      proposed in turn; a finalize is confirmed and marked once, a wait reported once.  A
      segment is transcribed whole.  Four schedules the code does not intend are exhibited.
    - The output: the audio given is cut into whole chunks with nothing lost but what is
      dropped; what is heard goes on in the order it was queued, once; the bot takes the
      floor and gives it up in turn; after a fresh start nothing queued before is played.
      Five cases that fall short are exhibited.
    - Connections: the receive loop gives up on a server that drops every connection,
      and reports it once.
    - Audio: the detector debounces, independently of chunking; its controller's
      decisions alternate; the G.711 codecs round-trip within a quantization step.

    ** Not modelled

    The provider clients, the transports themselves (media, signaling and input), the
    settings, tracing
    and metrics of the recognition and synthesis bases, the rest of the language service (streaming, metrics, tracing, settings), the
    observers and telemetry, the evaluation harness, the command line and the examples:
    input and output, or glue around it.  Not yet modelled: the bus
    beyond its queue, the rest of the workers' base, the language tables, and the
    processor for client messages.  The project manifest lists each part with its reason. *)

From stdpp Require Export base tactics list gmap strings numbers sorting relations.
From Stdlib Require Export ZArith Lia ZifyNat.

Declare Scope go_scope.
Delimit Scope go_scope with go.

(** ** Record update

    A record type declares how it is rebuilt from its projections ([Eta]); a
    [Setter] for one projection is then derived by abstracting that projection
    in the rebuilt value.  [r <| p := v |>] is Go's assignment [r.p = v] on a
    value that is threaded explicitly. *)

Class Eta (R : Type) := eta_expand : R -> R.
Class Setter {R T : Type} (p : R -> T) := setter : (T -> T) -> R -> R.
Arguments setter {R T} p {_} _ _ /.

Ltac derive_setter :=
  match goal with
  | |- @Setter ?R ?T ?p =>
      let f := fresh "f" in
      let r := fresh "r" in
      intros f r;
      let whole := constr:(@eta_expand R _ r) in
      let t := eval hnf in whole in
      let t := eval pattern (p r) in t in
      lazymatch t with
      | (fun _ => ?body) _ => fail "the rebuilt value does not mention" p
      | ?G _ => let res := eval cbv beta in (G (f (p r))) in exact res
      end
  end.

#[export] Hint Extern 0 (Setter _) => derive_setter : typeclass_instances.

Notation "r <| p := v |>" := (setter p (fun _ => v) r)
  (at level 1, left associativity, p at level 8) : go_scope.
Notation "r <| p ::= f |>" := (setter p f r)
  (at level 1, left associativity, p at level 8) : go_scope.
Open Scope go_scope.

(** ** Machine integers

    A Go integer of width [w] is the [Z] it denotes; arithmetic wraps. *)

Section Widths.
Local Open Scope Z_scope.

Definition wrapU (w z : Z) : Z := z mod 2 ^ w.
Definition wrapS (w z : Z) : Z := (z + 2 ^ (w - 1)) mod 2 ^ w - 2 ^ (w - 1).

(** The conversions, with the powers of two written out so that they evaluate
    quickly. *)
Definition uint8 (z : Z) : Z := z mod 256.
Definition uint16 (z : Z) : Z := z mod 65536.
Definition int16 (z : Z) : Z := (z + 32768) mod 65536 - 32768.
Definition int64 (z : Z) : Z :=
  (z + 9223372036854775808) mod 18446744073709551616 - 9223372036854775808.

(** [u8 z]: [z] is a value of Go's [byte]; [s16 z]: of [int16]. *)
Definition u8 (z : Z) : Prop := 0 <= z < 256.
Definition s16 (z : Z) : Prop := - 32768 <= z < 32768.

Lemma wrapU_id w z : 0 <= w -> 0 <= z < 2 ^ w -> wrapU w z = z.
Proof. intros. unfold wrapU. by rewrite Z.mod_small. Qed.

Lemma wrapS_id w z : 0 < w -> - 2 ^ (w - 1) <= z < 2 ^ (w - 1) -> wrapS w z = z.
Proof.
  intros Hw Hz. unfold wrapS.
  assert (2 ^ w = 2 * 2 ^ (w - 1)).
  { rewrite <- Z.pow_succ_r by lia. f_equal. lia. }
  rewrite Z.mod_small; lia.
Qed.

Lemma wrapU_range w z : 0 <= w -> 0 <= wrapU w z < 2 ^ w.
Proof. intros. apply Z.mod_pos_bound. apply Z.pow_pos_nonneg; lia. Qed.

Lemma wrapS_range w z : 0 < w -> - 2 ^ (w - 1) <= wrapS w z < 2 ^ (w - 1).
Proof.
  intros Hw. unfold wrapS.
  assert (2 ^ w = 2 * 2 ^ (w - 1)).
  { rewrite <- Z.pow_succ_r by lia. f_equal. lia. }
  pose proof (Z.mod_pos_bound (z + 2 ^ (w - 1)) (2 ^ w)).
  assert (0 < 2 ^ (w - 1)) by (apply Z.pow_pos_nonneg; lia). lia.
Qed.
End Widths.

(** Checking a predicate on every integer of a range by computation: used to
    settle statements over bytes and 16-bit samples exhaustively. *)
Section RangeCheck.
Local Open Scope Z_scope.

Fixpoint forallb_from (P : Z -> bool) (z : Z) (n : nat) : bool :=
  match n with
  | O => true
  | S n => P z && forallb_from P (z + 1) n
  end.

Lemma forallb_from_spec P z n :
  forallb_from P z n = true -> forall x, z <= x < z + Z.of_nat n -> P x = true.
Proof.
  revert z. induction n as [|n IH]; intros z H x Hx; [lia|].
  simpl in H. apply andb_prop in H as [H1 H2].
  destruct (decide (x = z)) as [->|]; [done|]. apply (IH (z + 1)); [done|lia].
Qed.
End RangeCheck.

(** ** Optional values, and the shared automation *)

(** [boolOr]-style defaulting of Go's nil-able settings. *)
Definition from_nil {A} (d : A) (o : option A) : A :=
  match o with Some x => x | None => d end.

Create HintDb voxigo.

(** [case_all]: split every [match]/[if] on an atomic scrutinee of the goal or
    the context, closing the branches that are contradictory. *)
Ltac case_all :=
  repeat (case_match; simplify_eq/=; try done).

(** [lia] with division and modulo by constants. *)
Ltac div_lia := zify; Z.to_euclidean_division_equations; lia.

(** ** Lists *)

Section ListLemmas.
Context {A : Type}.
Implicit Types (l k : list A) (P : A -> bool).

Lemma filter_snoc_bool P l x :
  List.filter P (l ++ [x]) = List.filter P l ++ (if P x then [x] else []).
Proof. rewrite List.filter_app. simpl. by destruct (P x). Qed.

Lemma filter_filter_comm P (Q : A -> bool) l :
  List.filter P (List.filter Q l) = List.filter (fun x => P x && Q x) l.
Proof.
  induction l as [|x l IH]; [done|]. simpl.
  destruct (Q x) eqn:HQ, (P x) eqn:HP; simpl; rewrite ?HP, ?HQ; simpl; by rewrite ?IH.
Qed.

Lemma filter_ext_bool P (Q : A -> bool) l :
  (forall x, In x l -> P x = Q x) -> List.filter P l = List.filter Q l.
Proof. apply List.filter_ext_in. Qed.
End ListLemmas.

Lemma filter_bool_perm {A} (P : A -> bool) (l k : list A) :
  l ≡ₚ k -> List.filter P l ≡ₚ List.filter P k.
Proof.
  induction 1; simpl; repeat match goal with |- context [if P ?x then _ else _] => destruct (P x) end;
    eauto using Permutation.
Qed.

(** ** Reachability *)

(** An inductive invariant of a step relation holds in every reachable state. *)
Lemma rtc_invariant {S : Type} (R : S -> S -> Prop) (I : S -> Prop) x y :
  rtc R x y -> (forall a b, R a b -> I a -> I b) -> I x -> I y.
Proof. induction 1; eauto. Qed.
