(* ===== verification/Float64.v ===== *)
(** * Go's [float64]

    IEEE 754 binary64 values as [spec_float] of the Standard Library's
    [SpecFloat], with the operations the modelled code uses: conversions from
    and to integers, division, multiplication, comparison, [math.Round].  All of
    it computes, and nothing is assumed about it. *)

From Stdlib Require Import ZArith SpecFloat Lia.
From S2P Require Import Prelude.

Local Open Scope Z_scope.

Definition f64 : Type := spec_float.

Definition f64_prec : Z := 53.
Definition f64_emax : Z := 1024.

(** [float64(z)] *)
Definition f64_of_Z (z : Z) : f64 := binary_normalize f64_prec f64_emax z 0 false.

Definition f64_mul : f64 -> f64 -> f64 := SFmul f64_prec f64_emax.
Definition f64_div : f64 -> f64 -> f64 := SFdiv f64_prec f64_emax.
Definition f64_add : f64 -> f64 -> f64 := SFadd f64_prec f64_emax.
Definition f64_sub : f64 -> f64 -> f64 := SFsub f64_prec f64_emax.

(** The decimal literal [n/d]: the binary64 nearest to the quotient. *)
Definition f64_lit (n d : Z) : f64 := f64_div (f64_of_Z n) (f64_of_Z d).

(** [x >= y], false when either is a NaN. *)
Definition f64_geb (x y : f64) : bool := SFleb y x.
Definition f64_ltb (x y : f64) : bool := SFltb x y.

(** [math.Round(x)] of a finite [x]: the nearest integer, halves away from
    zero.  [None] for an infinity or a NaN. *)
Definition f64_round (x : f64) : option Z :=
  match x with
  | S754_zero _ => Some 0
  | S754_finite s m e =>
      let v := if e <? 0
               then (2 * Z.pos m + 2 ^ (- e)) / (2 * 2 ^ (- e))
               else Z.pos m * 2 ^ e in
      Some (if s then - v else v)
  | _ => None
  end.

(** The integer a finite [x] truncates to; [None] for an infinity or a NaN,
    whose conversion Go leaves implementation-defined. *)
Definition f64_trunc (x : f64) : option Z :=
  match x with
  | S754_zero _ => Some 0
  | S754_finite s m e =>
      let v := if e <? 0 then Z.pos m / 2 ^ (- e) else Z.pos m * 2 ^ e in
      Some (if s then - v else v)
  | _ => None
  end.

Example f64_lit_02 : f64_lit 2 10 = S754_finite false 7205759403792794 (-55).
Proof. reflexivity. Qed.

Example f64_round_half : f64_round (f64_lit 25 10) = Some 3.
Proof. reflexivity. Qed.

Example f64_trunc_neg : f64_trunc (f64_lit (-27) 10) = Some (-2).
Proof. reflexivity. Qed.

(** Rounding an exact integer gives it back: the conversions lose nothing on
    the sample rates and frame counts they are used for. *)
Lemma f64_round_pos_exact m e :
  0 <= e -> f64_round (S754_finite false m e) = Some (Z.pos m * 2 ^ e).
Proof.
  intros He. unfold f64_round.
  destruct (Z.ltb_spec e 0); [lia|done].
Qed.

(** [math.Ceil(x)] of a finite [x]. *)
Definition f64_ceil (x : f64) : option Z :=
  match x with
  | S754_zero _ => Some 0
  | S754_finite s m e =>
      if e <? 0 then
        if s then Some (- (Z.pos m / 2 ^ (- e)))
        else Some ((Z.pos m + 2 ^ (- e) - 1) / 2 ^ (- e))
      else Some ((if s then - Z.pos m else Z.pos m) * 2 ^ e)
  | _ => None
  end.

Definition f64_zero : f64 := S754_zero false.

(** [int(x)] where the code only ever converts finite values; a non-finite one
    gives 0 here. *)
Definition to_int (o : option Z) : Z := from_nil 0 o.

Example f64_ceil_ex : f64_ceil (f64_mul (f64_lit 4 10) (f64_of_Z 16000)) = Some 6400.
Proof. reflexivity. Qed.

(** [time.Duration(secs * float64(time.Second))] *)
Definition duration_of_secs (secs : f64) : Z := to_int (f64_trunc (f64_mul secs (f64_of_Z 1000000000))).
