(* ===== verification/Frames.v ===== *)
(** * Frames

    The frame type of package [frames] ([src/frames]): the per-frame state of
    [BaseFrame], the three categories and the [Uninterruptible] marker, and the
    concrete frames the modelled components look into.  [Frame] is an open Go
    interface, so [OtherFrame] stands for any frame type whose payload no
    modelled component inspects: a type name, a category and the marker.

    A frame's identity is its id; [nextID] mints ids from the process-wide
    counter, threaded explicitly. *)

From S2P Require Import Prelude Float64.

(** ** Categories and markers *)

(** A frame joins exactly one category, by the base struct it embeds. *)
Inductive Category :=
| SystemFrame
| DataFrame
| ControlFrame.

#[export] Instance Category_eq_dec : EqDecision Category.
Proof. solve_decision. Defined.

(** ** Payloads

    [ToolCall] is reduced to the id the modelled code reads. *)

(** [time.Time], in nanoseconds; [None] is the zero time. *)
Abbreviation go_time := (option Z).

Inductive Payload :=
(* lifecycle, frames/system.go and frames/control.go *)
| StartFrame
| EndFrame (reason : string)
| StopFrame
| CancelFrame (reason : string)
| InterruptionFrame
| ErrorFrame (error : string) (fatal : bool) (source : option string)
(* pausing one processor; the target is the processor's name *)
| FrameProcessorPauseFrame (target : option string)
| FrameProcessorPauseUrgentFrame (target : option string)
| FrameProcessorResumeFrame (target : option string)
| FrameProcessorResumeUrgentFrame (target : option string)
(* speaking and turns *)
| UserStartedSpeakingFrame
| UserStoppedSpeakingFrame
| ProposedUserStartedSpeakingFrame
| ProposedUserStoppedSpeakingFrame
| VADUserStartedSpeakingFrame (startSecs : f64) (timestamp : go_time)
| VADUserStoppedSpeakingFrame (stopSecs : f64) (timestamp : go_time)
| UserSpeakingFrame
| BotStartedSpeakingFrame
| BotStoppedSpeakingFrame
| BotSpeakingFrame
| UserIdleTimeoutUpdateFrame (timeout : Z)
| VADParamsUpdateFrame (confidence startSecs stopSecs minVolume : f64)
| UserTurnInferenceCompletedFrame
| SpeechControlParamsFrame
| LLMUpdateSettingsFrame (reachInactiveServices : bool)
| MetricsFrame
(* transcripts and service metadata *)
| TranscriptionFrame (text : string) (finalized : bool)
| InterimTranscriptionFrame (text : string)
| STTMetadataFrame (ttfsP99Latency : Z)
(* tool calls *)
| FunctionCallsStartedFrame (callIDs : list string)
| FunctionCallResultFrame (toolCallID : string)
| FunctionCallCancelFrame (toolCallID : string)
(* audio *)
| InputAudioRawFrame (audio : list Z) (sampleRate numChannels : Z)
(* any other frame type *)
| OtherFrame (typeName : string) (cat : Category) (mixin : bool).

(** The category of each frame, by the base it embeds. *)
Definition category (p : Payload) : Category :=
  match p with
  | StartFrame | CancelFrame _ | InterruptionFrame | ErrorFrame _ _ _
  | FrameProcessorPauseUrgentFrame _ | FrameProcessorResumeUrgentFrame _
  | UserStartedSpeakingFrame | UserStoppedSpeakingFrame
  | ProposedUserStartedSpeakingFrame
  | VADUserStartedSpeakingFrame _ _ | VADUserStoppedSpeakingFrame _ _
  | UserSpeakingFrame | BotStartedSpeakingFrame | BotStoppedSpeakingFrame
  | BotSpeakingFrame | UserIdleTimeoutUpdateFrame _
  | SpeechControlParamsFrame | MetricsFrame
  | STTMetadataFrame _ | FunctionCallsStartedFrame _
  | FunctionCallCancelFrame _ | InputAudioRawFrame _ _ _ => SystemFrame
  | TranscriptionFrame _ _ | InterimTranscriptionFrame _
  | FunctionCallResultFrame _ => DataFrame
  | EndFrame _ | StopFrame | ProposedUserStoppedSpeakingFrame
  | FrameProcessorPauseFrame _ | FrameProcessorResumeFrame _
  | UserTurnInferenceCompletedFrame | LLMUpdateSettingsFrame _
  | VADParamsUpdateFrame _ _ _ _ => ControlFrame
  | OtherFrame _ c _ => c
  end.

(** The frames that embed [UninterruptibleMixin]. *)
Definition uninterruptible (p : Payload) : bool :=
  match p with
  | EndFrame _ | StopFrame | LLMUpdateSettingsFrame _ | FunctionCallResultFrame _ => true
  | OtherFrame _ _ m => m
  | _ => false
  end.

Definition typeName (p : Payload) : string :=
  match p with
  | StartFrame => "StartFrame" | EndFrame _ => "EndFrame" | StopFrame => "StopFrame"
  | CancelFrame _ => "CancelFrame" | InterruptionFrame => "InterruptionFrame"
  | ErrorFrame _ _ _ => "ErrorFrame"
  | FrameProcessorPauseFrame _ => "FrameProcessorPauseFrame"
  | FrameProcessorPauseUrgentFrame _ => "FrameProcessorPauseUrgentFrame"
  | FrameProcessorResumeFrame _ => "FrameProcessorResumeFrame"
  | FrameProcessorResumeUrgentFrame _ => "FrameProcessorResumeUrgentFrame"
  | UserStartedSpeakingFrame => "UserStartedSpeakingFrame"
  | UserStoppedSpeakingFrame => "UserStoppedSpeakingFrame"
  | ProposedUserStartedSpeakingFrame => "ProposedUserStartedSpeakingFrame"
  | ProposedUserStoppedSpeakingFrame => "ProposedUserStoppedSpeakingFrame"
  | VADUserStartedSpeakingFrame _ _ => "VADUserStartedSpeakingFrame"
  | VADUserStoppedSpeakingFrame _ _ => "VADUserStoppedSpeakingFrame"
  | UserSpeakingFrame => "UserSpeakingFrame"
  | BotStartedSpeakingFrame => "BotStartedSpeakingFrame"
  | BotStoppedSpeakingFrame => "BotStoppedSpeakingFrame"
  | BotSpeakingFrame => "BotSpeakingFrame"
  | UserIdleTimeoutUpdateFrame _ => "UserIdleTimeoutUpdateFrame"
  | VADParamsUpdateFrame _ _ _ _ => "VADParamsUpdateFrame"
  | UserTurnInferenceCompletedFrame => "UserTurnInferenceCompletedFrame"
  | SpeechControlParamsFrame => "SpeechControlParamsFrame"
  | LLMUpdateSettingsFrame _ => "LLMUpdateSettingsFrame"
  | MetricsFrame => "MetricsFrame"
  | TranscriptionFrame _ _ => "TranscriptionFrame"
  | InterimTranscriptionFrame _ => "InterimTranscriptionFrame"
  | STTMetadataFrame _ => "STTMetadataFrame"
  | FunctionCallsStartedFrame _ => "FunctionCallsStartedFrame"
  | FunctionCallResultFrame _ => "FunctionCallResultFrame"
  | FunctionCallCancelFrame _ => "FunctionCallCancelFrame"
  | InputAudioRawFrame _ _ _ => "InputAudioRawFrame"
  | OtherFrame n _ _ => n
  end.

(** ** The per-frame state of [BaseFrame] *)

Record Frame := mkFrame {
  id : Z;
  pts : option Z;
  broadcastSiblingID : option Z;
  transportSource : string;
  transportDest : string;
  payload : Payload
}.

#[export] Instance eta_Frame : Eta Frame := fun f =>
  mkFrame (id f) (pts f) (broadcastSiblingID f) (transportSource f) (transportDest f) (payload f).

(** [idCounter.Add(1)]: the counter after the call, which is the new id. *)
Definition nextID (counter : Z) : Z := wrapU 64 (counter + 1).

(** [NewBaseFrame] wrapped by a concrete constructor. *)
Definition NewBaseFrame (p : Payload) (counter : Z) : Frame * Z :=
  let i := nextID counter in (mkFrame i None None "" "" p, i).

(** [f.Base().SetBroadcastSiblingID(id)] *)
Definition SetBroadcastSiblingID (f : Frame) (i : Z) : Frame :=
  f <| broadcastSiblingID := Some i |>.

Definition SetPTS (f : Frame) (t : Z) : Frame := f <| pts := Some t |>.

Definition isSystemFrame (f : Frame) : bool :=
  match category (payload f) with SystemFrame => true | _ => false end.

Definition isUninterruptible (f : Frame) : bool := uninterruptible (payload f).

Definition isStartFrame (f : Frame) : bool :=
  match payload f with StartFrame => true | _ => false end.

(** ** Direction *)

Inductive Direction := Downstream | Upstream.

#[export] Instance Direction_eq_dec : EqDecision Direction.
Proof. solve_decision. Defined.

(** A StartFrame is a system frame, and never one that outlives a reset on its
    own account: the two queue tiers that hold it are disjoint from the rest. *)
Lemma isStartFrame_system f : isStartFrame f = true -> isSystemFrame f = true.
Proof. unfold isStartFrame, isSystemFrame. by destruct (payload f). Qed.

#[export] Hint Resolve isStartFrame_system : voxigo.
