(* ===== verification/Queues.v ===== *)
(** * The concurrency-safe queues

    Three queues of the program share one shape: a mutex around banded slices,
    and a one-slot [notify] channel a single consumer waits on.

    - [Module ProcQueue]: [src/processor/queue.go], the three tiers of a
      processor's queues;
    - [Module BusQueue]: [src/bus/queue.go], the two bands of a bus subscriber;
    - [Module SendQueue]: [src/transport/framequeue.go], the queue of a sender,
      with its running count of uninterruptible frames.

    Each operation is the body of the critical section, so one operation is one
    atomic step.  [Class StableQueue] is what they promise: the consumer gets
    the earliest arrival of the best tier.  [Section Notify] proves the wake-up
    protocol of [push]/[get] against that interface alone. *)

From S2P Require Import Prelude Float64 Frames.

(** ** The contract: a stable priority queue over the list of arrivals *)

(** [stable_pick tier l x l']: [x] is the earliest of the best-tier elements of
    [l], and [l'] is [l] without it. *)
Definition stable_pick {A} (tier : A -> Z) (l : list A) (x : A) (l' : list A) : Prop :=
  exists l1 l2, l = l1 ++ x :: l2 /\ l' = l1 ++ l2 /\
    (forall y, y ∈ l1 -> (tier x < tier y)%Z) /\ (forall y, y ∈ l2 -> (tier x <= tier y)%Z).

Class StableQueue (Q A : Type) := {
  q_empty : Q;
  q_put : A -> Q -> Q;
  q_take : Q -> option (A * Q);
  q_tier : A -> Z;
  (** the arrivals still queued, oldest first *)
  q_rep : Q -> list A -> Prop;
  q_rep_empty : q_rep q_empty [];
  q_rep_put x q l : q_rep q l -> q_rep (q_put x q) (l ++ [x]);
  q_rep_take q l : q_rep q l ->
    match q_take q with
    | None => l = []
    | Some (x, q') => exists l', stable_pick q_tier l x l' /\ q_rep q' l'
    end
}.

(** Picking is deterministic, so the contract determines the delivery order. *)
Lemma stable_pick_inj {A} (tier : A -> Z) l x l' y l'' :
  stable_pick tier l x l' -> stable_pick tier l y l'' -> x = y /\ l' = l''.
Proof.
  intros (a1 & a2 & -> & -> & Ha1 & Ha2) (b1 & b2 & E & -> & Hb1 & Hb2).
  revert b1 E Hb1. induction a1 as [|z a1 IH]; intros [|w b1] E Hb1; simplify_eq/=.
  - done.
  - exfalso. specialize (Hb1 w ltac:(left)).
    assert (y ∈ b1 ++ y :: b2) as Hy by (clear; set_solver). apply Ha2 in Hy. lia.
  - exfalso. specialize (Ha1 y ltac:(left)).
    assert (x ∈ a1 ++ x :: a2) as Hx by (clear; set_solver). apply Hb2 in Hx. lia.
  - destruct (IH (fun v Hv => Ha1 v (list_elem_of_further v w a1 Hv)) b1) as [-> ->]; [done| |done].
    intros v Hv. apply Hb1. by right.
Qed.

Lemma stable_pick_perm {A} (tier : A -> Z) l x l' :
  stable_pick tier l x l' -> l ≡ₚ x :: l'.
Proof. intros (l1 & l2 & -> & -> & _). by rewrite Permutation_middle. Qed.

(** Bands as filters of the arrivals: the shared argument of the banded queues. *)
Section Bands.
Context {A : Type} (tier : A -> Z).
Local Open Scope Z_scope.

Definition band (t : Z) (l : list A) : list A :=
  List.filter (fun x => tier x =? t) l.

Lemma band_snoc t l x :
  band t (l ++ [x]) = band t l ++ (if tier x =? t then [x] else []).
Proof. apply (filter_snoc_bool (fun x => tier x =? t)). Qed.

Lemma band_In t l x : In x (band t l) <-> In x l /\ tier x = t.
Proof. unfold band. by rewrite filter_In, Z.eqb_eq. Qed.

Lemma band_nil t l : band t l = [] -> forall x, x ∈ l -> tier x <> t.
Proof.
  intros E x Hx Ht. apply list_elem_of_In in Hx.
  assert (In x (band t l)) as Hb by (by apply band_In). by rewrite E in Hb.
Qed.

(** The head of the first nonempty band is the stable pick, and removing it
    leaves every other band alone. *)
Lemma band_pick t l x b :
  band t l = x :: b -> (forall y, y ∈ l -> t <= tier y) ->
  exists l', stable_pick tier l x l' /\ band t l' = b /\
             forall t', t' <> t -> band t' l' = band t' l.
Proof.
  revert x b. induction l as [|z l IH]; intros x b E Hmin; [done|].
  unfold band in E; simpl in E; fold (band t l) in E.
  destruct (Z.eqb_spec (tier z) t) as [Hz|Hz].
  - injection E as -> <-. exists l. split; [|split; [done|]].
    + exists [], l. repeat split; [set_solver|]. intros y Hy. rewrite Hz. apply Hmin. by right.
    + intros t' Ht'. unfold band; simpl.
      destruct (Z.eqb_spec (tier x) t'); [congruence|done].
  - destruct (IH x b E ltac:(intros; apply Hmin; by right)) as (l' & Hp & Hb & Ho).
    exists (z :: l'). split; [|split].
    + destruct Hp as (l1 & l2 & -> & -> & H1 & H2). exists (z :: l1), l2.
      repeat split; [|done]. intros y [->|Hy]%elem_of_cons; [|by apply H1].
      assert (tier x = t) as -> by (apply (band_In t (l1 ++ x :: l2) x); rewrite E; by left).
      specialize (Hmin z ltac:(left)). lia.
    + unfold band; simpl. fold (band t l').
      destruct (Z.eqb_spec (tier z) t); [done|done].
    + intros t' Ht'. unfold band; simpl. fold (band t' l') (band t' l). rewrite Ho by done. done.
Qed.
End Bands.

(** ** A processor's queue *)

Module ProcQueue.

(** A frame travelling with its direction. *)
Record item := mkItem { frame : Frame; dir : Direction }.

Record queue := mkQueue {
  start : list item;   (** the StartFrame, ahead of everything *)
  system : list item;  (** the other system frames *)
  other : list item    (** data and control frames *)
}.

#[export] Instance eta_queue : Eta queue := fun q => mkQueue (start q) (system q) (other q).

Definition newQueue : queue := mkQueue [] [] [].

(** The locked part of [push]: classify by tier, append. *)
Definition push (it : item) (q : queue) : queue :=
  if isStartFrame (frame it) then q <| start ::= fun l => l ++ [it] |>
  else if isSystemFrame (frame it) then q <| system ::= fun l => l ++ [it] |>
  else q <| other ::= fun l => l ++ [it] |>.

(** The locked part of one iteration of [get]: [None] goes on to wait. *)
Definition get (q : queue) : option (item * queue) :=
  match start q, system q, other q with
  | it :: rest, _, _ => Some (it, q <| start := rest |>)
  | [], it :: rest, _ => Some (it, q <| system := rest |>)
  | [], [], it :: rest => Some (it, q <| other := rest |>)
  | [], [], [] => None
  end.

Definition hasFrame (m : Frame -> bool) (q : queue) : bool :=
  existsb (fun it => m (frame it)) (other q).

(** Drops the data and control frames that are not uninterruptible. *)
Definition reset (q : queue) : queue :=
  q <| other := List.filter (fun it => isUninterruptible (frame it)) (other q) |>.

(** The tier a frame is served in. *)
Definition tier (it : item) : Z :=
  if isStartFrame (frame it) then 0 else if isSystemFrame (frame it) then 1 else 2.

Definition rep (q : queue) (l : list item) : Prop :=
  start q = band tier 0 l /\ system q = band tier 1 l /\ other q = band tier 2 l.

Lemma tier_cases it : tier it = 0%Z \/ tier it = 1%Z \/ tier it = 2%Z.
Proof. unfold tier. destruct (isStartFrame (frame it)), (isSystemFrame (frame it)); lia. Qed.

Lemma proc_rep_empty : rep newQueue [].
Proof. done. Qed.

Lemma proc_rep_push it q l : rep q l -> rep (push it q) (l ++ [it]).
Proof.
  intros (E0 & E1 & E2). unfold push, rep, tier.
  destruct (isStartFrame (frame it)) eqn:Hs; [|destruct (isSystemFrame (frame it)) eqn:Hy];
    simpl; rewrite !band_snoc, ?E0, ?E1, ?E2, Hs, ?Hy; simpl; by rewrite ?app_nil_r.
Qed.

Lemma proc_rep_get q l : rep q l ->
  match get q with
  | None => l = []
  | Some (it, q') => exists l', stable_pick tier l it l' /\ rep q' l'
  end.
Proof.
  intros (E0 & E1 & E2). unfold get.
  destruct (start q) as [|s0 s] eqn:Hs; [destruct (system q) as [|y0 y] eqn:Hy;
    [destruct (other q) as [|o0 o] eqn:Ho|]|].
  - destruct l as [|x l]; [done|]. exfalso.
    pose proof (band_nil tier 0 _ (eq_sym E0) x ltac:(left)).
    pose proof (band_nil tier 1 _ (eq_sym E1) x ltac:(left)).
    pose proof (band_nil tier 2 _ (eq_sym E2) x ltac:(left)).
    pose proof (tier_cases x). lia.
  - destruct (band_pick tier 2 l o0 o (eq_sym E2)) as (l' & Hp & Hb & Hr).
    { intros z Hz. pose proof (band_nil tier 0 _ (eq_sym E0) z Hz).
      pose proof (band_nil tier 1 _ (eq_sym E1) z Hz). pose proof (tier_cases z). lia. }
    exists l'. split; [done|]. unfold rep; simpl. rewrite Hb, (Hr 0%Z), (Hr 1%Z), <- E0, <- E1 by lia. done.
  - destruct (band_pick tier 1 l y0 y (eq_sym E1)) as (l' & Hp & Hb & Hr).
    { intros z Hz. pose proof (band_nil tier 0 _ (eq_sym E0) z Hz). pose proof (tier_cases z). lia. }
    exists l'. split; [done|]. unfold rep; simpl. rewrite Hb, (Hr 0%Z), (Hr 2%Z), <- E0, <- E2 by lia. done.
  - destruct (band_pick tier 0 l s0 s (eq_sym E0)) as (l' & Hp & Hb & Hr).
    { intros z _. pose proof (tier_cases z). lia. }
    exists l'. split; [done|]. unfold rep; simpl. rewrite Hb, (Hr 1%Z), (Hr 2%Z), <- E1, <- E2 by lia. done.
Qed.

(** What survives a reset: every system frame, and the uninterruptible rest. *)
Definition survives (it : item) : bool :=
  (tier it <? 2)%Z || isUninterruptible (frame it).

Lemma proc_rep_reset q l : rep q l -> rep (reset q) (List.filter survives l).
Proof.
  intros (E0 & E1 & E2). unfold rep, band, reset; simpl. rewrite E0, E1, E2. unfold band.
  rewrite !filter_filter_comm.
  repeat split; apply filter_ext_bool; intros x _; unfold survives;
    destruct (tier_cases x) as [->|[->| ->]]; simpl; try done; by destruct (isUninterruptible _).
Qed.

#[global] Instance stable_queue : StableQueue queue item := {|
  q_empty := newQueue; q_put := push; q_take := get; q_tier := tier; q_rep := rep;
  q_rep_empty := proc_rep_empty; q_rep_put := proc_rep_push; q_rep_take := proc_rep_get
|}.

(** *** The refinement: whole runs *)

Inductive op := Push (it : item) | Get | Reset.

(** One operation on the code's queue, with what it returned. *)
Definition exec (o : op) (q : queue) : option item * queue :=
  match o with
  | Push it => (None, push it q)
  | Get => match get q with Some (it, q') => (Some it, q') | None => (None, q) end
  | Reset => (None, reset q)
  end.

Fixpoint exec_all (ops : list op) (q : queue) : list (option item) * queue :=
  match ops with
  | [] => ([], q)
  | o :: ops => let '(r, q) := exec o q in let '(rs, q) := exec_all ops q in (r :: rs, q)
  end.

(** The same operations on the bare list of arrivals. *)
Inductive spec_step : list item -> op -> option item -> list item -> Prop :=
| spec_push l it : spec_step l (Push it) None (l ++ [it])
| spec_get l x l' : stable_pick tier l x l' -> spec_step l Get (Some x) l'
| spec_get_empty : spec_step [] Get None []
| spec_reset l : spec_step l Reset None (List.filter survives l).

Inductive spec_run : list item -> list op -> list (option item) -> list item -> Prop :=
| run_nil l : spec_run l [] [] l
| run_cons l o r l1 ops rs l2 :
    spec_step l o r l1 -> spec_run l1 ops rs l2 -> spec_run l (o :: ops) (r :: rs) l2.

Lemma exec_refines o q l : rep q l ->
  exists l', spec_step l o (exec o q).1 l' /\ rep (exec o q).2 l'.
Proof.
  intros Hr. destruct o as [it| |]; simpl.
  - eexists; split; [constructor|]. by apply proc_rep_push.
  - pose proof (proc_rep_get q l Hr) as Hg. destruct (get q) as [[x q']|]; simpl.
    + destruct Hg as (l' & Hp & Hr'). exists l'. split; [by constructor|done].
    + subst l. exists []. split; [constructor|done].
  - eexists; split; [constructor|]. by apply proc_rep_reset.
Qed.

Lemma exec_all_refines ops q l : rep q l ->
  exists l', spec_run l ops (exec_all ops q).1 l' /\ rep (exec_all ops q).2 l'.
Proof.
  revert q l. induction ops as [|o ops IH]; intros q l Hr; simpl; [by exists l; split; [constructor|]|].
  destruct (exec_refines o q l Hr) as (l1 & Hs & Hr1).
  destruct (exec o q) as [r q1]. destruct (IH q1 l1 Hr1) as (l2 & Hs2 & Hr2).
  destruct (exec_all ops q1) as [rs q2]. exists l2. by split; [econstructor|].
Qed.

End ProcQueue.

(** ** A bus subscriber's queue *)

Module BusQueue.
Section BusQueue.

(** [bus.Message] is an open interface; the queue only asks whether a message is
    a [SystemMessage]. *)
Context {Message : Type} (isSystemMessage : Message -> bool).

Record messageQueue := mkMessageQueue { system : list Message; data : list Message }.

#[local] Instance eta_messageQueue : Eta messageQueue :=
  fun q => mkMessageQueue (system q) (data q).

Definition newMessageQueue : messageQueue := mkMessageQueue [] [].

Definition put (m : Message) (q : messageQueue) : messageQueue :=
  if isSystemMessage m then q <| system ::= fun l => l ++ [m] |>
  else q <| data ::= fun l => l ++ [m] |>.

Definition tryGet (q : messageQueue) : option (Message * messageQueue) :=
  match system q, data q with
  | m :: rest, _ => Some (m, q <| system := rest |>)
  | [], m :: rest => Some (m, q <| data := rest |>)
  | [], [] => None
  end.

Definition tier (m : Message) : Z := if isSystemMessage m then 0 else 1.

Definition rep (q : messageQueue) (l : list Message) : Prop :=
  system q = band tier 0 l /\ data q = band tier 1 l.

Lemma bus_rep_put m q l : rep q l -> rep (put m q) (l ++ [m]).
Proof.
  intros (E0 & E1). unfold put, rep, tier.
  destruct (isSystemMessage m) eqn:Hs; simpl; rewrite !band_snoc, ?E0, ?E1, Hs; simpl;
    by rewrite ?app_nil_r.
Qed.

Lemma bus_rep_tryGet q l : rep q l ->
  match tryGet q with
  | None => l = []
  | Some (m, q') => exists l', stable_pick tier l m l' /\ rep q' l'
  end.
Proof.
  intros (E0 & E1). unfold tryGet.
  destruct (system q) as [|y0 y] eqn:Hy; [destruct (data q) as [|o0 o] eqn:Ho|].
  - destruct l as [|x l]; [done|]. exfalso.
    pose proof (band_nil tier 0 _ (eq_sym E0) x ltac:(left)).
    pose proof (band_nil tier 1 _ (eq_sym E1) x ltac:(left)).
    unfold tier in *. destruct (isSystemMessage x); lia.
  - destruct (band_pick tier 1 l o0 o (eq_sym E1)) as (l' & Hp & Hb & Hr).
    { intros z Hz. pose proof (band_nil tier 0 _ (eq_sym E0) z Hz). unfold tier in *.
      destruct (isSystemMessage z); lia. }
    exists l'. split; [done|]. unfold rep; simpl. rewrite Hb, (Hr 0%Z), <- E0 by lia. done.
  - destruct (band_pick tier 0 l y0 y (eq_sym E0)) as (l' & Hp & Hb & Hr).
    { intros z _. unfold tier. destruct (isSystemMessage z); lia. }
    exists l'. split; [done|]. unfold rep; simpl. rewrite Hb, (Hr 1%Z), <- E1 by lia. done.
Qed.

#[global] Instance stable_queue : StableQueue messageQueue Message := {|
  q_empty := newMessageQueue; q_put := put; q_take := tryGet; q_tier := tier; q_rep := rep;
  q_rep_empty := conj eq_refl eq_refl; q_rep_put := bus_rep_put; q_rep_take := bus_rep_tryGet
|}.

End BusQueue.
End BusQueue.

(** ** A sender's queue *)

Module SendQueue.

Record frameQueue := mkFrameQueue {
  items : list Frame;
  (** how many of the queued frames must survive an interruption *)
  uninterruptible : Z
}.

#[export] Instance eta_frameQueue : Eta frameQueue :=
  fun q => mkFrameQueue (items q) (uninterruptible q).

Definition newFrameQueue : frameQueue := mkFrameQueue [] 0.

Definition push (f : Frame) (q : frameQueue) : frameQueue :=
  let q := q <| items ::= fun l => l ++ [f] |> in
  if isUninterruptible f then q <| uninterruptible ::= fun n => (n + 1)%Z |> else q.

Definition tryGet (q : frameQueue) : option (Frame * frameQueue) :=
  match items q with
  | [] => None
  | f :: rest =>
      let q := q <| items := rest |> in
      Some (f, if isUninterruptible f then q <| uninterruptible ::= fun n => (n - 1)%Z |> else q)
  end.

Definition hasUninterruptible (q : frameQueue) : bool := (0 <? uninterruptible q)%Z.

Definition reset (q : frameQueue) : frameQueue :=
  let kept := List.filter isUninterruptible (items q) in
  mkFrameQueue kept (Z.of_nat (length kept)).

(** The count is the number of uninterruptible frames queued. *)
Definition counted (q : frameQueue) : Prop :=
  uninterruptible q = Z.of_nat (length (List.filter isUninterruptible (items q))).

Definition rep (q : frameQueue) (l : list Frame) : Prop := items q = l /\ counted q.

Lemma send_rep_push f q l : rep q l -> rep (push f q) (l ++ [f]).
Proof.
  intros [<- Hc]. unfold rep, counted, push in *.
  destruct (isUninterruptible f) eqn:Hf; simpl;
    rewrite filter_snoc_bool, Hf, length_app, Hc; simpl; (split; [done|lia]).
Qed.

Lemma send_rep_tryGet q l : rep q l ->
  match tryGet q with
  | None => l = []
  | Some (f, q') => exists l', stable_pick (fun _ => 0%Z) l f l' /\ rep q' l'
  end.
Proof.
  intros [<- Hc]. unfold tryGet. destruct (items q) as [|f rest] eqn:E; [done|].
  exists rest. split.
  - exists [], rest. repeat split; [set_solver|lia].
  - unfold counted in Hc. rewrite E in Hc. simpl in Hc. unfold rep, counted.
    destruct (isUninterruptible f); simpl in *; (split; [done|lia]).
Qed.

Lemma send_rep_reset q l : rep q l -> rep (reset q) (List.filter isUninterruptible l).
Proof.
  intros [<- _]. split; [done|]. unfold counted, reset; simpl.
  rewrite filter_filter_comm. do 2 f_equal. apply filter_ext_bool.
  intros x _. by destruct (isUninterruptible x).
Qed.

#[global] Instance stable_queue : StableQueue frameQueue Frame := {|
  q_empty := newFrameQueue; q_put := push; q_take := tryGet; q_tier := fun _ => 0%Z; q_rep := rep;
  q_rep_empty := conj eq_refl eq_refl; q_rep_put := send_rep_push; q_rep_take := send_rep_tryGet
|}.

Inductive op := Push (f : Frame) | Get | Reset.

Definition exec (o : op) (q : frameQueue) : frameQueue :=
  match o with
  | Push f => push f q
  | Get => match tryGet q with Some (_, q') => q' | None => q end
  | Reset => reset q
  end.

Lemma exec_rep o q l : rep q l -> exists l', rep (exec o q) l'.
Proof.
  intros Hr. destruct o as [f| |]; simpl.
  - eexists. by apply send_rep_push.
  - pose proof (send_rep_tryGet q l Hr) as Hg. destruct (tryGet q) as [[x q']|]; [|by exists l].
    destruct Hg as (l' & _ & Hr'). by exists l'.
  - eexists. by apply send_rep_reset.
Qed.

Lemma exec_all_rep ops q l : rep q l -> exists l', rep (fold_left (fun q o => exec o q) ops q) l'.
Proof.
  revert q l. induction ops as [|o ops IH]; intros q l Hr; simpl; [by exists l|].
  destruct (exec_rep o q l Hr) as [l' Hr']. by apply (IH _ l').
Qed.

Lemma counted_has q : counted q ->
  hasUninterruptible q = existsb isUninterruptible (items q).
Proof.
  intros Hc. unfold hasUninterruptible. rewrite Hc.
  induction (items q) as [|f l IH]; [done|]. simpl.
  by destruct (isUninterruptible f).
Qed.

End SendQueue.

(** ** The wake-up protocol

    [push] is two steps, the locked append and then a non-blocking send on the
    one-slot [notify] channel; [get] checks under the lock and, finding nothing,
    blocks on [notify] or the context.  The state records which producers are
    between their two steps, so every interleaving of producers and the single
    consumer is a run of [nstep]. *)

Section Notify.
Context {Q A : Type} `{!StableQueue Q A}.

Inductive consumer := Idle | Checking | Blocked.

Record nstate := mkN {
  n_queue : Q;
  n_token : bool;            (** the notify channel holds a signal *)
  n_pending : nat;           (** producers that appended and have not yet signalled *)
  n_consumer : consumer;
  n_put : list A;            (** everything ever appended, oldest first *)
  n_delivered : list A       (** everything [get] returned, oldest first *)
}.

Definition n_init : nstate := mkN q_empty false 0 Idle [] [].

(** The consumer's and the producers' own progress: no new item is put. *)
Inductive nstep_own : nstate -> nstate -> Prop :=
| own_signal q tok p c i d :
    nstep_own (mkN q tok (S p) c i d) (mkN q true p c i d)
| own_call q tok p i d :
    nstep_own (mkN q tok p Idle i d) (mkN q tok p Checking i d)
| own_found q tok p i d x q' :
    q_take q = Some (x, q') ->
    nstep_own (mkN q tok p Checking i d) (mkN q' tok p Idle i (d ++ [x]))
| own_wait q tok p i d :
    q_take q = None ->
    nstep_own (mkN q tok p Checking i d) (mkN q tok p Blocked i d)
| own_wake q p i d :
    nstep_own (mkN q true p Blocked i d) (mkN q false p Checking i d).

Inductive nstep : nstate -> nstate -> Prop :=
| step_own s s' : nstep_own s s' -> nstep s s'
| step_append q tok p c i d x :
    nstep (mkN q tok p c i d) (mkN (q_put x q) tok (S p) c (i ++ [x]) d)
| step_cancel q tok p i d :
    (* the context is done: [get] returns without an item *)
    nstep (mkN q tok p Blocked i d) (mkN q tok p Idle i d).

(** A blocked consumer with work queued has a signal on its way, and nothing
    put is lost or delivered twice. *)
Record ninv (s : nstate) : Prop := {
  ninv_wake : n_consumer s = Blocked -> is_Some (q_take (n_queue s)) ->
              n_token s = true \/ 0 < n_pending s;
  ninv_conserve : exists l, q_rep (n_queue s) l /\ n_put s ≡ₚ n_delivered s ++ l
}.

Lemma ninv_init : ninv n_init.
Proof. split; [done|]. exists []. split; [apply q_rep_empty|done]. Qed.

Lemma ninv_step s s' : nstep s s' -> ninv s -> ninv s'.
Proof.
  intros Hs [Hw (l & Hr & Hp)].
  destruct Hs as [s s' Ho|q tok p c i d x|q tok p i d]; [destruct Ho| |]; simpl in *.
  - split; simpl; [by left|eauto].
  - split; simpl; [done|eauto].
  - split; simpl; [done|]. pose proof (q_rep_take _ _ Hr) as Ht. rewrite H in Ht.
    destruct Ht as (l' & Hpick & Hr'). exists l'. split; [done|].
    rewrite Hp, (stable_pick_perm _ _ _ _ Hpick). by rewrite <- app_assoc.
  - split; simpl; [|eauto]. rewrite H. by intros _ [? ?].
  - split; simpl; [done|eauto].
  - split; simpl; [right; lia|]. exists (l ++ [x]). split; [by apply q_rep_put|].
    by rewrite Hp, app_assoc.
  - split; simpl; [done|eauto].
Qed.

Lemma ninv_reachable s : rtc nstep n_init s -> ninv s.
Proof.
  intros Hr. apply (rtc_invariant _ _ _ _ Hr); [apply ninv_step|apply ninv_init].
Qed.

(** The consumer is never stranded: without any further put it can take an
    item, provided it is inside [get] (not idle). *)
Lemma ninv_progress s x q' :
  ninv s -> n_consumer s <> Idle -> q_take (n_queue s) = Some (x, q') ->
  exists s', rtc nstep_own s s' /\ n_delivered s' = n_delivered s ++ [x].
Proof.
  intros [Hw _] Hc Ht. destruct s as [q tok p c i d]; simpl in *.
  assert (Hchk : forall tok p, exists s',
    rtc nstep_own (mkN q tok p Checking i d) s' /\ n_delivered s' = d ++ [x]).
  { intros tok' p'. eexists. split; [apply rtc_once; by econstructor|done]. }
  destruct c; [done|apply Hchk|].
  assert (Hblk : forall p, exists s',
    rtc nstep_own (mkN q true p Blocked i d) s' /\ n_delivered s' = d ++ [x]).
  { intros p'. destruct (Hchk false p') as (s' & Hs' & Hd). exists s'. split; [|done].
    eapply rtc_l; [constructor|done]. }
  destruct (Hw eq_refl) as [->|Hpend]; [by rewrite Ht; eexists|apply Hblk|].
  destruct p as [|p]; [lia|]. destruct (Hblk p) as (s' & Hs' & Hd).
  exists s'. split; [|done]. eapply rtc_l; [constructor|done].
Qed.

End Notify.

(** ** The properties *)

(** C7: whatever sequence of [push], [get] and [reset] a processor's queue goes
    through, each [get] returns the earliest arrival of the best tier (the
    StartFrame, then other system frames, then data and control frames), and a
    [reset] drops exactly the interruptible data and control frames: the code
    refines a stable priority queue over the plain list of arrivals. *)
Theorem proc_queue_refines (ops : list ProcQueue.op) :
  exists l, ProcQueue.spec_run [] ops (ProcQueue.exec_all ops ProcQueue.newQueue).1 l /\
            ProcQueue.rep (ProcQueue.exec_all ops ProcQueue.newQueue).2 l.
Proof. apply ProcQueue.exec_all_refines, ProcQueue.proc_rep_empty. Qed.

(** C8: under every interleaving of any number of producers with the single
    consumer, no wake-up is lost and no item is lost or duplicated: everything put
    is either delivered or still queued, and whenever the consumer is inside [get]
    with an item queued, the consumer's and the producers' remaining steps alone
    deliver it. *)
Theorem notify_delivers {Q A : Type} `{!StableQueue Q A} (s : nstate (Q := Q) (A := A)) :
  rtc nstep n_init s ->
  (exists l, q_rep (n_queue s) l /\ n_put s ≡ₚ n_delivered s ++ l) /\
  (forall x q', n_consumer s <> Idle -> q_take (n_queue s) = Some (x, q') ->
     exists s', rtc nstep_own s s' /\ n_delivered s' = n_delivered s ++ [x]).
Proof.
  intros Hr. pose proof (ninv_reachable s Hr) as Hinv. split; [apply Hinv|].
  intros x q' Hc Ht. by apply (ninv_progress s x q').
Qed.

(** A consumer blocked on an empty processor queue, then a frame appended by a
    producer that has not signalled yet. *)
Definition example_item : ProcQueue.item :=
  ProcQueue.mkItem (mkFrame 7 None None "" "" (TranscriptionFrame "hi" true)) Downstream.

Lemma notify_delivers_witness :
  exists s' : nstate (Q := ProcQueue.queue) (A := ProcQueue.item),
    rtc nstep_own
      (mkN (ProcQueue.push example_item ProcQueue.newQueue) false 1 Blocked [example_item] []) s' /\
    n_delivered s' = [example_item].
Proof.
  apply (proj2 (notify_delivers
    (mkN (ProcQueue.push example_item ProcQueue.newQueue) false 1 Blocked [example_item] [])
    ltac:(eapply rtc_l; [apply step_own, own_call|];
          eapply rtc_l; [apply step_own, own_wait; reflexivity|];
          apply rtc_once; exact (step_append ProcQueue.newQueue false 0 Blocked [] [] example_item)))
    example_item ProcQueue.newQueue); [discriminate|reflexivity].
Defined.

(** A sender's queue never miscounts: after any sequence of [push], [tryGet]
    and [reset], [hasUninterruptible] answers exactly whether an uninterruptible
    frame is queued, without walking the queue. *)
Theorem send_queue_count (ops : list SendQueue.op) :
  let q := fold_left (fun q o => SendQueue.exec o q) ops SendQueue.newFrameQueue in
  SendQueue.hasUninterruptible q = existsb isUninterruptible (SendQueue.items q).
Proof.
  intros q. apply SendQueue.counted_has.
  destruct (SendQueue.exec_all_rep ops SendQueue.newFrameQueue []) as [l [_ Hc]]; done.
Qed.
