(* ===== verification/ClockQueue.v ===== *)
(** * The presentation-clock queue

    [src/transport/clockqueue.go]: frames wait in a binary heap ordered by
    presentation timestamp and then by arrival, and the delivery goroutine
    pushes each one when the pipeline clock reaches its timestamp.

    - [Section Heap] models [container/heap] of Go's standard library
      ([Push], [Pop] and their [up] and [down] loops) over [timedHeap]'s
      [Less]/[Swap]/[Push]/[Pop].  The loops run on fuel equal to the length,
      which the proofs show is enough: [up] strictly lowers its index and [down]
      strictly raises it.
    - [Section Queue] models the methods of [clockQueue], and its contract: the
      queue is a stable priority queue on timestamps.
    - [Section Run] models the delivery loop as a step relation, interleaved with
      [push], [drop] and the advancing clock. *)

From S2P Require Import Prelude Float64 Frames Queues.

Module Clock.

(** ** The heap *)

Record timedFrame := mkTimed { pts : Z; seq : Z; frame : Frame }.

#[export] Instance timedFrame_inhabited : Inhabited timedFrame :=
  populate (mkTimed 0 0 (mkFrame 0 None None "" "" StartFrame)).

Section Heap.
Implicit Types (h : list timedFrame) (i j k n : nat) (a b : timedFrame).

(** The comparison of [timedHeap.Less], on elements. *)
Definition lessb a b : bool :=
  if negb (pts a =? pts b)%Z then (pts a <? pts b)%Z else (seq a <? seq b)%Z.

Definition Less h i j : bool := lessb (h !!! i) (h !!! j).

Definition Swap h i j : list timedFrame := <[i := h !!! j]> (<[j := h !!! i]> h).

(** [heap.up] *)
Fixpoint up (fuel : nat) h j : list timedFrame :=
  match fuel with
  | O => h
  | S fuel =>
      let i := (j - 1) / 2 in
      if (i =? j)%nat || negb (Less h j i) then h
      else up fuel (Swap h i j) i
  end.

(** [heap.down], over the first [n] elements. *)
Fixpoint down (fuel : nat) h i n : list timedFrame :=
  match fuel with
  | O => h
  | S fuel =>
      let j1 := 2 * i + 1 in
      if (n <=? j1)%nat then h
      else
        let j2 := j1 + 1 in
        let j := if (j2 <? n)%nat && Less h j2 j1 then j2 else j1 in
        if negb (Less h j i) then h
        else down fuel (Swap h i j) j n
  end.

(** [heap.Push(h, x)] *)
Definition heap_push h (x : timedFrame) : list timedFrame :=
  let h := h ++ [x] in up (length h) h (length h - 1).

(** [heap.Pop(h)] of a nonempty heap: the root and what is left.  Go panics on an
    empty heap; the one caller checks first. *)
Definition heap_pop h : option (timedFrame * list timedFrame) :=
  match h with
  | [] => None
  | _ =>
      let n := length h - 1 in
      let h := down (length h) (Swap h 0 n) 0 n in
      Some (h !!! n, take n h)
  end.

(** *** The order *)

Definition le a b : Prop :=
  (pts a < pts b \/ (pts a = pts b /\ seq a <= seq b))%Z.

Lemma lessb_true a b : lessb a b = true <-> ~ le b a.
Proof.
  unfold lessb, le. destruct (Z.eqb_spec (pts a) (pts b)); simpl;
    [destruct (Z.ltb_spec (seq a) (seq b))|destruct (Z.ltb_spec (pts a) (pts b))]; split; (done || lia).
Qed.

Lemma lessb_false a b : lessb a b = false <-> le b a.
Proof.
  destruct (lessb a b) eqn:E; split; try done.
  - by intros ?%(proj1 (lessb_true a b) E).
  - intros _. destruct (decide (pts b < pts a)%Z) as [|H1]; [by left|].
    destruct (decide (pts b = pts a /\ (seq b <= seq a)%Z)) as [|H2]; [by right|].
    exfalso. assert (lessb a b = true) as Ht; [|congruence].
    apply lessb_true. unfold le. tauto.
Qed.

Lemma tle_refl a : le a a.
Proof. unfold le. lia. Qed.
Lemma tle_trans a b c : le a b -> le b c -> le a c.
Proof. unfold le. lia. Qed.
Lemma not_le a b : ~ le a b -> le b a.
Proof. unfold le. lia. Qed.

(** *** Swapping *)

Lemma length_Swap h i j : length (Swap h i j) = length h.
Proof. unfold Swap. by rewrite !length_insert. Qed.

Lemma Swap_lookup h i j k :
  i < length h -> j < length h ->
  Swap h i j !!! k = if decide (k = i) then h !!! j else if decide (k = j) then h !!! i else h !!! k.
Proof.
  intros Hi Hj. unfold Swap. destruct (decide (k = i)) as [->|Hki].
  - apply list_lookup_total_insert_eq. by rewrite length_insert.
  - rewrite list_lookup_total_insert_ne by done. destruct (decide (k = j)) as [->|Hkj].
    + by apply list_lookup_total_insert_eq.
    + by apply list_lookup_total_insert_ne.
Qed.

Lemma Swap_perm h i j : i < length h -> j < length h -> Swap h i j ≡ₚ h.
Proof.
  intros Hi Hj. unfold Swap.
  destruct (decide (i = j)) as [->|Hij].
  - rewrite list_insert_insert_eq. by rewrite list_insert_id by (by apply list_lookup_lookup_total_lt).
  - apply Permutation_inj. split; [by rewrite !length_insert|].
    exists (fun k => if decide (k = i) then j else if decide (k = j) then i else k). split.
    + intros x y. repeat case_decide; congruence.
    + intros k. repeat case_decide; subst.
      * rewrite list_lookup_insert_eq by (by rewrite length_insert).
        symmetry. by apply list_lookup_lookup_total_lt.
      * rewrite list_lookup_insert_ne by done. rewrite list_lookup_insert_eq by done.
        symmetry. by apply list_lookup_lookup_total_lt.
      * by rewrite !list_lookup_insert_ne by done.
Qed.

(** *** The heap property *)

Definition parent k : nat := (k - 1) / 2.

Definition heap_upto n h : Prop :=
  forall k, 0 < k < n -> le (h !!! parent k) (h !!! k).

Definition is_heap h : Prop := heap_upto (length h) h.

Lemma parent_lt k : 0 < k -> parent k < k.
Proof. unfold parent. intros. div_lia. Qed.

Lemma parent_spec k i : 0 < k -> parent k = i <-> k = 2 * i + 1 \/ k = 2 * i + 2.
Proof. unfold parent. intros. div_lia. Qed.

(** The root of a heap is its least element. *)
Lemma heap_root_le n h k : heap_upto n h -> k < n -> le (h !!! 0) (h !!! k).
Proof.
  intros Hh. induction k as [k IH] using lt_wf_ind. intros Hk.
  destruct (decide (k = 0)) as [->|Hk0]; [apply tle_refl|].
  apply (tle_trans _ (h !!! parent k)).
  - apply IH; [apply parent_lt; lia|]. pose proof (parent_lt k). lia.
  - apply Hh. lia.
Qed.

(** [up]: the property may fail only between [j] and its parent, and then only
    because [j] is too small. *)
Definition up_inv h j : Prop :=
  j < length h /\
  (forall k, 0 < k < length h -> k <> j -> le (h !!! parent k) (h !!! k)) /\
  (forall k, 0 < k < length h -> parent k = j -> 0 < j -> le (h !!! parent j) (h !!! k)).

Lemma up_swap h j :
  up_inv h j -> 0 < j -> lessb (h !!! j) (h !!! parent j) = true ->
  up_inv (Swap h (parent j) j) (parent j).
Proof.
  intros (Hj & Hheap & Hgrand) Hj0 Hless%lessb_true%not_le.
  pose proof (parent_lt j Hj0) as Hp.
  split; [rewrite length_Swap; lia|]. rewrite !length_Swap. split.
  - intros k Hk Hkp. rewrite !Swap_lookup by lia.
    destruct (decide (k = j)) as [->|Hkj].
    + repeat case_decide; try lia; done.
    + pose proof (Hheap k Hk Hkj) as Hk1. pose proof (parent_lt k).
      rewrite (decide_False (P := k = parent j)) by done.
      destruct (decide (parent k = parent j)) as [E|E].
      * rewrite E in Hk1. by apply (tle_trans _ (h !!! parent j)).
      * destruct (decide (parent k = j)) as [E'|E']; [|done].
        by apply Hgrand.
  - intros k Hk Hkp Hp0. pose proof (parent_lt (parent j) Hp0). rewrite !Swap_lookup by lia.
    rewrite (decide_False (P := parent (parent j) = parent j)) by lia.
    rewrite (decide_False (P := parent (parent j) = j)) by lia.
    assert (le (h !!! parent (parent j)) (h !!! parent j)) as Hpp by (apply Hheap; lia).
    pose proof (parent_lt k). rewrite (decide_False (P := k = parent j)) by lia.
    destruct (decide (k = j)) as [->|Hkj]; [done|].
    apply (tle_trans _ (h !!! parent j)); [done|]. rewrite <- Hkp. apply Hheap; [lia|done].
Qed.

Lemma up_ok fuel h j :
  j < fuel -> up_inv h j -> is_heap (up fuel h j) /\ up fuel h j ≡ₚ h.
Proof.
  revert h j. induction fuel as [|fuel IH]; intros h j Hf Hinv; [lia|].
  cbn [up]. change ((j - 1) / 2) with (parent j). destruct (Nat.eqb_spec (parent j) j) as [E|E]; simpl.
  - split; [|done]. destruct Hinv as (Hj & Hheap & _). intros k Hk. apply Hheap; [done|].
    intros ->. pose proof (parent_lt j). lia.
  - assert (0 < j) as Hj0 by (destruct j; [by destruct E|lia]). unfold Less.
    destruct (lessb (h !!! j) (h !!! parent j)) eqn:Hless; simpl.
    + destruct (IH (Swap h (parent j) j) (parent j)) as [Hh Hp].
      * pose proof (parent_lt j Hj0). lia.
      * by apply up_swap.
      * split; [done|]. rewrite Hp. destruct Hinv as (Hj & _).
        pose proof (parent_lt j Hj0). apply Swap_perm; lia.
    + split; [|done]. apply lessb_false in Hless. destruct Hinv as (Hj & Hheap & _).
      intros k Hk. destruct (decide (k = j)) as [->|]; [done|by apply Hheap].
Qed.

(** [down]: the property may fail only between [i] and its children. *)
Definition down_inv n h i : Prop :=
  n <= length h /\
  (forall k, 0 < k < n -> parent k <> i -> le (h !!! parent k) (h !!! k)) /\
  (forall k, 0 < k < n -> parent k = i -> 0 < i -> le (h !!! parent i) (h !!! k)).

Lemma down_swap n h i j :
  down_inv n h i -> j < n -> 0 < j -> parent j = i ->
  (forall k, 0 < k < n -> parent k = i -> le (h !!! j) (h !!! k)) ->
  lessb (h !!! j) (h !!! i) = true ->
  down_inv n (Swap h i j) j.
Proof.
  intros (Hn & Hheap & Hgrand) Hjn Hj0 Hpj Hmin Hless%lessb_true%not_le.
  pose proof (parent_lt j Hj0) as Hij. rewrite Hpj in Hij.
  split; [by rewrite length_Swap|]. split.
  - intros k Hk Hkj. pose proof (parent_lt k). rewrite !Swap_lookup by lia.
    rewrite (decide_False (P := parent k = j)) by done.
    destruct (decide (parent k = i)) as [E|E].
    + rewrite (decide_False (P := k = i)) by lia.
      destruct (decide (k = j)) as [->|Hkj']; [done|by apply Hmin].
    + destruct (decide (k = i)) as [->|Hki].
      * rewrite <- Hpj at 1. rewrite Hpj. apply Hgrand; lia.
      * rewrite (decide_False (P := k = j)) by congruence. by apply Hheap.
  - intros k Hk Hkj _. pose proof (parent_lt k). rewrite !Swap_lookup by lia.
    rewrite Hpj. rewrite (decide_True (P := i = i)) by done.
    rewrite (decide_False (P := k = i)) by lia. rewrite (decide_False (P := k = j)) by lia.
    rewrite <- Hkj. apply Hheap; [done|lia].
Qed.

Lemma down_stop n h i :
  down_inv n h i -> (forall k, 0 < k < n -> parent k = i -> le (h !!! i) (h !!! k)) -> heap_upto n h.
Proof.
  intros (_ & Hheap & _) Hc k Hk. destruct (decide (parent k = i)) as [E|E]; [|by apply Hheap].
  rewrite E. by apply Hc.
Qed.

(** The child [down] compares against is the lesser of the two. *)
Lemma down_child n h i :
  2 * i + 1 < n ->
  let j := if (2 * i + 1 + 1 <? n)%nat && Less h (2 * i + 1 + 1) (2 * i + 1)
           then 2 * i + 1 + 1 else 2 * i + 1 in
  0 < j < n /\ parent j = i /\ (forall k, 0 < k < n -> parent k = i -> le (h !!! j) (h !!! k)).
Proof.
  intros Hn j. unfold Less in j.
  assert (forall k, 0 < k < n -> parent k = i -> k = 2 * i + 1 \/ k = 2 * i + 1 + 1) as Hk.
  { intros k Hk Hp. apply parent_spec in Hp; lia. }
  destruct (Nat.ltb_spec (2 * i + 1 + 1) n) as [H2|H2];
    [destruct (lessb (h !!! (2 * i + 1 + 1)) (h !!! (2 * i + 1))) eqn:E|]; subst j; simpl.
  - apply lessb_true, not_le in E. split; [lia|]. split; [unfold parent; div_lia|].
    intros k Hkn Hkp. destruct (Hk k Hkn Hkp) as [->| ->]; [done|apply tle_refl].
  - apply lessb_false in E. split; [lia|]. split; [unfold parent; div_lia|].
    intros k Hkn Hkp. destruct (Hk k Hkn Hkp) as [->| ->]; [apply tle_refl|done].
  - split; [lia|]. split; [unfold parent; div_lia|].
    intros k Hkn Hkp. destruct (Hk k Hkn Hkp) as [->| ->]; [apply tle_refl|lia].
Qed.

Lemma down_ok fuel n h i :
  n <= fuel + i -> down_inv n h i ->
  let h' := down fuel h i n in
  heap_upto n h' /\ h' ≡ₚ h /\ length h' = length h /\
  (forall k, n <= k -> k < length h -> h' !!! k = h !!! k).
Proof.
  revert h i. induction fuel as [|fuel IH]; intros h i Hf Hinv; cbn [down].
  { split; [|done]. apply (down_stop n h i); [done|]. intros k Hk Hp.
    pose proof (parent_lt k). lia. }
  destruct (Nat.leb_spec n (2 * i + 1)) as [Hn|Hn].
  { split; [|done]. apply (down_stop n h i); [done|]. intros k Hk Hp.
    apply parent_spec in Hp; lia. }
  destruct (down_child n h i Hn) as (Hj & Hpj & Hmin).
  set (j := if (2 * i + 1 + 1 <? n)%nat && Less h (2 * i + 1 + 1) (2 * i + 1)
            then 2 * i + 1 + 1 else 2 * i + 1) in *.
  unfold Less. destruct (lessb (h !!! j) (h !!! i)) eqn:E; simpl.
  - pose proof (parent_lt j). pose proof (proj1 Hinv).
    destruct (IH (Swap h i j) j) as (H1 & H2 & H3 & H4).
    + lia.
    + apply down_swap; try done; lia.
    + split; [done|]. split; [rewrite H2; apply Swap_perm; lia|].
      rewrite length_Swap in *. split; [done|].
      intros k Hk Hkl. rewrite H4, Swap_lookup by lia. repeat case_decide; try lia; done.
  - split; [|done]. apply lessb_false in E. apply (down_stop n h i); [done|].
    intros k Hk Hp. apply (tle_trans _ (h !!! j)); [done|by apply Hmin].
Qed.

(** *** [Push] and [Pop] keep the heap a heap *)

Lemma heap_push_ok h x : is_heap h -> is_heap (heap_push h x) /\ heap_push h x ≡ₚ x :: h.
Proof.
  intros Hh. unfold heap_push. rewrite length_app; simpl.
  destruct (up_ok (length h + 1) (h ++ [x]) (length h + 1 - 1)) as [H1 H2]; [lia| |].
  - split; [rewrite length_app; simpl; lia|]. split; intros k Hk; rewrite length_app in Hk; simpl in Hk.
    + intros Hne. pose proof (parent_lt k).
      rewrite !lookup_total_app_l by lia. apply Hh. lia.
    + intros Hp. pose proof (parent_lt k). lia.
  - split; [done|]. rewrite H2. by rewrite Permutation_app_comm.
Qed.

Lemma heap_pop_eq h : h <> [] ->
  let n := length h - 1 in
  let d := down (length h) (Swap h 0 n) 0 n in
  heap_pop h = Some (d !!! n, take n d).
Proof. by destruct h. Qed.

Lemma take_snoc_last (d : list timedFrame) n :
  length d = S n -> take n d ++ [d !!! n] = d.
Proof.
  intros Hlen. rewrite <- (take_drop n d) at 3. f_equal.
  rewrite (drop_S d (d !!! n) n) by (apply list_lookup_lookup_total_lt; lia).
  by rewrite drop_ge by lia.
Qed.

Lemma heap_pop_ok h x h' :
  is_heap h -> heap_pop h = Some (x, h') ->
  is_heap h' /\ h ≡ₚ x :: h' /\ x = h !!! 0 /\ (forall y, y ∈ h -> le x y).
Proof.
  intros Hh Hpop. assert (h <> []) as Hne by (by intros ->).
  rewrite heap_pop_eq in Hpop by done.
  assert (0 < length h) as Hlen by (destruct h; [done|simpl; lia]).
  set (n := length h - 1) in *. cbv zeta in Hpop.
  destruct (down_ok (length h) n (Swap h 0 n) 0) as (H1 & H2 & H3 & H4).
  - lia.
  - split; [rewrite length_Swap; lia|]. split; intros k Hk Hp; [|lia].
    pose proof (parent_lt k). rewrite !Swap_lookup by lia.
    repeat case_decide; try lia. apply Hh. lia.
  - set (d := down (length h) (Swap h 0 n) 0 n) in *. rewrite length_Swap in *.
    injection Hpop as Hx <-.
    assert (x = h !!! 0) as Hroot.
    { rewrite <- Hx, H4, Swap_lookup by lia. repeat case_decide; (done || congruence || lia). }
    split; [|split; [|split; [done|]]].
    + intros k Hk. rewrite length_take in Hk. pose proof (parent_lt k).
      rewrite !lookup_total_take, !decide_True by lia. apply H1. lia.
    + rewrite <- (Swap_perm h 0 n) by lia. rewrite <- H2.
      rewrite <- (take_snoc_last d n) at 1 by lia. rewrite Hx. by rewrite Permutation_app_comm.
    + intros y Hy. rewrite Hroot. apply list_elem_of_lookup in Hy as [k Hk].
      pose proof (lookup_lt_Some _ _ _ Hk). apply list_lookup_total_correct in Hk as <-.
      by apply (heap_root_le (length h)).
Qed.

End Heap.

(** ** The queue's methods *)

Record clockQueue := mkClockQueue { heap : list timedFrame; nextSeq : Z }.

#[export] Instance eta_clockQueue : Eta clockQueue := fun q => mkClockQueue (heap q) (nextSeq q).

Definition newClockQueue : clockQueue := mkClockQueue [] 0.

(** [drop], and the part of [stop] that empties the queue. *)
Definition drop (q : clockQueue) : clockQueue := q <| heap := [] |>.

(** The locked part of [push]; the sequence counter is a [uint64]. *)
Definition push (p : Z) (f : Frame) (q : clockQueue) : clockQueue :=
  mkClockQueue (heap_push (heap q) (mkTimed (int64 p) (nextSeq q) f)) (wrapU 64 (nextSeq q + 1)).

Definition next (q : clockQueue) : option timedFrame :=
  match heap q with [] => None | h => Some (h !!! 0) end.

Definition take (s : Z) (q : clockQueue) : option timedFrame * clockQueue :=
  match heap q with
  | [] => (None, q)
  | h =>
      if negb (seq (h !!! 0%nat) =? s)%Z then (None, q)
      else match heap_pop h with
           | Some (it, h') => (Some it, q <| heap := h' |>)
           | None => (None, q)
           end
  end.

Section Queue.
Implicit Types (q : clockQueue) (l : list timedFrame) (x y : timedFrame).

(** The frames waiting, in arrival order. *)
Definition rep q l : Prop :=
  is_heap (heap q) /\ heap q ≡ₚ l /\
  StronglySorted (fun a b => (seq a < seq b)%Z) l /\
  (forall a, a ∈ l -> (0 <= seq a < nextSeq q)%Z) /\ (0 <= nextSeq q)%Z.

Lemma clock_rep_new : rep newClockQueue [].
Proof. split; [intros k Hk; simpl in Hk; lia|]. repeat split; simpl; (constructor || set_solver || lia). Qed.

Lemma clock_rep_drop q l : rep q l -> rep (drop q) [].
Proof.
  intros (_ & _ & _ & _ & Hs). split; [intros k Hk; simpl in Hk; lia|].
  repeat split; simpl; (constructor || set_solver || lia).
Qed.

Lemma clock_rep_push p f q l :
  rep q l -> (nextSeq q + 1 < 2 ^ 64)%Z ->
  rep (push p f q) (l ++ [mkTimed (int64 p) (nextSeq q) f]).
Proof.
  intros (Hh & Hp & Hs & Hb & H0) Hov. unfold rep, push; simpl.
  destruct (heap_push_ok (heap q) (mkTimed (int64 p) (nextSeq q) f) Hh) as [H1 H2].
  rewrite wrapU_id by lia. split; [done|]. split; [|split; [|split]].
  - rewrite H2, Hp. by rewrite Permutation_app_comm.
  - apply StronglySorted_app_2; [|done|repeat constructor].
    intros a b Ha ->%list_elem_of_singleton. simpl. by apply Hb.
  - intros a [Ha| ->%list_elem_of_singleton]%elem_of_app; simpl; [|lia]. specialize (Hb a Ha). lia.
  - lia.
Qed.

(** The least element by timestamp and arrival is the stable pick on
    timestamps. *)
Lemma least_is_pick l x :
  StronglySorted (fun a b => (seq a < seq b)%Z) l -> x ∈ l -> (forall y, y ∈ l -> le x y) ->
  exists l', stable_pick pts l x l' /\ StronglySorted (fun a b => (seq a < seq b)%Z) l'.
Proof.
  intros Hs Hx Hmin. apply list_elem_of_split in Hx as (l1 & l2 & ->).
  exists (l1 ++ l2). split.
  - exists l1, l2. split; [done|]. split; [done|]. split; intros y Hy.
    + assert (seq y < seq x)%Z by (apply (StronglySorted_app_1_elem_of _ _ _ y x Hs); [done|left]).
      specialize (Hmin y ltac:(set_solver)). unfold le in Hmin. lia.
    + specialize (Hmin y ltac:(set_solver)). unfold le in Hmin. lia.
  - apply StronglySorted_app_2.
    + intros a b Ha Hb. eapply (StronglySorted_app_1_elem_of _ _ _ a b Hs); [done|by right].
    + by eapply StronglySorted_app_1_l.
    + apply StronglySorted_app_1_r in Hs. by inversion Hs.
Qed.

Lemma clock_rep_next q l : rep q l ->
  match next q with
  | None => l = []
  | Some x => exists l', stable_pick pts l x l'
  end.
Proof.
  intros (Hh & Hp & Hs & _). unfold next. destruct (heap q) as [|a h] eqn:E.
  - by apply Permutation_nil in Hp.
  - destruct (least_is_pick l ((a :: h) !!! 0) Hs) as (l' & Hl' & _).
    + rewrite <- Hp. left.
    + intros y Hy. rewrite <- Hp in Hy. apply list_elem_of_lookup in Hy as [k Hk].
      pose proof (lookup_lt_Some _ _ _ Hk). apply list_lookup_total_correct in Hk as <-.
      by apply (heap_root_le (length (a :: h))).
    + by exists l'.
Qed.

(** [take s] removes the earliest frame exactly when it is the one with sequence
    [s]; otherwise nothing changes. *)
Lemma clock_rep_take s q l : rep q l ->
  match take s q with
  | (Some x, q') => next q = Some x /\ seq x = s /\ exists l', stable_pick pts l x l' /\ rep q' l'
  | (None, q') => q' = q /\ forall x, next q = Some x -> seq x <> s
  end.
Proof.
  intros (Hh & Hp & Hs & Hb & H0). unfold take, next. destruct (heap q) as [|a h] eqn:E; [done|].
  destruct (Z.eqb_spec (seq ((a :: h) !!! 0)) s) as [Hseq|Hseq]; cbn [negb]; [|split; [done|by intros x [= <-]]].
  destruct (heap_pop (a :: h)) as [[it h']|] eqn:Hpop; [|by rewrite heap_pop_eq in Hpop].
  destruct (heap_pop_ok (a :: h) it h' Hh Hpop) as (H1 & H2 & H3 & H4).
  split; [by rewrite H3|]. split; [by rewrite H3|].
  destruct (least_is_pick l it Hs) as (l' & Hl' & Hs').
  - rewrite <- Hp, H2. left.
  - intros y Hy. apply H4. by rewrite Hp.
  - exists l'. split; [done|]. unfold rep; simpl. split; [done|].
    pose proof (stable_pick_perm _ _ _ _ Hl') as Hperm.
    split; [apply (Permutation_cons_inv (a := it)); by rewrite <- H2, Hp, Hperm|].
    split; [done|]. split; [|done]. intros y Hy. apply Hb. rewrite Hperm. by right.
Qed.

End Queue.

(** ** The delivery loop *)

Section Run.

(** Where the goroutine of [run] is. *)
Inductive phase :=
| Look                       (** about to call [next] *)
| WaitNotify                 (** nothing queued: blocked on [notify] *)
| Sleeping (it : timedFrame) (** blocked on the timer or [notify] *)
| Due (it : timedFrame)      (** about to call [take it.seq] *)
| Ended.                     (** the context is done *)

Record rstate := mkR {
  r_queue : clockQueue;
  r_token : bool;                      (** the notify channel holds a signal *)
  r_pending : nat;                     (** pushes between their append and their signal *)
  r_now : Z;                           (** the pipeline clock *)
  r_phase : phase;
  r_out : list (Z * timedFrame)        (** frames pushed downstream, with the time *)
}.

(** The goroutine's own steps.  The timer set for [it.pts - now] fires once the
    clock has reached [it.pts]. *)
Inductive rstep_own : rstate -> rstate -> Prop :=
| run_empty q k p t o :
    next q = None -> rstep_own (mkR q k p t Look o) (mkR q k p t WaitNotify o)
| run_notified q p t o :
    rstep_own (mkR q true p t WaitNotify o) (mkR q false p t Look o)
| run_future q k p t o it :
    next q = Some it -> (0 < pts it - t)%Z ->
    rstep_own (mkR q k p t Look o) (mkR q k p t (Sleeping it) o)
| run_past q k p t o it :
    next q = Some it -> (pts it - t <= 0)%Z ->
    rstep_own (mkR q k p t Look o) (mkR q k p t (Due it) o)
| run_recheck q p t o it :
    rstep_own (mkR q true p t (Sleeping it) o) (mkR q false p t Look o)
| run_timer q k p t o it :
    (pts it <= t)%Z -> rstep_own (mkR q k p t (Sleeping it) o) (mkR q k p t (Due it) o)
| run_taken q q' k p t o it x :
    take (seq it) q = (Some x, q') ->
    rstep_own (mkR q k p t (Due it) o) (mkR q' k p t Look (o ++ [(t, x)]))
| run_missed q q' k p t o it :
    take (seq it) q = (None, q') -> rstep_own (mkR q k p t (Due it) o) (mkR q' k p t Look o)
| run_done q k p t ph o :
    rstep_own (mkR q k p t ph o) (mkR q k p t Ended o).

Inductive rstep : rstate -> rstate -> Prop :=
| rs_own s s' : rstep_own s s' -> rstep s s'
| rs_append q k p t ph o pt f :
    (nextSeq q + 1 < 2 ^ 64)%Z ->
    rstep (mkR q k p t ph o) (mkR (push pt f q) k (S p) t ph o)
| rs_signal q k p t ph o : rstep (mkR q k (S p) t ph o) (mkR q true p t ph o)
| rs_drop q k p t ph o : rstep (mkR q k p t ph o) (mkR (drop q) k p t ph o)
| rs_tick q k p t t' ph o : (t <= t')%Z -> rstep (mkR q k p t ph o) (mkR q k p t' ph o).

Definition r_init (t : Z) : rstate := mkR newClockQueue false 0 t Look [].

(** Something will make the goroutine look again. *)
Definition stirring (s : rstate) : Prop := r_token s = true \/ 0 < r_pending s.

(** The frame the goroutine saw and has yet to take. *)
Definition held (ph : phase) : option timedFrame :=
  match ph with Sleeping it | Due it => Some it | _ => None end.

(** Sequence numbers are never reused: whatever is queued under the number of
    the frame held is that very frame. *)
Definition owns (q : clockQueue) (it : timedFrame) : Prop :=
  (seq it < nextSeq q)%Z /\ forall a, a ∈ heap q -> seq a = seq it -> a = it.

Lemma owns_next q l it : rep q l -> next q = Some it -> owns q it.
Proof.
  intros (_ & Hp & Hs & Hb & _) Hn.
  assert (it ∈ heap q) as Hit.
  { unfold next in Hn. destruct (heap q) as [|a h]; simplify_eq/=. left. }
  split; [apply Hb; by rewrite <- Hp|]. intros a Ha Hseq. rewrite Hp in Ha, Hit.
  apply list_elem_of_split in Hit as (l1 & l2 & ->).
  apply elem_of_app in Ha as [Ha|[->|Ha]%elem_of_cons]; [|done|]; exfalso.
  - pose proof (StronglySorted_app_1_elem_of _ _ _ a it Hs Ha ltac:(left)) as H1. simpl in H1. lia.
  - apply StronglySorted_app_1_r in Hs. inversion Hs as [|? ? _ Hall]; subst.
    rewrite Forall_forall in Hall. specialize (Hall a Ha). simpl in Hall. lia.
Qed.

Lemma owns_push q it pt f :
  is_heap (heap q) -> (0 <= nextSeq q)%Z -> (nextSeq q + 1 < 2 ^ 64)%Z -> owns q it -> owns (push pt f q) it.
Proof.
  intros Hh H0 Hov [Hlt Hu]. unfold owns, push; simpl. rewrite wrapU_id by lia. split; [lia|].
  intros a Ha Hseq. destruct (heap_push_ok (heap q) (mkTimed (int64 pt) (nextSeq q) f) Hh) as [_ Hp].
  rewrite Hp in Ha. apply elem_of_cons in Ha as [->|Ha]; [simpl in Hseq; lia|by apply Hu].
Qed.

Lemma take_owned q l it x q' :
  rep q l -> owns q it -> take (seq it) q = (Some x, q') -> x = it.
Proof.
  intros Hr [_ Hu] Ht. pose proof (clock_rep_take (seq it) q l Hr) as Hk. rewrite Ht in Hk.
  destruct Hk as (Hn & Hseq & _). apply Hu; [|done].
  unfold next in Hn. destruct (heap q) as [|a h]; simplify_eq/=. left.
Qed.

Record rinv (s : rstate) : Prop := {
  rinv_rep : exists l, rep (r_queue s) l;
  rinv_held : forall it, held (r_phase s) = Some it -> owns (r_queue s) it;
  rinv_due : forall it, r_phase s = Due it -> (pts it <= r_now s)%Z;
  rinv_out : Forall (fun o => (pts o.2 <= o.1 <= r_now s)%Z) (r_out s);
  rinv_sleep : forall it, r_phase s = Sleeping it ->
    stirring s \/ next (r_queue s) = None \/ next (r_queue s) = Some it;
  rinv_wait : r_phase s = WaitNotify -> stirring s \/ next (r_queue s) = None
}.

Lemma rinv_init t : rinv (r_init t).
Proof. split; simpl; try done. by exists []; apply clock_rep_new. Qed.

Lemma rinv_own s s' : rstep_own s s' -> rinv s -> rinv s'.
Proof.
  intros Hs [[l Hr] Hh Hd Ho Hsl Hw].
  destruct Hs as [| | | | | |q q' k p t o it x Ht|q q' k p t o it Ht|]; simpl in *;
    split; simpl; try done; unfold stirring in *; simpl in *; eauto.
  - intros it' [= ->]. by eapply owns_next.
  - intros it' [= ->]. eauto.
  - intros it' [= ->]. by eapply owns_next.
  - intros it' [= ->]. lia.
  - intros it' [= ->]. done.
  - pose proof (clock_rep_take (seq it) q l Hr) as Hk. rewrite Ht in Hk.
    destruct Hk as (_ & _ & l' & _ & Hr'). eauto.
  - apply Forall_app. split; [done|]. repeat constructor; simpl; [|lia].
    rewrite (take_owned q l it x q'); eauto.
  - pose proof (clock_rep_take (seq it) q l Hr) as Hk. rewrite Ht in Hk. destruct Hk as [-> _]. eauto.
Qed.

Lemma rinv_step s s' : rstep s s' -> rinv s -> rinv s'.
Proof.
  intros [s1 s2 Hown|q k p t ph o pt f Hov|q k p t ph o|q k p t ph o|q k p t t' ph o Ht] Hinv;
    [by apply (rinv_own s1)|..]; destruct Hinv as [[l Hr] Hh Hd Ho Hsl Hw]; simpl in *;
    split; simpl; try done; unfold stirring in *; simpl in *; eauto.
  - eexists. by apply clock_rep_push.
  - intros it Hit. destruct Hr as (? & _ & _ & _ & ?). apply owns_push; eauto.
  - intros it Hit. left. right. lia.
  - intros _. left. right. lia.
  - exists []. by apply (clock_rep_drop q l).
  - intros it Hit. destruct (Hh it Hit) as [H1 _]. split; [done|]. simpl. set_solver.
  - intros it Hit. specialize (Hd it Hit). lia.
  - apply (Forall_impl _ _ _ Ho). intros [a b]; simpl. lia.
Qed.

Lemma rinv_reachable t s : rtc rstep (r_init t) s -> rinv s.
Proof. intros Hr. apply (rtc_invariant _ _ _ _ Hr); [apply rinv_step|apply rinv_init]. Qed.

(** What a delivery does: it removes the earliest frame queued. *)
Lemma delivery_is_pick s s' l :
  rinv s -> rep (r_queue s) l -> rstep s s' -> r_out s' <> r_out s ->
  exists it l', r_out s' = r_out s ++ [(r_now s, it)] /\ (pts it <= r_now s)%Z /\
    stable_pick pts l it l' /\ rep (r_queue s') l'.
Proof.
  intros [_ Hh Hd _ _ _] Hr Hs Hne.
  destruct Hs as [s1 s2 Hown| | | |]; [|done..].
  destruct Hown as [| | | | | |q q' k p t o it x Ht| |]; try done; simpl in *.
  pose proof (take_owned q l it x q' Hr (Hh it eq_refl) Ht) as ->.
  pose proof (clock_rep_take (seq it) q l Hr) as Hk. rewrite Ht in Hk.
  destruct Hk as (_ & _ & l' & Hp & Hr'). exists it, l'. eauto.
Qed.

End Run.

(** ** The properties *)

(** C9: in every reachable state of the delivery goroutine, with pushes, drops and
    the clock interleaved at will, a frame that goes out is the earliest one queued
    (by timestamp, then by arrival), it goes out no earlier than its timestamp, and
    it leaves the queue: a frame dropped after it was seen is never delivered. *)
Theorem clock_delivers_earliest t s s' l :
  rtc rstep (r_init t) s -> rep (r_queue s) l -> rstep s s' -> r_out s' <> r_out s ->
  exists it l', r_out s' = r_out s ++ [(r_now s, it)] /\ (pts it <= r_now s)%Z /\
    stable_pick pts l it l' /\ rep (r_queue s') l'.
Proof. intros Hr. apply delivery_is_pick. by apply (rinv_reachable t). Qed.

Definition example_frame : Frame := mkFrame 1 None None "" "" (InterimTranscriptionFrame "word").

(** The state with one frame, timestamped 5, found due at time 9. *)
Definition example_due : rstate :=
  mkR (push 5 example_frame newClockQueue) false 1 9 (Due (mkTimed 5 0 example_frame)) [].

Lemma example_due_reachable : rtc rstep (r_init 9) example_due.
Proof.
  eapply rtc_l; [apply (rs_append _ _ _ _ _ _ 5 example_frame); reflexivity|].
  apply rtc_once, rs_own. apply run_past; [reflexivity|simpl; lia].
Qed.

Lemma clock_delivers_earliest_witness :
  exists it l', [(9%Z, mkTimed 5 0 example_frame)] = [] ++ [(9%Z, it)] /\ (pts it <= 9)%Z /\
    stable_pick pts [mkTimed 5 0 example_frame] it l' /\ rep (mkClockQueue [] 1) l'.
Proof.
  apply (clock_delivers_earliest 9 example_due
    (mkR (mkClockQueue [] 1) false 1 9 Look [(9%Z, mkTimed 5 0 example_frame)])).
  - exact example_due_reachable.
  - apply (clock_rep_push 5 example_frame newClockQueue []); [apply clock_rep_new|reflexivity].
  - apply rs_own. apply (run_taken (r_queue example_due) _ false 1 9 [] (mkTimed 5 0 example_frame)
      (mkTimed 5 0 example_frame)). reflexivity.
  - discriminate.
Defined.

(** The goroutine never oversleeps: while it is blocked on the timer of one
    frame, if an earlier frame has been queued since then a signal that makes it
    look again is pending (sent, or about to be sent by the producer); and blocked
    with nothing queued, any frame queued since comes with such a signal. *)
Theorem clock_no_oversleep t s :
  rtc rstep (r_init t) s ->
  (forall it x, r_phase s = Sleeping it -> next (r_queue s) = Some x -> x <> it ->
     r_token s = true \/ 0 < r_pending s) /\
  (forall x, r_phase s = WaitNotify -> next (r_queue s) = Some x ->
     r_token s = true \/ 0 < r_pending s).
Proof.
  intros Hr. destruct (rinv_reachable t s Hr) as [_ _ _ _ Hsl Hw]. split.
  - intros it x Hp Hn Hne. destruct (Hsl it Hp) as [Hst|[Hno|Hit]]; [done|congruence..].
  - intros x Hp Hn. destruct (Hw Hp) as [Hst|Hno]; [done|congruence].
Qed.

(** Asleep until 20 when a frame for 15 is pushed. *)
Lemma clock_no_oversleep_witness :
  let q := push 20 example_frame newClockQueue in
  next (push 15 example_frame q) = Some (mkTimed 15 1 example_frame) /\
  (true = true \/ 0 < 1).
Proof.
  split; [reflexivity|].
  eapply (proj1 (clock_no_oversleep 0
    (mkR (push 15 example_frame (push 20 example_frame newClockQueue)) true 1 0
       (Sleeping (mkTimed 20 0 example_frame)) [])
    ltac:(eapply rtc_l; [apply (rs_append _ _ _ _ _ _ 20 example_frame); reflexivity|];
          eapply rtc_l; [apply rs_own, run_future; [reflexivity|reflexivity]|];
          eapply rtc_l; [apply rs_signal|];
          apply rtc_once, (rs_append _ _ _ _ _ _ 15 example_frame); reflexivity))).
  - reflexivity.
  - reflexivity.
  - discriminate.
Defined.

End Clock.
