(* ===== verification/G711.v ===== *)
(** * The G.711 companding codecs

    [src/audio/g711]: mu-law ([g711.go]) and A-law ([alaw.go]).  Samples are
    [int16] values and codes are bytes, both as [Z]; every intermediate result is
    wrapped to the width of the Go expression it models.  The statements about
    single samples are settled by evaluating the codec on all 256 codes and all
    65536 samples; the statements about streams are inductions on the buffer. *)

From S2P Require Import Prelude.

Module G711.
Local Open Scope Z_scope.

(** The index of the first segment bound that is at least [v], or 8: the loop of
    [ulawSegment] and [alawSegment] from index [i]. *)
Fixpoint segment (ends : list Z) (i v : Z) : Z :=
  match ends with
  | [] => 8
  | e :: ends => if v <=? e then i else segment ends (i + 1) v
  end.

(** ** mu-law *)

Definition ulawBias : Z := 132.
Definition ulawClip : Z := 8159.
Definition ulawSegEnd : list Z := [63; 127; 255; 511; 1023; 2047; 4095; 8191].

Definition ulawSegment (v : Z) : Z := segment ulawSegEnd 0 v.

Definition linearToULaw (pcm : Z) : Z :=
  let v := Z.shiftr pcm 2 in
  let '(v, mask) := if v <? 0 then (int16 (- v), 127) else (v, 255) in
  let v := if v >? ulawClip then ulawClip else v in
  let v := int16 (v + Z.shiftr ulawBias 2) in
  let seg := ulawSegment v in
  if seg >=? 8 then uint8 (Z.lxor 127 mask)
  else
    let uval := Z.lor (int16 (Z.shiftl seg 4)) (Z.land (Z.shiftr v (seg + 1)) 15) in
    uint8 (Z.lxor uval mask).

Definition ulawToLinear (u : Z) : Z :=
  let u := uint8 (Z.lnot u) in
  let t := int16 (Z.shiftl (Z.land u 15) 3 + ulawBias) in
  let t := int16 (Z.shiftl t (Z.shiftr (Z.land u 112) 4)) in
  if negb (Z.land u 128 =? 0) then int16 (ulawBias - t) else int16 (t - ulawBias).

(** [buildULawDecodeTable], and a read of it. *)
Definition ulawDecodeTable : list Z := map ulawToLinear (seqZ 0 256).

(** ** A-law *)

Definition alawQuantMask : Z := 15.
Definition alawSegMask : Z := 112.
Definition alawSegShift : Z := 4.
Definition alawEvenBits : Z := 85.
Definition alawSegEnd : list Z := [31; 63; 127; 255; 511; 1023; 2047; 4095].

Definition alawSegment (v : Z) : Z := segment alawSegEnd 0 v.

Definition linearToALaw (pcm : Z) : Z :=
  let v := Z.shiftr pcm 3 in
  let '(v, mask) := if v >=? 0 then (v, 213) else (int16 (- v - 1), alawEvenBits) in
  let seg := alawSegment v in
  if seg >=? 8 then uint8 (Z.lxor 127 mask)
  else
    let aval := int16 (Z.shiftl seg alawSegShift) in
    let aval := if seg <? 2 then Z.lor aval (Z.land (Z.shiftr v 1) alawQuantMask)
                else Z.lor aval (Z.land (Z.shiftr v seg) alawQuantMask) in
    uint8 (Z.lxor aval mask).

Definition alawToLinear (a : Z) : Z :=
  let a := Z.lxor a alawEvenBits in
  let t := int16 (Z.shiftl (Z.land a alawQuantMask) 4) in
  let seg := Z.shiftr (Z.land a alawSegMask) alawSegShift in
  let t := if seg =? 0 then int16 (t + 8)
           else if seg =? 1 then int16 (t + 264)
           else int16 (Z.shiftl (int16 (t + 264)) (seg - 1)) in
  if negb (Z.land a 128 =? 0) then t else int16 (- t).

Definition alawDecodeTable : list Z := map alawToLinear (seqZ 0 256).

(** ** Streams

    PCM is signed 16-bit little-endian.  The encoders step through the buffer two
    bytes at a time and ignore a trailing odd byte. *)

(** [int16(uint16(lo) | uint16(hi)<<8)] *)
Definition sampleLE (lo hi : Z) : Z := int16 (Z.lor (uint16 lo) (uint16 (Z.shiftl hi 8))).

Section Streams.
Context (enc dec : Z -> Z).

Fixpoint encode_stream (pcm : list Z) : list Z :=
  match pcm with
  | lo :: hi :: rest => enc (sampleLE lo hi) :: encode_stream rest
  | _ => []
  end.

(** [out[2i] = byte(s)], [out[2i+1] = byte(s >> 8)] with [s] the [uint16] of the
    table entry. *)
Fixpoint decode_stream (codes : list Z) : list Z :=
  match codes with
  | [] => []
  | c :: rest =>
      let s := uint16 (dec c) in
      uint8 s :: uint8 (Z.shiftr s 8) :: decode_stream rest
  end.
End Streams.

Definition EncodeULaw : list Z -> list Z := encode_stream linearToULaw.
Definition EncodeALaw : list Z -> list Z := encode_stream linearToALaw.
Definition DecodeULaw : list Z -> list Z := decode_stream (fun u => ulawDecodeTable !!! Z.to_nat u).
Definition DecodeALaw : list Z -> list Z := decode_stream (fun a => alawDecodeTable !!! Z.to_nat a).

(** ** Single samples, by evaluation *)

Lemma on_bytes (P : Z -> bool) : forallb_from P 0 256 = true -> forall b, u8 b -> P b = true.
Proof. intros H b Hb. apply (forallb_from_spec P 0 256 H). unfold u8 in Hb. lia. Qed.

(** The code mu-law re-encodes to: the negative zero [0x7F] becomes [0xFF]. *)
Definition ulawCanon (u : Z) : Z := if u =? 127 then 255 else u.

Lemma table_bytes (f : Z -> Z) b : u8 b -> map f (seqZ 0 256) !!! Z.to_nat b = f b.
Proof.
  intros Hb. unfold u8 in Hb. apply list_lookup_total_correct.
  rewrite list_lookup_fmap, (lookup_seqZ_lt 0 256) by lia. simpl. f_equal. f_equal. lia.
Qed.

Lemma ulaw_code_roundtrip u : u8 u -> linearToULaw (ulawToLinear u) = ulawCanon u.
Proof.
  intros Hu. apply Z.eqb_eq. revert u Hu. apply (on_bytes (fun u => linearToULaw (ulawToLinear u) =? ulawCanon u)).
  vm_compute. reflexivity.
Qed.

Lemma alaw_code_roundtrip a : u8 a -> linearToALaw (alawToLinear a) = a.
Proof.
  intros Ha. apply Z.eqb_eq. revert a Ha. apply (on_bytes (fun a => linearToALaw (alawToLinear a) =? a)).
  vm_compute. reflexivity.
Qed.

(** Both encoders drop the low bits of a sample first, so a sample is compared
    with what its truncation decodes to: [check_blocks] evaluates the codec once
    per block of [2 ^ k] samples. *)
Definition ulawRound (s : Z) : Z := ulawToLinear (linearToULaw s).
Definition alawRound (s : Z) : Z := alawToLinear (linearToALaw s).

Lemma ulawRound_block s : ulawRound s = ulawRound (4 * (s / 4)).
Proof.
  unfold ulawRound, linearToULaw. rewrite !(Z.shiftr_div_pow2 _ 2) by lia.
  change (2 ^ 2) with 4. by rewrite (Z.mul_comm 4), Z.div_mul.
Qed.

Lemma alawRound_block s : alawRound s = alawRound (8 * (s / 8)).
Proof.
  unfold alawRound, linearToALaw. rewrite !(Z.shiftr_div_pow2 _ 3) by lia.
  change (2 ^ 3) with 8. by rewrite (Z.mul_comm 8), Z.div_mul.
Qed.

(** [P s d] for every sample [s] of the block [n * b, n * b + n), where [d] is
    what the block decodes to. *)
Definition block_ok (n : nat) (round : Z -> Z) (P : Z -> Z -> bool) (b : Z) : bool :=
  let s := Z.of_nat n * b in
  let d := round s in
  forallb_from (fun s => P s d) s n.

Lemma on_blocks n round P lo cnt :
  (0 < n)%nat -> (forall s, round s = round (Z.of_nat n * (s / Z.of_nat n))) ->
  forallb_from (block_ok n round P) lo cnt = true ->
  forall s, lo * Z.of_nat n <= s < (lo + Z.of_nat cnt) * Z.of_nat n -> P s (round s) = true.
Proof.
  intros Hn Hr Hall s Hs. rewrite Hr.
  assert (0 < Z.of_nat n) as Hn' by lia.
  pose proof (Z.div_mod s (Z.of_nat n) ltac:(lia)) as Hdm.
  pose proof (Z.mod_pos_bound s (Z.of_nat n) Hn').
  assert (block_ok n round P (s / Z.of_nat n) = true) as Hb.
  { apply (forallb_from_spec _ lo cnt Hall). split; [apply Z.div_le_lower_bound; lia|].
    apply Z.div_lt_upper_bound; lia. }
  unfold block_ok in Hb. by apply (forallb_from_spec _ _ _ Hb s); lia.
Qed.

(** mu-law: within 1/32 of the magnitude plus a constant, except above the
    largest decodable magnitude 32124, where the error is the clipping. *)
Definition ulaw_close (s d : Z) : bool :=
  (32 * Z.abs (d - s) <=? Z.abs s + 231) || ((32124 <? Z.abs s) && (Z.abs (d - s) <=? 644)).

Definition alaw_close (s d : Z) : bool := 32 * Z.abs (d - s) <=? Z.abs s + 256.

Lemma ulaw_close_all s : s16 s -> ulaw_close s (ulawRound s) = true.
Proof.
  intros Hs. apply (on_blocks 4 ulawRound ulaw_close (-8192) (Pos.to_nat 16384)).
  - lia.
  - apply ulawRound_block.
  - vm_compute. reflexivity.
  - unfold s16 in Hs. rewrite positive_nat_Z. lia.
Qed.

Lemma alaw_close_all s : s16 s -> alaw_close s (alawRound s) = true.
Proof.
  intros Hs. apply (on_blocks 8 alawRound alaw_close (-4096) (Pos.to_nat 8192)).
  - lia.
  - apply alawRound_block.
  - vm_compute. reflexivity.
  - unfold s16 in Hs. rewrite positive_nat_Z. lia.
Qed.

(** ** Streams *)

Lemma int16_s16 z : s16 (int16 z).
Proof. unfold s16, int16. pose proof (Z.mod_pos_bound (z + 32768) 65536). lia. Qed.

(** Bytes do not overlap, so [|] puts a sample back together as a sum. *)
Lemma lor_bytes l h : 0 <= l < 256 -> 0 <= h -> Z.lor l (Z.shiftl h 8) = l + 256 * h.
Proof.
  intros Hl Hh. pose proof (Z.add_lor_land l (Z.shiftl h 8)) as E.
  assert (Z.land l (Z.shiftl h 8) = 0) as H0.
  { apply Z.bits_inj'. intros n Hn. rewrite Z.land_spec, Z.shiftl_spec, Z.bits_0 by done.
    destruct (Z.ltb_spec n 8).
    - by rewrite (Z.testbit_neg_r h), andb_false_r by lia.
    - rewrite (Z.bits_above_log2 l); [done|lia|].
      destruct (Z.eq_dec l 0) as [->|]; [simpl; lia|]. apply Z.log2_lt_pow2; [lia|].
      apply Z.lt_le_trans with (2 ^ 8); [lia|]. apply Z.pow_le_mono_r; lia. }
  rewrite Z.shiftl_mul_pow2 in * by lia. change (2 ^ 8) with 256 in *. lia.
Qed.

(** A sample written as two little-endian bytes reads back. *)
Lemma sampleLE_bytes v : s16 v ->
  sampleLE (uint8 (uint16 v)) (uint8 (Z.shiftr (uint16 v) 8)) = v.
Proof.
  intros Hv. unfold s16 in Hv. unfold sampleLE, uint8.
  rewrite Z.shiftr_div_pow2 by lia. change (2 ^ 8) with 256.
  set (s := uint16 v). assert (0 <= s < 65536) as Hs by (subst s; unfold uint16; apply Z.mod_pos_bound; lia).
  assert (s = v \/ s = v + 65536) as Hsv by (subst s; unfold uint16; div_lia).
  assert (s / 256 mod 256 = s / 256) as -> by (apply Z.mod_small; div_lia).
  unfold uint16. rewrite (Z.mod_small (s mod 256)) by div_lia.
  rewrite (Z.mod_small (Z.shiftl (s / 256) 8)) by (rewrite Z.shiftl_mul_pow2 by lia; change (2 ^ 8) with 256; div_lia).
  rewrite lor_bytes by div_lia.
  replace (s mod 256 + 256 * (s / 256)) with s by div_lia.
  unfold int16. destruct Hsv as [->| ->]; div_lia.
Qed.

Lemma encode_decode_stream (enc dec canon : Z -> Z) codes :
  (forall c, u8 c -> s16 (dec c) /\ enc (dec c) = canon c) -> Forall u8 codes ->
  encode_stream enc (decode_stream dec codes) = map canon codes.
Proof.
  intros Hc. induction codes as [|c codes IH]; intros Hall; [done|].
  inversion Hall as [|? ? Hcb Hrest]; subst. destruct (Hc c Hcb) as [Hs He].
  cbn [decode_stream encode_stream map]. rewrite sampleLE_bytes, He by done. f_equal. by apply IH.
Qed.

Lemma encode_stream_length (enc : Z -> Z) pcm :
  length (encode_stream enc pcm) = (length pcm / 2)%nat.
Proof.
  induction pcm as [pcm IH] using (induction_ltof1 _ length); unfold ltof in IH.
  destruct pcm as [|lo [|hi rest]]; [done..|]. cbn [encode_stream length].
  rewrite IH by (simpl; lia). div_lia.
Qed.

Lemma decode_stream_length (dec : Z -> Z) codes :
  length (decode_stream dec codes) = (2 * length codes)%nat.
Proof. induction codes as [|c codes IH]; [done|]. cbn [decode_stream length]. lia. Qed.

Lemma decode_stream_bytes (dec : Z -> Z) codes : Forall u8 (decode_stream dec codes).
Proof.
  induction codes as [|c codes IH]; cbn [decode_stream]; repeat constructor; try done;
    unfold uint8; apply Z.mod_pos_bound; lia.
Qed.

Lemma ulawToLinear_s16 u : s16 (ulawToLinear u).
Proof. unfold ulawToLinear. case_match; apply int16_s16. Qed.

Lemma alawToLinear_s16 a : s16 (alawToLinear a).
Proof. unfold alawToLinear. repeat case_match; apply int16_s16. Qed.

#[local] Hint Resolve ulawToLinear_s16 alawToLinear_s16 ulaw_code_roundtrip alaw_code_roundtrip : voxigo.

(** ** The properties *)

(** C12: decoding a telephony stream and encoding it again gives the stream back,
    one byte per sample: exactly for A-law, and for mu-law up to the one code with
    two spellings (the negative zero [0x7F], which comes back as [0xFF]); the
    decoded stream holds two bytes per code. *)
Theorem g711_stream_roundtrip (codes : list Z) :
  Forall u8 codes ->
  EncodeALaw (DecodeALaw codes) = codes /\
  EncodeULaw (DecodeULaw codes) = map ulawCanon codes /\
  length (DecodeALaw codes) = (2 * length codes)%nat /\
  length (DecodeULaw codes) = (2 * length codes)%nat.
Proof.
  intros Hall. unfold EncodeALaw, DecodeALaw, EncodeULaw, DecodeULaw, alawDecodeTable, ulawDecodeTable.
  rewrite !decode_stream_length. repeat split.
  - rewrite (encode_decode_stream _ _ (fun c => c)); [by rewrite map_id| |done].
    intros c Hc. rewrite table_bytes by done. cbv beta. auto with voxigo.
  - apply encode_decode_stream; [|done].
    intros c Hc. rewrite table_bytes by done. cbv beta. auto with voxigo.
Qed.

Lemma g711_stream_roundtrip_witness :
  EncodeALaw (DecodeALaw [0; 127; 213; 255]) = [0; 127; 213; 255] /\
  EncodeULaw (DecodeULaw [0; 127; 213; 255]) = [0; 255; 213; 255].
Proof.
  destruct (g711_stream_roundtrip [0; 127; 213; 255]) as (H1 & H2 & _).
  - repeat (apply Forall_cons_2; [unfold u8; lia|]). apply Forall_nil_2.
  - split; [exact H1|exact H2].
Defined.

(** Companding distorts a sample by at most 1/32 of its magnitude plus a
    constant: for every [int16], encoding and decoding stays within
    [(|s| + 256) / 32] for A-law and [(|s| + 231) / 32] for mu-law, whose only
    exception is the clipping of magnitudes above 32124, by at most 644. *)
Theorem g711_distortion (s : Z) :
  s16 s ->
  32 * Z.abs (alawToLinear (linearToALaw s) - s) <= Z.abs s + 256 /\
  (32 * Z.abs (ulawToLinear (linearToULaw s) - s) <= Z.abs s + 231 \/
   (32124 < Z.abs s /\ Z.abs (ulawToLinear (linearToULaw s) - s) <= 644)).
Proof.
  intros Hs. pose proof (alaw_close_all s Hs) as Ha. pose proof (ulaw_close_all s Hs) as Hu.
  unfold alaw_close, ulaw_close, alawRound, ulawRound in *. lia.
Qed.

Lemma g711_distortion_witness :
  32 * Z.abs (alawToLinear (linearToALaw (-1234)) - -1234) <= 1490 /\
  (32 * Z.abs (ulawToLinear (linearToULaw (-1234)) - -1234) <= 1465 \/
   (32124 < 1234 /\ Z.abs (ulawToLinear (linearToULaw (-1234)) - -1234) <= 644)).
Proof. apply (g711_distortion (-1234)). split; [discriminate|reflexivity]. Defined.

End G711.
