(* ===== verification/Vad.v ===== *)
(** * Voice activity detection

    - [Section Tracker]: the rolling window of [src/audio/loudness/tracker.go];
    - [Section Machine]: the detection state machine of [src/audio/vad/vad.go],
      over the confidence model and the loudness measure it is given;
    - [Section Debounce]: what the machine decides, as a function of the
      history of per-frame verdicts alone. *)

From S2P Require Import Prelude Float64.

Module Vad.
Local Open Scope Z_scope.

(** ** Data *)

Inductive State := StateQuiet | StateStarting | StateSpeaking | StateStopping.

#[export] Instance State_eq_dec : EqDecision State.
Proof. solve_decision. Defined.

Record Params := mkParams {
  Confidence : f64;
  StartSecs : f64;
  StopSecs : f64;
  MinVolume : f64
}.

Definition DefaultStopSecs : f64 := f64_lit 2 10.
Definition DefaultParams : Params := mkParams (f64_lit 7 10) (f64_lit 2 10) DefaultStopSecs (f64_lit 6 10).

(** ** The loudness window *)

Section Tracker.
(** [loudness.Volume]: the BS.1770 measure of a buffer at a sample rate. *)
Context (loudnessVolume : list Z -> Z -> f64).

Record Tracker := mkTracker {
  t_sampleRate : Z;
  t_windowNumBytes : Z;
  t_buf : list Z;
  t_volume : f64;
  t_stale : bool
}.

#[export] Instance eta_Tracker : Eta Tracker := fun t =>
  mkTracker (t_sampleRate t) (t_windowNumBytes t) (t_buf t) (t_volume t) (t_stale t).

Definition newTracker : Tracker := mkTracker 0 0 [] f64_zero false.

Definition windowSecs : f64 := f64_lit 4 10.

Definition Tracker_Reset (t : Tracker) : Tracker :=
  t <| t_buf := [] |> <| t_volume := f64_zero |> <| t_stale := false |>.

Definition Tracker_Volume (t : Tracker) : f64 * Tracker :=
  if t_stale t then
    let v := loudnessVolume (t_buf t) (t_sampleRate t) in
    (v, t <| t_volume := v |> <| t_stale := false |>)
  else (t_volume t, t).

Definition Tracker_Update (audio : list Z) (sampleRate : Z) (t : Tracker) : Tracker :=
  let t := if negb (sampleRate =? t_sampleRate t) then
             Tracker_Reset
               (t <| t_sampleRate := sampleRate |>
                  <| t_windowNumBytes := to_int (f64_ceil (f64_mul windowSecs (f64_of_Z sampleRate))) * 2 |>)
           else t in
  let buf := t_buf t ++ audio in
  let buf := if Z.of_nat (length buf) >? t_windowNumBytes t
             then drop (length buf - Z.to_nat (t_windowNumBytes t)) buf else buf in
  let t := t <| t_buf := buf |> in
  if Z.of_nat (length buf) =? t_windowNumBytes t then t <| t_stale := true |> else t.

(** [loudness.Smooth] *)
Definition Smooth (value previous factor : f64) : f64 :=
  f64_add previous (f64_mul factor (f64_sub value previous)).

Definition SmoothingFactor : f64 := f64_lit 2 10.

(** ** The state machine *)

(** The confidence model: its state and the confidence of one frame; the
    samples per analysis frame at a rate, [numFramesRequired], is an argument of the
    two functions that read it.  Silero implements both over the ONNX runtime. *)
Context {Model : Type} (voiceConfidence : Model -> list Z -> f64 * Model).

Record stateMachine := mkMachine {
  model : Model;
  params : Params;
  sampleRate : Z;
  frameNumBytes : Z;
  startFrames : Z;
  stopFrames : Z;
  startingCount : Z;
  stoppingCount : Z;
  state : State;
  buf : list Z;
  volume : Tracker;
  prevVolume : f64
}.

#[export] Instance eta_stateMachine : Eta stateMachine := fun m =>
  mkMachine (model m) (params m) (sampleRate m) (frameNumBytes m) (startFrames m) (stopFrames m)
    (startingCount m) (stoppingCount m) (state m) (buf m) (volume m) (prevVolume m).

Definition newStateMachine (mo : Model) (p : Params) : stateMachine :=
  mkMachine mo p 0 0 0 0 0 0 StateQuiet [] newTracker f64_zero.

Definition resetDetection (m : stateMachine) : stateMachine :=
  m <| startingCount := 0 |> <| stoppingCount := 0 |> <| state := StateQuiet |>.

Definition reset (m : stateMachine) : stateMachine := (resetDetection m) <| buf := [] |>.

Definition setSampleRate (numFramesRequired : Z -> Z) (rate : Z) (m : stateMachine) : stateMachine :=
  let frames := numFramesRequired rate in
  let framesPerSec := f64_div (f64_of_Z frames) (f64_of_Z rate) in
  resetDetection
    (m <| sampleRate := rate |>
       <| frameNumBytes := frames * 2 |>
       <| startFrames := to_int (f64_round (f64_div (StartSecs (params m)) framesPerSec)) |>
       <| stopFrames := to_int (f64_round (f64_div (StopSecs (params m)) framesPerSec)) |>).

Definition SetParams (numFramesRequired : Z -> Z) (p : Params) (m : stateMachine) : stateMachine :=
  let m := m <| params := p |> in
  if sampleRate m >? 0 then setSampleRate numFramesRequired (sampleRate m) m else m.

(** One analysis frame, given whether it scored as speech. *)
Definition advance (speaking : bool) (m : stateMachine) : stateMachine :=
  if speaking then
    match state m with
    | StateQuiet => m <| state := StateStarting |> <| startingCount := 1 |>
    | StateStarting => m <| startingCount ::= fun n => n + 1 |>
    | StateStopping => m <| state := StateSpeaking |> <| stoppingCount := 0 |>
    | StateSpeaking => m
    end
  else
    match state m with
    | StateStarting => m <| state := StateQuiet |> <| startingCount := 0 |>
    | StateSpeaking => m <| state := StateStopping |> <| stoppingCount := 1 |>
    | StateStopping => m <| stoppingCount ::= fun n => n + 1 |>
    | StateQuiet => m
    end.

(** The body of the loop of [AnalyzeAudio], on one frame: scoring, then
    advancing. *)
Definition scoreFrame (frame : list Z) (m : stateMachine) : bool * stateMachine :=
  let '(confidence, mo) := voiceConfidence (model m) frame in
  let m := m <| model := mo |> <| volume := Tracker_Update frame (sampleRate m) (volume m) |> in
  let '(v, tr) := Tracker_Volume (volume m) in
  let m := m <| volume := tr |> <| prevVolume := Smooth v (prevVolume m) SmoothingFactor |> in
  (f64_geb confidence (Confidence (params m)) && f64_geb (prevVolume m) (MinVolume (params m)), m).

Definition analyzeFrame (frame : list Z) (m : stateMachine) : stateMachine :=
  let '(speaking, m) := scoreFrame frame m in advance speaking m.

(** The loop: every complete frame buffered.  Each round removes a frame, so the
    buffer's length bounds the rounds whenever frames are not empty. *)
Fixpoint analyzeFrames (fuel : nat) (m : stateMachine) : option stateMachine :=
  match fuel with
  | O => None
  | S fuel =>
      if Z.of_nat (length (buf m)) <? frameNumBytes m then Some m
      else
        let n := Z.to_nat (frameNumBytes m) in
        let frame := take n (buf m) in
        analyzeFrames fuel (analyzeFrame frame (m <| buf := drop n (buf m) |>))
  end.

(** The two confirmations after the loop. *)
Definition confirm (m : stateMachine) : stateMachine :=
  let m := match state m with
           | StateStarting =>
               if startingCount m >=? startFrames m
               then m <| state := StateSpeaking |> <| startingCount := 0 |> else m
           | _ => m end in
  match state m with
  | StateStopping =>
      if stoppingCount m >=? stopFrames m
      then m <| state := StateQuiet |> <| stoppingCount := 0 |> else m
  | _ => m end.

(** [AnalyzeAudio]; [None] is the loop that never ends, on a machine whose frame
    size was never set. *)
Definition AnalyzeAudio (buffer : list Z) (m : stateMachine) : option (State * stateMachine) :=
  let m := m <| buf ::= fun b => b ++ buffer |> in
  if Z.of_nat (length (buf m)) <? frameNumBytes m then Some (state m, m)
  else
    match analyzeFrames (S (length (buf m))) m with
    | Some m => let m := confirm m in Some (state m, m)
    | None => None
    end.

(** ** The stream side and the detection side

    Buffering, scoring and loudness follow the audio stream; the state and its
    counters follow the decision.  [same_stream] relates machines that agree on
    everything but the decision. *)

Definition same_stream (m1 m2 : stateMachine) : Prop :=
  model m1 = model m2 /\ params m1 = params m2 /\ sampleRate m1 = sampleRate m2 /\
  frameNumBytes m1 = frameNumBytes m2 /\ startFrames m1 = startFrames m2 /\
  stopFrames m1 = stopFrames m2 /\ buf m1 = buf m2 /\ volume m1 = volume m2 /\
  prevVolume m1 = prevVolume m2.

#[local] Instance same_stream_equiv : Equivalence same_stream.
Proof.
  unfold same_stream. split.
  - by intros m.
  - intros m1 m2 H. destruct_and! H. done.
  - intros m1 m2 m3 H1 H2. destruct_and! H1. destruct_and! H2. repeat split; congruence.
Qed.

Lemma advance_stream b m : same_stream (advance b m) m.
Proof. unfold advance. destruct b, (state m); repeat split. Qed.

Lemma confirm_stream m : same_stream (confirm m) m.
Proof. unfold confirm. repeat (case_match; simplify_eq/=); repeat split. Qed.

#[local] Instance scoreFrame_proper : Proper (eq ==> same_stream ==> prod_relation eq same_stream) scoreFrame.
Proof.
  intros f _ <- m1 m2 (E1 & E2 & E3 & E4 & E5 & E6 & E7 & E8 & E9). unfold scoreFrame.
  rewrite E1. destruct (voiceConfidence (model m2) f) as [c mo]. simpl. rewrite E3, E8.
  destruct (Tracker_Volume (Tracker_Update f (sampleRate m2) (volume m2))) as [v tr].
  split; simpl; [by rewrite E2, E9|]. repeat split; simpl; congruence.
Qed.

#[local] Instance analyzeFrame_proper : Proper (eq ==> same_stream ==> same_stream) analyzeFrame.
Proof.
  intros f _ <- m1 m2 H. unfold analyzeFrame. pose proof (scoreFrame_proper f f eq_refl m1 m2 H) as [_ Hs].
  destruct (scoreFrame f m1) as [b1 n1], (scoreFrame f m2) as [b2 n2]. simpl in Hs.
  by rewrite !advance_stream.
Qed.

(** Scoring reads neither the buffer nor the decision, and leaves both alone. *)
Lemma scoreFrame_fields f m :
  let r := (scoreFrame f m).2 in
  frameNumBytes r = frameNumBytes m /\ buf r = buf m /\ state r = state m /\
  startingCount r = startingCount m /\ stoppingCount r = stoppingCount m /\
  startFrames r = startFrames m /\ stopFrames r = stopFrames m.
Proof.
  unfold scoreFrame. destruct (voiceConfidence (model m) f) as [c mo]. simpl.
  by destruct (Tracker_Volume _) as [v tr].
Qed.

Lemma scoreFrame_buf f m b :
  scoreFrame f (m <| buf := b |>) = ((scoreFrame f m).1, (scoreFrame f m).2 <| buf := b |>).
Proof.
  unfold scoreFrame. simpl. destruct (voiceConfidence (model m) f) as [c mo]. simpl.
  by destruct (Tracker_Volume _) as [v tr].
Qed.

Lemma advance_buf b m x : advance b (m <| buf := x |>) = (advance b m) <| buf := x |>.
Proof. unfold advance. destruct m as [? ? ? ? ? ? ? ? st ? ? ?]; destruct b, st; reflexivity. Qed.

Lemma analyzeFrame_buf f m b : analyzeFrame f (m <| buf := b |>) = (analyzeFrame f m) <| buf := b |>.
Proof.
  unfold analyzeFrame. rewrite scoreFrame_buf. destruct (scoreFrame f m) as [v n]. apply advance_buf.
Qed.

Lemma advance_fields b m :
  buf (advance b m) = buf m /\ frameNumBytes (advance b m) = frameNumBytes m /\
  startFrames (advance b m) = startFrames m /\ stopFrames (advance b m) = stopFrames m.
Proof. destruct (advance_stream b m) as (_ & _ & _ & ? & ? & ? & ? & _). done. Qed.

Lemma analyzeFrame_fields f m :
  buf (analyzeFrame f m) = buf m /\ frameNumBytes (analyzeFrame f m) = frameNumBytes m.
Proof.
  unfold analyzeFrame. destruct (scoreFrame_fields f m) as (E1 & E2 & _).
  destruct (scoreFrame f m) as [v n]. simpl in *.
  destruct (advance_fields v n) as (-> & -> & _). done.
Qed.

Lemma analyzeFrame_set_fields f m x :
  buf (analyzeFrame f (m <| buf := x |>)) = x /\
  frameNumBytes (analyzeFrame f (m <| buf := x |>)) = frameNumBytes m.
Proof. destruct (analyzeFrame_fields f (m <| buf := x |>)) as [E1 E2]. by rewrite E1, E2. Qed.

(** ** Termination of the loop *)

Lemma analyzeFrames_total fuel m :
  0 < frameNumBytes m -> (length (buf m) < fuel)%nat ->
  exists m', analyzeFrames fuel m = Some m' /\ Z.of_nat (length (buf m')) < frameNumBytes m' /\
             frameNumBytes m' = frameNumBytes m.
Proof.
  revert m. induction fuel as [|fuel IH]; intros m Hn Hf; [lia|]. cbn [analyzeFrames].
  destruct (Z.ltb_spec (Z.of_nat (length (buf m))) (frameNumBytes m)) as [Hlt|Hge]; [by exists m|].
  set (n := Z.to_nat (frameNumBytes m)).
  destruct (analyzeFrame_set_fields (take n (buf m)) m (drop n (buf m))) as [Hb Hfn].
  destruct (IH (analyzeFrame (take n (buf m)) (m <| buf := drop n (buf m) |>))) as (m' & H1 & H2 & H3).
  - by rewrite Hfn.
  - rewrite Hb, length_drop. lia.
  - exists m'. split; [done|]. split; [done|]. by rewrite H3.
Qed.

Lemma analyzeFrames_mono fuel fuel' m r :
  analyzeFrames fuel m = Some r -> (fuel <= fuel')%nat -> analyzeFrames fuel' m = Some r.
Proof.
  revert fuel' m. induction fuel as [|fuel IH]; intros fuel' m Hr Hle; [done|].
  destruct fuel' as [|fuel']; [lia|]. cbn [analyzeFrames] in *.
  case_match; [done|]. apply IH; [done|lia].
Qed.

(** ** Chunking does not matter to the stream side *)

Lemma analyzeFrames_proper fuel m1 m2 r1 r2 :
  same_stream m1 m2 -> analyzeFrames fuel m1 = Some r1 -> analyzeFrames fuel m2 = Some r2 ->
  same_stream r1 r2.
Proof.
  revert m1 m2. induction fuel as [|fuel IH]; intros m1 m2 Hs H1 H2; [done|]. cbn [analyzeFrames] in *.
  pose proof Hs as (_ & _ & _ & E4 & _ & _ & E7 & _). rewrite E4, E7 in H1.
  case_match; [congruence|]. refine (IH _ _ _ H1 H2).
  rewrite !analyzeFrame_buf.
  pose proof (analyzeFrame_proper (take (Z.to_nat (frameNumBytes m2)) (buf m2)) _ eq_refl m1 m2 Hs) as Hp.
  destruct Hp as (?&?&?&?&?&?&?&?&?). repeat split; simpl; congruence.
Qed.

Lemma analyzeFrames_app fuel fuel' m r b r' :
  analyzeFrames fuel m = Some r ->
  analyzeFrames fuel' (r <| buf := buf r ++ b |>) = Some r' ->
  analyzeFrames (fuel + fuel') (m <| buf := buf m ++ b |>) = Some r'.
Proof.
  revert m. induction fuel as [|fuel IH]; intros m Hr Hr'; [done|].
  cbn [analyzeFrames] in Hr. destruct (Z.ltb_spec (Z.of_nat (length (buf m))) (frameNumBytes m)) as [Hlt|Hge].
  - injection Hr as ->. apply (analyzeFrames_mono fuel'); [done|lia].
  - specialize (IH _ Hr Hr'). cbn [analyzeFrames Nat.add]. simpl.
    destruct (Z.ltb_spec (Z.of_nat (length (buf m ++ b))) (frameNumBytes m)) as [Hlt|_].
    { rewrite length_app in Hlt. lia. }
    set (n := Z.to_nat (frameNumBytes m)) in *.
    assert (n <= length (buf m))%nat by (subst n; lia).
    rewrite take_app_le, drop_app_le by done.
    rewrite (analyzeFrame_buf _ m) in *. simpl in IH.
    match goal with |- context [analyzeFrame ?f (mkMachine _ _ _ _ _ _ _ _ _ ?x _ _)] =>
      change (mkMachine (model m) (params m) (sampleRate m) (frameNumBytes m) (startFrames m) (stopFrames m)
        (startingCount m) (stoppingCount m) (state m) x (volume m) (prevVolume m)) with (m <| buf := x |>) end.
    rewrite analyzeFrame_buf. simpl. done.
Qed.

(** [AnalyzeAudio] always returns once the frame size is set, leaving less than a
    frame buffered. *)
Lemma AnalyzeAudio_total b m :
  0 < frameNumBytes m ->
  exists st m', AnalyzeAudio b m = Some (st, m') /\ st = state m' /\
    Z.of_nat (length (buf m')) < frameNumBytes m' /\ frameNumBytes m' = frameNumBytes m.
Proof.
  intros Hn. unfold AnalyzeAudio. set (m1 := m <| buf ::= fun x => x ++ b |>).
  assert (frameNumBytes m1 = frameNumBytes m) as Hfn by done.
  destruct (Z.ltb_spec (Z.of_nat (length (buf m1))) (frameNumBytes m1)) as [Hlt|Hge].
  - by exists (state m1), m1.
  - destruct (analyzeFrames_total (S (length (buf m1))) m1) as (m2 & -> & H2 & H3); [lia|lia|].
    exists (state (confirm m2)), (confirm m2).
    destruct (confirm_stream m2) as (_ & _ & _ & E4 & _ & _ & E7 & _). rewrite E4, E7. eauto with lia.
Qed.

(** [AnalyzeAudio] on the stream side is just the loop, whether or not a whole
    frame is buffered. *)
Lemma AnalyzeAudio_stream b m st m' :
  AnalyzeAudio b m = Some (st, m') ->
  exists fuel r, analyzeFrames fuel (m <| buf := buf m ++ b |>) = Some r /\ same_stream m' r.
Proof.
  unfold AnalyzeAudio. intros H. change (m <| buf ::= fun x => x ++ b |>) with (m <| buf := buf m ++ b |>) in H.
  destruct (Z.ltb_spec (Z.of_nat (length (buf (m <| buf := buf m ++ b |>))))
              (frameNumBytes (m <| buf := buf m ++ b |>))) as [Hlt|Hge].
  - injection H as _ <-. exists 1%nat, (m <| buf := buf m ++ b |>). split; [|done]. cbn [analyzeFrames].
    destruct (Z.ltb_spec (Z.of_nat (length (buf (m <| buf := buf m ++ b |>))))
              (frameNumBytes (m <| buf := buf m ++ b |>))); [done|lia].
  - destruct (analyzeFrames _ _) as [r|] eqn:E in H; [|done].
    injection H as _ <-. eexists _, r. split; [exact E|]. apply confirm_stream.
Qed.

Lemma AnalyzeAudio_chunks b1 b2 m st1 m1 st2 m2 st m' :
  AnalyzeAudio b1 m = Some (st1, m1) -> AnalyzeAudio b2 m1 = Some (st2, m2) ->
  AnalyzeAudio (b1 ++ b2) m = Some (st, m') -> same_stream m2 m'.
Proof.
  intros H1 H2 H12.
  apply AnalyzeAudio_stream in H1 as (f1 & r1 & E1 & S1).
  apply AnalyzeAudio_stream in H2 as (f2 & r2 & E2 & S2).
  apply AnalyzeAudio_stream in H12 as (f3 & r3 & E3 & S3).
  rewrite S2, S3. clear S2 S3.
  assert (same_stream (m1 <| buf := buf m1 ++ b2 |>) (r1 <| buf := buf r1 ++ b2 |>)) as Hs.
  { destruct S1 as (?&?&?&?&?&?&Eb&?&?). repeat split; simpl; congruence. }
  destruct (analyzeFrames f2 (r1 <| buf := buf r1 ++ b2 |>)) as [r4|] eqn:E4.
  - pose proof (analyzeFrames_proper f2 _ _ _ _ Hs E2 E4) as S4. rewrite S4.
    pose proof (analyzeFrames_app f1 f2 _ _ b2 r4 E1 E4) as E5. simpl in E5.
    rewrite <- app_assoc in E5.
    pose proof (analyzeFrames_mono _ (f1 + f2 + f3) _ _ E5 ltac:(lia)) as E6.
    pose proof (analyzeFrames_mono _ (f1 + f2 + f3) _ _ E3 ltac:(lia)) as E7.
    simpl in E7. rewrite E7 in E6. by injection E6 as ->.
  - exfalso. clear -Hs E2 E4. revert E2 E4 Hs.
    generalize (m1 <| buf := buf m1 ++ b2 |>) (r1 <| buf := buf r1 ++ b2 |>).
    induction f2 as [|f2 IH]; intros a c E2 E4 Hs; [done|]. cbn [analyzeFrames] in *.
    pose proof Hs as (_ & _ & _ & Hf & _ & _ & Hb & _). rewrite Hf, Hb in E2.
    case_match; [done|]. refine (IH _ _ E2 E4 _). rewrite !analyzeFrame_buf.
    pose proof (analyzeFrame_proper (take (Z.to_nat (frameNumBytes c)) (buf c)) _ eq_refl a c Hs) as Hp.
    destruct Hp as (?&?&?&?&?&?&?&?&?). repeat split; simpl; congruence.
Qed.

(** ** Any cut of a stream

    [analyzeAll] is a detector given a stream chunk by chunk. *)

Fixpoint analyzeAll (chunks : list (list Z)) (m : stateMachine) : option stateMachine :=
  match chunks with
  | [] => Some m
  | c :: chunks => match AnalyzeAudio c m with Some (_, m) => analyzeAll chunks m | None => None end
  end.

Lemma AnalyzeAudio_proper b m1 m2 st1 r1 st2 r2 :
  same_stream m1 m2 -> AnalyzeAudio b m1 = Some (st1, r1) -> AnalyzeAudio b m2 = Some (st2, r2) -> same_stream r1 r2.
Proof.
  intros Hs H1 H2. apply AnalyzeAudio_stream in H1 as (f1 & n1 & E1 & S1). apply AnalyzeAudio_stream in H2 as (f2 & n2 & E2 & S2).
  rewrite S1, S2. apply (analyzeFrames_proper (f1 + f2) (m1 <| buf := buf m1 ++ b |>) (m2 <| buf := buf m2 ++ b |>)).
  - destruct Hs as (?&?&?&?&?&?&Eb&?&?). repeat split; simpl; congruence.
  - apply (analyzeFrames_mono f1); [done|lia].
  - apply (analyzeFrames_mono f2); [done|lia].
Qed.
Lemma analyzeAll_total chunks : forall m, 0 < frameNumBytes m -> exists m', analyzeAll chunks m = Some m'.
Proof.
  induction chunks as [|c chunks IH]; intros m Hn; [by exists m|]. cbn [analyzeAll].
  destruct (AnalyzeAudio_total c m Hn) as (st & m1 & -> & _ & _ & E). apply IH. lia.
Qed.
Lemma analyzeAll_stream chunks : forall m m' st r, 0 < frameNumBytes m -> analyzeAll chunks m = Some m' ->
  AnalyzeAudio (concat chunks) m = Some (st, r) -> Z.of_nat (length (buf m)) < frameNumBytes m -> same_stream m' r.
Proof.
  induction chunks as [|c chunks IH]; intros m m' st r Hn H1 H2 Hb; cbn [analyzeAll concat] in *.
  - injection H1 as <-. unfold AnalyzeAudio in H2. simpl in H2. rewrite app_nil_r in H2. destruct (Z.ltb_spec (Z.of_nat (length (buf m))) (frameNumBytes m)); [|lia].
    injection H2 as _ <-. by destruct m.
  - destruct (AnalyzeAudio c m) as [[st1 m1]|] eqn:E; [|done]. destruct (AnalyzeAudio_total c m Hn) as (? & ? & E' & _ & Hb1 & En). rewrite E in E'. injection E' as <- <-.
    destruct (AnalyzeAudio_total (concat chunks) m1 ltac:(lia)) as (st2 & m2 & E2 & _).
    rewrite (IH m1 m' _ _ ltac:(lia) H1 E2 ltac:(lia)). exact (AnalyzeAudio_chunks c (concat chunks) m st1 m1 st2 m2 st r E E2 H2).
Qed.

(** Each frame scored, counted and confirmed before the next. *)
Fixpoint analyzeEach (fuel : nat) (m : stateMachine) : option stateMachine :=
  match fuel with
  | O => None
  | S fuel =>
      if Z.of_nat (length (buf m)) <? frameNumBytes m then Some m
      else
        let n := Z.to_nat (frameNumBytes m) in
        analyzeEach fuel (confirm (analyzeFrame (take n (buf m)) (m <| buf := drop n (buf m) |>)))
  end.
Lemma confirm_buf m x : confirm (m <| buf := x |>) = (confirm m) <| buf := x |>.
Proof. unfold confirm. destruct m as [? ? ? ? ? ? ? ? st ? ? ?]; destruct st; simpl; repeat (case_match; simpl); done. Qed.
Lemma each_buf f m x : confirm (analyzeFrame f (m <| buf := x |>)) = (confirm (analyzeFrame f m)) <| buf := x |>.
Proof. by rewrite analyzeFrame_buf, confirm_buf. Qed.
Lemma confirm_fields m : buf (confirm m) = buf m /\ frameNumBytes (confirm m) = frameNumBytes m.
Proof. destruct (confirm_stream m) as (_ & _ & _ & E4 & _ & _ & E7 & _). done. Qed.
Lemma each_fields f m x : buf (confirm (analyzeFrame f (m <| buf := x |>))) = x /\ frameNumBytes (confirm (analyzeFrame f (m <| buf := x |>))) = frameNumBytes m.
Proof. destruct (confirm_fields (analyzeFrame f (m <| buf := x |>))) as [-> ->]. apply analyzeFrame_set_fields. Qed.
Lemma analyzeEach_mono fuel fuel' m r : analyzeEach fuel m = Some r -> (fuel <= fuel')%nat -> analyzeEach fuel' m = Some r.
Proof.
  revert fuel' m. induction fuel as [|fuel IH]; intros fuel' m Hr Hle; [done|]. destruct fuel' as [|fuel']; [lia|]. cbn [analyzeEach] in *. case_match; [done|]. apply IH; [done|lia].
Qed.
Lemma analyzeEach_fuel f f' m r r' : analyzeEach f m = Some r -> analyzeEach f' m = Some r' -> r = r'.
Proof.
  intros H H'. apply (analyzeEach_mono _ (f + f')) in H; [|lia]. apply (analyzeEach_mono _ (f + f')) in H'; [|lia]. congruence.
Qed.
Lemma analyzeEach_app fuel fuel' m r b r' :
  analyzeEach fuel m = Some r -> analyzeEach fuel' (r <| buf := buf r ++ b |>) = Some r' -> 0 < frameNumBytes m ->
  analyzeEach (fuel + fuel') (m <| buf := buf m ++ b |>) = Some r'.
Proof.
  revert m. induction fuel as [|fuel IH]; intros m Hr Hr' Hn; [done|]. cbn [analyzeEach] in Hr.
  destruct (Z.ltb_spec (Z.of_nat (length (buf m))) (frameNumBytes m)) as [Hlt|Hge]; [injection Hr as ->; apply (analyzeEach_mono fuel'); [done|lia]|].
  set (n := Z.to_nat (frameNumBytes m)) in *. set (g := confirm (analyzeFrame (take n (buf m)) (m <| buf := drop n (buf m) |>))) in *.
  destruct (each_fields (take n (buf m)) m (drop n (buf m))) as [G1 G2]. specialize (IH g Hr Hr' ltac:(unfold g; lia)).
  cbn [analyzeEach Nat.add]. destruct (Z.ltb_spec (Z.of_nat (length (buf (m <| buf := buf m ++ b |>)))) (frameNumBytes (m <| buf := buf m ++ b |>))) as [Hlt|_].
  { simpl in Hlt. rewrite length_app in Hlt. lia. }
  replace (confirm _) with (g <| buf := buf g ++ b |>); [exact IH|].
  change (frameNumBytes (m <| buf := buf m ++ b |>)) with (frameNumBytes m). change (buf (m <| buf := buf m ++ b |>)) with (buf m ++ b). fold n.
  assert (n <= length (buf m))%nat by (subst n; lia). rewrite take_app_le, drop_app_le by done.
  change (m <| buf := buf m ++ b |> <| buf := drop n (buf m) ++ b |>) with (m <| buf := drop n (buf m) ++ b |>).
  unfold g. rewrite !each_buf. done.
Qed.

(** A chunk no longer than a frame completes one at most. *)
Lemma AnalyzeAudio_small c m st m' : 0 < frameNumBytes m -> Z.of_nat (length (buf m)) < frameNumBytes m -> Z.of_nat (length c) <= frameNumBytes m ->
  AnalyzeAudio c m = Some (st, m') -> analyzeEach 2 (m <| buf := buf m ++ c |>) = Some m'.
Proof.
  intros Hn Hb Hc H. unfold AnalyzeAudio in H. change (m <| buf ::= fun x => x ++ c |>) with (m <| buf := buf m ++ c |>) in H.
  set (m1 := m <| buf := buf m ++ c |>) in *. assert (frameNumBytes m1 = frameNumBytes m) as F1 by done.
  assert (Z.of_nat (length (buf m1)) < 2 * frameNumBytes m) as Hl by (change (buf m1) with (buf m ++ c); rewrite length_app; lia).
  cbn [analyzeEach]. destruct (Z.ltb_spec (Z.of_nat (length (buf m1))) (frameNumBytes m1)) as [Hlt|Hge]; [by injection H as _ <-|].
  destruct (length (buf m1)) as [|k] eqn:El; [lia|]. cbn [analyzeFrames] in H.
  rewrite El in H. destruct (Z.ltb_spec (Z.of_nat (S k)) (frameNumBytes m1)) as [?|_]; [lia|].
  set (n := Z.to_nat (frameNumBytes m1)) in *. destruct (analyzeFrame_set_fields (take n (buf m1)) m1 (drop n (buf m1))) as [A1 A2].
  set (g := analyzeFrame _ _) in *. destruct (confirm_fields g) as [B1 B2].
  assert (Z.of_nat (length (buf g)) < frameNumBytes g) as Hg by (rewrite A1, A2, length_drop, El; lia).
  destruct (Z.ltb_spec (Z.of_nat (length (buf g))) (frameNumBytes g)) as [_|?]; [|lia].
  destruct (Z.ltb_spec (Z.of_nat (length (buf (confirm g)))) (frameNumBytes (confirm g))) as [_|Hbad]; [by injection H as _ <-|rewrite B1, B2 in Hbad; lia].
Qed.
Lemma analyzeAll_small chunks : forall m m', 0 < frameNumBytes m -> Z.of_nat (length (buf m)) < frameNumBytes m ->
  Forall (fun c => Z.of_nat (length c) <= frameNumBytes m) chunks -> analyzeAll chunks m = Some m' ->
  exists fuel, analyzeEach fuel (m <| buf := buf m ++ concat chunks |>) = Some m'.
Proof.
  induction chunks as [|c chunks IH]; intros m m' Hn Hb Hc H; cbn [analyzeAll concat] in *.
  - injection H as <-. exists 1%nat. cbn [analyzeEach]. rewrite app_nil_r. replace (m <| buf := buf m |>) with m by (by destruct m).
    destruct (Z.ltb_spec (Z.of_nat (length (buf m))) (frameNumBytes m)); [done|lia].
  - inversion Hc as [|? ? Hc1 Hc2]; subst. destruct (AnalyzeAudio c m) as [[st1 m1]|] eqn:E; [|done].
    destruct (AnalyzeAudio_total c m Hn) as (? & ? & E' & _ & Hb1 & En). rewrite E in E'. injection E' as <- <-.
    apply AnalyzeAudio_small in E; [|done..]. destruct (IH m1 m') as (f & Hf); [lia|lia|by rewrite En|done|].
    exists (2 + f)%nat. rewrite (app_assoc (buf m)). exact (analyzeEach_app 2 f (m <| buf := buf m ++ c |>) m1 (concat chunks) m' E Hf Hn).
Qed.

(** ** Debouncing

    What the machine decides, from the verdicts on the frames so far (newest
    first): speech is confirmed when the last [start] verdicts are all speech, and
    ended when the last [stop] are all silence. *)

Fixpoint run_length (v : bool) (h : list bool) : Z :=
  match h with
  | b :: h => if Bool.eqb b v then 1 + run_length v h else 0
  | [] => 0
  end.

Fixpoint active (start stop : Z) (h : list bool) : bool :=
  match h with
  | [] => false
  | b :: older =>
      if active start stop older then negb (stop <=? run_length false (b :: older))
      else start <=? run_length true (b :: older)
  end.

(** The machine's own view of the decision. *)
Definition talking (s : State) : bool :=
  match s with StateSpeaking | StateStopping => true | _ => false end.

Lemma run_length_nonneg v h : 0 <= run_length v h.
Proof. induction h as [|b h IH]; simpl; [lia|]. destruct (Bool.eqb b v); lia. Qed.

(** What state and counters mean, for the history [h]. *)
Definition tracks (m : stateMachine) (h : list bool) : Prop :=
  match state m with
  | StateQuiet => active (startFrames m) (stopFrames m) h = false /\ run_length true h = 0
  | StateStarting => active (startFrames m) (stopFrames m) h = false /\
      startingCount m = run_length true h /\ 0 < startingCount m
  | StateSpeaking => active (startFrames m) (stopFrames m) h = true /\ run_length false h = 0
  | StateStopping => active (startFrames m) (stopFrames m) h = true /\
      stoppingCount m = run_length false h /\ 0 < stoppingCount m
  end.

Lemma tracks_step b m h :
  0 < startFrames m -> 0 < stopFrames m -> tracks m h -> tracks (confirm (advance b m)) (b :: h).
Proof.
  intros Hsta Hsto Ht. pose proof (run_length_nonneg true h). pose proof (run_length_nonneg false h).
  destruct m as [mo p sr fn sta sto c1 c2 st bf vo pv]; unfold tracks in *; simpl in *.
  destruct b, st; unfold advance, confirm; simpl in *; destruct_and! Ht;
    repeat match goal with
    | |- context [?x >=? ?y] => destruct (Z.geb_spec x y); simpl
    end;
    repeat match goal with
    | E : active _ _ h = _ |- _ => rewrite E
    end;
    rewrite ?negb_true_iff, ?negb_false_iff, ?Z.leb_gt, ?Z.leb_le; lia.
Qed.

Lemma tracks_talking m h : tracks m h -> talking (state m) = active (startFrames m) (stopFrames m) h.
Proof. unfold tracks, talking. destruct (state m); by intros [-> ?]. Qed.

(** Feeding whole frames one chunk at a time, and the verdicts they score. *)
Fixpoint feed (fs : list (list Z)) (m : stateMachine) : option stateMachine :=
  match fs with
  | [] => Some m
  | f :: fs => match AnalyzeAudio f m with Some (_, m) => feed fs m | None => None end
  end.

Fixpoint verdicts (fs : list (list Z)) (m : stateMachine) : list bool :=
  match fs with
  | [] => []
  | f :: fs => let '(v, m) := scoreFrame f m in v :: verdicts fs m
  end.

Lemma AnalyzeAudio_frame f m :
  buf m = [] -> 0 < frameNumBytes m -> Z.of_nat (length f) = frameNumBytes m ->
  AnalyzeAudio f m =
    Some (state (confirm (analyzeFrame f m)), confirm (analyzeFrame f m)).
Proof.
  intros Hb Hn Hl. unfold AnalyzeAudio.
  replace (m <| buf ::= fun x => x ++ f |>) with (m <| buf := f |>) by (simpl; by rewrite Hb).
  set (m1 := m <| buf := f |>). change (buf m1) with f. change (frameNumBytes m1) with (frameNumBytes m).
  destruct (Z.ltb_spec (Z.of_nat (length f)) (frameNumBytes m)); [lia|].
  destruct (length f) as [|k] eqn:Hk; [lia|].
  cbn [analyzeFrames]. change (buf m1) with f. change (frameNumBytes m1) with (frameNumBytes m).
  destruct (Z.ltb_spec (Z.of_nat (length f)) (frameNumBytes m)); [lia|].
  assert (Z.to_nat (frameNumBytes m) = length f) as -> by lia.
  rewrite firstn_all, drop_all. change (m1 <| buf := [] |>) with (m <| buf := [] |>).
  replace (m <| buf := [] |>) with m by (destruct m; simpl in *; by subst).
  destruct (analyzeFrame_fields f m) as [E1 E2]. rewrite E1, E2, Hb. simpl.
  by destruct (Z.ltb_spec (Z.of_nat 0) (frameNumBytes m)); [|lia].
Qed.

Lemma analyzeFrame_decision f m :
  analyzeFrame f m = advance (scoreFrame f m).1 (scoreFrame f m).2.
Proof. unfold analyzeFrame. by destruct (scoreFrame f m). Qed.

(** Scoring ignores the decision side, so the verdicts may be read off a machine
    that never decides anything. *)
Lemma verdicts_proper fs m1 m2 : same_stream m1 m2 -> verdicts fs m1 = verdicts fs m2.
Proof.
  revert m1 m2. induction fs as [|f fs IH]; intros m1 m2 Hs; [done|]. cbn [verdicts].
  pose proof (scoreFrame_proper f f eq_refl m1 m2 Hs) as [Hv Hm].
  destruct (scoreFrame f m1) as [v1 n1], (scoreFrame f m2) as [v2 n2]. simpl in Hv, Hm. subst v2.
  f_equal. by apply IH.
Qed.

Lemma feed_tracks fs m h :
  buf m = [] -> 0 < frameNumBytes m -> 0 < startFrames m -> 0 < stopFrames m ->
  Forall (fun f => Z.of_nat (length f) = frameNumBytes m) fs -> tracks m h ->
  exists m', feed fs m = Some m' /\ tracks m' (rev (verdicts fs m) ++ h) /\
             startFrames m' = startFrames m /\ stopFrames m' = stopFrames m.
Proof.
  revert m h. induction fs as [|f fs IH]; intros m h Hb Hn Hsta Hsto Hall Ht; [by exists m|].
  inversion Hall as [|? ? Hf Hall']; subst. cbn [feed]. rewrite AnalyzeAudio_frame by done.
  pose proof (analyzeFrame_decision f m) as Ha. destruct (scoreFrame_fields f m) as (F1 & F2 & F3 & F4 & F5 & F6 & F7).
  cbn [verdicts]. destruct (scoreFrame f m) as [v n] eqn:Es. simpl in *. rewrite Ha.
  set (m1 := confirm (advance v n)).
  assert (same_stream m1 n) as S1 by (unfold m1; by rewrite confirm_stream, advance_stream).
  pose proof S1 as (_ & _ & _ & G4 & G5 & G6 & G7 & _).
  assert (tracks n h) as Htn by (unfold tracks in *; rewrite F3, F4, F5, F6, F7; done).
  destruct (IH m1 (v :: h)) as (m' & H1 & H2 & H3 & H4).
  - by rewrite G7, F2.
  - by rewrite G4, F1.
  - by rewrite G5, F6.
  - by rewrite G6, F7.
  - by rewrite G4, F1.
  - apply tracks_step; [by rewrite F6|by rewrite F7|done].
  - exists m'. split; [done|]. rewrite (verdicts_proper fs m1 n S1) in H2.
    rewrite <- app_assoc. simpl. split; [done|]. split; congruence.
Qed.

End Tracker.

(** ** The properties *)

Arguments AnalyzeAudio loudnessVolume {Model} voiceConfidence.
Arguments feed loudnessVolume {Model} voiceConfidence.
Arguments analyzeAll loudnessVolume {Model} voiceConfidence.
Arguments verdicts loudnessVolume {Model} voiceConfidence.

(** C11: Once its frame size is set the detector always returns, whatever audio it is
    given and however it is cut, and how it is cut does not matter to what it has heard:
    any two cuts of one stream leave the same remainder, the same model state and the same
    smoothed volume ([same_stream]).  Cut into chunks no longer than a frame, it does not
    matter to what is decided either: the two detectors are the same, state and counters
    included.  (Over longer chunks the decision is taken once a chunk, not once a frame.) *)
Theorem vad_chunking {Model} (loud : list Z -> Z -> f64) (conf : Model -> list Z -> f64 * Model)
    (cs ds : list (list Z)) (m : stateMachine) :
  0 < frameNumBytes m -> Z.of_nat (length (buf m)) < frameNumBytes m -> concat cs = concat ds ->
  exists m1 m2, analyzeAll loud conf cs m = Some m1 /\ analyzeAll loud conf ds m = Some m2 /\ same_stream m1 m2 /\
    (Forall (fun c => Z.of_nat (length c) <= frameNumBytes m) cs -> Forall (fun c => Z.of_nat (length c) <= frameNumBytes m) ds -> m1 = m2).
Proof.
  intros Hn Hb E. destruct (analyzeAll_total loud conf cs m Hn) as (m1 & H1). destruct (analyzeAll_total loud conf ds m Hn) as (m2 & H2).
  exists m1, m2. split_and!; [done|done| |].
  - destruct (AnalyzeAudio_total loud conf (concat cs) m Hn) as (st & m' & E3 & _). pose proof (analyzeAll_stream loud conf _ _ _ _ _ Hn H1 E3 Hb) as S1.
    rewrite E in E3. pose proof (analyzeAll_stream loud conf _ _ _ _ _ Hn H2 E3 Hb) as S2.
    destruct S1 as (?&?&?&?&?&?&?&?&?), S2 as (?&?&?&?&?&?&?&?&?). repeat split; congruence.
  - intros Hc Hd. destruct (analyzeAll_small loud conf _ _ _ Hn Hb Hc H1) as (f1 & F1). destruct (analyzeAll_small loud conf _ _ _ Hn Hb Hd H2) as (f2 & F2).
    rewrite E in F1. by eapply analyzeEach_fuel.
Qed.

(** A detector over 4-sample frames at 1000 Hz that takes a frame as speech when
    its first byte is not zero. *)
Definition toy_conf (mo : nat) (frame : list Z) : f64 * nat :=
  (match frame with 0 :: _ | [] => f64_zero | _ => f64_of_Z 1 end, S mo).
Definition toy_loud (_ : list Z) (_ : Z) : f64 := f64_of_Z 1.
Definition toy_params : Params := mkParams (f64_lit 7 10) (f64_lit 8 1000) (f64_lit 12 1000) f64_zero.
Definition toy : stateMachine := setSampleRate (fun _ => 4) 1000 (newStateMachine 0%nat toy_params).

Lemma vad_chunking_witness : exists m1 m2,
  analyzeAll toy_loud toy_conf [[1; 2; 3]; [4; 5; 6; 7; 8; 9; 10]; [11; 12; 13; 14; 15; 16; 17; 18]] toy = Some m1 /\
  analyzeAll toy_loud toy_conf [[1; 2; 3; 4; 5; 6; 7; 8]; [9; 10; 11; 12; 13]; [14; 15; 16; 17; 18]] toy = Some m2 /\ same_stream m1 m2 /\
  (Forall (fun c => Z.of_nat (length c) <= frameNumBytes toy) [[1; 2; 3]; [4; 5; 6; 7; 8; 9; 10]; [11; 12; 13; 14; 15; 16; 17; 18]] ->
   Forall (fun c => Z.of_nat (length c) <= frameNumBytes toy) [[1; 2; 3; 4; 5; 6; 7; 8]; [9; 10; 11; 12; 13]; [14; 15; 16; 17; 18]] -> m1 = m2).
Proof.
  apply (vad_chunking toy_loud toy_conf [[1; 2; 3]; [4; 5; 6; 7; 8; 9; 10]; [11; 12; 13; 14; 15; 16; 17; 18]] [[1; 2; 3; 4; 5; 6; 7; 8]; [9; 10; 11; 12; 13]; [14; 15; 16; 17; 18]] toy);
    reflexivity.
Defined.

(** The detector is exactly a debouncer of the per-frame verdicts: fed whole
    frames from a quiet start, it reports the user talking (speaking or stopping)
    if and only if the last [startFrames] verdicts since it was last quiet were all
    speech and the last [stopFrames] have not all been silence since. *)
Theorem vad_debounces {Model} (loud : list Z -> Z -> f64) (conf : Model -> list Z -> f64 * Model)
    (fs : list (list Z)) (m : stateMachine) :
  buf m = [] -> state m = StateQuiet -> 0 < frameNumBytes m -> 0 < startFrames m -> 0 < stopFrames m ->
  Forall (fun f => Z.of_nat (length f) = frameNumBytes m) fs ->
  exists m', feed loud conf fs m = Some m' /\
    talking (state m') = active (startFrames m) (stopFrames m) (rev (verdicts loud conf fs m)).
Proof.
  intros Hb Hq Hn Hsta Hsto Hall.
  destruct (feed_tracks loud conf fs m []) as (m' & H1 & H2 & H3 & H4); try done.
  { unfold tracks. by rewrite Hq. }
  exists m'. split; [done|]. rewrite app_nil_r in H2. rewrite (tracks_talking m' _ H2). congruence.
Qed.

Definition loudF : list Z := [1; 0; 0; 0; 0; 0; 0; 0].
Definition softF : list Z := [0; 0; 0; 0; 0; 0; 0; 0].

(** Two loud frames confirm the start (8 ms at 4 ms a frame); it takes three soft
    ones to confirm the stop. *)
Lemma vad_debounces_witness :
  exists m', feed toy_loud toy_conf [softF; loudF; softF; loudF; loudF; softF; softF] toy = Some m' /\
    talking (state m') = true.
Proof.
  destruct (vad_debounces toy_loud toy_conf [softF; loudF; softF; loudF; loudF; softF; softF] toy)
    as (m' & H1 & H2).
  - reflexivity.
  - reflexivity.
  - reflexivity.
  - reflexivity.
  - reflexivity.
  - repeat (apply Forall_cons_2; [reflexivity|]). apply Forall_nil_2.
  - exists m'. split; [exact H1|]. rewrite H2. vm_compute. reflexivity.
Defined.

(** The shipped parameters at Silero's 16 kHz frame size: six frames either way. *)
Example default_frames :
  let m := setSampleRate (fun r => if r =? 16000 then 512 else 256) 16000 (newStateMachine tt DefaultParams) in
  (frameNumBytes m, startFrames m, stopFrames m) = (1024, 6, 6).
Proof. vm_compute. reflexivity. Qed.

End Vad.
