(* ===== verification/VadController.v ===== *)
(** * The voice-activity controller

    [src/audio/vad/controller/controller.go] and its host processor
    [src/processor/vadproc/vadproc.go].  Two goroutines share the speaking flag
    under [mu]: the one feeding audio ([handleAudio]) and the idle watch
    ([idleWatch]), which ends speech when audio stops arriving.  Handlers are
    called outside the lock, so the model separates a decision (under the lock)
    from its report; [decided] is the order of decisions and [reported] the order
    the handlers run in. *)

From S2P Require Import Prelude Float64 Frames Vad.

Module VadController.
Import Vad.
Local Open Scope Z_scope.

(** ** Data *)

(** What the handlers are told. *)
Inductive event := SpeechStarted | SpeechStopped | SpeechActivity.

#[export] Instance event_eq_dec : EqDecision event.
Proof. solve_decision. Defined.

Definition DefaultAudioIdleTimeout : Z := 1000000000.

(** [New]'s choice of the idle timeout. *)
Definition idleTimeoutOf (cfg : option Z) : Z := from_nil DefaultAudioIdleTimeout cfg.

(** Where the idle watch is in its loop. *)
Inductive watch :=
| WatchOff
| WatchRead              (** about to read the deadline *)
| WatchSleep (until : Z) (** asleep, in either of the two sleeps *)
| WatchDecide            (** the deadline had passed; about to take the lock again *)
| WatchReport.           (** about to call OnSpeechStopped *)

Record Controller := mkController {
  idleTimeout : Z;
  speaking : bool;
  lastAudioAt : Z;
  idle : watch;
  pending : list event;    (** reports the audio goroutine has yet to make *)
  now : Z;
  decided : list event;    (** starts and stops, in the order the lock was held *)
  reported : list event    (** handler calls, in order *)
}.

#[export] Instance eta_Controller : Eta Controller := fun c =>
  mkController (idleTimeout c) (speaking c) (lastAudioAt c) (idle c) (pending c) (now c)
    (decided c) (reported c).

(** ** Operations *)

(** The locked part of [handleAudio], for the state the detector returned, and
    the reports it goes on to make. *)
Definition handleAudio (state : State) (c : Controller) : Controller :=
  let c := c <| lastAudioAt := now c |> in
  let started := bool_decide (state = StateSpeaking) && negb (speaking c) in
  let stopped := bool_decide (state = StateQuiet) && speaking c in
  let c := if started then c <| speaking := true |> <| decided ::= fun d => d ++ [SpeechStarted] |>
           else if stopped then c <| speaking := false |> <| decided ::= fun d => d ++ [SpeechStopped] |>
           else c in
  c <| pending :=
        (if started then [SpeechStarted] else if stopped then [SpeechStopped] else []) ++
        (if speaking c then [SpeechActivity] else []) |>.

(** The controller calls one handler. *)
Definition reportOne (c : Controller) : Controller :=
  match pending c with
  | [] => c
  | e :: rest => c <| pending := rest |> <| reported ::= fun r => r ++ [e] |>
  end.

(** [stopIdleWatchLocked]: the watch is canceled and waited for, so it ends in
    one of its sleeps, which is where it sees the cancellation. *)
Definition stopIdleWatch (c : Controller) : Controller := c <| idle := WatchOff |>.

(** Whether the wait in [stopIdleWatchLocked] is over once the watch is canceled. *)
Definition watchGone (c : Controller) : bool :=
  match idle c with WatchOff | WatchSleep _ => true | _ => false end.

(** [startIdleWatch]: a timeout of zero or less leaves the watch alone; otherwise
    any earlier watch is stopped first. *)
Definition startIdleWatch (c : Controller) : Controller :=
  if idleTimeout c <=? 0 then c
  else (stopIdleWatch c) <| lastAudioAt := now c |> <| idle := WatchRead |>.

(** The first locked read of [idleWatch]'s loop and the test behind it. *)
Definition watchRead (c : Controller) : Controller :=
  let deadline := lastAudioAt c + idleTimeout c in
  if deadline - now c >? 0 then c <| idle := WatchSleep deadline |>
  else c <| idle := WatchDecide |>.

(** The second locked part: end the speech if there is one. *)
Definition watchDecide (c : Controller) : Controller :=
  if speaking c then
    c <| speaking := false |> <| decided ::= fun d => d ++ [SpeechStopped] |> <| idle := WatchReport |>
  else c <| idle := WatchSleep (now c + idleTimeout c) |>.

Definition watchReport (c : Controller) : Controller :=
  c <| reported ::= fun r => r ++ [SpeechStopped] |> <| idle := WatchSleep (now c + idleTimeout c) |>.

(** ** Steps *)

(** Everything but new audio: the watch's steps, pending reports, and time. *)
Inductive quiet_step : Controller -> Controller -> Prop :=
| qs_read c : idle c = WatchRead -> quiet_step c (watchRead c)
| qs_wake c t : idle c = WatchSleep t -> t <= now c -> quiet_step c (c <| idle := WatchRead |>)
| qs_decide c : idle c = WatchDecide -> quiet_step c (watchDecide c)
| qs_report c : idle c = WatchReport -> quiet_step c (watchReport c)
| qs_handler c : pending c <> [] -> quiet_step c (reportOne c)
| qs_tick c t : now c <= t -> quiet_step c (c <| now := t |>).

Inductive step : Controller -> Controller -> Prop :=
| st_quiet c c' : quiet_step c c' -> step c c'
| st_audio c s : pending c = [] -> step c (handleAudio s c)
| st_start c : pending c = [] -> watchGone c = true -> step c (startIdleWatch c)
| st_stop c : watchGone c = true -> step c (stopIdleWatch c).

Definition New (timeout : option Z) (t : Z) : Controller :=
  mkController (idleTimeoutOf timeout) false t WatchOff [] t [] [].

(** ** Invariants *)

(** Starts and stops strictly alternate, beginning with a start, and leave the
    user talking exactly when [b]. *)
Fixpoint alternates (talking : bool) (l : list event) (b : bool) : Prop :=
  match l with
  | [] => talking = b
  | SpeechStarted :: l => talking = false /\ alternates true l b
  | SpeechStopped :: l => talking = true /\ alternates false l b
  | SpeechActivity :: l => False
  end.

Lemma alternates_snoc t l b e :
  alternates t l b ->
  match e with
  | SpeechStarted => b = false -> alternates t (l ++ [e]) true
  | SpeechStopped => b = true -> alternates t (l ++ [e]) false
  | SpeechActivity => True
  end.
Proof.
  revert t. induction l as [|x l IH]; intros t Ha.
  - simpl in Ha. subst b. destruct e; simpl; auto.
  - destruct x; simpl in Ha; [destruct Ha as [? Ha]..|done];
      specialize (IH _ Ha); destruct e; simpl; auto.
Qed.

Record inv (c : Controller) : Prop := {
  inv_alternates : alternates false (decided c) (speaking c);
  inv_audio : lastAudioAt c <= now c;
  inv_sleep : forall t, idle c = WatchSleep t -> t <= now c + idleTimeout c;
  inv_armed : idle c <> WatchOff -> 0 < idleTimeout c
}.

#[local] Hint Constructors quiet_step : core.

Lemma inv_New timeout t : inv (New timeout t).
Proof. split; simpl; done. Qed.

Lemma inv_quiet c c' : quiet_step c c' -> inv c -> inv c'.
Proof.
  intros Hs [Ha Hl Hsl Har]. destruct Hs as [c E|c t E Ht|c E|c E|c E|c t Ht].
  - unfold watchRead. destruct (Z.gtb_spec (lastAudioAt c + idleTimeout c - now c) 0);
      split; simpl; try done; try (intros; apply Har; by rewrite E).
    intros t [= <-]. lia.
  - split; simpl; try done. intros. apply Har. by rewrite E.
  - unfold watchDecide. destruct (speaking c) eqn:Hsp; split; simpl; try done;
      try (intros; apply Har; by rewrite E).
    + by apply (alternates_snoc _ _ _ SpeechStopped Ha).
    + by rewrite Hsp.
    + intros t [= <-]. lia.
  - split; simpl; try done; try (intros; apply Har; by rewrite E). intros t [= <-]. lia.
  - unfold reportOne. destruct (pending c); split; simpl; done.
  - split; simpl; try done; [lia|]. intros t' Ht'. specialize (Hsl t' Ht'). lia.
Qed.

Lemma inv_step c c' : step c c' -> inv c -> inv c'.
Proof.
  intros [c1 c2 Hq|c1 s Hp|c1 Hp Ho|c1 Ho] Hi; [by apply (inv_quiet c1)|..]; destruct Hi as [Ha Hl Hsl Har].
  - unfold handleAudio; simpl. destruct (speaking c1) eqn:Hsp, (bool_decide (s = StateSpeaking)),
      (bool_decide (s = StateQuiet)); simpl; split; simpl; try done; try lia;
      rewrite ?Hsp; try done;
      first [by apply (alternates_snoc _ _ _ SpeechStarted Ha)|by apply (alternates_snoc _ _ _ SpeechStopped Ha)].
  - unfold startIdleWatch. destruct (Z.leb_spec (idleTimeout c1) 0); [done|].
    split; simpl; try done; lia.
  - split; simpl; done.
Qed.

Lemma inv_reachable timeout t c : rtc step (New timeout t) c -> inv c.
Proof. intros Hr. apply (rtc_invariant _ _ _ _ Hr); [apply inv_step|apply inv_New]. Qed.

(** ** The idle watch always gets there *)

Lemma rtc_tick c t : now c <= t -> rtc quiet_step c (c <| now := t |>).
Proof. intros. apply rtc_once. by constructor. Qed.

(** From its read, once the deadline has passed, the watch ends the speech. *)
Lemma watch_from_read_due c :
  idle c = WatchRead -> speaking c = true -> lastAudioAt c + idleTimeout c <= now c ->
  exists c', rtc quiet_step c c' /\ speaking c' = false /\ now c' = now c.
Proof.
  intros Hi Hs Hd. exists (watchDecide (watchRead c)). unfold watchRead.
  destruct (Z.gtb_spec (lastAudioAt c + idleTimeout c - now c) 0); [lia|]. split; [|split].
  - eapply rtc_l; [by constructor|]. unfold watchRead.
    destruct (Z.gtb_spec (lastAudioAt c + idleTimeout c - now c) 0); [lia|].
    apply rtc_once. by apply qs_decide.
  - unfold watchDecide; simpl. by rewrite Hs.
  - unfold watchDecide; simpl. by rewrite Hs.
Qed.

Lemma watch_from_read c :
  idle c = WatchRead -> speaking c = true -> lastAudioAt c <= now c -> 0 < idleTimeout c ->
  exists c', rtc quiet_step c c' /\ speaking c' = false /\
             now c' = Z.max (now c) (lastAudioAt c + idleTimeout c).
Proof.
  intros Hi Hs Hl H0. destruct (decide (lastAudioAt c + idleTimeout c <= now c)) as [Hd|Hd].
  - destruct (watch_from_read_due c Hi Hs Hd) as (c' & H1 & H2 & H3). exists c'. split; [done|]. split; [done|]. lia.
  - set (dl := lastAudioAt c + idleTimeout c) in *.
    set (c1 := c <| idle := WatchSleep dl |> <| now := dl |> <| idle := WatchRead |>).
    destruct (watch_from_read_due c1 eq_refl Hs) as (c' & H1 & H2 & H3); [simpl; subst dl; lia|].
    exists c'. split; [|split; [done|rewrite H3; simpl; subst dl; lia]].
    eapply rtc_l; [by apply qs_read|]. unfold watchRead. fold dl.
    destruct (Z.gtb_spec (dl - now c) 0); [|lia].
    etrans; [apply (rtc_tick _ dl); simpl; lia|].
    eapply rtc_l; [apply (qs_wake _ dl); [done|simpl; lia]|]. exact H1.
Qed.

(** Within one idle timeout from any moment, whatever the watch is doing. *)
Lemma watch_releases c :
  inv c -> idle c <> WatchOff -> speaking c = true ->
  exists c', rtc quiet_step c c' /\ speaking c' = false /\ now c' <= now c + idleTimeout c.
Proof.
  intros [_ Hl Hsl Har] Ho Hs. specialize (Har Ho).
  assert (forall c1, idleTimeout c1 = idleTimeout c -> speaking c1 = true -> lastAudioAt c1 = lastAudioAt c ->
    now c <= now c1 <= now c + idleTimeout c -> idle c1 = WatchRead ->
    exists c', rtc quiet_step c1 c' /\ speaking c' = false /\ now c' <= now c + idleTimeout c) as Hread.
  { intros c1 E1 E2 E3 E4 E5. destruct (watch_from_read c1) as (c' & H1 & H2 & H3); try done; [lia..|].
    exists c'. split; [done|]. split; [done|]. lia. }
  assert (forall c1 t, idleTimeout c1 = idleTimeout c -> speaking c1 = true -> lastAudioAt c1 = lastAudioAt c ->
    now c1 = now c -> idle c1 = WatchSleep t -> t <= now c + idleTimeout c ->
    exists c', rtc quiet_step c1 c' /\ speaking c' = false /\ now c' <= now c + idleTimeout c) as Hsleep.
  { intros c1 t E1 E2 E3 E4 E5 Ht.
    destruct (Hread (c1 <| now := Z.max (now c) t |> <| idle := WatchRead |>)) as (c' & H1 & H2); try done.
    { simpl. lia. }
    exists c'. split; [|done]. etrans; [apply (rtc_tick c1 (Z.max (now c) t)); lia|].
    eapply rtc_l; [|exact H1]. apply (qs_wake (c1 <| now := Z.max (now c) t |>) t); [done|simpl; lia]. }
  destruct (idle c) as [| |t| |] eqn:E; [done|..].
  - apply (Hread c); try done; lia.
  - apply (Hsleep c t); try done. by apply Hsl.
  - exists (watchDecide c). split; [apply rtc_once; by constructor|]. unfold watchDecide. rewrite Hs. simpl. split; [done|lia].
  - destruct (Hsleep (watchReport c) (now c + idleTimeout c)) as (c' & H1 & H2); try done.
    exists c'. split; [|done]. eapply rtc_l; [by apply qs_report|done].
Qed.

(** ** The host processor *)

(** [Setup]: the rate the detector runs at, given the rates it accepts; [None] is
    the error of a detector that refuses even the fallback. *)
Definition analyzerSampleRate : Z := 16000.
Definition setupRate (accepts : Z -> bool) (audioInSampleRate : Z) : option Z :=
  let rate := if audioInSampleRate <=? 0 then analyzerSampleRate else audioInSampleRate in
  if accepts rate then Some rate
  else if accepts analyzerSampleRate then Some analyzerSampleRate
  else None.

(** The frame the host broadcasts for a report, given the parameters in force and
    the time it is made. *)
Definition frameOf (p : Params) (ts : Z) (e : event) : Payload :=
  match e with
  | SpeechStarted => VADUserStartedSpeakingFrame (StartSecs p) (Some ts)
  | SpeechStopped => VADUserStoppedSpeakingFrame (StopSecs p) (Some ts)
  | SpeechActivity => UserSpeakingFrame
  end.

(** What [vadproc]'s [ProcessFrame] does with the controller once the frame has
    been forwarded: the controller, the detector's parameters and the parameter
    reports it broadcasts.  [detect] is the detector applied to the frame's audio
    at the detector's rate. *)
Definition processFrame (detect : list Z -> Z -> State) (f : Payload) (c : Controller) (p : Params)
  : Controller * Params * list Payload :=
  match f with
  | StartFrame => (startIdleWatch c, p, [SpeechControlParamsFrame])
  | EndFrame _ | CancelFrame _ => (stopIdleWatch c, p, [])
  | InputAudioRawFrame audio sampleRate _ => (handleAudio (detect audio sampleRate) c, p, [])
  | VADParamsUpdateFrame cf st sp mv => (c, mkParams cf st sp mv, [SpeechControlParamsFrame])
  | _ => (c, p, [])
  end.

(** Every branch of [processFrame] that touches the controller is a step. *)
Lemma processFrame_step detect f c p :
  pending c = [] -> watchGone c = true ->
  rtc step c (processFrame detect f c p).1.1.
Proof.
  intros Hp Hw. destruct f; simpl; try reflexivity; apply rtc_once.
  - by apply st_start.
  - by apply st_stop.
  - by apply st_stop.
  - by apply st_audio.
Qed.

(** ** The properties *)

(** Whatever way audio, the idle watch and the passing of time interleave,
    the decisions taken under the lock strictly alternate start and stop, beginning
    with a start, and the flag says which came last. *)
Theorem vad_decisions_alternate timeout t c :
  rtc step (New timeout t) c -> alternates false (decided c) (speaking c).
Proof. intros Hr. apply (inv_reachable timeout t c Hr). Qed.

(** One chunk heard as speech, then its reports, with the watch up. *)
Definition talkingAt (t : Z) : Controller :=
  reportOne (reportOne (handleAudio StateSpeaking ((startIdleWatch (New None 0)) <| now := t |>))).

Lemma talkingAt_reachable t : 0 <= t -> rtc step (New None 0) (talkingAt t).
Proof.
  intros Ht. unfold talkingAt. eapply rtc_l; [by apply st_start|]. eapply rtc_l; [apply st_quiet, (qs_tick _ t), Ht|].
  eapply rtc_l; [by apply (st_audio _ StateSpeaking)|].
  do 2 (eapply rtc_l; [apply st_quiet, qs_handler; vm_compute; discriminate|]). apply rtc_refl.
Qed.

Lemma vad_decisions_alternate_witness :
  alternates false [SpeechStarted; SpeechStopped] false.
Proof.
  apply (vad_decisions_alternate None 0 (handleAudio StateQuiet (talkingAt 5))).
  apply (rtc_r _ (talkingAt 5)); [by apply talkingAt_reachable|]. by apply st_audio.
Defined.

(** The idle watch never leaves the user speaking for good: in every
    reachable state with the watch running and the user speaking, if no more audio
    arrives the speech is ended within one idle timeout. *)
Theorem vad_idle_releases timeout t c :
  rtc step (New timeout t) c -> idle c <> WatchOff -> speaking c = true ->
  exists c', rtc quiet_step c c' /\ speaking c' = false /\ now c' <= now c + idleTimeout c.
Proof. intros Hr. apply watch_releases. by apply (inv_reachable timeout t). Qed.

Lemma vad_idle_releases_witness :
  exists c', rtc quiet_step (talkingAt 5) c' /\ speaking c' = false /\ now c' <= 1000000005.
Proof. by apply (vad_idle_releases None 0 (talkingAt 5)); [apply talkingAt_reachable|..]. Defined.

(** The reports, made outside the lock, need not alternate.  The watch reads a
    deadline that has passed; speech then starts; the watch takes the lock again and
    ends it, and its report overtakes the start's.  Every report made, the flag says
    quiet and the handlers heard the start last. *)
Theorem vad_reports_can_cross :
  exists c, rtc step (New None 0) c /\ pending c = [] /\ watchGone c = true /\ speaking c = false /\
            reported c = [SpeechStopped; SpeechStarted; SpeechActivity].
Proof.
  set (c0 := watchRead ((startIdleWatch (New None 0)) <| now := 1000000000 |>)).
  exists (reportOne (reportOne (watchReport (watchDecide (handleAudio StateSpeaking c0))))).
  split; [|done]. eapply rtc_l; [by apply st_start|].
  eapply rtc_l; [apply st_quiet, (qs_tick _ 1000000000); vm_compute; done|].
  eapply rtc_l; [by apply st_quiet, qs_read|].
  eapply rtc_l; [by apply (st_audio c0 StateSpeaking)|].
  eapply rtc_l; [by apply st_quiet, qs_decide|]. eapply rtc_l; [by apply st_quiet, qs_report|].
  do 2 (eapply rtc_l; [apply st_quiet, qs_handler; vm_compute; discriminate|]). apply rtc_refl.
Qed.

End VadController.
