(* ===== verification/Text.v ===== *)
(** * Text

    What the modelled code uses of Go's strings: UTF-8 decoding ([[]rune(s)] and
    [range]), [strings.Fields], and the matching of the one family of regular
    expressions [src/processor/turns/start.go] compiles.  Text is a list of runes
    once decoded.  The Unicode property tables are a class, so that statements
    hold for every edition of them; [ascii_tables] is the ASCII part. *)

From S2P Require Import Prelude.

Local Open Scope Z_scope.

Abbreviation rune := Z.

(** ** UTF-8 *)

Definition bytes_of (s : string) : list Z :=
  List.map (fun a => Z.of_N (Ascii.N_of_ascii a)) (String.list_ascii_of_string s).

Definition RuneError : rune := 65533.

(** [utf8.DecodeRune]: the rune and its width; an invalid encoding is
    [RuneError] of width one. *)
Definition DecodeRune (bs : list Z) : rune * nat :=
  let cont (lo hi b : Z) : bool := (lo <=? b) && (b <=? hi) in
  match bs with
  | [] => (RuneError, 0%nat)
  | b0 :: t0 =>
    if b0 <? 128 then (b0, 1%nat)
    else if cont 194 223 b0 then
      match t0 with
      | b1 :: _ => if cont 128 191 b1 then ((b0 - 192) * 64 + (b1 - 128), 2%nat) else (RuneError, 1%nat)
      | _ => (RuneError, 1%nat)
      end
    else if cont 224 239 b0 then
      match t0 with
      | b1 :: b2 :: _ =>
        if cont (if b0 =? 224 then 160 else 128) (if b0 =? 237 then 159 else 191) b1 && cont 128 191 b2
        then ((b0 - 224) * 4096 + (b1 - 128) * 64 + (b2 - 128), 3%nat) else (RuneError, 1%nat)
      | _ => (RuneError, 1%nat)
      end
    else if cont 240 244 b0 then
      match t0 with
      | b1 :: b2 :: b3 :: _ =>
        if cont (if b0 =? 240 then 144 else 128) (if b0 =? 244 then 143 else 191) b1
           && cont 128 191 b2 && cont 128 191 b3
        then ((b0 - 240) * 262144 + (b1 - 128) * 4096 + (b2 - 128) * 64 + (b3 - 128), 4%nat)
        else (RuneError, 1%nat)
      | _ => (RuneError, 1%nat)
      end
    else (RuneError, 1%nat)
  end.

(** Decoding a whole string; the fuel is its length in bytes, and every step
    consumes at least one. *)
Fixpoint decode (fuel : nat) (bs : list Z) : list rune :=
  match fuel, bs with
  | S fuel, _ :: _ => let '(r, w) := DecodeRune bs in r :: decode fuel (List.skipn w bs)
  | _, _ => []
  end.

Definition runes (s : string) : list rune := let bs := bytes_of s in decode (List.length bs) bs.

(** ** Unicode tables *)

Class UnicodeTables := {
  isLetterOrNumber : rune -> bool;     (** in \p{L} or \p{N} *)
  foldEq : rune -> rune -> bool        (** equal under simple case folding *)
}.

Definition isUpperASCII (r : rune) : bool := (65 <=? r) && (r <=? 90).
Definition isLowerASCII (r : rune) : bool := (97 <=? r) && (r <=? 122).
Definition isDigitASCII (r : rune) : bool := (48 <=? r) && (r <=? 57).
Definition lowerASCII (r : rune) : rune := if isUpperASCII r then r + 32 else r.

Definition ascii_tables : UnicodeTables := {|
  isLetterOrNumber r := isUpperASCII r || isLowerASCII r || isDigitASCII r;
  foldEq a b := lowerASCII a =? lowerASCII b
|}.

(** [unicode.IsSpace] *)
Definition IsSpace (r : rune) : bool :=
  ((9 <=? r) && (r <=? 13)) || (r =? 32) || (r =? 133) || (r =? 160) || (r =? 5760)
  || ((8192 <=? r) && (r <=? 8202)) || (r =? 8232) || (r =? 8233) || (r =? 8239)
  || (r =? 8287) || (r =? 12288).

(** [strings.Fields] on runes: the maximal runs of non-space.  [word] is the run
    in progress. *)
Fixpoint fields_from (word : list rune) (s : list rune) : list (list rune) :=
  let emit := match word with [] => [] | _ => [word] end in
  match s with
  | [] => emit
  | r :: s => if IsSpace r then emit ++ fields_from [] s else fields_from (word ++ [r]) s
  end.
Definition Fields (s : list rune) : list (list rune) := fields_from [] s.

Lemma fields_from_words word s w :
  Forall (fun r => IsSpace r = false) word -> w ∈ fields_from word s ->
  w <> [] /\ Forall (fun r => IsSpace r = false) w.
Proof.
  revert word. induction s as [|r s IH]; intros word Hw Hin.
  - destruct word as [|a word]; simpl in Hin; set_solver.
  - simpl in Hin. destruct (IsSpace r) eqn:Hr.
    + apply elem_of_app in Hin as [Hin|Hin]; [|by apply (IH [])].
      destruct word as [|a word]; set_solver.
    + apply (IH (word ++ [r])); [|done]. apply Forall_app; auto.
Qed.

(** ** The wake-phrase expressions *)

(** [\s] and the word characters of [\b]; both are ASCII in Go's syntax. *)
Definition re_space (r : rune) : bool :=
  (r =? 9) || (r =? 10) || (r =? 12) || (r =? 13) || (r =? 32).
Definition re_word (r : rune) : bool :=
  isUpperASCII r || isLowerASCII r || isDigitASCII r || (r =? 95).

(** [\b] between the rune before (none at the start) and the text after. *)
Definition boundary (prev : option rune) (s : list rune) : bool :=
  xorb (match prev with Some r => re_word r | None => false end)
       (match s with r :: _ => re_word r | [] => false end).

Section Matching.
Context `{UnicodeTables}.

(** A literal under [(?i)]: what is left of the text after it. *)
Fixpoint literal (w : list rune) (prev : option rune) (s : list rune)
  : option (option rune * list rune) :=
  match w, s with
  | [], _ => Some (prev, s)
  | a :: w, b :: s => if foldEq a b then literal w (Some b) s else None
  | _, [] => None
  end.

(** The places [\s*] can leave off. *)
Fixpoint skips (prev : option rune) (s : list rune) : list (option rune * list rune) :=
  (prev, s) :: match s with
               | r :: s' => if re_space r then skips (Some r) s' else []
               | [] => []
               end.

Fixpoint match_rest (ws : list (list rune)) (prev : option rune) (s : list rune) : bool :=
  match ws with
  | [] => boundary prev s
  | w :: ws =>
    List.existsb (fun '(p, s) => match literal w p s with
                                 | Some (p', s') => match_rest ws p' s'
                                 | None => false
                                 end) (skips prev s)
  end.

Definition match_here (ws : list (list rune)) (prev : option rune) (s : list rune) : bool :=
  boundary prev s &&
  match ws with
  | [] => boundary prev s
  | w :: ws => match literal w prev s with Some (p, s) => match_rest ws p s | None => false end
  end.

(** [MatchString] of [(?i)\bw1\s*w2...\b]: a match starting anywhere. *)
Fixpoint match_from (ws : list (list rune)) (prev : option rune) (s : list rune) : bool :=
  match_here ws prev s ||
  match s with r :: s' => match_from ws (Some r) s' | [] => false end.

Definition MatchString (ws : list (list rune)) (s : list rune) : bool := match_from ws None s.

(** [wakePunctuation.ReplaceAllString(text, "")] *)
Definition stripPunctuation (s : list rune) : list rune :=
  List.filter (fun r => isLetterOrNumber r || (r =? 95) || re_space r) s.

End Matching.

Example wake_matches :
  @MatchString ascii_tables (Fields (runes "hey voxigo"))
    (@stripPunctuation ascii_tables (runes " well, Hey, Voxigo! Call.")) = true.
Proof. reflexivity. Qed.

Example wake_bounded :
  @MatchString ascii_tables (Fields (runes "hey voxigo")) (runes " they voxigo") = false.
Proof. reflexivity. Qed.

Example runes_utf8 : runes "é€" = [233; 8364].
Proof. reflexivity. Qed.
