(* ===== verification/Strings.v ===== *)
(** * Strings

    Go's strings as the text utilities use them: a string is its bytes, [range]
    decodes runes, [string(r)] encodes one, and the functions of package
    [strings] work on bytes.  Slicing out of range panics, which is [None]. *)

From S2P Require Import Prelude Text.

Local Open Scope Z_scope.

Abbreviation gostring := (list Z).

(** ** Runes of a string *)

(** A Unicode scalar value: what [utf8.DecodeRune] can return. *)
Definition isScalar (r : rune) : bool :=
  ((0 <=? r) && (r <? 55296)) || ((57344 <=? r) && (r <=? 1114111)).

(** [string(r)] for a valid rune by length of its encoding. *)
Definition encodeScalar (r : rune) : gostring :=
  if r <? 128 then [r]
  else if r <? 2048 then [192 + r / 64; 128 + r mod 64]
  else if r <? 65536 then [224 + r / 4096; 128 + (r / 64) mod 64; 128 + r mod 64]
  else [240 + r / 262144; 128 + (r / 4096) mod 64; 128 + (r / 64) mod 64; 128 + r mod 64].

(** [string(r)]: what is not a scalar value is encoded as [RuneError]. *)
Definition EncodeRune (r : rune) : gostring :=
  encodeScalar (if isScalar r then r else RuneError).

(** [for _, r := range s] visits these. *)
Definition runesOf (s : gostring) : list rune := decode (List.length s) s.

(** [string([]rune)] *)
Definition ofRunes (rs : list rune) : gostring := List.concat (List.map EncodeRune rs).

(** A string copied rune by rune, and the strings that are so copied. *)
Definition sanitize (s : gostring) : gostring := ofRunes (runesOf s).

Definition validUTF8 (s : gostring) : Prop := exists rs, s = ofRunes rs.

Lemma decode_width bs : bs <> [] -> (1 <= snd (DecodeRune bs) <= List.length bs)%nat.
Proof.
  intros Hne. unfold DecodeRune. destruct bs as [|b0 t]; [done|].
  repeat case_match; simplify_eq; simpl; lia.
Qed.

Lemma DecodeRune_encodeScalar r rest : isScalar r = true ->
  DecodeRune (encodeScalar r ++ rest) = (r, List.length (encodeScalar r)).
Proof.
  intros Hs. unfold isScalar in Hs.
  assert (Hr : 0 <= r < 55296 \/ 57344 <= r <= 1114111) by lia. clear Hs.
  unfold encodeScalar, DecodeRune.
  destruct (r <? 128) eqn:H1; [simpl; by rewrite H1|].
  destruct (r <? 2048) eqn:H2; [|destruct (r <? 65536) eqn:H3]; cbn [app List.length];
  repeat match goal with |- context [if ?b then _ else _] =>
    lazymatch b with context [if _ then _ else _] => fail | _ => idtac end;
    let E := fresh in destruct b eqn:E; try (exfalso; revert E; Z.to_euclidean_division_equations; lia)
  end.
  all: f_equal; Z.to_euclidean_division_equations; lia.
Qed.

Lemma encodeScalar_length r : (1 <= List.length (encodeScalar r) <= 4)%nat.
Proof. unfold encodeScalar. repeat case_match; simpl; lia. Qed.

Lemma EncodeRune_scalar r : isScalar r = true -> EncodeRune r = encodeScalar r.
Proof. unfold EncodeRune. by intros ->. Qed.

Lemma EncodeRune_ne r : EncodeRune r <> [].
Proof.
  unfold EncodeRune. pose proof (encodeScalar_length (if isScalar r then r else RuneError)).
  intros E. rewrite E in H. simpl in H. lia.
Qed.

Lemma decode_fuel f g bs : (List.length bs <= f)%nat -> (List.length bs <= g)%nat ->
  decode f bs = decode g bs.
Proof.
  revert g bs. induction f as [|f IH]; intros g bs Hf Hg.
  - destruct bs; [by destruct g|simpl in Hf; lia].
  - destruct bs as [|b t]; [by destruct g|]. destruct g as [|g]; [simpl in Hg; lia|].
    cbn [decode]. pose proof (decode_width (b :: t) ltac:(done)) as Hw.
    destruct (DecodeRune (b :: t)) as [r w]. cbn [snd] in Hw. f_equal.
    assert (List.length (List.skipn w (b :: t)) < List.length (b :: t))%nat
      by (rewrite length_skipn; simpl in *; lia).
    apply IH; lia.
Qed.

Lemma runesOf_nil : runesOf [] = [].
Proof. done. Qed.

Lemma runesOf_cons r rest : isScalar r = true ->
  runesOf (encodeScalar r ++ rest) = r :: runesOf rest.
Proof.
  intros Hs. unfold runesOf. pose proof (encodeScalar_length r) as Hl.
  rewrite length_app.
  destruct (List.length (encodeScalar r) + List.length rest)%nat as [|n] eqn:En; [lia|].
  destruct (encodeScalar r ++ rest) as [|b t] eqn:E.
  { apply (f_equal List.length) in E. rewrite length_app in E. simpl in E. lia. }
  cbn [decode]. rewrite <- E, (DecodeRune_encodeScalar r rest Hs).
  rewrite List.skipn_app, Nat.sub_diag, (List.skipn_all2 (encodeScalar r)) by lia. cbn [app List.skipn].
  f_equal. apply decode_fuel; lia.
Qed.

Lemma runesOf_ofRunes_app rs rest : Forall (fun r => isScalar r = true) rs ->
  runesOf (ofRunes rs ++ rest) = rs ++ runesOf rest.
Proof.
  induction 1 as [|r rs Hr _ IH]; [done|].
  unfold ofRunes in *. cbn [List.map List.concat]. rewrite <- app_assoc, EncodeRune_scalar by done.
  rewrite runesOf_cons by done. by rewrite IH.
Qed.

Lemma runesOf_ofRunes rs : Forall (fun r => isScalar r = true) rs -> runesOf (ofRunes rs) = rs.
Proof.
  intros H. pose proof (runesOf_ofRunes_app rs [] H) as E. by rewrite !app_nil_r in E.
Qed.

Lemma ofRunes_app a b : ofRunes (a ++ b) = ofRunes a ++ ofRunes b.
Proof. unfold ofRunes. by rewrite List.map_app, List.concat_app. Qed.

Lemma ofRunes_norm rs :
  exists rs', Forall (fun r => isScalar r = true) rs' /\ ofRunes rs = ofRunes rs'.
Proof.
  exists (List.map (fun r => if isScalar r then r else RuneError) rs). split.
  - apply Forall_map, Forall_forall. intros r _. by case_match.
  - induction rs as [|r rs IH]; [done|]. unfold ofRunes in *. cbn [List.map List.concat].
    rewrite IH. f_equal. unfold EncodeRune. by destruct (isScalar r) eqn:E; rewrite ?E.
Qed.

Lemma valid_scalars s : validUTF8 s -> exists rs, Forall (fun r => isScalar r = true) rs /\ s = ofRunes rs.
Proof. intros [rs ->]. destruct (ofRunes_norm rs) as (rs' & H & ->). by exists rs'. Qed.

(** A string cut between two runes decodes to the runes of the two parts. *)
Lemma runesOf_app a b : validUTF8 a -> runesOf (a ++ b) = runesOf a ++ runesOf b.
Proof.
  intros (rs & Hrs & ->)%valid_scalars.
  by rewrite runesOf_ofRunes_app, runesOf_ofRunes.
Qed.

Lemma sanitize_id s : validUTF8 s -> sanitize s = s.
Proof.
  intros (rs & Hrs & ->)%valid_scalars. unfold sanitize. by rewrite runesOf_ofRunes.
Qed.

Lemma runesOf_concat ss : Forall validUTF8 ss ->
  runesOf (List.concat ss) = List.concat (List.map runesOf ss).
Proof.
  induction 1 as [|s ss Hs _ IH]; [done|]. cbn [List.concat List.map]. by rewrite runesOf_app, IH.
Qed.

Lemma ascii_valid s : forallb (fun b => (0 <=? b) && (b <? 128)) s = true -> validUTF8 s.
Proof.
  intros H. exists s. induction s as [|b s IH]; [done|]. cbn [forallb] in H.
  apply andb_prop in H as [Hb Hs]. unfold ofRunes in *. cbn [List.map List.concat].
  rewrite <- IH by done. unfold EncodeRune, isScalar, encodeScalar.
  replace (((0 <=? b) && (b <? 55296)) || ((57344 <=? b) && (b <=? 1114111))) with true by (symmetry; lia).
  by replace (b <? 128) with true by lia.
Qed.

(** ** Searching *)

(** [strings.HasPrefix] *)
Fixpoint HasPrefix (s p : gostring) {struct p} : bool :=
  match p, s with
  | [], _ => true
  | a :: p, b :: s => (a =? b) && HasPrefix s p
  | _ :: _, [] => false
  end.

(** [strings.Index], -1 being [None]. *)
Fixpoint Index (s sub : gostring) : option nat :=
  if HasPrefix s sub then Some 0%nat
  else match s with
       | [] => None
       | _ :: s => option_map S (Index s sub)
       end.

(** [strings.Contains] *)
Definition Contains (s sub : gostring) : bool :=
  match Index s sub with Some _ => true | None => false end.

(** [strings.Count]: without overlaps; of the empty string, one more than the
    runes.  The fuel is the length. *)
Fixpoint countFrom (fuel : nat) (s sub : gostring) : nat :=
  match fuel with
  | O => O
  | S fuel =>
    if HasPrefix s sub then S (countFrom fuel (List.skipn (List.length sub) s) sub)
    else match s with [] => O | _ :: s => countFrom fuel s sub end
  end.
Definition Count (s sub : gostring) : nat :=
  match sub with
  | [] => S (List.length (runesOf s))
  | _ => countFrom (List.length s) s sub
  end.

Lemma HasPrefix_spec s p : HasPrefix s p = true <-> p `prefix_of` s.
Proof.
  revert s. induction p as [|a p IH]; intros s; simpl.
  { split; [intros _; apply prefix_nil|by intros _]. }
  destruct s as [|b s]; [split; [done|by intros ?%prefix_nil_inv]|].
  rewrite andb_true_iff, IH. split.
  - intros [->%Z.eqb_eq H]. by apply prefix_cons.
  - intros H. pose proof (prefix_cons_inv_1 _ _ _ _ H) as ->.
    split; [lia|by apply prefix_cons_inv_2 in H].
Qed.

Lemma Index_Some s sub i : Index s sub = Some i -> sub `prefix_of` List.skipn i s /\ (i <= List.length s)%nat.
Proof.
  revert i. induction s as [|b s IH]; intros i; cbn [Index].
  - destruct (HasPrefix [] sub) eqn:E; [|done]. intros [= <-]. by apply HasPrefix_spec in E.
  - destruct (HasPrefix (b :: s) sub) eqn:E.
    + intros [= <-]. apply HasPrefix_spec in E. split; [done|lia].
    + destruct (Index s sub) as [j|]; [|done]. intros [= <-]. destruct (IH j eq_refl) as [H1 H2].
      split; [done|simpl; lia].
Qed.

Lemma Index_first s sub i j : Index s sub = Some i -> (j < i)%nat -> ~ sub `prefix_of` List.skipn j s.
Proof.
  revert i j. induction s as [|b s IH]; intros i j; cbn [Index].
  - destruct (HasPrefix [] sub); [intros [= <-]; lia|done].
  - destruct (HasPrefix (b :: s) sub) eqn:E; [intros [= <-]; lia|].
    destruct (Index s sub) as [k|] eqn:Ek; [|done]. intros [= <-] Hj.
    destruct j as [|j]; simpl; [by rewrite <- HasPrefix_spec, E|]. apply (IH k); [done|lia].
Qed.

Lemma Index_None s sub j : Index s sub = None -> ~ sub `prefix_of` List.skipn j s.
Proof.
  revert j. induction s as [|b s IH]; intros j; cbn [Index].
  - destruct (HasPrefix [] sub) eqn:E; [done|]. intros _. rewrite List.skipn_nil.
    by rewrite <- HasPrefix_spec, E.
  - destruct (HasPrefix (b :: s) sub) eqn:E; [done|].
    destruct (Index s sub) as [k|] eqn:Ek; [done|]. intros _.
    destruct j as [|j]; simpl; [by rewrite <- HasPrefix_spec, E|]. by apply IH.
Qed.

Lemma Contains_false s sub : Contains s sub = false <-> forall j, ~ sub `prefix_of` List.skipn j s.
Proof.
  unfold Contains. destruct (Index s sub) as [i|] eqn:E; split; try done.
  - intros H. destruct (H i). by apply Index_Some.
  - intros _ j. by apply Index_None.
Qed.

Lemma Contains_app_l s t sub : Contains (s ++ t) sub = false -> Contains s sub = false.
Proof.
  rewrite !Contains_false. intros H j [k Hk].
  destruct (decide (j <= List.length s)%nat).
  - apply (H j). exists (k ++ t). rewrite List.skipn_app.
    replace (j - List.length s)%nat with 0%nat by lia. rewrite Hk. by rewrite <- app_assoc.
  - rewrite List.skipn_all2 in Hk by lia. destruct sub; [|done].
    apply (H j). apply prefix_nil.
Qed.

Lemma Count_absent s sub : sub <> [] -> Contains s sub = false -> Count s sub = 0%nat.
Proof.
  intros Hne. unfold Count. destruct sub as [|a sub]; [done|]. generalize (List.length s) as f.
  intros f. revert s. induction f as [|f IH]; intros s H; [done|]. cbn [countFrom].
  assert (H0 := proj1 (Contains_false _ _) H 0%nat). simpl in H0.
  destruct (HasPrefix s (a :: sub)) eqn:E; [by apply HasPrefix_spec in E|].
  destruct s as [|b s]; [done|]. apply IH. apply Contains_false. intros j.
  apply (proj1 (Contains_false _ _) H (S j)).
Qed.

(** [strings.ReplaceAll(s, old, "")], for an [old] that is not empty; the fuel is the
    length. *)
Fixpoint removeAllFrom (fuel : nat) (s old : gostring) : gostring :=
  match fuel with
  | O => s
  | S fuel =>
    if HasPrefix s old then removeAllFrom fuel (List.skipn (List.length old) s) old
    else match s with [] => [] | b :: s => b :: removeAllFrom fuel s old end
  end.
Definition ReplaceAllEmpty (s old : gostring) : gostring := removeAllFrom (S (List.length s)) s old.

(** [strings.Join] *)
Fixpoint joinWith (sep : gostring) (ws : list gostring) : gostring :=
  match ws with [] => [] | [w] => w | w :: ws => w ++ sep ++ joinWith sep ws end.

(** Byte-wise order, as [sort.Strings] compares. *)
Fixpoint bytesLe (a b : gostring) : bool :=
  match a, b with
  | [], _ => true
  | _ :: _, [] => false
  | x :: a, y :: b => (x <? y) || ((x =? y) && bytesLe a b)
  end.

(** ** Slicing *)

(** [s[:n]] and [s[n:]]; [None] is the panic of an index out of range. *)
Definition sliceTo (s : gostring) (n : nat) : option gostring :=
  if (n <=? List.length s)%nat then Some (List.firstn n s) else None.
Definition sliceFrom (s : gostring) (n : nat) : option gostring :=
  if (n <=? List.length s)%nat then Some (List.skipn n s) else None.

Lemma sliceTo_ok s n : (n <= List.length s)%nat -> sliceTo s n = Some (List.firstn n s).
Proof. intros H. unfold sliceTo. by rewrite (proj2 (Nat.leb_le _ _) H). Qed.
Lemma sliceFrom_ok s n : (n <= List.length s)%nat -> sliceFrom s n = Some (List.skipn n s).
Proof. intros H. unfold sliceFrom. by rewrite (proj2 (Nat.leb_le _ _) H). Qed.

(** ** Trimming *)

Fixpoint dropWhile {A} (p : A -> bool) (s : list A) : list A :=
  match s with
  | [] => []
  | a :: s' => if p a then dropWhile p s' else s
  end.

(** [strings.Trim(s, " ")]: the space is one byte in UTF-8 and no part of the
    encoding of another rune. *)
Definition isBlank (b : Z) : bool := b =? 32.
Definition TrimBlank (s : gostring) : gostring :=
  List.rev (dropWhile isBlank (List.rev (dropWhile isBlank s))).

(** [strings.TrimSpace], on a string that is valid UTF-8: the leading and trailing
    runes that are spaces go. *)
Definition TrimSpace (s : gostring) : gostring :=
  ofRunes (List.rev (dropWhile IsSpace (List.rev (dropWhile IsSpace (runesOf s))))).

Lemma dropWhile_split {A} (p : A -> bool) s :
  exists pre, s = pre ++ dropWhile p s /\ Forall (fun a => p a = true) pre.
Proof.
  induction s as [|a s [pre [E H]]]; simpl; [by exists []|].
  destruct (p a) eqn:Hp; [|by exists []].
  exists (a :: pre). split; [simpl; by f_equal|by constructor].
Qed.

Lemma trim_split {A} (p : A -> bool) s :
  exists pre post, s = pre ++ List.rev (dropWhile p (List.rev (dropWhile p s))) ++ post
    /\ Forall (fun a => p a = true) pre /\ Forall (fun a => p a = true) post.
Proof.
  destruct (dropWhile_split p s) as (pre & E & Hpre).
  destruct (dropWhile_split p (List.rev (dropWhile p s))) as (post & E2 & Hpost).
  exists pre, (List.rev post). split_and!; [|done|].
  - rewrite E at 1. f_equal. rewrite <- List.rev_app_distr, <- E2. by rewrite List.rev_involutive.
  - by apply List.Forall_rev.
Qed.
