(* ===== verification/TextAgg.v ===== *)
(** * TextAgg

    How streamed text becomes units to speak, from [src/utils/text/]: the sentence
    tokenizer's checks ([sentence.go]; the trained model is a parameter), the plain
    aggregator ([aggregator.go]), delimiter tracking ([tags.go]), the aggregator that
    does not cut inside tags ([skiptags.go]), the one that recognizes delimited
    patterns ([patternpair.go]), and the joining of pieces ([concatenate.go]).

    A function that slices returns an option, [None] being the panic.  The
    aggregators are records threaded through; what a pattern's handler is called
    with is returned beside the units. *)

From S2P Require Import Prelude Text Strings.

Local Open Scope Z_scope.

Module TextAgg.

(** ** Units of text *)

Abbreviation AggregationType := string.
Definition AggregationSentence : AggregationType := "sentence".
Definition AggregationToken : AggregationType := "token".
Definition AggregationWord : AggregationType := "word".
Definition AnyAggregation : AggregationType := "*".

Record Aggregation := mkAgg { aText : gostring; aType : AggregationType; aRaw : gostring }.

Definition Original (a : Aggregation) : gostring :=
  match aRaw a with [] => aText a | raw => raw end.

(** ** Sentence endings *)

Definition latinSentenceEndingPunctuation : list rune := [46; 33; 63; 59; 8230].

Definition sentenceEndingPunctuation : list rune :=
  latinSentenceEndingPunctuation ++
  [12290; 65311; 65281; 65307; 65294; 65377;      (* East Asian *)
   2404; 2405;                                     (* Indic *)
   1567; 1563; 1748; 1551;                         (* Arabic *)
   4170; 4171;                                     (* Myanmar *)
   6100; 6101;                                     (* Khmer *)
   3788; 3854; 3853;                               (* Lao and Tibetan *)
   1417; 1372; 1374;                               (* Armenian *)
   4962; 4967; 4968].                              (* Ethiopic *)

Definition inTable (r : rune) (t : list rune) : bool := existsb (Z.eqb r) t.

Definition IsSentenceEnding (r : rune) : bool := inTable r sentenceEndingPunctuation.
Definition isUnambiguousEnding (r : rune) : bool :=
  inTable r sentenceEndingPunctuation && negb (inTable r latinSentenceEndingPunctuation).

(** The interface the aggregators use, and what they rely on: an offset into the
    text. *)
Class SentenceTokenizer := MatchEndOfSentence : gostring -> Z.
Class SentenceTokenizerOk (T : SentenceTokenizer) : Prop :=
  tokenizer_in_range : forall t, MatchEndOfSentence t <= Z.of_nat (List.length t).

Section Punkt.
(** The trained model: the sentences it cuts a text into. *)
Context (Tokenize : gostring -> list gostring).

(** [strings.TrimRight(text, " \t\n\r")] *)
Definition isTrimmed (b : Z) : bool := (b =? 32) || (b =? 9) || (b =? 10) || (b =? 13).
Definition TrimRightSpace (s : gostring) : gostring := List.rev (dropWhile isTrimmed (List.rev s)).

Definition lastRune (s : gostring) : option rune := List.head (List.rev (runesOf s)).

(** The scan for punctuation that needs no disambiguation; [i] is the offset. *)
Fixpoint firstUnambiguous (fuel : nat) (i : nat) (s : gostring) : Z :=
  match fuel, s with
  | S fuel, _ :: _ =>
    let '(r, w) := DecodeRune s in
    if isUnambiguousEnding r then Z.of_nat (i + List.length (EncodeRune r))
    else firstUnambiguous fuel (i + w) (List.skipn w s)
  | _, _ => 0
  end.

Definition Punkt_MatchEndOfSentence (t : gostring) : Z :=
  let text := TrimRightSpace t in
  match text with
  | [] => 0
  | _ :: _ =>
    match Tokenize text with
    | [] => 0
    | first :: [] =>
      if decide (first = text) then
        match lastRune text with
        | Some r => if IsSentenceEnding r then Z.of_nat (List.length text)
                    else firstUnambiguous (List.length text) 0 text
        | None => firstUnambiguous (List.length text) 0 text
        end
      else 0
    | first :: _ => Z.of_nat (List.length first)
    end
  end.
End Punkt.

(** ** The plain aggregator *)

Record Simple := mkSimple {
  aggregationType : AggregationType;
  text : gostring;
  needsLookahead : bool
}.
#[export] Instance eta_Simple : Eta Simple := fun a =>
  mkSimple (aggregationType a) (text a) (needsLookahead a).

Definition NewSimpleAggregator (aggregateBy : AggregationType) : Simple := mkSimple aggregateBy [] false.
Definition NewTokenAggregator : Simple := mkSimple AggregationToken [] false.

Definition byToken (a : Simple) : bool := bool_decide (aggregationType a = AggregationToken).

Definition Simple_Reset (a : Simple) : Simple := a <| text := [] |> <| needsLookahead := false |>.

Definition Simple_Flush (a : Simple) : option Aggregation * Simple :=
  if byToken a || bool_decide (text a = []) then (None, a)
  else (Some (mkAgg (TrimBlank (text a)) AggregationSentence []), Simple_Reset a).

Section Aggregators.
Context `{tok : SentenceTokenizer}.

Definition checkSentenceWithLookahead (a : Simple) (r : rune) : option (option Aggregation * Simple) :=
  if needsLookahead a then
    if bool_decide (TrimSpace (EncodeRune r) = []) then Some (None, a)
    else
      let a := a <| needsLookahead := false |> in
      let end_ := MatchEndOfSentence (text a) in
      if end_ <=? 0 then Some (None, a)
      else
        sentence ← sliceTo (text a) (Z.to_nat end_);
        rest ← sliceFrom (text a) (Z.to_nat end_);
        Some (Some (mkAgg (TrimBlank sentence) AggregationSentence []), a <| text := rest |>)
  else if IsSentenceEnding r then Some (None, a <| needsLookahead := true |>)
  else Some (None, a).

(** One turn of the loop over the text's runes. *)
Definition Simple_feed (a : Simple) (r : rune) : option (option Aggregation * Simple) :=
  checkSentenceWithLookahead (a <| text ::= fun t => t ++ EncodeRune r |>) r.

Fixpoint Simple_range (a : Simple) (rs : list rune) : option (list Aggregation * Simple) :=
  match rs with
  | [] => Some ([], a)
  | r :: rs =>
    '(o, a) ← Simple_feed a r;
    '(out, a) ← Simple_range a rs;
    Some (option_list o ++ out, a)
  end.

Definition Simple_Aggregate (a : Simple) (t : gostring) : option (list Aggregation * Simple) :=
  if byToken a then
    Some (if bool_decide (t = []) then [] else [mkAgg t AggregationToken []], a)
  else Simple_range a (runesOf t).

(** ** Tags *)

Record StartEndTags := mkTags { Start : gostring; End_ : gostring }.

Fixpoint scanTags (rest : gostring) (len index : nat) (tags : list StartEndTags)
  : option StartEndTags * nat :=
  match tags with
  | [] => (None, index)
  | tag :: tags =>
    let starts := Count rest (Start tag) in
    let ends := Count rest (End_ tag) in
    if (starts =? 0)%nat && (ends =? 0)%nat then (None, index)
    else if (ends <? starts)%nat then (Some tag, len)
    else if (starts =? ends)%nat then (None, len)
    else scanTags rest len index tags
  end.

Definition ParseStartEndTags (t : gostring) (tags : list StartEndTags)
    (current : option StartEndTags) (index : nat) : option (option StartEndTags * nat) :=
  match current with
  | Some tag =>
    rest ← sliceFrom t index;
    Some (if Contains rest (End_ tag) then (None, List.length t) else (Some tag, index))
  | None =>
    match tags with
    | [] => Some (None, index)
    | _ => rest ← sliceFrom t index; Some (scanTags rest (List.length t) index tags)
    end
  end.

(** The inner loop: the lengths from [len] down to what is already found. *)
Fixpoint partialFrom (t candidate : gostring) (len longest : nat) : nat :=
  match len with
  | O => longest
  | S len' =>
    if (len <=? longest)%nat then longest
    else if bool_decide (List.skipn (List.length t - len) t = List.firstn len candidate) then len
    else partialFrom t candidate len' longest
  end.

Definition LongestTrailingPartialMatch (t : gostring) (candidates : list gostring) : nat :=
  fold_left (fun longest c => partialFrom t c (Nat.min (List.length c - 1) (List.length t)) longest)
    candidates 0%nat.

(** ** The aggregator that does not cut inside tags *)

Record SkipTags := mkSkip {
  simple : Simple;
  tags : list StartEndTags;
  currentTag : option StartEndTags;
  currentTagIndex : nat
}.
#[export] Instance eta_SkipTags : Eta SkipTags := fun a =>
  mkSkip (simple a) (tags a) (currentTag a) (currentTagIndex a).

Definition NewSkipTagsAggregator (aggregateBy : AggregationType) (ts : list StartEndTags) : SkipTags :=
  mkSkip (NewSimpleAggregator aggregateBy) ts None 0.

Definition clearTags (a : SkipTags) : SkipTags := a <| currentTag := None |> <| currentTagIndex := 0%nat |>.

Definition Skip_Reset (a : SkipTags) : SkipTags := clearTags (a <| simple ::= Simple_Reset |>).

(** Appending a rune and scanning for tags, which both loops begin with. *)
Definition Skip_scan (a : SkipTags) (r : rune) : option SkipTags :=
  let s := (simple a) <| text ::= fun t => t ++ EncodeRune r |> in
  '(tag, index) ← ParseStartEndTags (text s) (tags a) (currentTag a) (currentTagIndex a);
  Some (a <| simple := s |> <| currentTag := tag |> <| currentTagIndex := index |>).

Fixpoint Skip_scanAll (a : SkipTags) (rs : list rune) : option SkipTags :=
  match rs with [] => Some a | r :: rs => a ← Skip_scan a r; Skip_scanAll a rs end.

Definition Skip_feed (a : SkipTags) (r : rune) : option (option Aggregation * SkipTags) :=
  a ← Skip_scan a r;
  if currentTag a is Some _ then Some (None, a)
  else
    '(o, s) ← checkSentenceWithLookahead (simple a) r;
    Some (o, a <| simple := s |>).

Fixpoint Skip_range (a : SkipTags) (rs : list rune) : option (list Aggregation * SkipTags) :=
  match rs with
  | [] => Some ([], a)
  | r :: rs =>
    '(o, a) ← Skip_feed a r;
    '(out, a) ← Skip_range a rs;
    Some (option_list o ++ out, a)
  end.

(** What a token-grouping aggregator releases once a piece has been scanned. *)
Definition Skip_release (a : SkipTags) : option (list Aggregation * SkipTags) :=
  let t := text (simple a) in
  if currentTag a is Some _ then Some ([], a)
  else if bool_decide (t = []) then Some ([], a)
  else
    let held := LongestTrailingPartialMatch t (List.map Start (tags a)) in
    let size := (List.length t - held)%nat in
    if (size <=? 0)%nat then Some ([], a)
    else
      content ← sliceTo t size;
      rest ← sliceFrom t size;
      Some ([mkAgg content AggregationToken []],
            a <| simple ::= fun s => s <| text := rest |> |> <| currentTagIndex := 0%nat |>).

Definition Skip_Aggregate (a : SkipTags) (t : gostring) : option (list Aggregation * SkipTags) :=
  if byToken (simple a) then a ← Skip_scanAll a (runesOf t); Skip_release a
  else Skip_range a (runesOf t).

Definition Skip_Flush (a : SkipTags) : option Aggregation * SkipTags :=
  if byToken (simple a) then
    if bool_decide (text (simple a) = []) then (None, a)
    else (Some (mkAgg (text (simple a)) AggregationToken []), Skip_Reset a)
  else
    let '(rest, s) := Simple_Flush (simple a) in
    let a := a <| simple := s |> in
    (rest, if rest is Some _ then clearTags a else a).

(** ** Patterns *)

Inductive MatchAction := MatchRemove | MatchKeep | MatchAggregate.
#[export] Instance MatchAction_dec : EqDecision MatchAction.
Proof. solve_decision. Defined.

Record pattern := mkPattern {
  typ : AggregationType; start : gostring; end_ : gostring; action : MatchAction
}.

Record PatternPair := mkPP {
  pp : Simple;
  patterns : list pattern;
  handlers : list AggregationType;     (** the types with a handler registered *)
  lastProcessed : nat
}.
#[export] Instance eta_PatternPair : Eta PatternPair := fun a =>
  mkPP (pp a) (patterns a) (handlers a) (lastProcessed a).

Definition NewPatternPairAggregator (aggregateBy : AggregationType) : PatternPair :=
  mkPP (NewSimpleAggregator aggregateBy) [] [] 0.

(** [None] is [ErrReservedAggregationType]. *)
Definition AddPattern (a : PatternPair) (t : AggregationType) (s e : gostring) (act : MatchAction)
  : option PatternPair :=
  if existsb (fun r => bool_decide (t = r)) [AggregationSentence; AggregationWord; AggregationToken; AnyAggregation]
  then None
  else Some (a <| patterns ::= fun ps => ps ++ [mkPattern t s e act] |>).

Definition OnPatternMatch (a : PatternPair) (t : AggregationType) : PatternPair :=
  a <| handlers ::= cons t |>.

Definition patternFor (a : PatternPair) (t : AggregationType) : option pattern :=
  List.find (fun p => bool_decide (typ p = t)) (patterns a).

(** [re.FindAllStringSubmatchIndex] of the quoted opening, [(.*?)] over any
    character, and the quoted closing: the leftmost opening that a closing follows,
    up to the nearest one, and on from there.  A match is (start of the opening, end
    of the closing), and (start, end) of what is between.  An empty match ([start]
    and [end_] both empty) is out of scope: the fuel is the length. *)
Fixpoint findAll (fuel : nat) (p : pattern) (base : nat) (t : gostring)
  : list ((nat * nat) * (nat * nat)) :=
  match fuel with
  | O => []
  | S fuel =>
    match Index t (start p) with
    | None => []
    | Some i =>
      let c := (i + List.length (start p))%nat in
      match Index (List.skipn c t) (end_ p) with
      | None => []
      | Some j =>
        let e := (c + j + List.length (end_ p))%nat in
        ((base + i, base + e)%nat, (base + c, base + c + j)%nat)
          :: findAll fuel p (base + e) (List.skipn e t)
      end
    end
  end.
Definition FindAll (p : pattern) (t : gostring) : list ((nat * nat) * (nat * nat)) :=
  findAll (List.length t) p 0 t.

(** [s[i:j]] *)
Definition slice (s : gostring) (i j : nat) : option gostring :=
  if (i <=? j)%nat && (j <=? List.length s)%nat then Some (List.firstn (j - i) (List.skipn i s)) else None.

(** [strings.Replace(s, old, "", 1)] *)
Definition replaceFirst (s old : gostring) : gostring :=
  match Index s old with
  | Some i => List.firstn i s ++ List.skipn (i + List.length old) s
  | None => s
  end.

(** The inner loop of [processCompletePatterns]: the matches found, the matches the
    handler is called with, and the text left. *)
Fixpoint onMatches (hs : list AggregationType) (p : pattern) (reported : nat)
    (locs : list ((nat * nat) * (nat * nat))) (processed : gostring)
  : option (list Aggregation * list Aggregation * gostring) :=
  match locs with
  | [] => Some ([], [], processed)
  | ((l0, l1), (l2, l3)) :: locs =>
    full ← slice processed l0 l1;
    content ← slice processed l2 l3;
    let m := mkAgg (TrimSpace content) (typ p) full in
    let already := (l1 <=? reported)%nat in
    let call := if negb already && existsb (fun t => bool_decide (t = typ p)) hs then [m] else [] in
    let remove := bool_decide (action p = MatchRemove) in
    let processed := if remove && negb already then replaceFirst processed full else processed in
    '(all, calls, processed) ← onMatches hs p reported locs processed;
    Some ((if remove then [] else [m]) ++ all, call ++ calls, processed)
  end.

Fixpoint onPatterns (hs : list AggregationType) (ps : list pattern) (reported : nat) (processed : gostring)
  : option (list Aggregation * list Aggregation * gostring) :=
  match ps with
  | [] => Some ([], [], processed)
  | p :: ps =>
    '(all1, calls1, processed) ← onMatches hs p reported (FindAll p processed) processed;
    '(all2, calls2, processed) ← onPatterns hs ps reported processed;
    Some (all1 ++ all2, calls1 ++ calls2, processed)
  end.

Definition processCompletePatterns (a : PatternPair) (t : gostring) (reported : nat)
  : option (list Aggregation * list Aggregation * gostring) :=
  onPatterns (handlers a) (patterns a) reported t.

(** [strings.Index] here cannot fail: an opening occurs more often than none. *)
Definition matchStartOfPattern (a : PatternPair) (t : gostring) : option (Z * pattern) :=
  match List.find (fun p => (Count t (end_ p) <? Count t (start p))%nat) (patterns a) with
  | Some p => Some (match Index t (start p) with Some i => Z.of_nat i | None => -1 end, p)
  | None => None
  end.

Definition plainType (a : PatternPair) : AggregationType :=
  if byToken (pp a) then AggregationToken else AggregationSentence.

Definition setText (a : PatternPair) (t : gostring) : PatternPair := a <| pp ::= fun s => s <| text := t |> |>.

(** A sentence the pattern aggregator passes on carries its own text as raw. *)
Definition withRaw (g : Aggregation) : Aggregation := mkAgg (aText g) (aType g) (aText g).

(** One turn of the loop: the unit it appends, if any, and the handlers' calls. *)
Definition Pair_feed (a : PatternPair) (r : rune)
  : option (list Aggregation * list Aggregation * PatternPair) :=
  let t := text (pp a) ++ EncodeRune r in
  '(matches, calls, processed) ← processCompletePatterns a t (lastProcessed a);
  let a := setText (a <| lastProcessed := List.length t |>) processed in
  let whole := match matches with
               | m :: _ => match patternFor a (aType m) with
                           | Some p => if decide (action p = MatchAggregate) then Some m else None
                           | None => None
                           end
               | [] => None
               end in
  match whole with
  | Some m => Some ([m], calls, setText a [])
  | None =>
    match matchStartOfPattern a processed with
    | Some (at_, p) =>
      if (at_ =? 0) || negb (bool_decide (action p = MatchAggregate)) then Some ([], calls, a)
      else
        result ← (if at_ <? 0 then None else sliceTo processed (Z.to_nat at_));
        rest ← sliceFrom processed (Z.to_nat at_);
        Some ([mkAgg (TrimSpace result) (plainType a) result], calls, setText a rest)
    | None =>
      if byToken (pp a) then Some ([], calls, a)
      else
        '(o, s) ← checkSentenceWithLookahead (pp a) r;
        Some (List.map withRaw (option_list o), calls, a <| pp := s |>)
    end
  end.

Fixpoint Pair_range (a : PatternPair) (rs : list rune)
  : option (list Aggregation * list Aggregation * PatternPair) :=
  match rs with
  | [] => Some ([], [], a)
  | r :: rs =>
    '(o1, c1, a) ← Pair_feed a r;
    '(o2, c2, a) ← Pair_range a rs;
    Some (o1 ++ o2, c1 ++ c2, a)
  end.

Definition releaseToken (a : PatternPair) : option (option Aggregation * PatternPair) :=
  let t := text (pp a) in
  if negb (byToken (pp a)) || bool_decide (t = []) then Some (None, a)
  else if matchStartOfPattern a t is Some _ then Some (None, a)
  else
    let held := LongestTrailingPartialMatch t (List.map start (patterns a)) in
    let size := (List.length t - held)%nat in
    if (size <=? 0)%nat then Some (None, a)
    else
      content ← sliceTo t size;
      rest ← sliceFrom t size;
      Some (Some (mkAgg content AggregationToken content),
            (setText a rest) <| lastProcessed := List.length rest |>).

Definition Pair_Aggregate (a : PatternPair) (t : gostring)
  : option (list Aggregation * list Aggregation * PatternPair) :=
  '(out, calls, a) ← Pair_range a (runesOf t);
  '(o, a) ← releaseToken a;
  Some (out ++ option_list o, calls, a).

End Aggregators.

(** ** The end of a response, with patterns *)

Definition Pair_Reset (a : PatternPair) : PatternPair := a <| pp ::= Simple_Reset |> <| lastProcessed := 0%nat |>.

Definition spanContaining (spans : list (nat * nat)) (i : nat) : option (nat * nat) :=
  List.find (fun s => (s.1 <=? i)%nat && (i <? s.2)%nat) spans.

(** The loop over one pattern's openings, from [from]; every turn but the last
    moves past a run, so the length is enough fuel. *)
Fixpoint openStart (fuel : nat) (p : pattern) (spans : list (nat * nat)) (t : gostring) (from : nat)
  : option nat :=
  match fuel with
  | O => None
  | S fuel =>
    match Index (List.skipn from t) (start p) with
    | None => None
    | Some k =>
      let idx := (k + from)%nat in
      match spanContaining spans idx with
      | Some span => openStart fuel p spans t span.2
      | None => Some idx
      end
    end
  end.

Definition earliestDroppableStart (a : PatternPair) (t : gostring) : option nat :=
  fold_left (fun earliest p =>
      if decide (action p = MatchKeep) then earliest
      else match openStart (S (List.length t)) p (List.map fst (FindAll p t)) t 0 with
           | Some idx => Some (match earliest with Some e => Nat.min e idx | None => idx end)
           | None => earliest
           end)
    (patterns a) None.

(** The longest proper prefix of the opening, of at most [len] bytes, the text ends in. *)
Fixpoint trailingStart (t s : gostring) (len : nat) : nat :=
  match len with
  | O => 0
  | S len' => if bool_decide (List.skipn (List.length t - len) t = List.firstn len s) then len
              else trailingStart t s len'
  end.

Definition trimTrailingPartialStart (a : PatternPair) (t : gostring) : gostring :=
  let trim := fold_left (fun trim p =>
      if decide (action p = MatchKeep) then trim
      else Nat.max trim (trailingStart t (start p) (Nat.min (List.length (start p) - 1) (List.length t))))
    (patterns a) 0%nat in
  List.firstn (List.length t - trim) t.

Definition Pair_Flush (a : PatternPair) : option Aggregation * PatternPair :=
  let result := text (pp a) in
  let result := match earliestDroppableStart a result with
                | Some cut => List.firstn cut result
                | None => result
                end in
  let result := trimTrailingPartialStart a result in
  let stripped := TrimSpace result in
  (if bool_decide (stripped = []) then None else Some (mkAgg stripped (plainType a) result), Pair_Reset a).

(** ** Joining pieces *)

Record Part := mkPart { pText : gostring; IncludesInterPartSpaces : bool }.

(** [utf8.DecodeLastRuneInString] *)
Fixpoint lastStart (fuel : nat) (s : gostring) (from : nat) : nat :=
  match fuel with
  | O => from
  | S fuel =>
    match s !! from with
    | Some b => if negb ((128 <=? b) && (b <? 192)) then from
                else match from with O => O | S f => lastStart fuel s f end
    | None => from
    end
  end.
Definition DecodeLastRune (s : gostring) : rune * nat :=
  match List.rev s with
  | [] => (RuneError, 0%nat)
  | b :: _ =>
    let n := List.length s in
    if b <? 128 then (b, 1%nat)
    else
      let st := lastStart 3 s (n - 2) in
      let '(r, w) := DecodeRune (List.skipn st s) in
      if (st + w =? n)%nat then (r, w) else (RuneError, 1%nat)
  end.

Definition endsWithSpace (s : gostring) : bool :=
  let '(r, size) := DecodeLastRune s in (0 <? size)%nat && IsSpace r.
Definition startsWithSpace (s : gostring) : bool :=
  let '(r, size) := DecodeRune s in (0 <? size)%nat && IsSpace r.

(** The loop: what is written, and whether the last part brought its spaces. *)
Definition concat_step (st : gostring * bool) (p : Part) : gostring * bool :=
  let '(b, last) := st in
  let inc := IncludesInterPartSpaces p in
  if bool_decide (pText p = []) then st
  else if bool_decide (b = []) then (pText p, inc)
  else if inc && last then (b ++ pText p, inc)
  else if negb inc && negb last then (b ++ [32] ++ pText p, inc)
  else (b ++ (if negb (endsWithSpace b) && negb (startsWithSpace (pText p)) then [32] else []) ++ pText p, inc).

Definition Concatenate (parts : list Part) : gostring :=
  TrimSpace (fold_left concat_step parts ([], false)).1.

(** Aggregating a stream of pieces, for any of the aggregators. *)
Fixpoint stream {S} (agg : S -> gostring -> option (list Aggregation * S)) (a : S)
    (pieces : list gostring) : option (list Aggregation * S) :=
  match pieces with
  | [] => Some ([], a)
  | p :: pieces =>
    '(o1, a) ← agg a p;
    '(o2, a) ← stream agg a pieces;
    Some (o1 ++ o2, a)
  end.

(** ** The plain aggregator loses nothing *)

Section SimpleFacts.
Context {tok : SentenceTokenizer} {tokOk : SentenceTokenizerOk tok}.

(** A unit cut from the buffer: the tokenizer, seeing what had arrived, put the
    end of a sentence there. *)
Definition confirmed (raw : gostring) : Prop :=
  raw <> [] /\ exists seen, MatchEndOfSentence (raw ++ seen) = Z.of_nat (List.length raw).

Definition sentenceOf (raw : gostring) : Aggregation := mkAgg (TrimBlank raw) AggregationSentence [].

Lemma check_spec a r : exists o a',
  checkSentenceWithLookahead a r = Some (o, a') /\ aggregationType a' = aggregationType a /\
  match o with
  | None => text a' = text a
  | Some g => exists raw, g = sentenceOf raw /\ confirmed raw /\ text a = raw ++ text a'
  end.
Proof.
  unfold checkSentenceWithLookahead. destruct (needsLookahead a); [|by case_match; eauto 10].
  case_bool_decide; [by eauto 10|].
  set (a1 := a <| needsLookahead := false |>). change (text a1) with (text a).
  pose proof (tokenizer_in_range (text a)) as Hr. destruct (_ <=? 0) eqn:E; [by eauto 10|].
  rewrite sliceTo_ok, sliceFrom_ok by lia. simpl.
  eexists _, _. split_and!; [done..|]. exists (List.firstn (Z.to_nat (MatchEndOfSentence (text a))) (text a)).
  assert (List.length (List.firstn (Z.to_nat (MatchEndOfSentence (text a))) (text a))
          = Z.to_nat (MatchEndOfSentence (text a))) as El by (rewrite List.length_firstn; lia).
  split_and!; [done| |by rewrite List.firstn_skipn].
  split; [intros E0; rewrite E0 in El; simpl in El; lia|].
  eexists. rewrite List.firstn_skipn, El. lia.
Qed.

Lemma Simple_range_spec rs a : exists raws a',
  Simple_range a rs = Some (List.map sentenceOf raws, a') /\ aggregationType a' = aggregationType a /\
  Forall confirmed raws /\ text a ++ ofRunes rs = List.concat raws ++ text a'.
Proof.
  revert a. induction rs as [|r rs IH]; intros a.
  { exists [], a. split_and!; [done..|]. by rewrite app_nil_r. }
  cbn [Simple_range]. unfold Simple_feed.
  destruct (check_spec (a <| text ::= fun t => t ++ EncodeRune r |>) r) as (o & a1 & E1 & T1 & H1).
  rewrite E1. cbn [mbind option_bind].
  destruct (IH a1) as (raws & a2 & E2 & T2 & F2 & H2). rewrite E2. cbn [mbind option_bind].
  simpl in H1, T1. change (ofRunes (r :: rs)) with (EncodeRune r ++ ofRunes rs).
  destruct o as [g|].
  - destruct H1 as (raw & -> & Hc & Ht). exists (raw :: raws), a2.
    split_and!; [done|congruence|by constructor|].
    cbn [List.concat]. rewrite <- app_assoc, <- H2, !app_assoc. by rewrite Ht.
  - exists raws, a2. split_and!; [done|congruence|done|]. rewrite <- H2, app_assoc. by rewrite H1.
Qed.

Lemma Simple_range_app rs1 rs2 a o1 a1 :
  Simple_range a rs1 = Some (o1, a1) ->
  Simple_range a (rs1 ++ rs2) = '(o2, a2) ← Simple_range a1 rs2; Some (o1 ++ o2, a2).
Proof.
  revert a o1. induction rs1 as [|r rs1 IH]; intros a o1; cbn [Simple_range app].
  { intros [= <- <-]. by destruct (Simple_range a rs2) as [[]|]. }
  destruct (Simple_feed a r) as [[o a']|]; [|done]. cbn [mbind option_bind].
  destruct (Simple_range a' rs1) as [[out a'']|] eqn:E; [|done]. cbn [mbind option_bind].
  intros [= <- <-]. rewrite (IH _ _ E). destruct (Simple_range a'' rs2) as [[]|]; [|done].
  cbn [mbind option_bind]. by rewrite app_assoc.
Qed.

Lemma Aggregate_range a t : byToken a = false -> Simple_Aggregate a t = Simple_range a (runesOf t).
Proof. unfold Simple_Aggregate. by intros ->. Qed.

Lemma stream_range a pieces : byToken a = false -> Forall validUTF8 pieces ->
  stream Simple_Aggregate a pieces = Simple_range a (runesOf (List.concat pieces)).
Proof.
  intros Hb Hv. revert a Hb. induction Hv as [|p pieces Hp Hv IH]; intros a Hb; [done|].
  cbn [stream List.concat]. rewrite runesOf_app by done.
  destruct (Simple_range_spec (runesOf p) a) as (raws & a1 & E & T & _ & _).
  rewrite Aggregate_range, (Simple_range_app _ _ _ _ _ E), E by done. cbn [mbind option_bind].
  rewrite IH; [done|]. unfold byToken in *. by rewrite T.
Qed.

(** Grouping by sentence, the plain aggregator never panics and loses nothing,
    however its input is cut into pieces: the buffer and the input are the units, before
    their blanks are trimmed, and what is still buffered; each unit ends where the
    tokenizer, shown more text, confirmed the end of a sentence; and the units do not
    depend on where the pieces were cut. *)
Theorem simple_aggregates a pieces :
  byToken a = false -> Forall validUTF8 pieces ->
  exists raws a',
    stream Simple_Aggregate a pieces = Some (List.map sentenceOf raws, a')
    /\ Simple_Aggregate a (List.concat pieces) = Some (List.map sentenceOf raws, a')
    /\ Forall confirmed raws
    /\ text a ++ List.concat pieces = List.concat raws ++ text a'
    /\ (Simple_Flush a').1 = (if bool_decide (text a' = []) then None else Some (sentenceOf (text a'))).
Proof.
  intros Hb Hv.
  assert (validUTF8 (List.concat pieces)) as Hc.
  { clear -Hv. induction Hv as [|p ps [rs ->] _ [rs' E]]; [by exists []|].
    exists (rs ++ rs'). cbn [List.concat]. by rewrite E, ofRunes_app. }
  destruct (Simple_range_spec (runesOf (List.concat pieces)) a) as (raws & a' & E & T & F & H).
  exists raws, a'. fold (sanitize (List.concat pieces)) in H. rewrite (sanitize_id _ Hc) in H.
  rewrite stream_range, Aggregate_range by done. split_and!; [done..|].
  unfold Simple_Flush, byToken in *. rewrite T, Hb. simpl. by destruct (bool_decide (text a' = [])).
Qed.
End SimpleFacts.

(** ** Tags *)

Lemma partialFrom_spec t c len longest : (len <= List.length t)%nat ->
  let k := partialFrom t c len longest in
  (longest <= k)%nat
  /\ (k = longest \/ (k <= len)%nat /\ List.skipn (List.length t - k) t = List.firstn k c)
  /\ forall l, (k < l <= len)%nat -> List.skipn (List.length t - l) t <> List.firstn l c.
Proof.
  revert longest. induction len as [|len IH]; intros longest Hl; cbn [partialFrom].
  { split_and!; [lia|by left|intros; lia]. }
  destruct (S len <=? longest)%nat eqn:E; [apply Nat.leb_le in E; split_and!; [lia|by left|intros; lia]|].
  apply Nat.leb_gt in E. case_bool_decide as D; [split_and!; [lia|by right|intros; lia]|].
  destruct (IH longest ltac:(lia)) as (H1 & H2 & H3). split_and!; [done| |].
  - destruct H2 as [->|[? ?]]; [by left|right; split; [lia|done]].
  - intros l Hl'. destruct (decide (l = S len)) as [->|]; [done|]. apply H3. lia.
Qed.

(** [LongestTrailingPartialMatch]: no longer suffix of the text is a proper prefix
    of a candidate. *)
Lemma LongestTrailingPartialMatch_spec t cs :
  let k := LongestTrailingPartialMatch t cs in
  (k <= List.length t)%nat
  /\ forall c l, c ∈ cs -> (k < l < List.length c)%nat -> (l <= List.length t)%nat ->
     List.skipn (List.length t - l) t <> List.firstn l c.
Proof.
  unfold LongestTrailingPartialMatch.
  enough (forall n, (n <= List.length t)%nat ->
    let k := fold_left (fun longest c => partialFrom t c (Nat.min (List.length c - 1) (List.length t)) longest) cs n in
    (n <= k <= List.length t)%nat /\ forall c l, c ∈ cs -> (k < l < List.length c)%nat -> (l <= List.length t)%nat ->
     List.skipn (List.length t - l) t <> List.firstn l c) as G.
  { destruct (G 0%nat ltac:(lia)) as [? ?]. split; [lia|done]. }
  induction cs as [|c cs IH]; intros n Hn; cbn [fold_left]; [split; [lia|by intros c l Hc%not_elem_of_nil]|].
  destruct (partialFrom_spec t c (Nat.min (List.length c - 1) (List.length t)) n ltac:(lia)) as (H1 & H2 & H3).
  set (m := partialFrom t c _ n) in *.
  destruct (IH m ltac:(lia)) as [B L]. split; [lia|].
  intros c' l [->|Hin]%elem_of_cons Hl Ht; [apply H3; lia|by apply L].
Qed.

Section SkipFacts.
Context {tok : SentenceTokenizer}.

(** What scanning keeps: the tags and the way of grouping; the offset stays
    within the text when it was. *)
Lemma ParseStartEndTags_ok t ts cur i : (i <= List.length t)%nat ->
  exists cur' i', ParseStartEndTags t ts cur i = Some (cur', i') /\ (i' <= List.length t)%nat.
Proof.
  intros Hi. unfold ParseStartEndTags. destruct cur as [tag|].
  - rewrite sliceFrom_ok by done. cbn [mbind option_bind]. case_match; eauto.
  - destruct ts as [|tag ts]; [by eauto|]. rewrite sliceFrom_ok by done. cbn [mbind option_bind].
    generalize (List.skipn i t) as rest. generalize (tag :: ts) as l. intros l rest.
    assert (exists cur' i', scanTags rest (List.length t) i l = (cur', i') /\ (i' <= List.length t)%nat)
      as (cur' & i' & E & ?); [|rewrite E; eauto].
    clear -Hi. induction l as [|x l IH]; simpl; [by eauto|].
    repeat case_match; eauto.
Qed.

Lemma Skip_scanAll_ok rs a : (currentTagIndex a <= List.length (text (simple a)))%nat ->
  exists a', Skip_scanAll a rs = Some a' /\ text (simple a') = text (simple a) ++ ofRunes rs
    /\ aggregationType (simple a') = aggregationType (simple a) /\ tags a' = tags a
    /\ (currentTagIndex a' <= List.length (text (simple a')))%nat.
Proof.
  revert a. induction rs as [|r rs IH]; intros a Hi.
  { exists a. split_and!; [done|by rewrite app_nil_r|done..]. }
  cbn [Skip_scanAll]. unfold Skip_scan. simpl.
  destruct (ParseStartEndTags_ok (text (simple a) ++ EncodeRune r) (tags a) (currentTag a) (currentTagIndex a))
    as (cur & i & E & Hi'); [rewrite length_app; lia|].
  rewrite E. simpl.
  edestruct IH as (a' & E2 & T & G & Tg & I); [|rewrite E2; exists a'; split_and!; [done| |done..]].
  - done.
  - rewrite T. simpl. change (ofRunes (r :: rs)) with (EncodeRune r ++ ofRunes rs). by rewrite app_assoc.
Qed.

(** What is released cuts no opening tag: where one begins that the text so far
    does not hold whole, it begins in what is held back. *)
Lemma Skip_release_ok a : (currentTagIndex a <= List.length (text (simple a)))%nat ->
  exists out a', Skip_release a = Some (out, a') /\ text (simple a) = List.concat (List.map aText out) ++ text (simple a')
    /\ aggregationType (simple a') = aggregationType (simple a) /\ tags a' = tags a
    /\ (currentTagIndex a' <= List.length (text (simple a')))%nat
    /\ Forall (fun g => aType g = AggregationToken) out
    /\ (out <> [] -> forall tag rest j, tag ∈ tags a ->
        Start tag `prefix_of` List.skipn j (text (simple a) ++ rest) ->
        (List.length (text (simple a)) < j + List.length (Start tag))%nat ->
        (List.length (List.concat (List.map aText out)) <= j)%nat).
Proof.
  intros Hi. unfold Skip_release.
  assert (exists out a', Some ([], a) = Some (out, a') /\ text (simple a) = List.concat (List.map aText out) ++ text (simple a')
    /\ aggregationType (simple a') = aggregationType (simple a) /\ tags a' = tags a
    /\ (currentTagIndex a' <= List.length (text (simple a')))%nat
    /\ Forall (fun g => aType g = AggregationToken) out
    /\ (out <> [] -> forall tag rest j, tag ∈ tags a ->
        Start tag `prefix_of` List.skipn j (text (simple a) ++ rest) ->
        (List.length (text (simple a)) < j + List.length (Start tag))%nat ->
        (List.length (List.concat (List.map aText out)) <= j)%nat)) as Hnone.
  { exists [], a. by split_and!. }
  destruct (currentTag a); [done|]. case_bool_decide; [done|].
  set (t := text (simple a)) in *.
  destruct (LongestTrailingPartialMatch_spec t (List.map Start (tags a))) as [Hk HL].
  set (k := LongestTrailingPartialMatch t (List.map Start (tags a))) in *.
  destruct (_ <=? 0)%nat eqn:E; [done|]. apply Nat.leb_gt in E.
  rewrite sliceTo_ok, sliceFrom_ok by lia. simpl. eexists _, _.
  split_and!; [done|cbn; by rewrite app_nil_r, List.firstn_skipn|done|done|simpl; lia|by repeat constructor|].
  intros _ tag rest j Htag Hp Hj. cbn. rewrite app_nil_r, List.length_firstn.
  destruct (decide (List.length t - k <= j)%nat) as [|Hlt]; [lia|exfalso].
  apply (HL (Start tag) (List.length t - j)%nat); [by apply list_elem_of_fmap_2|lia|lia|].
  replace (List.length t - (List.length t - j))%nat with j by lia.
  destruct Hp as [q Hq]. rewrite List.skipn_app in Hq.
  replace (j - List.length t)%nat with 0%nat in Hq by lia.
  apply (f_equal (List.firstn (List.length t - j))) in Hq.
  rewrite !List.firstn_app, List.length_skipn, Nat.sub_diag in Hq.
  rewrite List.firstn_all2 in Hq by (rewrite List.length_skipn; lia).
  replace (List.length t - j - List.length (Start tag))%nat with 0%nat in Hq by lia.
  simpl in Hq. by rewrite !app_nil_r in Hq.
Qed.
Definition Skip_wf (a : SkipTags) : Prop :=
  byToken (simple a) = true /\ (currentTagIndex a <= List.length (text (simple a)))%nat.

Lemma Skip_Aggregate_token a t : Skip_wf a ->
  exists out a', Skip_Aggregate a t = Some (out, a') /\ Skip_wf a' /\ tags a' = tags a
    /\ text (simple a) ++ sanitize t = List.concat (List.map aText out) ++ text (simple a')
    /\ Forall (fun g => aType g = AggregationToken) out
    /\ (out <> [] -> forall tag rest j, tag ∈ tags a ->
        let seen := text (simple a) ++ sanitize t in
        Start tag `prefix_of` List.skipn j (seen ++ rest) ->
        (List.length seen < j + List.length (Start tag))%nat ->
        (List.length (List.concat (List.map aText out)) <= j)%nat).
Proof.
  intros [Hb Hi]. unfold Skip_Aggregate. rewrite Hb.
  destruct (Skip_scanAll_ok (runesOf t) a Hi) as (a1 & E & T & G & Tg & I). rewrite E. cbn [mbind option_bind].
  destruct (Skip_release_ok a1 I) as (out & a2 & E2 & T2 & G2 & Tg2 & I2 & F & B).
  exists out, a2. rewrite <- T2, <- Tg, T in *. unfold Skip_wf, byToken in *. rewrite G2, G.
  rewrite Tg in *. by split_and!.
Qed.

(** Grouping by token, the tag-aware aggregator never panics, releases exactly
    what arrives, in order and with nothing trimmed, and never cuts an opening tag:
    of what it has seen, an opening that only the text still to come can complete lies
    wholly in what it holds back. *)
Theorem skip_token_exact a pieces t :
  Skip_wf a ->
  exists out a' last a'',
    stream Skip_Aggregate a pieces = Some (out, a')
    /\ text (simple a) ++ List.concat (List.map sanitize pieces)
       = List.concat (List.map aText out) ++ text (simple a')
    /\ Skip_Aggregate a' t = Some (last, a'')
    /\ (last <> [] -> forall tag rest j, tag ∈ tags a ->
        let seen := text (simple a') ++ sanitize t in
        Start tag `prefix_of` List.skipn j (seen ++ rest) ->
        (List.length seen < j + List.length (Start tag))%nat ->
        (List.length (List.concat (List.map aText last)) <= j)%nat)
    /\ Skip_Flush a'' = (if bool_decide (text (simple a'') = []) then (None, a'')
                         else (Some (mkAgg (text (simple a'')) AggregationToken []), Skip_Reset a'')).
Proof.
  revert a. induction pieces as [|p pieces IH]; intros a Hwf.
  - destruct (Skip_Aggregate_token a t Hwf) as (last & a'' & E & [Hb _] & Tg & _ & _ & B).
    exists [], a, last, a''. split_and!; [done|by rewrite app_nil_r|done|done|].
    unfold Skip_Flush. by rewrite Hb.
  - destruct (Skip_Aggregate_token a p Hwf) as (o1 & a1 & E & Hwf1 & Tg & T & _ & _).
    destruct (IH a1 Hwf1) as (o2 & a' & last & a'' & E2 & T2 & E3 & B & Fl).
    exists (o1 ++ o2), a', last, a''. cbn [stream]. rewrite E. cbn [mbind option_bind]. rewrite E2.
    split_and!; [done| |done|by rewrite <- Tg|done].
    cbn [List.map List.concat]. rewrite app_assoc, T, <- app_assoc, T2.
    by rewrite List.map_app, List.concat_app, app_assoc.
Qed.

(** Text in which neither delimiter of the first pair occurs opens no tag. *)
Lemma Skip_scan_plain a r tag ts :
  tags a = tag :: ts -> Start tag <> [] -> End_ tag <> [] ->
  currentTag a = None -> currentTagIndex a = 0%nat ->
  Contains (text (simple a) ++ EncodeRune r) (Start tag) = false ->
  Contains (text (simple a) ++ EncodeRune r) (End_ tag) = false ->
  Skip_scan a r = Some (a <| simple ::= fun s => s <| text ::= fun t => t ++ EncodeRune r |> |>).
Proof.
  intros Ht Hs He Hc Hi Cs Ce. unfold Skip_scan, ParseStartEndTags. rewrite Hc, Ht, Hi.
  rewrite sliceFrom_ok by lia. simpl. rewrite !Count_absent by done. simpl. by destruct a; simpl in *; subst.
Qed.

Lemma Contains_suffix p s sub : Contains (p ++ s) sub = false -> Contains s sub = false.
Proof.
  rewrite !Contains_false. intros H j Hp. apply (H (List.length p + j)%nat).
  rewrite List.skipn_app, List.skipn_all2 by lia. simpl.
  by replace (List.length p + j - List.length p)%nat with j by lia.
Qed.

(** Where neither delimiter of its first pair occurs, the tag-aware aggregator
    groups text by sentence exactly as the plain one does, whatever the other pairs:
    so with no tags in the text it adds nothing, and the delimiters of any further
    pair are not seen at all. *)
Theorem skip_is_simple {tokOk : SentenceTokenizerOk tok} a tag ts t :
  tags a = tag :: ts -> Start tag <> [] -> End_ tag <> [] ->
  currentTag a = None -> currentTagIndex a = 0%nat -> byToken (simple a) = false ->
  Contains (text (simple a) ++ sanitize t) (Start tag) = false ->
  Contains (text (simple a) ++ sanitize t) (End_ tag) = false ->
  Skip_Aggregate a t = '(out, s) ← Simple_Aggregate (simple a) t; Some (out, a <| simple := s |>).
Proof.
  intros Ht Hs He Hc Hi Hb Cs Ce. unfold Skip_Aggregate. rewrite Hb, Aggregate_range by done.
  unfold sanitize in *. revert a Ht Hc Hi Hb Cs Ce.
  induction (runesOf t) as [|r rs IH]; intros a Ht Hc Hi Hb Cs Ce; cbn [Skip_range Simple_range].
  { by destruct a. }
  change (ofRunes (r :: rs)) with (EncodeRune r ++ ofRunes rs) in *. rewrite !app_assoc in *.
  unfold Skip_feed, Simple_feed.
  rewrite (Skip_scan_plain _ _ _ _ Ht Hs He Hc Hi) by (by eapply Contains_app_l).
  set (s := (simple a) <| text ::= fun t => t ++ EncodeRune r |>). simpl. rewrite Hc.
  destruct (check_spec s r) as (o & s' & E & G & H). subst s. simpl in E. rewrite E. simpl. rewrite E. simpl.
  assert (Hsub : exists pre, text (simple a) ++ EncodeRune r = pre ++ text s').
  { destruct o as [g|]; [destruct H as (raw & _ & _ & H); by exists raw|by exists []]. }
  destruct Hsub as [pre Hpre]. rewrite Hpre, <- !app_assoc in Cs, Ce.
  rewrite IH; simpl; [|done..| |by apply Contains_suffix in Cs|by apply Contains_suffix in Ce].
  - by destruct (Simple_range s' rs) as [[]|].
  - unfold byToken in *. by rewrite G.
Qed.

Lemma Skip_feed_past_end a r tag ts : tags a = tag :: ts ->
  (List.length (text (simple a) ++ EncodeRune r) < currentTagIndex a)%nat -> Skip_feed a r = None.
Proof.
  intros Ht Hi. unfold Skip_feed, Skip_scan, ParseStartEndTags. rewrite Ht. unfold sliceFrom.
  cbn [text setter simple]. simpl. rewrite (proj2 (Nat.leb_gt _ _) Hi). by destruct (currentTag a).
Qed.
End SkipFacts.

(** A tokenizer for the examples: a sentence ends at the first full stop. *)
Definition dotTokenizer : SentenceTokenizer :=
  fun t => match Index t [46] with Some i => Z.of_nat (S i) | None => 0 end.

#[export] Instance dotTokenizer_ok : SentenceTokenizerOk dotTokenizer.
Proof.
  intros t. unfold MatchEndOfSentence, dotTokenizer. destruct (Index t [46]) as [i|] eqn:E; [|lia].
  apply Index_Some in E as [[k Hk] Hi]. apply (f_equal List.length) in Hk.
  rewrite List.length_skipn in Hk. simpl in Hk. lia.
Qed.

(** Grouping by sentence, the tag-aware aggregator panics on ordinary text: the
    offset of the scan stays past the closing tag when the sentence is cut from the
    buffer, so with a sentence after a tagged run, the second character of the next
    sentence slices past the end of the buffer.  Here the tokenizer ends a sentence
    after its first full stop. *)
Theorem skip_panics_after_tag :
  exists T : SentenceTokenizer, SentenceTokenizerOk T /\
  let new := NewSkipTagsAggregator AggregationSentence
               [mkTags (bytes_of "<spell>") (bytes_of "</spell>")] in
  (exists a, stream Skip_Aggregate new [bytes_of "Say <spell>AB</spell>."; bytes_of " T"]
             = Some ([mkAgg (bytes_of "Say <spell>AB</spell>.") AggregationSentence []], a))
  /\ stream Skip_Aggregate new [bytes_of "Say <spell>AB</spell>."; bytes_of " T"; bytes_of "hen"] = None.
Proof.
  exists dotTokenizer. split; [apply _|].
  split; [eexists; vm_compute; reflexivity|vm_compute; reflexivity].
Qed.

(** ** The types of units *)

Section PairFacts.
Context {tok : SentenceTokenizer}.

Definition reserved : list AggregationType :=
  [AggregationSentence; AggregationWord; AggregationToken; AnyAggregation].

(** Reached through [AddPattern] only. *)
Definition Pair_wf (a : PatternPair) : Prop := Forall (fun p => typ p ∉ reserved) (patterns a).

Lemma AddPattern_wf a t s e act a' : Pair_wf a -> AddPattern a t s e act = Some a' -> Pair_wf a'.
Proof.
  unfold AddPattern, Pair_wf. intros H. destruct (existsb _ _) eqn:E; [done|]. intros [= <-]. simpl.
  apply Forall_app. split; [done|]. constructor; [|done]. simpl. intros Hin.
  apply not_true_iff_false in E. apply E. apply existsb_exists. exists t. split; [|by apply bool_decide_eq_true].
  by apply list_elem_of_In.
Qed.

Lemma AddPattern_reserved a t s e act : AddPattern a t s e act = None <-> t ∈ reserved.
Proof.
  unfold AddPattern. destruct (existsb _ _) eqn:E; split; try done.
  - intros _. apply existsb_exists in E as (x & Hx & ->%bool_decide_eq_true). by apply list_elem_of_In.
  - intros Hin. apply not_true_iff_false in E. destruct E. apply existsb_exists. exists t.
    split; [by apply list_elem_of_In|by apply bool_decide_eq_true].
Qed.

(** What a pattern aggregator may return, and call its handlers with. *)
Definition unitOk (a : PatternPair) (g : Aggregation) : Prop :=
  aType g = plainType a
  \/ exists p, p ∈ patterns a /\ typ p = aType g /\ action p = MatchAggregate.
Definition callOk (a : PatternPair) (g : Aggregation) : Prop :=
  aType g ∈ handlers a /\ exists p, p ∈ patterns a /\ typ p = aType g.

(** The registered patterns, handlers and way of grouping, which text never changes. *)
Definition config (a : PatternPair) := (patterns a, handlers a, aggregationType (pp a)).

Lemma onMatches_types hs p rep locs t ms cs t' : onMatches hs p rep locs t = Some (ms, cs, t') ->
  Forall (fun g => aType g = typ p) ms /\ Forall (fun g => aType g = typ p /\ typ p ∈ hs) cs.
Proof.
  revert t ms cs t'. induction locs as [|[[l0 l1] [l2 l3]] locs IH]; intros t ms cs t'; cbn [onMatches].
  { by intros [= <- <- <-]. }
  destruct (slice t l0 l1) as [full|]; [|done]. destruct (slice t l2 l3) as [content|]; [|done].
  cbn [mbind option_bind].
  destruct (onMatches hs p rep locs _) as [[[all calls] t2]|] eqn:E; [|done]. cbn [mbind option_bind].
  intros [= <- <- <-]. destruct (IH _ _ _ _ E) as [Ha Hc]. split.
  - case_bool_decide; [done|]. by constructor.
  - destruct (negb _ && existsb _ hs) eqn:Eh; [|done]. constructor; [|done]. split; [done|].
    apply andb_prop in Eh as [_ (x & Hx & ->%bool_decide_eq_true)%existsb_exists]. by apply list_elem_of_In.
Qed.

Lemma onPatterns_types hs ps rep t ms cs t' : onPatterns hs ps rep t = Some (ms, cs, t') ->
  Forall (fun g => exists p, p ∈ ps /\ typ p = aType g) ms
  /\ Forall (fun g => aType g ∈ hs /\ exists p, p ∈ ps /\ typ p = aType g) cs.
Proof.
  revert t ms cs t'. induction ps as [|p ps IH]; intros t ms cs t'; cbn [onPatterns].
  { by intros [= <- <- <-]. }
  destruct (onMatches _ _ _ _ _) as [[[m1 c1] t1]|] eqn:E1; [|done]. cbn [mbind option_bind].
  destruct (onPatterns _ _ _ _) as [[[m2 c2] t2]|] eqn:E2; [|done]. cbn [mbind option_bind].
  intros [= <- <- <-]. destruct (onMatches_types _ _ _ _ _ _ _ _ E1) as [A1 B1].
  destruct (IH _ _ _ _ E2) as [A2 B2]. split; apply Forall_app; split.
  - eapply Forall_impl; [exact A1|]. intros g Hg. exists p. split; [apply list_elem_of_here|done].
  - eapply Forall_impl; [exact A2|]. intros g (q & Hq & ?). exists q. split; [by apply list_elem_of_further|done].
  - eapply Forall_impl; [exact B1|]. intros g [Hg ?]. rewrite Hg. split; [done|].
    exists p. split; [apply list_elem_of_here|done].
  - eapply Forall_impl; [exact B2|]. intros g [? (q & Hq & ?)]. split; [done|].
    exists q. split; [by apply list_elem_of_further|done].
Qed.

Lemma check_type s r o s' : checkSentenceWithLookahead s r = Some (o, s') ->
  aggregationType s' = aggregationType s /\ forall g, o = Some g -> aType g = AggregationSentence.
Proof.
  unfold checkSentenceWithLookahead. intros H. repeat (case_match; simplify_option_eq; try done).
  all: split; [done|]; intros g [= <-]; done.
Qed.

Lemma Pair_feed_types a r out calls a' : Pair_feed a r = Some (out, calls, a') ->
  config a' = config a /\ Forall (unitOk a) out /\ Forall (callOk a) calls.
Proof.
  unfold Pair_feed, processCompletePatterns.
  destruct (onPatterns _ _ _ _) as [[[ms cs] t']|] eqn:E; [|done]. cbn [mbind option_bind].
  apply onPatterns_types in E as [Hm Hc].
  set (a1 := setText _ t').
  assert (config a1 = config a) as C1 by done. assert (plainType a1 = plainType a) as P1 by done.
  destruct (match ms with [] => None | m :: _ => _ end) as [m|] eqn:Ew.
  - intros [= <- <- <-]. split_and!; [done| |done]. constructor; [|done]. right.
    destruct ms as [|m0 ms]; [done|]. destruct (patternFor a1 (aType m0)) as [p|] eqn:Ep; [|done].
    case_decide; [|done]. injection Ew as ->. unfold patternFor in Ep.
    apply List.find_some in Ep as [Hin Ht]. exists p. split_and!; [by apply list_elem_of_In| |done].
    by apply bool_decide_eq_true in Ht.
  - destruct (matchStartOfPattern a1 t') as [[z p]|].
    + destruct (_ || _); [by intros [= <- <- <-]|].
      destruct (if z <? 0 then None else _) as [res|]; [|done]. cbn [mbind option_bind].
      destruct (sliceFrom _ _) as [rest|]; [|done]. cbn [mbind option_bind]. intros [= <- <- <-].
      split_and!; [done| |done]. constructor; [by left|done].
    + destruct (byToken (pp a1)) eqn:Eb; [by intros [= <- <- <-]|].
      destruct (checkSentenceWithLookahead _ r) as [[o s]|] eqn:Ec; [|done]. cbn [mbind option_bind].
      apply check_type in Ec as [Hs Ho]. intros [= <- <- <-]. split_and!; [|  |done].
      * unfold config. cbn. by rewrite Hs.
      * destruct o as [g|]; [|done]. constructor; [|done]. left. unfold plainType, withRaw. simpl.
        change (byToken (pp a)) with (byToken (pp a1)). rewrite Eb. by apply Ho.
Qed.

Lemma config_ok a b : config a = config b ->
  (forall g, unitOk a g <-> unitOk b g) /\ (forall g, callOk a g <-> callOk b g) /\ (Pair_wf a <-> Pair_wf b).
Proof.
  intros E. unfold config in E. injection E as E1 E2 E3.
  unfold unitOk, callOk, Pair_wf, plainType, byToken. by rewrite E1, E2, E3.
Qed.

Lemma Pair_range_types rs a out calls a' : Pair_range a rs = Some (out, calls, a') ->
  config a' = config a /\ Forall (unitOk a) out /\ Forall (callOk a) calls.
Proof.
  revert a out calls. induction rs as [|r rs IH]; intros a out calls; cbn [Pair_range].
  { by intros [= <- <- <-]. }
  destruct (Pair_feed a r) as [[[o1 c1] a1]|] eqn:E1; [|done]. cbn [mbind option_bind].
  destruct (Pair_range a1 rs) as [[[o2 c2] a2]|] eqn:E2; [|done]. cbn [mbind option_bind].
  intros [= <- <- <-]. apply Pair_feed_types in E1 as (C1 & U1 & K1).
  apply IH in E2 as (C2 & U2 & K2). destruct (config_ok _ _ C1) as (Hu & Hc & _).
  split_and!; [congruence| |]; apply Forall_app; split; [done| |done|];
    (eapply Forall_impl; [eassumption|]); intros g; by (rewrite Hu || rewrite Hc).
Qed.

(** C19: A unit of the pattern aggregator is labeled either with the plain type of its
    grouping or with the type of a pattern registered to be returned on its own, never
    both: no pattern type is one of the built-in ones, which is what [AddPattern]
    refuses.  Handlers are only called with matches of the type they were registered
    for.  Nothing text does changes what is registered. *)
Theorem pattern_unit_types a t out calls a' :
  Pair_wf a -> Pair_Aggregate a t = Some (out, calls, a') ->
  config a' = config a /\ Pair_wf a' /\ Forall (callOk a) calls
  /\ Forall (fun g =>
       (aType g = plainType a /\ ~ (exists p, p ∈ patterns a /\ typ p = aType g))
       \/ ((aType g ∉ reserved) /\ (exists p, p ∈ patterns a /\ typ p = aType g /\ action p = MatchAggregate))) out
  /\ (forall typ_ s e act, AddPattern a' typ_ s e act = None <-> typ_ ∈ reserved).
Proof.
  intros Hwf. unfold Pair_Aggregate.
  destruct (Pair_range a (runesOf t)) as [[[o1 c1] a1]|] eqn:E1; [|done]. cbn [mbind option_bind].
  destruct (releaseToken a1) as [[o2 a2]|] eqn:E2; [|done]. cbn [mbind option_bind]. intros [= <- <- <-].
  apply Pair_range_types in E1 as (C1 & U1 & K1). destruct (config_ok _ _ C1) as (Hu & _ & Hw).
  assert (config a2 = config a1 /\ Forall (unitOk a1) (option_list o2)) as [C2 U2].
  { unfold releaseToken in E2. destruct (negb (byToken (pp a1)) || _) eqn:Eb; [by simplify_eq|].
    destruct (matchStartOfPattern a1 _) as [?|]; [by simplify_eq|].
    destruct (_ <=? 0)%nat; [by simplify_eq|]. destruct (sliceTo _ _); [|done]. cbn [mbind option_bind] in E2.
    destruct (sliceFrom _ _); [|done]. cbn [mbind option_bind] in E2. simplify_eq. split; [done|].
    constructor; [|done]. left. unfold plainType. simpl. apply orb_false_iff in Eb as [Eb _].
    apply negb_false_iff in Eb. by rewrite Eb. }
  assert (Forall (fun p => typ p ∉ reserved) (patterns a)) as Hp by done.
  rewrite Forall_forall in Hp.
  split_and!; [congruence| |done| |intros; apply AddPattern_reserved].
  - unfold Pair_wf in *. unfold config in *. simplify_eq. congruence.
  - assert (Forall (unitOk a) (o1 ++ option_list o2)) as U.
    { apply Forall_app. split; [done|]. eapply Forall_impl; [exact U2|]. intros g. by rewrite Hu. }
    eapply Forall_impl; [exact U|]. intros g [Hg|(p & Hin & Hg & Ha)].
    + left. split; [done|]. intros (p & Hin & Et). apply (Hp _ Hin). rewrite Et, Hg.
      unfold plainType, reserved. case_match; set_solver.
    + right. split; [|eauto]. rewrite <- Hg. by apply Hp.
Qed.
End PairFacts.

(** A removed pattern can be spoken: when taking another match out shortens the
    buffer, a match that the very next character completes ends before the offset
    recorded for the longer text, so it is taken for reported; it is not removed and
    its handler not called.  With one more character in between, it is. *)
Theorem pattern_removal_missed {tok : SentenceTokenizer} :
  exists a, Pair_wf a /\ Forall (fun p => action p = MatchRemove) (patterns a) /\
  (exists calls a', Pair_Aggregate a (bytes_of "a(bc[wink])") = Some ([], calls, a')
     /\ text (pp a') = bytes_of "a(bc)" /\ List.map aText calls = [bytes_of "wink"])
  /\ (exists calls a', Pair_Aggregate a (bytes_of "a(bc[wink] )") = Some ([], calls, a')
     /\ text (pp a') = bytes_of "a" /\ List.map aText calls = [bytes_of "wink"; bytes_of "bc"]).
Proof.
  exists (mkPP (NewSimpleAggregator AggregationSentence)
            [mkPattern "cue" (bytes_of "[") (bytes_of "]") MatchRemove;
             mkPattern "stage" (bytes_of "(") (bytes_of ")") MatchRemove] ["cue"; "stage"] 0).
  split; [repeat constructor; unfold reserved, AggregationSentence, AggregationWord, AggregationToken, AnyAggregation;
          simpl; set_solver|].
  split; [by repeat constructor|].
  split; eexists _, _; (split; [vm_compute; reflexivity|by split]).
Qed.

(** ** Joining pieces *)

Definition notSpace (rs : list rune) : list rune := List.filter (fun r => negb (IsSpace r)) rs.

Lemma notSpace_app a b : notSpace (a ++ b) = notSpace a ++ notSpace b.
Proof. apply List.filter_app. Qed.

Lemma notSpace_spaces rs : Forall (fun r => IsSpace r = true) rs -> notSpace rs = [].
Proof. induction 1 as [|r rs Hr _ IH]; [done|]. unfold notSpace in *. simpl. by rewrite Hr. Qed.

Lemma TrimSpace_notSpace s : validUTF8 s -> notSpace (runesOf (TrimSpace s)) = notSpace (runesOf s).
Proof.
  intros (rs & Hrs & ->)%valid_scalars. unfold TrimSpace. rewrite (runesOf_ofRunes rs) by done.
  destruct (trim_split IsSpace rs) as (pre & post & E & Hpre & Hpost).
  set (m := List.rev (dropWhile IsSpace (List.rev (dropWhile IsSpace rs)))) in *.
  rewrite runesOf_ofRunes.
  - rewrite E, !notSpace_app, (notSpace_spaces pre), (notSpace_spaces post) by done. by rewrite app_nil_r.
  - rewrite E, !Forall_app in Hrs. tauto.
Qed.

Lemma valid_app a b : validUTF8 a -> validUTF8 b -> validUTF8 (a ++ b).
Proof. intros [r1 ->] [r2 ->]. exists (r1 ++ r2). by rewrite ofRunes_app. Qed.
Lemma valid_blank : validUTF8 [32].
Proof. by exists [32]. Qed.

Lemma concat_step_notSpace st p : validUTF8 st.1 -> validUTF8 (pText p) ->
  validUTF8 (concat_step st p).1
  /\ notSpace (runesOf (concat_step st p).1) = notSpace (runesOf st.1) ++ notSpace (runesOf (pText p)).
Proof.
  destruct st as [b last]. simpl. intros Hb Hp. unfold concat_step.
  assert (forall sep, sep = [] \/ sep = [32] -> validUTF8 (b ++ sep ++ pText p) /\
    notSpace (runesOf (b ++ sep ++ pText p)) = notSpace (runesOf b) ++ notSpace (runesOf (pText p))) as H.
  { intros sep Hs. assert (validUTF8 sep) by (destruct Hs as [->| ->]; [by exists []|exact valid_blank]).
    split; [by repeat apply valid_app|]. rewrite !runesOf_app, !notSpace_app by done.
    by destruct Hs as [->| ->]. }
  case_bool_decide as E1; [rewrite E1; simpl; by rewrite app_nil_r|].
  case_bool_decide as E2; [by rewrite E2|].
  destruct (_ && last); [apply (H []); by left|].
  destruct (negb _ && _); [apply (H [32]); by right|].
  apply H. case_match; [by right|by left].
Qed.

Fixpoint joinBlank (ws : list gostring) : gostring :=
  match ws with
  | [] => []
  | [w] => w
  | w :: ws => w ++ [32] ++ joinBlank ws
  end.

Definition pieces (includes : bool) (ws : list gostring) : list Part :=
  List.map (fun w => mkPart w includes) ws.

Lemma concat_run b last inc ws : b <> [] -> last = inc -> Forall (fun w => w <> []) ws ->
  fold_left concat_step (pieces inc ws) (b, last)
  = (b ++ (if inc then List.concat ws else List.concat (List.map (fun w => [32] ++ w) ws)), inc).
Proof.
  intros Hb -> H. revert b Hb. induction H as [|w ws Hw _ IH]; intros b Hb; simpl.
  { by destruct inc; rewrite app_nil_r. }
  rewrite !bool_decide_false by done. destruct inc; simpl.
  - rewrite IH by (destruct b; done). by rewrite <- app_assoc.
  - rewrite IH by (destruct b; done). by rewrite <- app_assoc.
Qed.

Lemma joinBlank_cons w ws : joinBlank (w :: ws) = w ++ List.concat (List.map (fun w => [32] ++ w) ws).
Proof.
  revert w. induction ws as [|v ws IH]; intros w; [simpl; by rewrite app_nil_r|].
  change (joinBlank (w :: v :: ws)) with (w ++ [32] ++ joinBlank (v :: ws)). by rewrite IH.
Qed.

(** Joining pieces changes only the spacing: what is not a space comes out
    unchanged and in order, whatever mix of pieces; a run of pieces that carry their
    spacing is joined as it is, and a run of words that carry none with one space
    between each two, both trimmed at the ends. *)
Theorem concatenate_spacing parts ws :
  Forall (fun p => validUTF8 (pText p)) parts -> Forall (fun w => w <> []) ws ->
  notSpace (runesOf (Concatenate parts)) = List.concat (List.map (fun p => notSpace (runesOf (pText p))) parts)
  /\ Concatenate (pieces true ws) = TrimSpace (List.concat ws)
  /\ Concatenate (pieces false ws) = TrimSpace (joinBlank ws).
Proof.
  intros Hp Hw. unfold Concatenate. split_and!.
  - assert (forall st, validUTF8 st.1 -> validUTF8 (fold_left concat_step parts st).1 /\
      notSpace (runesOf (fold_left concat_step parts st).1)
      = notSpace (runesOf st.1) ++ List.concat (List.map (fun p => notSpace (runesOf (pText p))) parts)) as G.
    { induction Hp as [|p ps Hp _ IH]; intros st Hst; simpl; [by rewrite app_nil_r|].
      destruct (concat_step_notSpace st p Hst Hp) as [Hv E]. destruct (IH _ Hv) as [Hv2 E2].
      split; [done|]. by rewrite E2, E, <- app_assoc. }
    destruct (G ([], false)) as [Hv E]; [by exists []|]. by rewrite TrimSpace_notSpace, E.
  - destruct Hw as [|w ws Hne Hw]; [done|]. simpl. rewrite (bool_decide_false (w = [])) by done.
    by rewrite concat_run.
  - destruct Hw as [|w ws Hne Hw]; [done|]. rewrite joinBlank_cons. simpl.
    rewrite (bool_decide_false (w = [])) by done. by rewrite concat_run.
Qed.

(** ** The tokenizer's contract *)

Lemma isUnambiguousEnding_scalar r : isUnambiguousEnding r = true -> isScalar r = true /\ 128 <= r.
Proof.
  unfold isUnambiguousEnding. intros [(x & Hx & ->%Z.eqb_eq)%existsb_exists Hn]%andb_prop.
  simpl in Hx. repeat (destruct Hx as [<-|Hx]; [by split; vm_compute|]). done.
Qed.

Lemma DecodeRune_width r w s : DecodeRune s = (r, w) -> isUnambiguousEnding r = true ->
  List.length (EncodeRune r) = w.
Proof.
  intros E Hu. destruct (isUnambiguousEnding_scalar r Hu) as [Hs Hr].
  rewrite EncodeRune_scalar by done. assert (r <> RuneError) as Hne by (intros ->; done).
  revert E. unfold DecodeRune. destruct s as [|b0 t]; [intros [= <- <-]; done|].
  unfold encodeScalar. repeat (case_match; simplify_eq; try done); intros E; simplify_eq;
    repeat match goal with H : (_ && _) = true |- _ => apply andb_prop in H as [? ?] end;
    repeat match goal with |- context [if ?b then _ else _] => destruct b eqn:? end; try done; exfalso;
    rewrite ?Z.leb_le, ?Z.ltb_lt, ?Z.ltb_ge, ?Z.eqb_eq, ?Z.eqb_neq in *; lia.
Qed.

#[export] Instance Punkt_ok (Tokenize : gostring -> list gostring)
    (cut : forall t s ss, Tokenize t = s :: ss -> s `prefix_of` t) :
  SentenceTokenizerOk (Punkt_MatchEndOfSentence Tokenize).
Proof.
  intros t. unfold MatchEndOfSentence, Punkt_MatchEndOfSentence.
  assert (List.length (TrimRightSpace t) <= List.length t)%nat as Hl.
  { unfold TrimRightSpace. rewrite List.length_rev.
    destruct (dropWhile_split isTrimmed (List.rev t)) as (pre & E & _).
    apply (f_equal List.length) in E. rewrite List.length_rev, length_app in E. lia. }
  destruct (TrimRightSpace t) as [|b u] eqn:Et; [lia|]. rewrite <- Et in *.
  destruct (Tokenize _) as [|first rest] eqn:E; [lia|].
  assert (List.length first <= List.length (TrimRightSpace t))%nat as Hf
    by (apply prefix_length; by eapply cut).
  assert (forall fuel i s, (List.length s + i <= List.length t)%nat -> firstUnambiguous fuel i s <= Z.of_nat (List.length t)) as Hu.
  { induction fuel as [|fuel IH]; intros i s Hs; [simpl; lia|]. cbn [firstUnambiguous].
    destruct s as [|c s]; [lia|]. pose proof (decode_width (c :: s) ltac:(done)) as Hw.
    destruct (DecodeRune (c :: s)) as [r w] eqn:Er. cbn [snd] in Hw.
    destruct (isUnambiguousEnding r) eqn:Ei.
    - rewrite (DecodeRune_width _ _ _ Er Ei). lia.
    - apply IH. rewrite List.length_skipn. lia. }
  repeat case_match; try lia; apply Hu; lia.
Qed.

(** ** Instances of the theorems *)

Lemma simple_aggregates_witness :
  exists raws a',
    @stream _ (@Simple_Aggregate dotTokenizer) (NewSimpleAggregator AggregationSentence)
      [bytes_of "One. T"; bytes_of "wo. Three"] = Some (List.map sentenceOf raws, a')
    /\ List.length raws = 2%nat.
Proof.
  destruct (@simple_aggregates dotTokenizer _ (NewSimpleAggregator AggregationSentence)
              [bytes_of "One. T"; bytes_of "wo. Three"]) as (raws & a' & E & _); [reflexivity| |].
  - repeat constructor; apply ascii_valid; reflexivity.
  - exists raws, a'. split; [exact E|].
    apply (f_equal (option_map (fun x => List.length x.1))) in E. cbn [option_map fst] in E.
    rewrite List.length_map in E. apply (inj Some). rewrite <- E. vm_compute. reflexivity.
Defined.

Definition spellTags : list StartEndTags := [mkTags (bytes_of "<spell>") (bytes_of "</spell>")].

Lemma skip_token_exact_witness :
  Skip_wf (NewSkipTagsAggregator AggregationToken spellTags) /\
  exists out a', @stream _ (@Skip_Aggregate dotTokenizer) (NewSkipTagsAggregator AggregationToken spellTags)
    [bytes_of "Hi <spe"; bytes_of "ll>A"] = Some (out, a').
Proof.
  assert (Skip_wf (NewSkipTagsAggregator AggregationToken spellTags)) as H by (split; [reflexivity|simpl; lia]).
  split; [exact H|].
  destruct (@skip_token_exact dotTokenizer _ [bytes_of "Hi <spe"; bytes_of "ll>A"] [] H)
    as (out & a' & _ & _ & E & _).
  exists out, a'. exact E.
Defined.

Lemma skip_is_simple_witness :
  @Skip_Aggregate dotTokenizer (NewSkipTagsAggregator AggregationSentence spellTags) (bytes_of "A <b>B. C</b>")
  = '(out, s) ← @Simple_Aggregate dotTokenizer (NewSimpleAggregator AggregationSentence) (bytes_of "A <b>B. C</b>");
    Some (out, (NewSkipTagsAggregator AggregationSentence spellTags) <| simple := s |>).
Proof.
  apply (@skip_is_simple dotTokenizer _ (NewSkipTagsAggregator AggregationSentence spellTags)
           (mkTags (bytes_of "<spell>") (bytes_of "</spell>")) [] (bytes_of "A <b>B. C</b>"));
    (reflexivity || discriminate).
Defined.

Lemma pattern_unit_types_witness :
  exists a out calls a',
    AddPattern (NewPatternPairAggregator AggregationSentence) "code" (bytes_of "`") (bytes_of "`") MatchAggregate = Some a
    /\ Pair_wf a /\ @Pair_Aggregate dotTokenizer a (bytes_of "Run [x]. N") = Some (out, calls, a')
    /\ Pair_wf a' /\ List.length out = 1%nat.
Proof.
  set (a := mkPP (NewSimpleAggregator AggregationSentence)
              [mkPattern "code" (bytes_of "`") (bytes_of "`") MatchAggregate] [] 0).
  set (r := @Pair_Aggregate dotTokenizer a (bytes_of "Run [x]. N")). vm_compute in r.
  match (eval unfold r in r) with Some (?o, ?c, ?a') =>
    assert (@Pair_Aggregate dotTokenizer a (bytes_of "Run [x]. N") = Some (o, c, a')) as E
      by (vm_compute; reflexivity);
    exists a, o, c, a' end.
  assert (Pair_wf a) as Hwf.
  { apply (AddPattern_wf (NewPatternPairAggregator AggregationSentence) "code" (bytes_of "`") (bytes_of "`")
             MatchAggregate); [constructor|reflexivity]. }
  split; [reflexivity|]. split; [exact Hwf|]. split; [exact E|].
  split; [exact (proj1 (proj2 (@pattern_unit_types dotTokenizer _ _ _ _ _ Hwf E)))|reflexivity].
Defined.

Lemma concatenate_spacing_witness :
  Concatenate [mkPart (bytes_of "I can") true; mkPart (bytes_of " help.") true; mkPart (bytes_of "One") false;
               mkPart (bytes_of "moment.") false] = bytes_of "I can help. One moment."
  /\ Concatenate (pieces false [bytes_of "One"; bytes_of "moment."])
     = TrimSpace (joinBlank [bytes_of "One"; bytes_of "moment."]).
Proof.
  split; [vm_compute; reflexivity|].
  apply (concatenate_spacing [] [bytes_of "One"; bytes_of "moment."]);
    [constructor|repeat constructor; discriminate].
Defined.

End TextAgg.
