(* ===== verification/Numbers.v ===== *)
(** * Numbers

    Numbers as words: [src/utils/text/numbers.go] and the replacement functions of
    the number, currency, date and unit transforms of [src/utils/text/transforms.go]
    (what each makes of the groups its expression matched).

    Digits and words are ASCII, so strings here are Rocq strings.  An index out of
    range is [None].  Integers are int64. *)

From S2P Require Import Prelude.
From Stdlib Require Import Ascii String.

Local Open Scope string_scope.
Local Open Scope Z_scope.

Module Numbers.

Definition onesWords : list string :=
  ["zero"; "one"; "two"; "three"; "four"; "five"; "six"; "seven"; "eight";
   "nine"; "ten"; "eleven"; "twelve"; "thirteen"; "fourteen"; "fifteen";
   "sixteen"; "seventeen"; "eighteen"; "nineteen"].
Definition tensWords : list string :=
  [""; ""; "twenty"; "thirty"; "forty"; "fifty"; "sixty"; "seventy"; "eighty"; "ninety"].
Definition scaleWords : list string :=
  [""; "thousand"; "million"; "billion"; "trillion"; "quadrillion"; "quintillion"].

(** [table[i]], which panics out of range. *)
Definition at_ (t : list string) (i : Z) : option string := if i <? 0 then None else t !! Z.to_nat i.

(** ** Cardinals *)

Definition twoDigitWords (n : Z) : option string :=
  if n <? 20 then at_ onesWords n
  else
    w ← at_ tensWords (n / 10);
    if 0 <? n mod 10 then u ← at_ onesWords (n mod 10); Some (w ++ "-" ++ u) else Some w.

Definition threeDigitWords (n : Z) : option string :=
  let h := n / 100 in
  let r := n mod 100 in
  if 0 <? h then
    s ← at_ onesWords h;
    let s := s ++ " hundred" in
    if 0 <? r then t ← twoDigitWords r; Some (s ++ " and " ++ t) else Some s
  else twoDigitWords r.

(** The groups of three digits, least significant first.  An int64 has at most
    seven, so twenty turns are enough ([groupsOf_enough]). *)
Fixpoint groupsOf (fuel : nat) (n : Z) : list Z :=
  match fuel with
  | O => []
  | S fuel => if 0 <? n then n mod 1000 :: groupsOf fuel (n / 1000) else []
  end.

Record part := mkPart { ptext : string; scale : nat; val : Z }.

(** The loop over the groups from the most significant; [gs] is [(scale, group)]. *)
Fixpoint partsOf (gs : list (nat * Z)) : option (list part) :=
  match gs with
  | [] => Some []
  | (i, g) :: gs =>
    if g =? 0 then partsOf gs
    else
      t ← threeDigitWords g;
      t ← (if (0 <? i)%nat then s ← at_ scaleWords (Z.of_nat i); Some (t ++ " " ++ s) else Some t);
      ps ← partsOf gs;
      Some (mkPart t i g :: ps)
  end.

Fixpoint joinParts (ps : list part) : string :=
  match ps with
  | [] => ""
  | p :: ps =>
    let sep := match ps with
               | [] => if (scale p =? 0)%nat && (val p <? 100) then " and " else ", "
               | _ => ", "
               end in
    sep ++ ptext p ++ joinParts ps
  end.

Definition orig (neg : bool) (gs : list Z) : Z :=
  let n := fold_right (fun g n => int64 (int64 (n * 1000) + g)) 0 gs in
  if neg then int64 (- n) else n.

(** [strconv.FormatInt(n, 10)]: of a negative number the digits after a minus sign. *)
Fixpoint digitsOf (fuel : nat) (n : Z) (acc : string) : string :=
  match fuel with
  | O => acc
  | S fuel =>
    let acc := String (ascii_of_N (Z.to_N (48 + n mod 10))) acc in
    if n / 10 =? 0 then acc else digitsOf fuel (n / 10) acc
  end.
Definition FormatInt (n : Z) : string :=
  if n <? 0 then "-" ++ digitsOf 20 (- n) "" else digitsOf 20 n "".

(** [strings.Join(strings.Split(s, ""), " ")] *)
Fixpoint spaced (s : string) : string :=
  match s with
  | "" => ""
  | String c "" => String c ""
  | String c s => String c (" " ++ spaced s)
  end.
Definition decimalDigits (s : string) : string := spaced s.

Definition cardinal (n : Z) : option string :=
  if n =? 0 then at_ onesWords 0
  else
    let neg := n <? 0 in
    let n := if neg then int64 (- n) else n in
    let groups := groupsOf 20 n in
    if (List.length scaleWords <? List.length groups)%nat then Some (decimalDigits (FormatInt (orig neg groups)))
    else
      parts ← partsOf (List.rev (imap (fun i g => (i, g)) groups));
      match parts with
      | [] => None                     (* parts[0] *)
      | p :: ps =>
        let result := ptext p ++ joinParts ps in
        Some (if neg then "minus " ++ result else result)
      end.

(** ** Decimals *)

(** [strconv.ParseInt(s, 10, 64)]: the value, the nearest bound when out of range,
    and whether there is an error. *)
Definition digitVal (c : ascii) : option Z :=
  let v := Z.of_N (N_of_ascii c) - 48 in
  if (0 <=? v) && (v <=? 9) then Some v else None.
Fixpoint digitsVal (acc : Z) (s : string) : option Z :=
  match s with
  | "" => Some acc
  | String c s => v ← digitVal c; digitsVal (acc * 10 + v) s
  end.
Definition maxInt64 : Z := 9223372036854775807.
Definition ParseInt (s : string) : Z * bool :=
  let '(neg, ds) := match s with
                    | String "-" t => (true, t)
                    | String "+" t => (false, t)
                    | _ => (false, s)
                    end in
  match ds with
  | "" => (0, true)
  | _ =>
    match digitsVal 0 ds with
    | None => (0, true)
    | Some v =>
      if neg then if maxInt64 + 1 <? v then (- maxInt64 - 1, true) else (- v, false)
      else if maxInt64 <? v then (maxInt64, true) else (v, false)
    end
  end.

(** [strings.Cut(s, ".")] *)
Fixpoint cutDot (s : string) : string * string * bool :=
  match s with
  | "" => ("", "", false)
  | String "." t => ("", t, true)
  | String c t => let '(a, b, found) := cutDot t in (String c a, b, found)
  end.

(** [strings.TrimRight(s, "0")] *)
Fixpoint trimZeros (s : string) : string :=
  match s with
  | "" => ""
  | String c t => match trimZeros t with
                  | "" => if Ascii.eqb c "0" then "" else String c ""
                  | t' => String c t'
                  end
  end.

(** [onesWords[frac[i]-'0']] for each byte, the subtraction wrapping at eight bits. *)
Fixpoint digitWords (s : string) : option (list string) :=
  match s with
  | "" => Some []
  | String c s =>
    w ← at_ onesWords (uint8 (Z.of_N (N_of_ascii c) - 48));
    ws ← digitWords s;
    Some (w :: ws)
  end.

Definition joinSpace (ws : list string) : string := String.concat " " ws.

Definition floatToWords (s : string) : option string :=
  let '(intPart, fracPart, hasDot) := cutDot s in
  let intPart := if String.eqb intPart "" then "0" else intPart in
  let '(n, err) := ParseInt intPart in
  if err then Some s
  else
    words ← cardinal n;
    if negb hasDot then Some words
    else
      let frac := trimZeros fracPart in
      if String.eqb frac "" then Some words
      else ds ← digitWords frac; Some (words ++ " point " ++ joinSpace ds).

(** ** What the transforms make of a match *)

(** [strings.ReplaceAll(s, ",", "")] *)
Fixpoint dropCommas (s : string) : string :=
  match s with
  | "" => ""
  | String c s => if Ascii.eqb c "," then dropCommas s else String c (dropCommas s)
  end.

(** [ExpandNumbers(digitCutoff)] on the groups whole and fraction of [g0]. *)
Definition expandNumber (digitCutoff : Z) (g0 g1 g2 : string) : option string :=
  let wholeStr := dropCommas g1 in
  let frac := g2 in
  let '(whole, err) := ParseInt wholeStr in
  if err then Some g0
  else if (0 <? digitCutoff) && (digitCutoff <? whole) then
    Some (decimalDigits wholeStr
          ++ (if String.eqb frac "" then "" else " point " ++ decimalDigits frac))
  else if negb (String.eqb frac "") then
    w ← cardinal whole; ds ← digitWords frac; Some (w ++ " point " ++ joinSpace ds)
  else cardinal whole.

(** [ExpandPercentages] on its one group. *)
Definition expandPercentage (g1 : string) : option string := w ← floatToWords g1; Some (w ++ " percent").

Record currency := mkCur { singular : string; plural : string; centSingular : string; centPlural : string }.

Definition amountWords (n : Z) (sing plur : string) : option string :=
  let unit := if n =? 1 then sing else plur in
  w ← cardinal n; Some (w ++ " " ++ unit).

Definition truncate (s : string) (n : nat) : string :=
  if (n <? String.length s)%nat then String.substring 0 n s else s.

Fixpoint padRightLoop (fuel : nat) (s : string) (width : nat) (pad : ascii) : string :=
  match fuel with
  | O => s
  | S fuel => if (String.length s <? width)%nat then padRightLoop fuel (s ++ String pad "") width pad else s
  end.
Definition padRight (s : string) (width : nat) (pad : ascii) : string := padRightLoop width s width pad.

(** [ExpandCurrency] on the groups sign, whole and fraction, for the sign's currency. *)
Definition expandCurrency (cur : currency) (g2 g3 : string) : option string :=
  let '(whole, _) := ParseInt (dropCommas g2) in
  result ← amountWords whole (singular cur) (plural cur);
  if negb (String.eqb g3 "") && negb (String.eqb (centSingular cur) "") then
    let '(cents, _) := ParseInt (padRight (truncate g3 2) 2 "0") in
    if 0 <? cents then
      c ← amountWords cents (centSingular cur) (centPlural cur); Some (result ++ " and " ++ c)
    else Some result
  else Some result.

(** [ExpandUnits] on the groups number and unit, for the unit's forms. *)
Definition expandUnit (forms : string * string) (g1 : string) : string :=
  if String.eqb g1 "1" then g1 ++ " " ++ fst forms else g1 ++ " " ++ snd forms.

(** ** Dates *)

Definition isLeap (y : Z) : bool := (y mod 4 =? 0) && (negb (y mod 100 =? 0) || (y mod 400 =? 0)).
Definition daysIn (y m : Z) : Z :=
  if m =? 2 then (if isLeap y then 29 else 28)
  else if (m =? 4) || (m =? 6) || (m =? 9) || (m =? 11) then 30 else 31.

(** [time.Date(y, m, d, ...)]'s year, month and day: days past the end of a month
    run on into the next.  For [d] at most 99 four turns are enough. *)
Fixpoint normDate (fuel : nat) (y m d : Z) : Z * Z * Z :=
  match fuel with
  | O => (y, m, d)
  | S fuel =>
    if d <=? daysIn y m then (y, m, d)
    else if m =? 12 then normDate fuel (y + 1) 1 (d - 31) else normDate fuel y (m + 1) (d - daysIn y m)
  end.

Definition monthNames : list string :=
  ["January"; "February"; "March"; "April"; "May"; "June"; "July"; "August"; "September";
   "October"; "November"; "December"].

Definition ordinal (n : Z) : string :=
  let r := n mod 100 in
  let suffix :=
    if (r <? 11) || (13 <? r) then
      if n mod 10 =? 1 then "st" else if n mod 10 =? 2 then "nd" else if n mod 10 =? 3 then "rd" else "th"
    else "th" in
  FormatInt n ++ suffix.

Definition spokenDate (year month day : Z) (original : string) : option string :=
  if (month <? 1) || (12 <? month) || (day <? 1) then Some original
  else
    let '(y, m, d) := normDate 4 year month day in
    if negb (y =? year) || negb (m =? month) || negb (d =? day) then Some original
    else
      name ← at_ monthNames (month - 1);
      c ← cardinal year;
      Some (name ++ " " ++ ordinal day ++ ", " ++ c).

(** ** Reading the words back

    The reference the spelling is judged by: a reader of English cardinals that
    knows nothing of how they were laid out.  It splits its input into words,
    keeps a running group, and closes the group at each scale word. *)

Definition isLetter (c : ascii) : bool := let n := N_of_ascii c in (97 <=? n)%N && (n <=? 122)%N.

Fixpoint wordsFrom (w s : string) : list string :=
  let emit := if String.eqb w "" then [] else [w] in
  match s with
  | "" => emit
  | String c s => if isLetter c then wordsFrom (w ++ String c "") s else (emit ++ wordsFrom "" s)%list
  end.
Definition wordsOf (s : string) : list string := wordsFrom "" s.

(** The place of a word in a table, from [i] on. *)
Fixpoint place (i : Z) (t : list string) (w : string) : option Z :=
  match t with
  | [] => None
  | x :: t => if String.eqb x w then Some i else place (i + 1) t w
  end.

Definition readWord (st : Z * Z) (w : string) : option (Z * Z) :=
  let '(total, cur) := st in
  match place 0 onesWords w with
  | Some v => Some (total, cur + v)
  | None =>
    match place 0 tensWords w with
    | Some v => Some (total, cur + 10 * v)
    | None =>
      match place 0 scaleWords w with
      | Some v => Some (total + cur * 1000 ^ v, 0)
      | None => if String.eqb w "hundred" then Some (total, cur * 100)
                else if String.eqb w "and" then Some (total, cur)
                else None
      end
    end
  end.

Fixpoint readWords (st : Z * Z) (ws : list string) : option (Z * Z) :=
  match ws with
  | [] => Some st
  | w :: ws => st ← readWord st w; readWords st ws
  end.

Definition readCardinal (s : string) : option Z :=
  let '(neg, ws) := match wordsOf s with
                    | w :: ws => if String.eqb w "minus" then (true, ws) else (false, w :: ws)
                    | [] => (false, [])
                    end in
  '(total, cur) ← readWords (0, 0) ws;
  Some (if neg : bool then - (total + cur) else total + cur).

Lemma wordsFrom_app w a c b : isLetter c = false ->
  wordsFrom w (a ++ String c b) = (wordsFrom w a ++ wordsOf b)%list.
Proof.
  intros Hc. revert w. induction a as [|x a IH]; intros w; simpl.
  { rewrite Hc. done. }
  destruct (isLetter x); [apply IH|]. by rewrite IH, app_assoc.
Qed.

Lemma wordsOf_space a b : wordsOf (a ++ " " ++ b) = (wordsOf a ++ wordsOf b)%list.
Proof. unfold wordsOf at 1. change (" " ++ b) with (String " " b). by rewrite wordsFrom_app. Qed.

Lemma wordsOf_comma a b : wordsOf (a ++ ", " ++ b) = (wordsOf a ++ wordsOf b)%list.
Proof. unfold wordsOf at 1. change (", " ++ b) with (String "," (" " ++ b)). by rewrite wordsFrom_app. Qed.

Lemma wordsOf_and a b : wordsOf (a ++ " and " ++ b) = (wordsOf a ++ "and" :: wordsOf b)%list.
Proof.
  change (" and " ++ b) with (" " ++ ("and" ++ " " ++ b)). rewrite wordsOf_space.
  by rewrite wordsOf_space.
Qed.

Lemma readWords_app st ws1 ws2 : readWords st (ws1 ++ ws2) = st ← readWords st ws1; readWords st ws2.
Proof.
  revert st. induction ws1 as [|w ws1 IH]; intros st; [done|]. simpl.
  destruct (readWord st w); [apply IH|done].
Qed.

Lemma readWord_shift t total cur w :
  readWord (t + total, cur) w = '(a, c) ← readWord (total, cur) w; Some (t + a, c).
Proof.
  unfold readWord. repeat case_match; simplify_eq; try done. cbn. by rewrite Z.add_assoc.
Qed.

(** What has been closed does not matter to what is read next. *)
Lemma readWords_shift t total cur ws :
  readWords (t + total, cur) ws = '(a, c) ← readWords (total, cur) ws; Some (t + a, c).
Proof.
  revert total cur. induction ws as [|w ws IH]; intros total cur; [done|]. cbn [readWords].
  rewrite readWord_shift. destruct (readWord (total, cur) w) as [[a c]|]; [|done]. apply IH.
Qed.

(** ** Groups *)

Definition groupReads (g : Z) : bool :=
  match threeDigitWords g with
  | Some t => bool_decide (readWords (0, 0) (wordsOf t) = Some (0, g))
  | None => false
  end.

Lemma groups_read : forallb_from groupReads 1 999 = true.
Proof. vm_compute. reflexivity. Qed.

Lemma threeDigit_read total g : 0 < g < 1000 ->
  exists t, threeDigitWords g = Some t /\ readWords (total, 0) (wordsOf t) = Some (total, g).
Proof.
  intros Hg. pose proof (forallb_from_spec _ _ _ groups_read g ltac:(lia)) as H.
  unfold groupReads in H. destruct (threeDigitWords g) as [t|]; [|done].
  apply bool_decide_eq_true in H. exists t. split; [done|].
  rewrite <- (Z.add_0_r total) at 1. rewrite readWords_shift, H. cbn. by rewrite Z.add_0_r.
Qed.

Lemma scale_read total cur i : (0 < i < 7)%nat ->
  exists s, at_ scaleWords (Z.of_nat i) = Some s /\ readWords (total, cur) (wordsOf s)
  = Some (total + cur * 1000 ^ Z.of_nat i, 0).
Proof.
  intros Hi.
  assert (i = 1 \/ i = 2 \/ i = 3 \/ i = 4 \/ i = 5 \/ i = 6)%nat as H by lia.
  repeat destruct H as [->|H]; [..|subst i]; (eexists; split; reflexivity).
Qed.

Definition groupValue (ig : nat * Z) : Z := snd ig * 1000 ^ Z.of_nat (fst ig).
Definition groupsValue (gs : list (nat * Z)) : Z := fold_right (fun ig n => groupValue ig + n) 0 gs.

Definition goodGroups (gs : list (nat * Z)) : Prop :=
  StronglySorted (fun a b => fst b < fst a)%nat gs /\ Forall (fun ig => (fst ig < 7)%nat /\ 0 <= snd ig < 1000) gs.

(** The words of the parts, with the joining words dropped. *)
Definition partsWords (ps : list part) : list string := List.concat (List.map (fun p => wordsOf (ptext p)) ps).

Lemma append_nil_r s : s ++ "" = s.
Proof. induction s as [|c s IH]; [done|]. change (String c s ++ "") with (String c (s ++ "")). by rewrite IH. Qed.

Lemma joinParts_read ps st a :
  readWords st (wordsOf (a ++ joinParts ps)) = readWords st (wordsOf a ++ partsWords ps).
Proof.
  revert a st. induction ps as [|p ps IH]; intros a st; cbn [joinParts partsWords List.map List.concat].
  { by rewrite append_nil_r, app_nil_r. }
  set (sep := match ps with [] => _ | _ => _ end).
  assert (sep = ", " \/ sep = " and ") as Hs.
  { subst sep. destruct ps; [|by left]. case_match; [by right|by left]. }
  assert (forall u, readWords st (wordsOf (a ++ sep ++ u)) = readWords st (wordsOf a ++ wordsOf u)) as E.
  { intros u. destruct Hs as [->| ->]; [by rewrite wordsOf_comma|]. rewrite wordsOf_and, !readWords_app.
    destruct (readWords st (wordsOf a)) as [[t c]|]; [|done]. reflexivity. }
  rewrite E, !readWords_app. destruct (readWords st (wordsOf a)) as [st'|]; [|done]. cbn [mbind option_bind].
  apply IH.
Qed.

Lemma partsOf_read gs total : goodGroups gs ->
  exists ps, partsOf gs = Some ps /\
  exists t c, readWords (total, 0) (partsWords ps) = Some (t, c) /\ t + c = total + groupsValue gs.
Proof.
  intros [Hs Hf]. revert total. induction gs as [|[i g] gs IH]; intros total.
  { exists []. split; [done|]. exists total, 0. split; [done|]. simpl. lia. }
  apply StronglySorted_inv in Hs as [Hs Hlt]. apply Forall_cons in Hf as [[Hi Hg] Hf].
  specialize (IH Hs Hf). cbn [partsOf groupsValue fold_right]. simpl in Hi, Hg.
  fold (groupsValue gs). unfold groupValue. cbn [fst snd].
  destruct (g =? 0) eqn:Eg.
  { destruct (IH total) as (ps & E & t & c & R & V). exists ps. split; [done|]. exists t, c. split; [done|]. lia. }
  destruct (threeDigit_read total g ltac:(lia)) as (w & Ew & Rw). rewrite Ew. cbn [mbind option_bind].
  destruct (0 <? i)%nat eqn:Ei.
  - apply Nat.ltb_lt in Ei. destruct (scale_read total g i ltac:(lia)) as (s & Es & Rs).
    rewrite Es. cbn [mbind option_bind].
    destruct (IH (total + g * 1000 ^ Z.of_nat i)) as (ps & E & t & c & R & V). rewrite E. cbn [mbind option_bind].
    eexists. split; [done|]. exists t, c. split; [|lia].
    unfold partsWords in *. cbn [List.map List.concat ptext]. rewrite wordsOf_space, !readWords_app, Rw.
    cbn [mbind option_bind]. rewrite Rs. cbn [mbind option_bind]. done.
  - apply Nat.ltb_ge in Ei. assert (i = 0)%nat as -> by lia.
    destruct gs as [|[j h] gs]; [|apply Forall_cons in Hlt as [Hlt _]; simpl in Hlt; lia].
    cbn [partsOf mbind option_bind]. eexists. split; [done|]. exists total, g. split; [|simpl; lia].
    unfold partsWords. cbn [List.map List.concat ptext]. by rewrite app_nil_r.
Qed.

Lemma groupsOf_length f n : (List.length (groupsOf f n) <= f)%nat.
Proof. revert n. induction f as [|f IH]; intros n; simpl; [lia|]. case_match; simpl; [specialize (IH (n/1000)); lia|lia]. Qed.

Lemma groupsOf_short f k n : n < 1000 ^ Z.of_nat k -> (List.length (groupsOf f n) <= k)%nat.
Proof.
  revert k n. induction f as [|f IH]; intros k n Hn; cbn [groupsOf]; [simpl; lia|].
  destruct (0 <? n) eqn:E; [|simpl; lia]. destruct k as [|k]; [simpl in Hn; lia|]. cbn [List.length].
  apply le_n_S, IH. rewrite Nat2Z.inj_succ, Z.pow_succ_r in Hn by lia. apply Z.div_lt_upper_bound; lia.
Qed.

(** The loop over the digits ends: any [f] with [n < 1000^f] is enough fuel. *)
Lemma groupsOf_enough f g n : n < 1000 ^ Z.of_nat f -> n < 1000 ^ Z.of_nat g -> groupsOf f n = groupsOf g n.
Proof.
  revert g n. induction f as [|f IH]; intros g n Hf Hg.
  - simpl in Hf. destruct g as [|g]; [done|]. cbn [groupsOf]. by replace (0 <? n) with false by lia.
  - destruct g as [|g]; cbn [groupsOf]; destruct (0 <? n) eqn:E; try done; [simpl in Hg; lia|].
    f_equal. rewrite Nat2Z.inj_succ, Z.pow_succ_r in Hf, Hg by lia.
    apply IH; apply Z.div_lt_upper_bound; lia.
Qed.

Lemma groupsOf_good f n k : (k + List.length (groupsOf f n) <= 7)%nat ->
  Forall (fun ig => (k <= fst ig < 7)%nat /\ 0 <= snd ig < 1000) (imap (fun i g => ((k + i)%nat, g)) (groupsOf f n))
  /\ StronglySorted (fun a b => fst a < fst b)%nat (imap (fun i g => ((k + i)%nat, g)) (groupsOf f n)).
Proof.
  revert n k. induction f as [|f IH]; intros n k Hk; cbn [groupsOf] in *; [split; constructor|].
  destruct (0 <? n) eqn:E; [|split; constructor]. cbn [List.length] in Hk.
  rewrite imap_cons. destruct (IH (n / 1000) (S k) ltac:(lia)) as [IHf IHs].
  assert (imap ((fun i g => ((k + i)%nat, g)) ∘ S) (groupsOf f (n / 1000))
          = imap (fun i g => ((S k + i)%nat, g)) (groupsOf f (n / 1000))) as ->.
  { apply imap_ext. intros i x _. simpl. f_equal. lia. }
  split.
  - constructor; [simpl; pose proof (Z.mod_pos_bound n 1000); lia|].
    eapply Forall_impl; [exact IHf|]. intros [i g]. simpl. lia.
  - constructor; [done|]. eapply Forall_impl; [exact IHf|]. intros [i g]. simpl. lia.
Qed.

Lemma groupsOf_value f n k : 0 <= n -> n < 1000 ^ Z.of_nat f ->
  groupsValue (imap (fun i g => ((k + i)%nat, g)) (groupsOf f n)) = n * 1000 ^ Z.of_nat k.
Proof.
  revert n k. induction f as [|f IH]; intros n k H0 Hn; cbn [groupsOf].
  { simpl in *. assert (n = 0) by lia. subst. done. }
  destruct (0 <? n) eqn:E; [|assert (n = 0) by lia; by subst].
  rewrite imap_cons. unfold groupsValue. cbn [fold_right]. fold groupsValue.
  assert (imap ((fun i g => ((k + i)%nat, g)) ∘ S) (groupsOf f (n / 1000))
          = imap (fun i g => ((S k + i)%nat, g)) (groupsOf f (n / 1000))) as ->.
  { apply imap_ext. intros i x _. simpl. f_equal. lia. }
  fold (groupsValue (imap (fun i g => ((S k + i)%nat, g)) (groupsOf f (n / 1000)))).
  rewrite Nat2Z.inj_succ, Z.pow_succ_r in Hn by lia.
  rewrite IH; [|by apply Z.div_pos|apply Z.div_lt_upper_bound; lia].
  unfold groupValue. cbn [fst snd]. rewrite Nat.add_0_r, Nat2Z.inj_succ, Z.pow_succ_r by lia.
  rewrite (Z.div_mod n 1000) at 3 by lia. ring.
Qed.

Lemma groupsValue_app a b : groupsValue (a ++ b) = groupsValue a + groupsValue b.
Proof. induction a as [|x a IH]; simpl; [done|]. fold (groupsValue (a ++ b)) (groupsValue a). rewrite IH. lia. Qed.

Lemma groupsValue_rev gs : groupsValue (List.rev gs) = groupsValue gs.
Proof. induction gs as [|x gs IH]; [done|]. simpl. rewrite groupsValue_app, IH. simpl. fold (groupsValue gs). lia. Qed.

Lemma StronglySorted_rev {A} (R : A -> A -> Prop) l :
  StronglySorted R l -> StronglySorted (fun a b => R b a) (List.rev l).
Proof.
  induction 1 as [|a l _ IH H]; [constructor|]. simpl.
  apply StronglySorted_app_2; [|done|by repeat constructor].
  intros x y Hx Hy. apply list_elem_of_singleton in Hy as ->. rewrite Forall_forall in H. apply H.
  by apply list_elem_of_In, in_rev, list_elem_of_In.
Qed.

(** The spelling of a positive int64. *)
Lemma positive_read n : 0 < n < 2 ^ 63 ->
  exists p ps, (List.length (groupsOf 20 n) <= List.length scaleWords)%nat
  /\ partsOf (List.rev (imap (fun i g => (i, g)) (groupsOf 20 n))) = Some (p :: ps)
  /\ exists t c, readWords (0, 0) (wordsOf (ptext p ++ joinParts ps)) = Some (t, c) /\ t + c = n.
Proof.
  intros Hn.
  pose proof (groupsOf_short 20 7 n ltac:(simpl; lia)) as Hl.
  destruct (groupsOf_good 20 n 0 ltac:(lia)) as [Hf Hs].
  pose proof (groupsOf_value 20 n 0 ltac:(lia) ltac:(simpl; lia)) as Hv.
  change (imap (fun i g => ((0 + i)%nat, g)) (groupsOf 20 n)) with (imap (fun i g => (i, g)) (groupsOf 20 n)) in *.
  set (gs := imap (fun i g => (i, g)) (groupsOf 20 n)) in *.
  destruct (partsOf_read (List.rev gs) 0) as (ps & E & t & c & R & V).
  { split; [by apply (StronglySorted_rev (fun a b : nat * Z => fst a < fst b)%nat)|].
    apply List.Forall_rev. eapply Forall_impl; [exact Hf|]. intros [i g]. simpl. lia. }
  rewrite groupsValue_rev, Hv in V. simpl in V. rewrite Z.mul_1_r in V.
  destruct ps as [|p ps]; [simpl in R; injection R as <- <-; lia|].
  exists p, ps. split_and!; [exact Hl|done|]. exists t, c. split; [|done].
  by rewrite joinParts_read.
Qed.

Lemma readCardinal_words s t c : readWords (0, 0) (wordsOf s) = Some (t, c) ->
  readCardinal s = Some (t + c) /\ readCardinal ("minus " ++ s) = Some (- (t + c)).
Proof.
  intros E. unfold readCardinal. split.
  - destruct (wordsOf s) as [|w ws] eqn:Ew; [simpl in E; injection E as <- <-; done|].
    destruct (String.eqb w "minus") eqn:Em; [apply String.eqb_eq in Em as ->; done|].
    by rewrite E.
  - change ("minus " ++ s) with ("minus" ++ " " ++ s). rewrite wordsOf_space.
    change (wordsOf "minus" ++ wordsOf s)%list with ("minus" :: wordsOf s).
    cbn [String.eqb Ascii.eqb Bool.eqb]. by rewrite E.
Qed.

Lemma cardinal_reads n : - 2 ^ 63 < n < 2 ^ 63 -> exists s, cardinal n = Some s /\ readCardinal s = Some n.
Proof.
  intros Hn. unfold cardinal. destruct (n =? 0) eqn:E0; [apply Z.eqb_eq in E0 as ->; by eexists|].
  set (m := if n <? 0 then int64 (- n) else n).
  assert (m = Z.abs n) as Hm.
  { subst m. destruct (n <? 0) eqn:E; [|lia]. unfold int64. rewrite Z.mod_small; simpl in *; lia. }
  destruct (positive_read m) as (p & ps & Hl & E & t & c & R & V); [simpl in *; lia|].
  rewrite (proj2 (Nat.ltb_ge _ _) Hl), E. cbn [mbind option_bind]. eexists. split; [reflexivity|].
  apply readCardinal_words in R as [R1 R2]. destruct (n <? 0) eqn:En.
  - rewrite R2. f_equal. lia.
  - rewrite R1. f_equal. lia.
Qed.

(** C20: The words of a number read back as that number, for every int64 but the
    least, whose negation overflows and on which the spelling panics.  The loop over
    its digits ends after at most seven groups, so the scale table is never
    exceeded and the fallback for larger numbers never taken. *)
Theorem cardinal_roundtrip n : - 2 ^ 63 <= n < 2 ^ 63 ->
  (List.length (groupsOf 20 (Z.abs n)) <= List.length scaleWords)%nat
  /\ match cardinal n with
     | Some s => readCardinal s = Some n
     | None => n = - 2 ^ 63
     end.
Proof.
  intros Hn. split.
  { apply groupsOf_short. simpl in *. lia. }
  destruct (decide (n = - 2 ^ 63)) as [->|Hmin]; [reflexivity|].
  destruct (cardinal_reads n) as (s & -> & R); [lia|done].
Qed.

Lemma cardinal_roundtrip_witness :
  (- 2 ^ 63 <= 1234567 < 2 ^ 63) /\
  match cardinal 1234567 with Some s => readCardinal s = Some 1234567 | None => 1234567 = - 2 ^ 63 end.
Proof. split; [lia|]. exact (proj2 (cardinal_roundtrip 1234567 ltac:(lia))). Defined.

(** ** Dates *)

Lemma daysIn_range y m : 28 <= daysIn y m <= 31.
Proof. unfold daysIn. repeat case_match; lia. Qed.

Lemma normDate_S f y m d : normDate (S f) y m d =
  if d <=? daysIn y m then (y, m, d)
  else if m =? 12 then normDate f (y + 1) 1 (d - 31) else normDate f y (m + 1) (d - daysIn y m).
Proof. done. Qed.

Lemma normDate_month f y m d : 1 <= m <= 12 ->
  let '(y', m', d') := normDate f y m d in 12 * y + m <= 12 * y' + m' /\ 1 <= m' <= 12.
Proof.
  revert y m d. induction f as [|f IH]; intros y m d Hm; cbn [normDate]; [lia|].
  destruct (d <=? daysIn y m); [lia|]. destruct (m =? 12) eqn:E.
  - specialize (IH (y + 1) 1 (d - 31) ltac:(lia)). destruct (normDate f (y + 1) 1 (d - 31)) as [[y' m'] d']. lia.
  - specialize (IH y (m + 1) (d - daysIn y m) ltac:(lia)). destruct (normDate f y (m + 1) _) as [[y' m'] d']. lia.
Qed.

(** A date is spoken exactly when it is a date of the calendar, as its month's
    name, its day's ordinal and its year's cardinal; anything else is left as it was
    written.  Nothing four digits of year and two of month and day can hold panics. *)
Theorem spoken_date_calendar year month day original :
  0 <= year <= 9999 -> 0 <= month <= 99 -> 0 <= day <= 99 ->
  if (1 <=? month) && (month <=? 12) && (1 <=? day) && (day <=? daysIn year month) then
    exists name c, monthNames !! Z.to_nat (month - 1) = Some name /\ cardinal year = Some c
      /\ readCardinal c = Some year
      /\ spokenDate year month day original = Some (name ++ " " ++ ordinal day ++ ", " ++ c)
  else spokenDate year month day original = Some original.
Proof.
  intros Hy Hm Hd. unfold spokenDate.
  destruct ((month <? 1) || (12 <? month) || (day <? 1)) eqn:E1.
  { by replace ((1 <=? month) && (month <=? 12) && (1 <=? day) && (day <=? daysIn year month)) with false by lia. }
  rewrite normDate_S. destruct (day <=? daysIn year month) eqn:E2.
  - replace ((1 <=? month) && (month <=? 12) && (1 <=? day) && true) with true by lia.
    rewrite !Z.eqb_refl. cbn [negb orb].
    assert (exists name, monthNames !! Z.to_nat (month - 1) = Some name) as [name Hn].
    { apply lookup_lt_is_Some_2. simpl. lia. }
    destruct (cardinal_reads year) as (c & -> & Hc); [simpl; lia|].
    exists name, c. unfold at_. replace (month - 1 <? 0) with false by lia. by rewrite Hn.
  - rewrite andb_false_r.
    destruct (month =? 12) eqn:E3.
    + pose proof (normDate_month 3 (year + 1) 1 (day - 31) ltac:(lia)) as H.
      destruct (normDate 3 (year + 1) 1 (day - 31)) as [[y m] d].
      destruct (y =? year) eqn:Ey, (m =? month) eqn:Em; try done; lia.
    + pose proof (normDate_month 3 year (month + 1) (day - daysIn year month) ltac:(lia)) as H.
      destruct (normDate 3 year (month + 1) _) as [[y m] d].
      destruct (y =? year) eqn:Ey, (m =? month) eqn:Em; try done; lia.
Qed.

Lemma spoken_date_calendar_witness :
  spokenDate 2023 2 30 "2023-02-30" = Some "2023-02-30"
  /\ spokenDate 2024 2 29 "2024-02-29" = Some "February 29th, two thousand and twenty-four".
Proof.
  split; [|vm_compute; reflexivity].
  exact (spoken_date_calendar 2023 2 30 "2023-02-30" ltac:(lia) ltac:(lia) ltac:(lia)).
Defined.

(** ** Amounts *)

(** An amount too large for an int64 is not left as it is written, as a number is:
    the error of [ParseInt] is dropped and the largest int64 spoken. *)
Theorem currency_overflow_spoken cur g0 :
  expandCurrency cur "99,999,999,999,999,999,999" ""
  = (c ← cardinal maxInt64; Some (c ++ " " ++ plural cur))
  /\ expandNumber 0 g0 "99,999,999,999,999,999,999" "" = Some g0.
Proof. split; [|reflexivity]. by destruct cur. Qed.

Lemma digitVal_range c v : digitVal c = Some v -> 0 <= v <= 9.
Proof. unfold digitVal. case_match; intros [= <-]. lia. Qed.

Definition allDigits (s : string) : Prop := exists v, digitsVal 0 s = Some v.

Lemma digitVal_nosign c v : digitVal c = Some v -> c <> "-"%char /\ c <> "+"%char.
Proof. by intros H; split; intros ->. Qed.

(** The cents of an amount are the first two digits of its fraction, a missing
    second one being zero, whatever digits follow. *)
Theorem cents_two_digits d1 d2 rest v1 v2 :
  digitVal d1 = Some v1 -> digitVal d2 = Some v2 ->
  ParseInt (padRight (truncate (String d1 "") 2) 2 "0") = (10 * v1, false)
  /\ ParseInt (padRight (truncate (String d1 (String d2 rest)) 2) 2 "0") = (10 * v1 + v2, false).
Proof.
  intros H1 H2. pose proof (digitVal_range _ _ H1). pose proof (digitVal_range _ _ H2).
  assert (forall d v, digitVal d = Some v -> 0 <= v <= 9 ->
    ParseInt (String d1 (String d "")) = (10 * v1 + v, false)) as P.
  { intros d v Hd Hv. unfold ParseInt. destruct (digitVal_nosign _ _ H1) as [Hn Hp].
    assert (match String d1 (String d "") with
            | String "-" t => (true, t) | String "+" t => (false, t) | _ => (false, String d1 (String d "")) end
            = (false, String d1 (String d ""))) as ->.
    { destruct d1 as [[] [] [] [] [] [] [] []]; try reflexivity; by destruct Hn || by destruct Hp. }
    cbn [digitsVal]. rewrite H1. cbn [mbind option_bind]. rewrite Hd. cbn [mbind option_bind].
    unfold maxInt64. replace (9223372036854775807 <? (0 * 10 + v1) * 10 + v) with false by lia.
    f_equal. lia. }
  split.
  - rewrite <- (Z.add_0_r (10 * v1)). apply (P "0"%char 0); [reflexivity|lia].
  - replace (truncate (String d1 (String d2 rest)) 2) with (String d1 (String d2 "")).
    + apply (P d2 v2); done.
    + unfold truncate. destruct rest; reflexivity.
Qed.

Lemma cents_two_digits_witness :
  ParseInt (padRight (truncate "5" 2) 2 "0") = (50, false)
  /\ ParseInt (padRight (truncate "0199" 2) 2 "0") = (1, false).
Proof.
  split; [exact (proj1 (cents_two_digits "5" "0" "" 5 0 eq_refl eq_refl))
         |exact (proj2 (cents_two_digits "0" "1" "99" 0 1 eq_refl eq_refl))].
Defined.

End Numbers.
