(* ===== verification/LlmContext.v ===== *)
(** * LlmContext

    The conversation an agent accrues: [frames.LLMContext]
    ([src/frames/llm_context.go]), and the messages an asynchronous tool call reports
    through ([src/frames/async_tool.go]).  The context's mutex makes each method one
    step; the methods are functions of the context here. *)

From S2P Require Import Prelude Float64 Text Strings.

Local Open Scope Z_scope.

Module LlmContext.

Inductive Role := RoleNone | RoleSystem | RoleUser | RoleAssistant | RoleDeveloper.
#[export] Instance Role_dec : EqDecision Role.
Proof. solve_decision. Defined.

Record ToolCall := mkToolCall { tcID : gostring; tcName : gostring; tcArgs : gostring }.
Record ToolResult := mkToolResult { trID : gostring; trName : gostring; trContent : gostring }.
#[export] Instance ToolCall_dec : EqDecision ToolCall.
Proof. solve_decision. Defined.
#[export] Instance ToolResult_dec : EqDecision ToolResult.
Proof. solve_decision. Defined.

(** What a message written for one provider holds, as [any]: nothing, the map the
    assistant aggregator writes a thought as, or a value only an adapter can read, known
    by a number. *)
Inductive nativeValue := NoNative | ThoughtMap (thought signature : gostring) | Foreign (n : nat).
#[export] Instance nativeValue_dec : EqDecision nativeValue.
Proof. solve_decision. Defined.

Record Message := mkNative {
  role : Role;
  text : gostring;
  toolCalls : list ToolCall;
  toolResults : list ToolResult;
  llm : gostring;                 (** the provider it is written for, if any *)
  native : nativeValue
}.
#[export] Instance eta_Message : Eta Message := fun m =>
  mkNative (role m) (text m) (toolCalls m) (toolResults m) (llm m) (native m).
#[export] Instance Message_dec : EqDecision Message.
Proof. solve_decision. Defined.

(** A message of the universal format. *)
Abbreviation mkMessage r t cs rs := (mkNative r t cs rs [] NoNative).
Definition plain (r : Role) (t : gostring) : Message := mkMessage r t [] [].
Definition NewLLMSpecificMessage (provider : gostring) (v : nativeValue) : Message := mkNative RoleNone [] [] [] provider v.
Definition IsLLMSpecific (m : Message) : bool := negb (bool_decide (llm m = [])).

(** What a tool carries as [any]: nothing, a value of the type its user expects, or
    something else.  A function is known by a number, a resource by a number and
    whether Go can compare values of its type. *)
Inductive carried (A : Type) := Nothing | Carried (a : A) | OtherType.
Arguments Nothing {A}. Arguments Carried {A} a. Arguments OtherType {A}.
Record resource := mkResource { rid : nat; comparable : bool }.

Record Tool := mkTool {
  toolName : gostring; description : gostring; parameters : gostring;
  Handler : carried nat;
  Cleanup : carried resource;
  CancelOnInterruption : option bool;
  TimeoutSecs : option f64;
  CancellableByLLM : option bool
}.

(** The standard tools, and those in one provider's own format by its name; what a
    custom tool is only its adapter knows. *)
Record ToolsSchema := mkSchema { Standard : list Tool; Custom : gmap gostring (list Z) }.
Definition CustomFor (s : ToolsSchema) (t : gostring) : list Z := default [] (Custom s !! t).

Record LLMContext := mkContext {
  system : gostring;
  recall : gostring;
  messages : list Message;
  tools : ToolsSchema;
  toolChoice : gostring
}.
#[export] Instance eta_LLMContext : Eta LLMContext := fun c =>
  mkContext (system c) (recall c) (messages c) (tools c) (toolChoice c).

Definition NewLLMContext (s : gostring) : LLMContext := mkContext s [] [] (mkSchema [] ∅) [].

(** [strings.Join(parts, "\n\n")] over the non-empty ones. *)
Definition System (c : LLMContext) : gostring :=
  match system c, recall c with
  | [], r => r
  | s, [] => s
  | s, r => s ++ [10; 10] ++ r
  end.
Definition SystemParts (c : LLMContext) : gostring * gostring := (system c, recall c).
Definition SetRecall (c : LLMContext) (r : gostring) : LLMContext := c <| recall := r |>.
Definition SetSystem (c : LLMContext) (s : gostring) : LLMContext := c <| system := s |>.

Definition Tools (c : LLMContext) : list Tool := Standard (tools c).
Definition SetTools (c : LLMContext) (ts : list Tool) : LLMContext := c <| tools := mkSchema ts ∅ |>.
Definition SetToolsSchema (c : LLMContext) (s : ToolsSchema) : LLMContext := c <| tools := s |>.

Definition ToolChoiceAuto : gostring := bytes_of "auto".
Definition ToolChoice (c : LLMContext) : gostring :=
  match toolChoice c with [] => ToolChoiceAuto | t => t end.
Definition SetToolChoice (c : LLMContext) (t : gostring) : LLMContext := c <| toolChoice := t |>.

Definition SetMessages (c : LLMContext) (ms : list Message) : LLMContext := c <| messages := ms |>.
(** [None] is a nil transform. *)
Definition TransformMessages (c : LLMContext) (f : option (list Message -> list Message)) : LLMContext :=
  match f with Some f => SetMessages c (f (messages c)) | None => c end.
Definition ClearMessages (c : LLMContext) : LLMContext := SetMessages c [].

Definition roleName (r : Role) : gostring :=
  bytes_of match r with
           | RoleNone => "" | RoleSystem => "system" | RoleUser => "user" | RoleAssistant => "assistant" | RoleDeveloper => "developer"
           end.

Definition Transcript (c : LLMContext) : gostring :=
  fold_left (fun b m =>
      match text m with
      | [] => b
      | t => b ++ (match b with [] => [] | _ => [10] end) ++ roleName (role m) ++ bytes_of ": " ++ t
      end)
    (messages c) [].

Definition AddMessage (c : LLMContext) (m : Message) : LLMContext := c <| messages ::= fun ms => ms ++ [m] |>.
Definition AddUserMessage (c : LLMContext) (t : gostring) : LLMContext := AddMessage c (plain RoleUser t).
Definition AddAssistantMessage (c : LLMContext) (t : gostring) : LLMContext := AddMessage c (plain RoleAssistant t).
Definition AddAssistantToolCall (c : LLMContext) (tc : ToolCall) : LLMContext :=
  AddMessage c (mkMessage RoleAssistant [] [tc] []).
Definition AddToolResult (c : LLMContext) (r : ToolResult) : LLMContext :=
  AddMessage c (mkMessage RoleUser [] [] [r]).

(** A message that says something and carries no tool call or result. *)
Definition plainAssistant (m : Message) : bool :=
  bool_decide (role m = RoleAssistant) && bool_decide (toolCalls m = []) && bool_decide (toolResults m = []).

Definition ReplaceLastAssistantText (c : LLMContext) (t : gostring) : bool * LLMContext :=
  match List.rev (messages c) with
  | m :: before => if plainAssistant m then (true, c <| messages := List.rev before ++ [m <| text := t |>] |>)
                   else (false, c)
  | [] => (false, c)
  end.

Definition LastAssistantText (c : LLMContext) : gostring :=
  match List.find plainAssistant (List.rev (messages c)) with Some m => text m | None => [] end.

(** [UpdateToolResult]: the first result with this id gets the content. *)
Fixpoint updateResults (i content : gostring) (rs : list ToolResult) : option (list ToolResult) :=
  match rs with
  | [] => None
  | r :: rs => if decide (trID r = i) then Some (mkToolResult (trID r) (trName r) content :: rs)
               else rs' ← updateResults i content rs; Some (r :: rs')
  end.
Fixpoint updateMessages (i content : gostring) (ms : list Message) : option (list Message) :=
  match ms with
  | [] => None
  | m :: ms => match updateResults i content (toolResults m) with
               | Some rs => Some (m <| toolResults := rs |> :: ms)
               | None => ms' ← updateMessages i content ms; Some (m :: ms')
               end
  end.
Definition UpdateToolResult (c : LLMContext) (i content : gostring) : bool * LLMContext :=
  match updateMessages i content (messages c) with
  | Some ms => (true, c <| messages := ms |>)
  | None => (false, c)
  end.

Definition MessagesFor (c : LLMContext) (provider : gostring) : list Message :=
  List.filter (fun m => negb (IsLLMSpecific m && negb (bool_decide (llm m = provider)))) (messages c).

(** ** The messages of an asynchronous tool call *)

Inductive AsyncToolKind := AsyncToolStarted | AsyncToolIntermediate | AsyncToolFinal.

Record AsyncToolMessage := mkAsync {
  kind : AsyncToolKind;
  toolCallID : gostring;
  status : gostring;
  asDescription : gostring;
  result : option gostring      (** [HasResult] *)
}.

Definition AsyncToolStatusRunning : gostring := bytes_of "running".
Definition AsyncToolStatusFinished : gostring := bytes_of "finished".
Definition ToolResultInProgress : gostring := bytes_of "IN_PROGRESS".

(** [encoding/json]'s rendering of a string. *)
Definition hexDigit (n : Z) : Z := if n <? 10 then 48 + n else 87 + n.
Definition u00 (r : Z) : gostring := bytes_of "\u00" ++ [hexDigit (r / 16); hexDigit (r mod 16)].
Definition jsonRune (r : rune) (w : nat) : gostring :=
  if r =? 34 then [92; 34] else if r =? 92 then [92; 92]
  else if r =? 8 then bytes_of "\b" else if r =? 12 then bytes_of "\f"
  else if r =? 10 then bytes_of "\n" else if r =? 13 then bytes_of "\r" else if r =? 9 then bytes_of "\t"
  else if (r <? 32) || (r =? 60) || (r =? 62) || (r =? 38) then u00 r
  else if (r =? RuneError) && (w =? 1)%nat then bytes_of "\ufffd"
  else if r =? 8232 then bytes_of "\u2028" else if r =? 8233 then bytes_of "\u2029"
  else EncodeRune r.
Fixpoint jsonBody (fuel : nat) (s : gostring) : gostring :=
  match fuel, s with
  | S fuel, _ :: _ => let '(r, w) := DecodeRune s in jsonRune r w ++ jsonBody fuel (List.skipn w s)
  | _, _ => []
  end.
Definition jsonString (s : gostring) : gostring := [34] ++ jsonBody (List.length s) s ++ [34].
Definition jsonField (k : string) (v : gostring) : gostring := jsonString (bytes_of k) ++ [58] ++ jsonString v.

Definition AsyncToolMessage_json (m : AsyncToolMessage) : gostring :=
  [123] ++ jsonField "type" (bytes_of "async_tool")
  ++ [44] ++ jsonField "status" (status m)
  ++ [44] ++ jsonField "tool_call_id" (toolCallID m)
  ++ [44] ++ jsonField "description" (asDescription m)
  ++ (match result m with Some r => [44] ++ jsonField "result" r | None => [] end) ++ [125].

Definition AsyncToolMessage_message (m : AsyncToolMessage) : Message :=
  match kind m with
  | AsyncToolStarted => mkMessage RoleUser [] [] [mkToolResult (toolCallID m) [] (AsyncToolMessage_json m)]
  | _ => plain RoleDeveloper (AsyncToolMessage_json m)
  end.

Definition asyncToolStartedDescription : gostring := bytes_of
  "This tool is still running. You will be given its result later. Do not call it again and do not invent a result in the meantime.".
Definition asyncToolIntermediateDescription : gostring := bytes_of
  "This is a partial result and the task is still running. More may follow. Do not call this tool again and do not treat this as the final answer.".
Definition asyncToolFinalDescription : gostring := bytes_of
  "This is the final result for the asynchronous task associated with this tool_call_id. The task has completed. No further results will arrive for this tool_call_id. You must convey this result to the user, even if the conversation has moved on. Never leave it unsaid. First finish responding to whatever the user is talking about now, then deliver the result at the end of your response. How you deliver it depends on its size: if the result is short, simply state it; if it is long or complex, name what has come back and offer the details. Convey it once; do not repeat it in later responses.".
Definition asyncToolCanceledDescription : gostring := bytes_of
  "The asynchronous task associated with this tool_call_id was cancelled before it produced a result, either because it ran past its deadline or because cancellation was requested. No further results will arrive for this tool_call_id. If the user is still waiting on it, tell them it did not complete rather than leaving it unanswered.".
Definition asyncToolCanceledResult : gostring := bytes_of
  "CANCELLED: this tool call was cancelled before it returned a result".

Definition NewAsyncToolStartedMessage (i : gostring) : Message :=
  AsyncToolMessage_message (mkAsync AsyncToolStarted i AsyncToolStatusRunning asyncToolStartedDescription None).
Definition NewAsyncToolIntermediateMessage (i r : gostring) : Message :=
  AsyncToolMessage_message (mkAsync AsyncToolIntermediate i AsyncToolStatusRunning asyncToolIntermediateDescription (Some r)).
Definition NewAsyncToolFinalMessage (i r : gostring) : Message :=
  AsyncToolMessage_message (mkAsync AsyncToolFinal i AsyncToolStatusFinished asyncToolFinalDescription (Some r)).
Definition NewAsyncToolCanceledMessage (i : gostring) : Message :=
  AsyncToolMessage_message (mkAsync AsyncToolFinal i AsyncToolStatusFinished asyncToolCanceledDescription
                              (Some asyncToolCanceledResult)).

(** ** Updating in place *)

(** Two conversations that differ at most in the contents of tool results. *)
Definition sameResult (a b : ToolResult) : Prop := trID a = trID b /\ trName a = trName b.
Definition sameMessage (a b : Message) : Prop :=
  role a = role b /\ text a = text b /\ toolCalls a = toolCalls b /\ (llm a, native a) = (llm b, native b)
  /\ Forall2 sameResult (toolResults a) (toolResults b).
Definition sameShape : list Message -> list Message -> Prop := Forall2 sameMessage.

#[export] Instance sameResult_refl : Reflexive sameResult.
Proof. by intros a. Qed.
#[export] Instance sameMessage_refl : Reflexive sameMessage.
Proof. intros a. split_and!; try done. Qed.
#[export] Instance sameShape_refl : Reflexive sameShape.
Proof. intros l. unfold sameShape. reflexivity. Qed.

Lemma updateResults_spec i content rs :
  match updateResults i content rs with
  | Some rs' => Forall2 sameResult rs rs' /\ (exists r, r ∈ rs' /\ trID r = i /\ trContent r = content)
                /\ exists pre r post, rs = pre ++ r :: post /\ rs' = pre ++ mkToolResult i (trName r) content :: post
                   /\ trID r = i /\ Forall (fun r => trID r <> i) pre
  | None => Forall (fun r => trID r <> i) rs
  end.
Proof.
  induction rs as [|r rs IH]; simpl; [constructor|]. case_decide as E.
  - split_and!; [by constructor|eexists; split; [apply list_elem_of_here|done]|].
    exists [], r, rs. by rewrite E.
  - destruct (updateResults i content rs) as [rs'|]; simpl; [|by constructor].
    destruct IH as (F & (r' & Hin & ?) & pre & r0 & post & -> & -> & Hi & Hp).
    split_and!; [by constructor|exists r'; split; [by apply list_elem_of_further|done]|].
    exists (r :: pre), r0, post. split_and!; try done. by constructor.
Qed.

Definition hasResult (i : gostring) (m : Message) : Prop := exists r, r ∈ toolResults m /\ trID r = i.

Lemma sameMessage_hasResult i a b : sameMessage a b -> hasResult i a <-> hasResult i b.
Proof.
  intros (_ & _ & _ & _ & F). unfold hasResult. split; intros (r & Hin & Hi).
  - apply list_elem_of_lookup in Hin as [k Hk]. destruct (Forall2_lookup_l _ _ _ _ _ F Hk) as (r' & Hk' & [E _]).
    exists r'. split; [by eapply list_elem_of_lookup_2|congruence].
  - apply list_elem_of_lookup in Hin as [k Hk]. destruct (Forall2_lookup_r _ _ _ _ _ F Hk) as (r' & Hk' & [E _]).
    exists r'. split; [by eapply list_elem_of_lookup_2|congruence].
Qed.

(** [UpdateToolResult] rewrites the content of one result and nothing else: no
    message is added, moved or removed. *)
Lemma UpdateToolResult_shape c i content :
  sameShape (messages c) (messages (UpdateToolResult c i content).2)
  /\ system (UpdateToolResult c i content).2 = system c
  /\ ((UpdateToolResult c i content).1 = true <-> Exists (hasResult i) (messages c)).
Proof.
  unfold UpdateToolResult.
  assert (match updateMessages i content (messages c) with
          | Some ms => sameShape (messages c) ms /\ Exists (hasResult i) (messages c)
          | None => ~ Exists (hasResult i) (messages c) end) as H.
  { induction (messages c) as [|m ms IH]; simpl; [by intros []%Exists_nil|].
    pose proof (updateResults_spec i content (toolResults m)) as R.
    destruct (updateResults i content (toolResults m)) as [rs|].
    - destruct R as (F & _ & pre & r & post & E & _ & Hi & _). split.
      + constructor; [|reflexivity]. by split_and!.
      + apply Exists_cons_hd. exists r. split; [|done]. rewrite E. set_solver.
    - destruct (updateMessages i content ms) as [ms'|]; simpl.
      + destruct IH as [F E]. split; [by constructor|by apply Exists_cons_tl].
      + intros [(r & Hin & Hi)|?]%Exists_cons; [|done]. rewrite Forall_forall in R. by apply (R r). }
  destruct (updateMessages i content (messages c)) as [ms|]; simpl.
  - destruct H as [H1 H2]. by split_and!.
  - split_and!; [reflexivity|done|by split].
Qed.

End LlmContext.
