(* ===== verification/Aggregators.v ===== *)
(** * Aggregators

    The assistant's half of the context aggregator pair
    ([src/processor/aggregators/aggregators.go]), which turns the frames of a
    conversation into the messages of the shared [LLMContext].

    A handler takes the aggregator's state, and what it reads of its surroundings
    (the time, whether a tool result is queued behind the frame), and returns the new
    state and what it did, in order: frames pushed and events raised.  The pushes are
    taken to succeed.  The mutex of an aggregator is held for parts of a handler only;
    here a handler runs whole, the frames of one processor being handled one by one. *)

From S2P Require Import Prelude Text Strings Frames TextAgg LlmContext.
Import TextAgg LlmContext.

Local Open Scope Z_scope.

(** [frames.StripUserTurnMarkers] ([src/frames/turnmarkers.go]) *)
Module Markers.

Definition UserTurnCompleteMarker : gostring := bytes_of "●".
Definition UserTurnIncompleteShortMarker : gostring := bytes_of "◐".
Definition UserTurnIncompleteLongMarker : gostring := bytes_of "○".
Definition userTurnMarkers : list gostring :=
  [UserTurnCompleteMarker; UserTurnIncompleteShortMarker; UserTurnIncompleteLongMarker].

Definition stripOne (st : gostring * bool) (marker : gostring) : gostring * bool :=
  let '(t, found) := st in
  if bool_decide (marker = []) then st
  else if Contains t marker then (ReplaceAllEmpty t marker, true) else st.

Definition StripUserTurnMarkers (t : gostring) (extra : list gostring) : gostring :=
  let '(t', found) := fold_left stripOne (userTurnMarkers ++ extra) (t, false) in
  if (found : bool) then TrimSpace t' else t.

End Markers.

(** [maybeAddToolChangeMessages] and what it is made of; a set of names is ordered
    when it is rendered. *)
Module ToolChange.

Definition toolActivationPrefix : gostring :=
  bytes_of "The following function(s) have just been added and may now be called: ".
Definition toolActivationSuffix : gostring := bytes_of ". Any previously available functions remain available.".
Definition toolDeactivationPrefix : gostring :=
  bytes_of "The following function(s) have just been removed and should not be called: ".
Definition toolDeactivationSuffix : gostring := bytes_of
  ". Any previously available functions remain available. The removed function(s) may become available again later, in which case you will be informed.".

Definition names (ts : list Tool) : gset gostring := list_to_set (List.map toolName ts).
Definition missingFrom (a b : gset gostring) : list gostring := elements (a ∖ b).

Fixpoint insertSorted (x : gostring) (l : list gostring) : list gostring :=
  match l with [] => [x] | y :: l => if bytesLe x y then x :: y :: l else y :: insertSorted x l end.
Definition sortStrings (l : list gostring) : list gostring := fold_right insertSorted [] l.

Definition quoteNames (ns : list gostring) : gostring :=
  joinWith (bytes_of ", ") (List.map (fun n => [96] ++ n ++ [96]) (sortStrings ns)).

Definition maybeAddToolChangeMessages (enabled : bool) (c : LLMContext) (newTools : list Tool) : LLMContext :=
  if negb enabled then c
  else
    let old := names (Tools c) in
    let fresh := names newTools in
    let added := missingFrom fresh old in
    let removed := missingFrom old fresh in
    let parts :=
      (match added with [] => [] | _ => [toolActivationPrefix ++ quoteNames added ++ toolActivationSuffix] end)
      ++ (match removed with [] => [] | _ => [toolDeactivationPrefix ++ quoteNames removed ++ toolDeactivationSuffix] end) in
    match parts with
    | [] => c
    | _ => AddMessage c (plain RoleDeveloper (joinWith [32] parts))
    end.

End ToolChange.

(** ** The assistant half *)

Module Assistant.
Import Markers ToolChange.

Definition toolResultCanceled : gostring := bytes_of "CANCELLED".
Definition toolResultCompleted : gostring := bytes_of "COMPLETED".

(** What the aggregator reads of a text frame. *)
Record TextFrame := mkTextFrame { fText : gostring; AppendToContext : bool; IncludesInterFrameSpaces : bool }.

Record InProgressFrame := mkInProgress {
  ipID : gostring; ipName : gostring; ipArgs : gostring;
  CancelOnInterruption : bool; GroupID : gostring
}.

(** [FunctionCallResultProperties]; [None] is an unset field. *)
Record Properties := mkProps { pRunLLM : option bool; OnContextUpdated : bool; IsFinal : option bool }.
Definition Final (p : option Properties) : bool :=
  match p with Some p => match IsFinal p with Some b => b | None => true end | None => true end.

Record ResultFrame := mkResult {
  rID : gostring; rName : gostring; Result : gostring;
  rRunLLM : option bool; rProps : option Properties
}.

Inductive AFrame :=
| LLMFullResponseStart
| LLMFullResponseEnd
| TTSStarted (appendToContext : bool)
| LLMText (t : TextFrame)
| TTSText (t : TextFrame) (raw : gostring)
| AggregatedText (t : TextFrame) (raw : gostring)
| PlainText (t : TextFrame)
| LLMThoughtStart (appendToContext : bool) (llm : gostring)
| LLMThoughtText (t : gostring) (includes : bool)
| LLMThoughtEnd (signature : gostring)
| PushAggregation
| EndF | CancelF | InterruptionF
| LLMRun
| FunctionCallsStarted (calls : list ToolCall)
| FunctionCallInProgress (f : InProgressFrame)
| FunctionCallResult (f : ResultFrame)
| FunctionCallCancel (i : gostring) (runLLM : bool)
| UserStarted | UserStopped | BotStarted | BotStopped
| ProposedStart | ProposedStop
| LLMMarker (marker : gostring) (appendImmediately : bool)
| MessagesAppend (ms : list Message) (runLLM : bool)
| MessagesUpdate (ms : list Message) (runLLM : bool)
| MessagesTransform (f : option (list Message -> list Message)) (runLLM : bool)
| SetToolsF (ts : list Tool)
| SetToolChoiceF (t : gostring)
| OtherF (name : string).

Inductive output :=
| PushContext (dir : Direction)                       (** an [LLMContextFrame] *)
| PushTimestamp
| Forward (f : AFrame)
| BroadcastTurn (said startedAt : gostring)
| TurnStarted
| TurnStopped (content : gostring) (interrupted : bool) (startedAt : gostring)
| Thought (content startedAt : gostring)
| ContextUpdated                                      (** the result's callback is run *)
| ReleaseWork.

Record Assistant := mkAssistant {
  context : LLMContext;
  toolChangeMessages : bool;
  userResolvesStarts : bool;      (** what the paired user half resolves *)
  userResolvesStops : bool;
  seenMarkers : list gostring;
  aggregation : list Part;
  turnStartedAt : gostring;
  inProgress : gmap gostring (option InProgressFrame);
  userSpeaking : bool;
  botSpeaking : bool;
  pushOnBotStopped : bool;
  thought : list Part;
  thoughtStarted : gostring;
  thoughtToContext : bool;
  thoughtLLM : gostring
}.
#[export] Instance eta_Assistant : Eta Assistant := fun a =>
  mkAssistant (context a) (toolChangeMessages a) (userResolvesStarts a) (userResolvesStops a) (seenMarkers a)
    (aggregation a) (turnStartedAt a) (inProgress a) (userSpeaking a) (botSpeaking a) (pushOnBotStopped a)
    (thought a) (thoughtStarted a) (thoughtToContext a) (thoughtLLM a).

Definition newAssistant (c : LLMContext) (toolChange starts stops : bool) : Assistant :=
  mkAssistant c toolChange starts stops [] [] [] ∅ false false false [] [] false [].

(** A handler's surroundings: [frames.NowTimestamp()], which is never empty, and
    [HasQueuedFrame(isFunctionCallResult)]. *)
Record env := mkEnv { now : gostring; queuedResult : bool }.

Abbreviation act := (Assistant * list output)%type.
Definition onContext (f : LLMContext -> LLMContext) (a : Assistant) : Assistant := a <| context ::= f |>.

Definition HasFunctionCallsInProgress (a : Assistant) : bool := negb (bool_decide (inProgress a = ∅)).

(** *** Turns *)

Definition openTurn (e : env) (a : Assistant) : act :=
  if bool_decide (turnStartedAt a = []) then (a <| turnStartedAt := now e |>, [TurnStarted]) else (a, []).

Definition pushAggregation (a : Assistant) : gostring * act :=
  let said := Concatenate (aggregation a) in
  let a := a <| aggregation := [] |> <| pushOnBotStopped := false |> in
  if bool_decide (said = []) then ([], (a, []))
  else (said, (onContext (fun c => AddAssistantMessage c said) a, [PushContext Downstream; PushTimestamp])).

Definition commit (interrupted : bool) (a : Assistant) : act :=
  let startedAt := turnStartedAt a in
  let a := a <| turnStartedAt := [] |> in
  if bool_decide (startedAt = []) then (a, [])
  else
    let '(said, (a, out)) := pushAggregation a in
    let said := if bool_decide (said = []) then [] else StripUserTurnMarkers said (seenMarkers a) in
    (a, out ++ [TurnStopped said interrupted startedAt]
            ++ (if bool_decide (said = []) then [] else [BroadcastTurn said startedAt])).

Definition commitInterrupted (a : Assistant) : act :=
  let '(a, out) := commit true a in
  (a <| aggregation := [] |> <| pushOnBotStopped := false |>, out).

Definition closeTurn (f : AFrame) (a : Assistant) : act :=
  match f with
  | EndF => let '(a, out) := commit false a in (a, out ++ [ReleaseWork])
  | CancelF => let '(a, out) := commit true a in (a, out ++ [ReleaseWork])
  | InterruptionF => commitInterrupted a
  | _ => commit false a
  end.

(** *** Text *)

Definition handleText (t : TextFrame) (original : gostring) (a : Assistant) : Assistant :=
  if negb (AppendToContext t) || bool_decide (fText t = []) then a
  else a <| aggregation ::= fun ps => ps ++ [mkPart original (IncludesInterFrameSpaces t)] |>.

Definition rawOrText (t : TextFrame) (raw : gostring) : gostring := match raw with [] => fText t | _ => raw end.

Definition routeText (f : AFrame) (a : Assistant) : Assistant :=
  match f with
  | LLMText t => handleText t (fText t) a
  | TTSText t raw => handleText t (rawOrText t raw) a
  | AggregatedText t raw => handleText t (rawOrText t raw) a
  | PlainText t => handleText t (fText t) a
  | _ => a
  end.

Definition routeThought (e : env) (f : AFrame) (a : Assistant) : act :=
  match f with
  | LLMThoughtStart toContext l =>
    (a <| thought := [] |> <| thoughtToContext := toContext |> <| thoughtLLM := l |>
       <| thoughtStarted := now e |>, [])
  | LLMThoughtText t inc =>
    (if bool_decide (t = []) then a else a <| thought ::= fun ps => ps ++ [mkPart t inc] |>, [])
  | LLMThoughtEnd signature =>
    let content := Concatenate (thought a) in
    let startedAt := thoughtStarted a in
    let a := a <| thought := [] |> <| thoughtStarted := [] |> in
    (if thoughtToContext a then onContext (fun c => AddMessage c (NewLLMSpecificMessage (thoughtLLM a) (ThoughtMap content signature))) a else a,
     [Thought content startedAt])
  | _ => (a, [])
  end.

Definition handleMarker (m : gostring) (immediate : bool) (a : Assistant) : act :=
  let a := a <| seenMarkers ::= cons m |> in
  if immediate then (onContext (fun c => AddAssistantMessage c m) a, [PushContext Upstream])
  else (a <| aggregation ::= fun ps => ps ++ [mkPart m false] |>, []).

(** *** Tool calls *)

Definition pushContextFrame (a : Assistant) : act :=
  (a <| pushOnBotStopped := false |>, [PushContext Upstream]).

Definition handleFunctionCallsStarted (calls : list ToolCall) (a : Assistant) : Assistant :=
  fold_left (fun a c => a <| inProgress ::= insert (tcID c) None |>) calls a.

Definition handleFunctionCallInProgress (f : InProgressFrame) (a : Assistant) : Assistant :=
  let a := onContext (fun c => AddAssistantToolCall c (mkToolCall (ipID f) (ipName f) (ipArgs f))) a in
  let a := if CancelOnInterruption f
           then onContext (fun c => AddToolResult c (mkToolResult (ipID f) (ipName f) ToolResultInProgress)) a
           else onContext (fun c => AddMessage c (NewAsyncToolStartedMessage (ipID f))) a in
  a <| inProgress ::= insert (ipID f) (Some f) |>.

Definition groupStillRunning (a : Assistant) (group exclude : gostring) : bool :=
  existsb (fun kv : gostring * option InProgressFrame =>
      match kv.2 with
      | Some f => bool_decide (GroupID f = group) && negb (bool_decide (kv.1 = exclude))
      | None => false
      end) (map_to_list (inProgress a)).

Definition shouldRunLLM (a : Assistant) (f : ResultFrame) (group : gostring) : bool :=
  if bool_decide (Result f = []) then false
  else match (match rProps f with Some p => pRunLLM p | None => None end) with
       | Some b => b
       | None => match rRunLLM f with
                 | Some b => b
                 | None => if bool_decide (group = []) then true else negb (groupStillRunning a group (rID f))
                 end
       end.

Definition finishFunctionCall (f : ResultFrame) (started : InProgressFrame) (a : Assistant) : Assistant :=
  let a := a <| inProgress ::= delete (rID f) |> in
  let result := match Result f with [] => toolResultCompleted | r => r end in
  if negb (CancelOnInterruption started)
  then onContext (fun c => AddMessage c (NewAsyncToolFinalMessage (rID f) result)) a
  else onContext (fun c => (UpdateToolResult c (rID f) result).2) a.

Definition recordIntermediateResult (f : ResultFrame) (a : Assistant) : Assistant :=
  if bool_decide (Result f = []) then a
  else onContext (fun c => AddMessage c (NewAsyncToolIntermediateMessage (rID f) (Result f))) a.

Definition maybePushContextAfterFunctionResult (e : env) (a : Assistant) : act :=
  if queuedResult e then (a, [])
  else if botSpeaking a then (a <| pushOnBotStopped := true |>, [])
  else pushContextFrame a.

Definition handleFunctionCallResult (e : env) (f : ResultFrame) (a : Assistant) : act :=
  match inProgress a !! rID f with
  | None | Some None => (a, [])
  | Some (Some started) =>
    let a := if Final (rProps f) then finishFunctionCall f started a else recordIntermediateResult f a in
    let '(a, out) := if shouldRunLLM a f (GroupID started) && negb (userSpeaking a)
                     then maybePushContextAfterFunctionResult e a else (a, []) in
    (a, out ++ (match rProps f with
                | Some p => if OnContextUpdated p then [ContextUpdated] else []
                | None => []
                end))
  end.

Definition handleFunctionCallCancel (e : env) (i : gostring) (runLLM : bool) (a : Assistant) : act :=
  match inProgress a !! i with
  | None => (a, [])
  | Some started =>
    let a := a <| inProgress ::= delete i |> in
    let sync := match started with Some f => CancelOnInterruption f | None => true end in
    let group := match started with Some f => GroupID f | None => [] end in
    let a := if sync then onContext (fun c => (UpdateToolResult c i toolResultCanceled).2) a
             else onContext (fun c => AddMessage c (NewAsyncToolCanceledMessage i)) a in
    if negb runLLM || userSpeaking a then (a, [])
    else if negb (bool_decide (group = [])) && groupStillRunning a group i then (a, [])
    else maybePushContextAfterFunctionResult e a
  end.

Definition handleFunctionCallFrame (e : env) (f : AFrame) (a : Assistant) : act :=
  match f with
  | FunctionCallsStarted calls => (handleFunctionCallsStarted calls a, [])
  | FunctionCallInProgress f => (handleFunctionCallInProgress f a, [])
  | FunctionCallResult f => handleFunctionCallResult e f a
  | FunctionCallCancel i run => handleFunctionCallCancel e i run a
  | _ => (a, [])
  end.

(** *** Who holds the floor *)

Definition pushDeferredContext (a : Assistant) : act :=
  if pushOnBotStopped a && negb (userSpeaking a) then pushContextFrame a else (a, []).

Definition handleSpeakingState (f : AFrame) (a : Assistant) : act :=
  let a := match f with
           | UserStarted => a <| userSpeaking := true |>
           | UserStopped => a <| userSpeaking := false |>
           | BotStarted => a <| botSpeaking := true |>
           | BotStopped => a <| botSpeaking := false |>
           | _ => a
           end in
  let '(a, out) := match f with BotStopped => pushDeferredContext a | _ => (a, []) end in
  (a, Forward f :: out).

(** *** Frames *)

Definition runIf (runLLM : bool) (a : Assistant) : act := (a, if runLLM then [PushContext Upstream] else []).

Definition handleContextUpdate (f : AFrame) (a : Assistant) : option act :=
  match f with
  | MessagesAppend ms run => Some (runIf run (onContext (fun c => fold_left AddMessage ms c) a))
  | MessagesUpdate ms run => Some (runIf run (onContext (fun c => SetMessages c ms) a))
  | MessagesTransform t run => Some (runIf run (onContext (fun c => TransformMessages c t) a))
  | SetToolsF ts =>
    Some (onContext (fun c => SetTools (maybeAddToolChangeMessages (toolChangeMessages a) c ts) ts) a, [])
  | SetToolChoiceF t => Some (onContext (fun c => SetToolChoice c t) a, [])
  | _ => None
  end.

Definition route (e : env) (f : AFrame) (a : Assistant) : act :=
  let forward (r : act) : act := (r.1, r.2 ++ [Forward f]) in
  match f with
  | LLMFullResponseStart => forward (openTurn e a)
  | TTSStarted true => forward (openTurn e a)
  | LLMText _ | TTSText _ _ | AggregatedText _ _ | PlainText _ => forward (routeText f a, [])
  | LLMThoughtStart _ _ | LLMThoughtText _ _ | LLMThoughtEnd _ => routeThought e f a
  | PushAggregation | LLMFullResponseEnd | EndF | CancelF | InterruptionF => forward (closeTurn f a)
  | LLMRun => pushContextFrame a
  | FunctionCallsStarted _ | FunctionCallInProgress _ | FunctionCallResult _ | FunctionCallCancel _ _ =>
    handleFunctionCallFrame e f a
  | UserStarted | UserStopped | BotStarted | BotStopped => handleSpeakingState f a
  | ProposedStart => if userResolvesStarts a then (a, []) else forward (a, [])
  | ProposedStop => if userResolvesStops a then (a, []) else forward (a, [])
  | _ => forward (a, [])
  end.

Definition ProcessFrame (e : env) (f : AFrame) (a : Assistant) : act :=
  match f with
  | LLMMarker m immediate => handleMarker m immediate a
  | _ => match handleContextUpdate f a with
         | Some r => r
         | None => route e f a
         end
  end.

(** A run: each frame with its surroundings. *)
Fixpoint run (fs : list (env * AFrame)) (a : Assistant) : act :=
  match fs with
  | [] => (a, [])
  | (e, f) :: fs =>
    let '(a, o1) := ProcessFrame e f a in
    let '(a, o2) := run fs a in
    (a, o1 ++ o2)
  end.

End Assistant.
