(* ===== verification/AssistantFacts.v ===== *)
(** * AssistantFacts

    What holds of the assistant half of the aggregator pair ([Aggregators.v]): every
    tool call it writes is answered by the message after it, a batch of calls is
    answered by one inference, the turns it reports alternate; and the runs in which a
    result's inference is lost or a canceled call is left in progress. *)

From S2P Require Import Prelude Text Strings Frames TextAgg LlmContext Aggregators.
Import TextAgg LlmContext Aggregators.Assistant.

Local Open Scope Z_scope.

Module AssistantFacts.

(** ** Tool calls are answered *)

(** Every message requesting tool calls is followed at once by one answering each. *)
Fixpoint balanced (ms : list Message) : Prop :=
  match ms with
  | [] => True
  | m :: rest =>
    (forall tc, tc ∈ toolCalls m -> match rest with next :: _ => hasResult (tcID tc) next | [] => False end)
    /\ balanced rest
  end.

Lemma balanced_app ms ks : balanced ms -> balanced ks -> balanced (ms ++ ks).
Proof.
  induction ms as [|m ms IH]; [done|]. intros [H1 H2] Hk. simpl. split; [|by apply IH].
  intros tc Htc. specialize (H1 tc Htc). by destruct ms.
Qed.

Lemma balanced_plain m : toolCalls m = [] -> balanced [m].
Proof. intros E. split; [|done]. rewrite E. by intros tc ?%not_elem_of_nil. Qed.

Lemma balanced_shape ms ks : sameShape ms ks -> balanced ms -> balanced ks.
Proof.
  induction 1 as [|m k ms ks Hm Hs IH]; [done|]. intros [H1 H2]. split; [|by apply IH].
  intros tc. destruct Hm as (_ & _ & E & _). rewrite <- E. intros Htc. specialize (H1 tc Htc).
  destruct Hs as [|n n' ms ks Hn Hs]; [done|]. by rewrite <- (sameMessage_hasResult _ _ _ Hn).
Qed.

Lemma balanced_pair i nm args r : trID r = i ->
  balanced [mkMessage RoleAssistant [] [mkToolCall i nm args] []; mkMessage RoleUser [] [] [r]].
Proof.
  intros Hi. split; [|split; [by intros tc ?%not_elem_of_nil|done]].
  intros tc ->%list_elem_of_singleton. exists r. split; [apply list_elem_of_here|done].
Qed.

(** A frame whose own messages keep the conversation balanced. *)
Definition framesBalanced (f : AFrame) : Prop :=
  match f with
  | MessagesAppend ms _ | MessagesUpdate ms _ => balanced ms
  | MessagesTransform (Some t) _ => forall ms, balanced ms -> balanced (t ms)
  | _ => True
  end.

Definition ctxBalanced (a : Assistant) : Prop := balanced (messages (context a)).

Lemma balanced_add a m : toolCalls m = [] -> ctxBalanced a -> ctxBalanced (onContext (fun c => AddMessage c m) a).
Proof. intros E H. apply balanced_app; [done|by apply balanced_plain]. Qed.

Lemma balanced_update a i content : ctxBalanced a ->
  ctxBalanced (onContext (fun c => (UpdateToolResult c i content).2) a).
Proof. apply balanced_shape. apply UpdateToolResult_shape. Qed.

Lemma balanced_started a f : ctxBalanced a -> ctxBalanced (handleFunctionCallInProgress f a).
Proof.
  intros H. unfold handleFunctionCallInProgress, ctxBalanced in *.
  destruct (CancelOnInterruption f); simpl; rewrite <- app_assoc; (apply balanced_app; [done|]);
    by apply balanced_pair.
Qed.

Lemma context_calls calls a : context (handleFunctionCallsStarted calls a) = context a.
Proof.
  unfold handleFunctionCallsStarted. revert a. induction calls as [|c calls IH]; intros a; [done|].
  simpl. by rewrite IH.
Qed.

Lemma balanced_commit b a : ctxBalanced a -> ctxBalanced (commit b a).1.
Proof.
  intros H. unfold commit, pushAggregation. repeat case_bool_decide; try done;
    repeat case_match; simplify_eq; simpl in *; try done; by apply (balanced_add a).
Qed.

Lemma balanced_maybePush e a : ctxBalanced a -> ctxBalanced (maybePushContextAfterFunctionResult e a).1.
Proof. unfold maybePushContextAfterFunctionResult. by repeat case_match. Qed.

Lemma balanced_result e f a : ctxBalanced a -> ctxBalanced (handleFunctionCallResult e f a).1.
Proof.
  intros H. unfold handleFunctionCallResult. destruct (inProgress a !! rID f) as [[started|]|]; try done.
  assert (ctxBalanced (if Final (rProps f) then finishFunctionCall f started a else recordIntermediateResult f a)) as H1.
  { unfold finishFunctionCall, recordIntermediateResult. repeat case_match; try done;
      first [by apply (balanced_update (a <| inProgress ::= delete (rID f) |>))
            |by apply (balanced_add (a <| inProgress ::= delete (rID f) |>))
            |by apply (balanced_add a)]. }
  destruct (shouldRunLLM _ _ _ && _).
  - pose proof (balanced_maybePush e _ H1) as H2.
    by destruct (maybePushContextAfterFunctionResult e _).
  - done.
Qed.

Lemma balanced_cancel e i r a : ctxBalanced a -> ctxBalanced (handleFunctionCallCancel e i r a).1.
Proof.
  intros H. unfold handleFunctionCallCancel. destruct (inProgress a !! i) as [started|]; [|done].
  set (sync := match started with Some f => _ | None => true end). set (g := match started with Some f => _ | None => [] end).
  set (a1 := if sync then _ else _).
  assert (ctxBalanced a1) as H1.
  { subst a1. destruct sync; [by apply (balanced_update (a <| inProgress ::= delete i |>))
                             |by apply (balanced_add (a <| inProgress ::= delete i |>))]. }
  repeat case_match; try done. by apply balanced_maybePush.
Qed.

Lemma balanced_fold ms c : balanced ms -> balanced (messages c) -> balanced (messages (fold_left AddMessage ms c)).
Proof.
  intros Hm Hc. assert (messages (fold_left AddMessage ms c) = messages c ++ ms) as ->; [|by apply balanced_app].
  clear. revert c. induction ms as [|m ms IH]; intros c; simpl; [by rewrite app_nil_r|].
  rewrite IH. simpl. by rewrite <- app_assoc.
Qed.

Lemma balanced_tools b c ts : balanced (messages c) ->
  balanced (messages (ToolChange.maybeAddToolChangeMessages b c ts)).
Proof.
  intros H. unfold ToolChange.maybeAddToolChangeMessages. repeat case_match; try done;
    (apply balanced_app; [done|by apply balanced_plain]).
Qed.

Lemma balanced_close f a : ctxBalanced a -> ctxBalanced (closeTurn f a).1.
Proof.
  intros H. pose proof (balanced_commit false a H) as H1. pose proof (balanced_commit true a H) as H2.
  unfold closeTurn, commitInterrupted. destruct f; try done;
    destruct (commit false a), (commit true a); done.
Qed.

Lemma balanced_step e f a : framesBalanced f -> ctxBalanced a -> ctxBalanced (ProcessFrame e f a).1.
Proof.
  intros Hf H.
  destruct f; simpl in *; try done; unfold ctxBalanced in *;
    try (unfold openTurn; repeat case_match; done);
    try (unfold handleText; repeat case_match; done);
    try (by apply balanced_commit).
  - case_match; [|done]. simpl. apply balanced_app; [done|by apply balanced_plain].
  - exact (balanced_close EndF a H).
  - exact (balanced_close CancelF a H).
  - exact (balanced_close InterruptionF a H).
  - by rewrite context_calls.
  - by apply balanced_started.
  - by apply balanced_result.
  - by apply balanced_cancel.
  - unfold handleSpeakingState, pushDeferredContext. simpl. by destruct (pushOnBotStopped a && _).
  - unfold handleMarker. case_match; [|done]. by apply (balanced_add (a <| seenMarkers ::= cons marker |>)).
  - by apply balanced_fold.
  - destruct f; [by apply Hf|done].
  - by apply balanced_tools.
Qed.

(** Whatever frames the assistant half handles, in whatever order, every message
    of the conversation that requests tool calls is followed at once by a message
    holding a result for each: a placeholder, a cancellation, the result itself or
    the notice that the call runs on. *)
Theorem tool_calls_answered_in_turn fs a :
  Forall (fun ef => framesBalanced ef.2) fs -> ctxBalanced a -> ctxBalanced (run fs a).1.
Proof.
  intros Hf. revert a. induction Hf as [|[e f] fs Hf _ IH]; intros a H; [done|].
  cbn [run]. pose proof (balanced_step e f a Hf H) as H1.
  destruct (ProcessFrame e f a) as [a1 o1]. specialize (IH a1 H1). by destruct (run fs a1).
Qed.

(** ** A batch is answered once *)

(** The calls of group [g] still running. *)
Definition running (a : Assistant) (g i : gostring) : Prop :=
  exists f, inProgress a !! i = Some (Some f) /\ GroupID f = g.

Lemma groupStillRunning_spec a g i :
  groupStillRunning a g i = true <-> exists j, running a g j /\ j <> i.
Proof.
  unfold groupStillRunning. rewrite existsb_exists. split.
  - intros ([j o] & Hin & H). apply list_elem_of_In, elem_of_map_to_list in Hin. simpl in H.
    destruct o as [f|]; [|done]. apply andb_prop in H as [H1%bool_decide_eq_true H2].
    apply negb_true_iff, bool_decide_eq_false in H2. exists j. split; [by exists f|done].
  - intros (j & (f & Hl & Hg) & Hne). exists (j, Some f). split.
    + by apply list_elem_of_In, elem_of_map_to_list.
    + simpl. rewrite bool_decide_true by done. by rewrite bool_decide_false.
Qed.

(** A frame that settles a call and leaves inference to the batch: a final result
    that says nothing about running the model, or the cancellation of a deadline. *)
Definition settles (i : gostring) (f : AFrame) : Prop :=
  match f with
  | FunctionCallResult r =>
    rID r = i /\ Result r <> [] /\ rRunLLM r = None /\ Final (rProps r) = true
    /\ (forall p, rProps r = Some p -> pRunLLM p = None)
  | FunctionCallCancel j runLLM => j = i /\ runLLM = true
  | _ => False
  end.

Definition silent (a : Assistant) : Prop := userSpeaking a = false /\ botSpeaking a = false.
Definition isPush (o : output) : bool := match o with PushContext _ => true | _ => false end.
Definition pushes (os : list output) : list output := List.filter isPush os.

Lemma pushes_app a b : pushes (a ++ b) = pushes a ++ pushes b.
Proof. apply List.filter_app. Qed.

Lemma settle_step e f i g a :
  settles i f -> silent a -> queuedResult e = false -> g <> [] -> running a g i ->
  let '(a', out) := ProcessFrame e f a in
  silent a' /\ (forall j, running a' g j <-> running a g j /\ j <> i)
  /\ pushes out = (if groupStillRunning a g i then [] else [PushContext Upstream]).
Proof.
  intros Hs [Hu Hb] Hq Hg (f0 & Hl & Hgr).
  assert (forall a', inProgress a' = delete i (inProgress a) ->
    (forall j, running a' g j <-> running a g j /\ j <> i) /\ groupStillRunning a' g i = groupStillRunning a g i) as HR.
  { intros a' Ha'. assert (forall j, running a' g j <-> running a g j /\ j <> i) as R.
    { intros j. unfold running. rewrite Ha'. split.
      - intros (f1 & [Hne Hl1]%lookup_delete_Some & ?). split; [by exists f1|done].
      - intros [(f1 & Hl1 & ?) Hne]. exists f1. split; [by apply lookup_delete_Some|done]. }
    split; [done|]. apply eq_true_iff_eq. rewrite !groupStillRunning_spec. split.
    - intros (j & [? ?]%R & ?). by exists j.
    - intros (j & ? & ?). exists j. split; [by apply R|done]. }
  destruct f; try done; simpl in Hs.
  - destruct Hs as (<- & Hne & Hr & Hf & Hp). simpl. unfold handleFunctionCallResult. rewrite Hl, Hf.
    unfold finishFunctionCall. set (a1 := if negb _ then _ else _).
    assert (inProgress a1 = delete (rID f) (inProgress a) /\ userSpeaking a1 = false /\ botSpeaking a1 = false)
      as (E1 & E2 & E3) by (subst a1; by destruct (CancelOnInterruption f0)).
    destruct (HR a1 E1) as [R1 R2]. unfold shouldRunLLM. rewrite bool_decide_false by done.
    assert (match rProps f with Some p => pRunLLM p | None => None end = None) as ->
      by (destruct (rProps f); [by apply Hp|done]).
    rewrite Hr, Hgr, bool_decide_false by done. rewrite R2, E2. simpl. rewrite andb_true_r.
    destruct (groupStillRunning a g (rID f)); simpl.
    + split_and!; [done..|]. destruct (rProps f) as [p|]; [|done]. by destruct (OnContextUpdated p).
    + unfold maybePushContextAfterFunctionResult. rewrite Hq, E3. simpl. split_and!; [done..|].
      destruct (rProps f) as [p|]; [|done]. by destruct (OnContextUpdated p).
  - destruct Hs as [-> ->]. simpl. unfold handleFunctionCallCancel. rewrite Hl.
    set (a1 := if CancelOnInterruption f0 then _ else _).
    assert (inProgress a1 = delete i (inProgress a) /\ userSpeaking a1 = false /\ botSpeaking a1 = false)
      as (E1 & E2 & E3) by (subst a1; by destruct (CancelOnInterruption f0)).
    destruct (HR a1 E1) as [R1 R2]. rewrite E2, Hgr, bool_decide_false, R2 by done. simpl.
    destruct (groupStillRunning a g i); simpl; [by split_and!|].
    unfold maybePushContextAfterFunctionResult. rewrite Hq, E3. by split_and!.
Qed.

(** The calls of one response are answered by one inference.  With nobody
    speaking and no further result queued, in whatever order they settle, by a result
    or by running out of time, the conversation is pushed to the model exactly once,
    when the last of them has settled. *)
Theorem batch_answered_in_turn a g ids last fs e f :
  silent a -> g <> [] -> NoDup (ids ++ [last]) ->
  (forall j, running a g j <-> j ∈ ids ++ [last]) ->
  Forall2 (fun i ef => settles i ef.2 /\ queuedResult ef.1 = false) ids fs ->
  settles last f -> queuedResult e = false ->
  pushes (run fs a).2 = [] /\ pushes (run (fs ++ [(e, f)]) a).2 = [PushContext Upstream].
Proof.
  intros Hs Hg Hnd Hrun Hfs Hf Hq. revert a Hs Hnd Hrun.
  induction Hfs as [|i [e1 f1] ids fs [Hf1 Hq1] _ IH]; intros a Hs Hnd Hrun.
  - split; [done|]. cbn [run app].
    pose proof (settle_step e f last g a Hf Hs Hq Hg ltac:(apply Hrun; set_solver)) as H.
    destruct (ProcessFrame e f a) as [a' out]. destruct H as (_ & _ & Hp). simpl. rewrite app_nil_r, Hp.
    destruct (groupStillRunning a g last) eqn:E; [|done].
    apply groupStillRunning_spec in E as (j & Hj%Hrun & Hne). set_solver.
  - apply NoDup_cons in Hnd as [Hni Hnd]. cbn [run app].
    pose proof (settle_step e1 f1 i g a Hf1 Hs Hq1 Hg ltac:(apply Hrun; set_solver)) as H.
    destruct (ProcessFrame e1 f1 a) as [a' out]. destruct H as (Hs' & Hr' & Hp).
    assert (groupStillRunning a g i = true) as E.
    { apply groupStillRunning_spec. exists last. split; [apply Hrun; set_solver|]. intros ->.
      apply Hni. set_solver. }
    rewrite E in Hp.
    destruct (IH a' Hs' Hnd) as [I1 I2].
    { intros j. rewrite Hr', Hrun. set_solver. }
    destruct (run fs a') as [a2 o2], (run (fs ++ [(e, f)]) a') as [a3 o3].
    cbn [snd] in *. by rewrite !pushes_app, Hp, I1, I2.
Qed.

(** ** Turns alternate *)

(** Whether the reports, from a state with a turn open or not, alternate, and whether
    one is open at the end. *)
Fixpoint alternates (open : bool) (os : list output) : option bool :=
  match os with
  | [] => Some open
  | TurnStarted :: os => if open then None else alternates true os
  | TurnStopped _ _ _ :: os => if open then alternates false os else None
  | _ :: os => alternates open os
  end.

Lemma alternates_app b os ps : alternates b (os ++ ps) = c ← alternates b os; alternates c ps.
Proof.
  revert b. induction os as [|o os IH]; intros b; [done|]. destruct o; simpl; try done; by destruct b.
Qed.

Definition turnOpen (a : Assistant) : bool := negb (bool_decide (turnStartedAt a = [])).
Definition turnStep (a : Assistant) (r : Assistant * list output) : Prop :=
  alternates (turnOpen a) r.2 = Some (turnOpen r.1).

Lemma alternates_quiet b os : Forall (fun o => match o with TurnStarted | TurnStopped _ _ _ => False | _ => True end) os ->
  alternates b os = Some b.
Proof. induction 1 as [|o os Ho _ IH]; [done|]. by destruct o. Qed.

Lemma turnStep_quiet a r : turnStartedAt r.1 = turnStartedAt a ->
  Forall (fun o => match o with TurnStarted | TurnStopped _ _ _ => False | _ => True end) r.2 -> turnStep a r.
Proof. intros E H. unfold turnStep, turnOpen. rewrite E. by apply alternates_quiet. Qed.

Lemma turnStep_commit b a : turnStep a (commit b a).
Proof.
  unfold turnStep, commit, turnOpen. case_bool_decide as E; [done|].
  unfold pushAggregation. cbn. repeat case_bool_decide; simpl in *; try done.
Qed.

Lemma turnStep_close f a : turnStep a (closeTurn f a).
Proof.
  pose proof (turnStep_commit false a) as H1. pose proof (turnStep_commit true a) as H2.
  unfold closeTurn, commitInterrupted, turnStep in *.
  destruct (commit false a) as [a1 o1], (commit true a) as [a2 o2]. simpl in *.
  destruct f; simpl; rewrite ?alternates_app, ?H1, ?H2; done.
Qed.

Lemma turnStep_forward a r f : turnStep a r -> turnStep a (r.1, r.2 ++ [Forward f]).
Proof. unfold turnStep. simpl. rewrite alternates_app. by intros ->. Qed.

Lemma maybePush_quiet e a : let r := maybePushContextAfterFunctionResult e a in
  turnStartedAt r.1 = turnStartedAt a /\
  Forall (fun o => match o with TurnStarted | TurnStopped _ _ _ => False | _ => True end) r.2.
Proof. unfold maybePushContextAfterFunctionResult. repeat case_match; simpl; split; try done; by repeat constructor. Qed.

Lemma turnStartedAt_calls calls a : turnStartedAt (handleFunctionCallsStarted calls a) = turnStartedAt a.
Proof.
  unfold handleFunctionCallsStarted. revert a. induction calls as [|c calls IH]; intros a; [done|].
  simpl. by rewrite IH.
Qed.

Lemma turnStep_result e f a : turnStep a (handleFunctionCallResult e f a).
Proof.
  apply turnStep_quiet; unfold handleFunctionCallResult;
    (destruct (inProgress a !! rID f) as [[started|]|]; [|by simpl..]);
    set (a1 := if Final (rProps f) then _ else _);
    (assert (turnStartedAt a1 = turnStartedAt a) as E
       by (subst a1; unfold finishFunctionCall, recordIntermediateResult; by repeat case_match));
    pose proof (maybePush_quiet e a1) as [M1 M2]; rewrite E in M1;
    destruct (shouldRunLLM a1 f (GroupID started) && negb (userSpeaking a1)); simpl;
    try (destruct (maybePushContextAfterFunctionResult e a1) as [a2 o2]; simpl in *); try done.
  - apply Forall_app. split; [done|]. repeat case_match; by repeat constructor.
  - repeat case_match; by repeat constructor.
Qed.

Lemma turnStep_cancel e i r a : turnStep a (handleFunctionCallCancel e i r a).
Proof.
  unfold handleFunctionCallCancel. destruct (inProgress a !! i) as [started|]; [|by apply turnStep_quiet].
  set (sync := match started with Some f => _ | None => true end). set (g := match started with Some f => _ | None => [] end).
  set (a1 := if sync then _ else _). assert (turnStartedAt a1 = turnStartedAt a) as E by (subst a1; by destruct sync).
  pose proof (maybePush_quiet e a1) as [M1 M2]. rewrite E in M1.
  destruct (negb r || userSpeaking a1); [by apply turnStep_quiet|].
  destruct (negb _ && _); [by apply turnStep_quiet|]. by apply turnStep_quiet.
Qed.

Lemma turnStep_open e a : now e <> [] -> turnStep a (openTurn e a).
Proof.
  intros Hn. unfold openTurn, turnStep, turnOpen. case_bool_decide as E; simpl.
  - by rewrite bool_decide_false.
  - by rewrite bool_decide_false.
Qed.

Lemma turnStep_frame e f a : now e <> [] -> turnStep a (ProcessFrame e f a).
Proof.
  intros Hn. destruct f; simpl; try (by apply turnStep_quiet; repeat constructor);
    try (by apply turnStep_forward, turnStep_open);
    try (apply (turnStep_forward a (commit _ a)), turnStep_commit).
  - destruct appendToContext; [by apply turnStep_forward, turnStep_open|by apply turnStep_quiet; repeat constructor].
  - apply turnStep_quiet; [unfold handleText; by repeat case_match|by repeat constructor].
  - apply turnStep_quiet; [unfold handleText; by repeat case_match|by repeat constructor].
  - apply turnStep_quiet; [unfold handleText; by repeat case_match|by repeat constructor].
  - apply turnStep_quiet; [unfold handleText; by repeat case_match|by repeat constructor].
  - apply turnStep_quiet; [by repeat case_match|by repeat constructor].
  - apply turnStep_quiet; [by repeat case_match|by repeat constructor].
  - apply (turnStep_forward a (closeTurn EndF a)), turnStep_close.
  - apply (turnStep_forward a (closeTurn CancelF a)), turnStep_close.
  - apply (turnStep_forward a (closeTurn InterruptionF a)), turnStep_close.
  - apply turnStep_quiet; [apply turnStartedAt_calls|done].
  - apply turnStep_quiet; [unfold handleFunctionCallInProgress; by case_match|done].
  - apply turnStep_result.
  - apply turnStep_cancel.
  - unfold handleSpeakingState, pushDeferredContext. simpl.
    destruct (pushOnBotStopped a && _); by apply turnStep_quiet; repeat constructor.
  - case_match; by apply turnStep_quiet; repeat constructor.
  - case_match; by apply turnStep_quiet; repeat constructor.
  - unfold handleMarker. case_match; by apply turnStep_quiet; repeat constructor.
  - destruct runLLM; by apply turnStep_quiet; repeat constructor.
  - destruct runLLM; by apply turnStep_quiet; repeat constructor.
  - destruct runLLM; by apply turnStep_quiet; repeat constructor.
Qed.

(** C18: The bot's turns are reported in order: whatever the frames, a turn is reported
    stopped only after it was reported started and before the next one is, and a turn
    is open at the end exactly when the last report is of one starting. *)
Theorem assistant_turns_alternate fs a :
  Forall (fun ef => now ef.1 <> []) fs -> turnStep a (run fs a).
Proof.
  intros Hf. revert a. induction Hf as [|[e f] fs Hf _ IH]; intros a; [by unfold turnStep|].
  cbn [run]. pose proof (turnStep_frame e f a Hf) as H. destruct (ProcessFrame e f a) as [a1 o1].
  specialize (IH a1). destruct (run fs a1) as [a2 o2]. unfold turnStep in *. simpl in *.
  by rewrite alternates_app, H.
Qed.

(** ** Schedules in which a result is not answered *)

Definition b (s : string) : gostring := bytes_of s.
Definition quiet : env := mkEnv (b "t") false.
Definition queued : env := mkEnv (b "t") true.
Definition fresh : Assistant := newAssistant (NewLLMContext []) false false false.

Definition callFrame (i g : string) : AFrame :=
  FunctionCallInProgress (mkInProgress (b i) (b "tool") [] true (b g)).
Definition resultFrame (i : string) : AFrame := FunctionCallResult (mkResult (b i) (b "tool") (b "ok") None None).
Definition say (s : string) : AFrame := LLMText (mkTextFrame (b s) true true).

Definition upstream (os : list output) : nat :=
  List.length (List.filter (fun o => match o with PushContext Upstream => true | _ => false end) os).

(** A result that arrives while the bot is speaking can go unanswered: the end of
    the response, committed while the bot still speaks, drops the deferred run,
    though the conversation it pushes goes downstream, away from the model.  Without
    that frame the result is answered when the bot stops. *)
Theorem deferred_run_lost :
  let prefix := [callFrame "x" "g"; LLMFullResponseStart; say "One moment."; BotStarted; resultFrame "x"] in
  upstream (run (List.map (pair quiet) (prefix ++ [BotStopped])) fresh).2 = 1%nat
  /\ upstream (run (List.map (pair quiet) (prefix ++ [LLMFullResponseEnd; BotStopped])) fresh).2 = 0%nat.
Proof. split; vm_compute; reflexivity. Qed.

(** A batch's last result can go unanswered when a result of another batch is
    queued behind it: the push is left to that one, which does not make it while its
    own batch is still running. *)
Theorem result_push_lost :
  upstream (run [(quiet, callFrame "x" "g"); (quiet, callFrame "y" "h"); (quiet, callFrame "z" "h");
                 (queued, resultFrame "x"); (quiet, resultFrame "y")] fresh).2 = 0%nat
  /\ upstream (run [(quiet, callFrame "x" "g"); (quiet, callFrame "y" "h"); (quiet, callFrame "z" "h");
                    (quiet, resultFrame "x"); (quiet, resultFrame "y")] fresh).2 = 1%nat.
Proof. split; vm_compute; reflexivity. Qed.

(** A cancellation, a system frame, can overtake the control frame that starts its
    call: it finds nothing to mark, and the call is then written as in progress and
    tracked as running, with nothing left to settle it. *)
Theorem canceled_call_left_in_progress :
  let r := run (List.map (pair quiet)
             [FunctionCallsStarted [mkToolCall (b "x") (b "tool") []]; FunctionCallCancel (b "x") false;
              callFrame "x" "g"]) fresh in
  HasFunctionCallsInProgress r.1 = true
  /\ List.map (fun m => List.map trContent (toolResults m)) (messages (context r.1))
     = [[]; [ToolResultInProgress]].
Proof. split; vm_compute; reflexivity. Qed.

(** ** Instances of the theorems *)

Lemma tool_calls_answered_in_turn_witness :
  ctxBalanced fresh /\
  ctxBalanced (run (List.map (pair quiet) [callFrame "x" "g"; say "Hm."; resultFrame "x"]) fresh).1.
Proof.
  assert (ctxBalanced fresh) as H by exact I. split; [exact H|].
  apply (tool_calls_answered_in_turn (List.map (pair quiet) [callFrame "x" "g"; say "Hm."; resultFrame "x"]) fresh);
    [repeat constructor|exact H].
Defined.

Lemma batch_answered_in_turn_witness :
  let a := (run (List.map (pair quiet) [callFrame "x" "g"; callFrame "y" "g"]) fresh).1 in
  pushes (run [(quiet, FunctionCallCancel (b "y") true)] a).2 = [] /\
  pushes (run [(quiet, FunctionCallCancel (b "y") true); (quiet, resultFrame "x")] a).2 = [PushContext Upstream].
Proof.
  apply (batch_answered_in_turn (run (List.map (pair quiet) [callFrame "x" "g"; callFrame "y" "g"]) fresh).1
           (b "g") [b "y"] (b "x") [(quiet, FunctionCallCancel (b "y") true)] quiet (resultFrame "x")).
  - split; reflexivity.
  - discriminate.
  - apply (bool_decide_unpack _). reflexivity.
  - intros j. unfold running.
    change (inProgress (run (List.map (pair quiet) [callFrame "x" "g"; callFrame "y" "g"]) fresh).1)
      with (<[b "y" := Some (mkInProgress (b "y") (b "tool") [] true (b "g"))]>
             (<[b "x" := Some (mkInProgress (b "x") (b "tool") [] true (b "g"))]> (∅ : gmap gostring (option InProgressFrame)))).
    assert (b "x" <> b "y") as Hne by discriminate.
    split.
    + intros (f & Hl & _). apply lookup_insert_Some in Hl as [[Heq _]|[_ Hl]]; [subst j; set_solver|].
      apply lookup_insert_Some in Hl as [[Heq _]|[_ Hl]]; [subst j; set_solver|].
      by rewrite lookup_empty in Hl.
    + intros [->%list_elem_of_singleton | ->%list_elem_of_singleton]%elem_of_app.
      * exists (mkInProgress (b "y") (b "tool") [] true (b "g")). by rewrite lookup_insert_eq.
      * exists (mkInProgress (b "x") (b "tool") [] true (b "g")).
        rewrite lookup_insert_ne by done. by rewrite lookup_insert_eq.
  - repeat constructor.
  - repeat split; discriminate.
  - reflexivity.
Defined.

Lemma assistant_turns_alternate_witness :
  turnStep fresh (run (List.map (pair quiet) [LLMFullResponseStart; say "Hi."; LLMFullResponseEnd]) fresh).
Proof. apply assistant_turns_alternate. repeat constructor; discriminate. Defined.

End AssistantFacts.
