(* ===== verification/AssistantRuns.v ===== *)
(** * Tool calls in the assistant aggregator, section by section

    The handlers of [handleFunctionCallFrame] ([src/processor/aggregators/aggregators.go])
    take the aggregator's lock and the conversation's several times each, and run on
    two goroutines: a call that begins and a result on the one that handles the
    queued frames, an announcement and a cancellation on the one that handles the
    system frames.  Here each critical section is a step, the two goroutines take
    theirs in any order, and whatever else shares the conversation goes in between.
    [Aggregators.v] has the handlers as they run with nothing in between; the lemmas
    [alone_started], [alone_result] and [alone_cancel] say that it does. *)

From S2P Require Import Prelude Text Strings Frames TextAgg LlmContext Aggregators AssistantFacts.
Import TextAgg LlmContext Aggregators.Assistant AssistantFacts.



Module AssistantRuns.

(** What a goroutine has to do next.  [k] is the result whose callback is to be told
    once the rest is done, if there is one. *)
Inductive task :=
(* handleFunctionCallInProgress *)
| Request (f : InProgressFrame)
| Answer (f : InProgressFrame)
| Track (f : InProgressFrame)
(* handleFunctionCallResult *)
| LookUp (f : ResultFrame)
| Forget (f : ResultFrame) (started : InProgressFrame)
| WriteResult (f : ResultFrame) (started : InProgressFrame)
| Intermediate (f : ResultFrame) (started : InProgressFrame)
| Decide (f : ResultFrame) (group : gostring)
| AskUser (f : ResultFrame)
| Updated
(* handleFunctionCallCancel *)
| Take (i : gostring) (runLLM : bool)
| WriteCancel (i : gostring) (sync : bool) (group : gostring) (runs : bool)
| DecideCancel (i group : gostring)
(* maybePushContextAfterFunctionResult *)
| AskQueue (k : option ResultFrame)
| AskBot (k : option ResultFrame)
| ClearDeferred (k : option ResultFrame)
| Push (k : option ResultFrame).

(** What is left of a result's handler once the model was run or not. *)
Definition after (k : option ResultFrame) : option task :=
  match k with
  | Some f => match rProps f with Some p => if OnContextUpdated p then Some Updated else None | None => None end
  | None => None
  end.

(** One section: what is left to do, the aggregator, and what comes out. *)
Definition exec (e : env) (t : task) (a : Assistant) : option task * Assistant * list output :=
  match t with
  | Request f =>
    (Some (Answer f), onContext (fun c => AddAssistantToolCall c (mkToolCall (ipID f) (ipName f) (ipArgs f))) a, [])
  | Answer f =>
    (Some (Track f),
     if CancelOnInterruption f
     then onContext (fun c => AddToolResult c (mkToolResult (ipID f) (ipName f) ToolResultInProgress)) a
     else onContext (fun c => AddMessage c (NewAsyncToolStartedMessage (ipID f))) a, [])
  | Track f => (None, a <| inProgress ::= insert (ipID f) (Some f) |>, [])
  | LookUp f =>
    (match inProgress a !! rID f with
     | Some (Some started) => Some (if Final (rProps f) then Forget f started else Intermediate f started)
     | _ => None
     end, a, [])
  | Forget f started => (Some (WriteResult f started), a <| inProgress ::= delete (rID f) |>, [])
  | WriteResult f started =>
    let result := match Result f with [] => toolResultCompleted | r => r end in
    (Some (Decide f (GroupID started)),
     if negb (CancelOnInterruption started)
     then onContext (fun c => AddMessage c (NewAsyncToolFinalMessage (rID f) result)) a
     else onContext (fun c => (UpdateToolResult c (rID f) result).2) a, [])
  | Intermediate f started => (Some (Decide f (GroupID started)), recordIntermediateResult f a, [])
  | Decide f group => (if shouldRunLLM a f group then Some (AskUser f) else after (Some f), a, [])
  | AskUser f => (if userSpeaking a then after (Some f) else Some (AskQueue (Some f)), a, [])
  | Updated => (None, a, [ContextUpdated])
  | Take i runLLM =>
    match inProgress a !! i with
    | None => (None, a, [])
    | Some started =>
      (Some (WriteCancel i (match started with Some f => CancelOnInterruption f | None => true end)
               (match started with Some f => GroupID f | None => [] end) (runLLM && negb (userSpeaking a))),
       a <| inProgress ::= delete i |>, [])
    end
  | WriteCancel i sync group runs =>
    (if runs then Some (DecideCancel i group) else None,
     if sync then onContext (fun c => (UpdateToolResult c i toolResultCanceled).2) a
     else onContext (fun c => AddMessage c (NewAsyncToolCanceledMessage i)) a, [])
  | DecideCancel i group =>
    (if negb (bool_decide (group = [])) && groupStillRunning a group i then None else Some (AskQueue None), a, [])
  | AskQueue k => (if queuedResult e then after k else Some (AskBot k), a, [])
  | AskBot k => if botSpeaking a then (after k, a <| pushOnBotStopped := true |>, []) else (Some (ClearDeferred k), a, [])
  | ClearDeferred k => (Some (Push k), a <| pushOnBotStopped := false |>, [])
  | Push k => (after k, a, [PushContext Upstream])
  end.

(** A handler run with nothing in between. *)
Fixpoint alone (n : nat) (e : env) (t : task) (a : Assistant) : option task * Assistant * list output :=
  match n with
  | O => (Some t, a, [])
  | S n =>
    match exec e t a with
    | (Some t', a, out) => let '(r, a, out') := alone n e t' a in (r, a, out ++ out')
    | r => r
    end
  end.

(** No handler has more than ten sections. *)
Definition handled (e : env) (t : task) (a : Assistant) : act :=
  let '(_, a, out) := alone 10 e t a in (a, out).

Lemma alone_started e f a : handled e (Request f) a = (handleFunctionCallInProgress f a, []).
Proof. unfold handled, handleFunctionCallInProgress. simpl. by destruct (CancelOnInterruption f). Qed.

(** Run sections whose conditions are known. *)
Ltac sections :=
  repeat (progress (cbn [alone exec after]; unfold shouldRunLLM;
    repeat match goal with H : ?x = _ |- context [?x] => rewrite H end)).

Lemma alone_rest n e k a :
  (4 < n)%nat -> (let '(_, a, out) := alone n e (AskQueue k) a in (a, out)) =
    let '(a, out) := maybePushContextAfterFunctionResult e a in
    (a, out ++ match after k with Some _ => [ContextUpdated] | None => [] end).
Proof.
  intros Hn. do 5 (destruct n as [|n]; [lia|]). unfold maybePushContextAfterFunctionResult, pushContextFrame, after.
  destruct k as [f|]; [destruct (rProps f) as [p|] eqn:Ep; [destruct (OnContextUpdated p) eqn:Eo|]|];
    (destruct (queuedResult e) eqn:Eq; [|destruct (botSpeaking a) eqn:Eb]); unfold after; sections; reflexivity.
Qed.

(** What a result's handler does once it is written. *)
Definition ruled (e : env) (f : ResultFrame) (group : gostring) (a : Assistant) : act :=
  let '(a, out) := if shouldRunLLM a f group && negb (userSpeaking a)
                   then maybePushContextAfterFunctionResult e a else (a, []) in
  (a, out ++ (match rProps f with Some p => if OnContextUpdated p then [ContextUpdated] else [] | None => [] end)).

Lemma alone_decide n e f group a :
  (6 < n)%nat -> (let '(_, a, out) := alone n e (Decide f group) a in (a, out)) = ruled e f group a.
Proof.
  intros Hn. do 2 (destruct n as [|n]; [lia|]). unfold ruled.
  pose proof (alone_rest n e (Some f) a ltac:(lia)) as H. destruct n as [|n]; [lia|].
  set (m := S n) in *. cbn [alone exec]. unfold after in *.
  assert (forall a, (let '(_, a, out) := alone m e Updated a in (a, out)) = (a, [ContextUpdated])) as Hu by done.
  destruct (shouldRunLLM a f group) eqn:Es; cbn [andb alone exec]; unfold after.
  - destruct (userSpeaking a); cbn [andb negb].
    + destruct (rProps f) as [p|]; [|done]. destruct (OnContextUpdated p); [|done]. specialize (Hu a).
      by destruct (alone m e Updated a) as [[r a1] o1].
    + destruct (alone m e (AskQueue (Some f)) a) as [[r a1] o1], (maybePushContextAfterFunctionResult e a) as [a2 o2].
      injection H as -> ->. destruct (rProps f) as [p|]; [|done]. by destruct (OnContextUpdated p).
  - destruct (rProps f) as [p|]; [|done]. destruct (OnContextUpdated p); reflexivity.
Qed.

Lemma alone_result e f a : handled e (LookUp f) a = handleFunctionCallResult e f a.
Proof.
  unfold handled, handleFunctionCallResult.
  pose proof (fun g a => alone_decide 7 e f g a ltac:(lia)) as H7. pose proof (fun g a => alone_decide 8 e f g a ltac:(lia)) as H8.
  set (m := 7%nat) in *. change 10%nat with (S (S (S m))). change 8%nat with (S m) in H8. cbn [alone exec].
  destruct (inProgress a !! rID f) as [[started|]|]; [|done..]. unfold ruled in *.
  destruct (Final (rProps f)).
  - cbn [exec]. specialize (H7 (GroupID started)). unfold finishFunctionCall. rewrite <- H7.
    by destruct (alone m e (Decide f (GroupID started)) _) as [[r a1] o1].
  - cbn [exec]. specialize (H8 (GroupID started)). rewrite <- H8.
    change (alone (S m) e (Decide f (GroupID started)) (recordIntermediateResult f a)) with
      (match exec e (Decide f (GroupID started)) (recordIntermediateResult f a) with
       | (Some t', a, out) => let '(r, a, out') := alone m e t' a in (r, a, out ++ out')
       | r => r end). cbn [exec].
    by repeat (case_match; simplify_eq).
Qed.

Lemma alone_cancel e i r a : handled e (Take i r) a = handleFunctionCallCancel e i r a.
Proof.
  unfold handled, handleFunctionCallCancel. pose proof (fun a => alone_rest 7 e None a ltac:(lia)) as H.
  set (m := 7%nat) in *. change 10%nat with (S (S (S m))). cbn [alone exec].
  destruct (inProgress a !! i) as [started|]; [|done]. cbn [alone exec].
  set (g := match started with Some f => GroupID f | None => [] end).
  set (sync := match started with Some f => CancelOnInterruption f | None => true end).
  set (a1 := if sync then _ else _).
  assert (userSpeaking a1 = userSpeaking a) as Ea by (by subst a1; destruct sync).
  destruct (userSpeaking a); rewrite Ea; destruct r; cbn [andb orb negb alone exec]; try done.
  fold a1. destruct (negb (bool_decide (g = [])) && groupStillRunning a1 g i); [done|].
  specialize (H a1). destruct (alone m e (AskQueue None) a1) as [[r a2] o2], (maybePushContextAfterFunctionResult e a1).
  simpl in H. rewrite app_nil_r in H. injection H as -> ->. done.
Qed.

(** ** The two goroutines *)

Record config := mkConfig {
  asst : Assistant;
  proc : option task;      (** the goroutine of the queued frames *)
  input : option task;     (** the goroutine of the system frames *)
  (* what happened *)
  outs : list output;
  overlapped : bool;       (** a handler began while the other goroutine was in one *)
  intruded : bool          (** a message was put between a request and its answer *)
}.
#[export] Instance eta_config : Eta config := fun c =>
  mkConfig (asst c) (proc c) (input c) (outs c) (overlapped c) (intruded c).

Definition conversation (c : config) : list Message := messages (context (asst c)).

(** The call whose request is written and whose answer is not. *)
Definition pending (c : config) : option gostring :=
  match proc c with Some (Answer f) => Some (ipID f) | _ => None end.

(** Every tool call requested, but for one, is answered further on. *)
Definition answeredBut (p : option gostring) (ms : list Message) : Prop :=
  forall k m tc, ms !! k = Some m -> tc ∈ toolCalls m ->
    p = Some (tcID tc) \/ exists j n, k < j /\ ms !! j = Some n /\ hasResult (tcID tc) n.

Inductive event :=
| Begin (t : task)
| Run (e : env)
| Announce (calls : list ToolCall)
| Other.

Definition crowd (c : config) (a : Assistant) : bool :=
  bool_decide (is_Some (pending c)) && negb (Nat.eqb (length (messages (context a))) (length (conversation c))).

(** Whatever else shares the conversation or the aggregator: messages without tool
    calls are appended, or results rewritten in place; who holds the floor changes,
    and the turn.  The calls in progress are the handlers' alone. *)
Definition others (c : config) (a : Assistant) : Prop :=
  inProgress a = inProgress (asst c) /\
  ((exists ms, messages (context a) = conversation c ++ ms /\ Forall (fun m => toolCalls m = []) ms) \/
   sameShape (conversation c) (messages (context a))).

(** The conversation is put in place of another, which has its calls answered (but
    for the one whose answer is being written). *)
Definition replaced (c : config) (a : Assistant) : Prop :=
  inProgress a = inProgress (asst c) /\
  match pending c with
  | None => balanced (messages (context a))
  | p => answeredBut p (messages (context a))
  end.

Inductive step : event -> config -> config -> Prop :=
| s_proc t c : proc c = None -> (match t with Request _ | LookUp _ => True | _ => False end) ->
    step (Begin t) c (c <| proc := Some t |> <| overlapped ::= orb (bool_decide (is_Some (input c))) |>)
| s_input t c : input c = None -> (match t with Take _ _ => True | _ => False end) ->
    step (Begin t) c (c <| input := Some t |> <| overlapped ::= orb (bool_decide (is_Some (proc c))) |>)
| s_announce calls c : input c = None ->
    step (Announce calls) c (c <| asst ::= handleFunctionCallsStarted calls |>)
| s_run_proc e t r a out c : proc c = Some t -> exec e t (asst c) = (r, a, out) ->
    step (Run e) c (c <| asst := a |> <| proc := r |> <| outs ::= fun l => l ++ out |>)
| s_run_input e t r a out c : input c = Some t -> exec e t (asst c) = (r, a, out) ->
    step (Run e) c (c <| asst := a |> <| input := r |> <| outs ::= fun l => l ++ out |>
      <| intruded ::= orb (crowd c a) |>)
| s_other a c : others c a ->
    step Other c (c <| asst := a |> <| intruded ::= orb (crowd c a) |>)
| s_replace a c : replaced c a ->
    step Other c (c <| asst := a |> <| intruded ::= orb (bool_decide (is_Some (pending c))) |>).

Definition anystep (c c' : config) : Prop := exists v, step v c c'.

Definition start (a : Assistant) : config := mkConfig a None None [] false false.

(** ** Every request is answered *)

Lemma answered_app p ms ks : answeredBut p ms -> answeredBut p ks -> answeredBut p (ms ++ ks).
Proof.
  intros H1 H2 k m tc [Hk|[Hle Hk]]%lookup_app_Some Htc.
  - destruct (H1 _ _ _ Hk Htc) as [?|(j & n & Hj & Hn & Hr)]; [by left|right]. exists j, n.
    split; [done|]. split; [by apply lookup_app_l_Some|done].
  - destruct (H2 _ _ _ Hk Htc) as [?|(j & n & Hj & Hn & Hr)]; [by left|right]. exists (length ms + j), n.
    split; [lia|]. split; [|done]. rewrite lookup_app_r by lia. rewrite <- Hn. f_equal. lia.
Qed.

Lemma answered_plain p ms : Forall (fun m => toolCalls m = []) ms -> answeredBut p ms.
Proof.
  intros H k m tc Hk Htc. pose proof (Forall_lookup_1 _ _ _ _ H Hk) as E. simpl in E. rewrite E in Htc. by apply elem_of_nil in Htc.
Qed.

Lemma answered_shape p ms ks : sameShape ms ks -> answeredBut p ms -> answeredBut p ks.
Proof.
  intros Hs H k m tc Hk Htc. destruct (Forall2_lookup_r _ _ _ _ _ Hs Hk) as (m0 & Hk0 & (_ & _ & E & _)).
  rewrite <- E in Htc. destruct (H _ _ _ Hk0 Htc) as [?|(j & n & Hj & Hn & Hr)]; [by left|right].
  destruct (Forall2_lookup_l _ _ _ _ _ Hs Hn) as (n' & Hn' & Hm). exists j, n'. split; [done|]. split; [done|].
  by apply (sameMessage_hasResult _ _ _ Hm).
Qed.

Lemma balanced_answered p ms : balanced ms -> answeredBut p ms.
Proof.
  induction ms as [|m ms IH]; intros H; [by intros k m tc Hk; rewrite lookup_nil in Hk|]. destruct H as [H1 H2].
  intros [|k] m' tc Hk Htc.
  - injection Hk as <-. right. specialize (H1 tc Htc). destruct ms as [|n ms]; [done|]. exists 1, n. by split; [lia|].
  - destruct (IH H2 k m' tc Hk Htc) as [?|(j & n & Hj & Hn & Hr)]; [by left|right]. exists (S j), n. by split; [lia|].
Qed.

(** While the answer to a request is missing, and nothing came between, the request
    is the last message. *)
Definition adjacent (p : option gostring) (ms : list Message) : Prop :=
  match p with
  | None => balanced ms
  | Some i => exists ms0 m, ms = ms0 ++ [m] /\ balanced ms0 /\ forall tc, tc ∈ toolCalls m -> tcID tc = i
  end.

Lemma adjacent_shape p ms ks : sameShape ms ks -> adjacent p ms -> adjacent p ks.
Proof.
  destruct p as [i|]; simpl; [|apply balanced_shape].
  intros Hs (ms0 & m & -> & Hb & Hm). apply Forall2_app_inv_l in Hs as (ks0 & l & Hs & Hl & ->).
  apply Forall2_cons_inv_l in Hl as (k & l' & Hk & Hl & ->). apply Forall2_nil_inv_l in Hl as ->.
  exists ks0, k. split; [done|]. split; [by eapply balanced_shape|]. intros tc. destruct Hk as (_ & _ & <- & _). apply Hm.
Qed.

(** The two sections that write a request and its answer. *)
Definition writes (t : task) : bool := match t with Request _ | Answer _ => true | _ => false end.
Definition mute (o : option task) : Prop := match o with Some t => writes t = false | None => True end.

Definition kept (c : config) : Prop :=
  mute (input c) /\ answeredBut (pending c) (conversation c) /\
  (intruded c = false -> adjacent (pending c) (conversation c)).

(** How any other leaves the conversation. *)
Lemma exec_shape e t r a a' out :
  writes t = false -> exec e t a = (r, a', out) ->
  mute r /\
  ((exists l, messages (context a') = messages (context a) ++ l /\ Forall (fun m => toolCalls m = []) l) \/
   sameShape (messages (context a)) (messages (context a'))).
Proof.
  assert (forall k, mute (after k)) as Ha by (intros [f|]; unfold after; by repeat case_match).
  intros Ht He. destruct t; simpl in He; try done.
  - injection He as <- <- <-. split; [done|]. right. reflexivity.
  - injection He as <- <- <-. split; [destruct (inProgress a !! rID f) as [[?|]|]; [by destruct (Final (rProps f))|done..]|]. right. reflexivity.
  - injection He as <- <- <-. split; [done|]. right. reflexivity.
  - injection He as <- <- <-. split; [done|]. destruct (CancelOnInterruption started); simpl.
    + right. apply UpdateToolResult_shape.
    + left. eexists. split; [reflexivity|by repeat constructor].
  - injection He as <- <- <-. split; [done|]. unfold recordIntermediateResult. case_bool_decide; [right; reflexivity|].
    left. eexists. split; [reflexivity|by repeat constructor].
  - injection He as <- <- <-. split; [destruct (shouldRunLLM a f group); [done|exact (Ha (Some f))]|right; reflexivity].
  - injection He as <- <- <-. split; [destruct (userSpeaking a); [exact (Ha (Some f))|done]|right; reflexivity].
  - injection He as <- <- <-. split; [done|]. right. reflexivity.
  - destruct (inProgress a !! i); injection He as <- <- <-; (split; [done|]); right; reflexivity.
  - injection He as <- <- <-. split; [by destruct runs|]. destruct sync; simpl.
    + right. apply UpdateToolResult_shape.
    + left. eexists. split; [reflexivity|by repeat constructor].
  - injection He as <- <- <-. split; [by destruct (_ && _)|]. right. reflexivity.
  - injection He as <- <- <-. split; [destruct (queuedResult e); [exact (Ha k)|done]|]. right. reflexivity.
  - destruct (botSpeaking a); injection He as <- <- <-; (split; [first [done|exact (Ha k)]|]); right; reflexivity.
  - injection He as <- <- <-. split; [done|]. right. reflexivity.
  - injection He as <- <- <-. split; [exact (Ha k)|]. right. reflexivity.
Qed.

Lemma kept_change p ms ks (i : bool) :
  answeredBut p ms -> (i = false -> adjacent p ms) ->
  (exists l, ks = ms ++ l /\ Forall (fun m => toolCalls m = []) l) \/ sameShape ms ks ->
  answeredBut p ks /\
  ((bool_decide (is_Some p) && negb (Nat.eqb (length ks) (length ms))) || i = false -> adjacent p ks).
Proof.
  intros H1 H2 [(l & -> & Hl)|Hs]; [|split; [by eapply answered_shape|intros [_ Hi]%orb_false_iff; eapply adjacent_shape; eauto]].
  - split; [by apply answered_app; [|apply answered_plain]|]. intros [Hc Hi]%orb_false_iff. specialize (H2 Hi).
    destruct p as [j|].
    + rewrite bool_decide_eq_true_2 in Hc by done. simpl in Hc. apply negb_false_iff, Nat.eqb_eq in Hc.
      rewrite length_app in Hc. destruct l; [by rewrite app_nil_r|simpl in Hc; lia].
    + simpl. apply balanced_app; [done|]. clear -Hl. induction Hl as [|m l Hm _ IH]; [done|].
      split; [|done]. rewrite Hm. by intros tc ?%elem_of_nil.
Qed.

Lemma kept_request e f r a a' out i :
  exec e (Request f) a = (r, a', out) -> answeredBut None (messages (context a)) ->
  (i = false -> adjacent None (messages (context a))) ->
  answeredBut (match r with Some (Answer f) => Some (ipID f) | _ => None end) (messages (context a')) /\
  (i = false -> adjacent (match r with Some (Answer f) => Some (ipID f) | _ => None end) (messages (context a'))).
Proof.
  intros [= <- <- <-] H1 H2. simpl. split.
  - apply answered_app; [by intros k m tc Hk Htc; destruct (H1 k m tc Hk Htc); [done|right]|].
    intros [|k] m tc Hk Htc; [|done]. injection Hk as <-. apply list_elem_of_singleton in Htc as ->. by left.
  - intros Hn. exists (messages (context a)), (mkMessage RoleAssistant [] [mkToolCall (ipID f) (ipName f) (ipArgs f)] []).
    split; [done|]. split; [by apply H2|]. by intros tc ->%list_elem_of_singleton.
Qed.

Lemma kept_answer e f r a a' out i :
  exec e (Answer f) a = (r, a', out) -> answeredBut (Some (ipID f)) (messages (context a)) ->
  (i = false -> adjacent (Some (ipID f)) (messages (context a))) ->
  answeredBut (match r with Some (Answer f) => Some (ipID f) | _ => None end) (messages (context a')) /\
  (i = false -> adjacent (match r with Some (Answer f) => Some (ipID f) | _ => None end) (messages (context a'))).
Proof.
  intros He H1 H2.
  assert (r = Some (Track f) /\ exists x r0, messages (context a') = messages (context a) ++ [x] /\ toolCalls x = [] /\
    r0 ∈ toolResults x /\ trID r0 = ipID f) as (-> & x & r0 & -> & Hx & Hr & Hid).
  { injection He as <- <- <-. split; [done|]. destruct (CancelOnInterruption f); simpl; do 2 eexists; (split; [reflexivity|]);
      (split; [done|]); (split; [apply list_elem_of_here|done]). }
  split.
  - intros k m tc [Hk|[Hle Hk]]%lookup_app_Some Htc.
    + right. destruct (H1 k m tc Hk Htc) as [[= Hj]|(j & n & Hj & Hn & Hres)].
      * exists (length (messages (context a))), x. split; [by eapply lookup_lt_Some|].
        split; [by rewrite lookup_app_r, Nat.sub_diag by lia|]. exists r0. by rewrite <- Hj.
      * exists j, n. split; [done|]. split; [by apply lookup_app_l_Some|done].
    + destruct (k - _) as [|?]; [|done]. injection Hk as <-. rewrite Hx in Htc. by apply elem_of_nil in Htc.
  - intros Hn. destruct (H2 Hn) as (ms0 & m & E & Hb & Hm). rewrite E, <- app_assoc. apply balanced_app; [done|].
    split; [|split; [rewrite Hx; by intros tc ?%elem_of_nil|done]]. intros tc Htc. exists r0. by rewrite (Hm tc Htc).
Qed.

Lemma kept_step v c c' : step v c c' -> kept c -> kept c'.
Proof.
  unfold kept, pending, conversation.
  destruct 1 as [t c Hp Ht|t c Hi Ht|calls c Hi|e t r a out c Hp He|e t r a out c Hi He|a c (E & Ho)|a c (E & Ho)]; intros (H0 & H1 & H2); simpl.
  - rewrite Hp in *. by destruct t.
  - split; [by destruct t|done].
  - by rewrite context_calls.
  - split; [done|]. rewrite Hp in *. destruct (writes t) eqn:Ew.
    + destruct t; try done; [by eapply kept_request|by eapply kept_answer].
    + assert (match t with Answer f => Some (ipID f) | _ => None end = None) as Et by (by destruct t). rewrite Et in *.
      destruct (exec_shape _ _ _ _ _ _ Ew He) as [Hr Hs].
      assert (match r with Some (Answer f) => Some (ipID f) | _ => None end = None) as -> by (destruct r as [[]|]; done).
      exact (kept_change None _ _ _ H1 H2 Hs).
  - rewrite Hi in H0. destruct (exec_shape _ _ _ _ _ _ H0 He) as [Hr Hs]. split; [done|].
    exact (kept_change _ _ _ _ H1 H2 Hs).
  - split; [done|]. exact (kept_change _ _ _ _ H1 H2 Ho).
  - split; [done|]. unfold pending in *. destruct (match proc c with Some (Answer f) => Some (ipID f) | _ => None end) as [i|].
    + split; [done|]. by rewrite bool_decide_eq_true_2.
    + by split; [apply balanced_answered|].
Qed.

(** C16: no tool call is left unanswered, however its handlers' sections, those of the
    other goroutine and of whatever else shares the conversation interleave.  Every
    message that requests a tool call is followed, further on, by one that holds a
    result for it: a placeholder, a cancellation, the result itself or the notice that
    the call runs on; all but the one request whose answer its handler is about to
    write.  As long as nothing was put into the conversation between the two, each
    request is followed at once by its answer. *)
Theorem tool_calls_answered a c :
  balanced (messages (context a)) -> rtc anystep (start a) c ->
  (forall k m tc, conversation c !! k = Some m -> tc ∈ toolCalls m ->
     (exists f, proc c = Some (Answer f) /\ ipID f = tcID tc) \/
     exists j n, k < j /\ conversation c !! j = Some n /\ hasResult (tcID tc) n) /\
  (intruded c = false -> (forall f, proc c <> Some (Answer f)) -> balanced (conversation c)).
Proof.
  intros Hb Hr. assert (kept c) as (_ & H1 & H2).
  { apply (rtc_invariant anystep kept _ _ Hr); [intros x y [v Hv]; by eapply kept_step|].
    split; [done|]. split; [by apply balanced_answered|done]. }
  split.
  - intros k m tc Hk Htc. destruct (H1 k m tc Hk Htc) as [Hp|?]; [left|by right].
    unfold pending in Hp. destruct (proc c) as [[]|]; try done. injection Hp as Hp. eauto.
  - intros Hi Hn. specialize (H2 Hi). unfold pending in H2. destruct (proc c) as [[]|]; try exact H2. by exfalso; eapply Hn.
Qed.

(** ** A batch is answered once, or twice by two handlers at once *)

(** What settling the calls of [ids] is: their final results that say nothing about
    running the model, and their deadlines; with nobody speaking and no further result
    queued, and whatever else goes on leaving it so. *)
Definition settling (ids : list gostring) (v : event) (c' : config) : Prop :=
  match v with
  | Begin (LookUp f) => rID f ∈ ids /\ settles (rID f) (FunctionCallResult f)
  | Begin (Take i runLLM) => i ∈ ids /\ runLLM = true
  | Begin _ | Announce _ => False
  | Run e => queuedResult e = false
  | Other => silent (asst c')
  end.

Definition settleStep (ids : list gostring) (c c' : config) : Prop := exists v, step v c c' /\ settling ids v c'.

Section Batch.

Context (g : gostring) (ids : list gostring) (Hg : g <> []).

#[local] Arguments after : simpl never.

(** A result's verdict is left to its batch. *)
Definition deferring (f : ResultFrame) : Prop :=
  Result f <> [] /\ rRunLLM f = None /\ (forall p, rProps f = Some p -> pRunLLM p = None).

(** The tasks of the handlers that settle the batch. *)
Definition apt (a : Assistant) (t : task) : Prop :=
  match t with
  | LookUp f => rID f ∈ ids /\ deferring f /\ Final (rProps f) = true
  | Forget f started => deferring f /\ GroupID started = g
  | WriteResult f started => deferring f /\ GroupID started = g /\ ~ running a g (rID f)
  | Decide f group => deferring f /\ group = g /\ ~ running a g (rID f)
  | Take i runLLM => i ∈ ids /\ runLLM = true
  | WriteCancel i _ group runs => group = g /\ runs = true /\ ~ running a g i
  | DecideCancel i group => group = g /\ ~ running a g i
  | AskUser _ | Updated | AskQueue _ | AskBot _ | ClearDeferred _ | Push _ => True
  | Request _ | Answer _ | Track _ | Intermediate _ _ => False
  end.

(** Past the end of its own call and not yet decided, and decided to run the model. *)
Definition deciding (t : task) : bool :=
  match t with WriteResult _ _ | Decide _ _ | WriteCancel _ _ _ _ | DecideCancel _ _ => true | _ => false end.
Definition decided (t : task) : bool :=
  match t with AskUser _ | AskQueue _ | AskBot _ | ClearDeferred _ | Push _ => true | _ => false end.
Definition due (t : task) : bool := deciding t || decided t.
Definition possible (t : task) : bool := due t || match t with Forget _ _ => true | _ => false end.

Definition count (p : task -> bool) (o : option task) : nat :=
  match o with Some t => if p t then 1 else 0 | None => 0 end.
Definition holds (P : task -> Prop) (o : option task) : Prop := match o with Some t => P t | None => True end.

Definition ours (a : Assistant) : Prop := exists j, running a g j.

(** [n] inferences so far. *)
Record batch (a : Assistant) (t1 t2 : option task) (n : nat) (over : bool) : Prop := {
  b_apt : holds (apt a) t1 /\ holds (apt a) t2;
  b_silent : silent a;
  b_ids : forall j, running a g j -> j ∈ ids;
  b_known : forall j, j ∈ ids -> inProgress a !! j = None \/ running a g j;
  b_before : ours a -> n = 0 /\ count decided t1 = 0 /\ count decided t2 = 0;
  b_least : ~ ours a -> 1 <= n + count due t1 + count due t2;
  b_most : ~ ours a -> n + count possible t1 + count possible t2 <= 1 + (if over then 1 else 0);
  b_over : t1 <> None -> t2 <> None -> over = true
}.

Lemma batch_sym a t1 t2 n over : batch a t1 t2 n over -> batch a t2 t1 n over.
Proof.
  intros [[] ? ? ? Hb ? ? ?]. split; try done; [intros Ho; destruct (Hb Ho) as (?&?&?); auto|intros Ho..|auto].
  - specialize (b_least0 Ho). lia.
  - specialize (b_most0 Ho). lia.
Qed.

Lemma count_le p o : count p o <= 1.
Proof. destruct o as [t|]; simpl; [destruct (p t)|]; lia. Qed.

Lemma due_possible o : count due o <= count possible o.
Proof. destruct o as [t|]; simpl; [|lia]. unfold possible. destruct (due t); simpl; lia. Qed.

Lemma still_spec a i : groupStillRunning a g i = false <-> ~ (exists j, running a g j /\ j <> i).
Proof. rewrite <- groupStillRunning_spec. by destruct (groupStillRunning a g i). Qed.

Lemma holds_apt a a' o : (forall j, running a' g j -> running a g j) -> holds (apt a) o -> holds (apt a') o.
Proof. intros R. destruct o as [u|]; [|done]. destruct u; simpl; naive_solver. Qed.

(** A section that leaves the calls and the floor alone. *)
Lemma batch_same a a' t r t2 n m over :
  inProgress a' = inProgress a -> userSpeaking a' = userSpeaking a -> botSpeaking a' = botSpeaking a ->
  batch a (Some t) t2 n over ->
  holds (apt a) r ->
  (ours a -> m = 0 /\ count decided r = 0) ->
  (~ ours a -> m + count due r = count due (Some t) /\ m + count possible r <= count possible (Some t)) ->
  batch a' r t2 (n + m) over.
Proof.
  intros E1 E2 E3 [[H1a H1b] H2 H3 H4 H5 H6 H7 H8] Hr Hb Ha.
  assert (forall j, running a' g j <-> running a g j) as R by (intros j; unfold running; by rewrite E1).
  assert (ours a' <-> ours a) as Ro by (unfold ours; by setoid_rewrite R).
  assert (forall o, holds (apt a) o -> holds (apt a') o) as Rh by (intros o; apply holds_apt; intros j; by rewrite R).
  split.
  - split; by apply Rh.
  - unfold silent. by rewrite E2, E3.
  - intros j. rewrite R. apply H3.
  - intros j. rewrite E1, R. apply H4.
  - intros Ho%Ro. destruct (H5 Ho) as (-> & _ & ->). by destruct (Hb Ho) as (-> & ->).
  - intros Ho. rewrite Ro in Ho. specialize (H6 Ho). destruct (Ha Ho). lia.
  - intros Ho. rewrite Ro in Ho. specialize (H7 Ho). destruct (Ha Ho). lia.
  - intros Hr' Ht2. by apply H8.
Qed.

(** A section that ends a call. *)
Lemma batch_delete a a' i t r t2 n over :
  inProgress a' = delete i (inProgress a) -> userSpeaking a' = userSpeaking a -> botSpeaking a' = botSpeaking a ->
  batch a (Some t) t2 n over -> holds (apt a') r ->
  count decided r = 0 -> count due r = 1 -> 
  (running a g i \/ count possible (Some t) = 1) ->
  batch a' r t2 n over.
Proof.
  intros E1 E2 E3 [[H1a H1b] H2 H3 H4 H5 H6 H7 H8] Hr Hd Hdue Hor.
  assert (forall j, running a' g j <-> running a g j /\ j <> i) as R.
  { intros j. unfold running. rewrite E1. split.
    - intros (f & [Hne Hl]%lookup_delete_Some & Hgr). split; [by exists f|done].
    - intros [(f & Hl & Hgr) Hne]. exists f. split; [by apply lookup_delete_Some|done]. }
  assert (forall o, holds (apt a) o -> holds (apt a') o) as Rh by (intros o; apply holds_apt; by intros j [? _]%R).
  assert (ours a' -> ours a) as Ro by (intros (j & [Hj _]%R); by exists j).
  split.
  - split; [done|by apply Rh].
  - unfold silent. by rewrite E2, E3.
  - intros j [Hj _]%R. by apply H3.
  - intros j Hj. rewrite E1, R. destruct (decide (j = i)) as [->|Hne]; [left; apply lookup_delete_eq|].
    rewrite lookup_delete_ne by done. destruct (H4 j Hj); auto.
  - intros Ho%Ro. destruct (H5 Ho) as (-> & _ & ->). done.
  - intros Ho. lia.
  - intros Ho. pose proof (count_le possible r). pose proof (count_le possible t2).
    assert (ours a \/ ~ ours a) as [Hin|Hout].
    { destruct (groupStillRunning a g []) eqn:Es; [left; apply groupStillRunning_spec in Es as (j & Hj & _); by exists j|].
      destruct (inProgress a !! []) as [[f|]|] eqn:El; [destruct (decide (GroupID f = g))|..]; 
        [left; exists []; by exists f|right..]; intros (j & Hj); apply still_spec in Es; apply Es; exists j;
        (split; [done|]); intros ->; destruct Hj as (f' & Hf' & ?); congruence. }
    + destruct (H5 Hin) as (-> & _ & _). destruct t2 as [u|]; [rewrite H8 by done; lia|simpl; lia].
    + specialize (H7 Hout). destruct Hor as [Hrun|Hp]; [by exfalso; apply Hout; exists i|]. lia.
  - intros Hr' Ht2. by apply H8.
Qed.

Lemma after_quiet a k : holds (apt a) (after k) /\ count due (after k) = 0 /\ count possible (after k) = 0 /\ count decided (after k) = 0.
Proof. destruct k as [f|]; unfold after; [destruct (rProps f) as [p|]; [destruct (OnContextUpdated p)|]|]; done. Qed.

Lemma deferring_decides a f : deferring f -> shouldRunLLM a f g = negb (groupStillRunning a g (rID f)).
Proof.
  intros (H1 & H2 & H3). unfold shouldRunLLM. rewrite bool_decide_eq_false_2 by done. rewrite H2.
  assert (match rProps f with Some p => pRunLLM p | None => None end = None) as -> by (destruct (rProps f); [by apply H3|done]).
  by rewrite bool_decide_eq_false_2 by done.
Qed.

(** Whether the group has others running, for a call that is over. *)
Lemma still_ours a i : ~ running a g i -> (groupStillRunning a g i = true <-> ours a).
Proof.
  intros Hn. rewrite groupStillRunning_spec. split; [by intros (j & Hj & _); exists j|].
  intros (j & Hj). exists j. split; [done|]. by intros ->.
Qed.

Lemma batch_exec e t a r a' out t2 n over :
  queuedResult e = false -> batch a (Some t) t2 n over -> exec e t a = (r, a', out) ->
  exists m, pushes out = replicate m (PushContext Upstream) /\ batch a' r t2 (n + m) over.
Proof.
  intros Hq Hb He. pose proof Hb as [[Hapt Ht2] [Hu Hbot] Hids Hknown Hbefore Hleast Hmost Hover]. simpl in Hapt.
  destruct t; simpl in He; try done.
  - destruct Hapt as (Hin & Hdef & Hf). injection He as <- <- <-. exists 0. split; [done|].
    destruct (Hknown _ Hin) as [E|(f0 & E & Hgr)]; rewrite E; [|rewrite Hf].
    + eapply batch_same; [done|done|done|exact Hb|done|done|done].
    + eapply batch_same; [done|done|done|exact Hb|done|done|]. intros Hno. exfalso. apply Hno. exists (rID f). by exists f0.
  - destruct Hapt as (Hdef & Hgr). injection He as <- <- <-. exists 0. split; [done|]. rewrite Nat.add_0_r.
    eapply (batch_delete a _ (rID f)); [done|done|done|exact Hb| |done|done|by right].
    simpl. split; [done|]. split; [done|]. intros (f0 & Hl & _). simpl in Hl. by apply lookup_delete_Some in Hl as [? _].
  - destruct Hapt as (Hdef & Hgr & Hn). injection He as <- <- <-. exists 0. split; [done|].
    eapply (batch_same a); [by destruct (CancelOnInterruption started)..|exact Hb|done|done|done].
  - destruct Hapt as (Hdef & -> & Hn). injection He as <- <- <-. exists 0. split; [done|]. rewrite deferring_decides by done.
    destruct (after_quiet a (Some f)) as (A1 & A2 & A3 & A4).
    destruct (groupStillRunning a g (rID f)) eqn:Es; simpl negb; cbv iota.
    + apply still_ours in Es; [|done]. eapply batch_same; [done|done|done|exact Hb|exact A1|by rewrite A4|by intros ?].
    + eapply batch_same; [done|done|done|exact Hb|done| |done]. intros Ho. apply (still_ours _ _ Hn) in Ho. congruence.
  - injection He as <- <- <-. exists 0. split; [done|]. rewrite Hu.
    eapply batch_same; [done|done|done|exact Hb|done| |done]. intros Ho. by destruct (Hbefore Ho) as (_ & ? & _).
  - injection He as <- <- <-. exists 0. split; [done|]. eapply batch_same; [done|done|done|exact Hb|done|done|done].
  - destruct Hapt as (Hin & ->). destruct (Hknown _ Hin) as [E|(f0 & E & Hgr)]; rewrite E in He; injection He as <- <- <-;
      exists 0; (split; [done|]).
    + eapply batch_same; [done|done|done|exact Hb|done|done|done].
    + rewrite Nat.add_0_r, Hu. eapply (batch_delete a _ i); [done|done|done|exact Hb| |done|done|left; by exists f0].
      simpl. split; [done|]. split; [done|]. intros (f1 & Hl & _). simpl in Hl. by apply lookup_delete_Some in Hl as [? _].
  - destruct Hapt as (-> & -> & Hn). injection He as <- <- <-. exists 0. split; [done|].
    eapply (batch_same a); [by destruct sync..|exact Hb|done|done|done].
  - destruct Hapt as (-> & Hn). injection He as <- <- <-. exists 0. split; [done|]. rewrite bool_decide_eq_false_2 by done. cbn [negb andb].
    destruct (groupStillRunning a g i) eqn:Es.
    + apply still_ours in Es; [|done]. eapply batch_same; [done|done|done|exact Hb|done|done|by intros ?].
    + eapply batch_same; [done|done|done|exact Hb|done| |done]. intros Ho. apply (still_ours _ _ Hn) in Ho. congruence.
  - rewrite Hq in He. injection He as <- <- <-. exists 0. split; [done|].
    eapply batch_same; [done|done|done|exact Hb|done| |done]. intros Ho. by destruct (Hbefore Ho) as (_ & ? & _).
  - rewrite Hbot in He. injection He as <- <- <-. exists 0. split; [done|].
    eapply batch_same; [done|done|done|exact Hb|done| |done]. intros Ho. by destruct (Hbefore Ho) as (_ & ? & _).
  - injection He as <- <- <-. exists 0. split; [done|].
    eapply (batch_same a); [done|done|done|exact Hb|done| |done]. intros Ho. by destruct (Hbefore Ho) as (_ & ? & _).
  - injection He as <- <- <-. exists 1. split; [done|]. destruct (after_quiet a k) as (A1 & A2 & A3 & A4).
    eapply batch_same; [done|done|done|exact Hb|exact A1| |by rewrite A2, A3].
    intros Ho. by destruct (Hbefore Ho) as (_ & ? & _).
Qed.

Lemma batch_begin a t2 t n over :
  apt a t -> possible t = false -> batch a None t2 n over ->
  batch a (Some t) t2 n (bool_decide (is_Some t2) || over).
Proof.
  intros Ha Hp [[_ H1] H2 H3 H4 H5 H6 H7 H8].
  assert (due t = false /\ decided t = false) as [Hd1 Hd2] by (unfold possible, due in *; by destruct (deciding t), (decided t)).
  split; [by split|done..| | | |]; simpl; rewrite ?Hd1, ?Hd2, ?Hp.
  - exact H5.
  - exact H6.
  - intros Ho. specialize (H7 Ho). simpl in H7. destruct (bool_decide (is_Some t2)), over; simpl in *; lia.
  - intros _ Hn. rewrite bool_decide_eq_true_2; [done|]. by apply not_eq_None_Some.
Qed.

(** The batch goes on, as [c] with [n] inferences so far. *)
Definition goes (c : config) : Prop :=
  exists n, pushes (outs c) = replicate n (PushContext Upstream) /\ batch (asst c) (proc c) (input c) n (overlapped c).

Lemma goes_step c c' : settleStep ids c c' -> goes c -> goes c'.
Proof.
  intros (v & Hs & Hv) (n & Hp & Hb).
  assert (forall out m, pushes out = replicate m (PushContext Upstream) ->
    pushes (outs c ++ out) = replicate (n + m) (PushContext Upstream)) as Hout
    by (intros out m E; by rewrite pushes_app, Hp, E, replicate_add).
  assert (forall a, inProgress a = inProgress (asst c) -> silent a -> batch a (proc c) (input c) n (overlapped c)) as Hsame.
  { intros a E Hsi. destruct Hb as [[H1a H1b] H2 H3 H4 H5 H6 H7 H8].
    assert (forall j, running a g j <-> running (asst c) g j) as R by (intros j; unfold running; by rewrite E).
    assert (forall o, holds (apt (asst c)) o -> holds (apt a) o) as Rh by (intros o; apply holds_apt; intros j; by rewrite R).
    assert (ours a <-> ours (asst c)) as Ro by (unfold ours; by setoid_rewrite R).
    split; try (intros Ho; rewrite Ro in Ho); auto.
    - intros j. rewrite R. apply H3.
    - intros j. rewrite E, R. apply H4. }
  destruct Hs as [t c Ht Hk|t c Ht Hk|calls c Hi|e t r a out c Ht He|e t r a out c Ht He|a c (E & _)|a c (E & _)]; simpl in *.
  - exists n. split; [done|]. rewrite Ht in Hb. destruct t; try done. apply batch_begin; [|done|done].
    destruct Hv as (Hin & _ & H2 & H3 & H4 & H5). simpl. done.
  - exists n. split; [done|]. rewrite Ht in Hb. destruct t; try done. apply batch_sym, batch_begin; [done|done|by apply batch_sym].
  - done.
  - rewrite Ht in Hb. destruct (batch_exec _ _ _ _ _ _ _ _ _ Hv Hb He) as (m & Em & Hb'). exists (n + m). split; [by apply Hout|done].
  - rewrite Ht in Hb. apply batch_sym in Hb. destruct (batch_exec _ _ _ _ _ _ _ _ _ Hv Hb He) as (m & Em & Hb').
    exists (n + m). split; [by apply Hout|by apply batch_sym].
  - exists n. split; [done|]. by apply Hsame.
  - exists n. split; [done|]. by apply Hsame.
Qed.

End Batch.

(** C17: the calls of one response are answered by one inference, or by two when a
    result and a deadline settle the last of them at once.  From a batch of calls in
    progress with both goroutines idle, with nobody speaking and no further result
    queued, in whatever order and by whichever of their final results and deadlines
    its calls are settled, and however the handlers' sections and whatever else goes
    on interleave: the model is not run while a call of the batch is running; and once
    none is and the handlers are done, it has been run, and just once unless the
    handlers of two overlapped, twice at most. *)
Theorem batch_answered_once a g ids c :
  silent a -> g <> [] -> ids <> [] -> (forall j, running a g j <-> j ∈ ids) -> rtc (settleStep ids) (start a) c ->
  ((exists j, running (asst c) g j) -> pushes (outs c) = []) /\
  (~ (exists j, running (asst c) g j) -> proc c = None -> input c = None ->
     pushes (outs c) = [PushContext Upstream] \/
     overlapped c = true /\ pushes (outs c) = [PushContext Upstream; PushContext Upstream]).
Proof.
  intros Hs Hg Hne Hrun Hr. assert (goes g ids c) as (n & Hp & [_ _ _ _ Hbefore Hleast Hmost _]).
  { apply (rtc_invariant (settleStep ids) (goes g ids) _ _ Hr); [by intros x y; apply goes_step|].
    assert (ours g a) as Ho by (destruct ids as [|i l]; [done|]; exists i; apply Hrun; by left).
    exists 0. split; [done|].
    split; [done|done|by intros j; rewrite Hrun|by intros j Hj; right; apply Hrun|done|by intros []|by intros []|done]. }
  split; [intros Ho; by destruct (Hbefore Ho) as (-> & _)|].
  intros Hno E1 E2. rewrite E1, E2 in Hleast, Hmost. specialize (Hleast Hno). specialize (Hmost Hno). simpl in Hleast, Hmost.
  rewrite Hp. destruct n as [|[|n]]; [lia|by left|right]. destruct (overlapped c); [|lia].
  destruct n; [done|lia].
Qed.

(** ** Runs *)

Inductive move := OnProc (t : task) | OnInput (t : task) | GoProc | GoInput.

Definition begins (t : task) (proc : bool) : bool :=
  match t with Request _ | LookUp _ => proc | Take _ _ => negb proc | _ => false end.

Definition move1 (m : move) (c : config) : option config :=
  match m with
  | OnProc t =>
    match proc c with
    | None => if begins t true then Some (c <| proc := Some t |> <| overlapped ::= orb (bool_decide (is_Some (input c))) |>) else None
    | Some _ => None
    end
  | OnInput t =>
    match input c with
    | None => if begins t false then Some (c <| input := Some t |> <| overlapped ::= orb (bool_decide (is_Some (proc c))) |>) else None
    | Some _ => None
    end
  | GoProc =>
    match proc c with
    | Some t => let '(r, a, out) := exec quiet t (asst c) in
                Some (c <| asst := a |> <| proc := r |> <| outs ::= fun l => l ++ out |>)
    | None => None
    end
  | GoInput =>
    match input c with
    | Some t => let '(r, a, out) := exec quiet t (asst c) in
                Some (c <| asst := a |> <| input := r |> <| outs ::= fun l => l ++ out |> <| intruded ::= orb (crowd c a) |>)
    | None => None
    end
  end.

Definition eventOf (m : move) : event := match m with OnProc t | OnInput t => Begin t | _ => Run quiet end.

Lemma move1_step m c c' : move1 m c = Some c' -> step (eventOf m) c c'.
Proof.
  destruct m as [t|t| |]; simpl; intros H; repeat case_match; simplify_eq.
  - apply s_proc; [done|]. by destruct t.
  - apply s_input; [done|]. by destruct t.
  - by eapply s_run_proc.
  - by eapply s_run_input.
Qed.

Fixpoint moves (ms : list move) (c : config) : option config :=
  match ms with [] => Some c | m :: ms => c ← move1 m c; moves ms c end.

Lemma moves_settle ids ms c c' :
  Forall (fun m => settling ids (eventOf m) c) ms -> moves ms c = Some c' -> rtc (settleStep ids) c c'.
Proof.
  intros H. assert (Forall (fun m => forall c, settling ids (eventOf m) c) ms) as H'
    by (eapply Forall_impl; [exact H|]; intros [t|t| |] Hm d; done).
  clear H. revert c. induction H' as [|m ms Hm _ IH]; intros c; simpl; [by intros [= <-]|].
  destruct (move1 m c) as [c1|] eqn:E; simpl; [|done]. intros Hc. eapply rtc_l; [|by apply IH].
  exists (eventOf m). split; [by apply move1_step|apply Hm].
Qed.

Lemma moves_steps ms c c' : moves ms c = Some c' -> rtc anystep c c'.
Proof.
  revert c. induction ms as [|m ms IH]; intros c; simpl; [by intros [= <-]|].
  destruct (move1 m c) as [c1|] eqn:E; simpl; [|done]. intros Hc. eapply rtc_l; [|by apply IH].
  exists (eventOf m). by apply move1_step.
Qed.

(** Two calls of one response in progress. *)
Definition inCall (i : string) : InProgressFrame := mkInProgress (b i) (b "tool") [] true (b "g").
Definition result (i : string) : ResultFrame := mkResult (b i) (b "tool") (b "ok") None None.
Definition both : Assistant := (run (List.map (pair quiet) [callFrame "x" "g"; callFrame "y" "g"]) fresh).1.

Lemma both_running j : running both (b "g") j <-> j ∈ [b "y"; b "x"].
Proof.
  unfold running. change (inProgress both) with
    (<[b "y" := Some (inCall "y")]> (<[b "x" := Some (inCall "x")]> (∅ : gmap gostring (option InProgressFrame)))).
  assert (b "y" <> b "x") as Hne by discriminate. split.
  - intros (f & Hl & _). apply lookup_insert_Some in Hl as [[<- _]|[_ Hl]]; [by left|].
    apply lookup_insert_Some in Hl as [[<- _]|[_ Hl]]; [right; by left|]. by rewrite lookup_empty in Hl.
  - intros [->|[->|[]%elem_of_nil]%elem_of_cons]%elem_of_cons.
    + exists (inCall "y"). by rewrite lookup_insert_eq.
    + exists (inCall "x"). by rewrite lookup_insert_ne, lookup_insert_eq.
Qed.

Lemma settle_moves ids ms :
  Forall (fun m => match m with
    | OnProc (LookUp f) => rID f ∈ ids /\ rRunLLM f = None /\ rProps f = None /\ Result f <> []
    | OnInput (Take i r) => i ∈ ids /\ r = true | OnProc _ | OnInput _ => False | _ => True end) ms ->
  forall c, Forall (fun m => settling ids (eventOf m) c) ms.
Proof.
  intros H c. eapply Forall_impl; [exact H|]. intros [t|t| |]; try done; destruct t; simpl; try done.
  intros (H1 & H2 & H3 & H4). rewrite H3. by repeat split.
Qed.

(** A result and a deadline that settle the last two calls of a batch at once each
    find the other gone, and the model is run twice on one batch. *)
Theorem batch_answered_twice :
  exists c, rtc (settleStep [b "y"; b "x"]) (start both) c /\ proc c = None /\ input c = None /\
    pushes (outs c) = [PushContext Upstream; PushContext Upstream].
Proof.
  eexists. split; [|split; [|split]].
  - apply (moves_settle _ [OnProc (LookUp (result "x")); GoProc; GoProc; OnInput (Take (b "y") true); GoInput; GoInput; GoInput;
      GoInput; GoInput; GoInput; GoInput; GoProc; GoProc; GoProc; GoProc; GoProc; GoProc; GoProc]);
      [|vm_compute; reflexivity].
    apply settle_moves. repeat constructor; discriminate.
  - reflexivity.
  - reflexivity.
  - vm_compute. reflexivity.
Qed.

(** ** Instances of the theorems *)

Definition made (ms : list move) : config := from_nil (start both) (moves ms (start both)).

(** A call begins, a cancellation of another is written between its request and its
    answer, and its result comes. *)
Definition crossing : list move :=
  [OnInput (Take (b "y") false); GoInput; OnProc (Request (inCall "z")); GoProc; GoInput; GoProc; GoProc;
   OnProc (LookUp (result "z")); GoProc; GoProc; GoProc].

Lemma crossing_made : moves crossing (start both) = Some (made crossing).
Proof. vm_compute. reflexivity. Qed.

Lemma tool_calls_answered_witness :
  balanced (messages (context both)) /\ length (conversation (made crossing)) = 6 /\
  (forall k m tc, conversation (made crossing) !! k = Some m -> tc ∈ toolCalls m ->
     (exists f, proc (made crossing) = Some (Answer f) /\ ipID f = tcID tc) \/
     exists j n, k < j /\ conversation (made crossing) !! j = Some n /\ hasResult (tcID tc) n) /\
  balanced (conversation (made crossing)).
Proof.
  assert (balanced (messages (context both))) as Hb.
  { apply (balanced_app [_; _] [_; _]); apply (balanced_pair _ (b "tool") []); reflexivity. }
  split; [exact Hb|]. split; [vm_compute; reflexivity|].
  pose proof (tool_calls_answered both (made crossing) Hb (moves_steps _ _ _ crossing_made)) as [H1 H2].
  split; [exact H1|]. apply H2; [vm_compute; reflexivity|]. intros f H. vm_compute in H. discriminate H.
Defined.

(** One after the other: the result, then the deadline. *)
Definition serial : list move :=
  [OnProc (LookUp (result "x")); GoProc; GoProc; GoProc; GoProc; OnInput (Take (b "y") true); GoInput; GoInput;
   GoInput; GoInput; GoInput; GoInput; GoInput].

Lemma serial_made : rtc (settleStep [b "y"; b "x"]) (start both) (made serial).
Proof.
  apply (moves_settle _ serial); [|vm_compute; reflexivity]. apply settle_moves. repeat constructor; discriminate.
Qed.

Lemma serial_settled : ~ (exists j, running (asst (made serial)) (b "g") j).
Proof.
  intros (j & f & Hl & _). assert (inProgress (asst (made serial)) = ∅) as E by (vm_compute; reflexivity).
  rewrite E, lookup_empty in Hl. discriminate.
Qed.

Lemma batch_answered_once_witness :
  silent both /\ overlapped (made serial) = false /\
  (pushes (outs (made serial)) = [PushContext Upstream] \/
   overlapped (made serial) = true /\ pushes (outs (made serial)) = [PushContext Upstream; PushContext Upstream]).
Proof.
  split; [split; reflexivity|]. split; [vm_compute; reflexivity|].
  apply (batch_answered_once both (b "g") [b "y"; b "x"] (made serial));
    [split; reflexivity|discriminate|discriminate|exact both_running|exact serial_made|exact serial_settled
    |vm_compute; reflexivity|vm_compute; reflexivity].
Defined.

End AssistantRuns.
