(* ===== verification/ToolCalls.v ===== *)
(** * Tool calls in flight

    The function-call runtime of the language service base
    ([src/service/llm/llm.go]): a response's calls are set going, each on a goroutine
    of its own or one after another on the sequential runner, and are reported, timed
    out, canceled by an interruption, or canceled by id ([asynctool.go]).

    The calls are shared by the goroutines that run them, the timers, the frame path
    and whoever cancels, so this is a step relation.  Its steps are the critical
    sections of [callsMu]; what a function goes on to do outside the lock (stop a
    timer, cancel a context, broadcast a frame) is a program, [task], whose statements
    run one by one among the steps of the others.  Handlers are free: they report
    whatever they like, whenever they like, even after they have returned, and fail or
    return at any time.  Broadcasts are taken to succeed. *)

From S2P Require Import Prelude Text Strings.

Module ToolCalls.
Local Open Scope Z_scope.

(** What of a registered handler decides how its calls run. *)
Record callItem := mkItem {
  cancelOnInterruption : bool;
  timeout : Z;
  cancellableByLLM : bool
}.

(** How far the goroutine running a call has come. *)
Inductive phase :=
| Requested     (** not yet handed to a goroutine or to the sequential runner *)
| Waiting       (** its goroutine started, or queued for the sequential runner *)
| Registered    (** entered in [calls] *)
| Announced     (** broadcast as in progress *)
| Running       (** in its handler, the deadline armed *)
| Failing       (** the handler returned an error *)
| Closing       (** the failure reported; about to return *)
| Returned.
#[export] Instance phase_dec : EqDecision phase.
Proof. solve_decision. Defined.

(** The timer of [startCallTimeout]; [Expired] is its function about to run. *)
Inductive timerState := NoTimer | Armed | Stopped | Expired.
#[export] Instance timerState_dec : EqDecision timerState.
Proof. solve_decision. Defined.

Record functionCall := mkCall {
  item : callItem;
  name : gostring;
  toolCallID : gostring;
  groupID : gostring;
  settled : bool;
  canceled : bool;           (** its context is done *)
  timer : timerState;
  at_ : phase
}.
#[export] Instance eta_functionCall : Eta functionCall := fun c =>
  mkCall (item c) (name c) (toolCallID c) (groupID c) (settled c) (canceled c) (timer c) (at_ c).

(** A call is known by its number, the address of its [functionCall]. *)
Inductive event :=
| InProgressEvent (c : nat)
| ResultEvent (c : nat) (final : bool)
| CancelEvent (c : nat) (runLLM : bool).
#[export] Instance event_dec : EqDecision event.
Proof. solve_decision. Defined.

Inductive stmt :=
| CancelContext (c : nat)
| StopTimer (c : nat)
| Broadcast (e : event)
| ReturnFrom (c : nat).

Record Base := mkBase {
  runInParallel : bool;
  callTimeout : Z;
  asyncToolCancellation : bool;
  store : list functionCall;
  calls : gmap gostring nat;
  sequential : list nat;          (** the channel, oldest first *)
  runner : option nat;            (** the call the sequential runner is running *)
  tasks : list (list stmt);
  (* what happened *)
  out : list event;               (** broadcast, in order *)
  decided : list event            (** decided under the lock, in order *)
}.
#[export] Instance eta_Base : Eta Base := fun b =>
  mkBase (runInParallel b) (callTimeout b) (asyncToolCancellation b) (store b) (calls b)
    (sequential b) (runner b) (tasks b) (out b) (decided b).

Definition New (parallel : bool) (deadline : Z) (async : bool) : Base :=
  mkBase parallel deadline async [] ∅ [] None [] [] [].

Definition sequentialQueueDepth : nat := 64.

(** An assignment to a field of call [c]. *)
Definition upd (c : nat) (f : functionCall -> functionCall) (b : Base) : Base := b <| store ::= alter f c |>.
Definition goto (c : nat) (p : phase) : Base -> Base := upd c (fun k => k <| at_ := p |>).
Definition spawn (t : list stmt) (b : Base) : Base := b <| tasks ::= fun ts => ts ++ [t] |>.
Definition decide_ (e : event) (b : Base) : Base := b <| decided ::= fun es => es ++ [e] |>.

(** ** Starting the calls of a response *)

(** [runFunctionCalls]: the calls, each with the entry found for it, share a group. *)
Definition runFunctionCalls (group : gostring) (cs : list (callItem * gostring * gostring)) (b : Base) : Base :=
  b <| store ::= fun l => l ++ List.map (fun '(it, n, i) => mkCall it n i group false false NoTimer Requested) cs |>.

(** The loop of [runFunctionCalls] reaching call [c]: a goroutine, or the channel,
    which takes it when there is room. *)
Definition launch (c : nat) (b : Base) : Base :=
  let b := goto c Waiting b in
  if runInParallel b then b else b <| sequential ::= fun q => q ++ [c] |>.

(** [runFunctionCall] enters the call. *)
Definition enter (c : nat) (k : functionCall) (b : Base) : Base :=
  goto c Registered b <| calls ::= insert (toolCallID k) c |>.

(** [startCallTimeout], and [stopTimeout] recorded before the handler runs. *)
Definition deadlineOf (k : functionCall) (b : Base) : Z :=
  if timeout (item k) =? 0 then callTimeout b else timeout (item k).
Definition startCallTimeout (c : nat) (k : functionCall) (b : Base) : Base :=
  goto c Running (if deadlineOf k b <=? 0 then b else upd c (fun k => k <| timer := Armed |>) b).

(** The deferred calls of [runFunctionCall]: the timer is stopped, the call dropped
    if the entry is still its own, and its context canceled. *)
Definition forget (c : nat) (k : functionCall) (b : Base) : Base :=
  if decide (calls b !! toolCallID k = Some c) then b <| calls ::= delete (toolCallID k) |> else b.
Definition stopTimer (k : functionCall) : functionCall :=
  match timer k with Armed => k <| timer := Stopped |> | _ => k end.
Definition leave (c : nat) (k : functionCall) (b : Base) : Base :=
  let b := forget c k (upd c stopTimer b) in
  let b := goto c Returned (upd c (fun k => k <| canceled := true |>) b) in
  if decide (runner b = Some c) then b <| runner := None |> else b.

(** ** Reporting, and running out of time *)

(** [resultCallback]; [after] is what the caller goes on to do. *)
Definition report (c : nat) (k : functionCall) (final : bool) (after : list stmt) (b : Base) : Base :=
  if negb final && cancelOnInterruption (item k) then spawn after b
  else if settled k then spawn after b
  else
    let b := if final then upd c (fun k => k <| settled := true |>) b else b in
    spawn ([StopTimer c; Broadcast (ResultEvent c final)] ++ after) (decide_ (ResultEvent c final) b).

(** [timeoutFunctionCall] *)
Definition timeoutFunctionCall (c : nat) (k : functionCall) (b : Base) : Base :=
  let b := upd c (fun k => k <| timer := Stopped |>) b in
  if settled k then b
  else
    let b := forget c k (upd c (fun k => k <| settled := true |>) b) in
    spawn [CancelContext c; Broadcast (CancelEvent c true)] (decide_ (CancelEvent c true) b).

(** ** Canceling *)

(** One call taken out by a cancellation that asks for no inference. *)
Definition takeOut (b : Base) (c : nat) : Base :=
  match store b !! c with
  | Some k => decide_ (CancelEvent c false)
                (upd c (fun k => k <| settled := true |>) (b <| calls ::= delete (toolCallID k) |>))
  | None => b
  end.

Definition interruptible (b : Base) (c : nat) : bool :=
  match store b !! c with Some k => cancelOnInterruption (item k) | None => false end.

(** The entries [cancelFunctionCalls] collects, in the order the map happens to be
    ranged over. *)
Definition collects (b : Base) (cs : list nat) : Prop :=
  cs ≡ₚ List.filter (interruptible b) (List.map snd (map_to_list (calls b))).

Definition cancelProgram (c : nat) : list stmt := [CancelContext c; Broadcast (CancelEvent c false)].

(** [cancelFunctionCalls] *)
Definition cancelFunctionCalls (cs : list nat) (b : Base) : Base :=
  spawn (List.concat (List.map cancelProgram cs)) (fold_left takeOut cs b).

(** [cancelFunctionCallByID] *)
Definition cancelFunctionCallByID (i : gostring) (b : Base) : bool * Base :=
  match calls b !! i with
  | Some c => (true, spawn (cancelProgram c) (takeOut b c))
  | None => (false, b)
  end.

(** [cancelToolHandler] answers by canceling a call of its tool, or by refusing and,
    when several run, naming them. *)
Inductive cancelAnswer :=
| NoneRunning
| NoSuchID
| AskWhich (choices : list gostring)
| Canceling (i : gostring).

Definition isCancellable (b : Base) (it : callItem) : bool :=
  cancellableByLLM it || (asyncToolCancellation b && negb (cancelOnInterruption it)).

(** [cancellableCallsOf], before they are sorted. *)
Definition cancellableCallsOf (b : Base) (target : gostring) : list gostring :=
  omap (fun c => k ← store b !! c;
                 if bool_decide (name k = target) && isCancellable b (item k)
                 then Some (toolCallID k) else None)
    (List.map snd (map_to_list (calls b))).

(** [cancelToolHandler], up to canceling; [given] is the [tool_call_id] of its
    arguments, empty when there is none, and [sorted] the candidates in order. *)
Definition cancelToolHandler (sorted : list gostring) (given : gostring) : cancelAnswer :=
  match sorted with
  | [] => NoneRunning
  | i :: more =>
    if bool_decide (given = []) then match more with [] => Canceling i | _ => AskWhich sorted end
    else if bool_decide (given ∈ sorted) then Canceling given else NoSuchID
  end.

(** ** The runtime *)

(** The statements of the tasks. *)
Definition exec (s : stmt) (b : Base) : Base :=
  match s with
  | CancelContext c => upd c (fun k => k <| canceled := true |>) b
  | StopTimer c => upd c stopTimer b
  | Broadcast e => b <| out ::= fun es => es ++ [e] |>
  | ReturnFrom c => match store b !! c with Some k => leave c k b | None => b end
  end.

Definition inPhase (b : Base) (c : nat) (k : functionCall) (p : phase) : Prop :=
  store b !! c = Some k /\ at_ k = p.

(** What the runtime does by itself: the goroutines of the calls, the runner, the
    deadlines and the tasks. *)
Inductive runs : Base -> Base -> Prop :=
| r_launch b c k : inPhase b c k Requested ->
    (runInParallel b = true \/ (List.length (sequential b) < sequentialQueueDepth)%nat) ->
    (* the calls are taken in the order they were requested *)
    (forall c' k', (c' < c)%nat -> store b !! c' = Some k' -> at_ k' <> Requested) ->
    runs b (launch c b)
| r_enter b c k : runInParallel b = true -> inPhase b c k Waiting -> runs b (enter c k b)
| r_take b c k q : runInParallel b = false -> runner b = None -> sequential b = c :: q ->
    inPhase b c k Waiting -> runs b (enter c k (b <| sequential := q |> <| runner := Some c |>))
| r_announce b c k : inPhase b c k Registered ->
    runs b (goto c Announced (b <| out ::= fun es => es ++ [InProgressEvent c] |>))
| r_start b c k : inPhase b c k Announced -> runs b (startCallTimeout c k b)
| r_expire b c k : store b !! c = Some k -> timer k = Armed ->
    runs b (upd c (fun k => k <| timer := Expired |>) b)
| r_timeout b c k : store b !! c = Some k -> timer k = Expired -> runs b (timeoutFunctionCall c k b)
| r_fail b c k : inPhase b c k Failing -> runs b (goto c Closing (report c k true [ReturnFrom c] b))
| r_task b ts1 s t ts2 : tasks b = ts1 ++ (s :: t) :: ts2 ->
    runs b (exec s (b <| tasks := ts1 ++ t :: ts2 |>)).

(** What a handler does. *)
Inductive handles : Base -> Base -> Prop :=
| h_report b c k final : store b !! c = Some k ->
    at_ k ∈ [Running; Failing; Closing; Returned] -> handles b (report c k final [] b)
| h_return b c k : inPhase b c k Running -> handles b (leave c k b)
| h_error b c k : inPhase b c k Running -> handles b (goto c Failing b).

(** What reaches the service from outside: a response that calls tools, an
    interruption, a cancellation by id. *)
Inductive asks : Base -> Base -> Prop :=
| a_calls b g cs : asks b (runFunctionCalls g cs b)
| a_interrupt b cs : collects b cs -> asks b (cancelFunctionCalls cs b)
| a_cancel b i : asks b (cancelFunctionCallByID i b).2.

Inductive step : Base -> Base -> Prop :=
| s_runs b b' : runs b b' -> step b b'
| s_handles b b' : handles b b' -> step b b'
| s_asks b b' : asks b b' -> step b b'.

Definition initial (b : Base) : Prop := exists p d a, b = New p d a.
Definition reachable (b : Base) : Prop := exists b0, initial b0 /\ rtc step b0 b.

(** ** What becomes of a call *)

Definition about (c : nat) (e : event) : bool :=
  match e with InProgressEvent c' | ResultEvent c' _ | CancelEvent c' _ => bool_decide (c' = c) end.
Definition logOf (c : nat) (es : list event) : list event := List.filter (about c) es.

(** What can be decided of a call: progress, then the end of it, a result or a
    cancellation.  A call still tracked ([tracked]) when its result is decided can be
    canceled after it, by an interruption or by id. *)
Inductive life (c : nat) : bool -> bool -> list event -> Prop :=
| life_open t n : life c t false (replicate n (ResultEvent c false))
| life_result t n : life c t true (replicate n (ResultEvent c false) ++ [ResultEvent c true])
| life_canceled n r : life c false true (replicate n (ResultEvent c false) ++ [CancelEvent c r])
| life_both n : life c false true (replicate n (ResultEvent c false) ++ [ResultEvent c true; CancelEvent c false]).

Definition tracked (b : Base) (c : nat) (k : functionCall) : bool := bool_decide (calls b !! toolCallID k = Some c).
Definition early (p : phase) : bool := match p with Requested | Waiting => true | _ => false end.

Record sound (b : Base) : Prop := mkSound {
  snd_calls i c : calls b !! i = Some c -> exists k, store b !! c = Some k /\ toolCallID k = i
                    /\ early (at_ k) = false /\ at_ k <> Returned;
  snd_life c k : store b !! c = Some k -> life c (tracked b c k) (settled k) (logOf c (decided b));
  snd_early c k : store b !! c = Some k -> early (at_ k) = true -> settled k = false /\ logOf c (decided b) = [];
  snd_none c : store b !! c = None -> logOf c (decided b) = []
}.

Lemma logOf_app c es fs : logOf c (es ++ fs) = logOf c es ++ logOf c fs.
Proof. apply List.filter_app. Qed.

Lemma life_untracked c t s l : life c t s l -> life c false s l.
Proof. destruct 1; constructor. Qed.

Lemma life_retracked c t t' l : life c t false l -> life c t' false l.
Proof. inversion 1; constructor. Qed.

Lemma life_report c t l final : life c t false l -> life c t final (l ++ [ResultEvent c final]).
Proof.
  inversion 1; subst. destruct final; [constructor|].
  change [ResultEvent c false] with (replicate 1 (ResultEvent c false)). rewrite <- replicate_add. constructor.
Qed.

Lemma life_timeout c t l : life c t false l -> life c false true (l ++ [CancelEvent c true]).
Proof. inversion 1; constructor. Qed.

Lemma life_cancel c s l : life c true s l -> life c false true (l ++ [CancelEvent c false]).
Proof. inversion 1; subst; rewrite <- ?app_assoc; constructor. Qed.

#[local] Hint Resolve life_untracked life_retracked life_report life_timeout life_cancel : voxigo.

Lemma store_upd c f b c' : store (upd c f b) !! c' = if decide (c = c') then f <$> store b !! c' else store b !! c'.
Proof.
  simpl. destruct (decide (c = c')) as [<-|]; [by rewrite list_lookup_alter_eq|by rewrite list_lookup_alter_ne].
Qed.

Lemma upd_id c f b : (forall k, store b !! c = Some k -> f k = k) -> store (upd c f b) = store b.
Proof.
  intros H. apply list_eq. intros c'. rewrite store_upd. destruct (decide (c = c')) as [<-|]; [|done].
  destruct (store b !! c) eqn:E; simpl; [by rewrite H|done].
Qed.

Lemma sound_ext b b' : store b' = store b -> calls b' = calls b -> decided b' = decided b -> sound b -> sound b'.
Proof.
  intros Es Ec Ed [H1 H2 H3 H4]. unfold tracked in *.
  split; intros *; rewrite ?Es, ?Ec, ?Ed; eauto. unfold tracked. rewrite ?Ec. eauto.
Qed.

(** An assignment that leaves a call's id and verdict alone. *)
Lemma sound_upd c f b : sound b ->
  (forall k, store b !! c = Some k -> toolCallID (f k) = toolCallID k /\ settled (f k) = settled k
     /\ (early (at_ (f k)) = true -> early (at_ k) = true)
     /\ (tracked b c k = true -> early (at_ (f k)) = false /\ at_ (f k) <> Returned)) ->
  sound (upd c f b).
Proof.
  intros [H1 H2 H3 H4] Hf. split.
  - intros i c' Hc. destruct (H1 i c' Hc) as (k & Hk & <- & He & Hr).
    rewrite store_upd. destruct (decide (c = c')) as [<-|]; [|by exists k].
    rewrite Hk. exists (f k). destruct (Hf k Hk) as (E & _ & _ & T).
    destruct T; [by apply bool_decide_eq_true|]. by rewrite E.
  - intros c' k. rewrite store_upd. destruct (decide (c = c')) as [<-|]; [|apply H2].
    destruct (store b !! c) as [k0|] eqn:Hk; [|done]. intros [= <-].
    destruct (Hf k0 eq_refl) as (E & S & _ & _). unfold tracked. rewrite E, S. by apply H2.
  - intros c' k. rewrite store_upd. destruct (decide (c = c')) as [<-|]; [|apply H3].
    destruct (store b !! c) as [k0|] eqn:Hk; [|done]. intros [= <-] He.
    destruct (Hf k0 eq_refl) as (E & S & He' & _). rewrite S. apply H3; auto.
  - intros c'. rewrite store_upd. destruct (decide (c = c')) as [<-|]; [|apply H4].
    destruct (store b !! c) as [k0|] eqn:Hk; [done|]. intros _. by apply H4.
Qed.

(** Dropping the entry of a call. *)
Lemma sound_forget c k b : sound b -> sound (forget c k b).
Proof.
  intros H. unfold forget. case_decide as Hc; [|done]. destruct H as [H1 H2 H3 H4]. split; simpl; [|intros c' k'|done..].
  - intros i c' [_ Hi]%lookup_delete_Some. by apply H1.
  - intros Hk. specialize (H2 c' k' Hk). unfold tracked in *. simpl.
    destruct (decide (toolCallID k = toolCallID k')) as [E|];
      [rewrite <- E, lookup_delete_eq in *; simpl; eauto with voxigo|by rewrite lookup_delete_ne].
Qed.

Lemma forget_tracked c k b : tracked (forget c k b) c k = false.
Proof.
  unfold tracked, forget. case_decide; simpl; [by rewrite lookup_delete_eq|by apply bool_decide_eq_false].
Qed.

(** Deciding something of a call. *)
Lemma sound_decide b c k e (s : bool) :
  sound b -> store b !! c = Some k -> early (at_ k) = false ->
  (forall c', about c' e = bool_decide (c = c')) ->
  life c (tracked b c k) s (logOf c (decided b) ++ [e]) ->
  sound (decide_ e (upd c (fun k => k <| settled := s |>) b)).
Proof.
  intros H Hk He Ha Hl. pose proof H as [H1 H2 H3 H4].
  assert (forall c', logOf c' (decided (decide_ e (upd c (fun k => k <| settled := s |>) b)))
    = logOf c' (decided b) ++ (if decide (c = c') then [e] else [])) as L.
  { intros c'. simpl. rewrite logOf_app. unfold logOf at 2. simpl. rewrite Ha.
    destruct (decide (c = c')); [by rewrite bool_decide_true|by rewrite bool_decide_false]. }
  split.
  - intros i c' Hi. destruct (H1 i c' Hi) as (k' & Hk' & ?). change (store (decide_ ?e ?b)) with (store b).
    rewrite store_upd, Hk'. destruct (decide (c = c')) as [<-|]; [|by exists k']. simplify_eq. by eexists.
  - intros c' k'. rewrite L. change (store (decide_ ?e ?b)) with (store b). rewrite store_upd.
    destruct (decide (c = c')) as [<-|]; [|rewrite app_nil_r; apply H2].
    rewrite Hk. intros [= <-]. apply Hl.
  - intros c' k'. rewrite L. change (store (decide_ ?e ?b)) with (store b). rewrite store_upd.
    destruct (decide (c = c')) as [<-|]; [|rewrite app_nil_r; apply H3].
    rewrite Hk. intros [= <-]. simpl. by rewrite He.
  - intros c'. rewrite L. change (store (decide_ ?e ?b)) with (store b). rewrite store_upd.
    destruct (decide (c = c')) as [<-|]; [by rewrite Hk|]. rewrite app_nil_r. apply H4.
Qed.

Lemma sound_enter c k b : sound b -> inPhase b c k Waiting -> sound (enter c k b).
Proof.
  intros H [Hk Hp].
  assert (settled k = false /\ logOf c (decided b) = []) as [Hs HL] by (apply (snd_early _ H _ _ Hk); by rewrite Hp).
  assert (tracked b c k = false) as Ht.
  { unfold tracked. apply bool_decide_eq_false. intros Hc. apply (snd_calls _ H) in Hc as (k' & ? & _ & He & _).
    simplify_eq. by rewrite Hp in He. }
  assert (sound (goto c Registered b)) as [H1 H2 H3 H4].
  { apply sound_upd; [done|]. intros k' ?. simplify_eq. by rewrite Ht. }
  split; [|intros c' k' Hk'|done..].
  - intros i c'. unfold enter. simpl calls.
    intros [[<- <-]|[Hne Hc]]%lookup_insert_Some; [|by apply H1].
    change (store _) with (store (goto c Registered b)). unfold goto. rewrite store_upd, decide_True, Hk by done. by eexists.
  - change (store _) with (store (goto c Registered b)) in Hk'. specialize (H2 c' k' Hk').
    unfold tracked in *. simpl in H2 |- *. destruct (decide (c' = c)) as [->|].
    + unfold goto in Hk'. rewrite store_upd, decide_True, Hk in Hk' by done. injection Hk' as <-.
      simpl in *. rewrite Hs, HL in *. apply (life_open c _ 0).
    + destruct (decide (toolCallID k = toolCallID k')) as [<-|].
      * rewrite lookup_insert_eq, bool_decide_false by congruence. eauto with voxigo.
      * by rewrite lookup_insert_ne.
Qed.

Lemma forget_store c k b : store (forget c k b) = store b.
Proof. unfold forget. by case_decide. Qed.
Lemma forget_decided c k b : decided (forget c k b) = decided b.
Proof. unfold forget. by case_decide. Qed.

Lemma early_untracked b c k : sound b -> store b !! c = Some k ->
  early (at_ k) = true \/ at_ k = Returned -> tracked b c k = false.
Proof.
  intros H Hk Hp. unfold tracked. apply bool_decide_eq_false. intros Hc.
  apply (snd_calls _ H) in Hc as (k' & ? & _ & He & Hr). simplify_eq. destruct Hp; congruence.
Qed.

Lemma stopTimer_fields k : toolCallID (stopTimer k) = toolCallID k /\ settled (stopTimer k) = settled k
  /\ at_ (stopTimer k) = at_ k /\ item (stopTimer k) = item k.
Proof. unfold stopTimer. by destruct (timer k). Qed.

(** An assignment to the timer or the context. *)
Lemma sound_side c f b : (forall k, toolCallID (f k) = toolCallID k /\ settled (f k) = settled k /\ at_ (f k) = at_ k) ->
  sound b -> sound (upd c f b).
Proof.
  intros Hf H. apply sound_upd; [done|]. intros k Hk. destruct (Hf k) as (-> & -> & ->). split_and!; [done..|].
  intros Ht. destruct (early (at_ k)) eqn:He; [by rewrite (early_untracked b c k) in Ht; auto|].
  split; [done|]. intros Hr. by rewrite (early_untracked b c k) in Ht; auto.
Qed.

Lemma sound_goto c p b : sound b -> early p = false ->
  (p = Returned -> forall k, store b !! c = Some k -> tracked b c k = false) -> sound (goto c p b).
Proof.
  intros H Hp Ht. apply sound_upd; [done|]. intros k Hk. simpl.
  split_and!; [done..|by rewrite Hp|]. intros T. split; [done|]. intros ->. by rewrite (Ht eq_refl k) in T.
Qed.

Lemma sound_leave c k b : sound b -> store b !! c = Some k -> sound (leave c k b).
Proof.
  intros H Hk. unfold leave. set (b0 := upd c stopTimer b). set (b1 := forget c k b0).
  set (b2 := upd c (fun k => k <| canceled := true |>) b1).
  assert (sound b0) as H0 by (apply sound_side; [intros x; by destruct (stopTimer_fields x) as (? & ? & ? & _)|done]).
  assert (sound b1) as H1 by by apply sound_forget.
  assert (sound b2) as H2 by by apply sound_side.
  assert (sound (goto c Returned b2)) as H3.
  { apply sound_goto; [done..|]. intros _ k2. unfold b2. rewrite store_upd, decide_True by done.
    unfold b1. rewrite forget_store. unfold b0. rewrite store_upd, decide_True, Hk by done. intros [= <-].
    destruct (stopTimer_fields k) as (Ei & _). unfold tracked. simpl. rewrite Ei. apply (forget_tracked c k b0). }
  case_decide; [by apply (sound_ext (goto c Returned b2))|done].
Qed.

Lemma sound_report c k final ts b : sound b -> store b !! c = Some k -> early (at_ k) = false ->
  sound (report c k final ts b).
Proof.
  intros H Hk He. unfold report. destruct (negb final && _); [by apply (sound_ext b)|].
  destruct (settled k) eqn:Hs; [by apply (sound_ext b)|].
  pose proof (snd_life _ H _ _ Hk) as Hl. rewrite Hs in Hl.
  assert (sound (decide_ (ResultEvent c final) (upd c (fun k => k <| settled := final |>) b))) as H1.
  { apply (sound_decide b c k); [done..|by apply life_report]. }
  destruct final; [by apply (sound_ext (decide_ (ResultEvent c true) (upd c (fun k => k <| settled := true |>) b)))|].
  assert (store (upd c (fun k => k <| settled := false |>) b) = store b) as E.
  { apply upd_id. intros k' ?. simplify_eq. destruct k as [? ? ? ? s0]. simpl in *. by subst s0. }
  apply (sound_ext (decide_ (ResultEvent c false) (upd c (fun k => k <| settled := false |>) b))); [|done..].
  by symmetry.
Qed.

Lemma sound_timeout c k b : sound b -> store b !! c = Some k -> early (at_ k) = false ->
  sound (timeoutFunctionCall c k b).
Proof.
  intros H Hk He. unfold timeoutFunctionCall. set (b0 := upd c _ b).
  assert (sound b0) as H0 by by apply sound_side. destruct (settled k) eqn:Hs; [done|].
  set (k0 := k <| timer := Stopped |>).
  assert (store b0 !! c = Some k0) as Hk0 by (unfold b0; rewrite store_upd, decide_True by done; by rewrite Hk).
  assert (sound (decide_ (CancelEvent c true) (upd c (fun k => k <| settled := true |>) (forget c k0 b0)))) as H1.
  { apply (sound_decide _ c k0); [by apply sound_forget|by rewrite forget_store|done|done|].
    rewrite forget_tracked, forget_decided. eapply life_timeout. pose proof (snd_life _ H0 _ _ Hk0) as Hl.
    simpl in Hl. rewrite Hs in Hl. apply Hl. }
  eapply sound_ext; [..|apply H1]; unfold forget; simpl; by case_decide.
Qed.

Lemma takeOut_eq b c k : store b !! c = Some k -> calls b !! toolCallID k = Some c ->
  takeOut b c = decide_ (CancelEvent c false) (upd c (fun k => k <| settled := true |>) (forget c k b)).
Proof. intros Hk Hc. unfold takeOut, forget. by rewrite Hk, decide_True. Qed.

Lemma sound_takeOut b c k : sound b -> store b !! c = Some k -> calls b !! toolCallID k = Some c ->
  sound (takeOut b c).
Proof.
  intros H Hk Hc. rewrite (takeOut_eq _ _ _ Hk Hc). destruct (snd_calls _ H _ _ Hc) as (k' & ? & _ & He & _).
  simplify_eq. apply (sound_decide _ c k); [by apply sound_forget|by rewrite forget_store|done|done|].
  rewrite forget_tracked, forget_decided. eapply life_cancel. pose proof (snd_life _ H _ _ Hk) as Hl.
  unfold tracked in Hl. rewrite bool_decide_true in Hl by done. apply Hl.
Qed.

(** ** Deadlines *)

(** A program still to stop the timer of call [c], or to return from it. *)
Definition touches (c : nat) (t : list stmt) : Prop := StopTimer c ∈ t \/ ReturnFrom c ∈ t.

(** Until its handler runs a call has no timer; while it runs and nothing has been
    decided of it, a call with a deadline has its timer armed or about to act.  A program
    touches a call only once something was decided of it. *)
Definition timerOk (b : Base) (c : nat) (k : functionCall) : Prop :=
  match at_ k with
  | Requested | Waiting | Registered | Announced => timer k = NoTimer
  | Running => 0 < deadlineOf k b -> logOf c (decided b) = [] -> timer k = Armed \/ timer k = Expired
  | _ => True
  end.
Definition timed (b : Base) : Prop :=
  (forall c k, store b !! c = Some k -> timerOk b c k)
  /\ (forall t c, t ∈ tasks b -> touches c t -> logOf c (decided b) <> []).

(** Only what is decided, the tasks and the bound of the service matter besides the
    store, and deciding more does no harm. *)
Lemma timed_grow b b' : timed b -> store b' = store b -> callTimeout b' = callTimeout b ->
  (forall c, logOf c (decided b') = [] -> logOf c (decided b) = []) ->
  (forall t c, t ∈ tasks b' -> touches c t -> logOf c (decided b') <> []) -> timed b'.
Proof.
  intros [H1 H2] Es Ec Hl Ht. split; [|done]. intros c k. rewrite Es. intros Hk. specialize (H1 c k Hk).
  unfold timerOk, deadlineOf in *. rewrite Ec. destruct (at_ k); try done. auto.
Qed.

Lemma timed_upd c f b : timed b -> (forall k, store b !! c = Some k -> timerOk b c (f k)) -> timed (upd c f b).
Proof.
  intros [H1 H2] Hf. split; [|done]. intros c' k. rewrite store_upd. destruct (decide (c = c')) as [<-|]; [|apply H1].
  destruct (store b !! c) as [k0|] eqn:E; [|done]. intros [= <-]. by apply (Hf k0).
Qed.

Lemma forget_timed c k b : timed b -> timed (forget c k b).
Proof. intros H. unfold forget. case_decide; [|done]. by apply (timed_grow b); [done..|destruct H]. Qed.

(** An assignment that leaves the phase, the item and the timer alone. *)
Lemma timed_side c f b : (forall k, at_ (f k) = at_ k /\ item (f k) = item k /\ timer (f k) = timer k) ->
  timed b -> timed (upd c f b).
Proof.
  intros Hf H. apply timed_upd; [done|]. intros k Hk. destruct (Hf k) as (Ea & Ei & Et).
  pose proof (proj1 H c k Hk) as Ok. unfold timerOk, deadlineOf in *. by rewrite Ea, Ei, Et.
Qed.

Lemma timed_goto c p b : timed b -> p ∈ [Failing; Closing; Returned] -> timed (goto c p b).
Proof.
  intros H Hp. apply timed_upd; [done|]. intros k Hk.
  rewrite !elem_of_cons in Hp. by destruct Hp as [->|[->|[->|Hp%not_elem_of_nil]]].
Qed.

Lemma timed_stop c b : timed b -> logOf c (decided b) <> [] -> timed (upd c stopTimer b).
Proof.
  intros H Hl. apply timed_upd; [done|]. intros k Hk. pose proof (proj1 H c k Hk) as Ok.
  destruct (stopTimer_fields k) as (_ & _ & Ea & _). unfold timerOk in *. rewrite Ea.
  destruct (at_ k) eqn:E; try done; unfold stopTimer; by rewrite Ok.
Qed.

Lemma timed_spawn t b : timed b -> (forall c, touches c t -> logOf c (decided b) <> []) -> timed (spawn t b).
Proof.
  intros H Ht. apply (timed_grow b); [done..|]. intros t' c. simpl. rewrite elem_of_app, list_elem_of_singleton.
  intros [Hin| ->]; [by apply H|apply Ht].
Qed.

Lemma logOf_snoc_nonempty c es e : about c e = true -> logOf c (es ++ [e]) <> [].
Proof. intros H. rewrite logOf_app. unfold logOf at 2. simpl. rewrite H. by destruct (logOf c es). Qed.

Lemma timed_decide e b : timed b -> timed (decide_ e b).
Proof.
  intros H. apply (timed_grow b); [done..| |].
  - intros c. simpl. rewrite logOf_app. by intros [? _]%app_eq_nil.
  - intros t c Ht Hs. simpl. rewrite logOf_app. intros [E _]%app_eq_nil. by apply (proj2 H t c).
Qed.

Lemma timed_leave c k b : timed b -> store b !! c = Some k -> timed (leave c k b).
Proof.
  intros H Hk. unfold leave. set (b1 := forget c k (upd c stopTimer b)).
  assert (timed (goto c Returned (upd c (fun k => k <| canceled := true |>) b1))) as H1.
  { split; [|unfold b1, forget; case_decide; by apply H].
    intros c' k'. unfold goto. rewrite store_upd. rewrite store_upd. unfold b1. rewrite forget_store, store_upd.
    destruct (decide (c = c')) as [<-|].
    - rewrite Hk. by intros [= <-].
    - intros Hk'. pose proof (proj1 H c' k' Hk') as Ok. unfold timerOk, deadlineOf in *. simpl.
      unfold forget. destruct (at_ k'); try done. by case_decide. }
  case_decide; [|done]. by apply (timed_grow _ _ H1); [done..|apply H1].
Qed.

Lemma settled_log b c k : sound b -> store b !! c = Some k -> settled k = true -> logOf c (decided b) <> [].
Proof.
  intros H Hk Hs. pose proof (snd_life _ H c k Hk) as L. rewrite Hs in L.
  inversion L; by destruct (replicate n (ResultEvent c false)).
Qed.

Lemma timed_report c k final ts b : sound b -> timed b -> store b !! c = Some k ->
  (forall c', touches c' ts -> c' = c /\ final = true) -> timed (report c k final ts b).
Proof.
  intros H T Hk Hts. unfold report.
  destruct (negb final && _) eqn:En; [apply timed_spawn; [done|]; by intros c' [_ ->]%Hts|].
  destruct (settled k) eqn:Hs.
  { apply timed_spawn; [done|]. intros c' [-> _]%Hts. by eapply settled_log. }
  apply timed_spawn.
  - apply timed_decide. destruct final; [by apply timed_side|done].
  - intros c' Hc'. assert (c' = c) as ->.
    { assert (c' = c \/ touches c' ts) as [->|?%Hts]; [|done|tauto]. unfold touches in *. set_solver. }
    simpl. apply logOf_snoc_nonempty. simpl. by apply bool_decide_eq_true.
Qed.

Lemma timed_stopped c b : timed b -> (forall k, store b !! c = Some k -> timer k <> NoTimer) ->
  logOf c (decided b) <> [] -> timed (upd c (fun k => k <| timer := Stopped |>) b).
Proof.
  intros H Hn Hl. apply timed_upd; [done|]. intros k Hk. pose proof (proj1 H c k Hk) as Ok. pose proof (Hn k Hk).
  unfold timerOk in *. simpl. by destruct (at_ k).
Qed.

Lemma timed_timeout c k b : timed b -> store b !! c = Some k -> timer k = Expired ->
  (settled k = true -> logOf c (decided b) <> []) -> timed (timeoutFunctionCall c k b).
Proof.
  intros H Hk He Hs. unfold timeoutFunctionCall.
  assert (forall k', store b !! c = Some k' -> timer k' <> NoTimer) as Hn by (intros k' ?; by simplify_eq; rewrite He).
  destruct (settled k) eqn:E; [by apply timed_stopped; auto|].
  set (b1 := upd c _ (upd c _ b)).
  assert (timed (decide_ (CancelEvent c true) b1)) as H1.
  { apply (timed_side c (fun k => k <| settled := true |>)
             (upd c (fun k => k <| timer := Stopped |>) (decide_ (CancelEvent c true) b))); [done|].
    apply timed_stopped; [by apply timed_decide|done|]. by apply logOf_snoc_nonempty, bool_decide_eq_true. }
  apply timed_spawn; [|intros c' Ht; unfold touches in Ht; set_solver].
  replace (decide_ (CancelEvent c true) (forget c k b1)) with (forget c k (decide_ (CancelEvent c true) b1))
    by (unfold forget; simpl; by case_decide).
  by apply forget_timed.
Qed.

Lemma timed_takeOut b c : timed b -> timed (takeOut b c).
Proof.
  intros H. unfold takeOut. destruct (store b !! c) as [k|]; [|done]. apply timed_decide, timed_side; [done|].
  by apply (timed_grow b); [done..|destruct H].
Qed.

Lemma timed_calls g cs b : sound b -> timed b -> timed (runFunctionCalls g cs b).
Proof.
  intros Hs H. split; [|apply H]. intros c k. simpl. intros [Hk|[_ Hk]]%lookup_app_Some; [by apply (proj1 H c k)|].
  apply list_elem_of_lookup_2, list_elem_of_fmap in Hk as ([[it n] i] & -> & _). done.
Qed.

Lemma sound_calls g cs b : sound b -> sound (runFunctionCalls g cs b).
Proof.
  intros [H1 H2 H3 H4].
  assert (forall c k, store (runFunctionCalls g cs b) !! c = Some k ->
    store b !! c = Some k \/ (store b !! c = None /\ at_ k = Requested /\ settled k = false)) as Hs.
  { intros c k. simpl. intros [Hk|[Hge Hk]]%lookup_app_Some; [by left|right].
    split; [by apply lookup_ge_None_2|].
    apply list_elem_of_lookup_2, list_elem_of_fmap in Hk as ([[it n] i] & -> & _). done. }
  split.
  - intros i c Hc. destruct (H1 i c Hc) as (k & Hk & ?). exists k. split; [|done]. simpl. by apply lookup_app_l_Some.
  - intros c k [Hk|(Hk & Hp & Hn)]%Hs; [by apply H2|].
    simpl. rewrite (H4 _ Hk), Hn. apply (life_open c _ 0).
  - intros c k [Hk|(Hk & Hp & Hn)]%Hs; [by apply H3|]. auto.
  - intros c Hk. apply H4, lookup_ge_None_2. apply lookup_ge_None in Hk. simpl in Hk. rewrite length_app in Hk. lia.
Qed.

(** The calls an interruption collects are tracked, each once. *)
Lemma collects_spec b cs : sound b -> collects b cs ->
  NoDup cs /\ forall c, c ∈ cs <-> exists k, store b !! c = Some k /\ calls b !! toolCallID k = Some c
                                          /\ cancelOnInterruption (item k) = true.
Proof.
  intros H Hc. unfold collects in Hc.
  assert (NoDup (List.map snd (map_to_list (calls b)))) as Hnd.
  { apply NoDup_fmap_2_strong; [|apply NoDup_map_to_list].
    intros [i c] [j c'] Hi%elem_of_map_to_list Hj%elem_of_map_to_list E. simpl in E. subst c'.
    apply (snd_calls _ H) in Hi as (k & ? & <- & _). apply (snd_calls _ H) in Hj as (k' & ? & <- & _). by simplify_eq. }
  split.
  - rewrite Hc. by apply NoDup_ListNoDup, List.NoDup_filter, NoDup_ListNoDup.
  - intros c. rewrite Hc, list_elem_of_In, List.filter_In, <- list_elem_of_In.
    assert (c ∈ List.map snd (map_to_list (calls b)) <-> exists i, calls b !! i = Some c) as ->.
    { split; [intros ([i c'] & -> & Hi%elem_of_map_to_list)%list_elem_of_fmap; by exists i|].
      intros [i Hi%elem_of_map_to_list]. apply list_elem_of_fmap. by exists (i, c). }
    unfold interruptible. split.
    + intros [[i Hi] Hint]. destruct (snd_calls _ H _ _ Hi) as (k & Hk & E & _). rewrite Hk in Hint. exists k. by rewrite E.
    + intros (k & Hk & Hi & Hint). rewrite Hk. eauto.
Qed.

Lemma store_takeOut b c c' : store (takeOut b c) !! c'
  = (fun k => if decide (c = c') then k <| settled := true |> else k) <$> store b !! c'.
Proof.
  unfold takeOut. destruct (store b !! c) as [k|] eqn:Hk.
  - change (store (decide_ ?e ?b)) with (store b). rewrite store_upd. simpl.
    destruct (decide (c = c')); by destruct (store b !! c').
  - destruct (decide (c = c')) as [<-|]; [by rewrite Hk|by destruct (store b !! c')].
Qed.

Lemma calls_takeOut b c k : store b !! c = Some k -> calls (takeOut b c) = delete (toolCallID k) (calls b).
Proof. intros Hk. unfold takeOut. by rewrite Hk. Qed.

Lemma log_takeOut b c c' : is_Some (store b !! c) -> logOf c' (decided (takeOut b c))
  = logOf c' (decided b) ++ (if decide (c = c') then [CancelEvent c false] else []).
Proof.
  intros [k Hk]. unfold takeOut. rewrite Hk. simpl. rewrite logOf_app. unfold logOf at 2. simpl. f_equal.
  destruct (decide (c = c')); [by rewrite bool_decide_true|by rewrite bool_decide_false].
Qed.

(** Taking out calls that are tracked: those are settled and dropped, the others are
    left as they are. *)
Lemma takeOuts_spec cs b : sound b -> NoDup cs ->
  (forall c, c ∈ cs -> exists k, store b !! c = Some k /\ calls b !! toolCallID k = Some c) ->
  let b' := fold_left takeOut cs b in
  sound b'
  /\ (forall c, store b' !! c = (fun k => if decide (c ∈ cs) then k <| settled := true |> else k) <$> store b !! c)
  /\ (forall c, logOf c (decided b') = logOf c (decided b) ++ (if decide (c ∈ cs) then [CancelEvent c false] else []))
  /\ (forall i c, calls b' !! i = Some c <-> calls b !! i = Some c /\ c ∉ cs).
Proof.
  intros H Hnd. revert b H. induction Hnd as [|c cs Hc Hnd IH]; intros b H Hin; simpl.
  { split_and!; [done|intros c; by destruct (store b !! c)|intros c; by rewrite app_nil_r|set_solver]. }
  destruct (Hin c ltac:(set_solver)) as (k & Hk & Hi).
  destruct (IH (takeOut b c)) as (I1 & I2 & I3 & I4).
  { by eapply sound_takeOut. }
  { intros c' Hc'. destruct (Hin c' ltac:(set_solver)) as (k' & Hk' & Hi'). exists k'.
    rewrite store_takeOut, Hk', (calls_takeOut _ _ k Hk). simpl. rewrite decide_False by set_solver.
    split; [done|]. rewrite lookup_delete_ne; [done|]. intros E. rewrite E in Hi. set_solver. }
  split_and!; [done|intros c'..|].
  - rewrite I2, store_takeOut. destruct (store b !! c'); [|done]. simpl. f_equal.
    destruct (decide (c = c')) as [<-|Hne].
    + rewrite (decide_False (P := c ∈ cs)) by done. by rewrite decide_True by set_solver.
    + destruct (decide (c' ∈ cs)); [by rewrite decide_True by set_solver|by rewrite decide_False by set_solver].
  - rewrite I3, log_takeOut by done. rewrite <- app_assoc. f_equal. destruct (decide (c = c')) as [<-|Hne].
    + rewrite (decide_False (P := c ∈ cs)) by done. by rewrite decide_True by set_solver.
    + destruct (decide (c' ∈ cs)); [by rewrite decide_True by set_solver|by rewrite decide_False by set_solver].
  - intros i c'. rewrite I4, (calls_takeOut _ _ k Hk), lookup_delete_Some. rewrite not_elem_of_cons.
    split; [|intros (Hi' & Hne & ?); split_and!; try done; intros E; rewrite <- E in Hi'; congruence].
    intros [[Hne Hi'] ?]. split_and!; try done. intros ->. apply Hne.
    destruct (snd_calls _ H _ _ Hi') as (k' & ? & E & _). by simplify_eq.
Qed.

Definition inv (b : Base) : Prop := sound b /\ timed b.

Lemma inv_exec s b : inv b -> (forall c, touches c [s] -> logOf c (decided b) <> []) -> inv (exec s b).
Proof.
  intros [H T] Hs. destruct s as [c|c|e|c]; simpl.
  - split; [by apply sound_side|by apply timed_side].
  - split; [apply sound_side; [intros x; by destruct (stopTimer_fields x) as (? & ? & ? & _)|done]|].
    apply timed_stop; [done|]. apply Hs. left. set_solver.
  - split; [by apply (sound_ext b)|]. by apply (timed_grow b); [done..|destruct T].
  - destruct (store b !! c) as [k|] eqn:Hk; [|done]. split; [by apply sound_leave|by apply timed_leave].
Qed.

Lemma inv_cancel cs b : inv b -> NoDup cs ->
  (forall c, c ∈ cs -> exists k, store b !! c = Some k /\ calls b !! toolCallID k = Some c) ->
  forall t, (forall c, ~ touches c t) -> inv (spawn t (fold_left takeOut cs b)).
Proof.
  intros [H T] Hnd Hin t Ht. destruct (takeOuts_spec cs b H Hnd Hin) as (H' & _).
  split; [by apply (sound_ext (fold_left takeOut cs b))|].
  apply timed_spawn; [|by intros c ?%Ht]. clear -T. revert b T. induction cs as [|c cs IH]; intros b T; [done|].
  simpl. apply IH. by apply timed_takeOut.
Qed.

Lemma cancelProgram_stops cs c : ~ touches c (List.concat (List.map cancelProgram cs)).
Proof. unfold touches. induction cs as [|c' cs IH]; simpl; set_solver. Qed.

Lemma goto_ext c p b b' : store b' = store b -> store (goto c p b') = store (goto c p b).
Proof. intros E. unfold goto, upd. simpl. by rewrite E. Qed.

Lemma timed_phase c p b : timed b -> (forall k, store b !! c = Some k -> timer k = NoTimer) ->
  p ∈ [Requested; Waiting; Registered; Announced] -> timed (goto c p b).
Proof.
  intros T Hn Hp. apply timed_upd; [done|]. intros k Hk. pose proof (Hn k Hk). unfold timerOk. simpl.
  rewrite !elem_of_cons in Hp. by destruct Hp as [->|[->|[->|[->|Hp%not_elem_of_nil]]]].
Qed.

Lemma quiet_timer b c k p : timed b -> inPhase b c k p -> p ∈ [Requested; Waiting; Registered; Announced] ->
  forall k', store b !! c = Some k' -> timer k' = NoTimer.
Proof.
  intros T [Hk Hp] Hin k' Hk'. assert (k' = k) as -> by congruence. pose proof (proj1 T c k Hk) as Ok. unfold timerOk in Ok.
  rewrite Hp in Ok. rewrite !elem_of_cons in Hin. by destruct Hin as [->|[->|[->|[->|Hin%not_elem_of_nil]]]].
Qed.

Lemma inv_enter b c k : inv b -> inPhase b c k Waiting -> inv (enter c k b).
Proof.
  intros [H T] Hp. split; [by apply sound_enter|].
  assert (timed (goto c Registered b)) as T1.
  { apply timed_phase; [done|eapply quiet_timer; [done..|set_solver]|set_solver]. }
  by apply (timed_grow _ _ T1); [done..|apply T1].
Qed.

Lemma expired_late b c k : timed b -> store b !! c = Some k -> timer k <> NoTimer -> early (at_ k) = false.
Proof. intros T Hk He. pose proof (proj1 T c k Hk) as Ok. unfold timerOk in Ok. by destruct (at_ k). Qed.

Lemma inv_start b c k : inv b -> inPhase b c k Announced -> inv (startCallTimeout c k b).
Proof.
  intros [H T] Hp. pose proof (quiet_timer b c k Announced T Hp ltac:(set_solver)) as Hn. destruct Hp as [Hk Hp].
  unfold startCallTimeout. destruct (deadlineOf k b <=? 0) eqn:Ed.
  - split; [by apply sound_goto|]. apply timed_upd; [done|]. intros k' Hk'. unfold timerOk. simpl.
    unfold deadlineOf in *. simpl. simplify_eq. intros Hd. lia.
  - split; [apply sound_goto; [by apply sound_side|done..]|]. split; [|apply T].
    intros c' k'. unfold goto. rewrite !store_upd. destruct (decide (c = c')) as [<-|]; [|apply T].
    rewrite Hk. intros [= <-]. unfold timerOk. simpl. auto.
Qed.

Lemma inv_runs b b' : runs b b' -> inv b -> inv b'.
Proof.
  intros Hr [H T]. destruct Hr as [b c k Hp Hroom Hord|b c k Hpar Hp|b c k q Hpar Hrun Hq Hp|b c k Hp|b c k Hp
    |b c k Hk Ht|b c k Hk Ht|b c k Hp|b ts1 s t ts2 Ets].
  - assert (inv (goto c Waiting b)) as [H1 T1].
    { split; [|apply timed_phase; [done|eapply quiet_timer; [done..|set_solver]|set_solver]].
      destruct Hp as [Hk Hp]. apply sound_upd; [done|]. intros k' Hk'. assert (k' = k) as -> by congruence. simpl.
      split_and!; [done|done|by rewrite Hp|].
      rewrite (early_untracked b c k H Hk (or_introl (f_equal early Hp))). done. }
    unfold launch. destruct (runInParallel (goto c Waiting b)); [by split|]. split; [by apply (sound_ext (goto c Waiting b))|].
    by apply (timed_grow _ _ T1); [done..|apply T1].
  - by apply inv_enter.
  - apply inv_enter; [|done]. split; [by apply (sound_ext b)|]. by apply (timed_grow b); [done..|destruct T].
  - assert (inv (goto c Announced b)) as [H1 T1].
    { split; [by apply sound_goto|]. apply timed_phase; [done|eapply quiet_timer; [done..|set_solver]|set_solver]. }
    split; [by apply (sound_ext (goto c Announced b))|]. by apply (timed_grow _ _ T1); [done..|apply T1].
  - by apply inv_start.
  - split; [by apply sound_side|]. apply timed_upd; [done|]. intros k' Hk'.
    assert (k' = k) as -> by congruence. pose proof (proj1 T c k Hk) as Ok. unfold timerOk in *. simpl. destruct (at_ k); try done; try congruence. auto.
  - split; [apply sound_timeout; [done..|]; eapply expired_late; [done..|congruence]|].
    apply timed_timeout; [done..|by apply settled_log].
  - destruct Hp as [Hk Hp]. assert (early (at_ k) = false) as He by by rewrite Hp. split.
    + apply sound_goto; [by apply sound_report|done..].
    + apply timed_goto; [|set_solver]. apply timed_report; [done..|]. intros c' Ht. unfold touches in Ht. split; [set_solver|done].
  - apply inv_exec.
    + split; [by apply (sound_ext b)|]. apply (timed_grow b); [done..|]. simpl. intros t' c Ht' Hs.
      rewrite elem_of_app, elem_of_cons in Ht'. pose proof (proj2 T) as T2. rewrite Ets in T2.
      destruct Ht' as [?|[->|?]]; [apply (T2 t')|apply (T2 (s :: t))|apply (T2 t')]; unfold touches in *; set_solver.
    + intros c Hc. apply (proj2 T (s :: t)); [rewrite Ets; set_solver|]. unfold touches in *. set_solver.
Qed.

Lemma calls_inv_step b b' : step b b' -> inv b -> inv b'.
Proof.
  intros [? ? Hr|? ? Hh|? ? Ha] I; [by eapply inv_runs|..].
  - destruct I as [H T]. destruct Hh as [? c k final Hk Hp|? c k [Hk Hp]|? c k [Hk Hp]].
    + split; [|apply timed_report; [done..|intros c' Ht; unfold touches in Ht; set_solver]]. apply sound_report; [done..|].
      rewrite !elem_of_cons in Hp. by destruct Hp as [->|[->|[->|[->|Hp%not_elem_of_nil]]]].
    + split; [by apply sound_leave|by apply timed_leave].
    + split; [by apply sound_goto|]. apply timed_goto; [done|set_solver].
  - destruct Ha as [? g cs|b0 cs Hc|b0 i].
    + destruct I. split; [by apply sound_calls|by apply timed_calls].
    + destruct (collects_spec b0 cs (proj1 I) Hc) as [Hnd Hin]. apply inv_cancel; [done..| |apply cancelProgram_stops].
      intros c (k & ? & ? & _)%Hin. eauto.
    + unfold cancelFunctionCallByID. destruct (calls b0 !! i) as [c|] eqn:Hi; [|done]. simpl.
      apply (inv_cancel [c] b0 I); [apply NoDup_singleton| |intros c'; unfold touches; set_solver].
      intros c' ->%list_elem_of_singleton. destruct (snd_calls _ (proj1 I) _ _ Hi) as (k & Hk & E & _). exists k. by rewrite E.
Qed.

Lemma calls_inv_reachable b : reachable b -> inv b.
Proof.
  intros (b0 & (p & d & a & ->) & Hr). eapply rtc_invariant; [exact Hr|apply calls_inv_step|].
  split; [split|split]; simpl; try done; set_solver.
Qed.

(** ** Nothing follows a cancellation *)

Definition verdict (e : event) : bool := match e with InProgressEvent _ => false | _ => true end.
Definition pending (ts : list (list stmt)) : list event :=
  omap (fun s => match s with Broadcast e => if verdict e then Some e else None | _ => None end) (List.concat ts).

Lemma pending_app ts us : pending (ts ++ us) = pending ts ++ pending us.
Proof. unfold pending. by rewrite List.concat_app, omap_app. Qed.

Lemma pending_cons s t ts : pending ((s :: t) :: ts) = pending [[s]] ++ pending (t :: ts).
Proof. unfold pending. simpl. destruct s; simpl; try done. by destruct (verdict e). Qed.

(** A step decides some events more, and every event decided is broadcast once or
    still to be. *)
Definition grows (b b' : Base) : Prop := exists es, decided b' = decided b ++ es
  /\ List.filter verdict (out b') ++ pending (tasks b') ≡ₚ List.filter verdict (out b) ++ pending (tasks b) ++ es.

Lemma grows_same b b' : decided b' = decided b -> out b' = out b -> tasks b' = tasks b -> grows b b'.
Proof. intros Ed Eo Et. exists []. by rewrite Ed, Eo, Et, !app_nil_r. Qed.

Lemma grows_spawn b b' t : tasks b' = tasks b ++ [t] -> out b' = out b -> decided b' = decided b ++ pending [t] -> grows b b'.
Proof. intros Et Eo Ed. exists (pending [t]). by rewrite Ed, Eo, Et, pending_app. Qed.

Lemma leave_kept c k b : decided (leave c k b) = decided b /\ out (leave c k b) = out b /\ tasks (leave c k b) = tasks b.
Proof. unfold leave, forget. by repeat case_decide. Qed.

Lemma report_grows c k final ts b : pending [ts] = [] -> grows b (report c k final ts b).
Proof.
  intros Hts. unfold report.
  assert (grows b (spawn ts b)).
  { apply (grows_spawn _ _ ts); [done|done|]. rewrite Hts. symmetry. apply app_nil_r. }
  destruct (negb final && _); [done|]. destruct (settled k); [done|].
  apply (grows_spawn _ _ ([StopTimer c; Broadcast (ResultEvent c final)] ++ ts)); [by destruct final..|].
  change (pending [[StopTimer c; Broadcast (ResultEvent c final)] ++ ts])
    with (ResultEvent c final :: pending [ts]). rewrite Hts. by destruct final.
Qed.

Lemma takeOuts_grow cs b : (forall c, c ∈ cs -> is_Some (store b !! c)) ->
  grows b (spawn (List.concat (List.map cancelProgram cs)) (fold_left takeOut cs b)).
Proof.
  intros Hin.
  assert (tasks (fold_left takeOut cs b) = tasks b /\ out (fold_left takeOut cs b) = out b
    /\ decided (fold_left takeOut cs b) = decided b ++ pending [List.concat (List.map cancelProgram cs)]) as (Et & Eo & Ed).
  { revert b Hin. induction cs as [|c cs IH]; intros b Hin; [by rewrite app_nil_r|].
    destruct (Hin c ltac:(set_solver)) as [k Hk]. cbn [fold_left].
    destruct (IH (takeOut b c)) as (-> & -> & ->).
    { intros c' Hc'. rewrite store_takeOut. apply fmap_is_Some, Hin. set_solver. }
    unfold takeOut. rewrite Hk. simpl. split_and!; [done..|]. by rewrite <- app_assoc. }
  eapply grows_spawn; simpl; by rewrite ?Et, ?Eo, ?Ed.
Qed.

Lemma grows_step b b' : step b b' -> sound b -> grows b b'.
Proof.
  intros [? ? Hr|? ? Hh|? ? Ha] I.
  - destruct Hr as [b1 c k Hp Hroom Hord|? c k|? c k q|? c k|? c k|? c k|b1 c k Hk Ht|b1 c k|b1 ts1 s t ts2 Ets];
      try by apply grows_same.
    + apply grows_same; unfold launch; by case_match.
    + exists []. split; [by rewrite app_nil_r|]. simpl. rewrite List.filter_app. simpl. by rewrite !app_nil_r.
    + apply grows_same; unfold startCallTimeout; by case_match.
    + unfold timeoutFunctionCall. destruct (settled k); [by apply grows_same|].
      eapply grows_spawn; unfold forget; by case_decide.
    + by apply (report_grows c k true [ReturnFrom c]).
    + assert (pending (tasks b1) ≡ₚ pending [[s]] ++ pending (ts1 ++ t :: ts2)) as Hperm.
      { rewrite Ets, !pending_app, pending_cons. apply Permutation_app_swap_app. }
      assert (forall b2, decided b2 = decided b1 -> out b2 = out b1 -> tasks b2 = ts1 ++ t :: ts2 ->
        pending [[s]] = [] -> grows b1 b2) as Hq.
      { intros b2 Ed Eo Et Es. exists []. rewrite Ed, Eo, Et, Hperm, Es, !app_nil_r. done. }
      destruct s as [c|c|e|c]; simpl; [by apply Hq..| |].
      * exists []. split; [by rewrite app_nil_r|]. simpl. rewrite List.filter_app, Hperm. unfold pending at 2. simpl.
        rewrite app_nil_r, <- app_assoc. by destruct (verdict e).
      * destruct (store b1 !! c) as [k|]; [|by apply Hq].
        match goal with |- grows _ (leave c k ?b) => destruct (leave_kept c k b) as (E1 & E2 & E3) end.
        apply Hq; [by rewrite E1|by rewrite E2|by rewrite E3|done].
  - destruct Hh as [? c k final|? c k|? c k]; [by apply report_grows|apply grows_same; apply leave_kept|by apply grows_same].
  - destruct Ha as [? g cs|b0 cs Hc|b0 i]; [by apply grows_same|..].
    + apply takeOuts_grow. intros c Hin. apply (collects_spec b0 cs I Hc) in Hin as (k & Hk & _). by rewrite Hk.
    + unfold cancelFunctionCallByID. destruct (calls b0 !! i) as [c|] eqn:Hi; [|by apply grows_same]. simpl.
      destruct (snd_calls _ I _ _ Hi) as (k & Hk & _).
      apply (takeOuts_grow [c]). intros c' ->%list_elem_of_singleton. by rewrite Hk.
Qed.

Lemma emitted_reachable b : reachable b ->
  sound b /\ List.filter verdict (out b) ++ pending (tasks b) ≡ₚ decided b.
Proof.
  intros (b0 & (p & d & a & ->) & Hr).
  apply (rtc_invariant step (fun b => inv b /\ List.filter verdict (out b) ++ pending (tasks b) ≡ₚ decided b)) in Hr
    as [[? ?] ?]; [done| |].
  - intros b1 b2 Hs [I E]. split; [by eapply calls_inv_step|]. destruct (grows_step _ _ Hs (proj1 I)) as (es & -> & ->).
    by rewrite app_assoc, E.
  - split; [apply calls_inv_reachable; exists (New p d a); split; [by exists p, d, a|done]|done].
Qed.

(** *** A call that is over *)

(** Its verdict decided and its handler back. *)
Definition over (b : Base) (c : nat) : Prop :=
  exists k, store b !! c = Some k /\ settled k = true /\ at_ k = Returned.

Lemma over_upd c c' f b : (forall k, settled (f k) = settled k \/ settled (f k) = true) ->
  (forall k, store b !! c' = Some k -> at_ k = Returned -> at_ (f k) = Returned) -> over b c -> over (upd c' f b) c.
Proof.
  intros Hs Hf (k & Hk & Hk1 & Hk2). unfold over. rewrite store_upd. destruct (decide (c' = c)) as [->|]; [|by exists k].
  rewrite Hk. exists (f k). split; [done|]. split; [|by apply Hf]. by destruct (Hs k) as [->|].
Qed.

Lemma over_same b b' c : store b' = store b -> over b c -> over b' c.
Proof. intros E (k & Hk & H). exists k. by rewrite E. Qed.

Lemma over_goto c c' k p b : store b !! c' = Some k -> at_ k <> Returned -> over b c -> over (goto c' p b) c.
Proof. intros Hk Hp. apply over_upd; [by left|]. intros k' Hk' E. congruence. Qed.

Lemma over_stop c c' b : over b c -> over (upd c' stopTimer b) c.
Proof.
  apply over_upd; [intros k; left; apply stopTimer_fields|]. intros k _. by destruct (stopTimer_fields k) as (_ & _ & -> & _).
Qed.

Lemma over_leave c c' k b : over b c -> over (leave c' k b) c.
Proof.
  intros H. assert (over (goto c' Returned (upd c' (fun k => k <| canceled := true |>) (forget c' k (upd c' stopTimer b)))) c) as H1.
  { apply over_upd; [by left|done|]. apply over_upd; [by left|done|].
    eapply over_same; [apply forget_store|]. by apply over_stop. }
  unfold leave. case_decide; [|exact H1]. by eapply over_same; [|exact H1].
Qed.

Lemma about_other c c' e : about c' e = true -> c' <> c -> logOf c [e] = [].
Proof.
  intros Ha Hne. unfold logOf. simpl. destruct (about c e) eqn:E; [|done]. exfalso. apply Hne.
  destruct e; simpl in *; apply bool_decide_eq_true in Ha, E; congruence.
Qed.

Lemma over_report c c' k final ts b : store b !! c' = Some k -> over b c ->
  over (report c' k final ts b) c /\ logOf c (decided (report c' k final ts b)) = logOf c (decided b).
Proof.
  intros Hk H. unfold report. destruct (negb final && _); [by split|]. destruct (settled k) eqn:Hs; [by split|].
  assert (c' <> c) as Hne by (intros ->; destruct H as (k' & Hk' & ? & _); congruence). split.
  - destruct final; [|by eapply over_same; [|exact H]].
    eapply over_same; [|apply (over_upd c c' (fun k => k <| settled := true |>)); [by right|done|exact H]]. done.
  - destruct final; simpl; rewrite logOf_app, (about_other c c'); [apply app_nil_r|by apply bool_decide_eq_true|done
      |apply app_nil_r|by apply bool_decide_eq_true|done].
Qed.

Lemma over_untracked b c k : inv b -> over b c -> store b !! c = Some k -> calls b !! toolCallID k <> Some c.
Proof.
  intros [H _] (k' & Hk' & _ & Hp) Hk Hc. assert (k' = k) as -> by congruence.
  pose proof (early_untracked b c k H Hk (or_intror Hp)) as Ht.
  by apply bool_decide_eq_false in Ht.
Qed.

Lemma over_cancel b cs t c : inv b -> NoDup cs ->
  (forall c, c ∈ cs -> exists k, store b !! c = Some k /\ calls b !! toolCallID k = Some c) -> over b c ->
  over (spawn t (fold_left takeOut cs b)) c /\
  logOf c (decided (spawn t (fold_left takeOut cs b))) = logOf c (decided b).
Proof.
  intros I Hnd Hin Ho. destruct (takeOuts_spec cs b (proj1 I) Hnd Hin) as (_ & T2 & T3 & _).
  assert (c ∉ cs) as Hc by (intros (k & Hk & Hc)%Hin; by eapply over_untracked).
  simpl. split; [|rewrite T3, decide_False by done; apply app_nil_r].
  destruct Ho as (k & Hk & H). exists k. change (store (spawn ?t ?b)) with (store b). by rewrite T2, Hk; simpl; rewrite decide_False.
Qed.

Lemma over_step b b' c : step b b' -> inv b -> over b c -> over b' c /\ logOf c (decided b') = logOf c (decided b).
Proof.
  intros [? ? Hr|? ? Hh|? ? Ha] I Ho.
  - destruct Hr as [b0 c' k [Hk Hp] Hroom Hord|b0 c' k Hpar [Hk Hp]|b0 c' k q Hpar Hrun Hq [Hk Hp]|b0 c' k [Hk Hp]|b0 c' k [Hk Hp]
      |b0 c' k Hk Ht|b0 c' k Hk Ht|b0 c' k [Hk Hp]|b0 ts1 s t ts2 Ets].
    + assert (over (goto c' Waiting b0) c) as H1 by (eapply over_goto; [done|congruence|done]).
      unfold launch. case_match; [by split|]. split; [by eapply over_same; [|exact H1]|done].
    + split; [|done]. eapply over_same; [|eapply (over_goto c c' k Registered b0); [done|congruence|done]]. done.
    + split; [|done]. eapply over_same; [|eapply (over_goto c c' k Registered b0); [done|congruence|done]]. done.
    + split; [|done]. eapply over_same; [|eapply (over_goto c c' k Announced b0); [done|congruence|done]]. done.
    + unfold startCallTimeout. case_match; (split; [|done]); [eapply over_goto; [done|congruence|done]|].
      eapply (over_goto c c' (k <| timer := Armed |>)); [by rewrite store_upd, decide_True, Hk|simpl; congruence|].
      by apply over_upd; [by left| |].
    + split; [|done]. by apply over_upd; [by left| |].
    + unfold timeoutFunctionCall. assert (over (upd c' (fun k => k <| timer := Stopped |>) b0) c) as H1 by (by apply over_upd; [by left| |]).
      destruct (settled k) eqn:Hs; [by split|].
      assert (c' <> c) as Hne by (intros ->; destruct Ho as (k' & Hk' & ? & _); congruence). split.
      * eapply over_same; [|apply (over_upd c c' (fun k => k <| settled := true |>)); [by right|done|exact H1]].
        change (store (spawn ?t ?b)) with (store b). change (store (decide_ ?e ?b)) with (store b). apply forget_store.
      * change (decided (spawn ?t ?b)) with (decided b). simpl decided. rewrite forget_decided. simpl.
        rewrite logOf_app, (about_other c c'); [apply app_nil_r|by apply bool_decide_eq_true|done].
    + destruct (over_report c c' k true [ReturnFrom c'] b0 Hk Ho) as [H1 H2]. split; [|exact H2].
      assert (c' <> c) as Hne by (intros ->; destruct Ho as (k' & Hk' & _ & ?); congruence).
      destruct H1 as (k1 & Hk1 & H1). exists k1. unfold goto. by rewrite store_upd, decide_False.
    + destruct s as [c'|c'|e|c']; simpl.
      * split; [|done]. apply over_upd; [by left|done|]. by eapply over_same; [|exact Ho].
      * split; [|done]. apply over_stop. by eapply over_same; [|exact Ho].
      * split; [|done]. by eapply over_same; [|exact Ho].
      * destruct (store b0 !! c') as [k|]; [|split; [by eapply over_same; [|exact Ho]|done]].
        split; [apply over_leave; by eapply over_same; [|exact Ho]|].
        match goal with |- context [leave c' k ?x] => by destruct (leave_kept c' k x) as (-> & _) end.
  - destruct Hh as [b0 c' k final Hk Hp|b0 c' k [Hk Hp]|b0 c' k [Hk Hp]].
    + by apply over_report.
    + split; [by apply over_leave|]. by destruct (leave_kept c' k b0) as (-> & _).
    + split; [|done]. eapply over_goto; [done|congruence|done].
  - destruct Ha as [b0 g cs|b0 cs Hc|b0 i].
    + split; [|done]. destruct Ho as (k & Hk & H). exists k. split; [|done]. by apply lookup_app_l_Some.
    + destruct (collects_spec b0 cs (proj1 I) Hc) as [Hnd Hin]. apply over_cancel; [done..| |done].
      intros c' (k & ? & ? & _)%Hin. eauto.
    + unfold cancelFunctionCallByID. destruct (calls b0 !! i) as [c'|] eqn:Hi; [|done]. simpl.
      apply (over_cancel b0 [c']); [done|apply NoDup_singleton| |done].
      intros c2 ->%list_elem_of_singleton. destruct (snd_calls _ (proj1 I) _ _ Hi) as (k & Hk & E & _). exists k. by rewrite E.
Qed.

Lemma over_run b b' c : rtc step b b' -> inv b -> over b c -> logOf c (decided b') = logOf c (decided b).
Proof.
  induction 1 as [b|b b1 b2 Hs _ IH]; intros I Ho; [done|]. destruct (over_step _ _ _ Hs I Ho) as [Ho1 E].
  rewrite (IH (calls_inv_step _ _ Hs I) Ho1). exact E.
Qed.

(** C21: how a tool call ends.  Whatever is asked of the service and whatever the
    handlers do, a call reports its progress and then has its verdict decided: its
    final result, or a cancellation, each at most once, and no result after a
    cancellation.  It has both only when it is canceled after its final result was
    reported, while its handler had yet to return; once it has a verdict and its
    handler is back, nothing more is ever decided of it.  What is decided, and nothing
    else, is broadcast: each once, or with its broadcast under way. *)
Theorem call_ends_once b c : reachable b ->
  (exists n tail, logOf c (decided b) = replicate n (ResultEvent c false) ++ tail
     /\ tail ∈ [[]; [ResultEvent c true]; [CancelEvent c false]; [CancelEvent c true];
                [ResultEvent c true; CancelEvent c false]])
  /\ (over b c -> forall b', rtc step b b' -> logOf c (decided b') = logOf c (decided b))
  /\ logOf c (List.filter verdict (out b)) ++ logOf c (pending (tasks b)) ≡ₚ logOf c (decided b).
Proof.
  intros Hb. pose proof (calls_inv_reachable _ Hb) as I. destruct (emitted_reachable _ Hb) as [H E]. split; [|split].
  - destruct (store b !! c) as [k|] eqn:Hk; [|exists 0%nat, []; rewrite (snd_none _ H _ Hk); set_solver].
    destruct (snd_life _ H _ _ Hk) as [t n|t n|n r|n].
    + exists n, []. rewrite app_nil_r. split; [done|set_solver].
    + exists n, [ResultEvent c true]. split; [done|set_solver].
    + exists n, [CancelEvent c r]. split; [done|]. destruct r; set_solver.
    + exists n, [ResultEvent c true; CancelEvent c false]. split; [done|set_solver].
  - intros Ho b' Hr. by apply over_run.
  - rewrite <- logOf_app. by apply filter_bool_perm.
Qed.

Lemma life_last c t s l : life c t s l -> forall l1 r l2, l = l1 ++ CancelEvent c r :: l2 -> l2 = [].
Proof.
  assert (forall n tail, (forall l1 r l2, tail = l1 ++ CancelEvent c r :: l2 -> l2 = []) ->
    forall l1 r l2, replicate n (ResultEvent c false) ++ tail = l1 ++ CancelEvent c r :: l2 -> l2 = []) as Hn.
  { intros n tail Ht. induction n as [|n IH]; [exact Ht|]. intros [|x l1] r l2 E; simplify_eq/=. by eapply IH. }
  destruct 1 as [t n|t n|n r0|n].
  - rewrite <- (app_nil_r (replicate _ _)). apply Hn. by intros [].
  - apply Hn. intros [|x [|]]; naive_solver.
  - apply Hn. intros [|x [|]]; naive_solver.
  - apply Hn. intros [|x [|y [|]]]; naive_solver.
Qed.

Lemma decided_grows b b' : inv b -> rtc step b b' -> inv b' /\ exists es, decided b' = decided b ++ es.
Proof.
  intros I Hr. revert I. induction Hr as [b|b b1 b2 Hs _ IH]; intros I; [split; [done|]; exists []; by rewrite app_nil_r|].
  destruct (grows_step _ _ Hs (proj1 I)) as (es & E & _). destruct (IH (calls_inv_step _ _ Hs I)) as (I2 & es2 & E2).
  split; [done|]. exists (es ++ es2). by rewrite E2, E, app_assoc.
Qed.

Lemma canceled_last b b' c l r : inv b -> logOf c (decided b) = l ++ [CancelEvent c r] -> is_Some (store b !! c) ->
  rtc step b b' -> logOf c (decided b') = logOf c (decided b).
Proof.
  intros I Hl [k Hk] Hr. destruct (decided_grows _ _ I Hr) as (I' & es & E).
  rewrite E, logOf_app, Hl. destruct (store b' !! c) as [k'|] eqn:Hk'.
  - pose proof (snd_life _ (proj1 I') _ _ Hk') as L. rewrite E, logOf_app, Hl, <- app_assoc in L.
    rewrite (life_last _ _ _ _ L l r (logOf c es) eq_refl). by rewrite app_nil_r.
  - pose proof (snd_none _ (proj1 I') _ Hk') as L. rewrite E, logOf_app, Hl, <- app_assoc in L. by destruct l.
Qed.

Lemma leave_out c k b : out (leave c k b) = out b.
Proof. by destruct (leave_kept c k b) as (_ & -> & _). Qed.

Lemma takeOuts_out cs b : out (fold_left takeOut cs b) = out b.
Proof.
  revert b. induction cs as [|c cs IH]; intros b; [done|]. simpl. rewrite IH. unfold takeOut. by destruct (store b !! c).
Qed.

Lemma out_step b b' : step b b' -> exists es, out b' = out b ++ es.
Proof.
  assert (forall b b', out b' = out b -> exists es, out b' = out b ++ es) as Hs by (intros ? ? ->; exists []; by rewrite app_nil_r).
  assert (forall c k final ts b, out (report c k final ts b) = out b) as Hr
    by (intros; unfold report; destruct (negb _ && _); [done|]; destruct (settled _); [done|]; by destruct final).
  intros [? ? H|? ? H|? ? H]; destruct H; try (apply Hs; done).
  - apply Hs. unfold launch. by case_match.
  - simpl. eauto.
  - apply Hs. unfold startCallTimeout. by case_match.
  - apply Hs. unfold timeoutFunctionCall. destruct (settled k); [done|]. unfold forget. by case_decide.
  - apply Hs. simpl. apply Hr.
  - destruct s as [c|c|e|c]; simpl; [by apply Hs..|eauto|]. apply Hs. case_match; [by rewrite leave_out|done].
  - apply Hs, leave_out.
  - apply Hs, takeOuts_out.
  - apply Hs. unfold cancelFunctionCallByID. case_match; [apply (takeOuts_out [_])|done].
Qed.

Lemma out_run b b' : rtc step b b' -> exists es, out b' = out b ++ es.
Proof.
  induction 1 as [b|b b1 b2 Hs _ (es & E)]; [exists []; by rewrite app_nil_r|].
  destruct (out_step _ _ Hs) as (es1 & E1). exists (es1 ++ es). by rewrite E, E1, app_assoc.
Qed.

Lemma reachable_run b b' : reachable b -> rtc step b b' -> reachable b'.
Proof. intros (b0 & Hi & Hr) Hr'. exists b0. split; [done|]. by etrans. Qed.

(** C22: an interruption ends exactly the calls in flight that are to be canceled on one:
    the context of each is to be canceled, and its cancellation, which asks for no
    inference, is the last verdict ever decided of it, whatever its handler does.  So
    if no verdict of it was on its way to be broadcast, none but its cancellation is
    heard afterwards, and that once.  (One on its way, a final result decided just
    before, can be heard after the cancellation.)  The other calls are left as they
    were. *)
Theorem interruption_silences b cs b' c k : reachable b -> collects b cs -> store b !! c = Some k ->
  if bool_decide (calls b !! toolCallID k = Some c) && cancelOnInterruption (item k) then
    CancelContext c ∈ List.concat (tasks (cancelFunctionCalls cs b))
    /\ (rtc step (cancelFunctionCalls cs b) b' ->
        logOf c (decided b') = logOf c (decided b) ++ [CancelEvent c false]
        /\ (logOf c (pending (tasks b)) = [] ->
            exists es, out b' = out b ++ es /\
              (logOf c (List.filter verdict es) = [] /\ CancelEvent c false ∈ pending (tasks b')
               \/ logOf c (List.filter verdict es) = [CancelEvent c false])))
  else
    store (cancelFunctionCalls cs b) !! c = Some k
    /\ (forall i, calls (cancelFunctionCalls cs b) !! i = Some c <-> calls b !! i = Some c)
    /\ logOf c (decided (cancelFunctionCalls cs b)) = logOf c (decided b).
Proof.
  intros Hb Hc Hk. pose proof (calls_inv_reachable _ Hb) as I. destruct (collects_spec b cs (proj1 I) Hc) as [Hnd Hin].
  assert (step b (cancelFunctionCalls cs b)) as Hs by (by apply s_asks, a_interrupt).
  assert (inv (cancelFunctionCalls cs b)) as I1 by by apply (calls_inv_step b).
  destruct (takeOuts_spec cs b (proj1 I) Hnd) as (_ & T2 & T3 & T4).
  { intros c' (k' & ? & ? & _)%Hin. eauto. }
  destruct (bool_decide _ && _) eqn:E.
  - apply andb_prop in E as [E%bool_decide_eq_true Hci].
    assert (c ∈ cs) as Hcs by (apply Hin; eauto). specialize (T3 c). rewrite decide_True in T3 by done.
    split.
    + unfold cancelFunctionCalls. simpl. rewrite List.concat_app. apply elem_of_app. right. simpl. rewrite app_nil_r.
      apply list_elem_of_In, List.in_concat. exists (cancelProgram c). split; [|by left].
      apply List.in_map. by apply list_elem_of_In.
    + intros Hr. assert (logOf c (decided b') = logOf c (decided b) ++ [CancelEvent c false]) as El.
      { rewrite (canceled_last (cancelFunctionCalls cs b) b' c _ _ I1 T3); [exact T3| |done]. simpl. rewrite T2, Hk. by eexists. }
      split; [exact El|]. intros Hp. destruct (out_run _ _ (rtc_l _ _ _ _ Hs Hr)) as [es Eo]. exists es. split; [exact Eo|].
      destruct (emitted_reachable _ Hb) as [_ P0].
      destruct (emitted_reachable b') as [_ P1]; [eapply reachable_run; [exact Hb|by eapply rtc_l]|].
      apply (filter_bool_perm (about c)) in P0, P1. fold (logOf c (List.filter verdict (out b) ++ pending (tasks b))) in P0.
      fold (logOf c (decided b)) in P0. fold (logOf c (decided b')) in P1.
      fold (logOf c (List.filter verdict (out b') ++ pending (tasks b'))) in P1.
      rewrite logOf_app in P0, P1. rewrite Hp, app_nil_r in P0.
      rewrite Eo, List.filter_app, logOf_app, El, <- P0, <- app_assoc in P1. apply Permutation_app_inv_l in P1.
      apply Permutation_sym, Permutation_singleton_l in P1.
      destruct (logOf c (List.filter verdict es)) as [|e l]; [left|right].
      * split; [done|]. simpl in P1. assert (CancelEvent c false ∈ logOf c (pending (tasks b'))) as Hm by (rewrite <- P1; set_solver).
        unfold logOf in Hm. apply list_elem_of_In, List.filter_In in Hm as [Hm _]. by apply list_elem_of_In.
      * simpl in P1. injection P1 as -> P1. symmetry in P1. by apply app_eq_nil in P1 as [-> _].
  - assert (c ∉ cs) as Hcs.
    { intros (k' & Hk' & Hi & Hci)%Hin. simplify_eq. rewrite Hci, andb_true_r in E. by apply bool_decide_eq_false in E. }
    specialize (T2 c). specialize (T3 c). rewrite decide_False, app_nil_r in T3 by done.
    unfold cancelFunctionCalls. simpl. split_and!; [|intros i; rewrite T4; naive_solver|exact T3].
    rewrite T2, Hk. simpl. by rewrite decide_False.
Qed.

End ToolCalls.
