(* ===== verification/ToolCallRuns.v ===== *)
(** * Runs of the tool calls

    What the runtime of [ToolCalls] does by itself with a call whose handler overruns
    or fails, the order the sequential runner keeps, what a cancel tool answers, and
    schedules in which a call is not told of as the code means it to be. *)

From S2P Require Import Prelude Text Strings ToolCalls.
Import ToolCalls.

Module ToolCallRuns.
Local Open Scope Z_scope.

(** ** A call is not left waiting *)

Lemma run_task b ts s t : tasks b = ts ++ [s :: t] -> runs b (exec s (b <| tasks := ts ++ [t] |>)).
Proof. intros E. exact (r_task b ts s t [] E). Qed.

Lemma unsettled b c k : sound b -> store b !! c = Some k -> logOf c (decided b) = [] -> settled k = false.
Proof. intros H Hk Hl. destruct (settled k) eqn:E; [|done]. by eapply settled_log in E. Qed.

Lemma timeout_runs b c k : sound b -> store b !! c = Some k -> timer k = Expired -> settled k = false ->
  exists b' k', rtc runs b b' /\ store b' !! c = Some k' /\ settled k' = true /\ canceled k' = true
    /\ CancelEvent c true ∈ out b'.
Proof.
  intros H Hk Ht Hs. pose proof (r_timeout b c k Hk Ht) as Hr. unfold timeoutFunctionCall in Hr. rewrite Hs in Hr.
  set (b1 := decide_ _ _) in Hr.
  assert (exists k1, store b1 !! c = Some k1 /\ settled k1 = true) as (k1 & Hk1 & Hs1).
  { unfold b1. change (store (decide_ ?e ?b)) with (store b). rewrite forget_store, !store_upd, !decide_True, Hk by done.
    by eexists. }
  set (b2 := spawn [CancelContext c; Broadcast (CancelEvent c true)] b1) in *.
  pose proof (run_task b2 (tasks b1) _ _ eq_refl) as R1. set (b3 := exec _ _) in R1.
  pose proof (run_task b3 (tasks b1) _ _ eq_refl) as R2. set (b4 := exec _ _) in R2.
  exists b4, (k1 <| canceled := true |>). split_and!.
  - eapply rtc_l, rtc_l, rtc_once; eassumption.
  - simpl. rewrite list_lookup_alter_eq. simpl in Hk1. by rewrite Hk1.
  - done.
  - done.
  - simpl. set_solver.
Qed.

(** A call given a deadline whose handler says nothing is not waited for: whatever else
    is going on, its timer is still armed, and by the runtime's own steps the call is
    settled, its handler's context canceled, and its cancellation, which asks the
    model to answer, broadcast. *)
Theorem deadline_ends_call b c k : reachable b -> inPhase b c k Running -> 0 < deadlineOf k b ->
  logOf c (decided b) = [] ->
  exists b' k', rtc runs b b' /\ store b' !! c = Some k' /\ settled k' = true /\ canceled k' = true
    /\ CancelEvent c true ∈ out b'.
Proof.
  intros [H T]%calls_inv_reachable [Hk Hp] Hd Hl. pose proof (unsettled b c k H Hk Hl) as Hs.
  pose proof (proj1 T c k Hk) as Ok. unfold timerOk in Ok. rewrite Hp in Ok. destruct (Ok Hd Hl) as [Ha|He].
  - pose proof (r_expire b c k Hk Ha) as Hr. set (b1 := upd c _ b) in Hr.
    assert (store b1 !! c = Some (k <| timer := Expired |>)) as Hk1
      by (unfold b1; rewrite store_upd, decide_True by done; by rewrite Hk).
    destruct (timeout_runs b1 c (k <| timer := Expired |>)) as (b' & k' & R & ?); [|done..|].
    + by eapply (proj1 (inv_runs _ _ Hr (conj H T))).
    + exists b', k'. split; [by eapply rtc_l|done].
  - by apply timeout_runs with k.
Qed.

Lemma leave_phase c k b : is_Some (store b !! c) -> exists k', store (leave c k b) !! c = Some k' /\ at_ k' = Returned
  /\ (forall k0, store b !! c = Some k0 -> settled k' = settled k0).
Proof.
  intros [k0 Hk]. exists ((stopTimer k0) <| canceled := true |> <| at_ := Returned |>).
  destruct (stopTimer_fields k0) as (_ & Es & _). split_and!; [|done|intros k1 ?; simplify_eq; apply Es].
  assert (store (leave c k b) = store (goto c Returned (upd c (fun k => k <| canceled := true |>) (forget c k (upd c stopTimer b))))) as ->
    by (unfold leave; by case_decide).
  unfold goto. by rewrite !store_upd, !decide_True, forget_store, store_upd, decide_True, Hk by done.
Qed.

Lemma return_runs b c ts : tasks b = ts ++ [[ReturnFrom c]] -> is_Some (store b !! c) ->
  exists b' k', rtc runs b b' /\ store b' !! c = Some k' /\ at_ k' = Returned /\ out b' = out b
    /\ (forall k0, store b !! c = Some k0 -> settled k' = settled k0).
Proof.
  intros Et [k Hk]. pose proof (run_task b ts _ _ Et) as R. simpl in R. rewrite Hk in R.
  match type of R with runs _ (leave _ _ ?b2) => set (b1 := b2) in R end.
  destruct (leave_phase c k b1) as (k' & Hk' & Hp & Hs); [by eexists|].
  eexists _, k'. split; [by apply rtc_once|]. split_and!; [done|done| |done]. apply (leave_kept c k b1).
Qed.

(** A handler that fails leaves no call open: by the runtime's own steps its call
    returns, settled, and when nothing had settled it before, its failure is broadcast
    as the call's result. *)
Theorem failure_settles_call b c k : inPhase b c k Failing ->
  exists b' k', rtc runs b b' /\ store b' !! c = Some k' /\ at_ k' = Returned /\ settled k' = true
    /\ (settled k = false -> ResultEvent c true ∈ out b').
Proof.
  intros [Hk Hp]. pose proof (r_fail b c k (conj Hk Hp)) as Hr. unfold report in Hr. simpl in Hr.
  destruct (settled k) eqn:Hs.
  - set (b1 := goto c Closing _) in Hr.
    assert (store b1 !! c = Some (k <| at_ := Closing |>)) as Hk1
      by (unfold b1, goto; rewrite store_upd, decide_True by done; simpl; by rewrite Hk).
    destruct (return_runs b1 c (tasks b) eq_refl) as (b' & k' & R & Hk' & Hp' & _ & Hs'); [by eexists|].
    exists b', k'. split_and!; [by eapply rtc_l|done|done|by rewrite (Hs' _ Hk1)|done].
  - set (b1 := goto c Closing _) in Hr.
    pose proof (run_task b1 (tasks b) _ _ eq_refl) as R1. set (b2 := exec _ _) in R1.
    pose proof (run_task b2 (tasks b) _ _ eq_refl) as R2. set (b3 := exec _ _) in R2.
    assert (exists k3, store b3 !! c = Some k3 /\ settled k3 = true) as (k3 & Hk3 & Hs3).
    { eexists. simpl. rewrite !list_lookup_alter_eq, Hk. split; [reflexivity|]. simpl. apply stopTimer_fields. }
    destruct (return_runs b3 c (tasks b) eq_refl) as (b' & k' & R & Hk' & Hp' & Ho & Hs'); [by eexists|].
    exists b', k'. split_and!; [|done|done|by rewrite (Hs' _ Hk3)|].
    + eapply rtc_l; [exact Hr|]. eapply rtc_l; [exact R1|]. eapply rtc_l; [exact R2|done].
    + rewrite Ho. simpl. set_solver.
Qed.

(** ** One at a time *)

Definition inFlight (p : phase) : bool := negb (early p) && negb (bool_decide (p = Returned)).

(** The first [n] calls have been taken, the next are in the channel up to the [m]th;
    of those taken, only the last can be in flight, and the runner is running it. *)
Definition inTurn (n m : nat) (ps : list phase) (q : list nat) (r : option nat) : Prop :=
  (n <= m <= List.length ps)%nat /\ q = seq n (m - n)
  /\ (forall c p, ps !! c = Some p -> (early p = false <-> (c < n)%nat) /\ (p = Waiting <-> (n <= c < m)%nat))
  /\ (forall c p, ps !! c = Some p -> inFlight p = true -> r = Some c /\ S c = n).
Definition phases (b : Base) : list phase := at_ <$> store b.
Definition oneByOne (b : Base) : Prop :=
  runInParallel b = false -> exists n m, inTurn n m (phases b) (sequential b) (runner b).

Lemma phases_upd c f b : (forall k, at_ (f k) = at_ k) -> phases (upd c f b) = phases b.
Proof.
  intros Hf. unfold phases. apply list_eq. intros c'. rewrite !list_lookup_fmap, store_upd.
  destruct (decide (c = c')) as [<-|]; [|done]. destruct (store b !! c); [|done]. simpl. by rewrite Hf.
Qed.

Lemma phases_goto c p b : phases (goto c p b) = <[c := p]> (phases b).
Proof.
  unfold phases, goto. apply list_eq. intros c'. rewrite list_lookup_fmap, store_upd.
  destruct (decide (c = c')) as [<-|].
  - destruct (store b !! c) as [k|] eqn:E.
    + simpl. rewrite list_lookup_insert_eq; [done|]. rewrite length_fmap. by eapply lookup_lt_Some.
    + simpl. symmetry. apply lookup_ge_None. rewrite length_insert, length_fmap. by apply lookup_ge_None.
  - by rewrite list_lookup_insert_ne, list_lookup_fmap.
Qed.

Lemma lookup_phases b c p : phases b !! c = Some p <-> exists k, inPhase b c k p.
Proof.
  unfold phases, inPhase. rewrite list_lookup_fmap. destruct (store b !! c) as [k|]; simpl; naive_solver.
Qed.

(** A call in flight moving on within its handling. *)
Lemma inTurn_move n m ps q r c p p' : inTurn n m ps q r -> ps !! c = Some p ->
  inFlight p = true -> inFlight p' = true -> inTurn n m (<[c := p']> ps) q r.
Proof.
  intros (Hle & Hq & Hp & Hf) Hc Hi Hi'. split_and!; [lia|by rewrite length_insert; lia|done| |].
  - intros c1 p1 [(<- & <- & _)|[Hne H1]]%list_lookup_insert_Some; [|by apply Hp].
    destruct (Hp c p Hc) as [P1 P2]. split; [by destruct p, p'|].
    split; [by intros ->|]. intros Hm. apply P2 in Hm as ->. done.
  - intros c1 p1 [(<- & <- & _)|[Hne H1]]%list_lookup_insert_Some; [by intros _; eapply Hf|by apply Hf].
Qed.

(** A call returning. *)
Lemma inTurn_leave n m ps q r c p : inTurn n m ps q r -> ps !! c = Some p -> early p = false ->
  inTurn n m (<[c := Returned]> ps) q (if decide (r = Some c) then None else r).
Proof.
  intros (Hle & Hq & Hp & Hf) Hc He. split_and!; [lia|by rewrite length_insert; lia|done| |].
  - intros c1 p1 [(<- & <- & _)|[Hne H1]]%list_lookup_insert_Some; [|by apply Hp].
    destruct (Hp c p Hc) as [P1 P2]. split; [by destruct p|].
    split; [done|]. intros Hm. apply P2 in Hm as ->. done.
  - intros c1 p1 [(<- & <- & _)|[Hne H1]]%list_lookup_insert_Some; [done|]. intros Hi.
    destruct (Hf c1 p1 H1 Hi) as [-> ?]. rewrite decide_False; [done|congruence].
Qed.

Lemma oneByOne_same b b' : phases b' = phases b -> sequential b' = sequential b -> runner b' = runner b ->
  runInParallel b' = runInParallel b -> oneByOne b -> oneByOne b'.
Proof. unfold oneByOne. by intros -> -> -> ->. Qed.

Lemma oneByOne_goto b b' c p p' : phases b' = <[c := p']> (phases b) -> sequential b' = sequential b ->
  runner b' = runner b -> runInParallel b' = runInParallel b -> phases b !! c = Some p ->
  inFlight p = true -> inFlight p' = true -> oneByOne b -> oneByOne b'.
Proof.
  unfold oneByOne. intros -> -> -> -> Hc Hi Hi' H Hpar. destruct (H Hpar) as (n & m & T). exists n, m.
  by eapply inTurn_move.
Qed.

Lemma oneByOne_leave b c k : store b !! c = Some k -> early (at_ k) = false -> oneByOne b -> oneByOne (leave c k b).
Proof.
  intros Hk He H Hpar. assert (runInParallel b = false) as Hpar' by (revert Hpar; unfold leave, forget; by repeat case_decide).
  destruct (H Hpar') as (n & m & T). exists n, m.
  assert (phases (leave c k b) = <[c := Returned]> (phases b)) as ->.
  { transitivity (phases (goto c Returned (upd c (fun k => k <| canceled := true |>) (forget c k (upd c stopTimer b)))));
      [unfold phases, leave; by case_decide|].
    rewrite phases_goto, phases_upd by done. f_equal.
    transitivity (phases (upd c stopTimer b)); [unfold phases; by rewrite forget_store|].
    apply phases_upd. intros x. by destruct (stopTimer_fields x) as (_ & _ & ? & _). }
  assert (sequential (leave c k b) = sequential b) as -> by (unfold leave, forget; by repeat case_decide).
  assert (runner (leave c k b) = if decide (runner b = Some c) then None else runner b) as ->.
  { unfold leave, forget. by repeat case_decide. }
  eapply inTurn_leave; [done|apply lookup_phases; by exists k|done].
Qed.

Lemma phases_takeOut b c : phases (takeOut b c) = phases b.
Proof.
  unfold phases. apply list_eq. intros c'. rewrite !list_lookup_fmap, store_takeOut.
  destruct (store b !! c'); [|done]. simpl. by case_decide.
Qed.

Lemma takeOut_kept b c : sequential (takeOut b c) = sequential b /\ runner (takeOut b c) = runner b
  /\ runInParallel (takeOut b c) = runInParallel b.
Proof. unfold takeOut. by destruct (store b !! c). Qed.

Lemma oneByOne_takeOuts cs b t : oneByOne b -> oneByOne (spawn t (fold_left takeOut cs b)).
Proof.
  intros H. apply (oneByOne_same (fold_left takeOut cs b)); [done..|]. revert b H.
  induction cs as [|c cs IH]; intros b H; [done|]. apply IH. destruct (takeOut_kept b c) as (? & ? & ?).
  by apply (oneByOne_same b); [apply phases_takeOut|..].
Qed.

Lemma oneByOne_report c k final ts b : oneByOne b -> oneByOne (report c k final ts b).
Proof.
  unfold report. destruct (negb final && _); [by apply oneByOne_same|]. destruct (settled k); [by apply oneByOne_same|].
  apply oneByOne_same; destruct final; try done. by apply phases_upd.
Qed.

Lemma oneByOne_launch b c k : inPhase b c k Requested ->
  (forall c' k', (c' < c)%nat -> store b !! c' = Some k' -> at_ k' <> Requested) -> oneByOne b -> oneByOne (launch c b).
Proof.
  intros Hp Hlow H Hpar. assert (runInParallel b = false) as Hpar' by (revert Hpar; unfold launch; by case_match).
  destruct (H Hpar') as (n & m & Hle & Hq & Hps & Hf). assert (phases b !! c = Some Requested) as Hc by (apply lookup_phases; eauto).
  assert (c = m) as ->.
  { destruct (Hps c Requested Hc) as [P1 P2]. destruct (decide (c < m)%nat) as [Hm|Hm].
    - destruct (decide (c < n)%nat) as [Hn|Hn]; [by apply P1 in Hn|]. assert (Requested = Waiting) by (apply P2; lia). done.
    - destruct (decide (m < c)%nat) as [Hmc|]; [|lia].
      destruct (phases b !! m) as [p|] eqn:Em; [|apply lookup_ge_None in Em; apply lookup_lt_Some in Hc; lia].
      destruct (Hps m p Em) as [Q1 Q2]. apply lookup_phases in Em as (km & Hkm & Hpm).
      pose proof (Hlow m km Hmc Hkm). destruct (early p) eqn:Ep; [|destruct Q1 as [Q1 _]; specialize (Q1 eq_refl); lia].
      destruct p; try done. assert (n <= m < m)%nat by (by apply Q2). lia. }
  exists n, (S m).
  assert (phases (launch m b) = <[m := Waiting]> (phases b)) as ->.
  { rewrite <- phases_goto. unfold launch, phases. by case_match. }
  assert (sequential (launch m b) = sequential b ++ [m]) as -> by (unfold launch; simpl; by rewrite Hpar').
  assert (runner (launch m b) = runner b) as -> by (unfold launch; by case_match).
  apply lookup_lt_Some in Hc. split_and!.
  - lia.
  - rewrite length_insert. lia.
  - rewrite Hq. replace (S m - n)%nat with ((m - n) + 1)%nat by lia. rewrite seq_app. simpl. do 2 f_equal. lia.
  - intros c1 p1 [(<- & <- & _)|[Hne H1]]%list_lookup_insert_Some; [split; [split; [done|lia]|split; [lia|done]]|].
    destruct (Hps c1 p1 H1) as [P1 P2]. split; [done|]. rewrite P2. lia.
  - intros c1 p1 [(<- & <- & _)|[Hne H1]]%list_lookup_insert_Some; [done|by apply Hf].
Qed.

Lemma oneByOne_take b c k q : runner b = None -> sequential b = c :: q -> inPhase b c k Waiting ->
  oneByOne b -> oneByOne (enter c k (b <| sequential := q |> <| runner := Some c |>)).
Proof.
  intros Hr Hs Hp H Hpar. destruct (H Hpar) as (n & m & Hle & Hq & Hps & Hf).
  assert (phases b !! c = Some Waiting) as Hc by (apply lookup_phases; eauto).
  rewrite Hs in Hq. destruct (m - n)%nat as [|l] eqn:El; [done|]. injection Hq as -> Hq.
  exists (S n), m. change (phases (enter n k _)) with (phases (goto n Registered b)). rewrite phases_goto. simpl.
  split_and!.
  - lia.
  - rewrite length_insert. lia.
  - rewrite Hq. f_equal. lia.
  - intros c1 p1 [(<- & <- & _)|[Hne H1]]%list_lookup_insert_Some; [split; [split; [lia|done]|split; [done|lia]]|].
    destruct (Hps c1 p1 H1) as [P1 P2]. rewrite P1, P2. split; lia.
  - intros c1 p1 [(<- & <- & _)|[Hne H1]]%list_lookup_insert_Some; [done|]. intros Hi.
    destruct (Hf c1 p1 H1 Hi) as [E _]. congruence.
Qed.

Lemma oneByOne_calls g cs b : oneByOne b -> oneByOne (runFunctionCalls g cs b).
Proof.
  intros H Hpar. destruct (H Hpar) as (n & m & Hle & Hq & Hps & Hf). exists n, m.
  assert (forall c p, phases (runFunctionCalls g cs b) !! c = Some p ->
    phases b !! c = Some p \/ (List.length (phases b) <= c)%nat /\ p = Requested) as Hn.
  { intros c p. unfold phases. simpl. rewrite fmap_app. intros [?|[Hge Hk]]%lookup_app_Some; [by left|right].
    split; [done|]. apply list_elem_of_lookup_2, list_elem_of_fmap in Hk as (k & -> & Hk).
    apply list_elem_of_fmap in Hk as ([[it nm] i] & -> & _). done. }
  split_and!; [lia| |done|intros c p [Hc|[Hge ->]]%Hn; [by apply Hps|]|intros c p [Hc|[Hge ->]]%Hn; [by apply Hf|done]].
  - unfold phases in *. simpl. rewrite fmap_app, length_app. lia.
  - simpl. split; [split; [done|lia]|split; [done|lia]].
Qed.

Lemma oneByOne_step b b' : step b b' -> inv b -> oneByOne b -> oneByOne b'.
Proof.
  intros [? ? Hr|? ? Hh|? ? Ha] [HS T] H.
  - destruct Hr as [b1 c k Hp Hroom Hord|b1 c k Hpar Hp|b1 c k q Hpar Hrun Hq Hp|b1 c k Hp|b1 c k Hp
      |b1 c k Hk Ht|b1 c k Hk Ht|b1 c k Hp|b1 ts1 s t ts2 Ets].
    + by eapply oneByOne_launch.
    + intros Hpar'. simpl in Hpar'. congruence.
    + by apply oneByOne_take.
    + apply (oneByOne_goto b1 _ c Registered Announced); try done; [|apply lookup_phases; by exists k].
      apply (phases_goto c Announced b1).
    + eapply (oneByOne_goto b1 _ c Announced Running); try done; [|by unfold startCallTimeout; case_match..|apply lookup_phases; by exists k].
      unfold startCallTimeout. rewrite phases_goto. case_match; [done|]. by rewrite phases_upd.
    + apply (oneByOne_same b1); try done. by apply phases_upd.
    + assert (forall b2, oneByOne b2 -> oneByOne (forget c k b2)) as Hforget
        by (intros b2 H2; unfold forget; case_decide; by apply (oneByOne_same b2)).
      unfold timeoutFunctionCall. set (b2 := upd c _ b1).
      assert (oneByOne b2) as H2 by (apply (oneByOne_same b1); try done; by apply phases_upd).
      destruct (settled k); [done|]. apply (oneByOne_same (forget c k (upd c (fun k => k <| settled := true |>) b2))); try done.
      apply Hforget. apply (oneByOne_same b2); try done. by apply phases_upd.
    + eapply (oneByOne_goto (report c k true [ReturnFrom c] b1) _ c Failing Closing); try done; [apply phases_goto| |by apply oneByOne_report].
      apply lookup_phases. destruct Hp as [Hk Hp]. unfold report. simpl. destruct (settled k); [by exists k|].
      exists (k <| settled := true |>). split; [|done]. simpl. by rewrite list_lookup_alter_eq, Hk.
    + set (b2 := b1 <| tasks := ts1 ++ t :: ts2 |>). assert (oneByOne b2) as H2 by by apply (oneByOne_same b1).
      destruct s as [c|c|e|c]; simpl; [apply (oneByOne_same b2); try done; by apply phases_upd| | |].
      * apply (oneByOne_same b2); try done. apply phases_upd. intros x. by destruct (stopTimer_fields x) as (_ & _ & ? & _).
      * by apply (oneByOne_same b2).
      * destruct (store b1 !! c) as [k|] eqn:Hk; [|done]. apply oneByOne_leave; [done| |done].
        destruct (early (at_ k)) eqn:He; [|done]. exfalso. apply (proj2 T (ReturnFrom c :: t) c).
        { rewrite Ets. set_solver. }
        { right. set_solver. }
        by apply (snd_early _ HS c k).
  - destruct Hh as [b1 c k final Hk Hp|b1 c k [Hk Hp]|b1 c k Hp].
    + by apply oneByOne_report.
    + apply oneByOne_leave; [done|by rewrite Hp|done].
    + eapply (oneByOne_goto b1 _ c Running Failing); try done; [apply phases_goto|apply lookup_phases; by exists k].
  - destruct Ha as [b1 g cs|b1 cs Hc|b1 i]; [by apply oneByOne_calls|by apply oneByOne_takeOuts|].
    unfold cancelFunctionCallByID. destruct (calls b1 !! i) as [c|]; [|done]. by apply (oneByOne_takeOuts [c]).
Qed.

Lemma parallel_step b b' : step b b' -> runInParallel b' = runInParallel b.
Proof.
  assert (forall c k b, runInParallel (forget c k b) = runInParallel b) as Hf by (intros; unfold forget; by case_decide).
  assert (forall c k b, runInParallel (leave c k b) = runInParallel b) as Hl.
  { intros. unfold leave. by case_decide; simpl; rewrite Hf. }
  assert (forall c k f ts b, runInParallel (report c k f ts b) = runInParallel b) as Hr.
  { intros. unfold report. by repeat case_match. }
  assert (forall cs b, runInParallel (fold_left takeOut cs b) = runInParallel b) as Ht.
  { intros cs. induction cs as [|c cs IH]; intros b0; [done|]. simpl. rewrite IH. apply takeOut_kept. }
  intros [? ? []|? ? []|? ? [? ? ?|? cs ?|b0 i]]; try done; simpl; rewrite ?Hr, ?Hl, ?Ht; try done.
  - unfold launch. by case_match.
  - unfold startCallTimeout. by case_match.
  - unfold timeoutFunctionCall. case_match; [done|]. simpl. by rewrite Hf.
  - destruct s; simpl; try done. case_match; [|done]. by rewrite Hl.
  - unfold cancelFunctionCallByID. destruct (calls b0 !! i); [|done]. apply takeOut_kept.
Qed.

(** A service built to run its calls one after another has at most one in flight, and
    takes them in the order they were requested: a call is entered only once every
    call requested before it has returned. *)
Theorem sequential_in_turn b c c' k k' : reachable b -> runInParallel b = false ->
  store b !! c = Some k -> store b !! c' = Some k' ->
  (inFlight (at_ k) = true -> inFlight (at_ k') = true -> c = c')
  /\ ((c < c')%nat -> early (at_ k') = false -> at_ k = Returned).
Proof.
  intros (b0 & (p & d & a & ->) & Hr) Hpar Hk Hk'.
  assert (oneByOne b) as H.
  { apply (rtc_invariant step (fun b => inv b /\ oneByOne b)) in Hr; [apply Hr| |].
    - intros b1 b2 Hs [I O]. split; [by eapply calls_inv_step|by eapply oneByOne_step].
    - split; [apply calls_inv_reachable; exists (New p d a); split; [by exists p, d, a|done]|].
      intros _. exists 0%nat, 0%nat. split_and!; simpl; [lia|lia|done|done|done]. }
  destruct (H Hpar) as (n & m & Hle & Hq & Hps & Hf).
  assert (phases b !! c = Some (at_ k)) as Hc by (apply lookup_phases; by exists k).
  assert (phases b !! c' = Some (at_ k')) as Hc' by (apply lookup_phases; by exists k'). split.
  - intros Hi Hi'. destruct (Hf c _ Hc Hi) as [_ ?]. destruct (Hf c' _ Hc' Hi') as [_ ?]. lia.
  - intros Hlt He. destruct (Hps c' _ Hc') as [[P1 _] _]. specialize (P1 He).
    destruct (Hps c _ Hc) as [[_ Q1] _]. assert (early (at_ k) = false) as E by (apply Q1; lia).
    destruct (decide (at_ k = Returned)) as [|Hne]; [done|].
    assert (inFlight (at_ k) = true) as Hi by (unfold inFlight; rewrite E; by rewrite bool_decide_false).
    destruct (Hf c _ Hc Hi) as [_ ?]. lia.
Qed.

(** ** The cancel tool *)

Lemma cancellable_spec b target i : i ∈ cancellableCallsOf b target <-> exists j c k,
  calls b !! j = Some c /\ store b !! c = Some k /\ name k = target /\ isCancellable b (item k) = true
  /\ toolCallID k = i.
Proof.
  unfold cancellableCallsOf. rewrite list_elem_of_omap. split.
  - intros (c & ([j c'] & -> & Hj%elem_of_map_to_list)%list_elem_of_fmap & Hc). simpl in Hc.
    destruct (store b !! c') as [k|] eqn:Hk; [|done]. simpl in Hc.
    destruct (bool_decide (name k = target) && isCancellable b (item k)) eqn:E; [|done].
    apply andb_prop in E as [E%bool_decide_eq_true ?]. injection Hc as <-. by exists j, c', k.
  - intros (j & c & k & Hj & Hk & <- & Hcan & <-). exists c. split.
    + apply list_elem_of_fmap. exists (j, c). split; [done|by apply elem_of_map_to_list].
    + rewrite Hk. simpl. by rewrite bool_decide_true, Hcan.
Qed.

(** What a cancel tool does, in every case.  It cancels a call only of the tool it is
    named for, in flight and cancellable, the one whose id it was given or, given none,
    the only one; otherwise it refuses, naming the candidates when it has to be told
    which. *)
Theorem cancel_tool_answers b target sorted given : reachable b -> sorted ≡ₚ cancellableCallsOf b target ->
  match cancelToolHandler sorted given with
  | Canceling i =>
    (exists c k, calls b !! i = Some c /\ store b !! c = Some k /\ name k = target /\ isCancellable b (item k) = true)
    /\ (given = i \/ given = [] /\ cancellableCallsOf b target = [i])
    /\ (cancelFunctionCallByID i b).1 = true
  | NoneRunning => forall j c k, calls b !! j = Some c -> store b !! c = Some k -> name k = target ->
    isCancellable b (item k) = false
  | NoSuchID => given <> [] /\ given ∉ cancellableCallsOf b target
  | AskWhich choices => given = [] /\ (2 <= List.length choices)%nat /\ choices ≡ₚ cancellableCallsOf b target
  end.
Proof.
  intros [H _]%calls_inv_reachable Hp. unfold cancelToolHandler.
  assert (forall i, i ∈ sorted -> exists c k, calls b !! i = Some c /\ store b !! c = Some k /\ name k = target
    /\ isCancellable b (item k) = true) as Hs.
  { intros i. rewrite Hp. intros (j & c & k & Hj & Hk & ? & ? & <-)%cancellable_spec.
    destruct (snd_calls _ H _ _ Hj) as (k' & ? & E & _). assert (k' = k) as -> by congruence.
    rewrite E. by exists c, k. }
  assert (forall i, i ∈ sorted -> (cancelFunctionCallByID i b).1 = true) as Hb.
  { intros i (c & k & Hc & _)%Hs. unfold cancelFunctionCallByID. by rewrite Hc. }
  destruct sorted as [|i more].
  - apply Permutation_nil in Hp. intros j c k Hj Hk Hn. destruct (isCancellable b (item k)) eqn:E; [|done].
    assert (toolCallID k ∈ cancellableCallsOf b target) as Hin by (apply cancellable_spec; by exists j, c, k).
    rewrite Hp in Hin. by apply elem_of_nil in Hin.
  - case_bool_decide as Hg.
    + subst given. destruct more as [|i2 more].
      * apply Permutation_singleton_l in Hp. split_and!; [apply Hs; set_solver|by right|apply Hb; set_solver].
      * split_and!; [done|simpl; lia|done].
    + case_bool_decide as Hin; [|by rewrite Hp in Hin].
      split_and!; [by apply Hs|by left|by apply Hb].
Qed.

(** A call whose handler returned without reporting is out of reach: neither an
    interruption nor a cancellation by id says anything of it. *)
Theorem returned_out_of_reach b c k cs i : reachable b -> inPhase b c k Returned -> collects b cs ->
  logOf c (decided (cancelFunctionCalls cs b)) = logOf c (decided b)
  /\ logOf c (decided (cancelFunctionCallByID i b).2) = logOf c (decided b).
Proof.
  intros [H _]%calls_inv_reachable [Hk Hp] Hc.
  assert (tracked b c k = false) as Ht by (apply early_untracked; auto).
  apply bool_decide_eq_false in Ht. split.
  - destruct (collects_spec b cs H Hc) as [Hnd Hin].
    destruct (takeOuts_spec cs b H Hnd) as (_ & _ & T3 & _); [intros c' (k' & ? & ? & _)%Hin; eauto|].
    unfold cancelFunctionCalls. simpl. rewrite T3, decide_False; [by rewrite app_nil_r|].
    intros (k' & ? & ? & _)%Hin. by simplify_eq.
  - unfold cancelFunctionCallByID. destruct (calls b !! i) as [c'|] eqn:Hi; [|done]. simpl.
    destruct (snd_calls _ H _ _ Hi) as (k' & Hk' & E & _). rewrite log_takeOut by (by rewrite Hk').
    rewrite decide_False; [by rewrite app_nil_r|]. intros ->. simplify_eq.
Qed.

(** ** Schedules *)

Definition tool (deadline : Z) : callItem := mkItem true deadline false.
Definition request (it : callItem) (i : string) : callItem * gostring * gostring :=
  (it, bytes_of "look_up", bytes_of i).

(** Two calls of one response, and the first in its handler. *)
Definition asked (parallel : bool) (it : callItem) : Base :=
  runFunctionCalls [] [request it "x"; request it "y"] (New parallel 0 false).
Definition call0 (it : callItem) (p : phase) : functionCall :=
  mkCall it (bytes_of "look_up") (bytes_of "x") [] false false NoTimer p.

Definition entered (it : callItem) : Base := enter 0 (call0 it Waiting) (launch 0 (asked true it)).
Definition told (it : callItem) : Base := goto 0 Announced ((entered it) <| out ::= fun es => es ++ [InProgressEvent 0] |>).
Definition handled (it : callItem) : Base := startCallTimeout 0 (call0 it Announced) (told it).

Lemma handled_reachable it : reachable (handled it).
Proof.
  exists (New true 0 false). split; [by exists true, 0, false|].
  eapply rtc_l; [apply s_asks, (a_calls _ [] [request it "x"; request it "y"])|].
  eapply rtc_l; [apply s_runs, (r_launch _ 0 (call0 it Requested)); [by split|by left|intros c' k' E; lia]|].
  eapply rtc_l; [apply s_runs, (r_enter _ 0 (call0 it Waiting)); [done|by split]|].
  eapply rtc_l; [apply s_runs, (r_announce _ 0 (call0 it Registered)); by split|].
  eapply rtc_l; [apply s_runs, (r_start _ 0 (call0 it Announced)); by split|].
  apply rtc_refl.
Qed.

(** A call that has reported its final result, but whose handler has yet to return, is
    still taken for one in flight: an interruption cancels it, and the cancellation can
    be broadcast ahead of the result, which the conversation then discards. *)
Theorem result_overtaken_by_cancel : exists b, reachable b
  /\ decided b = [ResultEvent 0 true; CancelEvent 0 false]
  /\ out b = [InProgressEvent 0; CancelEvent 0 false; ResultEvent 0 true].
Proof.
  destruct (handled_reachable (tool 0)) as (b0 & Hi & Hr).
  set (k := call0 (tool 0) Running).
  set (b1 := report 0 k true [] (handled (tool 0))).
  assert (step (handled (tool 0)) b1) as S1 by (apply s_handles, (h_report _ 0 k true); [done|set_solver]).
  set (b2 := cancelFunctionCalls [0%nat] b1).
  assert (step b1 b2) as S2 by (apply s_asks, a_interrupt; unfold collects; vm_compute; reflexivity).
  set (b3 := exec (CancelContext 0) (b2 <| tasks := [[StopTimer 0; Broadcast (ResultEvent 0 true)]; [Broadcast (CancelEvent 0 false)]] |>)).
  assert (step b2 b3) as S3 by (apply s_runs, (r_task b2 [[StopTimer 0; Broadcast (ResultEvent 0 true)]] _ _ []); reflexivity).
  set (b4 := exec (Broadcast (CancelEvent 0 false)) (b3 <| tasks := [[StopTimer 0; Broadcast (ResultEvent 0 true)]; []] |>)).
  assert (step b3 b4) as S4 by (apply s_runs, (r_task b3 [[StopTimer 0; Broadcast (ResultEvent 0 true)]] _ _ []); reflexivity).
  set (b5 := exec (StopTimer 0) (b4 <| tasks := [[Broadcast (ResultEvent 0 true)]; []] |>)).
  assert (step b4 b5) as S5 by (apply s_runs, (r_task b4 [] _ _ [[]]); reflexivity).
  set (b6 := exec (Broadcast (ResultEvent 0 true)) (b5 <| tasks := [[]; []] |>)).
  assert (step b5 b6) as S6 by (apply s_runs, (r_task b5 [] _ _ [[]]); reflexivity).
  exists b6. split; [exists b0; split; [done|]|by split].
  transitivity (handled (tool 0)); [exact Hr|]. do 5 (eapply rtc_l; [eassumption|]). by apply rtc_once.
Qed.

(** Two calls on the sequential runner, the first entered. *)
Definition call1 : functionCall := (call0 (tool 0) Waiting) <| toolCallID := bytes_of "y" |>.
Definition inLine : Base := enter 0 (call0 (tool 0) Waiting)
  ((launch 1 (launch 0 (asked false (tool 0)))) <| sequential := [1%nat] |> <| runner := Some 0%nat |>).

Lemma inLine_reachable : reachable inLine.
Proof.
  exists (New false 0 false). split; [by exists false, 0, false|].
  eapply rtc_l; [apply s_asks, (a_calls _ [] [request (tool 0) "x"; request (tool 0) "y"])|].
  eapply rtc_l; [apply s_runs, (r_launch _ 0 (call0 (tool 0) Requested)); [by split|right; simpl; unfold sequentialQueueDepth; lia|intros c' k' E; lia]|].
  eapply rtc_l; [apply s_runs, (r_launch _ 1 (call1 <| at_ := Requested |>)); [by split|right; simpl; unfold sequentialQueueDepth; lia|]|].
  { intros [|c'] k' E; [by intros [= <-]|lia]. }
  eapply rtc_l; [apply s_runs, (r_take _ 0 (call0 (tool 0) Waiting) [1%nat]); by try split|]. apply rtc_refl.
Qed.

(** The calls waiting for the sequential runner are not canceled by an interruption:
    one that was to be canceled on interruption runs after it. *)
Theorem queued_call_outlives_interruption : exists b b' k k', reachable b /\ collects b [0%nat]
  /\ inPhase b 1 k Waiting /\ cancelOnInterruption (item k) = true
  /\ rtc step (cancelFunctionCalls [0%nat] b) b' /\ inPhase b' 1 k' Running.
Proof.
  set (k0 := (call0 (tool 0) Announced) <| settled := true |>).
  exists inLine. eexists _, call1, (call1 <| at_ := Running |>). split_and!; [apply inLine_reachable|unfold collects; vm_compute; reflexivity|by split|done| |].
  - eapply rtc_l; [apply s_runs, (r_announce _ 0 (k0 <| at_ := Registered |>)); by split|].
    eapply rtc_l; [apply s_runs, (r_start _ 0 k0); by split|].
    eapply rtc_l; [apply s_handles, (h_return _ 0 (k0 <| at_ := Running |>)); by split|].
    eapply rtc_l; [apply s_runs, (r_take _ 1 call1 []); by try split|].
    eapply rtc_l; [apply s_runs, (r_announce _ 1 (call1 <| at_ := Registered |>)); by split|].
    eapply rtc_l; [apply s_runs, (r_start _ 1 (call1 <| at_ := Announced |>)); by split|]. apply rtc_refl.
  - by split.
Qed.

(** ** Instances of the theorems *)

(** A call that reports its final result and returns. *)
Definition reported1 : Base := report 0 (call0 (tool 0) Running) true [] (handled (tool 0)).
Definition back1 : Base := leave 0 ((call0 (tool 0) Running) <| settled := true |>) reported1.

Lemma back1_reachable : reachable back1.
Proof.
  apply (reachable_run (handled (tool 0))); [apply handled_reachable|].
  eapply rtc_l; [apply s_handles, (h_report _ 0 (call0 (tool 0) Running) true); [reflexivity|set_solver]|].
  apply rtc_once, s_handles, h_return. by split.
Qed.

(** Its result is all there is, though an interruption comes after it. *)
Lemma call_ends_once_witness :
  over back1 0 /\
  (exists n tail, logOf 0 (decided back1) = replicate n (ResultEvent 0 false) ++ tail
     /\ tail ∈ [[]; [ResultEvent 0 true]; [CancelEvent 0 false]; [CancelEvent 0 true];
                [ResultEvent 0 true; CancelEvent 0 false]])
  /\ logOf 0 (decided (cancelFunctionCalls [] back1)) = [ResultEvent 0 true].
Proof.
  assert (over back1 0) as Ho by (eexists; split; [reflexivity|by split]). split; [exact Ho|].
  destruct (call_ends_once back1 0 back1_reachable) as (H1 & H2 & _). split; [exact H1|].
  apply (H2 Ho). apply rtc_once, s_asks, a_interrupt. unfold collects. vm_compute. reflexivity.
Defined.

(** A call canceled in its handler: the cancellation is all that is heard. *)
Definition silenced : Base := cancelFunctionCalls [0%nat] (handled (tool 0)).
Definition told1 : Base := exec (Broadcast (CancelEvent 0 false)) ((exec (CancelContext 0) (silenced <| tasks := [[Broadcast (CancelEvent 0 false)]] |>)) <| tasks := [[]] |>).

Lemma told1_run : rtc step silenced told1.
Proof.
  eapply rtc_l; [apply s_runs, (run_task silenced [] (CancelContext 0) [Broadcast (CancelEvent 0 false)]); reflexivity|].
  apply rtc_once, s_runs. unfold told1.
  apply (run_task (exec (CancelContext 0) (silenced <| tasks := [[Broadcast (CancelEvent 0 false)]] |>)) []
    (Broadcast (CancelEvent 0 false)) []). reflexivity.
Qed.

Lemma interruption_silences_witness :
  logOf 0 (decided told1) = [CancelEvent 0 false] /\
  exists es, out told1 = out (handled (tool 0)) ++ es /\
    (logOf 0 (List.filter verdict es) = [] /\ CancelEvent 0 false ∈ pending (tasks told1)
     \/ logOf 0 (List.filter verdict es) = [CancelEvent 0 false]).
Proof.
  assert (collects (handled (tool 0)) [0%nat]) as Hc by (unfold collects; vm_compute; reflexivity).
  destruct (interruption_silences (handled (tool 0)) [0%nat] told1 0 (call0 (tool 0) Running)
    (handled_reachable (tool 0)) Hc eq_refl) as [_ H].
  destruct (H told1_run) as [H1 H2]. split; [exact H1|]. apply H2. reflexivity.
Defined.

Lemma deadline_ends_call_witness : exists b' k', rtc runs (handled (tool 5)) b' /\ store b' !! 0%nat = Some k'
  /\ settled k' = true /\ canceled k' = true /\ CancelEvent 0 true ∈ out b'.
Proof.
  apply (deadline_ends_call (handled (tool 5)) 0 ((call0 (tool 5) Running) <| timer := Armed |>) (handled_reachable (tool 5))).
  - by split.
  - reflexivity.
  - reflexivity.
Defined.

Lemma failure_settles_call_witness : exists b' k', rtc runs (goto 0 Failing (handled (tool 0))) b'
  /\ store b' !! 0%nat = Some k' /\ at_ k' = Returned /\ settled k' = true
  /\ (false = false -> ResultEvent 0 true ∈ out b').
Proof. apply (failure_settles_call (goto 0 Failing (handled (tool 0))) 0 (call0 (tool 0) Failing)). by split. Defined.

Lemma returned_out_of_reach_witness :
  logOf 0 (decided (cancelFunctionCalls [] (leave 0 (call0 (tool 0) Running) (handled (tool 0))))) = [].
Proof.
  refine (proj1 (returned_out_of_reach (leave 0 (call0 (tool 0) Running) (handled (tool 0))) 0
    ((call0 (tool 0) Returned) <| canceled := true |>) [] [] _ _ _)).
  - destruct (handled_reachable (tool 0)) as (b0 & Hi & Hr). exists b0. split; [done|].
    eapply rtc_r; [exact Hr|]. apply s_handles, (h_return _ 0 (call0 (tool 0) Running)). by split.
  - by split.
  - unfold collects. vm_compute. reflexivity.
Defined.

Definition background : callItem := mkItem false 0 true.

Lemma cancel_tool_answers_witness :
  cancelToolHandler [bytes_of "x"] [] = Canceling (bytes_of "x")
  /\ (cancelFunctionCallByID (bytes_of "x") (handled background)).1 = true.
Proof.
  split; [reflexivity|].
  refine (proj2 (proj2 (cancel_tool_answers (handled background) (bytes_of "look_up") [bytes_of "x"] []
    (handled_reachable background) _))).
  vm_compute. reflexivity.
Defined.

(** The first of the two done with, and the second entered. *)
Definition told0 : Base := goto 0 Announced (inLine <| out ::= fun es => es ++ [InProgressEvent 0] |>).
Definition started0 : Base := startCallTimeout 0 (call0 (tool 0) Announced) told0.
Definition done0 : Base := leave 0 (call0 (tool 0) Running) started0.
Definition inLine1 : Base := enter 1 call1 (done0 <| sequential := [] |> <| runner := Some 1%nat |>).

Lemma inLine1_reachable : reachable inLine1.
Proof.
  destruct inLine_reachable as (b0 & Hi & Hr). exists b0. split; [done|]. transitivity inLine; [exact Hr|].
  assert (step done0 inLine1) as S4.
  { apply s_runs, (r_take done0 1 call1 []); [vm_compute; reflexivity..|split; vm_compute; reflexivity]. }
  assert (step inLine told0) as S1.
  { apply s_runs, (r_announce inLine 0 (call0 (tool 0) Registered)). split; vm_compute; reflexivity. }
  assert (step told0 started0) as S2.
  { apply s_runs, (r_start told0 0 (call0 (tool 0) Announced)). split; vm_compute; reflexivity. }
  assert (step started0 done0) as S3.
  { apply s_handles, (h_return started0 0 (call0 (tool 0) Running)). split; vm_compute; reflexivity. }
  eapply rtc_l; [exact S1|]. eapply rtc_l; [exact S2|]. eapply rtc_l; [exact S3|]. by apply rtc_once.
Qed.

Lemma sequential_in_turn_witness :
  exists k, store inLine1 !! 0%nat = Some k /\ at_ k = Returned.
Proof.
  assert (store inLine1 !! 0%nat = Some ((call0 (tool 0) Returned) <| canceled := true |>)) as H0
    by (vm_compute; reflexivity).
  assert (store inLine1 !! 1%nat = Some (call1 <| at_ := Registered |>)) as H1 by (vm_compute; reflexivity).
  assert (runInParallel inLine1 = false) as Hp by (vm_compute; reflexivity).
  exists ((call0 (tool 0) Returned) <| canceled := true |>). split; [exact H0|].
  exact (proj2 (sequential_in_turn inLine1 0 1 _ _ inLine1_reachable Hp H0 H1) (le_n 1) eq_refl).
Defined.

End ToolCallRuns.
