(* ===== verification/ToolRegistry.v ===== *)
(** * The tool registry

    What the language service knows of the tools the model may call: the handlers
    registered by hand or carried by an advertised tool, the cancel tools offered for
    those that can be stopped, the resources they work through, and the system
    instruction, which tells the model about them ([src/service/llm/llm.go],
    [registry.go], [asynctool.go], [system.go], [toolcleanup.go]).

    Each operation is a function of the registry; [handlersMu] and its other mutexes
    are held for parts of them, but they run whole here.  The log lines are left out. *)

From S2P Require Import Prelude Float64 Text Strings LlmContext.
Import LlmContext.

Module ToolRegistry.
Local Open Scope Z_scope.

(** A handler: a function of the application's, or one of the two built in. *)
Inductive handlerFunc := UserHandler (h : nat) | CancelToolHandler | MissingFunctionHandler.
#[export] Instance handlerFunc_dec : EqDecision handlerFunc.
Proof. solve_decision. Defined.

Record registryItem := mkItem {
  name : gostring;
  handler : handlerFunc;
  cancelOnInterruption : bool;
  timeout : Z;
  cancellableByLLM : bool;
  fromToolset : bool;
  cleanup : option resource
}.
#[export] Instance eta_registryItem : Eta registryItem := fun i =>
  mkItem (name i) (handler i) (cancelOnInterruption i) (timeout i) (cancellableByLLM i) (fromToolset i) (cleanup i).

Record Base := mkBase {
  handlers : gmap gostring registryItem;
  cancelTools : gset gostring;
  asyncToolCancellation : bool;
  cleanups : list resource;
  baseSystemInstruction : gostring;
  appendedSystemInstructions : list gostring;
  systemInstruction : gostring;
  (** the marker protocol, while turn-completion gating is on *)
  turnCompletion : option gostring;
  (** the cancel tools the adapter sends, of a service that converts through one *)
  builtins : option (gset gostring)
}.
#[export] Instance eta_Base : Eta Base := fun b =>
  mkBase (handlers b) (cancelTools b) (asyncToolCancellation b) (cleanups b) (baseSystemInstruction b)
    (appendedSystemInstructions b) (systemInstruction b) (turnCompletion b) (builtins b).

Definition New (async adapter : bool) : Base :=
  mkBase ∅ ∅ async [] [] [] [] None (if adapter then Some ∅ else None).

Definition CancelToolPrefix : gostring := bytes_of "cancel_".
Definition CancelToolName (functionName : gostring) : gostring := CancelToolPrefix ++ functionName.

(** ** The system instruction *)

Definition asyncToolCancellationInstructions : gostring :=
  bytes_of "ASYNC TOOL CANCELLATION:
Some of your tools keep running in the background after you have replied, and some of those can be stopped early.

Work that can be stopped early has its own cancel tool, named for it: a running write_report call is stopped by cancel_write_report. Work with no such tool cannot be stopped and will finish on its own.

When the user no longer wants a result you are still waiting on, call the corresponding cancel tool. Only the call stops the work: saying you canceled it, or that you will skip it, leaves it running and its result will still arrive and contradict you. So when the same turn also asks for something else, make the call and answer, rather than just answering.

Call the cancel tool with no arguments and it stops the one call that is running. If several calls of that same tool are running, it needs a tool_call_id to say which. Each call's id is already in the conversation: find the tool message that reported it running, which carries " ++ [34] ++ bytes_of "status" ++ [34] ++ bytes_of ": " ++ [34] ++ bytes_of "running" ++ [34] ++ bytes_of ", its " ++ [34] ++ bytes_of "tool_call_id" ++ [34] ++ bytes_of ", and the arguments that call was given. Copy that id exactly as written; never invent or guess one.".

Definition AsyncToolInstructions : gostring :=
  bytes_of "ASYNC TOOLS:
Some of your tools keep running after you have replied. Their results arrive later as messages in the conversation, on whatever turn happens to be in progress by then.

A result that has arrived is owed to the user, whatever the conversation has moved on to. Answer what the user just said first, then add the result at the end of that same reply: never before your answer, and never as a reply of its own. State a short result outright; for a long one, say what came back and offer the details. Say it once, and do not repeat it in later replies.".

Definition hasAsyncTools (b : Base) : bool :=
  existsb (fun '(_, i) => negb (cancelOnInterruption i)) (map_to_list (handlers b)).

Definition nonEmpty (p : gostring) : bool := negb (bool_decide (p = [])).

(** [composeSystemInstruction] *)
Definition partsWith (async : bool) (b : Base) : list gostring :=
  (if nonEmpty (baseSystemInstruction b) then [baseSystemInstruction b] else [])
  ++ List.filter nonEmpty (appendedSystemInstructions b)
  ++ from_nil [] (t ← turnCompletion b; Some [t])
  ++ (if bool_decide (cancelTools b = ∅) then [] else [asyncToolCancellationInstructions])
  ++ (if async then [AsyncToolInstructions] else []).
Definition instructionParts (b : Base) : list gostring := partsWith (hasAsyncTools b) b.
Definition composeSystemInstruction (b : Base) : Base :=
  b <| systemInstruction := joinWith [10; 10] (instructionParts b) |>.

Definition SetSystemInstruction (s : gostring) (b : Base) : Base :=
  composeSystemInstruction (b <| baseSystemInstruction := s |>).
Definition AppendSystemInstruction (s : gostring) (b : Base) : Base :=
  composeSystemInstruction (b <| appendedSystemInstructions ::= fun l => l ++ [s] |>).
(** [SetFilterIncompleteUserTurns] and [SetUserTurnCompletionConfig]: the protocol
    taught from then on, if any. *)
Definition SetTurnCompletion (t : option gostring) (b : Base) : Base :=
  composeSystemInstruction (b <| turnCompletion := t |>).

(** ** Cancel tools *)

Definition catchAllFunction : gostring := [].

Definition isCancelTool (n : gostring) (b : Base) : bool := bool_decide (n ∈ cancelTools b).

Definition isCancellable (b : Base) (i : registryItem) : bool :=
  cancellableByLLM i || (asyncToolCancellation b && negb (cancelOnInterruption i)).

(** [wantedCancelToolsLocked] *)
Definition wants (b : Base) (ni : gostring * registryItem) : bool :=
  negb (bool_decide (ni.1 = catchAllFunction)) && negb (isCancelTool ni.1 b) && isCancellable b ni.2.
Definition wantedCancelTools (b : Base) : gset gostring :=
  list_to_set (List.map (fun ni => CancelToolName ni.1) (List.filter (wants b) (map_to_list (handlers b)))).

Definition without (ns : gset gostring) (m : gmap gostring registryItem) : gmap gostring registryItem :=
  filter (fun ni => ni.1 ∉ ns) m.

(** [withdrawCancelToolsLocked] *)
Definition withdrawCancelTools (wanted : gset gostring) (b : Base) : gset gostring * Base :=
  let withdrawn := cancelTools b ∖ wanted in
  (withdrawn, b <| handlers ::= without withdrawn |> <| cancelTools ::= fun c => c ∖ withdrawn |>).

Definition cancelItem (n : gostring) : registryItem := mkItem n CancelToolHandler true 0 false false None.

(** [addCancelToolsLocked]: a name the application claimed is left to it. *)
Definition addCancelTools (wanted : gset gostring) (b : Base) : gset gostring * Base :=
  let added := filter (fun n => (n ∉ cancelTools b) /\ (handlers b !! n = None)) wanted in
  (added, b <| handlers ::= fun m => set_to_map (fun n => (n, cancelItem n)) added ∪ m |>
            <| cancelTools ::= union added |>).

(** [applyCancelTools] *)
Definition applyCancelTools (active withdrawn : gset gostring) (b : Base) : Base :=
  b <| builtins ::= fun o => s ← o; Some ((s ∖ withdrawn) ∪ active) |>.

Definition syncCancelTools (b : Base) : Base :=
  let wanted := wantedCancelTools b in
  let '(withdrawn, b) := withdrawCancelTools wanted b in
  let '(added, b) := addCancelTools wanted b in
  if bool_decide (withdrawn = ∅) && bool_decide (added = ∅) then b
  else composeSystemInstruction (applyCancelTools (cancelTools b) withdrawn b).

(** ** Registering *)

Inductive RegisterOption :=
| WithCancelOnInterruption (on : bool)
| WithTimeout (d : Z)
| WithCancellableByLLM (on : bool)
| WithToolCleanup (c : resource).

Definition applyOption (i : registryItem) (o : RegisterOption) : registryItem :=
  match o with
  | WithCancelOnInterruption on => i <| cancelOnInterruption := on |>
  | WithTimeout d => i <| timeout := d |>
  | WithCancellableByLLM on => i <| cancellableByLLM := on |>
  | WithToolCleanup c => i <| cleanup := Some c |>
  end.

(** [resolveCancellableByLLM] *)
Definition resolveCancellableByLLM (i : registryItem) : registryItem :=
  if negb (cancellableByLLM i) || negb (cancelOnInterruption i) then i else i <| cancellableByLLM := false |>.

Definition sameCleanup (a c : resource) : bool := comparable a && comparable c && Nat.eqb (rid a) (rid c).
Definition recordToolCleanup (c : option resource) (b : Base) : Base :=
  match c with
  | None => b
  | Some c => if existsb (fun e => sameCleanup e c) (cleanups b) then b else b <| cleanups ::= fun l => l ++ [c] |>
  end.
(** [runToolCleanups]: the resources released, in order. *)
Definition runToolCleanups (b : Base) : list resource * Base := (cleanups b, b <| cleanups := [] |>).

Definition RegisterFunction (n : gostring) (h : nat) (opts : list RegisterOption) (b : Base) : Base :=
  if isCancelTool n b then b
  else
    let item := fold_left applyOption opts (mkItem n (UserHandler h) true 0 false false None) in
    let item := resolveCancellableByLLM item in
    let b := recordToolCleanup (cleanup item) b in
    syncCancelTools (b <| handlers ::= insert n item |>).

Definition UnregisterFunction (n : gostring) (b : Base) : bool * Base :=
  (bool_decide (is_Some (handlers b !! n)), syncCancelTools (b <| handlers ::= delete n |>)).

Definition HasFunction (n : gostring) (b : Base) : bool :=
  bool_decide (is_Some (handlers b !! n)) || bool_decide (is_Some (handlers b !! catchAllFunction)).

Definition lookupFunction (n : gostring) (b : Base) : option registryItem :=
  i ← (match handlers b !! n with Some i => Some i | None => handlers b !! catchAllFunction end);
  Some (i <| name := n |>).

(** The entry [runFunctionCalls] runs a call under. *)
Definition entryFor (n : gostring) (b : Base) : registryItem :=
  from_nil (mkItem n MissingFunctionHandler true 0 false false None) (lookupFunction n b).

(** [userVisibleCalls] *)
Definition userVisibleCalls (calls : list ToolCall) (b : Base) : list ToolCall :=
  List.filter (fun c => negb (isCancelTool (tcName c) b)) calls.

(** ** The handlers of an advertised toolset *)

(** [toolCallOptions] *)
Definition toolCallOptions (t : Tool) : list RegisterOption :=
  from_nil [] (on ← CancelOnInterruption t; Some [WithCancelOnInterruption on])
  ++ from_nil [] (s ← TimeoutSecs t; Some [WithTimeout (duration_of_secs s)])
  ++ from_nil [] (on ← CancellableByLLM t; Some [WithCancellableByLLM on])
  ++ match Cleanup t with Carried c => [WithToolCleanup c] | _ => [] end.

Definition markFromToolset (n : gostring) (b : Base) : Base :=
  b <| handlers ::= alter (fun i => i <| fromToolset := true |>) n |>.

Definition registerToolHandler (t : Tool) (b : Base) : Base :=
  match handlers b !! toolName t with
  | Some _ => b
  | None =>
    match Handler t with
    | Carried h => markFromToolset (toolName t) (RegisterFunction (toolName t) h (toolCallOptions t) b)
    | _ => b
    end
  end.

Definition carries (t : Tool) : bool := match Handler t with Nothing => false | _ => true end.
Definition advertised (ts : list Tool) : gset gostring := list_to_set (List.map toolName (List.filter carries ts)).

Definition dropUnadvertisedToolHandlers (adv : gset gostring) (b : Base) : Base :=
  let dropped := dom (filter (fun ni => fromToolset ni.2 = true /\ ni.1 ∉ adv) (handlers b)) in
  if bool_decide (dropped = ∅) then b else syncCancelTools (b <| handlers ::= without dropped |>).

Definition SyncToolHandlers (ts : list Tool) (b : Base) : Base :=
  dropUnadvertisedToolHandlers (advertised ts)
    (fold_left (fun b t => if carries t then registerToolHandler t b else b) ts b).

(** What every inference begins with. *)
Definition beginRun (c : LLMContext) (b : Base) : Base := syncCancelTools (SyncToolHandlers (LlmContext.Tools c) b).

(** ** What is offered is what can be canceled *)

Definition own (i : registryItem) : bool := bool_decide (handler i = CancelToolHandler).

(** A cancel tool is answered by its handler, which answers nothing else, and is what
    the adapter is given. *)
Record answered (b : Base) : Prop := mkAnswered {
  ans_tool n : n ∈ cancelTools b -> handlers b !! n = Some (cancelItem n);
  ans_own n i : handlers b !! n = Some i -> own i = true -> n ∈ cancelTools b;
  ans_sent s : builtins b = Some s -> s = cancelTools b
}.

(** A tool of the application's that can be canceled, whose cancel tool's name is not
    that of another tool of the application's. *)
Definition offers (b : Base) (n : gostring) : Prop := exists t i,
  n = CancelToolName t /\ t <> catchAllFunction /\ handlers b !! t = Some i /\ own i = false
  /\ isCancellable b i = true /\ forall j, handlers b !! n = Some j -> own j = true.
Definition exact (b : Base) : Prop := forall n, n ∈ cancelTools b <-> offers b n.

Lemma wanted_spec b n : n ∈ wantedCancelTools b <-> exists t i, n = CancelToolName t /\ t <> catchAllFunction
  /\ handlers b !! t = Some i /\ (t ∉ cancelTools b) /\ isCancellable b i = true.
Proof.
  unfold wantedCancelTools. rewrite elem_of_list_to_set, list_elem_of_fmap. split.
  - intros ([t i] & -> & Hin). apply list_elem_of_In, List.filter_In in Hin as [Hin%list_elem_of_In%elem_of_map_to_list Hw].
    unfold wants, isCancelTool in Hw. apply andb_prop in Hw as [[H1 H2]%andb_prop H3]. simpl in *.
    apply negb_true_iff, bool_decide_eq_false in H1, H2. by exists t, i.
  - intros (t & i & -> & Hc & Hi & Ht & Hcan). exists (t, i). split; [done|].
    apply list_elem_of_In, List.filter_In. split; [by apply list_elem_of_In, elem_of_map_to_list|].
    unfold wants, isCancelTool. simpl. by rewrite !bool_decide_false, Hcan.
Qed.

(** The registry [syncCancelTools] leaves. *)
Definition kept (b : Base) : gset gostring :=
  filter (fun n => (n ∈ cancelTools b) \/ (handlers b !! n = None)) (wantedCancelTools b).

Lemma kept_spec b n : n ∈ kept b <-> n ∈ wantedCancelTools b /\ (n ∈ cancelTools b \/ (handlers b !! n = None)).
Proof. unfold kept. rewrite elem_of_filter. tauto. Qed.

Lemma without_lookup ns m n : without ns m !! n = if decide (n ∈ ns) then None else m !! n.
Proof.
  unfold without. case_decide as H.
  - apply map_lookup_filter_None_2. right. intros i _. simpl. auto.
  - destruct (m !! n) as [i|] eqn:E; [by apply map_lookup_filter_Some_2|]. apply map_lookup_filter_None_2. by left.
Qed.

Lemma sync_fields b : let b' := syncCancelTools b in
  cancelTools b' = kept b
  /\ (forall n, handlers b' !! n = if decide (n ∈ kept b) then
        (if decide (n ∈ cancelTools b) then handlers b !! n else Some (cancelItem n))
      else if decide (n ∈ cancelTools b) then None else handlers b !! n)
  /\ asyncToolCancellation b' = asyncToolCancellation b
  /\ (forall s, builtins b' = Some s -> exists s0, builtins b = Some s0 /\ (s0 = cancelTools b -> s = kept b)).
Proof.
  unfold syncCancelTools, withdrawCancelTools, addCancelTools.
  set (W := wantedCancelTools b). set (b1 := (b <| handlers ::= _ |>) <| cancelTools ::= _ |>).
  set (added := filter _ W). set (b2 := (b1 <| handlers ::= _ |>) <| cancelTools ::= _ |>).
  assert (forall n, n ∈ added <-> n ∈ W /\ (n ∉ cancelTools b) /\ (handlers b !! n = None)) as Ha.
  { intros n. unfold added. rewrite elem_of_filter. unfold b1. simpl. rewrite without_lookup. case_decide; set_solver. }
  assert (cancelTools b2 = kept b) as Ec.
  { apply set_eq. intros n. unfold b2. simpl. rewrite elem_of_union, Ha, kept_spec. fold W.
    rewrite elem_of_difference, elem_of_difference. destruct (decide (n ∈ W)), (decide (n ∈ cancelTools b)); tauto. }
  assert (forall n, handlers b2 !! n = if decide (n ∈ kept b) then
        (if decide (n ∈ cancelTools b) then handlers b !! n else Some (cancelItem n))
      else if decide (n ∈ cancelTools b) then None else handlers b !! n) as Eh.
  { intros n. unfold b2. simpl.
    destruct (decide (n ∈ added)) as [Hn|Hn].
    - erewrite lookup_union_Some_l by (apply lookup_set_to_map; [done|]; by exists n).
      apply Ha in Hn as (Hw & Hc & Hh). rewrite decide_True by (apply kept_spec; auto). by rewrite decide_False.
    - rewrite lookup_union_r.
      2: { destruct (set_to_map _ added !! n) as [i|] eqn:E; [|done]. exfalso. apply Hn.
           apply lookup_set_to_map in E as (y & Hy & [= -> _]); done. }
      unfold b1. simpl. rewrite without_lookup. rewrite Ha in Hn.
      destruct (decide (n ∈ kept b)) as [Hk|Hk]; rewrite kept_spec in Hk; fold W in Hk.
      + rewrite decide_False by set_solver. by rewrite decide_True by (destruct (decide (n ∈ cancelTools b)); tauto).
      + destruct (decide (n ∈ cancelTools b)); [by rewrite decide_True by set_solver|by rewrite decide_False by set_solver]. }
  destruct (bool_decide (cancelTools b ∖ W = ∅) && bool_decide (added = ∅)) eqn:E; simpl.
  - split_and!; [done|done|done|]. intros s Hs. exists s. split; [done|]. intros ->.
    apply andb_prop in E as [E1%bool_decide_eq_true E2%bool_decide_eq_true]. rewrite <- Ec. unfold b2. simpl. set_solver.
  - split_and!; [done|done|done|]. intros s. destruct (builtins b) as [s0|]; [|done]. intros [= <-].
    exists s0. split; [done|]. intros ->. rewrite <- Ec. unfold b2. simpl. set_solver.
Qed.

Lemma CancelToolName_nonempty t : CancelToolName t <> catchAllFunction.
Proof. done. Qed.

Lemma own_cancelItem n : own (cancelItem n) = true.
Proof. done. Qed.

(** The tools of the application's are left as they are. *)
Lemma sync_handlers b n i : answered b -> own i = false ->
  (handlers (syncCancelTools b) !! n = Some i <-> handlers b !! n = Some i).
Proof.
  intros [Ht Ho _] Hi. destruct (sync_fields b) as (_ & -> & _).
  destruct (decide (n ∈ cancelTools b)) as [Hc|Hc].
  - rewrite (Ht n Hc). case_decide; split; try done; intros [= <-]; by rewrite own_cancelItem in Hi.
  - case_decide as Hk; [|done]. apply kept_spec in Hk as [_ [?|Hn]]; [done|]. rewrite Hn.
    split; [|done]. intros [= <-]. by rewrite own_cancelItem in Hi.
Qed.

Lemma sync_answered b : answered b -> answered (syncCancelTools b).
Proof.
  intros A. pose proof A as [Ht Ho Hs]. destruct (sync_fields b) as (Ec & Eh & _ & Eb). split.
  - intros n. rewrite Ec, Eh. intros Hn. rewrite decide_True by done. case_decide; [by apply Ht|done].
  - intros n i. rewrite Ec, Eh. repeat case_decide; intros E Hi; try done. by apply Ho in E.
  - intros s (s0 & E0 & E)%Eb. rewrite Ec. auto.
Qed.

Lemma sync_exact b : answered b -> exact (syncCancelTools b).
Proof.
  intros A n. pose proof A as [Ht Ho _]. destruct (sync_fields b) as (Ec & Eh & Ea & _).
  rewrite Ec, kept_spec, wanted_spec. unfold offers, isCancellable. rewrite Ea. split.
  - intros [(t & i & -> & Hne & Hi & Hc & Hcan) Hfree].
    assert (own i = false) as Hown by (apply not_true_iff_false; intros ?; by apply Hc, (Ho t i)).
    exists t, i. split_and!; [done|done|by apply sync_handlers|done|done|].
    intros j Hj. destruct (own j) eqn:Ej; [done|]. apply (sync_handlers b) in Hj; [|done..].
    destruct Hfree as [Hin|Hn]; [|congruence]. rewrite (Ht _ Hin) in Hj. by injection Hj as <-.
  - intros (t & i & -> & Hne & Hi & Hown & Hcan & Hfree). apply (sync_handlers b) in Hi; [|done..]. split.
    + exists t, i. split_and!; try done. intros Hin. rewrite (Ht _ Hin) in Hi. injection Hi as <-. done.
    + destruct (handlers b !! CancelToolName t) as [j|] eqn:Hj; [|by right]. left. apply (Ho _ j Hj).
      destruct (own j) eqn:Ej; [done|]. by rewrite <- (Hfree j), Ej by (by apply sync_handlers).
Qed.

(** Changing the application's own tools. *)
Lemma answered_insert b n i : answered b -> n ∉ cancelTools b -> own i = false ->
  answered (b <| handlers ::= insert n i |>).
Proof.
  intros [Ht Ho Hs] Hn Hi. split; simpl; [|intros n' j|done].
  - intros n' Hn'. rewrite lookup_insert_ne; [by apply Ht|]. intros ->. done.
  - intros [[<- <-]|[_ Hj]]%lookup_insert_Some Hown; [congruence|by eapply Ho].
Qed.

Lemma answered_sub b m : answered b -> (forall n i, m !! n = Some i -> handlers b !! n = Some i) ->
  (forall n, n ∈ cancelTools b -> m !! n = handlers b !! n) -> answered (b <| handlers := m |>).
Proof.
  intros [Ht Ho Hs] Hm Hc. split; simpl; [|intros n' j|done].
  - intros n Hn. by rewrite (Hc n Hn), (Ht n Hn).
  - intros Hj. by apply Ho, Hm.
Qed.

Lemma applyOption_own i os : handler (fold_left applyOption os i) = handler i.
Proof. revert i. induction os as [|o os IH]; intros i; [done|]. simpl. rewrite IH. by destruct o. Qed.

Lemma record_fields c b : handlers (recordToolCleanup c b) = handlers b /\ cancelTools (recordToolCleanup c b) = cancelTools b
  /\ asyncToolCancellation (recordToolCleanup c b) = asyncToolCancellation b /\ builtins (recordToolCleanup c b) = builtins b.
Proof. unfold recordToolCleanup. destruct c as [c|]; [|done]. by destruct (existsb _ _). Qed.

(** The entry [RegisterFunction] makes. *)
Definition newItem (n : gostring) (h : nat) (opts : list RegisterOption) : registryItem :=
  resolveCancellableByLLM (fold_left applyOption opts (mkItem n (UserHandler h) true 0 false false None)).

Lemma newItem_own n h opts : own (newItem n h opts) = false.
Proof.
  unfold own, newItem, resolveCancellableByLLM. apply bool_decide_eq_false.
  destruct (_ || _); simpl; by rewrite applyOption_own.
Qed.

(** A registered tool is never both synchronous and cancellable by the model. *)
Lemma newItem_cancellable n h opts : cancellableByLLM (newItem n h opts) = true ->
  cancelOnInterruption (newItem n h opts) = false.
Proof.
  unfold newItem, resolveCancellableByLLM. set (i := fold_left _ _ _).
  destruct (cancellableByLLM i) eqn:E1, (cancelOnInterruption i) eqn:E2; simpl; congruence.
Qed.

Definition entered (n : gostring) (h : nat) (opts : list RegisterOption) (b : Base) : Base :=
  (recordToolCleanup (cleanup (newItem n h opts)) b) <| handlers ::= insert n (newItem n h opts) |>.

Lemma Register_eq n h opts b : n ∉ cancelTools b ->
  RegisterFunction n h opts b = syncCancelTools (entered n h opts b).
Proof. intros Hn. unfold RegisterFunction, isCancelTool. by rewrite bool_decide_false. Qed.

Lemma entered_answered n h opts b : answered b -> n ∉ cancelTools b -> answered (entered n h opts b).
Proof.
  intros [Ht Ho Hs] Hn. destruct (record_fields (cleanup (newItem n h opts)) b) as (E1 & E2 & _ & E4).
  apply answered_insert; [split; by rewrite ?E1, ?E2, ?E4|by rewrite E2|apply newItem_own].
Qed.

Lemma Register_wf n h opts b : answered b -> exact b ->
  answered (RegisterFunction n h opts b) /\ exact (RegisterFunction n h opts b).
Proof.
  intros A X. destruct (decide (n ∈ cancelTools b)) as [Hn|Hn].
  - unfold RegisterFunction, isCancelTool. by rewrite bool_decide_true.
  - rewrite Register_eq by done. pose proof (entered_answered n h opts b A Hn).
    split; [by apply sync_answered|by apply sync_exact].
Qed.

Lemma mark_wf n b : answered b -> exact b -> n ∉ cancelTools b ->
  answered (markFromToolset n b) /\ exact (markFromToolset n b).
Proof.
  intros [Ht Ho Hs] X Hn.
  assert (forall t, handlers (markFromToolset n b) !! t
    = (fun i => if decide (t = n) then i <| fromToolset := true |> else i) <$> handlers b !! t) as E.
  { intros t. unfold markFromToolset. simpl. destruct (decide (t = n)) as [->|Hne].
    - by rewrite lookup_alter_eq.
    - rewrite lookup_alter_ne by done. by destruct (handlers b !! t). }
  split; [split|].
  - intros t Hin. rewrite E, (Ht t Hin). simpl. rewrite decide_False; [done|]. intros ->. done.
  - intros t i. rewrite E. intros (i0 & Hi & ->)%fmap_Some Hown. apply (Ho t i0 Hi). by case_decide.
  - done.
  - intros t. rewrite (X t). unfold offers. split.
    + intros (u & i & -> & Hne & Hi & Hown & Hcan & Hf). exists u. eexists. rewrite E, Hi. split_and!; [done|done|reflexivity| | |].
      * by case_decide.
      * by case_decide.
      * intros j. rewrite E. intros (j0 & Hj & ->)%fmap_Some. apply Hf in Hj. by case_decide.
    + intros (u & i & -> & Hne & Hi & Hown & Hcan & Hf). rewrite E in Hi. apply fmap_Some in Hi as (i0 & Hi & ->).
      exists u, i0. split_and!; [done|done|done|by case_decide|by case_decide|].
      intros j Hj. specialize (Hf (if decide (CancelToolName u = n) then j <| fromToolset := true |> else j)).
      rewrite E, Hj in Hf. specialize (Hf eq_refl). by case_decide.
Qed.

(** Registering the handler a tool carries: the cancel tool's entry is never one it
    touches. *)
Lemma registerTool_wf t b : answered b -> exact b ->
  answered (registerToolHandler t b) /\ exact (registerToolHandler t b).
Proof.
  intros A X. unfold registerToolHandler. destruct (handlers b !! toolName t) as [i|] eqn:Ht; [done|].
  destruct (Handler t) as [|h|]; [done| |done].
  assert (toolName t ∉ cancelTools b) as Hn by (intros Hin; by rewrite (ans_tool _ A _ Hin) in Ht).
  destruct (Register_wf (toolName t) h (toolCallOptions t) b A X) as [A1 X1].
  apply mark_wf; [done..|]. intros Hin. apply X1 in Hin as (u & j & E & Hne & Hj & Hown & Hcan & Hf).
  rewrite Register_eq in Hf by done.
  pose proof (Hf (newItem (toolName t) h (toolCallOptions t))) as Hf'. rewrite newItem_own in Hf'. discriminate Hf'.
  apply sync_handlers; [by apply entered_answered|apply newItem_own|]. simpl. apply lookup_insert_eq.
Qed.

Lemma registerTools_wf ts b : answered b -> exact b ->
  let b' := fold_left (fun b t => if carries t then registerToolHandler t b else b) ts b in answered b' /\ exact b'.
Proof.
  revert b. induction ts as [|t ts IH]; intros b A X; [done|]. simpl. apply IH;
    (destruct (carries t); [by apply registerTool_wf|done]).
Qed.

Lemma without_answered ns b : answered b -> (forall n, n ∈ ns -> n ∉ cancelTools b) ->
  answered (b <| handlers ::= without ns |>).
Proof.
  intros A H. apply (answered_sub b (without ns (handlers b)) A).
  - intros n i. rewrite without_lookup. by case_decide.
  - intros n Hn. rewrite without_lookup, decide_False; [done|]. intros Hin. by apply (H n Hin).
Qed.

Definition dropped (adv : gset gostring) (b : Base) : gset gostring :=
  dom (filter (fun ni => fromToolset ni.2 = true /\ ni.1 ∉ adv) (handlers b)).

Lemma dropped_spec adv b n : n ∈ dropped adv b <-> exists i, handlers b !! n = Some i /\ fromToolset i = true /\ n ∉ adv.
Proof.
  unfold dropped. rewrite elem_of_dom. split.
  - intros [i [Hi [? ?]]%map_lookup_filter_Some]. by exists i.
  - intros (i & Hi & ? & ?). exists i. by apply map_lookup_filter_Some.
Qed.

Lemma dropped_app adv b n : answered b -> n ∈ dropped adv b -> n ∉ cancelTools b.
Proof.
  intros A (i & Hi & Hf & _)%dropped_spec Hin. rewrite (ans_tool _ A _ Hin) in Hi. by injection Hi as <-.
Qed.

Lemma drop_wf adv b : answered b -> exact b ->
  answered (dropUnadvertisedToolHandlers adv b) /\ exact (dropUnadvertisedToolHandlers adv b).
Proof.
  intros A X. unfold dropUnadvertisedToolHandlers. fold (dropped adv b). case_bool_decide as E; [done|].
  assert (answered (b <| handlers ::= without (dropped adv b) |>)) by
    (apply without_answered; [done|]; intros n; by apply dropped_app).
  split; [by apply sync_answered|by apply sync_exact].
Qed.

Lemma Sync_wf ts b : answered b -> exact b -> answered (SyncToolHandlers ts b) /\ exact (SyncToolHandlers ts b).
Proof. intros A X. destruct (registerTools_wf ts b A X). by apply drop_wf. Qed.

(** ** Every use *)

(** What an application and the service do with the registry.  A cancel tool is not
    unregistered by hand. *)
Inductive uses : Base -> Base -> Prop :=
| u_register b n h opts : uses b (RegisterFunction n h opts b)
| u_unregister b n : n ∉ cancelTools b -> uses b (UnregisterFunction n b).2
| u_system b i : uses b (SetSystemInstruction i b)
| u_append b i : uses b (AppendSystemInstruction i b)
| u_completion b t : uses b (SetTurnCompletion t b)
| u_run b c : uses b (beginRun c b).

Definition used (b : Base) : Prop := exists async adapter, rtc uses (New async adapter) b.

Lemma wf_same b b' : handlers b' = handlers b -> cancelTools b' = cancelTools b ->
  asyncToolCancellation b' = asyncToolCancellation b -> builtins b' = builtins b ->
  answered b -> exact b -> answered b' /\ exact b'.
Proof.
  intros Eh Ec Ea Eb [H1 H2 H3] X. split; [by split; rewrite ?Eh, ?Ec, ?Eb|].
  intros n. rewrite Ec, (X n). unfold offers, isCancellable. by rewrite Eh, Ea.
Qed.

Lemma uses_wf b b' : uses b b' -> answered b -> exact b -> answered b' /\ exact b'.
Proof.
  intros [b1 n h opts|b1 n Hn|b1 i|b1 i|b1 t|b1 c] A X; [by apply Register_wf| |by apply (wf_same b1)..|].
  - assert (answered (b1 <| handlers ::= delete n |>)) as A1.
    { apply (answered_sub b1 (delete n (handlers b1)) A); [by intros m i [_ ?]%lookup_delete_Some|].
      intros m Hm. rewrite lookup_delete_ne; [done|]. intros ->. done. }
    split; [by apply sync_answered|by apply sync_exact].
  - destruct (Sync_wf (LlmContext.Tools c) b1 A X). split; [by apply sync_answered|by apply sync_exact].
Qed.

Lemma used_wf b : used b -> answered b /\ exact b.
Proof.
  intros (async & adapter & Hr).
  apply (rtc_invariant uses (fun b => answered b /\ exact b)) in Hr; [done|intros ? ? Hu []; by eapply uses_wf|].
  split; [split; simpl; [set_solver|by intros ? ?|by destruct adapter; intros ? [= <-]]|].
  intros n. simpl. split; [set_solver|]. intros (t & i & _ & _ & Hi & _). done.
Qed.

(** The instruction the service sends is the composition of its parts, but for the
    standing guidance on asynchronous tools, which may be out of date. *)
Definition told (b : Base) : Prop := exists async, systemInstruction b = joinWith [10; 10] (partsWith async b).

Lemma told_ext b b' : systemInstruction b' = systemInstruction b -> baseSystemInstruction b' = baseSystemInstruction b ->
  appendedSystemInstructions b' = appendedSystemInstructions b -> turnCompletion b' = turnCompletion b ->
  cancelTools b' = cancelTools b -> told b -> told b'.
Proof. intros E1 E2 E3 E4 E5 [f H]. exists f. unfold partsWith in *. by rewrite E1, E2, E3, E4, E5. Qed.

Lemma composed_told b : told (composeSystemInstruction b).
Proof. by exists (hasAsyncTools b). Qed.

Lemma sync_told b : told b -> told (syncCancelTools b).
Proof.
  intros H. pose proof (sync_fields b) as (Ec & _). revert Ec. unfold syncCancelTools, withdrawCancelTools, addCancelTools.
  set (W := wantedCancelTools b). set (b1 := (b <| handlers ::= _ |>) <| cancelTools ::= _ |>).
  set (added := filter _ W). set (b2 := (b1 <| handlers ::= _ |>) <| cancelTools ::= _ |>).
  destruct (bool_decide (cancelTools b ∖ W = ∅) && bool_decide (added = ∅)) eqn:E; [|intros _; apply composed_told].
  intros _. apply (told_ext b); try done. apply andb_prop in E as [E1%bool_decide_eq_true E2%bool_decide_eq_true].
  unfold b2. simpl. rewrite E1, E2. set_solver.
Qed.

Lemma Register_told n h opts b : told b -> told (RegisterFunction n h opts b).
Proof.
  intros H. unfold RegisterFunction. destruct (isCancelTool n b); [done|]. apply sync_told.
  apply (told_ext b); [..|done]; unfold recordToolCleanup; destruct (cleanup _); try done; by destruct (existsb _ _).
Qed.

Lemma uses_told b b' : uses b b' -> told b -> told b'.
Proof.
  intros [b1 n h opts|b1 n Hn|b1 i|b1 i|b1 t|b1 c] H; try apply composed_told; [by apply Register_told|..].
  - apply sync_told. by apply (told_ext b1).
  - apply sync_told. unfold SyncToolHandlers.
    assert (forall ts b, told b -> told (fold_left (fun b t => if carries t then registerToolHandler t b else b) ts b)) as Hf.
    { induction ts as [|t ts IH]; intros b0 Hb; [done|]. simpl. apply IH. destruct (carries t); [|done].
      unfold registerToolHandler. destruct (handlers b0 !! toolName t); [done|]. destruct (Handler t) as [|h|]; try done.
      by apply (told_ext (RegisterFunction (toolName t) h (toolCallOptions t) b0)); [..|apply Register_told]. }
    specialize (Hf (LlmContext.Tools c) b1 H). set (b2 := fold_left _ _ b1) in *. unfold dropUnadvertisedToolHandlers. case_match; [done|].
    apply sync_told. by apply (told_ext b2).
Qed.

(** Whatever is registered, unregistered and advertised, the model is offered a
    cancel tool for exactly the tools that can be canceled (but one whose cancel tool's
    name is taken); each is answered by its handler, sent to the provider, and kept from
    the application; and the system instruction explains them exactly while there is
    one. *)
Theorem cancel_tools_exact b : used b ->
  (forall n, n ∈ cancelTools b <-> offers b n)
  /\ (forall n, n ∈ cancelTools b -> lookupFunction n b = Some (cancelItem n))
  /\ (forall s, builtins b = Some s -> s = cancelTools b)
  /\ (forall calls c, c ∈ userVisibleCalls calls b <-> c ∈ calls /\ ~ offers b (tcName c))
  /\ (exists async, systemInstruction b = joinWith [10; 10]
        ((if nonEmpty (baseSystemInstruction b) then [baseSystemInstruction b] else [])
         ++ List.filter nonEmpty (appendedSystemInstructions b) ++ from_nil [] (t ← turnCompletion b; Some [t])
         ++ (if bool_decide (cancelTools b = ∅) then [] else [asyncToolCancellationInstructions])
         ++ (if async : bool then [AsyncToolInstructions] else []))).
Proof.
  intros U. destruct (used_wf b U) as [A X]. split_and!.
  - exact X.
  - intros n Hn. unfold lookupFunction. by rewrite (ans_tool _ A n Hn).
  - apply A.
  - intros calls c. unfold userVisibleCalls. rewrite !list_elem_of_In, List.filter_In. unfold isCancelTool.
    rewrite negb_true_iff, bool_decide_eq_false, (X (tcName c)). done.
  - destruct U as (async & adapter & Hr). apply (rtc_invariant uses told) in Hr; [exact Hr|apply uses_told|].
    exists false. reflexivity.
Qed.

(** ** Toolsets *)

Lemma registerTool_keeps t b n i : answered b -> own i = false -> handlers b !! n = Some i ->
  handlers (registerToolHandler t b) !! n = Some i.
Proof.
  intros A Hown Hn. unfold registerToolHandler. destruct (handlers b !! toolName t) as [j|] eqn:Ht; [done|].
  destruct (Handler t) as [|h|]; [done| |done].
  assert (toolName t ∉ cancelTools b) as Hc by (intros Hin; by rewrite (ans_tool _ A _ Hin) in Ht).
  rewrite Register_eq by done. unfold markFromToolset. simpl. assert (n <> toolName t) as Hne by congruence.
  rewrite lookup_alter_ne by done. apply sync_handlers; [by apply entered_answered|done|].
  unfold entered. simpl. rewrite lookup_insert_ne by done. by destruct (record_fields (cleanup (newItem (toolName t) h (toolCallOptions t))) b) as (-> & _).
Qed.

Definition isCancelName (n : gostring) : Prop := exists t, n = CancelToolName t.

Lemma cancelTools_named b n : exact b -> n ∈ cancelTools b -> isCancelName n.
Proof. intros X (t & i & -> & _)%X. by exists t. Qed.

Lemma registerTool_has t b h : answered b -> exact b -> Handler t = Carried h -> ~ isCancelName (toolName t) ->
  exists i, handlers (registerToolHandler t b) !! toolName t = Some i /\ own i = false.
Proof.
  intros A X Hh Hn. unfold registerToolHandler. destruct (handlers b !! toolName t) as [i|] eqn:Ht.
  - exists i. split; [done|]. destruct (own i) eqn:E; [|done]. exfalso. apply Hn, (cancelTools_named b); [done|].
    by apply (ans_own _ A _ i).
  - rewrite Hh. assert (toolName t ∉ cancelTools b) as Hc by (intros Hin; by rewrite (ans_tool _ A _ Hin) in Ht).
    rewrite Register_eq by done. set (b1 := entered _ _ _ b).
    assert (handlers (syncCancelTools b1) !! toolName t = Some (newItem (toolName t) h (toolCallOptions t))) as Hi.
    { apply sync_handlers; [by apply entered_answered|apply newItem_own|]. unfold b1, entered. simpl. apply lookup_insert_eq. }
    eexists. unfold markFromToolset. simpl. rewrite lookup_alter_eq, Hi. split; [reflexivity|].
    apply (newItem_own (toolName t) h (toolCallOptions t)).
Qed.

Definition registerTools (ts : list Tool) (b : Base) : Base :=
  fold_left (fun b t => if carries t then registerToolHandler t b else b) ts b.

Lemma registerTools_keep ts b n i : answered b -> exact b -> own i = false -> handlers b !! n = Some i ->
  handlers (registerTools ts b) !! n = Some i.
Proof.
  intros A X Hown. revert b A X. induction ts as [|t ts IH]; intros b A X Hi; [done|]. simpl.
  destruct (carries t); [|by apply IH]. destruct (registerTool_wf t b A X). apply IH; [done..|].
  by apply registerTool_keeps.
Qed.

Lemma registerTools_has ts b t h : answered b -> exact b -> t ∈ ts -> Handler t = Carried h ->
  ~ isCancelName (toolName t) -> exists i, handlers (registerTools ts b) !! toolName t = Some i /\ own i = false.
Proof.
  intros A X Hin Hh Hn. revert b A X. induction ts as [|u ts IH]; intros b A X; [by apply elem_of_nil in Hin|].
  simpl. destruct (registerTool_wf u b A X) as [A' X']. apply elem_of_cons in Hin as [->|Hin].
  - assert (carries u = true) as -> by (unfold carries; by rewrite Hh).
    destruct (registerTool_has u b h A X Hh Hn) as (i & Hi & Hown). exists i. split; [|done].
    by apply (registerTools_keep ts).
  - apply IH; [done|by destruct (carries u)..].
Qed.

Lemma drop_keeps adv b n i : answered b -> own i = false -> (fromToolset i = false \/ n ∈ adv) ->
  handlers b !! n = Some i -> handlers (dropUnadvertisedToolHandlers adv b) !! n = Some i.
Proof.
  intros A Hown Hf Hi. unfold dropUnadvertisedToolHandlers. fold (dropped adv b). case_bool_decide; [done|].
  apply sync_handlers; [apply without_answered; [done|]; intros m; by apply dropped_app|done|]. simpl.
  rewrite without_lookup, decide_False; [done|]. intros (j & Hj & Hjf & Hadv)%dropped_spec. destruct Hf; congruence.
Qed.

Lemma drop_left adv b n i : answered b -> exact b -> handlers (dropUnadvertisedToolHandlers adv b) !! n = Some i ->
  fromToolset i = true -> n ∈ adv.
Proof.
  intros A X Hi Hf. destruct (decide (n ∈ adv)) as [|Hadv]; [done|]. exfalso.
  assert (own i = false) as Hown.
  { destruct (own i) eqn:E; [|done]. destruct (drop_wf adv b A X) as [A' _].
    pose proof (ans_tool _ A' n (ans_own _ A' n i Hi E)) as E'. rewrite Hi in E'. by injection E' as ->. }
  revert Hi. unfold dropUnadvertisedToolHandlers. fold (dropped adv b). case_bool_decide as E; intros Hi.
  - assert (n ∈ dropped adv b) as Hin by (apply dropped_spec; eauto). by rewrite E in Hin.
  - rewrite sync_handlers in Hi; [|apply without_answered; [done|]; intros m; by apply dropped_app|done]. simpl in Hi.
    rewrite without_lookup in Hi. case_decide as Hnd; [done|]. apply Hnd, dropped_spec. eauto.
Qed.

(** Bringing the registry into line with the toolset a conversation advertises: what
    was registered by hand is neither replaced nor dropped; every advertised tool that
    carries a handler has one; and no handler is left that came from a toolset and is
    not advertised any more. *)
Theorem toolset_in_line b ts : used b ->
  (forall n i, handlers b !! n = Some i -> own i = false -> fromToolset i = false ->
     handlers (SyncToolHandlers ts b) !! n = Some i)
  /\ (forall t h, t ∈ ts -> Handler t = Carried h -> ~ isCancelName (toolName t) ->
     HasFunction (toolName t) (SyncToolHandlers ts b) = true)
  /\ (forall n i, handlers (SyncToolHandlers ts b) !! n = Some i -> fromToolset i = true -> n ∈ advertised ts).
Proof.
  intros [A X]%used_wf. unfold SyncToolHandlers. fold (registerTools ts b).
  destruct (registerTools_wf ts b A X) as [A1 X1]. fold (registerTools ts b) in A1, X1. split_and!.
  - intros n i Hi Hown Hf. apply drop_keeps; auto. by apply registerTools_keep.
  - intros t h Hin Hh Hn. destruct (registerTools_has ts b t h A X Hin Hh Hn) as (i & Hi & Hown).
    unfold HasFunction. rewrite bool_decide_true; [done|]. exists i. apply drop_keeps; [done..| |done]. right.
    apply elem_of_list_to_set, list_elem_of_fmap. exists t. split; [done|].
    apply list_elem_of_In, List.filter_In. split; [by apply list_elem_of_In|]. unfold carries. by rewrite Hh.
  - intros n i. by apply drop_left.
Qed.

(** ** Resources *)

Lemma same_sym e f : sameCleanup e f = sameCleanup f e.
Proof. unfold sameCleanup. by rewrite Nat.eqb_sym, (andb_comm (comparable e)). Qed.

Lemma same_trans c e f : sameCleanup c e = true -> sameCleanup e f = sameCleanup c f.
Proof.
  unfold sameCleanup. intros [[-> ->]%andb_prop ->%Nat.eqb_eq]%andb_prop. done.
Qed.

Definition distinct (l : list resource) : Prop := forall i j e f, l !! i = Some e -> l !! j = Some f ->
  sameCleanup e f = true -> i = j.

Lemma record_distinct c b : distinct (cleanups b) -> distinct (cleanups (recordToolCleanup (Some c) b)).
Proof.
  intros H. simpl. destruct (existsb _ (cleanups b)) eqn:E; [done|]. simpl.
  assert (forall i e, cleanups b !! i = Some e -> sameCleanup e c = false) as Hn.
  { intros i e Hi. apply not_true_iff_false. intros Hs. apply not_true_iff_false in E. apply E, existsb_exists.
    exists e. split; [by eapply list_elem_of_In, list_elem_of_lookup_2|done]. }
  intros i j e f [Hi|[Gi Hi]]%lookup_app_Some [Hj|[Gj Hj]]%lookup_app_Some Hs; [by eapply H|..];
    try (apply list_lookup_singleton_Some in Hj as [? ->]); try (apply list_lookup_singleton_Some in Hi as [? ->]).
  - by rewrite (Hn i e Hi) in Hs.
  - by rewrite same_sym, (Hn j f Hj) in Hs.
  - lia.
Qed.

Lemma record_has c b : comparable c = true -> exists e, e ∈ cleanups (recordToolCleanup (Some c) b) /\ sameCleanup e c = true.
Proof.
  intros Hc. simpl. destruct (existsb _ (cleanups b)) eqn:E.
  - apply existsb_exists in E as (e & He%list_elem_of_In & ?). by exists e.
  - exists c. simpl. split; [set_solver|]. unfold sameCleanup. by rewrite Hc, Nat.eqb_refl.
Qed.

Lemma record_keeps c b e : e ∈ cleanups b -> e ∈ cleanups (recordToolCleanup (Some c) b).
Proof. intros He. simpl. destruct (existsb _ _); [done|]. simpl. set_solver. Qed.

(** A resource named by several tools is released once, unless Go cannot compare
    values of its type, and releasing forgets it. *)
Theorem cleanups_released_once b cs : cleanups b = [] ->
  let b' := fold_left (fun b c => recordToolCleanup (Some c) b) cs b in
  (forall c, c ∈ cs -> comparable c = true -> exists e, e ∈ (runToolCleanups b').1 /\ sameCleanup e c = true)
  /\ distinct (runToolCleanups b').1
  /\ (runToolCleanups (runToolCleanups b').2).1 = [].
Proof.
  intros Hb b'. split_and!; [| |done].
  - intros c Hin Hc. unfold b'. clear b' Hb. revert b. induction cs as [|d cs IH]; intros b; [by apply elem_of_nil in Hin|].
    cbn [fold_left]. apply elem_of_cons in Hin as [<-|Hin]; [|by apply IH].
    destruct (record_has c b Hc) as (e & He & Hs). exists e. split; [|done]. clear IH.
    set (b1 := recordToolCleanup (Some c) b) in *. clearbody b1. revert b1 He.
    induction cs as [|d cs IH]; intros b1 He; [done|]. cbn [fold_left]. apply IH. by apply record_keeps.
  - simpl. assert (distinct (cleanups b)) as H by (rewrite Hb; by intros i j e f ?). clear Hb. unfold b'. clear b'. revert b H.
    induction cs as [|c cs IH]; intros b H; [done|]. cbn [fold_left]. by apply IH, record_distinct.
Qed.

(** ** Two ways out of line *)

(** Registering an asynchronous tool does not add the standing guidance on
    asynchronous tools to the instruction: the composition is redone only when the
    cancel tools change.  Composing it anew adds it. *)
Theorem async_guidance_missing :
  let b := RegisterFunction (bytes_of "report") 0 [WithCancelOnInterruption false]
             (SetSystemInstruction (bytes_of "Be brief.") (New false true)) in
  hasAsyncTools b = true /\ systemInstruction b = bytes_of "Be brief."
  /\ systemInstruction (composeSystemInstruction b) = bytes_of "Be brief." ++ [10; 10] ++ AsyncToolInstructions.
Proof. vm_compute. auto. Qed.

(** Unregistering a cancel tool by hand leaves it offered and unanswered, and nothing
    puts it right. *)
Theorem unregistered_cancel_tool_offered :
  let b := RegisterFunction (bytes_of "report") 0 [WithCancelOnInterruption false; WithCancellableByLLM true] (New false true) in
  let b := (UnregisterFunction (bytes_of "cancel_report") b).2 in
  builtins b = Some {[ bytes_of "cancel_report" ]}
  /\ handler (entryFor (bytes_of "cancel_report") b) = MissingFunctionHandler
  /\ handlers (syncCancelTools b) !! bytes_of "cancel_report" = None.
Proof. vm_compute. auto. Qed.

(** ** Instances of the theorems *)

Definition withReport : Base :=
  RegisterFunction (bytes_of "report") 0 [WithCancelOnInterruption false; WithCancellableByLLM true] (New false true).

Lemma withReport_used : used withReport.
Proof. exists false, true. apply rtc_once, u_register. Qed.

Lemma cancel_tools_exact_witness :
  offers withReport (bytes_of "cancel_report") /\
  lookupFunction (bytes_of "cancel_report") withReport = Some (cancelItem (bytes_of "cancel_report")).
Proof.
  assert (bytes_of "cancel_report" ∈ cancelTools withReport) as Hin by (apply (bool_decide_unpack _); vm_compute; done).
  destruct (cancel_tools_exact withReport withReport_used) as (H1 & H2 & _).
  split; [apply H1; exact Hin|apply H2; exact Hin].
Defined.

Definition weather : Tool := mkTool (bytes_of "weather") [] [] (Carried 7%nat) Nothing None None None.

Lemma toolset_in_line_witness :
  HasFunction (bytes_of "weather") (SyncToolHandlers [weather] withReport) = true.
Proof.
  refine (proj1 (proj2 (toolset_in_line withReport [weather] withReport_used)) weather 7%nat _ eq_refl _).
  - left.
  - intros [t [=]].
Defined.

End ToolRegistry.
