(* ===== verification/WsService.v ===== *)
(** * Connections that are kept

    The base of the services that hold a WebSocket open
    ([src/service/wsservice/wsservice.go]) and the retry helpers it uses
    ([src/utils/network/network.go]).

    The service's half, [Handler], and the network are left free: a run is given, for
    every connection, when it began and ended and how, and for every redial how it
    went.  The clock is the nanoseconds of these instants.  What is done is a log. *)

From S2P Require Import Prelude Float64.
From Stdlib Require Import SpecFloat.

Module Network.
Local Open Scope Z_scope.

Definition second : Z := 1000000000.
Definition DefaultMinWait : Z := 4 * second.
Definition DefaultMaxWait : Z := 10 * second.
Definition DefaultMultiplier : f64 := f64_of_Z 1.

(** [math.Pow(2, float64(k))] of an integer [k] from 0: exact up to [2^1023]. *)
Definition pow2 (k : Z) : f64 :=
  if k <? 1024 then S754_finite false 4503599627370496 (k - 52) else S754_infinity false.

(** [Duration.Seconds] *)
Definition Seconds (d : Z) : f64 :=
  f64_add (f64_of_Z (Z.quot d second)) (f64_div (f64_of_Z (Z.rem d second)) (f64_of_Z second)).

Definition isNaN (x : f64) : bool := match x with S754_nan => true | _ => false end.
(** [math.Min] and [math.Max] of values that are not NaN; the zeros are not told
    apart, which the conversion that follows does not either. *)
Definition fmin (x y : f64) : f64 := if SFleb x y then x else y.
Definition fmax (x y : f64) : f64 := if SFleb x y then y else x.

Definition ExponentialBackoffTime (attempt minWait maxWait : Z) (multiplier : f64) : Z :=
  let seconds := f64_mul (pow2 (attempt - 1)) multiplier in
  if isNaN seconds then maxWait
  else
    let seconds := fmax f64_zero (fmin seconds (Seconds maxWait)) in
    Z.max minWait (to_int (f64_trunc (f64_mul seconds (f64_of_Z second)))).

Definition DefaultMinStableDuration : Z := 5 * second.
Definition DefaultMaxConsecutiveFailures : Z := 3.

Record QuickFailureTracker := mkTracker { minStable : Z; maxFailures : Z; count : Z }.
#[export] Instance eta_QuickFailureTracker : Eta QuickFailureTracker := fun t =>
  mkTracker (minStable t) (maxFailures t) (count t).

Definition NewQuickFailureTracker (minStableDuration maxConsecutiveFailures : Z) : QuickFailureTracker :=
  mkTracker (if minStableDuration <=? 0 then DefaultMinStableDuration else minStableDuration)
    (if maxConsecutiveFailures <=? 0 then DefaultMaxConsecutiveFailures else maxConsecutiveFailures) 0.

Definition quick (d : Z) (t : QuickFailureTracker) : bool := d <? minStable t.

(** [Record]: whether to give up, and the tracker. *)
Definition RecordFailure (d : Z) (t : QuickFailureTracker) : bool * QuickFailureTracker :=
  let t := t <| count := if quick d t then count t + 1 else 0 |> in
  (quick d t && (maxFailures t <=? count t), t).
Definition Reset_ (t : QuickFailureTracker) : QuickFailureTracker := t <| count := 0 |>.

(** The default waits double from four seconds to ten, and stay there however many
    attempts there are, past the overflow of the doubling. *)
Lemma default_backoff attempt : 1 <= attempt ->
  ExponentialBackoffTime attempt DefaultMinWait DefaultMaxWait DefaultMultiplier
  = Z.min (Z.max 4 (2 ^ (attempt - 1))) 10 * second.
Proof.
  intros Ha. destruct (decide (attempt <= 1024)) as [Hle|Hgt].
  - pose proof (forallb_from_spec (fun a =>
      ExponentialBackoffTime a DefaultMinWait DefaultMaxWait DefaultMultiplier
      =? Z.min (Z.max 4 (2 ^ (a - 1))) 10 * second) 1 1024) as H.
    apply Z.eqb_eq. apply H; [vm_compute; reflexivity|lia].
  - assert (16 <= 2 ^ (attempt - 1)).
    { change 16 with (2 ^ 4). apply Z.pow_le_mono_r; lia. }
    rewrite Z.min_r by lia. unfold ExponentialBackoffTime, pow2.
    replace (attempt - 1 <? 1024) with false by lia. reflexivity.
Qed.

End Network.

Module WsService.
Import Network.
Local Open Scope Z_scope.

Definition DefaultMaxRetries : Z := 3.

Record Base := mkBase {
  reconnectOnError : bool;
  maxRetries : Z;
  tracker : QuickFailureTracker;
  disconnecting : bool;
  reconnectInProgress : bool;
  lastConnect : option Z        (** none is the zero time *)
}.
#[export] Instance eta_Base : Eta Base := fun b =>
  mkBase (reconnectOnError b) (maxRetries b) (tracker b) (disconnecting b) (reconnectInProgress b) (lastConnect b).

Definition New (reconnect : option bool) (retries minStableDuration maxConsecutiveFailures : Z) : Base :=
  mkBase (from_nil true reconnect) (if retries <=? 0 then DefaultMaxRetries else retries)
    (NewQuickFailureTracker minStableDuration maxConsecutiveFailures) false false None.

Definition Connect (b : Base) : Base := b <| disconnecting := false |> <| tracker ::= Reset_ |>.
Definition Disconnect (b : Base) : Base := b <| disconnecting := true |>.

(** How a connection ended: its reads returned nil, the peer closed it normally or
    with an error, or a read failed. *)
Inductive closure := ClosedByServer | NormalClosure | CloseError | ReadError.
#[export] Instance closure_dec : EqDecision closure.
Proof. solve_decision. Defined.

(** One redial: whether closing what was left and connecting failed, whether there is
    a connection afterwards, whether the service is usable once the failure was
    reported, and when it was over. *)
Record attempt := mkAttempt {
  disconnectFails : bool; connectFails : bool; connected : bool; usableAfter : bool; overAt : Z
}.

(** One connection: when it began and ended, how; whether by then a deliberate
    disconnect was under way or the session over, and whether the service is usable;
    and how each redial after it goes. *)
Record connection := mkConnection {
  began : Z; ended : Z; how : closure;
  deliberate : bool; sessionOver : bool; usable : bool;
  redials : nat -> attempt
}.

Inductive event :=
| Redial
| Report (permanent : bool)
| Sleep (d : Z).

(** [reconnectWebsocket] *)
Definition reconnectWebsocket (a : attempt) : bool :=
  negb (disconnectFails a) && negb (connectFails a) && connected a.

(** The loop of [TryReconnect], [n] attempts from the one numbered [i]. *)
Fixpoint attempts (n : nat) (i : nat) (rs : nat -> attempt) (b : Base) : bool * list event * Base :=
  match n with
  | O => (false, [Report true], b)
  | S n =>
    let a := rs i in
    if reconnectWebsocket a then (true, [Redial], b <| lastConnect := Some (overAt a) |>)
    else if negb (usableAfter a) then (false, [Redial; Report false], b)
    else
      let '(ok, es, b) := attempts n (S i) rs b in
      (ok, [Redial; Report false;
            Sleep (ExponentialBackoffTime (Z.of_nat i) DefaultMinWait DefaultMaxWait DefaultMultiplier)] ++ es, b)
  end.

(** [TryReconnect]; [reconnectInProgress] is set for as long as it runs. *)
Definition TryReconnect (u : bool) (rs : nat -> attempt) (b : Base) : bool * list event * Base :=
  if reconnectInProgress b then (false, [], b)
  else if negb u then (false, [], b)
  else
    let '(ok, es, b) := attempts (Z.to_nat (maxRetries b)) 1 rs (b <| reconnectInProgress := true |>) in
    (ok, es, b <| reconnectInProgress := false |>).

Definition maybeTryReconnect (c : connection) (b : Base) : bool * list event * Base :=
  if disconnecting b then (false, [], b)
  else if sessionOver c then (false, [], b)
  else
    let '(giveUp, b) :=
      match lastConnect b with
      | Some last => let '(g, t) := RecordFailure (ended c - last) (tracker b) in (g, b <| tracker := t |>)
      | None => (false, b)
      end in
    if giveUp then (false, [Report true], b)
    else if negb (reconnectOnError b) then (false, [Report false], b)
    else TryReconnect (usable c) (redials c) b.

(** One turn of the loop of [ReceiveTaskHandler]. *)
Definition receiveOnce (c : connection) (b : Base) : bool * list event * Base :=
  let b := b <| lastConnect := Some (began c) |> in
  let b := if deliberate c then Disconnect b else b in
  match how c with
  | NormalClosure => (false, [], b)
  | _ => maybeTryReconnect c b
  end.

(** [ReceiveTaskHandler] over the connections there are: whether it has returned, and
    how many connections it read. *)
Fixpoint ReceiveTaskHandler (cs : list connection) (b : Base) : bool * nat * list event * Base :=
  match cs with
  | [] => (false, O, [], b)
  | c :: cs =>
    let '(on, es, b) := receiveOnce c b in
    if on then let '(over, n, es', b) := ReceiveTaskHandler cs b in (over, S n, es ++ es', b)
    else (true, 1%nat, es, b)
  end.

(** [SendWithRetry]: the outcomes of the two sends, [None] when there is no
    connection to send on, and what [TryReconnect] meets in between. *)
Definition SendWithRetry (first second : option bool) (u : bool) (rs : nat -> attempt) (b : Base)
  : bool * list event * Base :=
  if from_nil false first then (true, [], b)
  else
    let '(ok, es, b) := TryReconnect u rs b in
    if ok then (from_nil false second, es, b) else (false, es, b).

(** ** What holds of the loop *)

Definition isRedial (e : event) : bool := match e with Redial => true | _ => false end.
Definition isPermanent (e : event) : bool := match e with Report true => true | _ => false end.
Definition isSleep (e : event) : bool := match e with Sleep _ => true | _ => false end.
Definition tally (p : event -> bool) (es : list event) : nat := List.length (List.filter p es).

Lemma tally_app p es fs : tally p (es ++ fs) = (tally p es + tally p fs)%nat.
Proof. unfold tally. by rewrite List.filter_app, length_app. Qed.

(** What a reconnection does, whatever the redials give: it keeps the base, but for
    the instant it connected; redials at most as often as it may; and gives up for good
    only as the last thing it does, having failed. *)
Definition gaveUp (ok : bool) (es : list event) : Prop :=
  exists es0, tally isPermanent es0 = 0%nat /\ (es = es0 \/ (es = es0 ++ [Report true] /\ ok = false)).
Definition keeps (b b' : Base) : Prop :=
  reconnectOnError b' = reconnectOnError b /\ maxRetries b' = maxRetries b /\ tracker b' = tracker b
  /\ disconnecting b' = disconnecting b /\ reconnectInProgress b' = reconnectInProgress b.

Lemma gaveUp_cons ok es fs : tally isPermanent fs = 0%nat -> gaveUp ok es -> gaveUp ok (fs ++ es).
Proof.
  intros Hf (es0 & H & E). exists (fs ++ es0). rewrite tally_app, Hf, H. split; [done|].
  destruct E as [->|[-> ->]]; [by left|right]. by rewrite app_assoc.
Qed.

Lemma attempts_spec n : forall i rs b, let '(ok, es, b') := attempts n i rs b in
  keeps b b' /\ (tally isRedial es <= n)%nat /\ gaveUp ok es.
Proof.
  induction n as [|n IH]; intros i rs b; cbn [attempts].
  - split_and!; [done|unfold tally; simpl; lia|]. exists []. split; [done|by right].
  - destruct (reconnectWebsocket (rs i)).
    { split_and!; [done|unfold tally; simpl; lia|]. exists [Redial]. by split; [|left]. }
    destruct (negb (usableAfter (rs i))).
    { split_and!; [done|unfold tally; simpl; lia|]. exists [Redial; Report false]. by split; [|left]. }
    specialize (IH (S i) rs b). destruct (attempts n (S i) rs b) as [[ok es] b']. destruct IH as (K & R & G).
    split_and!; [done| |by apply gaveUp_cons]. rewrite tally_app.
    unfold tally in *. simpl. lia.
Qed.

Lemma TryReconnect_spec u rs b : let '(ok, es, b') := TryReconnect u rs b in
  keeps b b' /\ (tally isRedial es <= Z.to_nat (maxRetries b))%nat /\ gaveUp ok es.
Proof.
  unfold TryReconnect. destruct (reconnectInProgress b) eqn:Er.
  { split_and!; [done|unfold tally; simpl; lia|]. exists []. by split; [|left]. }
  destruct (negb u).
  { split_and!; [done|unfold tally; simpl; lia|]. exists []. by split; [|left]. }
  pose proof (attempts_spec (Z.to_nat (maxRetries b)) 1 rs (b <| reconnectInProgress := true |>)) as H.
  destruct (attempts _ 1 rs _) as [[ok es] b']. destruct H as ((? & ? & ? & ? & ?) & R & G). by split_and!.
Qed.

Lemma receiveOnce_spec c b : let '(on, es, b') := receiveOnce c b in
  maxRetries b' = maxRetries b
  /\ minStable (tracker b') = minStable (tracker b) /\ maxFailures (tracker b') = maxFailures (tracker b)
  /\ (tally isRedial es <= Z.to_nat (maxRetries b))%nat /\ gaveUp on es
  /\ (on = true -> count (tracker b') = (if ended c - began c <? minStable (tracker b) then count (tracker b) + 1 else 0)
       /\ (ended c - began c < minStable (tracker b) -> count (tracker b') < maxFailures (tracker b))).
Proof.
  assert (forall on, gaveUp on []) as G0 by (intros on; exists []; by split; [|left]).
  unfold receiveOnce. set (b0 := if deliberate c then _ else _).
  assert (maxRetries b0 = maxRetries b /\ tracker b0 = tracker b /\ lastConnect b0 = Some (began c)) as (E1 & E2 & E3)
    by (unfold b0; by destruct (deliberate c)). clearbody b0.
  assert (let '(on, es, b') := maybeTryReconnect c b0 in
    maxRetries b' = maxRetries b
    /\ minStable (tracker b') = minStable (tracker b) /\ maxFailures (tracker b') = maxFailures (tracker b)
    /\ (tally isRedial es <= Z.to_nat (maxRetries b))%nat /\ gaveUp on es
    /\ (on = true -> count (tracker b') = (if ended c - began c <? minStable (tracker b) then count (tracker b) + 1 else 0)
       /\ (ended c - began c < minStable (tracker b) -> count (tracker b') < maxFailures (tracker b)))) as H.
  { unfold maybeTryReconnect. destruct (disconnecting b0); [rewrite E2; split_and!; try done; unfold tally; simpl; lia|].
    destruct (sessionOver c); [rewrite E2; split_and!; try done; unfold tally; simpl; lia|].
    rewrite E3, E2. unfold RecordFailure. set (t := (tracker b) <| count := _ |>).
    change (quick (ended c - began c) t) with (quick (ended c - began c) (tracker b)).
    destruct (quick (ended c - began c) (tracker b) && (maxFailures t <=? count t)) eqn:Eg; cbv beta iota zeta.
    { split_and!; try done; [unfold tally; simpl; lia|]. exists []. split; [done|by right]. }
    destruct (negb (reconnectOnError _)).
    { split_and!; try done; [unfold tally; simpl; lia|]. exists [Report false]. by split; [|left]. }
    pose proof (TryReconnect_spec (usable c) (redials c) (b0 <| tracker := t |>)) as H.
    destruct (TryReconnect _ _ _) as [[on es] b']. destruct H as ((_ & K1 & K2 & _) & R & G).
    rewrite K1, K2. split_and!; [done|done|done|by rewrite <- E1|done|]. intros _. split; [done|]. intros Hq.
    unfold quick in Eg. simpl in *. destruct (ended c - began c <? minStable (tracker b)) eqn:Ea; [simpl in Eg; lia|lia]. }
  destruct (how c); [done| |done|done]. rewrite E2. split_and!; try done. unfold tally. simpl. lia.
Qed.

Definition isQuick (b : Base) (c : connection) : Prop := ended c - began c < minStable (tracker b).

Lemma receive_quick qs b : 0 <= count (tracker b) < maxFailures (tracker b) -> Forall (isQuick b) qs ->
  maxFailures (tracker b) - count (tracker b) <= Z.of_nat (List.length qs) ->
  let '(over, n, _, _) := ReceiveTaskHandler qs b in over = true.
Proof.
  revert b. induction qs as [|c qs IH]; intros b Hc Hq Hl; [simpl in *; lia|].
  apply Forall_cons in Hq as [Hc1 Hq]. cbn [ReceiveTaskHandler]. pose proof (receiveOnce_spec c b) as H.
  destruct (receiveOnce c b) as [[on es] b1]. destruct H as (_ & Hs & Hm & _ & _ & Hon). destruct on; [|done].
  destruct (Hon eq_refl) as [Ec Hlt]. unfold isQuick in Hc1. specialize (Hlt Hc1).
  replace (ended c - began c <? minStable (tracker b)) with true in Ec by lia.
  specialize (IH b1). rewrite Hm, Ec in *.
  assert (Forall (isQuick b1) qs) as Hq1 by (eapply Forall_impl; [exact Hq|]; intros x; unfold isQuick; by rewrite Hs).
  destruct (ReceiveTaskHandler qs b1) as [[[over n] es'] b2]. apply IH; [lia|done|].
  simpl in Hl. lia.
Qed.

Lemma receive_count pre c b : 0 <= count (tracker b) < maxFailures (tracker b) ->
  receiveOnce c b = pre -> pre.1.1 = true -> 0 <= count (tracker pre.2) < maxFailures (tracker pre.2).
Proof.
  intros Hc <- Hon. pose proof (receiveOnce_spec c b) as H. destruct (receiveOnce c b) as [[on es] b1].
  destruct H as (_ & _ & Hm & _ & _ & H). simpl in *. destruct (H Hon) as [E Hlt]. rewrite Hm, E in *.
  destruct (ended c - began c <? minStable (tracker b)) eqn:Eq; lia.
Qed.

(** C24: The receive loop cannot run forever against a server that drops every connection
    at once: whatever came before, after as many connections in a row that did not
    last as the tracker tolerates, it has returned.  It never redials more often per
    connection than it may. *)
Theorem receive_loop_ends b pre qs : 0 <= count (tracker b) < maxFailures (tracker b) ->
  Forall (isQuick b) qs -> maxFailures (tracker b) <= Z.of_nat (List.length qs) ->
  let '(over, n, es, _) := ReceiveTaskHandler (pre ++ qs) b in
  over = true /\ (n <= List.length (pre ++ qs))%nat
  /\ (tally isRedial es <= n * Z.to_nat (maxRetries b))%nat.
Proof.
  intros Hc Hq Hl.
  assert (forall cs b, let '(over, n, es, _) := ReceiveTaskHandler cs b in
    (n <= List.length cs)%nat /\ (tally isRedial es <= n * Z.to_nat (maxRetries b))%nat) as Hr.
  { clear. induction cs as [|c cs IH]; intros b; [by split|]. cbn [ReceiveTaskHandler].
    pose proof (receiveOnce_spec c b) as H. destruct (receiveOnce c b) as [[on es] b1]. destruct H as (Em & _ & _ & R & _).
    destruct on; [|split; simpl; lia]. specialize (IH b1). rewrite Em in IH.
    destruct (ReceiveTaskHandler cs b1) as [[[over n] es'] b2]. rewrite tally_app. simpl. lia. }
  specialize (Hr (pre ++ qs) b).
  assert (let '(over, n, _, _) := ReceiveTaskHandler (pre ++ qs) b in over = true) as Ho.
  { clear Hr. revert b Hc Hq Hl. induction pre as [|c pre IH]; intros b Hc Hq Hl.
    - apply (receive_quick qs b Hc Hq). destruct Hc. clear -H Hl. lia.
    - cbn [ReceiveTaskHandler app]. pose proof (receiveOnce_spec c b) as H.
      pose proof (receive_count _ c b Hc eq_refl) as Hc1.
      destruct (receiveOnce c b) as [[on es] b1]. destruct H as (_ & Hs & Hm & _). destruct on; [|done]. simpl in Hc1.
      specialize (IH b1 (Hc1 eq_refl)). destruct (ReceiveTaskHandler (pre ++ qs) b1) as [[[over n] es'] b2].
      apply IH; [|by rewrite Hm]. eapply Forall_impl; [exact Hq|]. intros x. unfold isQuick. by rewrite Hs. }
  destruct (ReceiveTaskHandler (pre ++ qs) b) as [[[over n] es] b']. done.
Qed.

Lemma permanent_last cs b : let '(over, n, es, _) := ReceiveTaskHandler cs b in
  exists es0, tally isPermanent es0 = 0%nat /\ (es = es0 \/ (es = es0 ++ [Report true] /\ over = true)).
Proof.
  revert b. induction cs as [|c cs IH]; intros b; [exists []; by split; [|left]|]. cbn [ReceiveTaskHandler].
  pose proof (receiveOnce_spec c b) as H. destruct (receiveOnce c b) as [[on es] b1]. destruct H as (_ & _ & _ & _ & G & _).
  destruct G as (es0 & H0 & G). destruct on.
  - destruct G as [->|[_ ?]]; [|done]. specialize (IH b1). destruct (ReceiveTaskHandler cs b1) as [[[over n] es'] b2].
    destruct IH as (es1 & H1 & G1). exists (es0 ++ es1). rewrite tally_app, H0, H1. split; [done|].
    destruct G1 as [->|[-> ->]]; [by left|right; by rewrite app_assoc].
  - exists es0. split; [done|]. destruct G as [->|[-> _]]; [by left|by right].
Qed.

Lemma receive_quiet c b : how c = NormalClosure \/ deliberate c = true \/ sessionOver c = true ->
  exists b', receiveOnce c b = (false, [], b').
Proof.
  intros Hq. unfold receiveOnce. destruct (how c) eqn:Eh; try (by eexists); destruct Hq as [?|Hq]; try done;
    unfold maybeTryReconnect; (destruct (deliberate c) eqn:Ed; [by eexists|]); destruct Hq as [?| ->]; try done;
    simpl; destruct (disconnecting b); by eexists.
Qed.

(** The service is reported spent at most once, and only by the last thing the receive
    loop does before it returns; a connection closed normally, a deliberate disconnect
    or the end of the session end the loop with nothing reported and nothing redialed. *)
Theorem gives_up_once cs b :
  let '(over, n, es, _) := ReceiveTaskHandler cs b in
  (exists es0, tally isPermanent es0 = 0%nat /\ (es = es0 \/ (es = es0 ++ [Report true] /\ over = true)))
  /\ (forall c rest, cs = c :: rest -> how c = NormalClosure \/ deliberate c = true \/ sessionOver c = true ->
       over = true /\ n = 1%nat /\ es = []).
Proof.
  pose proof (permanent_last cs b) as H1.
  assert (forall c rest, cs = c :: rest -> how c = NormalClosure \/ deliberate c = true \/ sessionOver c = true ->
    exists b', ReceiveTaskHandler cs b = (true, 1%nat, [], b')) as H2.
  { intros c rest -> Hq. cbn [ReceiveTaskHandler].
    destruct (receive_quiet c b Hq) as [b' ->]. by eexists. }
  destruct (ReceiveTaskHandler cs b) as [[[over n] es] b']. split; [done|]. intros c rest E Hq.
  destruct (H2 c rest E Hq) as [b2 E2]. by simplify_eq.
Qed.

(** A send that reconnects closes the connection under the receive loop, which then
    finds a reconnection in progress and returns for good, so nothing reads the
    connection the send goes on to open. *)
Theorem receive_loop_lost c b : reconnectInProgress b = true -> reconnectOnError b = true ->
  how c <> NormalClosure -> deliberate c = false -> disconnecting b = false -> sessionOver c = false ->
  minStable (tracker b) <= ended c - began c ->
  let '(over, n, es, _) := ReceiveTaskHandler [c] b in over = true /\ es = [].
Proof.
  intros Hr Ho Hh Hd Hdb Hs Hlast.
  assert (exists b', receiveOnce c b = (false, [], b')) as [b' E]; [|cbn [ReceiveTaskHandler]; by rewrite E].
  unfold receiveOnce. rewrite Hd. destruct (how c); try done;
    unfold maybeTryReconnect; simpl; rewrite Hdb, Hs; unfold RecordFailure; simpl;
    unfold quick; simpl; replace (ended c - began c <? minStable (tracker b)) with false by lia; simpl;
    rewrite Ho; simpl; unfold TryReconnect; simpl; rewrite Hr; by eexists.
Qed.

(** ** Instances of the theorems *)

Definition failing : nat -> attempt := fun _ => mkAttempt false true false true 0.
Definition working : nat -> attempt := fun _ => mkAttempt false false true true 0.
Definition dropped : connection := mkConnection 0 second ReadError false false true working.

Lemma receive_loop_ends_witness :
  let '(over, n, es, _) := ReceiveTaskHandler [dropped; dropped; dropped] (New None 0 0 0) in
  over = true /\ (n <= 3)%nat /\ (tally isRedial es <= n * 3)%nat.
Proof.
  refine (receive_loop_ends (New None 0 0 0) [] [dropped; dropped; dropped] _ _ _).
  - split; [discriminate|reflexivity].
  - repeat constructor.
  - discriminate.
Defined.

Lemma receive_loop_lost_witness :
  let b := (New None 0 0 0) <| reconnectInProgress := true |> in
  let '(over, n, es, _) := ReceiveTaskHandler [mkConnection 0 (6 * second) ReadError false false true working] b in
  over = true /\ es = [].
Proof.
  refine (receive_loop_lost (mkConnection 0 (6 * second) ReadError false false true working)
    ((New None 0 0 0) <| reconnectInProgress := true |>) eq_refl eq_refl _ eq_refl eq_refl eq_refl _); discriminate.
Defined.

End WsService.
