(* ===== verification/TurnCompletion.v ===== *)
(** * Turn-completion gating

    [src/service/llm/turncompletion.go]: the model begins every response with a marker
    that says whether the user's turn was complete.  A complete one is spoken; an
    incomplete one is suppressed, and a re-prompt armed.

    The state is behind a mutex and is reached from the frames and from the re-prompt
    timers.  Each function runs whole, but for the expiry of a timer, whose critical
    sections are steps of their own: what the frames do can come between them.  The
    log lines are left out, and pushes are taken to succeed. *)

From S2P Require Import Prelude Text Strings Aggregators.

Module TurnCompletion.
Local Open Scope Z_scope.

(** ** The protocol as it is worded *)

Definition incompleteShortPromptTemplate : gostring :=
  bytes_of "The user paused briefly. Generate a brief, natural prompt to encourage them to continue.

IMPORTANT: You MUST respond with {{complete}} followed by your message. Do NOT output {{short}} or {{long}} - the user has already been given time to continue.

Your response should:
- Be contextually relevant to what was just discussed
- Sound natural and conversational
- Be very concise (1 sentence max)
- Gently prompt them to continue

Example format: {{complete}} Go ahead, I'm listening.

Generate your {{complete}} response now.".

Definition incompleteLongPromptTemplate : gostring :=
  bytes_of "The user has been quiet for a while. Generate a friendly check-in message.

IMPORTANT: You MUST respond with {{complete}} followed by your message. Do NOT output {{short}} or {{long}} - the user has already been given plenty of time.

Your response should:
- Acknowledge they might be thinking or busy
- Offer to help or continue when ready
- Be warm and understanding
- Be brief (1 sentence)

Example format: {{complete}} No rush! Let me know when you're ready to continue.

Generate your {{complete}} response now.".

Definition completionInstructionsTemplate : gostring :=
  bytes_of "
CRITICAL INSTRUCTION - MANDATORY RESPONSE FORMAT:
Every single response MUST begin with a turn completion indicator. This is not optional.

TURN COMPLETION DECISION FRAMEWORK:
Ask yourself: " ++ [34] ++ bytes_of "Has the user provided enough information for me to give a meaningful, substantive response?" ++ [34] ++ bytes_of "

Mark as COMPLETE ({{complete}}) when:
- The user has answered your question with actual content
- The user has made a complete request or statement
- The user has provided all necessary information for you to respond meaningfully
- The conversation can naturally progress to your substantive response

Mark as INCOMPLETE SHORT ({{short}}) when the user will likely continue soon:
- The user was clearly cut off mid-sentence or mid-word
- The user is in the middle of a thought that got interrupted
- Brief technical interruption (they'll resume in a few seconds)

Mark as INCOMPLETE LONG ({{long}}) when the user needs more time:
- The user explicitly asks for time: " ++ [34] ++ bytes_of "let me think" ++ [34] ++ bytes_of ", " ++ [34] ++ bytes_of "give me a minute" ++ [34] ++ bytes_of ", " ++ [34] ++ bytes_of "hold on" ++ [34] ++ bytes_of "
- The user is clearly pondering or deliberating: " ++ [34] ++ bytes_of "hmm" ++ [34] ++ bytes_of ", " ++ [34] ++ bytes_of "well..." ++ [34] ++ bytes_of ", " ++ [34] ++ bytes_of "that's a good question" ++ [34] ++ bytes_of "
- The user acknowledged but hasn't answered yet: " ++ [34] ++ bytes_of "That's interesting..." ++ [34] ++ bytes_of "
- The response feels like a preamble before the actual answer

RESPOND in one of these three formats:
1. If COMPLETE: `{{complete}}` followed by a space and your full substantive response
2. If INCOMPLETE SHORT: ONLY the character `{{short}}` (user will continue in a few seconds)
3. If INCOMPLETE LONG: ONLY the character `{{long}}` (user needs more time to think)

KEY INSIGHT: Grammatically complete ≠ conversationally complete
- " ++ [34] ++ bytes_of "That's a really good question." ++ [34] ++ bytes_of " is grammatically complete but conversationally incomplete (use {{long}})
- " ++ [34] ++ bytes_of "I'd go to Japan because I love" ++ [34] ++ bytes_of " is mid-sentence (use {{short}})

EXAMPLES:

You ask: " ++ [34] ++ bytes_of "Where would you travel?" ++ [34] ++ bytes_of "
User: " ++ [34] ++ bytes_of "I'd go to Japan because I love" ++ [34] ++ bytes_of "
→ `{{short}}`
(Cut off mid-sentence - they'll continue in seconds)

You ask: " ++ [34] ++ bytes_of "Where would you travel?" ++ [34] ++ bytes_of "
User: " ++ [34] ++ bytes_of "That's a good question. Let me think..." ++ [34] ++ bytes_of "
→ `{{long}}`
(User is deliberating - give them time)

You ask: " ++ [34] ++ bytes_of "Where would you travel?" ++ [34] ++ bytes_of "
User: " ++ [34] ++ bytes_of "Hmm, hold on a second." ++ [34] ++ bytes_of "
→ `{{long}}`
(User explicitly asked for time)

You ask: " ++ [34] ++ bytes_of "Where would you travel?" ++ [34] ++ bytes_of "
User: " ++ [34] ++ bytes_of "I'd go to Japan because I love the culture." ++ [34] ++ bytes_of "
→ `{{complete}} Japan is a wonderful choice! The blend of ancient traditions and modern innovation is truly unique. Have you been before?`
(Complete answer - give full response)

User: " ++ [34] ++ bytes_of "I need help with" ++ [34] ++ bytes_of "
→ `{{short}}`
(Cut off mid-request - they'll finish soon)

User: " ++ [34] ++ bytes_of "Well, let me think about that for a moment." ++ [34] ++ bytes_of "
→ `{{long}}`
(User needs time to think)

User: " ++ [34] ++ bytes_of "Can you help me book a flight to New York next week?" ++ [34] ++ bytes_of "
→ `{{complete}} I'd be happy to help you with that! Let me gather some information...`
(Complete request - provide full response)

User: " ++ [34] ++ bytes_of "Give me a minute to gather my thoughts." ++ [34] ++ bytes_of "
→ `{{long}}`
(User explicitly asked for time)

FORMAT REQUIREMENTS:
- ALWAYS use single-character indicators: `{{complete}}` (complete), `{{short}}` (short wait), or `{{long}}` (long wait)
- For COMPLETE: `{{complete}}` followed by a space and your full response
- For INCOMPLETE: ONLY the single character (`{{short}}` or `{{long}}`) with absolutely nothing else
- Your turn indicator must be the very first character in your response

Remember: Focus on conversational completeness and how long the user might need. Was it a mid-sentence cutoff ({{short}}) or do they need time to think ({{long}})?".

(** [strings.NewReplacer(...).Replace]: at each place the first pattern that fits; the
    fuel is the length. *)
Fixpoint replaceFrom (fuel : nat) (rules : list (gostring * gostring)) (s : gostring) : gostring :=
  match fuel, s with
  | S fuel, c :: rest =>
    match List.find (fun r => HasPrefix s r.1) rules with
    | Some (old, new) => new ++ replaceFrom fuel rules (List.skipn (List.length old) s)
    | None => c :: replaceFrom fuel rules rest
    end
  | _, _ => []
  end.

Definition renderMarkers (tmpl complete short long : gostring) : gostring :=
  replaceFrom (List.length tmpl)
    [(bytes_of "{{complete}}", complete); (bytes_of "{{short}}", short); (bytes_of "{{long}}", long)] tmpl.

Record UserTurnCompletionConfig := mkConfig {
  Instructions : gostring;
  CompleteMarker : gostring; IncompleteShortMarker : gostring; IncompleteLongMarker : gostring;
  IncompleteShortTimeout : Z; IncompleteLongTimeout : Z;
  IncompleteShortPrompt : gostring; IncompleteLongPrompt : gostring
}.

(** [cmp.Or] on strings. *)
Definition orElse (s d : gostring) : gostring := match s with [] => d | _ => s end.

Definition complete (c : UserTurnCompletionConfig) : gostring := orElse (CompleteMarker c) Markers.UserTurnCompleteMarker.
Definition short (c : UserTurnCompletionConfig) : gostring := orElse (IncompleteShortMarker c) Markers.UserTurnIncompleteShortMarker.
Definition long (c : UserTurnCompletionConfig) : gostring := orElse (IncompleteLongMarker c) Markers.UserTurnIncompleteLongMarker.

Definition rendered (tmpl : gostring) (c : UserTurnCompletionConfig) : gostring :=
  renderMarkers tmpl (complete c) (short c) (long c).
Definition CompletionInstructions (c : UserTurnCompletionConfig) : gostring :=
  orElse (Instructions c) (rendered completionInstructionsTemplate c).
Definition ShortPrompt (c : UserTurnCompletionConfig) : gostring :=
  orElse (IncompleteShortPrompt c) (rendered incompleteShortPromptTemplate c).
Definition LongPrompt (c : UserTurnCompletionConfig) : gostring :=
  orElse (IncompleteLongPrompt c) (rendered incompleteLongPromptTemplate c).

Inductive IncompleteType := IncompleteShort | IncompleteLong.
#[export] Instance IncompleteType_dec : EqDecision IncompleteType.
Proof. solve_decision. Defined.

Definition defaultIncompleteShortTimeout : Z := 5000000000.
Definition defaultIncompleteLongTimeout : Z := 10000000000.
Definition timeoutFor (c : UserTurnCompletionConfig) (t : IncompleteType) : Z :=
  match t with
  | IncompleteShort => if IncompleteShortTimeout c =? 0 then defaultIncompleteShortTimeout else IncompleteShortTimeout c
  | IncompleteLong => if IncompleteLongTimeout c =? 0 then defaultIncompleteLongTimeout else IncompleteLongTimeout c
  end.
Definition promptFor (c : UserTurnCompletionConfig) (t : IncompleteType) : gostring :=
  match t with IncompleteShort => ShortPrompt c | IncompleteLong => LongPrompt c end.

(** ** The state *)

Inductive TurnMarker := turnMarkerNone | TurnMarkerComplete | TurnMarkerIncomplete.
#[export] Instance TurnMarker_dec : EqDecision TurnMarker.
Proof. solve_decision. Defined.

(** A re-prompt's goroutine: waiting for its timer, canceled, past its timer with so
    much of the expiry still to do, or done. *)
Inductive stage := Waiting | Canceled | Expired | WasReset | Cleared (prompt : gostring) | Sent.
#[export] Instance stage_dec : EqDecision stage.
Proof. solve_decision. Defined.
Record reprompt := mkReprompt { kind : IncompleteType; after : Z; at_ : stage }.
#[export] Instance eta_reprompt : Eta reprompt := fun r => mkReprompt (kind r) (after r) (at_ r).

(** What is pushed: text to speak, a marker for the conversation and whether at once,
    the report that the turn is complete, and the re-prompt with its run. *)
Inductive output :=
| PushText (t : gostring)
| PushMarker (m : gostring) (immediately : bool)
| InferenceCompleted
| PushPrompt (t : gostring).
#[export] Instance output_dec : EqDecision output.
Proof. solve_decision. Defined.

Record State := mkState {
  enabled : bool;
  config : UserTurnCompletionConfig;
  buffer : gostring;
  marker : TurnMarker;
  broadcasted : bool;
  voiced : bool;
  userSpeaking : bool;
  cancelTimeout : option nat;
  reprompts : list reprompt;
  out : list output
}.
#[export] Instance eta_State : Eta State := fun s =>
  mkState (enabled s) (config s) (buffer s) (marker s) (broadcasted s) (voiced s) (userSpeaking s)
    (cancelTimeout s) (reprompts s) (out s).

Definition push (o : output) (s : State) : State := s <| out ::= fun os => os ++ [o] |>.
Definition setUserSpeaking (v : bool) (s : State) : State := s <| userSpeaking := v |>.
Definition clearVoiced (s : State) : State := s <| voiced := false |>.
Definition SetFilterIncompleteUserTurns (on : bool) (s : State) : State := s <| enabled := on |>.
Definition SetUserTurnCompletionConfig (c : UserTurnCompletionConfig) (s : State) : State := s <| config := c |>.

Definition broadcastTurnCompletion (s : State) : State :=
  if broadcasted s then s else push InferenceCompleted (s <| broadcasted := true |>).

(** [cancel] of a re-prompt: no effect on one whose timer has fired. *)
Definition cancelReprompt (r : reprompt) : reprompt :=
  match at_ r with Waiting => r <| at_ := Canceled |> | _ => r end.
Definition cancelIncompleteTimeout (s : State) : State :=
  match cancelTimeout s with
  | Some i => s <| reprompts ::= alter cancelReprompt i |> <| cancelTimeout := None |>
  | None => s
  end.

Definition startIncompleteTimeout (t : IncompleteType) (s : State) : State :=
  let s := cancelIncompleteTimeout s in
  s <| cancelTimeout := Some (List.length (reprompts s)) |>
    <| reprompts ::= fun l => l ++ [mkReprompt t (timeoutFor (config s) t) Waiting] |>.

Definition turnReset (s : State) : State :=
  let orphaned := if bool_decide (marker s = turnMarkerNone) then buffer s else [] in
  let s := s <| buffer := [] |> <| marker := turnMarkerNone |> <| broadcasted := false |> in
  match orphaned with [] => s | _ => push (PushText orphaned) s end.

(** ** Text *)

Definition suppressStaleCompletion (shortMarker : gostring) (s : State) : State :=
  startIncompleteTimeout IncompleteShort
    (push (PushMarker shortMarker true) (s <| marker := TurnMarkerIncomplete |> <| buffer := [] |>)).

(** What follows the first [m] in [b]. *)
Definition Cut (b m : gostring) : option gostring :=
  i ← Index b m; Some (List.skipn (i + List.length m) b).

Definition TrimPrefix (t p : gostring) : gostring :=
  if HasPrefix t p then List.skipn (List.length p) t else t.

Definition incompleteIn (c : UserTurnCompletionConfig) (b : gostring) : option (IncompleteType * gostring) :=
  if Contains b (short c) then Some (IncompleteShort, short c)
  else if Contains b (long c) then Some (IncompleteLong, long c) else None.

Definition pushTurnText (t : gostring) (s : State) : State :=
  if voiced s && bool_decide (marker s = turnMarkerNone) then s
  else
    match marker s with
    | TurnMarkerIncomplete => s
    | TurnMarkerComplete => push (PushText t) s
    | turnMarkerNone =>
      let s := s <| buffer ::= fun b => b ++ t |> in
      match incompleteIn (config s) (buffer s) with
      | Some (ty, m) =>
        startIncompleteTimeout ty (push (PushMarker m true) (s <| marker := TurnMarkerIncomplete |> <| buffer := [] |>))
      | None =>
        match Cut (buffer s) (complete (config s)) with
        | None => s
        | Some rest =>
          if userSpeaking s then suppressStaleCompletion (short (config s)) s
          else
            let s := s <| voiced := true |> <| marker := TurnMarkerComplete |> <| buffer := [] |> in
            let s := push (PushMarker (complete (config s)) false) (broadcastTurnCompletion s) in
            match TrimPrefix rest [32] with [] => s | rest => push (PushText rest) s end
        end
      end
    end.

Definition pushLLMText (t : gostring) (s : State) : State :=
  if enabled s then pushTurnText t s else push (PushText t) s.

(** ** Frames, and the re-prompt *)

Inductive frame :=
| InterruptionFrame
| UserStartedSpeakingFrame
| LLMMessagesAppendFrame (runLLM : bool)
| VADUserStartedSpeakingFrame
| VADUserStoppedSpeakingFrame
| OtherFrame.

(** [handleTurnCompletionProcessFrame], when gating is on. *)
Definition handleProcessFrame (f : frame) (s : State) : State :=
  match f with
  | InterruptionFrame => clearVoiced (turnReset (cancelIncompleteTimeout s))
  | UserStartedSpeakingFrame => clearVoiced s
  | LLMMessagesAppendFrame runLLM => if runLLM then clearVoiced s else s
  | VADUserStartedSpeakingFrame => clearVoiced (cancelIncompleteTimeout (setUserSpeaking true s))
  | VADUserStoppedSpeakingFrame => setUserSpeaking false s
  | OtherFrame => s
  end.
Definition ProcessFrame (f : frame) (s : State) : State := if enabled s then handleProcessFrame f s else s.

Inductive generated := FunctionCallsStartedFrame | LLMFullResponseStartFrame | LLMFullResponseEndFrame.

(** [handleTurnCompletionPushFrame], when gating is on. *)
Definition handlePushFrame (f : generated) (s : State) : State :=
  match f with
  | FunctionCallsStartedFrame => clearVoiced (broadcastTurnCompletion s)
  | LLMFullResponseStartFrame => cancelIncompleteTimeout s
  | LLMFullResponseEndFrame => turnReset s
  end.
Definition PushFrame (f : generated) (s : State) : State := if enabled s then handlePushFrame f s else s.

(** The text of one response, between its start and its end. *)
Definition respond (chunks : list gostring) (s : State) : State :=
  PushFrame LLMFullResponseEndFrame (fold_left (fun s t => pushLLMText t s) chunks (PushFrame LLMFullResponseStartFrame s)).

Definition goStage (i : nat) (st : stage) (s : State) : State := s <| reprompts ::= alter (fun r => r <| at_ := st |>) i |>.

(** The steps of one re-prompt: its timer fires, and [incompleteTimeoutExpired] resets
    the state, clears the timeout under the lock, and pushes. *)
Definition expireStep (i : nat) (s : State) : State :=
  match reprompts s !! i with
  | Some r =>
    match at_ r with
    | Waiting => goStage i Expired s
    | Expired => goStage i WasReset (turnReset s)
    | WasReset => goStage i (Cleared (promptFor (config s) (kind r))) (s <| cancelTimeout := None |>)
    | Cleared p => goStage i Sent (push (PushPrompt p) s)
    | _ => s
    end
  | None => s
  end.

(** What reaches the gating, in the order it does. *)
Inductive event :=
| Received (f : frame)
| Generated (f : generated)
| Text (t : gostring)
| Expiry (i : nat).

Definition step (e : event) (s : State) : State :=
  match e with
  | Received f => ProcessFrame f s
  | Generated f => PushFrame f s
  | Text t => pushLLMText t s
  | Expiry i => expireStep i s
  end.
Definition run (es : list event) (s : State) : State := fold_left (fun s e => step e s) es s.

Definition New (on : bool) (c : UserTurnCompletionConfig) : State :=
  mkState on c [] turnMarkerNone false false false None [] [].

(** ** A response is gated as a whole *)

Lemma orElse_nonempty t d : d <> [] -> orElse t d <> [].
Proof. by destruct t. Qed.

Lemma complete_nonempty c : complete c <> [].
Proof. by apply orElse_nonempty. Qed.

Lemma Index_app t u sub i : Index t sub = Some i -> Index (t ++ u) sub = Some i.
Proof.
  revert i. induction t as [|a t IH]; intros i; cbn [Index].
  - destruct (HasPrefix [] sub) eqn:E; [|done]. intros [= <-]. destruct sub; [|done]. simpl. by destruct u.
  - assert (HasPrefix (a :: t) sub = true -> HasPrefix ((a :: t) ++ u) sub = true) as Hp.
    { rewrite !HasPrefix_spec. intros [k Hk]. exists (k ++ u). by rewrite Hk, <- app_assoc. }
    assert (forall j, Index (a :: t) sub = Some (S j) -> HasPrefix ((a :: t) ++ u) sub = true -> False) as Hn.
    { intros j Hj HP. apply HasPrefix_spec in HP as [k Hk].
      destruct (Index_Some _ _ _ Hj) as [[k2 Hk2] Hle]. simpl in Hk2.
      assert (List.length sub <= List.length (a :: t))%nat as Hlen.
      { assert (List.length (List.skipn j t) = List.length (sub ++ k2)) as E by (by rewrite <- Hk2).
        rewrite List.length_skipn, length_app in E. simpl. lia. }
      apply (Index_first _ _ _ 0%nat Hj); [lia|]. exists (List.firstn (List.length (a :: t) - List.length sub) k).
      assert (List.firstn (List.length (a :: t)) ((a :: t) ++ u) = List.firstn (List.length (a :: t)) (sub ++ k)) as E by (by rewrite Hk).
      rewrite List.firstn_app, Nat.sub_diag, List.firstn_all, app_nil_r in E.
      rewrite List.firstn_app, (List.firstn_all2 sub) in E by lia. exact E. }
    destruct (HasPrefix (a :: t) sub) eqn:E.
    + intros [= <-]. simpl in *. by rewrite Hp.
    + destruct (Index t sub) as [j|] eqn:Ej; [|done]. intros [= <-].
      assert (Index (a :: t) sub = Some (S j)) as Hj by (cbn [Index]; by rewrite E, Ej).
      specialize (Hn j Hj). simpl in *. destruct (HasPrefix (a :: t ++ u) sub); [by destruct Hn|].
      by rewrite (IH j eq_refl).
Qed.

Lemma Cut_app b m t rest : Cut b m = Some rest -> Cut (b ++ t) m = Some (rest ++ t).
Proof.
  unfold Cut. destruct (Index b m) as [i|] eqn:E; [|done]. intros [= <-]. rewrite (Index_app _ _ _ _ E). simpl. f_equal.
  destruct (Index_Some _ _ _ E) as [[k Hk] Hle].
  assert (i + List.length m <= List.length b)%nat.
  { assert (List.length (List.skipn i b) = List.length (m ++ k)) as El by (by rewrite <- Hk).
    rewrite List.length_skipn, length_app in El. lia. }
  rewrite List.skipn_app. replace (i + List.length m - List.length b)%nat with 0%nat by lia. done.
Qed.

Lemma Contains_app t u sub : Contains t sub = true -> Contains (t ++ u) sub = true.
Proof. unfold Contains. destruct (Index t sub) as [i|] eqn:E; [|done]. by rewrite (Index_app _ _ _ _ E). Qed.

Definition speak (chunks : list gostring) (s : State) : State := fold_left (fun s t => pushLLMText t s) chunks s.

(** Past a verdict, the text flows straight through or is dropped. *)
Lemma speak_complete chunks s : enabled s = true -> marker s = TurnMarkerComplete ->
  speak chunks s = s <| out := out s ++ List.map PushText chunks |>.
Proof.
  revert s. induction chunks as [|t chunks IH]; intros s He Hm; [simpl; rewrite app_nil_r; by destruct s|].
  cbn [speak fold_left]. assert (pushLLMText t s = push (PushText t) s) as ->.
  { unfold pushLLMText, pushTurnText. rewrite He, Hm. by rewrite bool_decide_false, andb_false_r. }
  fold (speak chunks (push (PushText t) s)). rewrite IH by done. simpl. by rewrite <- app_assoc.
Qed.

Lemma speak_incomplete chunks s : enabled s = true -> marker s = TurnMarkerIncomplete -> speak chunks s = s.
Proof.
  intros He Hm. induction chunks as [|t chunks IH]; [done|]. cbn [speak fold_left].
  assert (pushLLMText t s = s) as ->; [|exact IH].
  unfold pushLLMText, pushTurnText. rewrite He, Hm. by rewrite bool_decide_false, andb_false_r.
Qed.

Definition rest_ (s : State) : Prop := enabled s = true /\ marker s = turnMarkerNone /\ voiced s = false /\ userSpeaking s = false.

Lemma chunk_eq t s : rest_ s -> pushLLMText t s =
  let s := s <| buffer ::= fun b => b ++ t |> in
  match incompleteIn (config s) (buffer s) with
  | Some (ty, m) => startIncompleteTimeout ty (push (PushMarker m true) (s <| marker := TurnMarkerIncomplete |> <| buffer := [] |>))
  | None =>
    match Cut (buffer s) (complete (config s)) with
    | None => s
    | Some rest =>
      let s := s <| voiced := true |> <| marker := TurnMarkerComplete |> <| buffer := [] |> in
      let s := push (PushMarker (complete (config s)) false) (broadcastTurnCompletion s) in
      match TrimPrefix rest [32] with [] => s | rest => push (PushText rest) s end
    end
  end.
Proof. intros (He & Hm & Hv & Hu). unfold pushLLMText, pushTurnText. rewrite He, Hv, Hm. simpl. by rewrite Hu. Qed.

(** The complete verdict: the report, the marker, and the words that follow it. *)
Definition answered (s : State) (rest : gostring) (s' : State) : Prop :=
  exists texts,
    out s' = out s ++ (if broadcasted s then [] else [InferenceCompleted]) ++ [PushMarker (complete (config s)) false]
               ++ List.map PushText texts
    /\ (List.concat texts = rest \/ [32] ++ List.concat texts = rest)
    /\ marker s' = TurnMarkerComplete /\ buffer s' = [] /\ voiced s' = true
    /\ reprompts s' = reprompts s /\ cancelTimeout s' = cancelTimeout s /\ enabled s' = true.

Lemma TrimPrefix_blank r : TrimPrefix r [32] = r \/ [32] ++ TrimPrefix r [32] = r.
Proof.
  unfold TrimPrefix. destruct (HasPrefix r [32]) eqn:E; [|by left]. right.
  by apply HasPrefix_spec in E as [k ->].
Qed.

(** What the markers of a response say: the text so far is looked at as each chunk
    comes, the incomplete markers first, and the first look that finds one decides. *)
Inductive verdict := Unmarked | Answer | Unfinished (ty : IncompleteType).
Fixpoint verdictIn (c : UserTurnCompletionConfig) (text : gostring) (chunks : list gostring) : verdict :=
  match chunks with
  | [] => Unmarked
  | t :: chunks =>
    match incompleteIn c (text ++ t) with
    | Some (ty, _) => Unfinished ty
    | None => if Contains (text ++ t) (complete c) then Answer else verdictIn c (text ++ t) chunks
    end
  end.

(** What a whole text says that holds markers of one kind at most. *)
Definition verdictOf (c : UserTurnCompletionConfig) (text : gostring) : option verdict :=
  match Contains text (complete c), Contains text (short c), Contains text (long c) with
  | false, false, false => Some Unmarked
  | true, false, false => Some Answer
  | false, true, false => Some (Unfinished IncompleteShort)
  | false, false, true => Some (Unfinished IncompleteLong)
  | _, _, _ => None
  end.

Lemma Cut_Some b m : Contains b m = true -> exists rest, Cut b m = Some rest.
Proof. unfold Contains, Cut. destruct (Index b m); [eauto|done]. Qed.

Lemma Cut_Contains b m : Contains b m = false -> Cut b m = None.
Proof. unfold Contains, Cut. by destruct (Index b m). Qed.

Lemma Contains_nil m : m <> [] -> Contains [] m = false.
Proof. by destruct m. Qed.

Lemma verdict_uncut c v text chunks :
  Contains text (complete c) = false -> Contains text (short c) = false -> Contains text (long c) = false ->
  verdictOf c (text ++ List.concat chunks) = Some v -> verdictIn c text chunks = v.
Proof.
  revert text. induction chunks as [|t chunks IH]; intros text E1 E2 E3 Hv; cbn [List.concat verdictIn] in *.
  { rewrite app_nil_r in Hv. unfold verdictOf in Hv. rewrite E1, E2, E3 in Hv. by injection Hv. }
  rewrite app_assoc in Hv.
  assert (forall m, Contains (text ++ t) m = true -> Contains ((text ++ t) ++ List.concat chunks) m = true) as Hc
    by (intros m; apply Contains_app).
  unfold incompleteIn. destruct (Contains (text ++ t) (short c)) eqn:Es.
  { apply Hc in Es. unfold verdictOf in Hv. rewrite Es in Hv. by repeat case_match; simplify_eq. }
  destruct (Contains (text ++ t) (long c)) eqn:El.
  { apply Hc in El. unfold verdictOf in Hv. rewrite El in Hv. by repeat case_match; simplify_eq. }
  destruct (Contains (text ++ t) (complete c)) eqn:Ec; [|by apply IH].
  apply Hc in Ec. unfold verdictOf in Hv. rewrite Ec in Hv. by repeat case_match; simplify_eq.
Qed.

Definition markerOf (c : UserTurnCompletionConfig) (ty : IncompleteType) : gostring :=
  match ty with IncompleteShort => short c | IncompleteLong => long c end.

Lemma incompleteIn_marker c b ty m : incompleteIn c b = Some (ty, m) -> m = markerOf c ty.
Proof. unfold incompleteIn. repeat case_match; by intros [= <- <-]. Qed.

(** The incomplete verdict: the marker alone, and a re-prompt. *)
Definition held (ty : IncompleteType) (s : State) : State :=
  startIncompleteTimeout ty
    (push (PushMarker (markerOf (config s) ty) true) (s <| marker := TurnMarkerIncomplete |> <| buffer := [] |>)).

Lemma speak_held ty chunks s : rest_ s -> speak chunks (held ty s) = held ty s.
Proof.
  intros [He _]. apply speak_incomplete; unfold held, startIncompleteTimeout, cancelIncompleteTimeout; simpl;
    by destruct (cancelTimeout s).
Qed.

(** Words after the complete verdict. *)
Lemma speak_after r chunks s : rest_ s ->
  answered s (r ++ List.concat chunks)
    (speak chunks
      (let s := s <| voiced := true |> <| marker := TurnMarkerComplete |> <| buffer := [] |> in
       let s := push (PushMarker (complete (config s)) false) (broadcastTurnCompletion s) in
       match TrimPrefix r [32] with [] => s | rest => push (PushText rest) s end)).
Proof.
  intros Hr. cbv zeta. set (s2 := s <| voiced := true |> <| marker := TurnMarkerComplete |> <| buffer := [] |>).
  set (s3 := push (PushMarker (complete (config s2)) false) (broadcastTurnCompletion s2)).
  assert (out s3 = out s ++ (if broadcasted s then [] else [InferenceCompleted]) ++ [PushMarker (complete (config s)) false]) as E3.
  { unfold s3, broadcastTurnCompletion. change (broadcasted s2) with (broadcasted s).
    destruct (broadcasted s); simpl; by rewrite <- ?app_assoc. }
  assert (enabled s3 = true /\ marker s3 = TurnMarkerComplete /\ buffer s3 = [] /\ voiced s3 = true
    /\ reprompts s3 = reprompts s /\ cancelTimeout s3 = cancelTimeout s) as (F1 & F2 & F3 & F4 & F5 & F6).
  { unfold s3, broadcastTurnCompletion. change (broadcasted s2) with (broadcasted s). destruct Hr as [He _].
    by destruct (broadcasted s). }
  clearbody s3. clear s2.
  destruct (TrimPrefix_blank r) as [E|E]; destruct (TrimPrefix r [32]) as [|a l]; subst r;
    rewrite speak_complete by done;
    [exists chunks|exists ((a :: l) :: chunks)|exists chunks|exists ((a :: l) :: chunks)];
    simpl; rewrite E3, <- !app_assoc; split_and!; try done; first [by left|by right].
Qed.

Lemma speak_verdict chunks s : rest_ s ->
  match verdictIn (config s) (buffer s) chunks with
  | Unmarked => speak chunks s = s <| buffer := buffer s ++ List.concat chunks |>
  | Answer => exists rest, Cut (buffer s ++ List.concat chunks) (complete (config s)) = Some rest
                /\ answered s rest (speak chunks s)
  | Unfinished ty => speak chunks s = held ty s
  end.
Proof.
  revert s. induction chunks as [|t chunks IH]; intros s Hr.
  { simpl. rewrite app_nil_r. by destruct s. }
  cbn [List.concat verdictIn] in *. rewrite app_assoc. cbn [speak fold_left]. rewrite chunk_eq by done. cbv zeta.
  set (s1 := s <| buffer ::= fun b => b ++ t |>).
  change (config s1) with (config s). change (buffer s1) with (buffer s ++ t).
  change (fold_left (fun s t => pushLLMText t s) chunks ?x) with (speak chunks x).
  destruct (incompleteIn (config s) (buffer s ++ t)) as [[ty m]|] eqn:Ei.
  - rewrite (incompleteIn_marker _ _ _ _ Ei). exact (speak_held ty chunks s Hr).
  - destruct (Contains (buffer s ++ t) (complete (config s))) eqn:Ec.
    + destruct (Cut_Some _ _ Ec) as [r Er]. rewrite Er. exists (r ++ List.concat chunks).
      split; [by apply Cut_app|]. exact (speak_after r chunks s Hr).
    + rewrite (Cut_Contains _ _ Ec). exact (IH s1 Hr).
Qed.

Lemma rest_started s : rest_ s -> rest_ (cancelIncompleteTimeout s).
Proof. unfold rest_, cancelIncompleteTimeout. by destruct (cancelTimeout s). Qed.

Lemma started_keeps s : config (cancelIncompleteTimeout s) = config s /\ buffer (cancelIncompleteTimeout s) = buffer s
  /\ out (cancelIncompleteTimeout s) = out s /\ broadcasted (cancelIncompleteTimeout s) = broadcasted s
  /\ List.length (reprompts (cancelIncompleteTimeout s)) = List.length (reprompts s)
  /\ cancelTimeout (cancelIncompleteTimeout s) = None.
Proof.
  unfold cancelIncompleteTimeout. destruct (cancelTimeout s) as [i|] eqn:E; [|by rewrite E].
  split_and!; try done. simpl. apply length_alter.
Qed.

Lemma respond_eq chunks s : enabled s = true -> enabled (speak chunks (cancelIncompleteTimeout s)) = true ->
  respond chunks s = turnReset (speak chunks (cancelIncompleteTimeout s)).
Proof. intros He He2. unfold respond, PushFrame. rewrite He. cbn [handlePushFrame]. fold (speak chunks (cancelIncompleteTimeout s)). by rewrite He2. Qed.

(** What is left of the text of an answer once one blank after its marker is dropped,
    cut into chunks in some way. *)
Definition afterMarker (c : UserTurnCompletionConfig) (text : gostring) (texts : list gostring) : Prop :=
  exists rest, Cut text (complete c) = Some rest
    /\ (List.concat texts = rest \/ [32] ++ List.concat texts = rest).

Lemma reset_marked s : marker s <> turnMarkerNone ->
  turnReset s = s <| buffer := [] |> <| marker := turnMarkerNone |> <| broadcasted := false |>.
Proof. intros H. unfold turnReset. by rewrite bool_decide_false. Qed.

Lemma enabled_cancel s : enabled (cancelIncompleteTimeout s) = enabled s.
Proof. unfold cancelIncompleteTimeout. by destruct (cancelTimeout s). Qed.

Lemma enabled_start ty s : enabled (startIncompleteTimeout ty s) = enabled s.
Proof. apply (enabled_cancel s). Qed.

Lemma enabled_chunk t s : enabled (pushLLMText t s) = enabled s.
Proof.
  unfold pushLLMText, pushTurnText, suppressStaleCompletion, broadcastTurnCompletion.
  repeat case_match; rewrite ?enabled_start; try done; by destruct (broadcasted _).
Qed.

Lemma enabled_speak chunks s : enabled (speak chunks s) = enabled s.
Proof.
  revert s. induction chunks as [|t chunks IH]; intros s; [done|].
  cbn [speak fold_left]. etransitivity; [apply IH|apply enabled_chunk].
Qed.

Lemma reset_fresh s : marker (turnReset s) = turnMarkerNone /\ buffer (turnReset s) = [] /\ broadcasted (turnReset s) = false
  /\ voiced (turnReset s) = voiced s /\ cancelTimeout (turnReset s) = cancelTimeout s /\ reprompts (turnReset s) = reprompts s.
Proof. unfold turnReset. by case_match. Qed.

(** What [respond] leaves of a response with verdict [v], from a state in which it has
    started. *)
Definition gated (s : State) (v : verdict) (text : gostring) (s' : State) : Prop :=
  let c := config s in
  match v with
  | Unmarked => out s' = out s ++ match text with [] => [] | _ => [PushText text] end /\ voiced s' = false /\ cancelTimeout s' = None
  | Answer => exists texts, afterMarker c text texts
      /\ out s' = out s ++ [InferenceCompleted; PushMarker (complete c) false] ++ List.map PushText texts
      /\ voiced s' = true /\ cancelTimeout s' = None
  | Unfinished ty =>
      out s' = out s ++ [PushMarker (markerOf c ty) true] /\ voiced s' = false
      /\ exists i, cancelTimeout s' = Some i /\ reprompts s' !! i = Some (mkReprompt ty (timeoutFor c ty) Waiting)
  end.

Lemma held_reset ty s : let s' := turnReset (held ty s) in
  out s' = out s ++ [PushMarker (markerOf (config s) ty) true] /\ voiced s' = voiced s
  /\ exists i, cancelTimeout s' = Some i /\ reprompts s' !! i = Some (mkReprompt ty (timeoutFor (config s) ty) Waiting).
Proof.
  unfold held, startIncompleteTimeout, cancelIncompleteTimeout. cbv zeta.
  assert (forall l : list reprompt, forall r, (l ++ [r]) !! List.length l = Some r) as Hl.
  { intros l r. by rewrite list_lookup_middle. }
  simpl. destruct (cancelTimeout s) as [i|]; rewrite reset_marked by done; simpl; eauto.
Qed.

Lemma gated_verdict chunks s : rest_ s -> buffer s = [] -> cancelTimeout s = None -> broadcasted s = false ->
  gated s (verdictIn (config s) [] chunks) (List.concat chunks) (turnReset (speak chunks s)).
Proof.
  intros Hr Hb Ht Hd. pose proof (speak_verdict chunks s Hr) as H. rewrite Hb in H. unfold gated.
  pose proof Hr as (_ & Hm & Hvo & _).
  destruct (verdictIn (config s) [] chunks) as [| |ty].
  - rewrite H. unfold turnReset. simpl. rewrite Hm. destruct (List.concat chunks); simpl; by rewrite ?app_nil_r.
  - destruct H as (rest & Er & texts & Ho & Hc & Hm' & _ & Hvo' & _ & Hct & _). exists texts. rewrite Hd in Ho.
    rewrite reset_marked by (by rewrite Hm'). simpl. rewrite Ho, Hct. by split_and!; [exists rest|..].
  - rewrite H. destruct (held_reset ty s) as (H1 & H2 & H3). rewrite H2. auto.
Qed.

(** C23: how a response is gated.  With gating on, no completion spoken since the user
    last took the floor, the user silent, and nothing else coming in between, a response
    is gated by the first chunk at which its text so far holds a marker.  When that is an
    incomplete marker nothing is spoken, whatever follows it: the marker is written at
    once and a re-prompt armed after that kind's timeout.  When it is the complete marker
    alone, the turn is reported complete once, the marker goes to the conversation with
    the text, and all that follows it is spoken, in order and without one leading blank.
    When there is none, the text is spoken at the end rather than lost.  The next
    response starts afresh.  A response with markers of one kind at most is gated alike
    however it is cut into chunks; where it has several kinds, the cut decides. *)
Theorem response_gated chunks s : rest_ s -> buffer s = [] -> broadcasted s = false ->
  let s' := respond chunks s in
  let v := verdictIn (config s) [] chunks in
  (marker s' = turnMarkerNone /\ buffer s' = [] /\ broadcasted s' = false /\ gated s v (List.concat chunks) s')
  /\ (forall u, verdictOf (config s) (List.concat chunks) = Some u -> v = u).
Proof.
  intros Hr Hb Hd. destruct (started_keeps s) as (Kc & Kb & Ko & Kd & Kl & Kt).
  pose proof (rest_started _ Hr) as Hr1. cbv zeta. split.
  - rewrite respond_eq by (rewrite ?enabled_speak; first [apply Hr|apply Hr1]).
    destruct (reset_fresh (speak chunks (cancelIncompleteTimeout s))) as (F1 & F2 & F3 & _). split_and!; [done..|].
    rewrite Hb in Kb. rewrite Hd in Kd.
    pose proof (gated_verdict chunks (cancelIncompleteTimeout s) Hr1 Kb Kt Kd) as H. unfold gated in *. by rewrite Kc, Ko in H.
  - intros u Hu. apply verdict_uncut; try done; apply Contains_nil, orElse_nonempty; done.
Qed.

(** ** One spoken completion at a time *)

Definition clears (e : event) : bool :=
  match e with
  | Received InterruptionFrame | Received UserStartedSpeakingFrame | Received (LLMMessagesAppendFrame true)
  | Received VADUserStartedSpeakingFrame | Generated FunctionCallsStartedFrame => true
  | _ => false
  end.

Definition spoken (o : output) : bool := match o with PushMarker _ false => true | _ => false end.
Definition spokenIn (os : list output) : nat := List.length (List.filter spoken os).
Definition isPrompt (o : output) : bool := match o with PushPrompt _ => true | _ => false end.

(** [s'] says [os] more than [s], and counts the completion if there is one in it. *)
Definition says (s s' : State) (os : list output) : Prop :=
  out s' = out s ++ os /\ (spokenIn os + Nat.b2n (voiced s) = Nat.b2n (voiced s'))%nat /\ enabled s' = enabled s.

Lemma spokenIn_app a b : spokenIn (a ++ b) = (spokenIn a + spokenIn b)%nat.
Proof. unfold spokenIn. by rewrite List.filter_app, length_app. Qed.

Lemma says_nothing s s' : out s' = out s -> voiced s' = voiced s -> enabled s' = enabled s -> says s s' [].
Proof. intros H1 H2 H3. unfold says. rewrite app_nil_r, H2. done. Qed.

Lemma says_trans a b c x y : says a b x -> says b c y -> says a c (x ++ y).
Proof. intros (H1 & H2 & H3) (H4 & H5 & H6). unfold says. rewrite spokenIn_app, H4, H1, <- app_assoc. split_and!; [done|lia|congruence]. Qed.

Lemma says_cancel s : says s (cancelIncompleteTimeout s) [].
Proof. apply says_nothing; unfold cancelIncompleteTimeout; by destruct (cancelTimeout s). Qed.

Lemma says_start ty s : says s (startIncompleteTimeout ty s) [].
Proof. apply says_nothing; unfold startIncompleteTimeout, cancelIncompleteTimeout; by destruct (cancelTimeout s). Qed.

Lemma says_reset s : exists os, says s (turnReset s) os /\ (buffer s = [] -> os = []).
Proof.
  unfold turnReset. case_bool_decide; destruct (buffer s) as [|a l] eqn:E;
    (exists [] + exists [PushText (a :: l)]); split; try done; try (by apply says_nothing); by split_and!.
Qed.

Lemma says_text t s : enabled s = true -> exists os, says s (pushLLMText t s) os.
Proof.
  intros He. unfold pushLLMText, pushTurnText, suppressStaleCompletion. rewrite He.
  destruct (voiced s) eqn:Hv, (marker s) eqn:Hm; simpl; try (by exists []; apply says_nothing);
    try (by exists [PushText t]; unfold says; simpl; rewrite Hv).
  destruct (incompleteIn _ _) as [[ty m]|].
  { eexists. eapply says_trans; [|apply says_start]. instantiate (1 := [PushMarker m true]). by split_and!; [|simpl; rewrite Hv|]. }
  destruct (Cut _ _) as [rest|]; [|by exists []; apply says_nothing].
  destruct (userSpeaking s).
  { eexists. eapply says_trans; [|apply says_start]. instantiate (1 := [PushMarker (short (config s)) true]).
    by split_and!; [|simpl; rewrite Hv|]. }
  unfold broadcastTurnCompletion. simpl.
  exists ((if broadcasted s then [] else [InferenceCompleted]) ++ [PushMarker (complete (config s)) false]
    ++ match TrimPrefix rest [32] with [] => [] | r => [PushText r] end).
  unfold says. rewrite Hv. destruct (broadcasted s), (TrimPrefix rest [32]); simpl; rewrite <- ?app_assoc; done.
Qed.

Lemma says_step e s : enabled s = true -> clears e = false -> exists os, says s (step e s) os.
Proof.
  intros He Hc. destruct e as [f|f|t|i]; simpl.
  - unfold ProcessFrame. rewrite He. destruct f as [| |[]| | |]; try done; exists []; by apply says_nothing.
  - unfold PushFrame. rewrite He. destruct f; try done; simpl; [eexists; apply says_cancel|].
    destruct (says_reset s) as (os & H & _). eauto.
  - by apply says_text.
  - unfold expireStep, goStage. destruct (reprompts s !! i) as [r|]; [|exists []; by apply says_nothing].
    destruct (at_ r) as [| | | |p|]; try (exists []; by apply says_nothing).
    + destruct (says_reset s) as (os & H & _). exists os. exact H.
    + exists [PushPrompt p]. by split_and!.
Qed.

Definition settled (s : State) : Prop := enabled s = true /\ voiced s = true /\ marker s = turnMarkerNone /\ buffer s = [].

Lemma settled_step e s : settled s -> clears e = false ->
  settled (step e s) /\ exists os, out (step e s) = out s ++ os /\ forallb isPrompt os = true.
Proof.
  intros (He & Hv & Hm & Hb) Hc. assert (exists os, out s = out s ++ os /\ forallb isPrompt os = true) as H0.
  { exists []. by rewrite app_nil_r. }
  assert (turnReset s = s <| buffer := [] |> <| marker := turnMarkerNone |> <| broadcasted := false |>) as Hr.
  { unfold turnReset. rewrite Hb. by case_bool_decide. }
  destruct e as [f|f|t|i]; simpl.
  - unfold ProcessFrame. rewrite He. destruct f as [| |[]| | |]; done.
  - unfold PushFrame. rewrite He. destruct f; try done; simpl; [|by rewrite Hr].
    unfold cancelIncompleteTimeout. by destruct (cancelTimeout s).
  - unfold pushLLMText, pushTurnText. by rewrite He, Hv, Hm.
  - unfold expireStep, goStage. destruct (reprompts s !! i) as [r|]; [|done].
    destruct (at_ r) as [| | | |p|]; try done; [by rewrite Hr|]. split; [done|]. by exists [PushPrompt p].
Qed.

(** While nothing clears the latch - no interruption, no speech of the user, no
    message asking for a run, no tool call - the completions spoken are counted by it:
    whatever responses arrive and timers expire, at most one more is spoken, and none
    once one was.  After the response that was spoken, only re-prompts are pushed: no
    text, no marker, no report. *)
Theorem one_voice_per_turn es s : enabled s = true -> List.existsb clears es = false ->
  (exists os, out (run es s) = out s ++ os /\ spokenIn os <= 1 /\ (voiced s = true -> spokenIn os = 0))%nat
  /\ (settled s -> exists os, out (run es s) = out s ++ os /\ forallb isPrompt os = true).
Proof.
  intros He Hc. split.
  - enough (exists os, says s (run es s) os) as (os & H1 & H2 & _).
    { exists os. split; [done|]. destruct (voiced s), (voiced (run es s)); simpl in H2; split; intros; try done; lia. }
    revert s He. induction es as [|e es IH]; intros s He; [exists []; by apply says_nothing|].
    simpl in Hc. apply orb_false_iff in Hc as [Hc1 Hc2].
    destruct (says_step e s He Hc1) as [os H]. destruct (IH Hc2 (step e s)) as [os2 H2]; [by destruct H as (_ & _ & ->)|].
    eexists. eapply says_trans; [exact H|exact H2].
  - revert s He. induction es as [|e es IH]; intros s He Hs; [exists []; by rewrite app_nil_r|].
    simpl in Hc. apply orb_false_iff in Hc as [Hc1 Hc2].
    destruct (settled_step e s Hs Hc1) as [H (os & Ho & Hp)].
    destruct (IH Hc2 (step e s)) as (os2 & Ho2 & Hp2); [apply H|done|].
    exists (os ++ os2). rewrite forallb_app, Hp, Hp2. split; [|done]. change (run (e :: es) s) with (run es (step e s)). by rewrite Ho2, Ho, <- app_assoc.
Qed.

(** ** An expiry under way takes the handle of the next re-prompt *)

Definition defaults : UserTurnCompletionConfig := mkConfig [] [] [] [] 0 0 [] [].

(** The expiry of a re-prompt forgets whatever timer is armed when it comes to the
    lock.  When a response judged incomplete gets in between, the re-prompt it arms can no
    longer be disarmed: the user speaks, and is talked over all the same. *)
Theorem reprompt_out_of_reach :
  let s := run [Text (short defaults); Generated LLMFullResponseEndFrame; Expiry 0; Generated LLMFullResponseStartFrame;
                Expiry 0; Text (short defaults); Expiry 0; Expiry 0;
                Received VADUserStartedSpeakingFrame; Expiry 1; Expiry 1; Expiry 1; Expiry 1] (New true defaults) in
  userSpeaking s = true /\ reprompts s !! 1%nat = Some (mkReprompt IncompleteShort defaultIncompleteShortTimeout Sent)
  /\ List.last (out s) InferenceCompleted = PushPrompt (ShortPrompt defaults).
Proof. vm_compute. auto. Qed.

(** A response with a complete and an incomplete marker is spoken or held by how it
    happens to be cut. *)
Theorem mixed_by_the_cut :
  verdictIn defaults [] [complete defaults ++ short defaults] = Unfinished IncompleteShort /\
  verdictIn defaults [] [complete defaults; short defaults] = Answer.
Proof. split; vm_compute; reflexivity. Qed.

(** ** Witnesses *)

Definition answerChunks : list gostring :=
  [bytes_of "  "; Markers.UserTurnCompleteMarker ++ bytes_of " Sure"; bytes_of ", here it is."].

Lemma response_gated_witness :
  let s' := respond answerChunks (New true defaults) in
  ((marker s' = turnMarkerNone /\ buffer s' = [] /\ broadcasted s' = false
    /\ gated (New true defaults) (verdictIn defaults [] answerChunks) (List.concat answerChunks) s')
   /\ verdictIn defaults [] answerChunks = Answer)
  /\ out s' = [InferenceCompleted; PushMarker Markers.UserTurnCompleteMarker false;
               PushText (bytes_of "Sure"); PushText (bytes_of ", here it is.")].
Proof.
  cbv zeta. split; [|by vm_compute].
  destruct (response_gated answerChunks (New true defaults)) as [H1 H2]; [by unfold rest_|reflexivity|reflexivity|].
  split; [exact H1|]. apply H2. vm_compute. reflexivity.
Defined.

Definition againEvents : list event :=
  [Text (Markers.UserTurnCompleteMarker ++ bytes_of " yes"); Generated LLMFullResponseEndFrame;
   Text (Markers.UserTurnCompleteMarker ++ bytes_of " again"); Generated LLMFullResponseEndFrame].

Lemma one_voice_per_turn_witness :
  ((exists os, out (run againEvents (New true defaults)) = out (New true defaults) ++ os
     /\ (spokenIn os <= 1)%nat /\ (voiced (New true defaults) = true -> spokenIn os = 0%nat))
   /\ (settled (New true defaults) -> exists os,
        out (run againEvents (New true defaults)) = out (New true defaults) ++ os /\ forallb isPrompt os = true))
  /\ spokenIn (out (run againEvents (New true defaults))) = 1%nat.
Proof. split; [apply one_voice_per_turn; reflexivity|by vm_compute]. Defined.

End TurnCompletion.
