(* ===== verification/SeqMatcher.v ===== *)
(** * Aligning two token sequences

    The matcher of [src/utils/context/sequencematcher.go]: the longest common block
    of two windows, found by rows of running lengths; the blocks left and right of
    it, found in turn from a stack of windows; the blocks sorted and joined; and the
    operations that turn one sequence into the other.

    Tokens are of any type with decidable equality.  Indices are natural numbers; the
    code never subtracts below zero, as the range lemmas show.  Of a map ranged in
    increasing order the model keeps the list. *)

From S2P Require Import Prelude.

Module SeqMatcher.
Section Matcher.
Context {A : Type} `{Countable A}.
Implicit Types a b : list A.

(** ** The longest match *)

Record match_ := mkMatch { ma : nat; mb : nat; size : nat }.

(** [b2j]: where each token of [b] occurs, in order. *)
Definition b2jOf (b : list A) : gmap A (list nat) :=
  fold_left (fun m '(j, s) => <[s := default [] (m !! s) ++ [j]]> m) (imap (fun j s => (j, s)) b) ∅.

(** [j2len[j-1]]: nothing is stored under [-1]. *)
Definition before1 (j2len : gmap nat nat) (j : nat) : nat :=
  match j with O => 0 | S j => default 0 (j2len !! j) end.

(** The loop over the occurrences of [a[i]]. *)
Fixpoint row (i blo bhi : nat) (js : list nat) (j2len newj2len : gmap nat nat) (best : match_) : gmap nat nat * match_ :=
  match js with
  | [] => (newj2len, best)
  | j :: js =>
    if j <? blo then row i blo bhi js j2len newj2len best
    else if bhi <=? j then (newj2len, best)
    else
      let k := before1 j2len j + 1 in
      row i blo bhi js j2len (<[j := k]> newj2len)
        (if size best <? k then mkMatch (i + 1 - k) (j + 1 - k) k else best)
  end.

Fixpoint rows (b2j : gmap A (list nat)) (a : list A) (blo bhi : nat) (ns : list nat) (j2len : gmap nat nat) (best : match_) : match_ :=
  match ns with
  | [] => best
  | i :: ns =>
    let js := match a !! i with Some s => default [] (b2j !! s) | None => [] end in
    let '(j2len, best) := row i blo bhi js j2len ∅ best in
    rows b2j a blo bhi ns j2len best
  end.

Definition same (a b : list A) (i j : nat) : bool := bool_decide (a !! i = b !! j).

(** The two extensions; the fuel is the distance to the end of the window. *)
Fixpoint extendBack (fuel : nat) (a b : list A) (alo blo : nat) (m : match_) : match_ :=
  match fuel with
  | S fuel =>
    if (alo <? ma m) && (blo <? mb m) && same a b (ma m - 1) (mb m - 1)
    then extendBack fuel a b alo blo (mkMatch (ma m - 1) (mb m - 1) (size m + 1)) else m
  | O => m
  end.
Fixpoint extendForward (fuel : nat) (a b : list A) (ahi bhi : nat) (m : match_) : match_ :=
  match fuel with
  | S fuel =>
    if (ma m + size m <? ahi) && (mb m + size m <? bhi) && same a b (ma m + size m) (mb m + size m)
    then extendForward fuel a b ahi bhi (mkMatch (ma m) (mb m) (size m + 1)) else m
  | O => m
  end.

Definition findLongestMatch (a b : list A) (b2j : gmap A (list nat)) (alo ahi blo bhi : nat) : match_ :=
  let m := rows b2j a blo bhi (seq alo (ahi - alo)) ∅ (mkMatch alo blo 0) in
  extendForward (List.length a) a b ahi bhi (extendBack (List.length a) a b alo blo m).

(** ** The blocks *)

Record span := mkSpan { alo : nat; ahi : nat; blo : nat; bhi : nat }.

(** The windows still to search, the last pushed first. *)
Fixpoint search (fuel : nat) (a b : list A) (b2j : gmap A (list nat)) (queue : list span) (matches : list match_) : option (list match_) :=
  match queue, fuel with
  | [], _ => Some matches
  | _, O => None
  | s :: queue, S fuel =>
    let m := findLongestMatch a b b2j (alo s) (ahi s) (blo s) (bhi s) in
    if 0 <? size m then
      let queue := if (alo s <? ma m) && (blo s <? mb m) then mkSpan (alo s) (ma m) (blo s) (mb m) :: queue else queue in
      let queue := if (ma m + size m <? ahi s) && (mb m + size m <? bhi s)
                   then mkSpan (ma m + size m) (ahi s) (mb m + size m) (bhi s) :: queue else queue in
      search fuel a b b2j queue (matches ++ [m])
    else search fuel a b b2j queue matches
  end.

(** [sortMatches]: the sorted prefix is held from its end. *)
Definition after (x v : match_) : bool := (ma v <? ma x) || ((ma x =? ma v) && (mb v <? mb x)).
Fixpoint shiftIn (v : match_) (sorted : list match_) : list match_ :=
  match sorted with
  | x :: rest => if after x v then x :: shiftIn v rest else v :: x :: rest
  | [] => [v]
  end.
Definition sortMatches (ms : list match_) : list match_ :=
  List.rev (fold_left (fun sorted v => shiftIn v sorted) ms []).

(** Joining blocks that touch; [cur] is the block in progress. *)
Fixpoint collapse (ms : list match_) (cur : match_) : list match_ :=
  let emit := if 0 <? size cur then [cur] else [] in
  match ms with
  | [] => emit
  | m :: ms =>
    if (ma cur + size cur =? ma m) && (mb cur + size cur =? mb m)
    then collapse ms (mkMatch (ma cur) (mb cur) (size cur + size m))
    else emit ++ collapse ms m
  end.

Definition matchingBlocks (a b : list A) : option (list match_) :=
  ms ← search (2 * List.length a + 2) a b (b2jOf b) [mkSpan 0 (List.length a) 0 (List.length b)] [];
  Some (collapse (sortMatches ms) (mkMatch 0 0 0) ++ [mkMatch (List.length a) (List.length b) 0]).

(** ** The operations *)

Inductive tag := equal | replace | delete | insert.
Record opcode := mkOp { op : tag; i1 : nat; i2 : nat; j1 : nat; j2 : nat }.

Fixpoint opcodesFrom (blocks : list match_) (i j : nat) : list opcode :=
  match blocks with
  | [] => []
  | m :: blocks =>
    let gap :=
      if (i <? ma m) && (j <? mb m) then [mkOp replace i (ma m) j (mb m)]
      else if i <? ma m then [mkOp delete i (ma m) j (mb m)]
      else if j <? mb m then [mkOp insert i (ma m) j (mb m)]
      else [] in
    let eq := if 0 <? size m then [mkOp equal (ma m) (ma m + size m) (mb m) (mb m + size m)] else [] in
    gap ++ eq ++ opcodesFrom blocks (ma m + size m) (mb m + size m)
  end.

Definition getOpcodes (a b : list A) : option (list opcode) :=
  blocks ← matchingBlocks a b; Some (opcodesFrom blocks 0 0).

(** ** Blocks are common *)

(** The windows [i, i+k) of [a] and [j, j+k) of [b] hold the same tokens. *)
Definition block a b (i j k : nat) : Prop := forall n, n < k -> exists s, a !! (i + n) = Some s /\ b !! (j + n) = Some s.

Lemma block_0 a b i j : block a b i j 0.
Proof. intros n Hn. lia. Qed.

Lemma block_app a b i j k k2 : block a b i j k -> block a b (i + k) (j + k) k2 -> block a b i j (k + k2).
Proof.
  intros H1 H2 n Hn. destruct (decide (n < k)) as [Hk|Hk]; [by apply H1|].
  destruct (H2 (n - k)) as (s & Ha & Hb); [lia|]. exists s. split; [rewrite <- Ha|rewrite <- Hb]; f_equal; lia.
Qed.

Lemma block_1 a b i j s : a !! i = Some s -> b !! j = Some s -> block a b i j 1.
Proof. intros Ha Hb n Hn. exists s. replace n with 0 by lia. by rewrite !Nat.add_0_r. Qed.

Lemma block_sub a b i j k d k2 : block a b i j k -> d + k2 <= k -> block a b (i + d) (j + d) k2.
Proof. intros Hb Hk n Hn. destruct (Hb (d + n)) as (s & H1 & H2); [lia|]. exists s. by rewrite <- !Nat.add_assoc. Qed.

Lemma block_length a b i j k : block a b i j (S k) -> i + k < List.length a /\ j + k < List.length b.
Proof. intros Hb. destruct (Hb k) as (s & Ha & Hb'); [lia|]. by apply lookup_lt_Some in Ha, Hb'. Qed.

Lemma same_block a b i j : i < List.length a -> same a b i j = true -> block a b i j 1.
Proof.
  unfold same. rewrite bool_decide_eq_true. intros Hi E. destruct (lookup_lt_is_Some_2 _ _ Hi) as [s Hs].
  eapply block_1; [exact Hs|congruence].
Qed.

Lemma block_same a b i j : block a b i j 1 -> same a b i j = true.
Proof. intros Hb. destruct (Hb 0) as (s & Ha & Hb'); [lia|]. rewrite !Nat.add_0_r in *. unfold same. by rewrite Ha, Hb', bool_decide_true. Qed.

(** ** The occurrences *)

Lemma b2jOf_spec b s : default [] (b2jOf b !! s) = List.filter (fun j => bool_decide (b !! j = Some s)) (seq 0 (List.length b)).
Proof.
  unfold b2jOf. induction b as [|t b IH] using rev_ind; [done|].
  rewrite imap_app, fold_left_app. simpl. rewrite Nat.add_0_r.
  set (m := fold_left _ _ _) in *. rewrite length_app, seq_app, List.filter_app. simpl.
  assert (List.filter (fun j => bool_decide ((b ++ [t]) !! j = Some s)) (seq 0 (List.length b))
          = List.filter (fun j => bool_decide (b !! j = Some s)) (seq 0 (List.length b))) as ->.
  { apply List.filter_ext_in. intros j Hj%in_seq. by rewrite lookup_app_l by lia. }
  assert ((b ++ [t]) !! List.length b = Some t) as -> by (by apply list_lookup_middle).
  rewrite <- IH. destruct (decide (t = s)) as [->|Hne].
  - by rewrite lookup_insert, decide_True, bool_decide_true.
  - rewrite lookup_insert_ne, bool_decide_false, app_nil_r; congruence.
Qed.

(** ** The running lengths *)

Section Rows.
Context (a b : list A) (alo0 ahi0 blo0 bhi0 : nat).

(** A block of the windows that ends before row [n] and at [j]. *)
Definition ending (n j k : nat) : Prop :=
  0 < k /\ alo0 + k <= n <= ahi0 /\ blo0 + k <= j + 1 /\ j < bhi0 /\ block a b (n - k) (j + 1 - k) k.

(** The lengths [m] holds are those of blocks that end before row [n]; of those that end
    at a [j] outside [todo] none is longer. *)
Definition lengths (n : nat) (todo : list nat) (m : gmap nat nat) : Prop :=
  (forall j k, m !! j = Some k -> ending n j k) /\
  (forall j k, j ∉ todo -> ending n j k -> exists k2, m !! j = Some k2 /\ k <= k2).

Definition found (best : match_) : Prop :=
  alo0 <= ma best /\ blo0 <= mb best /\ ma best + size best <= ahi0 /\ mb best + size best <= bhi0
  /\ block a b (ma best) (mb best) (size best).

Definition bounded (m : gmap nat nat) (best : match_) : Prop := forall j k, m !! j = Some k -> k <= size best.

Lemma ending_prev n j k : ending (S n) (S j) (S (S k)) -> ending n j (S k).
Proof.
  intros (H1 & H2 & H3 & H4 & H5). split_and!; try lia.
  replace (n - S k) with (S n - S (S k)) by lia. replace (j + 1 - S k) with (S j + 1 - S (S k)) by lia.
  intros x Hx. apply H5. lia.
Qed.

Lemma ending_found n j k : ending n j k -> found (mkMatch (n - k) (j + 1 - k) k).
Proof. intros (H1 & H2 & H3 & H4 & H5). unfold found. simpl. split_and!; try lia. done. Qed.

(** The length the row computes at [j] is that of the longest block that ends there. *)
Lemma next_length n j m : lengths n [] m -> n < ahi0 -> alo0 <= n -> blo0 <= j -> j < bhi0 -> block a b n j 1 ->
  ending (S n) j (before1 m j + 1) /\ forall k, ending (S n) j k -> k <= before1 m j + 1.
Proof.
  intros [Hs Hc] Hn Ha Hb Hj Hbl. split.
  - destruct (before1 m j) as [|k] eqn:Ek.
    + split_and!; try lia. replace (S n - (0 + 1)) with n by lia. by replace (j + 1 - (0 + 1)) with j by lia.
    + destruct j as [|j]; [done|]. simpl in Ek. destruct (m !! j) as [k2|] eqn:E; [|done]. simpl in Ek. subst k2.
      destruct (Hs _ _ E) as (H1 & H2 & H3 & H4 & H5). split_and!; try lia.
      replace (S n - (S k + 1)) with (n - S k) by lia. replace (S j + 1 - (S k + 1)) with (j + 1 - S k) by lia.
      apply block_app; [done|]. replace (n - S k + S k) with n by lia. by replace (j + 1 - S k + S k) with (S j) by lia.
  - intros k Hk. destruct k as [|[|k]]; [lia|lia|]. destruct j as [|j]; [destruct Hk; lia|].
    destruct (Hc j (S k)) as (k2 & E & Hle); [set_solver|by apply ending_prev|]. simpl. rewrite E. simpl. lia.
Qed.

Lemma row_spec n js m new best : lengths n [] m -> n < ahi0 -> alo0 <= n ->
  (forall j, j ∈ js -> block a b n j 1) -> StronglySorted lt js ->
  lengths (S n) js new -> found best -> bounded new best ->
  let '(new', best') := row n blo0 bhi0 js m new best in
  lengths (S n) [] new' /\ found best' /\ bounded new' best' /\ size best <= size best'.
Proof.
  intros Hm Hn Ha. revert new best. induction js as [|j js IH]; intros new best Hj Hs Hnew Hf Hb; simpl; [done|].
  apply StronglySorted_inv in Hs as [Hs Hlt].
  assert (forall c, ~ blo0 <= c \/ bhi0 <= c -> forall k, ~ ending (S n) c k) as Hout.
  { intros c Hc k (H1 & H2 & H3 & H4 & _). lia. }
  destruct (j <? blo0) eqn:E1.
  { apply Nat.ltb_lt in E1. apply IH; try done; [set_solver|]. destruct Hnew as [H1 H2]. split; [done|].
    intros c k Hc He. apply (H2 c k); [|done]. intros [->|?]%elem_of_cons; [|done]. apply (Hout j) in He; [done|lia]. }
  apply Nat.ltb_ge in E1. destruct (bhi0 <=? j) eqn:E2.
  { apply Nat.leb_le in E2. split_and!; try done. destruct Hnew as [H1 H2]. split; [done|].
    intros c k _ He. apply (H2 c k); [|done]. rewrite Forall_forall in Hlt. intros Hc. apply (Hout c) in He; [done|].
    apply elem_of_cons in Hc as [->|Hc]; [lia|]. specialize (Hlt c Hc). lia. }
  apply Nat.leb_gt in E2. destruct (next_length n j m Hm) as [Hk Hmax]; try done; [apply Hj; set_solver|].
  set (k := before1 m j + 1) in *.
  assert (found (if size best <? k then mkMatch (n + 1 - k) (j + 1 - k) k else best)
    /\ size best <= size (if size best <? k then mkMatch (n + 1 - k) (j + 1 - k) k else best)
    /\ k <= size (if size best <? k then mkMatch (n + 1 - k) (j + 1 - k) k else best)) as (Hf' & Hs1 & Hs2).
  { destruct (size best <? k) eqn:E3; [apply Nat.ltb_lt in E3|apply Nat.ltb_ge in E3]; simpl; split_and!; try done; try lia.
    rewrite Nat.add_1_r. by apply ending_found. }
  specialize (IH (<[j:=k]> new) (if size best <? k then mkMatch (n + 1 - k) (j + 1 - k) k else best)).
  destruct (row _ _ _ _ _ _ _) as [new' best'].
  destruct IH as (H1 & H2 & H3 & H4); [set_solver|done| |done| |split_and!; try done; lia].
  - destruct Hnew as [Hn1 Hn2]. split.
    + intros c k' [[<- <-]|[_ ?]]%lookup_insert_Some; auto.
    + intros c k' Hc He. destruct (decide (c = j)) as [->|Hne].
      * exists k. rewrite lookup_insert, decide_True by done. auto.
      * rewrite lookup_insert_ne by done. apply Hn2; [set_solver|done].
  - intros c k' [[_ <-]|[_ Hc]]%lookup_insert_Some; [done|]. specialize (Hb c k' Hc). lia.
Qed.

(** No block that ends before row [n] is longer. *)
Definition longest (n : nat) (best : match_) : Prop := forall x j k, x <= n -> ending x j k -> k <= size best.

Lemma occurrences_spec n t : a !! n = Some t ->
  (forall j, j ∈ default [] (b2jOf b !! t) <-> block a b n j 1) /\ StronglySorted lt (default [] (b2jOf b !! t)).
Proof.
  intros Ht. rewrite b2jOf_spec. split.
  - intros j. rewrite list_elem_of_In, List.filter_In, in_seq, bool_decide_eq_true. split.
    + intros [_ Hj]. by eapply block_1.
    + intros Hb. destruct (Hb 0) as (s & H1 & H2); [lia|]. rewrite !Nat.add_0_r in *. rewrite Ht in H1. injection H1 as <-.
      split; [|done]. apply lookup_lt_Some in H2. lia.
  - generalize 0. generalize (List.length b). intros l. induction l as [|l IH]; intros x; [constructor|]. simpl.
    destruct (bool_decide _); [|apply IH]. constructor; [apply IH|]. apply Forall_forall. intros y Hy%list_elem_of_In.
    apply List.filter_In in Hy as [Hy%in_seq _]. lia.
Qed.

Lemma rows_spec l n m best : ahi0 <= List.length a -> alo0 <= n -> n + l = ahi0 ->
  lengths n [] m -> found best -> longest n best ->
  let best' := rows (b2jOf b) a blo0 bhi0 (seq n l) m best in found best' /\ longest ahi0 best'.
Proof.
  intros Hlen. revert n m best. induction l as [|l IH]; intros n m best Hn E Hm Hf Hl.
  { simpl. rewrite Nat.add_0_r in E. by subst. }
  cbn [seq rows]. destruct (lookup_lt_is_Some_2 a n) as [t Ht]; [lia|]. rewrite Ht.
  destruct (occurrences_spec n t Ht) as [Ho Hs]. set (js := default [] (b2jOf b !! t)) in *.
  pose proof (row_spec n js m ∅ best Hm) as R. destruct (row n blo0 bhi0 js m ∅ best) as [new' best'].
  destruct R as (H1 & H2 & H3 & H4); [lia|lia|by intros j ?%Ho|done| |done|by intros j k|].
  { split; [by intros j k|]. intros j k Hj (K1 & K2 & K3 & K4 & K5). exfalso. apply Hj, Ho.
    pose proof (block_sub _ _ _ _ _ (k - 1) 1 K5) as K. replace (S n - k + (k - 1)) with n in K by lia.
    replace (j + 1 - k + (k - 1)) with j in K by lia. apply K. lia. }
  apply IH; [lia|lia|done|done|]. intros x j k Hx He. destruct (decide (x <= n)) as [Hxn|Hxn].
  - specialize (Hl x j k Hxn He). lia.
  - replace x with (S n) in He by lia. destruct (proj2 H1 j k) as (k2 & E2 & Hle); [set_solver|done|].
    specialize (H3 _ _ E2). lia.
Qed.

Lemma extendBack_spec fuel best : ahi0 <= List.length a -> found best ->
  let m := extendBack fuel a b alo0 blo0 best in found m /\ size best <= size m.
Proof.
  intros Ha. revert best. induction fuel as [|fuel IH]; intros best Hf; [done|]. simpl.
  destruct ((alo0 <? ma best) && _ && _) eqn:E; [|done]. apply andb_prop in E as [[E1 E2]%andb_prop E3].
  apply Nat.ltb_lt in E1, E2. destruct Hf as (H1 & H2 & H3 & H4 & H5).
  destruct (IH (mkMatch (ma best - 1) (mb best - 1) (size best + 1))) as [H6 H7]; [|simpl in H7; split; [done|lia]].
  unfold found. simpl. split_and!; try lia. rewrite Nat.add_1_r. change (S (size best)) with (1 + size best).
  apply block_app; [apply same_block; [lia|done]|].
  replace (ma best - 1 + 1) with (ma best) by lia. by replace (mb best - 1 + 1) with (mb best) by lia.
Qed.

Lemma extendForward_spec fuel best : ahi0 <= List.length a -> found best ->
  let m := extendForward fuel a b ahi0 bhi0 best in found m /\ size best <= size m.
Proof.
  intros Ha. revert best. induction fuel as [|fuel IH]; intros best Hf; [done|]. simpl.
  destruct ((_ <? ahi0) && _ && _) eqn:E; [|done]. apply andb_prop in E as [[E1 E2]%andb_prop E3].
  apply Nat.ltb_lt in E1, E2. destruct Hf as (H1 & H2 & H3 & H4 & H5).
  destruct (IH (mkMatch (ma best) (mb best) (size best + 1))) as [H6 H7]; [|simpl in H7; split; [done|lia]].
  unfold found. simpl. split_and!; try lia. apply block_app; [done|apply same_block; [lia|done]].
Qed.

(** The match found is a block of the windows, and none of them holds a longer one. *)
Lemma findLongestMatch_spec : alo0 <= ahi0 <= List.length a -> blo0 <= bhi0 ->
  let m := findLongestMatch a b (b2jOf b) alo0 ahi0 blo0 bhi0 in
  found m /\ forall i j k, alo0 <= i -> blo0 <= j -> i + k <= ahi0 -> j + k <= bhi0 -> block a b i j k -> k <= size m.
Proof.
  intros Ha Hb. unfold findLongestMatch. set (m0 := rows _ _ _ _ _ _ _).
  assert (found m0 /\ longest ahi0 m0) as [Hf Hl].
  { apply rows_spec; try lia.
    - split; [by intros j k|]. intros j k _ (H1 & H2 & _). lia.
    - unfold found. simpl. split_and!; try lia. apply block_0.
    - intros x j k Hx (H1 & H2 & _). lia. }
  destruct (extendBack_spec (List.length a) m0) as [Hf1 H1]; [lia|done|].
  destruct (extendForward_spec (List.length a) (extendBack (List.length a) a b alo0 blo0 m0)) as [Hf2 H2]; [lia|done|].
  split; [exact Hf2|]. intros i j k Hi Hj Hik Hjk Hbl. destruct k as [|k]; [lia|].
  assert (S k <= size m0); [|lia]. apply (Hl (i + S k) (j + k)); [lia|]. split_and!; try lia.
  replace (i + S k - S k) with i by lia. by replace (j + k + 1 - S k) with j by lia.
Qed.

End Rows.

(** ** The blocks are in order *)

Definition rectOf (m : match_) : span := mkSpan (ma m) (ma m + size m) (mb m) (mb m + size m).
Definition before (r s : span) : Prop := ahi r <= alo s /\ bhi r <= blo s.
Definition apart (r s : span) : Prop := before r s \/ before s r.
Definition inside (r s : span) : Prop := alo s <= alo r <= ahi r /\ ahi r <= ahi s /\ blo s <= blo r <= bhi r /\ bhi r <= bhi s.

Lemma apart_inside r s t : inside r s -> apart s t -> apart r t.
Proof. unfold inside, apart, before. intros. lia. Qed.
Lemma apart_sym r s : apart r s -> apart s r.
Proof. unfold apart. tauto. Qed.

Lemma pairs_perm (l l' : list span) : l ≡ₚ l' -> ForallOrdPairs apart l -> ForallOrdPairs apart l'.
Proof.
  induction 1 as [|x l l' Hp IH|x y l|l1 l2 l3 _ IH1 _ IH2]; intros F; auto.
  - inversion_clear F as [|? ? F1 F2]. constructor; [|auto]. by rewrite <- Hp.
  - inversion_clear F as [|? ? F1 F2]. inversion_clear F2 as [|? ? F3 F4]. inversion_clear F1 as [|? ? F5 F6].
    constructor; [constructor; [by apply apart_sym|done]|by constructor].
Qed.

Definition isMatch a b (m : match_) : Prop :=
  0 < size m /\ ma m + size m <= List.length a /\ mb m + size m <= List.length b /\ block a b (ma m) (mb m) (size m).
Definition window a b (s : span) : Prop := alo s <= ahi s <= List.length a /\ blo s <= bhi s <= List.length b.

Definition cost (s : span) : nat := 2 * (ahi s - alo s) + 1.
Definition costs (q : list span) : nat := list_sum (List.map cost q).

(** What a window is replaced by: its match, and what is left of it on either side. *)
Definition pieces (s : span) (m : match_) : list span :=
  (if (ma m + size m <? ahi s) && (mb m + size m <? bhi s) then [mkSpan (ma m + size m) (ahi s) (mb m + size m) (bhi s)] else []) ++
  (if (alo s <? ma m) && (blo s <? mb m) then [mkSpan (alo s) (ma m) (blo s) (mb m)] else []).

Lemma pieces_spec a b s m : window a b s -> found a b (alo s) (ahi s) (blo s) (bhi s) m -> 0 < size m ->
  Forall (fun r => inside r s) (rectOf m :: pieces s m) /\ ForallOrdPairs apart (rectOf m :: pieces s m)
  /\ Forall (window a b) (pieces s m) /\ costs (pieces s m) < cost s.
Proof.
  intros (W1 & W2) (F1 & F2 & F3 & F4 & _) Hs. unfold pieces.
  destruct ((ma m + size m <? ahi s) && _) eqn:E1; destruct ((alo s <? ma m) && _) eqn:E2;
    rewrite ?andb_true_iff, ?Nat.ltb_lt in *; unfold costs, cost, inside, apart, before, window; simpl;
    (split_and!; [repeat constructor; simpl; lia|repeat constructor; unfold apart, before; simpl; lia|repeat constructor; simpl; lia|lia]).
Qed.

Lemma replace_window (l q ps : list span) s : Forall (fun r => inside r s) ps -> ForallOrdPairs apart ps ->
  ForallOrdPairs apart (l ++ s :: q) -> ForallOrdPairs apart (l ++ ps ++ q).
Proof.
  intros Hin Hps F. assert (ForallOrdPairs apart (s :: l ++ q)) as F1 by (eapply pairs_perm; [|exact F]; by rewrite Permutation_middle).
  inversion_clear F1 as [|? ? F2 F3]. apply (pairs_perm (ps ++ l ++ q)); [by rewrite !app_assoc, (Permutation_app_comm ps l)|].
  clear F. induction ps as [|r ps IH]; [done|]. apply Forall_cons in Hin as [Hr Hin]. inversion_clear Hps as [|? ? F4 F5].
  simpl. constructor; [|auto]. apply Forall_app. split; [done|]. eapply Forall_impl; [exact F2|]. intros t. by apply apart_inside.
Qed.

Lemma search_spec a b fuel queue ms : costs queue < fuel ->
  Forall (window a b) queue -> Forall (isMatch a b) ms -> ForallOrdPairs apart (List.map rectOf ms ++ queue) ->
  exists ms', search fuel a b (b2jOf b) queue ms = Some ms' /\ Forall (isMatch a b) ms' /\ ForallOrdPairs apart (List.map rectOf ms').
Proof.
  revert queue ms. induction fuel as [|fuel IH]; intros queue ms Hc Hw Hm Hp; [lia|].
  destruct queue as [|s queue]; [exists ms; by rewrite app_nil_r in Hp|].
  cbn [search]. apply Forall_cons in Hw as [Ws Hw]. change (costs (s :: queue)) with (cost s + costs queue) in Hc.
  destruct (findLongestMatch_spec a b (alo s) (ahi s) (blo s) (bhi s)) as [F _]; [apply Ws|apply Ws|].
  set (m := findLongestMatch _ _ _ _ _ _ _) in *. clearbody m.
  assert (0 < cost s) by (unfold cost; lia).
  destruct (0 <? size m) eqn:E.
  - apply Nat.ltb_lt in E. destruct (pieces_spec a b s m Ws F E) as (P1 & P2 & P3 & P4).
    match goal with |- exists _, search _ _ _ _ ?q _ = _ /\ _ => assert (q = pieces s m ++ queue) as -> end.
    { unfold pieces. by repeat case_match. }
    apply IH.
    + unfold costs in *. rewrite List.map_app, list_sum_app. lia.
    + by apply Forall_app.
    + apply Forall_app. split; [done|]. constructor; [|done]. destruct F as (F1 & F2 & F3 & F4 & F5), Ws as [W1 W2].
      unfold isMatch. split_and!; try done; lia.
    + rewrite List.map_app, <- app_assoc. simpl. by apply (replace_window _ queue (rectOf m :: pieces s m) s).
  - apply IH; try done; [lia|]. assert (ForallOrdPairs apart (s :: List.map rectOf ms ++ queue)) as Hp1
      by (eapply pairs_perm; [|exact Hp]; by rewrite Permutation_middle). by inversion_clear Hp1.
Qed.

(** Sorting puts them in order. *)
Lemma shiftIn_perm v l : shiftIn v l ≡ₚ v :: l.
Proof. induction l as [|x l IH]; simpl; [done|]. destruct (after x v); [|done]. rewrite IH. apply Permutation_swap. Qed.

Lemma sortMatches_perm ms : sortMatches ms ≡ₚ ms.
Proof.
  unfold sortMatches. rewrite <- Permutation_rev. transitivity (ms ++ []); [|by rewrite app_nil_r]. generalize (@nil match_).
  induction ms as [|m ms IH]; intros l; [done|]. simpl. rewrite IH, shiftIn_perm. by rewrite Permutation_middle.
Qed.

Definition follows (x v : match_) : Prop := before (rectOf v) (rectOf x).
Definition inOrder : list match_ -> Prop := StronglySorted (fun m n => before (rectOf m) (rectOf n)).

Lemma shiftIn_follows a b v l : isMatch a b v -> Forall (isMatch a b) l -> Forall (fun x => apart (rectOf x) (rectOf v)) l ->
  StronglySorted follows l -> StronglySorted follows (shiftIn v l).
Proof.
  intros Hv. induction l as [|x l IH]; intros Hm Ha Hs; [repeat constructor|]. simpl.
  apply Forall_cons in Hm as [Hx Hm]. apply Forall_cons in Ha as [Hxv Ha]. apply StronglySorted_inv in Hs as [Hs Hf].
  unfold after. destruct ((ma v <? ma x) || _) eqn:E.
  - constructor; [by apply IH|]. rewrite shiftIn_perm. constructor; [|done].
    unfold follows, apart, before, isMatch in *. simpl in *. rewrite orb_true_iff, andb_true_iff, Nat.eqb_eq, !Nat.ltb_lt in E. lia.
  - assert (follows v x).
    { unfold follows, apart, before, isMatch in *. simpl in *. rewrite orb_false_iff, andb_false_iff, Nat.eqb_neq, !Nat.ltb_ge in E. lia. }
    constructor; [by constructor|]. constructor; [done|]. eapply Forall_impl; [exact Hf|]. unfold follows, before in *. simpl in *.
    intros y Hy. unfold isMatch in *. lia.
Qed.

Lemma sorted_in_order a b ms : Forall (isMatch a b) ms -> ForallOrdPairs apart (List.map rectOf ms) -> inOrder (sortMatches ms).
Proof.
  intros Hm Hp. unfold sortMatches.
  assert (forall l, Forall (isMatch a b) l -> StronglySorted follows l -> Forall (fun m => Forall (fun x => apart (rectOf x) (rectOf m)) l) ms ->
    StronglySorted follows (fold_left (fun sorted v => shiftIn v sorted) ms l)) as Hf.
  { induction ms as [|m ms IH]; intros l Hl Hs Hd; [done|]. simpl. apply Forall_cons in Hm as [Hm0 Hm]. inversion_clear Hp as [|? ? Hp1 Hp2].
    apply Forall_cons in Hd as [Hd1 Hd2]. apply IH; try done; [rewrite shiftIn_perm; by constructor|by eapply shiftIn_follows|].
    rewrite Forall_forall in Hd2. rewrite Forall_forall in Hp1. apply Forall_forall. intros n Hn. rewrite shiftIn_perm. constructor; [|by apply Hd2].
    apply Hp1. by apply list_elem_of_fmap_2. }
  assert (StronglySorted follows (fold_left (fun sorted v => shiftIn v sorted) ms [])) as Hs
    by (apply Hf; [constructor..|by apply Forall_forall]). revert Hs. generalize (fold_left (fun sorted v => shiftIn v sorted) ms []). intros l Hl. unfold inOrder.
  induction Hl as [|x l Hl IH Hx]; [constructor|]. simpl. apply StronglySorted_app_2; [|done|repeat constructor].
  intros y z Hy ->%list_elem_of_singleton. rewrite Forall_forall in Hx. apply Hx. rewrite list_elem_of_In in *. by apply List.in_rev.
Qed.

(** Joining keeps blocks and order. *)
Lemma isMatch_join a b m n : isMatch a b m -> isMatch a b n -> ma m + size m = ma n -> mb m + size m = mb n ->
  isMatch a b (mkMatch (ma m) (mb m) (size m + size n)).
Proof.
  intros (M1 & M2 & M3 & M4) (N1 & N2 & N3 & N4) E1 E2. unfold isMatch. simpl. split_and!; try lia.
  apply block_app; [done|]. by rewrite E1, E2.
Qed.

(** [cur] is a block, or nothing yet. *)
Definition current a b (cur : match_) : Prop := isMatch a b cur \/ (size cur = 0 /\ ma cur = 0 /\ mb cur = 0).

Lemma collapse_spec a b ms cur : current a b cur -> Forall (isMatch a b) ms ->
  inOrder ms -> Forall (fun m => before (rectOf cur) (rectOf m)) ms ->
  Forall (isMatch a b) (collapse ms cur) /\ inOrder (collapse ms cur)
  /\ (forall r, before r (rectOf cur) -> Forall (fun m => before r (rectOf m)) (collapse ms cur)).
Proof.
  revert cur. induction ms as [|m ms IH]; intros cur Hc Hm Ho Hb.
  { simpl. destruct (0 <? size cur) eqn:E; [|by repeat constructor]. apply Nat.ltb_lt in E.
    destruct Hc as [Hc|[Hc _]]; [|lia]. split_and!; [by constructor|repeat constructor|]. intros r Hr. by constructor. }
  apply Forall_cons in Hm as [Hm0 Hm]. apply Forall_cons in Hb as [Hb0 Hb]. apply StronglySorted_inv in Ho as [Ho Hf].
  cbn [collapse]. destruct ((_ =? ma m) && _) eqn:E.
  - apply andb_prop in E as [E1%Nat.eqb_eq E2%Nat.eqb_eq].
    assert (isMatch a b (mkMatch (ma cur) (mb cur) (size cur + size m))) as Hj.
    { destruct Hc as [Hc|(C1 & C2 & C3)]; [by apply isMatch_join|]. rewrite C1, C2, C3 in *. simpl in *.
      destruct Hm0 as (M1 & M2 & M3 & M4). unfold isMatch. simpl. by rewrite <- E1, <- E2 in *. }
    destruct (IH (mkMatch (ma cur) (mb cur) (size cur + size m))) as (H1 & H2 & H3); [by left|done|done| |].
    + eapply Forall_impl; [exact Hf|]. unfold before. simpl. intros x Hx. lia.
    + split_and!; [done|done|]. intros r Hr. apply H3. unfold before in *. simpl in *. lia.
  - destruct (IH m) as (H1 & H2 & H3); [by left|done|done|done|]. destruct (0 <? size cur) eqn:E0; cbn [app].
    + apply Nat.ltb_lt in E0. destruct Hc as [Hc|[Hc _]]; [|lia]. split_and!; [by constructor| |].
      * constructor; [done|]. apply H3. done.
      * intros r Hr. constructor; [done|]. apply H3. unfold before in *. simpl in *. lia.
    + split_and!; [done|done|]. intros r Hr. apply H3. unfold before in *. simpl in *. lia.
Qed.

(** ** The operations tile the two sequences *)

Inductive tiles (n m : nat) : nat -> nat -> list opcode -> Prop :=
| tiles_end : tiles n m n m []
| tiles_op c i j codes : i1 c = i -> j1 c = j -> i <= i2 c -> j <= j2 c -> tiles n m (i2 c) (j2 c) codes ->
    tiles n m i j (c :: codes).

Definition slice (l : list A) (i j : nat) : list A := List.firstn (j - i) (List.skipn i l).

(** What an operation's tag says. *)
Definition honest a b (c : opcode) : Prop :=
  match op c with
  | equal => i1 c < i2 c /\ slice a (i1 c) (i2 c) = slice b (j1 c) (j2 c)
  | replace => i1 c < i2 c /\ j1 c < j2 c
  | delete => i1 c < i2 c /\ j1 c = j2 c
  | insert => i1 c = i2 c /\ j1 c < j2 c
  end.

Lemma block_slice a b i j k : block a b i j k -> slice a i (i + k) = slice b j (j + k).
Proof.
  intros Hb. unfold slice. replace (i + k - i) with k by lia. replace (j + k - j) with k by lia.
  apply list_eq. intros n. destruct (decide (n < k)) as [Hn|Hn].
  - rewrite !lookup_take_lt, !lookup_drop by lia. destruct (Hb n Hn) as (s & -> & ->). done.
  - by rewrite !lookup_take_ge by lia.
Qed.

Lemma opcodesFrom_spec a b blocks i j : i <= List.length a -> j <= List.length b ->
  Forall (isMatch a b) blocks -> inOrder blocks -> Forall (fun m => i <= ma m /\ j <= mb m) blocks ->
  let codes := opcodesFrom (blocks ++ [mkMatch (List.length a) (List.length b) 0]) i j in
  tiles (List.length a) (List.length b) i j codes /\ Forall (honest a b) codes.
Proof.
  revert i j. induction blocks as [|m blocks IH]; intros i j Hi Hj Hm Ho Hf; cbn [app opcodesFrom].
  - change (0 <? size (mkMatch (List.length a) (List.length b) 0)) with false. rewrite !app_nil_r. cbn [ma mb].
    destruct (i <? _) eqn:E1, (j <? _) eqn:E2; rewrite ?Nat.ltb_lt, ?Nat.ltb_ge in *; simpl;
      (split; [|repeat constructor; simpl; lia]).
    1-3: repeat (constructor; simpl; try lia).
    replace i with (List.length a) by lia. replace j with (List.length b) by lia. constructor.
  - apply Forall_cons in Hm as [(M1 & M2 & M3 & M4) Hm]. apply StronglySorted_inv in Ho as [Ho Hb]. apply Forall_cons in Hf as [[F1 F2] _].
    destruct (IH (ma m + size m) (mb m + size m)) as [H1 H2]; [done|done|done|done|exact Hb|].
    assert ((0 <? size m) = true) as -> by (by apply Nat.ltb_lt).
    assert (honest a b (mkOp equal (ma m) (ma m + size m) (mb m) (mb m + size m))) as He.
    { split; [simpl; lia|]. by apply block_slice. }
    assert (tiles (List.length a) (List.length b) (ma m) (mb m)
      (mkOp equal (ma m) (ma m + size m) (mb m) (mb m + size m) :: opcodesFrom (blocks ++ [mkMatch (List.length a) (List.length b) 0]) (ma m + size m) (mb m + size m))) as Ht.
    { constructor; simpl; try lia. done. }
    destruct (i <? ma m) eqn:E1, (j <? mb m) eqn:E2; rewrite ?Nat.ltb_lt, ?Nat.ltb_ge in *; cbn [andb app];
      (split; [|repeat (apply Forall_cons_2; [first [exact He|unfold honest; simpl; lia]|]); exact H2]).
    1-3: constructor; simpl; try lia; done.
    by replace i with (ma m) by lia; replace j with (mb m) by lia.
Qed.

Lemma slice_split (l : list A) i j k : i <= j <= k -> slice l i j ++ slice l j k = slice l i k.
Proof.
  intros Hij. unfold slice. rewrite <- (firstn_skipn (j - i) (List.firstn (k - i) (List.skipn i l))).
  rewrite List.firstn_firstn, Nat.min_l by lia. f_equal. rewrite List.skipn_firstn_comm, List.skipn_skipn.
  by replace (j - i + i) with j by lia; replace (k - i - (j - i)) with (k - j) by lia.
Qed.

Lemma tiles_le n m i j codes : tiles n m i j codes -> i <= n /\ j <= m.
Proof. induction 1; lia. Qed.

Lemma tiles_concat_a a b i j codes : tiles (List.length a) (List.length b) i j codes ->
  List.concat (List.map (fun c => slice a (i1 c) (i2 c)) codes) = List.skipn i a.
Proof.
  induction 1 as [|c i j codes <- _ Hi _ Ht IH]; simpl; [by rewrite List.skipn_all|]. rewrite IH. apply tiles_le in Ht as [Hle _].
  transitivity (slice a (i1 c) (i2 c) ++ slice a (i2 c) (List.length a)).
  - f_equal. unfold slice. by rewrite List.firstn_all2 by (rewrite List.length_skipn; lia).
  - rewrite slice_split by lia. unfold slice. by rewrite List.firstn_all2 by (rewrite List.length_skipn; lia).
Qed.

Lemma tiles_concat_b a b i j codes : tiles (List.length a) (List.length b) i j codes ->
  List.concat (List.map (fun c => slice b (j1 c) (j2 c)) codes) = List.skipn j b.
Proof.
  induction 1 as [|c i j codes _ <- _ Hj Ht IH]; simpl; [by rewrite List.skipn_all|]. rewrite IH. apply tiles_le in Ht as [_ Hle].
  transitivity (slice b (j1 c) (j2 c) ++ slice b (j2 c) (List.length b)).
  - f_equal. unfold slice. by rewrite List.firstn_all2 by (rewrite List.length_skipn; lia).
  - rewrite slice_split by lia. unfold slice. by rewrite List.firstn_all2 by (rewrite List.length_skipn; lia).
Qed.

Lemma matchingBlocks_spec a b : exists blocks, matchingBlocks a b = Some (blocks ++ [mkMatch (List.length a) (List.length b) 0])
  /\ Forall (isMatch a b) blocks /\ inOrder blocks.
Proof.
  destruct (search_spec a b (2 * List.length a + 2) [mkSpan 0 (List.length a) 0 (List.length b)] []) as (ms & E & H1 & H2).
  { unfold costs, cost. simpl. lia. }
  { repeat constructor; simpl; lia. }
  { constructor. }
  { repeat constructor. }
  unfold matchingBlocks. rewrite E. cbn [mbind option_bind].
  destruct (collapse_spec a b (sortMatches ms) (mkMatch 0 0 0)) as (C1 & C2 & _).
  - by right.
  - by rewrite sortMatches_perm.
  - by eapply sorted_in_order.
  - apply Forall_forall. intros m _. unfold before. simpl. lia.
  - by eexists.
Qed.

(** The matcher always answers, and what it answers is an alignment: its operations
    tile both sequences from end to end, in order, each is what its tag says, and the
    equal ones cover the same tokens on both sides. *)
Theorem opcodes_align a b : exists codes, getOpcodes a b = Some codes
  /\ tiles (List.length a) (List.length b) 0 0 codes /\ Forall (honest a b) codes
  /\ List.concat (List.map (fun c => slice a (i1 c) (i2 c)) codes) = a
  /\ List.concat (List.map (fun c => slice b (j1 c) (j2 c)) codes) = b.
Proof.
  destruct (matchingBlocks_spec a b) as (blocks & E & H1 & H2). unfold getOpcodes. rewrite E. eexists. split; [done|].
  destruct (opcodesFrom_spec a b blocks 0 0) as [H3 H4]; [lia|lia|done|done|apply Forall_forall; intros; lia|].
  split_and!; [done|done|..].
  - by rewrite (tiles_concat_a _ _ _ _ _ H3).
  - by rewrite (tiles_concat_b _ _ _ _ _ H3).
Qed.

(** The match it starts from is the longest there is: no block common to the two
    sequences is longer. *)
Theorem longest_match a b : let m := findLongestMatch a b (b2jOf b) 0 (List.length a) 0 (List.length b) in
  block a b (ma m) (mb m) (size m) /\ forall i j k, i + k <= List.length a -> j + k <= List.length b -> block a b i j k -> k <= size m.
Proof.
  destruct (findLongestMatch_spec a b 0 (List.length a) 0 (List.length b)) as [F L]; [lia|lia|].
  split; [apply F|]. intros i j k Hi Hj. apply L; lia.
Qed.

(** A sequence aligned with itself is one equal operation. *)
Lemma opcodes_same a : a <> [] -> getOpcodes a a = Some [mkOp equal 0 (List.length a) 0 (List.length a)].
Proof.
  intros Hne. assert (0 < List.length a) by (destruct a; [done|simpl; lia]).
  destruct (findLongestMatch_spec a a 0 (List.length a) 0 (List.length a)) as [(F1 & F2 & F3 & F4 & _) L]; [lia|lia|].
  assert (List.length a <= size (findLongestMatch a a (b2jOf a) 0 (List.length a) 0 (List.length a))) as Hs.
  { apply (L 0 0); [lia..|]. intros n Hn. destruct (lookup_lt_is_Some_2 a n Hn) as [s Hs]. by exists s. }
  unfold getOpcodes, matchingBlocks. replace (2 * List.length a + 2) with (S (S (2 * List.length a))) by lia.
  cbn [search alo ahi blo bhi]. destruct (findLongestMatch _ _ _ _ _ _ _) as [x y k]. cbn [ma mb size] in *.
  replace x with 0 by lia. replace y with 0 by lia. replace k with (List.length a) by lia.
  assert ((0 <? List.length a) = true) as -> by (by apply Nat.ltb_lt).
  change (0 <? 0) with false. rewrite Nat.add_0_l, Nat.ltb_irrefl. cbn -[Nat.ltb].
  assert ((0 <? List.length a) = true) as -> by (by apply Nat.ltb_lt). cbn -[Nat.ltb].
  change (0 <? 0) with false. rewrite Nat.ltb_irrefl. by assert ((0 <? List.length a) = true) as -> by (by apply Nat.ltb_lt).
Qed.

End Matcher.
End SeqMatcher.
