(* ===== verification/WordText.v ===== *)
(** * The texts of a synthesis

    What the word tracking of [src/utils/context/] asks of a text: its letters and
    digits, its markup, its words, and the spellings it takes for equal ([alnum.go],
    [markup.go]); and the word timings a synthesizer reports ([wordtimestamps.go],
    [charwords.go]).

    A string is the list of its runes: the code works on [[]rune(s)] throughout, and
    the texts are valid UTF-8.  The Unicode tables and the decomposition of
    [golang.org/x/text] are a class, so that what is proved holds of every edition of
    them; [ascii] is the ASCII part. *)

From S2P Require Import Prelude Text Strings Float64.

Module WordText.
Local Open Scope Z_scope.

Class Unicode := {
  IsLetter : rune -> bool;
  IsNumber : rune -> bool;      (** with [IsDigit], which is part of it *)
  IsPunct : rune -> bool;
  IsMn : rune -> bool;          (** the combining marks *)
  ToLower : rune -> rune;
  NFD : rune -> list rune       (** of the string of one rune *)
}.

Definition isUpper (r : rune) : bool := (65 <=? r) && (r <=? 90).
Definition ascii : Unicode := {|
  IsLetter r := isUpper r || ((97 <=? r) && (r <=? 122));
  IsNumber r := (48 <=? r) && (r <=? 57);
  IsPunct r := ((33 <=? r) && (r <=? 35)) || ((37 <=? r) && (r <=? 42)) || ((44 <=? r) && (r <=? 47)) || (r =? 58) || (r =? 59)
    || (r =? 63) || (r =? 64) || ((91 <=? r) && (r <=? 93)) || (r =? 95) || (r =? 123) || (r =? 125);
  IsMn r := false;
  ToLower r := if isUpper r then r + 32 else r;
  NFD r := [r]
|}.

Abbreviation text := (list rune).

Section Tables.
Context `{Unicode}.

(** ** [alnum.go] *)

Definition isAlnum (r : rune) : bool := IsLetter r || IsNumber r.
Definition isPunct (r : rune) : bool := IsPunct r.

Definition stripTrailingPunctuation (t : text) : text := List.rev (dropWhile isPunct (List.rev t)).

(** [typographyFold], one rune for one rune *)
Definition typographyFold (r : rune) : rune :=
  if (r =? 8216) || (r =? 8217) || (r =? 700) then 39
  else if (r =? 8220) || (r =? 8221) then 34
  else if (r =? 8211) || (r =? 8212) then 45 else r.
Definition foldTypography (t : text) : text := List.map typographyFold t.

Definition foldAccentedChar (r : rune) : rune :=
  match NFD r with
  | d0 :: d1 :: _ => if IsMn d1 then ToLower d0 else ToLower r
  | _ => ToLower r
  end.

Definition foldForMatching (t : text) : text :=
  foldTypography (List.map (fun r => if IsLetter r then foldAccentedChar r else r) t).

(** [indexRune], from the start of what is left *)
Fixpoint indexRune (t : text) (r : rune) : option nat :=
  match t with
  | [] => None
  | c :: t => if c =? r then Some 0%nat else S <$> indexRune t r
  end.

(** The length of the tag a text begins with, as [<[^>]+>] matches it. *)
Definition tagLen (t : text) : option nat :=
  match t with
  | lt :: c :: rest =>
    if (lt =? 60) && negb (c =? 62) then n ← indexRune rest 62; Some (n + 3)%nat else None
  | _ => None
  end.

(** [markupRE.FindAllStringIndex]: the tags from the left, as spans of runes. *)
Fixpoint tagsFrom (fuel : nat) (pos : nat) (t : text) : list (nat * nat) :=
  match fuel, t with
  | S fuel, _ :: rest =>
    match tagLen t with
    | Some n => (pos, pos + n)%nat :: tagsFrom fuel (pos + n) (List.skipn n t)
    | None => tagsFrom fuel (pos + 1) rest
    end
  | _, _ => []
  end.
Definition markupRuneSpans (t : text) : list (nat * nat) := tagsFrom (List.length t) 0 t.

(** [stripCompleteMarkup] *)
Fixpoint stripFrom (fuel : nat) (t : text) : text :=
  match fuel, t with
  | S fuel, c :: rest =>
    match tagLen t with
    | Some n => stripFrom fuel (List.skipn n t)
    | None => c :: stripFrom fuel rest
    end
  | _, _ => []
  end.
Definition stripCompleteMarkup (t : text) : text := stripFrom (List.length t) t.

Definition alnumOnly (t : text) : text :=
  List.map (fun r => if IsLetter r then foldAccentedChar r else ToLower r) (List.filter isAlnum (stripCompleteMarkup t)).
Definition hasAlnum (t : text) : bool := match alnumOnly t with [] => false | _ => true end.

(** [advanceByAlnums], as the number of runes it moves over in what is left. *)
Fixpoint pastAlnums (fuel : nat) (t : text) (n : nat) : nat :=
  match fuel, n, t with
  | S fuel, S n', c :: rest =>
    if (c =? 60)%Z then
      match indexRune rest 62 with
      | Some k => k + 2 + pastAlnums fuel (List.skipn (k + 1) rest) n
      | None => 1 + pastAlnums fuel rest n
      end
    else if isAlnum c then 1 + pastAlnums fuel rest n'
    else 1 + pastAlnums fuel rest n
  | _, _, _ => 0
  end%nat.
Fixpoint pastMarks (t : text) : nat :=
  match t with
  | c :: rest => if (c =? 60) || isAlnum c || IsSpace c then 0%nat else S (pastMarks rest)
  | [] => 0%nat
  end.
Definition advanceByAlnums (t : text) (startPos n : nat) : nat :=
  let rest := List.skipn startPos t in
  let k := pastAlnums (List.length rest) rest n in
  (startPos + k + pastMarks (List.skipn k rest))%nat.

(** ** [markup.go] *)

Fixpoint cleanFrom (inTag : bool) (i : nat) (t : text) : list nat :=
  match t with
  | [] => []
  | r :: t =>
    if inTag then cleanFrom (negb (r =? 62)) (S i) t
    else if r =? 60 then cleanFrom true (S i) t
    else i :: cleanFrom false (S i) t
  end.
Definition iterCleanChars (t : text) : list nat := cleanFrom false 0 t.
Definition stripMarkup (t : text) : text := omap (fun j => t !! j) (iterCleanChars t).
Definition rawLenForCleanChars (t : text) (n : nat) : nat :=
  match n with
  | O => 0%nat
  | S n => match iterCleanChars t !! n with Some i => S i | None => List.length t end
  end.

(** [tokenizeWS]: words and separators by turns; [cur] is the token in progress. *)
Fixpoint tokensFrom (inSpace : bool) (cur t : text) : list text :=
  match t with
  | [] => if inSpace then [cur; []] else [cur]
  | r :: t =>
    if Bool.eqb (IsSpace r) inSpace then tokensFrom inSpace (cur ++ [r]) t
    else cur :: tokensFrom (IsSpace r) [r] t
  end.
Definition tokenizeWS (t : text) : list text := tokensFrom false [] t.

(** [splitMarkupRuns]; [cls] is whether the run in progress is tagged, [None] before
    the first. *)
Definition overlaps (spans : list (nat * nat)) (s e : nat) : bool :=
  List.existsb (fun sp => (fst sp <? e)%nat && (s <? snd sp)%nat) spans.
Fixpoint runsFrom (spans : list (nat * nat)) (tokens : list text) (pos : nat) (cls : option bool) (run : text) : list text :=
  match tokens with
  | [] => match cls with Some _ => [run] | None => [] end
  | [] :: tokens => runsFrom spans tokens pos cls run
  | t :: tokens =>
    let e := (pos + List.length t)%nat in
    let tagged := overlaps spans pos e in
    match cls with
    | Some c => if Bool.eqb c tagged then runsFrom spans tokens e cls (run ++ t)
                else run :: runsFrom spans tokens e (Some tagged) t
    | None => runsFrom spans tokens e (Some tagged) t
    end
  end.
Definition splitMarkupRuns (t : text) : list text :=
  match markupRuneSpans t with
  | [] => match t with [] => [] | _ => [t] end
  | spans => runsFrom spans (tokenizeWS t) 0 None []
  end.

(** ** The rest of what the tracking uses of [strings] *)

Definition trimRight (t : text) : text := List.rev (dropWhile IsSpace (List.rev t)).
Definition leftTrimSpace (t : text) : text := dropWhile IsSpace t.
Definition trimSpace (t : text) : text := trimRight (leftTrimSpace t).
Definition rtrimLen (t : text) : nat := List.length (trimRight t).
Definition runeSliceFrom (t : text) (k : nat) : text := List.skipn k t.

(** ** Word timings *)

Record WordTiming := mkTiming { Word : text; Offset : f64 }.

Definition containsAlnum (t : text) : bool := List.existsb isAlnum t.

(** [MergePunctTokens]; the words so far, the last first. *)
Definition mergeOne (merged : list WordTiming) (wt : WordTiming) : list WordTiming :=
  if containsAlnum (stripMarkup (Word wt)) then wt :: merged
  else match merged with
       | last :: rest => mkTiming (Word last ++ Word wt) (Offset last) :: rest
       | [] => []
       end.
Definition MergePunctTokens (words : list WordTiming) : list WordTiming :=
  List.map (fun w => mkTiming (trimSpace (Word w)) (Offset w)) (List.rev (fold_left mergeOne words [])).

(** [CharAccumulator] *)
Record CharAccumulator := mkAcc { word : text; start : option f64 }.
Definition zeroAcc : CharAccumulator := mkAcc [] None.
Definition f64_zero : f64 := f64_of_Z 0.

Definition Flush (a : CharAccumulator) : option WordTiming * CharAccumulator :=
  (match word a with [] => None | w => Some (mkTiming w (default f64_zero (start a))) end, zeroAcc).

Definition addChar (st : list WordTiming * CharAccumulator) (c : text * f64) : list WordTiming * CharAccumulator :=
  let '(words, a) := st in let '(ch, s) := c in
  match trimSpace ch with
  | [] => let '(wt, a) := Flush a in (words ++ option_list wt, a)
  | _ => (words, mkAcc (word a ++ ch) (Some (default s (start a))))
  end.
Definition Add (chars : list text) (starts : list f64) (a : CharAccumulator) : option (list WordTiming * CharAccumulator) :=
  if Nat.eqb (List.length chars) (List.length starts) then Some (fold_left addChar (zip chars starts) ([], a)) else None.

Definition CharsAsWords (chars : list text) (starts : list f64) : option (list WordTiming) :=
  if Nat.eqb (List.length chars) (List.length starts)
  then Some (List.map (fun '(ch, s) => mkTiming ch s) (List.filter (fun '(ch, _) => containsAlnum ch) (zip chars starts)))
  else None.

(** ** Where the positions stay *)

Lemma indexRune_lt t r k : indexRune t r = Some k -> (k < List.length t)%nat.
Proof.
  revert k. induction t as [|c t IH]; intros k; simpl; [done|]. destruct (c =? r); [intros [= <-]; lia|].
  destruct (indexRune t r); [|done]. intros [= <-]. specialize (IH n eq_refl). lia.
Qed.

Lemma tagLen_le t n : tagLen t = Some n -> (3 <= n <= List.length t)%nat.
Proof.
  destruct t as [|lt [|c rest]]; try done. simpl. destruct (_ && _); [|done].
  destruct (indexRune rest 62) as [k|] eqn:E; [|done]. intros [= <-]. apply indexRune_lt in E. lia.
Qed.

Lemma pastAlnums_le fuel t n : (pastAlnums fuel t n <= List.length t)%nat.
Proof.
  revert t n. induction fuel as [|fuel IH]; intros t n; [simpl; lia|]. destruct n as [|n], t as [|c rest]; simpl; try lia.
  destruct (c =? 60)%Z; [|destruct (isAlnum c)].
  - destruct (indexRune rest 62) as [k|] eqn:E; [|specialize (IH rest (S n)); lia].
    apply indexRune_lt in E. specialize (IH (List.skipn (k + 1) rest) (S n)). rewrite List.length_skipn in IH. lia.
  - specialize (IH rest n). lia.
  - specialize (IH rest (S n)). lia.
Qed.

Lemma pastMarks_le t : (pastMarks t <= List.length t)%nat.
Proof. induction t as [|c t IH]; simpl; [done|]. destruct (_ || _); lia. Qed.

Lemma advance_range t p n : (p <= List.length t -> p <= advanceByAlnums t p n <= List.length t)%nat.
Proof.
  intros Hp. unfold advanceByAlnums. set (rest := List.skipn p t).
  pose proof (pastAlnums_le (List.length rest) rest n) as H1. set (k := pastAlnums _ _ _) in *.
  pose proof (pastMarks_le (List.skipn k rest)) as H2. rewrite List.length_skipn in H2.
  assert (List.length rest = List.length t - p)%nat as Hl by apply List.length_skipn. lia.
Qed.

Lemma clean_lt inTag i t : Forall (fun j => i <= j < i + List.length t)%nat (cleanFrom inTag i t).
Proof.
  revert inTag i. induction t as [|r t IH]; intros inTag i; simpl; [constructor|].
  assert (forall b, Forall (fun j => i <= j < i + S (List.length t))%nat (cleanFrom b (S i) t)) as Hn.
  { intros b. eapply Forall_impl; [apply IH|]. simpl. lia. }
  destruct inTag; [apply Hn|]. destruct (r =? 60); [apply Hn|]. constructor; [lia|apply Hn].
Qed.

Lemma rawLen_le t n : (rawLenForCleanChars t n <= List.length t)%nat.
Proof.
  destruct n as [|n]; simpl; [lia|]. destruct (iterCleanChars t !! n) as [i|] eqn:E; [|done].
  pose proof (clean_lt false 0 t) as F. rewrite Forall_forall in F. apply list_elem_of_lookup_2 in E. specialize (F i E). lia.
Qed.

Lemma dropWhile_le {A} (p : A -> bool) s : (List.length (dropWhile p s) <= List.length s)%nat.
Proof. induction s as [|a s IH]; simpl; [done|]. destruct (p a); simpl; lia. Qed.

Lemma trimmed_le t : (List.length (stripTrailingPunctuation t) <= List.length t)%nat.
Proof. unfold stripTrailingPunctuation. rewrite List.length_rev. etransitivity; [apply dropWhile_le|]. by rewrite List.length_rev. Qed.

Lemma folded_length t : List.length (foldForMatching t) = List.length t.
Proof. unfold foldForMatching, foldTypography. by rewrite !List.length_map. Qed.

(** ** The pieces of a text make it up *)

Lemma tokensFrom_concat b cur t : List.concat (tokensFrom b cur t) = cur ++ t.
Proof.
  revert b cur. induction t as [|r t IH]; intros b cur; simpl.
  - destruct b; simpl; by rewrite ?app_nil_r.
  - destruct (Bool.eqb _ _); simpl; rewrite IH; by rewrite <- ?app_assoc.
Qed.
Lemma tokenize_concat t : List.concat (tokenizeWS t) = t.
Proof. apply tokensFrom_concat. Qed.

Lemma runsFrom_concat spans tokens pos cls run : (cls = None -> run = []) ->
  List.concat (runsFrom spans tokens pos cls run) = run ++ List.concat tokens.
Proof.
  revert pos cls run. induction tokens as [|t tokens IH]; intros pos cls run Hr; simpl.
  - destruct cls; simpl; [by rewrite !app_nil_r|]. by rewrite Hr.
  - destruct t as [|r t]; [by apply IH|]. destruct cls as [c|].
    + destruct (Bool.eqb _ _); [rewrite IH by done; by rewrite <- app_assoc|]. simpl. by rewrite IH.
    + rewrite IH by done. by rewrite Hr.
Qed.
Lemma splitMarkupRuns_concat t : List.concat (splitMarkupRuns t) = t.
Proof.
  unfold splitMarkupRuns. destruct (markupRuneSpans t); [destruct t; simpl; by rewrite ?app_nil_r|].
  rewrite runsFrom_concat by done. apply tokenize_concat.
Qed.

End Tables.
End WordText.
