(* ===== verification/SegmentMap.v ===== *)
(** * Where the synthesizer is

    The segment map of [src/utils/context/segmentmap.go]: three versions of one
    utterance (what was spoken, what is displayed, what the model wrote) kept in step
    by the words the synthesizer reports.

    [planHops] offers a word to one segment after another and [consumeWord] moves the
    cursors; both are functions of the map.  A slice of runes is [firstn] and [skipn]:
    that none is out of range is [ok] below, which every word keeps. *)

From S2P Require Import Prelude Text Strings SeqMatcher WordText.
Import WordText.

Module SegmentMap.

Record textSegment := mkSegment { origRunes : text; ttsRunes : text; origStart : nat; origEnd : nat }.

Section Tables.
Context `{Unicode}.

Definition isTransformed (s : textSegment) : bool :=
  negb (bool_decide (ttsRunes s = stripCompleteMarkup (ttsRunes s)))
  || negb (bool_decide (alnumOnly (origRunes s) = alnumOnly (ttsRunes s)))
  || negb (Nat.eqb (List.length (Fields (origRunes s))) (List.length (Fields (ttsRunes s)))).

Definition originalAlnumCount (s : textSegment) : nat := List.length (alnumOnly (origRunes s)).

(** ** Hops *)

Inductive hop := Placed (segChars : nat) | Crosses (wordChars : nat) | Exhausted | NoMatch (segChars : nat).

Definition wordVariants (word : text) : list text :=
  let trimmed := stripTrailingPunctuation word in
  if bool_decide (trimmed = word) then [word] else [word; trimmed].

(** The first answer of the candidates, for one variant. *)
Fixpoint tryCands (boundary : bool) (word : text) (cs : list (text * nat)) : option hop :=
  match cs with
  | [] => None
  | (c, offset) :: cs =>
    if HasPrefix c word then
      let landsMidWord := boundary && match c !! List.length word with Some r => isAlnum r | None => false end in
      if landsMidWord then tryCands boundary word cs else Some (Placed (offset + List.length word))
    else if negb (bool_decide (c = [])) && HasPrefix word c then Some (Crosses (List.length c))
    else tryCands boundary word cs
  end.

Fixpoint tryVariants (boundary : bool) (cs : list (text * nat)) (ws : list text) : option hop :=
  match ws with
  | [] => None
  | [] :: ws => tryVariants boundary cs ws
  | w :: ws => match tryCands boundary w cs with Some h => Some h | None => tryVariants boundary cs ws end
  end.
Definition literalHop (cs : list (text * nat)) (remainingWord : text) (boundary : bool) : option hop :=
  tryVariants boundary cs (wordVariants remainingWord).

Fixpoint leadingNonAlnumLen (t : text) (stopAtMarkup : bool) : nat :=
  match t with
  | [] => 0
  | r :: t => if isAlnum r || (stopAtMarkup && (r =? 60)%Z) then 0 else S (leadingNonAlnumLen t stopAtMarkup)
  end.

Definition matchCandidates (rest : text) : list (text * nat) :=
  let leadWs := List.length rest - List.length (leftTrimSpace rest) in
  let leadNonAlnum := leadingNonAlnumLen rest true in
  let offsets := 0 :: (if Nat.eqb leadWs 0 then [] else [leadWs])
                   ++ (if Nat.eqb leadNonAlnum 0 || Nat.eqb leadNonAlnum leadWs then [] else [leadNonAlnum]) in
  List.map (fun o => (List.skipn o rest, o)) offsets.

Definition foldedHop (cs : list (text * nat)) (remainingWord : text) : option hop :=
  literalHop (List.map (fun '(c, o) => (foldForMatching c, o)) cs) (foldForMatching remainingWord) true.

Definition markupHop (rest remainingWord : text) : option hop :=
  let stripped := leftTrimSpace rest in
  let leadWs := List.length rest - List.length stripped in
  let haystack := stripMarkup stripped in
  match List.find (fun c => negb (bool_decide (c = [])) && HasPrefix haystack c) (wordVariants (stripMarkup remainingWord)) with
  | Some c => Some (Placed (leadWs + rawLenForCleanChars stripped (List.length c)))
  | None => None
  end.

Definition classifyHop (rest remainingWord : text) : hop :=
  let cs := matchCandidates rest in
  match literalHop cs remainingWord false with
  | Some h => h
  | None =>
    match foldedHop cs remainingWord with
    | Some h => h
    | None =>
      match markupHop rest remainingWord with
      | Some h => h
      | None => if hasAlnum rest then NoMatch (leadingNonAlnumLen rest false) else Exhausted
      end
    end
  end.

(** ** The map *)

Record TextSegmentMap := mkMap {
  ttsText : text; origText : text; llmText : text;
  segments : list textSegment;
  segIdx : nat; segRawPos : nat;
  userFacingPos : nat; llmPos : nat;
  lastCompleted : option textSegment;
  lastOverflow : text;
  lastLeadingDuplicate : nat
}.
#[export] Instance eta_TextSegmentMap : Eta TextSegmentMap := fun m =>
  mkMap (ttsText m) (origText m) (llmText m) (segments m) (segIdx m) (segRawPos m) (userFacingPos m) (llmPos m)
    (lastCompleted m) (lastOverflow m) (lastLeadingDuplicate m).

(** The parts of one operation of the alignment, original and spoken. *)
Definition partsOf (orig tts : list text) (c : SeqMatcher.opcode) : list (text * text) :=
  let o := List.concat (SeqMatcher.slice orig (SeqMatcher.i1 c) (SeqMatcher.i2 c)) in
  let t := List.concat (SeqMatcher.slice tts (SeqMatcher.j1 c) (SeqMatcher.j2 c)) in
  match SeqMatcher.op c with
  | SeqMatcher.equal => List.map (fun run => (run, run)) (splitMarkupRuns o)
  | _ => [(o, t)]
  end.

Fixpoint layOut (parts : list (text * text)) (origPos : nat) : list textSegment :=
  match parts with
  | [] => []
  | (o, t) :: parts => mkSegment o t origPos (origPos + List.length o) :: layOut parts (origPos + List.length o)
  end.

Definition buildSegments (tts orig : text) : list textSegment :=
  let os := tokenizeWS orig in let ts := tokenizeWS tts in
  match SeqMatcher.getOpcodes os ts with
  | Some codes => layOut (List.concat (List.map (partsOf os ts) codes)) 0
  | None => []
  end.

Definition NewTextSegmentMap (tts orig llm : text) : TextSegmentMap :=
  mkMap tts orig (match llm with [] => orig | _ => llm end) (buildSegments tts orig) 0 0 0 0 None [] 0.

Definition Reset (m : TextSegmentMap) : TextSegmentMap :=
  m <| segIdx := 0 |> <| segRawPos := 0 |> <| userFacingPos := 0 |> <| llmPos := 0 |>
    <| lastCompleted := None |> <| lastOverflow := [] |> <| lastLeadingDuplicate := 0 |>.

(** ** Moving the cursors *)

Definition finishSegment (seg : textSegment) (m : TextSegmentMap) : TextSegmentMap :=
  m <| lastCompleted := Some seg |> <| segIdx ::= S |> <| segRawPos := 0 |>.

Definition commitTransformedSpan (seg : textSegment) (m : TextSegmentMap) : TextSegmentMap :=
  m <| userFacingPos := origEnd seg |> <| llmPos := advanceByAlnums (llmText m) (llmPos m) (originalAlnumCount seg) |>.

Definition spokenPart (seg : textSegment) (from to : nat) : text := List.firstn (to - from) (List.skipn from (ttsRunes seg)).

Definition keepDerivedCursorsInPace (seg : textSegment) (newPos : nat) (m : TextSegmentMap) : TextSegmentMap :=
  let nAlnum := List.length (alnumOnly (spokenPart seg (segRawPos m) newPos)) in
  m <| userFacingPos := if 0 <? nAlnum then advanceByAlnums (origText m) (userFacingPos m) nAlnum
                        else origStart seg + rtrimLen (List.firstn newPos (ttsRunes seg)) |>
    <| llmPos := advanceByAlnums (llmText m) (llmPos m) nAlnum |>.

Definition advanceCursorsTo (seg : textSegment) (newPos : nat) (m : TextSegmentMap) : TextSegmentMap :=
  let newPos := if isTransformed seg && negb (hasAlnum (List.skipn newPos (ttsRunes seg))) then List.length (ttsRunes seg) else newPos in
  let m := if isTransformed seg then m else keepDerivedCursorsInPace seg newPos m in
  let m := m <| segRawPos := newPos |> in
  if List.length (ttsRunes seg) <=? newPos
  then finishSegment seg (if isTransformed seg then commitTransformedSpan seg m else m)
  else m.

(** The walk of [planHops] over the segments from the current one. *)
Fixpoint planFrom (segs : list textSegment) (rawPos : nat) (remaining : text) : list hop * text :=
  match remaining, segs with
  | [], _ => ([], remaining)
  | _, [] => ([], remaining)
  | _, seg :: segs =>
    let h := classifyHop (List.skipn rawPos (ttsRunes seg)) remaining in
    match h with
    | Placed _ | NoMatch _ => ([h], [])
    | Crosses k => let '(hops, rest) := planFrom segs 0 (runeSliceFrom remaining k) in (h :: hops, rest)
    | Exhausted => let '(hops, rest) := planFrom segs 0 remaining in (h :: hops, rest)
    end
  end.
Definition planHops (m : TextSegmentMap) (word : text) : list hop * text :=
  planFrom (List.skipn (segIdx m) (segments m)) (segRawPos m) word.

Definition doHop (m : TextSegmentMap) (h : hop) : TextSegmentMap :=
  match segments m !! segIdx m with
  | None => m
  | Some seg =>
    match h with
    | NoMatch k => m <| segRawPos ::= fun p => p + k |>
    | Placed k => advanceCursorsTo seg (segRawPos m + k) m
    | _ => advanceCursorsTo seg (List.length (ttsRunes seg)) m
    end
  end.

Definition consumeWord (word : text) (m : TextSegmentMap) : TextSegmentMap :=
  let '(hops, overflow) := planHops m word in
  let m := fold_left doHop hops m in
  match overflow with [] => m | _ => m <| lastOverflow := overflow |> end.

Definition leadingDuplicateLen (m : TextSegmentMap) (word : text) : nat :=
  let rest := dropWhile (fun r => IsSpace r || isPunct r) word in
  let i := List.length word - List.length rest in
  match rest with
  | [] => 0
  | _ =>
    let mark := trimSpace (List.firstn i word) in
    let n := List.length mark in
    if Nat.eqb n 0 || (llmPos m <? n) then 0
    else if bool_decide (List.firstn n (List.skipn (llmPos m - n) (llmText m)) = mark) then i else 0
  end.

Definition AdvanceWord (word : text) (m : TextSegmentMap) : TextSegmentMap :=
  let m := m <| lastCompleted := None |> <| lastOverflow := [] |> <| lastLeadingDuplicate := 0 |> in
  match word with
  | [] => m
  | _ => consumeWord word (m <| lastLeadingDuplicate := leadingDuplicateLen m word |>)
  end.

(** ** Asking *)

Definition RawPos (m : TextSegmentMap) : nat :=
  list_sum (List.map (fun s => List.length (ttsRunes s)) (List.firstn (segIdx m) (segments m)))
  + (if segIdx m <? List.length (segments m) then segRawPos m else 0).

Definition canConsumeWord (m : TextSegmentMap) (word : text) : bool :=
  (segIdx m <? List.length (segments m)) &&
  match List.last (fst (planHops m word)) Exhausted with NoMatch _ => false | _ => true end.

(** How far back [symbolWordBelongs] starts to look. *)
Definition searchStart (m : TextSegmentMap) : nat :=
  let back := List.rev (List.firstn (RawPos m) (ttsText m)) in
  List.length (dropWhile (fun r => negb (isAlnum r || IsSpace r || (r =? 62)%Z)) back).

Definition symbolWordBelongs (m : TextSegmentMap) (word : text) : bool :=
  if Contains (List.skipn (searchStart m) (ttsText m)) word then true
  else if List.length (segments m) <=? segIdx m then false
  else match leftTrimSpace (List.skipn (RawPos m) (ttsText m)) with r :: _ => negb (isAlnum r) | [] => false end.

Definition WordBelongsCurrentSegment (m : TextSegmentMap) (word : text) : bool :=
  match word with
  | [] => true
  | _ => if canConsumeWord m word then true else if hasAlnum word then false else symbolWordBelongs m word
  end.

Definition pendingSeparatedPunctuation (remaining : text) : bool :=
  match stripCompleteMarkup remaining with
  | [] => false
  | (r :: _) as sm => IsSpace r && match trimSpace sm with [] => false | c :: _ => isPunct c end
  end.

Definition IsComplete (m : TextSegmentMap) : bool :=
  match List.skipn (segIdx m) (segments m) with
  | [] => true
  | seg :: later =>
    let rem := List.skipn (segRawPos m) (ttsRunes seg) in
    negb (hasAlnum rem) && negb (pendingSeparatedPunctuation rem) && forallb (fun s => negb (hasAlnum (ttsRunes s))) later
  end.

Definition InTransformedSegment (m : TextSegmentMap) : bool :=
  match segments m !! segIdx m with Some seg => isTransformed seg && (0 <? segRawPos m) | None => false end.

Definition LastCompletedSegment (m : TextSegmentMap) : option text := origRunes <$> lastCompleted m.

(** ** A hop stays within the segment and the word *)

Definition fits (rest word : text) (h : hop) : Prop :=
  match h with
  | Placed k | NoMatch k => k <= List.length rest
  | Crosses k => k <= List.length word
  | Exhausted => True
  end.

Lemma tryCands_fits boundary word cs n h : Forall (fun co => snd co + List.length (fst co) <= n) cs ->
  tryCands boundary word cs = Some h ->
  match h with Placed k => k <= n | Crosses k => k <= List.length word | _ => False end.
Proof.
  induction cs as [|[c o] cs IH]; intros F; simpl; [done|]. apply Forall_cons in F as [Fc F]. simpl in Fc.
  destruct (HasPrefix c word) eqn:E1.
  - apply HasPrefix_spec in E1 as [k ->]. destruct (_ && _); [by apply IH|]. intros [= <-]. rewrite length_app in Fc. lia.
  - destruct (_ && HasPrefix word c) eqn:E2; [|by apply IH]. intros [= <-].
    apply andb_prop in E2 as [_ [k ->]%HasPrefix_spec]. rewrite length_app. lia.
Qed.

Lemma literalHop_fits cs word boundary n h : Forall (fun co => snd co + List.length (fst co) <= n) cs ->
  literalHop cs word boundary = Some h ->
  match h with Placed k => k <= n | Crosses k => k <= List.length word | _ => False end.
Proof.
  intros F. unfold literalHop. assert (Forall (fun w => List.length w <= List.length word) (wordVariants word)) as Fw.
  { unfold wordVariants. case_match; repeat constructor; try done. apply trimmed_le. }
  induction Fw as [|w ws Hw Fw IH]; simpl; [done|]. destruct w as [|r w]; [exact IH|].
  destruct (tryCands boundary (r :: w) cs) as [h0|] eqn:E; [|exact IH]. intros [= <-].
  pose proof (tryCands_fits _ _ _ _ _ F E) as Hf. destruct h0; try done. lia.
Qed.

Lemma leadingNonAlnum_le t b : leadingNonAlnumLen t b <= List.length t.
Proof. induction t as [|r t IH]; simpl; [done|]. destruct (_ || _); lia. Qed.

Lemma candidates_within rest : Forall (fun co => snd co + List.length (fst co) <= List.length rest) (matchCandidates rest).
Proof.
  unfold matchCandidates. pose proof (dropWhile_le IsSpace rest) as H1. pose proof (leadingNonAlnum_le rest true) as H2.
  apply Forall_forall. intros [c o] (x & [= -> ->] & Hin)%list_elem_of_fmap. simpl. rewrite List.length_skipn.
  assert (x <= List.length rest); [|lia]. revert Hin. unfold leftTrimSpace.
  repeat case_match; rewrite ?elem_of_cons, ?elem_of_app; intros Hin; rewrite ?elem_of_cons, ?elem_of_nil in Hin; intuition lia.
Qed.

Lemma classifyHop_fits rest word : fits rest word (classifyHop rest word).
Proof.
  unfold classifyHop. pose proof (candidates_within rest) as F.
  destruct (literalHop _ word false) as [h|] eqn:E1; [pose proof (literalHop_fits _ _ _ _ _ F E1); by destruct h|].
  destruct (foldedHop _ word) as [h|] eqn:E2.
  { unfold foldedHop in E2. apply (literalHop_fits _ _ _ (List.length rest)) in E2.
    - rewrite folded_length in E2. by destruct h.
    - rewrite Forall_forall in F |- *. intros [c o] ([c0 o0] & [= -> ->] & Hin)%list_elem_of_fmap. simpl.
      rewrite folded_length. apply (F _ Hin). }
  destruct (markupHop rest word) as [h|] eqn:E3.
  { unfold markupHop in E3. destruct (List.find _ _) as [c|]; [|done]. injection E3 as <-. simpl.
    pose proof (rawLen_le (leftTrimSpace rest) (List.length c)). pose proof (dropWhile_le IsSpace rest). unfold leftTrimSpace in *. lia. }
  destruct (hasAlnum rest); [apply leadingNonAlnum_le|done].
Qed.

(** ** The segments tile the texts *)

(** Each segment starts where the one before it ends. *)
Fixpoint tiling (segs : list textSegment) (p : nat) : Prop :=
  match segs with
  | [] => True
  | s :: segs => origStart s = p /\ origEnd s = p + List.length (origRunes s) /\ tiling segs (origEnd s)
  end.

Lemma layOut_spec parts p : let segs := layOut parts p in
  List.map origRunes segs = List.map fst parts /\ List.map ttsRunes segs = List.map snd parts /\ tiling segs p.
Proof.
  revert p. induction parts as [|[o t] parts IH]; intros p; [done|]. simpl.
  destruct (IH (p + List.length o)) as (H1 & H2 & H3). rewrite H1, H2. done.
Qed.

Lemma partsOf_concat os ts c : SeqMatcher.honest os ts c ->
  List.concat (List.map fst (partsOf os ts c)) = List.concat (SeqMatcher.slice os (SeqMatcher.i1 c) (SeqMatcher.i2 c))
  /\ List.concat (List.map snd (partsOf os ts c)) = List.concat (SeqMatcher.slice ts (SeqMatcher.j1 c) (SeqMatcher.j2 c)).
Proof.
  unfold SeqMatcher.honest, partsOf. destruct (SeqMatcher.op c); simpl; rewrite ?app_nil_r; try done.
  intros [_ E]. rewrite !List.map_map. simpl. rewrite !List.map_id, !splitMarkupRuns_concat. by rewrite E.
Qed.

Lemma parts_concat os ts codes : Forall (SeqMatcher.honest os ts) codes ->
  let parts := List.concat (List.map (partsOf os ts) codes) in
  List.concat (List.map fst parts) = List.concat (List.concat (List.map (fun c => SeqMatcher.slice os (SeqMatcher.i1 c) (SeqMatcher.i2 c)) codes))
  /\ List.concat (List.map snd parts) = List.concat (List.concat (List.map (fun c => SeqMatcher.slice ts (SeqMatcher.j1 c) (SeqMatcher.j2 c)) codes)).
Proof.
  induction 1 as [|c codes Hc _ [IH1 IH2]]; simpl; [done|]. rewrite !List.map_app, !List.concat_app.
  destruct (partsOf_concat os ts c Hc) as [-> ->]. simpl in *. by rewrite IH1, IH2.
Qed.

Lemma buildSegments_tile tts orig : let segs := buildSegments tts orig in
  List.concat (List.map ttsRunes segs) = tts /\ List.concat (List.map origRunes segs) = orig /\ tiling segs 0.
Proof.
  unfold buildSegments. destruct (SeqMatcher.opcodes_align (tokenizeWS orig) (tokenizeWS tts)) as (codes & -> & _ & Hh & Ha & Hb).
  destruct (layOut_spec (List.concat (List.map (partsOf (tokenizeWS orig) (tokenizeWS tts)) codes)) 0) as (-> & -> & Ht).
  destruct (parts_concat _ _ _ Hh) as [-> ->]. rewrite Ha, Hb, !tokenize_concat. done.
Qed.

(** ** The cursors stay in their texts and never go back *)

Record ok (m : TextSegmentMap) : Prop := mkOk {
  ok_idx : segIdx m <= List.length (segments m);
  ok_raw : forall s, segments m !! segIdx m = Some s -> segRawPos m <= List.length (ttsRunes s);
  ok_llm : llmPos m <= List.length (llmText m);
  ok_tts : List.concat (List.map ttsRunes (segments m)) = ttsText m
}.

(** The part of the map that no word changes. *)
Definition fixed (m : TextSegmentMap) : text * text * text * list textSegment := (ttsText m, origText m, llmText m, segments m).

Definition onward (m m' : TextSegmentMap) : Prop := ok m' /\ fixed m' = fixed m /\ RawPos m <= RawPos m' /\ llmPos m <= llmPos m'.

Lemma onward_refl m : ok m -> onward m m.
Proof. done. Qed.
Lemma onward_trans m1 m2 m3 : onward m1 m2 -> onward m2 m3 -> onward m1 m3.
Proof. intros (H1 & H2 & H3 & H4) (H5 & H6 & H7 & H8). split_and!; [done|congruence|lia|lia]. Qed.

Lemma take_S_sum (segs : list textSegment) i s : segs !! i = Some s ->
  list_sum (List.map (fun s => List.length (ttsRunes s)) (List.firstn (S i) segs))
  = list_sum (List.map (fun s => List.length (ttsRunes s)) (List.firstn i segs)) + List.length (ttsRunes s).
Proof.
  revert i. induction segs as [|s0 segs IH]; intros [|i] Hs; try done.
  - injection Hs as ->. simpl. lia.
  - simpl in Hs. cbn [List.firstn List.map list_sum fold_right]. specialize (IH i Hs). unfold list_sum in IH. cbn [List.firstn List.map] in *.
    rewrite IH. lia.
Qed.

Lemma RawPos_at m s : segments m !! segIdx m = Some s ->
  RawPos m = list_sum (List.map (fun s => List.length (ttsRunes s)) (List.firstn (segIdx m) (segments m))) + segRawPos m.
Proof. intros Hs%lookup_lt_Some. unfold RawPos. by rewrite (proj2 (Nat.ltb_lt _ _) Hs). Qed.

Lemma list_sum_firstn (segs : list textSegment) i :
  list_sum (List.map (fun s => List.length (ttsRunes s)) (List.firstn i segs)) <= List.length (List.concat (List.map ttsRunes segs)).
Proof.
  revert i. unfold list_sum. induction segs as [|s segs IH]; intros [|i]; cbn; try lia. rewrite length_app. specialize (IH i). cbn in IH. lia.
Qed.

Lemma RawPos_le m : ok m -> RawPos m <= List.length (ttsText m).
Proof.
  intros [H1 H2 _ <-]. unfold RawPos. destruct (segIdx m <? _) eqn:E.
  - apply Nat.ltb_lt in E. destruct (lookup_lt_is_Some_2 _ _ E) as [s Hs]. specialize (H2 s Hs).
    pose proof (list_sum_firstn (segments m) (S (segIdx m))) as Hl. rewrite (take_S_sum _ _ _ Hs) in Hl. lia.
  - rewrite Nat.add_0_r. apply list_sum_firstn.
Qed.

(** The cursors into the other two texts, moved. *)
Lemma derived_ok m seg newPos : llmPos m <= List.length (llmText m) ->
  let m' := if isTransformed seg then m else keepDerivedCursorsInPace seg newPos m in
  fixed m' = fixed m /\ segIdx m' = segIdx m /\ segRawPos m' = segRawPos m /\ llmPos m <= llmPos m' <= List.length (llmText m).
Proof.
  intros Hl. destruct (isTransformed seg); [done|]. unfold keepDerivedCursorsInPace. simpl. split_and!; try done; by apply advance_range.
Qed.

Lemma finish_onward m m1 seg p : ok m -> segments m !! segIdx m = Some seg -> fixed m1 = fixed m -> segIdx m1 = segIdx m ->
  llmPos m <= llmPos m1 <= List.length (llmText m) ->
  (p = List.length (ttsRunes seg) -> onward m (finishSegment seg m1))
  /\ (segRawPos m <= p <= List.length (ttsRunes seg) -> onward m (m1 <| segRawPos := p |>)).
Proof.
  intros [K1 K2 K3 K4] Hs Hf Hi Hl. pose proof (lookup_lt_Some _ _ _ Hs) as Hlt. specialize (K2 _ Hs).
  unfold fixed in Hf. injection Hf as F1 F2 F3 F4. split.
  - intros _. split_and!; [|unfold fixed; simpl; congruence| |simpl; lia].
    + constructor; simpl; rewrite ?F1, ?F3, ?F4, ?Hi; try lia; done.
    + rewrite (RawPos_at m seg Hs). unfold RawPos. simpl. rewrite Hi, F4. rewrite (take_S_sum _ _ _ Hs). destruct (_ <? _); simpl; lia.
  - intros Hp. split_and!; [|unfold fixed; simpl; congruence| |simpl; lia].
    + constructor; simpl; rewrite ?F1, ?F3, ?F4, ?Hi; try lia; try done. intros s Hs'. rewrite Hs in Hs'. injection Hs' as <-. lia.
    + rewrite (RawPos_at m seg Hs), (RawPos_at _ seg); simpl; rewrite Hi, F4; [lia|done].
Qed.

Lemma advanceCursorsTo_onward m seg newPos : ok m -> segments m !! segIdx m = Some seg ->
  segRawPos m <= newPos <= List.length (ttsRunes seg) ->
  let m' := advanceCursorsTo seg newPos m in onward m m'
  /\ (newPos = List.length (ttsRunes seg) -> segIdx m' = S (segIdx m) /\ segRawPos m' = 0).
Proof.
  intros Hok Hs Hp. unfold advanceCursorsTo.
  set (np := if isTransformed seg && _ then _ else newPos). assert (segRawPos m <= np <= List.length (ttsRunes seg)) as Hnp.
  { unfold np. destruct (_ && _); lia. }
  assert (newPos = List.length (ttsRunes seg) -> np = List.length (ttsRunes seg)) as Hend.
  { unfold np. by destruct (_ && _). }
  destruct (derived_ok m seg np (ok_llm _ Hok)) as (D1 & D2 & D3 & D4).
  set (m1 := if isTransformed seg then m else keepDerivedCursorsInPace seg np m) in *. clearbody m1 np.
  destruct (List.length (ttsRunes seg) <=? np) eqn:E.
  - apply Nat.leb_le in E. set (m2 := m1 <| segRawPos := np |>).
    set (m3 := if isTransformed seg then commitTransformedSpan seg m2 else m2).
    assert (fixed m3 = fixed m /\ segIdx m3 = segIdx m /\ llmPos m <= llmPos m3 <= List.length (llmText m)) as (E1 & E2 & E3).
    { unfold m3. destruct (isTransformed seg); [|done]. simpl. unfold fixed in D1. injection D1 as F1 F2 F3 F4. rewrite F3.
      pose proof (advance_range (llmText m) (llmPos m2) (originalAlnumCount seg)) as Ha. unfold m2 in *. simpl in *.
      split_and!; [unfold fixed; simpl; congruence|done|lia|lia]. }
    split; [apply (finish_onward m m3 seg np Hok Hs E1 E2 E3); lia|]. intros _. simpl. by rewrite E2.
  - apply Nat.leb_gt in E. split; [by apply (finish_onward m m1 seg np)|]. lia.
Qed.

Lemma doHop_onward m seg word h : ok m -> segments m !! segIdx m = Some seg ->
  fits (List.skipn (segRawPos m) (ttsRunes seg)) word h ->
  onward m (doHop m h) /\
  match h with Placed _ | NoMatch _ => True | _ => segIdx (doHop m h) = S (segIdx m) /\ segRawPos (doHop m h) = 0 end.
Proof.
  intros Hok Hs Hf. pose proof (ok_raw _ Hok _ Hs) as Hr. unfold doHop. rewrite Hs.
  destruct h as [k|k| |k]; simpl in Hf; rewrite ?List.length_skipn in Hf.
  - destruct (advanceCursorsTo_onward m seg (segRawPos m + k) Hok Hs) as [H1 _]; [lia|done].
  - destruct (advanceCursorsTo_onward m seg (List.length (ttsRunes seg)) Hok Hs) as [H1 H2]; [lia|]. auto.
  - destruct (advanceCursorsTo_onward m seg (List.length (ttsRunes seg)) Hok Hs) as [H1 H2]; [lia|]. auto.
  - split; [|done]. apply (finish_onward m m seg (segRawPos m + k) Hok Hs); try done; [|lia]. split; [done|apply (ok_llm _ Hok)].
Qed.

Lemma plan_onward segs m word : ok m -> List.skipn (segIdx m) (segments m) = segs ->
  onward m (fold_left doHop (fst (planFrom segs (segRawPos m) word)) m)
  /\ snd (planFrom segs (segRawPos m) word) `suffix_of` word.
Proof.
  revert m word. induction segs as [|seg segs IH]; intros m word Hok Hs.
  { destruct word; simpl; by split; [apply onward_refl|]. }
  assert (segments m !! segIdx m = Some seg /\ List.skipn (S (segIdx m)) (segments m) = segs) as [Hseg Htl].
  { split; [|by rewrite <- (List.skipn_skipn 1), Hs]. rewrite <- (Nat.add_0_r (segIdx m)), <- lookup_drop. by rewrite Hs. }
  destruct word as [|c word]; [by split; [apply onward_refl|]|]. cbn [planFrom].
  pose proof (classifyHop_fits (List.skipn (segRawPos m) (ttsRunes seg)) (c :: word)) as Hf.
  set (h := classifyHop _ _) in *. destruct (doHop_onward m seg _ h Hok Hseg Hf) as [H1 H2].
  assert (forall w, segIdx (doHop m h) = S (segIdx m) /\ segRawPos (doHop m h) = 0 ->
    onward m (fold_left doHop (fst (planFrom segs 0 w)) (doHop m h)) /\ snd (planFrom segs 0 w) `suffix_of` w) as Hrec.
  { intros w [I1 I2]. destruct (IH (doHop m h) w) as [H3 H4].
    - apply H1.
    - destruct H1 as (_ & F & _). unfold fixed in F. injection F as _ _ _ F4. by rewrite I1, F4.
    - rewrite I2 in *. split; [by eapply onward_trans|done]. }
  destruct h as [k|k| |k].
  - split; [exact H1|]. exists (c :: word). by rewrite app_nil_r.
  - destruct (Hrec (runeSliceFrom (c :: word) k) H2) as [H3 H4]. destruct (planFrom segs 0 _) as [hops rest]. split; [exact H3|].
    simpl in *. etransitivity; [exact H4|]. unfold runeSliceFrom. exists (List.firstn k (c :: word)). by rewrite List.firstn_skipn.
  - destruct (Hrec (c :: word) H2) as [H3 H4]. by destruct (planFrom segs 0 _) as [hops rest].
  - split; [exact H1|]. exists (c :: word). by rewrite app_nil_r.
Qed.

Lemma AdvanceWord_onward m word : ok m -> onward m (AdvanceWord word m) /\ lastOverflow (AdvanceWord word m) `suffix_of` word.
Proof.
  intros Hok. unfold AdvanceWord. set (m0 := m <| lastCompleted := None |> <| lastOverflow := [] |> <| lastLeadingDuplicate := 0 |>).
  assert (forall d, onward m (m0 <| lastLeadingDuplicate := d |>)) as Ho.
  { intros d. destruct Hok. split_and!; try done; by constructor. }
  destruct word as [|c word]; [split; [apply (Ho 0)|done]|]. set (m1 := m0 <| lastLeadingDuplicate := _ |>).
  unfold consumeWord, planHops. destruct (plan_onward (List.skipn (segIdx m1) (segments m1)) m1 (c :: word)) as [H1 H2]; [apply Ho|done|].
  assert (forall hops m, lastOverflow (fold_left doHop hops m) = lastOverflow m) as Hk.
  { intros hops. induction hops as [|h hops IH]; intros m2; [done|]. simpl. rewrite IH. unfold doHop.
    destruct (segments m2 !! segIdx m2); [|done]. destruct h; try done; unfold advanceCursorsTo; by repeat case_match. }
  assert (onward m (fold_left doHop (fst (planFrom (List.skipn (segIdx m1) (segments m1)) (segRawPos m1) (c :: word))) m1)) as H3.
  { eapply onward_trans; [apply Ho|exact H1]. }
  destruct (planFrom _ _ _) as [hops overflow]. simpl in H2, H3. destruct overflow as [|o overflow].
  - split; [done|]. rewrite Hk. simpl. apply suffix_nil.
  - split; [|done]. destruct H3 as ([K1 K2 K3 K4] & H5 & H6 & H7). by split_and!.
Qed.

Lemma New_ok tts orig llm : ok (NewTextSegmentMap tts orig llm).
Proof.
  constructor; simpl; try lia; try (intros; lia). apply buildSegments_tile.
Qed.

(** C26: Whatever the three texts and whatever words are reported, the segments tile the
    spoken and the displayed text, the cursors into the spoken text and into the
    model's stay in them and never go back, and what a word leaves over is its tail. *)
Theorem segment_map_sound tts orig llm ws word :
  let m := fold_left (fun m w => AdvanceWord w m) ws (NewTextSegmentMap tts orig llm) in
  let m' := AdvanceWord word m in
  (List.concat (List.map ttsRunes (segments m)) = tts /\ List.concat (List.map origRunes (segments m)) = orig /\ tiling (segments m) 0)
  /\ RawPos m <= RawPos m' <= List.length tts
  /\ llmPos m <= llmPos m' <= List.length (llmText m)
  /\ lastOverflow m' `suffix_of` word.
Proof.
  intros m m'. assert (onward (NewTextSegmentMap tts orig llm) m) as Ho.
  { unfold m. clear m m'. generalize (New_ok tts orig llm). generalize (NewTextSegmentMap tts orig llm). clear.
    induction ws as [|w ws IH]; intros m Hm; [by apply onward_refl|]. simpl. destruct (AdvanceWord_onward m w Hm) as [H1 _].
    eapply onward_trans; [exact H1|]. apply IH, H1. }
  destruct Ho as (Hok & Hf & _). unfold fixed in Hf. injection Hf as F1 F2 F3 F4. destruct (AdvanceWord_onward m word Hok) as [H1 H2].
  destruct H1 as (Hok' & Hf' & H3 & H4). unfold fixed in Hf'. injection Hf' as G1 G2 G3 G4. pose proof (RawPos_le _ Hok') as Hr.
  pose proof (ok_llm _ Hok') as Hl. fold m' in H2, H3, H4, Hr, Hl, G1, G2, G3, G4. rewrite G1, F1 in Hr. rewrite G3 in Hl.
  split_and!; try done; rewrite F4; apply buildSegments_tile.
Qed.

End Tables.
End SegmentMap.
