(* ===== verification/WordTracker.v ===== *)
(** * Whether a frame has been spoken

    The word tracker of one frame ([src/utils/context/tracker.go]), over the segment
    map of its texts: when its words have all been reported, and which part of what
    the model wrote each word stands for.

    A slice of runes out of range is a panic, [None]. *)

From S2P Require Import Prelude Text Strings SeqMatcher WordText SegmentMap.
Import WordText SegmentMap.

Module WordTracker.

(** [t[lo:hi]] *)
Definition slice (t : text) (lo hi : nat) : option text :=
  if (lo <=? hi) && (hi <=? List.length t) then Some (List.firstn (hi - lo) (List.skipn lo t)) else None.
Definition sliceUpTo (t : text) (hi : nat) : option text := slice t 0 hi.
Definition sliceFrom (t : text) (lo : nat) : option text := slice t lo (List.length t).

Record WordCompletionTracker := mkTracker {
  ttsRunes_ : text;
  userFacingRunes : text;
  userFacing : nat;
  hasLLM : bool;
  llmRunes : text;
  llm : nat;
  overflowWord : option text;
  llmConsumed : option text;
  frameWord : option text;
  forceCompleted : bool;
  segmentMap : TextSegmentMap
}.
#[export] Instance eta_WordCompletionTracker : Eta WordCompletionTracker := fun t =>
  mkTracker (ttsRunes_ t) (userFacingRunes t) (userFacing t) (hasLLM t) (llmRunes t) (llm t) (overflowWord t)
    (llmConsumed t) (frameWord t) (forceCompleted t) (segmentMap t).

Section Tables.
Context `{Unicode}.

Definition NewWordCompletionTracker (ttsText userFacingText llmText : text) : WordCompletionTracker :=
  let user := match userFacingText with [] => stripCompleteMarkup ttsText | _ => userFacingText end in
  mkTracker ttsText user 0 (match llmText with [] => false | _ => true end) llmText 0 None None None false
    (NewTextSegmentMap ttsText user llmText).

Definition IsComplete (t : WordCompletionTracker) : bool := forceCompleted t || SegmentMap.IsComplete (segmentMap t).
Definition WordBelongsHere (t : WordCompletionTracker) (word : text) : bool := WordBelongsCurrentSegment (segmentMap t) word.
Definition Suppress (t : WordCompletionTracker) : bool := InTransformedSegment (segmentMap t).

(** [forceComplete] *)
Definition forceComplete (word : text) (t : WordCompletionTracker) : option WordCompletionTracker :=
  rest ← sliceFrom (ttsRunes_ t) (RawPos (segmentMap t));
  let t := t <| frameWord := Some rest |> <| userFacing := List.length (userFacingRunes t) |> in
  t ← (if hasLLM t then
         rest ← sliceFrom (llmRunes t) (llm t);
         Some (t <| llmConsumed := Some rest |> <| llm := List.length (llmRunes t) |>)
       else Some t);
  Some (t <| forceCompleted := true |> <| overflowWord := Some word |>).

(** [recordLLMSpan] *)
Definition recordLLMSpan (word : text) (prevLLMPos : nat) (t : WordCompletionTracker) : option WordCompletionTracker :=
  if IsComplete t then
    rest ← sliceFrom (llmRunes t) prevLLMPos;
    Some (t <| llmConsumed := Some rest |> <| llm := List.length (llmRunes t) |>)
  else if InTransformedSegment (segmentMap t) then Some (t <| llmConsumed := None |>)
  else if Nat.eqb (llm t) prevLLMPos && match lastCompleted (segmentMap t) with None => true | Some _ => false end then
    let start := List.length (llmRunes t) - List.length (leftTrimSpace (List.skipn (llm t) (llmRunes t))) in
    let end_ := Nat.min (start + List.length word) (List.length (llmRunes t)) in
    span ← slice (llmRunes t) start end_;
    Some (t <| llmConsumed := Some span |> <| llm := end_ |>)
  else
    span ← slice (llmRunes t) prevLLMPos (llm t);
    Some (t <| llmConsumed := Some span |>).

(** [AddWord]: whether the frame is now fully spoken, and the tracker. *)
Definition AddWord (word : text) (t : WordCompletionTracker) : option (bool * WordCompletionTracker) :=
  let t := t <| overflowWord := None |> <| llmConsumed := None |> <| frameWord := None |> in
  if forceCompleted t || (List.length (ttsRunes_ t) <=? RawPos (segmentMap t)) then Some (true, t)
  else if negb (WordBelongsHere t word) then t ← forceComplete word t; Some (true, t)
  else
    let prevLLMPos := llm t in
    let t := t <| segmentMap ::= AdvanceWord word |> in
    let overflow := lastOverflow (segmentMap t) in
    let tail := match overflow with [] => List.length word | _ => List.length word - List.length overflow end in
    let t := match overflow with [] => t | _ => t <| overflowWord := Some overflow |> end in
    let head := Nat.min (if hasLLM t then lastLeadingDuplicate (segmentMap t) else 0) tail in
    w ← slice word head tail;
    let t := t <| frameWord := Some w |> <| userFacing := userFacingPos (segmentMap t) |> <| llm := llmPos (segmentMap t) |> in
    t ← (if hasLLM t then recordLLMSpan word prevLLMPos t else Some t);
    let complete := IsComplete t in
    Some (complete, if complete then t <| userFacing := List.length (userFacingRunes t) |> else t).

(** ** What it tells *)

Definition FrameWord (t : WordCompletionTracker) : option text := trimSpace <$> frameWord t.
Definition OverflowWord (t : WordCompletionTracker) : option text := trimSpace <$> overflowWord t.
Definition RawText (t : WordCompletionTracker) : option text :=
  match llmConsumed t with
  | None => None
  | Some s => match trimSpace s with [] => None | s => Some s end
  end.
Definition AccumulatedUserFacingText (t : WordCompletionTracker) : option text := sliceUpTo (userFacingRunes t) (userFacing t).
Definition RemainingUserFacingText (t : WordCompletionTracker) (strip : bool) : option text :=
  rest ← sliceFrom (userFacingRunes t) (userFacing t); Some (if strip then trimSpace rest else rest).
Definition AccumulatedTTSText (t : WordCompletionTracker) : option text := sliceUpTo (ttsRunes_ t) (RawPos (segmentMap t)).
Definition RemainingTTSText (t : WordCompletionTracker) (strip : bool) : option text :=
  rest ← sliceFrom (ttsRunes_ t) (RawPos (segmentMap t)); Some (if strip then trimSpace rest else rest).
Definition RemainingRawText (t : WordCompletionTracker) : option text :=
  trimSpace <$> (if hasLLM t then sliceFrom (llmRunes t) (llm t) else sliceFrom (userFacingRunes t) (userFacing t)).
Definition AccumulatedRawText (t : WordCompletionTracker) : option (option text) :=
  if hasLLM t then Some <$> sliceUpTo (llmRunes t) (llm t) else Some None.
Definition RemainingRawTextOnly (t : WordCompletionTracker) : option (option text) :=
  if hasLLM t then (fun s => Some (trimSpace s)) <$> sliceFrom (llmRunes t) (llm t) else Some None.

Definition Reset (t : WordCompletionTracker) : WordCompletionTracker :=
  t <| userFacing := 0 |> <| llm := 0 |> <| overflowWord := None |> <| llmConsumed := None |> <| frameWord := None |>
    <| forceCompleted := false |> <| segmentMap ::= SegmentMap.Reset |>.

(** The words of a synthesis, one after another: the text each stands for and whether
    the frame was then complete. *)
Fixpoint feed (ws : list text) (t : WordCompletionTracker) : option (list (option text * bool) * WordCompletionTracker) :=
  match ws with
  | [] => Some ([], t)
  | w :: ws =>
    '(complete, t) ← AddWord w t;
    '(told, t') ← feed ws t;
    Some ((RawText t, complete) :: told, t')
  end.

End Tables.

(** ** Three ways it goes wrong *)

Definition t_ (s : string) : text := Text.runes s.
Definition panics {A} (o : option A) : bool := match o with None => true | Some _ => false end.

(** Two words without a letter or digit in a row, set off by spaces, panic: the first
    moves the tracker's position ahead of the map's, and the second takes the span from
    the one to the other. *)
Theorem two_symbols_panic :
  let T := t_ "Great * * thanks" in
  panics (@feed ascii (Fields T) (NewWordCompletionTracker T T T)) = true.
Proof. vm_compute. reflexivity. Qed.

(** Where the two sides differ in punctuation only, a mark reported on its own moves the
    position in the displayed text by the length of the spoken one: past its end, where
    asking for the rest panics. *)
Theorem displayed_position_overruns :
  exists complete t, (t1 ← @AddWord ascii (t_ "A") (NewWordCompletionTracker (t_ "A...... b") (t_ "A!! b") (t_ "A!! b"));
    @AddWord ascii (t_ "......") (snd t1)) = Some (complete, t)
  /\ (List.length (userFacingRunes t) < userFacing t)%nat /\ RemainingUserFacingText t false = None.
Proof. eexists _, _. split; [vm_compute; reflexivity|]. vm_compute. auto with arith. Qed.

(** An opening quote is taken for the closing one before it and dropped from the frame. *)
Theorem opening_quote_dropped :
  let T := t_ "say 'yes' 'no' now" in
  exists told t, @feed ascii (List.firstn 3 (Fields T)) (NewWordCompletionTracker T T T) = Some (told, t)
  /\ FrameWord t = Some (t_ "no'").
Proof. eexists _, _. split; vm_compute; reflexivity. Qed.

End WordTracker.
