(* ===== verification/WordFacts.v ===== *)
(** * The words of a plain text

    What the tracker does with a text nothing rewrote: spoken, displayed and written
    alike, without tags, its words reported one after another. *)

From S2P Require Import Prelude Float64 Text Strings SeqMatcher WordText SegmentMap WordTracker.
Import WordText SegmentMap WordTracker.

Module WordFacts.

(** What is used of the Unicode tables. *)
Class UnicodeLaws (U : Unicode) : Prop := {
  alnum_not_space : forall r, isAlnum r = true -> IsSpace r = false;
  lt_not_alnum : isAlnum 60 = false
}.

#[export] Instance ascii_laws : UnicodeLaws ascii.
Proof.
  split; [|reflexivity]. intros r. unfold isAlnum, IsLetter, IsNumber, ascii, isUpper, IsSpace. intros Hr. lia.
Qed.

Section Plain.
Context {U : Unicode} {L : UnicodeLaws U}.

Definition noTags (t : text) : Prop := Forall (fun r => r <> 60%Z) t.
Definition countAlnum (t : text) : nat := List.length (List.filter isAlnum t).
Definition spaces (t : text) : Prop := Forall (fun r => IsSpace r = true) t.
Definition nonspaces (t : text) : Prop := Forall (fun r => IsSpace r = false) t.
(** [r] can follow a word. *)
Definition stops (r : text) : Prop := match r with [] => True | c :: _ => IsSpace c = true end.

(** ** Without tags *)

Lemma tagLen_plain t : noTags t -> tagLen t = None.
Proof.
  intros Hp. destruct t as [|c [|c2 rest]]; try done. apply Forall_cons in Hp as [Hc _]. simpl.
  by assert ((c =? 60)%Z = false) as -> by lia.
Qed.

Lemma strip_plain t : noTags t -> stripCompleteMarkup t = t.
Proof.
  unfold stripCompleteMarkup. induction t as [|c t IH]; [done|]. intros Hp. cbn [List.length stripFrom].
  rewrite tagLen_plain by done. apply Forall_cons in Hp as [_ Hp]. by rewrite IH.
Qed.

Lemma alnumOnly_length t : noTags t -> List.length (alnumOnly t) = countAlnum t.
Proof. intros Hp. unfold alnumOnly, countAlnum. by rewrite List.length_map, strip_plain. Qed.

Lemma hasAlnum_plain t : noTags t -> hasAlnum t = (0 <? countAlnum t).
Proof.
  intros Hp. pose proof (alnumOnly_length t Hp) as Hl. unfold hasAlnum. by destruct (alnumOnly t); rewrite <- Hl.
Qed.

Lemma countAlnum_app a b : countAlnum (a ++ b) = countAlnum a + countAlnum b.
Proof. unfold countAlnum. by rewrite List.filter_app, length_app. Qed.

Lemma countAlnum_0 t : Forall (fun r => isAlnum r = false) t -> countAlnum t = 0.
Proof. unfold countAlnum. induction 1 as [|r t Hr _ IH]; simpl; [done|]. by rewrite Hr. Qed.

Lemma countAlnum_0_inv t : countAlnum t = 0 -> Forall (fun r => isAlnum r = false) t.
Proof. unfold countAlnum. induction t as [|r t IH]; simpl; [by constructor|]. destruct (isAlnum r) eqn:E; simpl; [done|]. constructor; auto. Qed.

Lemma spaces_count t : spaces t -> countAlnum t = 0.
Proof.
  intros Hs. apply countAlnum_0. eapply Forall_impl; [exact Hs|]. intros r Hr. destruct (isAlnum r) eqn:E; [|done].
  apply alnum_not_space in E. simpl in *. congruence.
Qed.

Lemma spans_plain t : noTags t -> markupRuneSpans t = [].
Proof.
  unfold markupRuneSpans. generalize 0. induction t as [|c t IH]; intros p Hp; [done|]. cbn [List.length tagsFrom].
  rewrite tagLen_plain by done. apply Forall_cons in Hp as [_ Hp]. by apply IH.
Qed.

Definition whole (t : text) : textSegment := mkSegment t t 0 (List.length t).

Lemma build_plain t : noTags t -> t <> [] -> buildSegments t t = [whole t].
Proof.
  intros Hp Hne. unfold buildSegments. rewrite SeqMatcher.opcodes_same.
  - assert (SeqMatcher.slice (tokenizeWS t) 0 (List.length (tokenizeWS t)) = tokenizeWS t) as Hs.
    { unfold SeqMatcher.slice. rewrite Nat.sub_0_r. apply List.firstn_all. }
    cbn [List.map List.concat]. unfold partsOf. cbn [SeqMatcher.op SeqMatcher.i1 SeqMatcher.i2 SeqMatcher.j1 SeqMatcher.j2].
    rewrite Hs, tokenize_concat. unfold splitMarkupRuns. rewrite spans_plain by done. by destruct t.
  - unfold tokenizeWS. generalize false, (@nil rune). induction t as [|c t IH]; [done|]. intros b cur. simpl.
    destruct (Bool.eqb _ _); [|done]. destruct t as [|c2 t]; [by destruct b|]. apply IH; [by inversion Hp|done].
Qed.

Lemma whole_plain t : noTags t -> isTransformed (whole t) = false.
Proof. intros Hp. unfold isTransformed. simpl. rewrite strip_plain, !bool_decide_true, Nat.eqb_refl by done. done. Qed.

(** ** The cursors over a word *)

Lemma pastAlnums_plain fuel y z r : noTags y -> isAlnum z = true -> List.length y < fuel ->
  pastAlnums fuel (y ++ z :: r) (S (countAlnum y)) = S (List.length y).
Proof.
  revert fuel. induction y as [|c y IH]; intros [|fuel] Hp Hz Hf; simpl in Hf; try lia.
  - simpl. assert ((z =? 60)%Z = false) as ->.
    { destruct (z =? 60)%Z eqn:E; [|done]. apply Z.eqb_eq in E as ->. pose proof lt_not_alnum. congruence. }
    rewrite Hz. by destruct fuel.
  - apply Forall_cons in Hp as [Hc Hp]. cbn [app pastAlnums]. assert ((c =? 60)%Z = false) as -> by lia.
    unfold countAlnum in *. cbn [List.filter]. destruct (isAlnum c); cbn [List.length]; rewrite IH by (try done; lia); lia.
Qed.

Lemma pastMarks_plain m r : Forall (fun c => isAlnum c = false) m -> nonspaces m -> noTags m -> stops r ->
  pastMarks (m ++ r) = List.length m.
Proof.
  induction m as [|c m IH]; intros H1 H2 H3 Hr.
  - destruct r as [|c r]; [done|]. simpl in *. by rewrite Hr, orb_true_r.
  - apply Forall_cons in H1 as [E1 H1]. apply Forall_cons in H2 as [E2 H2]. apply Forall_cons in H3 as [E3 H3]. simpl.
    rewrite E1, E2. assert ((c =? 60)%Z = false) as -> by lia. simpl. by rewrite IH.
Qed.

Lemma last_alnum w : 0 < countAlnum w -> exists y z m, w = y ++ z :: m /\ isAlnum z = true /\ Forall (fun c => isAlnum c = false) m.
Proof.
  induction w as [|c w IH] using rev_ind; [cbn; lia|]. rewrite countAlnum_app. unfold countAlnum at 2. simpl.
  destruct (isAlnum c) eqn:E; intros Hc.
  - exists w, c, []. split_and!; [done|done|constructor].
  - destruct IH as (y & z & m & -> & Hz & Hm); [simpl in Hc; lia|]. exists y, z, (m ++ [c]).
    split_and!; [by rewrite <- app_assoc|done|]. apply Forall_app. split; [done|by repeat constructor].
Qed.

Lemma skipn_length_app {B} (a b : list B) : List.skipn (List.length a) (a ++ b) = b.
Proof. rewrite List.skipn_app, List.skipn_all, Nat.sub_diag. done. Qed.

(** Over what holds nothing, then a word: the cursor ends after the word. *)
Lemma advance_word a x w r : noTags (a ++ x ++ w ++ r) -> countAlnum x = 0 -> 0 < countAlnum w -> nonspaces w -> stops r ->
  advanceByAlnums (a ++ x ++ w ++ r) (List.length a) (countAlnum w) = List.length (a ++ x ++ w).
Proof.
  intros Hp Hx Hw Hs Hr. unfold advanceByAlnums. rewrite skipn_length_app.
  destruct (last_alnum w Hw) as (y & z & m & -> & Hz & Hm). unfold noTags in Hp. rewrite !Forall_app in Hp.
  destruct Hp as (_ & Hpx & (Hpy & Hpz) & _). apply Forall_app in Hs as [Hsy Hsm]. apply Forall_cons in Hsm as [_ Hsm].
  apply Forall_cons in Hpz as [_ Hpm].
  assert (countAlnum (y ++ z :: m) = S (countAlnum (x ++ y))) as ->.
  { rewrite !countAlnum_app, Hx. unfold countAlnum at 2. simpl. rewrite Hz. simpl. fold (countAlnum m). rewrite (countAlnum_0 m Hm). lia. }
  replace (x ++ (y ++ z :: m) ++ r) with ((x ++ y) ++ z :: m ++ r) by (by rewrite <- !app_assoc).
  rewrite pastAlnums_plain; [|by apply Forall_app|done|rewrite !length_app; simpl; lia].
  replace ((x ++ y) ++ z :: m ++ r) with (((x ++ y) ++ [z]) ++ m ++ r) by (by rewrite <- !app_assoc).
  replace (S (List.length (x ++ y))) with (List.length ((x ++ y) ++ [z])) by (rewrite (length_app (x ++ y)); simpl; lia).
  rewrite skipn_length_app, pastMarks_plain by done. rewrite !length_app. simpl. lia.
Qed.

Lemma advance_none a r : advanceByAlnums (a ++ r) (List.length a) 0 = List.length a + pastMarks r.
Proof. unfold advanceByAlnums. rewrite skipn_length_app. destruct (List.length r), r; simpl; lia. Qed.

(** ** A word is placed where it stands *)

Lemma leftTrim_spaces ws w r : spaces ws -> w <> [] -> nonspaces w -> leftTrimSpace (ws ++ w ++ r) = w ++ r.
Proof.
  intros Hws Hne Hw. unfold leftTrimSpace. induction Hws as [|c ws Hc _ IH]; simpl; [|by rewrite Hc].
  destruct w as [|c w]; [done|]. apply Forall_cons in Hw as [Hc _]. simpl. by rewrite Hc.
Qed.

Lemma HasPrefix_app w r : HasPrefix (w ++ r) w = true.
Proof. apply HasPrefix_spec. by exists r. Qed.

Lemma HasPrefix_head a s b t : a <> b -> HasPrefix (a :: s) (b :: t) = false.
Proof. intros Hab. destruct (HasPrefix _ _) eqn:E; [|done]. apply HasPrefix_spec in E as [k [= -> _]]. done. Qed.

Lemma hop_plain ws w r : spaces ws -> w <> [] -> nonspaces w -> classifyHop (ws ++ w ++ r) w = Placed (List.length (ws ++ w)).
Proof.
  intros Hws Hne Hw. unfold classifyHop. set (cs := matchCandidates _).
  enough (tryCands false w cs = Some (Placed (List.length (ws ++ w)))) as E.
  { unfold literalHop, wordVariants. destruct w as [|c w]; [done|]. case_bool_decide; cbn [tryVariants]; by rewrite E. }
  unfold cs, matchCandidates. rewrite leftTrim_spaces by done.
  replace (List.length (ws ++ w ++ r) - List.length (w ++ r)) with (List.length ws) by (rewrite (length_app ws); lia).
  cbn [List.map tryCands]. rewrite drop_0. destruct ws as [|b ws].
  - cbn [app]. by rewrite HasPrefix_app.
  - destruct w as [|c w]; [done|]. apply Forall_cons in Hws as [Hb Hws]. apply Forall_cons in Hw as [Hc Hw].
    assert (b <> c) as Hbc by congruence. cbn [app]. rewrite (HasPrefix_head b), (HasPrefix_head c) by done. rewrite andb_false_r.
    cbn [List.length Nat.eqb app List.map tryCands]. change (b :: ws ++ c :: w ++ r) with ((b :: ws) ++ (c :: w) ++ r).
    change (S (List.length ws)) with (List.length (b :: ws)). rewrite skipn_length_app, HasPrefix_app, length_app. done.
Qed.

(** ** The map over a plain text *)

(** [m] is at the end of [pre], the model's cursor at the end of [a]. *)
Definition at_ (T pre a : text) (m : TextSegmentMap) : Prop :=
  ttsText m = T /\ origText m = T /\ llmText m = T /\ segments m = [whole T] /\ segIdx m = 0
  /\ segRawPos m = List.length pre /\ userFacingPos m = List.length pre /\ llmPos m = List.length a.

Lemma at_rest pre a m rest T : T = pre ++ rest -> at_ T pre a m -> List.skipn (segRawPos m) T = rest /\ RawPos m = List.length pre.
Proof.
  intros -> (_ & _ & _ & Es & Ei & Er & _). rewrite Er, skipn_length_app. split; [done|].
  unfold RawPos. rewrite Es, Ei, Er. simpl. lia.
Qed.

(** How far the model's cursor goes. *)
Definition modelAt (pre a ws w : text) : text :=
  if 0 <? countAlnum w then pre ++ ws ++ w else match pre ++ ws with [] => w | _ => a end.

Lemma plan_plain T pre a m ws w r : T = pre ++ ws ++ w ++ r -> at_ T pre a m -> spaces ws -> w <> [] -> nonspaces w ->
  planHops m w = ([Placed (List.length (ws ++ w))], []).
Proof.
  intros -> Hat Hws Hne Hw. destruct (at_rest pre a m (ws ++ w ++ r) _ eq_refl Hat) as [Hr _].
  destruct Hat as (_ & _ & _ & Es & Ei & _). unfold planHops. rewrite Es, Ei. cbn [List.skipn planFrom whole ttsRunes].
  rewrite Hr, hop_plain by done. by destruct w.
Qed.

Lemma belongs_plain T pre a m ws w r : T = pre ++ ws ++ w ++ r -> at_ T pre a m -> spaces ws -> w <> [] -> nonspaces w ->
  WordBelongsCurrentSegment m w = true.
Proof.
  intros E Hat Hws Hne Hw. unfold WordBelongsCurrentSegment, canConsumeWord. rewrite (plan_plain T pre a m ws w r) by done.
  destruct Hat as (_ & _ & _ & -> & -> & _). by destruct w.
Qed.

Lemma rtrim_word t w : w <> [] -> nonspaces w -> rtrimLen (t ++ w) = List.length (t ++ w).
Proof.
  intros Hne Hw. unfold rtrimLen, trimRight. destruct (exists_last Hne) as (w0 & c & ->). apply Forall_app in Hw as [_ Hc].
  apply Forall_cons in Hc as [Hc _]. rewrite app_assoc, List.rev_app_distr. simpl. rewrite Hc. simpl.
  by rewrite List.rev_involutive, length_app.
Qed.

(** What comes before the model's cursor and what it has still to pass: no letters, and
    if there is anything, the word has some. *)
Definition behind (pre a w : text) : Prop :=
  exists x, pre = a ++ x /\ countAlnum x = 0 /\ (0 < countAlnum w \/ x = []).

Lemma cursors_plain T pre a m ws w r : noTags T -> T = pre ++ ws ++ w ++ r -> at_ T pre a m -> behind pre a w ->
  spaces ws -> w <> [] -> nonspaces w -> stops r -> (ws = [] -> pre = []) ->
  let m' := keepDerivedCursorsInPace (whole T) (List.length (pre ++ ws ++ w)) m in
  userFacingPos m' = List.length (pre ++ ws ++ w) /\ llmPos m' = List.length (modelAt pre a ws w).
Proof.
  intros Hp E (E1 & E2 & E3 & E4 & E5 & E6 & E7 & E8) (x & Hx & Hx0 & Hxw) Hws Hne Hw Hr Hpre. cbv zeta.
  assert (noTags (ws ++ w)) as Hpw.
  { unfold noTags in *. rewrite E, !Forall_app in Hp. apply Forall_app. tauto. }
  assert (List.length (alnumOnly (spokenPart (whole T) (segRawPos m) (List.length (pre ++ ws ++ w)))) = countAlnum w) as En.
  { unfold spokenPart. cbn [whole ttsRunes]. rewrite E6, E, skipn_length_app.
    replace (List.length (pre ++ ws ++ w) - List.length pre) with (List.length (ws ++ w)) by (rewrite (length_app pre); lia).
    rewrite app_assoc, List.firstn_app, List.firstn_all, Nat.sub_diag. cbn [List.firstn]. rewrite app_nil_r, alnumOnly_length by done.
    by rewrite countAlnum_app, (spaces_count ws). }
  unfold keepDerivedCursorsInPace. rewrite En. cbn [userFacingPos llmPos]. simpl. rewrite E2, E3, E7, E8. unfold modelAt.
  destruct (0 <? countAlnum w) eqn:Ew.
  - apply Nat.ltb_lt in Ew. split.
    + rewrite E. apply advance_word; try done; [by rewrite <- E|by apply spaces_count].
    + rewrite E, Hx. replace ((a ++ x) ++ ws ++ w ++ r) with (a ++ (x ++ ws) ++ w ++ r) by (by rewrite <- !app_assoc).
      rewrite advance_word; try done; [by rewrite <- !app_assoc| |by rewrite countAlnum_app, Hx0, spaces_count].
      rewrite E, Hx in Hp. by rewrite <- !app_assoc in *.
  - apply Nat.ltb_ge in Ew. destruct Hxw as [?| ->]; [lia|]. rewrite app_nil_r in Hx. subst a. split.
    + rewrite E. replace (pre ++ ws ++ w ++ r) with ((pre ++ ws ++ w) ++ r) by (by rewrite <- !app_assoc).
      rewrite List.firstn_app, List.firstn_all, Nat.sub_diag. cbn [List.firstn]. rewrite app_nil_r, app_assoc. by apply rtrim_word.
    + assert (countAlnum w = 0) as -> by lia. rewrite E, advance_none. destruct ws as [|c ws].
      * rewrite (Hpre eq_refl) in *. cbn [app List.length]. apply pastMarks_plain; try done. apply countAlnum_0_inv. lia.
      * apply Forall_cons in Hws as [Hc _]. cbn [app pastMarks]. rewrite Hc, orb_true_r. rewrite Nat.add_0_r. by destruct pre.
Qed.

(** One word: the map comes to its end, or is finished when nothing follows. *)
Lemma AdvanceWord_plain T pre a m ws w r : noTags T -> T = pre ++ ws ++ w ++ r -> at_ T pre a m -> behind pre a w ->
  spaces ws -> w <> [] -> nonspaces w -> stops r -> (ws = [] -> pre = []) ->
  let m' := AdvanceWord w m in
  lastOverflow m' = [] /\ userFacingPos m' = List.length (pre ++ ws ++ w) /\ llmPos m' = List.length (modelAt pre a ws w) /\ ttsText m' = T
  /\ (r <> [] -> lastCompleted m' = None /\ at_ T (pre ++ ws ++ w) (modelAt pre a ws w) m')
  /\ (r = [] -> SegmentMap.IsComplete m' = true /\ RawPos m' = List.length T).
Proof.
  intros Hp E Hat Hb Hws Hne Hw Hr Hpre. cbv zeta. unfold AdvanceWord.
  set (m0 := m <| lastCompleted := None |> <| lastOverflow := [] |> <| lastLeadingDuplicate := 0 |>).
  destruct w as [|c w0] eqn:Ew; [done|]. rewrite <- Ew in *. set (m1 := m0 <| lastLeadingDuplicate := _ |>).
  assert (at_ T pre a m1) as Hat1 by exact Hat. unfold consumeWord. rewrite (plan_plain T pre a m1 ws w r) by done.
  destruct (cursors_plain T pre a m1 ws w r Hp E Hat1 Hb Hws Hne Hw Hr Hpre) as [C1 C2].
  assert (lastCompleted m1 = None /\ lastOverflow m1 = []) as [N1 N2] by done. clearbody m1. clear Hat m0 m.
  destruct Hat1 as (E1 & E2 & E3 & E4 & E5 & E6 & E7 & E8). cbn [fold_left]. unfold doHop. rewrite E4, E5. cbn [lookup list_lookup].
  assert (segRawPos m1 + List.length (ws ++ w) = List.length (pre ++ ws ++ w)) as -> by (rewrite E6, (length_app pre); lia).
  unfold advanceCursorsTo. rewrite (whole_plain T Hp). cbn [andb whole ttsRunes].
  set (m2 := keepDerivedCursorsInPace _ _ m1) in *.
  assert (ttsText m2 = T /\ origText m2 = T /\ llmText m2 = T /\ segments m2 = [whole T] /\ segIdx m2 = 0
    /\ lastCompleted m2 = None /\ lastOverflow m2 = []) as (G1 & G2 & G3 & G4 & G5 & G6 & G7) by done. clearbody m2.
  destruct (List.length T <=? List.length (pre ++ ws ++ w)) eqn:El.
  - apply Nat.leb_le in El. assert (r = []) as ->.
    { rewrite E, !length_app in El. destruct r; [done|simpl in El; lia]. }
    split_and!; try done. intros _. unfold SegmentMap.IsComplete, RawPos, finishSegment. simpl. rewrite G4, G5. simpl. split; [done|lia].
  - apply Nat.leb_gt in El. split_and!; try done.
    + intros ->. rewrite app_nil_r in E. rewrite E in El. lia.
Qed.

(** ** The tracker over a plain text *)

Definition tracks (T pre a : text) (t : WordCompletionTracker) : Prop :=
  ttsRunes_ t = T /\ userFacingRunes t = T /\ llmRunes t = T /\ hasLLM t = true /\ forceCompleted t = false
  /\ at_ T pre a (segmentMap t) /\ llm t = List.length pre.

Lemma trim_word ws w r : spaces ws -> w <> [] -> nonspaces w -> spaces r -> trimSpace (ws ++ w ++ r) = w.
Proof.
  intros Hws Hne Hw Hr. unfold trimSpace. rewrite leftTrim_spaces by done. unfold trimRight. rewrite List.rev_app_distr.
  assert (forall x, spaces x -> dropWhile IsSpace (x ++ List.rev w) = dropWhile IsSpace (List.rev w)) as Hd.
  { intros x Hx. induction Hx as [|c x Hc _ IH]; [done|]. simpl. by rewrite Hc. }
  rewrite Hd by (by apply Forall_rev). destruct (exists_last Hne) as (w0 & c & ->). apply Forall_app in Hw as [_ Hc].
  apply Forall_cons in Hc as [Hc _]. rewrite List.rev_app_distr. simpl. rewrite Hc. simpl. by rewrite List.rev_involutive.
Qed.

Lemma slice_mid (p x q : text) : slice (p ++ x ++ q) (List.length p) (List.length (p ++ x)) = Some x.
Proof.
  unfold slice. rewrite (proj2 (Nat.leb_le _ _)) by (rewrite length_app; lia).
  rewrite (proj2 (Nat.leb_le _ _)) by (rewrite !length_app; lia). cbn [andb]. rewrite skipn_length_app, length_app.
  replace (List.length p + List.length x - List.length p) with (List.length x) by lia.
  by rewrite List.firstn_app, List.firstn_all, Nat.sub_diag, app_nil_r.
Qed.

Lemma sliceFrom_app (p q : text) : WordTracker.sliceFrom (p ++ q) (List.length p) = Some q.
Proof. unfold WordTracker.sliceFrom. rewrite <- (app_nil_r q) at 1. rewrite <- (slice_mid p q []). by rewrite app_nil_r. Qed.

(** [AddWord] up to what it records. *)
Definition moved (w : text) (m' : TextSegmentMap) (t : WordCompletionTracker) : option (bool * WordCompletionTracker) :=
  fw ← slice w (Nat.min (lastLeadingDuplicate m') (List.length w)) (List.length w);
  t ← recordLLMSpan w (llm t) (t <| overflowWord := None |> <| frameWord := Some fw |> <| segmentMap := m' |>
       <| userFacing := userFacingPos m' |> <| llm := llmPos m' |> <| llmConsumed := None |>);
  Some (IsComplete t, if IsComplete t then t <| userFacing := List.length (userFacingRunes t) |> else t).

Lemma AddWord_moved T pre a t ws w r : noTags T -> T = pre ++ ws ++ w ++ r -> tracks T pre a t -> behind pre a w ->
  spaces ws -> w <> [] -> nonspaces w -> stops r -> (ws = [] -> pre = []) ->
  AddWord w t = moved w (AdvanceWord w (segmentMap t)) t.
Proof.
  intros Hp E (T1 & T2 & T3 & T4 & T5 & T6 & T7) Hb Hws Hne Hw Hr Hpre.
  destruct (AdvanceWord_plain T pre a (segmentMap t) ws w r Hp E T6 Hb Hws Hne Hw Hr Hpre) as (H1 & _).
  destruct (at_rest pre a (segmentMap t) (ws ++ w ++ r) T E T6) as [_ Hraw].
  unfold AddWord, WordBelongsHere. simpl. rewrite T5, T1, Hraw. cbn [orb].
  assert ((List.length T <=? List.length pre) = false) as ->.
  { apply Nat.leb_gt. rewrite E, !length_app. destruct w; [done|simpl; lia]. }
  rewrite (belongs_plain T pre a _ ws w r) by done. cbn [negb]. rewrite H1, T4. unfold moved.
  destruct (slice w _ _) as [fw|]; [|done]. cbn [mbind option_bind]. simpl. by rewrite ?T4, T5, T1.
Qed.

Lemma step_incomplete T pre a t ws w r : noTags T -> T = pre ++ ws ++ w ++ r -> tracks T pre a t -> behind pre a w ->
  spaces ws -> w <> [] -> nonspaces w -> stops r -> (ws = [] -> pre = []) -> 0 < countAlnum r ->
  exists t', AddWord w t = Some (false, t') /\ tracks T (pre ++ ws ++ w) (modelAt pre a ws w) t'
    /\ RawText t' = Some w /\ userFacing t' = List.length (pre ++ ws ++ w).
Proof.
  intros Hp E Ht Hb Hws Hne Hw Hr Hpre Hrest. rewrite (AddWord_moved T pre a t ws w r) by done.
  destruct Ht as (T1 & T2 & T3 & T4 & T5 & T6 & T7).
  destruct (AdvanceWord_plain T pre a (segmentMap t) ws w r Hp E T6 Hb Hws Hne Hw Hr Hpre) as (_ & H2 & H3 & _ & H5 & _).
  destruct H5 as [H5 H6]; [intros ->; cbn in Hrest; lia|]. set (m' := AdvanceWord w (segmentMap t)) in *. clearbody m'.
  assert (noTags r) as Hpr by (unfold noTags in *; rewrite E, !Forall_app in Hp; tauto).
  destruct (at_rest (pre ++ ws ++ w) (modelAt pre a ws w) m' r T) as [Hrem _]; [by rewrite E, <- !app_assoc|done|].
  assert (SegmentMap.IsComplete m' = false) as Hi.
  { destruct H6 as (_ & _ & _ & S4 & S5 & _). unfold SegmentMap.IsComplete. rewrite S4, S5. cbn [List.skipn whole ttsRunes].
    rewrite Hrem, hasAlnum_plain by done. by rewrite (proj2 (Nat.ltb_lt _ _) Hrest). }
  assert (InTransformedSegment m' = false) as Htr.
  { destruct H6 as (_ & _ & _ & S4 & S5 & _). unfold InTransformedSegment. rewrite S4, S5. cbn. by rewrite whole_plain. }
  unfold moved. assert (forall d, slice w (Nat.min d (List.length w)) (List.length w) = Some (List.skipn (Nat.min d (List.length w)) w)) as Hsl.
  { intros d. unfold slice. rewrite (proj2 (Nat.leb_le _ _)) by lia. rewrite Nat.leb_refl. cbn [andb].
    by rewrite List.firstn_all2 by (rewrite List.length_skipn; lia). }
  rewrite Hsl. cbn [mbind option_bind]. unfold recordLLMSpan, IsComplete. simpl. rewrite T5, Hi, Htr, H5, T3, T7, H3. cbn [orb].
  assert (T = pre ++ (ws ++ w) ++ r) as E' by (by rewrite E, <- !app_assoc).
  destruct (Nat.eqb (List.length (modelAt pre a ws w)) (List.length pre)) eqn:Eq; cbn [andb].
  - apply Nat.eqb_eq in Eq. destruct Hb as (x & Hx & _ & Hxw).
    assert (modelAt pre a ws w = pre /\ ws <> []) as [Em Hws0].
    { revert Eq. unfold modelAt. destruct (0 <? countAlnum w) eqn:Ew.
      - rewrite !length_app. destruct w; [done|simpl; lia].
      - apply Nat.ltb_ge in Ew. destruct Hxw as [?| ->]; [lia|]. rewrite app_nil_r in Hx. subst a.
        destruct (pre ++ ws) eqn:Ep; [apply app_eq_nil in Ep as [-> _]; destruct w; [done|simpl; lia]|]. intros _. split; [done|].
        intros ->. rewrite (Hpre eq_refl) in Ep. done. }
    assert (List.length T - List.length (leftTrimSpace (List.skipn (List.length (modelAt pre a ws w)) T)) = List.length (pre ++ ws)) as ->.
    { rewrite Eq. assert (List.skipn (List.length pre) T = ws ++ w ++ r) as -> by (rewrite E; apply skipn_length_app).
      rewrite leftTrim_spaces by done. rewrite E, !length_app. lia. }
    assert (Nat.min (List.length (pre ++ ws) + List.length w) (List.length T) = List.length ((pre ++ ws) ++ w)) as ->.
    { rewrite E, !length_app. lia. }
    assert (slice T (List.length (pre ++ ws)) (List.length ((pre ++ ws) ++ w)) = Some w) as ->.
    { rewrite E. replace (pre ++ ws ++ w ++ r) with ((pre ++ ws) ++ w ++ r) by (by rewrite <- app_assoc). apply slice_mid. }
    cbn [mbind option_bind]. eexists. split; [unfold IsComplete; simpl; rewrite ?T5, Hi; reflexivity|]. split_and!.
    + rewrite <- app_assoc. split_and!; done.
    + unfold RawText. simpl. pose proof (trim_word [] w [] (Forall_nil_2 _) Hne Hw (Forall_nil_2 _)) as Htw. rewrite app_nil_r in Htw. simpl in Htw.
      rewrite Htw. by destruct w.
    + done.
  - assert (modelAt pre a ws w = pre ++ ws ++ w) as Em.
    { revert Eq. unfold modelAt. destruct (0 <? countAlnum w) eqn:Ew; [done|]. apply Nat.ltb_ge in Ew.
      destruct Hb as (x & Hx & _ & [?| ->]); [lia|]. rewrite app_nil_r in Hx. subst a.
      destruct (pre ++ ws) eqn:Ep; [|by rewrite Nat.eqb_refl]. by apply app_eq_nil in Ep as [-> ->]. }
    assert (slice T (List.length pre) (List.length (modelAt pre a ws w)) = Some (ws ++ w)) as ->.
    { rewrite Em, E'. apply slice_mid. }
    cbn [mbind option_bind]. eexists. split; [unfold IsComplete; simpl; rewrite ?T5, Hi; reflexivity|]. split_and!.
    + split_and!; try done. simpl. by rewrite Em in *.
    + unfold RawText. simpl. pose proof (trim_word ws w [] Hws Hne Hw (Forall_nil_2 _)) as Htw. rewrite app_nil_r in Htw. rewrite Htw. by destruct w.
    + done.
Qed.

Lemma spaces_stop r : spaces r -> stops r.
Proof. by intros [|c r' Hc _]. Qed.

Lemma pending_spaces r : noTags r -> spaces r -> pendingSeparatedPunctuation r = false.
Proof.
  intros Hp Hr. unfold pendingSeparatedPunctuation. rewrite strip_plain by done. destruct r as [|c r]; [done|].
  assert (trimSpace (c :: r) = []) as ->; [|by rewrite andb_false_r].
  unfold trimSpace, leftTrimSpace. assert (dropWhile IsSpace (c :: r) = []) as ->; [|done].
  induction Hr as [|c0 r0 Hc _ IH]; [done|]. simpl in *. rewrite Hc. destruct r0; [done|]. apply IH. by inversion Hp.
Qed.

Lemma step_last T pre a t ws w r : noTags T -> T = pre ++ ws ++ w ++ r -> tracks T pre a t -> behind pre a w ->
  spaces ws -> w <> [] -> nonspaces w -> spaces r -> (ws = [] -> pre = []) -> 0 < countAlnum w ->
  exists t', AddWord w t = Some (true, t') /\ RawText t' = Some w
    /\ userFacing t' = List.length T /\ llm t' = List.length T /\ userFacingRunes t' = T /\ llmRunes t' = T /\ hasLLM t' = true.
Proof.
  intros Hp E Ht Hb Hws Hne Hw Hr Hpre Hcount. rewrite (AddWord_moved T pre a t ws w r) by (try done; by apply spaces_stop).
  destruct Ht as (T1 & T2 & T3 & T4 & T5 & T6 & T7).
  destruct (AdvanceWord_plain T pre a (segmentMap t) ws w r Hp E T6 Hb Hws Hne Hw (spaces_stop _ Hr) Hpre) as (_ & H2 & H3 & _ & H5 & H6).
  set (m' := AdvanceWord w (segmentMap t)) in *. clearbody m'.
  assert (noTags r) as Hpr by (unfold noTags in *; rewrite E, !Forall_app in Hp; tauto).
  assert (SegmentMap.IsComplete m' = true) as Hi.
  { destruct r as [|c r0]; [by apply H6|]. destruct H5 as [_ Hat]; [done|].
    destruct (at_rest (pre ++ ws ++ w) (modelAt pre a ws w) m' (c :: r0) T) as [Hrem _]; [by rewrite E, <- !app_assoc|done|].
    destruct Hat as (_ & _ & _ & S4 & S5 & _). unfold SegmentMap.IsComplete. rewrite S4, S5. cbn [List.skipn whole ttsRunes].
    rewrite Hrem, hasAlnum_plain, pending_spaces by done. by rewrite (spaces_count _ Hr). }
  unfold moved. unfold slice at 1. rewrite (proj2 (Nat.leb_le _ _)) by lia. rewrite Nat.leb_refl. cbn [andb mbind option_bind].
  unfold recordLLMSpan, IsComplete. simpl. rewrite T5, Hi, T3, T7. cbn [orb].
  assert (WordTracker.sliceFrom T (List.length pre) = Some (ws ++ w ++ r)) as -> by (rewrite E; apply sliceFrom_app).
  cbn [mbind option_bind]. simpl. rewrite ?T5, Hi. eexists. split; [reflexivity|]. unfold RawText. simpl.
  rewrite trim_word, ?T2 by done. split_and!; try done. by destruct w.
Qed.

(** ** Word by word *)

Lemma fields_from_word cur w r : nonspaces w -> stops r -> cur ++ w <> [] -> fields_from cur (w ++ r) = (cur ++ w) :: Fields r.
Proof.
  intros Hw Hr. revert cur. induction Hw as [|c w Hc _ IH]; intros cur Hne.
  - rewrite app_nil_r in *. destruct cur as [|k cur]; [done|]. destruct r as [|s r]; [done|]. unfold Fields. simpl in *. by rewrite Hr.
  - simpl. rewrite Hc. rewrite IH; [by rewrite <- app_assoc|by destruct cur].
Qed.

Lemma fields_spaces ws r : spaces ws -> Fields (ws ++ r) = Fields r.
Proof. induction 1 as [|c ws Hc _ IH]; [done|]. unfold Fields in *. simpl. by rewrite Hc. Qed.

Lemma span_split (p : rune -> bool) t : exists u v, t = u ++ v /\ Forall (fun r => p r = true) u /\ match v with [] => True | c :: _ => p c = false end.
Proof.
  induction t as [|c t (u & v & -> & Hu & Hv)]; [by exists [], []|].
  destruct (p c) eqn:E; [exists (c :: u), v|exists [], (c :: u ++ v)]; split_and!; try done; by constructor.
Qed.

(** The next word of a text, and what is left. *)
Lemma next_word t w ws' : Fields t = w :: ws' -> exists ws r, t = ws ++ w ++ r /\ spaces ws /\ w <> [] /\ nonspaces w /\ stops r /\ Fields r = ws'.
Proof.
  intros E. destruct (span_split IsSpace t) as (ws & v & -> & Hws & Hv). rewrite fields_spaces in E by done.
  destruct (span_split (fun r => negb (IsSpace r)) v) as (w0 & r & -> & Hw0 & Hr).
  assert (nonspaces w0) as Hw by (eapply Forall_impl; [exact Hw0|]; intros c Hc; by apply negb_true_iff in Hc).
  assert (stops r) as Hs by (destruct r; [done|]; by apply negb_false_iff in Hr).
  destruct w0 as [|c w0].
  - destruct r as [|c r]; [done|]. simpl in Hv, Hs. congruence.
  - unfold Fields in E. rewrite (fields_from_word [] (c :: w0) r) in E by done. simplify_eq/=. by exists ws, r.
Qed.

Lemma no_word t : Fields t = [] -> spaces t.
Proof.
  intros E. destruct (span_split IsSpace t) as (ws & v & -> & Hws & Hv). rewrite fields_spaces in E by done.
  destruct v as [|c v]; [by rewrite app_nil_r|]. exfalso. revert E. unfold Fields. simpl. rewrite Hv. generalize (@nil rune, c). 
  intros _. assert (forall cur, cur <> [] -> fields_from cur v <> []) as Hn; [|by apply Hn].
  induction v as [|d v IH]; intros cur Hc; simpl; [by destruct cur|]. destruct (IsSpace d); [by destruct cur|]. apply IH. by destruct cur.
Qed.

Definition symbol (w : text) : bool := negb (hasAlnum w).

(** No two words in a row without a letter or digit, and the last has one. *)
Fixpoint speakable (prevSymbol : bool) (ws : list text) : Prop :=
  match ws with
  | [] => prevSymbol = false
  | w :: ws => (prevSymbol = true -> symbol w = false) /\ speakable (symbol w) ws
  end.

Definition outcome (ws : list text) : list (option text * bool) :=
  imap (fun i w => (Some w, Nat.eqb (S i) (List.length ws))) ws.

Lemma symbol_plain w : noTags w -> symbol w = (countAlnum w =? 0).
Proof. intros Hp. unfold symbol. rewrite hasAlnum_plain by done. by destruct (countAlnum w). Qed.

Lemma noTags_word ws w r : noTags (ws ++ w ++ r) -> noTags w /\ noTags r.
Proof. unfold noTags. rewrite !Forall_app. tauto. Qed.

Lemma speakable_count b ws r : noTags r -> Fields r = ws -> ws <> [] -> speakable b ws -> 0 < countAlnum r.
Proof.
  revert b r. induction ws as [|w ws IH]; intros b r Hp E Hne0 Hs; [by destruct Hne0|].
  destruct (next_word r w ws E) as (sp & r' & -> & Hsp & Hne & Hw & Hst & E'). destruct (noTags_word _ _ _ Hp) as [Hpw Hpr].
  rewrite !countAlnum_app. destruct Hs as [_ Hs]. rewrite symbol_plain in Hs by done. destruct (countAlnum w) as [|n]; [|lia].
  destruct ws as [|w2 ws]; [done|]. specialize (IH true r' Hpr E'). assert (0 < countAlnum r') by (apply IH; done). lia.
Qed.

(** The part of the text passed and what the model's cursor has still to pass of it. *)
Lemma behind_next pre a ws w : noTags w -> behind pre a w -> spaces ws ->
  exists x, pre ++ ws ++ w = modelAt pre a ws w ++ x /\ countAlnum x = 0 /\ (x <> [] -> symbol w = true).
Proof.
  intros Hp (x & Hx & Hx0 & Hxw) Hws. unfold modelAt. rewrite symbol_plain by done. destruct (0 <? countAlnum w) eqn:Ew.
  - exists []. by rewrite app_nil_r.
  - apply Nat.ltb_ge in Ew. destruct Hxw as [?| ->]; [lia|]. rewrite app_nil_r in Hx. subst a.
    destruct (pre ++ ws) eqn:Ep.
    + apply app_eq_nil in Ep as [-> ->]. exists []. by rewrite app_nil_r.
    + exists (ws ++ w). rewrite countAlnum_app, (spaces_count ws) by done. split_and!; [done|lia|]. intros _. apply Nat.eqb_eq. lia.
Qed.

Lemma feed_plain T ws pre a t rest b : noTags T -> Fields rest = ws -> ws <> [] -> speakable b ws ->
  T = pre ++ rest -> tracks T pre a t -> (pre = [] \/ stops rest) ->
  (exists x, pre = a ++ x /\ countAlnum x = 0 /\ (x <> [] -> b = true)) ->
  exists t', feed ws t = Some (outcome ws, t') /\ userFacing t' = List.length T /\ llm t' = List.length T /\ userFacingRunes t' = T /\ llmRunes t' = T /\ hasLLM t' = true.
Proof.
  intros Hp. revert pre a t rest b. induction ws as [|w ws IH]; intros pre a t rest b E Hne Hsp HT Ht Hst (x & Hx & Hx0 & Hxb); [done|].
  destruct (next_word rest w ws E) as (sp & r & -> & Hws & Hwne & Hw & Hr & E'). destruct Hsp as [Hsym Hsp].
  assert (noTags w /\ noTags r) as [Hpw Hpr] by (apply (noTags_word (pre ++ sp)); by rewrite <- app_assoc, <- HT).
  assert (behind pre a w) as Hb.
  { exists x. split_and!; [done|done|]. destruct x as [|c x]; [by right|left]. specialize (Hsym (Hxb ltac:(done))).
    rewrite symbol_plain in Hsym by done. apply Nat.eqb_neq in Hsym. lia. }
  assert (sp = [] -> pre = []) as Hpre.
  { intros ->. destruct Hst as [?|Hst]; [done|]. destruct w as [|c w]; [done|]. apply Forall_cons in Hw as [Hc _]. simpl in Hst. congruence. }
  cbn [feed]. destruct ws as [|w2 ws].
  - assert (0 < countAlnum w) as Hc.
    { simpl in Hsp. rewrite symbol_plain in Hsp by done. apply Nat.eqb_neq in Hsp. lia. }
    destruct (step_last T pre a t sp w r Hp HT Ht Hb Hws Hwne Hw (no_word _ E') Hpre Hc) as (t' & -> & Hraw & H1).
    cbn [mbind option_bind feed]. rewrite Hraw. by exists t'.
  - destruct (step_incomplete T pre a t sp w r Hp HT Ht Hb Hws Hwne Hw Hr Hpre) as (t1 & -> & Ht1 & Hraw & _).
    { by eapply speakable_count. }
    cbn [mbind option_bind]. destruct (IH (pre ++ sp ++ w) (modelAt pre a sp w) t1 r (symbol w)) as (t' & -> & H1); try done.
    + by rewrite HT, <- !app_assoc.
    + by right.
    + by apply behind_next.
    + cbn [mbind option_bind]. rewrite Hraw. exists t'. split; [|done]. unfold outcome. done.
Qed.

(** A text nothing rewrote, its words reported one after another: every word is placed
    and stands for itself, the frame is complete at the last and not before, and then
    all of the text has been accounted for, displayed and written.  The text has no
    tags, no two words in a row without a letter or digit, and ends with one that has. *)
Theorem plain_words_tracked T : noTags T -> Fields T <> [] -> speakable false (Fields T) ->
  exists t', feed (Fields T) (NewWordCompletionTracker T T T) = Some (outcome (Fields T), t')
    /\ AccumulatedUserFacingText t' = Some T /\ RemainingUserFacingText t' false = Some []
    /\ AccumulatedRawText t' = Some (Some T).
Proof.
  intros Hp Hne Hs. assert (T <> []) as HT by (by intros ->).
  destruct (feed_plain T (Fields T) [] [] (NewWordCompletionTracker T T T) T false) as (t' & E & H1 & H2 & H3 & H4 & H5); try done.
  { assert (NewTextSegmentMap T T T = mkMap T T T [whole T] 0 0 0 0 None [] 0) as Em.
    { unfold NewTextSegmentMap. rewrite build_plain by done. by destruct T. }
    unfold tracks, NewWordCompletionTracker. destruct T as [|c T0] eqn:ET; [done|]. rewrite <- ET in *. simpl. rewrite Em. by split_and!. }
  { by left. }
  { by exists []. }
  exists t'. unfold AccumulatedUserFacingText, RemainingUserFacingText, AccumulatedRawText, sliceUpTo, WordTracker.sliceFrom, slice.
  rewrite H1, H2, H3, H4, H5. cbn [Nat.leb andb]. rewrite !Nat.leb_refl, Nat.sub_0_r, Nat.sub_diag. cbn [andb].
  rewrite drop_0, List.firstn_all. cbn. by rewrite ?Nat.leb_refl.
Qed.

End Plain.

Definition sample : text := t_ "  Hello - there, my (old) friend... ".

Lemma plain_words_tracked_witness :
  exists t', @feed ascii (Fields sample) (NewWordCompletionTracker sample sample sample) = Some (outcome (Fields sample), t')
    /\ AccumulatedUserFacingText t' = Some sample /\ RemainingUserFacingText t' false = Some []
    /\ AccumulatedRawText t' = Some (Some sample).
Proof.
  apply (@plain_words_tracked ascii ascii_laws sample); [|vm_compute; discriminate|].
  - unfold noTags. apply Forall_forall. intros r Hr. assert (List.existsb (Z.eqb 60) sample = false) as E by (vm_compute; reflexivity).
    intros ->. apply list_elem_of_In in Hr. rewrite <- not_true_iff_false in E. apply E, List.existsb_exists. exists 60%Z. split; [exact Hr|reflexivity].
  - vm_compute. repeat split; discriminate.
Defined.

(** ** Tags *)

(** The two notions of markup differ on more than a bracket that is never closed: an
    empty pair is a tag to one and content to the other. *)
Theorem empty_tag_differs : stripMarkup (t_ "a<>b") = t_ "ab" /\ stripCompleteMarkup (t_ "a<>b") = t_ "a<>b".
Proof. split; vm_compute; reflexivity. Qed.

(** ** Characters into words *)

Definition addAll (bs : list (list text * list f64)) (st : option (list WordTiming * CharAccumulator)) : option (list WordTiming * CharAccumulator) :=
  fold_left (fun st b => '(words, a) ← st; '(more, a) ← Add b.1 b.2 a; Some (words ++ more, a)) bs st.

(** A character as they are reported: blank, or with no blank in it. *)
Definition reported (ch : text) : Prop := ch <> [] /\ (spaces ch \/ nonspaces ch).

Lemma trim_reported ch : reported ch -> trimSpace ch = [] <-> spaces ch.
Proof.
  intros [Hne Hch]. split; intros Ht.
  - destruct Hch as [?|Hn]; [done|]. pose proof (trim_word [] ch [] (Forall_nil_2 _) Hne Hn (Forall_nil_2 _)) as E.
    rewrite app_nil_r in E. simpl in E. by rewrite Ht in E.
  - unfold trimSpace, leftTrimSpace. clear Hne Hch. induction Ht as [|c ch Hc _ IH]; [done|]. simpl. by rewrite Hc.
Qed.

Lemma addChars_words l words a : nonspaces (word a) -> Forall (fun c => reported (fst c)) l ->
  let st := fold_left addChar l (words, a) in
  nonspaces (word (snd st)) /\
  forall rest, List.map Word (fst st) ++ fields_from (word (snd st)) rest
    = List.map Word words ++ fields_from (word a) (List.concat (List.map fst l) ++ rest).
Proof.
  revert words a. induction l as [|[ch s] l IH]; intros words a Ha Hl; [done|]. apply Forall_cons in Hl as [Hch Hl].
  cbn [fold_left List.map List.concat]. rewrite <- ?app_assoc.
  destruct (trimSpace ch) as [|c tr] eqn:E.
  - apply (trim_reported ch Hch) in E as Hsp. assert (addChar (words, a) (ch, s) = (words ++ option_list (fst (Flush a)), zeroAcc)) as ->.
    { unfold addChar. by rewrite E. }
    destruct (IH (words ++ option_list (fst (Flush a))) zeroAcc) as [H1 H2]; [by constructor|done|]. split; [done|]. intros rest. rewrite H2.
    rewrite List.map_app, <- !app_assoc. f_equal. cbn [word zeroAcc fst]. destruct Hch as [Hne _]. destruct ch as [|b ch]; [done|].
    apply Forall_cons in Hsp as [Hb Hsp]. cbn [app fields_from]. rewrite Hb.
    rewrite <- ?app_assoc. change (fields_from [] ?x) with (Fields x). rewrite (fields_spaces ch) by done. unfold Flush. by destruct (word a).
  - assert (nonspaces ch) as Hns.
    { destruct Hch as [Hne [Hsp|?]]; [|done]. assert (reported ch) as Hr by (split; [done|by left]).
      apply (trim_reported ch Hr) in Hsp. congruence. }
    assert (addChar (words, a) (ch, s) = (words, mkAcc (word a ++ ch) (Some (default s (start a))))) as ->.
    { unfold addChar. by rewrite E. }
    destruct (IH words (mkAcc (word a ++ ch) (Some (default s (start a))))) as [H1 H2]; [by apply Forall_app|done|]. split; [done|].
    intros rest. rewrite H2. f_equal. cbn [word fst]. clear E IH H1 H2 Hch. revert Hns. generalize (word a). intros cur Hns.
    rewrite <- app_assoc. generalize (List.concat (List.map fst l) ++ rest). intros x. revert cur.
    induction Hns as [|c0 ch Hc _ IHc]; intros cur; [by rewrite app_nil_r|]. cbn [app fields_from]. rewrite Hc, <- IHc. by rewrite <- app_assoc.
Qed.

(** However the characters of a synthesis are batched, the words assembled from them,
    with the one left at the end, are the words of the text they spell. *)
Theorem char_words bs : Forall (fun b => List.length b.1 = List.length b.2 /\ Forall reported b.1) bs ->
  exists words a, addAll bs (Some ([], zeroAcc)) = Some (words, a)
    /\ List.map Word (words ++ option_list (fst (Flush a))) = Fields (List.concat (List.concat (List.map fst bs))).
Proof.
  intros Hbs. assert (forall words a, nonspaces (word a) -> exists words' a', addAll bs (Some (words, a)) = Some (words', a')
    /\ nonspaces (word a') /\ forall rest, List.map Word words' ++ fields_from (word a') rest
         = List.map Word words ++ fields_from (word a) (List.concat (List.concat (List.map fst bs)) ++ rest)) as Hg.
  { induction Hbs as [|[cs ss] bs [Hlen Hrep] _ IH]; intros words a Ha; [by exists words, a|]. simpl in Hlen, Hrep. cbn [addAll fold_left].
    cbn [mbind option_bind fst snd]. unfold Add at 2. rewrite Hlen, Nat.eqb_refl. cbn [mbind option_bind].
    destruct (addChars_words (zip cs ss) [] a Ha) as [H1 H2].
    { apply Forall_forall. intros [c s] Hin. rewrite Forall_forall in Hrep. apply Hrep. by apply elem_of_zip_l in Hin. }
    destruct (fold_left addChar (zip cs ss) ([], a)) as [more a1]. simpl in H1, H2.
    destruct (IH (words ++ more) a1 H1) as (words' & a' & E & H3 & H4). exists words', a'. split; [exact E|]. split; [done|].
    intros rest. rewrite H4, List.map_app, <- app_assoc, H2. cbn [List.map List.concat fst]. rewrite List.concat_app, <- app_assoc.
    assert (List.map fst (zip cs ss) = cs) as -> by (by apply fst_zip; lia). done. }
  destruct (Hg [] zeroAcc) as (words & a & E & Ha & H); [by constructor|]. exists words, a. split; [done|].
  specialize (H []). rewrite !app_nil_r in H. simpl in H. unfold Fields. rewrite <- H, List.map_app. f_equal.
  unfold Flush. by destruct (word a).
Qed.

End WordFacts.
