(* ===== verification/Sequencer.v ===== *)
(** * The order of what is spoken

    The sequencer of [src/utils/context/sequencer.go], with the aggregator that puts
    streamed tokens back into sentences ([parallel.go]): frames handed to the
    synthesizer take a slot each, a spoken one completes as its words come back, and a
    skipped one waits for those ahead of it.

    Every operation holds the mutex throughout, so each is a function of the state.
    Strings are UTF-8 bytes; the trackers work on their runes.  A panic is [None].  The
    identifiers of frames the sequencer makes are drawn from [nextID]. *)

From S2P Require Import Prelude Float64 Text Strings TextAgg SeqMatcher WordText SegmentMap WordTracker.

Module Sequencer.
Local Open Scope Z_scope.
Abbreviation SentenceTokenizer := TextAgg.SentenceTokenizer.
Abbreviation AggregationType := TextAgg.AggregationType.

(** ** Three channels of one text *)

Module Parallel.
Record aggregation := mkAgg { tts : gostring; llm : gostring; userFacing : gostring }.
Record aggregator := mkAggregator {
  inner : TextAgg.Simple;
  pTTS : gostring; pLLM : gostring; pUser : gostring;
  aligned : bool
}.
#[export] Instance eta_aggregator : Eta aggregator := fun a =>
  mkAggregator (inner a) (pTTS a) (pLLM a) (pUser a) (aligned a).

Definition newParallelSentenceAggregator : aggregator :=
  mkAggregator (TextAgg.NewSimpleAggregator TextAgg.AggregationSentence) [] [] [] true.

Section Tokenizer.
Context `{tok : SentenceTokenizer}.

(** The loop of [sliceInsideToken]: the sentences, and what is left. *)
Fixpoint cut (boundaries : nat) (rest : gostring) : option (list aggregation * gostring) :=
  match boundaries with
  | O => Some ([], rest)
  | S boundaries =>
    let boundary := TextAgg.MatchEndOfSentence rest in
    if boundary <=? 0 then Some ([], rest)
    else
      sentence ← sliceTo rest (Z.to_nat boundary);
      rest ← Strings.sliceFrom rest (Z.to_nat boundary);
      '(out, rest) ← cut boundaries rest;
      Some (mkAgg sentence sentence sentence :: out, rest)
  end.

Definition sliceInsideToken (ttsText : gostring) (boundaries : nat) (p : aggregator) : option (list aggregation * aggregator) :=
  '(out, rest) ← cut boundaries (pTTS p ++ ttsText);
  Some (out, p <| pTTS := rest |> <| pLLM := rest |> <| pUser := rest |> <| aligned := true |>).

Definition same (a b c : gostring) : bool := bool_decide (a = b) && bool_decide (b = c).

Definition aggregate (ttsText llmText userFacingText : gostring) (p : aggregator) : option (list aggregation * aggregator) :=
  '(aggs, i) ← TextAgg.Simple_Aggregate (inner p) ttsText;
  let boundaries := List.length aggs in
  let p := p <| inner := i |> in
  if (0 <? boundaries)%nat && aligned p && same ttsText llmText userFacingText
  then sliceInsideToken ttsText boundaries p
  else
    let pending := negb (bool_decide (pTTS p = [] /\ pLLM p = [] /\ pUser p = [])) in
    let '(out, p) := if (0 <? boundaries)%nat && pending
                     then ([mkAgg (pTTS p) (pLLM p) (pUser p)], p <| pTTS := [] |> <| pLLM := [] |> <| pUser := [] |>)
                     else ([], p) in
    let p := p <| pTTS ::= fun s => s ++ ttsText |> <| pLLM ::= fun s => s ++ llmText |> <| pUser ::= fun s => s ++ userFacingText |> in
    Some (out, p <| aligned := same (pTTS p) (pLLM p) (pUser p) && bool_decide (pTTS p = TextAgg.text (inner p)) |>).
End Tokenizer.

Definition flush (p : aggregator) : option aggregation :=
  match TrimSpace (pUser p) with [] => None | _ => Some (mkAgg (pTTS p) (pLLM p) (pUser p)) end.
End Parallel.
Import Parallel.

(** ** Frames *)

Record AggregatedTextFrame := mkFrame {
  id : nat;
  Text_ : gostring;
  AggregatedBy : AggregationType;
  ContextID : gostring;
  RawText_ : gostring;
  WillBeSpoken : bool;
  AppendToContext : bool;
  Destination : gostring;
  PTS : option Z
}.
#[export] Instance eta_AggregatedTextFrame : Eta AggregatedTextFrame := fun f =>
  mkFrame (id f) (Text_ f) (AggregatedBy f) (ContextID f) (RawText_ f) (WillBeSpoken f) (AppendToContext f) (Destination f) (PTS f).

Record TTSTextFrame := mkWord {
  wText : gostring; wPTS : option Z; wContextID : gostring; wRawText : gostring; wInterFrame : bool; wAppend : bool
}.
Record AggregatedTextProgressFrame := mkProgress {
  SegmentID : nat; pContextID : gostring; pText : gostring; pAggregatedBy : AggregationType;
  AccumulatedText : gostring; RemainingText : gostring; pPTS : Z
}.

Inductive output := Aggregated (f : AggregatedTextFrame) | Word (f : TTSTextFrame) | Progress (f : AggregatedTextProgressFrame).

Definition rawOr (f : AggregatedTextFrame) : gostring := match RawText_ f with [] => Text_ f | r => r end.

(** ** The state *)

Record slot := mkSlot {
  frame : AggregatedTextFrame;
  contextID : gostring;
  spoken : bool;
  tracker : option WordTracker.WordCompletionTracker;
  transportDestination : gostring;
  complete : bool;
  includesInterFrame : bool
}.
#[export] Instance eta_slot : Eta slot := fun s =>
  mkSlot (frame s) (contextID s) (spoken s) (tracker s) (transportDestination s) (complete s) (includesInterFrame s).

Record bufferedWord := mkBuffered { bWord : gostring; bPTS : Z; bContextID : gostring; bInterFrame : bool }.
Record streamingContext := mkStreaming { sAggregator : Parallel.aggregator; appendToCtx : bool; buildTracker : bool }.

Record Sequencer := mkSequencer {
  streamingMode : bool;
  slots : list slot;
  contextAppend : gmap gostring bool;
  streaming : gmap gostring streamingContext;
  buffered : list bufferedWord;
  nextID : nat
}.
#[export] Instance eta_Sequencer : Eta Sequencer := fun s =>
  mkSequencer (streamingMode s) (slots s) (contextAppend s) (streaming s) (buffered s) (nextID s).

Definition NewAggregatedFrameSequencer (streams : bool) : Sequencer := mkSequencer streams [] ∅ ∅ [] 0.

Definition updSlot (i : nat) (f : slot -> slot) (s : Sequencer) : Sequencer := s <| slots ::= alter f i |>.

(** ** The queue *)

(** [flushLocked]: what goes out, and what is left. *)
Definition released (lastWordPTS : Z) (s : slot) : AggregatedTextFrame :=
  let f := (frame s) <| AppendToContext := true |> <| Destination := transportDestination s |> in
  if lastWordPTS =? 0 then f else f <| PTS := Some lastWordPTS |>.
Fixpoint flushSlots (lastWordPTS : Z) (ss : list slot) : list output * list slot :=
  match ss with
  | [] => ([], [])
  | s :: rest =>
    if spoken s && complete s then flushSlots lastWordPTS rest
    else if negb (spoken s) && negb (complete s) then
      let '(out, rest) := flushSlots lastWordPTS rest in (Aggregated (released lastWordPTS s) :: out, rest)
    else ([], ss)
  end.
Definition flushLocked (lastWordPTS : Z) (s : Sequencer) : list output * Sequencer :=
  let '(out, ss) := flushSlots lastWordPTS (slots s) in (out, s <| slots := ss |>).

(** [completeSpokenSlotLocked] *)
Fixpoint completeFirst (ss : list slot) : list slot :=
  match ss with
  | [] => []
  | s :: rest => if spoken s && negb (complete s) then s <| complete := true |> :: rest else s :: completeFirst rest
  end.
Definition completeSpokenSlotLocked (s : Sequencer) : list output * Sequencer := flushLocked 0 (s <| slots ::= completeFirst |>).

Definition contextLive (c : gostring) (s : Sequencer) : bool := match contextAppend s !! c with Some _ => true | None => false end.

Definition slotMatches (c : gostring) (sl : slot) : bool :=
  spoken sl && negb (complete sl) && (match tracker sl with Some _ => true | None => false end)
  && (bool_decide (c = []) || bool_decide (contextID sl = c)).

(** The place of the first slot that matches, from place [i] on. *)
Fixpoint firstMatch (c : gostring) (ss : list slot) (i : nat) : option nat :=
  match ss with
  | [] => None
  | sl :: ss => if slotMatches c sl then Some i else firstMatch c ss (S i)
  end.
Definition activeSlot (c : gostring) (s : Sequencer) : option nat := firstMatch c (slots s) 0.
Definition nextActiveSlot (current : nat) (c : gostring) (s : Sequencer) : option nat :=
  firstMatch c (List.skipn (S current) (slots s)) (S current).

Definition appendSpokenSlot (f : AggregatedTextFrame) (c : gostring) (t : option WordTracker.WordCompletionTracker)
    (append ifs : bool) (s : Sequencer) : Sequencer :=
  s <| contextAppend ::= insert c append |> <| slots ::= fun ss => ss ++ [mkSlot f c true t [] false ifs] |>.

(** [NewWordCompletionTracker], of strings *)
Definition newTracker (ttsText userText llmText : gostring) : WordTracker.WordCompletionTracker :=
  WordTracker.NewWordCompletionTracker (runesOf ttsText) (runesOf userText) (runesOf llmText).

Definition buildWordFrame (t : gostring) (pts : Z) (c raw : gostring) (suppress ifs : bool) (s : Sequencer) : TTSTextFrame :=
  mkWord t (Some pts) c raw ifs
    (if suppress then false
     else match c with [] => true | _ => default true (contextAppend s !! c) end).

Definition buildProgressFrame (sl : slot) (t : WordTracker.WordCompletionTracker) (pts : Z) : option AggregatedTextProgressFrame :=
  acc ← WordTracker.AccumulatedUserFacingText t;
  rem ← WordTracker.RemainingUserFacingText t false;
  Some (mkProgress (id (frame sl)) (contextID sl) (Text_ (frame sl)) (AggregatedBy (frame sl)) (ofRunes acc) (ofRunes rem) pts).

(** ** Words *)

Section Words.
Context `{U : WordText.Unicode}.

Definition trackerBelongs (sl : slot) (word : gostring) : bool :=
  match tracker sl with Some t => WordTracker.WordBelongsHere t (runesOf word) | None => false end.

(** [routeWord] *)
Inductive route := Handled (out : list output) (s : Sequencer) | TakeIt.
Definition bufferWord (word : gostring) (pts : Z) (c : gostring) (ifs : bool) (s : Sequencer) : Sequencer :=
  s <| buffered ::= fun b => b ++ [mkBuffered word pts c ifs] |>.
Definition routeWord (active : option nat) (word : gostring) (pts : Z) (c : gostring) (ifs : bool) (s : Sequencer) : route :=
  match active with
  | None => if streamingMode s then Handled [] (bufferWord word pts c ifs s) else TakeIt
  | Some i =>
    match slots s !! i with
    | None => TakeIt
    | Some sl =>
      if match tracker sl with None => true | Some _ => trackerBelongs sl word end then TakeIt
      else if match nextActiveSlot i c s with
              | Some j => match slots s !! j with Some nx => trackerBelongs nx word | None => false end
              | None => false
              end then TakeIt
      else if streamingMode s then Handled [] (bufferWord word pts c ifs s)
      else Handled [Word (buildWordFrame word pts c [] false ifs s)] s
    end
  end.

(** [emitWord]; the active slot's tracker has taken the word already. *)
Definition emitWord (active : option nat) (word : gostring) (pts : Z) (c : gostring) (ifs : bool) (s : Sequencer) : option (list output * Sequencer) :=
  match active with
  | None => Some (if bool_decide (word = []) then [] else [Word (buildWordFrame word pts c [] false ifs s)], s)
  | Some i =>
    let s := if ifs then updSlot i (fun sl => sl <| includesInterFrame := true |>) s else s in
    match slots s !! i with
    | None => Some ([], s)
    | Some sl =>
      let slotIFS := ifs || includesInterFrame sl in
      match tracker sl with
      | None => Some (if bool_decide (word = []) then [] else [Word (buildWordFrame word pts (contextID sl) [] false slotIFS s)], s)
      | Some t =>
        let frameText := match WordTracker.FrameWord t with Some w => ofRunes w | None => [] end in
        let rawText := match WordTracker.RawText t with Some w => ofRunes w | None => [] end in
        let suppress := WordTracker.Suppress t in
        progress ← (if suppress then Some [] else f ← buildProgressFrame sl t pts; Some [Progress f]);
        Some ((if bool_decide (frameText = []) then [] else [Word (buildWordFrame frameText pts (contextID sl) rawText suppress slotIFS s)])
              ++ progress, s)
      end
    end
  end.

(** [AddWord] of the active slot's tracker: whether the slot is complete, the overflow,
    and the state. *)
Definition addToActive (active : option nat) (word : gostring) (s : Sequencer) : option (bool * gostring * Sequencer) :=
  match active with
  | None => Some (false, [], s)
  | Some i =>
    match slots s !! i ≫= tracker with
    | None => Some (false, [], s)
    | Some t =>
      '(spent, t) ← WordTracker.AddWord (runesOf word) t;
      let overflow := match WordTracker.OverflowWord t with Some w => ofRunes w | None => [] end in
      Some (spent, overflow, updSlot i (fun sl => sl <| tracker := Some t |>) s)
    end
  end.

(** [processWordLocked]: a word that runs on is tried again on the next slot.  Each
    round completes a slot, so the fuel is their number and one. *)
Fixpoint processWord (fuel : nat) (word : gostring) (pts : Z) (c : gostring) (ifs : bool) (s : Sequencer) : option (list output * Sequencer) :=
  match fuel with
  | O => None
  | S fuel =>
    let pending := match streaming s !! c with Some _ => true | None => false end in
    if negb (bool_decide (c = [])) && negb (contextLive c s) && negb pending then Some ([], s)
    else
      let active := activeSlot c s in
      match routeWord active word pts c ifs s with
      | Handled out s => Some (out, s)
      | TakeIt =>
        '(spent, overflow, s) ← addToActive active word s;
        '(out, s) ← emitWord active word pts c ifs s;
        match spent, active with
        | true, Some i =>
          let '(more, s) := flushLocked pts (updSlot i (fun sl => sl <| complete := true |>) s) in
          if bool_decide (overflow = []) then Some (out ++ more, s)
          else
            '(rest, s) ← processWord fuel overflow pts c false s;
            Some (out ++ more ++ rest, s)
        | _, _ => Some (out, s)
        end
      end
  end.
Definition processWordLocked (word : gostring) (pts : Z) (c : gostring) (ifs : bool) (s : Sequencer) : option (list output * Sequencer) :=
  processWord (S (List.length (slots s))) word pts c ifs s.

(** ** Registering *)

(** [drainBufferedWords] *)
Fixpoint replay (ws : list bufferedWord) (s : Sequencer) : option (list output * Sequencer) :=
  match ws with
  | [] => Some ([], s)
  | w :: ws =>
    '(out, s) ← processWordLocked (bWord w) (bPTS w) (bContextID w) (bInterFrame w) s;
    '(more, s) ← replay ws s;
    Some (out ++ more, s)
  end.
Definition drainBufferedWords (s : Sequencer) : option (list output * Sequencer) := replay (buffered s) (s <| buffered := [] |>).

(** [promote] *)
Definition promote (agg : Parallel.aggregation) (c : gostring) (append builds : bool) (s : Sequencer) : option (list output * Sequencer) :=
  match TrimSpace (userFacing agg) with
  | [] => Some ([], s)
  | _ =>
    let f := mkFrame (nextID s) (userFacing agg) TextAgg.AggregationSentence c (llm agg) true false [] None in
    let s := s <| nextID ::= S |> in
    let t := if builds then Some (newTracker (tts agg) (userFacing agg) (llm agg)) else None in
    let s := appendSpokenSlot f c t append false s in
    let '(out, s) :=
      if builds then ([], s)
      else
        let '(more, s) := completeSpokenSlotLocked s in
        (Word (mkWord (userFacing agg) None [] (llm agg) false append) :: more, s) in
    '(more, s) ← drainBufferedWords s;
    Some (Aggregated f :: out ++ more, s)
  end.

Fixpoint promoteAll (aggs : list Parallel.aggregation) (c : gostring) (append builds : bool) (s : Sequencer) : option (list output * Sequencer) :=
  match aggs with
  | [] => Some ([], s)
  | agg :: aggs =>
    '(out, s) ← promote agg c append builds s;
    '(more, s) ← promoteAll aggs c append builds s;
    Some (out ++ more, s)
  end.

Definition finalizeLocked (c : gostring) (s : Sequencer) : option (list output * Sequencer) :=
  if negb (streamingMode s) || bool_decide (c = []) then Some ([], s)
  else
    match streaming s !! c with
    | None => Some ([], s)
    | Some sc =>
      let s := s <| streaming ::= delete c |> in
      match Parallel.flush (sAggregator sc) with
      | None => Some ([], s)
      | Some agg => promote agg c (appendToCtx sc) (buildTracker sc) s
      end
    end.

Definition registerSkippedLocked (f : AggregatedTextFrame) (c dest : gostring) (s : Sequencer) : option (list output * Sequencer) :=
  '(out, s) ← finalizeLocked c s;
  let s := s <| slots ::= fun ss => ss ++ [mkSlot (f <| ContextID := c |>) c false None dest false false] |> in
  let '(more, s) := flushLocked 0 s in
  Some (out ++ more, s).

Section Tokenizer.
Context `{tok : SentenceTokenizer}.

Definition registerSpokenLocked (f : AggregatedTextFrame) (c ttsText : gostring) (append builds ifs : bool) (s : Sequencer) : option (list output * Sequencer) :=
  if negb (streamingMode s) then
    let t := if builds then Some (newTracker ttsText (Text_ f) (rawOr f)) else None in
    Some ([], appendSpokenSlot f c t append ifs s)
  else
    let sc := default (mkStreaming Parallel.newParallelSentenceAggregator append builds) (streaming s !! c) in
    '(aggs, a) ← Parallel.aggregate ttsText (rawOr f) (Text_ f) (sAggregator sc);
    let s := s <| streaming ::= insert c (mkStreaming a (appendToCtx sc) (buildTracker sc)) |> in
    promoteAll aggs c (appendToCtx sc) (buildTracker sc) s.

End Tokenizer.

(** ** The end of a context *)

(** What a slot of the context still has to say. *)
Definition closingWord (lastWordPTS : Z) (s : Sequencer) (sl : slot) : option (list output) :=
  match tracker sl with
  | None => Some []
  | Some t =>
    remaining ← WordTracker.RemainingTTSText t true;
    raw ← WordTracker.RemainingRawTextOnly t;
    let remaining := ofRunes remaining in
    let raw := match raw with Some r => ofRunes r | None => [] end in
    let raw := if negb (bool_decide (raw = [])) && negb (bool_decide (remaining = [])) && negb (Contains raw remaining)
               then [] else raw in
    Some (if bool_decide (remaining = []) then []
          else [Word (buildWordFrame remaining lastWordPTS (contextID sl) raw false (includesInterFrame sl) s)])
  end.

Fixpoint closeSlots (c : gostring) (lastWordPTS : Z) (s : Sequencer) (ss : list slot) : option (list output * list slot) :=
  match ss with
  | [] => Some ([], [])
  | sl :: ss =>
    if negb (spoken sl) || complete sl || negb (bool_decide (contextID sl = c)) then
      '(out, ss) ← closeSlots c lastWordPTS s ss; Some (out, sl :: ss)
    else
      w ← closingWord lastWordPTS s sl;
      '(out, ss) ← closeSlots c lastWordPTS s ss;
      Some (w ++ out, (sl <| complete := true |>) :: ss)
  end.

Definition forceCompleteLocked (c : gostring) (lastWordPTS : Z) (s : Sequencer) : option (list output * Sequencer) :=
  '(out, ss) ← closeSlots c lastWordPTS s (slots s);
  let '(more, s) := flushLocked lastWordPTS (s <| slots := ss |>) in
  Some (out ++ more, s <| contextAppend ::= delete c |> <| streaming ::= delete c |>).

Definition Clear (s : Sequencer) : Sequencer :=
  s <| slots := [] |> <| contextAppend := ∅ |> <| buffered := [] |> <| streaming := ∅ |>.

End Words.
End Sequencer.
