(* ===== verification/SequencerFacts.v ===== *)
(** * What the sequencer promises

    That units leave it in the order they were registered, a skipped one as soon as
    what is ahead of it has been spoken; and what becomes of a turn of plain sentences
    and skipped blocks. *)

From S2P Require Import Prelude Float64 Text Strings TextAgg SeqMatcher WordText SegmentMap WordTracker WordFacts Sequencer.
Import Sequencer.

Module SequencerFacts.
Local Open Scope Z_scope.

(** What can be asked of a sequencer, but for [Clear]. *)
Inductive operation :=
| RegisterSpoken (f : AggregatedTextFrame) (c ttsText : gostring) (append builds ifs : bool)
| RegisterSkipped (f : AggregatedTextFrame) (c dest : gostring)
| Finalize (c : gostring)
| ProcessWord (word : gostring) (pts : Z) (c : gostring) (ifs : bool)
| CompleteSpokenSlot
| Flush (lastWordPTS : Z)
| ForceComplete (c : gostring) (lastWordPTS : Z).

Section Facts.
Context {U : WordText.Unicode} {tok : SentenceTokenizer}.

Definition perform (o : operation) (s : Sequencer) : option (list output * Sequencer) :=
  match o with
  | RegisterSpoken f c t append builds ifs => registerSpokenLocked f c t append builds ifs s
  | RegisterSkipped f c dest => registerSkippedLocked f c dest s
  | Finalize c => finalizeLocked c s
  | ProcessWord w pts c ifs => processWordLocked w pts c ifs s
  | CompleteSpokenSlot => Some (completeSpokenSlotLocked s)
  | Flush pts => Some (flushLocked pts s)
  | ForceComplete c pts => forceCompleteLocked c pts s
  end.

Fixpoint performAll (os : list operation) (s : Sequencer) : option (list output * Sequencer) :=
  match os with
  | [] => Some ([], s)
  | o :: os =>
    '(out, s) ← perform o s;
    '(more, s) ← performAll os s;
    Some (out ++ more, s)
  end.

(** ** Order *)

(** The queue, as who waits in it: whether spoken, of which context, and the frame. *)
Record waiting := mkWaiting { toSpeak : bool; ofContext : gostring; ofFrame : nat }.
Definition unit_ (sl : slot) : waiting := mkWaiting (spoken sl) (contextID sl) (id (frame sl)).
Definition queue (s : Sequencer) : list waiting := List.map unit_ (slots s).
Definition skips (us : list waiting) : list nat := List.map ofFrame (List.filter (fun u => negb (toSpeak u)) us).

(** The skipped frames that went out; a sentence announced is not to be written. *)
Definition releasedIn (os : list output) : list nat :=
  omap (fun o => match o with Aggregated f => if AppendToContext f then Some (id f) else None | _ => None end) os.

Definition pendingSkip (sl : slot) : Prop := spoken sl = false -> complete sl = false.
Definition wf (s : Sequencer) : Prop := Forall pendingSkip (slots s).
(** Nothing waits but behind a sentence still to be spoken. *)
Definition ready (s : Sequencer) : Prop :=
  match slots s with [] => True | sl :: _ => spoken sl = true /\ complete sl = false end.

(** From [s] to [s'], with [reg] registered: units leave at the front, and the skipped
    ones among them go out. *)
Definition inOrder (reg : list waiting) (s : Sequencer) (out : list output) (s' : Sequencer) : Prop :=
  wf s' /\ ready s' /\ exists gone, queue s ++ reg = gone ++ queue s' /\ releasedIn out = skips gone.

Lemma skips_app a b : skips (a ++ b) = skips a ++ skips b.
Proof. unfold skips. by rewrite List.filter_app, List.map_app. Qed.
Lemma releasedIn_app a b : releasedIn (a ++ b) = releasedIn a ++ releasedIn b.
Proof. unfold releasedIn. apply omap_app. Qed.

Lemma inOrder_trans r1 r2 s1 s2 s3 o1 o2 : inOrder r1 s1 o1 s2 -> inOrder r2 s2 o2 s3 -> inOrder (r1 ++ r2) s1 (o1 ++ o2) s3.
Proof.
  intros (W1 & R1 & g1 & Q1 & E1) (W2 & R2 & g2 & Q2 & E2). split_and!; [done|done|]. exists (g1 ++ g2).
  rewrite skips_app, releasedIn_app, E1, E2. split; [|done]. by rewrite app_assoc, Q1, <- app_assoc, Q2, app_assoc.
Qed.

(** Steps that leave the queue as it is. *)
Lemma inOrder_same s out s' : wf s' -> ready s' -> queue s' = queue s -> releasedIn out = [] -> inOrder [] s out s'.
Proof. intros W R Q E. split_and!; [done|done|]. exists []. by rewrite app_nil_r, Q. Qed.

Lemma flushSlots_spec pts ss : Forall pendingSkip ss -> let '(out, rest) := flushSlots pts ss in
  Forall pendingSkip rest /\ (match rest with [] => True | sl :: _ => spoken sl = true /\ complete sl = false end)
  /\ exists gone, List.map unit_ ss = gone ++ List.map unit_ rest /\ releasedIn out = skips gone.
Proof.
  induction 1 as [|sl ss Hsl Hss IH]; [split_and!; [constructor|done|by exists []]|]. cbn [flushSlots].
  destruct (flushSlots pts ss) as [out rest]. destruct IH as (W & R & gone & Q & E).
  destruct (spoken sl) eqn:Esp, (complete sl) eqn:Ec; cbn [andb negb].
  - split_and!; [done|done|]. exists (unit_ sl :: gone). cbn [List.map app]. rewrite Q. split; [done|].
    unfold skips, unit_ in *. cbn. by rewrite Esp.
  - split_and!; [by constructor|done|done|]. by exists [].
  - specialize (Hsl Esp). congruence.
  - split_and!; [done|done|]. exists (unit_ sl :: gone). cbn [List.map app]. rewrite Q. split; [done|].
    unfold releasedIn, skips, unit_ in *. cbn. rewrite Esp. unfold released. destruct (pts =? 0); cbn; by rewrite E.
Qed.

Lemma flush_spec pts s : wf s -> let '(out, s') := flushLocked pts s in inOrder [] s out s'.
Proof.
  intros W. pose proof (flushSlots_spec pts (slots s) W) as Hf. unfold flushLocked. destruct (flushSlots pts (slots s)) as [out rest].
  destruct Hf as (W' & R & gone & Q & E). split_and!; [done|done|]. exists gone. by rewrite app_nil_r.
Qed.

(** After a change that keeps the queue, a flush. *)
Lemma flush_after pts s s1 : queue s1 = queue s -> wf s1 -> let '(out, s') := flushLocked pts s1 in inOrder [] s out s'.
Proof.
  intros Q W. pose proof (flush_spec pts s1 W) as Hf. destruct (flushLocked pts s1) as [out s']. unfold inOrder in *. by rewrite <- Q.
Qed.

Lemma completeFirst_spec ss : Forall pendingSkip ss -> List.map unit_ (completeFirst ss) = List.map unit_ ss /\ Forall pendingSkip (completeFirst ss).
Proof.
  induction 1 as [|sl ss Hsl Hss [IH1 IH2]]; [done|]. cbn [completeFirst]. destruct (spoken sl && negb (complete sl)) eqn:E.
  - apply andb_prop in E as [E _]. split; [done|]. constructor; [|done]. intros Hn. simpl in Hn. congruence.
  - cbn [List.map]. rewrite IH1. split; [done|]. by constructor.
Qed.

Lemma complete_spec s : wf s -> let '(out, s') := completeSpokenSlotLocked s in inOrder [] s out s'.
Proof.
  intros W. destruct (completeFirst_spec (slots s) W) as [Q W1]. by apply (flush_after 0 s (s <| slots ::= completeFirst |>)).
Qed.

(** Changing one slot, but for what it is and, unless it is spoken, for its being
    complete. *)
Lemma updSlot_spec i f s : (forall sl, slots s !! i = Some sl -> unit_ (f sl) = unit_ sl /\ (complete (f sl) = complete sl \/ spoken sl = true)) ->
  wf s -> queue (updSlot i f s) = queue s /\ wf (updSlot i f s).
Proof.
  unfold queue, wf, updSlot. simpl. revert i. induction (slots s) as [|sl ss IH]; intros i Hf W; [by destruct i|].
  apply Forall_cons in W as [W1 W2]. destruct i as [|i]; cbn.
  - destruct (Hf sl eq_refl) as [Hu Hc]. rewrite Hu. split; [done|]. constructor; [|done]. intros Hn.
    assert (spoken sl = false) as Hs by (injection Hu as Hs _; congruence). destruct Hc as [->|?]; [by apply W1|congruence].
  - destruct (IH i) as [H1 H2]; [intros sl' Hs; by apply Hf|done|]. rewrite H1. split; [done|]. by constructor.
Qed.

Lemma updSlot_ready i f s : (forall sl, slots s !! i = Some sl -> spoken (f sl) = spoken sl /\ complete (f sl) = complete sl) ->
  ready s -> ready (updSlot i f s).
Proof.
  unfold ready, updSlot. simpl. destruct (slots s) as [|sl ss]; [by destruct i|]. destruct i as [|i]; [|done]. cbn. intros Hf.
  by destruct (Hf sl eq_refl) as [-> ->].
Qed.

Lemma firstMatch_spec c ss k i : firstMatch c ss k = Some i -> (k <= i)%nat /\ exists sl, ss !! (i - k)%nat = Some sl /\ slotMatches c sl = true.
Proof.
  revert k. induction ss as [|sl ss IH]; intros k; [done|]. cbn [firstMatch]. destruct (slotMatches c sl) eqn:E.
  - intros [= <-]. rewrite Nat.sub_diag. split; [lia|by exists sl].
  - intros Hi. destruct (IH (S k) Hi) as [Hk (sl' & Hl & Hm)]. split; [lia|]. exists sl'. replace (i - k)%nat with (S (i - S k)) by lia. done.
Qed.

Lemma active_spec c s i : activeSlot c s = Some i -> exists sl, slots s !! i = Some sl /\ slotMatches c sl = true.
Proof. intros Hi. destruct (firstMatch_spec c (slots s) 0 i Hi) as [_ Hs]. by rewrite Nat.sub_0_r in Hs. Qed.

Lemma matches_spoken c sl : slotMatches c sl = true -> spoken sl = true /\ complete sl = false.
Proof. unfold slotMatches. destruct (spoken sl), (complete sl); try done. Qed.

(** Taking a word changes a tracker, and a flag. *)
Definition touched (s s' : Sequencer) : Prop := queue s' = queue s /\ (wf s -> wf s') /\ (ready s -> ready s').

Lemma touched_slot i f s : (forall sl, unit_ (f sl) = unit_ sl /\ complete (f sl) = complete sl) -> touched s (updSlot i f s).
Proof.
  intros Hf. split_and!.
  - unfold queue, updSlot. simpl. revert i. induction (slots s) as [|sl ss IH]; intros i; [by destruct i|].
    destruct i as [|i]; cbn; [by rewrite (proj1 (Hf sl))|by rewrite IH].
  - intros W. apply updSlot_spec; [|done]. intros sl _. destruct (Hf sl) as [H1 H2]. auto.
  - apply updSlot_ready. intros sl _. destruct (Hf sl) as [H1 H2]. by injection H1.
Qed.

Lemma addToActive_spec active w s spent o s' : addToActive active w s = Some (spent, o, s') -> touched s s' /\ (active = None -> spent = false).
Proof.
  unfold addToActive. destruct active as [i|]; [|by intros [= <- <- <-]]. destruct (slots s !! i ≫= tracker) as [t|]; [|by intros [= <- <- <-]].
  destruct (WordTracker.AddWord (runesOf w) t) as [[b t']|]; [|done]. intros [= <- <- <-]. split; [|done]. by apply touched_slot.
Qed.

Lemma touched_trans s1 s2 s3 : touched s1 s2 -> touched s2 s3 -> touched s1 s3.
Proof. intros (Q1 & W1 & R1) (Q2 & W2 & R2). split_and!; [congruence|auto|auto]. Qed.

Lemma emitWord_spec active w pts c ifs s out s' : emitWord active w pts c ifs s = Some (out, s') -> touched s s' /\ releasedIn out = [].
Proof.
  unfold emitWord. destruct active as [i|]; [|intros [= <- <-]; by case_bool_decide].
  set (s1 := if ifs then updSlot i (fun sl => sl <| includesInterFrame := true |>) s else s).
  assert (touched s s1) as Ht by (unfold s1; destruct ifs; [by apply touched_slot|done]).
  destruct (slots s1 !! i) as [sl|]; [|by intros [= <- <-]]. destruct (tracker sl) as [t|]; [|intros [= <- <-]; by case_bool_decide].
  destruct (WordTracker.Suppress t); cbn [mbind option_bind].
  - intros [= <- <-]. split; [done|]. by case_bool_decide.
  - destruct (buildProgressFrame sl t pts) as [f|]; [|done]. cbn [mbind option_bind]. intros [= <- <-]. split; [done|].
    by case_bool_decide.
Qed.

Lemma inOrder_touched s out s' : touched s s' -> releasedIn out = [] -> wf s -> ready s -> inOrder [] s out s'.
Proof. intros (Q & W & R) E Hw Hr. apply inOrder_same; auto. Qed.

Lemma processWord_spec fuel w pts c ifs s out s' : wf s -> ready s -> processWord fuel w pts c ifs s = Some (out, s') -> inOrder [] s out s'.
Proof.
  revert w ifs s out s'. induction fuel as [|fuel IH]; intros w ifs s out s' W R; [done|]. cbn [processWord].
  destruct (negb _ && _ && _); [intros [= <- <-]; by apply inOrder_same|].
  destruct (routeWord _ _ _ _ _ s) as [o1 s1|] eqn:Er.
  { intros [= <- <-]. revert Er. unfold routeWord, bufferWord. repeat case_match; intros [= <- <-]; by apply inOrder_same. }
  destruct (addToActive (activeSlot c s) w s) as [[[spent over] s1]|] eqn:Ea; [|done]. cbn [mbind option_bind].
  destruct (addToActive_spec _ _ _ _ _ _ Ea) as [T1 Hn].
  destruct (emitWord (activeSlot c s) w pts c ifs s1) as [[o2 s2]|] eqn:Ee; [|done]. cbn [mbind option_bind].
  destruct (emitWord_spec _ _ _ _ _ _ _ _ Ee) as [T2 E2]. pose proof (touched_trans _ _ _ T1 T2) as T.
  assert (inOrder [] s o2 s2) as I by (by apply inOrder_touched).
  destruct spent; [|intros [= <- <-]; exact I]. destruct (activeSlot c s) as [i|] eqn:Ei; [|by specialize (Hn eq_refl)].
  assert (queue (updSlot i (fun sl => sl <| complete := true |>) s2) = queue s2 /\ wf (updSlot i (fun sl => sl <| complete := true |>) s2)) as [Q3 W3].
  { apply updSlot_spec; [|apply I]. intros sl Hsl. split; [done|]. right. destruct (active_spec _ _ _ Ei) as (sl0 & Hl & Hm).
    destruct (matches_spoken _ _ Hm) as [Hs _]. destruct T as [Q _]. unfold queue in Q.
    assert (unit_ <$> slots s2 !! i = unit_ <$> slots s !! i) as Hq by (by rewrite <- !list_lookup_fmap, <- !list_fmap_alt || (rewrite <- !list_lookup_fmap; f_equal; exact Q)).
    rewrite Hsl, Hl in Hq. simpl in Hq. by injection Hq as ->. }
  pose proof (flush_after pts s2 _ Q3 W3) as Hf. destruct (flushLocked pts _) as [more s3].
  pose proof (inOrder_trans _ _ _ _ _ _ _ I Hf) as I3. case_bool_decide; [intros [= <- <-]; exact I3|].
  destruct (processWord fuel over pts c false s3) as [[rest s4]|] eqn:Ep; [|done]. cbn [mbind option_bind]. intros [= <- <-].
  rewrite app_assoc. eapply (inOrder_trans [] []); [exact I3|]. apply (IH over false); [apply Hf|apply Hf|done].
Qed.

Lemma replay_spec ws s out s' : wf s -> ready s -> replay ws s = Some (out, s') -> inOrder [] s out s'.
Proof.
  revert s out s'. induction ws as [|w ws IH]; intros s out s' W R; cbn [replay]; [intros [= <- <-]; by apply inOrder_same|].
  destruct (processWordLocked _ _ _ _ s) as [[o1 s1]|] eqn:E; [|done]. cbn [mbind option_bind].
  pose proof (processWord_spec _ _ _ _ _ _ _ _ W R E) as I. destruct (replay ws s1) as [[o2 s2]|] eqn:E2; [|done]. cbn [mbind option_bind].
  intros [= <- <-]. apply (inOrder_trans [] [] _ _ _ _ _ I). apply IH; [apply I|apply I|done].
Qed.

(** A spoken slot joins at the end. *)
Lemma append_spoken f c t append ifs s : wf s -> ready s -> inOrder [mkWaiting true c (id f)] s [] (appendSpokenSlot f c t append ifs s).
Proof.
  intros W R. split_and!.
  - apply Forall_app. split; [done|]. by repeat constructor.
  - unfold ready, appendSpokenSlot in *. simpl. destruct (slots s); [done|exact R].
  - exists []. split; [|done]. unfold queue, appendSpokenSlot. simpl. by rewrite List.map_app.
Qed.

(** What joined is spoken, and of the context. *)
Definition spokenOf (c : gostring) (reg : list waiting) : Prop := Forall (fun u => toSpeak u = true /\ ofContext u = c) reg.
Lemma spokenOf_skips c reg : spokenOf c reg -> skips reg = [].
Proof. unfold skips. induction 1 as [|u reg [Hu _] _ IH]; [done|]. cbn. by rewrite Hu. Qed.

Lemma joins_nothing c s : wf s -> ready s -> exists reg, inOrder reg s [] s /\ spokenOf c reg.
Proof. intros W R. exists []. split; [by apply inOrder_same|constructor]. Qed.

Lemma promote_spec agg c append builds s out s' : wf s -> ready s -> promote agg c append builds s = Some (out, s') ->
  exists reg, inOrder reg s out s' /\ spokenOf c reg.
Proof.
  intros W R. unfold promote. cbv zeta. destruct (TrimSpace (Parallel.userFacing agg)); [intros [= <- <-]; by apply joins_nothing|].
  set (f := mkFrame _ _ _ _ _ _ _ _ _). set (tr := if builds then _ else None).
  set (s0 := s <| nextID ::= S |>). pose proof (append_spoken f c tr append false s0 W R) as I1. set (s1 := appendSpokenSlot _ _ _ _ _ _) in I1 |- *.
  assert (inOrder [mkWaiting true c (id f)] s [Aggregated f] s1) as I0 by exact I1. clear I1.
  assert (forall out2 s2, inOrder [] s1 out2 s2 -> ('(more, s) ← drainBufferedWords s2; Some (Aggregated f :: out2 ++ more, s)) = Some (out, s') ->
    exists reg, inOrder reg s out s' /\ spokenOf c reg) as Hd.
  { intros out2 s2 I2. unfold drainBufferedWords.
    set (s2' := s2 <| buffered := [] |>). assert (inOrder [] s1 out2 s2') as I2' by exact I2. clearbody s2'. clear I2.
    destruct (replay (buffered s2) s2') as [[more s3]|] eqn:E; [|done]. cbn [mbind option_bind]. intros [= <- <-].
    exists [mkWaiting true c (id f)]. split; [|by repeat constructor]. change (Aggregated f :: out2 ++ more) with (([Aggregated f] ++ out2) ++ more).
    apply (inOrder_trans [_] [] _ s2'); [by apply (inOrder_trans [_] [] _ s1)|].
    apply (replay_spec _ _ _ _ (proj1 I2') (proj1 (proj2 I2')) E). }
  destruct builds.
  - pose proof (Hd [] s1 (inOrder_same s1 [] s1 (proj1 I0) (proj1 (proj2 I0)) eq_refl eq_refl)) as H1. exact H1.
  - pose proof (complete_spec s1 (proj1 I0)) as Hc. destruct (completeSpokenSlotLocked s1) as [more s2]. apply Hd. exact Hc.
Qed.

Lemma promoteAll_spec aggs c append builds s out s' : wf s -> ready s -> promoteAll aggs c append builds s = Some (out, s') ->
  exists reg, inOrder reg s out s' /\ spokenOf c reg.
Proof.
  revert s out s'. induction aggs as [|agg aggs IH]; intros s out s' W R; cbn [promoteAll].
  { intros [= <- <-]. by apply joins_nothing. }
  destruct (promote agg c append builds s) as [[o1 s1]|] eqn:E1; [|done]. cbn [mbind option_bind].
  destruct (promote_spec _ _ _ _ _ _ _ W R E1) as (r1 & I1 & K1).
  destruct (promoteAll aggs c append builds s1) as [[o2 s2]|] eqn:E2; [|done]. cbn [mbind option_bind]. intros [= <- <-].
  destruct (IH s1 o2 s2) as (r2 & I2 & K2); [apply I1|apply I1|done|]. exists (r1 ++ r2). split; [by eapply inOrder_trans|].
  by apply Forall_app.
Qed.

Lemma finalize_spec c s out s' : wf s -> ready s -> finalizeLocked c s = Some (out, s') -> exists reg, inOrder reg s out s' /\ spokenOf c reg.
Proof.
  intros W R. unfold finalizeLocked. pose proof (joins_nothing c s W R) as H0.
  destruct (_ || _); [by intros [= <- <-]|]. destruct (streaming s !! c) as [sc|]; [|by intros [= <- <-]].
  destruct (Parallel.flush _) as [agg|]; [|by intros [= <- <-]]. set (s0 := s <| streaming ::= delete c |>). intros E.
  exact (promote_spec agg c _ _ s0 out s' W R E).
Qed.

Lemma closeSlots_spec c pts s ss out ss' : Forall pendingSkip ss -> closeSlots c pts s ss = Some (out, ss') ->
  List.map unit_ ss' = List.map unit_ ss /\ Forall pendingSkip ss' /\ releasedIn out = [].
Proof.
  intros W. revert out ss'. induction W as [|sl ss Hsl W IH]; intros out ss'; cbn [closeSlots]; [by intros [= <- <-]|].
  destruct (negb (spoken sl) || complete sl || _) eqn:Ec.
  - destruct (closeSlots c pts s ss) as [[o1 s1]|]; [|done]. cbn [mbind option_bind]. intros [= <- <-].
    destruct (IH _ _ eq_refl) as (H1 & H2 & H3). cbn [List.map]. rewrite H1. split_and!; [done|by constructor|done].
  - destruct (closingWord pts s sl) as [w|] eqn:Ew; [|done]. cbn [mbind option_bind].
    destruct (closeSlots c pts s ss) as [[o1 s1]|]; [|done]. cbn [mbind option_bind]. intros [= <- <-].
    destruct (IH _ _ eq_refl) as (H1 & H2 & H3). cbn [List.map]. rewrite H1. split_and!; [done| |].
    + constructor; [|done]. intros Hn. simpl in Hn. rewrite Hn in Ec. done.
    + rewrite releasedIn_app, H3, app_nil_r. revert Ew. unfold closingWord. destruct (tracker sl); [|by intros [= <-]].
      destruct (WordTracker.RemainingTTSText _ _); [|done]. cbn [mbind option_bind].
      destruct (WordTracker.RemainingRawTextOnly _); [|done]. cbn [mbind option_bind]. intros [= <-]. by destruct (ofRunes _).
Qed.

(** What the operation itself puts in the queue as not spoken, and its context. *)
Definition registered (o : operation) : list nat := match o with RegisterSkipped f _ _ => [id f] | _ => [] end.
Definition contextOf (o : operation) : option gostring :=
  match o with
  | RegisterSpoken _ c _ _ _ _ | RegisterSkipped _ c _ | Finalize c | ForceComplete c _ => Some c
  | _ => None
  end.
Definition joins (o : operation) (reg : list waiting) : Prop :=
  skips reg = registered o /\ Forall (fun u => contextOf o = Some (ofContext u)) reg.

Lemma spokenOf_joins o c reg : registered o = [] -> contextOf o = Some c -> spokenOf c reg -> joins o reg.
Proof.
  intros Hr Hc Hs. split; [by rewrite Hr, (spokenOf_skips c)|]. eapply Forall_impl; [exact Hs|]. intros u [_ ->]. done.
Qed.

Lemma perform_spec o s out s' : wf s -> ready s -> perform o s = Some (out, s') -> exists reg, inOrder reg s out s' /\ joins o reg.
Proof.
  intros W R. assert (forall out s', inOrder [] s out s' -> registered o = [] -> exists reg, inOrder reg s out s' /\ joins o reg) as H0.
  { intros o1 s1 I E. exists []. split; [done|]. split; [by rewrite E|constructor]. }
  destruct o as [f c t append builds ifs|f c dest|c|w pts c ifs| |pts|c pts]; cbn [perform].
  - unfold registerSpokenLocked. destruct (negb (streamingMode s)).
    + intros [= <- <-]. exists [mkWaiting true c (id f)]. split; [by apply append_spoken|by repeat constructor].
    + destruct (Parallel.aggregate _ _ _ _) as [[aggs a]|]; [|done]. cbn [mbind option_bind].
      set (sc := default _ _). set (s0 := s <| streaming ::= insert c (mkStreaming a _ _) |>). intros E.
      destruct (promoteAll_spec _ _ _ _ s0 out s' W R E) as (reg & I & K).
      exists reg. split; [exact I|by eapply spokenOf_joins].
  - unfold registerSkippedLocked. destruct (finalizeLocked c s) as [[o1 s1]|] eqn:E; [|done]. cbn [mbind option_bind].
    destruct (finalize_spec c s o1 s1 W R E) as (reg & I & K). set (sl := mkSlot _ _ _ _ _ _ _).
    set (s2 := s1 <| slots ::= fun ss => ss ++ [sl] |>). assert (wf s2) as W2 by (apply Forall_app; split; [apply I|by repeat constructor]).
    pose proof (flush_spec 0 s2 W2) as Hf. destruct (flushLocked 0 s2) as [more s3]. destruct Hf as (W3 & R3 & gone & Q3 & E3).
    intros [= <- <-]. exists (reg ++ [mkWaiting false c (id f)]). split.
    + eapply inOrder_trans; [exact I|]. split_and!; [done|done|]. exists gone. split; [|done]. rewrite <- Q3, app_nil_r. unfold queue. simpl.
      by rewrite List.map_app.
    + split; [rewrite skips_app, (spokenOf_skips c) by done; done|]. apply Forall_app. split; [|by repeat constructor].
      eapply Forall_impl; [exact K|]. by intros u [_ ->].
  - intros E. destruct (finalize_spec c s out s' W R E) as (reg & I & K). exists reg. split; [done|by eapply spokenOf_joins].
  - intros E. apply H0; [|done]. by eapply processWord_spec.
  - intros [= E]. apply H0; [|done]. pose proof (complete_spec s W) as Hc. by rewrite E in Hc.
  - intros [= E]. apply H0; [|done]. pose proof (flush_spec pts s W) as Hc. by rewrite E in Hc.
  - intros E. apply H0; [|done]. revert E. unfold forceCompleteLocked. destruct (closeSlots c pts s (slots s)) as [[o1 ss]|] eqn:E; [|done].
    cbn [mbind option_bind]. destruct (closeSlots_spec _ _ _ _ _ _ W E) as (Q & W1 & E1).
    set (s0 := s <| slots := ss |>). pose proof (flush_after pts s s0 Q W1) as Hf. destruct (flushLocked pts s0) as [more s1]. destruct Hf as (W2 & R2 & gone & Q2 & E2). intros [= <- <-].
    split_and!; [exact W2|exact R2|]. exists gone. split; [exact Q2|]. by rewrite releasedIn_app, E1.
Qed.

(** A whole run. *)
Definition allRegistered (os : list operation) : list nat := List.concat (List.map registered os).

Lemma performAll_spec os s out s' : wf s -> ready s -> performAll os s = Some (out, s') ->
  exists reg, inOrder reg s out s' /\ skips reg = allRegistered os
    /\ Forall (fun u => exists o, In o os /\ contextOf o = Some (ofContext u)) reg.
Proof.
  revert s out s'. induction os as [|o os IH]; intros s out s' W R; cbn [performAll].
  { intros [= <- <-]. exists []. split_and!; [by apply inOrder_same|done|constructor]. }
  destruct (perform o s) as [[o1 s1]|] eqn:E1; [|done]. cbn [mbind option_bind].
  destruct (perform_spec _ _ _ _ W R E1) as (r1 & I1 & K1 & C1).
  destruct (performAll os s1) as [[o2 s2]|] eqn:E2; [|done]. cbn [mbind option_bind]. intros [= <- <-].
  destruct (IH s1 o2 s2) as (r2 & I2 & K2 & C2); [apply I1|apply I1|done|]. exists (r1 ++ r2).
  split; [by eapply inOrder_trans|]. split; [by rewrite skips_app, K1, K2|]. apply Forall_app. split.
  - eapply Forall_impl; [exact C1|]. intros u Hu. exists o. split; [by left|done].
  - eapply Forall_impl; [exact C2|]. intros u (o' & Ho & Hu). exists o'. split; [by right|done].
Qed.

Lemma new_ready b : wf (NewAggregatedFrameSequencer b) /\ ready (NewAggregatedFrameSequencer b).
Proof. split; [constructor|done]. Qed.

Lemma run_in_order b os out s : performAll os (NewAggregatedFrameSequencer b) = Some (out, s) ->
  allRegistered os = releasedIn out ++ skips (queue s) /\ wf s /\ ready s
  /\ Forall (fun u => exists o, In o os /\ contextOf o = Some (ofContext u)) (queue s).
Proof.
  destruct (new_ready b) as [W R]. intros E. destruct (performAll_spec _ _ _ _ W R E) as (reg & (W' & R' & gone & Q & Eo) & K & C).
  cbn in Q. split_and!; [by rewrite <- K, Q, Eo, skips_app|done|done|]. rewrite Q in C. by apply Forall_app in C as [_ C].
Qed.

(** ** Interruptions *)

(** What can be asked of a sequencer, an interruption's [Clear] included. *)
Inductive request := Asked (o : operation) | Cleared.

Definition answer (r : request) (s : Sequencer) : option (list output * Sequencer) :=
  match r with Asked o => perform o s | Cleared => Some ([], Clear s) end.

Fixpoint answerAll (rs : list request) (s : Sequencer) : option (list output * Sequencer) :=
  match rs with
  | [] => Some ([], s)
  | r :: rs =>
    '(out, s) ← answer r s;
    '(more, s) ← answerAll rs s;
    Some (out ++ more, s)
  end.

(** The skipped frames asked for, in order. *)
Definition asked (rs : list request) : list nat :=
  List.concat (List.map (fun r => match r with Asked o => registered o | Cleared => [] end) rs).

(** How the skipped frames leave the queue, in order: pushed, or dropped by a [Clear]. *)
Fixpoint leave (rs : list request) (s : Sequencer) : list (bool * nat) :=
  match rs with
  | [] => []
  | r :: rs =>
    match answer r s with
    | Some (out, s') =>
      match r with
      | Asked _ => List.map (pair true) (releasedIn out)
      | Cleared => List.map (pair false) (skips (queue s))
      end ++ leave rs s'
    | None => []
    end
  end.

Lemma snd_pairs (b : bool) (l : list nat) : List.map snd (List.map (pair b) l) = l.
Proof. induction l as [|x l IH]; [done|]. simpl. by rewrite IH. Qed.

Lemma pushed_pairs (b : bool) (l : list nat) : List.map snd (List.filter fst (List.map (pair b) l)) = if b then l else [].
Proof. induction l as [|x l IH]; [by destruct b|]. simpl. destruct b; simpl; [by rewrite IH|done]. Qed.

Lemma answerAll_spec rs s out s' : wf s -> ready s -> answerAll rs s = Some (out, s') ->
  skips (queue s) ++ asked rs = List.map snd (leave rs s) ++ skips (queue s') /\
  releasedIn out = List.map snd (List.filter fst (leave rs s)) /\ ready s'.
Proof.
  revert s out s'. induction rs as [|r rs IH]; intros s out s' W R; cbn [answerAll leave].
  { intros [= <- <-]. unfold asked. cbn. by rewrite app_nil_r. }
  destruct (answer r s) as [[o1 s1]|] eqn:E1; [|done]. cbn [mbind option_bind].
  destruct (answerAll rs s1) as [[o2 s2]|] eqn:E2; [|done]. cbn [mbind option_bind]. intros [= <- <-].
  rewrite List.filter_app, !List.map_app, releasedIn_app. unfold asked. cbn [List.map List.concat].
  fold (asked rs). destruct r as [o|].
  - destruct (perform_spec _ _ _ _ W R E1) as (reg & (W1 & R1 & gone & Q & Eo) & Hreg & _).
    destruct (IH s1 o2 s2 W1 R1 E2) as (I1 & I2 & I3). rewrite snd_pairs, pushed_pairs, I2, Eo. split; [|by split].
    rewrite <- Hreg, <- app_assoc, <- I1, !app_assoc. f_equal. rewrite <- !skips_app. by rewrite Q.
  - injection E1 as <- <-. destruct (IH (Clear s) o2 s2 ltac:(constructor) I E2) as (I1 & I2 & I3).
    rewrite snd_pairs, pushed_pairs, I2. split; [|by split]. cbn in I1. by rewrite <- app_assoc, <- I1.
Qed.

(** C25: the skipped frames leave in the order in which they were registered, each once:
    pushed, or dropped by an interruption's [Clear] with whatever waits then; none
    otherwise, and those still waiting are the last.  One waits only while a sentence
    ahead of it is still to be spoken.  So it is whatever sentences, words, completions,
    closing contexts and interruptions come between, in a run in which none of them
    panics. *)
Theorem skipped_in_order b rs out s : answerAll rs (NewAggregatedFrameSequencer b) = Some (out, s) ->
  asked rs = List.map snd (leave rs (NewAggregatedFrameSequencer b)) ++ skips (queue s) /\
  releasedIn out = List.map snd (List.filter fst (leave rs (NewAggregatedFrameSequencer b))) /\ ready s.
Proof. destruct (new_ready b) as [W R]. exact (answerAll_spec rs _ out s W R). Qed.

(** ** The end of a context *)

Lemma flushSlots_nothing pts ss : Forall pendingSkip ss -> Forall (fun sl => spoken sl = true -> complete sl = true) ss ->
  snd (flushSlots pts ss) = [].
Proof.
  induction 1 as [|sl ss Hsl W IH]; [done|]. intros Hc. apply Forall_cons in Hc as [Hc1 Hc]. specialize (IH Hc). cbn [flushSlots].
  destruct (spoken sl) eqn:Es.
  - by rewrite (Hc1 eq_refl).
  - rewrite (Hsl Es). cbn [andb negb]. by destruct (flushSlots pts ss).
Qed.

Lemma closeSlots_closed c pts s ss out ss' : closeSlots c pts s ss = Some (out, ss') -> Forall (fun sl => contextID sl = c) ss ->
  Forall (fun sl => spoken sl = true -> complete sl = true) ss'.
Proof.
  revert out ss'. induction ss as [|sl ss IH]; intros out ss'; cbn [closeSlots]; [by intros [= <- <-]; constructor|].
  intros E Hc. apply Forall_cons in Hc as [Hc1 Hc]. revert E. destruct (negb (spoken sl) || complete sl || _) eqn:Ec.
  - destruct (closeSlots c pts s ss) as [[o1 s1]|]; [|done]. cbn [mbind option_bind]. intros [= <- <-]. constructor; [|by eapply IH].
    intros Hs. rewrite Hs, bool_decide_true in Ec by done. by rewrite orb_false_r in Ec.
  - destruct (closingWord pts s sl) as [w|] eqn:Ew; [|done]. cbn [mbind option_bind].
    destruct (closeSlots c pts s ss) as [[o1 s1]|]; [|done]. cbn [mbind option_bind]. intros [= <- <-]. constructor; [done|by eapply IH].
Qed.

Lemma performAll_app os1 os2 s : performAll (os1 ++ os2) s =
  '(o1, s1) ← performAll os1 s; '(o2, s2) ← performAll os2 s1; Some (o1 ++ o2, s2).
Proof.
  revert s. induction os1 as [|o os1 IH]; intros s; cbn [performAll app].
  { cbn [mbind option_bind]. by destruct (performAll os2 s) as [[]|]. }
  destruct (perform o s) as [[o1 s1]|]; [|done]. cbn [mbind option_bind]. rewrite IH.
  destruct (performAll os1 s1) as [[o2 s2]|]; [|done]. cbn [mbind option_bind].
  destruct (performAll os2 s2) as [[o3 s3]|]; [|done]. cbn [mbind option_bind]. by rewrite app_assoc.
Qed.

Lemma closing_empties c pts s out s' : wf s -> Forall (fun sl => contextID sl = c) (slots s) ->
  forceCompleteLocked c pts s = Some (out, s') -> slots s' = [].
Proof.
  intros W Hc. unfold forceCompleteLocked. destruct (closeSlots c pts s (slots s)) as [[o1 ss]|] eqn:E; [|done]. cbn [mbind option_bind].
  destruct (closeSlots_spec _ _ _ _ _ _ W E) as (_ & W1 & _).
  pose proof (flushSlots_nothing pts ss W1 (closeSlots_closed _ _ _ _ _ _ E Hc)) as Hf. unfold flushLocked. cbn.
  destruct (flushSlots pts ss) as [more rest]. intros [= _ <-]. exact Hf.
Qed.

(** Once its context is closed, everything registered for a turn has gone out: with
    one context, all the skipped frames have left, in the order they were registered, and
    nothing waits any more, even if the provider dropped word timings on the way. *)
Theorem closing_releases_all b c pts os out s :
  Forall (fun o => match contextOf o with Some c' => c' = c | None => True end) os ->
  performAll (os ++ [ForceComplete c pts]) (NewAggregatedFrameSequencer b) = Some (out, s) ->
  slots s = [] /\ releasedIn out = allRegistered os.
Proof.
  intros Hc E. assert (slots s = []) as Hs.
  { rewrite performAll_app in E. destruct (performAll os _) as [[o1 s1]|] eqn:E1; [|done]. cbn [mbind option_bind performAll perform] in E.
    apply run_in_order in E1 as (_ & W & _ & C). destruct (forceCompleteLocked c pts s1) as [[o2 s2]|] eqn:E2; [|done].
    cbn [mbind option_bind] in E. injection E as _ <-. eapply closing_empties; [done| |exact E2]. unfold queue in C.
    rewrite List.Forall_forall in C, Hc |- *. intros sl Hsl. destruct (C _ (List.in_map unit_ _ _ Hsl)) as (o & Ho & Hctx). cbn in Hctx.
    specialize (Hc o Ho). by rewrite Hctx in Hc. }
  split; [done|]. apply run_in_order in E as (Q & _). unfold queue in Q. rewrite Hs, app_nil_r in Q.
  rewrite <- Q. unfold allRegistered. by rewrite List.map_app, List.concat_app, app_nil_r.
Qed.

(** ** A word that runs on *)

(** The slots that could take a word. *)
Definition takers (c : gostring) (ss : list slot) : nat := List.length (List.filter (slotMatches c) ss).

Lemma takers_alter c i f ss : (forall sl, ss !! i = Some sl -> slotMatches c (f sl) = slotMatches c sl) -> takers c (alter f i ss) = takers c ss.
Proof.
  unfold takers. revert i. induction ss as [|sl ss IH]; intros [|i] Hf; cbn; try done.
  - rewrite (Hf sl eq_refl). by destruct (slotMatches c sl).
  - by destruct (slotMatches c sl); cbn; rewrite IH by done.
Qed.

Lemma takers_complete c i ss sl : ss !! i = Some sl -> slotMatches c sl = true ->
  S (takers c (alter (fun sl => sl <| complete := true |>) i ss)) = takers c ss.
Proof.
  unfold takers. revert i. induction ss as [|sl' ss IH]; intros [|i]; cbn; try done.
  - intros [= ->] Hm. rewrite Hm. unfold slotMatches. cbn. by rewrite andb_false_r.
  - intros Hl Hm. specialize (IH i Hl Hm). destruct (slotMatches c sl'); cbn; [f_equal|]; exact IH.
Qed.

Lemma takers_flush c pts ss : (takers c (snd (flushSlots pts ss)) <= takers c ss)%nat.
Proof.
  unfold takers. induction ss as [|sl ss IH]; [done|]. cbn [flushSlots]. destruct (flushSlots pts ss) as [out rest]. cbn in *.
  destruct (spoken sl && complete sl); [destruct (slotMatches c sl); cbn; lia|].
  destruct (negb (spoken sl) && _); cbn; [destruct (slotMatches c sl); cbn; lia|lia].
Qed.

Lemma takers_bound c ss : (takers c ss <= List.length ss)%nat.
Proof. apply List.filter_length_le. Qed.

Lemma addToActive_takers c i w s spent o s' : addToActive (Some i) w s = Some (spent, o, s') ->
  takers c (slots s') = takers c (slots s) /\ forall sl, slots s !! i = Some sl -> slotMatches c sl = true ->
    exists sl', slots s' !! i = Some sl' /\ slotMatches c sl' = true.
Proof.
  unfold addToActive. destruct (slots s !! i) as [sl0|] eqn:E; cbn [mbind option_bind]; [|intros [= <- <- <-]; split; [done|]; rewrite E; done].
  destruct (tracker sl0) as [t|] eqn:Et; [|intros [= <- <- <-]; split; [done|]; rewrite E; intros sl [= ->] Hsl; by exists sl].
  destruct (WordTracker.AddWord (runesOf w) t) as [[b t']|]; [|done]. intros [= <- <- <-].
  assert (forall t', slotMatches c (sl0 <| tracker := Some t' |>) = slotMatches c sl0) as Hm by (unfold slotMatches; cbn; by rewrite Et).
  cbn. split.
  - apply takers_alter. rewrite E. intros sl [= <-]. apply Hm.
  - intros sl [= <-] Hsl. rewrite list_lookup_alter_eq, E. exists (sl0 <| tracker := Some t' |>). split; [done|by rewrite Hm].
Qed.

Lemma emitted i w pts c ifs s out s' : emitWord (Some i) w pts c ifs s = Some (out, s') ->
  s' = s \/ s' = updSlot i (fun sl => sl <| includesInterFrame := true |>) s.
Proof.
  unfold emitWord. set (s1 := updSlot _ _ s). intros E. assert (s' = if ifs then s1 else s) as ->; [|destruct ifs; auto].
  revert E. set (s2 := if ifs then s1 else s). destruct (slots s2 !! i) as [sl|]; [|by intros [= _ <-]].
  destruct (tracker sl); [|by intros [= _ <-]]. destruct (WordTracker.Suppress _); cbn [mbind option_bind]; [by intros [= _ <-]|].
  destruct (buildProgressFrame _ _ _); [|done]. cbn [mbind option_bind]. by intros [= _ <-].
Qed.

Lemma emitWord_takers c i w pts c' ifs s out s' : emitWord (Some i) w pts c' ifs s = Some (out, s') ->
  takers c (slots s') = takers c (slots s) /\ forall sl, slots s !! i = Some sl -> slotMatches c sl = true ->
    exists sl', slots s' !! i = Some sl' /\ slotMatches c sl' = true.
Proof.
  intros E. destruct (emitted _ _ _ _ _ _ _ _ E) as [->| ->]; [eauto|]. cbn. split.
  - by apply takers_alter.
  - intros sl Hl Hm. rewrite list_lookup_alter_eq, Hl. eexists. split; [reflexivity|exact Hm].
Qed.

Lemma processWord_stable f1 : forall f2 w pts c ifs s, (takers c (slots s) < f1)%nat -> (takers c (slots s) < f2)%nat ->
  processWord f1 w pts c ifs s = processWord f2 w pts c ifs s.
Proof.
  induction f1 as [|f1 IH]; intros [|f2] w pts c ifs s H1 H2; try lia. cbn [processWord].
  destruct (negb _ && _ && _); [done|]. destruct (routeWord _ _ _ _ _ s); [done|].
  destruct (addToActive (activeSlot c s) w s) as [[[spent over] s1]|] eqn:Ea; [|done]. cbn [mbind option_bind].
  destruct (emitWord (activeSlot c s) w pts c ifs s1) as [[o2 s2]|] eqn:Ee; [|done]. cbn [mbind option_bind].
  destruct spent; [|done]. destruct (activeSlot c s) as [i|] eqn:Ei; [|done].
  destruct (active_spec _ _ _ Ei) as (sl & Hl & Hm).
  destruct (addToActive_takers c _ _ _ _ _ _ Ea) as [T1 L1]. destruct (L1 sl Hl Hm) as (sl1 & Hl1 & Hm1).
  destruct (emitWord_takers c _ _ _ _ _ _ _ _ Ee) as [T2 L2]. destruct (L2 sl1 Hl1 Hm1) as (sl2 & Hl2 & Hm2).
  unfold flushLocked. set (s3 := updSlot i _ s2).
  assert (S (takers c (slots s3)) = takers c (slots s2)) as T3 by exact (takers_complete c i (slots s2) sl2 Hl2 Hm2).
  pose proof (takers_flush c pts (slots s3)) as T4. destruct (flushSlots pts (slots s3)) as [more rest].
  assert (takers c rest <= takers c (slots s3))%nat as T5 by exact T4. clear T4. case_bool_decide; [done|]. clearbody s3.
  rewrite (IH f2); [done| |]; cbn [slots setter]; fold (takers c rest); lia.
Qed.

(** A word that runs over the end of a sentence is carried to the next, and this
    ends: with any number of rounds from that of the waiting sentences on, the outcome
    is one and the same, so [processWordLocked] answers what the unbounded recursion of
    the code answers. *)
Theorem running_on_ends fuel w pts c ifs s : (List.length (slots s) < fuel)%nat ->
  processWord fuel w pts c ifs s = processWordLocked w pts c ifs s.
Proof.
  intros Hf. apply processWord_stable; pose proof (takers_bound c (slots s)); lia.
Qed.

End Facts.

(** A turn: two sentences with a block between them, their words, and the end. *)
Definition sentence (n : nat) (t : gostring) : AggregatedTextFrame := mkFrame n t TextAgg.AggregationSentence [] [] true false [] None.
Definition aTurn : list operation :=
  [RegisterSpoken (sentence 1 (bytes_of "Here it is.")) (bytes_of "c") (bytes_of "Here it is.") true true false;
   RegisterSkipped (sentence 2 (bytes_of "let x = 1")) (bytes_of "c") [];
   RegisterSpoken (sentence 3 (bytes_of "All done.")) (bytes_of "c") (bytes_of "All done.") true true false;
   RegisterSkipped (sentence 4 (bytes_of "y")) (bytes_of "c") [];
   ProcessWord (bytes_of "Here") 1 (bytes_of "c") false; ProcessWord (bytes_of "it") 2 (bytes_of "c") false; ProcessWord (bytes_of "is.") 3 (bytes_of "c") false].

Section Witnesses.
#[local] Instance noTokenizer : SentenceTokenizer := fun _ => 0.
#[local] Existing Instance WordText.ascii.

Definition turnEnd (os : list operation) : option (list output * Sequencer) := performAll os (NewAggregatedFrameSequencer false).

(** The turn is interrupted before its second sentence is spoken, and a block follows:
    the first block was pushed, the second is dropped, the third is pushed at once. *)
Definition cutShort : list request :=
  List.map Asked aTurn ++ [Cleared; Asked (RegisterSkipped (sentence 5 (bytes_of "z")) (bytes_of "d") [])].

Lemma skipped_in_order_witness :
  match answerAll cutShort (NewAggregatedFrameSequencer false) with
  | Some (out, s) => releasedIn out = [2%nat; 5%nat] /\ skips (queue s) = [] /\
      (asked cutShort = List.map snd (leave cutShort (NewAggregatedFrameSequencer false)) ++ skips (queue s) /\
       releasedIn out = List.map snd (List.filter fst (leave cutShort (NewAggregatedFrameSequencer false))) /\ ready s) /\
      leave cutShort (NewAggregatedFrameSequencer false) = [(true, 2%nat); (false, 4%nat); (true, 5%nat)]
  | None => False
  end.
Proof.
  destruct (answerAll cutShort (NewAggregatedFrameSequencer false)) as [[out s]|] eqn:E; [|vm_compute in E; discriminate].
  pose proof (skipped_in_order false cutShort out s E) as H. vm_compute in E. injection E as <- <-.
  split; [reflexivity|]. split; [reflexivity|]. split; [exact H|vm_compute; reflexivity].
Defined.

Lemma closing_releases_all_witness :
  match turnEnd (aTurn ++ [ForceComplete (bytes_of "c") 5]) with
  | Some (out, s) => slots s = [] /\ releasedIn out = [2%nat; 4%nat]
  | None => False
  end.
Proof.
  destruct (turnEnd (aTurn ++ [ForceComplete (bytes_of "c") 5])) as [[out s]|] eqn:E; [|vm_compute in E; discriminate].
  apply (closing_releases_all false (bytes_of "c") 5 aTurn out s); [|exact E]. repeat constructor.
Defined.

Lemma running_on_ends_witness :
  let s := snd (default ([], NewAggregatedFrameSequencer false) (turnEnd aTurn)) in
  processWord 9 (bytes_of "All") 4 (bytes_of "c") false s = processWordLocked (bytes_of "All") 4 (bytes_of "c") false s.
Proof. intros s. apply (running_on_ends 9 (bytes_of "All") 4 (bytes_of "c") false s). vm_compute. lia. Defined.
End Witnesses.
End SequencerFacts.
