(* ===== verification/Tts.v ===== *)
(** * The speech-synthesis base

    [src/service/tts/]: [tts.go], with the audio contexts ([audiocontext.go]), the
    pause that waits for a turn's audio ([pause.go]), the count of silent contexts
    ([silentcontext.go]), padding and addressing ([output.go]) and the spacing of
    streamed tokens ([textaggregation.go]).

    Three goroutines share the state: the one handling frames in order, the one handling
    system frames, and the one that plays the contexts out.  A provider adds to the
    contexts from a fourth.  What a goroutine does is a program ([prog]) whose actions
    are the critical sections of the code, one access of a field where there is no
    mutex; [Sys] runs them in any order.  [src/service/tts/settings] updates, tracing and
    the metrics are left out, and pushes are taken to succeed.

    The [log] records what is done, in order: what is pushed and what is handed to the
    provider, and the queue operations by which the theorems speak of order. *)

From S2P Require Import Prelude Float64 Text Strings TextAgg SeqMatcher WordText SegmentMap WordTracker Sequencer.

Declare Scope tts_scope.

Module Tts.
Local Open Scope Z_scope.
Abbreviation AggregationType := TextAgg.AggregationType.
Abbreviation Aggregation := TextAgg.Aggregation.
Abbreviation Sequencer := Sequencer.Sequencer.
#[local] Existing Instance Sequencer.eta_AggregatedTextFrame.

(** ** Frames *)

Inductive frame :=
| TextFrame (llm : bool) (text : gostring) (skipTTS : bool)
| TTSSpeakFrame (text : gostring) (append : bool)
| LLMFullResponseStartFrame (skipTTS : bool)
| LLMFullResponseEndFrame (id : nat) (skipTTS : bool) (pts : option Z)
| EndFrame
| InterruptionFrame
| CancelFrame
| StartFrame
| BotStartedSpeakingFrame
| BotStoppedSpeakingFrame
| TTSStartedFrame (contextID : gostring) (append : bool)
| TTSAudioRawFrame (audio : gostring)
| TTSStoppedFrame (contextID : gostring)
| LLMAssistantPushAggregationFrame (pts : option Z)
| Written (o : Sequencer.output)
| ErrorFrame (permanent : bool)
| OtherFrame (id : nat) (system : bool).

Definition isSystem (f : frame) : bool :=
  match f with
  | InterruptionFrame | CancelFrame | StartFrame | BotStartedSpeakingFrame | BotStoppedSpeakingFrame | ErrorFrame _ => true
  | OtherFrame _ system => system
  | _ => false
  end.
Definition uninterruptible (f : frame) : bool := match f with EndFrame => true | _ => false end.

Definition skipsTTS (f : frame) : bool :=
  match f with
  | TextFrame _ _ skip | LLMFullResponseStartFrame skip | LLMFullResponseEndFrame _ skip _ => skip
  | _ => false
  end.

Inductive direction := Downstream | Upstream.
#[export] Instance direction_dec : EqDecision direction. Proof. solve_decision. Defined.

(** ** Contexts and the serialization queue *)

Inductive ctxItem :=
| IFrame (f : frame)
| IWord (word : gostring) (offset : f64) (includesInterFrame : bool)
| IKeepalive
| IEnd.

(** [object] numbers the contexts in the order they are made. *)
Record audioContext := mkContext {
  object : nat;
  items : list ctxItem;
  texts : list gostring;
  chars : Z;
  initialWordTimestamp : Z;
  pendingWords : list ctxItem
}.
#[export] Instance eta_audioContext : Eta audioContext := fun c =>
  mkContext (object c) (items c) (texts c) (chars c) (initialWordTimestamp c) (pendingWords c).
Definition newAudioContext (o : nat) : audioContext := mkContext o [] [] 0 (-1) [].

Record ttsContext := mkTTSContext { appendToContext : bool; pushAssistantAggregation : bool }.

Inductive serialItem := SContext (contextID : gostring) | SFrame (f : frame) | SEnd.

(** ** The service *)

(** A text aggregator, as an object. *)
Record aggregator := mkAggregator {
  aggState : Type;
  aggNow : aggState;
  aggAggregate : gostring -> aggState -> option (list Aggregation * aggState);
  aggFlush : aggState -> option Aggregation * aggState;
  aggReset : aggState -> aggState;
  aggType : AggregationType
}.
Definition aggWith (a : aggregator) (now : aggState a) : aggregator :=
  mkAggregator (aggState a) now (aggAggregate a) (aggFlush a) (aggReset a) (aggType a).

(** A text filter, told of interruptions if it asks to be. *)
Record filter := mkFilter {
  filterState : Type;
  filterNow : filterState;
  Filter : gostring -> filterState -> gostring * filterState;
  HandleInterruption : filterState -> filterState;
  ResetInterruption : filterState -> filterState
}.
Definition filterWith (f : filter) (now : filterState f) : filter :=
  mkFilter (filterState f) now (Filter f) (HandleInterruption f) (ResetInterruption f).

Record transformer := mkTransformer {
  tAggregatedBy : AggregationType;
  Transform : gostring -> AggregationType -> option gostring
}.

Record config := mkConfig {
  wordPath : bool;                 (** the provider times its words *)
  creates : bool; completes : bool; flushes : bool; interrupts : bool; contextCompletes : bool;
                                   (** the optional interfaces it implements *)
  SampleRate : Z;
  appendTrailingSpace : bool;
  skipTypes : list AggregationType;
  transforms : list transformer;
  pauseEnabled : bool;
  zeroAudioLimit : Z;
  silenceEnabled : bool; silenceDuration : Z;
  destination : gostring
}.

Inductive call :=
| OnTurnContextCreated (c : gostring)
| OnTurnContextCompleted (c : gostring)
| FlushAudio (c : gostring)
| OnAudioContextInterrupted (c : gostring)
| OnAudioContextCompleted (c : gostring).

(** Who acts: the goroutines handling frames, or the one playing contexts out. *)
Inductive who := Handlers | Playback.
#[export] Instance who_dec : EqDecision who. Proof. solve_decision. Defined.

Inductive event :=
| Handling (f : frame)
| Restarted
| Canceled
| SerialReset
| Queued (it : serialItem)
| Appended (o : nat) (it : ctxItem)
| Fetched (it : serialItem)
| Took (o : nat) (it : ctxItem)
| Finished (c : gostring) (o : nat) (receivedAudio : bool)
| CutShort
| LoopCut
| LoopEnded
| Pushed (w : who) (carried : bool) (f : frame) (d : direction) (dest : gostring)
| Told (c : call)
| UsableSet (usable : bool)
| Paused
| Resumed.

Record Tts := mkTts {
  cfg : config;
  agg : aggregator;
  filters : list filter;
  sequencer : Sequencer;
  audioContexts : gmap gostring audioContext;
  ttsContexts : gmap gostring ttsContext;
  pendingResponseEnd : gmap gostring nat;   (** the frames, by their identifiers *)
  epoch : nat;                       (** which serialization queue is [b.serial]; none is number 0 *)
  serial : list serialItem;
  ctxCancelSet : bool;               (** [b.ctxCancel] is there to call *)
  loopCanceled : bool;               (** so is what was never started *)
  loopRunning : bool;
  doneEpoch : nat;                   (** the last queue whose [done] is closed *)
  yieldsSync : bool;
  wordLastPTS : Z;
  turnContext : gostring;
  llmResponseStarted : bool;
  processingText : bool;
  botSpeaking : bool;
  sentNonWhitespace : bool;
  zeroAudioRun : Z;
  usable : bool;
  framesPaused : bool;
  ctxCanceled : bool;                (** the context of the frame being handled in order *)
  clock : Z;
  drawn : nat;                       (** identifiers drawn so far *)
  panicked : bool;
  log : list event
}.
#[export] Instance eta_Tts : Eta Tts := fun s =>
  mkTts (cfg s) (agg s) (filters s) (sequencer s) (audioContexts s) (ttsContexts s) (pendingResponseEnd s) (epoch s) (serial s)
    (ctxCancelSet s) (loopCanceled s) (loopRunning s) (doneEpoch s) (yieldsSync s) (wordLastPTS s) (turnContext s) (llmResponseStarted s) (processingText s)
    (botSpeaking s) (sentNonWhitespace s) (zeroAudioRun s) (usable s) (framesPaused s) (ctxCanceled s) (clock s) (drawn s)
    (panicked s) (log s).

Definition emit (e : event) (s : Tts) : Tts := s <| log ::= fun l => l ++ [e] |>.

(** ** Programs

    What a provider answers when asked to speak: what it yields and the words it
    reports, in order, and whether it failed. *)
Inductive provided :=
| Yield (f : frame)
| Words (ws : list WordText.WordTiming) (includesInterFrameSpaces preMergeTokens : bool).
Record answer := mkAnswer { given : list provided; failed : option bool }.

(** An action has the outcomes listed; with none it waits. *)
Inductive prog (A : Type) : Type :=
| Ret (a : A)
| Act (R : Type) (f : Tts -> list (R * Tts)) (k : R -> prog A)
| Ask (text contextID : gostring) (k : answer -> prog A).
Arguments Ret {A} a. Arguments Act {A R} f k. Arguments Ask {A} text contextID k.

Fixpoint bind {A B} (p : prog A) (k : A -> prog B) : prog B :=
  match p with
  | Ret a => k a
  | Act f k' => Act f (fun r => bind (k' r) k)
  | Ask t c k' => Ask t c (fun a => bind (k' a) k)
  end.
Notation "'let!' x ':=' p 'in' q" := (bind p (fun x => q))
  (at level 10, x name, p at level 100, q at level 200) : tts_scope.
Notation "p ;;; q" := (bind p (fun _ => q)) (at level 100, q at level 200, right associativity) : tts_scope.
Local Open Scope tts_scope.

Definition skip : prog unit := Ret tt.
Definition get {A} (f : Tts -> A) : prog A := Act (fun s => [(f s, s)]) Ret.
Definition act {A} (f : Tts -> A * Tts) : prog A := Act (fun s => [f s]) Ret.
Definition do_ (f : Tts -> Tts) : prog unit := Act (fun s => [(tt, f s)]) Ret.
Definition await (c : Tts -> bool) : prog unit := Act (fun s => if c s then [(tt, s)] else []) Ret.
Definition when (b : bool) (p : prog unit) : prog unit := if b then p else skip.
Fixpoint each {A} (l : list A) (p : A -> prog unit) : prog unit :=
  match l with [] => skip | a :: l => p a ;;; each l p end.

(** [uuid.NewString]: no identifier is drawn twice, and none is empty. *)
Class Uuid := NewString : nat -> gostring.
Class UuidOk (u : Uuid) : Prop := {
  uuid_fresh : forall m n, NewString m = NewString n -> m = n;
  uuid_some : forall n, NewString n <> []
}.

Section Service.
Context {U : WordText.Unicode} {tok : TextAgg.SentenceTokenizer} {uuid : Uuid}.

(** ** The contexts *)

Definition ctxOf (c : gostring) (o : nat) (s : Tts) : option audioContext :=
  a ← audioContexts s !! c; if Nat.eqb (object a) o then Some a else None.
Definition updCtx (c : gostring) (o : nat) (f : audioContext -> audioContext) (s : Tts) : Tts :=
  match ctxOf c o s with Some a => s <| audioContexts ::= insert c (f a) |> | None => s end.

Definition audioContextFor (c : gostring) : prog (option nat) :=
  get (fun s => if bool_decide (c = []) then None else object <$> audioContexts s !! c).
Definition AudioContextAvailable (c : gostring) : prog bool := let! o := audioContextFor c in Ret (bool_decide (is_Some o)).

(** [audioContext.push]; one that has been forgotten takes what no one will see. *)
Definition pushItem (c : gostring) (o : nat) (it : ctxItem) (s : Tts) : Tts :=
  match ctxOf c o s with
  | Some a => emit (Appended o it) (s <| audioContexts ::= insert c (a <| items ::= fun l => l ++ [it] |>) |>)
  | None => s
  end.
Definition push (c : gostring) (it : ctxItem) : prog unit :=
  let! o := audioContextFor c in
  match o with Some o => do_ (pushItem c o it) | None => skip end.
Definition AppendToAudioContext (c : gostring) (f : frame) : prog unit := push c (IFrame f).
Definition AppendWordToAudioContext (c word : gostring) (offset : f64) : prog unit := push c (IWord word offset false).
Definition RemoveAudioContext (c : gostring) : prog unit := push c IEnd.
Definition refreshAudioContext (c : gostring) : prog unit := push c IKeepalive.
Definition AddWordTimestamps (c : gostring) (ws : list WordText.WordTiming) (ifs preMerge : bool) : prog unit :=
  let ws := if preMerge then WordText.MergePunctTokens ws else ws in
  let! o := audioContextFor c in
  match o with
  | Some o => each ws (fun w => do_ (pushItem c o (IWord (ofRunes (WordText.Word w)) (WordText.Offset w) ifs)))
  | None => skip
  end.

Definition addText (t : gostring) (a : audioContext) : audioContext :=
  a <| texts ::= fun l => l ++ [t] |> <| chars ::= fun n => n + Z.of_nat (List.length (runesOf t)) |>.
Definition startWordTimestamps (now lastPTS : Z) (a : audioContext) : list ctxItem * audioContext :=
  if 0 <=? initialWordTimestamp a then ([], a)
  else (pendingWords a, a <| initialWordTimestamp := Z.max now lastPTS |> <| pendingWords := [] |>).
Definition wordPTS (offset : f64) (a : audioContext) : option Z :=
  if initialWordTimestamp a <? 0 then None else Some (int64 (initialWordTimestamp a + duration_of_secs offset)).
Definition holdWord (it : ctxItem) (a : audioContext) : audioContext := a <| pendingWords ::= fun l => l ++ [it] |>.

(** ** The serialization queue *)

Definition pushSerial (e : nat) (it : serialItem) (s : Tts) : Tts :=
  if Nat.eqb e (epoch s) then emit (Queued it) (s <| serial ::= fun l => l ++ [it] |>) else s.

Definition CreateAudioContext (c : gostring) : prog unit :=
  let! e := act (fun s => (epoch s, s <| audioContexts ::= insert c (newAudioContext (drawn s)) |> <| drawn ::= S |>)) in
  when (negb (Nat.eqb e 0)) (do_ (pushSerial e (SContext c))).

Definition setTTSContext (c : gostring) (t : ttsContext) : prog unit := do_ (fun s => s <| ttsContexts ::= insert c t |>).
Definition appendsToContext (c : gostring) : prog bool :=
  get (fun s => match ttsContexts s !! c with Some t => appendToContext t | None => true end).
Definition takeTTSContext (c : gostring) : prog (option ttsContext) :=
  act (fun s => (ttsContexts s !! c, s <| ttsContexts ::= delete c |>)).
Definition deleteTTSContext (c : gostring) : prog unit := do_ (fun s => s <| ttsContexts ::= delete c |>).
Definition holdResponseEnd (c : gostring) (i : nat) : prog unit := do_ (fun s => s <| pendingResponseEnd ::= insert c i |>).
Definition takeResponseEnd (c : gostring) : prog (option nat) :=
  act (fun s => (pendingResponseEnd s !! c, s <| pendingResponseEnd ::= delete c |>)).
Definition hasOpenAudioContexts (s : Tts) : bool := negb (bool_decide (audioContexts s = ∅)).
Definition deleteAudioContext (c : gostring) : prog unit := do_ (fun s => s <| audioContexts ::= delete c |>).

(** ** Pushing *)

Definition stampDestination (f : frame) (s : Tts) : gostring :=
  match f with
  | TTSStartedFrame _ _ | TTSStoppedFrame _ | TTSAudioRawFrame _ | Written (Sequencer.Word _) => destination (cfg s)
  | _ => []
  end.
Definition basePush (w : who) (carried : bool) (f : frame) (d : direction) : prog unit :=
  do_ (fun s => emit (Pushed w carried f d (stampDestination f s)) s).

Definition maybeCloseAssistantTurn (w : who) (c : gostring) : prog unit :=
  let! t := takeTTSContext c in
  match t with
  | Some t =>
    when (pushAssistantAggregation t)
      (let! pts := get wordLastPTS in
       basePush w false (LLMAssistantPushAggregationFrame (if 0 <? pts then Some (int64 (pts + 1)) else None)) Downstream)
  | None => skip
  end.

(** [Duration.Seconds] *)
Definition seconds (d : Z) : f64 :=
  f64_add (f64_of_Z (Z.quot d 1000000000)) (f64_div (f64_of_Z (Z.rem d 1000000000)) (f64_of_Z 1000000000)).
Definition pushTrailingSilence (w : who) : prog unit :=
  let! c := get cfg in
  when (silenceEnabled c && (0 <? SampleRate c))
    (let n := to_int (f64_trunc (f64_mul (seconds (silenceDuration c)) (f64_of_Z (SampleRate c)))) * 2 in
     when (0 <? n) (basePush w false (TTSAudioRawFrame (replicate (Z.to_nat n) 0)) Downstream)).

(** [carried] marks what was queued to be pushed, as against what is made on the way. *)
Definition PushFrame (w : who) (carried : bool) (f : frame) (d : direction) : prog unit :=
  match f with
  | TTSStoppedFrame c => when (negb (bool_decide (c = []))) (maybeCloseAssistantTurn w c) ;;; pushTrailingSilence w
  | _ => skip
  end ;;;
  basePush w carried f d.

Definition PushError (w : who) (permanent : bool) : prog unit :=
  when permanent (do_ (fun s => emit (UsableSet false) (s <| usable := false |>))) ;;;
  PushFrame w false (ErrorFrame permanent) Upstream.
Definition SetUsable (b : bool) : prog unit :=
  when b (do_ (fun s => s <| zeroAudioRun := 0 |>)) ;;; do_ (fun s => emit (UsableSet b) (s <| usable := b |>)).

Definition queueSerial (f : frame) (d : direction) : prog unit :=
  if isSystem f || negb (bool_decide (d = Downstream)) then PushFrame Handlers false f d
  else
    let! e := get epoch in
    if Nat.eqb e 0 then PushFrame Handlers false f d else do_ (pushSerial e (SFrame f)).

Definition setLastWordPTS (pts : Z) : prog unit :=
  do_ (fun s => if wordLastPTS s <? pts then s <| wordLastPTS := pts |> else s).
Definition pushSequencerFrames (w : who) (out : list Sequencer.output) : prog unit :=
  each out (fun o =>
    match o with
    | Sequencer.Word t => match Sequencer.wPTS t with Some pts => setLastWordPTS pts | None => skip end
    | _ => skip
    end ;;;
    PushFrame w false (Written o) Downstream).

(** An operation of the sequencer, under its mutex. *)
Definition sequence (f : Sequencer -> option (list Sequencer.output * Sequencer)) : prog (list Sequencer.output) :=
  act (fun s => match f (sequencer s) with
                | Some (out, q) => (out, s <| sequencer := q |>)
                | None => ([], s <| panicked := true |>)
                end).

(** ** Pausing *)

Definition setProcessingText (v : bool) : prog unit := do_ (fun s => s <| processingText := v |>).
Definition setBotSpeaking (v : bool) : prog unit := do_ (fun s => s <| botSpeaking := v |>).
Definition setSentNonWhitespace (v : bool) : prog unit := do_ (fun s => s <| sentNonWhitespace := v |>).
Definition setLLMResponding (v : bool) : prog unit := do_ (fun s => s <| llmResponseStarted := v |>).
Definition PauseProcessingFrames : prog unit := do_ (fun s => emit Paused (s <| framesPaused := true |>)).
Definition ResumeProcessingFrames : prog unit := do_ (fun s => emit Resumed (s <| framesPaused := false |>)).
Definition maybePauseFrameProcessing : prog unit :=
  let! st := get (fun s => (pauseEnabled (cfg s), processingText s, botSpeaking s)) in
  let '(enabled, processing, speaking) := st in
  when (processing && enabled)
    (let! open := (if (speaking : bool) then Ret true else get hasOpenAudioContexts) in when open PauseProcessingFrames).
Definition maybeResumeFrameProcessing : prog unit :=
  let! enabled := get (fun s => pauseEnabled (cfg s)) in when enabled ResumeProcessingFrames.

(** ** Playing out *)

(** Where the loop is: at the serialization queue, or in a context. *)
Inductive place := Fetching | Playing (c : gostring) (o : nat) (shouldPushStop receivedAudio : bool) | Exited.

Definition pushWord (w : who) (c : gostring) (o : nat) (it : ctxItem) : prog unit :=
  match it with
  | IWord word offset ifs =>
    let! pts := get (fun s => ctxOf c o s ≫= wordPTS offset) in
    match pts with
    | None => do_ (updCtx c o (holdWord it))
    | Some pts =>
      let! out := sequence (Sequencer.processWordLocked word pts c ifs) in pushSequencerFrames w out
    end
  | _ => skip
  end.

Definition applyForceComplete (w : who) (c : gostring) : prog unit :=
  let! pts := get wordLastPTS in
  let! out := sequence (Sequencer.forceCompleteLocked c pts) in
  pushSequencerFrames w out.

Definition releaseResponseEnd (c : gostring) : prog unit :=
  let! words := get (fun s => wordPath (cfg s)) in
  when words
    (let! held := takeResponseEnd c in
     let! f := (match held with
                | Some i => Ret (Some i)
                | None =>
                  let! responding := get llmResponseStarted in
                  if (responding : bool) then act (fun s => (Some (drawn s), s <| drawn ::= S |>)) else Ret None
                end) in
     match f with
     | None => skip
     | Some i =>
       setLLMResponding false ;;;
       let! pts := get wordLastPTS in
       PushFrame Playback false (LLMFullResponseEndFrame i false (Some pts)) Downstream
     end).

Definition recordContextAudioOutcome (receivedAudio : bool) : prog unit :=
  if receivedAudio then do_ (fun s => s <| zeroAudioRun := 0 |>)
  else
    let! speaking := get botSpeaking in
    when (negb speaking) maybeResumeFrameProcessing ;;;
    let! u := get usable in
    when u
      (let! run := act (fun s => (zeroAudioRun s + 1, s <| zeroAudioRun ::= fun n => n + 1 |>)) in
       let! limit := get (fun s => zeroAudioLimit (cfg s)) in
       PushError Playback ((0 <? limit) && (limit <=? run))).

(** What the loop does once [handleAudioContext] is over. *)
Definition contextDone (c : gostring) : prog place :=
  deleteAudioContext c ;;;
  deleteTTSContext c ;;;
  do_ (fun s => if contextCompletes (cfg s) then emit (Told (OnAudioContextCompleted c)) s else s) ;;;
  Ret Fetching.

Definition finishContext (c : gostring) (o : nat) (stop receivedAudio : bool) : prog place :=
  applyForceComplete Playback c ;;;
  when stop (PushFrame Playback false (TTSStoppedFrame c) Downstream) ;;;
  releaseResponseEnd c ;;;
  do_ (emit (Finished c o receivedAudio)) ;;;
  recordContextAudioOutcome receivedAudio ;;;
  contextDone c.

Inductive got := Got (it : ctxItem) | TimedOut | Cut.
(** [audioContext.get], which looks for an item before it looks at its context; the
    timer can run out whenever it waits. *)
Definition getItem (c : gostring) (o : nat) : prog got :=
  Act (fun s => match ctxOf c o s with
                | Some a =>
                  match items a with
                  | it :: rest => [(Got it, emit (Took o it) (updCtx c o (fun a => a <| items := rest |>) s))]
                  | [] => (TimedOut, s) :: (if loopCanceled s then [(Cut, emit CutShort s)] else [])
                  end
                | None => []
                end) Ret.

Definition playItem (c : gostring) (o : nat) (stop audio : bool) : prog place :=
  let! r := getItem c o in
  match r with
  | TimedOut | Got IEnd => finishContext c o stop audio
  | Cut => contextDone c
  | Got IKeepalive => Ret (Playing c o stop audio)
  | Got ((IWord _ _ _) as it) => pushWord Playback c o it ;;; Ret (Playing c o stop audio)
  | Got (IFrame f) =>
    match f with
    | TTSStartedFrame c' _ =>
      let! append := appendsToContext c in
      PushFrame Playback true (TTSStartedFrame c' append) Downstream ;;; Ret (Playing c o true audio)
    | TTSAudioRawFrame _ =>
      let! now := get clock in
      let! last := get wordLastPTS in
      let! waiting := act (fun s => match ctxOf c o s with
                                    | Some a => ((startWordTimestamps now last a).1, updCtx c o (fun a => (startWordTimestamps now last a).2) s)
                                    | None => ([], s)
                                    end) in
      PushFrame Playback true f Downstream ;;; each waiting (pushWord Playback c o) ;;; Ret (Playing c o stop true)
    | TTSStoppedFrame _ =>
      applyForceComplete Playback c ;;; PushFrame Playback true f Downstream ;;; Ret (Playing c o false audio)
    | _ => PushFrame Playback true f Downstream ;;; Ret (Playing c o stop audio)
    end
  end.

(** [serialQueue.get], likewise. *)
Definition fetch : prog (option serialItem) :=
  Act (fun s => match serial s with
                | it :: rest => [(Some it, emit (Fetched it) (s <| serial := rest |>))]
                | [] => if loopCanceled s then [(None, emit LoopCut s)] else []
                end) Ret.

Definition playNext : prog place :=
  let! it := fetch in
  match it with
  | None | Some SEnd => Ret Exited
  | Some (SFrame f) => PushFrame Playback true f Downstream ;;; Ret Fetching
  | Some (SContext c) =>
    if bool_decide (c = []) then Ret Fetching
    else
      let! o := audioContextFor c in
      match o with Some o => Ret (Playing c o false false) | None => contextDone c end
  end.

(** A round of the loop.  Its end closes [done]. *)
Definition round (p : place) : prog place :=
  match p with
  | Fetching => playNext
  | Playing c o stop audio => playItem c o stop audio
  | Exited => do_ (fun s => emit LoopEnded (s <| loopRunning := false |> <| doneEpoch := epoch s |>)) ;;; Ret Fetching
  end.

(** ** Starting, stopping, draining *)

Definition stopAudioContexts : prog unit :=
  let! set := act (fun s => (ctxCancelSet s, s <| ctxCancelSet := false |>)) in
  when set
    (do_ (fun s => emit Canceled (s <| loopCanceled := true |>)) ;;;
     await (fun s => negb (loopRunning s)) ;;;
     do_ (fun s => s <| audioContexts := ∅ |>)).

(** Nobody can tell the loop being brought up from the queue being renewed just before:
    the loop may be slow to begin. *)
Definition startAudioContexts : prog unit :=
  stopAudioContexts ;;;
  do_ (fun s => emit Restarted (s <| audioContexts := ∅ |> <| ttsContexts := ∅ |> <| pendingResponseEnd := ∅ |> <| serial := [] |> <| epoch ::= S |>
                <| ctxCancelSet := true |> <| loopCanceled := false |> <| loopRunning := true |>)).

Definition drainAudioContexts : prog unit :=
  let! e := get epoch in
  when (negb (Nat.eqb e 0)) (do_ (pushSerial e SEnd) ;;; await (fun s => Nat.leb e (doneEpoch s))).

(** ** Speaking *)

Definition createContextID : prog gostring :=
  let! t := get turnContext in
  match t with
  | [] => act (fun s => (NewString (drawn s), s <| drawn ::= S |>))
  | t => refreshAudioContext t ;;; Ret t
  end.

Definition isStreamingTokens (s : Tts) : bool := bool_decide (aggType (agg s) = TextAgg.AggregationToken).
Definition skipsSynthesis (t : AggregationType) (s : Tts) : bool := bool_decide (t ∈ skipTypes (cfg s)).
Definition trimLeftSpace (t : gostring) : gostring := ofRunes (dropWhile IsSpace (runesOf t)).
Definition trimIncomingWhitespace (t : gostring) (streaming : bool) : prog (gostring * bool) :=
  if streaming then
    let! sent := get sentNonWhitespace in
    let t := if (sent : bool) then t else trimLeftSpace t in
    Ret (t, negb (bool_decide (t = [])))
  else
    let t := dropWhile (Z.eqb 10) t in Ret (t, negb (bool_decide (TrimSpace t = []))).
Definition keepsFilteredText (t : gostring) (streaming : bool) : prog bool :=
  if negb streaming then Ret (negb (bool_decide (TrimSpace t = [])))
  else
    let! sent := get sentNonWhitespace in
    if bool_decide (t = []) || (bool_decide (TrimSpace t = []) && negb sent) then Ret false
    else setSentNonWhitespace true ;;; Ret true.

Fixpoint runFilters (fs : list filter) (t : gostring) : gostring * list filter :=
  match fs with
  | [] => (t, [])
  | f :: fs =>
    let '(t, now) := Filter f t (ResetInterruption f (filterNow f)) in
    let '(t, fs) := runFilters fs t in (t, filterWith f now :: fs)
  end.

Fixpoint transformText (ts : list transformer) (t : gostring) (by_ : AggregationType) : option gostring :=
  match ts with
  | [] => Some t
  | tr :: ts =>
    if bool_decide (tAggregatedBy tr = by_) || bool_decide (tAggregatedBy tr = TextAgg.AnyAggregation)
    then t ← Transform tr t by_; transformText ts t by_
    else transformText ts t by_
  end.

Definition aggregatedFrame (a : Aggregation) (c : gostring) : prog Sequencer.AggregatedTextFrame :=
  act (fun s => (Sequencer.mkFrame (drawn s) (TextAgg.aText a) (TextAgg.aType a) c (TextAgg.Original a) false true [] None, s <| drawn ::= S |>)).

Definition prepareText (t : gostring) (s : Tts) : gostring :=
  if appendTrailingSpace (cfg s) && negb (isStreamingTokens s) && negb (bool_decide (last t = Some 32)) then t ++ [32] else t.

Definition runTTS (c original prepared : gostring) (append : bool) : prog unit :=
  let! u := get usable in
  let! words := get (fun s => wordPath (cfg s)) in
  let! yielded :=
    (if negb u then Ret false
     else
       Ask prepared c (fun a =>
         each (given a) (fun g =>
           match g with
           | Yield f => AppendToAudioContext c f
           | Words ws ifs preMerge => when words (AddWordTimestamps c ws ifs preMerge)
           end) ;;;
         (match failed a with
          | Some permanent => let! canceled := get ctxCanceled in when (negb canceled) (PushError Handlers permanent)
          | None => skip
          end ;;;
          Ret (existsb (fun g => match g with Yield (TTSAudioRawFrame _) => true | _ => false end) (given a))))) in
  do_ (fun s => s <| yieldsSync := yielded || negb u |>) ;;;
  when (negb words)
    (AppendToAudioContext c (Written (Sequencer.Word (Sequencer.mkWord original None c [] false append))) ;;;
     let! out := sequence (fun q => Some (Sequencer.completeSpokenSlotLocked q)) in
     pushSequencerFrames Handlers out).

Definition pushTTSFrames (a : Aggregation) (append pushAssistant : bool) : prog unit :=
  let original := TextAgg.aText a in
  let! streaming := get isStreamingTokens in
  let! c := createContextID in
  let! skips := get (skipsSynthesis (TextAgg.aType a)) in
  if (skips : bool) then
    let! f := aggregatedFrame a c in
    let! dest := get (fun s => destination (cfg s)) in
    let! out := sequence (Sequencer.registerSkippedLocked f c dest) in
    pushSequencerFrames Handlers out
  else
    let! trimmed := trimIncomingWhitespace original streaming in
    when trimmed.2
      (let! filtered := act (fun s => let '(t, fs) := runFilters (filters s) trimmed.1 in (t, s <| filters := fs |>)) in
       let! keeps := keepsFilteredText filtered streaming in
       when keeps
         (setProcessingText true ;;;
          let! aggregated := aggregatedFrame a c in
          let aggregated := aggregated <| Sequencer.WillBeSpoken := true |> <| Sequencer.AppendToContext := false |> in
          let! available := AudioContextAvailable c in
          (if (available : bool) then AppendToAudioContext c (Written (Sequencer.Aggregated aggregated))
           else queueSerial (Written (Sequencer.Aggregated aggregated)) Downstream) ;;;
          let! ts := get (fun s => transforms (cfg s)) in
          match transformText ts filtered (TextAgg.aType a) with
          | None => PushError Handlers false
          | Some transformed =>
            setTTSContext c (mkTTSContext append pushAssistant) ;;;
            when (negb available) (CreateAudioContext c ;;; AppendToAudioContext c (TTSStartedFrame c false)) ;;;
            let! o := audioContextFor c in
            match o with
            | None => skip
            | Some o =>
              let! prepared := get (prepareText transformed) in
              do_ (updCtx c o (addText prepared)) ;;;
              let! words := get (fun s => wordPath (cfg s)) in
              let! out := sequence (Sequencer.registerSpokenLocked aggregated c prepared append words false) in
              pushSequencerFrames Handlers out ;;;
              runTTS c original prepared append
            end
          end)).

Definition aggregate (t : gostring) : prog unit :=
  let! out := act (fun s => match aggAggregate (agg s) t (aggNow (agg s)) with
                            | Some (out, now) => (out, s <| agg := aggWith (agg s) now |>)
                            | None => ([], s <| panicked := true |>)
                            end) in
  each out (fun a => pushTTSFrames a true false).

Definition flush : prog unit :=
  let! rest := act (fun s => let '(rest, now) := aggFlush (agg s) (aggNow (agg s)) in (rest, s <| agg := aggWith (agg s) now |>)) in
  match rest with
  | Some a => when (negb (bool_decide (TrimSpace (TextAgg.aText a) = []))) (pushTTSFrames a true false)
  | None => skip
  end.

(** ** Turns *)

(** A call the provider takes if it implements it and the context is open. *)
Definition tell (implements : config -> bool) (c : call) (id : gostring) : prog unit :=
  let! cf := get cfg in
  when (implements cf)
    (let! available := AudioContextAvailable id in when available (do_ (emit (Told c)))).

Definition onTurnContextCompleted : prog unit :=
  let! c := act (fun s => (turnContext s, s <| turnContext := [] |>)) in
  when (negb (bool_decide (c = [])))
    (let! canceled := get ctxCanceled in
     when (negb canceled)
       (let! sync := get yieldsSync in
        let! available := (if (sync : bool) then AudioContextAvailable c else Ret false) in
        when available (AppendToAudioContext c (TTSStoppedFrame c) ;;; RemoveAudioContext c) ;;;
        tell flushes (FlushAudio c) c ;;;
        tell completes (OnTurnContextCompleted c) c)).

Definition openTurnContext : prog unit :=
  let! c := createContextID in
  do_ (fun s => let s := s <| turnContext := c |> in if creates (cfg s) then emit (Told (OnTurnContextCreated c)) s else s).

Definition handleTurnEnd (f : frame) (d : direction) : prog unit :=
  let isEnd := match f with EndFrame => true | _ => false end in
  when isEnd drainAudioContexts ;;;
  flush ;;;
  maybePauseFrameProcessing ;;;
  setProcessingText false ;;;
  setSentNonWhitespace false ;;;
  let! turn := get turnContext in
  onTurnContextCompleted ;;;
  if isEnd then PushFrame Handlers false f d
  else
    let! words := get (fun s => wordPath (cfg s)) in
    if (words : bool) then
      match f with
      | LLMFullResponseEndFrame i _ _ => when (negb (bool_decide (turn = []))) (holdResponseEnd turn i)
      | _ => skip
      end
    else queueSerial f d.

Definition handleSpeak (t : gostring) (append : bool) : prog unit :=
  let! responding := (if append then get llmResponseStarted else Ret true) in
  let! saved := get turnContext in
  let! savedProcessing := get processingText in
  let! savedSent := get sentNonWhitespace in
  setSentNonWhitespace false ;;;
  openTurnContext ;;;
  pushTTSFrames (TextAgg.mkAgg t TextAgg.AggregationSentence []) append (append && negb responding) ;;;
  onTurnContextCompleted ;;;
  maybePauseFrameProcessing ;;;
  do_ (fun s => s <| turnContext := saved |>) ;;;
  setProcessingText savedProcessing ;;;
  setSentNonWhitespace savedSent.

Definition handleInterruption : prog unit :=
  setProcessingText false ;;;
  setSentNonWhitespace false ;;;
  setBotSpeaking false ;;;
  setLLMResponding false ;;;
  do_ (fun s => s <| agg := aggWith (agg s) (aggReset (agg s) (aggNow (agg s))) |>) ;;;
  do_ (fun s => s <| filters ::= List.map (fun f => filterWith f (HandleInterruption f (filterNow f))) |>) ;;;
  do_ (fun s => s <| sequencer ::= Sequencer.Clear |>) ;;;
  do_ (fun s => s <| turnContext := [] |>) ;;;
  do_ (fun s => s <| wordLastPTS := 0 |>) ;;;
  stopAudioContexts ;;;
  do_ (fun s => emit SerialReset (s <| serial := [] |>)) ;;;
  let! told := get (fun s => if interrupts (cfg s) then List.map fst (map_to_list (audioContexts s)) else []) in
  each told (fun c => do_ (emit (Told (OnAudioContextInterrupted c)))) ;;;
  startAudioContexts ;;;
  maybeResumeFrameProcessing.

Definition handleBotSpeaking (f : frame) (d : direction) : prog unit :=
  match f with
  | BotStartedSpeakingFrame => setBotSpeaking true ;;; queueSerial f d
  | _ => setBotSpeaking false ;;; maybeResumeFrameProcessing ;;; queueSerial f d
  end.

Definition ProcessFrame (f : frame) (d : direction) : prog unit :=
  if skipsTTS f then PushFrame Handlers false f d
  else
    match f with
    | TextFrame _ t _ => aggregate t
    | TTSSpeakFrame t append => handleSpeak t append
    | LLMFullResponseStartFrame _ => setLLMResponding true ;;; openTurnContext ;;; queueSerial f d
    | LLMFullResponseEndFrame _ _ _ | EndFrame => handleTurnEnd f d
    | InterruptionFrame => handleInterruption ;;; PushFrame Handlers false f d
    | CancelFrame => handleInterruption ;;; stopAudioContexts ;;; PushFrame Handlers false f d
    | StartFrame => PushFrame Handlers false f d ;;; startAudioContexts
    | BotStartedSpeakingFrame | BotStoppedSpeakingFrame => handleBotSpeaking f d
    | _ => queueSerial f d
    end.

(** ** The goroutines *)

(** What comes from outside: a provider on its own receive loop, and whoever mends the
    service. *)
Inductive extern :=
| AppendTo (c : gostring) (f : frame)
| WordTo (c word : gostring) (offset : f64)
| WordsTo (c : gostring) (ws : list WordText.WordTiming) (ifs preMerge : bool)
| Remove (c : gostring)
| Mend (usable : bool).
Definition external (e : extern) : prog unit :=
  match e with
  | AppendTo c f => AppendToAudioContext c f
  | WordTo c w off => AppendWordToAudioContext c w off
  | WordsTo c ws ifs pre => AddWordTimestamps c ws ifs pre
  | Remove c => RemoveAudioContext c
  | Mend b => SetUsable b
  end.

Record Sys := mkSys {
  tts : Tts;
  inOrder : prog unit;           (** the goroutine handling data and control frames *)
  handling : option frame;       (** the frame it handles *)
  system : prog unit;            (** the one handling system frames *)
  outside : prog unit;
  play : prog place              (** the one playing the contexts out *)
}.

Inductive thread := InOrder | System | Outside.
Inductive choice :=
| Arrive (f : frame) (d : direction)
| Call (e : extern)
| Run (t : thread) (n : nat)       (** an action, by its [n]-th outcome *)
| Answer (t : thread) (a : answer)
| Play (n : nat)
| CancelHandling                   (** the processor cancels the call being handled *)
| Tick (d : Z).

Definition idle (p : prog unit) : bool := match p with Ret _ => true | _ => false end.
Definition progOf (t : thread) (y : Sys) : prog unit := match t with InOrder => inOrder y | System => system y | Outside => outside y end.
Definition withProg (t : thread) (p : prog unit) (y : Sys) : Sys :=
  match t with
  | InOrder => mkSys (tts y) p (handling y) (system y) (outside y) (play y)
  | System => mkSys (tts y) (inOrder y) (handling y) p (outside y) (play y)
  | Outside => mkSys (tts y) (inOrder y) (handling y) (system y) p (play y)
  end.
Definition withTts (s : Tts) (y : Sys) : Sys := mkSys s (inOrder y) (handling y) (system y) (outside y) (play y).
Definition withPlay (p : prog place) (y : Sys) : Sys := mkSys (tts y) (inOrder y) (handling y) (system y) (outside y) p.

(** The goroutine handling frames in order can be waited out, or lets an interruption by. *)
Definition interruptible (y : Sys) : bool := idle (inOrder y) || match handling y with Some f => uninterruptible f | None => false end.

(** Frames are handled in order only once the StartFrame has been
    ([processor_start_first] in [ProcessorRuns.v]), one at a time and not while paused. *)
Definition step (c : choice) (y : Sys) : option Sys :=
  if panicked (tts y) then None
  else
    match c with
    | Arrive f d =>
      if isSystem f then
        if idle (system y) && match f with InterruptionFrame | CancelFrame => interruptible y | _ => true end
        then Some (withProg System (ProcessFrame f d) y) else None
      else if idle (inOrder y) && negb (framesPaused (tts y)) && negb (Nat.eqb (epoch (tts y)) 0)
           then Some (mkSys (emit (Handling f) ((tts y) <| ctxCanceled := false |>)) (ProcessFrame f d) (Some f) (system y) (outside y) (play y)) else None
    | Call e => if idle (outside y) then Some (withProg Outside (external e) y) else None
    | Run t n =>
      match progOf t y with
      | Act f k => match List.nth_error (f (tts y)) n with Some (r, s) => Some (withTts s (withProg t (k r) y)) | None => None end
      | _ => None
      end
    | Answer t a =>
      match progOf t y with Ask _ _ k => Some (withProg t (k a) y) | _ => None end
    | Play n =>
      if negb (loopRunning (tts y)) then None
      else
        match (match play y with Ret p => round p | p => p end) with
        | Act f k => match List.nth_error (f (tts y)) n with Some (r, s) => Some (withTts s (withPlay (k r) y)) | None => None end
        | _ => None
        end
    | CancelHandling => if interruptible y then None else Some (withTts ((tts y) <| ctxCanceled := true |>) y)
    | Tick d => if d <? 0 then None else Some (withTts ((tts y) <| clock ::= fun n => n + d |>) y)
    end.

Fixpoint run (cs : list choice) (y : Sys) : option Sys :=
  match cs with [] => Some y | c :: cs => match step c y with Some y => run cs y | None => None end end.

Definition New (cf : config) (a : aggregator) (fs : list filter) : Tts :=
  mkTts cf a fs (Sequencer.NewAggregatedFrameSequencer (bool_decide (aggType a = TextAgg.AggregationToken)))
    ∅ ∅ ∅ 0 [] false true false 0 false 0 [] false false false false 0 true false false 0 0 false [].
Definition boot (cf : config) (a : aggregator) (fs : list filter) : Sys := mkSys (New cf a fs) skip None skip skip (Ret Fetching).

End Service.
End Tts.
