(* ===== verification/TtsFacts.v ===== *)
(** * What the speech-synthesis base promises

    That what is played out keeps the order in which it was queued, whatever the
    goroutines' interleaving; that the pipeline's end waits for it; when silence writes
    the service off; and schedules on which it does what it does not mean to. *)

From S2P Require Import Prelude Float64 Text Strings TextAgg SeqMatcher WordText SegmentMap WordTracker Sequencer Tts.
Import Tts.

Module TtsFacts.
Local Open Scope Z_scope.
Local Open Scope tts_scope.

(** ** The playlist

    An abstract playlist: what waits to be played, what each context holds, and what is
    being played now.  It takes the log's events one by one, and refuses one that is out
    of order. *)
Inductive stage :=
| Between                                   (** nothing in hand *)
| Due (f : frame)                           (** taken from the queue, to be pushed *)
| Inside (c : gostring) (o : option nat) (unstopped : bool)
| DueInside (c : gostring) (o : nat) (unstopped : bool) (f : frame)
| Closed                                    (** the context is finished with *)
| Over.

Record playlist := mkPlaylist { waiting : list serialItem; held : gmap nat (list ctxItem); now : stage; torn : bool; ended : bool; renewed : bool }.
#[export] Instance eta_playlist : Eta playlist := fun p => mkPlaylist (waiting p) (held p) (now p) (torn p) (ended p) (renewed p).
Definition heldIn (o : nat) (p : playlist) : list ctxItem := default [] (held p !! o).

(** A started frame is stamped on the way out. *)
Definition asQueued (queued pushed : frame) : Prop :=
  match queued, pushed with
  | TTSStartedFrame c _, TTSStartedFrame c' _ => c = c'
  | _, _ => queued = pushed
  end.

Definition bracket (f : frame) (unstopped : bool) : bool :=
  match f with TTSStartedFrame _ _ => true | TTSStoppedFrame _ => false | _ => unstopped end.

(** Nothing in hand but, at most, a context of which nothing was found. *)
Definition atRest (st : stage) : Prop := match st with Between | Closed | Inside _ None false => True | _ => False end.
(** Something is being played. *)
Definition playing (st : stage) : Prop := match st with Between | Over => False | _ => True end.

Definition made (f : frame) (st : stage) : stage :=
  match st with Inside c o u => Inside c o (bracket f u) | DueInside c o u g => DueInside c o (bracket f u) g | st => st end.

Inductive goesOn : playlist -> event -> playlist -> Prop :=
| gQueued p it : goesOn p (Queued it) (p <| waiting ::= fun l => l ++ [it] |>)
| gAppended p o it : goesOn p (Appended o it) (p <| held ::= insert o (heldIn o p ++ [it]) |>)
(* torn down, and brought up again with nothing in hand *)
| gCanceled p : goesOn p Canceled (p <| torn := true |>)
| gReset p : now p = Between -> ended p = true -> torn p = true -> goesOn p SerialReset (p <| waiting := [] |>)
| gRestarted p : now p = Between -> ended p = true ->
    goesOn p Restarted (p <| waiting := [] |> <| torn := false |> <| ended := false |> <| renewed := true |>)
(* the head of the queue, once what was in hand is dealt with *)
| gFetched p it rest : waiting p = it :: rest -> ended p = false -> atRest (now p) ->
    goesOn p (Fetched it) (p <| waiting := rest |>
                             <| now := match it with SFrame f => Due f | SContext c => Inside c None false | SEnd => Over end |>)
(* the head of the context in hand, one context at a time *)
| gTook p c o it rest u o' : heldIn o p = it :: rest -> now p = Inside c o' u -> o' = None \/ o' = Some o ->
    goesOn p (Took o it) (p <| held ::= insert o rest |>
                            <| now := match it with IFrame f => DueInside c o u f | _ => Inside c (Some o) u end |>)
(* what was taken goes out, before anything else is taken *)
| gPushed p f g d dest : now p = Due g -> asQueued g f -> goesOn p (Pushed Playback true f d dest) (p <| now := Between |>)
| gPushedInside p c o u f g d dest : now p = DueInside c o u g -> asQueued g f ->
    goesOn p (Pushed Playback true f d dest) (p <| now := Inside c (Some o) (bracket f u) |>)
(* what is made on the way *)
| gMade p f d dest : playing (now p) ->
    goesOn p (Pushed Playback false f d dest)
      (p <| now ::= made f |>)
(* a context ends with every utterance in it stopped *)
| gFinished p c o b o' : now p = Inside c o' false -> o' = None \/ o' = Some o -> goesOn p (Finished c o b) (p <| now := Closed |>)
| gCutShort p c o u : torn p = true -> now p = Inside c o u -> goesOn p CutShort (p <| now := Closed |>)
| gLoopCut p : torn p = true -> atRest (now p) -> goesOn p LoopCut (p <| now := Over |>)
| gEnded p : now p = Over -> goesOn p LoopEnded (p <| now := Between |> <| ended := true |>)
(* the pipeline's end waits for the loop's, unless the loop is a new one *)
| gHandling p f : goesOn p (Handling f) (p <| renewed := false |>)
| gEnding p c d dest : ended p = true \/ renewed p = true -> goesOn p (Pushed Handlers c EndFrame d dest) p
(* the rest is no concern of the playlist *)
| gOther p e : (match e with
                | Pushed Handlers _ EndFrame _ _ => False
                | Pushed Handlers _ _ _ _ | UsableSet _ | Paused | Resumed | Told _ => True
                | _ => False
                end) -> goesOn p e p.

Inductive plays : playlist -> list event -> playlist -> Prop :=
| plays_nil p : plays p [] p
| plays_snoc p l q e r : plays p l q -> goesOn q e r -> plays p (l ++ [e]) r.
Definition empty : playlist := mkPlaylist [] ∅ Between true true false.

Lemma plays_inv p l e q : plays p (l ++ [e]) q -> exists m, plays p l m /\ goesOn m e q.
Proof.
  remember (l ++ [e]) as l' eqn:E. destruct 1 as [|p l1 m e1 q Hl Hg]; [by destruct l|]. apply app_inj_tail in E as [<- <-]. eauto.
Qed.
Lemma plays_app l2 : forall p l1 q, plays p (l1 ++ l2) q -> exists m, plays p l1 m /\ plays m l2 q.
Proof.
  induction l2 as [|e l2 IH] using rev_ind; intros p l1 q; [rewrite app_nil_r; exists q; by split; [|constructor]|].
  rewrite app_assoc. intros (m & Hl & Hg)%plays_inv. destruct (IH _ _ _ Hl) as (m' & H1 & H2). exists m'. split; [done|]. by econstructor.
Qed.
Lemma plays_cons p e l q : plays p (e :: l) q -> exists m, goesOn p e m /\ plays m l q.
Proof.
  intros (m & (m0 & H0 & Hg)%(plays_inv p []) & H2)%(plays_app l p [e]). exists m. split; [|done]. remember [] as l0. by destruct H0; [|destruct l0].
Qed.

Lemma app_before {A} (x : A) l1 l2 l3 l4 : x ∉ l1 -> l1 ++ l2 = l3 ++ x :: l4 -> exists more, l3 = l1 ++ more /\ l2 = more ++ x :: l4.
Proof.
  intros Hx [(k & -> & E)|(k & -> & E)]%app_eq_inv; [|by exists k]. destruct k as [|y k]; [exists []; by rewrite !app_nil_r|].
  injection E as -> ->. by destruct Hx; apply elem_of_app; right; left.
Qed.

(** ** What a log says was queued, taken and pushed *)
Definition queuedOf (l : list event) : list serialItem := omap (fun e => match e with Queued it => Some it | _ => None end) l.
Definition fetchedOf (l : list event) : list serialItem := omap (fun e => match e with Fetched it => Some it | _ => None end) l.
Definition takenOf (l : list event) : list frame :=
  omap (fun e => match e with Fetched (SFrame f) | Took _ (IFrame f) => Some f | _ => None end) l.
Definition carriedOf (l : list event) : list frame := omap (fun e => match e with Pushed Playback true f _ _ => Some f | _ => None end) l.
Definition inHand (st : stage) : list frame := match st with Due f | DueInside _ _ _ f => [f] | _ => [] end.

(** What is taken is pushed, in order, but for what is in hand. *)
Lemma goesOn_carried p e q : goesOn p e q -> exists out,
  inHand (now p) ++ takenOf [e] = out ++ inHand (now q) /\ Forall2 asQueued out (carriedOf [e]).
Proof.
  intros Hg. exists (match e with Pushed Playback true _ _ _ => inHand (now p) | _ => [] end).
  destruct Hg as [| | | | |p it rest Hw He Hr|p c o it rest u o' Hh Hn Ho|p f g d dest Hn Hq|p c o u f g d dest Hn Hq|p f d dest Hn|p c o b o' Hn Ho|p c o u Ht Hn|p Ht Hn|p Hn| | |p e He];
    cbn; rewrite ?app_nil_r; try (by split; [|constructor]).
  - split; [|by destruct it]. by destruct it, (now p) as [| |? [|] [|]| | |].
  - split; [|by destruct it]. rewrite Hn. by destruct it.
  - rewrite Hn. split; [done|by repeat constructor].
  - rewrite Hn. split; [done|by repeat constructor].
  - split; [|done]. by destruct (now p).
  - split; [|done]. by rewrite Hn.
  - split; [|done]. by rewrite Hn.
  - split; [|done]. by destruct (now p) as [| |? [|] [|]| | |].
  - split; [|done]. by rewrite Hn.
  - destruct e as [| | | | | | | | | | | |[]| | | |]; try done; (split; [cbn; by rewrite app_nil_r|constructor]).
Qed.
Lemma plays_carried p l q : plays p l q -> now p = Between ->
  exists out, takenOf l = out ++ inHand (now q) /\ Forall2 asQueued out (carriedOf l).
Proof.
  intros H Hp. induction H as [p|p l q e r H IH Hg]; [exists []; rewrite Hp; by split; [|constructor]|].
  destruct (IH Hp) as (out & Ht & Hc). destruct (goesOn_carried _ _ _ Hg) as (out' & Ht' & Hc').
  exists (out ++ out'). unfold takenOf, carriedOf in *. rewrite !omap_app, Ht, <- !app_assoc, Ht'. split; [done|by apply Forall2_app].
Qed.

(** A session of the loop, from its start and up to its cancellation. *)
Definition over (q : playlist) : Prop := now q = Over \/ ended q = true.
Record session (l : list event) (q : playlist) : Prop := {
  se_torn : torn q = false;
  se_order : queuedOf l = fetchedOf l ++ waiting q;
  se_rest : ended q = true -> now q = Between;
  se_going : ~ over q -> SEnd ∉ fetchedOf l;
  se_over : over q -> exists pre, fetchedOf l = pre ++ [SEnd] /\ SEnd ∉ pre
}.

Lemma queuedOf_app l l' : queuedOf (l ++ l') = queuedOf l ++ queuedOf l'.
Proof. apply omap_app. Qed.
Lemma fetchedOf_app l l' : fetchedOf (l ++ l') = fetchedOf l ++ fetchedOf l'.
Proof. apply omap_app. Qed.

(** What neither queues nor takes. *)
Lemma session_same l p e q : session l p -> queuedOf [e] = [] -> fetchedOf [e] = [] -> waiting q = waiting p -> torn q = torn p ->
  (over q <-> over p) -> (ended q = true -> now q = Between) -> session (l ++ [e]) q.
Proof.
  intros [H1 H2 H3 H4 H5] Eq Ef Ew Et Ho Hr. split; rewrite ?queuedOf_app, ?fetchedOf_app, ?Eq, ?Ef, ?app_nil_r, ?Ew, ?Et; try done.
  - intros Hov. apply H4. tauto.
  - intros Hov. apply H5. tauto.
Qed.
Lemma session_within l p e q : session l p -> now p <> Between -> now p <> Over -> now q <> Over -> ended q = ended p ->
  queuedOf [e] = [] -> fetchedOf [e] = [] -> waiting q = waiting p -> torn q = torn p -> session (l ++ [e]) q.
Proof.
  intros Hs N1 N2 N3 Ee Eq Ef Ew Et. assert (ended p = false) as He by (destruct (ended p) eqn:E; [by destruct N1; apply Hs|done]).
  apply (session_same l p); try done; unfold over; rewrite Ee, He; [|done]. split; by intros [?|?].
Qed.

Lemma session_step l p e q : session l p -> goesOn p e q -> e <> Restarted -> e <> Canceled -> session (l ++ [e]) q.
Proof.
  intros Hs Hg N1 N2. pose proof Hs as [H1 H2 H3 H4 H5].
  destruct Hg as [p it| | |p Hn He Ht| |p it rest Hw He Hr|p c o it rest u o' Hh Hn Ho|p f g d dest Hn Hq|p c o u f g d dest Hn Hq|p f d dest Hn|p c o b o' Hn Ho|p c o u Ht Hn|p Ht Hn|p Hn| | |p e He];
    try done; try congruence.
  - split; try done; [|by rewrite fetchedOf_app, app_nil_r..]. rewrite queuedOf_app, fetchedOf_app, app_nil_r, H2. by rewrite <- app_assoc.
  - by apply (session_same l p).
  - assert (SEnd ∉ fetchedOf l) as Hno by (apply H4; unfold over; rewrite He; intros [E|E]; [by rewrite E in Hr|done]).
    split; cbn; rewrite ?fetchedOf_app, ?queuedOf_app; cbn [fetchedOf queuedOf omap list_omap]; rewrite ?app_nil_r; try done.
    + rewrite H2, Hw. by rewrite <- app_assoc.
    + by rewrite He.
    + intros Hov. rewrite elem_of_app, list_elem_of_singleton. intros [?|<-]; [done|]. apply Hov. by left.
    + intros [Ho|Ho]; cbn in Ho; [|by rewrite He in Ho]. destruct it; try done. eauto.
  - apply (session_within l p); try done; rewrite ?Hn; try done. by destruct it.
  - apply (session_within l p); try done; by rewrite ?Hn.
  - apply (session_within l p); try done; by rewrite ?Hn.
  - apply (session_within l p); try done; cbn; by destruct (now p).
  - apply (session_within l p); try done; by rewrite ?Hn.
  - apply (session_same l p); try done. unfold over. cbn. rewrite Hn. split; intros _; [by left|by right].
  - by apply (session_same l p).
  - by apply (session_same l p).
  - by destruct e; try done; apply (session_same l p).
Qed.

Lemma session_plays l p q : plays p l q -> session [] p -> Restarted ∉ l -> Canceled ∉ l -> session l q.
Proof.
  induction 1 as [p|p l q e r H IH Hg]; [done|]. rewrite !not_elem_of_app, !list_elem_of_singleton. intros Hs [? ?] [? ?].
  eapply session_step; [by apply IH|done|done|done].
Qed.

Lemma goesOn_ending p c d dest q : goesOn p (Pushed Handlers c EndFrame d dest) q -> ended p = true \/ renewed p = true.
Proof. by inversion 1. Qed.

(** After a frame began to be handled, and before the loop is brought up again. *)
Lemma plays_handled p a f b q : plays p (a ++ Handling f :: b) q -> Restarted ∉ b -> renewed q = false.
Proof.
  revert q. induction b as [|e b IH] using rev_ind; intros q.
  - intros (m & _ & Hg)%plays_inv _. by inversion Hg; subst.
  - rewrite app_comm_cons, app_assoc, not_elem_of_app, list_elem_of_singleton. intros (m & Hp & Hg)%plays_inv [HR Hne].
    specialize (IH _ Hp HR). by destruct Hg.
Qed.

(** ** Programs that keep to it *)

Section Facts.
Context {U : WordText.Unicode} {tok : TextAgg.SentenceTokenizer} {uuid : Uuid}.

(** Whether the loop was brought up since the last frame began to be handled in order. *)
Definition renewedSince (l : list event) : bool :=
  fold_left (fun b e => match e with Handling _ => false | Restarted => true | _ => b end) l false.
Lemma renewedSince_snoc l e : renewedSince (l ++ [e]) = match e with Handling _ => false | Restarted => true | _ => renewedSince l end.
Proof. unfold renewedSince. by rewrite fold_left_app. Qed.

(** The state, against the playlist. *)
Record agrees (s : Tts) (q : playlist) : Prop := {
  ag_serial : waiting q = serial s;
  ag_items c a : audioContexts s !! c = Some a -> heldIn (object a) q = items a;
  ag_apart c1 c2 a1 a2 : audioContexts s !! c1 = Some a1 -> audioContexts s !! c2 = Some a2 -> object a1 = object a2 -> c1 = c2;
  ag_drawn c a : audioContexts s !! c = Some a -> (object a < drawn s)%nat;
  ag_held o : is_Some (held q !! o) -> (o < drawn s)%nat;
  ag_torn : torn q = loopCanceled s;
  ag_ended : ended q = negb (loopRunning s);
  ag_renewed : renewed q = renewedSince (log s)
}.
(** The loop is there exactly when the newest [done] is not closed. *)
Definition loopFacts (s : Tts) (st : stage) : Prop :=
  if loopRunning s then (doneEpoch s < epoch s)%nat else st = Between /\ doneEpoch s = epoch s.
Definition played (s : Tts) (st : stage) : Prop := (exists q, plays empty (log s) q /\ agrees s q /\ now q = st) /\ loopFacts s st.
(** The loop's own affairs. *)
Definition steady (s s' : Tts) : Prop :=
  loopRunning s' = loopRunning s /\ ctxCancelSet s' = ctxCancelSet s /\ epoch s' = epoch s /\ doneEpoch s' = doneEpoch s /\ loopCanceled s' = loopCanceled s.
Lemma steady_facts s s' st : steady s s' -> loopFacts s st -> loopFacts s' st.
Proof. unfold loopFacts. by intros (-> & _ & -> & -> & _). Qed.
Lemma steady_refl s : steady s s.
Proof. by split_and!. Qed.

(** What an action makes of the stage. *)
Definition turns (st : stage) (s s' : Tts) (st' : stage) : Prop := played s st -> played s' st'.

(** A program of those beside the loop leaves the stage, and the loop's affairs, alone. *)
Definition quiet (e : event) : Prop := match e with Handling _ | Restarted => False | _ => True end.
Definition logs (s s' : Tts) : Prop := log s' = log s \/ exists e, quiet e /\ log s' = log s ++ [e].
Definition calm (s s' : Tts) : Prop := steady s s' /\ logs s s' /\ forall st, turns st s s' st.
Lemma logs_renewed s s' : logs s s' -> renewedSince (log s') = renewedSince (log s).
Proof. intros [->|(e & He & ->)]; [done|]. rewrite renewedSince_snoc. by destruct e. Qed.
Fixpoint beside {A} (p : prog A) : Prop :=
  match p with
  | Ret _ => True
  | Act f k => (forall s r s', In (r, s') (f s) -> calm s s') /\ forall r, beside (k r)
  | Ask _ _ k => forall a, beside (k a)
  end.

Lemma beside_bind {A B} (p : prog A) (k : A -> prog B) : beside p -> (forall a, beside (k a)) -> beside (bind p k).
Proof. induction p as [a|R f k' IH|t c k' IH]; cbn; [auto| |]; [intros [H1 H2] Hk; split; auto|auto]. Qed.

(** What a goroutine can count on of the others: that the loop, once it has ended, is
    only followed by another. *)
Definition kept (s s' : Tts) : Prop :=
  (renewedSince (log s) = true -> renewedSince (log s') = true)
  /\ (renewedSince (log s') = true \/ epoch s' = epoch s /\ (doneEpoch s <= doneEpoch s')%nat).
Lemma kept_steady s s' : steady s s' -> logs s s' -> kept s s'.
Proof. intros (_ & _ & E1 & E2 & _) Hl%logs_renewed. split; [by rewrite Hl|]. right. rewrite E2. by split; [|lia]. Qed.
Lemma kept_refl s : kept s s.
Proof. split; [done|]. right. by split; [|lia]. Qed.
Lemma kept_calm s s' : calm s s' -> kept s s'.
Proof. intros (Hs & Hl & _). by apply kept_steady. Qed.

(** A program from what is known of the state to what is known after it, [pre] being
    known throughout and [guar] being kept to. *)
Section Outline.
Context {V : Type} (holds : V -> Tts -> Prop) (pre : Tts -> Prop) (guar : Tts -> Tts -> Prop).

Fixpoint takes {A} (p : prog A) (Q : A -> V -> Prop) (v : V) : Prop :=
  match p with
  | Ret a => Q a v
  | Act f k => forall s r s', In (r, s') (f s) -> pre s -> holds v s -> guar s s' /\ exists v', holds v' s' /\ takes (k r) Q v'
  | Ask _ _ k => forall a, takes (k a) Q v
  end.

Lemma tts_takes_bind {A B} (p : prog A) (k : A -> prog B) Q v : takes p (fun a v' => takes (k a) Q v') v -> takes (bind p k) Q v.
Proof.
  revert v. induction p as [a|R f k' IH|t c k' IH]; intros v; cbn; [auto| |auto]. intros H s r s' Hin Hpre Hp.
  destruct (H s r s' Hin Hpre Hp) as (Hg & v' & Hp' & Hl). split; [done|]. exists v'. auto.
Qed.
Lemma tts_takes_mono {A} (p : prog A) (Q Q' : A -> V -> Prop) v : takes p Q v -> (forall a v', Q a v' -> Q' a v') -> takes p Q' v.
Proof.
  revert v. induction p as [a|R f k' IH|t c k' IH]; intros v; cbn; [auto| |auto]. intros H HQ s r s' Hin Hpre Hp.
  destruct (H s r s' Hin Hpre Hp) as (Hg & v' & Hp' & Hl). split; [done|]. exists v'. eauto.
Qed.
Lemma takes_beside {A} (p : prog A) v : (forall s s', calm s s' -> holds v s -> guar s s' /\ holds v s') -> beside p -> takes p (fun _ v' => v' = v) v.
Proof.
  intros Hh. induction p as [a|R f k' IH|t c k' IH]; cbn; [done| |auto]. intros [H1 H2] s r s' Hin Hpre Hp.
  destruct (Hh s s' (H1 s r s' Hin) Hp) as [Hg Hp']. split; [done|]. exists v. auto.
Qed.
Lemma takes_then {A B} (p : prog A) (k : A -> prog B) Q v : takes p (fun _ v' => v' = v) v -> (forall a, takes (k a) Q v) -> takes (bind p k) Q v.
Proof. intros Hp Hk. apply tts_takes_bind. eapply tts_takes_mono; [exact Hp|]. intros a v' ->. apply Hk. Qed.
Lemma takes_when {A} (b : bool) p (k : unit -> prog A) Q v : takes p (fun _ v' => v' = v) v -> takes (k tt) Q v -> takes (bind (when b p) k) Q v.
Proof.
  intros Hp Hk. apply tts_takes_bind. destruct b; [|exact Hk]. eapply tts_takes_mono; [exact Hp|]. intros [] v' ->. exact Hk.
Qed.
Lemma tts_takes_each {A} (l : list A) p v : (forall a, takes (p a) (fun _ v' => v' = v) v) -> takes (each l p) (fun _ v' => v' = v) v.
Proof. intros Hp. induction l as [|a l IH]; [done|]. by apply takes_then. Qed.
End Outline.

(** The loop's programs, from stage to stage. *)
Definition leads {A} : prog A -> (A -> stage -> Prop) -> stage -> Prop :=
  takes (fun st s => played s st) (fun s => loopRunning s = true) (fun s s' => (ctxCancelSet s' = ctxCancelSet s /\ loopCanceled s' = loopCanceled s) /\ kept s s').
Lemma leads_step {A R} f (k : R -> prog A) Q st :
  (forall s r s', In (r, s') (f s) -> loopRunning s = true -> played s st ->
    ((ctxCancelSet s' = ctxCancelSet s /\ loopCanceled s' = loopCanceled s) /\ kept s s') /\ exists st', played s' st' /\ leads (k r) Q st') -> leads (Act f k) Q st.
Proof. done. Qed.
Lemma leads_bind {A B} (p : prog A) (k : A -> prog B) Q st : leads p (fun a st' => leads (k a) Q st') st -> leads (bind p k) Q st.
Proof. apply tts_takes_bind. Qed.
Lemma leads_mono {A} (p : prog A) (Q Q' : A -> stage -> Prop) st : leads p Q st -> (forall a st', Q a st' -> Q' a st') -> leads p Q' st.
Proof. apply tts_takes_mono. Qed.
Lemma leads_beside {A} (p : prog A) st : beside p -> leads p (fun _ st' => st' = st) st.
Proof. apply takes_beside. intros s s' (Hst & Hl & Ht) Hp. split; [split; [split; apply Hst|by apply kept_calm]|exact (Ht _ Hp)]. Qed.

(** ** Actions *)

(** Nothing the playlist speaks of is touched. *)
Definition untouched (s s' : Tts) : Prop :=
  log s' = log s /\ serial s' = serial s /\ (audioContexts s' = audioContexts s \/ audioContexts s' = ∅) /\ (drawn s <= drawn s')%nat /\ steady s s'.
Lemma turns_untouched st s s' : untouched s s' -> turns st s s' st.
Proof.
  intros (El & Es & Ec & Ed & Hst) [(q & Hp & [H1 H2 H3 H4 H5 H6 H7 H8] & Hn) Hf]. split; [|by eapply steady_facts].
  exists q. split_and!; [by rewrite El| |done].
  assert (forall c a, audioContexts s' !! c = Some a -> audioContexts s !! c = Some a) as Hsub
    by (destruct Ec as [->| ->]; [done|intros *; by rewrite lookup_empty]).
  split; [by rewrite Es|eauto|eauto| | | | |by rewrite El].
  - intros c a Hc. specialize (H4 c a (Hsub c a Hc)). lia.
  - intros o Ho. specialize (H5 o Ho). lia.
  - destruct Hst as (_ & _ & _ & _ & ->). done.
  - destruct Hst as (-> & _). done.
Qed.

Lemma goesOn_renewed p e q l : goesOn p e q -> renewed p = renewedSince l -> renewed q = renewedSince (l ++ [e]).
Proof. rewrite renewedSince_snoc. by destruct 1; try destruct e; try destruct w; try destruct f. Qed.

(** An event is logged, nothing else the playlist speaks of being touched. *)
Lemma turns_emit e s s' st st' : log s' = log s ++ [e] -> serial s' = serial s -> audioContexts s' = audioContexts s -> drawn s' = drawn s ->
  (forall q, now q = st -> torn q = loopCanceled s -> ended q = negb (loopRunning s) -> renewed q = renewedSince (log s) ->
    exists q', goesOn q e q' /\ waiting q' = waiting q /\ held q' = held q /\ now q' = st' /\ torn q' = loopCanceled s'
      /\ ended q' = negb (loopRunning s')) ->
  (loopFacts s st -> loopFacts s' st') -> turns st s s' st'.
Proof.
  intros El Es Ec Ed Hg Hfacts [(q & Hp & [H1 H2 H3 H4 H5 H6 H7 H8] & Hn) Hf]. split; [|auto].
  destruct (Hg q Hn H6 H7 H8) as (q' & Hg' & Hw & Hh & Hn' & Ht & He). exists q'.
  split_and!; [rewrite El; by econstructor| |done]. split; rewrite ?Ec, ?Es, ?Ed, ?Hw, ?Hh; try done.
  - intros c a. unfold heldIn. rewrite Hh. apply H2.
  - rewrite El. by eapply goesOn_renewed.
Qed.

(** An event that is no concern of the playlist. *)
Definition aside (e : event) : Prop :=
  match e with
  | Pushed Handlers _ EndFrame _ _ => False
  | Pushed Handlers _ _ _ _ | UsableSet _ | Paused | Resumed | Told _ => True
  | _ => False
  end.

Ltac steadied := unfold steady; cbn; split_and!; reflexivity.
Ltac logged := first [left; reflexivity | right; eexists; split; [|cbn; reflexivity]; exact I].
Ltac counted := split; [by split|first [apply kept_refl | apply kept_steady; [steadied|logged]]].
Lemma calm_refl s : calm s s.
Proof. split_and!; [apply steady_refl|by left|]. intros st H. exact H. Qed.
Lemma calm_untouched s s' : untouched s s' -> calm s s'.
Proof. intros Hu. split_and!; [apply Hu|left; apply Hu|]. intros st. by apply turns_untouched. Qed.
Lemma calm_aside e s s1 : aside e -> untouched s s1 -> calm s (emit e s1).
Proof.
  intros He Hu. split_and!; [exact (proj2 (proj2 (proj2 (proj2 Hu))))| |].
  { right. exists e. split; [by destruct e|]. unfold emit. cbn. by rewrite (proj1 Hu). }
  intros st Hp. pose proof (turns_untouched _ _ _ Hu Hp) as Hp1.
  revert Hp1. apply (turns_emit e); try done. intros q Hn Ht He' Hr'. exists q. split_and!; try done. by constructor.
Qed.

(** The queue operations. *)
Lemma calm_pushSerial e it s : calm s (pushSerial e it s).
Proof.
  unfold pushSerial. destruct (Nat.eqb e (epoch s)); [|apply calm_refl]. split_and!; [steadied|logged|].
  intros st [(q & Hp & [H1 H2 H3 H4 H5 H6 H7 H8] & Hn) Hf].
  split; [|exact Hf]. exists (q <| waiting ::= fun l => l ++ [it] |>). split_and!; [econstructor; [done|constructor]| |done].
  split; [cbn; by rewrite H1|exact H2|exact H3|exact H4|exact H5|exact H6|exact H7|].
  etrans; [exact H8|symmetry; exact (renewedSince_snoc (log s) (Queued it))].
Qed.

Lemma ctxOf_Some c o s a : ctxOf c o s = Some a -> audioContexts s !! c = Some a /\ object a = o.
Proof.
  unfold ctxOf. destruct (audioContexts s !! c) as [a'|]; [|done]. cbn [mbind option_bind]. destruct (Nat.eqb (object a') o) eqn:E; [|done].
  intros [= <-]. apply Nat.eqb_eq in E. done.
Qed.

(** Changing a context, and with it what the playlist holds for it. *)
Lemma agrees_context s q c a a' l : agrees s q -> audioContexts s !! c = Some a -> object a' = object a -> items a' = l ->
  agrees (s <| audioContexts ::= insert c a' |>) (q <| held ::= insert (object a) l |>).
Proof.
  intros [H1 H2 H3 H4 H5 H6 H7 H8] Ha Ho Hl. split; [done| | | | |done|done|done]; cbn.
  - intros c1 a1. rewrite lookup_insert_Some. unfold heldIn. cbn. intros [[<- <-]|[Hne Hc]].
    + by rewrite Ho, lookup_insert_eq.
    + rewrite lookup_insert_ne; [by apply (H2 c1)|]. intros E. by apply Hne, (H3 c c1 a a1).
  - intros c1 c2 a1 a2. rewrite !lookup_insert_Some. intros [[<- <-]|[N1 E1]] [[<- <-]|[N2 E2]] E; try done.
    + rewrite Ho in E. by apply (H3 c c2 a a2).
    + rewrite Ho in E. by apply (H3 c1 c a1 a).
    + by apply (H3 c1 c2 a1 a2).
  - intros c1 a1. rewrite lookup_insert_Some. intros [[<- <-]|[_ E]]; [rewrite Ho; by apply (H4 c)|by apply (H4 c1)].
  - intros o. rewrite lookup_insert_is_Some. intros [<-|[_ E]]; [by apply (H4 c)|by apply H5].
Qed.

Lemma agrees_log s q e : quiet e -> agrees s q -> agrees (emit e s) q.
Proof. intros He [H1 H2 H3 H4 H5 H6 H7 H8]. split; try done. etrans; [exact H8|]. symmetry. etrans; [apply renewedSince_snoc|by destruct e]. Qed.

Lemma calm_pushItem c o it s : calm s (pushItem c o it s).
Proof.
  unfold pushItem. destruct (ctxOf c o s) as [a|] eqn:E; [|apply calm_refl]. apply ctxOf_Some in E as [Ha <-]. split_and!; [steadied|logged|].
  intros st [(q & Hp & Hq & Hn) Hf]. split; [|exact Hf]. exists (q <| held ::= insert (object a) (heldIn (object a) q ++ [it]) |>).
  split_and!; [econstructor; [done|constructor]| |done]. apply agrees_log; [done|]. apply (agrees_context s q c a); try done. cbn. by rewrite (ag_items _ _ Hq c a Ha).
Qed.

(** What a context keeps beside its items. *)
Lemma calm_updCtx c o f s : (forall a, object (f a) = object a /\ items (f a) = items a) -> calm s (updCtx c o f s).
Proof.
  intros Hf. unfold updCtx. destruct (ctxOf c o s) as [a|] eqn:E; [|apply calm_refl]. apply ctxOf_Some in E as [Ha <-]. split_and!; [steadied|logged|].
  intros st [(q & Hp & Hq & Hn) Hfa]. split; [|exact Hfa]. exists q. split_and!; [done| |done]. destruct (Hf a) as [F1 F2].
  pose proof (agrees_context s q c a (f a) _ Hq Ha F1 eq_refl) as Hq'. rewrite F2, <- (ag_items _ _ Hq c a Ha) in Hq'.
  destruct Hq' as [G1 G2 G3 G4 G5 G6 G7 G8]. split; try done; try (destruct Hq; done). intros c1 a1 Hc1. rewrite <- (G2 c1 a1 Hc1). unfold heldIn. cbn.
  destruct (decide (object a1 = object a)) as [->|?]; [by rewrite lookup_insert_eq|by rewrite lookup_insert_ne].
Qed.

Lemma calm_create c s : calm s (s <| audioContexts ::= insert c (newAudioContext (drawn s)) |> <| drawn ::= S |>).
Proof.
  split_and!; [steadied|logged|]. intros st [(q & Hp & [H1 H2 H3 H4 H5 H6 H7 H8] & Hn) Hf]. split; [|exact Hf].
  exists q. split_and!; [done| |done]. split; [done| | | | |done|done|done]; cbn.
  - intros c1 a1. rewrite lookup_insert_Some. intros [[<- <-]|[_ E]]; [|by apply (H2 c1)]. cbn. unfold heldIn.
    destruct (held q !! drawn s) eqn:Eh; [|done]. assert (drawn s < drawn s)%nat by (apply H5; by rewrite Eh). lia.
  - intros c1 c2 a1 a2. rewrite !lookup_insert_Some. intros [[<- <-]|[N1 E1]] [[<- <-]|[N2 E2]] E; try done.
    + specialize (H4 c2 a2 E2). cbn in E. lia.
    + specialize (H4 c1 a1 E1). cbn in E. lia.
    + by apply (H3 c1 c2 a1 a2).
  - intros c1 a1. rewrite lookup_insert_Some. intros [[<- <-]|[_ E]]; [cbn; lia|]. specialize (H4 c1 a1 E). lia.
  - intros o Ho. specialize (H5 o Ho). lia.
Qed.

Lemma calm_deleted c s : calm s (s <| audioContexts ::= delete c |>).
Proof.
  split_and!; [steadied|logged|]. intros st [(q & Hp & [H1 H2 H3 H4 H5 H6 H7 H8] & Hn) Hf]. split; [|exact Hf].
  exists q. split_and!; [done| |done]. split; [done| | | |done|done|done|done]; cbn.
  - intros c1 a1 [_ E]%lookup_delete_Some. by apply (H2 c1).
  - intros c1 c2 a1 a2 [_ E1]%lookup_delete_Some [_ E2]%lookup_delete_Some. by apply (H3 c1 c2 a1 a2).
  - intros c1 a1 [_ E]%lookup_delete_Some. by apply (H4 c1).
Qed.

(** ** The goroutines beside the loop *)

Lemma beside_get {A} (f : Tts -> A) : beside (get f).
Proof. split; [|done]. intros s r s' [[= _ <-]|[]]. apply calm_refl. Qed.
Lemma beside_do f : (forall s, calm s (f s)) -> beside (do_ f).
Proof. intros Hf. split; [|done]. intros s r s' [[= _ <-]|[]]. apply Hf. Qed.
Lemma beside_act {A} (f : Tts -> A * Tts) : (forall s, calm s (f s).2) -> beside (act f).
Proof. intros Hf. split; [|done]. intros s r s' [E|[]]. specialize (Hf s). by rewrite E in Hf. Qed.
Lemma beside_await c : beside (await c).
Proof. split; [|done]. intros s r s'. destruct (c s); [|done]. intros [[= _ <-]|[]]. apply calm_refl. Qed.
Lemma beside_each {A} (l : list A) p : (forall a, beside (p a)) -> beside (each l p).
Proof. intros Hp. induction l as [|a l IH]; [exact I|]. by apply beside_bind. Qed.
Lemma beside_when c p : beside p -> beside (when c p).
Proof. by destruct c. Qed.

Create HintDb tts.
Ltac untouched := split_and!; cbn; auto; first [lia | steadied].
Ltac calmed := first [apply calm_refl | apply calm_untouched; untouched | apply calm_aside; [exact I|untouched]
  | apply calm_pushSerial | apply calm_pushItem | apply calm_deleted | apply calm_create | apply calm_updCtx; intros; split; reflexivity].
Ltac beside1 :=
  lazymatch goal with
  | |- beside (bind _ _) => apply beside_bind; [|intros ?]
  | |- beside (when _ _) => apply beside_when
  | |- beside (each _ _) => apply beside_each; intros ?
  | |- beside (get _) => apply beside_get
  | |- beside (await _) => apply beside_await
  | |- beside (do_ _) => apply beside_do; intros ?; first [calmed | case_match; calmed]
  | |- beside (act _) => apply beside_act; intros ?; cbn; first [calmed | repeat (case_match; simplify_eq/=); calmed]
  | |- beside skip => exact I
  | |- beside (Ret _) => exact I
  | |- beside (Ask _ _ _) => intros ?
  | |- beside (if ?c then _ else _) => destruct c
  | |- beside (match ?x with _ => _ end) => destruct x
  end.
Ltac beside_all := intros; cbv zeta; repeat first [assumption | solve [eauto with tts] | progress cbv zeta | beside1].

Lemma beside_for c : beside (audioContextFor c). Proof. unfold audioContextFor. beside_all. Qed.
#[local] Hint Resolve beside_for : tts.
Lemma beside_available c : beside (AudioContextAvailable c). Proof. unfold AudioContextAvailable. beside_all. Qed.
Lemma beside_push c it : beside (push c it). Proof. unfold push. beside_all. Qed.
#[local] Hint Resolve beside_available beside_push : tts.
Lemma beside_append c f : beside (AppendToAudioContext c f). Proof. apply beside_push. Qed.
Lemma beside_words c ws ifs pre : beside (AddWordTimestamps c ws ifs pre). Proof. unfold AddWordTimestamps. beside_all. Qed.
Lemma beside_create c : beside (CreateAudioContext c). Proof. unfold CreateAudioContext. beside_all. Qed.
Definition ends (f : frame) : bool := match f with EndFrame => true | _ => false end.
Lemma beside_basePush c f d : ends f = false -> beside (basePush Handlers c f d).
Proof. intros Hf. apply beside_do. intros s. apply calm_aside; [by destruct f|]. untouched. Qed.
#[local] Hint Resolve beside_append beside_words beside_create beside_basePush : tts.
Lemma beside_PushFrame c f d : ends f = false -> beside (PushFrame Handlers c f d).
Proof. intros Hf. unfold PushFrame, maybeCloseAssistantTurn, takeTTSContext, pushTrailingSilence. beside_all. Qed.
#[local] Hint Resolve beside_PushFrame : tts.
Lemma beside_PushError p : beside (PushError Handlers p). Proof. unfold PushError. beside_all. Qed.
Lemma beside_queueSerial f d : ends f = false -> beside (queueSerial f d). Proof. intros Hf. unfold queueSerial. beside_all. Qed.
Lemma beside_sequence f : beside (sequence f). Proof. unfold sequence. beside_all. Qed.
#[local] Hint Resolve beside_PushError beside_queueSerial beside_sequence : tts.
Lemma beside_frames out : beside (pushSequencerFrames Handlers out).
Proof. unfold pushSequencerFrames, setLastWordPTS. beside_all. Qed.
Lemma beside_pause : beside maybePauseFrameProcessing.
Proof. unfold maybePauseFrameProcessing, PauseProcessingFrames. beside_all. Qed.
Lemma beside_resume : beside maybeResumeFrameProcessing.
Proof. unfold maybeResumeFrameProcessing, ResumeProcessingFrames. beside_all. Qed.
#[local] Hint Resolve beside_frames beside_pause beside_resume : tts.
Lemma beside_drain : beside drainAudioContexts. Proof. unfold drainAudioContexts. beside_all. Qed.
Lemma beside_newID : beside createContextID. Proof. unfold createContextID, refreshAudioContext. beside_all. Qed.
#[local] Hint Resolve beside_drain beside_newID : tts.
Lemma beside_runTTS c o p a : beside (runTTS c o p a).
Proof. unfold runTTS. beside_all. Qed.
#[local] Hint Resolve beside_runTTS : tts.
Lemma beside_speak a b c : beside (pushTTSFrames a b c).
Proof.
  unfold pushTTSFrames, aggregatedFrame, trimIncomingWhitespace, keepsFilteredText, setSentNonWhitespace, setProcessingText, setTTSContext. beside_all.
Qed.
#[local] Hint Resolve beside_speak : tts.
Lemma beside_completed : beside onTurnContextCompleted.
Proof. unfold onTurnContextCompleted, tell, RemoveAudioContext. beside_all. Qed.
Lemma beside_openTurn : beside openTurnContext. Proof. unfold openTurnContext. beside_all. Qed.
#[local] Hint Resolve beside_completed beside_openTurn : tts.
Lemma beside_turnEnd f d : ends f = false -> beside (handleTurnEnd f d).
Proof. intros Hf. unfold handleTurnEnd, flush, setProcessingText, setSentNonWhitespace, holdResponseEnd. beside_all. Qed.
Lemma beside_speakFrame t a : beside (handleSpeak t a).
Proof. unfold handleSpeak, setProcessingText, setSentNonWhitespace. beside_all. Qed.
#[local] Hint Resolve beside_turnEnd beside_speakFrame : tts.

(** All but what tears the loop down or brings it up. *)
Definition startsOrStops (f : frame) : bool := match f with StartFrame | InterruptionFrame | CancelFrame => true | _ => false end.
Lemma beside_ProcessFrame f d : startsOrStops f = false -> ends f = false -> beside (ProcessFrame f d).
Proof.
  unfold ProcessFrame, aggregate, handleBotSpeaking, setBotSpeaking, setLLMResponding. intros Hf He. destruct (skipsTTS f); [beside_all|].
  destruct f; try discriminate Hf; try discriminate He; beside_all.
Qed.
Lemma beside_external e : beside (external e).
Proof. unfold external, AppendWordToAudioContext, RemoveAudioContext, SetUsable. beside_all. Qed.

(** ** The loop *)

Lemma leads_get {A} (f : Tts -> A) (Q : A -> stage -> Prop) st : (forall a, Q a st) -> leads (get f) Q st.
Proof. intros HQ. apply leads_step. intros s r s' [[= <- <-]|[]] _ Hp. split; [by split; [|apply kept_refl]|]. exists st. by split; [|apply HQ]. Qed.

(** An event of the loop's: nothing else that the playlist speaks of changes. *)
Definition emits (e : event) (st st' : stage) (s s' : Tts) : Prop :=
  log s' = log s ++ [e] /\ quiet e /\ serial s' = serial s /\ audioContexts s' = audioContexts s /\ drawn s' = drawn s /\ steady s s'
  /\ forall q, now q = st -> torn q = loopCanceled s -> ended q = false ->
       exists q', goesOn q e q' /\ waiting q' = waiting q /\ held q' = held q /\ now q' = st' /\ torn q' = torn q /\ ended q' = ended q.
Lemma emits_played e st st' s s' : emits e st st' s s' -> loopRunning s = true -> played s st -> played s' st'.
Proof.
  intros (El & _ & Es & Ec & Ed & (Er & _ & Ee & Edn & Elc) & Hg) Hr. apply (turns_emit e); try done.
  - intros q Hn Ht He _. rewrite Hr in He. destruct (Hg q Hn Ht He) as (q' & ? & ? & ? & ? & Ht' & He'). exists q'.
    split_and!; try done; [by rewrite Ht', Elc|by rewrite He', He, Er, Hr].
  - unfold loopFacts. by rewrite Er, Hr, Ee, Edn.
Qed.
Lemma leads_emits {A R} f (k : R -> prog A) Q st :
  (forall s r s', In (r, s') (f s) -> exists e st', emits e st st' s s' /\ leads (k r) Q st') -> leads (Act f k) Q st.
Proof.
  intros H. apply leads_step. intros s r s' Hin Hr Hp. destruct (H s r s' Hin) as (e & st' & He & Hk).
  split; [|exists st'; split; [|exact Hk]; by eapply emits_played].
  destruct He as (El & Hq & _ & _ & _ & Hst & _). split; [split; apply Hst|]. apply kept_steady; [done|]. right. by exists e.
Qed.
Ltac emitted q' := split_and!; [cbn; reflexivity|exact I|done|done|done|steadied|
  let q := fresh "q" in let Hn := fresh "Hn" in let Ht := fresh "Ht" in let He := fresh "He" in
  intros q Hn Ht He; exists (q' q); split_and!; try done].

(** What the loop makes and pushes, while something is being played. *)
Lemma leads_basePush f d st : playing st -> leads (basePush Playback false f d) (fun _ st' => st' = made f st) st.
Proof.
  intros Hpl. apply leads_emits. intros s r s' [[= <- <-]|[]]. eexists _, (made f st). split; [|done].
  emitted (fun q : playlist => q <| now ::= made f |>); [|cbn; by rewrite Hn]. apply gMade. by rewrite Hn.
Qed.

Lemma made_playing f st : playing st -> playing (made f st).
Proof. by destruct st. Qed.

(** But for what starts or stops an utterance, it changes nothing. *)
Definition plain (f : frame) : Prop := match f with TTSStartedFrame _ _ | TTSStoppedFrame _ => False | _ => True end.
Lemma made_plain f st : plain f -> made f st = st.
Proof. destruct f; try done; by destruct st. Qed.

Lemma leads_plainPush f d st : playing st -> plain f -> leads (basePush Playback false f d) (fun _ st' => st' = st) st.
Proof. intros Hpl Hf. eapply leads_mono; [by apply leads_basePush|]. intros _ st' ->. by apply made_plain. Qed.

Lemma leads_when {A} (b : bool) p (k : unit -> prog A) Q st : leads p (fun _ st' => st' = st) st -> leads (k tt) Q st -> leads (bind (when b p) k) Q st.
Proof. apply takes_when. Qed.
Lemma leads_then {A B} (p : prog A) (k : A -> prog B) Q st : leads p (fun _ st' => st' = st) st -> (forall a, leads (k a) Q st) -> leads (bind p k) Q st.
Proof. apply takes_then. Qed.
Lemma leads_quiet {A B} (p : prog A) (k : A -> prog B) Q st : beside p -> (forall a, leads (k a) Q st) -> leads (bind p k) Q st.
Proof. intros Hp Hk. apply leads_then; [by apply leads_beside|done]. Qed.
Lemma leads_each {A} (l : list A) p st : (forall a, leads (p a) (fun _ st' => st' = st) st) -> leads (each l p) (fun _ st' => st' = st) st.
Proof. apply tts_takes_each. Qed.

(** On the way to a stop frame. *)
Lemma leads_before c st : playing st ->
  leads (when (negb (bool_decide (c = []))) (maybeCloseAssistantTurn Playback c) ;;; pushTrailingSilence Playback) (fun _ st' => st' = st) st.
Proof.
  intros Hpl. apply leads_when.
  - unfold maybeCloseAssistantTurn, takeTTSContext. apply leads_quiet; [beside_all|]. intros [t|]; [|done].
    destruct (pushAssistantAggregation t); [|done]. cbn [when]. apply leads_bind, leads_get. intros pts. by apply leads_plainPush.
  - unfold pushTrailingSilence. apply leads_bind, leads_get. intros cf. destruct (_ && _); [|done]. cbn [when]. cbv zeta. destruct (0 <? _); [|done].
    by apply leads_plainPush.
Qed.

Lemma leads_PushFrame f d st : playing st -> leads (PushFrame Playback false f d) (fun _ st' => st' = made f st) st.
Proof.
  intros Hpl. unfold PushFrame. destruct f; try (by apply leads_basePush). apply leads_then; [by apply leads_before|]. intros _. by apply leads_basePush.
Qed.
Lemma leads_plainFrame f d st : playing st -> plain f -> leads (PushFrame Playback false f d) (fun _ st' => st' = st) st.
Proof. intros Hpl Hf. eapply leads_mono; [by apply leads_PushFrame|]. intros _ st' ->. by apply made_plain. Qed.

Lemma leads_frames out st : playing st -> leads (pushSequencerFrames Playback out) (fun _ st' => st' = st) st.
Proof.
  intros Hpl. apply leads_each. intros o. apply leads_quiet; [unfold setLastWordPTS; beside_all|]. intros _. by apply leads_plainFrame.
Qed.
Lemma leads_word c o it st : playing st -> leads (pushWord Playback c o it) (fun _ st' => st' = st) st.
Proof.
  intros Hpl. unfold pushWord. destruct it; try done. apply leads_bind, leads_get. intros [pts|].
  - apply leads_quiet; [apply beside_sequence|]. intros out. by apply leads_frames.
  - apply leads_beside. beside_all.
Qed.
Lemma leads_close c st : playing st -> leads (applyForceComplete Playback c) (fun _ st' => st' = st) st.
Proof.
  intros Hpl. unfold applyForceComplete. apply leads_bind, leads_get. intros pts. apply leads_quiet; [apply beside_sequence|]. intros out. by apply leads_frames.
Qed.

(** What was taken goes out. *)
Lemma leads_due f d : leads (PushFrame Playback true f d) (fun _ st => st = Between) (Due f).
Proof.
  assert (forall g, leads (basePush Playback true g d) (fun _ st => st = Between) (Due g)) as Hb.
  { intros g. apply leads_emits. intros s r s' [[= <- <-]|[]]. eexists _, Between. split; [|done].
    emitted (fun q : playlist => q <| now := Between |>). eapply gPushed; [done|by destruct g]. }
  unfold PushFrame. destruct f; try apply Hb. apply leads_then; [by apply leads_before|]. intros _. apply Hb.
Qed.

Lemma leads_item c o u g f : asQueued g f -> leads (PushFrame Playback true f Downstream) (fun _ st => st = Inside c (Some o) (bracket f u)) (DueInside c o u g).
Proof.
  intros Hg.
  assert (leads (basePush Playback true f Downstream) (fun _ st => st = Inside c (Some o) (bracket f u)) (DueInside c o u g)) as Hb.
  { apply leads_emits. intros s r s' [[= <- <-]|[]]. eexists _, (Inside c (Some o) (bracket f u)). split; [|done].
    emitted (fun q : playlist => q <| now := Inside c (Some o) (bracket f u) |>). by eapply gPushedInside. }
  unfold PushFrame. destruct f; try exact Hb. apply leads_then; [by apply leads_before|]. intros _. exact Hb.
Qed.

Lemma leads_done c st : atRest st -> leads (contextDone c) (fun p st' => p = Fetching /\ atRest st') st.
Proof.
  intros Hst. unfold contextDone, deleteAudioContext, deleteTTSContext. do 3 (apply leads_quiet; [beside_all|intros _]). done.
Qed.

Lemma leads_outcome b st : playing st -> leads (recordContextAudioOutcome b) (fun _ st' => st' = st) st.
Proof.
  intros Hpl. unfold recordContextAudioOutcome. destruct b; [apply leads_beside; beside_all|]. apply leads_bind. apply leads_get. intros sp.
  apply leads_when; [apply leads_beside, beside_resume|]. apply leads_bind, leads_get. intros u. destruct u; [|done]. cbn [when].
  apply leads_quiet; [beside_all|]. intros run. apply leads_bind, leads_get. intros limit. unfold PushError.
  apply leads_when; [apply leads_beside; beside_all|]. by apply leads_plainFrame.
Qed.

Lemma leads_release c st : playing st -> leads (releaseResponseEnd c) (fun _ st' => st' = st) st.
Proof.
  intros Hpl. unfold releaseResponseEnd, takeResponseEnd. apply leads_bind, leads_get. intros w. destruct w; [|done]. cbn [when].
  apply leads_quiet; [beside_all|]. intros h.
  apply leads_quiet; [destruct h; beside_all|]. intros [i|]; [|done]. unfold setLLMResponding. apply leads_quiet; [beside_all|]. intros _.
  apply leads_bind, leads_get. intros pts. by apply leads_plainFrame.
Qed.

Lemma leads_finish c o stop b o' : o' = None \/ o' = Some o ->
  leads (finishContext c o stop b) (fun p st' => p = Fetching /\ atRest st') (Inside c o' stop).
Proof.
  intros Ho. unfold finishContext. apply leads_then; [by apply leads_close|]. intros _. apply leads_bind.
  apply (leads_mono _ (fun _ st' => st' = Inside c o' false)).
  { destruct stop; [|done]. exact (leads_PushFrame (TTSStoppedFrame c) Downstream (Inside c o' true) I). }
  intros _ st' ->. apply leads_then; [by apply leads_release|]. intros _. apply leads_bind.
  apply leads_emits. intros s r s' [[= <- <-]|[]]. exists (Finished c o b), Closed. split.
  { emitted (fun q : playlist => q <| now := Closed |>). by eapply gFinished. }
  cbn [bind]. apply leads_then; [by apply leads_outcome|]. intros _. by apply leads_done.
Qed.

(** ** The rounds of the loop *)

Definition okAt (p : place) (st : stage) : Prop :=
  match p with
  | Fetching => atRest st
  | Playing c o stop _ => exists o', st = Inside c o' stop /\ (o' = None \/ o' = Some o)
  | Exited => st = Over
  end.

Lemma leads_getItem c o o' u (k : got -> prog place) Q : o' = None \/ o' = Some o ->
  (leads (k TimedOut) Q (Inside c o' u)) -> leads (k Cut) Q Closed ->
  (forall it, leads (k (Got it)) Q (match it with IFrame f => DueInside c o u f | _ => Inside c (Some o) u end)) ->
  leads (bind (getItem c o) k) Q (Inside c o' u).
Proof.
  intros Ho H1 H2 H3. apply leads_bind, leads_step. intros s r s' Hin Hr Hp. destruct (ctxOf c o s) as [a|] eqn:E; [|done].
  pose proof E as E0. apply ctxOf_Some in E as [Ha Hoa]. destruct (items a) as [|it rest] eqn:Ei.
  - destruct Hin as [[= <- <-]|Hin]; [split; [counted|]; by exists (Inside c o' u)|]. destruct (loopCanceled s) eqn:Ec; [|done].
    destruct Hin as [[= <- <-]|[]]. split; [counted|]. exists Closed. split; [|exact H2]. eapply (emits_played CutShort); [|done|exact Hp].
    emitted (fun q : playlist => q <| now := Closed |>). eapply gCutShort; [by rewrite Ht|done].
  - destruct Hin as [[= <- <-]|[]]. split; [unfold updCtx; rewrite E0; counted|]. eexists. split; [|apply H3]. destruct Hp as [(q & Hp & Hq & Hn) Hf].
    pose proof (ag_items _ _ Hq c a Ha) as Hh. rewrite Ei, Hoa in Hh. split.
    2: { unfold updCtx. rewrite E0. revert Hf. unfold loopFacts. cbn. by rewrite Hr. }
    exists (q <| held ::= insert o rest |> <| now := match it with IFrame f => DueInside c o u f | _ => Inside c (Some o) u end |>).
    split_and!; [|..|done].
    + unfold updCtx. rewrite E0. cbn. econstructor; [exact Hp|]. by eapply gTook.
    + unfold updCtx. rewrite E0. subst o. set (a' := a <| items := rest |>).
      pose proof (agrees_log _ _ (Took (object a) it) I (agrees_context s q c a a' rest Hq Ha eq_refl eq_refl)) as [G1 G2 G3 G4 G5 G6 G7 G8]. by split.
Qed.

Lemma leads_fetch (k : option serialItem -> prog place) Q st : atRest st -> leads (k None) Q Over ->
  (forall it, leads (k (Some it)) Q (match it with SFrame f => Due f | SContext c => Inside c None false | SEnd => Over end)) ->
  leads (bind fetch k) Q st.
Proof.
  intros Hst H1 H2. apply leads_bind, leads_step. intros s r s' Hin Hr Hp. destruct (serial s) as [|it rest] eqn:Es.
  - destruct (loopCanceled s) eqn:Ec; [|done]. destruct Hin as [[= <- <-]|[]]. split; [counted|]. exists Over. split; [|done].
    eapply (emits_played LoopCut); [|done|exact Hp]. emitted (fun q : playlist => q <| now := Over |>).
    apply gLoopCut; [by rewrite Ht|by rewrite Hn].
  - destruct Hin as [[= <- <-]|[]]. split; [counted|]. eexists. split; [|apply H2]. destruct Hp as [(q & Hp & [G1 G2 G3 G4 G5 G6 G7 G8] & Hn) Hf]. split.
    2: { revert Hf. unfold loopFacts. cbn. by rewrite Hr. }
    exists (q <| waiting := rest |> <| now := match it with SFrame f => Due f | SContext c => Inside c None false | SEnd => Over end |>).
    split_and!; [|split; try done|done].
    + cbn. econstructor; [exact Hp|]. apply gFetched; [by rewrite G1, Es|by rewrite G7, Hr|by rewrite Hn].
    + etrans; [exact G8|symmetry; exact (renewedSince_snoc (log s) (Fetched it))].
Qed.

Lemma leads_round p st : okAt p st -> leads (round p) okAt st.
Proof.
  destruct p as [|c o stop audio|]; cbn [okAt round].
  - intros Hst. apply leads_fetch; [done|done|]. intros [c|f|]; [|apply leads_bind; eapply leads_mono; [apply leads_due|]; by intros _ st' ->|done].
    destruct (bool_decide (c = [])); [exact I|]. apply leads_quiet; [apply beside_for|]. intros [o|].
    + exists None. auto.
    + eapply leads_mono; [by apply leads_done|]. by intros p st' [-> Hr].
  - intros (o' & -> & Ho). unfold playItem.
    assert (forall o' , o' = None \/ o' = Some o -> leads (finishContext c o stop audio) okAt (Inside c o' stop)) as Hfin.
    { intros o2 Ho2. eapply leads_mono; [by apply leads_finish|]. by intros p st' [-> Hr]. }
    apply leads_getItem; [done|by apply Hfin| |].
    { eapply leads_mono; [by apply leads_done|]. by intros p st' [-> Hr]. }
    assert (forall f g stop' audio', asQueued g f -> bracket f stop = stop' ->
      leads (PushFrame Playback true f Downstream ;;; Ret (Playing c o stop' audio')) okAt (DueInside c o stop g)) as Hitem.
    { intros f g stop' audio' Hg <-. apply leads_bind. eapply leads_mono; [by apply leads_item|]. intros _ st' ->. exists (Some o). auto. }
    intros [f|w off ifs| |]; [|apply leads_then; [by apply leads_word|]; intros _; by exists (Some o); auto| |by apply Hfin; right].
    2: { exists (Some o). auto. }
    destruct f; try (by apply Hitem).
    + apply leads_bind, leads_get. intros ap. by apply Hitem.
    + apply leads_bind, leads_get. intros t0. apply leads_bind, leads_get. intros t1. apply leads_quiet.
      { apply beside_act. intros s. destruct (ctxOf c o s) as [a|] eqn:E; [|apply calm_refl]. apply calm_updCtx.
        intros a'. unfold startWordTimestamps. by destruct (0 <=? _). }
      intros ws. apply leads_bind. eapply leads_mono; [by apply leads_item|]. intros _ st' ->. apply leads_then.
      * apply leads_each. intros it. by apply leads_word.
      * intros _. exists (Some o). auto.
    + apply leads_then; [by apply leads_close|]. intros _. by apply Hitem.
  - intros ->. apply leads_bind, leads_step. intros s r s' [[= <- <-]|[]] Hr Hp. split.
    { split; [done|]. split; [intros Hn; etrans; [exact (renewedSince_snoc (log s) LoopEnded)|exact Hn]|]. right. split; [done|]. destruct Hp as [_ Hf].
      unfold loopFacts in Hf. rewrite Hr in Hf. cbn. lia. }
    exists Between. split; [|done]. revert Hp.
    apply (turns_emit LoopEnded); try done. intros q Hn Ht _ _. exists (q <| now := Between |> <| ended := true |>). split_and!; try done. by constructor.
Qed.

(** ** The goroutine that starts and stops the loop *)

Inductive level := Calm | Stopping | Torn | Down.
Definition settled (v : level) : Prop := match v with Calm | Down => True | _ => False end.
Definition knows (v : level) (s : Tts) : Prop :=
  match v with
  | Calm => ctxCancelSet s = true
  | Stopping => True
  | Torn => loopCanceled s = true
  | Down => loopRunning s = false /\ loopCanceled s = true
  end.
Definition governs {A} : prog A -> (A -> level -> Prop) -> level -> Prop :=
  takes knows (fun _ => True) (fun s s' => (forall st, turns st s s' st) /\ kept s s').

Lemma knows_steady v s s' : steady s s' -> knows v s -> knows v s'.
Proof. unfold knows. intros (-> & -> & _ & _ & ->). done. Qed.
Lemma governs_beside {A} (p : prog A) v : beside p -> governs p (fun _ v' => v' = v) v.
Proof. apply takes_beside. intros s s' Hc Hk. split; [split; [apply Hc|by apply kept_calm]|]. eapply knows_steady; [apply Hc|done]. Qed.
Lemma governs_quiet {A B} (p : prog A) (k : A -> prog B) Q v : beside p -> (forall a, governs (k a) Q v) -> governs (bind p k) Q v.
Proof. intros Hp Hk. apply takes_then; [by apply governs_beside|done]. Qed.
Lemma governs_mono {A} (p : prog A) (Q Q' : A -> level -> Prop) v : governs p Q v -> (forall a v', Q a v' -> Q' a v') -> governs p Q' v.
Proof. apply tts_takes_mono. Qed.
Lemma governs_bind {A B} (p : prog A) (k : A -> prog B) Q v : governs p (fun a v' => governs (k a) Q v') v -> governs (bind p k) Q v.
Proof. apply tts_takes_bind. Qed.

Lemma governs_stop v : settled v -> governs stopAudioContexts (fun _ v' => v' = Down) v.
Proof.
  intros Hv. unfold stopAudioContexts. apply governs_bind. intros s r s' [[= <- <-]|[]] _ Hk. split.
  { split; [|by split; [|right; split; [|cbn; lia]]].
    intros st [(q & Hp & [H1 H2 H3 H4 H5 H6 H7 H8] & Hn) Hf]. split; [|exact Hf]. exists q. split_and!; [done|by split|done]. }
  destruct (ctxCancelSet s) eqn:Es.
  - exists Stopping. split; [done|]. cbn [when]. apply governs_bind. intros s1 r1 s1' [[= <- <-]|[]] _ _. split.
    { split; [|].
      - intros st. apply (turns_emit Canceled); try done. intros q Hn Ht He _. exists (q <| torn := true |>). split_and!; try done. constructor.
      - split; [intros Hn; etrans; [exact (renewedSince_snoc (log s1) Canceled)|exact Hn]|]. right. split; [done|cbn; lia]. }
    exists Torn. split; [done|]. intros s2 r2 s2' Hin _ Hk2. destruct (loopRunning s2) eqn:Er; cbn in Hin; [done|].
    destruct Hin as [[= <- <-]|[]]. split; [split; [by intros st Hp|apply kept_refl]|]. exists Down. split; [done|].
    eapply governs_mono; [apply governs_beside; beside_all|]. by intros _ v' ->.
  - exists Down. split; [|done]. cbn. destruct v; cbn in Hk; try done. congruence.
Qed.

Lemma governs_down e s s' : (e = Restarted \/ e = SerialReset) -> loopRunning s = false -> loopCanceled s = true ->
  log s' = log s ++ [e] -> serial s' = [] ->
  (audioContexts s' = audioContexts s \/ audioContexts s' = ∅) -> drawn s' = drawn s ->
  loopCanceled s' = (match e with Restarted => false | _ => true end) -> loopRunning s' = (match e with Restarted => true | _ => false end) ->
  (loopFacts s Between -> loopFacts s' Between) -> forall st, turns st s s' st.
Proof.
  intros He Hr Hlc El Es Ec Ed Elc Elr Hfs st [(q & Hp & [H1 H2 H3 H4 H5 H6 H7 H8] & Hn) Hf].
  assert (st = Between) as -> by (unfold loopFacts in Hf; rewrite Hr in Hf; apply Hf). split; [|auto]. rewrite Hr in H7. rewrite Hlc in H6.
  assert (forall c a, audioContexts s' !! c = Some a -> audioContexts s !! c = Some a) as Hsub
    by (destruct Ec as [->| ->]; [done|intros *; by rewrite lookup_empty]).
  exists (match e with
          | Restarted => q <| waiting := [] |> <| torn := false |> <| ended := false |> <| renewed := true |>
          | _ => q <| waiting := [] |>
          end). split_and!; [| |by destruct He as [->| ->]].
  - rewrite El. econstructor; [done|]. destruct He as [->| ->]; by constructor.
  - split; rewrite ?Es, ?Ed, ?Elc, ?Elr, ?El, ?renewedSince_snoc; destruct He as [->| ->]; eauto.
Qed.

Lemma governs_start v : settled v -> governs startAudioContexts (fun _ v' => v' = Calm) v.
Proof.
  intros Hv. unfold startAudioContexts. apply governs_bind. eapply governs_mono; [by apply governs_stop|]. intros _ v' ->.
  intros s r s' [[= <- <-]|[]] _ [Hk1 Hk2]. split.
  - split; [apply (governs_down Restarted); try done; [by left|by right|]|].
    + unfold loopFacts. rewrite Hk1. intros [_ E]. cbn. lia.
    + split; [intros _|left]; exact (renewedSince_snoc (log s) Restarted).
  - exists Calm. by split.
Qed.

Lemma governs_interruption v : settled v -> governs handleInterruption (fun _ v' => v' = Calm) v.
Proof.
  intros Hv. unfold handleInterruption, setProcessingText, setSentNonWhitespace, setBotSpeaking, setLLMResponding.
  do 9 (apply governs_quiet; [beside_all|intros ?]). apply governs_bind. eapply governs_mono; [by apply governs_stop|]. intros _ v' ->.
  intros s r s' [[= <- <-]|[]] _ [Hk1 Hk2]. split.
  { split; [apply (governs_down SerialReset); try done; [by right|by left]|].
    apply kept_steady; [steadied|logged]. }
  exists Down. split; [done|]. do 3 (apply governs_quiet; [beside_all|intros ?]).
  apply governs_bind. eapply governs_mono; [by apply governs_start|]. intros _ v' ->. apply governs_beside. beside_all.
Qed.

Lemma governs_ProcessFrame f d v : isSystem f = true -> settled v -> governs (ProcessFrame f d) (fun _ v' => settled v') v.
Proof.
  intros Hsy Hv.
  assert (forall (p : prog unit) v', beside p -> settled v' -> governs p (fun _ v' => settled v') v') as Hb.
  { intros p v' Hp Hv'. eapply governs_mono; [by apply governs_beside|]. by intros _ ? ->. }
  destruct (startsOrStops f) eqn:Ef; [|by apply Hb; [apply beside_ProcessFrame; [done|by destruct f]|]].
  destruct f; try discriminate Ef; unfold ProcessFrame; cbn [skipsTTS].
  - apply governs_bind. eapply governs_mono; [by apply governs_interruption|]. intros _ v' ->. by apply Hb; [beside_all|].
  - apply governs_bind. eapply governs_mono; [by apply governs_interruption|]. intros _ v' ->.
    apply governs_bind. eapply governs_mono; [by apply governs_stop|]. intros _ v' ->. by apply Hb; [beside_all|].
  - apply governs_quiet; [beside_all|]. intros _. eapply governs_mono; [by apply governs_start|]. by intros _ v' ->.
Qed.

(** ** The goroutine handling frames in order

    It knows, once it has waited for the loop, that the loop is over or is a new one. *)
Inductive awaited := Unasked | Asked (e : nat) | Drained.
Definition learnt (v : awaited) (s : Tts) : Prop :=
  match v with
  | Unasked => True
  | Asked e => renewedSince (log s) = true \/ epoch s = e
  | Drained => renewedSince (log s) = true \/ (epoch s <= doneEpoch s)%nat
  end.
Lemma learnt_kept v s s' : kept s s' -> learnt v s -> learnt v s'.
Proof. intros [H1 H2]. destruct v; cbn; [done| |]; (destruct H2 as [H2|[H2 H3]]; [by left|]); intros [H|H]; auto; right; [congruence|lia]. Qed.

Definition obeys {A} : prog A -> (A -> awaited -> Prop) -> awaited -> Prop :=
  takes learnt (fun _ => True) (fun s s' => steady s s' /\ logs s s' /\ forall st, turns st s s' st).
Lemma obeys_beside {A} (p : prog A) v : beside p -> obeys p (fun _ v' => v' = v) v.
Proof. apply takes_beside. intros s s' Hc Hl. split; [exact Hc|]. by eapply learnt_kept; [apply kept_calm|]. Qed.
Lemma obeys_quiet {A B} (p : prog A) (k : A -> prog B) Q v : beside p -> (forall a, obeys (k a) Q v) -> obeys (bind p k) Q v.
Proof. intros Hp Hk. apply takes_then; [by apply obeys_beside|done]. Qed.
Lemma obeys_any {A} (p : prog A) v : beside p -> obeys p (fun _ _ => True) v.
Proof. intros Hp. eapply tts_takes_mono; [by apply obeys_beside|done]. Qed.

Lemma obeys_drain : obeys drainAudioContexts (fun _ v => v = Drained) Unasked.
Proof.
  unfold drainAudioContexts. apply tts_takes_bind. intros s r s' [[= <- <-]|[]] _ _. split; [apply calm_refl|].
  cbn [takes]. destruct (Nat.eqb (epoch s) 0) eqn:E0; cbn [negb when].
  - exists Drained. split; [|done]. apply Nat.eqb_eq in E0. right. lia.
  - exists (Asked (epoch s)). split; [by right|]. apply takes_then.
    { apply obeys_beside. beside_all. }
    intros _ s1 r1 s1' Hin _ Hl. destruct (Nat.leb (epoch s) (doneEpoch s1)) eqn:El; cbn in Hin; [|done].
    destruct Hin as [[= <- <-]|[]]. split; [apply calm_refl|]. exists Drained. split; [|done]. apply Nat.leb_le in El.
    destruct Hl as [Hl|Hl]; [by left|right; lia].
Qed.

Lemma obeys_end d : obeys (PushFrame Handlers false EndFrame d) (fun _ _ => True) Drained.
Proof.
  intros s r s' [[= <- <-]|[]] _ Hl. split; [|by exists Unasked]. split_and!; [steadied|logged|].
  intros st Hp. pose proof (proj2 Hp) as Hf. revert Hp. apply (turns_emit (Pushed Handlers false EndFrame d [])); try done.
  intros q Hn Ht He Hr. exists q. split_and!; try done. constructor. rewrite He, Hr. destruct Hl as [Hl|Hl]; [by right|left].
  unfold loopFacts in Hf. destruct (loopRunning s); [cbn in Hl; lia|done].
Qed.

Lemma obeys_ProcessFrame f d : isSystem f = false -> obeys (ProcessFrame f d) (fun _ _ => True) Unasked.
Proof.
  intros Hf. destruct (ends f) eqn:Ee; [|apply obeys_any, beside_ProcessFrame; [by destruct f|done]].
  destruct f; try discriminate Ee. unfold ProcessFrame, handleTurnEnd, flush, setProcessingText, setSentNonWhitespace. cbn [skipsTTS when].
  apply tts_takes_bind. eapply tts_takes_mono; [apply obeys_drain|]. intros _ v ->.
  do 6 (apply obeys_quiet; [beside_all|intros ?]). apply obeys_end.
Qed.

(** ** All of them together *)

Definition good (y : Sys) : Prop :=
  exists st v w, played (tts y) st /\ leads (play y) okAt st /\ beside (outside y)
  /\ (knows v (tts y) /\ governs (system y) (fun _ v' => settled v') v)
  /\ (learnt w (tts y) /\ obeys (inOrder y) (fun _ _ => True) w).

Lemma good_Arrive f d y y' : good y -> step (Arrive f d) y = Some y' -> good y'.
Proof.
  intros (st & v & w & Hp & Hl & Ho & [Hk Hg] & [Hw Hb]). unfold step. destruct (panicked (tts y)); [done|].
  destruct (isSystem f) eqn:Ef; (destruct (_ && _) eqn:Ei; [|done]); intros [= <-].
  - exists st, v, w. split_and!; try done. apply andb_prop in Ei as [Hid _]. cbn. destruct (system y); try done. by apply governs_ProcessFrame.
  - exists st, v, Unasked. split_and!; try done; [|by apply obeys_ProcessFrame].
    revert Hp. apply (turns_emit (Handling f)); try done. intros q Hn Ht He Hr.
    exists (q <| renewed := false |>). split_and!; try done. constructor.
Qed.

(** What a program gets to do. *)
Lemma tts_takes_act {V A R} holds pre guar (f : Tts -> list (R * Tts)) (k : R -> prog A) Q (v : V) n s r s' :
  takes holds pre guar (Act f k) Q v -> List.nth_error (f s) n = Some (r, s') -> pre s -> holds v s ->
  guar s s' /\ exists v', holds v' s' /\ takes holds pre guar (k r) Q v'.
Proof. intros H En%List.nth_error_In. by apply H. Qed.

Lemma good_Run t n y y' : good y -> step (Run t n) y = Some y' -> good y'.
Proof.
  intros (st & v & w & Hp & Hl & Ho & [Hk Hg] & [Hw Hb]). unfold step. destruct (panicked (tts y)); [done|].
  destruct (progOf t y) as [|R f k|] eqn:Et; try done. destruct (List.nth_error _ n) as [[r s]|] eqn:En; [|done]. intros [= <-].
  destruct t; cbn in Et; rewrite Et in *.
  - destruct (tts_takes_act _ _ _ _ _ _ _ _ _ _ _ Hb En I Hw) as ((Hst & Hlg & Ht) & w' & Hw' & Hb').
    exists st, v, w'. split_and!; try done; [by apply Ht|by eapply knows_steady].
  - destruct (tts_takes_act _ _ _ _ _ _ _ _ _ _ _ Hg En I Hk) as ([Ht Hkp] & v' & Hk' & Hg').
    exists st, v', w. split_and!; try done; [by apply Ht|by eapply learnt_kept].
  - destruct Ho as [Ho Ho']. pose proof (Ho _ _ _ (List.nth_error_In _ _ En)) as Hc.
    exists st, v, w. split_and!; try done; [by apply Hc|apply Ho'|eapply knows_steady; [apply Hc|done]|eapply learnt_kept; [by apply kept_calm|done]].
Qed.

Lemma good_Play n y y' : good y -> step (Play n) y = Some y' -> good y'.
Proof.
  intros (st & v & w & Hp & Hl & Ho & [Hk Hg] & [Hw Hb]). unfold step. destruct (panicked (tts y)); [done|].
  destruct (loopRunning (tts y)) eqn:Er; [|done]. cbn [negb].
  assert (leads (match play y with Ret p => round p | p => p end) okAt st) as Hl'.
  { destruct (play y) as [p| |]; try exact Hl. by apply leads_round. }
  destruct (match play y with Ret p => round p | p => p end) as [|R f k|]; try done.
  destruct (List.nth_error _ n) as [[r s]|] eqn:En; [|done]. intros [= <-].
  destruct (tts_takes_act _ _ _ _ _ _ _ _ _ _ _ Hl' En Er Hp) as ([[Hc Hlc] Hkp] & st' & Hp' & Hk'). exists st', v, w. split_and!; try done; [|by eapply learnt_kept].
  destruct v; cbn in Hk |- *; [by rewrite Hc|done|by rewrite Hlc|]. destruct Hk as [Hk _]. congruence.
Qed.

Lemma good_still y y' : good y -> untouched (tts y) (tts y') -> play y' = play y -> system y' = system y -> inOrder y' = inOrder y ->
  (beside (outside y) -> beside (outside y')) -> good y'.
Proof.
  intros (st & v & w & Hp & Hl & Ho & [Hk Hg] & [Hw Hb]) Hu Ep Es Ei Hob. pose proof (calm_untouched _ _ Hu) as Hc.
  exists st, v, w. rewrite Ep, Es, Ei. split_and!; auto; [by apply Hc|eapply knows_steady; [apply Hc|done]|eapply learnt_kept; [by apply kept_calm|done]].
Qed.

Lemma good_step c y y' : good y -> step c y = Some y' -> good y'.
Proof.
  intros Hy Hstep. destruct c as [f d|e|t n|t a|n| |d].
  - by eapply good_Arrive.
  - unfold step in Hstep. destruct (panicked (tts y)); [done|]. destruct (idle (outside y)); [|done]. injection Hstep as <-.
    apply (good_still y); try done; [untouched|]. intros _. apply beside_external.
  - by eapply good_Run.
  - unfold step in Hstep. destruct (panicked (tts y)); [done|]. destruct (progOf t y) as [| |txt cc k] eqn:Et; try done. injection Hstep as <-.
    destruct Hy as (st & v & w & Hp & Hl & Ho & [Hk Hg] & [Hw Hb]). exists st, v, w. destruct t; cbn in Et |- *; rewrite Et in *; split_and!; done.
  - by eapply good_Play.
  - unfold step in Hstep. destruct (panicked (tts y)); [done|]. destruct (interruptible y); [done|]. injection Hstep as <-.
    apply (good_still y); try done. untouched.
  - unfold step in Hstep. destruct (panicked (tts y)); [done|]. destruct (d <? 0); [done|]. injection Hstep as <-.
    apply (good_still y); try done. untouched.
Qed.

Lemma good_run cs : forall y y', good y -> run cs y = Some y' -> good y'.
Proof.
  induction cs as [|c cs IH]; cbn; intros y y' Hy; [by intros [= <-]|]. destruct (step c y) as [y1|] eqn:E; [|done].
  apply IH. by eapply good_step.
Qed.

Lemma good_boot cf a fs : good (boot cf a fs).
Proof.
  exists Between, Down, Unasked. split_and!; try done. split; [|done]. exists empty. split_and!; try done; [constructor|]. split; try done.
  cbn. intros o [x Hx]. by rewrite lookup_empty in Hx.
Qed.

(** C27: (refinement) Whatever the goroutines' interleaving, and whatever a provider
    answers or adds, what the service does is what an abstract playlist does: queued
    items are taken in the order they were queued, one at a time; a context's items come
    out in the order they were added, and none of another context's among them; what was
    taken is pushed before anything else is taken; a context ends with every utterance
    in it stopped, unless the loop was canceled; and only a loop that is over is brought
    up again. *)
Theorem playback_in_order cf a fs cs y : run cs (boot cf a fs) = Some y ->
  exists q, plays empty (log (tts y)) q /\ waiting q = serial (tts y)
  /\ forall c o, ctxOf c o (tts y) = None \/ items <$> ctxOf c o (tts y) = Some (heldIn o q).
Proof.
  intros Hr. destruct (good_run cs _ _ (good_boot cf a fs) Hr) as (st & v & w & [(q & Hq & Hag & _) _] & _).
  exists q. split_and!; [done|apply Hag|]. intros c o. destruct (ctxOf c o (tts y)) as [x|] eqn:E; [right|by left].
  apply ctxOf_Some in E as [Hx <-]. cbn. by rewrite (ag_items _ _ Hag c x Hx).
Qed.

Lemma run_played cf a fs cs y : run cs (boot cf a fs) = Some y -> exists q, plays empty (log (tts y)) q /\ agrees (tts y) q.
Proof. intros Hr. destruct (good_run cs _ _ (good_boot cf a fs) Hr) as (st & v & w & [(q & Hq & Hag & _) _] & _). eauto. Qed.

(** C28: (safety) A pipeline that ends hears everything out: by the time an EndFrame is
    pushed on, whatever was queued before it came has been taken, in the order it was
    queued, up to the end queued for it, and every frame taken has been pushed, in
    order; unless the loop was canceled or brought up again meanwhile. *)
Theorem end_waits cf a fs cs y before during handling c d dest rest :
  run cs (boot cf a fs) = Some y ->
  log (tts y) = before ++ Restarted :: (during ++ Handling EndFrame :: handling) ++ Pushed Handlers c EndFrame d dest :: rest ->
  Restarted ∉ during ++ handling -> Canceled ∉ during ++ handling -> SEnd ∉ queuedOf during ->
  exists more, fetchedOf (during ++ handling) = queuedOf during ++ more ++ [SEnd]
  /\ Forall2 asQueued (takenOf (during ++ handling)) (carriedOf (during ++ handling)).
Proof.
  intros Hr Hl HR HC HS. destruct (run_played _ _ _ _ _ Hr) as (q & Hq & _). rewrite Hl in Hq.
  apply plays_app in Hq as (q0 & _ & (q1 & Hg & Hq)%plays_cons). apply plays_app in Hq as (q2 & Hq & (q3 & Hend & _)%plays_cons).
  assert (session [] q1 /\ now q1 = Between) as [Hs1 Hb1].
  { inversion Hg; subst; [|done]. split; [|done]. split; try done; [intros _; apply not_elem_of_nil|by intros [E|E]; cbn in E; congruence]. }
  pose proof (plays_carried _ _ _ Hq Hb1) as (out & Ht & Hc).
  assert (session (during ++ Handling EndFrame :: handling) q2) as Hs2.
  { apply (session_plays _ q1); [done|done|..]; rewrite not_elem_of_app, not_elem_of_cons in *; naive_solver. }
  assert (ended q2 = true) as He.
  { pose proof (plays_handled _ _ _ _ _ Hq ltac:(rewrite not_elem_of_app in HR; tauto)) as Hren.
    apply goesOn_ending in Hend as [He|He]; [done|congruence]. }
  rewrite (se_rest _ _ Hs2 He) in Ht. cbn in Ht. rewrite app_nil_r in Ht.
  destruct (se_over _ _ Hs2 (or_intror He)) as (pre & Hf & Hpre). pose proof (se_order _ _ Hs2) as Ho. rewrite Hf in Ho.
  unfold queuedOf, fetchedOf, takenOf, carriedOf in *. rewrite !omap_app in *. cbn [omap list_omap] in *.
  rewrite Hf, Ht. rewrite <- app_assoc in Ho. apply app_before in Ho as (more & -> & _); [|done].
  exists more. by rewrite <- app_assoc.
Qed.

(** ** Silent contexts

    A program run with nothing else moving. *)
Fixpoint exec {A} (p : prog A) (s : Tts) : option (A * Tts) :=
  match p with
  | Ret a => Some (a, s)
  | Act f k => match f s with (r, s) :: _ => exec (k r) s | [] => None end
  | Ask _ _ _ => None
  end.
Lemma exec_bind {A B} (p : prog A) (k : A -> prog B) s : exec (bind p k) s = exec p s ≫= fun r => exec (k r.1) r.2.
Proof. revert s. induction p as [a|R f k' IH|t c k' IH]; intros s; cbn; [done| |done]. destruct (f s) as [|[r s'] l]; [done|apply IH]. Qed.

Lemma exec_resume s : exists s', exec maybeResumeFrameProcessing s = Some (tt, s')
  /\ cfg s' = cfg s /\ zeroAudioRun s' = zeroAudioRun s /\ usable s' = usable s.
Proof. unfold maybeResumeFrameProcessing. cbn. destruct (pauseEnabled (cfg s)); cbn; by eexists. Qed.

(** What one context's end does to the count. *)
Lemma outcome_counts b s : exists s', exec (recordContextAudioOutcome b) s = Some (tt, s') /\ cfg s' = cfg s
  /\ zeroAudioRun s' = (if b then 0 else if usable s then zeroAudioRun s + 1 else zeroAudioRun s)
  /\ usable s' = usable s && (b || negb ((0 <? zeroAudioLimit (cfg s)) && (zeroAudioLimit (cfg s) <=? zeroAudioRun s + 1))).
Proof.
  destruct b; [eexists; cbn; split_and!; [done..|by rewrite andb_true_r]|]. unfold recordContextAudioOutcome. rewrite exec_bind. cbn [exec get mbind option_bind fst snd].
  assert (exists s1, exec (when (negb (botSpeaking s)) maybeResumeFrameProcessing) s = Some (tt, s1)
    /\ cfg s1 = cfg s /\ zeroAudioRun s1 = zeroAudioRun s /\ usable s1 = usable s) as (s1 & E & Ec & Ez & Eu).
  { destruct (botSpeaking s); [by exists s|apply exec_resume]. }
  rewrite exec_bind, E. cbn [mbind option_bind fst snd]. rewrite exec_bind. cbn [exec get mbind option_bind fst snd]. rewrite Eu.
  destruct (usable s) eqn:Hu; [|by exists s1]. cbn [when andb orb]. rewrite exec_bind. cbn [exec act mbind option_bind fst snd].
  rewrite exec_bind. cbn. rewrite Ec, Ez. destruct (_ && _) eqn:El; cbn; by eexists.
Qed.

Definition silentRun (bs : list bool) : nat := (fix go bs := match bs with false :: bs => S (go bs) | _ => 0%nat end) (rev bs).
Lemma silentRun_snoc bs b : silentRun (bs ++ [b]) = if b then 0%nat else S (silentRun bs).
Proof. unfold silentRun. rewrite rev_app_distr. by destruct b. Qed.
Lemma silentRun_spec bs n : (n <= silentRun bs)%nat <-> exists l, bs = l ++ replicate n false.
Proof.
  revert n. induction bs as [|b bs IH] using rev_ind; intros n.
  - cbn. split; [intros ?; exists []; by destruct n; [|lia]|]. intros [l E]. destruct n; [lia|]. by destruct l.
  - rewrite silentRun_snoc. destruct n as [|n]; [split; [intros _; exists (bs ++ [b]); by rewrite app_nil_r|lia]|].
    rewrite replicate_S_end. destruct b.
    + split; [lia|]. intros [l E]. rewrite app_assoc in E. by apply app_inj_tail in E as [_ ?].
    + rewrite <- Nat.succ_le_mono, IH. split; intros [l E]; exists l.
      * by rewrite E, app_assoc.
      * rewrite app_assoc in E. by apply app_inj_tail in E as [? _].
Qed.

(** So many silent contexts in a row, anywhere. *)
Definition wentSilent (n : nat) (bs : list bool) : Prop := exists l1 l2, bs = l1 ++ replicate n false ++ l2.
Lemma wentSilent_snoc n bs b : wentSilent n (bs ++ [b]) <-> wentSilent n bs \/ (n <= silentRun (bs ++ [b]))%nat.
Proof.
  unfold wentSilent. rewrite silentRun_spec. split.
  - intros (l1 & l2 & E). destruct l2 as [|x l2 _] using rev_ind; [right; exists l1; by rewrite app_nil_r in E|left].
    rewrite !app_assoc in E. apply app_inj_tail in E as [-> _]. exists l1, l2. by rewrite app_assoc.
  - intros [(l1 & l2 & ->)|(l & E)]; [exists l1, (l2 ++ [b]); by rewrite <- !app_assoc|exists l, []; by rewrite app_nil_r].
Qed.

Lemma exec_each_snoc {A} (l : list A) a p s : exec (each (l ++ [a]) p) s = exec (each l p) s ≫= fun r => exec (p a) r.2.
Proof.
  revert s. induction l as [|x l IH]; intros s; cbn; rewrite exec_bind.
  - destruct (exec (p a) s) as [[[] s']|]; done.
  - rewrite exec_bind. destruct (exec (p x) s) as [[[] s']|]; [apply IH|done].
Qed.

(** A service is written off, for good, exactly when so many of its
    contexts in a row end without any audio as it is allowed; a context with audio, in
    between, starts the count over. *)
Theorem silence_writes_off bs s : usable s = true -> zeroAudioRun s = 0 -> 0 < zeroAudioLimit (cfg s) ->
  exists s', exec (each bs recordContextAudioOutcome) s = Some (tt, s') /\ cfg s' = cfg s
  /\ (usable s' = false <-> wentSilent (Z.to_nat (zeroAudioLimit (cfg s))) bs)
  /\ (usable s' = true -> zeroAudioRun s' = Z.of_nat (silentRun bs)).
Proof.
  intros Hu Hz Hlim. induction bs as [|b bs IH] using rev_ind.
  - exists s. split_and!; [done|done| |done]. rewrite Hu. split; [done|]. intros (l1 & l2 & E). destruct l1; [|done]. by destruct (Z.to_nat _) eqn:En; [lia|].
  - destruct IH as (s1 & E1 & Ec1 & Hoff & Hrun). destruct (outcome_counts b s1) as (s2 & E2 & Ec2 & Ez2 & Eu2).
    exists s2. rewrite exec_each_snoc, E1. split_and!; [exact E2|congruence| |].
    + rewrite wentSilent_snoc, <- Hoff, silentRun_snoc, Eu2, Ec1. destruct (usable s1); [|naive_solver].
      rewrite (Hrun eq_refl). destruct b; cbn; [split; [done|intros [?|?]; [done|lia]]|].
      split; [|intros [?|?]; [done|]]; lia.
    + rewrite silentRun_snoc, Eu2, Ez2. destruct (usable s1); [|done]. intros _. rewrite (Hrun eq_refl). destruct b; lia.
Qed.
End Facts.

(** ** Schedules

    A service over a plain aggregator of sentences, moved one goroutine at a time. *)
Section Schedules.
#[local] Existing Instance WordText.ascii.
#[local] Existing Instance TextAgg.dotTokenizer.
#[local] Instance letters : Uuid := fun n => replicate (S n) 97.

Definition sentences : aggregator := mkAggregator TextAgg.Simple (TextAgg.NewSimpleAggregator TextAgg.AggregationSentence)
  (fun t a => TextAgg.Simple_Aggregate a t) TextAgg.Simple_Flush TextAgg.Simple_Reset TextAgg.AggregationSentence.
Definition serviceOf (words pauses : bool) : config := mkConfig words true true true true true 16000 false [] [] pauses 3 false 0 [].

(** A move, or a goroutine moved until it waits: [None] is the loop. *)
Inductive move := Do (c : choice) | Until (t : option thread).
Fixpoint drain (fuel : nat) (t : option thread) (y : Sys) : list choice :=
  match fuel with
  | O => []
  | S fuel =>
    let c := match t with Some t => Run t 0 | None => Play 0 end in
    match step c y with Some y => c :: drain fuel t y | None => [] end
  end.
Fixpoint moves (ms : list move) (y : Sys) : list choice :=
  match ms with
  | [] => []
  | m :: ms =>
    let cs := match m with Do c => [c] | Until t => drain 200 t y end in
    match run cs y with Some y => cs ++ moves ms y | None => cs end
  end.
Definition handled (f : frame) : list move := [Do (Arrive f Downstream); Until (Some InOrder)].
Definition seen (f : frame) : list move := [Do (Arrive f Downstream); Until (Some System)].
Definition spoken (audio : gostring) : list move := [Do (Answer InOrder (mkAnswer [Yield (TTSAudioRawFrame audio)] None)); Until (Some InOrder)].
Definition scheduleOf (words pauses : bool) (ms : list move) : list choice := moves ms (boot (serviceOf words pauses) sentences []).
Definition after (words pauses : bool) (ms : list move) : Sys :=
  default (boot (serviceOf words pauses) sentences []) (run (scheduleOf words pauses ms) (boot (serviceOf words pauses) sentences [])).
Lemma after_run words pauses ms : (if run (scheduleOf words pauses ms) (boot (serviceOf words pauses) sentences []) is Some _ then true else false) = true ->
  run (scheduleOf words pauses ms) (boot (serviceOf words pauses) sentences []) = Some (after words pauses ms).
Proof. unfold after. by destruct (run _ _). Qed.

Definition pushedIn (y : Sys) : list frame := omap (fun e => match e with Pushed _ _ f _ _ => Some f | _ => None end) (log (tts y)).
Definition toldIn (y : Sys) : list call := omap (fun e => match e with Told c => Some c | _ => None end) (log (tts y)).

Definition aTurn : list move := seen StartFrame ++ handled (LLMFullResponseStartFrame false) ++ handled (TextFrame true (bytes_of "Hi. N") false) ++ spoken [1].
Definition aWholeTurn : list move := aTurn ++ handled (TextFrame true (bytes_of "ow") false) ++ handled (LLMFullResponseEndFrame 7 false None) ++ spoken [3].
Definition anEnd : list move := aWholeTurn ++ handled EndFrame ++ [Until None; Until (Some InOrder)].

Lemma playback_in_order_witness : exists q, plays empty (log (tts (after false false anEnd))) q /\ waiting q = serial (tts (after false false anEnd))
  /\ (forall c o, ctxOf c o (tts (after false false anEnd)) = None \/ items <$> ctxOf c o (tts (after false false anEnd)) = Some (heldIn o q))
  /\ length (carriedOf (log (tts (after false false anEnd)))) = 10%nat.
Proof.
  destruct (playback_in_order _ _ _ _ _ (after_run false false anEnd ltac:(vm_compute; reflexivity))) as (q & H1 & H2 & H3).
  exists q. split_and!; [exact H1|exact H2|exact H3|vm_compute; reflexivity].
Defined.

(** The log of a turn heard out: it starts, the pipeline's end comes, and is pushed on. *)
Definition heardOut : list event := log (tts (after false false anEnd)).
Fixpoint uptoEnd (l : list event) : list event :=
  match l with [] | Handling EndFrame :: _ => [] | e :: l => e :: uptoEnd l end.
Definition beforeEnd : list event := uptoEnd (drop 2 heardOut).
Definition endHandled : list event := removelast (drop (3 + length beforeEnd) heardOut).
Lemma end_waits_witness : ((Restarted ∉ beforeEnd ++ endHandled) /\ (Canceled ∉ beforeEnd ++ endHandled) /\ SEnd ∉ queuedOf beforeEnd)
  /\ length (queuedOf beforeEnd) = 4%nat /\ exists more, fetchedOf (beforeEnd ++ endHandled) = queuedOf beforeEnd ++ more ++ [SEnd]
  /\ Forall2 asQueued (takenOf (beforeEnd ++ endHandled)) (carriedOf (beforeEnd ++ endHandled)).
Proof.
  assert ((Restarted ∉ beforeEnd ++ endHandled) /\ (Canceled ∉ beforeEnd ++ endHandled) /\ SEnd ∉ queuedOf beforeEnd) as (H1 & H2 & H3).
  { split_and!.
    all: lazymatch goal with |- _ ∉ ?l => let l' := eval vm_compute in l in assert (l = l') as -> by (vm_compute; reflexivity) end.
    all: rewrite !not_elem_of_cons; split_and!; try discriminate; apply not_elem_of_nil. }
  split; [by split_and!|]. split; [vm_compute; reflexivity|].
  assert (log (tts (after false false anEnd)) = take 1 heardOut ++ Restarted :: (beforeEnd ++ Handling EndFrame :: endHandled)
    ++ Pushed Handlers false EndFrame Downstream [] :: []) as Hl by (vm_compute; reflexivity).
  exact (end_waits (serviceOf false false) sentences [] (scheduleOf false false anEnd) (after false false anEnd) (take 1 heardOut) beforeEnd endHandled
    false Downstream [] [] (after_run false false anEnd ltac:(vm_compute; reflexivity)) Hl H1 H2 H3).
Defined.

Lemma silence_writes_off_witness : let s := New (serviceOf false true) sentences [] in
  (usable s = true /\ zeroAudioRun s = 0 /\ 0 < zeroAudioLimit (cfg s))
  /\ (exists s', exec (each [false; true; false; false; false] recordContextAudioOutcome) s = Some (tt, s') /\ usable s' = false)
  /\ (exists s', exec (each [false; false; true; false; false] recordContextAudioOutcome) s = Some (tt, s') /\ (usable s' = true -> zeroAudioRun s' = 2)).
Proof.
  intros s. assert (usable s = true /\ zeroAudioRun s = 0 /\ 0 < zeroAudioLimit (cfg s)) as (H1 & H2 & H3) by (split_and!; reflexivity).
  split; [done|]. split.
  - destruct (silence_writes_off [false; true; false; false; false] s H1 H2 H3) as (s' & E & _ & Ho & _). exists s'. split; [done|].
    apply Ho. by exists [false; true], [].
  - destruct (silence_writes_off [false; false; true; false; false] s H1 H2 H3) as (s' & E & _ & _ & Hz). exists s'. split; [done|exact Hz].
Defined.

(** ** What goes wrong

    An interruption clears the contexts away before it asks which of them the provider
    should stop generating into: none is left to tell of. *)
Theorem interruption_tells_no_one :
  let y := after false false (aTurn ++ [Do (Arrive InterruptionFrame Downstream); Until (Some System); Until None; Until (Some System)]) in
  idle (system y) = true /\ interrupts (cfg (tts y)) = true /\ hasOpenAudioContexts (tts (after false false aTurn)) = true
  /\ toldIn y = [OnTurnContextCreated [97]; OnAudioContextCompleted [97]].
Proof. vm_compute. by split_and!. Qed.

(** What was queued is not dropped: a canceled loop plays it out, and the interruption
    waits. *)
Theorem interruption_plays_out :
  let y := after false false (aTurn ++ [Do (Arrive InterruptionFrame Downstream); Until (Some System); Until None]) in
  pushedIn (after false false aTurn) = [StartFrame] /\ existsb (fun f => match f with TTSAudioRawFrame _ => true | _ => false end) (pushedIn y) = true
  /\ idle (system y) = false /\ loopCanceled (tts y) = true.
Proof. vm_compute. by split_and!. Qed.

(** A turn that says nothing, of a provider that times its words, never ends for those
    behind the service: the frame that ends it is held for a context that is not made. *)
Theorem silent_turn_never_ends :
  let y := after true false (seen StartFrame ++ handled (LLMFullResponseStartFrame false) ++ handled (LLMFullResponseEndFrame 7 false None) ++ [Until None]) in
  idle (inOrder y) = true /\ serial (tts y) = [] /\ audioContexts (tts y) = ∅ /\ llmResponseStarted (tts y) = true
  /\ pushedIn y = [StartFrame; LLMFullResponseStartFrame false].
Proof. vm_compute. by split_and!. Qed.

(** An utterance spoken in the middle of a turn is given the turn's context, and closes
    it: the rest of the turn is added behind its end, and never heard. *)
Theorem utterance_cuts_turn :
  let y := after false false (aTurn ++ handled (TTSSpeakFrame (bytes_of "Wait.") true) ++ spoken [2]
    ++ handled (TextFrame true (bytes_of "ow") false) ++ handled (LLMFullResponseEndFrame 7 false None) ++ spoken [3] ++ [Until None]) in
  idle (inOrder y) = true /\ serial (tts y) = []
  /\ omap (fun f => match f with TTSAudioRawFrame a => Some a | _ => None end) (pushedIn y) = [[1]; [2]].
Proof. vm_compute. by split_and!. Qed.

(** A silent context resumes the handling of frames before it is forgotten: a pause that
    comes between the two sees it still open, and nothing is left to end it. *)
Theorem pause_outlives_contexts :
  let silently := [Do (Answer InOrder (mkAnswer [] None)); Until (Some InOrder)] in
  let y := after false true (seen StartFrame ++ handled (LLMFullResponseStartFrame false) ++ handled (TextFrame true (bytes_of "Hi. N") false)
    ++ silently ++ handled (TextFrame true (bytes_of "ow") false) ++ handled (LLMFullResponseEndFrame 7 false None)
    ++ repeat (Do (Play 0)) 27 ++ silently ++ [Until None]) in
  idle (inOrder y) = true /\ serial (tts y) = [] /\ audioContexts (tts y) = ∅ /\ botSpeaking (tts y) = false /\ framesPaused (tts y) = true.
Proof. vm_compute. by split_and!. Qed.
End Schedules.
End TtsFacts.
