(* ===== verification/Json.v ===== *)
(** * JSON

    What the program uses of [encoding/json]: decoding a document into a struct of
    string fields.  [LlmContext.v] has the encoding of strings.  The depth at which the
    package gives up is left out.

    A document is parsed with fuel, its length being enough: every call takes a byte. *)

From S2P Require Import Prelude Text Strings LlmContext.

Module Json.
Local Open Scope Z_scope.
Import LlmContext.

Inductive json :=
| JNull
| JBool (b : bool)
| JNumber (literal : gostring)
| JString (s : gostring)
| JArray (l : list json)
| JObject (l : list (gostring * json)).

(** ** Strings *)

Definition hexVal (b : Z) : option Z :=
  if (48 <=? b) && (b <=? 57) then Some (b - 48)
  else if (97 <=? b) && (b <=? 102) then Some (b - 87)
  else if (65 <=? b) && (b <=? 70) then Some (b - 55)
  else None.
Definition hex4 (s : gostring) : option (Z * gostring) :=
  match s with
  | a :: b :: c :: d :: s =>
    a ← hexVal a; b ← hexVal b; c ← hexVal c; d ← hexVal d; Some (((a * 16 + b) * 16 + c) * 16 + d, s)
  | _ => None
  end.
Definition isSurrogate (r : rune) : bool := (55296 <=? r) && (r <? 57344).

(** What follows [\u]: a rune, two escapes making one where they are a pair. *)
Definition unescapeU (s : gostring) : option (gostring * gostring) :=
  '(r, s) ← hex4 s;
  if isSurrogate r then
    match s with
    | 92 :: 117 :: t =>
      match hex4 t with
      | Some (r2, t) =>
        if (55296 <=? r) && (r <? 56320) && (56320 <=? r2) && (r2 <? 57344)
        then Some (EncodeRune ((r - 55296) * 1024 + (r2 - 56320) + 65536), t)
        else Some (EncodeRune RuneError, s)
      | None => Some (EncodeRune RuneError, s)
      end
    | _ => Some (EncodeRune RuneError, s)
    end
  else Some (EncodeRune r, s).

Definition escapes : list (Z * Z) := [(34, 34); (92, 92); (47, 47); (98, 8); (102, 12); (110, 10); (114, 13); (116, 9)].
Definition escape (b : Z) : option Z := snd <$> List.find (fun p => p.1 =? b) escapes.

(** A string past its opening quote, and what follows its closing one. *)
Fixpoint parseString (fuel : nat) (s : gostring) : option (gostring * gostring) :=
  match fuel, s with
  | S fuel, b :: t =>
    if b =? 34 then Some ([], t)
    else if b <? 32 then None
    else
      '(out, t) ←
        (if b =? 92 then
           match t with
           | 117 :: t => unescapeU t
           | e :: t => c ← escape e; Some ([c], t)
           | [] => None
           end
         else if b <? 128 then Some ([b], t)
         else let '(r, w) := DecodeRune s in Some (EncodeRune r, List.skipn w s));
      '(rest, t) ← parseString fuel t; Some (out ++ rest, t)
  | _, _ => None
  end.

(** ** Numbers and values *)

Definition isDigit (b : Z) : bool := (48 <=? b) && (b <=? 57).
Fixpoint spanDigits (s : gostring) : gostring * gostring :=
  match s with
  | b :: t => if isDigit b then let '(d, r) := spanDigits t in (b :: d, r) else ([], s)
  | [] => ([], [])
  end.
Definition digits1 (s : gostring) : option (gostring * gostring) :=
  match spanDigits s with ([], _) => None | r => Some r end.
Definition parseNumber (s : gostring) : option (gostring * gostring) :=
  let '(sign, s) := match s with 45 :: t => ([45], t) | _ => ([], s) end in
  '(int, s) ← (match s with 48 :: t => Some ([48], t) | _ => digits1 s end);
  '(frac, s) ← (match s with 46 :: t => '(d, r) ← digits1 t; Some (46 :: d, r) | _ => Some ([], s) end);
  '(exp, s) ← (match s with
               | b :: t =>
                 if (b =? 101) || (b =? 69) then
                   let '(es, t) := match t with 43 :: t => ([43], t) | 45 :: t => ([45], t) | _ => ([], t) end in
                   '(d, r) ← digits1 t; Some (b :: es ++ d, r)
                 else Some ([], s)
               | [] => Some ([], s)
               end);
  Some (sign ++ int ++ frac ++ exp, s).

Definition isWs (b : Z) : bool := (b =? 32) || (b =? 9) || (b =? 10) || (b =? 13).
Definition skipWs (s : gostring) : gostring := dropWhile isWs s.

Definition literal (w : string) (v : json) (s : gostring) : option (json * gostring) :=
  if HasPrefix s (bytes_of w) then Some (v, List.skipn (String.length w) s) else None.

Fixpoint parseValue (fuel : nat) (s : gostring) : option (json * gostring) :=
  match fuel, skipWs s with
  | S fuel, 34 :: t => '(v, t) ← parseString (S (List.length t)) t; Some (JString v, t)
  | S fuel, 123 :: t =>
    match skipWs t with
    | 125 :: t => Some (JObject [], t)
    | t => '(l, t) ← parseMembers fuel t; Some (JObject l, t)
    end
  | S fuel, 91 :: t =>
    match skipWs t with
    | 93 :: t => Some (JArray [], t)
    | t => '(l, t) ← parseElements fuel t; Some (JArray l, t)
    end
  | S fuel, 110 :: _ => literal "null" JNull (skipWs s)
  | S fuel, 116 :: _ => literal "true" (JBool true) (skipWs s)
  | S fuel, 102 :: _ => literal "false" (JBool false) (skipWs s)
  | S fuel, t => '(n, t) ← parseNumber t; Some (JNumber n, t)
  | O, _ => None
  end
with parseMembers (fuel : nat) (s : gostring) : option (list (gostring * json) * gostring) :=
  match fuel, skipWs s with
  | S fuel, 34 :: t =>
    '(k, t) ← parseString (S (List.length t)) t;
    match skipWs t with
    | 58 :: t =>
      '(v, t) ← parseValue fuel t;
      match skipWs t with
      | 44 :: t => '(l, t) ← parseMembers fuel t; Some ((k, v) :: l, t)
      | 125 :: t => Some ([(k, v)], t)
      | _ => None
      end
    | _ => None
    end
  | _, _ => None
  end
with parseElements (fuel : nat) (s : gostring) : option (list json * gostring) :=
  match fuel with
  | S fuel =>
    '(v, t) ← parseValue fuel s;
    match skipWs t with
    | 44 :: t => '(l, t) ← parseElements fuel t; Some (v :: l, t)
    | 93 :: t => Some ([v], t)
    | _ => None
    end
  | O => None
  end.

Definition parse (s : gostring) : option json :=
  '(v, t) ← parseValue (2 * List.length s + 2) s;
  match skipWs t with [] => Some v | _ => None end.

(** ** Decoding into a struct of strings

    A key names a field if it folds to the same name, ["ſ"] folding to ["s"] and the
    Kelvin sign to ["k"]; a later key overrides an earlier one; [null] leaves a string
    alone; any other kind is an error. *)
Definition foldRune (r : rune) : rune :=
  if (65 <=? r) && (r <=? 90) then r + 32 else if r =? 383 then 115 else if r =? 8490 then 107 else r.
Definition foldName (k : gostring) : list rune := List.map foldRune (runesOf k).
Definition names (k : gostring) (field : string) : bool := bool_decide (foldName k = foldName (bytes_of field)).

(** The field of the struct a member goes to, an exact name first. *)
Definition fieldOf (fields : list string) (k : gostring) : option string :=
  match List.find (fun f => bool_decide (k = bytes_of f)) fields with
  | Some f => Some f
  | None => List.find (names k) fields
  end.

(** The last string given to each field, and whether all was well. *)
Fixpoint members (fields pointers : list string) (l : list (gostring * json)) (got : gmap string gostring) : bool * gmap string gostring :=
  match l with
  | [] => (true, got)
  | (k, v) :: l =>
    match fieldOf fields k, v with
    | None, _ => members fields pointers l got
    | Some f, JString s => members fields pointers l (<[f := s]> got)
    | Some f, JNull => members fields pointers l (if bool_decide (f ∈ pointers) then delete f got else got)
    | Some _, _ => let '(_, got) := members fields pointers l got in (false, got)
    end
  end.

(** [json.Unmarshal] into a struct with the string fields given, [pointers] those held by
    a pointer; [None] is an error. *)
Definition Unmarshal (fields pointers : list string) (s : gostring) : option (gmap string gostring) :=
  match parse s with
  | Some (JObject l) => match members fields pointers l ∅ with (true, got) => Some got | _ => None end
  | Some JNull => Some ∅
  | _ => None
  end.

(** ** What is written is read back *)

Lemma members_string fields pointers k f v l got : fieldOf fields k = Some f ->
  members fields pointers ((k, JString v) :: l) got = members fields pointers l (<[f := v]> got).
Proof. intros E. cbn [members]. by rewrite E. Qed.

Section RoundTrip.

(** The runes written as an escape. *)
Definition escaped : list rune := seqZ 0 32 ++ [34; 92; 60; 62; 38; 8232; 8233].
Lemma escaped_in r : isScalar r = true ->
  (r <? 32) || (r =? 34) || (r =? 92) || (r =? 60) || (r =? 62) || (r =? 38) || (r =? 8232) || (r =? 8233) = true -> r ∈ escaped.
Proof.
  intros Hs H. unfold isScalar in Hs. unfold escaped. apply elem_of_app. destruct (r <? 32) eqn:E.
  - left. apply elem_of_seqZ. lia.
  - right. repeat (apply orb_true_iff in H as [H|H]); try done; apply Z.eqb_eq in H; subst; set_solver.
Qed.

Lemma parseString_rune f r w t : isScalar r = true -> (w = List.length (encodeScalar r)) ->
  parseString (S f) (jsonRune r w ++ t) = '(out, t) ← parseString f t; Some (EncodeRune r ++ out, t).
Proof.
  intros Hs Hw. destruct ((r <? 32) || (r =? 34) || (r =? 92) || (r =? 60) || (r =? 62) || (r =? 38) || (r =? 8232) || (r =? 8233)) eqn:He.
  - assert (r ∈ escaped) as Hin by by apply escaped_in. clear He Hs Hw. unfold escaped in Hin. cbn in Hin.
    repeat (apply elem_of_cons in Hin as [->|Hin]; [reflexivity|]). by apply elem_of_nil in Hin.
  - rewrite !orb_false_iff in He. destruct He as [[[[[[[H1 H2] H3] H4] H5] H6] H7] H8].
    assert (jsonRune r w = encodeScalar r) as ->.
    { unfold jsonRune. rewrite H2, H3, H1, H4, H5, H6, H7, H8.
      replace (r =? 8) with false by lia. replace (r =? 12) with false by lia. replace (r =? 10) with false by lia.
      replace (r =? 13) with false by lia. replace (r =? 9) with false by lia. cbn [orb].
      replace ((r =? RuneError) && (w =? 1)%nat) with false; [by apply EncodeRune_scalar|].
      symmetry. apply andb_false_iff. destruct (r =? RuneError) eqn:E; [|by left]. right. apply Z.eqb_eq in E. by subst. }
    rewrite EncodeRune_scalar by done. destruct (r <? 128) eqn:E8.
    + unfold encodeScalar. rewrite E8. cbn. by rewrite H2, H1, H3, E8.
    + pose proof (DecodeRune_encodeScalar r t Hs) as HD. pose proof (encodeScalar_length r) as Hl.
      destruct (encodeScalar r) as [|b u] eqn:Ee; [cbn in Hl; lia|].
      assert (128 <= b) as Hb.
      { unfold encodeScalar in Ee. rewrite E8 in Ee. repeat case_match; injection Ee as <- _; Z.to_euclidean_division_equations; lia. }
      change ((b :: u) ++ t) with (b :: (u ++ t)) in *. cbn [parseString].
      replace (b =? 34) with false by lia. replace (b <? 32) with false by lia. replace (b =? 92) with false by lia.
      replace (b <? 128) with false by lia. rewrite HD. cbn [List.length List.skipn mbind option_bind].
      rewrite EncodeRune_scalar, Ee by done. rewrite List.skipn_app, List.skipn_all2, Nat.sub_diag by done. done.
Qed.

Lemma jsonBody_cons fuel r s : isScalar r = true -> (List.length (encodeScalar r ++ s) <= fuel)%nat ->
  exists fuel', (List.length s <= fuel')%nat
  /\ jsonBody fuel (encodeScalar r ++ s) = jsonRune r (List.length (encodeScalar r)) ++ jsonBody fuel' s.
Proof.
  intros Hs Hf. pose proof (DecodeRune_encodeScalar r s Hs) as HD. pose proof (encodeScalar_length r) as Hl.
  rewrite length_app in Hf. destruct fuel as [|fuel]; [lia|]. exists fuel. split; [lia|].
  destruct (encodeScalar r) as [|b u] eqn:Ee; [cbn in Hl; lia|]. change ((b :: u) ++ s) with (b :: (u ++ s)) in *.
  cbn [jsonBody]. rewrite HD. cbn [List.length List.skipn]. by rewrite List.skipn_app, List.skipn_all2, Nat.sub_diag by done.
Qed.

Lemma jsonRune_length r w : (1 <= List.length (jsonRune r w))%nat.
Proof.
  unfold jsonRune. repeat case_match; try (cbn; lia). pose proof (EncodeRune_ne r). destruct (EncodeRune r); [done|cbn; lia].
Qed.

Lemma parseString_jsonBody rs : Forall (fun r => isScalar r = true) rs -> forall fuel f t,
  (List.length (ofRunes rs) <= fuel)%nat -> (List.length (jsonBody fuel (ofRunes rs)) < f)%nat ->
  parseString f (jsonBody fuel (ofRunes rs) ++ 34 :: t) = Some (ofRunes rs, t).
Proof.
  induction 1 as [|r rs Hr _ IH]; intros fuel f t Hfuel Hf.
  - destruct f as [|f]; [lia|]. by destruct fuel.
  - change (ofRunes (r :: rs)) with (EncodeRune r ++ ofRunes rs) in *. rewrite EncodeRune_scalar in * by done.
    destruct (jsonBody_cons fuel r (ofRunes rs) Hr Hfuel) as (fuel' & Hf' & E). rewrite E in *. rewrite length_app in Hf.
    pose proof (jsonRune_length r (List.length (encodeScalar r))). destruct f as [|f]; [lia|].
    rewrite <- app_assoc, parseString_rune by done. rewrite (IH fuel' f) by (done || lia). cbn. by rewrite EncodeRune_scalar.
Qed.

Lemma parseString_jsonString s t : validUTF8 s ->
  exists u, jsonString s ++ t = 34 :: u /\ parseString (S (List.length u)) u = Some (s, t).
Proof.
  intros (rs & Hrs & ->)%valid_scalars. eexists. split.
  - unfold jsonString. rewrite <- !app_assoc. cbn. reflexivity.
  - apply parseString_jsonBody; [done|lia|]. rewrite length_app. lia.
Qed.

(** A member of an object of strings, and what comes after it. *)
Lemma parseMembers_field f k v t : validUTF8 (bytes_of k) -> validUTF8 v ->
  parseMembers (S (S f)) (jsonField k v ++ t) =
  match skipWs t with
  | 44 :: t => '(l, t) ← parseMembers (S f) t; Some ((bytes_of k, JString v) :: l, t)
  | 125 :: t => Some ([(bytes_of k, JString v)], t)
  | _ => None
  end.
Proof.
  intros Hk Hv. unfold jsonField. rewrite <- !app_assoc.
  destruct (parseString_jsonString (bytes_of k) ([58] ++ jsonString v ++ t) Hk) as (u & -> & Hu).
  destruct (parseString_jsonString v t Hv) as (x & E & Hx). rewrite E in Hu.
  cbn [parseMembers]. change (skipWs (34 :: u)) with (34 :: u). cbn iota beta. rewrite Hu. cbn [mbind option_bind].
  change (skipWs ([58] ++ 34 :: x)) with (58 :: 34 :: x). cbn iota beta.
  assert (parseValue (S f) (34 :: x) = Some (JString v, t)) as -> by (cbn [parseValue]; change (skipWs (34 :: x)) with (34 :: x); cbn iota beta; by rewrite Hx).
  done.
Qed.
Lemma parseMembers_more f k v t : validUTF8 (bytes_of k) -> validUTF8 v ->
  parseMembers (S (S f)) (jsonField k v ++ [44] ++ t) = '(l, t) ← parseMembers (S f) t; Some ((bytes_of k, JString v) :: l, t).
Proof. intros Hk Hv. by rewrite parseMembers_field. Qed.
Lemma parseMembers_last f k v t : validUTF8 (bytes_of k) -> validUTF8 v ->
  parseMembers (S (S f)) (jsonField k v ++ [125] ++ t) = Some ([(bytes_of k, JString v)], t).
Proof. intros Hk Hv. by rewrite parseMembers_field. Qed.
Lemma jsonField_quote k v t : exists u, jsonField k v ++ t = 34 :: u.
Proof. by eexists. Qed.
Lemma parseValue_object f s u l t : s = 34 :: u -> parseMembers f s = Some (l, t) -> parseValue (S f) (123 :: s) = Some (JObject l, t).
Proof. intros -> H. cbn [parseValue]. change (skipWs (123 :: 34 :: u)) with (123 :: 34 :: u). cbn iota beta. change (skipWs (34 :: u)) with (34 :: u). cbn iota beta. by rewrite H. Qed.
End RoundTrip.
End Json.
