(* ===== verification/AsyncTool.v ===== *)
(** * AsyncTool

    Reading the messages an asynchronous tool reports through back out of a
    conversation: [frames.ParseAsyncToolMessage] ([src/frames/async_tool.go]).
    [LlmContext.v] has how they are written, [Json.v] the decoder. *)

From S2P Require Import Prelude Text Strings LlmContext Json.

Module AsyncTool.
Import LlmContext.
Local Open Scope Z_scope.

Definition AsyncToolPayloadType : gostring := bytes_of "async_tool".

(** The members of [asyncToolPayload]; the result is held by a pointer. *)
Definition fields : list string := ["type"; "status"; "tool_call_id"; "description"; "result"]%string.
Definition asyncToolPayload (content : gostring) : option (gmap string gostring) :=
  Json.Unmarshal fields ["result"%string] content.

Definition nonEmpty (s : gostring) : option gostring := match s with [] => None | _ => Some s end.
Definition asyncToolContent (m : Message) : option gostring :=
  if decide (role m = RoleDeveloper) then nonEmpty (text m)
  else match toolResults m with [r] => nonEmpty (trContent r) | _ => None end.

Definition checked (p : gmap string gostring) : option AsyncToolMessage :=
  let field k := default [] (p !! k) in
  if negb (bool_decide (field "type"%string = AsyncToolPayloadType)) then None
  else if bool_decide (field "tool_call_id"%string = []) then None
  else if negb (bool_decide (field "status"%string = AsyncToolStatusRunning))
          && negb (bool_decide (field "status"%string = AsyncToolStatusFinished)) then None
  else
    let kind := match p !! "result"%string with
                | None => AsyncToolStarted
                | Some _ => if bool_decide (field "status"%string = AsyncToolStatusFinished) then AsyncToolFinal else AsyncToolIntermediate
                end in
    Some (mkAsync kind (field "tool_call_id"%string) (field "status"%string) (field "description"%string) (p !! "result"%string)).
Definition ParseAsyncToolMessage (m : Message) : option AsyncToolMessage :=
  content ← asyncToolContent m; p ← asyncToolPayload content; checked p.

(** The messages the protocol has: the status and the result go with the kind. *)
Definition wellFormed (m : AsyncToolMessage) : Prop :=
  match kind m with
  | AsyncToolStarted => (status m = AsyncToolStatusRunning \/ status m = AsyncToolStatusFinished) /\ result m = None
  | AsyncToolIntermediate => status m = AsyncToolStatusRunning /\ result m <> None
  | AsyncToolFinal => status m = AsyncToolStatusFinished /\ result m <> None
  end /\ toolCallID m <> [] /\ validUTF8 (toolCallID m) /\ validUTF8 (asDescription m)
  /\ match result m with Some r => validUTF8 r | None => True end.

Definition payload (m : AsyncToolMessage) : gmap string gostring :=
  let p := <["description"%string := asDescription m]> (<["tool_call_id"%string := toolCallID m]>
             (<["status"%string := status m]> (<["type"%string := AsyncToolPayloadType]> ∅))) in
  match result m with Some r => <["result"%string := r]> p | None => p end.

Lemma field_own k : k ∈ fields -> validUTF8 (bytes_of k) /\ Json.fieldOf fields (bytes_of k) = Some k.
Proof.
  intros Hin. repeat (apply elem_of_cons in Hin as [->|Hin]; [split; [by apply ascii_valid|vm_compute; reflexivity]|]).
  by apply elem_of_nil in Hin.
Qed.
Lemma members_own pointers k v l got : k ∈ fields ->
  Json.members fields pointers ((bytes_of k, Json.JString v) :: l) got = Json.members fields pointers l (<[k := v]> got).
Proof. intros Hk. apply Json.members_string. by apply field_own. Qed.

Lemma json_long m : (7 <= List.length (AsyncToolMessage_json m))%nat.
Proof. unfold AsyncToolMessage_json, jsonField, jsonString. rewrite !length_app. cbn [List.length]. lia. Qed.

Definition own (m : AsyncToolMessage) : list (gostring * Json.json) :=
  [(bytes_of "type", Json.JString (bytes_of "async_tool")); (bytes_of "status", Json.JString (status m));
   (bytes_of "tool_call_id", Json.JString (toolCallID m)); (bytes_of "description", Json.JString (asDescription m))]
  ++ match result m with Some r => [(bytes_of "result", Json.JString r)] | None => [] end.

Lemma own_members m : Json.members fields ["result"%string] (own m) ∅ = (true, payload m).
Proof.
  unfold own, payload. destruct (result m) as [r|]; cbn [app];
    rewrite !members_own by (unfold fields; set_solver); reflexivity.
Qed.

Definition texts (m : AsyncToolMessage) : Prop :=
  validUTF8 (status m) /\ validUTF8 (toolCallID m) /\ validUTF8 (asDescription m)
  /\ match result m with Some r => validUTF8 r | None => True end.

(** The document as the decoder sees it. *)
Lemma document_parsed m n : texts m -> Json.parseValue (7 + n) (AsyncToolMessage_json m) = Some (Json.JObject (own m), []).
Proof.
  intros (Hs & Hi & Hd & Hr).
  assert (forall k, k ∈ fields -> validUTF8 (bytes_of k)) as Hk by (intros k Hin; by apply field_own).
  assert (validUTF8 (bytes_of "async_tool")) as Ht by by apply ascii_valid.
  assert ("type"%string ∈ fields /\ "status"%string ∈ fields /\ "tool_call_id"%string ∈ fields /\ "description"%string ∈ fields
          /\ "result"%string ∈ fields) as (K1 & K2 & K3 & K4 & K5) by (unfold fields; set_solver).
  unfold AsyncToolMessage_json. destruct (Json.jsonField_quote "type" (bytes_of "async_tool")
    ([44] ++ jsonField "status" (status m) ++ [44] ++ jsonField "tool_call_id" (toolCallID m) ++ [44] ++ jsonField "description" (asDescription m)
     ++ (match result m with Some r => [44] ++ jsonField "result" r | None => [] end) ++ [125])) as [u Eu].
  eapply Json.parseValue_object; [exact Eu|]. clear Eu u. unfold own.
  do 3 rewrite Json.parseMembers_more by auto. destruct (result m) as [r|].
  - rewrite <- app_assoc, Json.parseMembers_more by auto.
    rewrite <- (app_nil_r [125]), Json.parseMembers_last by auto. reflexivity.
  - rewrite app_nil_l, <- (app_nil_r [125]), Json.parseMembers_last by auto. reflexivity.
Qed.

Lemma payload_read m : texts m -> asyncToolPayload (AsyncToolMessage_json m) = Some (payload m).
Proof.
  intros Ht. unfold asyncToolPayload, Json.Unmarshal, Json.parse.
  pose proof (json_long m) as Hn. remember (2 * List.length (AsyncToolMessage_json m) + 2)%nat as n eqn:En.
  assert (n = 7 + (n - 7))%nat as -> by lia. clear En Hn. rewrite document_parsed by done. cbn [mbind option_bind Json.skipWs dropWhile].
  by rewrite own_members.
Qed.

Lemma payload_fields m : payload m !! "type"%string = Some AsyncToolPayloadType /\ payload m !! "status"%string = Some (status m)
  /\ payload m !! "tool_call_id"%string = Some (toolCallID m) /\ payload m !! "description"%string = Some (asDescription m)
  /\ payload m !! "result"%string = result m.
Proof. unfold payload. destruct (result m); by simplify_map_eq. Qed.
Lemma nonEmpty_ne s : s <> [] -> nonEmpty s = Some s.
Proof. by destruct s. Qed.
Lemma message_content m : asyncToolContent (AsyncToolMessage_message m) = Some (AsyncToolMessage_json m).
Proof.
  assert (AsyncToolMessage_json m <> []) as Hne by (intros E; pose proof (json_long m) as Hn; rewrite E in Hn; cbn in Hn; lia).
  revert Hne. unfold asyncToolContent, AsyncToolMessage_message. generalize (AsyncToolMessage_json m). intros j Hne.
  destruct (kind m); cbn; by apply nonEmpty_ne.
Qed.
Lemma running_not_finished : AsyncToolStatusRunning <> AsyncToolStatusFinished.
Proof. done. Qed.
Lemma wellFormed_texts m : wellFormed m -> texts m /\ (status m = AsyncToolStatusRunning \/ status m = AsyncToolStatusFinished).
Proof.
  intros (Hk & _ & Hvi & Hvd & Hvr). assert (status m = AsyncToolStatusRunning \/ status m = AsyncToolStatusFinished) as Hs
    by (destruct (kind m); destruct Hk as [Hk _]; auto).
  split; [|done]. split_and!; try done. destruct Hs as [-> | ->]; by apply ascii_valid.
Qed.

Lemma checked_fields p m : wellFormed m ->
  p !! "type"%string = Some AsyncToolPayloadType -> p !! "status"%string = Some (status m) ->
  p !! "tool_call_id"%string = Some (toolCallID m) -> p !! "description"%string = Some (asDescription m) ->
  p !! "result"%string = result m -> checked p = Some m.
Proof.
  intros Hw E1 E2 E3 E4 E5. destruct (wellFormed_texts m Hw) as [_ Hs]. destruct Hw as (Hk & Hi & _). unfold checked.
  rewrite E1, E2, E3, E4, E5. cbn [default from_option].
  rewrite (bool_decide_eq_true_2 (AsyncToolPayloadType = _)), (bool_decide_eq_false_2 (toolCallID m = [])) by done. cbn [negb].
  pose proof running_not_finished as Hrf. destruct m as [k i s d r]; cbn [kind toolCallID status asDescription result] in *.
  destruct Hs as [-> | ->].
  - rewrite (bool_decide_eq_true_2 (AsyncToolStatusRunning = AsyncToolStatusRunning)), (bool_decide_eq_false_2 (_ = AsyncToolStatusFinished)) by done.
    cbn [negb andb]. destruct k, r; try done; by destruct Hk as [? ?].
  - rewrite (bool_decide_eq_true_2 (AsyncToolStatusFinished = AsyncToolStatusFinished)) by done. rewrite andb_false_r.
    destruct k, r; try done; by destruct Hk as [? ?].
Qed.

Lemma parse_via m c p : asyncToolContent m = Some c -> asyncToolPayload c = Some p -> ParseAsyncToolMessage m = checked p.
Proof. unfold ParseAsyncToolMessage. intros ->. cbn [mbind option_bind]. by intros ->. Qed.

(** A message of the asynchronous-tool protocol put into a conversation,
    whatever its texts, is read back out of it as it was. *)
Theorem async_message_roundtrip m : wellFormed m -> ParseAsyncToolMessage (AsyncToolMessage_message m) = Some m.
Proof.
  intros Hw. rewrite (parse_via _ _ _ (message_content m) (payload_read m (proj1 (wellFormed_texts m Hw)))).
  destruct (payload_fields m) as (E1 & E2 & E3 & E4 & E5). by apply checked_fields.
Qed.

Lemma async_message_roundtrip_witness :
  let m := mkAsync AsyncToolFinal (bytes_of "call<1>") AsyncToolStatusFinished asyncToolFinalDescription (Some [226; 128; 168; 10; 34; 195; 169]) in
  wellFormed m /\ ParseAsyncToolMessage (AsyncToolMessage_message m) = Some m.
Proof.
  intros m. assert (wellFormed m) as H; [|split; [exact H|apply (async_message_roundtrip m H)]].
  split_and!; try done; try (by apply ascii_valid). cbn. exists [8232; 10; 34; 233]. reflexivity.
Defined.

(** What the builders of the protocol make is well formed. *)
Lemma built_wellFormed i r : i <> [] -> validUTF8 i -> validUTF8 r ->
  Forall wellFormed [mkAsync AsyncToolStarted i AsyncToolStatusRunning asyncToolStartedDescription None;
                     mkAsync AsyncToolIntermediate i AsyncToolStatusRunning asyncToolIntermediateDescription (Some r);
                     mkAsync AsyncToolFinal i AsyncToolStatusFinished asyncToolFinalDescription (Some r);
                     mkAsync AsyncToolFinal i AsyncToolStatusFinished asyncToolCanceledDescription (Some asyncToolCanceledResult)].
Proof.
  intros Hne Hi Hr. repeat constructor; cbn; try done; try (by apply ascii_valid); by left.
Qed.
End AsyncTool.
