(* ===== verification/Summary.v ===== *)
(** * Summary

    Compressing a conversation that has grown long: what is folded into a summary
    ([src/utils/context/summarization.go]), its configuration
    ([src/frames/summarization.go]), the summary a model writes
    ([src/service/llm/summarize.go]) and the assistant aggregator's summarizer
    ([src/processor/aggregators/summarizer.go]).

    A panic is [None].  The model asked is a function of the conversation put to it.
    A handler of the summarizer is a function over the conversation and its own state;
    the one that applies a summary is also given as the parts it takes under one lock
    each, so that what may come between can be told. *)

From S2P Require Import Prelude Float64 Text Strings LlmContext Json AsyncTool.

Module Summary.
Import LlmContext.
Local Open Scope Z_scope.

(** ** How large a conversation is *)

Definition charsPerToken : Z := 4.
Definition tokenOverheadPerMessage : Z := 10.
Definition EstimateTokens (t : gostring) : Z := Z.of_nat (List.length t) / charsPerToken.

Definition messageTokens (m : Message) : Z :=
  if IsLLMSpecific m then 0
  else fold_left (fun n _ => n + tokenOverheadPerMessage) (toolResults m)
         (fold_left (fun n tc => n + EstimateTokens (tcName tc ++ tcArgs tc)) (toolCalls m)
            (tokenOverheadPerMessage + EstimateTokens (text m))).
Definition estimateMessagesTokens (ms : list Message) : Z := fold_left (fun n m => n + messageTokens m) ms 0.

(** ** What can be summarized *)

Definition isToolResultPending (content : gostring) : bool :=
  if bool_decide (content = ToolResultInProgress) then true
  else match Json.Unmarshal ["type"; "status"]%string [] content with
       | Some p => bool_decide (default [] (p !! "type"%string) = AsyncTool.AsyncToolPayloadType)
                   && bool_decide (default [] (p !! "status"%string) = AsyncToolStatusRunning)
       | None => false
       end.

Abbreviation pendingCalls := (gmap gostring nat).
Definition requests (i : nat) (tcs : list ToolCall) (p : pendingCalls) : pendingCalls :=
  fold_left (fun p tc => if bool_decide (tcID tc = []) then p else <[tcID tc := i]> p) tcs p.
Definition answers (rs : list ToolResult) (p : pendingCalls) : pendingCalls :=
  fold_left (fun p r => if bool_decide (trID r = []) then p
                        else match p !! trID r with
                             | None => p
                             | Some _ => if isToolResultPending (trContent r) then p else delete (trID r) p
                             end) rs p.
(** One message at index [i]. *)
Definition track (i : nat) (m : Message) (p : pendingCalls) : pendingCalls :=
  if IsLLMSpecific m then p
  else
    let p := if bool_decide (role m = RoleAssistant) then requests i (toolCalls m) p else p in
    let p := answers (toolResults m) p in
    match AsyncTool.ParseAsyncToolMessage m with
    | Some am => match kind am with AsyncToolFinal => delete (toolCallID am) p | _ => p end
    | None => p
    end.
(** [n] messages from [i] on. *)
Fixpoint scan (ms : list Message) (n i : nat) (p : pendingCalls) : option pendingCalls :=
  match n with
  | O => Some p
  | S n => m ← ms !! i; scan ms n (S i) (track i m p)
  end.
Definition earliest (p : pendingCalls) : Z :=
  map_fold (fun _ i e => if (e =? -1) || (Z.of_nat i <? e) then Z.of_nat i else e) (-1) p.
Definition earliestUnresolvedToolCall (ms : list Message) (start end_ : Z) : option Z :=
  earliest <$> scan ms (Z.to_nat (end_ - start)) (Z.to_nat start) ∅.

(** The messages, and the index of the last one, -1 if there are none. *)
Definition MessagesToSummarize : Type := list Message * Z.
Definition none : MessagesToSummarize := ([], -1).

Definition isSystemMessage (m : Message) : bool := negb (IsLLMSpecific m) && bool_decide (role m = RoleSystem).
Definition slice (ms : list Message) (a b : Z) : list Message := List.firstn (Z.to_nat (b - a)) (List.skipn (Z.to_nat a) ms).

Definition selectMessagesToSummarize (ms : list Message) (minMessagesToKeep : Z) : option MessagesToSummarize :=
  let len := Z.of_nat (List.length ms) in
  if len <=? minMessagesToKeep then Some none
  else
    m0 ← ms !! 0%nat;
    let start := if isSystemMessage m0 then 1 else 0 in
    let end_ := len - minMessagesToKeep in
    if end_ <=? start then Some none
    else
      unresolved ← earliestUnresolvedToolCall ms start end_;
      let end_ := if (0 <=? unresolved) && (unresolved <? end_) then unresolved else end_ in
      if end_ <=? start then Some none else Some (slice ms start end_, end_ - 1).

(** ** The transcript put to the model *)

Definition upperASCII (b : Z) : Z := if (97 <=? b) && (b <=? 122) then b - 32 else b.
Definition orUnknown (s : gostring) : gostring := match s with [] => bytes_of "unknown" | _ => s end.
Definition messageParts (m : Message) : list gostring :=
  if IsLLMSpecific m then []
  else (match text m with [] => [] | t => [List.map upperASCII (roleName (role m)) ++ bytes_of ": " ++ t] end)
       ++ List.map (fun tc => bytes_of "TOOL_CALL: " ++ orUnknown (tcName tc) ++ bytes_of "(" ++ tcArgs tc ++ bytes_of ")") (toolCalls m)
       ++ List.map (fun r => bytes_of "TOOL_RESULT[" ++ orUnknown (trID r) ++ bytes_of "]: " ++ trContent r) (toolResults m).
Definition FormatMessagesForSummary (ms : list Message) : gostring := joinWith [10; 10] (List.concat (List.map messageParts ms)).

(** ** Configuration *)

Record SummaryConfig := mkSummaryConfig {
  TargetContextTokens : Z;
  MinMessagesAfterSummary : Z;
  SummarizationPrompt : gostring;
  SummaryMessageTemplate : gostring;
  LLM : carried nat;                  (** a service known by a number *)
  SummarizationTimeout : Z
}.
#[export] Instance eta_SummaryConfig : Eta SummaryConfig := fun c =>
  mkSummaryConfig (TargetContextTokens c) (MinMessagesAfterSummary c) (SummarizationPrompt c) (SummaryMessageTemplate c) (LLM c) (SummarizationTimeout c).

Definition DefaultSummarizationTimeout : Z := 120 * 1000000000.
Definition defaultTargetContextTokens : Z := 6000.
Definition defaultMinMessagesAfterSummary : Z := 4.
Definition DefaultSummaryMessageTemplate : gostring := bytes_of "Conversation summary: {summary}".
Definition defaultMaxContextTokens : Z := 8000.
Definition defaultMaxUnsummarizedMessages : Z := 20.
Definition summaryTokenBudgetRatio : f64 := f64_lit 8 10.

Definition WithDefaults (c : SummaryConfig) : SummaryConfig :=
  let c := if TargetContextTokens c =? 0 then c <| TargetContextTokens := defaultTargetContextTokens |> else c in
  let c := if MinMessagesAfterSummary c =? 0 then c <| MinMessagesAfterSummary := defaultMinMessagesAfterSummary |> else c in
  let c := match SummaryMessageTemplate c with [] => c <| SummaryMessageTemplate := DefaultSummaryMessageTemplate |> | _ => c end in
  if SummarizationTimeout c =? 0 then c <| SummarizationTimeout := DefaultSummarizationTimeout |> else c.

Inductive configError := ErrTargetContextTokens | ErrMinMessagesAfterSummary | ErrNoSummarizationThreshold | ErrMaxContextTokens | ErrMaxUnsummarizedMessages.
Definition Validate (c : SummaryConfig) : option configError :=
  if TargetContextTokens c <? 0 then Some ErrTargetContextTokens
  else if MinMessagesAfterSummary c <? 0 then Some ErrMinMessagesAfterSummary
  else None.

Record AutoSummarizationConfig := mkAuto {
  MaxContextTokens : option Z;
  MaxUnsummarizedMessages : option Z;
  summaryConfig : SummaryConfig
}.
#[export] Instance eta_Auto : Eta AutoSummarizationConfig := fun c => mkAuto (MaxContextTokens c) (MaxUnsummarizedMessages c) (summaryConfig c).
Definition NewAutoSummarizationConfig : AutoSummarizationConfig :=
  mkAuto (Some defaultMaxContextTokens) (Some defaultMaxUnsummarizedMessages) (mkSummaryConfig 0 0 [] [] Nothing 0).
Definition budget (limit : Z) : Z := to_int (f64_trunc (f64_mul (f64_of_Z limit) summaryTokenBudgetRatio)).
Definition AutoWithDefaults (c : AutoSummarizationConfig) : AutoSummarizationConfig :=
  let c := c <| summaryConfig ::= WithDefaults |> in
  match MaxContextTokens c with
  | Some limit => if limit <? TargetContextTokens (summaryConfig c)
                  then c <| summaryConfig ::= fun s => s <| TargetContextTokens := budget limit |> |> else c
  | None => c
  end.
Definition AutoValidate (c : AutoSummarizationConfig) : option configError :=
  match MaxContextTokens c, MaxUnsummarizedMessages c with
  | None, None => Some ErrNoSummarizationThreshold
  | t, n => if match t with Some t => t <=? 0 | None => false end then Some ErrMaxContextTokens
            else if match n with Some n => n <? 1 | None => false end then Some ErrMaxUnsummarizedMessages
            else Validate (summaryConfig c)
  end.

Definition DefaultSummarizationPrompt : gostring := bytes_of
"You are summarizing a conversation between a user and an AI assistant.

Your task:
1. Create a concise summary that preserves:
   - Key facts, decisions, and agreements
   - Important context needed to continue the conversation
   - User preferences and requirements mentioned
   - Any unresolved questions or action items

2. Format:
   - Use clear, factual statements
   - Group related information
   - Prioritize information likely to be referenced later
   - Keep the summary concise to fit within the specified token budget

3. Omit:
   - Greetings and small talk
   - Redundant information
   - Tangential discussions that were resolved

The conversation transcript follows. Generate only the summary, no other text.".
Definition SummaryPrompt (c : SummaryConfig) : gostring :=
  match SummarizationPrompt c with [] => DefaultSummarizationPrompt | p => p end.

(** ** The frames *)

(** A request, the conversation it names being the one of the summarizer. *)
Record Request := mkRequest {
  RequestID : gostring;
  MinMessagesToKeep : Z;
  reqTargetContextTokens : Z;
  reqPrompt : gostring;
  reqTimeout : Z
}.
Record Result := mkResult { resultOf : gostring; summary : gostring; LastSummarizedIndex : Z; error : gostring }.
Definition NewLLMContextSummaryErrorFrame (i message : gostring) : Result := mkResult i [] (-1) message.

(** ** Writing a summary

    An inference is given the conversation, the tokens it may take and an instruction;
    it answers a text or an error. *)
Abbreviation inference := (list Message -> Z -> gostring -> gostring + gostring).

Definition ErrNothingToSummarize : gostring := bytes_of "no messages to summarize".
Definition ErrEmptySummary : gostring := bytes_of "the model returned an empty summary".
Definition ErrNoInference : gostring := bytes_of "the LLM service does not run inference".

(** An error, or a summary and the index of the last message it covers. *)
Definition GenerateSummary (RunInference : inference) (r : Request) (ms : list Message) : option (gostring + gostring * Z) :=
  '(selected, last) ← selectMessagesToSummarize ms (MinMessagesToKeep r);
  match selected with
  | [] => Some (inl ErrNothingToSummarize)
  | _ =>
    let transcript := FormatMessagesForSummary selected in
    match RunInference [plain RoleUser (bytes_of "Conversation history:" ++ [10] ++ transcript)] (reqTargetContextTokens r) (reqPrompt r) with
    | inl e => Some (inl (bytes_of "generating the conversation summary: " ++ e))
    | inr [] => Some (inl ErrEmptySummary)
    | inr s => Some (inr (TrimSpace s, last))
    end
  end.

(** [Base.generateSummaryTask]: what it broadcasts.  [inf] is the service, if it runs
    inference, [name] what it is called, [expired] whether its time ran out. *)
Definition generateSummaryTask (inf : option inference) (name : gostring) (expired : bool) (r : Request) (ms : list Message) : option Result :=
  outcome ← match inf with
            | Some inf => GenerateSummary inf r ms
            | None => Some (inl (ErrNoInference ++ bytes_of ": " ++ name))
            end;
  Some match outcome with
       | inr (s, last) => mkResult (RequestID r) s last []
       | inl e => if expired then mkResult (RequestID r) [] (-1) [] else NewLLMContextSummaryErrorFrame (RequestID r) e
       end.

(** ** The summarizer *)

Record Applied := mkApplied { OriginalMessageCount : Z; NewMessageCount : Z; SummarizedMessageCount : Z; PreservedMessageCount : Z }.
Inductive output :=
| Asked (r : Request)                   (** [EventRequestSummarization] *)
| Dedicated (service : nat) (r : Request)
| SummaryApplied (a : Applied).

Record Summarizer := mkSummarizer {
  context : LLMContext;
  autoConfig : AutoSummarizationConfig;
  autoTrigger : bool;
  inProgress : bool;
  pendingRequestID : gostring;
  out : list output
}.
#[export] Instance eta_Summarizer : Eta Summarizer := fun s =>
  mkSummarizer (context s) (autoConfig s) (autoTrigger s) (inProgress s) (pendingRequestID s) (out s).
Implicit Types (s : Summarizer).

Definition NewSummarizer (c : LLMContext) (cfg : AutoSummarizationConfig) (auto : bool) : Summarizer :=
  mkSummarizer c (AutoWithDefaults cfg) auto false [] [].

Definition handleInterruption s : Summarizer := s <| inProgress := false |>.
Definition clearState s : Summarizer := if inProgress s then s <| inProgress := false |> <| pendingRequestID := [] |> else s.

Definition exceeds (n : Z) (limit : option Z) : bool := match limit with Some l => l <=? n | None => false end.
Definition shouldSummarize s : bool :=
  autoTrigger s && negb (inProgress s)
  && (exceeds (estimateMessagesTokens (messages (context s))) (MaxContextTokens (autoConfig s))
      || exceeds (Z.of_nat (List.length (messages (context s))) - 1) (MaxUnsummarizedMessages (autoConfig s))).

(** [fresh] is the new request's id. *)
Definition requestSummarization (fresh : gostring) (override : option SummaryConfig) s : Summarizer :=
  let cfg := match override with Some o => WithDefaults o | None => summaryConfig (autoConfig s) end in
  let s := s <| inProgress := true |> <| pendingRequestID := fresh |> in
  let r := mkRequest fresh (MinMessagesAfterSummary cfg) (TargetContextTokens cfg) (SummaryPrompt cfg) (SummarizationTimeout cfg) in
  s <| out ::= fun o => o ++ [match LLM cfg with Carried n => Dedicated n r | _ => Asked r end] |>.

Definition handleResponseStart (fresh : gostring) s : Summarizer :=
  if shouldSummarize s then requestSummarization fresh None s else s.
Definition handleManualRequest (fresh : gostring) (config : option SummaryConfig) s : Summarizer :=
  if inProgress s then s else requestSummarization fresh config s.

Definition validateSummaryContext (last : Z) s : bool :=
  let len := Z.of_nat (List.length (messages (context s))) in
  if last <? 0 then false
  else if len <=? last then false
  else MinMessagesAfterSummary (summaryConfig (autoConfig s)) <=? len - 1 - last.

(** [strings.ReplaceAll(s, old, new)], for an [old] that is not empty. *)
Fixpoint replaceFrom (fuel : nat) (s old new : gostring) : gostring :=
  match fuel with
  | O => s
  | S fuel => if HasPrefix s old then new ++ replaceFrom fuel (List.skipn (List.length old) s) old new
              else match s with [] => [] | b :: s => b :: replaceFrom fuel s old new end
  end.
Definition ReplaceAll (s old new : gostring) : gostring := replaceFrom (S (List.length s)) s old new.

Definition preserved (ms : list Message) : list Message :=
  match ms with m :: _ => if isSystemMessage m then [m] else [] | [] => [] end.
Definition summaryMessage (template text : gostring) : Message := plain RoleUser (ReplaceAll template (bytes_of "{summary}") text).

(** What [applySummary] makes of the messages it read. *)
Definition rebuild (template text : gostring) (last : Z) (ms : list Message) : option (list Message * Applied) :=
  let n := Z.to_nat (last + 1) in
  if (last + 1 <? 0) || (List.length ms <? n)%nat then None
  else
    let recent := List.skipn n ms in
    let rebuilt := preserved ms ++ [summaryMessage template text] ++ recent in
    let systemPreserved := Z.of_nat (List.length (preserved ms)) in
    Some (rebuilt, mkApplied (Z.of_nat (List.length ms)) (Z.of_nat (List.length rebuilt)) (last + 1 - systemPreserved)
                     (Z.of_nat (List.length recent) + systemPreserved)).
Definition templateOf s : gostring := SummaryMessageTemplate (summaryConfig (autoConfig s)).
Definition readSummary (text : gostring) (last : Z) s : option (list Message * Applied) :=
  rebuild (templateOf s) text last (messages (context s)).
Definition writeSummary (r : list Message * Applied) s : Summarizer :=
  s <| context ::= fun c => SetMessages c r.1 |> <| out ::= fun o => o ++ [SummaryApplied r.2] |>.
Definition applySummary (text : gostring) (last : Z) s : option Summarizer :=
  r ← readSummary text last s; Some (writeSummary r s).

Definition handleSummaryResult (f : Result) s : option Summarizer :=
  if negb (bool_decide (resultOf f = pendingRequestID s)) then Some s
  else
    let s := clearState s in
    if negb (bool_decide (error f = [])) then Some s
    else if negb (validateSummaryContext (LastSummarizedIndex f) s) then Some s
    else applySummary (summary f) (LastSummarizedIndex f) s.

(** The handler is run by the goroutine of the frame and by those of dedicated services,
    side by side.  Its parts, each under one lock, are told apart by what is left to do;
    [None] is nothing left, and [None] of [proceed] a panic. *)
Inductive stage :=
| Checked (f : Result)                              (** it is the answer waited for *)
| Cleared (f : Result)
| Validated (f : Result)
| Rewriting (r : list Message * Applied).           (** the conversation was read *)
Definition arrive (f : Result) s : option stage :=
  if negb (bool_decide (resultOf f = pendingRequestID s)) then None else Some (Checked f).
Definition proceed (h : stage) s : option (option stage * Summarizer) :=
  match h with
  | Checked f => Some (if negb (bool_decide (error f = [])) then None else Some (Cleared f), clearState s)
  | Cleared f => Some (if negb (validateSummaryContext (LastSummarizedIndex f) s) then None else Some (Validated f), s)
  | Validated f => r ← readSummary (summary f) (LastSummarizedIndex f) s; Some (Some (Rewriting r), s)
  | Rewriting r => Some (None, writeSummary r s)
  end.

(** [generateWithDedicatedLLM], the conversation being [ms] when it is read. *)
Definition generateWithDedicatedLLM (inf : inference) (r : Request) (ms : list Message) s : option Summarizer :=
  outcome ← GenerateSummary inf r ms;
  handleSummaryResult match outcome with
                      | inr (text, last) => mkResult (RequestID r) text last []
                      | inl e => NewLLMContextSummaryErrorFrame (RequestID r) e
                      end s.

Inductive frame :=
| LLMFullResponseStart
| LLMSummarizeContext (config : option SummaryConfig)
| SummaryResult (f : Result)
| Interruption
| OtherFrame.
Definition ProcessFrame (fresh : gostring) (f : frame) s : option Summarizer :=
  match f with
  | LLMFullResponseStart => Some (handleResponseStart fresh s)
  | LLMSummarizeContext c => Some (handleManualRequest fresh c s)
  | SummaryResult f => handleSummaryResult f s
  | Interruption => Some (handleInterruption s)
  | OtherFrame => Some s
  end.
Definition Cleanup s : Summarizer := clearState s.

End Summary.
