(* ===== verification/SummaryFacts.v ===== *)
(** * SummaryFacts

    What holds of the summarizer: which part of a conversation a summary takes, that
    requests for tool calls stay with their results, and that every message is either
    kept or covered by a summary made from it. *)

From S2P Require Import Prelude Float64 Text Strings LlmContext Json AsyncTool Summary.

Module SummaryFacts.
Import LlmContext Summary.
#[local] Existing Instance Summary.eta_Summarizer.
Local Open Scope Z_scope.

(** ** A conversation a provider accepts: the results of tool calls come right after
    the message that requests them, and nowhere else *)

Definition callsOf (m : Message) : list ToolCall :=
  if IsLLMSpecific m then [] else if bool_decide (role m = RoleAssistant) then toolCalls m else [].
Definition resultsOf (m : Message) : list ToolResult := if IsLLMSpecific m then [] else toolResults m.
Fixpoint paired (ms : list Message) : bool :=
  match ms with
  | [] => true
  | m :: rest =>
    bool_decide (resultsOf m = []) &&
    match callsOf m with
    | [] => paired rest
    | cs =>
      forallb (fun tc => negb (bool_decide (tcID tc = []))) cs &&
      match rest with
      | r :: rest => bool_decide (callsOf r = []) && bool_decide (List.map trID (resultsOf r) = List.map tcID cs) && paired rest
      | [] => false
      end
    end
  end.

(** The last message requests nothing. *)
Definition settled (ms : list Message) : Prop := match last ms with Some m => callsOf m = [] | None => True end.

Lemma paired_ind (P : list Message -> Prop) :
  P [] -> (forall m ms, resultsOf m = [] -> callsOf m = [] -> paired ms = true -> P ms -> P (m :: ms)) ->
  (forall m r ms, resultsOf m = [] -> callsOf m <> [] -> Forall (fun tc => tcID tc <> []) (callsOf m) -> callsOf r = [] ->
     List.map trID (resultsOf r) = List.map tcID (callsOf m) -> paired ms = true -> P ms -> P (m :: r :: ms)) ->
  forall ms, paired ms = true -> P ms.
Proof.
  intros H0 H1 H2. assert (forall n ms, (List.length ms <= n)%nat -> paired ms = true -> P ms) as H; [|intros ms; by eapply H].
  induction n as [|n IH]; intros [|m ms] Hn Hp; cbn in Hn; try done; [lia|].
  cbn [paired] in Hp. apply andb_prop in Hp as [Hr%bool_decide_eq_true Hp]. destruct (callsOf m) as [|c cs] eqn:Ec.
  - apply H1; auto. apply IH; [lia|done].
  - apply andb_prop in Hp as [Hi Hp]. destruct ms as [|r ms]; [done|]. apply andb_prop in Hp as [Hp Hps].
    apply andb_prop in Hp as [Hc%bool_decide_eq_true Hm%bool_decide_eq_true]. apply H2; rewrite ?Ec; auto; [|apply IH; [cbn in Hn; lia|done]].
    apply Forall_forall. intros tc Hin E. rewrite forallb_forall in Hi. specialize (Hi tc (proj1 (list_elem_of_In _ _) Hin)). by rewrite bool_decide_eq_true_2 in Hi.
Qed.

Lemma paired_plain m ms : resultsOf m = [] -> callsOf m = [] -> paired (m :: ms) = paired ms.
Proof. intros Hr Hc. cbn [paired]. by rewrite Hr, Hc. Qed.
Lemma paired_call m r ms : resultsOf m = [] -> callsOf m <> [] -> Forall (fun tc => tcID tc <> []) (callsOf m) -> callsOf r = [] ->
  List.map trID (resultsOf r) = List.map tcID (callsOf m) -> paired (m :: r :: ms) = paired ms.
Proof.
  intros Hr Hc Hi Hcr Hm. cbn [paired]. rewrite Hr, Hm, Hcr. destruct (callsOf m) as [|c cs]; [done|].
  rewrite (proj2 (forallb_forall _ _)); [|intros tc Hin%list_elem_of_In; rewrite Forall_forall in Hi; rewrite bool_decide_eq_false_2; auto].
  by rewrite !(bool_decide_eq_true_2 _ eq_refl).
Qed.

Lemma settled_cons m a : a <> [] -> settled (m :: a) <-> settled a.
Proof. by destruct a. Qed.
Lemma paired_split a b : paired (a ++ b) = true -> settled a -> paired a = true /\ paired b = true.
Proof.
  remember (a ++ b) as l eqn:E. intros Hp. revert a E. pattern l. revert l Hp. apply paired_ind; [|intros m ms Hr Hc Hps IH|intros m r ms Hr Hc Hi Hcr Hm Hps IH]; intros a E Hs.
  - symmetry in E. by apply app_eq_nil in E as [-> ->].
  - destruct a as [|m' a]; [cbn in E; subst; split; [done|]|].
    + by rewrite paired_plain.
    + injection E as <- E. rewrite paired_plain by done. apply IH; [done|]. destruct a; [done|by apply settled_cons in Hs].
  - destruct a as [|m' [|r' a]]; cbn in E.
    + subst. split; [done|]. by rewrite paired_call.
    + injection E as <- _. unfold settled in Hs. cbn in Hs. by rewrite Hs in Hc.
    + injection E as <- <- E. rewrite paired_call by done. apply IH; [done|]. destruct a; [done|]. by apply settled_cons, settled_cons in Hs.
Qed.
Lemma paired_app a b : paired a = true -> paired b = true -> paired (a ++ b) = true.
Proof.
  intros Ha Hb. revert a Ha. apply paired_ind; [done|intros m ms Hr Hc _ IH|intros m r ms Hr Hc Hi Hcr Hm _ IH]; cbn [app].
  - by rewrite paired_plain.
  - by rewrite paired_call.
Qed.

(** A request is followed by something that requests nothing. *)
Lemma paired_lookup ms i m : paired ms = true -> ms !! i = Some m -> callsOf m <> [] ->
  Forall (fun tc => tcID tc <> []) (callsOf m) /\ resultsOf m = [] /\ exists r, ms !! S i = Some r /\ callsOf r = [].
Proof.
  intros Hp. revert i. pattern ms. revert ms Hp. apply paired_ind; [|intros m' ms Hr Hc _ IH|intros m' r ms Hr Hc Hi Hcr Hm _ IH]; intros i Hl Hne.
  - done.
  - destruct i as [|i]; cbn in Hl; [by injection Hl as ->|by apply IH].
  - destruct i as [|[|i]]; cbn in Hl; [injection Hl as ->|injection Hl as ->; done|by apply IH]. split_and!; eauto.
Qed.

(** ** The calls still waiting for an answer *)

Lemma requests_values i tcs p k v : requests i tcs p !! k = Some v -> p !! k = Some v \/ (v = i /\ tcs <> []).
Proof.
  unfold requests. revert p. induction tcs as [|tc tcs IH]; intros p H; [by left|]. cbn in H. apply IH in H as [H|[-> _]]; [|by right].
  case_bool_decide; [by left|]. destruct (decide (k = tcID tc)) as [->|Hk]; simplify_map_eq; eauto.
Qed.
Lemma answers_values rs p k v : answers rs p !! k = Some v -> p !! k = Some v.
Proof.
  unfold answers. revert p. induction rs as [|r rs IH]; intros p H; [done|]. cbn in H. apply IH in H. clear IH.
  repeat case_match; simplify_map_eq; try done. by apply lookup_delete_Some in H as [_ ?].
Qed.
Lemma track_values i m p k v : track i m p !! k = Some v -> p !! k = Some v \/ (v = i /\ callsOf m <> []).
Proof.
  unfold track, callsOf. intros H. destruct (IsLLMSpecific m); [by left|].
  assert (answers (toolResults m) (if bool_decide (role m = RoleAssistant) then requests i (toolCalls m) p else p) !! k = Some v) as H'.
  { destruct (AsyncTool.ParseAsyncToolMessage m) as [am|]; [destruct (kind am)|]; try done. by apply lookup_delete_Some in H as [_ ?]. }
  apply answers_values in H'. case_bool_decide; [by apply requests_values in H'|by left].
Qed.
Lemma scan_values ms n : forall i p q k v, scan ms n i p = Some q -> q !! k = Some v ->
  p !! k = Some v \/ ((i <= v < i + n)%nat /\ exists m, ms !! v = Some m /\ callsOf m <> []).
Proof.
  induction n as [|n IH]; intros i p q k v Hs Hk; cbn in Hs; [injection Hs as ->; by left|].
  destruct (ms !! i) as [m|] eqn:Em; [|done]. cbn in Hs. destruct (IH _ _ _ _ _ Hs Hk) as [H|[H1 H2]]; [|right; split; [lia|done]].
  apply track_values in H as [H|[-> H]]; [by left|right]. split; [lia|by exists m].
Qed.

Lemma requests_some i tcs p : tcs <> [] -> Forall (fun tc => tcID tc <> []) tcs -> exists k, requests i tcs p !! k = Some i.
Proof.
  unfold requests. intros Hne Hi. revert p. destruct tcs as [|tc tcs _] using rev_ind; [done|]. intros p. exists (tcID tc). rewrite fold_left_app. cbn.
  apply Forall_app in Hi as [_ Hi]. inversion Hi. rewrite bool_decide_eq_false_2 by done. by rewrite lookup_insert_eq.
Qed.
Lemma track_call i m p : callsOf m <> [] -> Forall (fun tc => tcID tc <> []) (callsOf m) -> resultsOf m = [] -> exists k, track i m p !! k = Some i.
Proof.
  unfold callsOf, resultsOf, track. destruct (IsLLMSpecific m); [done|]. case_bool_decide as Er; [|done]. intros Hne Hi Hr. rewrite Hr.
  assert (AsyncTool.ParseAsyncToolMessage m = None) as -> by (unfold AsyncTool.ParseAsyncToolMessage, AsyncTool.asyncToolContent; by rewrite Er, Hr).
  by apply requests_some.
Qed.
Lemma scan_snoc ms n : forall i p q, scan ms (S n) i p = Some q -> exists p' m, scan ms n i p = Some p' /\ ms !! (i + n)%nat = Some m /\ q = track (i + n) m p'.
Proof.
  induction n as [|n IH]; intros i p q Hs; cbn in Hs; destruct (ms !! i) as [m|] eqn:Em; try done; cbn in Hs.
  - injection Hs as <-. exists p, m. by rewrite Nat.add_0_r.
  - destruct (IH (S i) (track i m p) q Hs) as (p' & m' & H1 & H2 & H3). exists p', m'. cbn. rewrite Em. cbn. by replace (i + S n)%nat with (S i + n)%nat by lia.
Qed.
Lemma scan_total ms n : forall i p, (i + n <= List.length ms)%nat -> is_Some (scan ms n i p).
Proof.
  induction n as [|n IH]; intros i p H; [by eexists|]. cbn. destruct (lookup_lt_is_Some_2 ms i) as [m ->]; [lia|]. apply IH. lia.
Qed.

Lemma earliest_spec p : (p = ∅ /\ earliest p = -1) \/ (exists k i, p !! k = Some i /\ earliest p = Z.of_nat i) /\ forall k i, p !! k = Some i -> earliest p <= Z.of_nat i.
Proof.
  unfold earliest. apply (map_fold_weak_ind (fun e (p : gmap gostring nat) => (p = ∅ /\ e = -1) \/ (exists k i, p !! k = Some i /\ e = Z.of_nat i) /\ forall k i, p !! k = Some i -> e <= Z.of_nat i)).
  - by left.
  - intros k i p' e Hk IH. right. destruct IH as [[-> ->]|[(k' & i' & H1 & ->) H2]].
    + rewrite Z.eqb_refl, orb_true_l. split; [exists k, i; by rewrite lookup_insert_eq|]. intros k1 i1 H. rewrite insert_empty in H. apply lookup_singleton_Some in H as [_ <-]. lia.
    + rewrite (proj2 (Z.eqb_neq (Z.of_nat i') (-1)) ltac:(lia)), orb_false_l. destruct (Z.of_nat i <? Z.of_nat i') eqn:E; (split; [|intros k1 i1 H; apply lookup_insert_Some in H as [[_ <-]|[_ H]]; [lia|specialize (H2 _ _ H); lia]]).
      * exists k, i. by rewrite lookup_insert_eq.
      * exists k', i'. split; [|done]. rewrite lookup_insert_ne; [done|]. intros ->. congruence.
Qed.

(** ** What is selected *)

Definition startOf (ms : list Message) : nat := List.length (preserved ms).
(** The calls requested from the head on and still open where the latest messages begin. *)
Definition openCalls (ms : list Message) (keep : nat) : option pendingCalls :=
  scan ms (List.length ms - keep - startOf ms) (startOf ms) ∅.

Lemma preserved_prefix ms : List.firstn (startOf ms) ms = preserved ms.
Proof. unfold startOf. destruct ms as [|m ms]; [done|]. cbn. by destruct (isSystemMessage m). Qed.
Lemma preserved_app ms later : ms <> [] -> preserved (ms ++ later) = preserved ms.
Proof. by destruct ms. Qed.
Lemma startOf_head m ms : (if isSystemMessage m then 1 else 0) = Z.of_nat (startOf (m :: ms)).
Proof. unfold startOf. cbn. by destruct (isSystemMessage m). Qed.

(** The selection, when there is one, starts behind a leading system message and ends
    where the messages to keep begin, or at an earlier request nothing before them answers. *)
Lemma select_spec ms keep sel lst : 0 <= keep -> selectMessagesToSummarize ms keep = Some (sel, lst) ->
  (sel = [] /\ lst = -1) \/
  exists cut q, (startOf ms < cut)%nat /\ lst = Z.of_nat cut - 1 /\ sel = List.skipn (startOf ms) (List.firstn cut ms)
    /\ openCalls ms (Z.to_nat keep) = Some q
    /\ ((Z.of_nat cut = Z.of_nat (List.length ms) - keep /\ q = ∅)
        \/ (Z.of_nat cut = earliest q /\ (cut < List.length ms - Z.to_nat keep)%nat /\ exists m, ms !! cut = Some m /\ callsOf m <> [])).
Proof.
  intros Hk. unfold selectMessagesToSummarize. destruct (Z.of_nat (List.length ms) <=? keep) eqn:E1; [intros [= <- <-]; by left|].
  destruct ms as [|m0 ms']; [done|]. cbn [lookup list_lookup mbind option_bind]. rewrite (startOf_head m0 ms'). remember (m0 :: ms') as ms eqn:Ems. clear Ems m0 ms'.
  destruct (Z.of_nat (List.length ms) - keep <=? Z.of_nat (startOf ms)) eqn:E2; [intros [= <- <-]; by left|].
  unfold earliestUnresolvedToolCall. rewrite Nat2Z.id.
  replace (Z.to_nat (Z.of_nat (List.length ms) - keep - Z.of_nat (startOf ms))) with (List.length ms - Z.to_nat keep - startOf ms)%nat by lia.
  unfold openCalls. destruct (scan ms _ _ ∅) as [q|] eqn:Eq; [|done]. cbn [fmap option_fmap option_map mbind option_bind].
  assert (forall cut, (startOf ms < cut)%nat -> slice ms (Z.of_nat (startOf ms)) (Z.of_nat cut) = List.skipn (startOf ms) (List.firstn cut ms)) as Hsl.
  { intros cut Hc. unfold slice. rewrite Nat2Z.id, List.skipn_firstn_comm. f_equal. lia. }
  destruct (earliest_spec q) as [[-> ->]|[(k & i & Hi & He) _]].
  - cbn [Z.leb andb]. replace ((0 <=? -1) && _) with false by done. rewrite E2. intros [= <- <-]. right.
    exists (List.length ms - Z.to_nat keep)%nat, ∅. split_and!; [lia|lia| |done|left; split; [lia|done]].
    rewrite <- Hsl by lia. f_equal. lia.
  - destruct (scan_values _ _ _ _ _ _ _ Eq Hi) as [H|[Hb Hm]]; [done|]. rewrite He.
    replace ((0 <=? Z.of_nat i) && (Z.of_nat i <? Z.of_nat (List.length ms) - keep)) with true by lia.
    destruct (Z.of_nat i <=? Z.of_nat (startOf ms)) eqn:E3; [intros [= <- <-]; by left|]. intros [= <- <-]. right.
    exists i, q. split_and!; [lia|lia|apply Hsl; lia|done|right; split_and!; [done|lia|done]].
Qed.

(** Nothing is asked for at the cut's edge. *)
Lemma select_settled ms later keep sel lst : 0 <= keep -> selectMessagesToSummarize ms keep = Some (sel, lst) -> sel <> [] ->
  paired (ms ++ later) = true ->
  exists cut, lst = Z.of_nat cut - 1 /\ (startOf ms < cut)%nat /\ (cut + Z.to_nat keep <= List.length ms)%nat
    /\ sel = List.skipn (startOf ms) (List.firstn cut ms) /\ settled (List.firstn cut (ms ++ later)).
Proof.
  intros Hk Hs Hne Hp. destruct (select_spec _ _ _ _ Hk Hs) as [[-> _]|(cut & q & Hc & Hl & Hsel & Hq & Hcut)]; [done|].
  assert (cut + Z.to_nat keep <= List.length ms)%nat as Hlen by (destruct Hcut as [[H _]|(_ & H & _)]; lia).
  exists cut. split_and!; try done. unfold settled. rewrite last_lookup, length_firstn, length_app.
  replace (pred (cut `min` (List.length ms + List.length later))) with (cut - 1)%nat by lia.
  change (List.firstn cut (ms ++ later)) with (take cut (ms ++ later)). rewrite lookup_take_lt, lookup_app_l by lia.
  destruct (ms !! (cut - 1)%nat) as [m|] eqn:Em; [|done]. destruct (callsOf m) as [|c cs] eqn:Ec; [done|]. exfalso.
  assert ((ms ++ later) !! (cut - 1)%nat = Some m) as Em' by (rewrite lookup_app_l by lia; done).
  destruct (paired_lookup _ _ _ Hp Em') as (Hi & Hr & r & Hr1 & Hr2); [by rewrite Ec|].
  destruct Hcut as [[Hend ->]|(_ & Hlt & m' & Hm' & Hcm')].
  - unfold openCalls in Hq. replace (List.length ms - Z.to_nat keep - startOf ms)%nat with (S (cut - 1 - startOf ms)) in Hq by lia.
    apply scan_snoc in Hq as (p' & m1 & _ & Hm1 & Hq). replace (startOf ms + (cut - 1 - startOf ms))%nat with (cut - 1)%nat in * by lia.
    rewrite Em in Hm1. injection Hm1 as <-. destruct (track_call (cut - 1) m p') as [k Hk']; [by rewrite Ec|done|done|].
    by rewrite <- Hq in Hk'.
  - replace (S (cut - 1)) with cut in Hr1 by lia. rewrite lookup_app_l in Hr1 by lia. congruence.
Qed.

(** ** Applying a summary *)

Lemma paired_preserved ms : paired ms = true -> paired (preserved ms) = true.
Proof.
  destruct ms as [|m ms]; [done|]. cbn [preserved]. destruct (isSystemMessage m) eqn:E; [|done]. intros Hp.
  assert (callsOf m = []) as Hc.
  { unfold isSystemMessage in E. apply andb_prop in E as [_ E%bool_decide_eq_true]. unfold callsOf. rewrite E. by destruct (IsLLMSpecific m). }
  cbn [paired] in Hp. apply andb_prop in Hp as [Hr%bool_decide_eq_true _]. by rewrite paired_plain.
Qed.

Lemma GenerateSummary_spec inf r ms text lst : GenerateSummary inf r ms = Some (inr (text, lst)) ->
  exists sel raw, selectMessagesToSummarize ms (MinMessagesToKeep r) = Some (sel, lst) /\ sel <> [] /\ raw <> [] /\ text = TrimSpace raw
    /\ inf [plain RoleUser (bytes_of "Conversation history:" ++ [10] ++ FormatMessagesForSummary sel)] (reqTargetContextTokens r) (reqPrompt r) = inr raw.
Proof.
  unfold GenerateSummary. destruct (selectMessagesToSummarize _ _) as [[sel l]|]; [|done]. cbn [mbind option_bind].
  destruct sel as [|m sel]; [done|]. destruct (inf _ _ _) as [e|[|b raw]] eqn:E; try done. intros [= <- <-]. by exists (m :: sel), (b :: raw).
Qed.

Lemma firstn_split {A} k n (l : list A) : (k <= n)%nat -> List.firstn k l ++ List.skipn k (List.firstn n l) = List.firstn n l.
Proof.
  intros H. transitivity (List.firstn k (List.firstn n l) ++ List.skipn k (List.firstn n l)); [|apply List.firstn_skipn].
  by rewrite List.firstn_firstn, Nat.min_l.
Qed.

Definition cutAt (snap sel rest : list Message) : Prop := snap = preserved snap ++ sel ++ rest.
Lemma select_cut snap keep sel lst : 0 <= keep -> selectMessagesToSummarize snap keep = Some (sel, lst) -> sel <> [] ->
  exists rest, cutAt snap sel rest /\ lst + 1 = Z.of_nat (List.length (preserved snap ++ sel)) /\ keep <= Z.of_nat (List.length rest).
Proof.
  intros Hk Hs Hne. destruct (select_spec _ _ _ _ Hk Hs) as [[-> _]|(cut & q & Hc & -> & -> & _ & Hcut)]; [done|].
  assert (cut + Z.to_nat keep <= List.length snap)%nat as Hlen by (destruct Hcut as [[H _]|(_ & H & _)]; lia).
  assert (preserved snap ++ List.skipn (startOf snap) (List.firstn cut snap) = List.firstn cut snap) as E.
  { rewrite <- preserved_prefix. apply firstn_split. lia. }
  exists (List.skipn cut snap). unfold cutAt. rewrite app_assoc, E, List.firstn_skipn, length_skipn, length_firstn. split_and!; [done|lia|lia].
Qed.

Lemma cutAt_skipn snap sel rest later : cutAt snap sel rest -> List.skipn (List.length (preserved snap ++ sel)) (snap ++ later) = rest ++ later.
Proof.
  intros Hcut. transitivity (List.skipn (List.length (preserved snap ++ sel)) ((preserved snap ++ sel) ++ (rest ++ later))); [|apply drop_app_length].
  f_equal. unfold cutAt in Hcut. rewrite Hcut at 1. by rewrite <- !app_assoc.
Qed.

Lemma clearState_context s : context (clearState s) = context s /\ autoConfig (clearState s) = autoConfig s /\ inProgress (clearState s) = false
  /\ (pendingRequestID (clearState s) = [] \/ pendingRequestID (clearState s) = pendingRequestID s).
Proof. unfold clearState. destruct (inProgress s) eqn:E; cbn; auto. Qed.

(** What a summary is to make of a conversation that has only grown since it was made. *)
Lemma read_grown inf r snap later text lst s : 0 <= MinMessagesToKeep r ->
  GenerateSummary inf r snap = Some (inr (text, lst)) -> messages (context s) = snap ++ later ->
  exists sel rest raw a, cutAt snap sel rest /\ lst + 1 = Z.of_nat (List.length (preserved snap ++ sel)) /\ sel <> [] /\ text = TrimSpace raw
    /\ selectMessagesToSummarize snap (MinMessagesToKeep r) = Some (sel, lst)
    /\ MinMessagesToKeep r <= Z.of_nat (List.length rest)
    /\ inf [plain RoleUser (bytes_of "Conversation history:" ++ [10] ++ FormatMessagesForSummary sel)] (reqTargetContextTokens r) (reqPrompt r) = inr raw
    /\ readSummary text lst s = Some (preserved snap ++ [summaryMessage (templateOf s) text] ++ rest ++ later, a).
Proof.
  intros Hk Hg Hm. destruct (GenerateSummary_spec _ _ _ _ _ Hg) as (sel & raw & Hs & Hne & _ & -> & Hi).
  destruct (select_cut _ _ _ _ Hk Hs Hne) as (rest & Hcut & Hl & Hkeep). exists sel, rest, raw.
  unfold readSummary, rebuild. rewrite Hm. replace (Z.to_nat (lst + 1)) with (List.length (preserved snap ++ sel)) by (rewrite length_app in *; lia).
  assert (List.length snap = List.length (preserved snap ++ sel) + List.length rest)%nat as Hn.
  { unfold cutAt in Hcut. rewrite Hcut at 1. by rewrite app_assoc, length_app. }
  replace ((lst + 1 <? 0) || (List.length (snap ++ later) <? List.length (preserved snap ++ sel))%nat) with false
    by (symmetry; apply orb_false_iff; split; [apply Z.ltb_ge|apply Nat.ltb_ge; rewrite (length_app snap)]; lia).
  assert (snap <> []) as Hsn by (intros ->; by destruct sel). rewrite preserved_app by done. rewrite (cutAt_skipn _ _ _ later Hcut).
  eexists. by split_and!.
Qed.

(** What it does to it. *)
Lemma result_applied inf r snap later text lst s : 0 <= MinMessagesToKeep r ->
  GenerateSummary inf r snap = Some (inr (text, lst)) -> messages (context s) = snap ++ later ->
  exists sel rest raw s', cutAt snap sel rest /\ sel <> [] /\ text = TrimSpace raw
    /\ selectMessagesToSummarize snap (MinMessagesToKeep r) = Some (sel, lst)
    /\ MinMessagesToKeep r <= Z.of_nat (List.length rest)
    /\ inf [plain RoleUser (bytes_of "Conversation history:" ++ [10] ++ FormatMessagesForSummary sel)] (reqTargetContextTokens r) (reqPrompt r) = inr raw
    /\ handleSummaryResult (mkResult (pendingRequestID s) text lst []) s = Some s' /\ inProgress s' = false
    /\ messages (context s') = if MinMessagesAfterSummary (summaryConfig (autoConfig s)) <=? Z.of_nat (List.length (rest ++ later))
                               then preserved snap ++ [summaryMessage (templateOf s) text] ++ rest ++ later else snap ++ later.
Proof.
  intros Hk Hg Hm. destruct (clearState_context s) as (Hc & Ha & Hp & _).
  destruct (read_grown _ _ _ _ _ _ (clearState s) Hk Hg ltac:(by rewrite Hc)) as (sel & rest & raw & a & Hcut & Hl & Hne & Ht & Hs & Hkeep & Hi & Hread).
  exists sel, rest, raw. unfold templateOf in Hread. rewrite Ha in Hread. fold (templateOf s) in Hread.
  unfold handleSummaryResult. cbn [resultOf error LastSummarizedIndex summary]. rewrite !bool_decide_eq_true_2 by done. cbn [negb].
  unfold validateSummaryContext. rewrite Hc, Ha, Hm.
  assert (List.length snap = List.length (preserved snap ++ sel) + List.length rest)%nat as Hn.
  { unfold cutAt in Hcut. rewrite Hcut at 1. by rewrite app_assoc, length_app. }
  assert (0 < List.length sel)%nat as Hsel by (destruct sel; [done|cbn; lia]).
  rewrite length_app in Hl, Hn. replace (lst <? 0) with false by lia.
  replace (Z.of_nat (List.length (snap ++ later)) <=? lst) with false by (rewrite length_app; symmetry; apply Z.leb_gt; lia).
  replace (Z.of_nat (List.length (snap ++ later)) - 1 - lst) with (Z.of_nat (List.length (rest ++ later))) by (rewrite !length_app; lia).
  destruct (_ <=? _); cbn [negb]; [unfold applySummary; rewrite Hread; cbn [mbind option_bind]|]; eexists; split_and!; try done. by rewrite Hc.
Qed.

Lemma result_settled keep snap later lst sel rest : 0 <= keep ->
  selectMessagesToSummarize snap keep = Some (sel, lst) -> sel <> [] -> cutAt snap sel rest ->
  paired (snap ++ later) = true -> paired (rest ++ later) = true.
Proof.
  intros Hk Hs Hne Hcut Hp. destruct (select_settled _ _ _ _ _ Hk Hs Hne Hp) as (cut & _ & Hc & Hlen & Hsel & Hset).
  assert (List.firstn cut snap = preserved snap ++ sel) as E.
  { rewrite Hsel, <- preserved_prefix. symmetry. apply firstn_split. lia. }
  rewrite List.firstn_app, (proj2 (Nat.sub_0_le _ _)), app_nil_r, E in Hset by lia.
  unfold cutAt in Hcut. rewrite Hcut, app_assoc, <- (app_assoc (_ ++ sel)) in Hp. by apply paired_split in Hp as [_ Hp].
Qed.

(** A summary of a conversation takes nothing but what the model was given to
    summarize: whatever is said while it is written, the leading system message, the
    messages the request keeps back and everything said since stay as they were, in
    order; a conversation in which the results of tool calls follow their requests stays
    one; and the next summary can be asked for. *)
Theorem summary_keeps_pairs inf r snap later text lst s :
  0 <= MinMessagesToKeep r -> GenerateSummary inf r snap = Some (inr (text, lst)) ->
  messages (context s) = snap ++ later -> paired (snap ++ later) = true ->
  exists sel rest raw s', snap = preserved snap ++ sel ++ rest /\ MinMessagesToKeep r <= Z.of_nat (List.length rest) /\ text = TrimSpace raw
    /\ inf [plain RoleUser (bytes_of "Conversation history:" ++ [10] ++ FormatMessagesForSummary sel)] (reqTargetContextTokens r) (reqPrompt r) = inr raw
    /\ handleSummaryResult (mkResult (pendingRequestID s) text lst []) s = Some s' /\ inProgress s' = false
    /\ paired (messages (context s')) = true
    /\ messages (context s') = if MinMessagesAfterSummary (summaryConfig (autoConfig s)) <=? Z.of_nat (List.length (rest ++ later))
                               then preserved snap ++ [summaryMessage (templateOf s) text] ++ rest ++ later else snap ++ later.
Proof.
  intros Hk Hg Hm Hp. destruct (result_applied _ _ _ _ _ _ _ Hk Hg Hm) as (sel & rest & raw & s' & Hcut & Hne & Ht & Hs & Hkeep & Hi & Hh & Hip & Hm').
  exists sel, rest, raw, s'. split_and!; try done. rewrite Hm'. destruct (_ <=? _); [|done].
  assert (snap <> []) as Hsn by (intros ->; by destruct sel). apply paired_app.
  - rewrite <- (preserved_app snap later) by done. by apply paired_preserved.
  - cbn [app]. rewrite paired_plain by done. by eapply result_settled.
Qed.

Lemma WithDefaults_min c : MinMessagesAfterSummary (WithDefaults c) = if MinMessagesAfterSummary c =? 0 then 4 else MinMessagesAfterSummary c.
Proof.
  unfold WithDefaults. destruct (TargetContextTokens c =? 0); cbn; destruct (MinMessagesAfterSummary c =? 0); cbn;
    destruct (SummaryMessageTemplate c); cbn; destruct (SummarizationTimeout c =? 0); done.
Qed.
Lemma WithDefaults_keeps c : 0 <= MinMessagesAfterSummary c -> 0 <= MinMessagesAfterSummary (WithDefaults c).
Proof. intros H. rewrite WithDefaults_min. by case_match. Qed.
Lemma AutoWithDefaults_config cfg : MinMessagesAfterSummary (summaryConfig (AutoWithDefaults cfg)) = MinMessagesAfterSummary (WithDefaults (summaryConfig cfg))
  /\ SummaryMessageTemplate (summaryConfig (AutoWithDefaults cfg)) = SummaryMessageTemplate (WithDefaults (summaryConfig cfg)).
Proof. unfold AutoWithDefaults. cbn. destruct (MaxContextTokens cfg); [|done]. by case_match. Qed.

(** ** Handled alone *)

Fixpoint alone (n : nat) (h : stage) s : option Summarizer :=
  match n with
  | O => None
  | S n => '(h', s') ← proceed h s; match h' with Some h' => alone n h' s' | None => Some s' end
  end.
(** With nothing in between, the handler's parts are the handler. *)
Lemma handled_alone f s : handleSummaryResult f s = match arrive f s with Some h => alone 4 h s | None => Some s end.
Proof.
  unfold handleSummaryResult, arrive. destruct (negb (bool_decide (resultOf f = _))); [done|]. cbn [alone proceed mbind option_bind].
  destruct (negb (bool_decide (error f = []))); [done|]. cbn [mbind option_bind alone proceed].
  destruct (negb (validateSummaryContext _ _)); [done|]. cbn [mbind option_bind alone proceed]. unfold applySummary. by destruct (readSummary _ _ _).
Qed.

(** ** Runs

    The conversation grows at any time, and at any time another of its holders replaces
    it; requests are made whenever, as what looks whether one is under way does so before
    it makes one; each is answered at most once, from the conversation as it is then, or
    lost; the answers come back in any order, and are handled side by side.  [replies] is
    what a model may answer. *)
Section Runs.
Context (replies : list Message -> Z -> gostring -> gostring -> Prop) (template : gostring).

Definition ask (sel : list Message) : list Message :=
  [plain RoleUser (bytes_of "Conversation history:" ++ [10] ++ FormatMessagesForSummary sel)].
Definition faithful (inf : inference) : Prop := forall ms n p raw, inf ms n p = inr raw -> replies ms n p raw.

(** What a message of the conversation stands for: itself, or, if it is a summary, what
    the messages it was made from stand for. *)
Inductive stands : Message -> list Message -> Prop :=
| stands_itself m : stands m [m]
| stands_summary sel ls n p raw : Forall2 stands sel ls -> replies (ask sel) n p raw ->
    stands (summaryMessage template (TrimSpace raw)) (List.concat ls).

(** An answer being handled, what there had been when it was made, when its handling
    began, and when it read the conversation. *)
Record handler := mkHandler { left : stage; madeIn : nat; began : nat; readAt : nat }.
Record world := mkWorld {
  sm : Summarizer;
  waiting : list Request;
  answered : list (Result * nat);
  handling : list handler;
  used : list gostring;
  said : list Message;        (** every message there was since the conversation was last replaced *)
  replaced : nat;             (** how often another holder replaced the conversation *)
  events : nat;               (** how often it was replaced, rewritten, or read for a summary *)
  writes : nat;               (** how often it was written to *)
  raced : bool
}.
#[local] Instance eta_world : Eta world := fun w =>
  mkWorld (sm w) (waiting w) (answered w) (handling w) (used w) (said w) (replaced w) (events w) (writes w) (raced w).
Implicit Types (w : world) (h : handler).

Definition asks (o : output) : option Request := match o with Asked r | Dedicated _ r => Some r | SummaryApplied _ => None end.
Definition newly s s' : list Request := omap asks (List.skipn (List.length (out s)) (out s')).
Definition keepsSome (c : option SummaryConfig) : Prop := match c with Some c => 0 <= MinMessagesAfterSummary c | None => True end.

(** A summary is written in a race if, since it was made, another holder replaced the
    conversation; if, while it was applied, another was written or begun; or if the
    conversation was written to between the read and the write that apply it. *)
Definition races h w : bool :=
  negb (bool_decide (madeIn h = replaced w)) || negb (bool_decide (began h = events w)) || negb (bool_decide (readAt h = writes w)).
Definition moved h (left' : option stage) w : list handler :=
  match left' with
  | Some (Rewriting r) => [mkHandler (Rewriting r) (madeIn h) (began h) (writes w)]
  | Some l => [mkHandler l (madeIn h) (began h) (readAt h)]
  | None => []
  end.
Definition written h w : world :=
  match left h with
  | Rewriting _ => w <| events ::= S |> <| writes ::= S |> <| raced := raced w || races h w |>
  | _ => w
  end.

Inductive step : world -> world -> Prop :=
| s_append m w : step w (w <| sm ::= fun s => s <| context ::= fun c => AddMessage c m |> |> <| said ::= fun l => l ++ [m] |> <| writes ::= S |>)
| s_replace g w : step w (w <| sm ::= fun s => s <| context ::= g |> |> <| said := messages (g (context (sm w))) |>
                            <| replaced ::= S |> <| events ::= S |> <| writes ::= S |>)
| s_request fresh o w : fresh <> [] -> fresh ∉ used w -> keepsSome o ->
    let s' := requestSummarization fresh o (sm w) in
    step w (w <| sm := s' |> <| waiting ::= fun l => l ++ newly (sm w) s' |> <| used ::= fun l => fresh :: l |>)
| s_interruption w : step w (w <| sm ::= handleInterruption |>)
| s_generate l1 r l2 inf name expired f w : waiting w = l1 ++ r :: l2 -> match inf with Some inf => faithful inf | None => True end ->
    generateSummaryTask inf name expired r (messages (context (sm w))) = Some f ->
    step w (w <| waiting := l1 ++ l2 |> <| answered ::= fun l => l ++ [(f, replaced w)] |> <| events ::= S |>)
| s_lose l1 r l2 w : waiting w = l1 ++ r :: l2 -> step w (w <| waiting := l1 ++ l2 |>)
| s_arrive l1 f n l2 w : answered w = l1 ++ (f, n) :: l2 ->
    step w (w <| answered := l1 ++ l2 |>
              <| handling ::= fun l => l ++ match arrive f (sm w) with Some c => [mkHandler c n (events w) 0] | None => [] end |>)
| s_proceed l1 h l2 l' s' w : handling w = l1 ++ h :: l2 -> proceed (left h) (sm w) = Some (l', s') ->
    step w (written h (w <| sm := s' |> <| handling := l1 ++ moved h l' w ++ l2 |>))
| s_cleanup w : step w (w <| sm ::= Cleanup |>).

(** The conversation is the one an answer was made from, or that grown. *)
Definition grown (f : Result) s : Prop :=
  exists snap later r inf, messages (context s) = snap ++ later /\ faithful inf /\ 0 <= MinMessagesToKeep r
    /\ GenerateSummary inf r snap = Some (inr (summary f, LastSummarizedIndex f)).
(** An answer to the request waited for was made from a conversation that has only
    grown since, if no other holder replaced it. *)
Definition current w (f : Result * nat) : Prop :=
  (f.2 <= replaced w)%nat /\
  (resultOf f.1 = pendingRequestID (sm w) -> f.2 = replaced w -> error f.1 = [] -> 0 <= LastSummarizedIndex f.1 -> grown f.1 (sm w)).
(** So was one being applied, and no other answer is then waited for, unless there is a race. *)
Definition applicable w h : Prop :=
  match left h with
  | Checked f => error f = [] -> 0 <= LastSummarizedIndex f -> grown f (sm w)
  | Cleared f => 0 <= LastSummarizedIndex f -> grown f (sm w)
  | Validated f => grown f (sm w)
  | Rewriting r => readAt h = writes w -> exists f, grown f (sm w) /\ readSummary (summary f) (LastSummarizedIndex f) (sm w) = Some r
  end.
Definition sound w h : Prop := (began h <= events w)%nat /\ (readAt h <= writes w)%nat /\
  (madeIn h = replaced w -> began h = events w ->
   Forall (fun f => resultOf f.1 <> pendingRequestID (sm w)) (answered w) /\ applicable w h).

Definition ids w : list gostring := List.map RequestID (waiting w) ++ List.map (fun f => resultOf f.1) (answered w).
#[local] Arguments ids : simpl never.
(** Whatever races there are. *)
Record formed w : Prop := {
  k_ids : NoDup (ids w);
  k_used : Forall (fun i => i ∈ used w) (ids w);
  k_names : Forall (fun i => i <> []) (ids w);
  k_keeps : Forall (fun r => 0 <= MinMessagesToKeep r) (waiting w);
  k_config : 0 <= MinMessagesAfterSummary (summaryConfig (autoConfig (sm w))) /\ templateOf (sm w) = template
}.
Definition covered w : Prop := exists ls, Forall2 stands (messages (context (sm w))) ls /\ List.concat ls = said w.
Record kept w : Prop := {
  k_covers : covered w;
  k_current : Forall (current w) (answered w);
  k_handling : Forall (sound w) (handling w)
}.
Definition good w : Prop := formed w /\ (raced w = false -> kept w).

(** *** What stays *)

Lemma requestSummarization_new fresh o s : keepsSome o -> 0 <= MinMessagesAfterSummary (summaryConfig (autoConfig s)) ->
  exists r, newly s (requestSummarization fresh o s) = [r] /\ RequestID r = fresh /\ 0 <= MinMessagesToKeep r.
Proof.
  intros Ho Hs. unfold requestSummarization, newly. set (cfg := match o with Some _ => _ | None => _ end).
  assert (0 <= MinMessagesAfterSummary cfg) as Hc by (subst cfg; destruct o; [by apply WithDefaults_keeps|done]).
  cbn. rewrite drop_app_length. destruct (LLM cfg); cbn; by eexists.
Qed.

(** Messages and what they stand for, cut at a summary. *)
Lemma covers_apply snap sel rest later n p raw ls : cutAt snap sel rest -> Forall2 stands (snap ++ later) ls -> replies (ask sel) n p raw ->
  exists ls', Forall2 stands (preserved snap ++ [summaryMessage template (TrimSpace raw)] ++ rest ++ later) ls' /\ List.concat ls' = List.concat ls.
Proof.
  intros Hcut Hls Hr. assert (snap ++ later = preserved snap ++ sel ++ rest ++ later) as E by (unfold cutAt in Hcut; rewrite Hcut at 1; by rewrite <- !app_assoc).
  rewrite E in Hls. apply Forall2_app_inv_l in Hls as (lp & l1 & Hp & Hls & ->). apply Forall2_app_inv_l in Hls as (lsel & lr & Hs & Hlr & ->).
  exists (lp ++ [List.concat lsel] ++ lr). split.
  - apply Forall2_app; [done|]. apply Forall2_app; [|done]. constructor; [|done]. by eapply stands_summary.
  - by rewrite !List.concat_app, List.concat_cons, app_nil_r.
Qed.

Lemma grown_append f m s : grown f s -> grown f (s <| context ::= fun c => AddMessage c m |>).
Proof. intros (snap & later & r & inf & Hm & H). exists snap, (later ++ [m]), r, inf. cbn. by rewrite Hm, app_assoc. Qed.
Lemma grown_same f s s' : context s' = context s -> grown f s -> grown f s'.
Proof. unfold grown. by intros ->. Qed.
Lemma applicable_same w w' h : context (sm w') = context (sm w) -> templateOf (sm w') = templateOf (sm w) -> writes w' = writes w ->
  applicable w h -> applicable w' h.
Proof.
  unfold applicable, readSummary, grown. intros -> -> ->. by destruct (left h).
Qed.

(** What leaves the conversation and the counts alone, and waits for no other answer that
    is there. *)
Lemma kept_still w w' : context (sm w') = context (sm w) -> templateOf (sm w') = templateOf (sm w) -> answered w' = answered w ->
  handling w' = handling w -> said w' = said w -> replaced w' = replaced w -> events w' = events w -> writes w' = writes w ->
  (forall f, f ∈ answered w -> resultOf f.1 = pendingRequestID (sm w') -> resultOf f.1 = pendingRequestID (sm w)) -> kept w -> kept w'.
Proof.
  intros Ec Et Ea Eh Es Er Ev Ew Hp [K1 K2 K3]. split.
  - unfold covered. by rewrite Ec, Es.
  - rewrite Ea. rewrite Forall_forall in K2 |- *. intros f Hf. destruct (K2 f Hf) as [Hm K]. unfold current. rewrite Er. split; [done|].
    intros Hi Hn He Hl. apply (grown_same _ (sm w)); [done|]. apply K; auto.
  - rewrite Eh. rewrite Forall_forall in K3 |- *. intros h Hh. destruct (K3 h Hh) as (H1 & H2 & K). unfold sound. rewrite Ev, Ew, Er, Ea. split_and!; try done.
    intros Hn Hb. destruct (K Hn Hb) as [Hf Ha]. split; [|by eapply applicable_same].
    rewrite Forall_forall in Hf |- *. intros f Hin E. by apply (Hf f Hin), Hp.
Qed.

Lemma kept_append m w : kept w -> kept (w <| sm ::= fun s => s <| context ::= fun c => AddMessage c m |> |> <| said ::= fun l => l ++ [m] |> <| writes ::= S |>).
Proof.
  intros [(ls & Hls & Hc) K2 K3]. split.
  - exists (ls ++ [[m]]). cbn. split; [apply Forall2_app; [done|]; repeat constructor|]. by rewrite List.concat_app, Hc.
  - eapply Forall_impl; [exact K2|]. intros f [Hm Hf]. split; [done|]. intros Hi Hn He Hl. by apply grown_append, Hf.
  - eapply Forall_impl; [exact K3|]. intros h (H1 & H2 & K). unfold sound. cbn. split_and!; [done|lia|]. intros Hn Hb. destruct (K Hn Hb) as [Hf Ha].
    split; [done|]. unfold applicable in *. cbn. destruct (left h); [intros; by apply grown_append, Ha|intros; by apply grown_append, Ha|by apply grown_append|lia].
Qed.

Lemma sound_past w h : (began h < events w)%nat -> (readAt h <= writes w)%nat -> sound w h.
Proof. intros H1 H2. split_and!; [lia|done|]. lia. Qed.
Lemma sound_later w w' h : events w' = S (events w) -> (writes w <= writes w')%nat -> sound w h -> sound w' h.
Proof. intros He Hw (H1 & H2 & _). apply sound_past; lia. Qed.

Lemma kept_replace g w : kept w -> kept (w <| sm ::= fun s => s <| context ::= g |> |> <| said := messages (g (context (sm w))) |>
  <| replaced ::= S |> <| events ::= S |> <| writes ::= S |>).
Proof.
  intros [_ K2 K3]. split.
  - exists (List.map (fun m => [m]) (messages (g (context (sm w))))). cbn. generalize (messages (g (context (sm w)))). intros l.
    split; induction l; cbn; try done; [repeat constructor; done|congruence].
  - eapply Forall_impl; [exact K2|]. intros f [Hm _]. unfold current. cbn. split; [lia|]. lia.
  - eapply Forall_impl; [exact K3|]. intros h. apply sound_later; cbn; lia.
Qed.

Lemma task_answer inf name expired r ms f : generateSummaryTask inf name expired r ms = Some f ->
  resultOf f = RequestID r /\ (0 <= LastSummarizedIndex f -> exists i, inf = Some i /\ GenerateSummary i r ms = Some (inr (summary f, LastSummarizedIndex f))).
Proof.
  unfold generateSummaryTask. destruct inf as [i|].
  - destruct (GenerateSummary i r ms) as [[e|[text lst]]|] eqn:E; cbn; try done.
    + intros [= <-]. destruct expired; cbn; split; try done; lia.
    + intros [= <-]. cbn. split; [done|]. intros _. by exists i.
  - cbn. intros [= <-]. destruct expired; cbn; split; try done; lia.
Qed.

Lemma kept_generate l1 l2 r inf name expired f w : 0 <= MinMessagesToKeep r -> match inf with Some inf => faithful inf | None => True end ->
  generateSummaryTask inf name expired r (messages (context (sm w))) = Some f -> kept w ->
  kept (w <| waiting := l1 ++ l2 |> <| answered ::= fun l => l ++ [(f, replaced w)] |> <| events ::= S |>).
Proof.
  intros Hk Hi Hg [K1 K2 K3]. destruct (task_answer _ _ _ _ _ _ Hg) as [Hf Hlast]. split; [done| |].
  - cbn. apply Forall_app. split; [exact K2|]. constructor; [|done]. split; [done|]. cbn. intros _ _ _ Hl. destruct (Hlast Hl) as (i & -> & HG).
    exists (messages (context (sm w))), [], r, i. by rewrite app_nil_r.
  - eapply Forall_impl; [exact K3|]. intros h. by apply sound_later.
Qed.

Lemma ids_answered w l1 f l2 : answered w = l1 ++ f :: l2 -> NoDup (ids w) -> Forall (fun g => resultOf g.1 <> resultOf f.1) (l1 ++ l2).
Proof.
  unfold ids. intros -> Hnd. apply NoDup_app in Hnd as (_ & _ & Hnd). rewrite List.map_app in Hnd. cbn in Hnd.
  assert (NoDup (resultOf f.1 :: List.map (fun f => resultOf f.1) (l1 ++ l2))) as [Hn _]%NoDup_cons.
  { rewrite List.map_app. revert Hnd. by rewrite Permutation_middle. }
  apply Forall_forall. intros g Hg E. apply Hn. rewrite <- E. apply (list_elem_of_fmap_2 (fun f : Result * nat => resultOf f.1) _ g Hg).
Qed.

Lemma kept_arrive l1 f n l2 w : answered w = l1 ++ (f, n) :: l2 -> NoDup (ids w) -> kept w ->
  kept (w <| answered := l1 ++ l2 |>
          <| handling ::= fun l => l ++ match arrive f (sm w) with Some c => [mkHandler c n (events w) 0] | None => [] end |>).
Proof.
  intros Ha Hnd [K1 K2 K3]. pose proof (ids_answered _ _ _ _ Ha Hnd) as Hothers.
  rewrite Ha in K2. apply Forall_app in K2 as [K2 [Hcur K2']%Forall_cons].
  split; [done|by apply Forall_app|]. cbn. apply Forall_app. split.
  - eapply Forall_impl; [exact K3|]. intros h (H1 & H2 & K). split_and!; [done|done|]. intros Hn Hb. destruct (K Hn Hb) as [Hf Happ].
    split; [|done]. cbn. rewrite Ha in Hf. apply Forall_app in Hf as [? [_ ?]%Forall_cons]. by apply Forall_app.
  - unfold arrive. case_bool_decide as Hi; cbn; [|done]. constructor; [|done]. split_and!; cbn; [done|lia|]. intros Hn _. rewrite <- Hi.
    split; [exact Hothers|]. unfold applicable. cbn. destruct Hcur as [_ Hcur]. by apply Hcur.
Qed.

Lemma Forall_replace {B} (P : B -> Prop) l1 x l2 ys : Forall P (l1 ++ x :: l2) -> Forall P ys -> Forall P (l1 ++ ys ++ l2).
Proof. intros [H1 [_ H2]%Forall_cons]%Forall_app Hy. apply Forall_app. split; [done|]. by apply Forall_app. Qed.

Lemma covered_write f r w : templateOf (sm w) = template -> grown f (sm w) ->
  readSummary (summary f) (LastSummarizedIndex f) (sm w) = Some r -> covered w ->
  exists ls, Forall2 stands (messages (context (writeSummary r (sm w)))) ls /\ List.concat ls = said w.
Proof.
  intros Ht (snap & later & q & inf & Hm & Hf & Hk & HG) Hr (ls & Hls & <-).
  destruct (read_grown _ _ _ _ _ _ _ Hk HG Hm) as (sel & rest & raw & a & Hcut & _ & _ & Hraw & _ & _ & Hinf & Hr').
  rewrite Hr in Hr'. injection Hr' as ->. rewrite Hm in Hls. rewrite Hraw, Ht. cbn [writeSummary context messages fst].
  eapply covers_apply; [done|done|]. by apply Hf.
Qed.

(** A part of a handler that does not write. *)
Lemma kept_part l1 h l2 l' s' w : handling w = l1 ++ h :: l2 -> proceed (left h) (sm w) = Some (l', s') ->
  (forall r, left h <> Rewriting r) -> Forall (fun f => resultOf f.1 <> []) (answered w) -> kept w ->
  kept (w <| sm := s' |> <| handling := l1 ++ moved h l' w ++ l2 |>).
Proof.
  intros Hh Hp Hne Hnames Hkept.
  assert (context s' = context (sm w) /\ templateOf s' = templateOf (sm w)
    /\ (pendingRequestID s' = [] \/ pendingRequestID s' = pendingRequestID (sm w))) as (Ec & Et & Epd).
  { destruct (left h) as [f|f|f|r]; [|..|by destruct (Hne r)]; cbn in Hp.
    - injection Hp as _ <-. destruct (clearState_context (sm w)) as (Hc & Ha & _ & Hid). unfold templateOf. by rewrite Hc, Ha.
    - injection Hp as _ <-. auto.
    - destruct (readSummary _ _ _); [|done]. injection Hp as _ <-. auto. }
  assert (kept (w <| sm := s' |>)) as [K1 K2 K3].
  { apply (kept_still w); try done. cbn. intros f Hf E. destruct Epd as [Epd|Epd]; [|by rewrite <- Epd].
    rewrite Forall_forall in Hnames. destruct (Hnames _ Hf). congruence. }
  split; [exact K1|exact K2|]. cbn. cbn in K3. rewrite Hh in K3. apply (Forall_replace _ _ h); [exact K3|].
  apply Forall_app in K3 as [_ [(H1 & H2 & K) _]%Forall_cons]. cbn in H1, H2, K. unfold applicable in K. cbn in K.
  destruct (left h) as [f|f|f|r]; [|..|by destruct (Hne r)]; cbn in Hp.
  - injection Hp as <- _. case_bool_decide as He; cbn; [|done]. constructor; [|done]. split_and!; try done. cbn. intros Hn Hb.
    destruct (K Hn Hb) as [Hf Ha]. split; [done|]. by apply Ha.
  - injection Hp as <- <-. unfold validateSummaryContext. destruct (LastSummarizedIndex f <? 0) eqn:El; cbn; [done|].
    destruct (negb _); cbn; [done|]. constructor; [|done]. split_and!; try done. cbn. intros Hn Hb.
    destruct (K Hn Hb) as [Hf Ha]. split; [done|]. apply Ha. lia.
  - destruct (readSummary _ _ _) as [r|] eqn:Er; [|done]. injection Hp as <- <-. cbn. constructor; [|done]. split_and!; try done. cbn. intros Hn Hb.
    destruct (K Hn Hb) as [Hf Ha]. split; [done|]. intros _. by exists f.
Qed.

Lemma kept_write l1 h l2 r w : handling w = l1 ++ h :: l2 -> left h = Rewriting r -> races h w = false ->
  templateOf (sm w) = template -> kept w ->
  kept (w <| sm := writeSummary r (sm w) |> <| handling := l1 ++ l2 |> <| events ::= S |> <| writes ::= S |> <| raced := false |>).
Proof.
  intros Hh El Hr Ht [K1 K2 K3]. unfold races in Hr. apply orb_false_elim in Hr as [[Hn Hb]%orb_false_elim Hw].
  apply negb_false_iff, bool_decide_eq_true in Hn, Hb, Hw. rewrite Hh in K3.
  pose proof K3 as [_ [(_ & _ & K) _]%Forall_cons]%Forall_app. destruct (K Hn Hb) as [Hf Ha]. unfold applicable in Ha. rewrite El in Ha.
  destruct (Ha Hw) as (f & Hg & Hread). split.
  - exact (covered_write f r w Ht Hg Hread K1).
  - apply Forall_forall. intros g Hin. rewrite Forall_forall in K2, Hf. split; [by apply K2|]. cbn. intros E. by destruct (Hf g Hin).
  - cbn. apply (Forall_replace (sound _) _ h _ []); [|done]. eapply Forall_impl; [exact K3|]. intros h'. apply sound_later; cbn; lia.
Qed.

Lemma formed_same w w' : ids w' = ids w -> used w' = used w -> waiting w' = waiting w -> autoConfig (sm w') = autoConfig (sm w) -> formed w -> formed w'.
Proof. intros E1 E2 E3 E4 [K1 K2 K3 K4 K5]. split; rewrite ?E1, ?E2, ?E3; try done. unfold templateOf. by rewrite E4. Qed.
Lemma formed_fewer w w' gone : ids w ≡ₚ gone ++ ids w' -> used w' = used w -> Forall (fun r => 0 <= MinMessagesToKeep r) (waiting w') ->
  autoConfig (sm w') = autoConfig (sm w) -> formed w -> formed w'.
Proof.
  intros E1 E2 E3 E4 [K1 K2 K3 K4 K5]. rewrite E1 in K1, K2, K3. apply NoDup_app in K1 as (_ & _ & K1). apply Forall_app in K2 as [_ K2], K3 as [_ K3].
  split; try done; [by rewrite E2|]. unfold templateOf. by rewrite E4.
Qed.

Lemma good_request fresh o w : fresh <> [] -> fresh ∉ used w -> keepsSome o -> good w ->
  let s' := requestSummarization fresh o (sm w) in
  good (w <| sm := s' |> <| waiting ::= fun l => l ++ newly (sm w) s' |> <| used ::= fun l => fresh :: l |>).
Proof.
  intros Hne Hf Ho [[K1 K2 K3 K4 [K5 K5']] Hk] s'. destruct (requestSummarization_new fresh o (sm w) Ho K5) as (r & Hnew & <- & Hkeep). fold s' in Hnew. rewrite Hnew.
  assert (ids (w <| sm := s' |> <| waiting ::= fun l => l ++ [r] |> <| used ::= fun l => RequestID r :: l |>) ≡ₚ RequestID r :: ids w) as Hids.
  { unfold ids. cbn. rewrite List.map_app. solve_Permutation. }
  split.
  - split; rewrite ?Hids; cbn.
    + constructor; [|done]. intros Hin. rewrite Forall_forall in K2. by apply Hf, K2.
    + constructor; [set_solver|]. eapply Forall_impl; [exact K2|]. set_solver.
    + by constructor.
    + apply Forall_app. split; [done|by repeat constructor].
    + done.
  - cbn. intros Hr. apply (kept_still w); try done; [|by apply Hk]. cbn. intros f Hin E. destruct Hf. rewrite Forall_forall in K2. apply K2.
    unfold ids. apply elem_of_app. right. rewrite <- E. apply (list_elem_of_fmap_2 (fun f : Result * nat => resultOf f.1) _ f Hin).
Qed.
Lemma names_answered w : formed w -> Forall (fun f => resultOf f.1 <> []) (answered w).
Proof. intros [_ _ K _ _]. unfold ids in K. apply Forall_app in K as [_ K]. exact (proj1 (Forall_fmap (fun f : Result * nat => resultOf f.1) _ _) K). Qed.

Lemma good_proceed l1 h l2 l' s' w : handling w = l1 ++ h :: l2 -> proceed (left h) (sm w) = Some (l', s') -> good w ->
  good (written h (w <| sm := s' |> <| handling := l1 ++ moved h l' w ++ l2 |>)).
Proof.
  intros Hh Hp [Hform Hk]. assert (autoConfig s' = autoConfig (sm w)) as Ea.
  { destruct (left h); cbn in Hp; [injection Hp as _ <-; apply clearState_context|by injection Hp as _ <-| |by injection Hp as _ <-].
    destruct (readSummary _ _ _); [by injection Hp as _ <-|done]. }
  split; [unfold written; destruct (left h); by apply (formed_same w)|]. pose proof (names_answered _ Hform) as Hnames. unfold written.
  destruct (left h) as [f|f|f|r] eqn:El; cbn; intros Hr; try (apply (kept_part l1 h l2); rewrite ?El; auto; done).
  apply orb_false_elim in Hr as [Hr Hrace]. cbn in Hp. injection Hp as <- <-. cbn. rewrite Hr. change (races h (w <| sm := _ |> <| handling := _ |>)) with (races h w).
  replace (false || _) with false by (symmetry; exact Hrace). apply (kept_write l1 h l2); auto. apply Hform.
Qed.

Lemma summary_good_step w w' : step w w' -> good w -> good w'.
Proof.
  destruct 1 as [m w|g w|fresh o w Hne Hf Ho|w|l1 r l2 inf name expired f w Hw Hi Hg|l1 r l2 w Hw|l1 f n l2 w Ha|l1 h l2 l' s' w Hh Hp|w]; intros [Hform Hk].
  - split; [by apply (formed_same w)|]. intros Hr. by apply kept_append, Hk.
  - split; [by apply (formed_same w)|]. intros Hr. by apply kept_replace, Hk.
  - by apply good_request.
  - split; [by apply (formed_same w)|]. intros Hr. apply (kept_still w); try done. by apply Hk.
  - pose proof (k_keeps _ Hform) as K. rewrite Hw in K. apply Forall_app in K as [K1 [Hkeep K2]%Forall_cons]. split.
    + destruct (task_answer _ _ _ _ _ _ Hg) as [E _]. apply (formed_fewer w _ []); try done; [|by apply Forall_app].
      unfold ids. cbn. rewrite Hw, !List.map_app. cbn. rewrite E. solve_Permutation.
    + intros Hr. by eapply kept_generate; [..|apply Hk].
  - pose proof (k_keeps _ Hform) as K. rewrite Hw in K. apply Forall_app in K as [K1 [_ K2]%Forall_cons]. split.
    + apply (formed_fewer w _ [RequestID r]); try done; [|by apply Forall_app]. unfold ids. cbn. rewrite Hw, !List.map_app. cbn. solve_Permutation.
    + intros Hr. apply (kept_still w); try done. by apply Hk.
  - split.
    + apply (formed_fewer w _ [resultOf f]); try done; [|apply Hform]. unfold ids. cbn. rewrite Ha, !List.map_app. cbn. solve_Permutation.
    + intros Hr. apply kept_arrive; [done|apply Hform|by apply Hk].
  - by apply good_proceed.
  - destruct (clearState_context (sm w)) as (Hc & Ha & _ & Hid). split; [by apply (formed_same w)|]. intros Hr.
    pose proof (names_answered _ Hform) as Hnames. apply (kept_still w); try done; [unfold templateOf, Cleanup; cbn; by rewrite Ha| |by apply Hk].
    cbn. intros f Hin E. destruct Hid as [Hid|Hid]; unfold Cleanup in E; [|by rewrite <- Hid].
    rewrite Forall_forall in Hnames. destruct (Hnames _ Hin). congruence.
Qed.

Definition opened (c : LLMContext) (cfg : AutoSummarizationConfig) (auto : bool) : world :=
  mkWorld (NewSummarizer c cfg auto) [] [] [] [] (messages c) 0 0 0 false.

(** C30: Summaries lose nothing: however requests, answers,
    interruptions and what is said interleave, other holders of the conversation replacing
    it and the parts of the handlers taken one by one, whatever requests are lost and
    whatever answers come late or for a request given up, the conversation is what was said
    since it was last replaced, in order, but that some of its messages are summaries, each
    of which a model made from just the messages it stands for: unless a summary was written
    in a race, over a conversation another holder had replaced since the summary was made,
    while another was made or applied, or written to after it was read to be rewritten. *)
Theorem summaries_lose_nothing c cfg auto w : 0 <= MinMessagesAfterSummary (summaryConfig cfg) ->
  template = SummaryMessageTemplate (WithDefaults (summaryConfig cfg)) ->
  rtc step (opened c cfg auto) w -> raced w = false ->
  exists ls, Forall2 stands (messages (context (sm w))) ls /\ List.concat ls = said w.
Proof.
  intros Hk -> Hr. assert (good w) as [_ Hw].
  { apply (rtc_invariant _ good _ _ Hr); [by intros ? ? Hs ?; eapply summary_good_step|]. destruct (AutoWithDefaults_config cfg) as [H1 H2].
    split; [|intros _]; split; cbn; try done; try constructor; unfold templateOf; cbn; rewrite ?H1, ?H2; try done; [by apply WithDefaults_keeps|].
    exists (List.map (fun m => [m]) (messages c)). cbn. split.
    - induction (messages c); cbn; constructor; [constructor|done].
    - induction (messages c); cbn; congruence. }
  intros Hrace. by destruct (Hw Hrace).
Qed.
End Runs.

(** ** Scenes *)

Definition says (r : Role) (t : string) : Message := plain r (bytes_of t).
Definition talk : list Message :=
  [says RoleSystem "Be kind."; says RoleUser "Hello"; says RoleAssistant "Hi"; says RoleUser "My name is Ann"; says RoleAssistant "Noted"; says RoleUser "Thanks"].
Definition talked : LLMContext := LlmContext.SetMessages (NewLLMContext []) talk.
Definition annSaid : inference := fun _ _ _ => inr (bytes_of " Ann said hello. ").
Definition eager : AutoSummarizationConfig := mkAuto None (Some 3) (mkSummaryConfig 0 2 [] [] Nothing 0).
Definition whatever (_ : list Message) (_ : Z) (_ raw : gostring) : Prop := raw = bytes_of " Ann said hello. ".

Lemma summary_keeps_pairs_witness :
  let s := requestSummarization (bytes_of "r1") None (NewSummarizer (AddUserMessage talked (bytes_of "Bye")) eager true) in
  exists r s', out s = [Asked r] /\ handleSummaryResult (mkResult (bytes_of "r1") (bytes_of "Ann said hello.") 3 []) s = Some s'
  /\ List.map text (messages (context s')) = [bytes_of "Be kind."; bytes_of "Conversation summary: Ann said hello."; bytes_of "Noted"; bytes_of "Thanks"; bytes_of "Bye"]
  /\ paired (messages (context s')) = true.
Proof.
  intros s. eexists. assert (paired (talk ++ [says RoleUser "Bye"]) = true) as Hp by reflexivity.
  destruct (summary_keeps_pairs annSaid (mkRequest (bytes_of "r1") 2 6000 DefaultSummarizationPrompt DefaultSummarizationTimeout) talk [says RoleUser "Bye"]
              (bytes_of "Ann said hello.") 3 s ltac:(done) ltac:(vm_compute; reflexivity) ltac:(reflexivity) Hp)
    as (sel & rest & raw & s' & _ & _ & _ & _ & Hh & _ & Hp' & _).
  exists s'. split; [reflexivity|]. split; [exact Hh|]. split; [|exact Hp'].
  assert (Some s' = handleSummaryResult (mkResult (bytes_of "r1") (bytes_of "Ann said hello.") 3 []) s) as E by (symmetry; exact Hh).
  vm_compute in E. injection E as ->. vm_compute. reflexivity.
Defined.

Lemma scene_run : exists w, rtc (step whatever) (opened talked eager true) w /\ raced w = false
  /\ List.map text (messages (context (sm w))) = [bytes_of "Be kind."; bytes_of "Conversation summary: Ann said hello."; bytes_of "Noted"; bytes_of "Thanks"; bytes_of "Bye"]
  /\ said w = talk ++ [says RoleUser "Bye"].
Proof.
  eexists. split.
  - eapply rtc_l; [apply (s_request _ (bytes_of "r1") None); [done|set_solver|done]|].
    eapply rtc_l; [eapply (s_generate _ [] _ [] (Some annSaid) [] false); [reflexivity|by intros ? ? ? ? [= <-]|vm_compute; reflexivity]|].
    eapply rtc_l; [eapply (s_append _ (says RoleUser "Bye"))|].
    eapply rtc_l; [eapply (s_arrive _ [] _ _ []); reflexivity|].
    do 4 (eapply rtc_l; [eapply (s_proceed _ [] _ []); vm_compute; reflexivity|]). apply rtc_refl.
  - split_and!; vm_compute; reflexivity.
Qed.
Lemma summaries_lose_nothing_witness : exists w ls,
  List.map text (messages (context (sm w))) = [bytes_of "Be kind."; bytes_of "Conversation summary: Ann said hello."; bytes_of "Noted"; bytes_of "Thanks"; bytes_of "Bye"]
  /\ Forall2 (stands whatever DefaultSummaryMessageTemplate) (messages (context (sm w))) ls /\ List.concat ls = talk ++ [says RoleUser "Bye"].
Proof.
  destruct scene_run as (w & Hr & Hrace & Ht & Hs). exists w.
  destruct (summaries_lose_nothing whatever DefaultSummaryMessageTemplate talked eager true w ltac:(done) ltac:(reflexivity) Hr Hrace) as (ls & H1 & H2).
  exists ls. split; [exact Ht|]. split; [exact H1|]. by rewrite H2.
Defined.

(** ** Where it falls short *)

(** What is said between the reading of the conversation and its writing back is lost,
    and no summary covers it. *)
Theorem said_during_rewrite_lost :
  let s := NewSummarizer talked eager true in
  exists r, readSummary (bytes_of "A summary.") 3 s = Some r
  /\ says RoleUser "Bye" ∉ messages (context (writeSummary r (s <| context ::= fun c => AddUserMessage c (bytes_of "Bye") |>))).
Proof. intros s. eexists. split; [vm_compute; reflexivity|]. vm_compute. intros H. repeat (apply elem_of_cons in H as [H|H]; [discriminate|]). by apply elem_of_nil in H. Qed.

(** A call answered by a later message is cut from its answer when a call made in between
    is still open: two asynchronous tools, the first of which is done. *)
Definition twoTools : list Message :=
  [mkMessage RoleAssistant [] [mkToolCall (bytes_of "a") (bytes_of "search") []] []; NewAsyncToolStartedMessage (bytes_of "a");
   mkMessage RoleAssistant [] [mkToolCall (bytes_of "b") (bytes_of "order") []] []; NewAsyncToolStartedMessage (bytes_of "b");
   NewAsyncToolFinalMessage (bytes_of "a") (bytes_of "found"); says RoleUser "Well?"].
Theorem cut_separates_answer :
  selectMessagesToSummarize twoTools 1 = Some (List.firstn 2 twoTools, 1)
  /\ AsyncTool.ParseAsyncToolMessage <$> twoTools !! 4%nat =
       Some (Some (mkAsync AsyncToolFinal (bytes_of "a") AsyncToolStatusFinished asyncToolFinalDescription (Some (bytes_of "found")))).
Proof. split; vm_compute; reflexivity. Qed.

(** A negative count of messages to keep, documented to be rejected, panics. *)
Theorem negative_keep_panics : Validate (mkSummaryConfig 0 (-1) [] [] Nothing 0) = Some ErrMinMessagesAfterSummary
  /\ MinMessagesAfterSummary (WithDefaults (mkSummaryConfig 0 (-1) [] [] Nothing 0)) = -1 /\ selectMessagesToSummarize talk (-1) = None.
Proof. split_and!; vm_compute; reflexivity. Qed.

(** A request of its own settings is judged by the automatic ones: asked to keep two
    messages, it is answered, and the answer not applied. *)
Theorem override_not_applied :
  let s := requestSummarization (bytes_of "r1") (Some (summaryConfig eager)) (NewSummarizer talked NewAutoSummarizationConfig false) in
  exists r, out s = [Asked r] /\ GenerateSummary annSaid r talk = Some (inr (bytes_of "Ann said hello.", 3))
  /\ option_map (fun s => messages (context s)) (handleSummaryResult (mkResult (bytes_of "r1") (bytes_of "Ann said hello.") 3 []) s) = Some talk.
Proof. intros s. eexists. split; [reflexivity|]. split; vm_compute; reflexivity. Qed.

(** A conversation put in place of the one summarized loses messages to the summary of
    the other. *)
Theorem replaced_conversation_cut :
  let s := requestSummarization (bytes_of "r1") None (NewSummarizer talked eager true) in
  let other := List.map (fun t => says RoleUser t) ["one"; "two"; "three"; "four"; "five"; "six"]%string in
  GenerateSummary annSaid (mkRequest (bytes_of "r1") 2 6000 DefaultSummarizationPrompt DefaultSummarizationTimeout) talk = Some (inr (bytes_of "Ann said hello.", 3))
  /\ option_map (fun s => List.map text (messages (context s)))
       (handleSummaryResult (mkResult (bytes_of "r1") (bytes_of "Ann said hello.") 3 []) (s <| context ::= fun c => LlmContext.SetMessages c other |>))
     = Some [bytes_of "Conversation summary: Ann said hello."; bytes_of "five"; bytes_of "six"].
Proof. intros s other. split; vm_compute; reflexivity. Qed.

(** A model that answers with spaces alone has its empty summary applied. *)
Theorem blank_summary_applied :
  GenerateSummary (fun _ _ _ => inr [32; 10]) (mkRequest (bytes_of "r1") 2 6000 [] 0) talk = Some (inr ([], 3)).
Proof. vm_compute. reflexivity. Qed.
End SummaryFacts.
