(* ===== verification/Adapters.v ===== *)
(** * Adapters

    From the universal conversation to what a provider is sent: what every adapter
    shares ([src/adapter/adapter.go]), the chat-completions format
    ([src/adapter/openai/]), its stricter dialects ([src/adapter/mistral/],
    [src/adapter/perplexity/]) and the Responses and Realtime APIs
    ([src/adapter/responses/], [src/adapter/realtime/]).

    A native message or a custom tool is a value of some type: [read] is the type
    assertion that gives it as the adapter's own.  The JSON encoding of what is sent is
    left out. *)

From S2P Require Import Prelude Text Strings LlmContext.
Import LlmContext.

Local Open Scope Z_scope.

(** ** What every adapter shares *)
Module Adapter.

Inductive ConversionError :=
| nativeTypeError (llm : gostring)
| customToolTypeError (adapter : gostring)
| argumentsError (name id : gostring).

Record Options := mkOptions {
  SystemInstruction : gostring;
  ConvertDeveloperToUser : bool;
  EnablePromptCaching : bool;
  EnsureLastMessageIsUser : bool
}.

Record Base := mkBase { warnedSystemInstruction : bool; builtins : gmap gostring Tool; builtinOrder : list gostring }.
#[export] Instance eta_Base : Eta Base := fun b => mkBase (warnedSystemInstruction b) (builtins b) (builtinOrder b).
Implicit Types (b : Base).
Definition zeroBase : Base := mkBase false ∅ [].

Definition SetBuiltin (t : Tool) b : Base :=
  let b := match builtins b !! toolName t with Some _ => b | None => b <| builtinOrder ::= fun o => o ++ [toolName t] |> end in
  b <| builtins ::= <[toolName t := t]> |>.
Definition RemoveBuiltin (name : gostring) b : bool * Base :=
  match builtins b !! name with
  | None => (false, b)
  | Some _ => (true, b <| builtins ::= delete name |> <| builtinOrder ::= List.filter (fun s => negb (bool_decide (s = name))) |>)
  end.
(** A name without a tool reads as the zero tool. *)
Definition zeroTool : Tool := mkTool [] [] [] Nothing Nothing None None None.
Definition WithBuiltins b (s : ToolsSchema) : ToolsSchema :=
  match builtinOrder b with
  | [] => s
  | o => mkSchema (Standard s ++ List.map (fun n => default zeroTool (builtins b !! n)) o) (Custom s)
  end.

Definition NativeMessage {T} (read : nativeValue -> option T) (m : Message) : ConversionError + T :=
  match read (native m) with Some v => inr v | None => inl (nativeTypeError (llm m)) end.

Definition CustomToolsFor {T} (read : Z -> option T) (s : ToolsSchema) (t : gostring) : ConversionError + list T :=
  match mapM read (CustomFor s t) with Some l => inr l | None => inl (customToolTypeError t) end.

Definition warnOnce b : Base := b <| warnedSystemInstruction := true |>.
Definition ExtractInitialSystem (system systemInstruction : gostring) (ms : list Message) b : (gostring * list Message) * Base :=
  if bool_decide (system = []) || bool_decide (ms <> []) then ((system, ms), b)
  else (([], [plain RoleUser system]), if bool_decide (systemInstruction = []) then b else warnOnce b).
Definition ResolveSystemInstruction (fromContext systemInstruction : gostring) (discard : bool) b : gostring * Base :=
  let b := if bool_decide (fromContext <> []) && bool_decide (systemInstruction <> []) then warnOnce b else b in
  (if bool_decide (systemInstruction <> []) then systemInstruction else if discard then fromContext else [], b).

(** There is something to advertise. *)
Definition advertises (s : ToolsSchema) : bool := bool_decide (Standard s <> []) || bool_decide (Custom s <> ∅).

(** Built-in tools come and go. *)
Inductive change := Offered (t : Tool) | Withdrawn (name : gostring).
Definition changed b (c : change) : Base := match c with Offered t => SetBuiltin t b | Withdrawn n => (RemoveBuiltin n b).2 end.
Record wellKept b : Prop := {
  w_once : NoDup (builtinOrder b);
  w_dom : forall n, n ∈ builtinOrder b <-> is_Some (builtins b !! n);
  w_named : forall n t, builtins b !! n = Some t -> toolName t = n
}.

Lemma set_kept t b : wellKept b -> wellKept (SetBuiltin t b).
Proof.
  intros [Hn Hd Ht]. unfold SetBuiltin. destruct (builtins b !! toolName t) eqn:E; split; cbn; try done.
  - intros n. rewrite Hd. destruct (decide (n = toolName t)) as [->|]; simplify_map_eq; [|done]. split; eauto.
  - intros n t' H. apply lookup_insert_Some in H as [[<- <-]|[_ H]]; auto.
  - apply NoDup_app. split_and!; [done| |apply NoDup_singleton]. intros n Hin ->%list_elem_of_singleton. apply Hd in Hin as [? Hin]. congruence.
  - intros n. rewrite elem_of_app, Hd, list_elem_of_singleton. destruct (decide (n = toolName t)) as [->|]; simplify_map_eq.
    + split; [by eauto|by right].
    + split; [by intros [?|?]|by left].
  - intros n t' H. apply lookup_insert_Some in H as [[<- <-]|[_ H]]; auto.
Qed.
Lemma remove_kept m b : wellKept b -> wellKept (RemoveBuiltin m b).2.
Proof.
  intros [Hn Hd Ht]. unfold RemoveBuiltin. destruct (builtins b !! m) as [told|] eqn:E; [|by split]. cbn. split; cbn.
  - apply NoDup_ListNoDup, List.NoDup_filter. by apply NoDup_ListNoDup.
  - intros n. rewrite list_elem_of_In, List.filter_In, <- list_elem_of_In, Hd, negb_true_iff, bool_decide_eq_false.
    destruct (decide (n = m)) as [->|]; simplify_map_eq; [|by split; [intros []|]]. split; [by intros []|by intros []].
  - intros n t1 H. apply lookup_delete_Some in H as [_ H]. auto.
Qed.
Lemma changed_kept cs b : wellKept b -> wellKept (fold_left changed cs b).
Proof.
  revert b. induction cs as [|[t|n] cs IH]; intros b Hb; [done|..]; apply IH; [by apply set_kept|by apply remove_kept].
Qed.

(** What is sent besides what is advertised: each tool once, under its name. *)
Lemma builtins_sent cs s : let b := fold_left changed cs zeroBase in
  exists own, Standard (WithBuiltins b s) = Standard s ++ own /\ Custom (WithBuiltins b s) = Custom s
  /\ NoDup (List.map toolName own) /\ forall n t, builtins b !! n = Some t <-> t ∈ own /\ toolName t = n.
Proof.
  intros b. assert (wellKept b) as [Hn Hd Ht].
  { apply changed_kept. split; cbn; [constructor|intros n; rewrite lookup_empty; split; [by intros ?%elem_of_nil|by intros []]|done]. }
  exists (List.map (fun n => default zeroTool (builtins b !! n)) (builtinOrder b)). split_and!.
  - unfold WithBuiltins. destruct (builtinOrder b); [by rewrite app_nil_r|done].
  - unfold WithBuiltins. by destruct (builtinOrder b).
  - rewrite List.map_map. rewrite (List.map_ext_in _ (fun n => n)); [by rewrite List.map_id|].
    intros n Hin%list_elem_of_In. apply Hd in Hin as [t E]. rewrite E. cbn. by apply Ht.
  - intros n t. split.
    + intros E. split; [|by apply Ht]. apply list_elem_of_In, List.in_map_iff. exists n. rewrite E. split; [done|]. apply list_elem_of_In, Hd. by exists t.
    + intros [(m & Em & Hin)%list_elem_of_In%List.in_map_iff <-]. apply list_elem_of_In, Hd in Hin as [t' E]. rewrite E in Em. cbn in Em. subst t'.
      by rewrite (Ht _ _ E).
Qed.
End Adapter.

(** ** Chat completions *)
Module OpenAI.
Import Adapter.

Definition RoleSystem : gostring := bytes_of "system".
Definition RoleUser : gostring := bytes_of "user".
Definition RoleAssistant : gostring := bytes_of "assistant".
Definition RoleTool : gostring := bytes_of "tool".
Definition toolTypeFunction : gostring := bytes_of "function".
Definition ContentPartText : gostring := bytes_of "text".

Record ContentPart := mkPart { cpType : gostring; cpText : gostring }.
Definition TextPart (t : gostring) : ContentPart := mkPart ContentPartText t.
Record ToolCall := mkCall { cID : gostring; cType : gostring; cName : gostring; cArguments : gostring }.
(** A value set beside the modelled fields. *)
Inductive extra := ETrue | EForeign (n : nat).
Record Message := mkMsg {
  Role : gostring;
  Content : gostring;
  ToolCalls : list ToolCall;
  ToolCallID : gostring;
  ContentParts : list ContentPart;
  Extra : gmap gostring extra
}.
#[export] Instance eta_Message : Eta Message := fun m =>
  mkMsg (Role m) (Content m) (ToolCalls m) (ToolCallID m) (ContentParts m) (Extra m).
Definition says (r t : gostring) : Message := mkMsg r t [] [] [] ∅.

Definition Parts (m : Message) : list ContentPart := match ContentParts m with [] => [TextPart (Content m)] | ps => ps end.

Definition isSystem (m : Message) : bool := bool_decide (Role m = RoleSystem).
Definition demote (m : Message) : Message := if isSystem m then m <| Role := RoleUser |> else m.
Fixpoint DemoteLateSystem (ms : list Message) : list Message :=
  match ms with
  | [] => []
  | m :: rest => if isSystem m then m :: DemoteLateSystem rest else m :: List.map demote rest
  end.

Definition assistantToolCalls (m : LlmContext.Message) : Message :=
  mkMsg RoleAssistant (text m)
    (List.map (fun c => mkCall (tcID c) toolTypeFunction (tcName c) (match tcArgs c with [] => bytes_of "{}" | a => a end)) (toolCalls m)) [] [] ∅.

Section Conversion.
Context (read : nativeValue -> option Message).

Definition toMessages1 (convertDeveloperToUser : bool) (m : LlmContext.Message) : ConversionError + list Message :=
  if IsLLMSpecific m then match NativeMessage read m with inl e => inl e | inr n => inr [n] end
  else match toolResults m, toolCalls m with
       | _ :: _, _ => inr (List.map (fun r => mkMsg RoleTool (trContent r) [] (trID r) [] ∅) (toolResults m))
       | [], _ :: _ => inr [assistantToolCalls m]
       | [], [] =>
         let role := if convertDeveloperToUser && bool_decide (role m = RoleDeveloper) then RoleUser else roleName (role m) in
         inr [says role (text m)]
       end.
Fixpoint ToMessages (convertDeveloperToUser : bool) (ms : list LlmContext.Message) : ConversionError + list Message :=
  match ms with
  | [] => inr []
  | m :: ms => match toMessages1 convertDeveloperToUser m with
               | inl e => inl e
               | inr l => match ToMessages convertDeveloperToUser ms with inl e => inl e | inr out => inr (l ++ out) end
               end
  end.

Inductive Tool := Function (name description parameters : gostring) | Raw (n : Z).
Definition openAIKey : gostring := bytes_of "openai".
Definition ToProviderToolsFormat (readTool : Z -> option Tool) (s : ToolsSchema) : list Tool :=
  let out := List.map (fun t => Function (toolName t) (description t) (parameters t)) (Standard s) in
  match CustomToolsFor readTool s openAIKey with inl _ => out | inr custom => out ++ custom end.

Record Params := mkParams { Messages : list Message; Tools : list Tool; ToolChoice : gostring }.
#[export] Instance eta_Params : Eta Params := fun p => mkParams (Messages p) (Tools p) (ToolChoice p).

Definition LLMInvocationParams (readTool : Z -> option Tool) (c : LLMContext) (o : Options) (b : Base) : (ConversionError + Params) * Base :=
  let sys := System c in
  let '(instruction, b) := ResolveSystemInstruction sys (SystemInstruction o) false b in
  let lead := (match instruction with [] => [] | i => [says RoleSystem i] end) ++ (match sys with [] => [] | t => [says RoleSystem t] end) in
  match ToMessages (ConvertDeveloperToUser o) (MessagesFor c openAIKey) with
  | inl e => (inl e, b)
  | inr converted =>
    let tools := WithBuiltins b (LlmContext.tools c) in
    (inr (if advertises tools then mkParams (lead ++ converted) (ToProviderToolsFormat readTool tools) (LlmContext.ToolChoice c)
          else mkParams (lead ++ converted) [] []), b)
  end.
End Conversion.

(** A system message is behind none but system messages. *)
Fixpoint systemLeads (ms : list Message) : bool :=
  match ms with [] => true | m :: rest => if isSystem m then systemLeads rest else forallb (fun m => negb (isSystem m)) rest end.
Lemma demote_role m : isSystem (demote m) = false.
Proof. unfold demote. destruct (isSystem m) eqn:E; [|done]. reflexivity. Qed.
Lemma demote_leads ms : systemLeads (DemoteLateSystem ms) = true.
Proof.
  induction ms as [|m ms IH]; [done|]. cbn. destruct (isSystem m) eqn:E; cbn; rewrite E; [done|].
  apply forallb_forall. intros x (y & <- & _)%List.in_map_iff. by rewrite demote_role.
Qed.
(** Nothing but roles changes, and those from system to user only. *)
Lemma DemoteLateSystem_only ms : Forall2 (fun m m' => m' = m \/ (isSystem m = true /\ m' = m <| Role := RoleUser |>)) ms (DemoteLateSystem ms).
Proof.
  induction ms as [|m ms IH]; [constructor|]. cbn. destruct (isSystem m) eqn:E; constructor; auto.
  clear. induction ms as [|m ms IH]; cbn; constructor; [|done]. unfold demote. destruct (isSystem m) eqn:E; auto.
Qed.
End OpenAI.

(** ** Mistral's dialect *)
Module Mistral.
Import OpenAI.

Definition blank : Message := says RoleAssistant [32].
Definition isTool (m : Message) : bool := bool_decide (Role m = RoleTool).
Definition isAssistant (m : Message) : bool := bool_decide (Role m = RoleAssistant).
Definition assistantNext (rest : list Message) : bool := match rest with n :: _ => isAssistant n | [] => false end.
Fixpoint answerTools (ms : list Message) : list Message :=
  match ms with
  | [] => []
  | m :: rest => m :: (if isTool m && negb (assistantNext rest) then [blank] else []) ++ answerTools rest
  end.
Definition prefixKey : gostring := bytes_of "prefix".
Definition markPrefix (m : Message) : Message :=
  if isAssistant m then match Extra m !! prefixKey with Some _ => m | None => m <| Extra ::= <[prefixKey := ETrue]> |> end else m.
Definition onLast (f : Message -> Message) (ms : list Message) : list Message :=
  match last ms with Some m => List.removelast ms ++ [f m] | None => [] end.
Definition TransformMessages (ms : list Message) : list Message :=
  match ms with [] => [] | _ => onLast markPrefix (DemoteLateSystem (answerTools ms)) end.

(** What the API asks of a conversation. *)
Fixpoint toolsAnswered (ms : list Message) : bool :=
  match ms with [] => true | m :: rest => (negb (isTool m) || assistantNext rest) && toolsAnswered rest end.
Definition prefixed (ms : list Message) : Prop := forall m, last ms = Some m -> isAssistant m = true -> is_Some (Extra m !! prefixKey).

Lemma answerTools_answered ms : toolsAnswered (answerTools ms) = true.
Proof.
  induction ms as [|m ms IH]; [done|]. cbn. destruct (isTool m && negb (assistantNext ms)) eqn:E; cbn.
  - rewrite IH. destruct (isTool m); by rewrite ?orb_true_r.
  - rewrite IH, andb_true_r. destruct (isTool m); [|done]. cbn [negb andb orb] in *. apply negb_false_iff in E. by destruct ms as [|n ms].
Qed.
Lemma same_roles_answered a b : List.map isTool a = List.map isTool b -> List.map isAssistant a = List.map isAssistant b -> toolsAnswered a = toolsAnswered b.
Proof.
  revert b. induction a as [|m a IH]; intros [|n b] H1 H2; try done. injection H1 as E1 H1. injection H2 as E2 H2. cbn. rewrite E1, (IH b H1 H2). f_equal. f_equal.
  destruct a, b; try done. cbn in *. congruence.
Qed.
Lemma demote_roles ms : List.map isTool (DemoteLateSystem ms) = List.map isTool ms /\ List.map isAssistant (DemoteLateSystem ms) = List.map isAssistant ms.
Proof.
  pose proof (DemoteLateSystem_only ms) as H. revert H. generalize (DemoteLateSystem ms). intros l. induction 1 as [|m m' ms l [->|[Hs ->]] _ [IH1 IH2]]; cbn; [done|by rewrite IH1, IH2|].
  rewrite IH1, IH2. unfold isTool, isAssistant, isSystem in *. apply bool_decide_eq_true in Hs. cbn. by rewrite Hs.
Qed.
Lemma onLast_snoc f l m : onLast f (l ++ [m]) = l ++ [f m].
Proof. unfold onLast. by rewrite last_snoc, List.removelast_last. Qed.
Lemma markPrefix_role m : Role (markPrefix m) = Role m /\ Content (markPrefix m) = Content m.
Proof. unfold markPrefix. by destruct (isAssistant m), (Extra m !! prefixKey). Qed.

Lemma systemLeads_roles a b : List.map isSystem a = List.map isSystem b -> systemLeads a = systemLeads b.
Proof.
  revert b. induction a as [|m a IH]; intros [|n b] H; try done. injection H as E H. cbn. rewrite E, (IH b H). destruct (isSystem n); [done|].
  clear IH E. revert b H. induction a as [|x a IH]; intros [|y b] H; try done. injection H as E H. cbn. by rewrite E, (IH b H).
Qed.

(** Whatever the conversation, Mistral is sent one it accepts: a tool result is
    followed by an assistant message, system messages only lead, a reply to be continued
    is marked as one; and nothing that was said is missing or out of order. *)
Theorem mistral_accepted ms : toolsAnswered (TransformMessages ms) = true /\ systemLeads (TransformMessages ms) = true
  /\ prefixed (TransformMessages ms) /\ sublist (List.map Content ms) (List.map Content (TransformMessages ms)).
Proof.
  destruct ms as [|m0 ms0]; [by split_and!|]. unfold TransformMessages. set (ms := m0 :: ms0).
  assert (sublist (List.map Content ms) (List.map Content (DemoteLateSystem (answerTools ms)))) as Hsub.
  { transitivity (List.map Content (answerTools ms)).
    - clear. induction ms as [|m ms IH]; [done|]. cbn. apply sublist_skip. destruct (_ && _); [by apply sublist_cons|done].
    - apply reflexive_eq. pose proof (DemoteLateSystem_only (answerTools ms)) as H. revert H. generalize (DemoteLateSystem (answerTools ms)). intros l.
      induction 1 as [|a b l1 l2 [->|[_ ->]] _ IH]; [done|..]; cbn; by rewrite IH. }
  assert (toolsAnswered (DemoteLateSystem (answerTools ms)) = true) as Ht.
  { rewrite (same_roles_answered _ (answerTools ms)); [apply answerTools_answered|apply demote_roles..]. }
  pose proof (demote_leads (answerTools ms)) as Hl. revert Hsub Ht Hl. generalize (DemoteLateSystem (answerTools ms)). intros l Hsub Ht Hl.
  destruct l as [|m l _] using rev_ind; [by cbn in Hsub; apply sublist_nil_r in Hsub|]. rewrite onLast_snoc. destruct (markPrefix_role m) as [Hr Hc]. split_and!.
  - rewrite (same_roles_answered _ (l ++ [m])); [done|..]; rewrite !List.map_app; cbn; unfold isTool, isAssistant; by rewrite Hr.
  - rewrite (systemLeads_roles _ (l ++ [m])); [done|]. rewrite !List.map_app. cbn. unfold isSystem. by rewrite Hr.
  - intros x Hx Ha. rewrite last_snoc in Hx. injection Hx as <-. unfold isAssistant in Ha. rewrite Hr in Ha. fold (isAssistant m) in Ha.
    unfold markPrefix. rewrite Ha. destruct (Extra m !! prefixKey) eqn:E; [by rewrite E|]. cbn. by simplify_map_eq.
  - rewrite List.map_app in Hsub |- *. cbn in *. by rewrite Hc.
Qed.
End Mistral.

(** ** Perplexity's dialect *)
Module Perplexity.
Import OpenAI Mistral.

Definition merge (l m : Message) : Message := l <| ContentParts := Parts l ++ Parts m |> <| Content := [] |>.
Definition mergeOne (out : list Message) (m : Message) : list Message :=
  match last out with
  | None => [m]
  | Some l => if negb (bool_decide (Role l = Role m)) || isSystem m then out ++ [m] else List.removelast out ++ [merge l m]
  end.
Definition mergeSameRole (ms : list Message) : list Message := fold_left mergeOne ms [].
Definition dropTrailingAssistant (ms : list Message) : list Message := List.rev (dropWhile isAssistant (List.rev ms)).
Definition TransformMessages (ms : list Message) : list Message := dropTrailingAssistant (mergeSameRole (DemoteLateSystem ms)).

(** Neighbours have different roles, or are the system messages that lead. *)
Fixpoint alternates (ms : list Message) : bool :=
  match ms with
  | m :: (n :: _) as rest => (negb (bool_decide (Role m = Role n)) || isSystem n) && alternates rest
  | _ => true
  end.

Lemma roles_alternate_snoc l m : alternates (l ++ [m]) = alternates l && match last l with Some p => negb (bool_decide (Role p = Role m)) || isSystem m | None => true end.
Proof.
  induction l as [|a l IH]; [done|]. destruct l as [|b l]; [cbn; by rewrite andb_true_r|].
  change ((a :: b :: l) ++ [m]) with (a :: ((b :: l) ++ [m])). change (last (a :: b :: l)) with (last (b :: l)).
  cbn [alternates app]. cbn [alternates app] in IH. rewrite IH. by rewrite andb_assoc.
Qed.
Lemma alternates_prefix a b : alternates (a ++ b) = true -> alternates a = true.
Proof.
  induction b as [|m b IH] using rev_ind; [by rewrite app_nil_r|]. rewrite app_assoc, roles_alternate_snoc. intros [H _]%andb_prop. by apply IH.
Qed.
Lemma merge_role l m : Role (merge l m) = Role l.
Proof. done. Qed.
Lemma mergeOne_alternates out m : alternates out = true -> alternates (mergeOne out m) = true.
Proof.
  intros H. unfold mergeOne. destruct out as [|p out _] using rev_ind; [done|]. rewrite last_snoc. destruct (_ || _) eqn:E.
  - by rewrite roles_alternate_snoc, H, last_snoc.
  - rewrite List.removelast_last. rewrite roles_alternate_snoc in H |- *. destruct (last out); [|done]. cbn [isSystem] in *. unfold isSystem in *. by rewrite merge_role.
Qed.

(** System messages still only lead when a message goes. *)
Lemma systemLeads_drop a m b : isSystem m = false -> systemLeads (a ++ m :: b) = true -> systemLeads (a ++ b) = true.
Proof.
  intros Hm. induction a as [|x a IH]; cbn.
  - rewrite Hm. clear. induction b as [|y b IH]; [done|]. cbn. intros [H1 H2]%andb_prop. by destruct (isSystem y).
  - destruct (isSystem x); [done|]. rewrite !forallb_app. cbn. rewrite !andb_true_iff. tauto.
Qed.
Lemma systemLeads_prefix a b : systemLeads (a ++ b) = true -> systemLeads a = true.
Proof.
  induction a as [|x a IH]; [done|]. cbn. destruct (isSystem x); [done|]. rewrite forallb_app. by intros [? _]%andb_prop.
Qed.
Lemma mergeOne_leads out m rest : systemLeads (out ++ m :: rest) = true -> systemLeads (mergeOne out m ++ rest) = true.
Proof.
  unfold mergeOne. destruct out as [|p out _] using rev_ind; [done|]. rewrite last_snoc. destruct (_ || _) eqn:E; [by rewrite <- (app_assoc _ [m])|].
  apply orb_false_iff in E as [Er Em]. intros H. apply systemLeads_drop in H; [|done]. rewrite List.removelast_last.
  rewrite (systemLeads_roles _ ((out ++ [p]) ++ rest)); [done|]. rewrite !List.map_app. cbn. unfold isSystem. by rewrite merge_role.
Qed.
Lemma mergeOne_parts out m : List.concat (List.map Parts (mergeOne out m)) = List.concat (List.map Parts out) ++ Parts m.
Proof.
  unfold mergeOne. destruct out as [|p out _] using rev_ind; [cbn; by rewrite app_nil_r|]. rewrite last_snoc. destruct (_ || _) eqn:E.
  - rewrite List.map_app, List.concat_app. cbn. by rewrite app_nil_r.
  - rewrite List.removelast_last, !List.map_app, !List.concat_app. cbn. rewrite !app_nil_r, <- app_assoc. f_equal. unfold merge. cbn.
    unfold Parts at 1. cbn. destruct (Parts p) eqn:Ep; [|done]. unfold Parts in Ep. by destruct (ContentParts p).
Qed.

Lemma demote_parts ms : List.concat (List.map Parts (DemoteLateSystem ms)) = List.concat (List.map Parts ms).
Proof.
  pose proof (DemoteLateSystem_only ms) as H. revert H. generalize (DemoteLateSystem ms). intros l.
  induction 1 as [|a b l1 l2 [->|[_ ->]] _ IH]; [done|..]; cbn [List.map List.concat]; by rewrite IH.
Qed.
Lemma merge_fold ms : forall out, alternates out = true -> systemLeads (out ++ ms) = true ->
  let r := fold_left mergeOne ms out in
  alternates r = true /\ systemLeads r = true /\ List.concat (List.map Parts r) = List.concat (List.map Parts out) ++ List.concat (List.map Parts ms).
Proof.
  induction ms as [|m ms IH]; intros out Ha Hs; cbn.
  - rewrite app_nil_r in *. by split_and!.
  - destruct (IH (mergeOne out m)) as (H1 & H2 & H3); [by apply mergeOne_alternates|by apply mergeOne_leads|]. split_and!; [done..|].
    rewrite H3, mergeOne_parts. by rewrite <- app_assoc.
Qed.

(** Whatever the conversation, Perplexity is sent one it accepts: roles
    alternate behind the leading system messages, and it does not end on the
    assistant's; and every text is there, in order, but for what the conversation ended
    on the assistant saying. *)
Theorem perplexity_accepted ms : alternates (TransformMessages ms) = true /\ systemLeads (TransformMessages ms) = true
  /\ (forall m, last (TransformMessages ms) = Some m -> isAssistant m = false)
  /\ exists trailing, Forall (fun m => isAssistant m = true) trailing
     /\ List.concat (List.map Parts (TransformMessages ms ++ trailing)) = List.concat (List.map Parts ms).
Proof.
  unfold TransformMessages, mergeSameRole.
  destruct (merge_fold (DemoteLateSystem ms) [] eq_refl (demote_leads ms)) as (Ha & Hs & Hp). cbn [List.map List.concat app] in Hp.
  assert (List.concat (List.map Parts (DemoteLateSystem ms)) = List.concat (List.map Parts ms)) as Hd.
  { by apply demote_parts. }
  rewrite Hd in Hp. revert Ha Hs Hp. generalize (fold_left mergeOne (DemoteLateSystem ms) []). intros l Ha Hs Hp. unfold dropTrailingAssistant.
  destruct (dropWhile_split isAssistant (List.rev l)) as (pre & E & Hpre). set (kept := dropWhile isAssistant (List.rev l)) in *.
  assert (l = List.rev kept ++ List.rev pre) as El by (rewrite <- List.rev_app_distr, <- E; by rewrite List.rev_involutive).
  rewrite El in Ha, Hs, Hp. split_and!.
  - by apply alternates_prefix in Ha.
  - by apply systemLeads_prefix in Hs.
  - intros m Hm. destruct kept as [|k kept'] eqn:Ek; [done|]. cbn in Hm. rewrite last_snoc in Hm. injection Hm as <-.
    assert (forall l0 x l1, dropWhile isAssistant l0 = x :: l1 -> isAssistant x = false) as Hx.
    { clear. induction l0 as [|a l0 IH]; intros x l1 H; [done|]. cbn in H. destruct (isAssistant a) eqn:Ea; [by eapply IH|]. by injection H as <- _. }
    by eapply Hx.
  - exists (List.rev pre). split; [|done]. by apply Forall_rev.
Qed.

(** A call asked for right behind something said is dropped, its answer is not. *)
Theorem merged_call_lost :
  TransformMessages [says RoleUser [97]; says RoleAssistant [98]; mkMsg RoleAssistant [] [mkCall [49] toolTypeFunction [102] (bytes_of "{}")] [] [] ∅; mkMsg RoleTool [99] [] [49] [] ∅]
  = [says RoleUser [97]; mkMsg RoleAssistant [] [] [] [TextPart [98]; TextPart []] ∅; mkMsg RoleTool [99] [] [49] [] ∅].
Proof. reflexivity. Qed.
(** Of two results in a row the second is given out as the first call's. *)
Theorem merged_results_one_id :
  TransformMessages [mkMsg RoleTool [97] [] [49] [] ∅; mkMsg RoleTool [98] [] [50] [] ∅] = [mkMsg RoleTool [] [] [49] [TextPart [97]; TextPart [98]] ∅].
Proof. reflexivity. Qed.
(** A trailing system message is demoted like any other. *)
Theorem trailing_system_demoted : List.map Role (TransformMessages [says RoleUser [97]; says RoleTool [98]; says RoleSystem [99]]) = [RoleUser; RoleTool; RoleUser].
Proof. reflexivity. Qed.
End Perplexity.

(** ** The Responses API *)
Module Responses.
Import Adapter.

Definition RoleUser : gostring := bytes_of "user".
Definition RoleAssistant : gostring := bytes_of "assistant".
Definition RoleDeveloper : gostring := bytes_of "developer".

(** One entry of the input; what an entry of another type leaves unset is left out. *)
Inductive InputItem :=
| ItemMessage (role content : gostring)
| ItemFuncCall (callID name arguments : gostring)
| ItemFuncOutput (callID output : gostring)
| ItemOther (n : nat).

Definition inputRole (r : Role) : gostring :=
  match r with RoleSystem | LlmContext.RoleDeveloper => RoleDeveloper | LlmContext.RoleAssistant => RoleAssistant | _ => RoleUser end.
Definition toolCallItems (m : Message) : list InputItem :=
  (match text m with [] => [] | t => [ItemMessage RoleAssistant t] end)
  ++ List.map (fun c => ItemFuncCall (tcID c) (tcName c) (match tcArgs c with [] => bytes_of "{}" | a => a end)) (toolCalls m).

Section Conversion.
Context (read : nativeValue -> option InputItem).
Definition toInput1 (m : Message) : ConversionError + list InputItem :=
  if IsLLMSpecific m then match NativeMessage read m with inl e => inl e | inr n => inr [n] end
  else match toolResults m, toolCalls m with
       | _ :: _, _ => inr (List.map (fun r => ItemFuncOutput (trID r) (trContent r)) (toolResults m))
       | [], _ :: _ => inr (toolCallItems m)
       | [], [] => inr [ItemMessage (inputRole (role m)) (text m)]
       end.
Fixpoint ToInput (ms : list Message) : ConversionError + list InputItem :=
  match ms with
  | [] => inr []
  | m :: ms => match toInput1 m with
               | inl e => inl e
               | inr l => match ToInput ms with inl e => inl e | inr out => inr (l ++ out) end
               end
  end.

Inductive Tool := Function (name description parameters : gostring) | Raw (n : Z).
Definition ToProviderToolsFormat (readTool : Z -> option Tool) (s : ToolsSchema) : list Tool :=
  let out := List.map (fun t => Function (toolName t) (description t) (parameters t)) (Standard s) in
  match CustomToolsFor readTool s OpenAI.openAIKey with inl _ => out | inr custom => out ++ custom end.
Record Params := mkParams { Input : list InputItem; Instructions : gostring; Tools : list Tool }.
Definition LLMInvocationParams (readTool : Z -> option Tool) (c : LLMContext) (o : Options) (b : Base) : (ConversionError + Params) * Base :=
  let '(instructions, b) := ResolveSystemInstruction (System c) (SystemInstruction o) true b in
  match ToInput (MessagesFor c OpenAI.openAIKey) with
  | inl e => (inl e, b)
  | inr input =>
    let '(input, instructions) :=
      if bool_decide (instructions <> []) && bool_decide (input = []) then ([ItemMessage RoleDeveloper instructions], []) else (input, instructions) in
    let tools := WithBuiltins b (LlmContext.tools c) in
    (inr (mkParams input instructions (if advertises tools then ToProviderToolsFormat readTool tools else [])), b)
  end.
End Conversion.

#[export] Instance InputItem_dec : EqDecision InputItem.
Proof. solve_decision. Defined.

(** The instructions reach the model, and never beside nothing. *)
Lemma instructions_sent read readTool c o b p b' : LLMInvocationParams read readTool c o b = (inr p, b') ->
  let i := if bool_decide (SystemInstruction o <> []) then SystemInstruction o else System c in
  i <> [] -> Input p <> [] /\ (Instructions p = i \/ Input p = [ItemMessage RoleDeveloper i]).
Proof.
  unfold LLMInvocationParams, ResolveSystemInstruction. set (i := if bool_decide (SystemInstruction o <> []) then _ else _).
  destruct (ToInput read _) as [e|input]; [done|]. destruct (bool_decide (i <> []) && bool_decide (input = [])) eqn:E; intros [= <- _]; cbn; [auto|].
  intros Hi. split; [|by left]. apply andb_false_iff in E as [E|E]; apply bool_decide_eq_false in E; [by destruct E|done].
Qed.
End Responses.

(** ** Realtime sessions *)
Module Realtime.
Import Adapter.
Inductive Tool := Spec (name : gostring) (description parameters : option gostring) | Raw (n : Z).
Definition unlessEmpty (s : gostring) : option gostring := match s with [] => None | _ => Some s end.
Definition ToProviderToolsFormat (readTool : Z -> option Tool) (s : ToolsSchema) : list Tool :=
  let out := List.map (fun t => Spec (toolName t) (unlessEmpty (description t)) (unlessEmpty (parameters t))) (Standard s) in
  match CustomToolsFor readTool s OpenAI.openAIKey with inl _ => out | inr custom => out ++ custom end.
Record Params := mkParams { Tools : list Tool; ToolChoice : gostring }.
Definition SessionParams (readTool : Z -> option Tool) (s : ToolsSchema) (choice : gostring) (b : Base) : Params :=
  mkParams (ToProviderToolsFormat readTool (WithBuiltins b s)) (match choice with [] => ToolChoiceAuto | c => c end).
Definition Session (p : Params) : option (list Tool * gostring) := match Tools p with [] => None | ts => Some (ts, ToolChoice p) end.
Definition LLMInvocationParams (readTool : Z -> option Tool) (c : LLMContext) (b : Base) : Params :=
  SessionParams readTool (LlmContext.tools c) (LlmContext.ToolChoice c) b.
End Realtime.
