(* ===== verification/AnthropicAdapter.v ===== *)
(** * AnthropicAdapter

    The request Anthropic takes: [src/adapter/anthropic/anthropic.go].  Content blocks are
    those the code builds or looks into; a block of another kind is known by a number.
    Native messages are values of the types of [thoughtOf] and [messageOf], the type
    assertions on them.  How a tool's schema is rendered is left out. *)

From S2P Require Import Prelude Text Strings LlmContext Json Adapters SummaryFacts.
Import LlmContext Adapter.

Local Open Scope Z_scope.

Module Anthropic.

Inductive block :=
| TextBlock (t : gostring) (cached : bool)
| ToolResultBlock (id content : gostring) (cached : bool)
| ImageBlock (n : nat) (cached : bool)
| ToolUseBlock (id : gostring) (input : gostring) (name : gostring)
| ThinkingBlock (signature t : gostring)
| OtherBlock (n : nat).
Inductive aRole := User | Assistant.
#[export] Instance aRole_dec : EqDecision aRole.
Proof. solve_decision. Defined.
Record MessageParam := mkParam { Role : aRole; Content : list block }.
#[export] Instance eta_Param : Eta MessageParam := fun m => mkParam (Role m) (Content m).

Definition emptyText : gostring := bytes_of "(empty)".
Definition noOpUserTurn : gostring := bytes_of ".".
Definition textOf (s : gostring) : gostring := match s with [] => emptyText | _ => s end.
Definition NewTextBlock (s : gostring) : block := TextBlock s false.

Record Thought := mkThought { Text : gostring; Signature : gostring }.

Section Conversion.
Context (thoughtOf : nat -> option Thought) (messageOf : nat -> option MessageParam).
Definition asThought (v : nativeValue) : option Thought := match v with Foreign n => thoughtOf n | _ => None end.
Definition asMessage (v : nativeValue) : option MessageParam := match v with Foreign n => messageOf n | _ => None end.

(** A message, or none to send, or why not. *)
Definition nativeMessage (m : Message) : ConversionError + option MessageParam :=
  match asThought (native m) with
  | Some t => match Signature t with [] => inr None | s => inr (Some (mkParam Assistant [ThinkingBlock s (Text t)])) end
  | None => match NativeMessage asMessage m with inl e => inl e | inr n => inr (Some n) end
  end.

Definition Valid (args : gostring) : bool := match Json.parse args with Some _ => true | None => false end.
Definition toolUse (c : ToolCall) : ConversionError + block :=
  match tcArgs c with
  | [] => inr (ToolUseBlock (tcID c) (bytes_of "{}") (tcName c))
  | a => if Valid a then inr (ToolUseBlock (tcID c) a (tcName c)) else inl (argumentsError (tcName c) (tcID c))
  end.
Fixpoint toolUses (cs : list ToolCall) : ConversionError + list block :=
  match cs with
  | [] => inr []
  | c :: cs => match toolUse c with
               | inl e => inl e
               | inr b => match toolUses cs with inl e => inl e | inr bs => inr (b :: bs) end
               end
  end.
Definition toolCallMessage (m : Message) : ConversionError + MessageParam :=
  match toolUses (toolCalls m) with inl e => inl e | inr bs => inr (mkParam Assistant bs) end.

Definition toMessage (m : Message) : ConversionError + option MessageParam :=
  if IsLLMSpecific m then nativeMessage m
  else match toolResults m, toolCalls m with
       | _ :: _, _ => inr (Some (mkParam User (List.map (fun r => ToolResultBlock (trID r) (trContent r) false) (toolResults m))))
       | [], _ :: _ => match toolCallMessage m with inl e => inl e | inr p => inr (Some p) end
       | [], [] => inr (Some (mkParam (if bool_decide (role m = RoleAssistant) then Assistant else User) [NewTextBlock (textOf (text m))]))
       end.
Fixpoint converted (ms : list Message) : ConversionError + list MessageParam :=
  match ms with
  | [] => inr []
  | m :: ms => match toMessage m with
               | inl e => inl e
               | inr p => match converted ms with inl e => inl e | inr out => inr (option_list p ++ out) end
               end
  end.

Definition mergeOne (out : list MessageParam) (m : MessageParam) : list MessageParam :=
  match last out with
  | Some l => if bool_decide (Role l = Role m) then List.removelast out ++ [l <| Content ::= fun c => c ++ Content m |>] else out ++ [m]
  | None => [m]
  end.
Definition fill (m : MessageParam) : MessageParam := match Content m with [] => m <| Content := [NewTextBlock emptyText] |> | _ => m end.
Definition mergeSameRole (ms : list MessageParam) : list MessageParam := List.map fill (fold_left mergeOne ms []).
Definition ToMessages (ms : list Message) : ConversionError + list MessageParam :=
  match converted ms with inl e => inl e | inr out => inr (mergeSameRole out) end.

Definition EnsureLastUser (ms : list MessageParam) : list MessageParam :=
  match last ms with
  | Some m => if decide (Role m = Assistant) then ms ++ [mkParam User [NewTextBlock noOpUserTurn]] else ms
  | None => ms
  end.

Definition markCacheControl (b : block) : option block :=
  match b with
  | TextBlock t _ => Some (TextBlock t true)
  | ToolResultBlock i c _ => Some (ToolResultBlock i c true)
  | ImageBlock n _ => Some (ImageBlock n true)
  | _ => None
  end.
Definition markMessage (m : MessageParam) : option MessageParam :=
  if decide (Role m = User) then
    match last (Content m) with
    | Some b => match markCacheControl b with Some b => Some (m <| Content ::= fun c => List.removelast c ++ [b] |>) | None => None end
    | None => None
    end
  else None.
(** From the end back, [n] markers at most. *)
Fixpoint markFrom (n : nat) (ms : list MessageParam) : list MessageParam :=
  match n, ms with
  | S n', m :: rest => match markMessage m with Some m => m :: markFrom n' rest | None => m :: markFrom n rest end
  | _, _ => ms
  end.
Definition WithCacheControlMarkers (ms : list MessageParam) : list MessageParam := List.rev (markFrom 2 (List.rev ms)).

Definition systemBlocks (c : LLMContext) (fromContext : gostring) (o : Options) (b : Base) : list block * Base :=
  let '(resolved, b) := ResolveSystemInstruction fromContext (SystemInstruction o) true b in
  (match resolved with
   | [] => []
   | _ => if negb (EnablePromptCaching o) || negb (bool_decide (resolved = fromContext)) then [NewTextBlock resolved]
          else let '(stable, volatile) := SystemParts c in
               (match stable with [] => [] | s => [TextBlock s true] end) ++ (match volatile with [] => [] | v => [NewTextBlock v] end)
   end, b).

(** The tools advertised are those of [WithBuiltins]. *)
Record Params := mkParams { System_ : list block; Messages : list MessageParam; Tools_ : list Tool }.
Definition LLMInvocationParams (c : LLMContext) (o : Options) (b : Base) : (ConversionError + Params) * Base :=
  let '((fromContext, ms), b) := ExtractInitialSystem (System c) (SystemInstruction o) (MessagesFor c (bytes_of "anthropic")) b in
  match ToMessages ms with
  | inl e => (inl e, b)
  | inr out =>
    let out := if EnsureLastMessageIsUser o then EnsureLastUser out else out in
    let out := if EnablePromptCaching o then WithCacheControlMarkers out else out in
    let '(sys, b) := systemBlocks c fromContext o b in
    let tools := WithBuiltins b (LlmContext.tools c) in
    (inr (mkParams sys out (if advertises tools then Standard tools else [])), b)
  end.

(** ** What Anthropic asks of a conversation *)

Fixpoint alternates (ms : list MessageParam) : bool :=
  match ms with m :: (n :: _) as rest => negb (bool_decide (Role m = Role n)) && alternates rest | _ => true end.
Definition useOf (b : block) : option gostring := match b with ToolUseBlock i _ _ => Some i | _ => None end.
Definition resultOf (b : block) : option gostring := match b with ToolResultBlock i _ _ => Some i | _ => None end.
Definition uses (m : MessageParam) : list gostring := omap useOf (Content m).
Definition results (m : MessageParam) : list gostring := omap resultOf (Content m).
(** The results come first, and answer just what the message before asks for. *)
Fixpoint resultsFirst (c : list block) : bool :=
  match c with [] => true | b :: c => match resultOf b with Some _ => resultsFirst c | None => bool_decide (omap resultOf c = []) end end.
Definition answered (ms : list MessageParam) : Prop :=
  [] :: List.map uses ms = List.map results ms ++ [[]] /\ Forall (fun m => resultsFirst (Content m) = true) ms.


(** ** What is sent is what it asks for *)

Lemma params_alternate_snoc l m : alternates (l ++ [m]) = alternates l && match last l with Some p => negb (bool_decide (Role p = Role m)) | None => true end.
Proof.
  induction l as [|a l IH]; [done|]. destruct l as [|b l]; [cbn; by rewrite andb_true_r|].
  change ((a :: b :: l) ++ [m]) with (a :: ((b :: l) ++ [m])). change (last (a :: b :: l)) with (last (b :: l)).
  transitivity (negb (bool_decide (Role a = Role b)) && alternates ((b :: l) ++ [m])); [done|]. rewrite IH. by rewrite andb_assoc.
Qed.
Lemma alternates_roles a b : List.map Role a = List.map Role b -> alternates a = alternates b.
Proof.
  revert b. induction a as [|m a IH]; intros [|n b] H; try done. injection H as E H. specialize (IH b H).
  destruct a as [|m' a], b as [|n' b]; try done. injection H as E' _. transitivity (negb (bool_decide (Role m = Role m')) && alternates (m' :: a)); [done|]. by rewrite IH, E, E'.
Qed.
Lemma mergeOne_snoc out p m : mergeOne (out ++ [p]) m =
  if decide (Role p = Role m) then out ++ [p <| Content ::= fun c => c ++ Content m |>] else out ++ [p] ++ [m].
Proof. unfold mergeOne. rewrite last_snoc, List.removelast_last. destruct (decide _) as [E|E]; [by rewrite bool_decide_eq_true_2|by rewrite bool_decide_eq_false_2, <- app_assoc]. Qed.

Lemma mergeParam_alternates out m : alternates out = true -> alternates (mergeOne out m) = true.
Proof.
  destruct out as [|p out _] using rev_ind; [done|]. rewrite mergeOne_snoc. intros H. destruct (decide _) as [E|E].
  - by rewrite (alternates_roles _ (out ++ [p])) by by rewrite !List.map_app.
  - by rewrite app_assoc, params_alternate_snoc, H, last_snoc, bool_decide_eq_false_2.
Qed.
Definition tagged (ms : list MessageParam) : list (aRole * block) := List.concat (List.map (fun m => List.map (pair (Role m)) (Content m)) ms).
Lemma mergeOne_tagged out m : tagged (mergeOne out m) = tagged out ++ List.map (pair (Role m)) (Content m).
Proof.
  unfold tagged. destruct out as [|p out _] using rev_ind; [cbn; by rewrite app_nil_r|]. rewrite mergeOne_snoc. destruct (decide _) as [E|E];
    rewrite !List.map_app, !List.concat_app; cbn; rewrite !app_nil_r, <- app_assoc; [|done]. f_equal. by rewrite List.map_app, E.
Qed.

(** Requests and results keep together. *)
Lemma resultsFirst_app c d : resultsFirst c = true -> omap resultOf d = [] -> resultsFirst (c ++ d) = true.
Proof.
  intros Hc Hd. induction c as [|b c IH]; cbn in *.
  - clear -Hd. induction d as [|b d IH]; [done|]. cbn in *. destruct (resultOf b); [done|]. by rewrite bool_decide_eq_true_2.
  - destruct (resultOf b); [by apply IH|]. apply bool_decide_eq_true in Hc. apply bool_decide_eq_true. by rewrite omap_app, Hc, Hd.
Qed.
Lemma answered_snoc out p : answered (out ++ [p]) <-> ([] :: List.map uses out = List.map results (out ++ [p]) /\ uses p = []
  /\ Forall (fun m => resultsFirst (Content m) = true) out /\ resultsFirst (Content p) = true).
Proof.
  unfold answered. rewrite (List.map_app uses), app_comm_cons. cbn [List.map]. rewrite Forall_app, Forall_singleton. split.
  - intros [[H1 [= H2]]%app_inj_tail [H3 H4]]. by split_and!.
  - intros (H1 & H2 & H3 & H4). by rewrite H1, H2.
Qed.

Lemma mergeOne_plain out m : uses m = [] -> results m = [] -> answered out -> answered (mergeOne out m).
Proof.
  intros Hu Hr Ho. assert (resultsFirst (Content m) = true) as Hf by by apply (resultsFirst_app []).
  destruct out as [|p out _] using rev_ind; [unfold answered; cbn; rewrite Hu, Hr; by split; [|by constructor]|].
  apply answered_snoc in Ho as (H1 & H2 & H3 & H4). rewrite mergeOne_snoc. destruct (decide _) as [E|E].
  - rewrite answered_snoc. split_and!; try done.
    + rewrite H1, !List.map_app. cbn. unfold results. cbn. rewrite omap_app. unfold results in Hr. by rewrite Hr, app_nil_r.
    + unfold uses in *. cbn. by rewrite omap_app, H2, Hu.
    + by apply resultsFirst_app.
  - rewrite app_assoc, answered_snoc. split_and!; try done; [|by apply Forall_app; split; [|constructor]].
    rewrite List.map_app, app_comm_cons, H1, (List.map_app results (out ++ [p])). cbn. by rewrite H2, Hr.
Qed.
Lemma mergeOne_call out m r : Role m = Assistant -> results m = [] -> Role r = User -> results r = uses m -> uses r = [] ->
  resultsFirst (Content r) = true -> answered out -> answered (mergeOne (mergeOne out m) r).
Proof.
  intros Hm Hmr Hr Hrr Hru Hrf Ho. assert (resultsFirst (Content m) = true) as Hmf by by apply (resultsFirst_app []).
  assert (forall out p, Role p = Assistant ->
    [] :: List.map uses out = List.map results (out ++ [p]) -> uses p = uses m -> Forall (fun m => resultsFirst (Content m) = true) (out ++ [p]) ->
    answered (mergeOne (out ++ [p]) r)) as Hlast.
  { intros o p Hp H1 H2 H3. rewrite mergeOne_snoc, Hp, Hr. destruct (decide _) as [|_]; [done|]. rewrite app_assoc, answered_snoc. split_and!; try done.
    rewrite List.map_app, app_comm_cons, H1, (List.map_app results (o ++ [p])). cbn. by rewrite H2, Hrr. }
  destruct out as [|p out _] using rev_ind.
  - apply (Hlast [] m); try done; [cbn; by rewrite Hmr|by constructor].
  - apply answered_snoc in Ho as (H1 & H2 & H3 & H4). rewrite mergeOne_snoc. destruct (decide _) as [E|E].
    + apply Hlast; cbn; [congruence| |unfold uses in *; cbn; by rewrite omap_app, H2|apply Forall_app; split; [done|constructor; [|done]; by apply resultsFirst_app]].
      * rewrite H1, !List.map_app. cbn. unfold results in *. cbn. by rewrite omap_app, Hmr, app_nil_r.
    + rewrite app_assoc. apply Hlast; try done.
      * rewrite List.map_app, app_comm_cons, H1, (List.map_app results (out ++ [p])). cbn. by rewrite H2, Hmr.
      * repeat (apply Forall_app; split); [done|by constructor|by constructor].
Qed.

(** Only the assistant asks for tools, and a native message carries neither requests nor
    results. *)
Definition wellRoled (ms : list Message) : Prop := Forall (fun m => toolCalls m <> [] -> role m = RoleAssistant) ms.
Definition harmless : Prop := forall n p, messageOf n = Some p -> uses p = [] /\ results p = [].

Lemma toolUses_ids cs bs : toolUses cs = inr bs -> omap useOf bs = List.map tcID cs /\ omap resultOf bs = [] /\ (cs <> [] -> bs <> []).
Proof.
  revert bs. induction cs as [|c cs IH]; intros bs H; cbn in H; [by injection H as <-|].
  destruct (toolUse c) as [e|b] eqn:Eb; [done|]. destruct (toolUses cs) as [e|bs'] eqn:Ecs; [done|]. injection H as <-.
  destruct (IH _ eq_refl) as (H1 & H2 & _). unfold toolUse in Eb. repeat case_match; simplify_eq; cbn; by rewrite H1, H2.
Qed.
Lemma results_message rs : let p := mkParam User (List.map (fun r => ToolResultBlock (trID r) (trContent r) false) rs) in
  uses p = [] /\ results p = List.map trID rs /\ resultsFirst (Content p) = true.
Proof. cbn. unfold uses, results. cbn. induction rs as [|r rs (H1 & H2 & H3)]; [done|]. cbn. by rewrite H1, H2, H3. Qed.

Lemma plain_converted m p : harmless -> (toolCalls m <> [] -> role m = RoleAssistant) -> SummaryFacts.callsOf m = [] -> SummaryFacts.resultsOf m = [] ->
  toMessage m = inr (Some p) -> uses p = [] /\ results p = [].
Proof.
  unfold SummaryFacts.callsOf, SummaryFacts.resultsOf, toMessage. intros Hh Hw Hc Hr H. destruct (IsLLMSpecific m).
  - unfold nativeMessage, NativeMessage, asThought, asMessage in H. destruct (native m) as [| |n]; [done..|].
    destruct (thoughtOf n) as [[t [|s0 sg]]|]; [done|by injection H as <-|]. destruct (messageOf n) as [q|] eqn:E; [|done]. injection H as <-. by eapply Hh.
  - rewrite Hr in H. destruct (toolCalls m) as [|c cs] eqn:Ec; [by injection H as <-|]. rewrite bool_decide_eq_true_2 in Hc by by apply Hw. done.
Qed.

Lemma converted_answered ms : SummaryFacts.paired ms = true -> wellRoled ms -> harmless -> forall cs acc,
  converted ms = inr cs -> answered acc -> answered (fold_left mergeOne cs acc).
Proof.
  intros Hp Hw Hh. revert Hw. pattern ms. revert ms Hp.
  apply SummaryFacts.paired_ind; [|intros m ms Hr Hc _ IH|intros m r ms Hr Hc _ Hcr Hm _ IH]; intros Hw cs acc H Ha; cbn in H.
  - by injection H as <-.
  - inversion Hw as [|? ? Hwm Hwms]; subst. destruct (toMessage m) as [e|p] eqn:E; [done|]. destruct (converted ms) as [e|out]; [done|]. injection H as <-.
    rewrite fold_left_app. apply IH; [done..|]. destruct p as [p|]; [|done]. cbn. destruct (plain_converted m p Hh Hwm Hc Hr E). by apply mergeOne_plain.
  - inversion Hw as [|? ? Hwm Hw']; subst. inversion Hw' as [|? ? Hwr Hwms]; subst.
    assert (exists p, toMessage m = inr (Some p) /\ Role p = Assistant /\ uses p = List.map tcID (SummaryFacts.callsOf m) /\ results p = []) as (p & Em & Hp1 & Hp2 & Hp3).
    { revert H. unfold toMessage, SummaryFacts.callsOf, SummaryFacts.resultsOf in *. destruct (IsLLMSpecific m); [done|]. rewrite Hr.
      destruct (bool_decide (role m = RoleAssistant)); [|done]. destruct (toolCalls m) as [|c l] eqn:Ec; [done|]. unfold toolCallMessage. rewrite Ec.
      destruct (toolUses (c :: l)) as [e|bs] eqn:Eu; [done|]. destruct (toolUses_ids _ _ Eu) as (H1 & H2 & _). intros _. by exists (mkParam Assistant bs). }
    assert (toMessage r = inr (Some (mkParam User (List.map (fun x => ToolResultBlock (trID x) (trContent x) false) (SummaryFacts.resultsOf r))))) as Er.
    { unfold toMessage, SummaryFacts.resultsOf in *. destruct (IsLLMSpecific r); [cbn in Hm; by destruct (SummaryFacts.callsOf m)|].
      destruct (toolResults r); [cbn in Hm; by destruct (SummaryFacts.callsOf m)|done]. }
    rewrite Em, Er in H. destruct (converted ms) as [e|out]; [done|]. injection H as <-. cbn [option_list app fold_left].
    apply IH; [done..|]. destruct (results_message (SummaryFacts.resultsOf r)) as (R1 & R2 & R3). apply mergeOne_call; try done. by rewrite R2, Hm, Hp2.
Qed.

Lemma fill_same m : Role (fill m) = Role m /\ uses (fill m) = uses m /\ results (fill m) = results m /\ Content (fill m) <> []
  /\ resultsFirst (Content (fill m)) = resultsFirst (Content m).
Proof. unfold fill, uses, results. destruct m as [r [|b c]]; by split_and!. Qed.
Lemma answered_map f ms : (forall m, uses (f m) = uses m /\ results (f m) = results m /\ resultsFirst (Content (f m)) = resultsFirst (Content m)) ->
  answered (List.map f ms) <-> answered ms.
Proof.
  intros Hf. unfold answered. rewrite !List.map_map, (List.map_ext _ uses), (List.map_ext (fun x => results (f x)) results) by (intros m; by destruct (Hf m) as (? & ? & ?)).
  rewrite <- (list_fmap_map f) || idtac. split; intros [H1 H2]; (split; [done|]).
  - clear H1. induction ms as [|m ms IH]; [done|]. inversion H2; subst. constructor; [|by apply IH]. destruct (Hf m) as (_ & _ & E). by rewrite <- E.
  - clear H1. induction ms as [|m ms IH]; [done|]. inversion H2; subst. constructor; [|by apply IH]. destruct (Hf m) as (_ & _ & E). by rewrite E.
Qed.

(** Markers mark, and do nothing else. *)
Definition unmark (b : block) : block :=
  match b with TextBlock t _ => TextBlock t false | ToolResultBlock i c _ => ToolResultBlock i c false | ImageBlock n _ => ImageBlock n false | _ => b end.
Definition unmarked (m : MessageParam) : MessageParam := m <| Content ::= List.map unmark |>.
Lemma unmarked_same m : uses (unmarked m) = uses m /\ results (unmarked m) = results m /\ resultsFirst (Content (unmarked m)) = resultsFirst (Content m).
Proof.
  unfold uses, results, unmarked. cbn. assert (forall c, omap useOf (List.map unmark c) = omap useOf c /\ omap resultOf (List.map unmark c) = omap resultOf c) as H.
  { induction c as [|b c [IH1 IH2]]; [done|]. by destruct b; cbn; rewrite IH1, IH2. }
  destruct (H (Content m)) as [-> ->]. split_and!; [done..|]. induction (Content m) as [|b c IH]; [done|].
  destruct b; cbn; try done; by destruct (H c) as [_ ->].
Qed.
Lemma markMessage_unmarked m m' : markMessage m = Some m' -> unmarked m' = unmarked m /\ Role m' = Role m.
Proof.
  unfold markMessage. destruct (decide _); [|done]. destruct (last (Content m)) as [b|] eqn:E; [|done]. destruct (markCacheControl b) as [b'|] eqn:Eb; [|done].
  intros [= <-]. split; [|done]. apply last_Some in E as [c E]. destruct m as [r c']. cbn in E. subst c'. unfold unmarked. cbn. rewrite List.removelast_last, !List.map_app.
  cbn. by destruct b; cbn in Eb; try discriminate; injection Eb as <-.
Qed.
Lemma markFrom_unmarked n ms : List.map unmarked (markFrom n ms) = List.map unmarked ms /\ List.map Role (markFrom n ms) = List.map Role ms.
Proof.
  revert n. induction ms as [|m ms IH]; intros [|n]; try done. cbn [markFrom]. destruct (markMessage m) as [m'|] eqn:E; cbn [List.map].
  - destruct (markMessage_unmarked _ _ E) as [-> ->]. by destruct (IH n) as [-> ->].
  - by destruct (IH (S n)) as [-> ->].
Qed.
Lemma markers_unmarked ms : List.map unmarked (WithCacheControlMarkers ms) = List.map unmarked ms /\ List.map Role (WithCacheControlMarkers ms) = List.map Role ms.
Proof.
  unfold WithCacheControlMarkers. destruct (markFrom_unmarked 2 (List.rev ms)) as [H1 H2]. rewrite !List.map_rev, H1, H2, !List.map_rev. by rewrite !List.rev_involutive.
Qed.

Definition accepted (ms : list MessageParam) : Prop := alternates ms = true /\ Forall (fun m => Content m <> []) ms.
Lemma accepted_unmarked a b : List.map unmarked a = List.map unmarked b -> accepted a <-> accepted b.
Proof.
  intros H. assert (List.map Role a = List.map Role b) as Hr.
  { assert (forall l, List.map Role (List.map unmarked l) = List.map Role l) as E by (intros l; by rewrite List.map_map). by rewrite <- (E a), H, E. }
  unfold accepted. rewrite (alternates_roles a b Hr). assert (forall l, Forall (fun m => Content m <> []) l <-> Forall (fun m => Content m <> []) (List.map unmarked l)) as E.
  { intros l. rewrite Forall_map. apply Forall_iff. intros [r c]. cbn. by destruct c. }
  by rewrite (E a), H, <- E.
Qed.
Lemma answered_unmarked a b : List.map unmarked a = List.map unmarked b -> answered a <-> answered b.
Proof. intros H. rewrite <- (answered_map unmarked a), <- (answered_map unmarked b) by apply unmarked_same. by rewrite H. Qed.

Lemma ToMessages_accepted ms out : ToMessages ms = inr out -> accepted out
  /\ (SummaryFacts.paired ms = true -> wellRoled ms -> harmless -> answered out)
  /\ exists parts merged, converted ms = inr parts /\ out = List.map fill merged /\ tagged merged = tagged parts.
Proof.
  unfold ToMessages. destruct (converted ms) as [e|cs] eqn:E; [done|]. intros [= <-]. unfold mergeSameRole. split_and!.
  - split.
    + rewrite (alternates_roles _ (fold_left mergeOne cs [])); [|rewrite List.map_map; apply List.map_ext; intros m; by destruct (fill_same m)].
      assert (forall cs acc, alternates acc = true -> alternates (fold_left mergeOne cs acc) = true) as H; [|by apply H].
      clear. induction cs as [|c cs IH]; intros acc H; [done|]. apply IH. by apply mergeParam_alternates.
    + apply Forall_map, Forall_forall. intros m _. by destruct (fill_same m) as (_ & _ & _ & ? & _).
  - intros Hp Hw Hh. apply answered_map; [intros m; by destruct (fill_same m) as (_ & -> & -> & _ & ->)|].
    apply (converted_answered ms Hp Hw Hh cs [] E). by split.
  - exists cs, (fold_left mergeOne cs []). split_and!; [done..|].
    assert (forall cs acc, tagged (fold_left mergeOne cs acc) = tagged acc ++ tagged cs) as H; [|by rewrite H].
    clear. induction cs as [|c cs IH]; intros acc; [by rewrite app_nil_r|]. cbn [fold_left]. rewrite IH, mergeOne_tagged, <- app_assoc. done.
Qed.

Lemma EnsureLastUser_ok ms : accepted ms -> accepted (EnsureLastUser ms) /\ (answered ms -> answered (EnsureLastUser ms))
  /\ forall m, last (EnsureLastUser ms) = Some m -> Role m = User.
Proof.
  intros Ha. unfold EnsureLastUser. destruct ms as [|m ms _] using rev_ind; [by split_and!|]. rewrite last_snoc. destruct (decide _) as [E|E].
  - split_and!.
    + destruct Ha as [A1 A2]. split; [by rewrite params_alternate_snoc, A1, last_snoc, E|]. apply Forall_app. split; [done|by constructor].
    + intros An. replace ((ms ++ [m]) ++ [mkParam User [NewTextBlock noOpUserTurn]]) with (mergeOne (ms ++ [m]) (mkParam User [NewTextBlock noOpUserTurn])).
      * by apply mergeOne_plain.
      * rewrite mergeOne_snoc, E. destruct (decide _); [done|]. by rewrite <- app_assoc.
    + intros x. rewrite last_snoc. by intros [= <-].
  - split_and!; [done..|]. intros x. rewrite last_snoc. intros [= <-]. by destruct (Role m).
Qed.

(** C31: (invariant) Whatever the conversation, the request made of it is one Anthropic takes: the
    roles alternate, no message is empty, the last is the user's when it has to be; and
    in a conversation where the results of tool calls follow their requests, only the
    assistant asks for tools and a native message carries neither requests nor results,
    each message that asks for tools is followed by one that begins with just the results
    asked for.  Asking for caching changes nothing of the messages but their markers; the
    system instruction it also cuts into blocks. *)
Theorem anthropic_request_accepted c o b p b' : LLMInvocationParams c o b = (inr p, b') ->
  let ms := MessagesFor c (bytes_of "anthropic") in
  accepted (Messages p)
  /\ (EnsureLastMessageIsUser o = true -> forall m, last (Messages p) = Some m -> Role m = User)
  /\ (SummaryFacts.paired ms = true -> wellRoled ms -> harmless -> answered (Messages p))
  /\ exists bare b0, LLMInvocationParams c (mkOptions (SystemInstruction o) (ConvertDeveloperToUser o) false (EnsureLastMessageIsUser o)) b = (inr bare, b0)
     /\ List.map unmarked (Messages p) = List.map unmarked (Messages bare).
Proof.
  intros H ms. revert H. unfold LLMInvocationParams. fold ms. intros H. cbn [SystemInstruction EnablePromptCaching EnsureLastMessageIsUser].
  destruct (ExtractInitialSystem (System c) (SystemInstruction o) ms b) as [[sys given] b1] eqn:Ee.
  assert (given = ms \/ exists t, given = [plain RoleUser t]) as Hgiven.
  { unfold ExtractInitialSystem in Ee. destruct (_ || _); injection Ee as _ <- _; [by left|right; by eexists]. }
  destruct (ToMessages given) as [e|out] eqn:Et; [done|]. destruct (ToMessages_accepted _ _ Et) as (Ha & Han & _).
  set (out1 := if EnsureLastMessageIsUser o then EnsureLastUser out else out) in *.
  assert (accepted out1) as Ha1 by (subst out1; destruct (EnsureLastMessageIsUser o); [by apply EnsureLastUser_ok|done]).
  destruct (systemBlocks c sys o b1) as [sb b2]. injection H as <- _. cbn [Messages].
  set (out2 := if EnablePromptCaching o then WithCacheControlMarkers out1 else out1).
  assert (List.map unmarked out2 = List.map unmarked out1 /\ List.map Role out2 = List.map Role out1) as [Hu Hr]
    by (subst out2; destruct (EnablePromptCaching o); [apply markers_unmarked|done]).
  split_and!.
  - by apply (accepted_unmarked _ _ Hu).
  - intros He m Hm. subst out1. rewrite He in *. assert (last (List.map Role out2) = Some (Role m)) as Hl by (rewrite <- fmap_last || idtac; change (List.map Role out2) with (Role <$> out2); by rewrite fmap_last, Hm).
    rewrite Hr in Hl. change (List.map Role (EnsureLastUser out)) with (Role <$> EnsureLastUser out) in Hl. rewrite fmap_last in Hl.
    destruct (last (EnsureLastUser out)) as [x|] eqn:Ex; [|done]. injection Hl as <-. by apply (EnsureLastUser_ok out).
  - intros Hp Hw Hh. apply (answered_unmarked _ _ Hu). assert (answered out) as Ho.
    { apply Han; [|..|done]; destruct Hgiven as [->|[t ->]]; try done. by repeat constructor. }
    subst out1. destruct (EnsureLastMessageIsUser o); [by apply EnsureLastUser_ok|done].
  - destruct (systemBlocks c sys _ b1) as [sb' b2']. eexists _, _. split; [reflexivity|]. exact Hu.
Qed.

(** A thought put into the conversation for Anthropic, as the assistant aggregator writes
    it, can never be sent: every request from then on fails. *)
Theorem thought_fails_requests ms1 t signature ms2 :
  exists e, ToMessages (ms1 ++ [NewLLMSpecificMessage (bytes_of "anthropic") (ThoughtMap t signature)] ++ ms2) = inl e.
Proof.
  assert (exists e, converted (ms1 ++ [NewLLMSpecificMessage (bytes_of "anthropic") (ThoughtMap t signature)] ++ ms2) = inl e) as [e H].
  { induction ms1 as [|m ms1 [e IH]]; [by eexists|]. cbn [app converted]. cbn [app] in IH. rewrite IH. destruct (toMessage m); by eexists. }
  unfold ToMessages. rewrite H. by exists e.
Qed.
End Conversion.

(** ** A turn with a tool *)
Definition nothingNative {A} (_ : nat) : option A := None.
Definition toolTurn : list Message :=
  [plain RoleUser (bytes_of "Weather?"); plain RoleAssistant (bytes_of "Let me look."); mkMessage RoleAssistant [] [mkToolCall (bytes_of "1") (bytes_of "weather") []] [];
   mkMessage RoleUser [] [] [mkToolResult (bytes_of "1") [] (bytes_of "sunny")]; plain RoleDeveloper (bytes_of "Be brief."); plain RoleAssistant (bytes_of "Sunny.")].
Definition asked : LLMContext := LlmContext.SetMessages (NewLLMContext []) toolTurn.

Lemma anthropic_request_accepted_witness : exists ms,
  List.map Role ms = [User; Assistant; User; Assistant; User] /\ accepted ms /\ answered ms.
Proof.
  destruct (LLMInvocationParams nothingNative nothingNative asked (mkOptions [] false true true) zeroBase) as [[e|p] b] eqn:E; [vm_compute in E; discriminate|].
  destruct (anthropic_request_accepted nothingNative nothingNative asked (mkOptions [] false true true) zeroBase p b E) as (H1 & _ & H2 & _).
  exists (Messages p). split_and!; [vm_compute in E; injection E as <- _; reflexivity|exact H1|].
  apply H2; [vm_compute; reflexivity| |by intros n q]. repeat constructor; done.
Defined.
End Anthropic.
