(* ===== verification/GeminiAdapter.v ===== *)
(** * GeminiAdapter

    The request Gemini takes: [src/adapter/gemini/gemini.go].  A content is a JSON object
    in the code; here it is its role and its parts, or no parts where it has none of the
    type the code looks for.  How a tool's schema is rendered is left out. *)

From S2P Require Import Prelude Text Strings LlmContext Json Adapters SummaryFacts.
Import LlmContext Adapter.

Local Open Scope Z_scope.

Module Gemini.

Inductive dict := RawObject (content : gostring) | ValueOf (content : gostring).
Inductive part :=
| TextPart (t : gostring)
| FunctionCall (id name args : gostring)
| FunctionResponse (id name : gostring) (response : dict)
| OtherPart (n : nat).
Record content := mkContent { cRole : gostring; cParts : option (list part) }.

Definition roleUser : gostring := bytes_of "user".
Definition roleModel : gostring := bytes_of "model".
Definition unnamedToolResult : gostring := bytes_of "tool_call_result".
Definition google : gostring := bytes_of "google".

(** An object, or [null], decodes into a map. *)
Definition FunctionResponseDict (c : gostring) : dict :=
  match Json.parse c with Some (Json.JObject _) | Some Json.JNull => RawObject c | _ => ValueOf c end.

Definition toolCallNames (ms : list Message) : gmap gostring gostring :=
  fold_left (fun names m => fold_left (fun names c => <[tcID c := tcName c]> names) (toolCalls m) names) ms ∅.
Definition toolResultName (r : ToolResult) (names : gmap gostring gostring) : gostring :=
  match names !! trID r with
  | Some ((_ :: _) as n) => n
  | _ => match trName r with [] => unnamedToolResult | n => n end
  end.
Definition toolCallParts (t : gostring) (cs : list ToolCall) : list part :=
  (match t with [] => [] | _ => [TextPart t] end)
  ++ List.map (fun c => FunctionCall (tcID c) (tcName c) (match tcArgs c with [] => bytes_of "{}" | a => a end)) cs.
Definition toolResultParts (rs : list ToolResult) (names : gmap gostring gostring) : list part :=
  List.map (fun r => FunctionResponse (trID r) (toolResultName r names) (FunctionResponseDict (trContent r))) rs.
Definition textContent (r t : gostring) : content := mkContent r (Some [TextPart t]).

Section Conversion.
Context (contentOf : nat -> option content).
(** The assistant aggregator's thoughts are maps too, without parts. *)
Definition asContent (v : nativeValue) : option content :=
  match v with Foreign n => contentOf n | ThoughtMap _ _ => Some (mkContent [] None) | NoNative => None end.

Definition toContent (names : gmap gostring gostring) (m : Message) : ConversionError + content :=
  if IsLLMSpecific m then NativeMessage asContent m
  else match toolResults m, toolCalls m with
       | _ :: _, _ => inr (mkContent roleUser (Some (toolResultParts (toolResults m) names)))
       | [], _ :: _ => inr (mkContent roleModel (Some (toolCallParts (text m) (toolCalls m))))
       | [], [] => inr (textContent (if bool_decide (role m = RoleAssistant) then roleModel else roleUser) (text m))
       end.
Fixpoint contents (names : gmap gostring gostring) (ms : list Message) : ConversionError + list content :=
  match ms with
  | [] => inr []
  | m :: ms => match toContent names m with
               | inl e => inl e
               | inr c => match contents names ms with inl e => inl e | inr out => inr (c :: out) end
               end
  end.
Definition ToContents (ms : list Message) : ConversionError + list content := contents (toolCallNames ms) ms.

Definition isProse (c : content) : bool := match cParts c with Some [TextPart (_ :: _)] => true | _ => false end.
Definition hasProse (cs : list content) : bool := existsb isProse cs.
Definition dropEmpty (cs : list content) : list content :=
  List.filter (fun c => match cParts c with Some (_ :: _) => true | _ => false end) cs.

(** The tools advertised are those of [WithBuiltins]. *)
Record Params := mkParams { SystemInstruction : gostring; Contents : list content; Tools_ : ToolsSchema }.
Definition LLMInvocationParams (c : LLMContext) (o : Options) (b : Base) : (ConversionError + Params) * Base :=
  let '((fromContext, ms), b) := ExtractInitialSystem (System c) (Adapter.SystemInstruction o) (MessagesFor c google) b in
  let '(sys, b) := ResolveSystemInstruction fromContext (Adapter.SystemInstruction o) true b in
  match ToContents ms with
  | inl e => (inl e, b)
  | inr cs =>
    let cs := if bool_decide (sys <> []) && negb (hasProse cs) then cs ++ [textContent roleUser sys] else cs in
    (inr (mkParams sys (dropEmpty cs) (WithBuiltins b (LlmContext.tools c))), b)
  end.

(** ** What Gemini asks of a conversation *)

Definition named (p : part) : Prop := match p with FunctionResponse _ n _ => n <> [] | _ => True end.
Definition sendable (c : content) : Prop := exists p ps, cParts c = Some (p :: ps).

Lemma toolResultName_named r names : toolResultName r names <> [].
Proof.
  unfold toolResultName. assert (unnamedToolResult <> []) as Hu by done. destruct (names !! trID r) as [[|b n]|]; [|done|]; (destruct (trName r); [exact Hu|done]).
Qed.
Lemma toContent_named names m c : toContent names m = inr c -> IsLLMSpecific m = false -> Forall named (default [] (cParts c)).
Proof.
  unfold toContent. intros H Hs. rewrite Hs in H. destruct (toolResults m) as [|r rs]; [destruct (toolCalls m) as [|tc cs]|]; injection H as <-; cbn.
  - by repeat constructor.
  - unfold toolCallParts. apply Forall_app. split; [destruct (text m); by repeat constructor|]. constructor; [done|]. apply Forall_map, Forall_forall. by intros x _.
  - constructor; [apply toolResultName_named|]. apply Forall_map, Forall_forall. intros x _. apply toolResultName_named.
Qed.

(** The request has words to answer whenever there is an instruction, every content has
    parts, and every tool result a name. *)
Lemma gemini_sendable c o b p b' : LLMInvocationParams c o b = (inr p, b') ->
  Forall sendable (Contents p) /\ (SystemInstruction p <> [] -> hasProse (Contents p) = true).
Proof.
  unfold LLMInvocationParams. destruct (ExtractInitialSystem _ _ _ _) as [[fc ms] b1]. destruct (ResolveSystemInstruction _ _ _ _) as [sys b2].
  destruct (ToContents ms) as [e|cs]; [done|]. intros [= <- _]. cbn. split.
  - apply Forall_forall. intros x Hx%list_elem_of_In. apply List.filter_In in Hx as [_ Hx]. unfold sendable. destruct (cParts x) as [[|q qs]|]; try done. by eexists _, _.
  - intros Hs. rewrite bool_decide_eq_true_2 by done. cbn.
    assert (forall cs, hasProse (dropEmpty cs) = hasProse cs) as Hd.
    { clear. induction cs as [|[r [[|q qs]|]] cs IH]; [done|exact IH| |exact IH]. unfold hasProse, dropEmpty in *. cbn. by rewrite IH. }
    rewrite Hd. destruct (hasProse cs) eqn:E; [done|]. cbn. unfold hasProse in *. rewrite List.existsb_app, E. cbn. by destruct sys.
Qed.
End Conversion.

(** A result of [null] is passed as the object Gemini requires. *)
Theorem null_passes_as_object : FunctionResponseDict (bytes_of "null") = RawObject (bytes_of "null").
Proof. reflexivity. Qed.
(** A thought kept for Gemini never reaches it. *)
Theorem thought_dropped contentOf t s : exists cs, ToContents contentOf [NewLLMSpecificMessage google (ThoughtMap t s)] = inr cs /\ dropEmpty cs = [].
Proof. eexists. split; reflexivity. Qed.
End Gemini.
