(* ===== verification/SmallAggs.v ===== *)
(** * The smaller aggregators

    [src/processor/aggregators/]: the gate ([gated.go]), the gatherer of whole responses
    ([fullresponse.go]), that of sentences ([sentence.go]), and the one that groups what a
    model streams ([llmtext.go]) with whichever text aggregator it is given.

    Each is a processor handling its frames one by one; a handler takes the state and
    returns it with what it pushed or raised, in order.  The pushes are taken to succeed.
    What the base does with a frame first is [Processor.v]'s. *)

From S2P Require Import Prelude Text Strings Frames TextAgg.
Import TextAgg.

Module SmallAggs.
Local Open Scope Z_scope.

(** The frames these processors tell apart.  Go tells a frame's own type: an LLM's text
    frame holds a text frame and is not one. *)
Inductive frame :=
| StartFrame | EndFrame | CancelFrame | InterruptionFrame
| LLMFullResponseStartFrame
| LLMFullResponseEndFrame (SkipTTS : option bool)
| TextFrame (t : gostring)
| LLMTextFrame (t : gostring) (SkipTTS : option bool)
| TranscriptionFrame (t : gostring)
| InterimTranscriptionFrame (t : gostring)
| AggregatedTextFrame (t : gostring) (by_ : AggregationType) (raw : gostring) (SkipTTS : option bool)
| ErrorFrame
| OtherFrame (system : bool) (n : nat).
Definition isSystem (f : frame) : bool :=
  match f with StartFrame | CancelFrame | InterruptionFrame | ErrorFrame => true | OtherFrame b _ => b | _ => false end.
Definition sent := (frame * Direction)%type.

(** ** The gate *)

Record Gated := mkGated { openFn : frame -> bool; closeFn : frame -> bool; open : bool; dir : Direction; held : list sent }.
#[export] Instance eta_Gated : Eta Gated := fun g => mkGated (openFn g) (closeFn g) (open g) (dir g) (held g).
Definition NewGated (openFn closeFn : frame -> bool) (startOpen : bool) (d : Direction) : Gated := mkGated openFn closeFn startOpen d [].

Definition Gated_ProcessFrame (g : Gated) (x : sent) : list sent * Gated :=
  let '(f, d) := x in
  if isSystem f then ([x], g)
  else if negb (bool_decide (d = dir g)) then ([x], g)
  else
    let g := g <| open := if open g then negb (closeFn g f) else openFn g f |> in
    if negb (open g) then ([], g <| held ::= fun l => l ++ [x] |>)
    else (x :: held g, g <| held := [] |>).

(** Any of them over the frames that come. *)
Fixpoint handles {S X O : Type} (step : S -> X -> list O * S) (s : S) (xs : list X) : list O * S :=
  match xs with
  | [] => ([], s)
  | x :: xs => let '(o, s) := step s x in let '(o', s) := handles step s xs in (o ++ o', s)
  end.

(** ** Whole responses *)

Record FullResponse := mkFull { aggregation : gostring; started : bool }.
Definition NewFullResponse : FullResponse := mkFull [] false.
Record Completion := mkCompletion { cText : gostring; Completed : bool }.
Definition report (completed : bool) (a : FullResponse) : list Completion * FullResponse :=
  ([mkCompletion (aggregation a) completed], mkFull [] false).
(** What is raised; every frame is pushed on as it came. *)
Definition FullResponse_ProcessFrame (a : FullResponse) (f : frame) : list Completion * FullResponse :=
  match f with
  | InterruptionFrame => report false a
  | LLMFullResponseStartFrame => ([], mkFull (aggregation a) true)
  | LLMFullResponseEndFrame _ => report true a
  | LLMTextFrame t _ => ([], if started a then mkFull (aggregation a ++ t) true else a)
  | _ => ([], a)
  end.

(** ** Sentences *)

Section Sentence.
(** [None] where the tokenizer could not be built, which is reported if there was an
    error, or none was given. *)
Context (tokenizer : option SentenceTokenizer) (tokenizerErr : bool).
Definition endsSentence (t : gostring) : bool :=
  match tokenizer with Some tok => negb (@MatchEndOfSentence tok t =? 0) | None => false end.
Definition Sentence_ProcessFrame (held : gostring) (x : sent) : list sent * gostring :=
  let '(f, d) := x in
  match f with
  | InterimTranscriptionFrame _ => ([], held)
  | TextFrame t =>
    let held := held ++ t in
    if endsSentence held then ([(TextFrame held, Downstream)], []) else ([], held)
  | EndFrame => ((match held with [] => [] | _ => [(TextFrame held, Downstream)] end) ++ [(f, Downstream)], [])
  | StartFrame => ((if tokenizerErr then [(ErrorFrame, Upstream)] else []) ++ [x], held)
  | _ => ([x], held)
  end.
End Sentence.

(** ** What a model streams *)

(** [text.Aggregator]: [Aggregate] may index out of range, which stops the program. *)
Class Aggregator (S : Type) := mkAggregator {
  Aggregate : S -> gostring -> option (list Aggregation * S);
  Flush : S -> option Aggregation * S;
  Reset : S -> S
}.
#[export] Instance simpleAggregator {tok : SentenceTokenizer} : Aggregator Simple := mkAggregator Simple Simple_Aggregate Simple_Flush Simple_Reset.
#[export] Instance skipAggregator {tok : SentenceTokenizer} : Aggregator SkipTags := mkAggregator SkipTags Skip_Aggregate Skip_Flush Skip_Reset.

Section LLMText.
Context {S : Type} {A : Aggregator S} (aggregatorErr : bool).

Definition pushAggregation (skip : option bool) (u : Aggregation) : sent :=
  (AggregatedTextFrame (aText u) (aType u) (Original u) skip, Downstream).
(** The aggregator may be missing; the tokens are then dropped. *)
Definition handleText (p : option S) (t : gostring) (skip : option bool) : option (list sent * option S) :=
  match p with
  | None => Some ([], None)
  | Some a => '(us, a) ← Aggregate a t; Some (List.map (pushAggregation skip) us, Some a)
  end.
Definition flush (p : option S) (skip : option bool) : list sent * option S :=
  match p with
  | None => ([], None)
  | Some a => let '(u, a) := Flush a in ((match u with Some u => [pushAggregation skip u] | None => [] end), Some a)
  end.
Definition LLMText_Reset (p : option S) : option S := Reset <$> p.
Definition LLMText_ProcessFrame (p : option S) (x : sent) : option (list sent * option S) :=
  match x.1 with
  | InterruptionFrame => Some ([x], LLMText_Reset p)
  | LLMTextFrame t skip => handleText p t skip
  | LLMFullResponseEndFrame skip => let '(o, p) := flush p skip in Some (o ++ [x], p)
  | EndFrame => let '(o, p) := flush p None in Some (o ++ [x], p)
  | StartFrame => Some ((if aggregatorErr then [(ErrorFrame, Upstream)] else []) ++ [x], p)
  | _ => Some ([x], p)
  end.
Fixpoint streams (p : option S) (xs : list sent) : option (list sent * option S) :=
  match xs with
  | [] => Some ([], p)
  | x :: xs => '(o, p) ← LLMText_ProcessFrame p x; '(o', p) ← streams p xs; Some (o ++ o', p)
  end.
End LLMText.

(** ** The gate's bargain *)

Lemma handles_app {S X O} (step : S -> X -> list O * S) s xs ys :
  handles step s (xs ++ ys) = let '(o, s) := handles step s xs in let '(o', s) := handles step s ys in (o ++ o', s).
Proof.
  revert s. induction xs as [|x xs IH]; intros s; cbn [handles app]; [by destruct (handles step s ys)|].
  destruct (step s x) as [o s1]. rewrite IH. destruct (handles step s1 xs) as [o1 s2]. destruct (handles step s2 ys). by rewrite app_assoc.
Qed.

Definition gated (g : Gated) (x : sent) : bool := negb (isSystem x.1) && bool_decide (x.2 = dir g).
(** What a gate makes of the frames it is meant for, holding [l] if it is shut: it stands
    open until one closes it; it holds that one and those behind it until one opens it,
    which goes first. *)
Inductive gates (openFn closeFn : frame -> bool) : bool -> list sent -> list sent -> list sent -> list sent -> Prop :=
| StaysOpen p : Forall (fun x => closeFn x.1 = false) p -> gates openFn closeFn true [] p p []
| Closes p x xs o h : Forall (fun x => closeFn x.1 = false) p -> closeFn x.1 = true -> gates openFn closeFn false [x] xs o h ->
    gates openFn closeFn true [] (p ++ x :: xs) (p ++ o) h
| StaysShut l w : Forall (fun x => openFn x.1 = false) w -> gates openFn closeFn false l w [] (l ++ w)
| Opens l w x xs o h : Forall (fun x => openFn x.1 = false) w -> openFn x.1 = true -> gates openFn closeFn true [] xs o h ->
    gates openFn closeFn false l (w ++ x :: xs) (x :: l ++ w ++ o) h.

Lemma gates_pass f c x xs o h : gates f c true [] xs o h -> c x.1 = false -> gates f c true [] (x :: xs) (x :: o) h.
Proof. intros H Hx. inversion H; subst; [apply StaysOpen|apply (Closes _ _ (x :: p))]; try done; by constructor. Qed.
Lemma gates_hold f c l x xs o h : gates f c false (l ++ [x]) xs o h -> f x.1 = false -> gates f c false l (x :: xs) o h.
Proof.
  intros H Hx. inversion H; subst.
  - rewrite <- app_assoc. apply (StaysShut _ _ l (x :: xs)). by constructor.
  - rewrite <- app_assoc. apply (Opens _ _ l (x :: w)); [by constructor|done..].
Qed.

Definition same (g g' : Gated) : Prop := openFn g' = openFn g /\ closeFn g' = closeFn g /\ dir g' = dir g.
Lemma Gated_step g x : let '(o, g') := Gated_ProcessFrame g x in
  same g g' /\
  if gated g x then
    if open g then
      if closeFn g x.1 then o = [] /\ open g' = false /\ held g' = held g ++ [x] else o = x :: held g /\ open g' = true /\ held g' = []
    else if openFn g x.1 then o = x :: held g /\ open g' = true /\ held g' = [] else o = [] /\ open g' = false /\ held g' = held g ++ [x]
  else o = [x] /\ g' = g.
Proof.
  destruct x as [f d]. unfold Gated_ProcessFrame, gated. cbn [fst snd]. destruct (isSystem f); [by split_and!|]. cbn [negb andb].
  destruct (bool_decide (d = dir g)); [|by split_and!]. cbn [negb]. cbn. destruct (open g), (closeFn g f), (openFn g f); by split_and!.
Qed.
Definition only (p : sent -> bool) (l : list sent) : list sent := List.filter p l.
Lemma only_app p l l' : only p (l ++ l') = only p l ++ only p l'.
Proof. apply List.filter_app. Qed.
Lemma only_cons p x l : only p (x :: l) = if p x then x :: only p l else only p l.
Proof. done. Qed.
Lemma gated_same g g' x : same g g' -> gated g' x = gated g x.
Proof. intros (_ & _ & E). unfold gated. by rewrite E. Qed.

Lemma only_none p l : Forall (fun x => p x = true) l -> only (fun x => negb (p x)) l = [].
Proof. induction 1 as [|x l Hx _ IH]; [done|]. cbn. by rewrite Hx. Qed.
Lemma only_all p l : Forall (fun x => p x = true) l -> only p l = l.
Proof. induction 1 as [|x l Hx _ IH]; [done|]. cbn. rewrite Hx. f_equal. exact IH. Qed.
Lemma only_ext p q l : (forall x, p x = q x) -> only p l = only q l.
Proof. intros H. by apply List.filter_ext. Qed.

(** However it stands, a gate passes at once, in their order, the frames that are not its
    own; of its own it passes those that come while it is open, holds the one that closes
    it and those behind, and lets them go right behind the one that opens it. *)
Theorem gate_holds_in_order g xs : (open g = true -> held g = []) -> Forall (fun x => gated g x = true) (held g) ->
  let '(o, g') := handles Gated_ProcessFrame g xs in
  gates (openFn g) (closeFn g) (open g) (held g) (only (gated g) xs) (only (gated g) o) (held g')
  /\ only (fun x => negb (gated g x)) o = only (fun x => negb (gated g x)) xs.
Proof.
  revert g. induction xs as [|x xs IH]; intros g Hopen Hheld; cbn [handles].
  { split; [|done]. destruct (open g) eqn:E; [rewrite (Hopen eq_refl); by apply StaysOpen|].
    rewrite <- (app_nil_r (held g)) at 2. by apply StaysShut. }
  pose proof (Gated_step g x) as Hs. destruct (Gated_ProcessFrame g x) as [o1 g1] eqn:E1. destruct Hs as [Hsame Hs].
  assert (forall y, gated g1 y = gated g y) as Hg by (intros y; by apply gated_same).
  assert (forall l, Forall (fun y => gated g y = true) l -> Forall (fun y => gated g1 y = true) l) as Hall.
  { intros l Hl. eapply Forall_impl; [exact Hl|]. intros y. by rewrite Hg. }
  destruct Hsame as (Ho & Hc & _).
  assert ((open g1 = true -> held g1 = []) /\ Forall (fun y => gated g y = true) (held g1)) as [Hopen1 Hheld1].
  { destruct (gated g x) eqn:Ex; [|destruct Hs as [_ ->]; done].
    destruct (open g), (closeFn g x.1), (openFn g x.1); destruct Hs as (_ & -> & ->); (split; [done|]); try done; apply Forall_app; split; auto. }
  specialize (IH g1 Hopen1 (Hall _ Hheld1)). destruct (handles Gated_ProcessFrame g1 xs) as [o g'].
  rewrite Ho, Hc, !(only_ext (gated g1) (gated g) _ Hg), !(only_ext _ (fun y => negb (gated g y)) _ (fun y => f_equal negb (Hg y))) in IH.
  destruct IH as [IH1 IH2]. rewrite !only_app, IH2, !only_cons.
  destruct (gated g x) eqn:Ex; cbn [negb].
  2: { destruct Hs as [-> ->]. rewrite !only_cons, Ex. by split. }
  destruct (open g) eqn:Eo.
  - rewrite (Hopen eq_refl) in Hs |- *. destruct (closeFn g x.1) eqn:Ec; destruct Hs as (-> & Eo1 & Eh1); rewrite Eo1, Eh1 in IH1.
    + split; [|done]. by apply (Closes _ _ []).
    + rewrite !only_cons, Ex. split; [|done]. by apply gates_pass.
  - destruct (openFn g x.1) eqn:Ec; destruct Hs as (-> & Eo1 & Eh1); rewrite Eo1, Eh1 in IH1.
    + rewrite !only_cons, Ex, (only_all _ _ Hheld), (only_none _ _ Hheld). split; [|done].
      change (x :: held g) with ([x] ++ held g). by apply (Opens _ _ (held g) []).
    + split; [|done]. by apply gates_hold.
Qed.

(** ** What is reported of responses *)

Definition ends (f : frame) : option bool :=
  match f with InterruptionFrame => Some false | LLMFullResponseEndFrame _ => Some true | _ => None end.
Definition textOf (f : frame) : gostring := match f with LLMTextFrame t _ => t | _ => [] end.
(** Of the frames since the last report, the text of those from the first start on. *)
Fixpoint said (fs : list frame) : gostring :=
  match fs with
  | [] => []
  | LLMFullResponseStartFrame :: fs => List.concat (List.map textOf fs)
  | _ :: fs => said fs
  end.
(** The stretches that end a response, with whether it was finished. *)
Fixpoint responses (fs seg : list frame) : list Completion :=
  match fs with
  | [] => []
  | f :: fs =>
    match ends f with
    | Some c => mkCompletion (said seg) c :: responses fs []
    | None => responses fs (seg ++ [f])
    end
  end.
Definition opened (seg : list frame) : bool := existsb (fun f => match f with LLMFullResponseStartFrame => true | _ => false end) seg.
Lemma said_snoc seg f : said (seg ++ [f]) = if opened seg then said seg ++ textOf f else said seg.
Proof.
  induction seg as [|g seg IH]; [by destruct f|]. cbn [app said opened existsb]. destruct g; cbn [orb]; try exact IH.
  by rewrite List.map_app, List.concat_app; cbn; rewrite app_nil_r.
Qed.
Lemma opened_snoc seg f : opened (seg ++ [f]) = opened seg || match f with LLMFullResponseStartFrame => true | _ => false end.
Proof. unfold opened. rewrite List.existsb_app. cbn. by rewrite orb_false_r. Qed.
Lemma said_closed seg : opened seg = false -> said seg = [].
Proof. induction seg as [|f seg IH]; [done|]. cbn. by destruct f. Qed.

(** The gatherer of whole responses reports each stretch that ends in the end of a response
    or in an interruption, with what was said in it since its first start. *)
Theorem responses_reported_whole fs : (handles FullResponse_ProcessFrame NewFullResponse fs).1 = responses fs [].
Proof.
  enough (forall seg, (handles FullResponse_ProcessFrame (mkFull (said seg) (opened seg)) fs).1 = responses fs seg) as H by exact (H []).
  induction fs as [|f fs IH]; intros seg; [done|]. cbn [handles responses].
  destruct (FullResponse_ProcessFrame (mkFull (said seg) (opened seg)) f) as [o a] eqn:E.
  assert ((o, a) = match ends f with Some c => ([mkCompletion (said seg) c], mkFull [] false) | None => ([], mkFull (said (seg ++ [f])) (opened (seg ++ [f]))) end) as Eo.
  { rewrite <- E, said_snoc, opened_snoc. destruct f; cbn; try done; destruct (opened seg) eqn:Eq; cbn; rewrite ?app_nil_r; by rewrite ?(said_closed seg Eq). }
  destruct (ends f) as [c|]; injection Eo as -> ->.
  - specialize (IH []). cbn in IH. destruct (handles FullResponse_ProcessFrame (mkFull [] false) fs) as [o' a']. cbn in *. by rewrite IH.
  - specialize (IH (seg ++ [f])). destruct (handles _ _ fs) as [o' a']. exact IH.
Qed.

(** ** What is made of text *)

Definition plainText (f : frame) : gostring := match f with TextFrame t => t | _ => [] end.
Definition isText (f : frame) : bool := match f with TextFrame _ => true | _ => false end.
Definition textIn (xs : list sent) : gostring := List.concat (List.map (fun x => plainText x.1) xs).
Lemma textIn_app l l' : textIn (l ++ l') = textIn l ++ textIn l'.
Proof. unfold textIn. by rewrite List.map_app, List.concat_app. Qed.

Section Sentences.
Context (tokenizer : option SentenceTokenizer) (tokenizerErr : bool).
Abbreviation sentences := (handles (Sentence_ProcessFrame tokenizer tokenizerErr)).

(** The gatherer of sentences loses and reorders no text: what came and was held is what
    goes out and is held; each text it pushes is one in which a sentence ends, or what was
    left when the run ended; and at that point nothing is held. *)
Theorem sentences_lose_nothing held xs : let '(o, held') := sentences held xs in
  held ++ textIn xs = textIn o ++ held'
  /\ (forall t, (TextFrame t, Downstream) ∈ o -> endsSentence tokenizer t = true \/ EndFrame ∈ List.map fst xs)
  /\ (forall pre d, xs = pre ++ [(EndFrame, d)] -> held' = []).
Proof.
  revert held. induction xs as [|x xs IH] using List.rev_ind; intros held.
  { cbn. split_and!; [by rewrite app_nil_r|by intros t ?%not_elem_of_nil|]. by intros [] d ?. }
  rewrite handles_app. specialize (IH held). destruct (sentences held xs) as [o h]. destruct IH as (IH1 & IH2 & _). cbn [handles].
  assert (let '(o1, h1) := Sentence_ProcessFrame tokenizer tokenizerErr h x in
    h ++ plainText x.1 = textIn o1 ++ h1
    /\ (forall t, (TextFrame t, Downstream) ∈ o1 -> endsSentence tokenizer t = true \/ x.1 = EndFrame) /\ (x.1 = EndFrame -> h1 = [])) as Hs.
  { assert (forall (y : sent) t, isText y.1 = false -> (TextFrame t, Downstream) ∈ [y] -> False) as Hno.
    { intros y t Hy Hin. apply list_elem_of_singleton in Hin as <-. done. }
    destruct x as [f d]. unfold Sentence_ProcessFrame. destruct f; cbn [fst plainText]; rewrite ?app_nil_r;
      try (split_and!; [done|intros ? Hin; exfalso; by eapply Hno; [|exact Hin]|done]).
    - split_and!; [by destruct tokenizerErr| |done]. intros t Hin. exfalso.
      destruct tokenizerErr; [apply elem_of_cons in Hin as [Hin|Hin]; [done|]|]; by eapply Hno; [|exact Hin].
    - split_and!; [destruct h; cbn; by rewrite ?app_nil_r|by right|done].
    - destruct (endsSentence tokenizer (h ++ t)) eqn:Et; (split_and!; [by cbn; rewrite ?app_nil_r| |done]).
      + intros u Hin. apply list_elem_of_singleton in Hin. injection Hin as ->. by left.
      + by intros u ?%not_elem_of_nil.
    - split_and!; [done|by intros u ?%not_elem_of_nil|done]. }
  destruct (Sentence_ProcessFrame tokenizer tokenizerErr h x) as [o1 h1]. destruct Hs as (H1 & H2 & H3). rewrite app_nil_r. split_and!.
  - rewrite !textIn_app, <- app_assoc, <- H1, !app_assoc, <- IH1. unfold textIn at 2. cbn. by rewrite app_nil_r, ?app_assoc.
  - intros t [Hin|Hin]%elem_of_app; rewrite List.map_app, elem_of_app.
    + destruct (IH2 t Hin); auto.
    + destruct (H2 t Hin) as [?|E]; [by left|]. right; right. cbn. rewrite E. by apply list_elem_of_singleton.
  - intros pre d Heq. apply List.app_inj_tail in Heq as [_ ->]. by apply H3.
Qed.
End Sentences.

(** ** What a model streams, grouped *)

Section Grouped.
Context {S : Type} {A : Aggregator S} (aggregatorErr : bool).
Abbreviation tokens sk ts := (List.map (fun t => (LLMTextFrame t sk, Downstream)) ts).

Lemma streams_app p xs ys : streams aggregatorErr p (xs ++ ys) =
  '(o, p) ← streams aggregatorErr p xs; '(o', p) ← streams aggregatorErr p ys; Some (o ++ o', p).
Proof.
  revert p. induction xs as [|x xs IH]; intros p; cbn [streams app mbind option_bind]; [by destruct (streams aggregatorErr p ys) as [[]|]|].
  destruct (LLMText_ProcessFrame aggregatorErr p x) as [[o p1]|]; [|done]. cbn [mbind option_bind]. rewrite IH.
  destruct (streams aggregatorErr p1 xs) as [[o1 p2]|]; [|done]. cbn [mbind option_bind].
  destruct (streams aggregatorErr p2 ys) as [[o2 p3]|]; [|done]. cbn [mbind option_bind]. by rewrite app_assoc.
Qed.
(** The tokens of a response become the units its aggregator makes of them. *)
Lemma streams_tokens a sk ts : streams aggregatorErr (Some a) (tokens sk ts) =
  '(us, a) ← stream Aggregate a ts; Some (List.map (pushAggregation sk) us, Some a).
Proof.
  revert a. induction ts as [|t ts IH]; intros a; [done|]. cbn [streams stream List.map LLMText_ProcessFrame fst handleText].
  destruct (Aggregate a t) as [[us a1]|]; [|done]. cbn [mbind option_bind]. rewrite IH.
  destruct (stream Aggregate a1 ts) as [[us' a2]|]; [|done]. cbn [mbind option_bind]. by rewrite List.map_app.
Qed.
End Grouped.

Section BySentence.
Context {tok : SentenceTokenizer} {tokOk : SentenceTokenizerOk tok} (aggregatorErr : bool).
Abbreviation tokens sk ts := (List.map (fun t => (LLMTextFrame t sk, Downstream)) ts).

(** Grouping by sentence, a response goes out as sentences of its text, in order and with
    none of it lost, the last one unfinished if need be and all ahead of the response's end;
    what they are does not depend on how the model cut it into tokens, and nothing is left
    for the next response. *)
Theorem response_grouped a sk d ts : byToken a = false -> text a = [] -> Forall validUTF8 ts ->
  exists raws rest a',
    streams aggregatorErr (Some a) (tokens sk ts ++ [(LLMFullResponseEndFrame sk, d)])
    = Some (List.map (fun r => pushAggregation sk (sentenceOf r)) (raws ++ rest) ++ [(LLMFullResponseEndFrame sk, d)], Some a')
    /\ List.concat (raws ++ rest) = List.concat ts /\ Forall confirmed raws /\ (length rest <= 1)%nat
    /\ text a' = [] /\ aggregationType a' = aggregationType a
    /\ forall ts', Forall validUTF8 ts' -> List.concat ts' = List.concat ts ->
       streams aggregatorErr (Some a) (tokens sk ts' ++ [(LLMFullResponseEndFrame sk, d)])
       = streams aggregatorErr (Some a) (tokens sk ts ++ [(LLMFullResponseEndFrame sk, d)]).
Proof.
  intros Hb Ht Hv. destruct (simple_aggregates a ts Hb Hv) as (raws & a1 & E & Ea & F & H & Hf).
  assert (byToken a1 = false) as Hb1.
  { rewrite Aggregate_range in Ea by done. destruct (Simple_range_spec (runesOf (List.concat ts)) a) as (raws1 & a2 & E2 & T & _).
    rewrite E2 in Ea. injection Ea as _ ->. unfold byToken in *. by rewrite T. }
  assert (aggregationType a1 = aggregationType a) as HT.
  { rewrite Aggregate_range in Ea by done. destruct (Simple_range_spec (runesOf (List.concat ts)) a) as (raws1 & a2 & E2 & T & _).
    rewrite E2 in Ea. injection Ea as _ ->. exact T. }
  rewrite Ht in H. cbn [app] in H.
  exists raws, (match text a1 with [] => [] | t => [t] end), (Simple_Flush a1).2. split_and!.
  - rewrite streams_app, streams_tokens. cbn [Aggregate simpleAggregator]. rewrite E.
    cbn [mbind option_bind streams LLMText_ProcessFrame fst flush Flush simpleAggregator].
    destruct (Simple_Flush a1) as [u a2]. cbn [fst] in Hf. rewrite Hf. cbn [mbind option_bind snd]. rewrite app_nil_r. do 2 f_equal.
    rewrite !List.map_map, List.map_app, <- app_assoc. f_equal. by destruct (text a1).
  - rewrite List.concat_app, H. f_equal. destruct (text a1); cbn; by rewrite ?app_nil_r.
  - done.
  - destruct (text a1); cbn; lia.
  - unfold Simple_Flush. rewrite Hb1. cbn [orb]. by destruct (bool_decide_reflect (text a1 = [])).
  - unfold Simple_Flush. rewrite Hb1. cbn [orb]. by destruct (bool_decide_reflect (text a1 = [])).
  - intros ts' Hv' Hcc. rewrite !streams_app, !streams_tokens. cbn [Aggregate simpleAggregator]. by rewrite !stream_range, Hcc by done.
Qed.
End BySentence.

(** ** Cases the documents say otherwise *)

(** The gatherer of sentences is for the fragments a model streams; those are frames of
    their own, which it passes on as they are. *)
Lemma streamed_text_not_gathered tok err held t sk d :
  Sentence_ProcessFrame tok err held (LLMTextFrame t sk, d) = ([(LLMTextFrame t sk, d)], held).
Proof. done. Qed.
(** A text in which a sentence ends goes out with the beginning of the next. *)
Lemma unfinished_tail_pushed :
  Sentence_ProcessFrame (Some dotTokenizer) false (bytes_of "One") (TextFrame (bytes_of ". Tw"), Downstream)
  = ([(TextFrame (bytes_of "One. Tw"), Downstream)], []).
Proof. vm_compute. reflexivity. Qed.
(** An interruption with no response going on is reported as one cut short. *)
Lemma nothing_reported_cut_short :
  (handles FullResponse_ProcessFrame NewFullResponse [OtherFrame false 0; InterruptionFrame; InterruptionFrame]).1
  = [mkCompletion [] false; mkCompletion [] false].
Proof. reflexivity. Qed.

(** ** At work *)

Definition number (f : frame) : nat := match f with OtherFrame _ n => n | _ => 0%nat end.
Definition someGate : Gated := NewGated (fun f => Nat.eqb (number f) 1) (fun f => Nat.eqb (number f) 2) true Downstream.
Definition others (l : list nat) : list sent := List.map (fun n => (OtherFrame false n, Downstream)) l.
Lemma gate_holds_in_order_witness :
  gates (openFn someGate) (closeFn someGate) true [] (others [5; 2; 6; 1; 7; 2]%nat) (others [5; 1; 2; 6; 7]%nat) (others [2]%nat)
  /\ only (fun x => negb (gated someGate x)) (others [5; 1; 2; 6; 7]%nat) = [].
Proof. apply (gate_holds_in_order someGate (others [5; 2; 6; 1; 7; 2]%nat)); [done|constructor]. Defined.

Lemma response_grouped_witness : exists raws rest a',
  streams (A := @simpleAggregator dotTokenizer) false (Some (NewSimpleAggregator AggregationSentence))
    (List.map (fun t => (LLMTextFrame t None, Downstream)) [bytes_of "One. T"; bytes_of "wo"] ++ [(LLMFullResponseEndFrame None, Downstream)])
  = Some (List.map (fun r => pushAggregation None (sentenceOf r)) (raws ++ rest) ++ [(LLMFullResponseEndFrame None, Downstream)], Some a')
  /\ List.concat (raws ++ rest) = bytes_of "One. Two" /\ (length rest <= 1)%nat.
Proof.
  destruct (response_grouped (tok := dotTokenizer) false (NewSimpleAggregator AggregationSentence) None Downstream [bytes_of "One. T"; bytes_of "wo"])
    as (raws & rest & a' & H1 & H2 & _ & H4 & _).
  - reflexivity.
  - reflexivity.
  - repeat constructor; apply ascii_valid; reflexivity.
  - exists raws, rest, a'. split_and!; [exact H1|exact H2|exact H4].
Defined.
End SmallAggs.
