(* ===== verification/Prog.v ===== *)
(** * Programs over shared state

    What a goroutine does as a program: its actions are the critical sections of the
    code, each with the outcomes it may have on a state; one with none waits.  Several
    programs over one state run in any order.  A program may also ask something of code
    that is not modelled, and goes on with whatever is answered.

    The second half is how the files reason about one program among others: by what it
    knows throughout, what it keeps to at each action ([takes]), and what it adds to
    something others do not add to ([adds]). *)

From S2P Require Import Prelude.

Declare Scope prog_scope.

Module Prog.

Section Programs.
Context {S Q X : Type}.

Inductive prog (A : Type) : Type :=
| Ret (a : A)
| Act (R : Type) (f : S -> list (R * S)) (k : R -> prog A)
| Ask (q : Q) (k : X -> prog A).
Arguments Ret {A} a. Arguments Act {A R} f k. Arguments Ask {A} q k.

Fixpoint bind {A B} (p : prog A) (k : A -> prog B) : prog B :=
  match p with
  | Ret a => k a
  | Act f k' => Act f (fun r => bind (k' r) k)
  | Ask q k' => Ask q (fun x => bind (k' x) k)
  end.

Definition skip : prog unit := Ret tt.
Definition get {A} (f : S -> A) : prog A := Act (fun s => [(f s, s)]) Ret.
Definition act {A} (f : S -> A * S) : prog A := Act (fun s => [f s]) Ret.
Definition do_ (f : S -> S) : prog unit := Act (fun s => [(tt, f s)]) Ret.
Definition ask (q : Q) : prog X := Ask q Ret.
Definition when (b : bool) (p : prog unit) : prog unit := if b then p else skip.
Fixpoint each {A} (l : list A) (p : A -> prog unit) : prog unit :=
  match l with [] => skip | a :: l => bind (p a) (fun _ => each l p) end.

Definition idle {A} (p : prog A) : bool := match p with Ret _ => true | _ => false end.

(** ** One program among others

    [v] is what the program has to itself, [pre] what is known whenever it acts, [rel]
    what an action does to both. *)
Section Outline.
Context {V : Type} (pre : V -> S -> Prop) (rel : V -> S -> S -> V -> Prop).

Fixpoint takes {A} (p : prog A) (P : A -> V -> Prop) (v : V) : Prop :=
  match p with
  | Ret a => P a v
  | Act f k => forall s r s', In (r, s') (f s) -> pre v s -> exists v', rel v s s' v' /\ takes (k r) P v'
  | Ask q k => forall x, takes (k x) P v
  end.

Lemma takes_bind {A B} (p : prog A) (k : A -> prog B) P v :
  takes p (fun a v' => takes (k a) P v') v -> takes (bind p k) P v.
Proof.
  revert v. induction p as [a|R f k' IH|q k' IH]; intros v; cbn; [auto| |auto].
  intros H s r s' Hin Hpre. destruct (H s r s' Hin Hpre) as (v' & Hr & Hp). eauto.
Qed.
Lemma takes_mono {A} (p : prog A) (P P' : A -> V -> Prop) v :
  takes p P v -> (forall a v', P a v' -> P' a v') -> takes p P' v.
Proof.
  revert v. induction p as [a|R f k' IH|q k' IH]; intros v; cbn; [auto| |eauto].
  intros H HP s r s' Hin Hpre. destruct (H s r s' Hin Hpre) as (v' & Hr & Hp). eauto.
Qed.
Lemma takes_seq {A B} (p : prog A) (k : A -> prog B) P P' v :
  takes p P' v -> (forall a v', P' a v' -> takes (k a) P v') -> takes (bind p k) P v.
Proof. intros Hp Hk. apply takes_bind. eapply takes_mono; eauto. Qed.
Lemma takes_get {A B} (f : S -> A) (k : A -> prog B) P v :
  (forall s, pre v s -> rel v s s v) -> (forall s, pre v s -> takes (k (f s)) P v) -> takes (bind (get f) k) P v.
Proof. intros Hrel Hk s r s' [[= <- <-]|[]] Hpre. eauto. Qed.
Lemma takes_act {A B} (f : S -> A * S) (k : A -> prog B) P v :
  (forall s, pre v s -> exists v', rel v s (f s).2 v' /\ takes (k (f s).1) P v') -> takes (bind (act f) k) P v.
Proof.
  intros H. cbn. intros s r s' Hin Hpre. destruct Hin as [E|[]]. destruct (H s Hpre) as (v' & Hr & Hk). rewrite E in Hr, Hk. eauto.
Qed.
Lemma takes_do {B} (f : S -> S) (k : unit -> prog B) P v v' :
  (forall s, pre v s -> rel v s (f s) v') -> takes (k tt) P v' -> takes (bind (do_ f) k) P v.
Proof. intros Hrel Hk s r s' [[= <- <-]|[]] Hpre. eauto. Qed.
Lemma takes_each {A} (l : list A) p v :
  (forall a, takes (p a) (fun _ v' => v' = v) v) -> takes (each l p) (fun _ v' => v' = v) v.
Proof. intros Hp. induction l as [|a l IH]; [done|]. eapply takes_seq; [apply Hp|]. by intros [] v' ->. Qed.
End Outline.

(** The same of a program that asks nothing, and must not wait but where it may. *)
Section Waiting.
Context {V : Type} (pre : V -> S -> Prop) (rel : V -> S -> S -> V -> Prop) (may : V -> S -> Prop).

Fixpoint goes {A} (p : prog A) (P : A -> V -> Prop) (v : V) : Prop :=
  match p with
  | Ret a => P a v
  | Act f k =>
    (forall s, pre v s -> f s = [] -> may v s)
    /\ (forall s r s', In (r, s') (f s) -> pre v s -> exists v', rel v s s' v' /\ goes (k r) P v')
  | Ask q k => False
  end.

Lemma goes_bind {A B} (p : prog A) (k : A -> prog B) P v :
  goes p (fun a v' => goes (k a) P v') v -> goes (bind p k) P v.
Proof.
  revert v. induction p as [a|R f k' IH|q k' IH]; intros v; cbn; [auto| |auto].
  intros [Hw H]. split; [done|]. intros s r s' Hin Hpre. destruct (H s r s' Hin Hpre) as (v' & Hr & Hp). eauto.
Qed.
Lemma goes_mono {A} (p : prog A) (P P' : A -> V -> Prop) v :
  goes p P v -> (forall a v', P a v' -> P' a v') -> goes p P' v.
Proof.
  revert v. induction p as [a|R f k' IH|q k' IH]; intros v; cbn; [auto| |eauto].
  intros [Hw H] HP. split; [done|]. intros s r s' Hin Hpre. destruct (H s r s' Hin Hpre) as (v' & Hr & Hp). eauto.
Qed.
Lemma goes_seq {A B} (p : prog A) (k : A -> prog B) P P' v :
  goes p P' v -> (forall a v', P' a v' -> goes (k a) P v') -> goes (bind p k) P v.
Proof. intros Hp Hk. apply goes_bind. eapply goes_mono; eauto. Qed.
Lemma goes_get {A B} (f : S -> A) (k : A -> prog B) P v :
  (forall s, pre v s -> rel v s s v) -> (forall s, pre v s -> goes (k (f s)) P v) -> goes (bind (get f) k) P v.
Proof. intros Hrel Hk. split; [done|]. intros s r s' [[= <- <-]|[]] Hpre. eauto. Qed.
Lemma goes_do {B} (f : S -> S) (k : unit -> prog B) P v v' :
  (forall s, pre v s -> rel v s (f s) v') -> goes (k tt) P v' -> goes (bind (do_ f) k) P v.
Proof. intros Hrel Hk. split; [done|]. intros s r s' [[= <- <-]|[]] Hpre. eauto. Qed.
End Waiting.

(** A weaker bargain. *)
Lemma takes_weaken {V} (pre pre' : V -> S -> Prop) (rel rel' : V -> S -> S -> V -> Prop) {A} (p : prog A) P v :
  (forall v s, pre' v s -> pre v s) -> (forall v s s' v', pre' v s -> rel v s s' v' -> rel' v s s' v') ->
  takes pre rel p P v -> takes pre' rel' p P v.
Proof.
  intros Hp Hr. revert v. induction p as [a|R f k IH|q k IH]; intros v; cbn; [auto| |auto].
  intros H s r s' Hin Hpre. destruct (H s r s' Hin (Hp _ _ Hpre)) as (v' & ? & ?). eauto.
Qed.

(** ** What a program adds

    [out] reads off a state something only the programs add to; whatever the states
    the program acts on, [holds] being known of them, it adds [tr] and answers [a]. *)
Section Adds.
Context {F : Type} (out : S -> list F) (holds : S -> Prop).

Fixpoint adds {A} (p : prog A) (tr : list F) (a : A) : Prop :=
  match p with
  | Ret b => tr = [] /\ a = b
  | Act f k => exists s r s' t t', holds s /\ In (r, s') (f s) /\ out s' = out s ++ t /\ adds (k r) t' a /\ tr = t ++ t'
  | Ask q k => exists x, adds (k x) tr a
  end.

Lemma adds_bind {A B} (p : prog A) (k : A -> prog B) tr b :
  adds (bind p k) tr b <-> exists a t t', adds p t a /\ adds (k a) t' b /\ tr = t ++ t'.
Proof.
  revert tr. induction p as [a|R f k' IH|q k' IH]; intros tr; cbn.
  - split; [intros H; by exists a, [], tr|]. by intros (? & ? & ? & [-> ->] & H & ->).
  - split.
    + intros (s & r & s' & t & t' & Hs & Hin & Ho & (a & t1 & t2 & H1 & H2 & ->)%IH & ->).
      exists a, (t ++ t1), t2. split_and!; [|done|by rewrite app_assoc]. by exists s, r, s', t, t1.
    + intros (a & ? & t2 & (s & r & s' & t & t' & Hs & Hin & Ho & H1 & ->) & H2 & ->).
      exists s, r, s', t, (t' ++ t2). split_and!; [done..|apply IH; by exists a, t', t2|by rewrite app_assoc].
  - split.
    + intros (x & (a & t1 & t2 & H1 & H2 & ->)%IH). exists a, t1, t2. by split; [exists x|].
    + intros (a & t1 & t2 & (x & H1) & H2 & ->). exists x. apply IH. by exists a, t1, t2.
Qed.
Lemma adds_get {A B} (f : S -> A) (k : A -> prog B) tr b :
  adds (bind (get f) k) tr b -> exists s, holds s /\ adds (k (f s)) tr b.
Proof.
  cbn. intros (s & r & s' & t & t' & Hs & Hin & Ho & Ht & ->). destruct Hin as [[= <- <-]|[]].
  exists s. split; [done|]. rewrite <- (app_nil_r (out s)) in Ho at 1. by apply app_inv_head in Ho as <-.
Qed.
Lemma adds_act {A B} (f : S -> A * S) (k : A -> prog B) (tr : list F) b :
  (forall s, out (f s).2 = out s) -> adds (bind (act f) k) tr b -> exists s, holds s /\ adds (k (f s).1) tr b.
Proof.
  intros Hf. cbn. intros (s & r & s' & t & t' & Hs & Hin & Ho & Ht & ->). destruct Hin as [E|[]].
  exists s. split; [done|]. specialize (Hf s). rewrite E in Hf |- *. cbn in Hf. rewrite Hf, <- (app_nil_r (out s)) in Ho at 1.
  by apply app_inv_head in Ho as <-.
Qed.
Lemma adds_do {B} (f : S -> S) t (k : unit -> prog B) tr b :
  (forall s, out (f s) = out s ++ t) -> adds (bind (do_ f) k) tr b -> exists t', adds (k tt) t' b /\ tr = t ++ t'.
Proof.
  intros Hf. cbn. intros (s & r & s' & t1 & t' & Hs & Hin & Ho & Ht & ->). destruct Hin as [[= <- <-]|[]].
  rewrite Hf in Ho. apply app_inv_head in Ho as <-. eauto.
Qed.
End Adds.
End Programs.
Arguments prog : clear implicits.
Arguments Ret {S Q X A} a. Arguments Act {S Q X A R} f k. Arguments Ask {S Q X A} q k.

(** ** Lists of programs

    Of one of several programs, and of what each has to itself. *)
Lemma insert_at {A} (l1 : list A) p l2 p' : <[length l1 := p']> (l1 ++ p :: l2) = l1 ++ p' :: l2.
Proof. induction l1 as [|q l1 IH]; [done|]. cbn. f_equal. exact IH. Qed.
Lemma lookup_at {A} (l : list A) i p : l !! i = Some p -> exists l1 l2, i = length l1 /\ l = l1 ++ p :: l2.
Proof.
  revert i. induction l as [|q l IH]; intros [|i] E; [done|done|injection E as ->; by exists [], l|].
  destruct (IH i E) as (l1 & l2 & -> & ->). by exists (q :: l1), l2.
Qed.
Lemma Forall2_at {A C} (P : A -> C -> Prop) l1 p l2 vs : Forall2 P (l1 ++ p :: l2) vs ->
  exists vs1 v vs2, vs = vs1 ++ v :: vs2 /\ Forall2 P l1 vs1 /\ P p v /\ Forall2 P l2 vs2.
Proof.
  revert vs. induction l1 as [|q l1 IH]; intros vs H; inversion H as [|? w ? vs' Hw H']; subst.
  - exists [], w, vs'. by split_and!.
  - destruct (IH vs' H') as (vs1 & v & vs2 & -> & H1 & H2 & H3). exists (w :: vs1), v, vs2. split_and!; [done|by constructor|done..].
Qed.
Lemma Forall2_around {A C} (P P' : A -> C -> Prop) l1 p l2 vs1 v vs2 : (forall p v, P p v -> P' p v) ->
  Forall2 P l1 vs1 -> Forall2 P l2 vs2 -> P' p v -> Forall2 P' (l1 ++ p :: l2) (vs1 ++ v :: vs2).
Proof.
  intros Himp H1 H2 Hp. induction H1 as [|q w l1 vs1 Hw H1 IH]; [|constructor; auto].
  constructor; [done|]. induction H2 as [|q w l2 vs2 Hw H2 IH]; constructor; auto.
Qed.
End Prog.

Notation "'let!' x ':=' p 'in' q" := (Prog.bind p (fun x => q))
  (at level 10, x name, p at level 100, q at level 200) : prog_scope.
Notation "p ;;; q" := (Prog.bind p (fun _ => q)) (at level 100, q at level 200, right associativity) : prog_scope.
