(* ===== verification/GatedContext.v ===== *)
(** * The conversation held back

    [src/processor/aggregators/gatedcontext.go], over the notifier of
    [src/utils/notify/notify.go].  The handlers of frames, of which one of a system frame
    may run beside another, the notifications and the goroutines that wait for them are
    programs of [Prog.v] over one state; a conversation is a number.  The pushes are taken
    to succeed. *)

From S2P Require Import Prelude Prog.
Import Prog.

Module GatedContext.
Local Open Scope prog_scope.

Inductive frame := StartFrame | EndFrame | CancelFrame | LLMContextFrame (c : nat) | OtherFrame (n : nat).
#[export] Instance frame_dec : EqDecision frame. Proof. solve_decision. Defined.

Inductive event :=
| Pushed (f : frame)
| Kept (c : nat)
| Notified | Woken
| Took (c : nat) | Released (c : nat)
| Started | Stopped.

(** The notifier remembers one notification.  A context is the number of the goroutine it
    was made for. *)
Record Gate := mkGate {
  notified : bool;
  startOpen : bool;
  last : option nat;
  cancel : option nat;
  canceled : list nat;
  drawn : nat;
  running : nat;                   (** [wg] *)
  log : list event
}.
#[export] Instance eta_Gate : Eta Gate := fun g =>
  mkGate (notified g) (startOpen g) (last g) (cancel g) (canceled g) (drawn g) (running g) (log g).
Definition NewGatedContext (open : bool) : Gate := mkGate false open None None [] 0 0 [].
Abbreviation prog := (Prog.prog Gate unit unit).
Definition emit (e : event) (g : Gate) : Gate := g <| log ::= fun l => l ++ [e] |>.
Definition log_ (e : event) : prog unit := do_ (emit e).

(** [EventNotifier] *)
Definition Notify : prog unit := do_ (fun g => emit Notified (g <| notified := true |>)).
Definition Wait (ctx : nat) : prog bool :=
  Act (fun g => (if notified g then [(true, emit Woken (g <| notified := false |>))] else [])
                ++ (if bool_decide (ctx ∈ canceled g) then [(false, g)] else [])) Ret.

(** A round of the waiting goroutine, and whether there is another. *)
Definition wait (ctx : nat) : prog bool :=
  let! ok := Wait ctx in
  if ok then
    let! held := act (fun g => (last g, match last g with Some c => emit (Took c) (g <| last := None |>) | None => g end)) in
    match held with
    | None => Ret true
    | Some c => log_ (Released c) ;;; Ret true
    end
  else do_ (fun g => g <| running ::= Nat.pred |>) ;;; Ret false.

Definition start : prog unit :=
  do_ (fun g => match cancel g with
                | Some _ => g
                | None => emit Started (g <| cancel := Some (drawn g) |> <| drawn ::= S |> <| running ::= S |>)
                end).
Definition stop : prog unit :=
  let! c := act (fun g => (cancel g, g <| cancel := None |>)) in
  match c with
  | None => skip
  | Some ctx =>
    do_ (fun g => g <| canceled ::= cons ctx |>) ;;;
    Act (fun g => if Nat.eqb (running g) 0 then [(tt, emit Stopped g)] else []) Ret
  end.
Definition ProcessFrame (f : frame) : prog unit :=
  match f with
  | StartFrame => log_ (Pushed f) ;;; start
  | EndFrame | CancelFrame => stop ;;; log_ (Pushed f)
  | LLMContextFrame c =>
    let! open := act (fun g => if startOpen g then (true, g <| startOpen := false |>) else (false, emit (Kept c) (g <| last := Some c |>))) in
    if open then log_ (Pushed f) else skip
  | OtherFrame _ => log_ (Pushed f)
  end.

(** ** The goroutines *)

Record Sys := mkSys { gate : Gate; waiters : list (prog bool); handlers : list (prog unit) }.
Inductive call := CallFrame (f : frame) | CallNotify | CallCleanup.
Definition begin (c : call) : prog unit := match c with CallFrame f => ProcessFrame f | CallNotify => Notify | CallCleanup => stop end.
Inductive choice := Begin (c : call) | RunHandler (i : nat) | RunWaiter (i n : nat).
Definition runNth {A} (p : prog A) (n : nat) (g : Gate) : option (prog A * Gate) :=
  match p with Act f k => '(r, g') ← List.nth_error (f g) n; Some (k r, g') | _ => None end.
(** A goroutine goes round again, and one is started where the handler did. *)
Definition again (i : nat) (p : prog bool) : prog bool := match p with Ret true => wait i | p => p end.
Definition spawned (g : Gate) (ws : list (prog bool)) : list (prog bool) :=
  if Nat.eqb (drawn g) (length ws) then ws else ws ++ [wait (length ws)].
Definition step (c : choice) (y : Sys) : option Sys :=
  match c with
  | Begin c => Some (mkSys (gate y) (waiters y) (handlers y ++ [begin c]))
  | RunHandler i => p ← handlers y !! i; '(p, g) ← runNth p 0 (gate y); Some (mkSys g (spawned g (waiters y)) (<[i := p]> (handlers y)))
  | RunWaiter i n => p ← waiters y !! i; '(p, g) ← runNth p n (gate y); Some (mkSys g (<[i := again i p]> (waiters y)) (handlers y))
  end.
Fixpoint exec (cs : list choice) (y : Sys) : option Sys :=
  match cs with [] => Some y | c :: cs => y ← step c y; exec cs y end.
Definition boot (open : bool) : Sys := mkSys (NewGatedContext open) [] [].

(** ** What it promises

    The one conversation held, a notification not yet taken, how many have been taken and
    may still let one go, the conversations let go and not yet pushed, and whether nobody
    waits. *)
Record spec := mkSpec { sHeld : option nat; sSignal : bool; sDue : nat; sOut : list nat; sQuiet : bool }.
Definition spec_step (a : spec) (e : event) (a' : spec) : Prop :=
  match e with
  | Pushed _ => a' = a
  | Kept c => a' = mkSpec (Some c) (sSignal a) (sDue a) (sOut a) (sQuiet a)
  | Notified => a' = mkSpec (sHeld a) true (sDue a) (sOut a) (sQuiet a)
  | Woken => sSignal a = true /\ sQuiet a = false /\ a' = mkSpec (sHeld a) false (S (sDue a)) (sOut a) false
  | Took c => sHeld a = Some c /\ sQuiet a = false /\ 0 < sDue a /\ a' = mkSpec None (sSignal a) (Nat.pred (sDue a)) (c :: sOut a) false
  | Released c => sQuiet a = false /\ exists o1 o2, sOut a = o1 ++ c :: o2 /\ a' = mkSpec (sHeld a) (sSignal a) (sDue a) (o1 ++ o2) false
  | Started => a' = mkSpec (sHeld a) (sSignal a) (sDue a) (sOut a) false
  | Stopped => sOut a = [] /\ a' = mkSpec (sHeld a) (sSignal a) (sDue a) [] true
  end.
Inductive follows : list event -> spec -> Prop :=
| follows_nil : follows [] (mkSpec None false 0 [] true)
| follows_snoc l e a a' : follows l a -> spec_step a e a' -> follows (l ++ [e]) a'.

(** What a waiting goroutine is at: over, about, just woken, or with a conversation to
    push. *)
Inductive role := Over | About | Awoken | Holding (c : nat).
Definition holding (v : role) : list nat := match v with Holding c => [c] | _ => [] end.
Definition due (v : role) : nat := match v with Awoken => 1 | _ => 0 end.
Definition live (v : role) : nat := match v with Over => 0 | _ => 1 end.
(** Where the promise stands, [out] being let go and not yet pushed. *)
Definition at_ (g : Gate) (n : nat) (out : list nat) (quiet : bool) : Prop :=
  exists o d, o ≡ₚ out /\ n <= d /\ follows (log g) (mkSpec (last g) (notified g) d o quiet).
Definition turn (v : role) (g g' : Gate) (v' : role) : Prop :=
  (forall n rest, at_ g (due v + n) (holding v ++ rest) false -> at_ g' (due v' + n) (holding v' ++ rest) false)
  /\ running g' + live v = running g + live v' /\ drawn g' = drawn g /\ v <> Over.
Definition deed (v : unit) (g g' : Gate) (v' : unit) : Prop :=
  (forall n out q, (running g = 0 -> out = []) -> at_ g n out q -> (q = true -> running g = 0) -> exists q', at_ g' n out q' /\ (q' = true -> running g' = 0))
  /\ (drawn g' = drawn g /\ running g' = running g \/ drawn g' = S (drawn g) /\ running g' = S (running g)).
Definition awake (v : role) (g : Gate) : Prop := v <> Over -> 0 < running g.
Abbreviation waits p P v := (takes awake turn p P v).
Abbreviation deeds p := (takes (fun _ _ => True) deed p (fun _ _ => True) tt).

Lemma at_emit e g g' n out q n' out' q' :
  at_ g n out q -> log g' = log g ++ [e] ->
  (forall o d, o ≡ₚ out -> n <= d -> exists o' d', o' ≡ₚ out' /\ n' <= d' /\ spec_step (mkSpec (last g) (notified g) d o q) e (mkSpec (last g') (notified g') d' o' q')) ->
  at_ g' n' out' q'.
Proof.
  intros (o & d & Ho & Hd & Hf) El Hs. destruct (Hs o d Ho Hd) as (o' & d' & Ho' & Hd' & Hst). exists o', d'. split_and!; [done..|]. rewrite El. by eapply follows_snoc.
Qed.
Lemma at_same g g' n n' out q : at_ g n out q -> n' <= n -> log g' = log g -> last g' = last g -> notified g' = notified g -> at_ g' n' out q.
Proof. intros (o & d & Ho & Hd & Hf) Hn El E1 E2. exists o, d. split_and!; [done|lia|]. by rewrite El, E1, E2. Qed.

(** A round of a goroutine that waits. *)
Lemma waits_wait ctx : waits (wait ctx) (fun b v' => v' = if b : bool then About else Over) About.
Proof.
  unfold wait. intros g b g' Hin Hrun. rewrite in_app_iff in Hin. destruct Hin as [Hin|Hin].
  - destruct (notified g) eqn:En; [|done]. destruct Hin as [[= <- <-]|[]]. exists Awoken. split.
    { split_and!; [|done|done|done]. intros n rest Hat. eapply at_emit; [exact Hat|done|]. intros o d Ho Hd. exists o, (S d). cbn in *. rewrite En. split_and!; [exact Ho|lia|done..]. }
    intros g1 h g1' [[= <- <-]|[]] Hrun1. destruct (last g1) as [c|] eqn:El.
    + exists (Holding c). split.
      { split_and!; [|done|done|done]. intros n rest Hat. eapply at_emit; [exact Hat|done|]. intros o d Ho Hd. exists (c :: o), (Nat.pred d). cbn in *.
        rewrite El. split_and!; [by rewrite Ho|lia|done|done|lia|done]. }
      intros g2 u g2' [[= <- <-]|[]] Hrun2. exists About. split; [|done].
      split_and!; [|done|done|done]. intros n rest Hat. eapply at_emit; [exact Hat|done|]. intros o d Ho Hd. cbn in *.
      assert (c ∈ o) as Hc by (rewrite Ho; by apply elem_of_cons; left). apply list_elem_of_split in Hc as (o1 & o2 & ->).
      exists (o1 ++ o2), d. split_and!; [by apply (Permutation_cons_inv (a := c)); rewrite <- Ho, Permutation_middle|done|done|]. eauto.
    + exists About. split; [|done]. split_and!; [|done|done|done]. intros n rest Hat. eapply at_same; [exact Hat|cbn; lia|done..].
  - destruct (bool_decide (ctx ∈ canceled g)); [|done]. destruct Hin as [[= <- <-]|[]]. exists About. split; [by split_and!|].
    intros g1 u g1' [[= <- <-]|[]] Hrun1. exists Over. split; [|done]. split_and!; [|cbn; specialize (Hrun1 ltac:(done)); lia|done|done].
    intros n rest Hat. by eapply at_same.
Qed.

Lemma deeds_seq {A} (f : Gate -> A * Gate) (k : A -> prog unit) :
  (forall g, deed tt g (f g).2 tt) -> (forall g, deeds (k (f g).1)) -> deeds (bind (act f) k).
Proof. intros Hf Hk. apply takes_act. intros g _. exists tt. split; [apply Hf|apply Hk]. Qed.
Lemma deed_emit e g g' : log g' = log g ++ [e] -> running g' = running g -> drawn g' = drawn g ->
  (forall d o q, spec_step (mkSpec (last g) (notified g) d o q) e (mkSpec (last g') (notified g') d o q)) -> deed tt g g' tt.
Proof.
  intros El E1 E2 He. split; [|by left]. intros n out q _ Hat Hq. exists q. rewrite E1. split; [|exact Hq]. eapply at_emit; [exact Hat|done|]. eauto.
Qed.
Lemma deed_same g g' : log g' = log g -> last g' = last g -> notified g' = notified g -> running g' = running g -> drawn g' = drawn g -> deed tt g g' tt.
Proof. intros E1 E2 E3 E4 E5. split; [|by left]. intros n out q _ Hat Hq. exists q. rewrite E4. split; [by eapply at_same|exact Hq]. Qed.
Lemma deeds_log e : (forall a, spec_step a e a) -> deeds (log_ e).
Proof. intros He g u g' [[= <- <-]|[]] _. exists tt. split; [|done]. by apply (deed_emit e). Qed.

Lemma deeds_start : deeds start.
Proof.
  intros g u g' [[= <- <-]|[]] _. exists tt. split; [|done]. destruct (cancel g); [by apply deed_same|]. split; [|by right].
  intros n out q _ Hat _. exists false. split; [|done]. eapply at_emit; [exact Hat|done|]. intros o d Ho Hd. exists o, d. by cbn.
Qed.
Lemma deeds_stop : takes (fun _ _ => True) deed stop (fun _ _ => True) tt.
Proof.
  unfold stop. apply deeds_seq; [intros g; by apply deed_same|]. intros g. cbn [fst]. destruct (cancel g) as [ctx|]; [|done].
  apply (takes_do _ _ _ _ _ tt tt); [intros g1 _; by apply deed_same|].
  intros g1 u g1' Hin _. destruct (Nat.eqb (running g1) 0) eqn:E; [|done]. apply Nat.eqb_eq in E. destruct Hin as [[= <- <-]|[]].
  exists tt. split; [|done]. split; [|by left]. intros n out q Hr Hat Hq. exists true. split; [|done].
  eapply at_emit; [exact Hat|done|]. intros o d Ho Hd. rewrite (Hr E) in Ho |- *. apply Permutation_nil_r in Ho as ->. exists [], d. by cbn.
Qed.
Lemma deeds_begin c : deeds (begin c).
Proof.
  destruct c as [[]| |]; cbn [begin ProcessFrame].
  - eapply takes_seq; [by apply deeds_log|]. intros _ [] _. apply deeds_start.
  - eapply takes_seq; [apply deeds_stop|]. intros _ [] _. by apply deeds_log.
  - eapply takes_seq; [apply deeds_stop|]. intros _ [] _. by apply deeds_log.
  - apply deeds_seq.
    + intros g. destruct (startOpen g); [by apply deed_same|by apply (deed_emit (Kept c))].
    + intros g. destruct (startOpen g); [by apply deeds_log|done].
  - by apply deeds_log.
  - intros g u g' [[= <- <-]|[]] _. exists tt. split; [|done]. by apply (deed_emit Notified).
  - apply deeds_stop.
Qed.

(** ** Every run *)

Definition total (vs : list role) : nat := list_sum (List.map live vs).
Definition wakes (vs : list role) : nat := list_sum (List.map due vs).
Definition held_by (vs : list role) : list nat := List.concat (List.map holding vs).
Definition sound (y : Sys) : Prop :=
  Forall (fun p => deeds p) (handlers y)
  /\ exists vs, Forall2 (fun p v => waits p (fun b v' => v' = if b : bool then About else Over) v) (waiters y) vs
       /\ running (gate y) = total vs /\ drawn (gate y) = length (waiters y)
       /\ exists q, at_ (gate y) (wakes vs) (held_by vs) q /\ (q = true -> running (gate y) = 0).

Lemma total_none vs : total vs = 0 -> held_by vs = [].
Proof. induction vs as [|[] vs IH]; cbn; [done|exact IH|done..]. Qed.
Lemma at_perm g n out out' q : at_ g n out q -> out ≡ₚ out' -> at_ g n out' q.
Proof. intros (o & d & Ho & Hr) Hp. exists o, d. split; [by rewrite Ho|done]. Qed.

Lemma gate_boot open : sound (boot open).
Proof.
  split; [constructor|]. exists []. split_and!; [constructor|done|done|]. exists true. split; [|done]. exists [], 0. split_and!; [done|done|apply follows_nil].
Qed.
Lemma gate_deed g g' u ws hs hs' : sound (mkSys g ws hs) -> deed tt g g' u -> Forall (fun p => deeds p) hs' -> sound (mkSys g' (spawned g' ws) hs').
Proof.
  intros [_ (vs & Hw & Hr & Hd & q & Hat & Hq)] [Hs Hn] Hh. cbn [gate waiters handlers] in *. split; [done|]. cbn [gate waiters]. unfold spawned.
  destruct (Hs (wakes vs) (held_by vs) q) as (q' & Hat' & Hq'); [intros E; apply total_none; congruence|done|done|].
  destruct Hn as [[En Er]|[En Er]]; rewrite En, Hd.
  - rewrite Nat.eqb_refl. exists vs. split_and!; [done|congruence|done|]. eauto.
  - destruct (Nat.eqb_spec (S (length ws)) (length ws)) as [E|_]; [lia|]. exists (vs ++ [About]).
    unfold total, wakes, held_by. rewrite !List.map_app, !list_sum_app, List.concat_app, length_app. cbn. rewrite Nat.add_0_r, app_nil_r.
    split_and!; [|rewrite Er, Hr; unfold total; lia|lia|eauto].
    apply Forall2_app; [done|]. constructor; [apply waits_wait|constructor].
Qed.
Lemma gate_turn g g' i v v' p p' ws hs vs q : Forall (fun p => deeds p) hs ->
  Forall2 (fun p v => waits p (fun b v' => v' = if b : bool then About else Over) v) ws vs -> running g = total vs -> drawn g = length ws ->
  at_ g (wakes vs) (held_by vs) q -> (q = true -> running g = 0) -> ws !! i = Some p -> vs !! i = Some v ->
  turn v g g' v' -> waits p' (fun b v' => v' = if b : bool then About else Over) v' -> sound (mkSys g' (<[i := p']> ws) hs).
Proof.
  intros Hh Hw Hr Hd Hat Hq Hi Hv (Hs & Er & En & Hlive) Hp'. split; [done|]. cbn [gate waiters].
  exists (<[i := v']> vs). assert (q = false) as ->.
  { destruct q; [|done]. specialize (Hq eq_refl). apply list_elem_of_split_length in Hv as (l1 & l2 & -> & _). unfold total in Hr.
    rewrite List.map_app, list_sum_app in Hr. destruct v; cbn in *; [done|lia..]. }
  apply list_elem_of_split_length in Hv as (l1 & l2 & -> & ->).
  assert (<[length l1 := v']> (l1 ++ v :: l2) = l1 ++ v' :: l2) as Ei by (rewrite insert_app_r_alt, Nat.sub_diag by lia; done).
  assert (forall x l1 l2, list_sum l1 + list_sum (x :: l2) = x + (list_sum l1 + list_sum l2)) as Esum by (intros x k1 k2; change (list_sum (x :: k2)) with (x + list_sum k2); lia).
  unfold total, wakes, held_by in *. split_and!.
  - by apply Forall2_insert.
  - rewrite Ei, List.map_app, list_sum_app. rewrite List.map_app, list_sum_app in Hr. cbn [List.map] in *. rewrite Esum in Hr |- *. lia.
  - by rewrite length_insert, En.
  - exists false. split; [|done]. rewrite Ei, !List.map_app, !list_sum_app, !List.concat_app in *. cbn [List.map List.concat] in *.
    cbn [List.map] in *. rewrite Esum in Hat |- *.
    assert (forall x l1 l2 : list nat, l1 ++ x ++ l2 ≡ₚ x ++ l1 ++ l2) as Eperm by (intros; rewrite !app_assoc; f_equiv; apply Permutation_app_comm).
    eapply at_perm; [apply Hs; eapply at_perm; [exact Hat|apply Eperm]|symmetry; apply Eperm].
Qed.
Lemma gate_step c y y' : sound y -> step c y = Some y' -> sound y'.
Proof.
  intros Hs. pose proof Hs as [Hh (vs & Hw & Hr & Hd & q & Hat & Hq)]. destruct c as [c|i|i n]; cbn [step].
  - intros [= <-]. split; [|by exists vs; split_and!; eauto]. apply Forall_app. split; [done|]. constructor; [apply deeds_begin|constructor].
  - destruct (handlers y !! i) as [p|] eqn:Ei; [|done]. cbn [mbind option_bind]. destruct p as [u|R f k|? k]; [done| |done]. cbn [runNth].
    destruct (List.nth_error (f (gate y)) 0) as [[r g]|] eqn:E; [|done]. intros [= <-].
    pose proof (proj1 (Forall_lookup _ _) Hh _ _ Ei (gate y) r g (List.nth_error_In _ _ E) I) as ([] & Hdeed & Hk).
    destruct y as [g0 ws hs]. eapply gate_deed; [exact Hs|exact Hdeed|]. by apply Forall_insert.
  - destruct (waiters y !! i) as [p|] eqn:Ei; [|done]. cbn [mbind option_bind]. destruct p as [u|R f k|? k]; [done| |done]. cbn [runNth].
    destruct (List.nth_error (f (gate y)) n) as [[r g]|] eqn:E; [|done]. intros [= <-].
    destruct (Forall2_lookup_l _ _ _ _ _ Hw Ei) as (v & Hv & Hp).
    assert (v <> Over -> 0 < running (gate y)) as Hrun.
    { intros Hne. rewrite Hr. apply list_elem_of_split_length in Hv as (l1 & l2 & -> & _). unfold total. rewrite List.map_app, list_sum_app.
      destruct v; cbn; [done|lia..]. }
    destruct (Hp (gate y) r g (List.nth_error_In _ _ E) Hrun) as (v' & Ht & Hk).
    destruct Ht as (Ht1 & Ht2 & Ht3 & Hne). eapply gate_turn; eauto; [by split_and!|]. unfold again. destruct (k r) as [[]|R' f' k'|? k']; try exact Hk. cbn in Hk. subst v'. apply waits_wait.
Qed.
Lemma gate_exec cs : forall y y', sound y -> exec cs y = Some y' -> sound y'.
Proof.
  induction cs as [|c cs IH]; intros y y' Hs; [by intros [= <-]|]. cbn [exec]. destruct (step c y) as [y1|] eqn:E; [|done].
  apply IH. by eapply gate_step.
Qed.

(** However handlers, notifications and waiting goroutines interleave, what happens keeps to
    the promise: a conversation is let go only when a notification was taken for it, the
    one kept last and once; what is pushed was let go, once; and once whoever stops the
    gate has done so nothing is pushed before it is started again. *)
Theorem gate_keeps_promise open cs y : exec cs (boot open) = Some y ->
  exists d o q, follows (log (gate y)) (mkSpec (last (gate y)) (notified (gate y)) d o q).
Proof. intros H. pose proof (gate_exec cs _ _ (gate_boot open) H) as [_ (vs & _ & _ & _ & q & (o & d & _ & _ & Hf) & _)]. eauto. Qed.

(** What the promise comes to. *)
Definition count (p : event -> bool) (l : list event) : nat := length (List.filter p l).
Definition isReleased (e : event) : bool := match e with Released _ => true | _ => false end.
Definition isNotified (e : event) : bool := match e with Notified => true | _ => false end.
Lemma count_snoc p l e : count p (l ++ [e]) = count p l + (if p e then 1 else 0).
Proof. unfold count. rewrite List.filter_app, length_app. cbn. by destruct (p e). Qed.
Lemma released_per_notification l a : follows l a ->
  count isReleased l + length (sOut a) + sDue a + (if sSignal a then 1 else 0) <= count isNotified l.
Proof.
  induction 1 as [|l e a a' _ IH Hs]; [cbn; lia|]. rewrite !count_snoc. destruct e; cbn [spec_step isReleased isNotified] in *; subst; cbn.
  - lia.
  - lia.
  - destruct (sSignal a); lia.
  - destruct Hs as (E & _ & ->). rewrite E in IH. cbn. lia.
  - destruct Hs as (_ & _ & Hd & ->). cbn. lia.
  - destruct Hs as (_ & o1 & o2 & E & ->). rewrite E, length_app in IH. cbn in *. rewrite length_app. lia.
  - lia.
  - destruct Hs as (E & ->). rewrite E in IH. cbn in *. lia.
Qed.
Lemma quiet_until_started l a : follows l a -> forall l1 l2 c, l = l1 ++ Stopped :: l2 -> Released c ∈ l2 -> Started ∈ l2.
Proof.
  enough (follows l a -> forall l1 l2, l = l1 ++ Stopped :: l2 -> Started ∈ l2 \/ sQuiet a = true /\ forall c, Released c ∉ l2) as H.
  { intros Hf l1 l2 c E Hc. destruct (H Hf l1 l2 E) as [?|[_ Hn]]; [done|]. by destruct (Hn c). }
  induction 1 as [|l e a a' _ IH Hs]; intros l1 l2 E; [by destruct l1|].
  induction l2 as [|e' l2 _] using List.rev_ind.
  { apply List.app_inj_tail in E as [_ ->]. right. destruct Hs as (_ & ->). split; [done|]. by intros c ?%not_elem_of_nil. }
  rewrite app_comm_cons, app_assoc in E. apply List.app_inj_tail in E as [E ->].
  destruct (IH l1 l2 E) as [?|[Hq Hn]]; [left; apply elem_of_app; by left|].
  destruct e'; cbn [spec_step] in Hs;
    try (right; split; [by (subst; exact Hq) || by destruct Hs as (_ & ->)|intros x [?|Hx%list_elem_of_singleton]%elem_of_app; [by eapply Hn|done]]).
  - destruct Hs as (_ & Hs & _). congruence.
  - destruct Hs as (_ & Hs & _). congruence.
  - destruct Hs as (Hs & _). congruence.
  - left. apply elem_of_app. right. by apply list_elem_of_singleton.
Qed.

(** ** Runs *)

Abbreviation played cs := (exec cs (boot false)).
Definition played_ok (cs : list choice) : bool := match played cs with Some _ => true | None => false end.
Definition played_out (cs : list choice) : Sys := default (boot false) (played cs).
Lemma played_exec cs : played_ok cs = true -> played cs = Some (played_out cs).
Proof. unfold played_ok, played_out. by destruct (played cs). Qed.
Definition toRelease : list choice :=
  [Begin (CallFrame StartFrame); RunHandler 0; RunHandler 0; Begin (CallFrame (LLMContextFrame 7)); RunHandler 1;
   Begin CallNotify; RunHandler 2; RunWaiter 0 0; RunWaiter 0 0].
Lemma gate_keeps_promise_witness : exists d o q,
  follows (log (gate (played_out (toRelease ++ [RunWaiter 0 0]))))
    (mkSpec (last (gate (played_out (toRelease ++ [RunWaiter 0 0])))) (notified (gate (played_out (toRelease ++ [RunWaiter 0 0])))) d o q).
Proof. apply (gate_keeps_promise false (toRelease ++ [RunWaiter 0 0])). apply played_exec. vm_compute. reflexivity. Defined.

(** Who stops a gate that another is stopping does not wait: the frame that cancels the
    run goes out ahead of a conversation still on its way. *)
Definition toCancel : list choice :=
  toRelease ++ [Begin (CallFrame EndFrame); RunHandler 3; Begin (CallFrame CancelFrame); RunHandler 4; RunHandler 4; RunWaiter 0 0].
Lemma released_behind_cancel :
  played_ok toCancel = true
  /\ log (gate (played_out toCancel)) = [Pushed StartFrame; Started; Kept 7; Notified; Woken; Took 7; Pushed CancelFrame; Released 7].
Proof. vm_compute. by split. Qed.
(** A notification that finds nothing held is spent: the conversation it was for is kept. *)
Lemma early_notification_spent :
  let cs := [Begin (CallFrame StartFrame); RunHandler 0; RunHandler 0; Begin CallNotify; RunHandler 1; RunWaiter 0 0; RunWaiter 0 0;
             Begin (CallFrame (LLMContextFrame 7)); RunHandler 2] in
  played_ok cs = true /\ last (gate (played_out cs)) = Some 7 /\ notified (gate (played_out cs)) = false.
Proof. vm_compute. by repeat split. Qed.
End GatedContext.
