(* ===== verification/Flows.v ===== *)
(** * Conversation flows

    [src/flows/]: a conversation taken through a graph of nodes ([manager.go],
    [types.go]), with the actions run on the way into and out of a node ([actions.go]),
    the summary a node may start from ([adapter.go]) and the errors ([errors.go]).

    The callers of the manager, the tool handlers, the callbacks after a tool's result
    and the dispatcher of the worker's events are goroutines over one state, each a
    program of [Prog.v].  The dispatcher ([src/utils/events/]) runs one handler at a time, in
    the order of the frames reaching the end of the pipeline.  The pipeline itself is the
    line of frames queued: they reach its end in order, or an interruption takes one off
    if it may; what the processors add (the bot falling silent) comes in between.

    The user's actions and functions are programs too, parameters of the model.  Messages
    of errors, logging, and what only handlers read (an action's [Params]) are left out. *)

From S2P Require Import Prelude Text Strings LlmContext Json Aggregators Prog.
Import Prog.

Module Flows.
Local Open Scope Z_scope.
Local Open Scope prog_scope.

Import LlmContext.

(** ** Errors *)

Inductive errKind := ErrFlow | ErrFlowInitialization | ErrFlowTransition | ErrInvalidFunction | ErrAction.
#[export] Instance errKind_dec : EqDecision errKind. Proof. solve_decision. Defined.
Inductive error := flowError (kind : errKind) (cause : option error) | Foreign (text : gostring).

Definition errf (k : errKind) : error := flowError k None.
Definition wrapErr (k : errKind) (cause : error) : error := flowError k (Some cause).
(** [flowError.Is] along [flowError.Unwrap], which is [errors.Is]. *)
Fixpoint Is (target : errKind) (e : error) : bool :=
  match e with
  | flowError k cause =>
    bool_decide (target = k) || bool_decide (target = ErrFlow) || match cause with Some c => Is target c | None => false end
  | Foreign _ => false
  end.

(** ** Nodes *)

(** What the user gives as a handler is known by a number; [None] is nil. *)
Record ActionConfig := mkAction { Type_ : gostring; AHandler : option nat; AText : gostring; AppendTextToContext : option bool }.
Definition appendTextToContext (a : ActionConfig) : bool := match AppendTextToContext a with Some b => b | None => true end.

Inductive ContextStrategy := ContextStrategyAppend | ContextStrategyReset | ContextStrategyResetWithSummary | OtherStrategy (s : gostring).
#[export] Instance ContextStrategy_dec : EqDecision ContextStrategy. Proof. solve_decision. Defined.
Record ContextStrategyConfig := mkStrategy { Strategy : ContextStrategy; SummaryPrompt : gostring }.
Definition Validate (c : ContextStrategyConfig) : option error :=
  if bool_decide (Strategy c = ContextStrategyResetWithSummary) && bool_decide (SummaryPrompt c = []) then Some (errf ErrFlow) else None.

(** An argument's schema, as [any]; [None] is what [json.Marshal] cannot render. *)
Record NodeFunction := mkFunction {
  fnName : gostring;
  fnDescription : gostring;
  Properties : option (gmap gostring (option Json.json));
  Required : option (list gostring);
  fnHandler : option nat;
  fnCancelOnInterruption : option bool;
  fnTimeoutSecs : option Float64.f64
}.

Record NodeConfig := mkNode {
  Name : gostring;
  RoleMessage : gostring;
  TaskMessages : option (list Message);
  Functions : list NodeFunction;
  PreActions : list ActionConfig;
  PostActions : list ActionConfig;
  NodeStrategy : option ContextStrategyConfig;
  RespondImmediately : option bool
}.
Definition respondsImmediately (n : NodeConfig) : bool := match RespondImmediately n with Some b => b | None => true end.
Definition cancelOnInterruption (f : NodeFunction) : option bool :=
  match fnCancelOnInterruption f with Some b => Some b | None => Some false end.

(** [json.Marshal]: the members of a map by their keys, in order; two members of one
    key do not arise from a map. *)
Definition member (kv : gostring * gostring) : gostring := jsonString kv.1 ++ [58] ++ kv.2.
Fixpoint sepBy (sep : gostring) (l : list gostring) : gostring :=
  match l with [] => [] | [s] => s | s :: l => s ++ sep ++ sepBy sep l end.
Fixpoint before (a b : gostring) : bool :=
  match a, b with
  | _, [] => false
  | [], _ :: _ => true
  | x :: a, y :: b => (x <? y) || ((x =? y) && before a b)
  end.
Fixpoint insertKey {A} (kv : gostring * A) (l : list (gostring * A)) : list (gostring * A) :=
  match l with
  | [] => [kv]
  | kv' :: l' => if before kv.1 kv'.1 then kv :: l else kv' :: insertKey kv l'
  end.
Definition sortKeys {A} (l : list (gostring * A)) : list (gostring * A) := List.fold_right insertKey [] l.
Definition object (l : list (gostring * gostring)) : gostring := [123] ++ sepBy [44] (List.map member (sortKeys l)) ++ [125].
Fixpoint Marshal (j : Json.json) : gostring :=
  match j with
  | Json.JNull => bytes_of "null"
  | Json.JBool true => bytes_of "true"
  | Json.JBool false => bytes_of "false"
  | Json.JNumber l => l
  | Json.JString s => jsonString s
  | Json.JArray l => [91] ++ sepBy [44] (List.map Marshal l) ++ [93]
  | Json.JObject l => object (List.map (fun kv => (kv.1, Marshal kv.2)) l)
  end.

(** [NodeFunction.parameters]; [None] is an error. *)
Definition marshalProperty (kv : gostring * option Json.json) : option (gostring * gostring) := (fun j => (kv.1, Marshal j)) <$> kv.2.
Definition fnParameters (f : NodeFunction) : option gostring :=
  props ← mapM marshalProperty (map_to_list (default ∅ (Properties f)));
  Some (object [(bytes_of "type", jsonString (bytes_of "object"));
                (bytes_of "properties", object props);
                (bytes_of "required", [91] ++ sepBy [44] (List.map jsonString (default [] (Required f))) ++ [93])]).

(** ** The manager *)

Inductive frame :=
| TTSSpeakFrame (text : gostring) (append : bool)
| ActionFinishedFrame
| FunctionActionFrame (a : ActionConfig) (fn : nat)
| EndFrame
| LLMUpdateSettingsFrame (instruction : gostring)
| LLMMessagesUpdateFrame (ms : list Message)
| LLMMessagesAppendFrame (ms : list Message)
| LLMSetToolsFrame (ts : list Tool)
| LLMRunFrame
| BotStoppedSpeakingFrame
| OtherFrame (n : nat).

(** What a type of action is registered as: one of the built-in handlers, or the
    user's. *)
Inductive ActionHandler := HandleTTSSay | HandleEndConversation | HandleFunction | Custom (h : nat).

Record pendingTransition := mkPending { next : NodeConfig; function : gostring }.

(** What is done, in order, for the theorems to speak of. *)
Inductive event :=
| Queued (f : frame)
| Settled                            (** a wait for the actions is over *)
| Undone                             (** a failed action has a start taken back *)
| Asked (p : pendingTransition)
| Dropped                            (** whatever transition was pending *)
| Took (p : pendingTransition).

Record FM := mkFM {
  (* fixed by [New] *)
  watched : bool; aggs : bool; llm : bool; strategy : ContextStrategyConfig; globals : list NodeFunction;
  (* the action manager *)
  names : gmap gostring ActionHandler;
  ongoing : Z;
  deferred : list ActionConfig;
  (* the manager *)
  initialized : bool;
  current : gostring;
  currentFns : gset gostring;
  pending : option pendingTransition;
  state : gmap gostring nat;           (** the values, as [any], by number *)
  (* what it reads and writes of the rest: the conversation, whether the assistant's
     calls are in progress, the frames on their way; identifiers drawn *)
  convo : list Message;
  callsInProgress : bool;
  pipe : list frame;
  drawn : nat;
  log : list event
}.
#[export] Instance eta_FM : Eta FM := fun s =>
  mkFM (watched s) (aggs s) (llm s) (strategy s) (globals s) (names s) (ongoing s) (deferred s) (initialized s) (current s)
    (currentFns s) (pending s) (state s) (convo s) (callsInProgress s) (pipe s) (drawn s) (log s).

(** What is asked of the model: an inference on a system instruction and a history.
    [None] is a failure, or no answer in time. *)
Record inference := mkInference { instruction : gostring; history : gostring }.
Abbreviation prog := (Prog.prog FM inference (option gostring)).

Section Manager.
Context {NewString : nat -> gostring}.

Definition emit (e : event) (s : FM) : FM := s <| log ::= fun l => l ++ [e] |>.
Definition queue (f : frame) (s : FM) : FM := emit (Queued f) (s <| pipe ::= fun l => l ++ [f] |>).
Definition QueueFrame (f : frame) : prog unit := do_ (queue f).
Definition QueueFrames (fs : list frame) : prog unit := each fs QueueFrame.

(** ** Actions *)

Definition actionTTSSay : gostring := bytes_of "tts_say".
Definition actionEndConversation : gostring := bytes_of "end_conversation".
Definition actionFunction : gostring := bytes_of "function".

(** [register]; a nil handler is refused. *)
Definition register (t : gostring) (h : option nat) : prog (option error) :=
  match h with
  | None => Ret (Some (errf ErrAction))
  | Some h => do_ (fun s => s <| names ::= insert t (Custom h) |>) ;;; Ret None
  end.
Definition registered (t : gostring) : prog (option ActionHandler) := get (fun s => names s !! t).
Definition registerFromConfig (a : ActionConfig) : prog (option error) :=
  if bool_decide (Type_ a = []) then Ret (Some (errf ErrAction))
  else
    let! h := registered (Type_ a) in
    match h with Some _ => Ret None | None => register (Type_ a) (AHandler a) end.

Definition startAction : prog unit := do_ (fun s => s <| ongoing ::= fun n => n + 1 |>).
Definition finished (s : FM) : FM := if 0 <? ongoing s then s <| ongoing ::= fun n => n - 1 |> else s.
Definition finishAction : prog unit := do_ finished.
(** As it is called where an action has failed. *)
Definition undoStart : prog unit := do_ (fun s => emit Undone (finished s)).

(** The wait, on the condition that goes with the mutex. *)
Definition settled (s : FM) : list (unit * FM) := if 0 <? ongoing s then [] else [(tt, emit Settled s)].
Definition awaitOngoing : prog unit := Act settled Ret.
Definition waits (previous upcoming : gostring) : bool :=
  if bool_decide (previous = actionTTSSay)
  then negb (bool_decide (upcoming ∈ [actionTTSSay; actionEndConversation; actionFunction]))
  else bool_decide (previous = actionFunction).
Definition waitForOngoing (previous upcoming : gostring) : prog unit := when (waits previous upcoming) awaitOngoing.

Definition handleTTSSay (a : ActionConfig) : prog (option error) :=
  if bool_decide (AText a = []) then Ret None
  else
    startAction ;;;
    QueueFrame (TTSSpeakFrame (AText a) (appendTextToContext a)) ;;;
    QueueFrame ActionFinishedFrame ;;;
    Ret None.
Definition handleEndConversation (a : ActionConfig) : prog (option error) :=
  startAction ;;;
  when (negb (bool_decide (AText a = []))) (QueueFrame (TTSSpeakFrame (AText a) (appendTextToContext a))) ;;;
  QueueFrame EndFrame ;;;
  Ret None.
Definition handleFunction (a : ActionConfig) : prog (option error) :=
  match AHandler a with
  | None => Ret None
  | Some h => startAction ;;; QueueFrame (FunctionActionFrame a h) ;;; Ret None
  end.

(** ** The user's code: actions, and functions answering with a result and where to go *)
Inductive nextNode := Stay | NoResponse | Go (n : NodeConfig).
Record answer := mkAnswer { result : gostring; nextOf : nextNode; failedWith : option error }.
Context (userAction : nat -> ActionConfig -> prog (option error)) (userFunction : nat -> gostring -> prog answer).

Definition runHandler (h : ActionHandler) (a : ActionConfig) : prog (option error) :=
  match h with
  | HandleTTSSay => handleTTSSay a
  | HandleEndConversation => handleEndConversation a
  | HandleFunction => handleFunction a
  | Custom h => userAction h a
  end.

(** The actions still to run, behind one of type [previous]. *)
Fixpoint executeFrom (previous : gostring) (actions : list ActionConfig) : prog (option error) :=
  match actions with
  | [] => waitForOngoing previous [] ;;; Ret None
  | a :: rest =>
    if bool_decide (Type_ a = []) then Ret (Some (errf ErrAction))
    else
      let! h := registered (Type_ a) in
      match h with
      | None => Ret (Some (errf ErrAction))
      | Some h =>
        let! before := get ongoing in
        waitForOngoing previous (Type_ a) ;;;
        let! e := runHandler h a in
        match e with
        | Some _ =>
          let! started := get (fun s => before <? ongoing s) in
          when started undoStart ;;;
          Ret (Some (errf ErrAction))
        | None =>
          if bool_decide (Type_ a = actionEndConversation) then waitForOngoing (Type_ a) [] ;;; Ret None
          else executeFrom (Type_ a) rest
        end
      end
  end.
Definition executeActions (actions : list ActionConfig) : prog (option error) :=
  match actions with [] => Ret None | _ => executeFrom [] actions end.

Definition scheduleDeferredPostActions (actions : list ActionConfig) : prog unit := do_ (fun s => s <| deferred := actions |>).
Definition clearDeferredPostActions : prog unit := do_ (fun s => s <| deferred := [] |>).
Definition runDeferredPostActions : prog unit :=
  let! actions := act (fun s => (deferred s, s <| deferred := [] |>)) in
  match actions with [] => skip | _ => executeActions actions ;;; skip end.

(** What the worker's event runs, for the frames the manager asks to hear of. *)
Definition wants (f : frame) : bool :=
  match f with ActionFinishedFrame | FunctionActionFrame _ _ | BotStoppedSpeakingFrame => true | _ => false end.
Definition frameReachedDownstream (f : frame) : prog unit :=
  match f with
  | FunctionActionFrame a h => userAction h a ;;; finishAction
  | BotStoppedSpeakingFrame =>
    let! idle := get (fun s => ongoing s =? 0) in
    when idle runDeferredPostActions
  | ActionFinishedFrame => finishAction
  | _ => skip
  end.

(** ** The summary *)

Definition summaryHeader : gostring := bytes_of "Here's a summary of the conversation:".
Definition formatSummaryMessage (summary : gostring) : Message := plain RoleDeveloper (summaryHeader ++ [10] ++ summary).
Definition renderMessage (m : Message) : gostring :=
  bytes_of "{'role': '" ++ roleName (role m) ++ bytes_of "', 'content': '" ++ text m ++ bytes_of "'}".
Definition renderMessages (ms : list Message) : gostring := sepBy [10] (List.map renderMessage ms).
Definition generateSummary (prompt : gostring) : prog gostring :=
  let! said := get convo in
  let! a := ask (mkInference prompt (bytes_of "Conversation history: " ++ renderMessages said)) in
  Ret (default [] a).
Definition summarize (prompt : gostring) : prog gostring :=
  let! able := get (fun s => llm s && aggs s) in
  if able then generateSummary prompt else Ret [].

(** ** Nodes *)

Definition nodeName (n : NodeConfig) : prog gostring :=
  if bool_decide (Name n = []) then act (fun s => (NewString (drawn s), s <| drawn ::= S |>)) else Ret (Name n).

Definition validateFunction (f : NodeFunction) : option error :=
  if bool_decide (fnName f = []) then Some (errf ErrInvalidFunction)
  else match fnHandler f with None => Some (errf ErrInvalidFunction) | Some _ => None end.
Fixpoint firstError {A} (check : A -> option error) (l : list A) : option error :=
  match l with [] => None | a :: l => match check a with Some e => Some e | None => firstError check l end end.
Definition validateNode (n : NodeConfig) : option error :=
  match TaskMessages n with
  | None => Some (errf ErrFlow)
  | Some _ => firstError validateFunction (Functions n)
  end.

(** The tool a function is offered as; its handler is [transitionFunc] of the function,
    known by the function's own. *)
Definition toolOf (f : NodeFunction) : error + Tool :=
  match validateFunction f with
  | Some e => inl e
  | None =>
    match fnParameters f with
    | None => inl (errf ErrInvalidFunction)
    | Some p =>
      inr (mkTool (fnName f) (fnDescription f) p (match fnHandler f with Some h => Carried h | None => Nothing end) Nothing
             (cancelOnInterruption f) (fnTimeoutSecs f) None)
    end
  end.
Fixpoint toolsOf (fs : list NodeFunction) : error + list Tool :=
  match fs with
  | [] => inr []
  | f :: fs =>
    match toolOf f with
    | inl e => inl e
    | inr t => match toolsOf fs with inl e => inl e | inr ts => inr (t :: ts) end
    end
  end.
Definition nodeTools (gs : list NodeFunction) (n : NodeConfig) : error + (list Tool * gset gostring) :=
  match toolsOf (gs ++ Functions n) with
  | inl e => inl e
  | inr ts => inr (ts, list_to_set (List.map fnName (gs ++ Functions n)))
  end.

Definition updateContext (n : NodeConfig) (tools : list Tool) : prog unit :=
  let! configured := get strategy in
  let strategy := default configured (NodeStrategy n) in
  let! summary :=
    (if bool_decide (Strategy strategy = ContextStrategyResetWithSummary)
     then summarize (SummaryPrompt strategy) else Ret []) in
  let kind :=
    if bool_decide (Strategy strategy = ContextStrategyResetWithSummary) && bool_decide (summary = [])
    then ContextStrategyAppend else Strategy strategy in
  let messages := (match summary with [] => [] | _ => [formatSummaryMessage summary] end) ++ default [] (TaskMessages n) in
  QueueFrames
    ((match RoleMessage n with [] => [] | r => [LLMUpdateSettingsFrame r] end)
     ++ [match kind with
         | ContextStrategyReset | ContextStrategyResetWithSummary => LLMMessagesUpdateFrame messages
         | _ => LLMMessagesAppendFrame messages
         end;
         LLMSetToolsFrame tools]).

(** A step that may fail, and what comes after. *)
Definition orElse (p : prog (option error)) (k : prog (option error)) : prog (option error) :=
  let! e := p in match e with Some e => Ret (Some e) | None => k end.
Fixpoint registerAll (l : list ActionConfig) : prog (option error) :=
  match l with [] => Ret None | a :: l => orElse (registerFromConfig a) (registerAll l) end.

Definition enterNode (id : gostring) (n : NodeConfig) : prog (option error) :=
  let! ready := act (fun s => (initialized s, emit Dropped (s <| pending := None |>))) in
  if negb ready then Ret (Some (errf ErrFlowTransition))
  else
    match validateNode n with
    | Some e => Ret (Some e)
    | None =>
      clearDeferredPostActions ;;;
      orElse (registerAll (PreActions n)) (
      orElse (registerAll (PostActions n)) (
      orElse (executeActions (PreActions n)) (
      let! gs := get globals in
      match nodeTools gs n with
      | inl e => Ret (Some e)
      | inr (tools, fns) =>
        updateContext n tools ;;;
        do_ (fun s => s <| current := id |> <| currentFns := fns |>) ;;;
        when (respondsImmediately n) (QueueFrame LLMRunFrame) ;;;
        match PostActions n with
        | [] => Ret None
        | post =>
          if respondsImmediately n then executeActions post
          else scheduleDeferredPostActions post ;;; Ret None
        end
      end)))
    end.
Definition setNode (id : gostring) (n : NodeConfig) : prog (option error) :=
  let! e := enterNode id n in Ret (flowError ErrFlow ∘ Some <$> e).

Definition SetNode (n : option NodeConfig) : prog (option error) :=
  match n with
  | None => Ret (Some (errf ErrFlowTransition))
  | Some n => let! id := nodeName n in setNode id n
  end.
Definition Initialize (n : option NodeConfig) : prog (option error) :=
  let! again := act (fun s => (initialized s, s <| initialized := true |>)) in
  if again then Ret None
  else
    match n with
    | None => Ret None
    | Some n =>
      let! id := nodeName n in
      let! e := setNode id n in
      match e with
      | None => Ret None
      | Some e => do_ (fun s => s <| initialized := false |>) ;;; Ret (Some (wrapErr ErrFlowInitialization e))
      end
    end.

(** ** The functions of a node *)

(** [strconv.Quote]: [%q]. *)
Context (IsPrint : rune -> bool).
Definition hex2 (r : Z) : gostring := [hexDigit (r / 16); hexDigit (r mod 16)].
Definition quoteRune (r : rune) (raw : gostring) : gostring :=
  if bool_decide (r = RuneError) && bool_decide (List.length raw = 1%nat) then bytes_of "\x" ++ hex2 (List.hd 0 raw)
  else if (r =? 34) || (r =? 92) then [92; r]
  else if IsPrint r then EncodeRune r
  else match List.find (fun p => p.1 =? r) [(7, 97); (8, 98); (12, 102); (10, 110); (13, 114); (9, 116); (11, 118)] with
       | Some (_, c) => [92; c]
       | None =>
         if (r <? 32) || (r =? 127) then bytes_of "\x" ++ hex2 r
         else if r <? 65536 then bytes_of "\u" ++ hex2 (r / 256) ++ hex2 (r mod 256)
         else bytes_of "\U" ++ hex2 0 ++ hex2 (r / 65536) ++ hex2 ((r / 256) mod 256) ++ hex2 (r mod 256)
       end.
Fixpoint quoteFrom (fuel : nat) (s : gostring) : gostring :=
  match fuel, s with
  | S fuel, _ :: _ => let '(r, w) := DecodeRune s in quoteRune r (firstn w s) ++ quoteFrom fuel (skipn w s)
  | _, _ => []
  end.
Definition Quote (s : gostring) : gostring := [34] ++ quoteFrom (List.length s) s ++ [34].

Definition quoted (s : string) : gostring := [34] ++ bytes_of s ++ [34].
Definition acknowledged : gostring := [123] ++ quoted "status" ++ bytes_of ": " ++ quoted "acknowledged" ++ [125].
Definition Error (e : error) : gostring := match e with Foreign t => t | flowError _ _ => [] end.
Definition errorResult (e : error) : gostring := 
  [123] ++ quoted "status" ++ bytes_of ": " ++ quoted "error" ++ bytes_of ", " ++ quoted "error" ++ bytes_of ": " ++ Quote (Error e) ++ [125].

(** What a call is answered with: the result, and its properties; [OnContextUpdated] is
    [checkAndExecuteTransition]. *)
Definition transitionFunc (name : gostring) (h : nat) (args : gostring) : prog (gostring * option Assistant.Properties) :=
  let! a := userFunction h args in
  match failedWith a with
  | Some e => Ret (errorResult e, None)
  | None =>
    match nextOf a with
    | NoResponse => Ret (result a, Some (Assistant.mkProps (Some false) false None))
    | Stay => Ret (result a, Some (Assistant.mkProps (Some true) false None))
    | Go n =>
      do_ (fun s => emit (Asked (mkPending n name)) (s <| pending := Some (mkPending n name) |>)) ;;;
      Ret (match result a with [] => acknowledged | r => r end, Some (Assistant.mkProps (Some false) true None))
    end
  end.

Definition takePending (s : FM) : option pendingTransition * FM :=
  match pending s with Some p => (Some p, emit (Took p) (s <| pending := None |>)) | None => (None, s) end.
Definition checkAndExecuteTransition : prog (option error) :=
  let! p := get pending in
  match p with
  | None => Ret None
  | Some _ =>
    let! busy := get (fun s => aggs s && callsInProgress s) in
    if busy then Ret None
    else
      let! p := act takePending in
      match p with
      | None => Ret None
      | Some p =>
        let! logged := nodeName (next p) in
        let! id := nodeName (next p) in
        setNode id (next p)
      end
  end.

(** ** The manager's own calls *)

Definition RegisterAction (t : gostring) (h : option nat) : prog (option error) := register t h.
Definition CurrentNode : prog gostring := get current.
Definition CurrentContext : prog (error + list Message) := get (fun s => if aggs s then inr (convo s) else inl (errf ErrFlow)).
Definition StateGet (key : gostring) : prog (option nat) := get (fun s => state s !! key).
Definition StateSet (key : gostring) (v : nat) : prog unit := do_ (fun s => s <| state ::= insert key v |>).
Definition StateDelete (key : gostring) : prog unit := do_ (fun s => s <| state ::= delete key |>).

Record Config := mkConfig {
  enqueuer : bool; watcher : bool; aggregators : bool; LLM : bool;
  cfgStrategy : option ContextStrategyConfig; GlobalFunctions : list NodeFunction
}.
Definition builtins : gmap gostring ActionHandler :=
  {[actionTTSSay := HandleTTSSay; actionEndConversation := HandleEndConversation; actionFunction := HandleFunction]}.
Definition New (c : Config) : error + FM :=
  if negb (enqueuer c) then inl (errf ErrFlow)
  else
    match (match cfgStrategy c with Some k => Validate k | None => None end) with
    | Some e => inl e
    | None =>
      match firstError validateFunction (GlobalFunctions c) with
      | Some e => inl e
      | None =>
        inr (mkFM (watcher c) (aggregators c) (LLM c) (default (mkStrategy ContextStrategyAppend []) (cfgStrategy c)) (GlobalFunctions c)
               builtins 0 [] false [] ∅ None ∅ [] false [] 0 [])
      end
    end.

(** ** The goroutines *)

(** What is asked of the manager from outside. *)
Inductive call :=
| CallInitialize (n : option NodeConfig)
| CallSetNode (n : option NodeConfig)
| CallFunction (name : gostring) (h : nat) (args : gostring)
| CallContextUpdated
| CallRegister (t : gostring) (h : option nat)
| CallStateSet (key : gostring) (v : nat)
| CallStateDelete (key : gostring).
Definition start (c : call) : prog unit :=
  match c with
  | CallInitialize n => Initialize n ;;; skip
  | CallSetNode n => SetNode n ;;; skip
  | CallFunction name h args => transitionFunc name h args ;;; skip
  | CallContextUpdated => checkAndExecuteTransition ;;; skip
  | CallRegister t h => RegisterAction t h ;;; skip
  | CallStateSet k v => StateSet k v
  | CallStateDelete k => StateDelete k
  end.

Record Sys := mkSys {
  fm : FM;
  callers : list (prog unit);
  events : list frame;             (** reported by the worker, not yet handled *)
  handling : option frame;         (** the one the dispatcher is at *)
  dispatcher : prog unit
}.
#[export] Instance eta_Sys : Eta Sys := fun y => mkSys (fm y) (callers y) (events y) (handling y) (dispatcher y).

Inductive choice :=
| Begin (c : call)
| Run (i n : nat)                  (** a caller's action, by its [n]-th outcome *)
| Answer (i : nat) (a : option gostring)
| Dispatch (n : nat)
| DispatchAnswer (a : option gostring)
| Deliver                          (** the first frame on its way reaches the end *)
| Lose (i : nat)                   (** an interruption takes a frame on its way *)
| Report (f : frame)               (** another frame reaches the end *)
| Said (ms : list Message)         (** the conversation becomes this *)
| Calls (b : bool).                (** whether tool calls are in progress *)

Definition uninterruptible (f : frame) : bool := match f with EndFrame => true | _ => false end.
Definition foreign (f : frame) : bool := match f with BotStoppedSpeakingFrame | OtherFrame _ => true | _ => false end.

Definition runNth {A} (p : prog A) (n : nat) (s : FM) : option (prog A * FM) :=
  match p with Act f k => '(r, s') ← List.nth_error (f s) n; Some (k r, s') | _ => None end.
Definition answerWith {A} (p : prog A) (a : option gostring) : option (prog A) :=
  match p with Ask _ k => Some (k a) | _ => None end.
Definition report (f : frame) (y : Sys) : Sys := if watched (fm y) && wants f then y <| events ::= fun l => l ++ [f] |> else y.

Definition step (c : choice) (y : Sys) : option Sys :=
  match c with
  | Begin c => Some (y <| callers ::= fun l => l ++ [start c] |>)
  | Run i n => p ← callers y !! i; '(p, s) ← runNth p n (fm y); Some (y <| fm := s |> <| callers ::= insert i p |>)
  | Answer i a => p ← callers y !! i; p ← answerWith p a; Some (y <| callers ::= insert i p |>)
  | Dispatch n =>
    if idle (dispatcher y) then
      match events y with
      | f :: rest => Some (y <| events := rest |> <| handling := Some f |> <| dispatcher := frameReachedDownstream f |>)
      | [] => None
      end
    else '(p, s) ← runNth (dispatcher y) n (fm y); Some (y <| fm := s |> <| dispatcher := p |>)
  | DispatchAnswer a => p ← answerWith (dispatcher y) a; Some (y <| dispatcher := p |>)
  | Deliver =>
    match pipe (fm y) with
    | f :: rest => Some (report f (y <| fm := (fm y) <| pipe := rest |> |>))
    | [] => None
    end
  | Lose i =>
    f ← pipe (fm y) !! i;
    if uninterruptible f then None else Some (y <| fm := (fm y) <| pipe ::= delete i |> |>)
  | Report f => if foreign f then Some (report f y) else None
  | Said ms => Some (y <| fm := (fm y) <| convo := ms |> |>)
  | Calls b => Some (y <| fm := (fm y) <| callsInProgress := b |> |>)
  end.
Fixpoint run (cs : list choice) (y : Sys) : option Sys :=
  match cs with [] => Some y | c :: cs => y ← step c y; run cs y end.
Definition boot (s : FM) : Sys := mkSys s [] [] None skip.
End Manager.
End Flows.
