(* ===== verification/FlowFacts.v ===== *)
(** * What conversation flows promise

    That a wait for the actions lets nothing by that is not done, and transitions are made
    once, whatever the interleaving of callers, dispatcher and pipeline; what entering a
    node puts into the pipeline; and where the code does what it does not mean to. *)

From S2P Require Import Prelude Text Strings LlmContext Json Aggregators Prog Flows.
Import LlmContext.LlmContext Prog Flows.

Module FlowFacts.
Local Open Scope Z_scope.
Local Open Scope prog_scope.

(** ** What an action does to the state *)

Definition finishing (f : frame) : bool := match f with ActionFinishedFrame | FunctionActionFrame _ _ => true | _ => false end.
Definition finishes (l : list frame) : Z := Z.of_nat (List.length (List.filter finishing l)).
Lemma finishes_app l l' : finishes (l ++ l') = finishes l + finishes l'.
Proof. unfold finishes. rewrite List.filter_app, List.length_app. lia. Qed.
Lemma finishes_cons f l : finishes (f :: l) = (if finishing f then 1 else 0) + finishes l.
Proof. unfold finishes. cbn. destruct (finishing f); cbn [List.length]; lia. Qed.
Lemma finishes_nonneg l : 0 <= finishes l.
Proof. unfold finishes. lia. Qed.
Lemma finishes_none l : finishes l = 0 -> forall f, In f l -> finishing f = false.
Proof.
  unfold finishes. intros H f Hin. destruct (finishing f) eqn:E; [|done].
  assert (In f (List.filter finishing l)) as Hf by by apply List.filter_In. destruct (List.filter finishing l); [done|cbn in H; lia].
Qed.

(** The built-in types are as registered at the start. *)
Definition built (s : FM) : Prop := forall t h, builtins !! t = Some h -> names s !! t = Some h.

(** The transitions a log speaks of, against the one pending. *)
Inductive cellGoes : option pendingTransition -> event -> option pendingTransition -> Prop :=
| cAsked c p : cellGoes c (Asked p) (Some p)
| cDropped c : cellGoes c Dropped None
| cTook p : cellGoes (Some p) (Took p) None
| cQueued c f : cellGoes c (Queued f) c
| cSettled c : cellGoes c Settled c
| cUndone c : cellGoes c Undone c.
Inductive cellRun : list event -> option pendingTransition -> Prop :=
| cellRun_nil : cellRun [] None
| cellRun_snoc l c e c' : cellRun l c -> cellGoes c e c' -> cellRun (l ++ [e]) c'.
Definition cell (s : FM) : Prop := cellRun (log s) (pending s).
(** What an action logs: a wait that is over found nothing to wait for. *)
Definition logs (s s' : FM) : Prop := exists es, log s' = log s ++ es /\ (Settled ∈ es -> ongoing s' <= 0) /\ (cell s -> cell s').
Lemma logs_same s s' : log s' = log s -> pending s' = pending s -> logs s s'.
Proof. intros El Ep. exists []. rewrite El, app_nil_r. split_and!; [done|by intros ?%not_elem_of_nil|]. unfold cell. by rewrite El, Ep. Qed.
Lemma logs_event e s s' : log s' = log s ++ [e] -> (e = Settled -> ongoing s' <= 0) -> cellGoes (pending s) e (pending s') -> logs s s'.
Proof.
  intros El He Hc. exists [e]. split_and!; [done|by intros <-%list_elem_of_singleton; apply He|]. unfold cell. intros H. rewrite El. by econstructor.
Qed.
(** No failure took back a start so far. *)
Definition fine (s : FM) : Prop := Undone ∉ log s.
Lemma logs_fine s s' : logs s s' -> fine s' -> fine s.
Proof. intros (es & E & _). unfold fine. rewrite E. set_solver. Qed.
(** What leaves the actions alone. *)
Definition aside (s s' : FM) : Prop := pipe s' = pipe s /\ ongoing s' = ongoing s /\ names s' = names s /\ watched s' = watched s /\ logs s s'.

(** What a goroutine has to itself is how many of the actions it counted as started it is
    still to queue the end of, or to end.  Those beside the dispatcher end none. *)
Definition counted (keep : bool) (v : nat) (s : FM) : Prop := (fine s -> Z.of_nat v + finishes (pipe s) <= ongoing s) /\ (keep = true -> built s).
Record moves (mine keep : bool) (v : nat) (s s' : FM) (v' : nat) : Prop := {
  mv_pipe : exists tr, pipe s' = pipe s ++ tr;
  mv_slack : fine s' -> Z.of_nat v' + finishes (pipe s') - ongoing s' <= Z.of_nat v + finishes (pipe s) - ongoing s;
  mv_up : mine = false -> fine s' -> ongoing s <= ongoing s';
  mv_built : keep = true -> built s -> built s';
  mv_watched : watched s' = watched s;
  mv_log : logs s s'
}.
Ltac logged := first [apply logs_same; reflexivity | eapply logs_event; [reflexivity|first [done|by intros _; cbn; lia]|by constructor]].
Ltac moved := split; [exists []; by rewrite app_nil_r|intros _; cbn; lia|intros _ _; cbn; lia|done|done|logged].

Lemma moves_aside mine keep v s s' : aside s s' -> moves mine keep v s s' v.
Proof.
  intros (Ep & Eo & En & Ew & Hl). split; [exists []; by rewrite app_nil_r|intros _; rewrite Ep, Eo; lia|intros _ _; lia| |done|done].
  intros _ Hb t h Ht. rewrite En. by apply Hb.
Qed.
Lemma moves_queue mine keep v f s : moves mine keep ((if finishing f then 1 else 0) + v)%nat s (queue f s) v.
Proof.
  split; cbn; [by eexists| |intros _ _; lia|done|done|logged]. intros _. rewrite finishes_app, finishes_cons. unfold finishes at 2. cbn. destruct (finishing f); lia.
Qed.

Ltac setaside := intros; repeat split; logged.

Section Facts.
Context {NewString : nat -> gostring} (userAction : nat -> ActionConfig -> prog (option error)) (userFunction : nat -> gostring -> prog answer).
Context (IsPrint : rune -> bool).

Definition keeps (mine keep : bool) {A} (p : prog A) (P : A -> Prop) : Prop :=
  forall v, takes (counted keep) (moves mine keep) p (fun a v' => P a /\ v' = v) v.

(** The user's code keeps to what the manager's own does: its actions, which may fail, and
    its functions. *)
Record well_behaved (keep : bool) : Prop := {
  wb_action h a : keeps false keep (userAction h a) (fun _ => True);
  wb_function h args : keeps false keep (userFunction h args) (fun _ => True)
}.

Section Bargain.
Context (mine keep : bool).

Lemma keeps_ret {A} (a : A) (P : A -> Prop) : P a -> keeps mine keep (Ret a) P.
Proof. by intros ? v. Qed.
Lemma keeps_bind {A B} (p : prog A) (k : A -> prog B) P P' : keeps mine keep p P' -> (forall a, P' a -> keeps mine keep (k a) P) -> keeps mine keep (bind p k) P.
Proof. intros Hp Hk v. eapply takes_seq; [apply Hp|]. intros a v' [Ha ->]. by apply Hk. Qed.
Lemma keeps_mono {A} (p : prog A) (P P' : A -> Prop) : keeps mine keep p P -> (forall a, P a -> P' a) -> keeps mine keep p P'.
Proof. intros Hp Hk v. eapply takes_mono; [apply Hp|]. intros a v' [Ha ->]. eauto. Qed.
Lemma keeps_get {A} (f : FM -> A) : keeps mine keep (get f) (fun _ => True).
Proof. intros v s r s' [[= <- <-]|[]] _. exists v. split; [|done]. apply moves_aside. repeat split. logged. Qed.
Lemma keeps_act {A} (f : FM -> A * FM) :
  (forall s, aside s (f s).2) -> keeps mine keep (act f) (fun _ => True).
Proof. intros H v s r s' Hin _. destruct Hin as [E|[]]. exists v. specialize (H s). rewrite E in H. split; [by apply moves_aside|done]. Qed.
Lemma keeps_do (f : FM -> FM) :
  (forall s, aside s (f s)) -> keeps mine keep (do_ f) (fun _ => True).
Proof. intros H v s r s' [[= <- <-]|[]] _. exists v. split; [by apply moves_aside|done]. Qed.
Lemma keeps_when b p : keeps mine keep p (fun _ => True) -> keeps mine keep (when b p) (fun _ => True).
Proof. destruct b; [done|by intros _ v]. Qed.
Lemma keeps_queue f : finishing f = false -> keeps mine keep (QueueFrame f) (fun _ => True).
Proof. intros Hf v s r s' [[= <- <-]|[]] _. exists v. split; [|done]. pose proof (moves_queue mine keep v f s) as Hm. by rewrite Hf in Hm. Qed.
Lemma keeps_await : keeps mine keep awaitOngoing (fun _ => True).
Proof. intros v s r s' Hin _. unfold settled in Hin. destruct (0 <? ongoing s) eqn:E; [done|]. destruct Hin as [[= <- <-]|[]]. exists v. split; [|done]. apply moves_aside. repeat split.
  eapply logs_event; [done| |constructor]. intros _. cbn. lia.
Qed.
Lemma keeps_register t h : (keep = true -> builtins !! t = None) -> keeps mine keep (register t h) (fun _ => True).
Proof.
  intros Ht. destruct h as [h|]; [|by apply keeps_ret]. intros v s r s' [[= <- <-]|[]] _. exists v. split; [|done].
  split; [exists []; by rewrite app_nil_r|intros _; cbn; lia|intros _ _; done| |done|logged]. intros Hk Hb u h' Hu. cbn. rewrite lookup_insert_ne; [by apply Hb|]. intros <-.
  by rewrite Ht in Hu.
Qed.
Lemma keeps_registerFromConfig a : keeps mine keep (registerFromConfig a) (fun _ => True).
Proof.
  unfold registerFromConfig. destruct (bool_decide _); [by apply keeps_ret|]. intros v s r s' [[= <- <-]|[]] [_ Hb].
  exists v. split; [apply moves_aside; repeat split; logged|]. destruct (names s !! Type_ a) as [h|] eqn:E; [done|]. apply keeps_register.
  intros Hk. destruct (builtins !! Type_ a) as [h|] eqn:Eb; [|done]. by rewrite (Hb Hk _ _ Eb) in E.
Qed.
Lemma keeps_undoStart : keeps mine keep undoStart (fun _ => True).
Proof.
  intros v s r s' [[= <- <-]|[]] _. exists v. split; [|done]. assert (fine (emit Undone (finished s)) -> False) as Hno.
  { intros Hf. apply Hf. cbn. apply elem_of_app. right. by left. }
  unfold finished in *. destruct (0 <? ongoing s); (split; [exists []; by rewrite app_nil_r|by intros ?%Hno|by intros _ ?%Hno|done|done|
    by apply (logs_event Undone); [done|done|constructor]]).
Qed.
Lemma keeps_waitForOngoing a b : keeps mine keep (waitForOngoing a b) (fun _ => True).
Proof. apply keeps_when, keeps_await. Qed.

(** An action counted as started has its end queued. *)
Lemma takes_start (p : prog (option error)) P v : takes (counted keep) (moves mine keep) p P (S v) -> takes (counted keep) (moves mine keep) (startAction ;;; p) P v.
Proof.
  intros Hp s r s' [[= <- <-]|[]] [Hc _]. exists (S v). split; [|exact Hp].
  moved.
Qed.
Lemma takes_finish f (p : prog (option error)) P v : finishing f = true -> takes (counted keep) (moves mine keep) p P v ->
  takes (counted keep) (moves mine keep) (QueueFrame f ;;; p) P (S v).
Proof.
  intros Hf Hp s r s' [[= <- <-]|[]] [Hc _]. exists v. split; [|exact Hp].
  pose proof (moves_queue mine keep v f s) as Hm. by rewrite Hf in Hm.
Qed.
Lemma keeps_handleTTSSay a : keeps mine keep (handleTTSSay a) (fun e => e = None).
Proof.
  unfold handleTTSSay. destruct (bool_decide _); [by apply keeps_ret|]. intros v. apply takes_start.
  eapply takes_seq; [by apply keeps_queue|]. intros [] v' [_ ->]. by apply takes_finish.
Qed.
Lemma keeps_handleFunction a : keeps mine keep (handleFunction a) (fun e => e = None).
Proof. unfold handleFunction. destruct (AHandler a); [|by apply keeps_ret]. intros v. apply takes_start. by apply takes_finish. Qed.
(** The end of the conversation stays counted: nothing comes after it. *)
Lemma keeps_handleEndConversation a : keeps mine keep (handleEndConversation a) (fun e => e = None).
Proof.
  unfold handleEndConversation. apply (keeps_bind _ _ _ (fun _ => True)).
  - intros v s r s' [[= <- <-]|[]] _. exists v. split; [|done]. moved.
  - intros [] _. apply (keeps_bind _ _ _ (fun _ => True)); [by apply keeps_when, keeps_queue|]. intros [] _.
    apply (keeps_bind _ _ _ (fun _ => True)); [by apply keeps_queue|]. intros [] _. by apply keeps_ret.
Qed.
End Bargain.

Lemma keeps_weaken keep {A} (p : prog A) P mine : keeps false keep p P -> keeps mine keep p P.
Proof.
  intros H v. eapply takes_weaken; [by intros ? ? Hc; exact Hc| |apply H]. intros w s s' w' _ [H1 H2 H3 H4 H5 H6]. split; try done. intros _ Hf. by apply H3.
Qed.

Section WellBehaved.
Context (keep : bool) (WB : well_behaved keep) (mine : bool).

Lemma keeps_runHandler h a : keeps mine keep (runHandler userAction h a) (fun _ => True).
Proof.
  destruct h; cbn; [eapply keeps_mono; [apply keeps_handleTTSSay|done]|eapply keeps_mono; [apply keeps_handleEndConversation|done]
    |eapply keeps_mono; [apply keeps_handleFunction|done]|by apply keeps_weaken, WB].
Qed.
Lemma keeps_executeFrom actions : forall previous, keeps mine keep (executeFrom userAction previous actions) (fun _ => True).
Proof.
  induction actions as [|a rest IH]; intros previous; cbn [executeFrom].
  { eapply keeps_bind; [apply keeps_waitForOngoing|]. intros [] _. by apply keeps_ret. }
  destruct (bool_decide _); [by apply keeps_ret|]. eapply keeps_bind; [apply keeps_get|]. intros [h|] _; [|by apply keeps_ret].
  eapply keeps_bind; [apply keeps_get|]. intros before _. eapply keeps_bind; [apply keeps_waitForOngoing|]. intros [] _.
  eapply keeps_bind; [apply keeps_runHandler|]. intros [e|] _.
  { eapply keeps_bind; [apply keeps_get|]. intros started _. eapply keeps_bind; [apply keeps_when, keeps_undoStart|]. intros [] _. by apply keeps_ret. }
  destruct (bool_decide _); [|apply IH].
  eapply keeps_bind; [apply keeps_waitForOngoing|]. intros [] _. by apply keeps_ret.
Qed.
Lemma keeps_executeActions actions : keeps mine keep (executeActions userAction actions) (fun _ => True).
Proof. destruct actions; [by apply keeps_ret|apply keeps_executeFrom]. Qed.
Lemma keeps_orElse p k : keeps mine keep p (fun _ => True) -> keeps mine keep k (fun _ => True) -> keeps mine keep (orElse p k) (fun _ => True).
Proof. intros Hp Hk. eapply keeps_bind; [exact Hp|]. intros [e|] _; [by apply keeps_ret|exact Hk]. Qed.
Lemma keeps_registerAll l : keeps mine keep (registerAll l) (fun _ => True).
Proof. induction l as [|a l IH]; [by apply keeps_ret|]. apply keeps_orElse; [apply keeps_registerFromConfig|exact IH]. Qed.
Lemma keeps_QueueFrames l : Forall (fun f => finishing f = false) l -> keeps mine keep (QueueFrames l) (fun _ => True).
Proof. induction 1 as [|f l Hf _ IH]; [by apply keeps_ret|]. eapply keeps_bind; [by apply keeps_queue|]. intros [] _. exact IH. Qed.
Lemma keeps_ask q : keeps mine keep (ask q : prog (option gostring)) (fun _ => True).
Proof. by intros v x. Qed.
Lemma keeps_updateContext n ts : keeps mine keep (updateContext n ts) (fun _ => True).
Proof.
  unfold updateContext. eapply keeps_bind; [apply keeps_get|]. intros configured _. eapply keeps_bind with (P' := fun _ => True).
  - destruct (bool_decide _); [|by apply keeps_ret]. unfold summarize. eapply keeps_bind; [apply keeps_get|]. intros able _.
    destruct able; [|by apply keeps_ret]. unfold generateSummary. eapply keeps_bind; [apply keeps_get|]. intros said _.
    eapply keeps_bind; [apply keeps_ask|]. intros a _. by apply keeps_ret.
  - intros summary _. apply keeps_QueueFrames. apply Forall_app. split; [destruct (RoleMessage n); by repeat constructor|].
    constructor; [by case_match|by repeat constructor].
Qed.
Lemma keeps_enterNode id n : keeps mine keep (enterNode userAction id n) (fun _ => True).
Proof.
  unfold enterNode. eapply keeps_bind; [apply keeps_act; by setaside|]. intros ready _. destruct (negb ready); [by apply keeps_ret|].
  destruct (validateNode n); [by apply keeps_ret|]. eapply keeps_bind; [apply keeps_do; by setaside|]. intros [] _.
  apply keeps_orElse; [apply keeps_registerAll|]. apply keeps_orElse; [apply keeps_registerAll|]. apply keeps_orElse; [apply keeps_executeActions|].
  eapply keeps_bind; [apply keeps_get|]. intros gs _. destruct (nodeTools gs n) as [e|[ts fns]]; [by apply keeps_ret|].
  eapply keeps_bind; [apply keeps_updateContext|]. intros [] _. eapply keeps_bind; [apply keeps_do; by setaside|]. intros [] _.
  eapply keeps_bind; [by apply keeps_when, keeps_queue|]. intros [] _. destruct (PostActions n) as [|a post]; [by apply keeps_ret|].
  destruct (respondsImmediately n); [apply keeps_executeActions|]. eapply keeps_bind; [apply keeps_do; by setaside|]. intros [] _. by apply keeps_ret.
Qed.
Lemma keeps_setNode id n : keeps mine keep (setNode userAction id n) (fun _ => True).
Proof. eapply keeps_bind; [apply keeps_enterNode|]. intros e _. by apply keeps_ret. Qed.
Lemma keeps_nodeName n : keeps mine keep (nodeName (NewString := NewString) n) (fun _ => True).
Proof. unfold nodeName. destruct (bool_decide _); [apply keeps_act; by setaside|by apply keeps_ret]. Qed.
Lemma keeps_SetNode n : keeps mine keep (SetNode (NewString := NewString) userAction n) (fun _ => True).
Proof. destruct n as [n|]; [|by apply keeps_ret]. eapply keeps_bind; [apply keeps_nodeName|]. intros id _. apply keeps_setNode. Qed.
Lemma keeps_Initialize n : keeps mine keep (Initialize (NewString := NewString) userAction n) (fun _ => True).
Proof.
  unfold Initialize. eapply keeps_bind; [apply keeps_act; by setaside|]. intros [] _; [by apply keeps_ret|]. destruct n as [n|]; [|by apply keeps_ret].
  eapply keeps_bind; [apply keeps_nodeName|]. intros id _. eapply keeps_bind; [apply keeps_setNode|]. intros [e|] _; [|by apply keeps_ret].
  eapply keeps_bind; [apply keeps_do; by setaside|]. intros [] _. by apply keeps_ret.
Qed.
Lemma keeps_check : keeps mine keep (checkAndExecuteTransition (NewString := NewString) userAction) (fun _ => True).
Proof.
  unfold checkAndExecuteTransition. eapply keeps_bind; [apply keeps_get|]. intros [p|] _; [|by apply keeps_ret].
  eapply keeps_bind; [apply keeps_get|]. intros [] _; [by apply keeps_ret|]. eapply keeps_bind.
  { apply keeps_act. intros s. unfold takePending. destruct (pending s) eqn:E; [|by setaside]. repeat split. eapply logs_event; [done..|]. rewrite E. constructor. }
  intros [q|] _; [|by apply keeps_ret]. eapply keeps_bind; [apply keeps_nodeName|]. intros logged _.
  eapply keeps_bind; [apply keeps_nodeName|]. intros id _. apply keeps_setNode.
Qed.
Lemma keeps_transitionFunc name h args : keeps mine keep (transitionFunc userFunction IsPrint name h args) (fun _ => True).
Proof.
  unfold transitionFunc. eapply keeps_bind; [apply keeps_weaken, WB|]. intros a _. destruct (failedWith a); [by apply keeps_ret|].
  destruct (nextOf a); try by apply keeps_ret. eapply keeps_bind; [apply keeps_do; by setaside|]. intros [] _. by apply keeps_ret.
Qed.

(** A call that puts nothing in place of a built-in action. *)
Definition allowed (c : call) : Prop := match c with CallRegister t _ => keep = true -> builtins !! t = None | _ => True end.
Lemma keeps_start c : allowed c -> keeps mine keep (start (NewString := NewString) userAction userFunction IsPrint c) (fun _ => True).
Proof.
  intros Hc. destruct c; cbn [start];
    try (eapply keeps_bind; [first [apply keeps_Initialize|apply keeps_SetNode|apply keeps_transitionFunc|apply keeps_check|by apply keeps_register]|]; intros ? _; by apply keeps_ret);
    apply keeps_do; by setaside.
Qed.
End WellBehaved.

(** ** Every run

    Each action counted as started is still to be queued by a goroutine, on its way,
    reported, or being ended; or it never ends. *)
Definition does keep mine {A} (p : prog A) (v : nat) : Prop := takes (counted keep) (moves mine keep) p (fun _ v' => v' = 0%nat) v.

(** What the dispatcher is at: the action whose end it was told of is still counted,
    until it is ended. *)
Inductive dispatching (keep : bool) (y : Sys) : nat -> Prop :=
| dIdle : idle (dispatcher y) = true -> dispatching keep y 0
| dEnding f A (p : prog A) v : handling y = Some f -> finishing f = true -> dispatcher y = (p ;;; finishAction) -> does keep true p v -> dispatching keep y (S v)
| dOther v : match handling y with Some f => finishing f = false | None => True end -> does keep true (dispatcher y) v -> dispatching keep y v.

Record sound (keep : bool) (y : Sys) : Prop := {
  so_owed : exists vs vd, Forall2 (fun p v => does keep false p v) (callers y) vs /\ dispatching keep y vd
    /\ (fine (fm y) -> Z.of_nat (sum_list vs) + Z.of_nat vd + finishes (pipe (fm y)) + finishes (events y) <= ongoing (fm y));
  so_built : keep = true -> built (fm y)
}.

(** What is started and not yet ended. *)
Definition outstanding (y : Sys) : list frame :=
  List.filter finishing (pipe (fm y) ++ events y ++ (if idle (dispatcher y) then [] else match handling y with Some f => [f] | None => [] end)).

Lemma sound_settled keep y : sound keep y -> fine (fm y) -> ongoing (fm y) <= 0 -> outstanding y = [].
Proof.
  intros [(vs & vd & _ & Hd & Hc) _] Hf Ho. specialize (Hc Hf). unfold outstanding.
  pose proof (finishes_nonneg (pipe (fm y))) as N1. pose proof (finishes_nonneg (events y)) as N2.
  assert (finishes (pipe (fm y)) = 0 /\ finishes (events y) = 0 /\ vd = 0%nat) as (E1 & E2 & ->) by lia.
  assert (forall l, finishes l = 0 -> List.filter finishing l = []) as Hnil.
  { intros l. unfold finishes. destruct (List.filter finishing l); [done|cbn; lia]. }
  rewrite !List.filter_app, !Hnil by done.
  cbn. inversion Hd as [Hi| |v Hh Hp]; subst; [by rewrite Hi|]. destruct (idle _); [done|]. destruct (handling y) as [f|]; [|done].
  cbn. by rewrite Hh.
Qed.

(** One action of one program. *)
Lemma does_run keep mine {A} (p : prog A) v n s p' s' : does keep mine p v -> counted keep v s -> runNth p n s = Some (p', s') ->
  exists v', moves mine keep v s s' v' /\ does keep mine p' v'.
Proof.
  destruct p as [a|R f k|q k]; [done| |done]. cbn. intros Hp Hc. destruct (List.nth_error (f s) n) as [[r s1]|] eqn:E; [|done].
  intros [= <- <-]. apply (Hp s r s1); [by eapply List.nth_error_In|done].
Qed.
Lemma does_answer keep mine {A} (p : prog A) v a p' : does keep mine p v -> answerWith p a = Some p' -> does keep mine p' v.
Proof. destruct p as [|R f k|q k]; [done..|]. cbn. intros Hp [= <-]. apply Hp. Qed.

Lemma sum_list_insert (vs : list nat) i v v' : vs !! i = Some v -> (sum_list (<[i := v']> vs) + v = sum_list vs + v')%nat.
Proof. revert i. induction vs as [|w vs IH]; intros [|i]; simpl; [done..|intros [= ->]; lia|]. intros H. specialize (IH i H). simpl in *. lia. Qed.
Lemma sum_list_lookup (vs : list nat) i v : vs !! i = Some v -> (v <= sum_list vs)%nat.
Proof. revert i. induction vs as [|w vs IH]; intros [|i]; simpl; [done..|intros [= ->]; lia|]. intros H. specialize (IH i H). simpl in *. lia. Qed.

Lemma dispatching_same keep y y' v : handling y' = handling y -> dispatcher y' = dispatcher y -> dispatching keep y v -> dispatching keep y' v.
Proof.
  intros Eh Ed H. destruct H as [Hi|f A p v Hh Hf Hp Hd|v Hh Hd].
  - apply dIdle. by rewrite Ed.
  - apply (dEnding keep y' f A p v); [by rewrite Eh|done|by rewrite Ed|done].
  - apply dOther; [by rewrite Eh|by rewrite Ed].
Qed.

Section Steps.
Context (keep : bool) (WB : well_behaved keep).
Abbreviation step := (step (NewString := NewString) userAction userFunction IsPrint).
Abbreviation run := (run (NewString := NewString) userAction userFunction IsPrint).

Lemma keeps_does mine {A} (p : prog A) P : keeps mine keep p P -> does keep mine p 0.
Proof. intros H. eapply takes_mono; [apply H|]. by intros a v' [_ ->]. Qed.
Lemma does_start c : allowed keep c -> does keep false (start (NewString := NewString) userAction userFunction IsPrint c) 0.
Proof. intros Hc. eapply keeps_does. by apply keeps_start. Qed.
Lemma does_bot : does keep true (frameReachedDownstream userAction BotStoppedSpeakingFrame) 0.
Proof.
  eapply keeps_does. cbn [frameReachedDownstream]. eapply keeps_bind; [apply keeps_get|]. intros idle _. apply keeps_when.
  unfold runDeferredPostActions. eapply keeps_bind; [apply keeps_act; by setaside|]. intros [|a l] _; [by apply keeps_ret|].
  eapply keeps_bind; [by apply keeps_executeActions|]. intros e _. by apply keeps_ret.
Qed.
(** The dispatcher takes up a frame. *)
Lemma dispatching_next y f rest :
  dispatching keep (y <| events := rest |> <| handling := Some f |> <| dispatcher := frameReachedDownstream userAction f |>) (if finishing f then 1 else 0).
Proof.
  destruct f as [| |a h| | | | | | | |]; cbn [finishing]; try by apply dIdle.
  - by apply (dEnding keep _ ActionFinishedFrame unit (Ret tt) 0).
  - apply (dEnding keep _ (FunctionActionFrame a h) _ (userAction h a) 0); [done..|].
    eapply takes_mono; [apply (keeps_weaken keep); apply WB|]. by intros e v [_ ->].
  - apply dOther; [done|apply does_bot].
Qed.
(** The dispatcher acts. *)
Lemma dispatching_run y v n p s : dispatching keep y v -> counted keep v (fm y) -> runNth (dispatcher y) n (fm y) = Some (p, s) ->
  exists v', moves true keep v (fm y) s v' /\ dispatching keep (y <| fm := s |> <| dispatcher := p |>) v'.
Proof.
  intros Hd Hc Hr. destruct Hd as [Hi|f A q v Hh Hf Hq Hd|v Hh Hd].
  - by destruct (dispatcher y).
  - rewrite Hq in Hr. destruct q as [a|R g k|q k]; [| |done].
    + cbn in Hd. subst v. cbn in Hr. destruct n as [|n]; [|by destruct n]. injection Hr as <- <-. exists 0%nat. split; [|by apply dIdle].
      destruct Hc as [Hc _]. pose proof (finishes_nonneg (pipe (fm y))). unfold finished. destruct (0 <? ongoing (fm y)) eqn:E.
      * split; cbn; [exists []; by rewrite app_nil_r|intros _; lia|done|done|done|logged].
      * split; cbn; [exists []; by rewrite app_nil_r|intros Hfm; specialize (Hc Hfm); lia|done|done|done|logged].
    + cbn in Hr. destruct (List.nth_error (g (fm y)) n) as [[r s1]|] eqn:E; [|done]. injection Hr as <- <-.
      destruct (Hd (fm y) r s1) as (v' & [M1 M2 M3 M4 M5 M6] & Hv'); [by eapply List.nth_error_In|split; [intros Hfm; destruct Hc as [Hc _]; specialize (Hc Hfm); lia|apply Hc]|].
      exists (S v'). split; [split; [done|intros Hfm; specialize (M2 Hfm); lia|done|done|done|done]|]. by apply (dEnding keep _ f A (k r) v').
  - destruct (does_run keep true _ v n (fm y) p s Hd Hc Hr) as (v' & Hm & Hv'). exists v'. split; [done|]. by apply dOther.
Qed.

Lemma sound_env y y' : sound keep y -> callers y' = callers y -> dispatcher y' = dispatcher y -> handling y' = handling y ->
  finishes (pipe (fm y')) + finishes (events y') <= finishes (pipe (fm y)) + finishes (events y) -> ongoing (fm y') = ongoing (fm y) -> (fine (fm y') -> fine (fm y)) ->
  names (fm y') = names (fm y) -> sound keep y'.
Proof.
  intros [(vs & vd & Hv & Hd & Hc) Hb] E1 E2 E3 Hf E4 Efine E5. split.
  - exists vs, vd. rewrite E1. split_and!; [done|by apply (dispatching_same keep y)|]. intros Hfm%Efine. specialize (Hc Hfm). lia.
  - intros Hk t h Ht. rewrite E5. by apply Hb.
Qed.
Lemma finishes_delete i l f : l !! i = Some f -> finishes (delete i l) <= finishes l.
Proof.
  intros H. rewrite <- (take_drop_middle l i f H) at 2. rewrite delete_take_drop, !finishes_app, finishes_cons. destruct (finishing f); lia.
Qed.
Lemma flows_report y f : sound keep y -> finishing f = false -> sound keep (report f y).
Proof.
  intros Hs Hf. unfold report. destruct (_ && _); [|done]. apply (sound_env y); try done. cbn. rewrite finishes_app, finishes_cons, Hf.
  unfold finishes at 3. cbn. lia.
Qed.

Lemma sound_step c y y' : match c with Begin c => allowed keep c | _ => True end -> sound keep y -> step c y = Some y' -> sound keep y'.
Proof.
  intros Ha Hs. pose proof Hs as [(vs & vd & Hv & Hd & Hc) Hb]. destruct c as [c|i n|i a|n|a| |i|f|ms|b]; cbn [Flows.step].
  - intros [= <-]. split; [|done]. exists (vs ++ [0%nat]), vd. split_and!; [|by apply (dispatching_same keep y)|].
    + apply Forall2_app; [done|]. constructor; [by apply does_start|constructor].
    + intros Hfm. specialize (Hc Hfm). cbn. rewrite sum_list_with_app. cbn. lia.
  - destruct (callers y !! i) as [p|] eqn:Ei; [|done]. cbn [mbind option_bind].
    destruct (Forall2_lookup_l _ _ _ _ _ Hv Ei) as (v & Evi & Hp). pose proof (sum_list_lookup _ _ _ Evi).
    destruct (runNth p n (fm y)) as [[p' s]|] eqn:Er; [|done]. intros [= <-].
    pose proof (finishes_nonneg (events y)). pose proof (finishes_nonneg (pipe (fm y))).
    destruct (does_run keep false p v n (fm y) p' s Hp) as (v' & [M1 M2 M3 M4 M5 M6] & Hv'); [split; [intros Hfm; specialize (Hc Hfm); lia|done]|done|].
    split; [|intros Hk; apply M4; auto]. exists (<[i := v']> vs), vd. split_and!; [by apply Forall2_insert|by apply (dispatching_same keep y)|].
    intros Hfm. specialize (M2 Hfm). specialize (Hc (logs_fine _ _ M6 Hfm)). pose proof (sum_list_insert vs i v v' Evi). cbn. lia.
  - destruct (callers y !! i) as [p|] eqn:Ei; [|done]. cbn [mbind option_bind]. destruct (answerWith p a) as [p'|] eqn:Er; [|done]. intros [= <-].
    destruct (Forall2_lookup_l _ _ _ _ _ Hv Ei) as (v & Evi & Hp). split; [|done]. exists vs, vd. split_and!; [|by apply (dispatching_same keep y)|done].
    cbn. rewrite <- (list_insert_id vs i v Evi). apply Forall2_insert; [done|]. by eapply does_answer.
  - destruct (idle (dispatcher y)) eqn:Ei.
    + destruct (events y) as [|f rest] eqn:Ee; [done|]. intros [= <-]. split; [|done]. exists vs, (if finishing f then 1%nat else 0%nat).
      split_and!; [done|apply dispatching_next|]. intros Hfm. specialize (Hc Hfm). rewrite finishes_cons in Hc. cbn. destruct (finishing f); lia.
    + destruct (runNth _ _ _) as [[p s]|] eqn:Er; [|done]. intros [= <-]. pose proof (finishes_nonneg (events y)).
      destruct (dispatching_run y vd n p s Hd) as (v' & [M1 M2 M3 M4 M5 M6] & Hd'); [split; [intros Hfm; specialize (Hc Hfm); lia|done]|done|].
      split; [|intros Hk; apply M4; auto]. exists vs, v'. split_and!; [done|done|]. intros Hfm. specialize (M2 Hfm). specialize (Hc (logs_fine _ _ M6 Hfm)). cbn. lia.
  - destruct (answerWith _ a) as [p|] eqn:Er; [|done]. intros [= <-]. split; [|done]. exists vs, vd. split_and!; [done| |done].
    destruct Hd as [Hi|f A q v Hh Hf Hq Hd|v Hh Hd]; [by destruct (dispatcher y)| |apply dOther; [done|by eapply does_answer]].
    rewrite Hq in Er. destruct q as [b|R g k|q k]; [done..|]. injection Er as <-. apply (dEnding keep _ f A (k a) v); try done. apply Hd.
  - destruct (pipe (fm y)) as [|f rest] eqn:Ep; [done|]. intros [= <-]. unfold report. destruct (_ && _);
      (apply (sound_env y); try done; cbn; rewrite Ep, ?finishes_app, !finishes_cons; unfold finishes; cbn; destruct (finishing f); lia).
  - destruct (pipe (fm y) !! i) as [f|] eqn:Ep; [|done]. cbn [mbind option_bind]. destruct (uninterruptible f); [done|]. intros [= <-].
    apply (sound_env y); try done. cbn. pose proof (finishes_delete _ _ _ Ep). lia.
  - destruct (foreign f) eqn:Ef; [|done]. intros [= <-]. apply flows_report; [done|]. by destruct f.
  - intros [= <-]. by apply (sound_env y).
  - intros [= <-]. by apply (sound_env y).
Qed.

Definition allowedIn (c : choice) : Prop := match c with Begin c => allowed keep c | _ => True end.
Lemma sound_run cs : forall y y', Forall allowedIn cs -> sound keep y -> run cs y = Some y' -> sound keep y'.
Proof.
  induction cs as [|c cs IH]; intros y y' Hcs Hs; [by intros [= <-]|]. inversion Hcs; subst. cbn [Flows.run].
  destruct (step c y) as [y1|] eqn:E; [|done]. apply IH; [done|]. by eapply sound_step.
Qed.
Lemma sound_boot c s : New c = inr s -> sound keep (boot s).
Proof.
  unfold New. destruct (negb _); [done|]. destruct (match cfgStrategy c with Some k => Validate k | None => None end); [done|]. destruct (firstError _ _); [done|].
  intros [= <-]. split; [|by intros _ t h]. exists [], 0%nat. split_and!; [constructor|by apply dIdle|done].
Qed.
Lemma step_logs c y y' : sound keep y -> step c y = Some y' -> logs (fm y) (fm y').
Proof.
  intros [(vs & vd & Hv & Hd & Hc) Hb]. pose proof (finishes_nonneg (events y)).
  destruct c as [c|i n|i a|n|a| |i|f|ms|b]; cbn [Flows.step].
  - intros [= <-]. by apply logs_same.
  - destruct (callers y !! i) as [p|] eqn:Ei; [|done]. cbn [mbind option_bind].
    destruct (Forall2_lookup_l _ _ _ _ _ Hv Ei) as (v & Evi & Hp). pose proof (sum_list_lookup _ _ _ Evi).
    destruct (runNth p n (fm y)) as [[p' s]|] eqn:Er; [|done]. intros [= <-].
    destruct (does_run keep false p v n (fm y) p' s Hp) as (v' & [] & Hv'); [split; [intros Hfm; specialize (Hc Hfm); lia|done]|done|done].
  - destruct (callers y !! i) as [p|]; [|done]. cbn [mbind option_bind]. destruct (answerWith p a); [|done]. intros [= <-]. by apply logs_same.
  - destruct (idle _); [destruct (events y); [done|]; intros [= <-]; by apply logs_same|].
    destruct (runNth _ _ _) as [[p s]|] eqn:Er; [|done]. intros [= <-].
    destruct (dispatching_run y vd n p s Hd) as (v' & [] & Hd'); [split; [intros Hfm; specialize (Hc Hfm); lia|done]|done|done].
  - destruct (answerWith _ a); [|done]. intros [= <-]. by apply logs_same.
  - destruct (pipe (fm y)) as [|f rest]; [done|]. intros [= <-]. unfold report. by destruct (_ && _); apply logs_same.
  - destruct (pipe (fm y) !! i) as [f|]; [|done]. cbn [mbind option_bind]. destruct (uninterruptible f); [done|]. intros [= <-]. by apply logs_same.
  - destruct (foreign f); [|done]. intros [= <-]. unfold report. by destruct (_ && _); apply logs_same.
  - intros [= <-]. by apply logs_same.
  - intros [= <-]. by apply logs_same.
Qed.
Lemma fine_run cs : forall y y', Forall allowedIn cs -> sound keep y -> fine (fm y') -> run cs y = Some y' -> fine (fm y).
Proof.
  induction cs as [|c cs IH]; intros y y' Hcs Hs Hy; [by intros [= <-]|]. inversion Hcs; subst. cbn [Flows.run].
  destruct (step c y) as [y1|] eqn:E; [|done]. intros Hr. eapply logs_fine; [by eapply step_logs|]. eapply IH; [done| |done|done]. by eapply sound_step.
Qed.
Lemma cell_run cs : forall y y', Forall allowedIn cs -> sound keep y -> cell (fm y) -> run cs y = Some y' -> cell (fm y').
Proof.
  induction cs as [|c cs IH]; intros y y' Hcs Hs Hy; [by intros [= <-]|]. inversion Hcs; subst. cbn [Flows.run].
  destruct (step c y) as [y1|] eqn:E; [|done]. apply IH; [done|by eapply sound_step|].
  destruct (step_logs c y y1 Hs E) as (es & _ & _ & Hcell). auto.
Qed.
End Steps.

Lemma run_app cs cs' y : run (NewString := NewString) userAction userFunction IsPrint (cs ++ cs') y =
  (y ← run (NewString := NewString) userAction userFunction IsPrint cs y; run (NewString := NewString) userAction userFunction IsPrint cs' y).
Proof. revert y. induction cs as [|c cs IH]; intros y; [done|]. cbn [Flows.run app].
  destruct (step (NewString := NewString) userAction userFunction IsPrint c y) as [y1|]; [apply IH|done].
Qed.
Lemma allowed_any cs : Forall (allowedIn false) cs.
Proof. apply Forall_true. by intros [[]| | | | | | | | |]. Qed.
(** In a list of events that goes on from a transition asked for to its being made,
    nothing else happened to the pending one. *)
Definition touches (e : event) : bool := match e with Asked _ | Dropped | Took _ => true | _ => false end.
Lemma cellRun_pending l p : cellRun l (Some p) -> exists l1 l2, l = l1 ++ Asked p :: l2 /\ Forall (fun e => touches e = false) l2.
Proof.
  remember (Some p) as c eqn:Ec. induction 1 as [|l c e c' H IH Hg]; [done|]. subst c'.
  assert (forall e, c = Some p -> touches e = false -> exists l1 l2, l ++ [e] = l1 ++ Asked p :: l2 /\ Forall (fun e => touches e = false) l2) as Hon.
  { intros e' E He. destruct (IH E) as (l1 & l2 & -> & Hl). exists l1, (l2 ++ [e']). rewrite <- app_assoc. split; [done|].
    apply Forall_app. by repeat constructor. }
  inversion Hg; subst; [by exists l, []|by apply Hon..].
Qed.
Lemma cellRun_took l c l1 l2 p : cellRun l c -> l = l1 ++ Took p :: l2 -> cellRun l1 (Some p).
Proof.
  intros H. revert l2. induction H as [|l c e c' H IH Hg]; intros l2 E; [by destruct l1|].
  destruct l2 as [|e' l2 _] using rev_ind.
  - apply app_inj_tail in E as [-> ->]. by inversion Hg; subst.
  - rewrite app_comm_cons, app_assoc in E. apply app_inj_tail in E as [-> _]. by eapply IH.
Qed.

(** C32: A wait for the actions lets nothing by: whatever callers, tool handlers, the
    dispatcher and the pipeline do meanwhile, and whatever an interruption takes off the
    line, and whether actions fail or not, when a wait is over no speech and no function an
    action put into the pipeline is still on its way, still to be reported, or still
    running: unless an action failed after another goroutine had started one, which it then
    takes for its own and ends. *)
Theorem waits_for_actions c s cs y ch y' :
  well_behaved false -> New c = inr s -> run (NewString := NewString) userAction userFunction IsPrint cs (boot s) = Some y ->
  step (NewString := NewString) userAction userFunction IsPrint ch y = Some y' -> log (fm y') = log (fm y) ++ [Settled] ->
  Undone ∉ log (fm y') -> outstanding y' = [].
Proof.
  intros WB Hnew Hrun Hstep Hlog Hfine. assert (sound false y) as Hs.
  { eapply sound_run; [done|apply allowed_any|by eapply sound_boot|done]. }
  apply (sound_settled false); [eapply sound_step; [done| |done|done]; by destruct ch as [[]| | | | | | | | |]|exact Hfine|].
  destruct (step_logs false ch y y' Hs Hstep) as (es & El & Ho & _). apply Ho. rewrite El in Hlog. apply app_inv_head in Hlog as ->. by left.
Qed.

(** Whatever the interleaving, a transition is only made to the node asked for last,
    after that request and before anything else replaced, dropped or made it: each request
    leads to one transition at most. *)
Theorem transition_once c s cs y l1 p l2 :
  well_behaved false -> New c = inr s -> run (NewString := NewString) userAction userFunction IsPrint cs (boot s) = Some y ->
  log (fm y) = l1 ++ Took p :: l2 ->
  exists l3 l4, l1 = l3 ++ Asked p :: l4 /\ Forall (fun e => touches e = false) l4.
Proof.
  intros WB Hnew Hrun Hlog. assert (cell (fm y)) as Hc.
  { eapply cell_run; [done|apply allowed_any|by eapply sound_boot| |done].
    unfold New in Hnew. destruct (negb _); [done|]. destruct (match cfgStrategy c with Some k => Validate k | None => None end); [done|].
    destruct (firstError _ _); [done|]. injection Hnew as <-. constructor. }
  apply cellRun_pending. by eapply cellRun_took.
Qed.

(** ** Actions that never end

    An action that has something said, or a function run, in the pipeline. *)
Definition speaks (a : ActionConfig) : Prop :=
  match builtins !! Type_ a with
  | Some HandleTTSSay => AText a <> []
  | Some HandleFunction => is_Some (AHandler a)
  | _ => False
  end.
Definition atLeast (lo : Z) (s : FM) : Prop := lo <= ongoing s /\ built s.
Definition rises (_ : Z) (_ s' : FM) (lo' : Z) : Prop := atLeast lo' s'.
Abbreviation never p := (takes atLeast rises p (fun _ _ => False)).

Lemma never_started (p : prog (option error)) lo : 0 <= lo -> never p 1 -> never (startAction ;;; p) lo.
Proof. intros Hlo Hp s r s' [[= <- <-]|[]] [H1 H2]. exists 1. split; [|exact Hp]. split; [cbn; lia|exact H2]. Qed.
Lemma never_queue {A} f (p : prog A) lo : never p lo -> never (QueueFrame f ;;; p) lo.
Proof. intros Hp s r s' [[= <- <-]|[]] [H1 H2]. exists lo. by split. Qed.
Lemma never_waiting {A} a b (p : prog A) lo : (waits a b = false \/ lo <= 0 -> never p lo) -> never (waitForOngoing a b ;;; p) lo.
Proof.
  unfold waitForOngoing. destruct (waits a b) eqn:E; [|auto]. intros Hp s r s' Hin [H1 H2]. unfold settled in Hin.
  destruct (0 <? ongoing s) eqn:Eo; [done|]. destruct Hin as [[= <- <-]|[]]. exists lo. split; [by split|]. apply Hp. right. lia.
Qed.
Lemma builtins_end a : builtins !! Type_ a = Some HandleTTSSay \/ builtins !! Type_ a = Some HandleFunction ->
  Type_ a <> [] /\ Type_ a <> actionEndConversation /\ waits (Type_ a) [] = true.
Proof.
  unfold builtins. intros H. assert (Type_ a = actionTTSSay \/ Type_ a = actionFunction) as [-> | ->]; [|by split_and!; vm_compute..].
  rewrite !lookup_insert, !lookup_singleton in H. repeat case_decide; intuition congruence.
Qed.

(** A speech or a function behind which the actions wait is only ended by the dispatcher. *)
Lemma executeFrom_never l : l <> [] -> Forall speaks l -> forall previous lo, 0 <= lo -> never (executeFrom userAction previous l) lo.
Proof.
  intros Hne. induction 1 as [|a rest Ha Hrest IH]; [done|]. clear Hne. intros previous lo Hlo. cbn [executeFrom].
  assert (exists h, builtins !! Type_ a = Some h /\ (h = HandleTTSSay \/ h = HandleFunction) /\ speaks a) as (h & Eh & Hh & Hs).
  { unfold speaks in Ha |- *. destruct (builtins !! Type_ a) as [[]|] eqn:E; try done; eauto. }
  destruct (builtins_end a) as (N1 & N2 & N3); [destruct Hh as [-> | ->]; auto|].
  rewrite (bool_decide_eq_false_2 _ N1). apply takes_get; [done|]. intros s [_ Hb]. rewrite (Hb _ _ Eh). clear s Hb.
  apply takes_get; [done|]. intros s _. generalize (ongoing s). intros before. clear s.
  apply never_waiting. intros _.
  assert (forall lo, 1 <= lo -> never (executeFrom userAction (Type_ a) rest) lo) as Hcont.
  { intros lo' Hlo'. destruct rest as [|b rest]; [|apply IH; [done|lia]]. cbn [executeFrom]. apply never_waiting. intros [E|E]; [congruence|lia]. }
  unfold speaks in Hs. rewrite Eh in Hs.
  destruct Hh as [-> | ->]; cbn [runHandler].
  - unfold handleTTSSay. rewrite (bool_decide_eq_false_2 _ Hs). apply takes_bind.
    eapply takes_mono with (P := fun e lo => e = None /\ 1 <= lo).
    + intros s r s' [[= <- <-]|[]] [H1 H2]. exists 1. split; [split; [cbn; lia|done]|].
      intros s0 r s' [[= <- <-]|[]] [H3 H4]. exists 1. split; [by split|].
      intros s1 r s' [[= <- <-]|[]] [H5 H6]. exists 1. by split.
    + intros e lo' [-> Hlo']. rewrite (bool_decide_eq_false_2 _ N2). by apply Hcont.
  - unfold handleFunction. destruct Hs as [fn ->]. apply takes_bind.
    eapply takes_mono with (P := fun e lo => e = None /\ 1 <= lo).
    + intros s r s' [[= <- <-]|[]] [H1 H2]. exists 1. split; [split; [cbn; lia|done]|].
      intros s0 r s' [[= <- <-]|[]] [H3 H4]. exists 1. by split.
    + intros e lo' [-> Hlo']. rewrite (bool_decide_eq_false_2 _ N2). by apply Hcont.
Qed.

Lemma never_step (WB : well_behaved true) c y y' lo : allowedIn true c -> sound true y -> never (dispatcher y) lo -> lo <= ongoing (fm y) -> fine (fm y') ->
  step (NewString := NewString) userAction userFunction IsPrint c y = Some y' ->
  handling y' = handling y /\ exists lo', never (dispatcher y') lo' /\ lo' <= ongoing (fm y').
Proof.
  intros Ha Hs Hn Hlo Hfine. pose proof (so_built _ _ Hs eq_refl) as Hb. pose proof (so_owed _ _ Hs) as (vs & vd & Hv & Hd & Hc).
  pose proof (finishes_nonneg (events y)). destruct c as [c|i n|i a|n|a| |i|f|ms|b]; cbn [Flows.step].
  - intros [= <-]. eauto.
  - destruct (callers y !! i) as [p|] eqn:Ei; [|done]. cbn [mbind option_bind].
    destruct (Forall2_lookup_l _ _ _ _ _ Hv Ei) as (v & Evi & Hp). pose proof (sum_list_lookup _ _ _ Evi).
    destruct (runNth p n (fm y)) as [[p' s]|] eqn:Er; [|done]. intros [= <-].
    destruct (does_run true false p v n (fm y) p' s Hp) as (v' & [M1 M2 M3 M4 M5 M6] & Hv'); [split; [intros Hfm; specialize (Hc Hfm); lia|done]|done|].
    specialize (M3 eq_refl Hfine). split; [done|]. exists lo. split; [done|]. cbn. lia.
  - destruct (callers y !! i) as [p|]; [|done]. cbn [mbind option_bind]. destruct (answerWith p a); [|done]. intros [= <-]. eauto.
  - destruct (dispatcher y) as [u|R f k|q k] eqn:Ed; [done| |done]. cbn [idle runNth].
    destruct (List.nth_error (f (fm y)) n) as [[r s]|] eqn:E; [|done]. intros [= <-]. split; [done|].
    destruct (Hn (fm y) r s) as (lo' & [H1 H2] & Hk); [by eapply List.nth_error_In|by split|]. eauto.
  - destruct (dispatcher y) as [u|R f k|q k] eqn:Ed; [done..|]. cbn [answerWith mbind option_bind]. intros [= <-]. split; [done|]. exists lo. split; [apply Hn|done].
  - destruct (pipe (fm y)) as [|f rest]; [done|]. intros [= <-]. unfold report. destruct (_ && _); eauto.
  - destruct (pipe (fm y) !! i) as [f|]; [|done]. cbn [mbind option_bind]. destruct (uninterruptible f); [done|]. intros [= <-]. eauto.
  - destruct (foreign f); [|done]. intros [= <-]. unfold report. destruct (_ && _); eauto.
  - intros [= <-]. eauto.
  - intros [= <-]. eauto.
Qed.
Lemma never_run (WB : well_behaved true) cs : forall y y' lo, Forall (allowedIn true) cs -> sound true y -> never (dispatcher y) lo -> lo <= ongoing (fm y) -> fine (fm y') ->
  run (NewString := NewString) userAction userFunction IsPrint cs y = Some y' -> handling y' = handling y /\ idle (dispatcher y') = false.
Proof.
  induction cs as [|c cs IH]; intros y y' lo Hcs Hs Hn Hlo Hfine.
  - intros [= <-]. split; [done|]. by destruct (dispatcher y).
  - inversion Hcs; subst. cbn [Flows.run]. destruct (step userAction userFunction IsPrint c y) as [y1|] eqn:E; [|done]. intros Hr.
    assert (sound true y1) as Hs1 by by eapply sound_step.
    destruct (never_step WB c y y1 lo) as (Eh & lo' & Hn' & Hlo'); [done..|by eapply fine_run|done|]. rewrite <- Eh.
    by eapply (IH y1).
Qed.

(** Actions held back until the assistant's turn are run by the dispatcher of the
    worker's events, which is also what ends them: where they have something said, or a
    function run, the dispatcher waits for itself, and no frame is handled from then on,
    whatever else happens but a failure that takes a start back. *)
Theorem deferred_speech_never_ends c s cs y rest cs' y' :
  well_behaved true -> New c = inr s -> Forall (allowedIn true) (cs ++ cs') ->
  run (NewString := NewString) userAction userFunction IsPrint cs (boot s) = Some y ->
  idle (dispatcher y) = true -> events y = BotStoppedSpeakingFrame :: rest -> ongoing (fm y) = 0 ->
  deferred (fm y) <> [] -> Forall speaks (deferred (fm y)) ->
  run (NewString := NewString) userAction userFunction IsPrint (Dispatch 0 :: Dispatch 0 :: Dispatch 0 :: cs') y = Some y' -> Undone ∉ log (fm y') ->
  handling y' = Some BotStoppedSpeakingFrame /\ idle (dispatcher y') = false.
Proof.
  intros WB Hnew [H1 H2]%Forall_app Hrun Hi He Ho Hne Hsp Hrun' Hfine.
  assert (sound true y) as Hs by (eapply sound_run; [done|exact H1|by eapply sound_boot|done]).
  pose (y1 := y <| fm := (fm y) <| deferred := [] |> |> <| events := rest |> <| handling := Some BotStoppedSpeakingFrame |>
                <| dispatcher := (executeActions userAction (deferred (fm y)) ;;; skip) |>).
  assert (run (NewString := NewString) userAction userFunction IsPrint [Dispatch 0; Dispatch 0; Dispatch 0] y = Some y1) as Hr.
  { cbn [Flows.run Flows.step]. rewrite Hi, He. cbn. rewrite Ho. cbn. by destruct (deferred (fm y)). }
  change (Dispatch 0 :: Dispatch 0 :: Dispatch 0 :: cs') with ([Dispatch 0; Dispatch 0; Dispatch 0] ++ cs') in Hrun'.
  rewrite run_app, Hr in Hrun'. change (Some BotStoppedSpeakingFrame) with (handling y1).
  apply (never_run WB cs' y1 y' 0); [done| | |cbn; lia|exact Hfine|exact Hrun'].
  - eapply sound_run; [done| |exact Hs|exact Hr]. by repeat constructor.
  - change (never (executeActions userAction (deferred (fm y)) ;;; skip) 0). apply takes_bind.
    apply (takes_mono _ _ _ (fun _ _ => False)); [|done]. destruct (deferred (fm y)) as [|a l]; [done|]. by apply (executeFrom_never (a :: l)).
Qed.

(** ** What entering a node puts into the pipeline *)

Definition queuedOf (s : FM) : list frame := omap (fun e => match e with Queued f => Some f | _ => None end) (log s).
Lemma queuedOf_emit e s : queuedOf (emit e s) = queuedOf s ++ match e with Queued f => [f] | _ => [] end.
Proof. unfold queuedOf. cbn [log emit setter]. unfold emit. cbn. rewrite omap_app. by destruct e. Qed.

(** What is known of every state it acts on: the built-in actions are the code's, the
    others the user's, and what [New] fixed stays. *)
Record fixed (gs : list NodeFunction) (st : ContextStrategyConfig) (s : FM) : Prop := {
  fx_built : built s;
  fx_custom t h : builtins !! t = None -> names s !! t = Some h -> exists n, h = Custom n;
  fx_globals : globals s = gs;
  fx_strategy : strategy s = st
}.

Section Entering.
Context (gs : list NodeFunction) (st : ContextStrategyConfig).
Abbreviation adds p tr r := (Prog.adds queuedOf (fixed gs st) p tr r).

(** The frames of an action, and of a list of them up to the end of the conversation. *)
Definition spokenBy (a : ActionConfig) : list frame :=
  match AText a with [] => [] | t => [TTSSpeakFrame t (appendTextToContext a)] end.
Inductive performs (a : ActionConfig) : list frame -> Prop :=
| pSay : Type_ a = actionTTSSay -> performs a (spokenBy a ++ match AText a with [] => [] | _ => [ActionFinishedFrame] end)
| pEnd : Type_ a = actionEndConversation -> performs a (spokenBy a ++ [EndFrame])
| pFunction : Type_ a = actionFunction -> performs a (match AHandler a with Some h => [FunctionActionFrame a h] | None => [] end)
| pCustom h t : builtins !! Type_ a = None -> adds (userAction h a) t None -> performs a t.
Inductive performed : list ActionConfig -> list frame -> Prop :=
| performed_nil : performed [] []
| performed_cons a l t t' : performs a t -> Type_ a <> actionEndConversation -> performed l t' -> performed (a :: l) (t ++ t')
| performed_end a l t : performs a t -> Type_ a = actionEndConversation -> performed (a :: l) t.

(** What makes a node current: its persona, its objective behind the summary there is, if
    any, in place of the conversation or after it, and its tools. *)
Definition contextFrames (n : NodeConfig) (task : list Message) (summary : gostring) (ts : list Tool) : list frame :=
  let kind := Strategy (default st (NodeStrategy n)) in
  let messages := match summary with [] => task | _ => formatSummaryMessage summary :: task end in
  (match RoleMessage n with [] => [] | r => [LLMUpdateSettingsFrame r] end) ++
  [if bool_decide (kind = ContextStrategyReset) || (bool_decide (kind = ContextStrategyResetWithSummary) && negb (bool_decide (summary = [])))
   then LLMMessagesUpdateFrame messages else LLMMessagesAppendFrame messages;
   LLMSetToolsFrame ts].

Lemma adds_queue {B} f (k : prog B) tr b : adds (QueueFrame f ;;; k) tr b -> exists t, adds k t b /\ tr = f :: t.
Proof. intros (t & Ht & ->)%(adds_do _ _ _ [f]); [eauto|]. intros s. exact (queuedOf_emit (Queued f) (s <| pipe ::= fun l => l ++ [f] |>)). Qed.
Lemma adds_silent {B} (f : FM -> FM) (k : unit -> prog B) tr b : (forall s, queuedOf (f s) = queuedOf s) -> adds (bind (do_ f) k) tr b -> adds (k tt) tr b.
Proof. intros Hf (t & Ht & ->)%(adds_do _ _ _ []); [done|]. intros s. by rewrite app_nil_r. Qed.
Lemma adds_wait {B} a b (k : prog B) tr r : adds (waitForOngoing a b ;;; k) tr r -> adds k tr r.
Proof.
  unfold waitForOngoing. destruct (waits a b); [|done]. cbn. intros (s & u & s' & t & t' & _ & Hin & Ho & Ht & ->).
  unfold settled in Hin. destruct (0 <? ongoing s); [done|]. destruct Hin as [[= <- <-]|[]]. rewrite queuedOf_emit in Ho. by apply app_inv_head in Ho as <-.
Qed.
Lemma adds_frames {B} l (k : prog B) tr b : adds (QueueFrames l ;;; k) tr b -> exists t, adds k t b /\ tr = l ++ t.
Proof.
  revert tr. induction l as [|f l IH]; intros tr; [eauto|].
  intros (t & (t' & Ht & ->)%IH & ->)%(adds_queue f (QueueFrames l ;;; k)). eauto.
Qed.

Lemma adds_start {B} (k : prog B) tr b : adds (startAction ;;; k) tr b -> adds k tr b.
Proof. by apply adds_silent. Qed.
Lemma handler_adds a h s tr : fixed gs st s -> Type_ a <> [] -> names s !! Type_ a = Some h -> adds (runHandler userAction h a) tr None -> performs a tr.
Proof.
  intros [Hb Hc _ _] Hne Hh. destruct (builtins !! Type_ a) as [b|] eqn:Eb.
  - rewrite (Hb _ _ Eb) in Hh. injection Hh as <-. unfold builtins in Eb.
    rewrite !lookup_insert, !lookup_singleton in Eb. repeat case_decide; simplify_eq; cbn [runHandler].
    + pose proof (pSay a ltac:(done)) as Hp. revert Hp. unfold handleTTSSay, spokenBy. destruct (AText a) as [|x t]; cbn [bool_decide]; [by intros Hp [-> _]|].
      by intros Hp (t1 & (t2 & [-> _] & ->)%adds_queue & ->)%adds_start%adds_queue.
    + pose proof (pEnd a ltac:(done)) as Hp. revert Hp. unfold handleEndConversation, spokenBy.
      destruct (AText a) as [|x t]; [rewrite (bool_decide_eq_true_2 _ eq_refl)|rewrite bool_decide_eq_false_2 by done]; cbn [negb when app].
      * by intros Hp (t1 & [-> _] & ->)%adds_start%adds_queue.
      * by intros Hp (t1 & (t2 & [-> _] & ->)%adds_queue & ->)%adds_start%adds_queue.
    + pose proof (pFunction a ltac:(done)) as Hp. revert Hp. unfold handleFunction. destruct (AHandler a) as [f|]; [|by intros Hp [-> _]].
      by intros Hp (t1 & [-> _] & ->)%adds_start%adds_queue.
  - destruct (Hc _ _ Eb Hh) as [m ->]. by apply pCustom.
Qed.

Lemma executeFrom_adds l : forall previous tr, adds (executeFrom userAction previous l) tr None -> performed l tr.
Proof.
  induction l as [|a l IH]; intros previous tr; cbn [executeFrom].
  - intros H%adds_wait. destruct H as [-> _]. constructor.
  - case_bool_decide as Hne; [by intros [_ ?]|]. intros (s & Hs & H)%adds_get. destruct (names s !! Type_ a) as [h|] eqn:Eh; [|by destruct H].
    apply adds_get in H as (s1 & _ & H). apply adds_wait in H. apply adds_bind in H as (e & t1 & t2 & H1 & H2 & ->).
    destruct e as [e|].
    + apply adds_get in H2 as (s2 & _ & H2). destruct (ongoing s1 <? ongoing s2); cbn [when] in H2; [|by destruct H2].
      apply adds_bind in H2 as (? & ? & ? & _ & [_ ?] & _). done.
    + assert (performs a t1) as Hp by by eapply handler_adds. case_bool_decide as He.
      * apply adds_wait in H2 as [-> _]. rewrite app_nil_r. by apply performed_end.
      * apply performed_cons; [done..|]. by eapply IH.
Qed.
Lemma executeActions_adds l tr : adds (executeActions userAction l) tr None -> performed l tr.
Proof. destruct l; [intros [-> _]; constructor|apply executeFrom_adds]. Qed.
Lemma orElse_adds p k tr : adds (orElse p k) tr None -> exists t t', adds p t None /\ adds k t' None /\ tr = t ++ t'.
Proof. intros ([e|] & t & t' & Hp & Hk & ->)%adds_bind; [by destruct Hk|eauto]. Qed.
Lemma register_adds t h tr r : adds (register t h) tr r -> tr = [].
Proof. destruct h as [h|]; [|by intros [-> _]]. by intros [-> _]%adds_silent. Qed.
Lemma registerAll_adds l tr : adds (registerAll l) tr None -> tr = [].
Proof.
  revert tr. induction l as [|a l IH]; intros tr; [by intros [-> _]|]. intros (t & t' & Hp & ->%IH & ->)%orElse_adds.
  unfold registerFromConfig in Hp. destruct (bool_decide _); [by destruct Hp|]. apply adds_get in Hp as (s & _ & Hp).
  rewrite app_nil_r. destruct (names s !! Type_ a); [by destruct Hp|]. by eapply register_adds.
Qed.

Lemma updateContext_adds {B} n task ts (k : prog B) tr r : TaskMessages n = Some task -> adds (updateContext n ts ;;; k) tr r ->
  exists summary t, adds k t r /\ tr = contextFrames n task summary ts ++ t
    /\ (summary <> [] -> Strategy (default st (NodeStrategy n)) = ContextStrategyResetWithSummary).
Proof.
  intros Et (u & t1 & t2 & H & Hk & ->)%adds_bind. unfold updateContext in H. apply adds_get in H as (s & Hs & H). rewrite (fx_strategy _ _ _ Hs) in H.
  apply adds_bind in H as (summary & t3 & t4 & Hsum & H & ->). exists summary, t2. split; [done|].
  assert (t3 = [] /\ (summary <> [] -> Strategy (default st (NodeStrategy n)) = ContextStrategyResetWithSummary)) as [-> Hreset].
  { case_bool_decide as E; [|by destruct Hsum as [-> ->]]. split; [|done]. unfold summarize in Hsum. apply adds_get in Hsum as (s1 & _ & Hsum).
    destruct (llm s1 && aggs s1); [|by destruct Hsum]. unfold generateSummary in Hsum. apply adds_get in Hsum as (s2 & _ & Hsum).
    destruct Hsum as (x & -> & _). done. }
  split; [|done]. rewrite app_nil_l. clear Hsum. 
  assert (adds (QueueFrames (contextFrames n task summary ts) ;;; Ret tt) t4 tt) as (t & [-> _] & ->)%adds_frames; [|by rewrite app_nil_r].
  destruct u. apply adds_bind. exists tt, t4, []. split_and!; [|done|by rewrite app_nil_r]. revert H. unfold contextFrames. rewrite Et. cbn [default].
  generalize (Strategy (default st (NodeStrategy n))). intros kind. destruct kind, summary; exact (fun H => H).
Qed.

Lemma toolsOf_names fs ts : toolsOf fs = inr ts -> List.map toolName ts = List.map fnName fs.
Proof.
  revert ts. induction fs as [|f fs IH]; intros ts; cbn [toolsOf]; [by intros [= <-]|]. unfold toolOf. destruct (validateFunction f); [done|].
  destruct (fnParameters f); [|done]. destruct (toolsOf fs) as [|ts']; [done|]. intros [= <-]. cbn. by rewrite (IH ts').
Qed.

(** C33: Entering a node, whatever goes on meanwhile, puts into the pipeline the frames of
    its actions on the way in, then its persona, its objective by its strategy and its tools
    behind the global ones, then asks for a response where it speaks on entry, and only
    then the frames of its actions on the way out. *)
Theorem node_entered_in_order id n tr : adds (enterNode userAction id n) tr None ->
  exists pre task summary ts post,
    tr = pre ++ contextFrames n task summary ts ++ (if respondsImmediately n then LLMRunFrame :: post else [])
    /\ performed (PreActions n) pre
    /\ TaskMessages n = Some task
    /\ (summary <> [] -> Strategy (default st (NodeStrategy n)) = ContextStrategyResetWithSummary)
    /\ toolsOf (gs ++ Functions n) = inr ts /\ List.map toolName ts = List.map fnName (gs ++ Functions n)
    /\ (respondsImmediately n = true -> performed (PostActions n) post).
Proof.
  unfold enterNode. intros (s & _ & H)%adds_act; [|intros s0; exact (eq_trans (queuedOf_emit Dropped (s0 <| pending := None |>)) (app_nil_r _))].
  destruct (negb _); [by destruct H|]. unfold validateNode in H. destruct (TaskMessages n) as [task|] eqn:Et; [|by destruct H].
  destruct (firstError validateFunction (Functions n)); [by destruct H|]. apply adds_silent in H; [|done].
  apply orElse_adds in H as (? & t & ->%registerAll_adds & H & ->). apply orElse_adds in H as (? & t' & ->%registerAll_adds & H & ->).
  apply orElse_adds in H as (pre & t'' & Hpre%executeActions_adds & H & ->). apply adds_get in H as (s1 & Hs1 & H). rewrite (fx_globals _ _ _ Hs1) in H.
  unfold nodeTools in H. destruct (toolsOf (gs ++ Functions n)) as [e|ts] eqn:Ets; [by destruct H|].
  apply (updateContext_adds n task) in H as (summary & t3 & H & -> & Hsum); [|done]. apply adds_silent in H; [|done].
  assert (exists post, t3 = (if respondsImmediately n then LLMRunFrame :: post else []) /\ (respondsImmediately n = true -> performed (PostActions n) post)) as (post & -> & Hpost).
  { destruct (respondsImmediately n); cbn [when] in H.
    - apply adds_queue in H as (post & H & ->). exists post. split; [done|]. intros _. apply executeActions_adds. by destruct (PostActions n).
    - exists []. split; [|done]. destruct (PostActions n) as [|a post]; [by destruct H|]. apply adds_silent in H; [|done]. by destruct H. }
  exists pre, task, summary, ts, post. split_and!; try done. by apply toolsOf_names.
Qed.
End Entering.
End Facts.

(** ** A flow at work *)

Definition quietAction (_ : nat) (_ : ActionConfig) : prog (option error) := Ret None.
Definition say (t : string) : ActionConfig := mkAction actionTTSSay None (bytes_of t) None.
Definition call (h : nat) : ActionConfig := mkAction actionFunction (Some h) [] None.
Definition plainNode (name : string) : NodeConfig := mkNode (bytes_of name) [] (Some [plain RoleUser (bytes_of name)]) [] [] [] None None.
#[local] Existing Instance eta_FM.
#[local] Instance eta_NodeConfig : Eta NodeConfig := fun n =>
  mkNode (Name n) (RoleMessage n) (TaskMessages n) (Functions n) (PreActions n) (PostActions n) (NodeStrategy n) (RespondImmediately n).
Definition greeting : NodeConfig := (plainNode "greeting") <| PreActions := [say "hello"] |>.
Definition waiting : NodeConfig := (plainNode "waiting") <| PostActions := [say "bye"] |> <| RespondImmediately := Some false |>.
(** Function 0 leads on to the node called next; the others stay. *)
Definition leadsOn (h : nat) (_ : gostring) : prog answer := Ret (mkAnswer [] (match h with 0%nat => Go (plainNode "next") | _ => Stay end) None).
Definition names_ (n : nat) : gostring := [Z.of_nat n].
Definition ascii (r : rune) : bool := (32 <=? r) && (r <? 127).

Lemma quiet_well_behaved keep : well_behaved quietAction leadsOn keep.
Proof. split; intros; by apply keeps_ret. Qed.
Definition started (c : Config) : FM := match New c with inr s => s | inl _ => mkFM false false false (mkStrategy ContextStrategyAppend []) [] ∅ 0 [] false [] ∅ None ∅ [] false [] 0 [] end.
Definition cfg : Config := mkConfig true true true true None [].
Abbreviation flowRuns userAction cs := (run (NewString := names_) userAction leadsOn ascii cs (boot (started cfg))).
Abbreviation steps userAction c y := (step (NewString := names_) userAction leadsOn ascii c y).
Definition after (userAction : nat -> ActionConfig -> prog (option error)) (cs : list choice) : Sys := default (boot (started cfg)) (flowRuns userAction cs).

Definition runs_ok (userAction : nat -> ActionConfig -> prog (option error)) (cs : list choice) : bool :=
  match flowRuns userAction cs with Some _ => true | None => false end.
Lemma flows_after userAction cs : runs_ok userAction cs = true -> flowRuns userAction cs = Some (after userAction cs).
Proof. unfold runs_ok, after. by destruct (flowRuns userAction cs). Qed.
Lemma after_more userAction cs cs' : runs_ok userAction (cs ++ cs') = true ->
  run (NewString := names_) userAction leadsOn ascii cs' (after userAction cs) = Some (after userAction (cs ++ cs')).
Proof.
  intros H. pose proof (flows_after _ _ H) as Hr. rewrite run_app in Hr. unfold after at 1. destruct (flowRuns userAction cs) as [y|]; [exact Hr|done].
Qed.
Lemma after_step userAction cs c : runs_ok userAction (cs ++ [c]) = true -> steps userAction c (after userAction cs) = Some (after userAction (cs ++ [c])).
Proof. intros H%after_more. revert H. cbn [run]. by destruct (steps userAction c (after userAction cs)). Qed.

Definition toWait : list choice := Begin (CallInitialize (Some greeting)) :: List.repeat (Run 0 0) 9 ++ [Deliver; Deliver; Dispatch 0; Dispatch 0].
Lemma waits_for_actions_witness :
  outstanding (after quietAction (toWait ++ [Run 0 0])) = [].
Proof.
  apply (waits_for_actions (NewString := names_) quietAction leadsOn ascii cfg (started cfg) toWait (after quietAction toWait) (Run 0 0)
           (after quietAction (toWait ++ [Run 0 0]))).
  - apply quiet_well_behaved.
  - reflexivity.
  - apply flows_after. vm_compute. reflexivity.
  - apply after_step. vm_compute. reflexivity.
  - vm_compute. reflexivity.
  - vm_compute. intros H. repeat (apply elem_of_cons in H as [H|H]; [discriminate|]). by apply not_elem_of_nil in H.
Defined.

Definition toMove : list choice :=
  [Begin (CallInitialize None); Run 0 0; Begin (CallFunction (bytes_of "go") 0 []); Run 1 0; Begin CallContextUpdated; Run 2 0; Run 2 0; Run 2 0].
Definition asked : pendingTransition := mkPending (plainNode "next") (bytes_of "go").
Lemma transition_once_witness : exists l3 l4, [Asked asked] = l3 ++ Asked asked :: l4 /\ Forall (fun e => touches e = false) l4.
Proof.
  apply (transition_once (NewString := names_) quietAction leadsOn ascii cfg (started cfg) toMove (after quietAction toMove) [Asked asked] asked []).
  - apply quiet_well_behaved.
  - reflexivity.
  - apply flows_after. vm_compute. reflexivity.
  - vm_compute. reflexivity.
Defined.

Definition toRest : list choice := Begin (CallInitialize (Some waiting)) :: List.repeat (Run 0 0) 10 ++ [Report BotStoppedSpeakingFrame].
Definition toSpeech : list choice := List.repeat (Dispatch 0) 3.
Definition more : list choice := List.repeat (Dispatch 0) 5 ++ List.repeat Deliver 4 ++ [Report BotStoppedSpeakingFrame].
Lemma deferred_speech_never_ends_witness :
  handling (after quietAction (toRest ++ toSpeech ++ more)) = Some BotStoppedSpeakingFrame
  /\ idle (dispatcher (after quietAction (toRest ++ toSpeech ++ more))) = false.
Proof.
  apply (deferred_speech_never_ends (NewString := names_) quietAction leadsOn ascii cfg (started cfg) toRest (after quietAction toRest) []
           more (after quietAction (toRest ++ toSpeech ++ more))).
  - apply quiet_well_behaved.
  - reflexivity.
  - vm_compute. repeat constructor; intros; done.
  - apply flows_after. vm_compute. reflexivity.
  - vm_compute. reflexivity.
  - vm_compute. reflexivity.
  - vm_compute. reflexivity.
  - vm_compute. discriminate.
  - vm_compute. repeat constructor. discriminate.
  - apply (after_more quietAction toRest (toSpeech ++ more)). vm_compute. reflexivity.
  - vm_compute. intros H. repeat (apply elem_of_cons in H as [H|H]; [discriminate|]). by apply not_elem_of_nil in H.
Defined.

Definition running : FM := (started cfg) <| initialized := true |>.
Lemma running_fixed : fixed [] (mkStrategy ContextStrategyAppend []) running.
Proof.
  split; [by intros t h| |done|done]. intros t h Ht Hn. change (builtins !! t = Some h) in Hn. by rewrite Ht in Hn.
Qed.
Definition greeted : list frame :=
  [TTSSpeakFrame (bytes_of "hello") true; ActionFinishedFrame; LLMMessagesAppendFrame [plain RoleUser (bytes_of "greeting")]; LLMSetToolsFrame []; LLMRunFrame].
Lemma node_entered_in_order_witness : exists pre task summary ts post,
  greeted = pre ++ contextFrames (mkStrategy ContextStrategyAppend []) greeting task summary ts ++ LLMRunFrame :: post
  /\ performed quietAction [] (mkStrategy ContextStrategyAppend []) [say "hello"] pre
  /\ Some [plain RoleUser (bytes_of "greeting")] = Some task
  /\ (summary <> [] -> ContextStrategyAppend = ContextStrategyResetWithSummary)
  /\ inr [] = (inr ts : error + list Tool) /\ List.map toolName ts = []
  /\ (true = true -> performed quietAction [] (mkStrategy ContextStrategyAppend []) [] post).
Proof.
  apply (node_entered_in_order quietAction [] (mkStrategy ContextStrategyAppend []) (bytes_of "greeting") greeting greeted).
  repeat (eexists running, _, _, _, _; split; [exact running_fixed|split; [left; reflexivity|split; [vm_compute; reflexivity|split]]]).
  all: try (split; reflexivity). all: reflexivity.
Defined.

(** ** What the code does not mean to do *)

(** An action that fails takes a start counted while it ran for its own, and ends it: the
    wait of another caller is over with what that caller has said still on its way. *)
Definition failing (_ : nat) (_ : ActionConfig) : prog (option error) := Ret (Some (Foreign [7])).
Definition failNode : NodeConfig := (plainNode "failing") <| PreActions := [mkAction (bytes_of "custom") (Some 0%nat) [] None] |>.
Definition toFailed : list choice :=
  Begin (CallInitialize (Some greeting)) :: Begin (CallSetNode (Some failNode)) :: List.repeat (Run 0 0) 6 ++ List.repeat (Run 1 0) 6
  ++ List.repeat (Run 0 0) 3 ++ List.repeat (Run 1 0) 2 ++ [Run 0 0].
Lemma failure_ends_another :
  let y := after failing toFailed in
  runs_ok failing toFailed = true /\ last (log (fm y)) = Some Settled /\ outstanding y = [ActionFinishedFrame] /\ Undone ∈ log (fm y).
Proof. vm_compute. repeat split. repeat (first [by left|right]). Qed.

(** No goroutine can go on but for what comes from outside. *)
Definition blocked {A} (p : prog A) (s : FM) : bool :=
  match p with Ret _ => true | Act f _ => match f s with [] => true | _ => false end | Ask _ _ => false end.
Definition hung (y : Sys) : bool :=
  forallb (fun p => blocked p (fm y)) (callers y) && blocked (dispatcher y) (fm y)
  && match pipe (fm y) with [] => true | _ => false end && match events y with [] => true | _ => negb (idle (dispatcher y)) end.

(** An action may move the flow, but one run in the pipeline's order counts as going on
    until it returns: moving to a node that has something said first, it waits for
    itself. *)
Definition mover (_ : nat) (_ : ActionConfig) : prog (option error) := SetNode (NewString := names_) quietAction (Some greeting).
Definition toMover : list choice :=
  Begin (CallInitialize (Some ((plainNode "first") <| PostActions := [call 0] |>))) :: List.repeat (Run 0 0) 14
  ++ List.repeat Deliver 4 ++ List.repeat (Dispatch 0) 9 ++ List.repeat Deliver 2.
Lemma moving_action_hangs :
  let y := after mover toMover in
  runs_ok mover toMover = true /\ hung y = true /\ handling y = Some (FunctionActionFrame (call 0) 0) /\ idle (dispatcher y) = false
  /\ log (fm y) <> [] /\ ongoing (fm y) = 2.
Proof. vm_compute. repeat split; try done. Qed.

(** The frame that ends an utterance may be taken off the line by an interruption: the
    transition waits for it for good. *)
Definition toInterrupted : list choice := Begin (CallInitialize (Some greeting)) :: List.repeat (Run 0 0) 9 ++ [Deliver; Lose 0].
Lemma interrupted_speech_hangs :
  let y := after quietAction toInterrupted in
  runs_ok quietAction toInterrupted = true /\ hung y = true /\ List.map idle (callers y) = [false] /\ ongoing (fm y) = 1 /\ outstanding y = [].
Proof. vm_compute. repeat split. Qed.

(** And so may what makes a node current, which the flow is on all the same. *)
Definition toLost : list choice := Begin (CallInitialize (Some (plainNode "next"))) :: List.repeat (Run 0 0) 9 ++ [Lose 0; Lose 0; Lose 0].
Lemma interrupted_node_lost :
  let y := after quietAction toLost in
  runs_ok quietAction toLost = true /\ current (fm y) = bytes_of "next" /\ pipe (fm y) = [] /\ List.map idle (callers y) = [true]
  /\ queuedOf (fm y) = [LLMMessagesAppendFrame [plain RoleUser (bytes_of "next")]; LLMSetToolsFrame []; LLMRunFrame].
Proof. vm_compute. repeat split. Qed.

(** The actions a node holds back until the assistant's first turn at it run at the end
    of any turn, also the one that was going on when the node was entered. *)
Definition toEarly : list choice := Begin (CallInitialize (Some waiting)) :: List.repeat (Run 0 0) 10 ++ [Report BotStoppedSpeakingFrame; Dispatch 0; Dispatch 0; Dispatch 0].
Lemma deferred_run_early :
  let y := after quietAction toEarly in
  runs_ok quietAction toEarly = true /\ deferred (fm y) = [] /\ LLMRunFrame ∉ queuedOf (fm y).
Proof. vm_compute. split; [done|]. split; [done|]. intros H. repeat (apply elem_of_cons in H as [H|H]; [done|]). by apply not_elem_of_nil in H. Qed.

(** Of two calls of one turn, one leads on and reports first, the other stays: the first
    finds the other in progress and leaves the move to it, and the other's result comes with
    no callback to make it. *)
Definition toBoth : list choice :=
  [Begin (CallInitialize None); Run 0 0; Begin (CallFunction (bytes_of "go") 0 []); Run 1 0; Begin (CallFunction (bytes_of "look") 1 [])].
Definition begun (i : string) : Assistant.InProgressFrame := Assistant.mkInProgress (bytes_of i) [] [] true (bytes_of "turn").
Definition env : Assistant.env := Assistant.mkEnv [1] false.
Definition bothCalled : Assistant.Assistant :=
  Assistant.handleFunctionCallInProgress (begun "look") (Assistant.handleFunctionCallInProgress (begun "go") (Assistant.newAssistant (NewLLMContext []) false false false)).
(** What a function is answered with, run alone. *)
Fixpoint alone {A} (p : prog A) (s : FM) : option A :=
  match p with Ret a => Some a | Act f k => match f s with (r, s) :: _ => alone (k r) s | [] => None end | Ask _ k => alone (k None) s end.
Definition resultFrame (i : string) (h : nat) : option Assistant.ResultFrame :=
  (fun r => Assistant.mkResult (bytes_of i) [] r.1 None r.2) <$> alone (transitionFunc leadsOn ascii (bytes_of i) h []) running.
Definition answered (i : string) (h : nat) (a : Assistant.Assistant) : option Assistant.act := (fun f => Assistant.handleFunctionCallResult env f a) <$> resultFrame i h.
Definition comesBack (out : list Assistant.output) : bool := existsb (fun o => match o with Assistant.ContextUpdated => true | _ => false end) out.
Lemma transition_lost :
  match answered "go" 0 bothCalled with
  | Some (a1, out1) =>
    comesBack out1 = true /\ Assistant.HasFunctionCallsInProgress a1 = true
    /\ (let cs := toBoth ++ [Calls (Assistant.HasFunctionCallsInProgress a1); Begin CallContextUpdated; Run 3 0; Run 3 0] in
        let y := after quietAction cs in
        runs_ok quietAction cs = true /\ pending (fm y) = Some asked /\ List.nth_error (List.map idle (callers y)) 3 = Some true)
    /\ match answered "look" 1 a1 with
       | Some (a2, out2) => Assistant.HasFunctionCallsInProgress a2 = false /\ comesBack out2 = false
       | None => False
       end
  | None => False
  end.
Proof. vm_compute. repeat split. Qed.

(** The failure of a function is reported as JSON, its text quoted as Go quotes it, which
    JSON does not read. *)
Lemma error_result_not_json : Json.parse (errorResult ascii (Foreign [7])) = None /\ Json.parse (errorResult ascii (Foreign (bytes_of "no"))) <> None.
Proof. vm_compute. by split. Qed.

(** A summary needs a prompt, which is asked of the manager's strategy but not of a node's. *)
Definition unprompted : ContextStrategyConfig := mkStrategy ContextStrategyResetWithSummary [].
Definition toUnprompted : list choice := Begin (CallInitialize (Some ((plainNode "next") <| NodeStrategy := Some unprompted |>))) :: List.repeat (Run 0 0) 7.
Definition asks (p : prog unit) : option gostring := match p with Ask q _ => Some (instruction q) | _ => None end.
Lemma summary_without_prompt :
  New (mkConfig true true true true (Some unprompted) []) = inl (errf ErrFlow)
  /\ runs_ok quietAction toUnprompted = true /\ List.map asks (callers (after quietAction toUnprompted)) = [Some []].
Proof. vm_compute. repeat split. Qed.

(** Without a watcher nothing ends what a node has said on the way in. *)
Definition unwatched : Config := mkConfig true false true true None [].
Lemma unwatched_hangs :
  match run (NewString := names_) quietAction leadsOn ascii
          (Begin (CallInitialize (Some greeting)) :: List.repeat (Run 0 0) 9 ++ [Deliver; Deliver]) (boot (started unwatched)) with
  | Some y => hung y = true /\ List.map idle (callers y) = [false] /\ ongoing (fm y) = 1
  | None => False
  end.
Proof. vm_compute. repeat split. Qed.

(** ** Errors *)

(** Every error of the manager is a flow error, one of initialization also that. *)
Lemma setNode_errors userAction p tr id n e : Prog.adds queuedOf p (setNode userAction id n) tr (Some e) -> Is ErrFlow e = true.
Proof. intros (r & ? & ? & _ & [_ H] & _)%adds_bind. destruct r; cbn in H; [|done]. by injection H as ->. Qed.
End FlowFacts.
