(* ===== verification/TurnStrategies.v ===== *)
(** * User-turn strategies and the controller they report to

    Package [turns] ([src/processor/turns]): the start strategies ([start.go]),
    the stop strategies ([stop.go], [completion.go]), the bases they embed
    ([strategy.go]) and the controller that runs them ([controller.go]).

    One mutex serializes every state change, so an operation is a function on one
    [World].  Strategies are objects in a store, named by an address: a decision a
    strategy signals re-enters the controller, which resets every strategy of the
    chains, the one deciding included, and the code that runs on after a signal
    reads the state that reset left.  A timer is live from [after] until it fires
    or is canceled; a canceled timer whose callback is already waiting for the
    mutex does nothing, which is what removing it says.  Handles are kept apart by
    the callback they belong to, as the closures of the code are. *)

From S2P Require Import Prelude Float64 Frames Text.

Module Turns.
Local Open Scope Z_scope.

(** ** The end-of-turn analyzer, an interface *)

Inductive EndOfTurnState := Incomplete | Complete.

(** What [AnalyzeEndOfTurn] returns, and how long it ran. *)
Record Verdict := mkVerdict { v_state : EndOfTurnState; v_prob : f64; v_err : bool; v_took : Z }.

Class TurnAnalyzer (A : Type) := {
  SetSampleRate : Z -> A -> A;
  AppendAudio : list Z -> bool -> A -> EndOfTurnState * A;
  AnalyzeEndOfTurn : A -> Verdict * A;
  UpdateVADStartSecs : f64 -> A -> A;
  Clear : A -> A
}.

(** ** Addresses, timers, reports *)

Abbreviation addr := nat.

(** The callbacks timers run. *)
Inductive callback :=
| CbWatchdog
| CbWake (o : addr)
| CbAnalyzer (o : addr)
| CbUserSpeech (o : addr)
| CbSTT (o : addr)
| CbTick (o : addr).

#[global] Instance callback_eq_dec : EqDecision callback.
Proof. solve_decision. Defined.

#[global] Instance callback_countable : Countable callback.
Proof.
  refine (inj_countable'
    (fun c => match c with
              | CbWatchdog => (0, 0) | CbWake o => (1, o) | CbAnalyzer o => (2, o)
              | CbUserSpeech o => (3, o) | CbSTT o => (4, o) | CbTick o => (5, o) end)%nat
    (fun '(t, o) => match t with
                    | 0 => CbWatchdog | 1 => CbWake o | 2 => CbAnalyzer o
                    | 3 => CbUserSpeech o | 4 => CbSTT o | _ => CbTick o end)%nat _).
  by intros [].
Defined.

Inductive ProcessFrameResult := Continue | Stop.

Record UserTurnStartedParams := mkStartedParams {
  sp_EnableInterruptions : bool;
  sp_EnableUserSpeakingFrames : bool
}.
Record UserTurnStoppedParams := mkStoppedParams { pp_EnableUserSpeakingFrames : bool }.

Definition DefaultStartedParams : UserTurnStartedParams := mkStartedParams true true.
Definition DefaultStoppedParams : UserTurnStoppedParams := mkStoppedParams true.

(** What the controller is given and what it reports upward, in order. *)
Inductive event :=
| EFrame (f : Payload)                                    (** [Process] was handed f *)
| EStarted (s : addr) (p : UserTurnStartedParams)
| EStopped (s : option addr) (p : UserTurnStoppedParams)  (** None: no strategy decided *)
| EInference (s : addr)
| EStopTimeout
| EReset (s : addr)
| EPush (f : Payload) (dir : Direction)
| EBroadcast (f : Payload)
| EWakeDetected (phrase : list rune)
| EWakeTimeout.

(** ** Strategy objects *)

Record MinWordsStart := mkMinWords { mw_minWords : Z; mw_useInterim : bool; mw_botSpeaking : bool }.
#[global] Instance eta_MinWords : Eta MinWordsStart := fun s =>
  mkMinWords (mw_minWords s) (mw_useInterim s) (mw_botSpeaking s).

(** [wk_phrases] are the phrases kept, each with the words of its expression. *)
Record WakePhraseStart := mkWake {
  wk_phrases : list (list rune * list (list rune));
  wk_timeout : Z;
  wk_single : bool;
  wk_awake : bool;
  wk_accum : list rune;
  wk_cancelTimer : option nat
}.
#[global] Instance eta_Wake : Eta WakePhraseStart := fun s =>
  mkWake (wk_phrases s) (wk_timeout s) (wk_single s) (wk_awake s) (wk_accum s) (wk_cancelTimer s).

Inductive StartData :=
| DVADStart
| DTranscriptionStart (useInterim : bool)
| DMinWordsStart (s : MinWordsStart)
| DWakePhraseStart (s : WakePhraseStart)
| DExternalStart.

(** [StartStrategyBase]; [sb_attached] says whether the controller handed it the
    shared environment. *)
Record StartStrategy := mkStart {
  sb_EnableInterruptions : bool;
  sb_EnableUserSpeakingFrames : bool;
  sb_attached : bool;
  sb_data : StartData
}.
#[global] Instance eta_Start : Eta StartStrategy := fun s =>
  mkStart (sb_EnableInterruptions s) (sb_EnableUserSpeakingFrames s) (sb_attached s) (sb_data s).

Record TurnAnalyzerStop {A : Type} := mkTA {
  ta_analyzer : A;
  ta_waitForTx : bool;
  ta_sttTimeout : Z;
  ta_stopWindow : Z;
  ta_stopSecsWarned : bool;
  ta_text : string;
  ta_turnComplete : bool;
  ta_vadSpeaking : bool;
  ta_vadStopped : bool;
  ta_txFinalized : bool;
  ta_timeoutExpired : bool;
  ta_cancelTimeout : option nat
}.
Arguments TurnAnalyzerStop : clear implicits.
#[global] Instance eta_TA {A} : Eta (TurnAnalyzerStop A) := fun s =>
  mkTA A (ta_analyzer s) (ta_waitForTx s) (ta_sttTimeout s) (ta_stopWindow s) (ta_stopSecsWarned s)
    (ta_text s) (ta_turnComplete s) (ta_vadSpeaking s) (ta_vadStopped s) (ta_txFinalized s)
    (ta_timeoutExpired s) (ta_cancelTimeout s).

Record SpeechTimeoutStop := mkST {
  st_userSpeechTimeout : Z;
  st_waitForTx : bool;
  st_sttTimeout : Z;
  st_stopWindow : Z;
  st_stopSecsWarned : bool;
  st_haveText : bool;
  st_vadSpeaking : bool;
  st_vadStopped : bool;
  st_txFinalized : bool;
  st_userSpeechDone : bool;
  st_sttDone : bool;
  st_cancelUser : option nat;
  st_cancelSTT : option nat
}.
#[global] Instance eta_ST : Eta SpeechTimeoutStop := fun s =>
  mkST (st_userSpeechTimeout s) (st_waitForTx s) (st_sttTimeout s) (st_stopWindow s)
    (st_stopSecsWarned s) (st_haveText s) (st_vadSpeaking s) (st_vadStopped s) (st_txFinalized s)
    (st_userSpeechDone s) (st_sttDone s) (st_cancelUser s) (st_cancelSTT s).

Record ExternalStop := mkExt {
  ex_timeout : Z;
  ex_waitForTx : bool;
  ex_text : string;
  ex_userSpeaking : bool;
  ex_seenInterim : bool;
  ex_announcedElsewhere : bool;
  ex_turnOpen : bool;
  ex_cancelTimer : option nat
}.
#[global] Instance eta_Ext : Eta ExternalStop := fun s =>
  mkExt (ex_timeout s) (ex_waitForTx s) (ex_text s) (ex_userSpeaking s) (ex_seenInterim s)
    (ex_announcedElsewhere s) (ex_turnOpen s) (ex_cancelTimer s).

Inductive StopData {A : Type} :=
| DTurnAnalyzerStop (s : TurnAnalyzerStop A)
| DSpeechTimeoutStop (s : SpeechTimeoutStop)
| DExternalStop (s : ExternalStop)
| DExternalCompletionStop
| DLLMTurnCompletionStop.
Arguments StopData : clear implicits.

(** [StopStrategyBase]; [pb_finalizes] says whether the environment it was handed
    carries the [stopped] callback, which [Deferred] leaves out. *)
Record StopStrategy {A : Type} := mkStop {
  pb_EnableUserSpeakingFrames : bool;
  pb_attached : bool;
  pb_finalizes : bool;
  pb_data : StopData A
}.
Arguments StopStrategy : clear implicits.
#[global] Instance eta_Stop {A} : Eta (StopStrategy A) := fun s =>
  mkStop A (pb_EnableUserSpeakingFrames s) (pb_attached s) (pb_finalizes s) (pb_data s).

(** An element of the stop chain: a strategy, possibly under [Deferred]. *)
Inductive StopRef :=
| Direct (o : addr)
| deferredStop (inner : StopRef).

Fixpoint stopAddr (r : StopRef) : addr :=
  match r with Direct o => o | deferredStop r => stopAddr r end.

(** ** The controller and everything under its mutex *)

Record World {A : Type} := mkWorld {
  startObjs : gmap addr StartStrategy;
  stopObjs : gmap addr (StopStrategy A);
  nextAddr : addr;
  startChain : list addr;           (** strategies.Start *)
  stopChain : list StopRef;         (** strategies.Stop *)
  stopTimeout : Z;
  setupDone : bool;
  setupRate : Z;                    (** setup.AudioInSampleRate *)
  userSpeaking : bool;
  userTurn : bool;
  watchdog : option nat;            (** watchdogCancel *)
  timers : gmap (callback * nat) Z; (** live timers and their deadlines *)
  nextTimer : nat;
  now : Z;
  log : list event
}.
Arguments World : clear implicits.
#[global] Instance eta_World {A} : Eta (World A) := fun w =>
  mkWorld A (startObjs w) (stopObjs w) (nextAddr w) (startChain w) (stopChain w) (stopTimeout w)
    (setupDone w) (setupRate w) (userSpeaking w) (userTurn w) (watchdog w) (timers w)
    (nextTimer w) (now w) (log w).

Section Strategies.
Context {A : Type} `{TurnAnalyzer A} `{UnicodeTables}.
Implicit Types (w : World A) (o : addr).

(** ** Primitive steps *)

Definition emit (e : event) w : World A := w <| log ::= fun l => l ++ [e] |>.
Definition elapse (d : Z) w : World A := w <| now ::= fun t => t + Z.max 0 d |>.

(** [env.after]: the handle, and the timer unless the strategy is unattached. *)
Definition after (attached : bool) (cb : callback) (d : Z) w : nat * World A :=
  let n := nextTimer w in
  (n, w <| nextTimer := S n |>
        <| timers ::= fun m => if attached then <[(cb, n) := now w + d]> m else m |>).

(** A cancel func that may be nil. *)
Definition cancel (cb : callback) (h : option nat) w : World A :=
  match h with
  | Some n => w <| timers ::= delete (cb, n) |>
  | None => w
  end.

Definition setStart o (d : StartData) w : World A :=
  w <| startObjs ::= alter (fun s => s <| sb_data := d |>) o |>.
Definition setStop o (d : StopData A) w : World A :=
  w <| stopObjs ::= alter (fun s => s <| pb_data := d |>) o |>.

Definition startAttached o w : bool :=
  match startObjs w !! o with Some s => sb_attached s | None => false end.
Definition stopAttached o w : bool :=
  match stopObjs w !! o with Some s => pb_attached s | None => false end.
Definition stopFinalizes o w : bool :=
  match stopObjs w !! o with Some s => pb_attached s && pb_finalizes s | None => false end.

Definition wakeOf o w : option WakePhraseStart :=
  match startObjs w !! o with Some (mkStart _ _ _ (DWakePhraseStart s)) => Some s | _ => None end.
Definition analyzerOf o w : option (TurnAnalyzerStop A) :=
  match stopObjs w !! o with Some (mkStop _ _ _ _ (DTurnAnalyzerStop s)) => Some s | _ => None end.
Definition speechOf o w : option SpeechTimeoutStop :=
  match stopObjs w !! o with Some (mkStop _ _ _ _ (DSpeechTimeoutStop s)) => Some s | _ => None end.
Definition externalOf o w : option ExternalStop :=
  match stopObjs w !! o with Some (mkStop _ _ _ _ (DExternalStop s)) => Some s | _ => None end.

(** Updating the fields of the strategy at an address. *)
Definition updWake o (g : WakePhraseStart -> WakePhraseStart) w : World A :=
  match wakeOf o w with Some s => setStart o (DWakePhraseStart (g s)) w | None => w end.
Definition updTA o (g : TurnAnalyzerStop A -> TurnAnalyzerStop A) w : World A :=
  match analyzerOf o w with Some s => setStop o (DTurnAnalyzerStop (g s)) w | None => w end.
Definition updST o (g : SpeechTimeoutStop -> SpeechTimeoutStop) w : World A :=
  match speechOf o w with Some s => setStop o (DSpeechTimeoutStop (g s)) w | None => w end.
Definition updExt o (g : ExternalStop -> ExternalStop) w : World A :=
  match externalOf o w with Some s => setStop o (DExternalStop (g s)) w | None => w end.

(** ** Timers and resets of each strategy

    None of these signals a decision, so they come before the controller's
    callbacks, which use them. *)

(** *** WakePhraseStart *)

Definition Wake_refresh o w : World A :=
  match wakeOf o w with
  | None => w
  | Some s =>
    let w := cancel (CbWake o) (wk_cancelTimer s) w in
    let '(h, w) := after (startAttached o w) (CbWake o) (wk_timeout s) w in
    updWake o (fun s => s <| wk_cancelTimer := Some h |>) w
  end.

Definition Wake_transitionToAwake o (phrase : list rune) w : World A :=
  let w := updWake o (fun s => s <| wk_awake := true |> <| wk_accum := [] |>) w in
  let w := Wake_refresh o w in
  emit (EWakeDetected phrase) w.

Definition Wake_transitionToIdle o w : World A :=
  let w := updWake o (fun s => s <| wk_awake := false |> <| wk_accum := [] |>) w in
  emit EWakeTimeout w.

Definition Wake_onTimer o w : World A :=
  let w := updWake o (fun s => s <| wk_cancelTimer := None |>) w in
  match wakeOf o w with
  | Some s => if wk_awake s then Wake_transitionToIdle o w else w
  | None => w
  end.

Definition Wake_TurnStarted o w : World A :=
  match wakeOf o w with
  | Some s => if wk_awake s && negb (wk_single s) then Wake_refresh o w else w
  | None => w
  end.

Definition Wake_Cleanup o w : World A :=
  match wakeOf o w with
  | Some s => updWake o (fun s => s <| wk_cancelTimer := None |>)
                (cancel (CbWake o) (wk_cancelTimer s) w)
  | None => w
  end.

(** *** TurnAnalyzerStop *)

Definition TA_cancel o w : World A :=
  match analyzerOf o w with
  | Some s => updTA o (fun s => s <| ta_cancelTimeout := None |>)
                (cancel (CbAnalyzer o) (ta_cancelTimeout s) w)
  | None => w
  end.

Definition TA_discardPendingEndOfTurn o w : World A :=
  let w := updTA o (fun s => s <| ta_turnComplete := false |> <| ta_txFinalized := false |>
                               <| ta_timeoutExpired := false |> <| ta_vadStopped := false |>) w in
  TA_cancel o w.

Definition TA_resetState o w : World A :=
  TA_discardPendingEndOfTurn o (updTA o (fun s => s <| ta_text := "" |>) w).

Definition TA_TurnStopped o w : World A :=
  updTA o (fun s => s <| ta_analyzer ::= Clear |>) (TA_resetState o w).

(** *** SpeechTimeoutStop *)

Definition ST_cancelSTTTimer o w : World A :=
  match speechOf o w with
  | Some s => updST o (fun s => s <| st_cancelSTT := None |>) (cancel (CbSTT o) (st_cancelSTT s) w)
  | None => w
  end.

Definition ST_cancelTimers o w : World A :=
  match speechOf o w with
  | Some s =>
    let w := updST o (fun s => s <| st_cancelUser := None |>)
               (cancel (CbUserSpeech o) (st_cancelUser s) w) in
    ST_cancelSTTTimer o w
  | None => w
  end.

Definition ST_discardPendingEndOfTurn o w : World A :=
  let w := updST o (fun s => s <| st_txFinalized := false |> <| st_vadStopped := false |>
                               <| st_userSpeechDone := false |> <| st_sttDone := false |>) w in
  ST_cancelTimers o w.

Definition ST_reset (clearVADSpeaking : bool) o w : World A :=
  let w := updST o (fun s => s <| st_haveText := false |>) w in
  let w := if clearVADSpeaking then updST o (fun s => s <| st_vadSpeaking := false |>) w else w in
  ST_discardPendingEndOfTurn o w.

(** *** ExternalStop *)

Definition Ext_cancelT o w : World A :=
  match externalOf o w with
  | Some s => updExt o (fun s => s <| ex_cancelTimer := None |>)
                (cancel (CbTick o) (ex_cancelTimer s) w)
  | None => w
  end.

Definition Ext_armTick o w : World A :=
  let w := Ext_cancelT o w in
  match externalOf o w with
  | Some s =>
    let '(h, w) := after (stopAttached o w) (CbTick o) (ex_timeout s) w in
    updExt o (fun s => s <| ex_cancelTimer := Some h |>) w
  | None => w
  end.

Definition Ext_reset o w : World A :=
  let w := updExt o (fun s => s <| ex_text := "" |> <| ex_userSpeaking := false |>
                                <| ex_seenInterim := false |> <| ex_announcedElsewhere := false |>) w in
  Ext_armTick o w.

(** *** Dispatch *)

Definition start_TurnStarted w o : World A :=
  match startObjs w !! o with
  | Some s => match sb_data s with
              | DMinWordsStart m => setStart o (DMinWordsStart (m <| mw_botSpeaking := false |>)) w
              | DWakePhraseStart _ => Wake_TurnStarted o w
              | _ => w
              end
  | None => w
  end.

Definition start_TurnStopped w (_ : addr) : World A := w.

Definition stop_TurnStarted w (r : StopRef) : World A :=
  let o := stopAddr r in
  match stopObjs w !! o with
  | Some s => match pb_data s with
              | DTurnAnalyzerStop _ => TA_resetState o w
              | DSpeechTimeoutStop _ => ST_reset false o w
              | DExternalStop _ => updExt o (fun s => s <| ex_turnOpen := true |>) (Ext_reset o w)
              | _ => w
              end
  | None => w
  end.

Definition stop_TurnStopped w (r : StopRef) : World A :=
  let o := stopAddr r in
  match stopObjs w !! o with
  | Some s => match pb_data s with
              | DTurnAnalyzerStop _ => TA_TurnStopped o w
              | DSpeechTimeoutStop _ => ST_reset true o w
              | DExternalStop _ => updExt o (fun s => s <| ex_turnOpen := false |>) (Ext_reset o w)
              | _ => w
              end
  | None => w
  end.

Definition start_Cleanup w o : World A := Wake_Cleanup o w.

Definition stop_Cleanup w (r : StopRef) : World A :=
  let o := stopAddr r in
  match stopObjs w !! o with
  | Some s => match pb_data s with
              | DTurnAnalyzerStop _ => TA_cancel o w
              | DSpeechTimeoutStop _ => ST_cancelTimers o w
              | DExternalStop _ => Ext_cancelT o w
              | _ => w
              end
  | None => w
  end.

(** ** The controller's callbacks *)

Definition rearmWatchdog w : World A :=
  let w := cancel CbWatchdog (watchdog w) w in
  let '(h, w) := after true CbWatchdog (stopTimeout w) w in
  w <| watchdog := Some h |>.

Definition notifyTurnStarted w : World A :=
  foldl stop_TurnStarted (foldl start_TurnStarted w (startChain w)) (stopChain w).
Definition notifyTurnStopped w : World A :=
  foldl stop_TurnStopped (foldl start_TurnStopped w (startChain w)) (stopChain w).

Definition onStartTriggered o (params : UserTurnStartedParams) w : World A :=
  if userTurn w then w
  else
    let w := w <| userTurn := true |> in
    let w := rearmWatchdog w in
    let w := notifyTurnStarted w in
    emit (EStarted o params) w.

Definition onInferenceTriggered o w : World A :=
  if userTurn w then emit (EInference o) (rearmWatchdog w) else w.

Definition onStopTriggered (s : option addr) (params : UserTurnStoppedParams) w : World A :=
  if negb (userTurn w) then w
  else if userSpeaking w then w
  else
    let w := w <| userTurn := false |> in
    let w := rearmWatchdog w in
    let w := notifyTurnStopped w in
    emit (EStopped s params) w.

Definition onWatchdog w : World A :=
  if userTurn w && negb (userSpeaking w)
  then onStopTriggered None DefaultStoppedParams (emit EStopTimeout w)
  else w.

(** ** The triggers of the bases *)

Definition TriggerStartedOverriding o (interruptions speaking : option bool) w : World A :=
  match startObjs w !! o with
  | Some s =>
    if sb_attached s then
      onStartTriggered o (mkStartedParams (from_nil (sb_EnableInterruptions s) interruptions)
                            (from_nil (sb_EnableUserSpeakingFrames s) speaking)) w
    else w
  | None => w
  end.

Definition TriggerStarted o w : World A := TriggerStartedOverriding o None None w.

Definition TriggerResetAggregation o w : World A :=
  if startAttached o w then emit (EReset o) w else w.

Definition TriggerInferenceTriggered o w : World A :=
  if stopAttached o w then onInferenceTriggered o w else w.

Definition TriggerFinalizedOverriding o (speaking : option bool) w : World A :=
  match stopObjs w !! o with
  | Some s =>
    if pb_attached s && pb_finalizes s then
      onStopTriggered (Some o) (mkStoppedParams (from_nil (pb_EnableUserSpeakingFrames s) speaking)) w
    else w
  | None => w
  end.

Definition TriggerFinalized o w : World A := TriggerFinalizedOverriding o None w.

Definition TriggerStoppedOverriding o (speaking : option bool) w : World A :=
  TriggerFinalizedOverriding o speaking (TriggerInferenceTriggered o w).

Definition TriggerStopped o w : World A := TriggerStoppedOverriding o None w.

Definition stop_Push o (f : Payload) (dir : Direction) w : World A :=
  if stopAttached o w then emit (EPush f dir) w else w.
Definition stop_Broadcast o (f : Payload) w : World A :=
  if stopAttached o w then emit (EBroadcast f) w else w.

(** ** Start strategies: [Process] *)

Definition wakeAccumLimit : nat := 250.

Definition Wake_checkWakePhrase o (text : string) w : bool * World A :=
  match wakeOf o w with
  | None => (false, w)
  | Some s =>
    let accum := wk_accum s ++ [32] ++ stripPunctuation (runes text) in
    let accum := List.skipn (List.length accum - wakeAccumLimit) accum in
    let w := updWake o (fun s => s <| wk_accum := accum |>) w in
    match List.find (fun '(_, ws) => MatchString ws accum) (wk_phrases s) with
    | Some (phrase, _) => (true, Wake_transitionToAwake o phrase w)
    | None => (false, w)
    end
  end.

Definition Wake_processIdle o (f : Payload) w : ProcessFrameResult * World A :=
  match f with
  | TranscriptionFrame text _ =>
    let '(hit, w) := Wake_checkWakePhrase o text w in
    if hit then (Stop, TriggerStarted o w) else (Stop, TriggerResetAggregation o w)
  | _ => (Stop, w)
  end.

Definition Wake_processAwake o (s : WakePhraseStart) (f : Payload) w : ProcessFrameResult * World A :=
  (Continue,
   if wk_single s then w
   else match f with
        | UserSpeakingFrame | BotSpeakingFrame | TranscriptionFrame _ _
        | VADUserStartedSpeakingFrame _ _ => Wake_refresh o w
        | _ => w
        end).

Definition MinWords_check o (s : MinWordsStart) (text : string) w : ProcessFrameResult * World A :=
  let threshold := if mw_botSpeaking s then mw_minWords s else 1 in
  if threshold <=? Z.of_nat (List.length (Fields (runes text)))
  then (Stop, TriggerStarted o w)
  else (Continue, TriggerResetAggregation o w).

Definition MinWords_Process o (s : MinWordsStart) (f : Payload) w : ProcessFrameResult * World A :=
  match f with
  | BotStartedSpeakingFrame => (Continue, setStart o (DMinWordsStart (s <| mw_botSpeaking := true |>)) w)
  | BotStoppedSpeakingFrame => (Continue, setStart o (DMinWordsStart (s <| mw_botSpeaking := false |>)) w)
  | TranscriptionFrame text _ => MinWords_check o s text w
  | InterimTranscriptionFrame text =>
    if mw_useInterim s then MinWords_check o s text w else (Continue, w)
  | _ => (Continue, w)
  end.

Definition start_Process o (f : Payload) w : ProcessFrameResult * World A :=
  match startObjs w !! o with
  | None => (Continue, w)
  | Some s =>
    match sb_data s with
    | DVADStart =>
      match f with
      | VADUserStartedSpeakingFrame _ _ => (Stop, TriggerStarted o w)
      | _ => (Continue, w)
      end
    | DTranscriptionStart useInterim =>
      match f with
      | TranscriptionFrame _ _ => (Stop, TriggerStarted o w)
      | InterimTranscriptionFrame _ => if useInterim then (Stop, TriggerStarted o w) else (Continue, w)
      | _ => (Continue, w)
      end
    | DMinWordsStart m => MinWords_Process o m f w
    | DWakePhraseStart k => if negb (wk_awake k) then Wake_processIdle o f w else Wake_processAwake o k f w
    | DExternalStart =>
      match f with
      | ProposedUserStartedSpeakingFrame => (Stop, TriggerStarted o w)
      | UserStartedSpeakingFrame => (Stop, TriggerStartedOverriding o (Some false) (Some false) w)
      | _ => (Continue, w)
      end
    end
  end.

(** ** Stop strategies: [Process] and the timers *)

(** [warnStopWindow], whose only effect besides the log line is the flag. *)
Definition warnStopWindow (warned : bool) (stopWindow sttTimeout : Z) : bool :=
  if warned then true
  else
    let recommended := duration_of_secs (f64_lit 2 10) in
    negb (stopWindow =? recommended) || ((sttTimeout >? 0) && (stopWindow >=? sttTimeout)).

(** *** TurnAnalyzerStop *)

Definition TA_fire o w : World A := TriggerStopped o (TA_cancel o w).

Definition TA_maybeTrigger o w : World A :=
  match analyzerOf o w with
  | None => w
  | Some s =>
    if negb (ta_turnComplete s) then w
    else if negb (ta_waitForTx s) then TA_fire o w
    else if bool_decide (ta_text s = ""%string) then w
    else if ta_txFinalized s then TA_fire o w
    else match ta_cancelTimeout s with
         | None => TA_fire o w
         | Some _ => w
         end
  end.

Definition TA_onTimer o w : World A :=
  TA_maybeTrigger o
    (updTA o (fun s => s <| ta_timeoutExpired := true |> <| ta_cancelTimeout := None |>) w).

Definition TA_armTimeoutFor o (d : Z) w : World A :=
  let w := TA_cancel o w in
  let '(h, w) := after (stopAttached o w) (CbAnalyzer o) d w in
  updTA o (fun s => s <| ta_cancelTimeout := Some h |>) w.

(** [reportPrediction] *)
Definition TA_reportPrediction o (v : Verdict) w : World A :=
  if v_err v then w else stop_Push o MetricsFrame Downstream w.

(** The analyzer runs with the mutex held; the time it takes passes. *)
Definition TA_analyze o w : option Verdict * World A :=
  match analyzerOf o w with
  | None => (None, w)
  | Some s =>
    let '(v, a) := AnalyzeEndOfTurn (ta_analyzer s) in
    let w := updTA o (fun s => s <| ta_analyzer := a |>) (elapse (v_took v) w) in
    (Some v, TA_reportPrediction o v w)
  end.

Definition TA_sttDeadline (s : TurnAnalyzerStop A) (timestamp : go_time) w : Z :=
  from_nil (now w) timestamp - ta_stopWindow s + ta_sttTimeout s.

Definition TA_handleVADStopped o (stopSecs : f64) (timestamp : go_time) w : World A :=
  let w := updTA o (fun s => s <| ta_vadSpeaking := false |>
                               <| ta_stopWindow := duration_of_secs stopSecs |>
                               <| ta_vadStopped := true |>) w in
  let w := updTA o (fun s => s <| ta_stopSecsWarned :=
                       warnStopWindow (ta_stopSecsWarned s) (ta_stopWindow s) (ta_sttTimeout s) |>) w in
  match analyzerOf o w with
  | None => w
  | Some s =>
    let deadline := TA_sttDeadline s timestamp w in
    let '(v, w) := TA_analyze o w in
    let complete := match v with
                    | Some v => negb (v_err v) && match v_state v with Complete => true | Incomplete => false end
                    | None => false end in
    let w := updTA o (fun s => s <| ta_turnComplete := complete |>) w in
    let w := TA_armTimeoutFor o (Z.max 0 (deadline - now w)) w in
    TA_maybeTrigger o w
  end.

Definition TA_fallback o w : World A :=
  match analyzerOf o w with
  | None => w
  | Some s =>
    if negb (ta_vadSpeaking s) && negb (ta_vadStopped s) then
      let w := updTA o (fun s => s <| ta_turnComplete := true |>) w in
      TA_armTimeoutFor o (Z.max 0 (ta_sttTimeout s - ta_stopWindow s)) w
    else w
  end.

Definition TA_handleTranscription o (text : string) (finalized : bool) w : World A :=
  let w := updTA o (fun s => s <| ta_text := text |>) w in
  match analyzerOf o w with
  | None => w
  | Some s =>
    if finalized then
      let w := updTA o (fun s => s <| ta_txFinalized := true |>) w in
      TA_fallback o (TA_maybeTrigger o w)
    else if ta_timeoutExpired s && ta_turnComplete s then TA_fire o w
    else TA_fallback o w
  end.

Definition TA_handleAudio o (audio : list Z) w : World A :=
  match analyzerOf o w with
  | None => w
  | Some s =>
    let '(st, a) := AppendAudio audio (ta_vadSpeaking s) (ta_analyzer s) in
    let w := updTA o (fun s => s <| ta_analyzer := a |>) w in
    match st with
    | Complete =>
      let '(_, w) := TA_analyze o w in
      TA_maybeTrigger o (updTA o (fun s => s <| ta_turnComplete := true |>) w)
    | Incomplete => w
    end
  end.

Definition TA_Process o (f : Payload) w : World A :=
  match f with
  | StartFrame => stop_Broadcast o SpeechControlParamsFrame w
  | STTMetadataFrame latency =>
    updTA o (fun s => s <| ta_sttTimeout := latency |> <| ta_stopSecsWarned := false |>) w
  | VADUserStartedSpeakingFrame startSecs _ =>
    TA_discardPendingEndOfTurn o
      (updTA o (fun s => s <| ta_analyzer ::= UpdateVADStartSecs startSecs |> <| ta_vadSpeaking := true |>) w)
  | InputAudioRawFrame audio _ _ => TA_handleAudio o audio w
  | VADUserStoppedSpeakingFrame stopSecs ts => TA_handleVADStopped o stopSecs ts w
  | TranscriptionFrame text fin => TA_handleTranscription o text fin w
  | InterimTranscriptionFrame _ => updTA o (fun s => s <| ta_txFinalized := false |>) w
  | _ => w
  end.

(** *** SpeechTimeoutStop *)

Definition ST_maybeTrigger o w : World A :=
  match speechOf o w with
  | None => w
  | Some s =>
    if st_vadSpeaking s then w
    else if st_waitForTx s && negb (st_haveText s) then w
    else if st_userSpeechDone s && st_sttDone s then TriggerStopped o (ST_cancelTimers o w)
    else w
  end.

Definition ST_onUserSpeechTimer o w : World A :=
  ST_maybeTrigger o
    (updST o (fun s => s <| st_userSpeechDone := true |> <| st_cancelUser := None |>) w).

Definition ST_onSTTTimer o w : World A :=
  ST_maybeTrigger o
    (updST o (fun s => s <| st_sttDone := true |> <| st_cancelSTT := None |>) w).

Definition ST_restartUserSpeechTimer o w : World A :=
  match speechOf o w with
  | None => w
  | Some s =>
    let w := cancel (CbUserSpeech o) (st_cancelUser s) w in
    let w := updST o (fun s => s <| st_cancelUser := None |> <| st_userSpeechDone := false |>) w in
    let '(h, w) := after (stopAttached o w) (CbUserSpeech o) (st_userSpeechTimeout s) w in
    updST o (fun s => s <| st_cancelUser := Some h |>) w
  end.

Definition ST_sttWait (s : SpeechTimeoutStop) : Z := st_sttTimeout s - st_stopWindow s.

Definition ST_handleVADStopped o (stopSecs : f64) w : World A :=
  let w := updST o (fun s => s <| st_vadSpeaking := false |>
                               <| st_stopWindow := duration_of_secs stopSecs |>
                               <| st_vadStopped := true |>) w in
  let w := updST o (fun s => s <| st_stopSecsWarned :=
                       warnStopWindow (st_stopSecsWarned s) (st_stopWindow s) (st_sttTimeout s) |>) w in
  let w := ST_restartUserSpeechTimer o w in
  let w := updST o (fun s => s <| st_sttDone := false |>) w in
  match speechOf o w with
  | None => w
  | Some s =>
    if st_txFinalized s || (ST_sttWait s <=? 0) then updST o (fun s => s <| st_sttDone := true |>) w
    else
      let '(h, w) := after (stopAttached o w) (CbSTT o) (ST_sttWait s) w in
      updST o (fun s => s <| st_cancelSTT := Some h |>) w
  end.

Definition ST_handleTranscription o (text : string) (finalized : bool) w : World A :=
  let w := if bool_decide (text = ""%string) then w else updST o (fun s => s <| st_haveText := true |>) w in
  let w := if finalized then
             let w := updST o (fun s => s <| st_txFinalized := true |>) w in
             match speechOf o w with
             | Some s => if st_sttDone s then w
                         else ST_cancelSTTTimer o (updST o (fun s => s <| st_sttDone := true |>) w)
             | None => w
             end
           else w in
  match speechOf o w with
  | None => w
  | Some s =>
    if st_userSpeechDone s && st_sttDone s then ST_maybeTrigger o w
    else if negb (st_vadSpeaking s) && negb (st_vadStopped s) then
      ST_restartUserSpeechTimer o (updST o (fun s => s <| st_sttDone := true |>) w)
    else w
  end.

Definition ST_Process o (f : Payload) w : World A :=
  match f with
  | STTMetadataFrame latency =>
    updST o (fun s => s <| st_sttTimeout := latency |> <| st_stopSecsWarned := false |>) w
  | VADUserStartedSpeakingFrame _ _ =>
    ST_discardPendingEndOfTurn o (updST o (fun s => s <| st_vadSpeaking := true |>) w)
  | VADUserStoppedSpeakingFrame stopSecs _ => ST_handleVADStopped o stopSecs w
  | TranscriptionFrame text fin => ST_handleTranscription o text fin w
  | InterimTranscriptionFrame _ => updST o (fun s => s <| st_txFinalized := false |>) w
  | _ => w
  end.

(** *** ExternalStop *)

Definition Ext_finalize o w : World A :=
  match externalOf o w with
  | None => w
  | Some s => if ex_announcedElsewhere s then TriggerStoppedOverriding o (Some false) w
              else TriggerStopped o w
  end.

Definition Ext_maybeTrigger o w : World A :=
  match externalOf o w with
  | None => w
  | Some s =>
    if ex_userSpeaking s then w
    else if negb (ex_waitForTx s) then Ext_finalize o w
    else if negb (ex_seenInterim s) && negb (bool_decide (ex_text s = ""%string)) then Ext_finalize o w
    else w
  end.

Definition Ext_onTimer o w : World A :=
  let w := updExt o (fun s => s <| ex_cancelTimer := None |>) w in
  match externalOf o w with
  | None => w
  | Some s => Ext_armTick o (if ex_turnOpen s then Ext_maybeTrigger o w else w)
  end.

Definition Ext_handleStartedSpeaking o (elsewhere : bool) w : World A :=
  updExt o (fun s => s <| ex_userSpeaking := true |> <| ex_announcedElsewhere := elsewhere |>) w.

Definition Ext_handleStoppedSpeaking o (elsewhere : bool) w : World A :=
  Ext_maybeTrigger o
    (updExt o (fun s => s <| ex_userSpeaking := false |> <| ex_announcedElsewhere := elsewhere |>) w).

Definition Ext_Process o (f : Payload) w : World A :=
  match f with
  | ProposedUserStartedSpeakingFrame => Ext_handleStartedSpeaking o false w
  | ProposedUserStoppedSpeakingFrame => Ext_handleStoppedSpeaking o false w
  | UserStartedSpeakingFrame => Ext_handleStartedSpeaking o true w
  | UserStoppedSpeakingFrame => Ext_handleStoppedSpeaking o true w
  | InterimTranscriptionFrame _ => updExt o (fun s => s <| ex_seenInterim := true |>) w
  | TranscriptionFrame text _ =>
    Ext_armTick o (updExt o (fun s => s <| ex_text := (ex_text s +:+ text)%string |>
                                        <| ex_seenInterim := false |>) w)
  | _ => w
  end.

(** *** The completion strategies, and dispatch *)

Definition Completion_Process o (f : Payload) w : World A :=
  match f with UserTurnInferenceCompletedFrame => TriggerFinalized o w | _ => w end.

Definition LLM_configureLLM o w : World A := stop_Push o (LLMUpdateSettingsFrame true) Downstream w.

(** Every stop strategy of the package returns [Continue]. *)
Definition stop_Process (r : StopRef) (f : Payload) w : ProcessFrameResult * World A :=
  let o := stopAddr r in
  (Continue,
   match stopObjs w !! o with
   | None => w
   | Some s =>
     match pb_data s with
     | DTurnAnalyzerStop _ => TA_Process o f w
     | DSpeechTimeoutStop _ => ST_Process o f w
     | DExternalStop _ => Ext_Process o f w
     | DExternalCompletionStop => Completion_Process o f w
     | DLLMTurnCompletionStop =>
       let w := match f with StartFrame => LLM_configureLLM o w | _ => w end in
       Completion_Process o f w
     end
   end).

(** ** The controller's operations *)

(** One chain, up to the first strategy that returns [Stop]. *)
Fixpoint runStart (chain : list addr) (f : Payload) w : World A :=
  match chain with
  | [] => w
  | o :: chain => match start_Process o f w with
                  | (Stop, w) => w
                  | (Continue, w) => runStart chain f w
                  end
  end.

Fixpoint runStop (chain : list StopRef) (f : Payload) w : World A :=
  match chain with
  | [] => w
  | r :: chain => match stop_Process r f w with
                  | (Stop, w) => w
                  | (Continue, w) => runStop chain f w
                  end
  end.

(** The speaking flag and the watchdog, the first thing [Process] does. *)
Definition observe (f : Payload) w : World A :=
  match f with
  | UserStartedSpeakingFrame | ProposedUserStartedSpeakingFrame | VADUserStartedSpeakingFrame _ _ =>
    rearmWatchdog (w <| userSpeaking := true |>)
  | UserStoppedSpeakingFrame | ProposedUserStoppedSpeakingFrame | VADUserStoppedSpeakingFrame _ _ =>
    rearmWatchdog (w <| userSpeaking := false |>)
  | TranscriptionFrame _ _ | InterimTranscriptionFrame _ => rearmWatchdog w
  | _ => w
  end.

Definition Process (f : Payload) w : World A :=
  let w := observe f (emit (EFrame f) w) in
  let w := runStart (startChain w) f w in
  runStop (stopChain w) f w.

(** A timer's callback, once it holds the mutex and was not canceled. *)
Definition runCallback (cb : callback) w : World A :=
  match cb with
  | CbWatchdog => onWatchdog w
  | CbWake o => Wake_onTimer o w
  | CbAnalyzer o => TA_onTimer o w
  | CbUserSpeech o => ST_onUserSpeechTimer o w
  | CbSTT o => ST_onSTTTimer o w
  | CbTick o => Ext_onTimer o w
  end.

Definition fire (cb : callback) (n : nat) w : World A :=
  runCallback cb (w <| timers ::= delete (cb, n) |>).

Definition ctl_Stop w : World A := (cancel CbWatchdog (watchdog w) w) <| watchdog := None |>.

Definition cleanupStrategies w : World A :=
  foldl stop_Cleanup (foldl start_Cleanup w (startChain w)) (stopChain w).

Definition ctl_Cleanup w : World A := cleanupStrategies (ctl_Stop w).

(** [attach]: a strategy under [Deferred] is handed an environment without the
    [stopped] callback. *)
Definition finalizing (r : StopRef) : bool :=
  match r with Direct _ => true | deferredStop _ => false end.

Definition attachStart o w : World A :=
  w <| startObjs ::= alter (fun s => s <| sb_attached := true |>) o |>.
Definition attachStop o (finalizes : bool) w : World A :=
  w <| stopObjs ::= alter (fun s => s <| pb_attached := true |> <| pb_finalizes := finalizes |>) o |>.

Definition attachSetupStart w o : World A := attachStart o w.

Definition attachSetupStop w (r : StopRef) : World A :=
  let o := stopAddr r in
  let w := attachStop o (finalizing r) w in
  match stopObjs w !! o with
  | Some s => match pb_data s with
              | DTurnAnalyzerStop _ => updTA o (fun s => s <| ta_analyzer ::= SetSampleRate (setupRate w) |>) w
              | DExternalStop _ => Ext_armTick o w
              | _ => w
              end
  | None => w
  end.

(** [setupStrategies]; the flag is [errNotSetUp]. *)
Definition setupStrategies w : bool * World A :=
  if negb (setupDone w) then (true, w)
  else (false, foldl attachSetupStop (foldl attachSetupStart w (startChain w)) (stopChain w)).

Definition recordSetup (rate : Z) w : World A := w <| setupRate := rate |> <| setupDone := true |>.

Definition ctl_Setup (rate : Z) w : bool * World A := setupStrategies (recordSetup rate w).

Definition setChains (start : list addr) (stop : list StopRef) w : World A :=
  w <| startChain := start |> <| stopChain := stop |>.

(** ** Constructors *)

Definition allocStart (s : StartStrategy) w : addr * World A :=
  let o := nextAddr w in
  (o, w <| nextAddr := S o |> <| startObjs ::= insert o s |>).
Definition allocStop (s : StopStrategy A) w : addr * World A :=
  let o := nextAddr w in
  (o, w <| nextAddr := S o |> <| stopObjs ::= insert o s |>).

Definition NewVADStart : StartStrategy := mkStart true true false DVADStart.
Definition NewTranscriptionStart (useInterim : option bool) : StartStrategy :=
  mkStart true true false (DTranscriptionStart (from_nil true useInterim)).
Definition NewMinWordsStart (minWords : Z) (useInterim : option bool) : StartStrategy :=
  mkStart true true false (DMinWordsStart (mkMinWords minWords (from_nil true useInterim) false)).
Definition NewExternalStart (interruptions : option bool) : StartStrategy :=
  mkStart (from_nil true interruptions) true false DExternalStart.

(** [compileWakePatterns]: a phrase with no word is left out. *)
Definition compileWakePatterns (phrases : list string) : list (list rune * list (list rune)) :=
  List.filter (fun '(_, ws) => match ws with [] => false | _ => true end)
    (List.map (fun p => (runes p, Fields (runes p))) phrases).

Definition wakePhraseDefaultTimeout : Z := 10000000000.
Definition NewWakePhraseStart (phrases : list string) (timeout : Z) (single : bool) : StartStrategy :=
  mkStart true true false (DWakePhraseStart
    (mkWake (compileWakePatterns phrases) (if timeout =? 0 then wakePhraseDefaultTimeout else timeout)
       single false [] None)).

Definition NewTurnAnalyzerStop (analyzer : A) (waitForTx : option bool) : StopStrategy A :=
  mkStop A true false false (DTurnAnalyzerStop
    (mkTA A analyzer (from_nil true waitForTx) 0 0 false "" false false false false false None)).

Definition defaultUserSpeechTimeout : Z := 600000000.
Definition NewSpeechTimeoutStop (timeout : Z) (waitForTx : option bool) : StopStrategy A :=
  mkStop A true false false (DSpeechTimeoutStop
    (mkST (if timeout =? 0 then defaultUserSpeechTimeout else timeout) (from_nil true waitForTx)
       0 0 false false false false false false false None None)).

Definition NewExternalStop (timeout : Z) (waitForTx : option bool) : StopStrategy A :=
  mkStop A true false false (DExternalStop
    (mkExt (if timeout =? 0 then 500000000 else timeout) (from_nil true waitForTx)
       "" false false false false None)).

Definition NewExternalCompletionStop : StopStrategy A := mkStop A true false false DExternalCompletionStop.
Definition NewLLMTurnCompletionStop : StopStrategy A := mkStop A true false false DLLMTurnCompletionStop.

(** [fillDefaults] *)
Definition fillDefaults (start : list addr) (stop : list StopRef) w : list addr * list StopRef * World A :=
  let '(start, w) := match start with
                     | [] => let '(a, w) := allocStart NewVADStart w in
                             let '(b, w) := allocStart (NewTranscriptionStart None) w in ([a; b], w)
                     | _ => (start, w) end in
  let '(stop, w) := match stop with
                    | [] => let '(c, w) := allocStop (NewSpeechTimeoutStop 0 None) w in ([Direct c], w)
                    | _ => (stop, w) end in
  (start, stop, w).

(** [UpdateStrategies]: the old chains are cleaned up, the new set up. *)
Definition UpdateStrategies (start : list addr) (stop : list StopRef) w : bool * World A :=
  let w := cleanupStrategies w in
  let '(start, stop, w) := fillDefaults start stop w in
  setupStrategies (setChains start stop w).

Definition defaultStopTimeout : Z := 5000000000.

(** A store with no strategies in it yet, and [NewUserTurnController] over a
    store in which the given strategies were built. *)
Definition emptyWorld (t : Z) : World A :=
  mkWorld A ∅ ∅ 0 [] [] 0 false 0 false false None ∅ 0 t [].

Definition NewUserTurnController (start : list addr) (stop : list StopRef) (timeout : Z) w : World A :=
  let '(start, stop, w) := fillDefaults start stop w in
  (setChains start stop w) <| stopTimeout := if timeout =? 0 then defaultStopTimeout else timeout |>.

(** [ExternalStrategies] *)
Definition ExternalStrategies (interruptions : option bool) w : list addr * list StopRef * World A :=
  let '(a, w) := allocStart (NewExternalStart (Some (from_nil true interruptions))) w in
  let '(b, w) := allocStop (NewExternalStop 0 None) w in
  ([a], [Direct b], w).

(** [FilterIncompleteUserTurnStrategies] *)
Definition FilterIncompleteUserTurnStrategies (detectors : list StopRef) w
  : list addr * list StopRef * World A :=
  let '(detectors, w) := match detectors with
                         | [] => let '(c, w) := allocStop (NewSpeechTimeoutStop 0 None) w in ([Direct c], w)
                         | _ => (detectors, w) end in
  let '(g, w) := allocStop NewLLMTurnCompletionStop w in
  ([], List.map deferredStop detectors ++ [Direct g], w).

(** What the chains do with proposals. *)
Definition ResolvesProposedTurnStartFrames w : bool :=
  List.existsb (fun o => match startObjs w !! o with
                         | Some (mkStart _ _ _ DExternalStart) => true | _ => false end) (startChain w).
Definition ResolvesProposedTurnStopFrames w : bool :=
  List.existsb (fun r => match externalOf (stopAddr r) w with Some _ => true | None => false end) (stopChain w).

End Strategies.
End Turns.
