(* ===== verification/UserTurn.v ===== *)
(** * The user-turn controller: its steps and what holds in every run

    [src/processor/turns/controller.go] run over the strategies of
    [TurnStrategies.v]: frames, timers that come due, and the passing of time, in
    any order.  [Preservation] proves once that every operation of every strategy
    is built from a handful of primitive steps; each invariant below is then a
    matter of those primitives. *)

From S2P Require Import Prelude Float64 Frames Text TurnStrategies.

Module UserTurn.
Import Turns.
Local Open Scope Z_scope.

(** ** Steps *)

Section Steps.
Context {A : Type} `{TurnAnalyzer A} `{UnicodeTables}.

(** The running session. *)
Inductive tstep : World A -> World A -> Prop :=
| ts_frame f w : tstep w (Process f w)
| ts_fire cb n dl w : timers w !! (cb, n) = Some dl -> dl <= now w -> tstep w (fire cb n w)
| ts_tick t w : now w <= t -> tstep w (w <| now := t |>).

(** ... with its owner setting it up and replacing the strategies. *)
Inductive lstep : World A -> World A -> Prop :=
| ls_run w w' : tstep w w' -> lstep w w'
| ls_update start stop w : lstep w (UpdateStrategies start stop w).2
| ls_setup rate w : lstep w (ctl_Setup rate w).2.

(** ... and with the end of the session. *)
Inductive sstep : World A -> World A -> Prop :=
| ss_live w w' : lstep w w' -> sstep w w'
| ss_stop w : sstep w (ctl_Stop w)
| ss_cleanup w : sstep w (ctl_Cleanup w).

End Steps.

(** ** Preservation *)

(** Events that carry no decision. *)
Definition quiet_event (e : event) : bool :=
  match e with
  | EReset _ | EPush _ _ | EBroadcast _ | EWakeDetected _ | EWakeTimeout => true
  | _ => false
  end.

Create HintDb turns.

(** What a strategy does on its own. *)
Class LocalInv {A : Type} (P : World A -> Prop) := {
  li_setStart o d w : P w -> P (setStart o d w);
  li_setStop o d w : P w -> P (setStop o d w);
  li_after b cb d w h w' : cb <> CbWatchdog -> after b cb d w = (h, w') -> P w -> P w';
  li_cancel cb h w : cb <> CbWatchdog -> P w -> P (cancel cb h w);
  li_emit e w : quiet_event e = true -> P w -> P (emit e w);
  li_elapse d w : P w -> P (elapse d w)
}.

(** ... and what the decisions of start and of stop strategies do. *)
Class StartInv {A : Type} `{TurnAnalyzer A} (P : World A -> Prop) := {
  si_local :: LocalInv P;
  si_start o p w : P w -> P (onStartTriggered o p w)
}.
Class StopInv {A : Type} `{TurnAnalyzer A} (P : World A -> Prop) := {
  pi_local :: LocalInv P;
  pi_inference o w : stopAttached o w = true -> P w -> P (onInferenceTriggered o w);
  pi_stop o p w : stopFinalizes o w = true -> P w -> P (onStopTriggered (Some o) p w)
}.

(** One primitive step peeled off a goal [P (step w)]. *)
Ltac prim_step :=
  lazymatch goal with
  | |- ?P (setStart _ _ _) => apply (li_setStart (P:=P))
  | |- ?P (setStop _ _ _) => apply (li_setStop (P:=P))
  | |- ?P (cancel _ _ _) => apply (li_cancel (P:=P)); [discriminate|]
  | |- ?P (emit _ _) => apply (li_emit (P:=P)); [reflexivity|]
  | |- ?P (elapse _ _) => apply (li_elapse (P:=P))
  | E : after _ _ _ _ = (_, ?w) |- ?P ?w => refine (li_after (P:=P) _ _ _ _ _ _ _ E _); [discriminate|]
  end.

Ltac pres :=
  repeat case_match;
  repeat match goal with E : (_, _) = (_, _) |- _ => injection E as; subst end;
  eauto 12 with turns.

Section Local.
Context {A : Type} `{TurnAnalyzer A} `{UnicodeTables} (P : World A -> Prop) `{!LocalInv P}.
Implicit Types (w : World A).
#[local] Hint Extern 1 (P _) => prim_step : turns.

Lemma li_updWake o g w : P w -> P (updWake o g w).
Proof. intros. unfold updWake. pres. Qed.
Lemma li_updTA o g w : P w -> P (updTA o g w).
Proof. intros. unfold updTA. pres. Qed.
Lemma li_updST o g w : P w -> P (updST o g w).
Proof. intros. unfold updST. pres. Qed.
Lemma li_updExt o g w : P w -> P (updExt o g w).
Proof. intros. unfold updExt. pres. Qed.
#[local] Hint Resolve li_updWake li_updTA li_updST li_updExt : turns.

Lemma li_Wake_refresh o w : P w -> P (Wake_refresh o w).
Proof. intros. unfold Wake_refresh. pres. Qed.
#[local] Hint Resolve li_Wake_refresh : turns.

Lemma li_Wake_awake o ph w : P w -> P (Wake_transitionToAwake o ph w).
Proof. intros. unfold Wake_transitionToAwake. pres. Qed.
Lemma li_Wake_onTimer o w : P w -> P (Wake_onTimer o w).
Proof. intros. unfold Wake_onTimer, Wake_transitionToIdle. pres. Qed.
Lemma li_TA_cancel o w : P w -> P (TA_cancel o w).
Proof. intros. unfold TA_cancel. pres. Qed.
#[local] Hint Resolve li_Wake_awake li_Wake_onTimer li_TA_cancel : turns.

Lemma li_TA_discard o w : P w -> P (TA_discardPendingEndOfTurn o w).
Proof. intros. unfold TA_discardPendingEndOfTurn. pres. Qed.
Lemma li_ST_cancelSTT o w : P w -> P (ST_cancelSTTTimer o w).
Proof. intros. unfold ST_cancelSTTTimer. pres. Qed.
#[local] Hint Resolve li_TA_discard li_ST_cancelSTT : turns.
Lemma li_ST_cancelTimers o w : P w -> P (ST_cancelTimers o w).
Proof. intros. unfold ST_cancelTimers. pres. Qed.
#[local] Hint Resolve li_ST_cancelTimers : turns.
Lemma li_ST_discard o w : P w -> P (ST_discardPendingEndOfTurn o w).
Proof. intros. unfold ST_discardPendingEndOfTurn. pres. Qed.
#[local] Hint Resolve li_ST_discard : turns.
Lemma li_ST_reset b o w : P w -> P (ST_reset b o w).
Proof. intros. unfold ST_reset. pres. Qed.
Lemma li_Ext_cancelT o w : P w -> P (Ext_cancelT o w).
Proof. intros. unfold Ext_cancelT. pres. Qed.
#[local] Hint Resolve li_ST_reset li_Ext_cancelT : turns.
Lemma li_Ext_armTick o w : P w -> P (Ext_armTick o w).
Proof. intros. unfold Ext_armTick. pres. Qed.
#[local] Hint Resolve li_Ext_armTick : turns.

Lemma li_start_TurnStarted w o : P w -> P (start_TurnStarted w o).
Proof. intros. unfold start_TurnStarted, Wake_TurnStarted. pres. Qed.
Lemma li_stop_TurnStarted w r : P w -> P (stop_TurnStarted w r).
Proof. intros. unfold stop_TurnStarted, Ext_reset, TA_resetState. pres. Qed.
Lemma li_stop_TurnStopped w r : P w -> P (stop_TurnStopped w r).
Proof. intros. unfold stop_TurnStopped, Ext_reset, TA_TurnStopped, TA_resetState. pres. Qed.
Lemma li_start_Cleanup w o : P w -> P (start_Cleanup w o).
Proof. intros. unfold start_Cleanup, Wake_Cleanup. pres. Qed.
Lemma li_stop_Cleanup w r : P w -> P (stop_Cleanup w r).
Proof. intros. unfold stop_Cleanup. pres. Qed.

Lemma li_foldl {B} (f : World A -> B -> World A) l w :
  (forall w x, P w -> P (f w x)) -> P w -> P (foldl f w l).
Proof. intros Hf. revert w. induction l; simpl; auto. Qed.

Lemma li_notifyTurnStarted w : P w -> P (notifyTurnStarted w).
Proof.
  intros. unfold notifyTurnStarted. apply li_foldl; [apply li_stop_TurnStarted|].
  by apply li_foldl; [apply li_start_TurnStarted|].
Qed.
Lemma li_notifyTurnStopped w : P w -> P (notifyTurnStopped w).
Proof.
  intros. unfold notifyTurnStopped. apply li_foldl; [apply li_stop_TurnStopped|]. by apply li_foldl.
Qed.
Lemma li_cleanupStrategies w : P w -> P (cleanupStrategies w).
Proof.
  intros. unfold cleanupStrategies. apply li_foldl; [apply li_stop_Cleanup|].
  by apply li_foldl; [apply li_start_Cleanup|].
Qed.

Lemma li_stop_Push o f d w : P w -> P (stop_Push o f d w).
Proof. intros. unfold stop_Push. pres. Qed.
Lemma li_stop_Broadcast o f w : P w -> P (stop_Broadcast o f w).
Proof. intros. unfold stop_Broadcast. pres. Qed.
Lemma li_ST_restart o w : P w -> P (ST_restartUserSpeechTimer o w).
Proof. intros. unfold ST_restartUserSpeechTimer. pres. Qed.
Lemma li_TA_arm o d w : P w -> P (TA_armTimeoutFor o d w).
Proof. intros. unfold TA_armTimeoutFor. pres. Qed.
Lemma li_TA_analyze o w v w' : TA_analyze o w = (v, w') -> P w -> P w'.
Proof.
  unfold TA_analyze, TA_reportPrediction. intros E ?. destruct (analyzerOf o w); [|by simplify_eq].
  destruct (AnalyzeEndOfTurn _) as [v0 a]. simplify_eq. destruct (v_err v0); [|apply li_stop_Push]; eauto with turns.
Qed.
End Local.

(** ... and one operation of a strategy. *)
Ltac op_step :=
  lazymatch goal with
  | |- ?P (updWake _ _ _) => apply (li_updWake P)
  | |- ?P (updTA _ _ _) => apply (li_updTA P)
  | |- ?P (updST _ _ _) => apply (li_updST P)
  | |- ?P (updExt _ _ _) => apply (li_updExt P)
  | |- ?P (Wake_refresh _ _) => apply (li_Wake_refresh P)
  | |- ?P (Wake_transitionToAwake _ _ _) => apply (li_Wake_awake P)
  | |- ?P (Wake_onTimer _ _) => apply (li_Wake_onTimer P)
  | |- ?P (TA_cancel _ _) => apply (li_TA_cancel P)
  | |- ?P (TA_discardPendingEndOfTurn _ _) => apply (li_TA_discard P)
  | |- ?P (TA_armTimeoutFor _ _ _) => apply (li_TA_arm P)
  | |- ?P (ST_cancelSTTTimer _ _) => apply (li_ST_cancelSTT P)
  | |- ?P (ST_cancelTimers _ _) => apply (li_ST_cancelTimers P)
  | |- ?P (ST_discardPendingEndOfTurn _ _) => apply (li_ST_discard P)
  | |- ?P (ST_restartUserSpeechTimer _ _) => apply (li_ST_restart P)
  | |- ?P (Ext_armTick _ _) => apply (li_Ext_armTick P)
  | |- ?P (stop_Push _ _ _ _) => apply (li_stop_Push P)
  | |- ?P (stop_Broadcast _ _ _) => apply (li_stop_Broadcast P)
  | |- ?P (onStartTriggered _ _ _) => apply (si_start (P:=P))
  | |- ?P (onInferenceTriggered _ _) => apply (pi_inference (P:=P)); [assumption|]
  | E : TA_analyze _ _ = (_, ?w) |- ?P ?w => apply (li_TA_analyze P _ _ _ _ E)
  end.

Section Starts.
Context {A : Type} `{TurnAnalyzer A} `{UnicodeTables} (P : World A -> Prop) `{!StartInv P}.
Implicit Types (w : World A).
#[local] Hint Extern 1 (P _) => prim_step : turns.
#[local] Hint Extern 1 (P _) => op_step : turns.

Lemma ti_TriggerStartedOverriding o i s w : P w -> P (TriggerStartedOverriding o i s w).
Proof. intros. unfold TriggerStartedOverriding. pres. Qed.
Lemma ti_TriggerReset o w : P w -> P (TriggerResetAggregation o w).
Proof. intros. unfold TriggerResetAggregation. pres. Qed.
Lemma ti_TriggerStarted o w : P w -> P (TriggerStarted o w).
Proof. apply ti_TriggerStartedOverriding. Qed.
#[local] Hint Resolve ti_TriggerStartedOverriding ti_TriggerReset ti_TriggerStarted : turns.

Lemma ti_Wake_check o t w b w' : Wake_checkWakePhrase o t w = (b, w') -> P w -> P w'.
Proof. unfold Wake_checkWakePhrase. intros. pres. Qed.
#[local] Hint Extern 4 (P _) => (eapply ti_Wake_check; [eassumption|]) : turns.

Lemma ti_start_Process o f w r w' : start_Process o f w = (r, w') -> P w -> P w'.
Proof.
  unfold start_Process, MinWords_Process, MinWords_check, Wake_processIdle, Wake_processAwake.
  intros. pres.
Qed.

Lemma ti_runStart chain f w : P w -> P (runStart chain f w).
Proof.
  revert w. induction chain as [|o chain IH]; intros w Hw; simpl; [done|].
  destruct (start_Process o f w) as [[] w'] eqn:E; [apply IH|]; by eapply ti_start_Process.
Qed.

End Starts.

Section Stops.
Context {A : Type} `{TurnAnalyzer A} `{UnicodeTables} (P : World A -> Prop) `{!StopInv P}.
Implicit Types (w : World A).
#[local] Hint Extern 1 (P _) => prim_step : turns.
#[local] Hint Extern 1 (P _) => op_step : turns.

Lemma ti_TriggerInference o w : P w -> P (TriggerInferenceTriggered o w).
Proof. intros. unfold TriggerInferenceTriggered. pres. Qed.
Lemma ti_TriggerFinalized o s w : P w -> P (TriggerFinalizedOverriding o s w).
Proof.
  intros. unfold TriggerFinalizedOverriding. destruct (stopObjs w !! o) as [x|] eqn:E; [|done].
  destruct (pb_attached x && pb_finalizes x) eqn:E2; [|done]. apply pi_stop; [|done].
  unfold stopFinalizes. by rewrite E.
Qed.
#[local] Hint Resolve ti_TriggerInference ti_TriggerFinalized : turns.
Lemma ti_TriggerStoppedOverriding o s w : P w -> P (TriggerStoppedOverriding o s w).
Proof. intros. unfold TriggerStoppedOverriding. pres. Qed.
Lemma ti_TriggerStopped o w : P w -> P (TriggerStopped o w).
Proof. apply ti_TriggerStoppedOverriding. Qed.
#[local] Hint Resolve ti_TriggerStoppedOverriding ti_TriggerStopped : turns.

Lemma ti_TA_fire o w : P w -> P (TA_fire o w).
Proof. intros. unfold TA_fire. pres. Qed.
#[local] Hint Resolve ti_TA_fire : turns.
Lemma ti_TA_maybeTrigger o w : P w -> P (TA_maybeTrigger o w).
Proof. intros. unfold TA_maybeTrigger. pres. Qed.
Lemma ti_TA_fallback o w : P w -> P (TA_fallback o w).
Proof. intros. unfold TA_fallback. pres. Qed.
#[local] Hint Resolve ti_TA_maybeTrigger ti_TA_fallback : turns.
Lemma ti_TA_Process o f w : P w -> P (TA_Process o f w).
Proof.
  intros. unfold TA_Process, TA_handleVADStopped, TA_handleTranscription, TA_handleAudio. pres.
Qed.

Lemma ti_ST_maybeTrigger o w : P w -> P (ST_maybeTrigger o w).
Proof. intros. unfold ST_maybeTrigger. pres. Qed.
#[local] Hint Resolve ti_ST_maybeTrigger : turns.
Lemma ti_ST_Process o f w : P w -> P (ST_Process o f w).
Proof. intros. unfold ST_Process, ST_handleVADStopped, ST_handleTranscription. pres. Qed.

Lemma ti_Ext_maybeTrigger o w : P w -> P (Ext_maybeTrigger o w).
Proof. intros. unfold Ext_maybeTrigger, Ext_finalize. pres. Qed.
#[local] Hint Resolve ti_Ext_maybeTrigger : turns.
Lemma ti_Ext_Process o f w : P w -> P (Ext_Process o f w).
Proof. intros. unfold Ext_Process, Ext_handleStartedSpeaking, Ext_handleStoppedSpeaking. pres. Qed.
#[local] Hint Resolve ti_TA_Process ti_ST_Process ti_Ext_Process : turns.

Lemma ti_runStop chain f w : P w -> P (runStop chain f w).
Proof.
  revert w. induction chain as [|r chain IH]; intros w Hw; simpl; [done|]. apply IH.
  unfold Completion_Process, TriggerFinalized, LLM_configureLLM. pres.
Qed.

(** Every callback but the watchdog's. *)
Lemma ti_runCallback cb w : cb <> CbWatchdog -> P w -> P (runCallback cb w).
Proof.
  intros Hcb Hw. destruct cb; simpl; [done|..];
    unfold TA_onTimer, ST_onUserSpeechTimer, ST_onSTTTimer, Ext_onTimer; pres.
Qed.

End Stops.

(** A step of the session preserves what its entry points preserve. *)
Lemma tstep_inv {A : Type} `{TurnAnalyzer A} `{UnicodeTables} (P : World A -> Prop)
  `{!StartInv P} `{!StopInv P} w w' :
  (forall f w, P w -> P (observe f (emit (EFrame f) w))) ->
  (forall cb n w, P w -> cb <> CbWatchdog -> P (w <| timers ::= delete (cb, n) |>)) ->
  (forall n w, P w -> P (fire CbWatchdog n w)) ->
  (forall t w, now w <= t -> P w -> P (w <| now := t |>)) ->
  tstep w w' -> P w -> P w'.
Proof.
  intros Hf Hd Hw Ht Hs Hp. destruct Hs as [f w|cb n dl w Hl Hdue|t w Hle]; [| |by apply Ht].
  - unfold Process. by apply (ti_runStop P), (ti_runStart P), Hf.
  - destruct (decide (cb = CbWatchdog)) as [->|Hne]; [by apply Hw|].
    apply (ti_runCallback P); [done|]. by apply Hd.
Qed.

(** Building, attaching and replacing strategies. *)
Class SetupInv {A : Type} `{TurnAnalyzer A} (P : World A -> Prop) := {
  ui_local :: LocalInv P;
  ui_attachStart o w : P w -> P (attachStart o w);
  ui_attachStop o b w : P w -> P (attachStop o b w);
  ui_allocStart s w : P w -> P (allocStart s w).2;
  ui_allocStop s w : P w -> P (allocStop s w).2;
  ui_setChains a b w : P w -> P (setChains a b w);
  ui_recordSetup r w : P w -> P (recordSetup r w)
}.

Section Setups.
Context {A : Type} `{TurnAnalyzer A} (P : World A -> Prop) `{!SetupInv P}.
Implicit Types (w : World A).

Lemma ui_setupStrategies w : P w -> P (setupStrategies w).2.
Proof.
  intros Hw. unfold setupStrategies. destruct (negb (setupDone w)); [done|]. simpl.
  apply (li_foldl P); [|apply (li_foldl P); [|done]].
  - intros w' r Hw'. unfold attachSetupStop. assert (P (attachStop (stopAddr r) (finalizing r) w'))
      by by apply ui_attachStop.
    repeat case_match; try done; [by apply (li_updTA P)|by apply (li_Ext_armTick P)].
  - intros. by apply ui_attachStart.
Qed.

Lemma ui_ctl_Setup r w : P w -> P (ctl_Setup r w).2.
Proof. intros. by apply ui_setupStrategies, ui_recordSetup. Qed.

Lemma ui_fillDefaults start stop w start' stop' w' :
  fillDefaults start stop w = (start', stop', w') -> P w -> P w'.
Proof.
  intros E Hw. unfold fillDefaults in E.
  assert (forall s w, P w -> P (allocStart s w).2) as HA by apply ui_allocStart.
  assert (forall s w, P w -> P (allocStop s w).2) as HB by apply ui_allocStop.
  pose proof (HA NewVADStart w Hw) as H1.
  pose proof (HA (NewTranscriptionStart None) _ H1) as H2.
  pose proof (HB (NewSpeechTimeoutStop 0 None) _ H2) as H3.
  pose proof (HB (NewSpeechTimeoutStop 0 None) _ Hw) as H4.
  destruct start, stop; injection E as <- <- <-; assumption.
Qed.

Lemma ui_UpdateStrategies start stop w : P w -> P (UpdateStrategies start stop w).2.
Proof.
  intros Hw. unfold UpdateStrategies.
  destruct (fillDefaults start stop (cleanupStrategies w)) as [[start' stop'] w'] eqn:E.
  apply ui_setupStrategies, ui_setChains. eapply ui_fillDefaults; [exact E|].
  by apply (li_cleanupStrategies P).
Qed.
End Setups.

(** ** The protocol of a user turn

    The specification: a three-flag automaton over what the controller is given
    and what it reports.  Turns open and close in alternation; nothing closes a
    turn while the user is speaking; inference is triggered inside a turn only; a
    turn closed by no strategy is one whose timeout was just reported. *)

Record turn_state := mkTurn { open : bool; speaking : bool; timedOut : bool }.

Definition speaking_after (f : Payload) (s : bool) : bool :=
  match f with
  | UserStartedSpeakingFrame | ProposedUserStartedSpeakingFrame | VADUserStartedSpeakingFrame _ _ => true
  | UserStoppedSpeakingFrame | ProposedUserStoppedSpeakingFrame | VADUserStoppedSpeakingFrame _ _ => false
  | _ => s
  end.

Definition proto_step (e : event) (st : turn_state) : option turn_state :=
  match e, st with
  | EFrame f, mkTurn o s false => Some (mkTurn o (speaking_after f s) false)
  | EStarted _ _, mkTurn false s false => Some (mkTurn true s false)
  | EInference _, mkTurn true s false => Some st
  | EStopTimeout, mkTurn true false false => Some (mkTurn true false true)
  | EStopped (Some _) _, mkTurn true false false => Some (mkTurn false false false)
  | EStopped None _, mkTurn true false true => Some (mkTurn false false false)
  | _, _ => if quiet_event e then Some st else None
  end.

Fixpoint proto (st : turn_state) (l : list event) : option turn_state :=
  match l with
  | [] => Some st
  | e :: l => match proto_step e st with Some st => proto st l | None => None end
  end.

Lemma proto_app st l k :
  proto st (l ++ k) = match proto st l with Some st => proto st k | None => None end.
Proof. revert st. induction l as [|e l IH]; intros st; simpl; [done|]. destruct (proto_step e st); auto. Qed.

Lemma proto_snoc st l e :
  proto st (l ++ [e]) = match proto st l with Some st => proto_step e st | None => None end.
Proof. rewrite proto_app. destruct (proto st l) as [st'|]; simpl; [by destruct (proto_step e st')|done]. Qed.

Definition noTurn : turn_state := mkTurn false false false.

(** The log has reached [st], and the controller's flags are [u] and [s]. *)
Definition reached {A} (st : turn_state) (u s : bool) (w : World A) : Prop :=
  proto noTurn (log w) = Some st /\ userTurn w = u /\ userSpeaking w = s.

(** The log and the flags agree. *)
Definition in_step {A} (w : World A) : Prop :=
  reached (mkTurn (userTurn w) (userSpeaking w) false) (userTurn w) (userSpeaking w) w.

Section Protocol.
Context {A : Type} `{TurnAnalyzer A} `{UnicodeTables}.
Implicit Types (w : World A).

#[global] Instance reached_local st u s : LocalInv (reached (A:=A) st u s).
Proof.
  split; try (intros; assumption).
  - intros b cb d w h w' _ E Hr. injection E as <- <-. exact Hr.
  - intros cb [n|] w _ Hr; exact Hr.
  - intros e w He [H1 [H2 H3]]. split; [|done]. simpl. rewrite proto_snoc, H1.
    destruct e; try discriminate; by destruct st as [[] [] []].
Qed.

Lemma reached_emit st st' u s e w :
  proto_step e st = Some st' -> reached st u s w -> reached st' u s (emit e w).
Proof. intros He (H1 & H2 & H3). split; [|done]. simpl. by rewrite proto_snoc, H1. Qed.

Lemma reached_rearm st u s w : reached st u s w -> reached st u s (rearmWatchdog w).
Proof. unfold rearmWatchdog, cancel, after. intros. by destruct (watchdog w). Qed.

Lemma in_step_intro u s w : reached (mkTurn u s false) u s w -> in_step w.
Proof. intros (H1 & H2 & H3). unfold in_step, reached. by rewrite H2, H3. Qed.

Lemma in_step_elim w : in_step w ->
  reached (mkTurn (userTurn w) (userSpeaking w) false) (userTurn w) (userSpeaking w) w.
Proof. done. Qed.

#[global] Instance in_step_local : LocalInv (in_step (A:=A)).
Proof.
  split; intros; (eapply in_step_intro; match goal with Hs : in_step _ |- _ =>
    apply in_step_elim in Hs; revert Hs end);
  [apply li_setStart|apply li_setStop|by eapply li_after|by apply li_cancel|by apply li_emit|apply li_elapse].
Qed.

Lemma in_step_start o p w : in_step w -> in_step (onStartTriggered o p w).
Proof.
  intros Hw. unfold onStartTriggered. destruct (userTurn w) eqn:Hu; [done|].
  apply (in_step_intro true (userSpeaking w)).
  apply (reached_emit (mkTurn false (userSpeaking w) false)); [done|].
  apply li_notifyTurnStarted; [apply _|]. apply reached_rearm.
  destruct Hw as (H1 & _). rewrite Hu in H1. done.
Qed.

Lemma in_step_inference o w : in_step w -> in_step (onInferenceTriggered o w).
Proof.
  intros Hw. unfold onInferenceTriggered. destruct (userTurn w) eqn:Hu; [|done].
  apply (in_step_intro true (userSpeaking w)).
  apply (reached_emit (mkTurn true (userSpeaking w) false)); [done|]. apply reached_rearm.
  apply in_step_elim in Hw. by rewrite Hu in Hw.
Qed.

(** Closing a turn, for whichever reason the automaton allows. *)
Lemma reached_stop so p t w :
  proto_step (EStopped so p) (mkTurn true false t) = Some (mkTurn false false false) ->
  reached (mkTurn true false t) true false w -> in_step (onStopTriggered so p w).
Proof.
  intros He Hw. assert (Hw' := Hw). destruct Hw as (H1 & H2 & H3).
  unfold onStopTriggered. rewrite H2, H3. simpl.
  apply (in_step_intro false false).
  eapply reached_emit; [exact He|]. apply li_notifyTurnStopped; [apply _|]. apply reached_rearm.
  by split_and!.
Qed.

Lemma in_step_stop o p w : in_step w -> in_step (onStopTriggered (Some o) p w).
Proof.
  intros Hw. destruct (userTurn w) eqn:Hu; [destruct (userSpeaking w) eqn:Hs|];
    [by unfold onStopTriggered; rewrite Hu, Hs| |by unfold onStopTriggered; rewrite Hu].
  apply (reached_stop _ _ false); [done|]. apply in_step_elim in Hw. by rewrite Hu, Hs in Hw.
Qed.

Lemma in_step_watchdog w : in_step w -> in_step (onWatchdog w).
Proof.
  intros Hw. unfold onWatchdog. destruct (userTurn w) eqn:Hu, (userSpeaking w) eqn:Hs; try done.
  apply (reached_stop _ _ true); [done|]. apply (reached_emit (mkTurn true false false)); [done|].
  apply in_step_elim in Hw. by rewrite Hu, Hs in Hw.
Qed.

#[global] Instance in_step_startinv : StartInv (in_step (A:=A)).
Proof. split; [apply _|]. intros. by apply in_step_start. Qed.
#[global] Instance in_step_stopinv : StopInv (in_step (A:=A)).
Proof. split; [apply _| |]; intros; [by apply in_step_inference|by apply in_step_stop]. Qed.
#[global] Instance in_step_setupinv : SetupInv (in_step (A:=A)).
Proof. split; [apply _|..]; intros; assumption. Qed.

Lemma in_step_observe f w : in_step w -> in_step (observe f (emit (EFrame f) w)).
Proof.
  intros Hw. apply (in_step_intro (userTurn w) (speaking_after f (userSpeaking w))).
  assert (reached (mkTurn (userTurn w) (speaking_after f (userSpeaking w)) false) (userTurn w)
            (userSpeaking w) (emit (EFrame f) w)) as Hr.
  { by apply (reached_emit (mkTurn (userTurn w) (userSpeaking w) false)). }
  destruct f; simpl in *; try exact Hr; apply reached_rearm; destruct Hr as (H1 & H2 & H3); by split_and!.
Qed.

Lemma in_step_sstep w w' : sstep w w' -> in_step w -> in_step w'.
Proof.
  intros Hs Hw. destruct Hs as [w w' Hl|w|w].
  - destruct Hl as [w w' Ht|start stop w|rate w].
    + eapply (tstep_inv in_step); [apply in_step_observe|done|intros; by apply in_step_watchdog|done|done|done].
    + by apply (ui_UpdateStrategies in_step).
    + by apply (ui_ctl_Setup in_step).
  - unfold ctl_Stop, cancel. by destruct (watchdog w).
  - apply (li_cleanupStrategies in_step). unfold ctl_Stop, cancel. by destruct (watchdog w).
Qed.
End Protocol.

(** ** The stop-timeout watchdog *)

(** A live watchdog, due within the stop timeout. *)
Definition armed {A} (w : World A) : Prop :=
  exists n dl, watchdog w = Some n /\ timers w !! (CbWatchdog, n) = Some dl /\ dl <= now w + stopTimeout w.

(** The watchdog covers every open turn in which the user is silent. *)
Definition guarded {A} (w : World A) : Prop :=
  userTurn w = true -> userSpeaking w = false -> armed w.

Section Watchdog.
Context {A : Type} `{TurnAnalyzer A} `{UnicodeTables}.
Implicit Types (w : World A).

Lemma armed_mono w w' :
  armed w -> watchdog w' = watchdog w -> stopTimeout w' = stopTimeout w -> now w <= now w' ->
  (forall n dl, timers w !! (CbWatchdog, n) = Some dl -> timers w' !! (CbWatchdog, n) = Some dl) -> armed w'.
Proof.
  intros (n & dl & Hn & Hl & Hd) E1 E2 E3 Hk. exists n, dl. rewrite E1, E2.
  split; [done|]. split; [by apply Hk|lia].
Qed.

#[global] Instance armed_local : LocalInv (armed (A:=A)).
Proof.
  split.
  1,2,5: intros; eapply armed_mono; try eassumption; simpl; auto with lia.
  - intros b cb d w h w' Hcb E Ha. injection E as <- <-. apply (armed_mono w); simpl; auto with lia.
    intros n dl Hl. destruct b; [|done]. rewrite lookup_insert_ne; [done|]. by intros [= -> _].
  - intros cb [k|] w Hcb Ha; [|done]. apply (armed_mono w); simpl; auto with lia.
    intros n dl Hl. rewrite lookup_delete_ne; [done|]. by intros [= -> _].
  - intros d w Ha. apply (armed_mono w); simpl; auto with lia.
Qed.

Lemma armed_rearm w : armed (rearmWatchdog w).
Proof.
  unfold rearmWatchdog, cancel, after. exists (nextTimer w).
  destruct (watchdog w); simpl; (eexists; split; [done|]; split; [apply lookup_insert_eq|simpl; lia]).
Qed.

#[global] Instance guarded_local : LocalInv (guarded (A:=A)).
Proof.
  split; unfold guarded.
  - intros o d w Hg ? ?. by apply li_setStart, Hg.
  - intros o d w Hg ? ?. by apply li_setStop, Hg.
  - intros b cb d w h w' Hcb E Hg. injection E as <- <-. simpl. intros Hu Hs.
    eapply (li_after (P:=armed) b cb d w); [done|done|by apply Hg].
  - intros cb h w Hcb Hg Hu Hs. apply (li_cancel (P:=armed)); [done|]. destruct h; by apply Hg.
  - intros e w He Hg Hu Hs. by apply (li_emit (P:=armed)), Hg.
  - intros d w Hg ? ?. by apply (li_elapse (P:=armed)), Hg.
Qed.

Lemma guarded_armed w : armed w -> guarded w.
Proof. by intros ? ? ?. Qed.

Lemma guarded_closed w : userTurn w = false -> guarded w.
Proof. intros Hu Hu'. congruence. Qed.

Lemma guarded_stop so p w : guarded w -> guarded (onStopTriggered so p w).
Proof.
  intros Hg. unfold onStopTriggered. repeat case_match; try done. apply guarded_armed.
  apply (armed_mono (notifyTurnStopped (rearmWatchdog (w <| userTurn := false |>)))); simpl; auto with lia.
  apply (li_notifyTurnStopped armed), armed_rearm.
Qed.

#[global] Instance guarded_startinv : StartInv (guarded (A:=A)).
Proof.
  split; [apply _|]. intros o p w Hg. unfold onStartTriggered. destruct (userTurn w); [done|].
  apply guarded_armed.
  apply (armed_mono (notifyTurnStarted (rearmWatchdog (w <| userTurn := true |>)))); simpl; auto with lia.
  apply (li_notifyTurnStarted armed), armed_rearm.
Qed.

#[global] Instance guarded_stopinv : StopInv (guarded (A:=A)).
Proof.
  split; [apply _| |]; intros.
  - unfold onInferenceTriggered. case_match; [|done]. apply guarded_armed.
    apply (armed_mono (rearmWatchdog w)); simpl; auto with lia. apply armed_rearm.
  - by apply guarded_stop.
Qed.

#[global] Instance guarded_setupinv : SetupInv (guarded (A:=A)).
Proof. split; [apply _|..]; intros; assumption. Qed.

Lemma userTurn_rearm w : userTurn (rearmWatchdog w) = userTurn w.
Proof. unfold rearmWatchdog, cancel. by destruct (watchdog w). Qed.

Lemma guarded_fire n w : guarded w -> guarded (fire CbWatchdog n w).
Proof.
  intros Hg. unfold fire. cbn [runCallback]. set (w1 := w <| timers ::= delete (CbWatchdog, n) |>).
  destruct (userTurn w1 && negb (userSpeaking w1)) eqn:Hc; unfold onWatchdog; rewrite Hc.
  - apply andb_prop in Hc as [Hu Hs%negb_true_iff]. unfold onStopTriggered. simpl in Hu, Hs |- *.
    rewrite Hu, Hs. simpl. apply guarded_armed.
    match goal with |- armed (emit _ ?x) => apply (armed_mono x); simpl; auto with lia end.
    apply (li_notifyTurnStopped armed). apply armed_rearm.
  - intros Hu Hs. rewrite Hu, Hs in Hc. done.
Qed.

Lemma guarded_observe f w : guarded w -> guarded (observe f (emit (EFrame f) w)).
Proof. intros Hg. destruct f; simpl; try exact Hg; apply guarded_armed, armed_rearm. Qed.

Lemma guarded_lstep w w' : lstep w w' -> guarded w -> guarded w'.
Proof.
  intros Hl Hw. destruct Hl as [w w' Ht|start stop w|rate w].
  - eapply (tstep_inv guarded); [apply guarded_observe| |intros; by apply guarded_fire| |done|done].
    + intros cb n w1 Hg Hcb Hu Hs. by apply (li_cancel (P:=armed) cb (Some n)), Hg.
    + intros t w1 Ht1 Hg Hu Hs. apply (armed_mono w1); simpl; auto.
  - by apply (ui_UpdateStrategies guarded).
  - by apply (ui_ctl_Setup guarded).
Qed.

(** What the watchdog does once it comes due. *)
Lemma log_grows_local w0 : LocalInv (fun w => exists q, log w = log w0 ++ q /\ Forall (fun e => quiet_event e = true) q).
Proof.
  split; try (intros; assumption).
  - intros b cb d w h w' _ E Hq. injection E as <- <-. exact Hq.
  - intros cb [n|] w _ Hq; exact Hq.
  - intros e w He (q & E & Hq). exists (q ++ [e]). simpl. rewrite E, <- app_assoc. split; [done|].
    apply Forall_app; auto.
Qed.

Lemma log_rearm w : log (rearmWatchdog w) = log w.
Proof. unfold rearmWatchdog, cancel. by destruct (watchdog w). Qed.

Lemma userTurn_local b : LocalInv (fun w => userTurn w = b).
Proof.
  split; try (intros; assumption).
  - intros b' cb d w h w' _ E Hq. injection E as <- <-. exact Hq.
  - intros cb [n|] w _ Hq; exact Hq.
Qed.

Lemma watchdog_closes n w :
  userTurn w = true -> userSpeaking w = false ->
  userTurn (fire CbWatchdog n w) = false /\
  exists q, Forall (fun e => quiet_event e = true) q /\
    log (fire CbWatchdog n w) = log w ++ EStopTimeout :: q ++ [EStopped None DefaultStoppedParams].
Proof.
  intros Hu Hs. unfold fire. cbn [runCallback]. unfold onWatchdog. simpl. rewrite Hu, Hs. simpl.
  unfold onStopTriggered. simpl. rewrite ?Hu, ?Hs. simpl.
  set (w1 := rearmWatchdog _).
  assert (log w1 = log w ++ [EStopTimeout]) as E by (subst w1; by rewrite log_rearm).
  assert (userTurn w1 = false) as E' by (subst w1; by rewrite userTurn_rearm).
  clearbody w1. split.
  - by apply (li_notifyTurnStopped (fun w => userTurn w = false) (LocalInv0:=userTurn_local false)).
  - destruct (li_notifyTurnStopped _ (LocalInv0:=log_grows_local w1) w1) as (q & Eq & Hq).
    { exists []. by rewrite app_nil_r. }
    exists q. split; [done|]. rewrite Eq, E, <- !app_assoc. done.
Qed.
End Watchdog.

(** ** Deferred strategies *)

(** Since [w0], every strategy kept its environment and only those that carry the
    [stopped] callback have closed a turn. *)
Definition decided_by {A} (ok : addr -> bool) (w0 w : World A) : Prop :=
  (forall o, stopFinalizes o w = ok o) /\
  exists l, log w = log w0 ++ l /\ forall o p, EStopped (Some o) p ∈ l -> ok o = true.

Section Deferred.
Context {A : Type} `{TurnAnalyzer A} `{UnicodeTables} (ok : addr -> bool) (w0 : World A).
Implicit Types (w : World A).
Let P := decided_by ok w0.

Lemma decided_by_emit e w :
  (forall o p, e = EStopped (Some o) p -> ok o = true) -> P w -> P (emit e w).
Proof.
  intros He [H1 (l & E & Hl)]. split; [done|]. exists (l ++ [e]). simpl. rewrite E, <- app_assoc.
  split; [done|]. intros o p [Hin|Hin%list_elem_of_singleton]%elem_of_app; [by eapply Hl|by eapply He].
Qed.

#[local] Instance decided_by_local : LocalInv P.
Proof.
  split; try (intros; assumption).
  - intros o d w [H1 H2]. split; [|done]. intros o'. rewrite <- H1. unfold stopFinalizes. simpl.
    destruct (decide (o = o')) as [->|Hne]; [|by rewrite lookup_alter_ne].
    rewrite lookup_alter_eq. by destruct (stopObjs w !! o').
  - intros b cb d w h w' _ E Hq. injection E as <- <-. exact Hq.
  - intros cb [n|] w _ Hq; exact Hq.
  - intros e w He. apply decided_by_emit. by intros o p ->.
Qed.

Lemma decided_by_rearm w : P w -> P (rearmWatchdog w).
Proof. unfold rearmWatchdog, cancel. by destruct (watchdog w). Qed.

Lemma decided_by_stop so p w :
  (forall o, so = Some o -> ok o = true) -> P w -> P (onStopTriggered so p w).
Proof.
  intros Hso Hw. unfold onStopTriggered. repeat case_match; try done.
  apply decided_by_emit; [intros o p' [= -> _]; by apply Hso|].
  apply (li_notifyTurnStopped P), decided_by_rearm. exact Hw.
Qed.

#[local] Instance decided_by_start : StartInv P.
Proof.
  split; [apply _|]. intros o p w Hw. unfold onStartTriggered. case_match; [done|].
  apply decided_by_emit; [done|]. apply (li_notifyTurnStarted P), decided_by_rearm. exact Hw.
Qed.

#[local] Instance decided_by_stopinv : StopInv P.
Proof.
  split; [apply _| |].
  - intros o w _ Hw. unfold onInferenceTriggered. case_match; [|done].
    apply decided_by_emit; [done|]. by apply decided_by_rearm.
  - intros o p w Ho Hw. apply decided_by_stop; [|done]. intros ? [= <-]. by rewrite <- (proj1 Hw o).
Qed.

Lemma decided_by_tstep w w' : tstep w w' -> P w -> P w'.
Proof.
  apply (tstep_inv P); try done.
  - intros f w1 Hw. apply (decided_by_emit (EFrame f)) in Hw; [|done].
    destruct f; simpl; try exact Hw; apply decided_by_rearm; exact Hw.
  - intros n w1 Hw. unfold fire. cbn [runCallback]. unfold onWatchdog. case_match; [|done].
    apply decided_by_stop; [done|]. by apply decided_by_emit.
Qed.

Lemma decided_by_run w :
  (forall o, stopFinalizes o w0 = ok o) -> rtc tstep w0 w -> P w.
Proof.
  intros Hok Hr. apply (rtc_invariant _ P _ _ Hr); [apply decided_by_tstep|].
  split; [done|]. exists []. rewrite app_nil_r. split; [done|]. intros o p Hin. by apply not_elem_of_nil in Hin.
Qed.
End Deferred.

(** What attaching a chain does to who can finalize. *)
Section Attach.
Context {A : Type} `{TurnAnalyzer A}.
Implicit Types (w : World A).

Lemma stopFinalizes_local o b : LocalInv (fun w : World A => stopFinalizes o w = b).
Proof.
  split; try (intros; assumption).
  - intros o' d w <-. unfold stopFinalizes. simpl.
    destruct (decide (o' = o)) as [->|Hne]; [|by rewrite lookup_alter_ne].
    rewrite lookup_alter_eq. by destruct (stopObjs w !! o).
  - intros b' cb d w h w' _ E Hq. injection E as <- <-. exact Hq.
  - intros cb [n|] w _ Hq; exact Hq.
Qed.

Lemma stopFinalizes_attach o r w :
  stopFinalizes o w = false -> (finalizing r = true -> stopAddr r <> o) ->
  stopFinalizes o (attachSetupStop w r) = false.
Proof.
  intros Hw Hr. unfold attachSetupStop.
  assert (stopFinalizes o (attachStop (stopAddr r) (finalizing r) w) = false) as Ha.
  { unfold stopFinalizes in *. simpl. destruct (decide (stopAddr r = o)) as [E|Hne].
    - rewrite E, lookup_alter_eq. destruct (stopObjs w !! o); [|done]. simpl.
      destruct (finalizing r) eqn:Ef; [by specialize (Hr eq_refl)|done].
    - by rewrite lookup_alter_ne. }
  pose proof (stopFinalizes_local o false). repeat case_match; try done.
  - by apply (li_updTA (fun w => stopFinalizes o w = false)).
  - by apply (li_Ext_armTick (fun w => stopFinalizes o w = false)).
Qed.

Lemma stopFinalizes_attach_all o l w :
  stopFinalizes o w = false -> (forall r, r ∈ l -> finalizing r = true -> stopAddr r <> o) ->
  stopFinalizes o (foldl attachSetupStop w l) = false.
Proof.
  revert w. induction l as [|r l IH]; intros w Hw Hl; simpl; [done|]. apply IH.
  - apply stopFinalizes_attach; [done|]. apply Hl. set_solver.
  - intros r' Hr'. apply Hl. set_solver.
Qed.

Lemma stopFinalizes_attachStart o l w :
  stopFinalizes o (foldl attachSetupStart w l) = stopFinalizes o w.
Proof. revert w. induction l as [|x l IH]; intros w; simpl; [done|]. by rewrite IH. Qed.
End Attach.

(** ** The wake phrase *)

Definition is_started (e : event) : bool := match e with EStarted _ _ => true | _ => false end.

(** Whether an asleep strategy hears its phrase in a frame. *)
Definition wakes `{UnicodeTables} (s : WakePhraseStart) (f : Payload) : bool :=
  match f with
  | TranscriptionFrame text _ =>
    let accum := wk_accum s ++ [32%Z] ++ stripPunctuation (runes text) in
    List.existsb (fun '(_, ws) => MatchString ws (List.skipn (List.length accum - wakeAccumLimit) accum))
      (wk_phrases s)
  | _ => false
  end.

Section Wake.
Context {A : Type} `{TurnAnalyzer A} `{UnicodeTables}.
Implicit Types (w : World A).

Definition starts w : list event := List.filter is_started (log w).

Lemma starts_emit e w : starts (emit e w) = starts w ++ (if is_started e then [e] else []).
Proof. unfold starts. simpl. apply filter_snoc_bool. Qed.

Lemma starts_local l : LocalInv (fun w => starts w = l).
Proof.
  split; try (intros; assumption).
  - intros b cb d w h w' _ E Hq. injection E as <- <-. exact Hq.
  - intros cb [n|] w _ Hq; exact Hq.
  - intros e w He <-. rewrite starts_emit. destruct e; try discriminate; by rewrite app_nil_r.
Qed.

Lemma starts_rearm w : starts (rearmWatchdog w) = starts w.
Proof. unfold starts. by rewrite log_rearm. Qed.

(** Stop strategies and the frame's bookkeeping open no turn. *)
Lemma starts_stopinv l : StopInv (fun w => starts w = l).
Proof.
  pose proof (starts_local l). split; [apply _| |].
  - intros o w _ <-. unfold onInferenceTriggered. case_match; [|done].
    by rewrite starts_emit, starts_rearm, app_nil_r.
  - intros o p w _ Hw. unfold onStopTriggered. repeat case_match; try done.
    rewrite starts_emit, app_nil_r.
    apply (li_notifyTurnStopped (fun w => starts w = l)). by rewrite starts_rearm.
Qed.

Lemma starts_runStop chain f w : starts (runStop chain f w) = starts w.
Proof. by apply (ti_runStop (fun w' => starts w' = starts w) (StopInv0 := starts_stopinv _)). Qed.

Lemma starts_observe f w : starts (observe f (emit (EFrame f) w)) = starts w.
Proof.
  assert (starts (emit (EFrame f) w) = starts w) as E by by rewrite starts_emit, app_nil_r.
  destruct f; simpl in *; rewrite ?starts_rearm; exact E.
Qed.

Lemma observe_keeps f w :
  startObjs (observe f w) = startObjs w /\ startChain (observe f w) = startChain w /\
  userTurn (observe f w) = userTurn w.
Proof. destruct f; simpl; unfold rearmWatchdog, cancel; simpl; by destruct (watchdog w). Qed.

Lemma find_existsb {B} (P : B -> bool) l :
  List.existsb P l = match List.find P l with Some _ => true | None => false end.
Proof. induction l as [|x l IH]; simpl; [done|]. by destruct (P x). Qed.

(** Opening a turn reports it exactly once. *)
Lemma starts_onStart o p w :
  userTurn w = false -> starts (onStartTriggered o p w) = starts w ++ [EStarted o p].
Proof.
  intros Hu. unfold onStartTriggered. rewrite Hu, starts_emit. f_equal.
  apply (li_notifyTurnStarted (fun w' => starts w' = starts w) (LocalInv0 := starts_local _)).
  by rewrite starts_rearm.
Qed.

Lemma wakeOf_obj o w s :
  wakeOf o w = Some s ->
  exists i u a, startObjs w !! o = Some (mkStart i u a (DWakePhraseStart s)).
Proof. unfold wakeOf. intros. repeat case_match; simplify_eq. eauto. Qed.

(** The base of the strategy at an address, which no strategy changes. *)
Definition baseOf o w : option (bool * bool * bool) :=
  (fun s => (sb_EnableInterruptions s, sb_EnableUserSpeakingFrames s, sb_attached s)) <$> startObjs w !! o.

Lemma baseOf_local o b : LocalInv (fun w => baseOf o w = b).
Proof.
  split; try (intros; assumption).
  - intros o' d w <-. unfold baseOf. simpl. destruct (decide (o' = o)) as [->|Hne]; [|by rewrite lookup_alter_ne].
    rewrite lookup_alter_eq. by destruct (startObjs w !! o).
  - intros b' cb d w h w' _ E Hq. injection E as <- <-. exact Hq.
  - intros cb [n|] w _ Hq; exact Hq.
Qed.

Lemma TriggerStarted_starts o i u w :
  baseOf o w = Some (i, u, true) -> userTurn w = false ->
  starts (TriggerStarted o w) = starts w ++ [EStarted o (mkStartedParams i u)].
Proof.
  unfold baseOf, TriggerStarted, TriggerStartedOverriding. intros Hb Hu.
  destruct (startObjs w !! o) as [s|]; [|done]. simpl in Hb. injection Hb as <- <- ->.
  by apply starts_onStart.
Qed.

(** The start chain behind an asleep wake strategy. *)
Lemma runStart_asleep o rest f w s i u :
  wakeOf o w = Some s -> wk_awake s = false -> baseOf o w = Some (i, u, true) -> userTurn w = false ->
  starts (runStart (o :: rest) f w) =
  starts w ++ (if wakes s f then [EStarted o (mkStartedParams i u)] else []).
Proof.
  intros Hw Ha Hb Hu. destruct (wakeOf_obj _ _ _ Hw) as (i0 & u0 & a0 & Ho). cbn [runStart].
  unfold start_Process. rewrite Ho. cbn [sb_data]. rewrite Ha. cbn [negb].
  unfold Wake_processIdle. destruct f; simpl; rewrite ?app_nil_r; try reflexivity.
  rewrite find_existsb. unfold Wake_checkWakePhrase. rewrite Hw.
  change (wk_accum s ++ [32] ++ ?r) with (wk_accum s ++ 32 :: r).
  set (accum := drop _ _).
  set (w1 := updWake o _ w).
  assert (starts w1 = starts w) as E1
    by by apply (li_updWake (fun w' => starts w' = starts w) (LocalInv0 := starts_local _)).
  assert (baseOf o w1 = Some (i, u, true)) as E2
    by by apply (li_updWake (fun w' => baseOf o w' = _) (LocalInv0 := baseOf_local _ _)).
  assert (userTurn w1 = false) as E3
    by by apply (li_updWake (fun w' => userTurn w' = false) (LocalInv0 := userTurn_local _)).
  clearbody w1. destruct (List.find _ _) as [[ph ws]|].
  - rewrite (TriggerStarted_starts _ i u).
    + f_equal. rewrite <- E1.
      by apply (li_Wake_awake (fun w' => starts w' = starts w1) (LocalInv0 := starts_local _)).
    + by apply (li_Wake_awake (fun w' => baseOf o w' = _) (LocalInv0 := baseOf_local _ _)).
    + by apply (li_Wake_awake (fun w' => userTurn w' = false) (LocalInv0 := userTurn_local _)).
  - unfold TriggerResetAggregation. rewrite app_nil_r. case_match; [|done].
    by rewrite starts_emit, app_nil_r.
Qed.
End Wake.

(** ** The properties *)

(** A store before its controller exists: nothing attached, nothing reported. *)
Definition fresh {A} (w : World A) : Prop :=
  log w = [] /\ userTurn w = false /\ userSpeaking w = false /\ forall o, stopFinalizes o w = false.

(** No strategy has closed a turn yet. *)
Definition unclosed {A} (w : World A) : Prop := forall o p, EStopped (Some o) p ∉ log w.

#[export] Instance unclosed_setupinv {A} `{TurnAnalyzer A} : SetupInv (unclosed (A:=A)).
Proof.
  split; [split|..]; try (intros; assumption).
  - intros b cb d w h w' _ E Hq. injection E as <- <-. exact Hq.
  - intros cb [n|] w _ Hq; exact Hq.
  - intros e w He Hq o p. simpl. intros [Hin|Hin%list_elem_of_singleton]%elem_of_app; [by apply Hq in Hin|].
    by subst e.
Qed.

Section Properties.
Context {A : Type} `{TurnAnalyzer A} `{UnicodeTables}.
Implicit Types (w : World A).

Lemma New_keeps start stop tmo w :
  let w' := NewUserTurnController start stop tmo w in
  log w' = log w /\ userTurn w' = userTurn w /\ userSpeaking w' = userSpeaking w.
Proof. unfold NewUserTurnController, fillDefaults. destruct start, stop; done. Qed.

(** C1: for any strategies, any frames, any timing and any calls of the owner,
    what the controller reports follows the turn protocol, and its flags are where
    the protocol stands: turns open and close in alternation, no turn closes while
    the user is speaking, inference is triggered inside a turn only, and a turn no
    strategy closed is one whose timeout was reported. *)
Theorem user_turn_protocol start stop tmo w0 w :
  fresh w0 -> rtc sstep (NewUserTurnController start stop tmo w0) w ->
  proto noTurn (log w) = Some (mkTurn (userTurn w) (userSpeaking w) false).
Proof.
  intros (Hl & Hu & Hs & _) Hr.
  apply (rtc_invariant _ in_step _ _ Hr); [apply in_step_sstep|].
  destruct (New_keeps start stop tmo w0) as (E1 & E2 & E3).
  unfold in_step, reached. by rewrite E1, E2, E3, Hl, Hu, Hs.
Qed.

(** C2: while the session runs, an open turn in which the user is silent always
    has a watchdog due within the stop timeout, and when it comes due the turn is
    closed with the timeout reported and no strategy named. *)
Theorem watchdog_closes_stuck_turn start stop tmo w0 w :
  fresh w0 -> rtc lstep (NewUserTurnController start stop tmo w0) w ->
  userTurn w = true -> userSpeaking w = false ->
  exists n dl, timers w !! (CbWatchdog, n) = Some dl /\ dl <= now w + stopTimeout w /\
    let w' := fire CbWatchdog n (w <| now := Z.max dl (now w) |>) in
    userTurn w' = false /\
    exists q, Forall (fun e => quiet_event e = true) q /\
      log w' = log w ++ EStopTimeout :: q ++ [EStopped None DefaultStoppedParams].
Proof.
  intros (_ & Hu0 & _) Hr Hu Hs.
  destruct (rtc_invariant _ guarded _ _ Hr) as (n & dl & _ & Hn & Hd); try done.
  - apply guarded_lstep.
  - apply guarded_closed. by destruct (New_keeps start stop tmo w0) as (_ & -> & _).
  - exists n, dl. split; [done|]. split; [done|].
    cbn zeta. set (w1 := w <| now := _ |>). destruct (watchdog_closes n w1) as [H1 (q & H2 & H3)]; [done..|].
    split; [done|]. by exists q.
Qed.

(** Under the turn-completion gate only the gate itself ever closes a turn,
    the watchdog apart: the detectors, being deferred, never do. *)
Theorem llm_gate_decides dets tmo rate w0 start stop w1 w o p :
  fresh w0 -> (forall r, r ∈ dets -> (stopAddr r < nextAddr w0)%nat) ->
  FilterIncompleteUserTurnStrategies dets w0 = (start, stop, w1) ->
  rtc tstep (ctl_Setup rate (NewUserTurnController start stop tmo w1)).2 w ->
  EStopped (Some o) p ∈ log w -> last stop = Some (Direct o).
Proof.
  intros (Hl0 & _ & _ & Hf0) Hd E Hr Hin.
  set (w2 := (ctl_Setup rate (NewUserTurnController start stop tmo w1)).2) in *.
  assert (exists g dets', stop = List.map deferredStop dets' ++ [Direct g] /\
            log w1 = [] /\ forall o, stopFinalizes o w1 = false) as (g & dets' & -> & Hl1 & Hf1).
  { unfold FilterIncompleteUserTurnStrategies in E.
    destruct dets as [|r dets]; simpl in E; injection E as <- <- <-;
      [exists (S (nextAddr w0)), [Direct (nextAddr w0)]|exists (nextAddr w0), (r :: dets)];
      (split; [done|]; split; [done|]); intros o'; specialize (Hf0 o'); revert Hf0;
      unfold stopFinalizes; simpl; rewrite !lookup_insert; repeat case_decide; done. }
  assert (forall o, o <> g -> stopFinalizes o w2 = false) as Hf2.
  { intros o' Ho. subst w2. unfold ctl_Setup, setupStrategies. simpl.
    apply stopFinalizes_attach_all; [rewrite stopFinalizes_attachStart|].
    - unfold NewUserTurnController, fillDefaults. destruct start, dets'; exact (Hf1 o').
    - intros r Hr1 Hfin. unfold NewUserTurnController, fillDefaults in Hr1.
      assert (r ∈ List.map deferredStop dets' ++ [Direct g]) as Hr2 by (destruct start, dets'; exact Hr1).
      apply elem_of_app in Hr2 as [Hx|Hx].
      + apply list_elem_of_In, in_map_iff in Hx as (x & <- & _). done.
      + apply list_elem_of_singleton in Hx as ->. simpl. congruence. }
  destruct (decided_by_run (fun o => stopFinalizes o w2) w2 w) as [_ (l & El & Hl)]; [done..|].
  assert (unclosed w2) as Hu2.
  { apply (ui_ctl_Setup unclosed). unfold NewUserTurnController, fillDefaults.
    intros o' p'. destruct start, dets'; simpl; rewrite Hl1; apply not_elem_of_nil. }
  rewrite last_snoc. f_equal. f_equal.
  destruct (decide (o = g)) as [->|Hne]; [done|]. specialize (Hl o p). rewrite Hf2 in Hl by done.
  rewrite El in Hin. apply elem_of_app in Hin as [Hin|Hin]; [by apply Hu2 in Hin|by specialize (Hl Hin)].
Qed.
(** An asleep wake-phrase strategy at the head of the start chain is the only
    way in: whatever the frame and whatever the strategies behind it, a turn is
    opened exactly when a final transcript completes the phrase, and then by that
    strategy. *)
Theorem wake_phrase_gates f w o rest s i u :
  startChain w = o :: rest -> startObjs w !! o = Some (mkStart i u true (DWakePhraseStart s)) ->
  wk_awake s = false -> userTurn w = false ->
  starts (Process f w) = starts w ++ (if wakes s f then [EStarted o (mkStartedParams i u)] else []).
Proof.
  intros Hc Ho Ha Hu. unfold Process. rewrite starts_runStop, (proj1 (proj2 (observe_keeps f _))).
  simpl startChain. rewrite Hc.
  destruct (observe_keeps f (emit (EFrame f) w)) as (E1 & _ & E3).
  rewrite (runStart_asleep o rest f _ s i u).
  - by rewrite starts_observe.
  - unfold wakeOf. rewrite E1. simpl. by rewrite Ho.
  - done.
  - unfold baseOf. rewrite E1. simpl. by rewrite Ho.
  - by rewrite E3.
Qed.
End Properties.

(** ** Instances to run *)

(** An analyzer that always takes speech to be unfinished. *)
#[export] Instance never_done : TurnAnalyzer unit := {|
  SetSampleRate _ a := a;
  AppendAudio _ _ a := (Incomplete, a);
  AnalyzeEndOfTurn a := (mkVerdict Incomplete f64_zero false 0, a);
  UpdateVADStartSecs _ a := a;
  Clear a := a
|}.
#[export] Existing Instance ascii_tables.

Definition nothing : World unit := emptyWorld 0.
Lemma nothing_fresh : fresh nothing.
Proof. by split_and!. Qed.

(** The default chains, and a user who starts to speak and stops. *)
Definition default0 : World unit := NewUserTurnController [] [] 0 nothing.
Definition default1 : World unit := (ctl_Setup 16000 default0).2.
Definition feed (fs : list Payload) (w : World unit) : World unit := foldl (fun w f => Process f w) w fs.
Definition talked : World unit :=
  feed [VADUserStartedSpeakingFrame f64_zero None; TranscriptionFrame "hello" true;
        VADUserStoppedSpeakingFrame (f64_lit 2 10) None] default1.

Lemma feed_run fs w : rtc tstep w (feed fs w).
Proof.
  revert w. induction fs as [|f fs IH]; intros w; [apply rtc_refl|].
  apply (rtc_l _ _ (Process f w)); [apply ts_frame|apply IH].
Qed.

Lemma tstep_lstep {A} `{TurnAnalyzer A} `{UnicodeTables} (w w' : World A) : rtc tstep w w' -> rtc lstep w w'.
Proof. induction 1; [done|]. eapply rtc_l; [by apply ls_run|done]. Qed.

Lemma talked_live : rtc lstep default0 talked.
Proof.
  apply (rtc_l _ _ default1); [apply ls_setup|]. apply tstep_lstep, feed_run.
Qed.

Lemma lstep_sstep {A} `{TurnAnalyzer A} `{UnicodeTables} (w w' : World A) : rtc lstep w w' -> rtc sstep w w'.
Proof. induction 1; [done|]. eapply rtc_l; [by apply ss_live|done]. Qed.

Lemma user_turn_protocol_witness : proto noTurn (log talked) = Some (mkTurn true false false).
Proof.
  apply (user_turn_protocol [] [] 0 nothing talked nothing_fresh).
  apply lstep_sstep, talked_live.
Defined.

Lemma watchdog_closes_stuck_turn_witness : exists n dl, timers talked !! (CbWatchdog, n) = Some dl.
Proof.
  destruct (watchdog_closes_stuck_turn [] [] 0 nothing talked nothing_fresh talked_live eq_refl eq_refl)
    as (n & dl & Hn & _).
  by exists n, dl.
Defined.

(** The gate over the default detector, once the LLM reports the turn complete. *)
Definition gated0 : World unit := (ctl_Setup 16000 (NewUserTurnController [] [deferredStop (Direct 0); Direct 1%nat] 0
  (FilterIncompleteUserTurnStrategies [] nothing).2)).2.
Definition gated : World unit :=
  feed [VADUserStartedSpeakingFrame f64_zero None; VADUserStoppedSpeakingFrame (f64_lit 2 10) None;
        UserTurnInferenceCompletedFrame] gated0.

Lemma llm_gate_decides_witness :
  EStopped (Some 1%nat) DefaultStoppedParams ∈ log gated /\
  last [deferredStop (Direct 0); Direct 1%nat] = Some (Direct 1).
Proof.
  assert (EStopped (Some 1%nat) DefaultStoppedParams ∈ log gated) as Hin.
  { vm_compute. set_solver. }
  split; [exact Hin|].
  apply (llm_gate_decides [] 0 16000 nothing [] [deferredStop (Direct 0); Direct 1%nat]
           (FilterIncompleteUserTurnStrategies [] nothing).2 gated 1 DefaultStoppedParams nothing_fresh).
  - intros r Hr. by apply not_elem_of_nil in Hr.
  - reflexivity.
  - unfold gated, gated0. apply feed_run.
  - exact Hin.
Defined.

(** A wake phrase in front of the default start chain. *)
Definition waked0 : World unit :=
  let '(a, w) := allocStart (NewWakePhraseStart ["hey voxigo"%string] 0 false) nothing in
  let '(b, w) := allocStart NewVADStart w in
  (ctl_Setup 16000 (NewUserTurnController [a; b] [] 0 w)).2.

Lemma wake_phrase_gates_witness :
  starts (Process (VADUserStartedSpeakingFrame f64_zero None) waked0) = [] /\
  starts (Process (TranscriptionFrame "Hey, Voxigo!" true) waked0) = [EStarted 0 DefaultStartedParams].
Proof.
  split; (rewrite (wake_phrase_gates _ waked0 0%nat [1%nat]
            (mkWake (compileWakePatterns ["hey voxigo"%string]) wakePhraseDefaultTimeout false false [] None) true true);
          vm_compute; reflexivity).
Defined.

End UserTurn.
