(* ===== verification/TurnTiming.v ===== *)
(** * When the default stop strategy ends a turn

    The speech-timeout strategy ([SpeechTimeoutStop] of
    [src/processor/turns/stop.go]) alone in the stop chain: from the moment the VAD
    reports the user stopped, with text in hand and no frame arriving after, the
    turn closes when the later of its two waits is over, no earlier and no later. *)

From S2P Require Import Prelude Float64 Frames Text TurnStrategies UserTurn.

Module TurnTiming.
Import Turns UserTurn.
Local Open Scope Z_scope.

Section Timing.
Context {A : Type} `{TurnAnalyzer A} `{UnicodeTables}.
Implicit Types (w : World A) (o : addr).

(** Timers and time, and no frame. *)
Inductive quiet : World A -> World A -> Prop :=
| q_fire cb n dl w : timers w !! (cb, n) = Some dl -> dl <= now w -> quiet w (fire cb n w)
| q_tick t w : now w <= t -> quiet w (w <| now := t |>).

(** ** Reading the strategy through its own updates *)

Lemma speechOf_obj o w s :
  speechOf o w = Some s -> exists u a p, stopObjs w !! o = Some (mkStop A u a p (DSpeechTimeoutStop s)).
Proof. unfold speechOf. intros. repeat case_match; simplify_eq. eauto. Qed.

Lemma speechOf_setStop o w s s' :
  speechOf o w = Some s -> speechOf o (setStop o (DSpeechTimeoutStop s') w) = Some s'.
Proof.
  intros Hs. destruct (speechOf_obj _ _ _ Hs) as (u & a & p & Ho). unfold speechOf. simpl.
  by rewrite lookup_alter_eq, Ho.
Qed.

Lemma speechOf_updST o w s g : speechOf o w = Some s -> speechOf o (updST o g w) = Some (g s).
Proof. intros Hs. unfold updST. rewrite Hs. by eapply speechOf_setStop. Qed.

Lemma speechOf_cancel o cb h w : speechOf o (cancel cb h w) = speechOf o w.
Proof. by destruct h. Qed.

Lemma speechOf_after o b cb d w h w' : after b cb d w = (h, w') -> speechOf o w' = speechOf o w.
Proof. intros E. by injection E as <- <-. Qed.

(** What an update of the strategy leaves alone. *)
Record same_rest w w' : Prop := {
  sr_turn : userTurn w' = userTurn w;
  sr_speaking : userSpeaking w' = userSpeaking w;
  sr_now : now w' = now w;
  sr_timers : timers w' = timers w;
  sr_fin o : stopFinalizes o w' = stopFinalizes o w;
  sr_att o : stopAttached o w' = stopAttached o w
}.

Lemma updST_rest o g w : same_rest w (updST o g w).
Proof.
  unfold updST. destruct (speechOf o w) as [s|] eqn:Hs; [|by split].
  split; try done; intros o'; unfold stopFinalizes, stopAttached; simpl;
    (destruct (decide (o = o')) as [->|Hne]; [|by rewrite lookup_alter_ne]);
    rewrite lookup_alter_eq; by destruct (stopObjs w !! o').
Qed.

(** ** A trigger the controller accepts *)

Lemma flags_local u s : LocalInv (fun w => userTurn w = u /\ userSpeaking w = s).
Proof.
  split; try (intros; assumption).
  - intros b cb d w h w' _ E Hq. injection E as <- <-. exact Hq.
  - intros cb [n|] w _ Hq; exact Hq.
Qed.

Lemma TriggerStopped_closes o w :
  userSpeaking w = false -> stopFinalizes o w = true -> userTurn (TriggerStopped o w) = false.
Proof.
  intros Hs Hf. unfold TriggerStopped, TriggerStoppedOverriding.
  set (w1 := TriggerInferenceTriggered o w).
  assert (userSpeaking w1 = false /\ stopFinalizes o w1 = true) as [Hs1 Hf1].
  { subst w1. unfold TriggerInferenceTriggered, onInferenceTriggered, rearmWatchdog, cancel.
    destruct (stopAttached o w), (userTurn w), (watchdog w); done. }
  clearbody w1. unfold TriggerFinalizedOverriding. unfold stopFinalizes in Hf1.
  destruct (stopObjs w1 !! o) as [b|]; [|done]. rewrite Hf1. unfold onStopTriggered. rewrite Hs1.
  destruct (userTurn w1) eqn:Hu; [|done]. simpl.
  apply (li_notifyTurnStopped (fun w => userTurn w = false) (LocalInv0 := userTurn_local false)).
  by rewrite userTurn_rearm.
Qed.

Lemma speechOf_cancelSTT o w s :
  speechOf o w = Some s -> speechOf o (ST_cancelSTTTimer o w) = Some (s <| st_cancelSTT := None |>).
Proof.
  intros Hs. unfold ST_cancelSTTTimer. rewrite Hs.
  rewrite (speechOf_updST _ _ s); [done|]. by rewrite speechOf_cancel.
Qed.

Lemma cancelTimers_rest o w :
  userSpeaking (ST_cancelTimers o w) = userSpeaking w /\
  stopFinalizes o (ST_cancelTimers o w) = stopFinalizes o w.
Proof.
  split.
  - by apply (li_ST_cancelTimers (fun w' => userTurn w' = userTurn w /\ userSpeaking w' = userSpeaking w)
                (LocalInv0 := flags_local _ _)).
  - by apply (li_ST_cancelTimers (fun w' => stopFinalizes o w' = stopFinalizes o w)
                (LocalInv0 := stopFinalizes_local _ _)).
Qed.

(** [maybeTrigger] with text in hand and the user silent. *)
Lemma maybeTrigger_both o w s :
  speechOf o w = Some s -> st_vadSpeaking s = false -> (st_waitForTx s = true -> st_haveText s = true) ->
  userSpeaking w = false -> stopFinalizes o w = true ->
  if st_userSpeechDone s && st_sttDone s then userTurn (ST_maybeTrigger o w) = false
  else ST_maybeTrigger o w = w.
Proof.
  intros Hs Hv Ht Hu Hf. unfold ST_maybeTrigger. rewrite Hs, Hv.
  assert (st_waitForTx s && negb (st_haveText s) = false) as ->.
  { destruct (st_waitForTx s); [|done]. by rewrite Ht. }
  destruct (st_userSpeechDone s && st_sttDone s); [|done].
  destruct (cancelTimers_rest o w) as [E1 E2]. apply TriggerStopped_closes; congruence.
Qed.

(** Nothing that runs from a timer opens a turn. *)
Lemma closed_stopinv : StopInv (fun w => userTurn w = false).
Proof.
  pose proof (userTurn_local (A:=A) false). split; [apply _| |].
  - intros o w _ Hw. unfold onInferenceTriggered. by rewrite Hw.
  - intros o p w _ Hw. unfold onStopTriggered. by rewrite Hw.
Qed.

Lemma fire_closed cb n w : userTurn w = false -> userTurn (fire cb n w) = false.
Proof.
  intros Hw. destruct (decide (cb = CbWatchdog)) as [->|Hne].
  - unfold fire. cbn [runCallback]. unfold onWatchdog. simpl. by rewrite Hw.
  - by apply (ti_runCallback (fun w => userTurn w = false) (StopInv0 := closed_stopinv)).
Qed.

(** ** The two waits *)

(** One wait of the strategy, from [t0] over [d]: pending with its timer live, or over. *)
Definition wait_state (fin : bool) (h : option nat) (cb : callback) (t0 d : Z) w : Prop :=
  if fin then t0 + d <= now w else exists n, h = Some n /\ timers w !! (cb, n) = Some (t0 + d).

(** The turn since the VAD stop at [t0]: open with a wait still pending, or closed
    no earlier than the waits, or the watchdog, allow. *)
Record pending_turn o (t0 U W T : Z) w (s : SpeechTimeoutStop) : Prop := {
  pt_turn : userTurn w = true;
  pt_silent : userSpeaking w = false;
  pt_fin : stopFinalizes o w = true;
  pt_obj : speechOf o w = Some s;
  pt_vad : st_vadSpeaking s = false;
  pt_text : st_waitForTx s = true -> st_haveText s = true;
  pt_user : wait_state (st_userSpeechDone s) (st_cancelUser s) (CbUserSpeech o) t0 U w;
  pt_stt : wait_state (st_sttDone s) (st_cancelSTT s) (CbSTT o) t0 W w;
  pt_wait : st_userSpeechDone s && st_sttDone s = false;
  pt_live cb n dl : timers w !! (cb, n) = Some dl ->
    (cb = CbWatchdog /\ dl = t0 + T) \/
    (cb = CbUserSpeech o /\ dl = t0 + U /\ st_cancelUser s = Some n) \/
    (cb = CbSTT o /\ dl = t0 + W /\ st_cancelSTT s = Some n)
}.

Definition since_stop o (t0 U W T : Z) w : Prop :=
  (exists s, pending_turn o t0 U W T w s) \/
  (userTurn w = false /\ t0 + Z.min (Z.max U W) T <= now w).

Lemma now_stopinv t : StopInv (fun w => t <= now w).
Proof.
  assert (LocalInv (fun w : World A => t <= now w)) as HL.
  { split; try (intros; assumption).
    - intros b cb d w h w' _ E Hq. injection E as <- <-. exact Hq.
    - intros cb [n|] w _ Hq; exact Hq.
    - intros d w Hq. simpl. lia. }
  assert (forall w, t <= now w -> t <= now (rearmWatchdog w)) as HR.
  { intros w Hw. unfold rearmWatchdog, cancel. by destruct (watchdog w). }
  split; [apply _| |].
  - intros o w _ Hw. unfold onInferenceTriggered. case_match; [|done]. simpl. by apply HR.
  - intros o p w _ Hw. unfold onStopTriggered. repeat case_match; try done. simpl.
    apply (li_notifyTurnStopped (fun w => t <= now w)), HR, Hw.
Qed.

Lemma fire_now cb n w t : cb <> CbWatchdog -> t <= now w -> t <= now (fire cb n w).
Proof. intros Hne Hw. by apply (ti_runCallback (fun w => t <= now w) (StopInv0 := now_stopinv t)). Qed.

Lemma wait_mono fin h cb t0 d w w' :
  wait_state fin h cb t0 d w -> now w <= now w' ->
  (forall n, h = Some n -> timers w' !! (cb, n) = timers w !! (cb, n)) -> wait_state fin h cb t0 d w'.
Proof.
  unfold wait_state. destruct fin; [lia|]. intros (n & -> & Hn) _ Hk. exists n. by rewrite Hk.
Qed.

(** The step both timers of the strategy take: one wait is over, [g] records it. *)
Lemma wait_over o t0 U W T w s cb n g :
  pending_turn o t0 U W T w s -> cb <> CbWatchdog -> timers w !! (cb, n) <> None ->
  let w1 := updST o g (w <| timers ::= delete (cb, n) |>) in
  runCallback cb (w <| timers ::= delete (cb, n) |>) = ST_maybeTrigger o w1 ->
  st_vadSpeaking (g s) = false -> (st_waitForTx (g s) = true -> st_haveText (g s) = true) ->
  (st_userSpeechDone (g s) && st_sttDone (g s) = true -> t0 + Z.max U W <= now w) ->
  (st_userSpeechDone (g s) && st_sttDone (g s) = false -> pending_turn o t0 U W T w1 (g s)) ->
  since_stop o t0 U W T (fire cb n w).
Proof.
  intros Hp Hne Hl w1 Ecb Hv Ht Hdone Hpend. unfold fire. rewrite Ecb.
  pose proof (updST_rest o g (w <| timers ::= delete (cb, n) |>)) as R.
  pose proof (maybeTrigger_both o w1 (g s)) as HM. fold w1 in R.
  rewrite (sr_speaking _ _ R), (sr_fin _ _ R) in HM. simpl in HM.
  assert (speechOf o w1 = Some (g s)) as E1 by (subst w1; apply speechOf_updST; exact (pt_obj _ _ _ _ _ _ _ Hp)).
  specialize (HM E1 Hv Ht (pt_silent _ _ _ _ _ _ _ Hp) (pt_fin _ _ _ _ _ _ _ Hp)).
  destruct (st_userSpeechDone (g s) && st_sttDone (g s)) eqn:Hd.
  - right. split; [exact HM|]. specialize (Hdone eq_refl).
    pose proof (fire_now cb n w _ Hne Hdone) as Hn. unfold fire in Hn. rewrite Ecb in Hn. lia.
  - left. exists (g s). rewrite HM. by apply Hpend.
Qed.

Lemma since_stop_quiet o t0 U W T w w' :
  quiet w w' -> since_stop o t0 U W T w -> since_stop o t0 U W T w'.
Proof.
  intros Hq [(s & Hp)|[Hu Hn]]; [|right].
  - destruct Hq as [cb n dl w Hl Hdue|t w Ht].
    + destruct (pt_live _ _ _ _ _ _ _ Hp _ _ _ Hl) as [[-> ->]|[(-> & -> & Hh)|(-> & -> & Hh)]].
      * right. destruct Hp. destruct (watchdog_closes n w) as [Hc _]; [done..|]. split; [exact Hc|].
        unfold fire. cbn [runCallback]. unfold onWatchdog. simpl. rewrite pt_turn0, pt_silent0.
        unfold onStopTriggered. simpl. rewrite ?pt_turn0, ?pt_silent0. simpl.
        etrans; [|apply (li_notifyTurnStopped (fun w' => now w <= now w') (LocalInv0 := pi_local (StopInv := now_stopinv _)))].
        { lia. }
        unfold rearmWatchdog, cancel. simpl. by destruct (watchdog w).
      * eapply (wait_over _ _ _ _ _ _ s _ _ (fun s => s <| st_userSpeechDone := true |> <| st_cancelUser := None |>));
          try done; try (by rewrite Hl); destruct Hp; try done.
        -- simpl. intros E. rewrite E in pt_stt0. simpl in pt_stt0. lia.
        -- simpl. intros Hstt. match goal with |- pending_turn _ _ _ _ _ ?x (_ ?s) => set (w1 := x) end.
           assert (same_rest (w <| timers ::= delete (CbUserSpeech o, n) |>) w1) as R by apply updST_rest.
           assert (speechOf o w1 = Some ((fun s => s <| st_userSpeechDone := true |> <| st_cancelUser := None |>) s)) as E1
             by (subst w1; rewrite (speechOf_updST _ _ s); done).
           clearbody w1.
           split; rewrite ?(sr_turn _ _ R), ?(sr_speaking _ _ R), ?(sr_fin _ _ R); try done.
           ++ simpl. rewrite (sr_now _ _ R). simpl. lia.
           ++ apply (wait_mono _ _ _ _ _ w); [done|by rewrite (sr_now _ _ R)|].
              intros k Hk. rewrite (sr_timers _ _ R). simpl. by rewrite lookup_delete_ne.
           ++ intros cb k dl. rewrite (sr_timers _ _ R). simpl. intros [Hne Hk]%lookup_delete_Some.
              destruct (pt_live0 _ _ _ Hk) as [?|[(-> & _ & Hk')|?]]; [auto| |auto]. congruence.
      * eapply (wait_over _ _ _ _ _ _ s _ _ (fun s => s <| st_sttDone := true |> <| st_cancelSTT := None |>));
          try done; try (by rewrite Hl); destruct Hp; try done.
        -- simpl. rewrite andb_true_r. intros E. rewrite E in pt_user0. simpl in pt_user0. lia.
        -- simpl. rewrite andb_true_r. intros Husr.
           match goal with |- pending_turn _ _ _ _ _ ?x (_ ?s) => set (w1 := x) end.
           assert (same_rest (w <| timers ::= delete (CbSTT o, n) |>) w1) as R by apply updST_rest.
           assert (speechOf o w1 = Some ((fun s => s <| st_sttDone := true |> <| st_cancelSTT := None |>) s)) as E1
             by (subst w1; rewrite (speechOf_updST _ _ s); done).
           clearbody w1.
           split; rewrite ?(sr_turn _ _ R), ?(sr_speaking _ _ R), ?(sr_fin _ _ R); try done.
           ++ apply (wait_mono _ _ _ _ _ w); [done|by rewrite (sr_now _ _ R)|].
              intros k Hk. rewrite (sr_timers _ _ R). simpl. by rewrite lookup_delete_ne.
           ++ simpl. rewrite (sr_now _ _ R). simpl. lia.
           ++ by rewrite andb_true_r.
           ++ intros cb k dl. rewrite (sr_timers _ _ R). simpl. intros [Hne Hk]%lookup_delete_Some.
              destruct (pt_live0 _ _ _ Hk) as [?|[?|(-> & _ & Hk')]]; [auto|auto|]. congruence.
    + left. exists s. destruct Hp. split; try done.
      * by apply (wait_mono _ _ _ _ _ w).
      * by apply (wait_mono _ _ _ _ _ w).
  - destruct Hq as [cb n dl w Hl Hdue|t w Ht]; [|split; [done|simpl; lia]].
    split; [by apply fire_closed|]. destruct (decide (cb = CbWatchdog)) as [->|Hne]; [|by apply fire_now].
    unfold fire. cbn [runCallback]. unfold onWatchdog. simpl. by rewrite Hu.
Qed.

(** ** What the VAD stop sets going *)

Lemma runStart_vadStopped chain secs ts w : runStart chain (VADUserStoppedSpeakingFrame secs ts) w = w.
Proof.
  induction chain as [|o chain IH]; simpl; [done|].
  assert (exists r, start_Process o (VADUserStoppedSpeakingFrame secs ts) w = (r, w)) as [r E].
  { unfold start_Process, MinWords_Process, Wake_processIdle, Wake_processAwake.
    repeat case_match; eauto. }
  rewrite E. by destruct r.
Qed.

(** Everything a wait's bookkeeping leaves alone but the timers. *)
Definition keeps w w' : Prop :=
  userTurn w' = userTurn w /\ userSpeaking w' = userSpeaking w /\ now w' = now w /\
  (forall o, stopFinalizes o w' = stopFinalizes o w) /\ (forall o, stopAttached o w' = stopAttached o w).

Lemma updST_keeps o g w : keeps w (updST o g w).
Proof. destruct (updST_rest o g w). by split_and!. Qed.

Lemma keeps_trans w1 w2 w3 : keeps w1 w2 -> keeps w2 w3 -> keeps w1 w3.
Proof.
  intros (A1 & A2 & A3 & A4 & A5) (B1 & B2 & B3 & B4 & B5).
  split; [congruence|]. split; [congruence|]. split; [congruence|].
  split; intros; [by rewrite B4|by rewrite B5].
Qed.

Lemma updST_timers o g w : timers (updST o g w) = timers w.
Proof. exact (sr_timers _ _ (updST_rest o g w)). Qed.

(** Arming a wait of the strategy. *)
Lemma arm_spec o cb d g w s h w1 :
  speechOf o w = Some s -> stopAttached o w = true -> after (stopAttached o w) cb d w = (h, w1) ->
  speechOf o (updST o g w1) = Some (g s) /\
  timers (updST o g w1) = <[(cb, h) := now w + d]> (timers w) /\ keeps w (updST o g w1).
Proof.
  intros Hs Ha E. rewrite Ha in E. injection E as <- <-.
  split; [by apply speechOf_updST|]. split; [by rewrite updST_timers|]. exact (updST_keeps o g _).
Qed.

Lemma restart_spec o w s :
  speechOf o w = Some s -> stopAttached o w = true ->
  exists n, speechOf o (ST_restartUserSpeechTimer o w) =
      Some (s <| st_userSpeechDone := false |> <| st_cancelUser := Some n |>) /\
    timers (ST_restartUserSpeechTimer o w) =
      <[(CbUserSpeech o, n) := now w + st_userSpeechTimeout s]>
        (timers (cancel (CbUserSpeech o) (st_cancelUser s) w)) /\
    keeps w (ST_restartUserSpeechTimer o w).
Proof.
  intros Hs Ha. unfold ST_restartUserSpeechTimer. rewrite Hs.
  set (wc := cancel (CbUserSpeech o) (st_cancelUser s) w).
  assert (speechOf o wc = Some s /\ keeps w wc) as [Hc Kc]
    by (subst wc; destruct (st_cancelUser s); split; [exact Hs|done|exact Hs|done]).
  set (w1 := updST o _ wc).
  assert (speechOf o w1 = Some (s <| st_cancelUser := None |> <| st_userSpeechDone := false |>)) as H1
    by (subst w1; rewrite (speechOf_updST _ _ s); done).
  assert (keeps w w1) as K1 by (eapply keeps_trans; [exact Kc|apply updST_keeps]).
  assert (timers w1 = timers wc) as T1 by apply updST_timers.
  assert (now w1 = now w) as N1 by apply K1.
  clearbody w1. destruct (after _ _ _ w1) as [n w2] eqn:E. exists n.
  destruct (arm_spec o _ _ (fun s => s <| st_cancelUser := Some n |>) w1 _ _ _ H1
              (eq_trans (proj2 (proj2 (proj2 (proj2 K1))) o) Ha) E) as (E1 & E2 & E3).
  split; [by rewrite E1|]. split; [|by eapply keeps_trans].
  rewrite E2, T1, N1. done.
Qed.

(** The state a VAD stop finds: a turn open, its text in hand, no STT wait running. *)
Record listening o w (s : SpeechTimeoutStop) : Prop := {
  ls_chain : stopChain w = [Direct o];
  ls_turn : userTurn w = true;
  ls_fin : stopFinalizes o w = true;
  ls_obj : speechOf o w = Some s;
  ls_text : st_waitForTx s = true -> st_haveText s = true;
  ls_live cb n dl : timers w !! (cb, n) = Some dl ->
    (cb = CbWatchdog /\ watchdog w = Some n) \/ (cb = CbUserSpeech o /\ st_cancelUser s = Some n)
}.

(** The two waits the stop starts. *)
Definition userWait (s : SpeechTimeoutStop) : Z := st_userSpeechTimeout s.
Definition sttWaitFor (secs : f64) (s : SpeechTimeoutStop) : Z :=
  if st_txFinalized s then 0 else Z.max 0 (st_sttTimeout s - duration_of_secs secs).

Lemma stopFinalizes_attached o w : stopFinalizes o w = true -> stopAttached o w = true.
Proof. unfold stopFinalizes, stopAttached. destruct (stopObjs w !! o); [|done]. by intros [? ?]%andb_prop. Qed.

(** The two updates of the frame's own fields, then the speech wait restarted. *)
Lemma handleVADStopped_setup o secs w s :
  speechOf o w = Some s -> stopAttached o w = true ->
  exists n s4 w4,
    ST_handleVADStopped o secs w =
      (if st_txFinalized s4 || (ST_sttWait s4 <=? 0) then updST o (fun s => s <| st_sttDone := true |>) w4
       else let '(h, w) := after (stopAttached o w4) (CbSTT o) (ST_sttWait s4) w4 in
            updST o (fun s => s <| st_cancelSTT := Some h |>) w) /\
    speechOf o w4 = Some s4 /\ keeps w w4 /\
    timers w4 = <[(CbUserSpeech o, n) := now w + userWait s]> (timers (cancel (CbUserSpeech o) (st_cancelUser s) w)) /\
    st_vadSpeaking s4 = false /\ st_waitForTx s4 = st_waitForTx s /\ st_haveText s4 = st_haveText s /\
    st_txFinalized s4 = st_txFinalized s /\ ST_sttWait s4 = st_sttTimeout s - duration_of_secs secs /\
    st_userSpeechDone s4 = false /\ st_cancelUser s4 = Some n /\ st_sttDone s4 = false.
Proof.
  intros Hs Ha. unfold ST_handleVADStopped.
  set (w1 := updST o _ w).
  assert (speechOf o w1 = Some (s <| st_vadSpeaking := false |> <| st_stopWindow := duration_of_secs secs |>
            <| st_vadStopped := true |>)) as H1 by (subst w1; rewrite (speechOf_updST _ _ s); done).
  assert (keeps w w1 /\ timers w1 = timers w) as [K1 T1] by (split; [apply updST_keeps|apply updST_timers]).
  clearbody w1. set (w2 := updST o _ w1).
  destruct (speechOf o w2) as [s2|] eqn:H2; [|by subst w2; rewrite (speechOf_updST _ _ _ _ H1) in H2].
  assert (s2 = s <| st_vadSpeaking := false |> <| st_stopWindow := duration_of_secs secs |>
            <| st_vadStopped := true |> <| st_stopSecsWarned := st_stopSecsWarned s2 |>) as Es2
    by (subst w2; rewrite (speechOf_updST _ _ _ _ H1) in H2; by injection H2 as <-).
  assert (keeps w w2 /\ timers w2 = timers w) as [K2 T2].
  { split; [eapply keeps_trans; [exact K1|apply updST_keeps]|]. subst w2. by rewrite updST_timers. }
  clearbody w2.
  destruct (restart_spec o w2 s2 H2) as (n & H3 & T3 & K3).
  { destruct K2 as (_ & _ & _ & _ & ->). exact Ha. }
  set (w3 := ST_restartUserSpeechTimer o w2) in *. clearbody w3.
  set (w4 := updST o _ w3).
  exists n, (s2 <| st_userSpeechDone := false |> <| st_cancelUser := Some n |> <| st_sttDone := false |>), w4.
  assert (speechOf o w4 = Some (s2 <| st_userSpeechDone := false |> <| st_cancelUser := Some n |>
            <| st_sttDone := false |>)) as H4 by (subst w4; rewrite (speechOf_updST _ _ _ _ H3); done).
  rewrite H4. split; [done|]. split; [done|]. split; [|split].
  - eapply keeps_trans; [exact K2|]. eapply keeps_trans; [exact K3|apply updST_keeps].
  - subst w4. rewrite updST_timers, T3. destruct K2 as (_ & _ & -> & _). rewrite Es2. unfold userWait. simpl.
    f_equal. unfold cancel. destruct (st_cancelUser s); simpl; by rewrite T2.
  - rewrite Es2. done.
Qed.

Lemma vadStopped_pending o w s secs ts :
  listening o w s ->
  exists s', pending_turn o (now w) (userWait s) (sttWaitFor secs s) (stopTimeout w)
               (Process (VADUserStoppedSpeakingFrame secs ts) w) s'.
Proof.
  intros [Hch Hu Hf Ho Ht Hlive]. unfold Process. rewrite runStart_vadStopped.
  set (wa := observe _ _).
  assert (speechOf o wa = Some s /\ stopChain wa = [Direct o] /\ userTurn wa = true /\ userSpeaking wa = false /\
          now wa = now w /\ stopFinalizes o wa = true /\
          timers wa = <[(CbWatchdog, nextTimer w) := now w + stopTimeout w]> (timers (cancel CbWatchdog (watchdog w) w)))
    as (Ho' & Hch' & Hu' & Hs' & Hn' & Hf' & Tw).
  { subst wa. simpl. unfold rearmWatchdog, cancel. simpl. destruct (watchdog w); done. }
  clearbody wa. rewrite Hch'. simpl. destruct (speechOf_obj _ _ _ Ho') as (u & a & p & Eo). rewrite Eo. simpl.
  destruct (handleVADStopped_setup o secs wa s Ho' (stopFinalizes_attached _ _ Hf'))
    as (n & s4 & w4 & -> & H4 & (K1 & K2 & K3 & K4 & K5) & T4 & F1 & F2 & F3 & F4 & F5 & F6 & F7 & F8).
  assert (forall cb k dl, timers w4 !! (cb, k) = Some dl ->
            (cb = CbWatchdog /\ dl = now w + stopTimeout w) \/
            (cb = CbUserSpeech o /\ dl = now w + userWait s /\ st_cancelUser s4 = Some k)) as L4.
  { intros cb k dl. rewrite T4. intros [[[= <- <-] <-]|[Hne Hk]]%lookup_insert_Some; [right; by rewrite Hn', F7|].
    left. assert (timers wa !! (cb, k) = Some dl /\ (cb, st_cancelUser s) <> (CbUserSpeech o, Some k)) as [Hk1 Hne1].
    { unfold cancel in Hk. destruct (st_cancelUser s) as [h|] eqn:Eh; [|split; [done|congruence]]. simpl in Hk.
      apply lookup_delete_Some in Hk as [Hn1 Hk]. split; [done|]. congruence. }
    rewrite Tw in Hk1. apply lookup_insert_Some in Hk1 as [[[= <- <-] <-]|[Hne2 Hk2]]; [done|]. exfalso.
    assert (timers w !! (cb, k) = Some dl /\ (cb, watchdog w) <> (CbWatchdog, Some k)) as [Hk3 Hne3].
    { unfold cancel in Hk2. destruct (watchdog w) as [h|]; [|split; [done|congruence]]. simpl in Hk2.
      apply lookup_delete_Some in Hk2 as [Hn1 Hk2]. split; [done|]. congruence. }
    destruct (Hlive _ _ _ Hk3) as [[-> E]|[-> E]]; congruence. }
  assert (timers w4 !! (CbUserSpeech o, n) = Some (now w + userWait s)) as Tn
    by (rewrite T4, Hn'; apply lookup_insert_eq).
  destruct (st_txFinalized s4 || (ST_sttWait s4 <=? 0)) eqn:Hskip.
  - exists (s4 <| st_sttDone := true |>).
    assert (sttWaitFor secs s = 0) as EW.
    { unfold sttWaitFor. rewrite <- F4, <- F5. destruct (st_txFinalized s4); [done|]. simpl in Hskip. lia. }
    pose proof (updST_rest o (fun s => s <| st_sttDone := true |>) w4) as R.
    assert (speechOf o (updST o (fun s => s <| st_sttDone := true |>) w4) = Some (s4 <| st_sttDone := true |>)) as E5
      by (rewrite (speechOf_updST _ _ _ _ H4); done).
    set (w5 := updST o _ w4) in *. clearbody w5. destruct R as [R1 R2 R3 R4 R5 R6].
    split; rewrite ?R1, ?R2, ?R5; simpl; try exact E5; try congruence; try (rewrite F2, F3; exact Ht).
    + unfold wait_state. rewrite F6. exists n. rewrite R4. done.
    + rewrite EW, R3, K3, Hn'. lia.
    + rewrite F6. done.
    + intros cb k dl. rewrite R4. intros Hk. destruct (L4 _ _ _ Hk); auto.
  - apply orb_false_iff in Hskip as [Hfin HW].
    assert (sttWaitFor secs s = ST_sttWait s4) as EW.
    { unfold sttWaitFor. rewrite <- F4, <- F5, Hfin. lia. }
    destruct (after _ (CbSTT o) (ST_sttWait s4) w4) as [h w5] eqn:E.
    exists (s4 <| st_cancelSTT := Some h |>).
    assert (stopAttached o w4 = true) as Ha4 by (rewrite K5; by apply stopFinalizes_attached).
    destruct (arm_spec o _ _ (fun s => s <| st_cancelSTT := Some h |>) w4 s4 _ _ H4 Ha4 E)
      as (E5 & T5 & (R1 & R2 & R3 & R4 & R5)).
    set (w6 := updST o _ w5) in *. clearbody w6.
    split; rewrite ?R1, ?R2, ?R4; simpl; try exact E5; try congruence; try (rewrite F2, F3; exact Ht).
    + unfold wait_state. rewrite F6. exists n. rewrite T5, lookup_insert_ne by done. done.
    + unfold wait_state. rewrite F8. exists h. rewrite T5, EW, K3, Hn'. split; [done|]. apply lookup_insert_eq.
    + rewrite F6. done.
    + intros cb k dl. rewrite T5. intros [[[= <- <-] <-]|[Hne Hk]]%lookup_insert_Some.
      * right. right. rewrite EW, K3, Hn'. done.
      * destruct (L4 _ _ _ Hk); auto.
Qed.

(** C10: with the speech-timeout strategy alone in the stop chain and the turn's
    text in hand, from a VAD stop on, if no frame follows: the turn is not closed
    before both waits are over (or the watchdog gives up), and once they are it is
    closed as soon as no timer is overdue.  The two waits are the user speech
    timeout, and what the stop window leaves of the STT budget unless the
    transcript was already final. *)
Theorem speech_timeout_closes_on_time o w s secs ts w' :
  listening o w s ->
  let D := Z.max (userWait s) (sttWaitFor secs s) in
  rtc quiet (Process (VADUserStoppedSpeakingFrame secs ts) w) w' ->
  (now w' < now w + Z.min D (stopTimeout w) -> userTurn w' = true) /\
  (now w + D <= now w' -> (forall k dl, timers w' !! k = Some dl -> now w' < dl) -> userTurn w' = false).
Proof.
  intros Hl D Hr. destruct (vadStopped_pending o w s secs ts Hl) as [s1 Hp].
  assert (since_stop o (now w) (userWait s) (sttWaitFor secs s) (stopTimeout w) w') as [(s2 & Hp2)|[Hu Hn]].
  { apply (rtc_invariant _ _ _ _ Hr); [intros; by eapply since_stop_quiet|]. left. by exists s1. }
  - split; [intros _; apply Hp2|]. intros HD Hdue. exfalso.
    pose proof (pt_user _ _ _ _ _ _ _ Hp2) as HU. pose proof (pt_stt _ _ _ _ _ _ _ Hp2) as HW.
    pose proof (pt_wait _ _ _ _ _ _ _ Hp2) as Hw. unfold wait_state in *.
    destruct (st_userSpeechDone s2); simpl in Hw.
    + rewrite Hw in HW. destruct HW as (n & _ & Hn). apply Hdue in Hn. lia.
    + destruct HU as (n & _ & Hn). apply Hdue in Hn. lia.
  - split; [intros; lia|done].
Qed.

End Timing.

(** The default controller, a user who started to speak and whose final transcript
    is in, the STT latency being 0.8 s. *)
Definition heard : World unit :=
  feed [STTMetadataFrame 800000000; VADUserStartedSpeakingFrame f64_zero None; TranscriptionFrame "hello" false]
    default1.
Definition heardStop : SpeechTimeoutStop :=
  mkST 600000000 true 800000000 0 false true true false false false false None None.

Lemma heard_listening : listening 2%nat heard heardStop.
Proof.
  split; [vm_compute; auto..|].
  intros cb n dl Hl. left.
  assert (map_to_list (timers heard) = [((CbWatchdog, 2%nat), 5000000000)] /\ watchdog heard = Some 2%nat) as [E1 E2]
    by (split; vm_compute; reflexivity).
  apply elem_of_map_to_list in Hl. rewrite E1 in Hl. apply list_elem_of_singleton in Hl as [= -> -> _].
  split; [reflexivity|exact E2].
Qed.

Lemma speech_timeout_closes_on_time_witness :
  userTurn ((Process (VADUserStoppedSpeakingFrame (f64_lit 2 10) None) heard) <| now := 599999999 |>) = true.
Proof.
  apply (speech_timeout_closes_on_time 2%nat heard heardStop (f64_lit 2 10) None).
  - apply heard_listening.
  - apply rtc_once, q_tick. vm_compute. discriminate.
  - vm_compute. reflexivity.
Defined.

End TurnTiming.
