(* ===== verification/IdleMute.v ===== *)
(** * The idle watch and the mute strategies

    [src/processor/turns/idle.go]: the timer that fires when the conversation stays
    quiet after the bot; [src/processor/turns/mute.go]: the strategies that suppress
    user input, and the user aggregator's use of them
    ([suppressed] of [src/processor/aggregators/aggregators.go]).

    Each is specified by what it says of the frames seen so far, newest first. *)

From S2P Require Import Prelude Frames.

Module Idle.
Local Open Scope Z_scope.

(** ** The controller *)

(** [timerCancel] is the live timer: its deadline.  [hasCallback] is whether
    [cfg.Callback] is set. *)
Record UserIdleController := mkIdle {
  hasCallback : bool;
  timeout : Z;
  waitingForUser : bool;
  userTurnInProgress : bool;
  functionCalls : Z;
  timerCancel : option Z;
  now : Z;
  fired : list Z            (** the times the callback was run *)
}.
#[export] Instance eta_Idle : Eta UserIdleController := fun c =>
  mkIdle (hasCallback c) (timeout c) (waitingForUser c) (userTurnInProgress c) (functionCalls c)
    (timerCancel c) (now c) (fired c).

Definition NewUserIdleController (d : Z) (callback : bool) (t : Z) : UserIdleController :=
  mkIdle callback d false false 0 None t [].

Definition cancelTimer (c : UserIdleController) : UserIdleController := c <| timerCancel := None |>.

Definition startTimer (c : UserIdleController) : UserIdleController :=
  if (timeout c <=? 0) || negb (hasCallback c) then c
  else (cancelTimer c) <| timerCancel := Some (now c + timeout c) |>.

Definition Process (f : Payload) (c : UserIdleController) : UserIdleController :=
  match f with
  | UserIdleTimeoutUpdateFrame d =>
    let c := c <| timeout := d |> in
    if timeout c <=? 0 then cancelTimer c
    else if waitingForUser c then startTimer c else c
  | BotStoppedSpeakingFrame =>
    if negb (userTurnInProgress c) && (functionCalls c =? 0)
    then startTimer (c <| waitingForUser := true |>) else c
  | BotStartedSpeakingFrame => cancelTimer (c <| waitingForUser := false |>)
  | UserStartedSpeakingFrame =>
    cancelTimer (c <| waitingForUser := false |> <| userTurnInProgress := true |>)
  | UserStoppedSpeakingFrame => c <| userTurnInProgress := false |>
  | FunctionCallsStartedFrame calls =>
    cancelTimer (c <| waitingForUser := false |>
                   <| functionCalls ::= fun n => n + Z.of_nat (List.length calls) |>)
  | FunctionCallResultFrame _ | FunctionCallCancelFrame _ =>
    if functionCalls c >? 0 then c <| functionCalls ::= fun n => n - 1 |> else c
  | _ => c
  end.

(** The timer's callback past its own check: the handler runs off the lock. *)
Definition fire (c : UserIdleController) : UserIdleController :=
  c <| timerCancel := None |> <| fired ::= fun l => l ++ [now c] |>.

Definition Stop (c : UserIdleController) : UserIdleController := cancelTimer c.

(** ** What the frames so far say *)

(** Whether a user turn is in progress, and how many tool calls are. *)
Fixpoint turnOpen (hist : list Payload) : bool :=
  match hist with
  | [] => false
  | UserStartedSpeakingFrame :: _ => true
  | UserStoppedSpeakingFrame :: _ => false
  | _ :: hist => turnOpen hist
  end.

Fixpoint callsOpen (hist : list Payload) : Z :=
  match hist with
  | [] => 0
  | FunctionCallsStartedFrame calls :: hist => callsOpen hist + Z.of_nat (List.length calls)
  | FunctionCallResultFrame _ :: hist | FunctionCallCancelFrame _ :: hist => Z.max 0 (callsOpen hist - 1)
  | _ :: hist => callsOpen hist
  end.

(** A frame that says the conversation goes on. *)
Definition activity (f : Payload) : bool :=
  match f with
  | BotStartedSpeakingFrame | UserStartedSpeakingFrame | FunctionCallsStartedFrame _ => true
  | _ => false
  end.

(** The bot fell silent with nothing pending, and nothing has happened since. *)
Definition waiting (hist : list Payload) : Prop :=
  exists since before, hist = since ++ BotStoppedSpeakingFrame :: before /\
    Forall (fun f => activity f = false) since /\ turnOpen before = false /\ callsOpen before = 0.

(** The timeout in force. *)
Fixpoint timeoutOf (d : Z) (hist : list Payload) : Z :=
  match hist with
  | [] => d
  | UserIdleTimeoutUpdateFrame d' :: _ => d'
  | _ :: hist => timeoutOf d hist
  end.

(** ** Steps *)

(** The state and the frames it has seen. *)
Inductive step : list Payload * UserIdleController -> list Payload * UserIdleController -> Prop :=
| i_frame f h c : step (h, c) (f :: h, Process f c)
| i_fire h c dl : timerCancel c = Some dl -> dl <= now c -> step (h, c) (h, fire c)
| i_tick h c t : now c <= t -> step (h, c) (h, c <| now := t |>)
| i_stop h c : step (h, c) (h, Stop c).

Record inv (d : Z) (s : list Payload * UserIdleController) : Prop := {
  i_turn : userTurnInProgress s.2 = turnOpen s.1;
  i_calls : functionCalls s.2 = callsOpen s.1;
  i_timeout : timeout s.2 = timeoutOf d s.1;
  i_waiting : waitingForUser s.2 = true -> waiting s.1;
  i_timer dl : timerCancel s.2 = Some dl ->
    waitingForUser s.2 = true /\ 0 < timeout s.2 /\ dl <= now s.2 + timeout s.2 /\ hasCallback s.2 = true
}.

Lemma callsOpen_nonneg h : 0 <= callsOpen h.
Proof. induction h as [|f h IH]; simpl; [lia|]. destruct f; simpl; lia. Qed.

Lemma waiting_cons f h : activity f = false -> waiting h -> waiting (f :: h).
Proof. intros Hf (since & before & -> & Hs & Ho & Hc). exists (f :: since), before. by split_and!; try constructor. Qed.

Lemma waiting_now h : turnOpen h = false -> callsOpen h = 0 -> waiting (BotStoppedSpeakingFrame :: h).
Proof. intros Ho Hc. exists [], h. by split_and!. Qed.

Lemma startTimer_keeps c :
  userTurnInProgress (startTimer c) = userTurnInProgress c /\ functionCalls (startTimer c) = functionCalls c /\
  timeout (startTimer c) = timeout c /\ waitingForUser (startTimer c) = waitingForUser c /\
  now (startTimer c) = now c /\ hasCallback (startTimer c) = hasCallback c.
Proof. unfold startTimer. case_match; done. Qed.

Lemma startTimer_timer c dl :
  timerCancel (startTimer c) = Some dl ->
  timerCancel c = Some dl \/ (0 < timeout c /\ dl = now c + timeout c /\ hasCallback c = true).
Proof.
  unfold startTimer. destruct (Z.leb_spec (timeout c) 0), (hasCallback c) eqn:E; simpl; auto.
  intros [= <-]. by right.
Qed.

(** Starting the timer while waiting. *)
Lemma idle_inv_startTimer d h c :
  userTurnInProgress c = turnOpen h -> functionCalls c = callsOpen h -> timeout c = timeoutOf d h ->
  waitingForUser c = true -> waiting h ->
  (forall dl, timerCancel c = Some dl -> 0 < timeout c /\ hasCallback c = true) ->
  inv d (h, startTimer c).
Proof.
  intros H1 H2 H3 H4 H5 H6. destruct (startTimer_keeps c) as (K1 & K2 & K3 & K4 & K5 & K6).
  split; cbn [fst snd]; rewrite ?K1, ?K2, ?K3, ?K4, ?K5, ?K6; try done.
  intros dl. unfold startTimer. destruct (Z.leb_spec (timeout c) 0), (hasCallback c) eqn:Hh; simpl.
  1,2,4: intros E; destruct (H6 _ E); (lia || congruence).
  intros [= <-]. split_and!; try done; lia.
Qed.

Lemma idle_inv_quiet d f h c :
  activity f = false -> turnOpen (f :: h) = turnOpen h -> callsOpen (f :: h) = callsOpen h ->
  timeoutOf d (f :: h) = timeoutOf d h -> inv d (h, c) -> inv d (f :: h, c).
Proof.
  intros Ha E1 E2 E3 [H1 H2 H3 H4 H5]. split; cbn [fst snd] in *; rewrite ?E1, ?E2, ?E3; try done.
  intros Hw. by apply waiting_cons; auto.
Qed.

Lemma idle_inv_Process d f h c : inv d (h, c) -> inv d (f :: h, Process f c).
Proof.
  intros Hi. pose proof (callsOpen_nonneg h) as H0.
  destruct f; try (by apply idle_inv_quiet); destruct Hi as [Ht Hc Hto Hw Htm]; cbn [fst snd] in *; cbn [Process];
    try (by split; cbn; (done || lia || (intros; apply waiting_cons; auto))).
  - (* the bot stopped *)
    destruct (userTurnInProgress c) eqn:Eu, (Z.eqb_spec (functionCalls c) 0) as [E0|E0]; cbn [negb andb];
      try (by apply idle_inv_quiet; [..|split; cbn; congruence || auto]).
    apply idle_inv_startTimer; cbn; try congruence; [apply waiting_now; congruence|].
    intros dl E. by destruct (Htm dl E) as (_ & ? & _ & ?).
  - (* a new timeout *)
    cbn. destruct (Z.leb_spec timeout0 0); [by split; cbn; auto using waiting_cons|].
    destruct (waitingForUser c) eqn:Ew.
    + apply idle_inv_startTimer; cbn; auto using waiting_cons. intros dl E. by destruct (Htm dl E) as (_ & _ & _ & ?).
    + split; cbn; try done; try congruence. intros dl E. by destruct (Htm dl E).
  - destruct (Z.gtb_spec (functionCalls c) 0); split; cbn; try done; try lia; auto using waiting_cons.
  - destruct (Z.gtb_spec (functionCalls c) 0); split; cbn; try done; try lia; auto using waiting_cons.
Qed.

Lemma idle_inv_step d s s' : step s s' -> inv d s -> inv d s'.
Proof.
  intros Hs Hi. destruct Hs as [f h c|h c dl E Hdue|h c t Ht|h c]; [by apply idle_inv_Process|..];
    destruct Hi as [H1 H2 H3 H4 H5]; split; simpl in *; try done.
  intros dl E. destruct (H5 dl E) as (? & ? & ? & ?). split_and!; try done; lia.
Qed.

(** Whenever the idle handler can run, the bot fell silent with no user turn
    and no tool call in progress, nothing has happened since, and idle detection is
    on; the timer is due within the timeout in force, and running the handler uses it
    up. *)
Theorem idle_fires_only_while_waiting d callback t h c dl :
  rtc step ([], NewUserIdleController d callback t) (h, c) -> timerCancel c = Some dl ->
  waiting h /\ turnOpen h = false /\ callsOpen h = 0 /\ callback = true /\
  0 < timeoutOf d h /\ dl <= now c + timeoutOf d h /\ timerCancel (fire c) = None.
Proof.
  intros Hr E.
  assert (inv d (h, c) /\ hasCallback c = callback) as [[H1 H2 H3 H4 H5] Hcb].
  { split.
    - apply (rtc_invariant _ (inv d) _ _ Hr); [apply idle_inv_step|]. by split.
    - change ((fun s => hasCallback s.2 = callback) (h, c)).
      apply (rtc_invariant _ (fun s => hasCallback s.2 = callback) _ _ Hr); [|done].
      intros a b [f h1 c1| | |] Hb; simpl in *; try done. rewrite <- Hb. unfold Process, startTimer. case_all. }
  simpl in *. destruct (H5 dl E) as (Hw & Ht & Hdl & Hb). specialize (H4 Hw). rewrite <- H3.
  assert (turnOpen h = false /\ callsOpen h = 0) as [Ho Hc].
  { destruct H4 as (since & before & -> & Hs & Ho & Hc). clear -Hs Ho Hc.
    induction since as [|f since IH]; simpl; [done|]. inversion Hs as [|? ? Hf Hs']; subst.
    destruct (IH Hs') as [I1 I2]. destruct f; simpl in *; try done; (split; [done|lia]). }
  by split_and!; try congruence.
Qed.

Lemma idle_fires_only_while_waiting_witness : waiting [BotStoppedSpeakingFrame; BotStartedSpeakingFrame].
Proof.
  apply (idle_fires_only_while_waiting 10 true 0 _
           (Process BotStoppedSpeakingFrame (Process BotStartedSpeakingFrame (NewUserIdleController 10 true 0))) 10).
  - eapply rtc_l; [apply i_frame|]. eapply rtc_l; [apply i_frame|]. apply rtc_refl.
  - reflexivity.
Defined.

End Idle.

Module Mute.

(** ** The strategies *)

Inductive MuteStrategy :=
| AlwaysUserMute (botSpeaking : bool)
| FirstSpeechUserMute (botSpeaking firstHandled : bool)
| MuteUntilFirstBotComplete (botStarted firstHandled : bool)
| FunctionCallUserMute (active : gset string).

Inductive kind := KAlways | KFirstSpeech | KUntilFirstComplete | KFunctionCall.

Definition New (k : kind) : MuteStrategy :=
  match k with
  | KAlways => AlwaysUserMute false
  | KFirstSpeech => FirstSpeechUserMute false false
  | KUntilFirstComplete => MuteUntilFirstBotComplete false false
  | KFunctionCall => FunctionCallUserMute ∅
  end.

(** [ShouldMute]: the answer and the strategy's state after it. *)
Definition ShouldMute (f : Payload) (m : MuteStrategy) : bool * MuteStrategy :=
  match m with
  | AlwaysUserMute bot =>
    let bot := match f with BotStartedSpeakingFrame => true | BotStoppedSpeakingFrame => false | _ => bot end in
    (bot, AlwaysUserMute bot)
  | FirstSpeechUserMute bot handled =>
    let bot' := match f with BotStartedSpeakingFrame => true | BotStoppedSpeakingFrame => false | _ => bot end in
    let handled := match f with BotStoppedSpeakingFrame => true | _ => handled end in
    (bot' && negb handled, FirstSpeechUserMute bot' handled)
  | MuteUntilFirstBotComplete started handled =>
    let started' := match f with BotStartedSpeakingFrame => true | _ => started end in
    let handled := match f with
                   | BotStoppedSpeakingFrame => true
                   | ErrorFrame _ _ _ => if started || handled then handled else true
                   | _ => handled end in
    (negb handled, MuteUntilFirstBotComplete started' handled)
  | FunctionCallUserMute active =>
    let active := match f with
                  | FunctionCallsStartedFrame calls => active ∪ list_to_set calls
                  | FunctionCallResultFrame i | FunctionCallCancelFrame i => active ∖ {[i]}
                  | _ => active end in
    (negb (bool_decide (active = ∅)), FunctionCallUserMute active)
  end.

(** ** The user aggregator's use of them *)

(** [announced] are the UserMuteStarted ([true]) and UserMuteStopped frames. *)
Record UserMute := mkMute { muted : bool; muteStrategies : list MuteStrategy; announced : list bool }.

Definition isUserInput (f : Payload) : bool :=
  match f with
  | InterruptionFrame | VADUserStartedSpeakingFrame _ _ | VADUserStoppedSpeakingFrame _ _
  | ProposedUserStartedSpeakingFrame | ProposedUserStoppedSpeakingFrame
  | UserStartedSpeakingFrame | UserStoppedSpeakingFrame | InputAudioRawFrame _ _ _
  | InterimTranscriptionFrame _ | TranscriptionFrame _ _ => true
  | _ => false
  end.

Definition lifecycle (f : Payload) : bool :=
  match f with StartFrame | EndFrame _ | CancelFrame _ => true | _ => false end.

Definition suppressed (f : Payload) (u : UserMute) : bool * UserMute :=
  if lifecycle f then (false, u)
  else
    let drop := muted u && isUserInput f in
    let answers := List.map (ShouldMute f) (muteStrategies u) in
    let m := List.existsb fst answers in
    (drop, mkMute m (List.map snd answers)
             (if eqb m (muted u) then announced u else announced u ++ [m])).

(** ** What the frames so far say, newest first *)

Fixpoint botTalking (hist : list Payload) : bool :=
  match hist with
  | [] => false
  | BotStartedSpeakingFrame :: _ => true
  | BotStoppedSpeakingFrame :: _ => false
  | _ :: hist => botTalking hist
  end.

Definition botSpoke (hist : list Payload) : bool :=
  List.existsb (fun f => match f with BotStoppedSpeakingFrame => true | _ => false end) hist.
Definition botBegan (hist : list Payload) : bool :=
  List.existsb (fun f => match f with BotStartedSpeakingFrame => true | _ => false end) hist.

(** An error before the bot had begun to speak. *)
Fixpoint failedOpening (hist : list Payload) : bool :=
  match hist with
  | [] => false
  | ErrorFrame _ _ _ :: hist => negb (botBegan hist) || failedOpening hist
  | _ :: hist => failedOpening hist
  end.

(** The last the frames say of a call is that it started. *)
Fixpoint inFlight (hist : list Payload) (i : string) : Prop :=
  match hist with
  | [] => False
  | FunctionCallsStartedFrame calls :: hist => i ∈ calls \/ inFlight hist i
  | FunctionCallResultFrame j :: hist | FunctionCallCancelFrame j :: hist => i <> j /\ inFlight hist i
  | _ :: hist => inFlight hist i
  end.

(** Whether a strategy wants the user muted. *)
Definition wants (k : kind) (hist : list Payload) : Prop :=
  match k with
  | KAlways => botTalking hist = true
  | KFirstSpeech => botTalking hist = true /\ botSpoke hist = false
  | KUntilFirstComplete => botSpoke hist = false /\ failedOpening hist = false
  | KFunctionCall => exists i, inFlight hist i
  end.

(** The state a strategy has after the frames. *)
Definition holds (k : kind) (hist : list Payload) (m : MuteStrategy) : Prop :=
  match k, m with
  | KAlways, AlwaysUserMute b => b = botTalking hist
  | KFirstSpeech, FirstSpeechUserMute b h => b = botTalking hist /\ h = botSpoke hist
  | KUntilFirstComplete, MuteUntilFirstBotComplete s h =>
    s = botBegan hist /\ h = botSpoke hist || failedOpening hist
  | KFunctionCall, FunctionCallUserMute a => forall i, i ∈ a <-> inFlight hist i
  | _, _ => False
  end.

Lemma holds_New k : holds k [] (New k).
Proof. destruct k; simpl; set_solver. Qed.

Lemma holds_ShouldMute k hist m f :
  holds k hist m -> holds k (f :: hist) (ShouldMute f m).2 /\
                    ((ShouldMute f m).1 = true <-> wants k (f :: hist)).
Proof.
  assert (forall (a : gset string), negb (bool_decide (a = ∅)) = true <-> exists i, i ∈ a) as Hne.
  { intros a. rewrite negb_true_iff, bool_decide_eq_false. split; [apply set_choose_L|set_solver]. }
  destruct k, m; simpl; try done.
  - intros ->. by destruct f.
  - intros [-> ->]. destruct f; simpl; rewrite ?andb_true_iff, ?negb_true_iff; intuition.
  - intros [-> ->].
    destruct f; simpl; rewrite ?negb_true_iff, ?orb_false_iff; try (split_and!; done);
      destruct (botSpoke hist), (failedOpening hist), (botBegan hist); simpl; intuition congruence.
  - intros Ha. split; [destruct f; simpl; set_solver|]. rewrite Hne.
    f_equiv. intros i. destruct f; simpl; set_solver.
Qed.

(** Announcements alternate, beginning with a mute, and end at [b]. *)
Fixpoint alternates (from : bool) (l : list bool) (b : bool) : Prop :=
  match l with
  | [] => from = b
  | x :: l => x = negb from /\ alternates x l b
  end.

Lemma announcements_snoc from l b x : alternates from l b -> x = negb b -> alternates from (l ++ [x]) x.
Proof. revert from. induction l as [|y l IH]; simpl; intros from; [by intros <- ->|]. intros [-> ?] ?. auto. Qed.

Definition run (fs : list Payload) (u : UserMute) : UserMute := foldl (fun u f => (suppressed f u).2) u fs.
Definition start (ks : list kind) : UserMute := mkMute false (List.map New ks) [].

(** The frames the strategies are shown, newest first. *)
Definition shown (fs : list Payload) : list Payload := List.filter (fun f => negb (lifecycle f)) (rev fs).

Record inv (ks : list kind) (hist : list Payload) (u : UserMute) : Prop := {
  m_each : Forall2 (fun k m => holds k hist m) ks (muteStrategies u);
  m_muted : muted u = true <-> (hist <> [] /\ Exists (fun k => wants k hist) ks);
  m_alternates : alternates false (announced u) (muted u)
}.

Lemma answers_spec ks hist ms f :
  Forall2 (fun k m => holds k hist m) ks ms ->
  Forall2 (fun k m => holds k (f :: hist) m) ks (List.map snd (List.map (ShouldMute f) ms)) /\
  (List.existsb fst (List.map (ShouldMute f) ms) = true <-> Exists (fun k => wants k (f :: hist)) ks).
Proof.
  induction 1 as [|k m ks ms Hk _ [IH1 IH2]]; simpl; [split; [done|]; split; [done|by intros ?%Exists_nil]|].
  destruct (holds_ShouldMute k hist m f Hk) as [H1 H2]. split; [by constructor|].
  by rewrite orb_true_iff, Exists_cons, H2, IH2.
Qed.

Lemma mute_inv_suppressed ks hist u f :
  lifecycle f = false -> inv ks hist u -> inv ks (f :: hist) (suppressed f u).2.
Proof.
  intros Hf [H1 H2 H3]. unfold suppressed. rewrite Hf. simpl.
  destruct (answers_spec ks hist _ f H1) as [A1 A2]. set (b := List.existsb _ _) in *. clearbody b.
  split; simpl; [done| |].
  - rewrite A2. split; [by split|by intros [_ ?]].
  - destruct b, (muted u); simpl; try done; by eapply announcements_snoc.
Qed.

Lemma mute_inv_run ks fs : inv ks (shown fs) (run fs (start ks)).
Proof.
  induction fs as [|f fs IH] using rev_ind.
  - split; simpl; [|split; [done|by intros []]|done].
    induction ks; simpl; constructor; [apply holds_New|done].
  - unfold run. rewrite foldl_snoc. fold (run fs (start ks)). set (u := run fs (start ks)) in *. clearbody u.
    unfold shown in *. rewrite rev_unit. cbn [List.filter]. destruct (lifecycle f) eqn:Hf; cbn [negb].
    + unfold suppressed. rewrite Hf. exact IH.
    + by apply mute_inv_suppressed.
Qed.

(** The user aggregator drops a frame exactly when it carries user input and
    some strategy wanted silence as of the frames before it (each by what it
    promises), lifecycle frames counting for nothing; the mute frames it announces
    alternate and leave the last one true to the state. *)
Theorem mute_drops_exactly ks fs f :
  ((suppressed f (run fs (start ks))).1 = true <->
     isUserInput f = true /\ shown fs <> [] /\ Exists (fun k => wants k (shown fs)) ks) /\
  alternates false (announced (run fs (start ks))) (muted (run fs (start ks))).
Proof.
  destruct (mute_inv_run ks fs) as [_ H2 H3]. split; [|done]. unfold suppressed.
  destruct (lifecycle f) eqn:Hf; simpl.
  - split; [done|]. intros [E _]. by destruct f.
  - rewrite andb_true_iff, H2. tauto.
Qed.

End Mute.
