(* ===== verification/UserAgg.v ===== *)
(** * The user's half of the aggregator pair

    [UserAggregator] of [src/processor/aggregators/aggregators.go]: what the user says is
    gathered, and becomes a message of the conversation when the turn controller it
    runs ([TurnStrategies.v]) says so.

    A frame is handled in three steps, on the goroutine of its category, so that a system
    frame and another may be handled side by side: it is folded into the aggregation and
    forwarded, handed to the controller, handed to the idle watch.  Between the steps a
    strategy's timer may act, and anyone may write to the conversation.  Within a step the
    writes to the conversation are taken together, which none of the steps can tell: the
    aggregation is only touched under the controller's mutex, but for the report at the
    session's end, beside which nothing is folded in.  The controller's hooks run under its mutex while it decides and read
    nothing of it, so they are a function of what it reports, in order.  The detector of
    [WithVAD] is left out ([VadController.v] has it), the idle callback is
    [IdleMute.v]'s, and pushes are taken to succeed.

    [out] is what the aggregator did, with the transcripts it took in ([Heard]), the
    requests to drop them ([Dropped]), the frames that edit the conversation ([Edited]) and
    what others wrote to it ([Elsewhere]) among it. *)

From S2P Require Import Prelude Float64 Frames Text Strings TextAgg LlmContext Aggregators TurnStrategies UserTurn IdleMute.

Module UserAgg.
Import Turns.
#[local] Existing Instance Idle.eta_Idle.
Local Open Scope Z_scope.

(** ** Frames *)

(** What a service may recommend on its metadata frame. *)
Inductive recommendation := NothingRecommended | NotStrategies | Recommended (start : list addr) (stop : list StopRef).

Inductive UFrame :=
| Plain (f : Payload)
| Transcription (text : string) (finalized : bool) (userID : gostring) (includesInterFrameSpaces : bool)
| Translation
| LLMRun
| MessagesAppend (ms : list LlmContext.Message) (runLLM : bool)
| MessagesUpdate (ms : list LlmContext.Message) (runLLM : bool)
| MessagesTransform (f : option (list LlmContext.Message -> list LlmContext.Message)) (runLLM : bool)
| SetToolsF (ts : list LlmContext.Tool)
| SetToolChoiceF (t : gostring)
| ServiceMetadata (r : recommendation).

(** What the controllers make of a frame. *)
Definition payloadOf (f : UFrame) : Payload :=
  match f with
  | Plain f => f
  | Transcription t fin _ _ => TranscriptionFrame t fin
  | Translation => OtherFrame "TranslationFrame" DataFrame false
  | LLMRun => OtherFrame "LLMRunFrame" DataFrame false
  | MessagesAppend _ _ => OtherFrame "LLMMessagesAppendFrame" DataFrame false
  | MessagesUpdate _ _ => OtherFrame "LLMMessagesUpdateFrame" DataFrame false
  | MessagesTransform _ _ => OtherFrame "LLMMessagesTransformFrame" DataFrame false
  | SetToolsF _ => OtherFrame "LLMSetToolsFrame" DataFrame false
  | SetToolChoiceF _ => OtherFrame "LLMSetToolChoiceFrame" DataFrame false
  | ServiceMetadata _ => OtherFrame "ServiceMetadataFrame" SystemFrame false
  end.

(** ** The aggregator *)

Inductive output :=
| OPush (f : UFrame) (dir : Direction)
| OContext                                             (** an [LLMContextFrame], downstream *)
| OBroadcast (f : Payload)
| OInterruption
| OQueue (f : Payload) (dir : Direction)               (** queued back into the processor *)
| OMute (muted : bool)                                 (** the event and its broadcast *)
| OTurnStarted (s : addr)
| OInferenceTriggered (s : addr)
| OStopTimeout
| OMessageAdded (content timestamp userID : gostring)
| OTurnStopped (s : option addr) (content timestamp userID : gostring)
| Heard (p : TextAgg.Part)
| Dropped
| Edited (f : UFrame)
| Elsewhere (g : LlmContext.LLMContext -> LlmContext.LLMContext).

Inductive stage := Ready | Folded (f : UFrame) | Decided (f : UFrame).
(** Whether the input goroutine handles a frame, or the one for what keeps its order. *)
Definition isSystem (f : UFrame) : bool := bool_decide (category (payloadOf f) = SystemFrame).

Record UserAggregator {A : Type} := mkUser {
  turn : World A;
  idle : Idle.UserIdleController;
  mute : Mute.UserMute;
  context : LlmContext.LLMContext;
  toolChangeMessages : bool;
  pinnedStrategies : bool;
  aggregation : list TextAgg.Part;
  turnStartedAt : gostring;
  wholeTurn : gostring;
  userID : gostring;
  at_ : bool -> stage;                      (** on either goroutine *)
  out : list output
}.
Arguments UserAggregator : clear implicits.
#[export] Instance eta_User {A} : Eta (UserAggregator A) := fun u =>
  mkUser A (turn u) (idle u) (mute u) (context u) (toolChangeMessages u) (pinnedStrategies u) (aggregation u)
    (turnStartedAt u) (wholeTurn u) (userID u) (at_ u) (out u).

Section Aggregator.
Context {A : Type} `{TurnAnalyzer A} `{UnicodeTables}.
Implicit Types (u : UserAggregator A).

Definition say (l : list output) u : UserAggregator A := u <| out ::= fun o => o ++ l |>.

(** ** What has been said becomes a message *)

Definition maybeRun u : gostring * UserAggregator A :=
  let parts := aggregation u in
  let u := u <| aggregation := [] |> in
  let said := TextAgg.Concatenate parts in
  if bool_decide (said = []) then ([], u)
  else (said, say [OContext; OMessageAdded said (turnStartedAt u) (userID u)]
                (u <| context ::= fun c => LlmContext.AddUserMessage c said |>)).

Definition joinSegment (whole segment : gostring) : gostring :=
  if bool_decide (segment = []) then whole
  else if bool_decide (whole = []) then segment
  else TrimSpace (whole ++ [32] ++ segment).
Definition rememberSegment (segment : gostring) u : UserAggregator A := u <| wholeTurn ::= fun w => joinSegment w segment |>.

Definition reportTurnStopped (s : option addr) (onSessionEnd : bool) u : UserAggregator A :=
  let '(segment, u) := maybeRun u in
  let u := rememberSegment segment u in
  let content := wholeTurn u in
  let startedAt := turnStartedAt u in
  let u := u <| wholeTurn := [] |> in
  if onSessionEnd && bool_decide (content = []) then u
  else say [OTurnStopped s content startedAt (userID u)] (u <| turnStartedAt := [] |>).

(** ** The hooks; [stamp] is [frames.NowTimestamp()] *)

Definition onTurnStarted (stamp : gostring) (s : addr) (params : UserTurnStartedParams) u : UserAggregator A :=
  let u := u <| turnStartedAt := stamp |> <| wholeTurn := [] |> in
  let u := say (if sp_EnableUserSpeakingFrames params then [OBroadcast UserStartedSpeakingFrame] else []) u in
  let u := u <| idle ::= Idle.Process UserStartedSpeakingFrame |> in
  let u := say (if sp_EnableInterruptions params then [OInterruption] else []) u in
  say [OTurnStarted s] u.

Definition onInferenceTriggered (s : addr) u : UserAggregator A :=
  let '(segment, u) := maybeRun u in
  say [OInferenceTriggered s] (rememberSegment segment u).

Definition onResetAggregation u : UserAggregator A := say [Dropped] (u <| aggregation := [] |>).
Definition onStopTimeout u : UserAggregator A := say [OStopTimeout] u.

Definition onTurnStopped (s : option addr) (params : UserTurnStoppedParams) u : UserAggregator A :=
  let u := say (if pp_EnableUserSpeakingFrames params then [OBroadcast UserStoppedSpeakingFrame] else []) u in
  let u := u <| idle ::= Idle.Process UserStoppedSpeakingFrame |> in
  reportTurnStopped s false u.

Definition queuedBroadcast (f : Payload) u : UserAggregator A := say [OQueue f Downstream; OPush (Plain f) Upstream] u.

Definition hook (stamp : gostring) u (e : event) : UserAggregator A :=
  match e with
  | EStarted s params => onTurnStarted stamp s params u
  | EStopped s params => onTurnStopped s params u
  | EInference s => onInferenceTriggered s u
  | EStopTimeout => onStopTimeout u
  | EReset _ => onResetAggregation u
  | EPush f dir => say [OQueue f dir] u
  | EBroadcast f => queuedBroadcast f u
  | EFrame _ | EWakeDetected _ | EWakeTimeout => u
  end.

(** The controller moved on to [w']: its new reports go through the hooks. *)
Definition decided (stamp : gostring) (w' : World A) u : UserAggregator A :=
  fold_left (hook stamp) (List.skipn (List.length (log (turn u))) (log w')) (u <| turn := w' |>).

(** ** Frames *)

Definition handleTranscription (stamp : gostring) (t user : gostring) (includes : bool) u : UserAggregator A :=
  if bool_decide (TrimSpace t = []) then u
  else
    let u := if bool_decide (turnStartedAt u = []) then u <| turnStartedAt := stamp |> else u in
    let u := u <| userID := user |> in
    let p := TextAgg.mkPart t includes in
    say [Heard p] (u <| aggregation ::= fun ps => ps ++ [p] |>).

Definition runIf (runLLM : bool) u : UserAggregator A := if runLLM then say [OContext] u else u.
Definition onContext (f : LlmContext.LLMContext -> LlmContext.LLMContext) u : UserAggregator A := u <| context ::= f |>.

Definition handleContextUpdate (f : UFrame) (dir : Direction) u : UserAggregator A :=
  match f with
  | MessagesAppend ms run => runIf run (onContext (fun c => fold_left LlmContext.AddMessage ms c) u)
  | MessagesUpdate ms run => runIf run (onContext (fun c => LlmContext.SetMessages c ms) u)
  | MessagesTransform t run => runIf run (onContext (fun c => LlmContext.TransformMessages c t) u)
  | SetToolsF ts =>
    say [OPush f dir]
      (onContext (fun c => LlmContext.SetTools (ToolChange.maybeAddToolChangeMessages (toolChangeMessages u) c ts) ts) u)
  | SetToolChoiceF t => onContext (fun c => LlmContext.SetToolChoice c t) u
  | _ => u
  end.

Definition handleServiceUserTurnStrategies (stamp : gostring) (r : recommendation) u : UserAggregator A :=
  match r with
  | NothingRecommended | NotStrategies => u
  | Recommended start stop => if pinnedStrategies u then u else decided stamp (UpdateStrategies start stop (turn u)).2 u
  end.

Definition stopControllers u : UserAggregator A := u <| turn ::= ctl_Stop |> <| idle ::= Idle.Stop |>.

Definition handleFrame (stamp : gostring) (f : UFrame) (dir : Direction) u : UserAggregator A :=
  match f with
  | Plain (EndFrame _) => stopControllers (reportTurnStopped None true (say [OPush f dir] u))
  | Plain (CancelFrame _) => say [OPush f dir] (stopControllers (reportTurnStopped None true u))
  | Plain (InterimTranscriptionFrame _) | Translation => u
  | Plain (TranscriptionFrame t _) => handleTranscription stamp (bytes_of t) [] false u
  | Transcription t _ user includes => handleTranscription stamp (bytes_of t) user includes u
  | LLMRun => say [OContext] u
  | MessagesAppend _ _ | MessagesUpdate _ _ | MessagesTransform _ _ | SetToolsF _ | SetToolChoiceF _ => handleContextUpdate f dir (say [Edited f] u)
  | Plain ProposedUserStartedSpeakingFrame => if ResolvesProposedTurnStartFrames (turn u) then u else say [OPush f dir] u
  | Plain ProposedUserStoppedSpeakingFrame => if ResolvesProposedTurnStopFrames (turn u) then u else say [OPush f dir] u
  | ServiceMetadata r => say [OPush f dir] (handleServiceUserTurnStrategies stamp r u)
  | Plain _ => say [OPush f dir] u
  end.

Definition suppressed (f : Payload) u : bool * UserAggregator A :=
  let '(drop, m) := Mute.suppressed f (mute u) in
  (drop, say (List.map OMute (List.skipn (List.length (Mute.announced (mute u))) (Mute.announced m))) (u <| mute := m |>)).

(** The three steps of [ProcessFrame]. *)
Definition moveTo (system : bool) (x : stage) u : UserAggregator A := u <| at_ ::= fun g b => if Bool.eqb b system then x else g b |>.
Definition fold (stamp : gostring) (f : UFrame) (dir : Direction) u : UserAggregator A :=
  let '(drop, u) := suppressed (payloadOf f) u in
  if drop then u else moveTo (isSystem f) (Folded f) (handleFrame stamp f dir u).
Definition decide (stamp : gostring) (f : UFrame) u : UserAggregator A :=
  moveTo (isSystem f) (Decided f) (decided stamp (Process (payloadOf f) (turn u)) u).
Definition watch (f : UFrame) u : UserAggregator A := moveTo (isSystem f) Ready (u <| idle ::= Idle.Process (payloadOf f) |>).

Definition ProcessFrame (stamp : gostring) (f : UFrame) (dir : Direction) u : UserAggregator A :=
  let '(drop, u) := suppressed (payloadOf f) u in
  if drop then u else watch f (decide stamp f (handleFrame stamp f dir u)).

Definition cleanup u : UserAggregator A := u <| turn ::= ctl_Cleanup |> <| idle ::= Idle.Stop |>.

(** [newUser], over a store in which the strategies given were built, and [Setup]. *)
Definition newUser (c : LlmContext.LLMContext) (start : list addr) (stop : list StopRef) (stopTimeout idleTimeout : Z)
    (mutes : list Mute.kind) (toolChange : bool) (w : World A) : UserAggregator A :=
  mkUser A (NewUserTurnController start stop stopTimeout w) (Idle.NewUserIdleController idleTimeout true (now w))
    (Mute.start mutes) c toolChange (negb (bool_decide (start = []) && bool_decide (stop = []))) [] [] [] [] (fun _ => Ready) [].
Definition Setup (rate : Z) u : UserAggregator A := decided [] (ctl_Setup rate (turn u)).2 u.

(** The conversation is shared: another of its holders writes to it. *)
Definition elsewhere (g : LlmContext.LLMContext -> LlmContext.LLMContext) u : UserAggregator A := say [Elsewhere g] (onContext g u).

(** ** Runs

    Texts are valid UTF-8, as transcription services deliver them. *)
Definition textOf (f : UFrame) : gostring :=
  match f with Plain (TranscriptionFrame t _) | Transcription t _ _ _ => bytes_of t | _ => [] end.

Inductive step : UserAggregator A -> UserAggregator A -> Prop :=
| s_fold stamp f dir u : at_ u (isSystem f) = Ready -> validUTF8 (textOf f) -> step u (fold stamp f dir u)
| s_decide stamp f u : at_ u (isSystem f) = Folded f -> step u (decide stamp f u)
| s_watch f u : at_ u (isSystem f) = Decided f -> step u (watch f u)
| s_fire stamp cb n dl u : timers (turn u) !! (cb, n) = Some dl -> dl <= now (turn u) -> step u (decided stamp (fire cb n (turn u)) u)
| s_tick t u : now (turn u) <= t -> step u (u <| turn ::= fun w => w <| now := t |> |> <| idle ::= fun i => i <| Idle.now := t |> |>)
| s_idle d u : Idle.timerCancel (idle u) = Some d -> d <= Idle.now (idle u) -> step u (u <| idle ::= Idle.fire |>)
| s_cleanup u : step u (cleanup u)
| s_elsewhere g u : step u (elsewhere g u).

(** ** What becomes of what was said *)

Definition heardOf (l : list output) : list TextAgg.Part := omap (fun o => match o with Heard p => Some p | _ => None end) l.
Definition messagesOf (l : list output) : list gostring := omap (fun o => match o with OMessageAdded c _ _ => Some c | _ => None end) l.
(** How often a strategy asked for what was heard to be dropped. *)
Definition dropsOf (l : list output) : nat := List.length (List.filter (fun o => match o with Dropped => true | _ => false end) l).
(** Heard, and neither written nor dropped since. *)
Definition pendingOf (l : list output) : list TextAgg.Part :=
  fold_left (fun ps o => match o with Heard p => ps ++ [p] | Dropped | OMessageAdded _ _ _ => [] | _ => ps end) l [].
(** The messages written since a turn was last reported started or stopped. *)
Definition sinceTurn (l : list output) : list gostring :=
  fold_left (fun ms o => match o with OTurnStarted _ | OTurnStopped _ _ _ _ => [] | OMessageAdded c _ _ => ms ++ [c] | _ => ms end) l [].
Definition wholeOf (ms : list gostring) : gostring := fold_left joinSegment ms [].

(** What a frame that edits the conversation does to it. *)
Definition edit (changes : bool) (f : UFrame) (c : LlmContext.LLMContext) : LlmContext.LLMContext :=
  match f with
  | MessagesAppend ms _ => fold_left LlmContext.AddMessage ms c
  | MessagesUpdate ms _ => LlmContext.SetMessages c ms
  | MessagesTransform t _ => LlmContext.TransformMessages c t
  | SetToolsF ts => LlmContext.SetTools (ToolChange.maybeAddToolChangeMessages changes c ts) ts
  | SetToolChoiceF t => LlmContext.SetToolChoice c t
  | _ => c
  end.
(** The conversation that began as [c]: each message reported is added to it where it is
    reported, and nothing else changes it but the frames that edit it and its other holders. *)
Definition conversationOf (changes : bool) (c : LlmContext.LLMContext) (l : list output) : LlmContext.LLMContext :=
  fold_left (fun c o => match o with
    | OMessageAdded said _ _ => LlmContext.AddUserMessage c said
    | Edited f => edit changes f c
    | Elsewhere g => g c
    | _ => c
    end) l c.

#[local] Arguments conversationOf : simpl never.
#[local] Arguments heardOf : simpl never.
#[local] Arguments messagesOf : simpl never.
#[local] Arguments dropsOf : simpl never.
#[local] Arguments pendingOf : simpl never.
#[local] Arguments sinceTurn : simpl never.
#[local] Arguments wholeOf : simpl never.

(** A stretch of what was heard, and whether it was written. *)
Definition cutInto (cuts : list (list TextAgg.Part * bool)) (l : list output) : Prop :=
  heardOf l = List.concat (List.map fst cuts) ++ pendingOf l
  /\ messagesOf l = List.map (fun c => TextAgg.Concatenate c.1) (List.filter snd cuts)
  /\ dropsOf l = List.length (List.filter (fun c => negb c.2) cuts).

(** A report says what its turn wrote, and leaves nothing out. *)
Definition reportsWhole (l : list output) : Prop :=
  forall l1 s c ts user l2, l = l1 ++ OTurnStopped s c ts user :: l2 -> c = wholeOf (sinceTurn l1) /\ pendingOf l1 = [].

Definition speaks (p : TextAgg.Part) : Prop := validUTF8 (TextAgg.pText p) /\ TrimSpace (TextAgg.pText p) <> [].

Section Kept.
Context (changes : bool) (c0 : LlmContext.LLMContext).

Record kept u : Prop := {
  k_said : toolChangeMessages u = changes /\ context u = conversationOf changes c0 (out u);
  k_cuts : exists cuts, cutInto cuts (out u);
  k_pending : aggregation u = pendingOf (out u);
  k_speaks : Forall speaks (aggregation u);
  k_whole : wholeTurn u = wholeOf (sinceTurn (out u));
  k_reports : reportsWhole (out u)
}.

Lemma pendingOf_snoc l o : pendingOf (l ++ [o]) = match o with Heard p => pendingOf l ++ [p] | Dropped | OMessageAdded _ _ _ => [] | _ => pendingOf l end.
Proof. unfold pendingOf. by rewrite fold_left_app. Qed.
Lemma conversationOf_snoc l o : conversationOf changes c0 (l ++ [o]) = match o with
  | OMessageAdded said _ _ => LlmContext.AddUserMessage (conversationOf changes c0 l) said
  | Edited f => edit changes f (conversationOf changes c0 l)
  | Elsewhere g => g (conversationOf changes c0 l)
  | _ => conversationOf changes c0 l
  end.
Proof. unfold conversationOf. by rewrite fold_left_app. Qed.
Lemma sinceTurn_snoc l o : sinceTurn (l ++ [o]) = match o with OTurnStarted _ | OTurnStopped _ _ _ _ => [] | OMessageAdded c _ _ => sinceTurn l ++ [c] | _ => sinceTurn l end.
Proof. unfold sinceTurn. by rewrite fold_left_app. Qed.
Lemma wholeOf_snoc ms c : wholeOf (ms ++ [c]) = joinSegment (wholeOf ms) c.
Proof. unfold wholeOf. by rewrite fold_left_app. Qed.

Lemma heardOf_snoc l o : heardOf (l ++ [o]) = heardOf l ++ match o with Heard p => [p] | _ => [] end.
Proof. unfold heardOf. rewrite omap_app. by destruct o. Qed.
Lemma messagesOf_snoc l o : messagesOf (l ++ [o]) = messagesOf l ++ match o with OMessageAdded c _ _ => [c] | _ => [] end.
Proof. unfold messagesOf. rewrite omap_app. by destruct o. Qed.

Lemma dropsOf_snoc l o : dropsOf (l ++ [o]) = (dropsOf l + match o with Dropped => 1 | _ => 0 end)%nat.
Proof. unfold dropsOf. rewrite List.filter_app, List.length_app. by destruct o. Qed.

Lemma reportsWhole_snoc l o : reportsWhole l -> (match o with OTurnStopped _ c _ _ => c = wholeOf (sinceTurn l) /\ pendingOf l = [] | _ => True end) ->
  reportsWhole (l ++ [o]).
Proof.
  intros Hl Ho l1 s c ts user l2 E. destruct l2 as [|x l2 _] using rev_ind.
  - apply app_inj_tail in E as [-> ->]. exact Ho.
  - rewrite app_comm_cons, app_assoc in E. apply app_inj_tail in E as [-> _]. by eapply Hl.
Qed.

(** What is neither said nor reported changes nothing. *)
Definition neutral (o : output) : Prop :=
  match o with Heard _ | Dropped | OMessageAdded _ _ _ | OTurnStarted _ | OTurnStopped _ _ _ _ | Edited _ | Elsewhere _ => False | _ => True end.
Lemma kept_neutral o u u' : neutral o -> out u' = out u ++ [o] -> aggregation u' = aggregation u -> wholeTurn u' = wholeTurn u ->
  toolChangeMessages u' = toolChangeMessages u -> context u' = context u -> kept u -> kept u'.
Proof.
  intros Ho Eo Ea Ew Et Ec [[K0 K1] [cuts (C1 & C2 & C3)] K2 K3 K4 K5]. split; rewrite ?Eo, ?Ea, ?Ew, ?Et, ?Ec.
  - rewrite conversationOf_snoc. by destruct o.
  - exists cuts. split_and!; [rewrite heardOf_snoc, pendingOf_snoc|rewrite messagesOf_snoc|rewrite dropsOf_snoc]; destruct o; try done; by rewrite ?app_nil_r, ?Nat.add_0_r.
  - rewrite pendingOf_snoc. by destruct o.
  - done.
  - rewrite sinceTurn_snoc. by destruct o.
  - apply reportsWhole_snoc; [done|]. by destruct o.
Qed.
Lemma kept_same u u' : out u' = out u -> aggregation u' = aggregation u -> wholeTurn u' = wholeTurn u ->
  toolChangeMessages u' = toolChangeMessages u -> context u' = context u -> kept u -> kept u'.
Proof. intros Eo Ea Ew Et Ec [K0 K1 K2 K3 K4 K5]. by split; rewrite ?Eo, ?Ea, ?Ew, ?Et, ?Ec. Qed.
Lemma kept_say l u : Forall neutral l -> kept u -> kept (say l u).
Proof.
  intros Hl Hu. induction l as [|o l IH] using rev_ind; [by apply (kept_same u); [apply app_nil_r|..]|].
  apply Forall_app in Hl as [Hl Ho]. apply (kept_neutral o (say l u)); auto; [by inversion Ho|]. cbn. by rewrite app_assoc.
Qed.

Lemma notSpace_nonempty s : TrimSpace s <> [] -> TextAgg.notSpace (runesOf s) <> [].
Proof.
  unfold TrimSpace. intros Ht E. apply Ht. clear Ht.
  assert (dropWhile IsSpace (runesOf s) = []) as ->; [|done]. revert E. generalize (runesOf s). clear s.
  induction l as [|r l IH]; [done|]. unfold TextAgg.notSpace in *. cbn. destruct (IsSpace r); [exact IH|done].
Qed.
(** Words are words together. *)
Lemma Concatenate_speaks ps : Forall speaks ps -> ps <> [] -> TextAgg.Concatenate ps <> [].
Proof.
  intros Hps Hne E. destruct (TextAgg.concatenate_spacing ps []) as (Hs & _).
  { eapply Forall_impl; [exact Hps|]. by intros p [? _]. } { constructor. }
  rewrite E in Hs. destruct ps as [|p ps]; [done|]. inversion Hps as [|? ? [_ Hp] _]; subst.
  cbn in Hs. destruct (TextAgg.notSpace (runesOf (TextAgg.pText p))) eqn:En; [by apply (notSpace_nonempty _ Hp)|done].
Qed.

(** Committing what is pending. *)
Definition commit u : UserAggregator A := let '(segment, u) := maybeRun u in rememberSegment segment u.
Lemma kept_commit u : kept u -> kept (commit u) /\ aggregation (commit u) = [].
Proof.
  intros [[K0 K1] [cuts (C1 & C2 & C3)] K2 K3 K4 K5]. unfold commit, maybeRun. destruct (bool_decide (TextAgg.Concatenate (aggregation u) = [])) eqn:E.
  - apply bool_decide_eq_true in E. assert (aggregation u = []) as Ea.
    { destruct (aggregation u) as [|p ps] eqn:Ea; [done|]. by destruct (Concatenate_speaks _ K3). }
    split; [|done]. apply (kept_same u); try done. split; [done|by exists cuts|done..].
  - apply bool_decide_eq_false in E. split; [|done]. set (said := TextAgg.Concatenate (aggregation u)) in *.
    split; cbn.
    + change [OContext; ?m] with ([OContext] ++ [m]). by rewrite app_assoc, !conversationOf_snoc, K1.
    + exists (cuts ++ [(aggregation u, true)]). unfold cutInto. change [OContext; ?m] with ([OContext] ++ [m]). rewrite app_assoc.
      rewrite heardOf_snoc, pendingOf_snoc, messagesOf_snoc, heardOf_snoc, messagesOf_snoc, !dropsOf_snoc, !app_nil_r, C1, C2, C3.
      rewrite List.map_app, List.concat_app, !List.filter_app, List.map_app. cbn. rewrite !app_nil_r, K2, !Nat.add_0_r. split_and!; [done| |done]. unfold said. by rewrite K2.
    + change [OContext; ?m] with ([OContext] ++ [m]). by rewrite app_assoc, pendingOf_snoc.
    + constructor.
    + change [OContext; ?m] with ([OContext] ++ [m]). by rewrite app_assoc, !sinceTurn_snoc, wholeOf_snoc, K4.
    + change [OContext; ?m] with ([OContext] ++ [m]). rewrite app_assoc. by repeat apply reportsWhole_snoc.
Qed.

Lemma kept_commit_say l u : Forall neutral l -> kept u -> kept (say l (commit u)).
Proof. intros Hl Hu. apply kept_say; [done|]. by apply kept_commit. Qed.

Lemma reportTurnStopped_commit s b u : reportTurnStopped s b u =
  if b && bool_decide (wholeTurn (commit u) = []) then (commit u) <| wholeTurn := [] |>
  else say [OTurnStopped s (wholeTurn (commit u)) (turnStartedAt (commit u)) (userID (commit u))]
         ((commit u) <| wholeTurn := [] |> <| turnStartedAt := [] |>).
Proof. unfold reportTurnStopped, commit. by destruct (maybeRun u) as [seg u1]. Qed.
Lemma kept_report s b u : kept u -> kept (reportTurnStopped s b u) /\ aggregation (reportTurnStopped s b u) = [].
Proof.
  intros Hu. destruct (kept_commit u Hu) as [Hc Ha]. rewrite reportTurnStopped_commit. destruct (b && _) eqn:Eb.
  - apply andb_prop in Eb as [_ Ew%bool_decide_eq_true]. split; [|done]. by apply (kept_same (commit u)).
  - split; [|done]. destruct Hc as [[K0 K1] [cuts (C1 & C2 & C3)] K2 K3 K4 K5]. split; cbn.
    + by rewrite conversationOf_snoc.
    + exists cuts. split_and!; [by rewrite heardOf_snoc, pendingOf_snoc, app_nil_r|by rewrite messagesOf_snoc, app_nil_r|by rewrite dropsOf_snoc, Nat.add_0_r].
    + by rewrite pendingOf_snoc.
    + done.
    + by rewrite sinceTurn_snoc.
    + apply reportsWhole_snoc; [done|]. by rewrite <- K2, Ha.
Qed.

Lemma kept_started s u : kept u -> kept (say [OTurnStarted s] u <| wholeTurn := [] |>).
Proof.
  intros [[K0 K1] [cuts (C1 & C2 & C3)] K2 K3 K4 K5]. split; cbn.
  - by rewrite conversationOf_snoc.
  - exists cuts. split_and!; [by rewrite heardOf_snoc, pendingOf_snoc, app_nil_r|by rewrite messagesOf_snoc, app_nil_r|by rewrite dropsOf_snoc, Nat.add_0_r].
  - by rewrite pendingOf_snoc.
  - done.
  - by rewrite sinceTurn_snoc.
  - by apply reportsWhole_snoc.
Qed.
Lemma kept_dropped u : kept u -> kept (onResetAggregation u).
Proof.
  intros [[K0 K1] [cuts (C1 & C2 & C3)] K2 K3 K4 K5]. split; cbn.
  - by rewrite conversationOf_snoc.
  - exists (cuts ++ [(aggregation u, false)]). split_and!.
    + rewrite heardOf_snoc, pendingOf_snoc, !app_nil_r, C1, List.map_app, List.concat_app, K2. cbn. by rewrite app_nil_r.
    + by rewrite messagesOf_snoc, app_nil_r, C2, List.filter_app, app_nil_r.
    + by rewrite dropsOf_snoc, C3, List.filter_app, List.length_app.
  - by rewrite pendingOf_snoc.
  - constructor.
  - by rewrite sinceTurn_snoc.
  - by apply reportsWhole_snoc.
Qed.

Lemma kept_hook stamp u e : kept u -> kept (hook stamp u e).
Proof.
  intros Hu. destruct e; cbn [hook]; try done; try (apply kept_say; [by repeat constructor|done]).
  - unfold onTurnStarted.
    set (a := if sp_EnableUserSpeakingFrames p then _ else _). set (b := if sp_EnableInterruptions p then _ else _).
    apply (kept_same (say [OTurnStarted s] (say b (say a u)) <| wholeTurn := [] |>)); try done.
    apply kept_started, kept_say; [|apply kept_say; [|done]]; [subst b|subst a]; case_match; by repeat constructor.
  - unfold onTurnStopped. apply kept_report. set (a := if pp_EnableUserSpeakingFrames p then _ else _).
    apply (kept_same (say a u)); try done. apply kept_say; [|done]. subst a. case_match; by repeat constructor.
  - unfold onInferenceTriggered. pose proof (kept_commit u Hu) as [Hc _]. unfold commit in Hc. destruct (maybeRun u) as [seg u1].
    apply kept_say; [by repeat constructor|done].
  - by apply kept_dropped.
Qed.

Lemma kept_decided stamp w' u : kept u -> kept (decided stamp w' u).
Proof.
  intros Hu. unfold decided. generalize (List.skipn (List.length (log (turn u))) (log w')). intros l.
  assert (kept (u <| turn := w' |>)) as Hu' by by apply (kept_same u). clear Hu. revert Hu'. generalize (u <| turn := w' |>). clear u.
  induction l as [|e l IH]; intros u Hu; [done|]. apply IH. by apply kept_hook.
Qed.

Lemma kept_heard stamp t user inc u : validUTF8 t -> kept u -> kept (handleTranscription stamp t user inc u).
Proof.
  intros Hv Hu. unfold handleTranscription. destruct (bool_decide (TrimSpace t = [])) eqn:Et; [done|]. apply bool_decide_eq_false in Et.
  destruct Hu as [[K0 K1] [cuts (C1 & C2 & C3)] K2 K3 K4 K5]. case_match; (split; cbn;
    [by rewrite conversationOf_snoc|exists cuts; split_and!; [by rewrite heardOf_snoc, pendingOf_snoc, C1, <- app_assoc|by rewrite messagesOf_snoc, app_nil_r|by rewrite dropsOf_snoc, Nat.add_0_r]
    |by rewrite pendingOf_snoc, K2|apply Forall_app; split; [done|by repeat constructor]|by rewrite sinceTurn_snoc|by apply reportsWhole_snoc]).
Qed.

(** A write that [out] tells of. *)
Lemma kept_written o (g : LlmContext.LLMContext -> LlmContext.LLMContext) u :
  match o with Edited f => forall c, g c = edit changes f c | Elsewhere g' => g = g' | _ => False end ->
  kept u -> kept (onContext g (say [o] u)).
Proof.
  intros Ho [[K0 K1] [cuts (C1 & C2 & C3)] K2 K3 K4 K5]. split; cbn.
  - rewrite conversationOf_snoc. split; [done|]. rewrite K1. destruct o; try done. by rewrite Ho.
  - exists cuts. split_and!; [rewrite heardOf_snoc, pendingOf_snoc|rewrite messagesOf_snoc|rewrite dropsOf_snoc]; destruct o; try done; by rewrite ?app_nil_r, ?Nat.add_0_r.
  - rewrite pendingOf_snoc. by destruct o.
  - done.
  - rewrite sinceTurn_snoc. by destruct o.
  - apply reportsWhole_snoc; [done|]. by destruct o.
Qed.
Lemma kept_runIf b u : kept u -> kept (runIf b u).
Proof. intros Hu. destruct b; [apply kept_say; [by repeat constructor|done]|done]. Qed.
Lemma kept_stop u : kept u -> kept (stopControllers u).
Proof. by apply kept_same. Qed.

Lemma kept_handleFrame stamp f dir u : validUTF8 (textOf f) -> kept u -> kept (handleFrame stamp f dir u).
Proof.
  intros Hv Hu.
  assert (forall u', kept u' -> kept (say [OPush f dir] u')) as Hp by (intros u' Hu'; apply kept_say; [by repeat constructor|done]).
  assert (kept (say [OContext] u)) as Hc by (apply kept_say; [by repeat constructor|done]).
  destruct f as [p|t fin user inc| | |ms run|ms run|fn run|ts|tc|[| |start stop]]; cbn [handleFrame handleContextUpdate handleServiceUserTurnStrategies]; try done; auto.
  - destruct p; try done; auto; try (case_match; by auto).
    + by apply kept_stop, kept_report, Hp.
    + by apply Hp, kept_stop, kept_report.
    + by apply kept_heard.
  - by apply kept_heard.
  - by apply kept_runIf, kept_written.
  - by apply kept_runIf, kept_written.
  - by apply kept_runIf, kept_written.
  - apply Hp, kept_written; [|done]. intros c. cbn. by rewrite (proj1 (k_said _ Hu)).
  - by apply kept_written.
  - apply Hp. destruct (pinnedStrategies u); [done|]. by apply kept_decided.
Qed.

Lemma kept_suppressed f u drop u' : suppressed f u = (drop, u') -> kept u -> kept u'.
Proof.
  unfold suppressed. destruct (Mute.suppressed f (mute u)) as [d m]. intros [= <- <-] Hu.
  apply kept_say; [|by apply (kept_same u)]. apply List.Forall_map, List.Forall_forall. done.
Qed.

Lemma user_kept_step u u' : step u u' -> kept u -> kept u'.
Proof.
  intros Hs Hu. destruct Hs as [stamp f dir u _ Hv|stamp f u _|f u _|stamp cb n dl u _ _|t u _|d u _ _|u|g u].
  - unfold fold. destruct (suppressed (payloadOf f) u) as [drop u1] eqn:E. apply kept_suppressed in E; [|done]. destruct drop; [done|].
    apply (kept_same (handleFrame stamp f dir u1)); try done. by apply kept_handleFrame.
  - unfold decide. apply (kept_same (decided stamp (Process (payloadOf f) (turn u)) u)); try done. by apply kept_decided.
  - by apply (kept_same u).
  - by apply kept_decided.
  - by apply (kept_same u).
  - by apply (kept_same u).
  - by apply (kept_same u).
  - apply (kept_same (onContext g (say [Elsewhere g] u))); try done. by apply kept_written.
Qed.
End Kept.

Lemma kept_run c start stop stopTimeout idleTimeout mutes toolChange w rate u :
  rtc step (Setup rate (newUser c start stop stopTimeout idleTimeout mutes toolChange w)) u -> kept toolChange c u.
Proof.
  intros Hr. apply (rtc_invariant _ (kept toolChange c) _ _ Hr); [by intros ? ? Hs ?; eapply user_kept_step|].
  apply kept_decided. split; cbn; [done|by exists []|done|constructor|done|]. intros l1 s c' ts user l2 E. by destruct l1.
Qed.

(** C29: (invariant) Nothing the user says is lost, repeated or reordered: whatever the
    strategies, the frames and the timing, what was heard is a sequence of stretches, each
    of them written to the conversation as one message, in order, or dropped, one for each
    time a strategy asked for it, and of what is still pending, which is what the aggregation
    holds.  The conversation is the one it began as with each of these messages added where
    it was written, and otherwise changed only by the frames that edit it and by what
    others write to it in between. *)
Theorem user_words_once c start stop stopTimeout idleTimeout mutes toolChange w rate u :
  rtc step (Setup rate (newUser c start stop stopTimeout idleTimeout mutes toolChange w)) u ->
  exists cuts, heardOf (out u) = List.concat (List.map fst cuts) ++ aggregation u
  /\ messagesOf (out u) = List.map (fun c => TextAgg.Concatenate c.1) (List.filter snd cuts)
  /\ dropsOf (out u) = List.length (List.filter (fun c => negb c.2) cuts)
  /\ context u = conversationOf toolChange c (out u).
Proof.
  intros Hr%kept_run. destruct Hr as [[_ K1] [cuts (C1 & C2 & C3)] K2 _ _ _]. exists cuts. by rewrite <- K1, K2.
Qed.

(** What a turn is reported to have said is what was written since it
    began, or since the last report, piece after piece; and by then nothing that was heard
    is left unwritten. *)
Theorem user_turn_reported c start stop stopTimeout idleTimeout mutes toolChange w rate u l1 s content ts user l2 :
  rtc step (Setup rate (newUser c start stop stopTimeout idleTimeout mutes toolChange w)) u ->
  out u = l1 ++ OTurnStopped s content ts user :: l2 ->
  content = wholeOf (sinceTurn l1) /\ pendingOf l1 = [].
Proof. intros Hr%kept_run E. by eapply (k_reports _ _ _ Hr). Qed.
End Aggregator.

(** ** A turn, and one the session's end cuts short *)
Section Scenes.
Import UserTurn.
Implicit Types (u : UserAggregator unit).
Definition stamp : gostring := bytes_of "now".
Definition whole u (f : UFrame) : UserAggregator unit :=
  let u := fold stamp f Downstream u in match at_ u (isSystem f) with Folded f => watch f (decide stamp f u) | _ => u end.

Lemma report_at s b u : at_ (reportTurnStopped s b u) = at_ u.
Proof. unfold reportTurnStopped, maybeRun. repeat case_match; simplify_eq; done. Qed.
Lemma hook_at t u e : at_ (hook t u e) = at_ u.
Proof.
  destruct e; cbn [hook]; try done.
  - unfold onTurnStopped. by rewrite report_at.
  - unfold onInferenceTriggered, maybeRun. repeat case_match; simplify_eq; done.
Qed.
Lemma decided_at t w u : at_ (decided t w u) = at_ u.
Proof.
  unfold decided. generalize (List.skipn (List.length (log (turn u))) (log w)). intros l.
  change (at_ u) with (at_ (u <| turn := w |>)). generalize (u <| turn := w |>). clear u.
  induction l as [|e l IH]; intros u; [done|]. cbn [fold_left]. by rewrite IH, hook_at.
Qed.
Lemma handleFrame_at t f dir u : at_ (handleFrame t f dir u) = at_ u.
Proof.
  destruct f as [p|x fin user inc| | |ms run|ms run|fn run|ts|tc|[| |start stop]]; cbn; try done; try (by destruct run).
  - destruct p; cbn; try done; try (by case_match); try (unfold handleTranscription; by repeat case_match); by rewrite report_at.
  - unfold handleTranscription. by repeat case_match.
  - case_match; [done|]. apply decided_at.
Qed.
Lemma fold_at f u : at_ (fold stamp f Downstream u) = (fun b => if Bool.eqb b (isSystem f) then Folded f else at_ u b)
  \/ at_ (fold stamp f Downstream u) = at_ u.
Proof.
  unfold fold. destruct (suppressed _ _) as [drop u1] eqn:E. unfold suppressed in E. destruct (Mute.suppressed _ _). injection E as <- <-.
  destruct b; [by right|left]. cbn. by rewrite handleFrame_at.
Qed.
Lemma decide_at t f u b : at_ (decide t f u) b = if Bool.eqb b (isSystem f) then Decided f else at_ u b.
Proof. cbn. by rewrite decided_at. Qed.
Lemma watch_at f u b : at_ (watch f u) b = if Bool.eqb b (isSystem f) then Ready else at_ u b.
Proof. done. Qed.
Lemma whole_run f u : (forall b, at_ u b = Ready) -> validUTF8 (textOf f) -> rtc step u (whole u f) /\ forall b, at_ (whole u f) b = Ready.
Proof.
  intros Hu Hv. assert (step u (fold stamp f Downstream u)) as Hs by by constructor. unfold whole.
  destruct (fold_at f u) as [E|E]; rewrite ?E; cbn beta; [|rewrite Hu; split; [by apply rtc_once|intros b; rewrite E; apply Hu]].
  rewrite eqb_reflx. assert (forall b, at_ (decide stamp f (fold stamp f Downstream u)) b = if Bool.eqb b (isSystem f) then Decided f else Ready) as Ed.
  { intros b. rewrite decide_at, E. cbn beta. rewrite Hu. by destruct (Bool.eqb b (isSystem f)). }
  split.
  - eapply rtc_l; [exact Hs|]. eapply rtc_l; [apply (s_decide stamp f); by rewrite E, eqb_reflx|]. apply rtc_once, s_watch. by rewrite Ed, eqb_reflx.
  - intros b. rewrite watch_at, Ed. by destruct (Bool.eqb b (isSystem f)).
Qed.
Lemma wholes_run fs u : (forall b, at_ u b = Ready) -> Forall (fun f => validUTF8 (textOf f)) fs -> rtc step u (fold_left whole fs u).
Proof.
  intros Hu Hfs. revert u Hu. induction Hfs as [|f fs Hf _ IH]; intros u Hu; [apply rtc_refl|].
  destruct (whole_run f u Hu Hf) as [Hr Ha]. etrans; [exact Hr|]. by apply IH.
Qed.

Abbreviation opening := (Setup 16000 (newUser (A:=unit) (LlmContext.NewLLMContext []) [] [] 0 0 [] false nothing)).
Definition said (t : string) : UFrame := Transcription t true (bytes_of "ann") false.
Definition spoken : list UFrame :=
  [Plain StartFrame; Plain (VADUserStartedSpeakingFrame f64_zero None); said "Hello"; said "there.";
   Plain (VADUserStoppedSpeakingFrame (f64_lit 2 10) None)].
Definition later u : UserAggregator unit := u <| turn ::= fun w => w <| now := 1000000000 |> |> <| idle ::= fun i => i <| Idle.now := 1000000000 |> |>.
(** The timer that decides the user is done. *)
Definition closed u : UserAggregator unit := decided stamp (fire (CbUserSpeech 2) 5 (turn (later u))) (later u).

Lemma closed_run fs : Forall (fun f => validUTF8 (textOf f)) fs -> timers (turn (fold_left whole fs opening)) !! (CbUserSpeech 2, 5%nat) = Some 600000000 ->
  now (turn (fold_left whole fs opening)) = 0 -> rtc step opening (closed (fold_left whole fs opening)).
Proof.
  intros Hfs Ht Hn. etrans; [by apply wholes_run|]. eapply rtc_l; [apply (s_tick 1000000000); by rewrite Hn|].
  apply rtc_once. by eapply s_fire.
Qed.
Lemma spoken_valid : Forall (fun f => validUTF8 (textOf f)) spoken.
Proof. repeat constructor; by apply ascii_valid. Qed.

Lemma spoken_heard : rtc step opening (closed (fold_left whole spoken opening)).
Proof. apply closed_run; [exact spoken_valid|vm_compute; reflexivity|vm_compute; reflexivity]. Qed.

Lemma user_words_once_witness : exists cuts, heardOf (out (closed (fold_left whole spoken opening))) = List.concat (List.map fst cuts)
  /\ List.map (fun c => TextAgg.Concatenate c.1) (List.filter snd cuts) = [bytes_of "Hello there."]
  /\ conversationOf false (LlmContext.NewLLMContext []) (out (closed (fold_left whole spoken opening)))
     = LlmContext.AddUserMessage (LlmContext.NewLLMContext []) (bytes_of "Hello there.").
Proof.
  destruct (user_words_once (LlmContext.NewLLMContext []) [] [] 0 0 [] false nothing 16000 (closed (fold_left whole spoken opening)) spoken_heard)
    as (cuts & H1 & H2 & _ & H4).
  exists cuts. split_and!.
  - rewrite H1. assert (aggregation (closed (fold_left whole spoken opening)) = []) as -> by (vm_compute; reflexivity). apply app_nil_r.
  - rewrite <- H2. vm_compute. reflexivity.
  - rewrite <- H4. vm_compute. reflexivity.
Defined.

Lemma user_turn_reported_witness : let l := out (closed (fold_left whole spoken opening)) in
  exists l1 s content ts user, l = l1 ++ [OTurnStopped s content ts user] /\ content = bytes_of "Hello there." /\ content = wholeOf (sinceTurn l1) /\ pendingOf l1 = [].
Proof.
  intros l. exists (removelast l), (Some 2%nat), (bytes_of "Hello there."), stamp, (bytes_of "ann").
  assert (l = removelast l ++ [OTurnStopped (Some 2%nat) (bytes_of "Hello there.") stamp (bytes_of "ann")]) as E by (vm_compute; reflexivity).
  split; [exact E|]. split; [done|].
  apply (user_turn_reported (LlmContext.NewLLMContext []) [] [] 0 0 [] false nothing 16000 (closed (fold_left whole spoken opening)) _ _ _ _ _ [] spoken_heard E).
Defined.

(** The end of the session reports a turn that is still open, but leaves the strategies'
    timers running: the one that then closes it reports it a second time, with nothing
    said, and sets the watchdog that had been stopped. *)
Theorem end_reports_turn_twice :
  let u := fold_left whole (spoken ++ [Plain (EndFrame "")]) opening in
  rtc step opening (closed u)
  /\ watchdog (turn u) = None
  /\ List.filter (fun o => match o with OTurnStopped _ _ _ _ => true | _ => false end) (out (closed u))
     = [OTurnStopped None (bytes_of "Hello there.") stamp (bytes_of "ann"); OTurnStopped (Some 2%nat) [] [] (bytes_of "ann")]
  /\ watchdog (turn (closed u)) <> None.
Proof.
  intros u. split_and!.
  - apply closed_run; [|vm_compute; reflexivity|vm_compute; reflexivity]. apply Forall_app. split; [apply spoken_valid|].
    repeat constructor. by apply ascii_valid.
  - vm_compute. reflexivity.
  - vm_compute. reflexivity.
  - vm_compute. discriminate.
Qed.
End Scenes.
End UserAgg.
