(* ===== verification/TurnProcessor.v ===== *)
(** * The user-turn processor

    [src/processor/turns/processor.go]: what reaches the pipeline of the decisions
    the controller makes, and how the idle watch follows them.  The hooks run while
    a decision is being made, and read nothing of the controller, so they are a
    function of what it reports, in order. *)

From S2P Require Import Prelude Float64 Frames Text TurnStrategies UserTurn IdleMute.

Module TurnProc.
Import Turns UserTurn.
Local Open Scope Z_scope.

(** What the processor does to its neighbors: frames pushed and broadcast, the
    interruption, and the events it raises. *)
Inductive output :=
| OPush (f : Payload) (dir : Direction)
| OBroadcast (f : Payload)
| OInterruption
| OTurnStarted (s : addr)
| OInferenceTriggered (s : addr)
| OTurnStopped (s : option addr)
| OStopTimeout.

Record UserTurnProcessor {A : Type} := mkProc { turn : World A; idle : Idle.UserIdleController }.
Arguments UserTurnProcessor : clear implicits.

Section Processor.
Context {A : Type} `{TurnAnalyzer A} `{UnicodeTables}.
Implicit Types (p : UserTurnProcessor A).

(** The hooks. *)
Definition onTurnStarted (s : addr) (params : UserTurnStartedParams) (i : Idle.UserIdleController) :=
  ((if sp_EnableUserSpeakingFrames params then [OBroadcast UserStartedSpeakingFrame] else []) ++
   (if sp_EnableInterruptions params then [OInterruption] else []) ++ [OTurnStarted s],
   Idle.Process UserStartedSpeakingFrame i).

Definition onTurnStopped (s : option addr) (params : UserTurnStoppedParams) (i : Idle.UserIdleController) :=
  ((if pp_EnableUserSpeakingFrames params then [OBroadcast UserStoppedSpeakingFrame] else []) ++ [OTurnStopped s],
   Idle.Process UserStoppedSpeakingFrame i).

Definition hook (e : event) (i : Idle.UserIdleController) : list output * Idle.UserIdleController :=
  match e with
  | EStarted s params => onTurnStarted s params i
  | EStopped s params => onTurnStopped s params i
  | EInference s => ([OInferenceTriggered s], i)
  | EStopTimeout => ([OStopTimeout], i)
  | EPush f dir => ([OPush f dir], i)
  | EBroadcast f => ([OBroadcast f], i)
  | EReset _ | EFrame _ | EWakeDetected _ | EWakeTimeout => ([], i)
  end.

Fixpoint hooks (l : list event) (i : Idle.UserIdleController) : list output * Idle.UserIdleController :=
  match l with
  | [] => ([], i)
  | e :: l => let '(o, i) := hook e i in let '(o', i) := hooks l i in (o ++ o', i)
  end.

(** The controller moved on to [w']: its new reports go through the hooks. *)
Definition decided (w' : World A) p : list output * UserTurnProcessor A :=
  let '(o, i) := hooks (List.skipn (List.length (log (turn p))) (log w')) (idle p) in (o, mkProc A w' i).

Definition forward (f : Payload) (dir : Direction) p : list output * UserTurnProcessor A :=
  match f with
  | ProposedUserStartedSpeakingFrame =>
    if ResolvesProposedTurnStartFrames (turn p) then ([], p) else ([OPush f dir], p)
  | ProposedUserStoppedSpeakingFrame =>
    if ResolvesProposedTurnStopFrames (turn p) then ([], p) else ([OPush f dir], p)
  | EndFrame _ | CancelFrame _ => ([OPush f dir], mkProc A (ctl_Stop (turn p)) (Idle.Stop (idle p)))
  | _ => ([OPush f dir], p)
  end.

Definition ProcessFrame (f : Payload) (dir : Direction) p : list output * UserTurnProcessor A :=
  let '(o1, p) := forward f dir p in
  let '(o2, p) := decided (Process f (turn p)) p in
  (o1 ++ o2, mkProc A (turn p) (Idle.Process f (idle p))).

(** A strategy's timer, or the watchdog's. *)
Definition fireTurn (cb : callback) (n : nat) p : list output * UserTurnProcessor A :=
  decided (fire cb n (turn p)) p.

(** ** Exact reports of the external strategies *)

Lemma log_updExt o g (w : World A) : log (updExt o g w) = log w.
Proof. unfold updExt. by case_match. Qed.

Lemma log_cancel cb h (w : World A) : log (cancel cb h w) = log w.
Proof. by destruct h. Qed.

Lemma log_Ext_armTick o (w : World A) : log (Ext_armTick o w) = log w.
Proof.
  assert (log (Ext_cancelT o w) = log w) as E.
  { unfold Ext_cancelT. case_match; [|done]. by rewrite log_updExt, log_cancel. }
  unfold Ext_armTick. case_match; [|done]. destruct (after _ _ _ _) as [h w'] eqn:Ea.
  rewrite log_updExt. injection Ea as <- <-. exact E.
Qed.

Lemma stopChain_local c : LocalInv (fun w : World A => stopChain w = c).
Proof.
  split; try (intros; assumption).
  - intros b cb d w h w' _ E Hq. injection E as <- <-. exact Hq.
  - intros cb [n|] w _ Hq; exact Hq.
Qed.

Definition is_ext (b : addr) (w : World A) : Prop := exists s, externalOf b w = Some s.

Lemma is_ext_obj b (w : World A) :
  is_ext b w -> exists u a fz s, stopObjs w !! b = Some (mkStop A u a fz (DExternalStop s)).
Proof. intros [s Hs]. unfold externalOf in Hs. repeat case_match; simplify_eq. eauto. Qed.

Lemma is_ext_updExt b g (w : World A) : is_ext b w -> is_ext b (updExt b g w).
Proof.
  intros Hw. destruct (is_ext_obj _ _ Hw) as (u & a & p & s & Ho). destruct Hw as [s' Hs].
  exists (g s'). unfold updExt. rewrite Hs. unfold externalOf. simpl. by rewrite lookup_alter_eq, Ho.
Qed.

Lemma is_ext_armTick b (w : World A) : is_ext b w -> is_ext b (Ext_armTick b w).
Proof.
  intros Hw.
  assert (is_ext b (Ext_cancelT b w)) as Hc.
  { unfold Ext_cancelT. case_match; [|done]. apply is_ext_updExt. destruct (ex_cancelTimer _); exact Hw. }
  unfold Ext_armTick. case_match; [|done]. destruct (after _ _ _ _) as [h w'] eqn:Ea.
  injection Ea as <- <-. apply is_ext_updExt. exact Hc.
Qed.

(** The shape of [ExternalStrategies]'s chains, attached, between turns. *)
Record external (a b : addr) (i : bool) (w : World A) : Prop := {
  e_start : startChain w = [a];
  e_stop : stopChain w = [Direct b];
  e_a : startObjs w !! a = Some (mkStart i true true DExternalStart);
  e_b : is_ext b w;
  e_turn : userTurn w = false
}.

Lemma external_observe a b i f (w : World A) :
  external a b i w -> external a b i (observe f (emit (EFrame f) w)) /\
                      log (observe f (emit (EFrame f) w)) = log w ++ [EFrame f].
Proof.
  intros [E1 E2 Ha Hb Hu].
  assert (forall s, external a b i (rearmWatchdog ((emit (EFrame f) w) <| userSpeaking := s |>)) /\
            log (rearmWatchdog ((emit (EFrame f) w) <| userSpeaking := s |>)) = log w ++ [EFrame f]) as Hs.
  { intros s. rewrite log_rearm. unfold rearmWatchdog, cancel. simpl. destruct (watchdog w); done. }
  assert (external a b i (rearmWatchdog (emit (EFrame f) w)) /\
            log (rearmWatchdog (emit (EFrame f) w)) = log w ++ [EFrame f]) as Hr.
  { rewrite log_rearm. unfold rearmWatchdog, cancel. simpl. destruct (watchdog w); done. }
  destruct f; simpl; try apply Hs; try exact Hr; done.
Qed.

(** Opening a turn on these chains: one report, and the stop strategy still there. *)
Lemma start_external a b i (w : World A) params :
  external a b i w ->
  log (onStartTriggered a params w) = log w ++ [EStarted a params] /\
  stopChain (onStartTriggered a params w) = [Direct b] /\ is_ext b (onStartTriggered a params w).
Proof.
  intros [E1 E2 Ha Hb Hu]. unfold onStartTriggered. rewrite Hu. simpl.
  set (w1 := rearmWatchdog _).
  assert (log w1 = log w /\ startChain w1 = [a] /\ stopChain w1 = [Direct b] /\
          startObjs w1 = startObjs w /\ is_ext b w1) as (F1 & F2 & F3 & F4 & F5).
  { subst w1. unfold rearmWatchdog, cancel. simpl. destruct (watchdog w); done. }
  clearbody w1. rewrite <- F4 in Ha. destruct (is_ext_obj _ _ F5) as (u & at' & p & s & Hob).
  split; [|split].
  - f_equal. unfold notifyTurnStarted. rewrite F2, F3. simpl. unfold start_TurnStarted. rewrite Ha. simpl.
    unfold stop_TurnStarted. simpl. rewrite Hob. simpl. unfold Ext_reset.
    by rewrite log_updExt, log_Ext_armTick, log_updExt.
  - by apply (li_notifyTurnStarted (fun w => stopChain w = [Direct b]) (LocalInv0 := stopChain_local _)).
  - unfold notifyTurnStarted. rewrite F2, F3. simpl. unfold start_TurnStarted. rewrite Ha. simpl.
    unfold stop_TurnStarted. simpl. rewrite Hob. simpl. unfold Ext_reset.
    by apply is_ext_updExt, is_ext_armTick, is_ext_updExt.
Qed.

(** The flags a frame opens an external turn with. *)
Definition externalParams (i : bool) (f : Payload) : option UserTurnStartedParams :=
  match f with
  | ProposedUserStartedSpeakingFrame => Some (mkStartedParams i true)
  | UserStartedSpeakingFrame => Some (mkStartedParams false false)
  | _ => None
  end.

Lemma Process_external a b i f params (w : World A) :
  external a b i w -> externalParams i f = Some params ->
  log (Process f w) = log w ++ [EFrame f; EStarted a params].
Proof.
  intros He Hp. unfold Process. destruct (external_observe a b i f w He) as [Ho Hl].
  set (wo := observe f (emit (EFrame f) w)) in *. clearbody wo.
  destruct (start_external a b i wo params Ho) as (L1 & L2 & L3).
  assert (runStart (startChain wo) f wo = onStartTriggered a params wo) as ->.
  { destruct Ho as [E1 E2 Ha Hb Hu]. rewrite E1. simpl. unfold start_Process. rewrite Ha. simpl.
    destruct f; try done; injection Hp as <-; unfold TriggerStarted, TriggerStartedOverriding; by rewrite Ha. }
  set (w2 := onStartTriggered a params wo) in *. clearbody w2.
  rewrite L2. simpl. destruct (is_ext_obj _ _ L3) as (u & at' & p & s & Hob). rewrite Hob. simpl.
  assert (log (Ext_Process b f w2) = log w2) as ->.
  { destruct f; try done; apply log_updExt. }
  by rewrite L1, Hl, <- app_assoc.
Qed.

(** On external strategies a turn is announced once.  A proposal that opens a
    turn does not travel on: the processor broadcasts the start itself, with an
    interruption if the strategy allows one.  A start announced elsewhere travels on
    and is only adopted: nothing is broadcast.  Either way the turn is reported
    started by the one strategy. *)
Theorem external_turn_announced_once a b i f dir p :
  external a b i (turn p) -> 
  (f = ProposedUserStartedSpeakingFrame ->
     (ProcessFrame f dir p).1 =
       [OBroadcast UserStartedSpeakingFrame] ++ (if i then [OInterruption] else []) ++ [OTurnStarted a]) /\
  (f = UserStartedSpeakingFrame -> (ProcessFrame f dir p).1 = [OPush f dir; OTurnStarted a]).
Proof.
  intros He. unfold ProcessFrame, decided.
  assert (ResolvesProposedTurnStartFrames (turn p) = true) as Hres.
  { destruct He as [E1 _ Ha _ _]. unfold ResolvesProposedTurnStartFrames. rewrite E1. simpl. by rewrite Ha. }
  split; intros ->; cbn [forward]; rewrite ?Hres.
  - rewrite (Process_external a b i ProposedUserStartedSpeakingFrame (mkStartedParams i true) _ He eq_refl), drop_app_length. by destruct i.
  - rewrite (Process_external a b i UserStartedSpeakingFrame (mkStartedParams false false) _ He eq_refl), drop_app_length. done.
Qed.

End Processor.

(** [ExternalStrategies] in place, before any turn. *)
Definition ext0 : World unit :=
  let '(start, stop, w) := ExternalStrategies None nothing in
  (ctl_Setup 16000 (NewUserTurnController start stop 0 w)).2.

Lemma external_turn_announced_once_witness :
  (ProcessFrame UserStartedSpeakingFrame Downstream
     (mkProc unit ext0 (Idle.NewUserIdleController 0 true 0))).1 =
  [OPush UserStartedSpeakingFrame Downstream; OTurnStarted 0%nat].
Proof.
  apply (external_turn_announced_once 0%nat 1%nat true UserStartedSpeakingFrame Downstream
           (mkProc unit ext0 (Idle.NewUserIdleController 0 true 0))); [|reflexivity].
  split; [reflexivity..| |reflexivity]. eexists. vm_compute. reflexivity.
Defined.

End TurnProc.
