(* ===== verification/Processor.v ===== *)
(** * The processor base: its two goroutines

    [src/processor/processor.go] and [src/processor/pause.go]: the input goroutine,
    which handles system frames and hands the rest on; the process goroutine, which
    handles data and control frames in order and is canceled and made anew by an
    interruption; the gate the StartFrame opens; and the pause gates of the two
    loops.

    The two run concurrently, with each other and with whoever queues frames,
    pauses, resumes or interrupts, so the model is a step relation.  The loops
    advance one line at a time; a call from outside, and what [Base.ProcessFrame]
    does with a frame up to the point where it blocks, is one step, though the code
    takes more than one lock on the way.  The queues are those of
    [Queues.v]: that a [get] whose queue holds an item is not left asleep is
    [notify_delivers] there, so a blocked [get] is simply one whose queue is empty.
    What a concrete processor does with a frame is open: it may take any time, and
    everything it may call is a step that can happen at any moment.  Direct mode,
    which has neither queue nor goroutine, and [PauseProcessingAllFramesUntil],
    whose watcher is one more caller of the pause and resume steps, add nothing to
    the state and are not spelled out. *)

From S2P Require Import Prelude Frames Queues.

Module Processor.
Import ProcQueue.

(** ** State *)

(** The manual-reset event of [pause.go].  Clearing a set event makes a new channel,
    so a waiter, which holds the channel it found, is released by any [Set] since:
    [gen] counts the channels. *)
Record event := mkEvent { gen : nat; set : bool }.
Definition newEvent : event := mkEvent 0 false.
Definition Set_ (e : event) : event := mkEvent (gen e) true.
Definition Clear (e : event) : event := if set e then mkEvent (S (gen e)) false else e.

(** [Wait], on the channel of generation [g]. *)
Definition released (g : nat) (e : event) : bool := Nat.ltb g (gen e) || set e.

(** Where the input goroutine is. *)
Inductive input_pos :=
| IGate                          (** waiting for the StartFrame to be queued *)
| IGet
| ICheck (it : item)             (** taken; about to look at the pause *)
| IWait (it : item) (g : nat)    (** held, on that channel of the event *)
| IUnblock (it : item)           (** released; about to clear the pause *)
| IBegin (it : item)             (** about to call ProcessFrame *)
| IJoin (it : item) (restart : bool)  (** waiting for the process goroutine to exit *)
| IHandle (it : item)            (** in the concrete processor's own part *)
| IExit.

(** Where a process goroutine is; [ev] is the pause event it waits on, and [g] the
    channel of it. *)
Inductive proc_pos :=
| PTop                           (** about to clear the current frame *)
| PGet
| PTaken (it : item)             (** off the queue, not yet the current frame *)
| PCheck (it : item)
| PWait (it : item) (ev g : nat)
| PUnblock (it : item) (ev : nat)
| PBegin (it : item)
| PHandle (it : item)
| PExit.

Record proc := mkProc { canceled : bool; at_ : proc_pos }.

(** Who began to handle a frame, and whether under a canceled context. *)
Inductive began :=
| ByInput (it : item)
| ByProcess (it : item) (ctxDone : bool).

Record Base := mkBase {
  name : string;
  canceling : bool;
  startGate : bool;
  inputQueue : queue;
  input : input_pos;
  blockSystemFrames : bool;
  inputEvent : event;
  blockFrames : bool;
  events : gmap nat event;          (** the pause events made so far *)
  processEvent : nat;              (** the one in force *)
  pendingResume : bool;
  procQueue : queue;
  procRunning : bool;
  procs : list proc;               (** every process goroutine, the newest last *)
  curFrame : option item;
  baseDone : bool;                 (** the lifetime context is done *)
  (* what happened *)
  arrived : list item;             (** frames accepted by QueueFrame *)
  forwarded : list item;           (** frames handed to the process queue *)
  taken : list item;               (** frames taken off it *)
  abandoned : list item;           (** frames a canceled goroutine gave up on *)
  log : list began
}.

#[export] Instance eta_Base : Eta Base := fun b =>
  mkBase (name b) (canceling b) (startGate b) (inputQueue b) (input b) (blockSystemFrames b)
    (inputEvent b) (blockFrames b) (events b) (processEvent b) (pendingResume b) (procQueue b)
    (procRunning b) (procs b) (curFrame b) (baseDone b) (arrived b) (forwarded b) (taken b)
    (abandoned b) (log b).

(** [New] and [Setup]: the input goroutine exists, and drains nothing yet. *)
Definition New (n : string) : Base :=
  mkBase n false false newQueue IGate false newEvent false ∅ 0 false newQueue false [] None false
    [] [] [] [] [].

(** ** Operations *)

Definition QueueFrame (it : item) (b : Base) : Base :=
  if canceling b then b
  else
    let b := b <| inputQueue ::= push it |> <| arrived ::= fun l => l ++ [it] |> in
    if isStartFrame (frame it) then b <| startGate := true |> else b.

(** [resetProcessTask]: a fresh pause gate, and the in-order queue flushed. *)
Definition resetProcessTask (b : Base) : Base :=
  let e := S (processEvent b) in
  b <| blockFrames := false |> <| processEvent := e |> <| events ::= insert e newEvent |>
    <| procQueue ::= reset |>.

Definition createProcessTask (b : Base) : Base :=
  if procRunning b then b
  else (resetProcessTask b) <| procRunning := true |> <| procs ::= fun l => l ++ [mkProc false PTop] |>.

(** The part of [cancelProcessTask] before its wait: whether there is one to wait
    for. *)
Definition cancelNewest (l : list proc) : list proc :=
  match last l with
  | Some p => removelast l ++ [mkProc true (at_ p)]
  | None => l
  end.
Definition cancelProcessTask (b : Base) : bool * Base :=
  if procRunning b then (true, b <| procRunning := false |> <| procs ::= cancelNewest |>)
  else (false, b).

Definition eventAt (ev : nat) (b : Base) : event := from_nil newEvent (events b !! ev).
Definition onEvent (f : event -> event) (ev : nat) (b : Base) : Base :=
  b <| events ::= insert ev (f (eventAt ev b)) |>.

Definition PauseProcessingFrames (b : Base) : Base :=
  onEvent Clear (processEvent b) (b <| blockFrames := true |>).
Definition PauseProcessingSystemFrames (b : Base) : Base :=
  b <| blockSystemFrames := true |> <| inputEvent ::= Clear |>.
Definition ResumeProcessingFrames (b : Base) : Base := onEvent Set_ (processEvent b) b.
Definition ResumeProcessingSystemFrames (b : Base) : Base := b <| inputEvent ::= Set_ |>.

Definition addressed (target : option string) (b : Base) : bool :=
  match target with Some n => bool_decide (n = name b) | None => false end.

Definition pauseIfAddressed (target : option string) (b : Base) : Base :=
  if addressed target b then PauseProcessingFrames b else b.
Definition resumeIfAddressed (target : option string) (b : Base) : Base :=
  if addressed target b then b <| pendingResume := true |> else b.
Definition applyPendingResume (b : Base) : Base :=
  if pendingResume b then ResumeProcessingFrames (b <| pendingResume := false |>) else b.

(** [isUninterruptible(b.currentFrame())] *)
Definition curUninterruptible (b : Base) : bool :=
  match curFrame b with Some it => isUninterruptible (frame it) | None => false end.

(** [Base.ProcessFrame] on the input goroutine, up to the wait if there is one. *)
Definition startInterruption (it : item) (b : Base) : Base :=
  if curUninterruptible b then b <| procQueue ::= reset |> <| input := IHandle it |>
  else
    let '(wait, b) := cancelProcessTask b in
    if wait then b <| input := IJoin it true |> else (createProcessTask b) <| input := IHandle it |>.

Definition cancel (it : item) (b : Base) : Base :=
  let '(wait, b) := cancelProcessTask (b <| canceling := true |>) in
  b <| input := if wait then IJoin it false else IHandle it |>.

Definition inputProcessFrame (it : item) (b : Base) : Base :=
  match payload (frame it) with
  | StartFrame => (createProcessTask b) <| input := IHandle it |>
  | InterruptionFrame => startInterruption it b
  | CancelFrame _ => cancel it b
  | FrameProcessorPauseUrgentFrame t => (pauseIfAddressed t b) <| input := IHandle it |>
  | FrameProcessorResumeUrgentFrame t => (resumeIfAddressed t b) <| input := IHandle it |>
  | _ => b <| input := IHandle it |>
  end.

(** ... and on the process goroutine, which only handles data and control frames. *)
Definition procProcessFrame (it : item) (b : Base) : Base :=
  match payload (frame it) with
  | FrameProcessorPauseFrame t => pauseIfAddressed t b
  | FrameProcessorResumeFrame t => resumeIfAddressed t b
  | _ => b
  end.

(** The input loop with a frame it may now deal with. *)
Definition dispatch (it : item) (b : Base) : Base :=
  if isSystemFrame (frame it) then b <| input := IBegin it |>
  else b <| procQueue ::= push it |> <| forwarded ::= fun l => l ++ [it] |> <| input := IGet |>.

(** Process goroutine [i] moves to [p]. *)
Definition go (i : nat) (p : proc_pos) (b : Base) : Base :=
  b <| procs ::= alter (fun q => mkProc (canceled q) p) i |>.

Definition ctxDone (p : proc) (b : Base) : bool := canceled p || baseDone b.

(** ** Steps

    The label says whether a step can release a held frame: a resume, or what
    resets the pause. *)

Inductive label := Plain | Releasing.

Definition releases (it : item) : label :=
  match payload (frame it) with
  | StartFrame | InterruptionFrame => Releasing
  | FrameProcessorResumeFrame _ | FrameProcessorResumeUrgentFrame _ => Releasing
  | _ => Plain
  end.

Inductive step : label -> Base -> Base -> Prop :=
(* anyone *)
| s_queue it b : step Plain b (QueueFrame it b)
| s_pause b : step Plain b (PauseProcessingFrames b)
| s_pauseSystem b : step Plain b (PauseProcessingSystemFrames b)
| s_resume b : step Releasing b (ResumeProcessingFrames b)
| s_resumeSystem b : step Plain b (ResumeProcessingSystemFrames b)
| s_broadcastInterruption b : step Releasing b (resetProcessTask b)
(* [Cleanup]: [cancelProcessTask], then [cancelInputTask] *)
| s_cleanupProcess b : step Plain b (cancelProcessTask b).2
| s_cleanupInput b : step Plain b (b <| baseDone := true |>)
(* the input goroutine *)
| s_gate b : input b = IGate -> startGate b = true -> step Plain b (b <| input := IGet |>)
| s_gateDone b : input b = IGate -> baseDone b = true -> step Plain b (b <| input := IExit |>)
| s_inGet b it q : input b = IGet -> get (inputQueue b) = Some (it, q) ->
    step Plain b (b <| inputQueue := q |> <| input := ICheck it |>)
| s_inDone b : input b = IGet -> get (inputQueue b) = None -> baseDone b = true ->
    step Plain b (b <| input := IExit |>)
| s_inPass b it : input b = ICheck it -> blockSystemFrames b = false -> step Plain b (dispatch it b)
| s_inHold b it : input b = ICheck it -> blockSystemFrames b = true -> step Plain b 
    (b <| input := IWait it (gen (inputEvent b)) |>)
| s_inWake b it g : input b = IWait it g -> released g (inputEvent b) = true -> step Plain b (b <| input := IUnblock it |>)
| s_inStop b it g : input b = IWait it g -> baseDone b = true -> step Plain b (b <| input := IExit |>)
| s_inUnblock b it : input b = IUnblock it ->
    step Plain b (dispatch it (b <| inputEvent ::= Clear |> <| blockSystemFrames := false |>))
| s_inBegin b it : input b = IBegin it ->
    step (releases it) b (inputProcessFrame it (b <| log ::= fun l => l ++ [ByInput it] |>))
| s_inJoin b it restart p : input b = IJoin it restart ->
    last (procs b) = Some p -> at_ p = PExit ->
    step Releasing b ((if restart then createProcessTask b else b) <| input := IHandle it |>)
| s_inJoinTimeout b it restart : input b = IJoin it restart ->
    step Releasing b ((if restart then createProcessTask b else b) <| input := IHandle it |>)
| s_inEnd b it : input b = IHandle it ->
    step (if pendingResume b then Releasing else Plain) b (applyPendingResume (b <| input := IGet |>))
(* a process goroutine *)
| s_top b i p : procs b !! i = Some p -> at_ p = PTop -> step Plain b (go i PGet (b <| curFrame := None |>))
| s_get b i p it q : procs b !! i = Some p -> at_ p = PGet -> get (procQueue b) = Some (it, q) ->
    step Plain b (go i (PTaken it) (b <| procQueue := q |> <| taken ::= fun l => l ++ [it] |>))
| s_getDone b i p : procs b !! i = Some p -> at_ p = PGet -> get (procQueue b) = None ->
    ctxDone p b = true -> step Plain b (go i PExit b)
| s_current b i p it : procs b !! i = Some p -> at_ p = PTaken it ->
    step Plain b (go i (PCheck it) (b <| curFrame := Some it |>))
| s_pass b i p it : procs b !! i = Some p -> at_ p = PCheck it -> blockFrames b = false ->
    step Plain b (go i (PBegin it) b)
| s_hold b i p it : procs b !! i = Some p -> at_ p = PCheck it -> blockFrames b = true ->
    step Plain b (go i (PWait it (processEvent b) (gen (eventAt (processEvent b) b))) b)
| s_wake b i p it ev g : procs b !! i = Some p -> at_ p = PWait it ev g -> released g (eventAt ev b) = true ->
    step Plain b (go i (PUnblock it ev) b)
| s_abandon b i p it ev g : procs b !! i = Some p -> at_ p = PWait it ev g -> ctxDone p b = true ->
    step Plain b (go i PExit (b <| abandoned ::= fun l => l ++ [it] |>))
| s_unblock b i p it ev : procs b !! i = Some p -> at_ p = PUnblock it ev ->
    step Plain b (go i (PBegin it) ((onEvent Clear ev b) <| blockFrames := false |>))
| s_begin b i p it : procs b !! i = Some p -> at_ p = PBegin it ->
    step (releases it) b (go i (PHandle it) (procProcessFrame it
      (b <| log ::= fun l => l ++ [ByProcess it (ctxDone p b)] |>)))
| s_end b i p it : procs b !! i = Some p -> at_ p = PHandle it ->
    step (if pendingResume b then Releasing else Plain) b (applyPendingResume (go i PTop b)).

Definition anystep (b b' : Base) : Prop := exists l, step l b b'.

(** ** What the operations leave alone *)

Ltac unfold_ops := unfold QueueFrame, inputProcessFrame, procProcessFrame, startInterruption, cancel,
  cancelProcessTask, createProcessTask, resetProcessTask, pauseIfAddressed, resumeIfAddressed,
  applyPendingResume, PauseProcessingFrames, PauseProcessingSystemFrames, ResumeProcessingFrames,
  ResumeProcessingSystemFrames, onEvent, dispatch, go in *.

(** Split every test of the operations, leaving the record in constructor form. *)
Ltac ops := unfold_ops; simpl in *; repeat (case_match; simpl in *); simplify_eq/=.

(** Each frame sits in the tier it belongs to. *)
Record sorted (q : queue) : Prop := {
  q_start : Forall (fun it => isStartFrame (frame it) = true) (start q);
  q_system : Forall (fun it => isSystemFrame (frame it) = true) (system q);
  q_other : Forall (fun it => isSystemFrame (frame it) = false) (other q)
}.

Lemma sorted_push it q : sorted q -> sorted (push it q).
Proof.
  intros [H1 H2 H3]. unfold push. destruct (isStartFrame (frame it)) eqn:E1;
    [|destruct (isSystemFrame (frame it)) eqn:E2]; split; simpl; try done;
    by apply Forall_app; split; [|constructor].
Qed.

Lemma sorted_get q it q' : sorted q -> get q = Some (it, q') -> sorted q'.
Proof.
  destruct q as [s y o]. intros [H1 H2 H3] E. unfold get in E. simpl in *.
  destruct s as [|x s]; [destruct y as [|x y]; [destruct o as [|x o]; [done|]|]|];
    injection E as <- <-; split; simpl; try done; by eapply Forall_inv_tail.
Qed.

Lemma sorted_reset q : sorted q -> sorted (reset q).
Proof. intros [H1 H2 H3]. split; simpl; try done. apply Forall_forall. intros x Hx.
  apply list_elem_of_In, filter_In in Hx as [Hx _]. by eapply Forall_forall in H3; [|by apply list_elem_of_In]. Qed.

(** ** Nothing before the StartFrame *)

Definition is_start (e : began) : bool :=
  match e with ByInput it => isStartFrame (frame it) | ByProcess _ _ => false end.

(** Until something has been handled: no process goroutine, and the StartFrame
    next. *)
Definition unstarted (b : Base) : Prop :=
  procs b = [] /\
  match input b with
  | IGate => startGate b = true -> start (inputQueue b) <> []
  | IGet => start (inputQueue b) <> []
  | ICheck it | IWait it _ | IUnblock it | IBegin it => isStartFrame (frame it) = true
  | IJoin _ _ | IHandle _ => False
  | IExit => True
  end.

Definition start_inv (b : Base) : Prop :=
  sorted (inputQueue b) /\
  match log b with [] => unstarted b | e :: _ => is_start e = true end.

Lemma start_push it q : start q <> [] -> start (push it q) <> [].
Proof. unfold push. case_match; [|by case_match]. simpl. by destruct (start q). Qed.

Lemma start_pushed it q : isStartFrame (frame it) = true -> start (push it q) <> [].
Proof. unfold push. intros ->. simpl. by destruct (start q). Qed.

Lemma get_start q it q' : sorted q -> start q <> [] -> get q = Some (it, q') -> isStartFrame (frame it) = true.
Proof.
  intros [H1 _ _] Hne E. unfold get in E. destruct (start q) as [|x l]; [done|]. simplify_eq. by inversion H1.
Qed.

#[local] Hint Resolve sorted_push sorted_get sorted_reset start_push start_pushed get_start : core.

Lemma log_grows l b b' : step l b b' -> exists k, log b' = log b ++ k.
Proof.
  destruct 1; ops; try (exists []; by rewrite app_nil_r); eauto.
Qed.

Lemma inputQueue_sorted l b b' : step l b b' -> sorted (inputQueue b) -> sorted (inputQueue b').
Proof. destruct 1; intros Hq; ops; eauto. Qed.

Lemma unstarted_step l b b' :
  step l b b' -> sorted (inputQueue b) -> log b = [] -> unstarted b ->
  match log b' with [] => unstarted b' | e :: _ => is_start e = true end.
Proof.
  intros Hs Hq El [Hp Hi].
  destruct Hs; try (match goal with E : procs _ !! _ = Some _ |- _ => by rewrite Hp in E end).
  all: try match goal with E : input _ = _ |- _ => rewrite E in Hi end.
  (* the log stays empty but where a frame begins *)
  all: try match goal with |- context [inputProcessFrame] => idtac | _ =>
    match goal with |- match log ?b with _ => _ end => assert (log b = []) as -> by (ops; done) end end.
  all: try (done || (unfold unstarted; ops; split; try done; by eauto)).
  - (* cleanup *) unfold unstarted. ops; split; try done; unfold cancelNewest; by rewrite Hp.
  - (* dispatch *) unfold dispatch. rewrite (isStartFrame_system _ Hi). by split.
  - unfold dispatch. rewrite (isStartFrame_system _ Hi). by split.
  - assert (exists k, log (inputProcessFrame it (b <| log ::= fun l => l ++ [ByInput it] |>)) = ByInput it :: k)
      as [k ->] by (ops; rewrite El; simpl; eauto). done.
Qed.

Lemma start_inv_step b b' : anystep b b' -> start_inv b -> start_inv b'.
Proof.
  intros [l Hs] [Hq Hl]. split; [by eapply inputQueue_sorted|].
  destruct (log b) as [|e l0] eqn:El; [by eapply unstarted_step|].
  destruct (log_grows _ _ _ Hs) as [k ->]. by rewrite El.
Qed.

(** ** Order *)

Definition data (it : item) : bool := negb (isSystemFrame (frame it)).
Definition keep (it : item) : bool := isUninterruptible (frame it).

(** The frame the input goroutine holds between the two queues, if it is one for
    the process queue. *)
Definition inHand (b : Base) : list item :=
  match input b with
  | ICheck it | IWait it _ | IUnblock it => List.filter data [it]
  | _ => []
  end.

Record order_inv (b : Base) : Prop := {
  o_in : sorted (inputQueue b);
  o_proc : start (procQueue b) = [] /\ system (procQueue b) = [];
  o_begin it : input b = IBegin it -> isSystemFrame (frame it) = true;
  o_arrived : input b = IExit \/
    List.filter data (arrived b) = forwarded b ++ inHand b ++ other (inputQueue b);
  o_prefix : forwarded b `prefix_of` List.filter data (arrived b);
  o_queued : taken b ++ other (procQueue b) `sublist_of` forwarded b;
  o_kept : List.filter keep (taken b ++ other (procQueue b)) = List.filter keep (forwarded b)
}.

Lemma filter_keep_idem l : List.filter keep (List.filter keep l) = List.filter keep l.
Proof. rewrite filter_filter_comm. apply filter_ext_bool. intros x _. by destruct (keep x). Qed.

Lemma sublist_filter_bool {X} (P : X -> bool) (l : list X) : List.filter P l `sublist_of` l.
Proof. induction l as [|x l IH]; simpl; [done|]. destruct (P x); by constructor. Qed.

Lemma other_push it q :
  other (push it q) = other q ++ List.filter data [it].
Proof.
  unfold push, data. simpl. destruct (isStartFrame (frame it)) eqn:Es.
  - rewrite (isStartFrame_system _ Es). simpl. by rewrite app_nil_r.
  - destruct (isSystemFrame (frame it)); simpl; by rewrite ?app_nil_r.
Qed.

Lemma data_push it q :
  isSystemFrame (frame it) = false ->
  start (push it q) = start q /\ system (push it q) = system q /\ other (push it q) = other q ++ [it].
Proof.
  intros E. unfold push. rewrite E. destruct (isStartFrame (frame it)) eqn:Es; [|done].
  by rewrite (isStartFrame_system _ Es) in E.
Qed.

Lemma other_get q it q' :
  sorted q -> get q = Some (it, q') -> other q = List.filter data [it] ++ other q'.
Proof.
  destruct q as [s y o]. intros [H1 H2 H3] E. unfold get, data in *. simpl in *.
  destruct s as [|x s]; [destruct y as [|x y]; [destruct o as [|x o]; [done|]|]|];
    injection E as <- <-; simpl.
  - apply Forall_inv in H3. by rewrite H3.
  - apply Forall_inv in H2. by rewrite H2.
  - apply Forall_inv in H1. by rewrite (isStartFrame_system _ H1).
Qed.

Lemma proc_get q it q' :
  start q = [] /\ system q = [] -> get q = Some (it, q') ->
  (start q' = [] /\ system q' = []) /\ other q = it :: other q'.
Proof.
  destruct q as [s y o]. simpl. intros [-> ->] E. destruct o; [done|]. unfold get in E. simpl in E.
  by injection E as <- <-.
Qed.

(** What the process queue may do: keep its frames, lose interruptible ones. *)
Definition flushed (b b' : Base) : Prop :=
  procQueue b' = procQueue b \/ procQueue b' = reset (procQueue b).

Lemma order_flush b b' :
  flushed b b' -> inputQueue b' = inputQueue b -> arrived b' = arrived b -> forwarded b' = forwarded b ->
  taken b' = taken b ->
  (input b' = input b \/ input b' = IExit \/ (input b <> IExit /\ inHand b' = inHand b)) ->
  (forall it, input b' = IBegin it -> input b = IBegin it) -> order_inv b -> order_inv b'.
Proof.
  intros Hf E1 E2 E3 E4 E5 Hb [O1 O2 O3 O4 O5 O6 O7].
  split; rewrite ?E1, ?E2, ?E3, ?E4; try done.
  - by destruct Hf as [-> | ->].
  - intros it Ei. by apply O3, Hb.
  - destruct E5 as [E|[E|[E E']]]; [|by left|right].
    + unfold inHand in *. by rewrite E.
    + destruct O4 as [?|O4]; [done|]. by rewrite E'.
  - destruct Hf as [-> | ->]; [done|]. etrans; [|exact O6]. apply sublist_app; [done|]. apply sublist_filter_bool.
  - destruct Hf as [-> | ->]; [done|]. rewrite <- O7. simpl. rewrite !List.filter_app. f_equal. apply filter_keep_idem.
Qed.

(** The three moves of a frame: accepted, handed on, taken. *)
Lemma order_queue it b : order_inv b -> order_inv (QueueFrame it b).
Proof.
  intros Ho. unfold QueueFrame. destruct (canceling b); [done|]. destruct Ho as [O1 O2 O3 O4 O5 O6 O7].
  assert (order_inv (b <| inputQueue ::= push it |> <| arrived ::= fun l => l ++ [it] |>)) as Ho.
  { split; simpl; try done.
    - by apply sorted_push.
    - destruct O4 as [?|O4]; [by left|right].
      rewrite filter_snoc_bool, O4, other_push, <- !app_assoc. unfold inHand. simpl. done.
    - rewrite filter_snoc_bool. by apply prefix_app_r. }
  destruct (isStartFrame (frame it)); [|done]. revert Ho.
  by apply order_flush; auto; left.
Qed.

Lemma order_inGet b it q :
  input b = IGet -> get (inputQueue b) = Some (it, q) -> order_inv b ->
  order_inv (b <| inputQueue := q |> <| input := ICheck it |>).
Proof.
  intros Ei Eg [O1 O2 O3 O4 O5 O6 O7]. split; simpl; try done; [by eapply sorted_get|].
  right. destruct O4 as [?|O4]; [congruence|]. rewrite O4, (other_get _ _ _ O1 Eg).
  unfold inHand. rewrite Ei. done.
Qed.

Lemma order_dispatch b it :
  (input b = ICheck it \/ input b = IUnblock it) -> order_inv b -> order_inv (dispatch it b).
Proof.
  intros Ei [O1 O2 O3 O4 O5 O6 O7].
  assert (inHand b = List.filter data [it]) as Eh by (unfold inHand; by destruct Ei as [-> | ->]).
  assert (input b <> IExit) as Hne by (destruct Ei as [-> | ->]; done).
  destruct O4 as [?|O4]; [done|]. rewrite Eh in O4.
  assert (List.filter data [it] = if isSystemFrame (frame it) then [] else [it]) as Ed
    by (unfold data; simpl; by destruct (isSystemFrame _)).
  rewrite Ed in O4. unfold dispatch.
  destruct (isSystemFrame (frame it)) eqn:Es; simpl in O4.
  - split; simpl; try done; [by intros ? [= <-]|by right].
  - destruct (data_push it (procQueue b) Es) as (E1 & E2 & E3).
    split; simpl; try done.
    + by rewrite E1, E2.
    + right. by rewrite O4, <- app_assoc.
    + rewrite O4. exists (other (inputQueue b)). by rewrite <- app_assoc.
    + rewrite E3, app_assoc. by apply sublist_app.
    + rewrite E3, app_assoc, !List.filter_app. f_equal. by rewrite <- List.filter_app.
Qed.

Lemma order_get b i p it q :
  get (procQueue b) = Some (it, q) -> order_inv b ->
  order_inv (go i p (b <| procQueue := q |> <| taken ::= fun l => l ++ [it] |>)).
Proof.
  intros Eg [O1 O2 O3 O4 O5 O6 O7]. destruct (proc_get _ _ _ O2 Eg) as [E1 E2].
  split; simpl; try done; rewrite <- app_assoc; simpl; by rewrite <- E2.
Qed.

(** The operations that leave the input goroutine where it is. *)
Lemma order_keep b b' :
  flushed b b' -> inputQueue b' = inputQueue b -> arrived b' = arrived b -> forwarded b' = forwarded b ->
  taken b' = taken b -> input b' = input b -> order_inv b -> order_inv b' /\ input b' = input b.
Proof.
  intros Hf E1 E2 E3 E4 E5 Ho. split; [|done]. revert Ho. apply order_flush; try done; [by left|].
  by rewrite E5.
Qed.

Lemma order_create b : order_inv b -> order_inv (createProcessTask b) /\ input (createProcessTask b) = input b.
Proof. unfold createProcessTask. case_match; [done|]. by apply order_keep; [by right|..]. Qed.

Lemma order_cancelTask b :
  order_inv b -> order_inv (cancelProcessTask b).2 /\ input (cancelProcessTask b).2 = input b.
Proof. unfold cancelProcessTask. case_match; [|done]. by apply order_keep; [by left|..]. Qed.

Lemma order_pending b :
  order_inv b -> order_inv (applyPendingResume b) /\ input (applyPendingResume b) = input b.
Proof. unfold applyPendingResume. case_match; [|done]. by apply order_keep; [by left|..]. Qed.

(** Between two frames in hand. *)
Lemma order_idle b p :
  input b <> IExit -> inHand b = [] -> (forall it g, p <> ICheck it /\ p <> IWait it g /\ p <> IUnblock it /\ p <> IBegin it) ->
  order_inv b -> order_inv (b <| input := p |>).
Proof.
  intros H1 H2 Hp. apply order_flush; try done; [by left| |].
  - right. right. split; [done|]. rewrite H2. unfold inHand. simpl.
    destruct p as [| |x|x g|x|x|x r|x|]; try done; by destruct (Hp x ltac:(first [exact g|exact 0])) as (?&?&?&?).
  - intros it E. simpl in E. by destruct (Hp it 0) as (?&?&?&?).
Qed.

Lemma order_begin b it e :
  input b = IBegin it -> order_inv b -> order_inv (inputProcessFrame it (b <| log ::= fun l => l ++ [e] |>)).
Proof.
  intros Ei Ho. set (b1 := b <| log ::= fun l => l ++ [e] |>).
  assert (order_inv b1 /\ input b1 = IBegin it) as [Ho1 Ei1]
    by (split; [revert Ho; apply order_flush; try done; by left|done]).
  clearbody b1. clear Ho Ei b.
  assert (forall b' p, order_inv b' -> input b' = input b1 -> p = IHandle it \/ (exists r, p = IJoin it r) ->
            order_inv (b' <| input := p |>)) as Hset.
  { intros b' p Ho' E Hp. apply order_idle; [by rewrite E, Ei1|by unfold inHand; rewrite E, Ei1| |done].
    intros x g. by destruct Hp as [-> |[r ->]]. }
  destruct (order_create b1 Ho1) as [C1 C2]. destruct (order_cancelTask b1 Ho1) as [D1 D2].
  unfold inputProcessFrame. destruct (payload (frame it)); try (by apply Hset; auto).
  - unfold cancel. assert (order_inv (b1 <| canceling := true |>) /\ input (b1 <| canceling := true |>) = input b1) as [Hc Ec]
      by (by apply order_keep; [by left|..]).
    destruct (order_cancelTask _ Hc) as [D3 D4]. destruct (cancelProcessTask (b1 <| canceling := true |>)) as [w b2].
    simpl in *. apply Hset; [done|congruence|]. destruct w; eauto.
  - unfold startInterruption. destruct (curUninterruptible b1).
    + apply Hset; [|done|auto]. by apply (order_keep b1); [by right|..].
    + destruct (cancelProcessTask b1) as [w b2]. simpl in *. destruct w; [apply Hset; eauto|].
      destruct (order_create b2 D1) as [C3 C4]. apply Hset; [done|congruence|auto].
  - apply Hset; [|unfold pauseIfAddressed; by case_match|auto].
    unfold pauseIfAddressed. case_match; [|done]. by apply (order_keep b1); [by left|..].
  - apply Hset; [|unfold resumeIfAddressed; by case_match|auto].
    unfold resumeIfAddressed. case_match; [|done]. by apply (order_keep b1); [by left|..].
Qed.

Lemma order_inv_step b b' : anystep b b' -> order_inv b -> order_inv b'.
Proof.
  intros [l Hs] Ho.
  destruct Hs; try (by apply order_queue); try (by eapply order_inGet); try (by eapply order_get);
    try (by apply order_dispatch; auto); try (by apply order_begin).
  all: try (by revert Ho; apply order_flush; [by left|done..|by left|done]).
  all: try (by revert Ho; apply order_flush; [by right|done..|by left|done]).
  all: try (by revert Ho; apply order_flush; [by left|done..|right; right; unfold inHand; simpl;
              match goal with E : input _ = _ |- _ => rewrite E end; done|done]).
  - destruct (order_cancelTask b Ho) as [H1 H2]. revert H1. apply order_flush; try done; by left.
  - revert Ho. apply order_flush; try done; [by left|]. by right; left.
  - apply order_dispatch; [by right|]. revert Ho. apply order_flush; try done; by left.
  - destruct (order_create b Ho) as [H2 H3].
    assert (order_inv (if restart then createProcessTask b else b) /\
            input (if restart then createProcessTask b else b) = IJoin it restart) as [H4 H5]
      by (destruct restart; split; congruence || done).
    apply order_idle; [by rewrite H5|by unfold inHand; rewrite H5|done|done].
  - destruct (order_create b Ho) as [H2 H3].
    assert (order_inv (if restart then createProcessTask b else b) /\
            input (if restart then createProcessTask b else b) = IJoin it restart) as [H4 H5]
      by (destruct restart; split; congruence || done).
    apply order_idle; [by rewrite H5|by unfold inHand; rewrite H5|done|done].
  - apply order_pending. apply order_idle; [congruence|by unfold inHand; rewrite H|done|done].
  - revert Ho. unfold procProcessFrame, pauseIfAddressed, resumeIfAddressed.
    apply order_flush; repeat case_match; try done; by left.
  - apply order_pending. revert Ho. apply order_flush; try done; by left.
Qed.

(** ** Conservation *)

(** The frames process goroutines began to handle, and those they hold. *)
Definition begunBy (e : began) : list item := match e with ByInput _ => [] | ByProcess it _ => [it] end.
Definition begun (b : Base) : list item := List.flat_map begunBy (log b).

Definition heldAt (p : proc_pos) : list item :=
  match p with
  | PTaken it | PCheck it | PWait it _ _ | PUnblock it _ | PBegin it => [it]
  | _ => []
  end.
Definition held (b : Base) : list item := List.flat_map (fun p => heldAt (at_ p)) (procs b).

Definition conserved (b : Base) : Prop := taken b ≡ₚ begun b ++ abandoned b ++ held b.

Lemma flat_map_alter {X Y} (f : X -> list Y) (g : X -> X) l i x :
  l !! i = Some x -> List.flat_map f (alter g i l) ++ f x ≡ₚ List.flat_map f l ++ f (g x).
Proof.
  revert i. induction l as [|y l IH]; intros [|i] Hl; simplify_eq/=.
  - solve_Permutation.
  - rewrite <- !app_assoc. f_equiv. by apply IH.
Qed.

Lemma held_go i p q b :
  procs b !! i = Some p -> held (go i q b) ++ heldAt (at_ p) ≡ₚ held b ++ heldAt q.
Proof. intros Hp. exact (flat_map_alter (fun p => heldAt (at_ p)) (fun p => mkProc (canceled p) q) _ _ _ Hp). Qed.

Lemma held_cancelNewest l :
  List.flat_map (fun p => heldAt (at_ p)) (cancelNewest l) = List.flat_map (fun p => heldAt (at_ p)) l.
Proof.
  unfold cancelNewest. destruct (last l) as [p|] eqn:E; [|done].
  destruct l as [|x l] using rev_ind; [done|]. rewrite last_snoc in E. injection E as ->.
  rewrite removelast_last, !List.flat_map_app. done.
Qed.

(** Nothing moved. *)
Record still (b b' : Base) : Prop := {
  t_taken : taken b' = taken b;
  t_begun : begun b' = begun b;
  t_abandoned : abandoned b' = abandoned b;
  t_held : held b' = held b
}.

Lemma still_conserved b b' : still b b' -> conserved b -> conserved b'.
Proof. intros [E1 E2 E3 E4]. unfold conserved. by rewrite E1, E2, E3, E4. Qed.

Lemma still_trans b1 b2 b3 : still b1 b2 -> still b2 b3 -> still b1 b3.
Proof. intros [] []. split; congruence. Qed.

Lemma still_create b : still b (createProcessTask b).
Proof.
  unfold createProcessTask. case_match; [done|]. split; try done. unfold held. simpl.
  rewrite List.flat_map_app. simpl. by rewrite app_nil_r.
Qed.

Lemma still_cancelTask b : still b (cancelProcessTask b).2.
Proof. unfold cancelProcessTask. case_match; [|done]. split; try done. apply held_cancelNewest. Qed.

Lemma still_begin it b : still b (inputProcessFrame it (b <| log ::= fun l => l ++ [ByInput it] |>)).
Proof.
  set (b1 := b <| log ::= fun l => l ++ [ByInput it] |>).
  assert (still b b1) as H1.
  { split; try done. unfold begun. simpl. rewrite List.flat_map_app. simpl. by rewrite app_nil_r. }
  apply (still_trans _ b1); [done|]. clearbody b1. clear H1.
  pose proof (still_create b1) as HC. pose proof (still_cancelTask b1) as HD.
  unfold inputProcessFrame. destruct (payload (frame it)); try by split.
  - destruct HC; by split.
  - unfold cancel. assert (still b1 (b1 <| canceling := true |>)) as H1 by by split.
    pose proof (still_cancelTask (b1 <| canceling := true |>)) as H2.
    destruct (cancelProcessTask (b1 <| canceling := true |>)) as [w b2]. simpl in H2.
    destruct (still_trans _ _ _ H1 H2). by split.
  - unfold startInterruption. case_match; [by split|]. destruct (cancelProcessTask b1) as [[] b2]; simpl in HD.
    + destruct HD. by split.
    + destruct (still_trans _ _ _ HD (still_create b2)). by split.
  - unfold pauseIfAddressed. case_match; by split.
  - unfold resumeIfAddressed. case_match; by split.
Qed.

Lemma still_pending b : still b (applyPendingResume b).
Proof. unfold applyPendingResume. case_match; by split. Qed.

(** A process goroutine moves between positions that hold the same. *)
Lemma still_go i p q b b1 :
  procs b !! i = Some p -> heldAt q = heldAt (at_ p) -> still b b1 -> procs b1 = procs b -> still b (go i q b1).
Proof.
  intros Hp Hq [E1 E2 E3 E4] Ep. split; try done. rewrite <- E4. unfold held, go. simpl. rewrite <- Ep in Hp. clear Ep.
  revert i Hp. induction (procs b1) as [|x l IH]; intros [|i] Hp; simplify_eq/=; [by rewrite Hq|].
  f_equal. by apply IH.
Qed.

(** What a step does to the frames of the process queue: nothing, or one frame
    moves on. *)
Inductive move (b b' : Base) : Prop :=
| m_still : still b b' -> move b b'
| m_take i p it : procs b !! i = Some p -> at_ p = PGet -> procs b' = procs (go i (PTaken it) b) ->
    taken b' = taken b ++ [it] -> begun b' = begun b -> abandoned b' = abandoned b -> move b b'
| m_abandon i p it ev g : procs b !! i = Some p -> at_ p = PWait it ev g -> procs b' = procs (go i PExit b) ->
    taken b' = taken b -> begun b' = begun b -> abandoned b' = abandoned b ++ [it] -> move b b'
| m_begin i p it : procs b !! i = Some p -> at_ p = PBegin it -> procs b' = procs (go i (PHandle it) b) ->
    taken b' = taken b -> begun b' = begun b ++ [it] -> abandoned b' = abandoned b -> move b b'.

Lemma step_move b b' : anystep b b' -> move b b'.
Proof.
  intros [l Hs].
  destruct Hs; try (by apply m_still; unfold QueueFrame, dispatch; repeat case_match; split).
  - apply m_still, still_cancelTask.
  - apply m_still, still_begin.
  - apply m_still. destruct (still_create b). by destruct restart; split.
  - apply m_still. destruct (still_create b). by destruct restart; split.
  - apply m_still. eapply still_trans; [|apply still_pending]. by split.
  - apply m_still. eapply still_go; [eassumption|by rewrite H0|by split|done].
  - by eapply m_take.
  - apply m_still. eapply still_go; [eassumption|by rewrite H0|by split|done].
  - apply m_still. eapply still_go; [eassumption|by rewrite H0|by split|done].
  - apply m_still. eapply still_go; [eassumption|by rewrite H0|by split|done].
  - apply m_still. eapply still_go; [eassumption|by rewrite H0|by split|done].
  - apply m_still. eapply still_go; [eassumption|by rewrite H0|by split|done].
  - by eapply m_abandon.
  - apply m_still. eapply still_go; [eassumption|by rewrite H0|by split|done].
  - eapply (m_begin _ _ i p it); try done;
      unfold procProcessFrame, pauseIfAddressed, resumeIfAddressed, PauseProcessingFrames, onEvent;
      repeat case_match; try done; unfold begun; simpl; by rewrite List.flat_map_app.
  - apply m_still. eapply still_trans; [|apply still_pending].
    eapply still_go; [eassumption|by rewrite H0|by split|done].
Qed.

Lemma held_procs b b' i p q :
  procs b !! i = Some p -> procs b' = procs (go i q b) -> held b' ++ heldAt (at_ p) ≡ₚ held b ++ heldAt q.
Proof.
  intros Hp E. assert (held b' = held (go i q b)) as -> by (unfold held; by rewrite E). by apply held_go.
Qed.

Lemma conserved_step b b' : anystep b b' -> conserved b -> conserved b'.
Proof.
  intros Hs Hc. unfold conserved in *.
  destruct (step_move _ _ Hs) as [Hst|i p it Hp Ep E E1 E2 E3|i p it ev g Hp Ep E E1 E2 E3|i p it Hp Ep E E1 E2 E3];
    [by eapply still_conserved|..]; rewrite E1, E2, E3, Hc;
    pose proof (held_procs _ _ _ _ _ Hp E) as Hh; rewrite Ep in Hh; simpl in Hh; rewrite ?app_nil_r in Hh.
  - rewrite Hh. solve_Permutation.
  - rewrite <- Hh. solve_Permutation.
  - rewrite <- Hh. solve_Permutation.
Qed.

End Processor.
