(* ===== verification/ProcessorRuns.v ===== *)
(** * The processor base: what holds of every run

    Theorems about the step relation of [Processor.v], from a processor that has
    just been set up: nothing is handled before the StartFrame; what is handled in
    order is handled in the order it arrived; nothing uninterruptible is dropped
    between the queues and the handlers; a pause holds until something releases
    it, and a resume reaches whoever waits on the pause in force.  Then the
    schedules the code does not intend: an interruption that runs the backlog it
    interrupts, one that gives up an uninterruptible frame, one that strands a held
    frame, and a pause a late waiter undoes. *)

From S2P Require Import Prelude Frames Queues Processor.

Module ProcRuns.
Import ProcQueue Processor.

(** A state a processor named [n] can be in. *)
Definition reachable (n : string) (b : Base) : Prop := rtc anystep (New n) b.

Lemma reachable_start n b : reachable n b -> start_inv b.
Proof. intros Hr. eapply rtc_invariant; [exact Hr|exact start_inv_step|]. split; [by repeat constructor|]. by split. Qed.

Lemma reachable_order n b : reachable n b -> order_inv b.
Proof.
  intros Hr. eapply rtc_invariant; [exact Hr|exact order_inv_step|].
  split; try done. by right.
Qed.

Lemma reachable_conserved n b : reachable n b -> conserved b.
Proof. intros Hr. eapply rtc_invariant; [exact Hr|exact conserved_step|exact (Permutation_refl [])]. Qed.

(** ** One goroutine at a time *)

Definition exited (p : proc) : bool := match at_ p with PExit => true | _ => false end.
Definition live (b : Base) : nat := length (List.filter (fun p => negb (exited p)) (procs b)).

(** The steps of a run in which an interruption's wait is never cut short, so that
    a process goroutine is only made once the one before has exited. *)
Definition onestep (b b' : Base) : Prop := anystep b b' /\ live b' <= 1.

Lemma held_none l :
  length (List.filter (fun p => negb (exited p)) l) = 0 -> List.flat_map (fun p => heldAt (at_ p)) l = [].
Proof.
  induction l as [|p l IH]; [done|]. simpl. unfold exited at 1. destruct (at_ p); simpl; done.
Qed.

Lemma held_single b i p :
  live b <= 1 -> procs b !! i = Some p -> at_ p <> PExit -> held b = heldAt (at_ p).
Proof.
  unfold live, held. generalize (procs b). intros l. revert i.
  induction l as [|q l IH]; [done|]. intros [|i] Hl Hp Hne; simpl in *.
  - injection Hp as ->. assert (exited p = false) as E by (unfold exited; by destruct (at_ p)).
    rewrite E in Hl. simpl in Hl. rewrite held_none by lia. by rewrite app_nil_r.
  - destruct (exited q) eqn:E; simpl in Hl.
    + unfold exited in E. destruct (at_ q); try done. simpl. by apply (IH i).
    + exfalso. assert (length (List.filter (fun p => negb (exited p)) l) = 0) as E0 by lia.
      apply length_zero_iff_nil in E0. apply list_elem_of_lookup_2, list_elem_of_In in Hp.
      assert (In p (List.filter (fun p => negb (exited p)) l)) as Hi.
      { apply filter_In. split; [done|]. unfold exited. by destruct (at_ p). }
      by rewrite E0 in Hi.
Qed.

(** What was begun and is held, in the order it was taken. *)
Definition in_turn (b : Base) : Prop := begun b ++ held b `sublist_of` taken b.

Lemma still_in_turn b b' : still b b' -> in_turn b -> in_turn b'.
Proof. intros [E1 E2 E3 E4]. unfold in_turn. by rewrite E1, E2, E4. Qed.

Lemma in_turn_step b b' : onestep b b' -> live b <= 1 /\ in_turn b -> live b' <= 1 /\ in_turn b'.
Proof.
  intros [Hs Hl'] [Hl Hi]. split; [done|].
  destruct (step_move _ _ Hs) as [Hst|i p it Hp Ep E E1 E2 E3|i p it ev g Hp Ep E E1 E2 E3|i p it Hp Ep E E1 E2 E3];
    [by eapply still_in_turn|..]; unfold in_turn in *; rewrite E1, E2;
    pose proof (held_single b i p Hl Hp ltac:(by rewrite Ep)) as Eh; rewrite Ep in Eh; rewrite Eh in Hi;
    pose proof (held_procs _ _ _ _ _ Hp E) as Hh; rewrite Ep, Eh in Hh; simpl in *; rewrite ?app_nil_r in *.
  - apply Permutation_sym, Permutation_singleton_l in Hh as ->. by apply sublist_app.
  - apply (Permutation_app_inv_r [it] (held b') []), Permutation_nil_r in Hh as ->.
    rewrite app_nil_r. etrans; [|exact Hi]. by apply sublist_inserts_r.
  - apply (Permutation_app_inv_r [it] (held b') []), Permutation_nil_r in Hh as ->. by rewrite app_nil_r.
Qed.

(** ** The guarantees *)

(** C5: a processor handles nothing before its StartFrame: whatever was queued
    first, the first frame any run handles is a StartFrame, and it is handled by
    the input goroutine. *)
Theorem processor_start_first n b e l :
  reachable n b -> log b = e :: l -> is_start e = true.
Proof. intros Hr E. apply reachable_start in Hr as [_ Hs]. by rewrite E in Hs. Qed.

(** C3: what is handled in order is handled in the order it arrived: in every run
    whose interruptions wait for the goroutine they canceled, the data and control
    frames begun, followed by the one in hand, are a subsequence of those queued,
    so each at most once and none ahead of an earlier one. *)
Theorem processor_in_order n b :
  rtc onestep (New n) b ->
  begun b ++ held b `sublist_of` List.filter data (arrived b).
Proof.
  intros Hr. assert (reachable n b) as Hr' by (eapply rtc_subrel; [|exact Hr]; by intros ?? [? _]).
  apply reachable_order in Hr' as [_ _ _ _ [k Hk] Hq _].
  assert (live b <= 1 /\ in_turn b) as [_ Hi].
  { apply (rtc_invariant onestep (fun b => live b <= 1 /\ in_turn b) (New n));
      [done|exact in_turn_step|split; [apply Nat.le_0_l|constructor]]. }
  rewrite Hk. apply sublist_inserts_r. etrans; [exact Hi|]. etrans; [|exact Hq]. by apply sublist_inserts_r.
Qed.

(** C4: between the queues and the handlers nothing uninterruptible is lost,
    whatever is interrupted, paused, canceled or timed out: every uninterruptible
    data or control frame handed to the process queue has been begun, is in hand,
    is still queued, or was given up by a goroutine canceled while it was held at a
    pause; and interruptible or not, no frame is handled twice. *)
Theorem processor_keeps_uninterruptible n b :
  reachable n b ->
  List.filter keep (forwarded b) ≡ₚ
    List.filter keep (begun b) ++ List.filter keep (held b) ++
    List.filter keep (other (procQueue b)) ++ List.filter keep (abandoned b) /\
  (NoDup (arrived b) -> NoDup (begun b)).
Proof.
  intros Hr. pose proof (reachable_conserved _ _ Hr) as Hc. apply reachable_order in Hr as [_ _ _ _ [k Hk] Hq Hf].
  unfold conserved in Hc. split.
  - rewrite <- Hf. rewrite List.filter_app. rewrite (filter_bool_perm keep _ _ Hc), !List.filter_app.
    solve_Permutation.
  - intros Hn. assert (NoDup (List.filter data (arrived b))) as Hn1 by (eapply sublist_NoDup; [exact Hn|apply sublist_filter_bool]).
    rewrite Hk in Hn1. apply NoDup_app in Hn1 as [Hn1 _].
    assert (NoDup (taken b ++ other (procQueue b))) as Hn2 by (by eapply sublist_NoDup).
    apply NoDup_app in Hn2 as [Hn2 _]. rewrite Hc in Hn2. by apply NoDup_app in Hn2 as [Hn2 _].
Qed.

(** ** Pausing *)

(** A goroutine a pause still catches: it has a check of the pause ahead of it, or
    waits and has not been released. *)
Definition caught (b : Base) (p : proc) : Prop :=
  match at_ p with
  | PUnblock _ _ | PBegin _ => False
  | PWait _ ev g => released g (eventAt ev b) = false
  | _ => True
  end.

Record paused (b : Base) : Prop := {
  pa_block : blockFrames b = true;
  pa_event : set (eventAt (processEvent b) b) = false;
  pa_procs : Forall (caught b) (procs b)
}.

Lemma eventAt_onEvent f ev ev' b :
  eventAt ev' (onEvent f ev b) = if decide (ev' = ev) then f (eventAt ev b) else eventAt ev' b.
Proof.
  unfold eventAt at 1. unfold onEvent. simpl. case_decide; subst; by rewrite ?lookup_insert_eq, ?lookup_insert_ne.
Qed.

Lemma Clear_unset e : set e = false -> Clear e = e.
Proof. unfold Clear. by intros ->. Qed.

Lemma paused_ext b b' :
  blockFrames b' = blockFrames b -> processEvent b' = processEvent b ->
  (forall ev, eventAt ev b' = eventAt ev b) -> procs b' = procs b -> paused b -> paused b'.
Proof.
  intros E1 E2 E3 E4 [H1 H2 H3]. split; [congruence|by rewrite E2, E3|]. rewrite E4.
  eapply Forall_impl; [exact H3|]. intros p. unfold caught. case_match; by rewrite ?E3.
Qed.

Lemma paused_go b b1 i q :
  caught b1 (mkProc false q) -> paused b1 -> b = go i q b1 -> paused b.
Proof.
  intros Hq [H1 H2 H3] ->. split; [done|done|]. unfold go. simpl. apply Forall_alter; [exact H3|intros x _ _; exact Hq].
Qed.

Lemma paused_pause b : Forall (caught b) (procs b) -> paused (PauseProcessingFrames b).
Proof.
  intros H. unfold PauseProcessingFrames. set (b1 := b <| blockFrames := true |>).
  split; [done| |].
  - change (processEvent (onEvent Clear (processEvent b) b1)) with (processEvent b).
    rewrite eventAt_onEvent. case_decide; [|done]. unfold Clear. by case_match.
  - eapply Forall_impl; [exact H|]. intros p. unfold caught. case_match; try done.
    rewrite eventAt_onEvent. case_decide; [|done]. subst. change (eventAt (processEvent b) b1) with (eventAt (processEvent b) b).
    intros Hr. rewrite Clear_unset; [done|]. unfold released in Hr. by apply orb_false_elim in Hr as [_ ?].
Qed.

Lemma paused_cancelTask b : paused b -> paused (cancelProcessTask b).2.
Proof.
  unfold cancelProcessTask. case_match; [|done]. intros [H1 H2 H3]. split; [done|done|]. simpl.
  unfold cancelNewest. destruct (last (procs b)) as [p|] eqn:E; [|done].
  destruct (procs b) as [|x l] using rev_ind; [done|]. rewrite last_snoc in E. injection E as ->.
  rewrite removelast_last. apply Forall_app in H3 as [H3 H4]. apply Forall_app. split; [done|].
  inversion H4; subst. by constructor.
Qed.

Lemma paused_pauseStep b : paused b -> paused (PauseProcessingFrames b).
Proof. intros [_ _ H]. by apply paused_pause. Qed.

Lemma paused_begin it b : releases it = Plain -> paused b ->
  paused (inputProcessFrame it b) /\ paused (procProcessFrame it b).
Proof.
  intros Hr Hp. assert (forall p, paused (b <| input := p |>)) as Hi by (intros; by eapply paused_ext; [..|exact Hp]).
  pose proof (paused_pauseStep _ Hp) as H1. split.
  - unfold inputProcessFrame. unfold releases in Hr. destruct (payload (frame it)); try done.
    + unfold cancel. pose proof (paused_cancelTask (b <| canceling := true |>)
        ltac:(by eapply paused_ext; [..|exact Hp])) as H2.
      destruct (cancelProcessTask _) as [w b2]. by eapply paused_ext; [..|exact H2].
    + unfold pauseIfAddressed. case_match; [by eapply paused_ext; [..|exact H1]|done].
  - unfold procProcessFrame. unfold releases in Hr. destruct (payload (frame it)); try done.
    unfold pauseIfAddressed. by case_match.
Qed.

(** A step that is not a release begins nothing. *)
Lemma paused_step b b' : step Plain b b' -> paused b -> paused b' /\ begun b' = begun b.
Proof.
  intros Hs Hp. split.
  - inversion Hs; subst; try (by eapply paused_ext; [..|exact Hp]);
      try (eapply paused_go; [| |reflexivity]; [done|by eapply paused_ext; [..|exact Hp]]).
    + unfold QueueFrame. repeat case_match; by eapply paused_ext; [..|exact Hp].
    + by apply paused_pauseStep.
    + by apply paused_cancelTask.
    + unfold dispatch. case_match; by eapply paused_ext; [..|exact Hp].
    + unfold dispatch. case_match; by eapply paused_ext; [..|exact Hp].
    + apply paused_begin; [done|]. by eapply paused_ext; [..|exact Hp].
    + unfold applyPendingResume. simpl. destruct (pendingResume b); [done|]. by eapply paused_ext; [..|exact Hp].
    + by rewrite (pa_block _ Hp) in H1.
    + eapply paused_go; [|exact Hp|reflexivity]. unfold caught, released. simpl.
      by rewrite Nat.ltb_irrefl, (pa_event _ Hp).
    + pose proof (proj1 (Forall_lookup _ _) (pa_procs _ Hp) _ _ H) as Hc. unfold caught in Hc. rewrite H0 in Hc. congruence.
    + pose proof (proj1 (Forall_lookup _ _) (pa_procs _ Hp) _ _ H) as Hc. unfold caught in Hc. by rewrite H0 in Hc.
    + pose proof (proj1 (Forall_lookup _ _) (pa_procs _ Hp) _ _ H0) as Hc. unfold caught in Hc. by rewrite H1 in Hc.
    + unfold applyPendingResume. simpl. destruct (pendingResume b) eqn:E; [done|].
      by apply (paused_go _ b i PTop).
  - destruct (step_move _ _ (ex_intro _ _ Hs)) as [Hst|i p it Hp' Ep E E1 E2 E3|i p it ev g Hp' Ep E E1 E2 E3|i p it Hp' Ep E E1 E2 E3];
      [by destruct Hst|done|done|].
    pose proof (proj1 (Forall_lookup _ _) (pa_procs _ Hp) _ _ Hp') as Hc. unfold caught in Hc. by rewrite Ep in Hc.
Qed.

(** ** Waiting on a pause *)

(** What one step does to the pause events: it may make a new one, clear any, and
    set only the one in force. *)
Definition evmove (b b' : Base) : Prop :=
  processEvent b <= processEvent b' /\
  forall ev, ev <= processEvent b ->
    eventAt ev b' = eventAt ev b \/ eventAt ev b' = Clear (eventAt ev b) \/
    (ev = processEvent b /\ eventAt ev b' = Set_ (eventAt ev b)).

Lemma ev_ext b b1 b' :
  processEvent b1 = processEvent b -> events b1 = events b -> evmove b1 b' -> evmove b b'.
Proof. intros E1 E2 [H1 H2]. unfold evmove, eventAt in *. by rewrite <- E1, <- E2. Qed.

Lemma ev_same b b' : processEvent b' = processEvent b -> events b' = events b -> evmove b b'.
Proof. intros E1 E2. unfold evmove, eventAt. rewrite E1, E2. split; [done|auto]. Qed.

Lemma ev_clear ev b : evmove b (onEvent Clear ev b).
Proof. split; [done|]. intros ev' _. rewrite eventAt_onEvent. case_decide; subst; auto. Qed.

Lemma ev_set b : evmove b (ResumeProcessingFrames b).
Proof.
  split; [done|]. intros ev' _. unfold ResumeProcessingFrames. rewrite eventAt_onEvent. case_decide; subst; auto.
Qed.

Lemma ev_reset b : evmove b (resetProcessTask b).
Proof.
  split; [simpl; lia|]. intros ev Hev. left. unfold eventAt. simpl. by rewrite lookup_insert_ne by lia.
Qed.

Lemma ev_create b : evmove b (createProcessTask b).
Proof. unfold createProcessTask. case_match; [by apply ev_same|]. exact (ev_reset b). Qed.

Lemma ev_cancelTask b : processEvent (cancelProcessTask b).2 = processEvent b /\ events (cancelProcessTask b).2 = events b.
Proof. unfold cancelProcessTask. by case_match. Qed.

Lemma ev_pause b : evmove b (PauseProcessingFrames b).
Proof. by apply (ev_ext _ (b <| blockFrames := true |>)); [..|apply ev_clear]. Qed.

Lemma ev_pending b : evmove b (applyPendingResume b).
Proof. unfold applyPendingResume. case_match; [|by apply ev_same]. by apply (ev_ext _ (b <| pendingResume := false |>)); [..|apply ev_set]. Qed.

Lemma ev_input it b : evmove b (inputProcessFrame it b).
Proof.
  unfold inputProcessFrame. destruct (payload (frame it)); try by apply ev_same.
  - exact (ev_create b).
  - unfold cancel. destruct (ev_cancelTask (b <| canceling := true |>)). destruct (cancelProcessTask _). by apply ev_same.
  - unfold startInterruption. case_match; [by apply ev_same|]. destruct (ev_cancelTask b) as [E1 E2].
    destruct (cancelProcessTask b) as [[] b2]; [by apply ev_same|].
    apply (ev_ext _ b2); [done..|]. exact (ev_create b2).
  - unfold pauseIfAddressed. case_match; [exact (ev_pause b)|by apply ev_same].
  - unfold resumeIfAddressed. case_match; by apply ev_same.
Qed.

Lemma ev_proc it b : evmove b (procProcessFrame it b).
Proof.
  unfold procProcessFrame. destruct (payload (frame it)); try by apply ev_same.
  - unfold pauseIfAddressed. case_match; [exact (ev_pause b)|by apply ev_same].
  - unfold resumeIfAddressed. case_match; by apply ev_same.
Qed.

Lemma ev_step b b' : anystep b b' -> evmove b b'.
Proof.
  intros [l Hs]. destruct Hs; try by apply ev_same.
  - unfold QueueFrame. repeat case_match; by apply ev_same.
  - apply ev_pause.
  - apply ev_set.
  - apply ev_reset.
  - apply ev_same; apply ev_cancelTask.
  - unfold dispatch. case_match; by apply ev_same.
  - unfold dispatch. case_match; by apply ev_same.
  - by apply (ev_ext _ (b <| log ::= fun l => l ++ [ByInput it] |>)); [..|apply ev_input].
  - destruct restart; [exact (ev_create b)|by apply ev_same].
  - destruct restart; [exact (ev_create b)|by apply ev_same].
  - by apply (ev_ext _ (b <| input := IGet |>)); [..|apply ev_pending].
  - exact (ev_clear ev b).
  - by apply (ev_ext _ (b <| log ::= fun l => l ++ [ByProcess it (ctxDone p b)] |>)); [..|apply ev_proc].
  - by apply (ev_ext _ (go i PTop b)); [..|apply ev_pending].
Qed.

(** Where goroutine [i] is. *)
Definition pos (i : nat) (b : Base) : option proc_pos := at_ <$> procs b !! i.

(** Its context is done, or the processor's is. *)
Definition canceledAt (i : nat) (b : Base) : Prop := exists p, procs b !! i = Some p /\ ctxDone p b = true.

(** The moves of a goroutine's own. *)
Definition own (b : Base) (p : proc) (q : proc_pos) : Prop :=
  match at_ p with
  | PTop => q = PGet
  | PGet => q = PExit \/ exists it, q = PTaken it
  | PTaken it => q = PCheck it
  | PCheck it => q = PBegin it \/ q = PWait it (processEvent b) (gen (eventAt (processEvent b) b))
  | PWait it ev g => (released g (eventAt ev b) = true /\ q = PUnblock it ev) \/ (ctxDone p b = true /\ q = PExit)
  | PUnblock it _ => q = PBegin it
  | PBegin it => q = PHandle it
  | PHandle _ => q = PTop
  | PExit => False
  end.

Definition moved (i : nat) (b b' : Base) : Prop :=
  pos i b' = pos i b \/ (pos i b = None /\ pos i b' = Some PTop) \/
  exists p q, procs b !! i = Some p /\ pos i b' = Some q /\ own b p q.

Lemma pos_go i j q p b :
  procs b !! j = Some p -> pos i (go j q b) = if decide (i = j) then Some q else pos i b.
Proof.
  intros Hp. unfold pos, go. simpl. case_decide; subst.
  - by rewrite list_lookup_alter_eq, Hp.
  - by rewrite list_lookup_alter_ne by done.
Qed.

Lemma moved_same i b b' : procs b' = procs b -> moved i b b'.
Proof. intros E. left. unfold pos. by rewrite E. Qed.

Lemma moved_ext i b b1 b' :
  procs b1 = procs b -> processEvent b1 = processEvent b -> events b1 = events b -> baseDone b1 = baseDone b ->
  moved i b1 b' -> moved i b b'.
Proof.
  intros E1 E2 E3 E4. unfold moved, pos, own, ctxDone, eventAt. rewrite E1, E2, E3, E4. auto.
Qed.

Lemma moved_go i j q p b b' :
  procs b !! j = Some p -> own b p q -> procs b' = procs (go j q b) -> moved i b b'.
Proof.
  intros Hp Ho E. assert (pos i b' = pos i (go j q b)) as E' by (unfold pos; by rewrite E).
  rewrite (pos_go _ _ _ _ _ Hp) in E'. case_decide; subst; [right; right; eauto|by left].
Qed.

Lemma pos_cancelTask i b : pos i (cancelProcessTask b).2 = pos i b.
Proof.
  unfold cancelProcessTask. case_match; [|done]. unfold pos. simpl. unfold cancelNewest.
  destruct (procs b) as [|x l] using rev_ind; [done|]. rewrite last_snoc, removelast_last.
  by rewrite <- !list_lookup_fmap, !fmap_app.
Qed.

Lemma moved_create i b : moved i b (createProcessTask b).
Proof.
  unfold createProcessTask. case_match; [by apply moved_same|].
  destruct (decide (i < length (procs b))) as [Hi|Hi].
  - left. unfold pos. simpl. by rewrite lookup_app_l.
  - assert (procs b !! i = None) as E by (apply lookup_ge_None; lia). unfold moved, pos. simpl. rewrite E.
    destruct (decide (i = length (procs b))) as [->|Hne].
    + right. left. by rewrite lookup_app_r, Nat.sub_diag by lia.
    + left. f_equal. apply lookup_ge_None. rewrite length_app. simpl. lia.
Qed.

Lemma moved_input i it b : moved i b (inputProcessFrame it b).
Proof.
  unfold inputProcessFrame. destruct (payload (frame it)); try by apply moved_same.
  - exact (moved_create i b).
  - unfold cancel. pose proof (pos_cancelTask i (b <| canceling := true |>)) as E.
    destruct (cancelProcessTask _) as [w b2]. by left.
  - unfold startInterruption. case_match; [by apply moved_same|]. pose proof (pos_cancelTask i b) as E.
    destruct (cancelProcessTask b) as [[] b2] eqn:E2; simpl in E; [by left|].
    assert (b2 = b) as -> by (unfold cancelProcessTask in E2; case_match; congruence). exact (moved_create i b).
  - unfold pauseIfAddressed. case_match; by apply moved_same.
  - unfold resumeIfAddressed. case_match; by apply moved_same.
Qed.

Lemma pos_step i b b' : anystep b b' -> moved i b b'.
Proof.
  intros [l Hs]. destruct Hs; try by apply moved_same.
  - unfold QueueFrame. repeat case_match; by apply moved_same.
  - left. apply pos_cancelTask.
  - unfold dispatch. case_match; by apply moved_same.
  - unfold dispatch. case_match; by apply moved_same.
  - by apply (moved_ext i _ (b <| log ::= fun l => l ++ [ByInput it] |>)); [..|apply moved_input].
  - destruct restart; [exact (moved_create i b)|by apply moved_same].
  - destruct restart; [exact (moved_create i b)|by apply moved_same].
  - unfold applyPendingResume. case_match; by apply moved_same.
  - eapply moved_go; [eassumption|unfold own; by rewrite H0|done].
  - eapply moved_go; [eassumption| |reflexivity]; unfold own; rewrite H0; naive_solver.
  - eapply moved_go; [eassumption| |reflexivity]; unfold own; rewrite H0; naive_solver.
  - eapply moved_go; [eassumption|unfold own; by rewrite H0|done].
  - eapply moved_go; [eassumption| |reflexivity]; unfold own; rewrite H0; naive_solver.
  - eapply moved_go; [eassumption| |reflexivity]; unfold own; rewrite H0; naive_solver.
  - eapply moved_go; [eassumption| |reflexivity]; unfold own; rewrite H0; naive_solver.
  - eapply moved_go; [eassumption| |reflexivity]; unfold own; rewrite H0; naive_solver.
  - eapply moved_go; [eassumption|unfold own; by rewrite H0|done].
  - eapply moved_go; [eassumption|unfold own; by rewrite H0|].
    unfold procProcessFrame, pauseIfAddressed, resumeIfAddressed. by repeat case_match.
  - eapply moved_go; [eassumption|unfold own; by rewrite H0|].
    unfold applyPendingResume. by case_match.
Qed.

(** Waiters hold a pause event made so far, and a channel it has had. *)
Definition wait_inv (b : Base) : Prop :=
  forall i it ev g, pos i b = Some (PWait it ev g) -> ev <= processEvent b /\ g <= gen (eventAt ev b).

Lemma gen_step b b' ev : anystep b b' -> ev <= processEvent b -> gen (eventAt ev b) <= gen (eventAt ev b').
Proof.
  intros Hs He. destruct (ev_step _ _ Hs) as [_ H]. destruct (H ev He) as [-> |[-> |[_ ->]]]; [done| |done].
  unfold Clear. case_match; simpl; lia.
Qed.

Lemma wait_inv_step b b' : anystep b b' -> wait_inv b -> wait_inv b'.
Proof.
  intros Hs Hw i it ev g Hp'. destruct (ev_step _ _ Hs) as [Hle _].
  assert (ev <= processEvent b /\ g <= gen (eventAt ev b)) as [He Hg].
  { destruct (pos_step i _ _ Hs) as [E|[[_ E]|(p & q & Hp & E & Ho)]]; rewrite Hp' in E.
    - by apply (Hw i it).
    - done.
    - injection E as <-. unfold own in Ho. destruct (at_ p); try done; naive_solver. }
  split; [lia|]. pose proof (gen_step _ _ ev Hs He). lia.
Qed.

Lemma reachable_wait n b : reachable n b -> wait_inv b.
Proof. intros Hr. eapply rtc_invariant; [exact Hr|exact wait_inv_step|]. by intros i it ev g. Qed.

Lemma released_step b b' ev g :
  anystep b b' -> ev <= processEvent b -> g <= gen (eventAt ev b) ->
  released g (eventAt ev b) = true -> released g (eventAt ev b') = true.
Proof.
  intros Hs He Hg. destruct (ev_step _ _ Hs) as [_ H]. destruct (H ev He) as [-> |[-> |[_ ->]]]; [done| |].
  - unfold released, Clear. destruct (set (eventAt ev b)) eqn:E; intros Hr; simpl; [|by rewrite E].
    rewrite orb_false_r. apply Nat.ltb_lt. lia.
  - unfold released. intros _. by rewrite orb_true_r.
Qed.

Lemma unreleased_step b b' ev g :
  anystep b b' -> ev < processEvent b ->
  released g (eventAt ev b) = false -> released g (eventAt ev b') = false.
Proof.
  intros Hs He Hr. destruct (ev_step _ _ Hs) as [_ H]. destruct (H ev ltac:(lia)) as [-> |[-> |[-> _]]]; [done| |lia].
  rewrite Clear_unset; [done|]. unfold released in Hr. by apply orb_false_elim in Hr as [_ ?].
Qed.

(** Nothing takes a cancellation back. *)
Definition stays (b b' : Base) : Prop :=
  (baseDone b = true -> baseDone b' = true) /\
  forall i p, procs b !! i = Some p -> exists p', procs b' !! i = Some p' /\ (canceled p = true -> canceled p' = true).

Lemma stays_same b b' : procs b' = procs b -> (baseDone b = true -> baseDone b' = true) -> stays b b'.
Proof. intros E H. split; [done|]. rewrite E. eauto. Qed.

Lemma stays_go i q b b' : procs b' = procs (go i q b) -> baseDone b' = baseDone b -> stays b b'.
Proof.
  intros E H. split; [by rewrite H|]. intros j p Hp. rewrite E. unfold go. simpl.
  destruct (decide (i = j)) as [->|]; [rewrite list_lookup_alter_eq, Hp; simpl; eauto|].
  rewrite list_lookup_alter_ne by done. eauto.
Qed.

Lemma stays_cancelTask b b' : procs b' = procs (cancelProcessTask b).2 -> baseDone b' = baseDone b -> stays b b'.
Proof.
  intros E H. split; [by rewrite H|]. intros i p Hp. rewrite E. clear E. unfold cancelProcessTask.
  case_match; [|eauto]. simpl. unfold cancelNewest. destruct (procs b) as [|x l] using rev_ind; [done|].
  rewrite last_snoc, removelast_last. destruct (decide (i < length l)) as [Hi|Hi].
  - rewrite lookup_app_l in * by done. eauto.
  - rewrite lookup_app_r in * by lia. destruct (i - length l); [|done]. injection Hp as ->. simpl. eauto.
Qed.

Lemma stays_create b b' : procs b' = procs (createProcessTask b) -> baseDone b' = baseDone b -> stays b b'.
Proof.
  intros E H. split; [by rewrite H|]. intros i p Hp. rewrite E. unfold createProcessTask.
  case_match; simpl; [eauto|]. exists p. split; [by apply lookup_app_l_Some|done].
Qed.

Lemma stays_input it b b0 : procs b0 = procs b -> baseDone b0 = baseDone b -> stays b (inputProcessFrame it b0).
Proof.
  intros E0 D0. enough (stays b0 (inputProcessFrame it b0)) as [H1 H2]
    by (unfold stays; rewrite <- E0, <- D0; exact (conj H1 H2)).
  unfold inputProcessFrame. destruct (payload (frame it)); try by apply stays_same.
  - apply stays_create; [done|]. simpl. unfold createProcessTask. by case_match.
  - unfold cancel. destruct (cancelProcessTask _) as [w b2] eqn:E.
    apply stays_cancelTask; [|by unfold cancelProcessTask in E; case_match; simplify_eq].
    change (procs b2 = procs (cancelProcessTask b0).2). unfold cancelProcessTask in *. simpl in E.
    case_match; by simplify_eq.
  - unfold startInterruption. case_match; [by apply stays_same|].
    destruct (cancelProcessTask b0) as [[] b2] eqn:E.
    + apply stays_cancelTask; [by rewrite E|unfold cancelProcessTask in E; case_match; by simplify_eq].
    + assert (b2 = b0) as -> by (unfold cancelProcessTask in E; case_match; congruence).
      apply stays_create; [done|]. simpl. unfold createProcessTask. by case_match.
  - unfold pauseIfAddressed. case_match; by apply stays_same.
  - unfold resumeIfAddressed. case_match; by apply stays_same.
Qed.

Lemma stays_step b b' : anystep b b' -> stays b b'.
Proof.
  intros [l Hs]. destruct Hs; try (by apply stays_same); try (by eapply stays_go); try (by apply stays_input).
  - unfold QueueFrame. repeat case_match; by apply stays_same.
  - apply stays_cancelTask; [done|]. unfold cancelProcessTask. by case_match.
  - unfold dispatch. case_match; by apply stays_same.
  - unfold dispatch. case_match; by apply stays_same.
  - destruct restart; [|by apply stays_same]. apply stays_create; [done|]. simpl. unfold createProcessTask. by case_match.
  - destruct restart; [|by apply stays_same]. apply stays_create; [done|]. simpl. unfold createProcessTask. by case_match.
  - unfold applyPendingResume. case_match; by apply stays_same.
  - eapply (stays_go i (PHandle it)); unfold procProcessFrame, pauseIfAddressed, resumeIfAddressed; by repeat case_match.
  - eapply (stays_go i PTop); unfold applyPendingResume; by repeat case_match.
Qed.

Lemma canceledAt_step i b b' : anystep b b' -> canceledAt i b -> canceledAt i b'.
Proof.
  intros Hs (p & Hp & Hc). destruct (stays_step _ _ Hs) as [H1 H2]. destruct (H2 _ _ Hp) as (p' & Hp' & H3).
  exists p'. split; [done|]. unfold ctxDone in *. apply orb_true_iff. apply orb_true_iff in Hc as [?|?]; auto.
Qed.

(** A pause holds.  Once [PauseProcessingFrames] returns with every process
    goroutine still having its check of the pause ahead of it (or waiting, not yet
    released), nothing begins in order, however the processor's goroutines and its
    callers go on, until a step that releases: a resume, or an interruption or
    start that resets the gate.  System frames and the queues go on. *)
Theorem processor_pause_holds b b' :
  Forall (caught b) (procs b) -> rtc (step Plain) (PauseProcessingFrames b) b' ->
  begun b' = begun b /\ blockFrames b' = true.
Proof.
  intros Hc Hr.
  assert (paused b' /\ begun b' = begun b) as [Hp E]; [|split; [done|exact (pa_block _ Hp)]].
  apply (rtc_invariant (step Plain) (fun b' => paused b' /\ begun b' = begun b) _ _ Hr).
  - intros b1 b2 Hs [Hp E]. rewrite <- E. by apply paused_step.
  - split; [by apply paused_pause|done].
Qed.

(** [released] stays so, along a run. *)
Lemma released_run ev g b b' :
  rtc anystep b b' -> ev <= processEvent b -> g <= gen (eventAt ev b) ->
  released g (eventAt ev b) = true -> released g (eventAt ev b') = true.
Proof.
  induction 1 as [|b b1 b' Hs _ IH]; [done|]. intros He Hg Hr. apply IH.
  - destruct (ev_step _ _ Hs). lia.
  - pose proof (gen_step _ _ ev Hs He). lia.
  - by eapply released_step.
Qed.

Lemma pos_at i b q : pos i b = Some q -> exists p, procs b !! i = Some p /\ at_ p = q.
Proof. unfold pos. intros E. apply fmap_Some in E as (p & Hp & ->). eauto. Qed.

(** A waiter on a pause event that has been replaced stays, whatever happens, until
    its context is canceled. *)
Lemma stranded_run i it ev g b b' :
  rtc anystep b b' -> pos i b = Some (PWait it ev g) -> ev < processEvent b ->
  released g (eventAt ev b) = false ->
  pos i b' = Some (PWait it ev g) \/ canceledAt i b'.
Proof.
  intros Hrun H1 H2 H3.
  enough (canceledAt i b' \/ (pos i b' = Some (PWait it ev g) /\ ev < processEvent b' /\
    released g (eventAt ev b') = false)) as [?|[? _]] by auto.
  apply (rtc_invariant anystep (fun b => canceledAt i b \/ (pos i b = Some (PWait it ev g) /\
    ev < processEvent b /\ released g (eventAt ev b) = false)) _ _ Hrun); [|by auto].
  intros b1 b2 Hs [Hc|(Hw & He & Hr)]; [left; by eapply canceledAt_step|].
  destruct (ev_step _ _ Hs) as [Hle _]. pose proof (unreleased_step _ _ _ _ Hs He Hr) as Hr'.
  destruct (pos_step i _ _ Hs) as [E|[[E _]|(p & q & Hp & E & Ho)]]; [right; rewrite E; split; [done|split; [lia|done]]|congruence|].
  unfold pos in Hw. rewrite Hp in Hw. injection Hw as Hw. unfold own in Ho. rewrite Hw in Ho.
  destruct Ho as [[? _]|[Hc _]]; [congruence|]. left. eapply canceledAt_step; [exact Hs|]. by exists p.
Qed.

(** ** Schedules

    A schedule picks whose turn it is; [exec] takes that turn.  The flag chooses
    the branch where the goroutine has one: a wait ended by its context or its
    timeout rather than by what it waits for. *)
Inductive turn :=
| Queue_ (it : item) | Pause_ | Resume_ | Broadcast_
| In (ended : bool)
| Proc (i : nat) (ended : bool).

Definition execIn (ended : bool) (b : Base) : option Base :=
  match input b with
  | IGate => if startGate b then Some (b <| input := IGet |>) else None
  | IGet => match get (inputQueue b) with
            | Some (it, q) => Some (b <| inputQueue := q |> <| input := ICheck it |>)
            | None => None
            end
  | ICheck it => if blockSystemFrames b then Some (b <| input := IWait it (gen (inputEvent b)) |>) else Some (dispatch it b)
  | IWait it g => if released g (inputEvent b) then Some (b <| input := IUnblock it |>) else None
  | IUnblock it => Some (dispatch it (b <| inputEvent ::= Clear |> <| blockSystemFrames := false |>))
  | IBegin it => Some (inputProcessFrame it (b <| log ::= fun l => l ++ [ByInput it] |>))
  | IJoin it restart =>
      if ended || match last (procs b) with Some (mkProc _ PExit) => true | _ => false end
      then Some ((if restart then createProcessTask b else b) <| input := IHandle it |>) else None
  | IHandle it => Some (applyPendingResume (b <| input := IGet |>))
  | IExit => None
  end.

Definition execProc (i : nat) (ended : bool) (b : Base) : option Base :=
  match procs b !! i with
  | None => None
  | Some p =>
      match at_ p with
      | PTop => Some (go i PGet (b <| curFrame := None |>))
      | PGet => match get (procQueue b) with
                | Some (it, q) => Some (go i (PTaken it) (b <| procQueue := q |> <| taken ::= fun l => l ++ [it] |>))
                | None => if ctxDone p b then Some (go i PExit b) else None
                end
      | PTaken it => Some (go i (PCheck it) (b <| curFrame := Some it |>))
      | PCheck it => if blockFrames b
                     then Some (go i (PWait it (processEvent b) (gen (eventAt (processEvent b) b))) b)
                     else Some (go i (PBegin it) b)
      | PWait it ev g =>
          if ended
          then if ctxDone p b then Some (go i PExit (b <| abandoned ::= fun l => l ++ [it] |>)) else None
          else if released g (eventAt ev b) then Some (go i (PUnblock it ev) b) else None
      | PUnblock it ev => Some (go i (PBegin it) ((onEvent Clear ev b) <| blockFrames := false |>))
      | PBegin it => Some (go i (PHandle it) (procProcessFrame it
                       (b <| log ::= fun l => l ++ [ByProcess it (ctxDone p b)] |>)))
      | PHandle it => Some (applyPendingResume (go i PTop b))
      | PExit => None
      end
  end.

Definition exec (t : turn) (b : Base) : option Base :=
  match t with
  | Queue_ it => Some (QueueFrame it b)
  | Pause_ => Some (PauseProcessingFrames b)
  | Resume_ => Some (ResumeProcessingFrames b)
  | Broadcast_ => Some (resetProcessTask b)
  | In e => execIn e b
  | Proc i e => execProc i e b
  end.

Fixpoint play (ts : list turn) (b : Base) : option Base :=
  match ts with
  | [] => Some b
  | t :: ts => match exec t b with Some b' => play ts b' | None => None end
  end.

Lemma execIn_step e b b' : execIn e b = Some b' -> anystep b b'.
Proof.
  unfold execIn. destruct (input b) as [| |it|it g|it|it|it restart|it|] eqn:E; intros H;
    try (repeat (case_match; try done); simplify_eq; eexists; econstructor; by eauto).
  destruct (_ || _) eqn:Ej in H; [|done]. injection H as <-.
  destruct e; [eexists; by apply s_inJoinTimeout|].
  destruct (last (procs b)) as [[c q]|] eqn:El; [|done]. destruct q; try done. eexists. by eapply s_inJoin.
Qed.

Lemma execProc_step i e b b' : execProc i e b = Some b' -> anystep b b'.
Proof.
  unfold execProc. intros H. repeat (case_match; try done); simplify_eq; eexists; econstructor; by eauto.
Qed.

Lemma exec_step t b b' : exec t b = Some b' -> anystep b b'.
Proof.
  destruct t; simpl; intros H; simplify_eq; try (eexists; by constructor); [by eapply execIn_step|by eapply execProc_step].
Qed.

Lemma play_run ts b b' : play ts b = Some b' -> rtc anystep b b'.
Proof.
  revert b. induction ts as [|t ts IH]; simpl; intros b H; [by injection H as ->|].
  destruct (exec t b) as [b1|] eqn:E; [|done]. eapply rtc_l; [by eapply exec_step|by apply IH].
Qed.

(** A released waiter begins its frame by three turns of its own. *)
Definition ownTurns (i : nat) : list turn := [Proc i false; Proc i false; Proc i false].
Lemma waiter_begins i it ev g b :
  pos i b = Some (PWait it ev g) -> released g (eventAt ev b) = true ->
  exists b', play (ownTurns i) b = Some b' /\ begun b' = begun b ++ [it].
Proof.
  intros (p & Hp & Ep)%pos_at Hr.
  set (b1 := go i (PUnblock it ev) b).
  assert (procs b1 !! i = Some (mkProc (canceled p) (PUnblock it ev))) as H1
    by (unfold b1, go; simpl; by rewrite list_lookup_alter_eq, Hp).
  set (b2 := go i (PBegin it) ((onEvent Clear ev b1) <| blockFrames := false |>)).
  assert (procs b2 !! i = Some (mkProc (canceled p) (PBegin it))) as H2
    by (unfold b2, go; simpl; by rewrite !list_lookup_alter_eq, Hp).
  assert (exec (Proc i false) b = Some b1) as E1 by (cbn; unfold execProc; by rewrite Hp, Ep, Hr).
  assert (exec (Proc i false) b1 = Some b2) as E2 by (cbn; unfold execProc; by rewrite H1).
  unfold ownTurns, play. rewrite E1, E2. cbn [exec]. unfold execProc. rewrite H2. cbn [at_].
  eexists. split; [reflexivity|].
  unfold procProcessFrame, pauseIfAddressed, resumeIfAddressed.
  repeat case_match; unfold begun; simpl; by rewrite List.flat_map_app.
Qed.

(** C6: a resume is not lost.  Whoever waits on the pause in force when
    [ResumeProcessingFrames] is called can, however late it gets to run and whatever
    happens meanwhile (another pause included), begin its frame by three turns of its
    own, nobody else moving, for as long as it is still waiting. *)
Theorem processor_resume_reaches n b i it g b' :
  reachable n b -> pos i b = Some (PWait it (processEvent b) g) ->
  rtc anystep (ResumeProcessingFrames b) b' ->
  pos i b' = Some (PWait it (processEvent b) g) ->
  exists b'', play (ownTurns i) b' = Some b'' /\ begun b'' = begun b' ++ [it].
Proof.
  intros Hr Hw Hrun Hw'. apply reachable_wait in Hr. destruct (Hr _ _ _ _ Hw) as [He Hg].
  apply (waiter_begins i it (processEvent b) g); [done|].
  assert (eventAt (processEvent b) (ResumeProcessingFrames b) = Set_ (eventAt (processEvent b) b)) as E
    by (unfold ResumeProcessingFrames; rewrite eventAt_onEvent; by case_decide).
  apply (released_run _ _ _ _ Hrun); [done|by rewrite E|]. rewrite E. unfold released. by rewrite orb_true_r.
Qed.

(** A schedule every state of which passes a test, and every step a test of its
    own. *)
Fixpoint plays (ok : turn -> Base -> Base -> bool) (ts : list turn) (b : Base) : option Base :=
  match ts with
  | [] => Some b
  | t :: ts => match exec t b with
               | Some b' => if ok t b b' then plays ok ts b' else None
               | None => None
               end
  end.

Lemma plays_run (R : Base -> Base -> Prop) ok ts b b' :
  (forall t b b', exec t b = Some b' -> ok t b b' = true -> R b b') -> plays ok ts b = Some b' -> rtc R b b'.
Proof.
  intros Hok. revert b. induction ts as [|t ts IH]; simpl; intros b H; [by injection H as ->|].
  destruct (exec t b) as [b1|] eqn:E; [|done]. destruct (ok t b b1) eqn:Eo; [|done].
  eapply rtc_l; [by eapply Hok|by apply IH].
Qed.

Definition alone (t : turn) (b b' : Base) : bool := Nat.leb (live b') 1.

Lemma alone_run ts b b' : plays alone ts b = Some b' -> rtc onestep b b'.
Proof.
  apply plays_run. intros t b0 b1 E Ho. split; [by eapply exec_step|]. by apply Nat.leb_le.
Qed.

(** A process goroutine's turn that releases nothing. *)
Definition quietly (t : turn) (b b' : Base) : bool :=
  match t with
  | Queue_ _ => true
  | Proc i _ => negb (pendingResume b) &&
      match pos i b with
      | Some (PBegin it) => match releases it with Plain => true | Releasing => false end
      | _ => true
      end
  | _ => false
  end.

Lemma quietly_run ts b b' : plays quietly ts b = Some b' -> rtc (step Plain) b b'.
Proof.
  apply plays_run. intros t b0 b1 E Ho. unfold quietly in Ho. destruct t as [it| | | | |i e]; try done.
  { injection E as <-. constructor. }
  apply andb_prop in Ho as [Hp%negb_true_iff Ho]. simpl in E. unfold execProc in E.
  destruct (procs b0 !! i) as [p|] eqn:Ei; [|done]. unfold pos in Ho. rewrite Ei in Ho. simpl in Ho.
  destruct (at_ p) eqn:Ep; try done;
    repeat (case_match; try done); simplify_eq; try (by econstructor).
  - match goal with H : releases ?it = Plain |- _ => rewrite <- H end. by econstructor.
  - pose proof (s_end b0 i p _ Ei Ep) as Hs. by rewrite Hp in Hs.
Qed.

(** *** A processor to schedule *)

Definition frame_ (i : Z) (p : Payload) : item := mkItem (mkFrame i None None EmptyString EmptyString p) Downstream.
Definition startItem : item := frame_ 1 StartFrame.
Definition text (i : Z) : item := frame_ i (OtherFrame "TextFrame" DataFrame false).
Definition endItem : item := frame_ 2 (EndFrame EmptyString).
Definition interruption : item := frame_ 3 InterruptionFrame.

Fixpoint times {X} (n : nat) (x : list X) : list X := match n with O => [] | S n => x ++ times n x end.

(** Queued and started; queued and handed on; the process goroutine takes a frame
    up to its check of the pause. *)
Definition started : list turn := Queue_ startItem :: times 5 [In false].
Definition handed (it : item) : list turn := Queue_ it :: times 2 [In false].
Definition run_ (n : nat) : list turn := times n [Proc 0 false].

Definition outcome (ts : list turn) : Base := from_nil (New "p") (play ts (New "p")).

Lemma outcome_reachable ts : reachable "p" (outcome ts).
Proof.
  unfold outcome. destruct (play ts (New "p")) as [b|] eqn:E; [by eapply play_run|apply rtc_refl].
Qed.

(** Started and handling [text 10], with [text 11] queued behind it. *)
Definition midway : list turn :=
  started ++ handed (text 10) ++ handed (text 11) ++ run_ 5.

(** ... then interrupted: up to the wait for the goroutine just canceled. *)
Definition interrupted : list turn := midway ++ handed interruption ++ [In false].

(** Paused with [text 10] held and [text 11] behind it. *)
Definition onHold : list turn :=
  started ++ [Pause_] ++ handed (text 10) ++ handed (text 11) ++ run_ 4.

(** An interruption runs the backlog it means to flush.  [startInterruption]
    cancels the process goroutine and waits for it before it empties the queue,
    and a canceled goroutine goes on taking frames while there are any; so a run
    exists in which an interruptible frame queued behind the interrupted one is
    begun after the interruption, under the canceled context. *)
Theorem processor_interruption_runs_backlog :
  exists b, reachable "p" b /\ keep (text 11) = false /\
    log b = [ByInput startItem; ByProcess (text 10) false; ByInput interruption; ByProcess (text 11) true].
Proof.
  exists (outcome (interrupted ++ run_ 6)). split; [apply outcome_reachable|]. split; vm_compute; reflexivity.
Qed.

(** An interruption can lose an uninterruptible frame.  Between taking a frame
    and recording it as the current one the process goroutine looks idle, so an
    interruption cancels it; if the processor is paused it then gives the frame up
    at the pause.  A run exists in which an EndFrame is lost so: it is not begun,
    held or queued any more. *)
Theorem processor_interruption_loses_uninterruptible :
  exists b, reachable "p" b /\ keep endItem = true /\ abandoned b = [endItem] /\
    begun b = [] /\ held b = [] /\ other (procQueue b) = [].
Proof.
  exists (outcome (started ++ [Pause_] ++ handed endItem ++ run_ 2 ++ handed interruption ++ [In false] ++
    run_ 2 ++ [Proc 0 true])).
  split; [apply outcome_reachable|]. repeat split; vm_compute; reflexivity.
Qed.

(** Resetting the gate strands who waits at it.  [BroadcastInterruption] makes a
    new pause event while the process goroutine may be waiting on the old one, which
    nothing sets again: a reachable state exists whose process goroutine, not
    canceled, holds a frame that no resume, pause, frame or further interruption
    broadcast will release: it stays until its context is canceled. *)
Theorem processor_reset_strands_waiter :
  exists b, reachable "p" b /\ ~ canceledAt 0 b /\
    pos 0 b = Some (PWait (text 10) 1 0) /\ blockFrames b = false /\
    forall b', rtc anystep b b' -> pos 0 b' = Some (PWait (text 10) 1 0) \/ canceledAt 0 b'.
Proof.
  exists (outcome (onHold ++ [Broadcast_])). split; [apply outcome_reachable|].
  assert (pos 0 (outcome (onHold ++ [Broadcast_])) = Some (PWait (text 10) 1 0)) as E by (vm_compute; reflexivity).
  split; [|split; [done|split; [vm_compute; reflexivity|]]].
  - intros (p & Hp & Hc). vm_compute in Hp. injection Hp as <-. by vm_compute in Hc.
  - intros b' Hr. apply (stranded_run _ _ _ _ _ _ Hr E).
    + apply Nat.ltb_lt. vm_compute. reflexivity.
    + vm_compute. reflexivity.
Qed.

(** A pause can be undone by the waiter of the one before.  A released waiter
    clears the pause when it gets to run, not when it is released, so a pause that
    comes in between is cleared with it: after a resume and then a pause, with no
    release since, frames go on being handled. *)
Theorem processor_pause_undone :
  exists b b', reachable "p" b /\ begun b = [] /\
    rtc (step Plain) (PauseProcessingFrames (ResumeProcessingFrames b)) b' /\
    begun b' = [text 10; text 11] /\ blockFrames b' = false.
Proof.
  set (b := outcome onHold).
  set (b1 := PauseProcessingFrames (ResumeProcessingFrames b)).
  exists b, (from_nil b1 (plays quietly (run_ 9) b1)). split; [apply outcome_reachable|].
  split; [vm_compute; reflexivity|]. split; [|split; vm_compute; reflexivity].
  apply (quietly_run (run_ 9)). vm_compute. reflexivity.
Qed.

(** ** The guarantees at work *)

Lemma processor_start_first_witness :
  log (outcome interrupted) = ByInput startItem :: tl (log (outcome interrupted)) /\ is_start (ByInput startItem) = true.
Proof.
  assert (log (outcome interrupted) = ByInput startItem :: tl (log (outcome interrupted))) as E
    by (vm_compute; reflexivity).
  split; [exact E|]. exact (processor_start_first "p" _ _ _ (outcome_reachable interrupted) E).
Defined.

(** The interruption waits; the goroutine made after it begins what came next. *)
Definition resumedWork : list turn :=
  interrupted ++ run_ 9 ++ times 2 [In false] ++ handed (text 12) ++ times 5 [Proc 1 false].

Lemma processor_in_order_witness :
  begun (outcome resumedWork) = [text 10; text 11; text 12] /\
  begun (outcome resumedWork) ++ held (outcome resumedWork) `sublist_of` List.filter data (arrived (outcome resumedWork)).
Proof.
  split; [vm_compute; reflexivity|]. apply (processor_in_order "p"). apply (alone_run resumedWork).
  vm_compute. reflexivity.
Defined.

Lemma processor_keeps_uninterruptible_witness :
  keep endItem = true /\
  List.filter keep (forwarded (outcome (midway ++ handed endItem ++ handed interruption ++ [In false]))) = [endItem] /\
  NoDup (begun (outcome (midway ++ handed endItem ++ handed interruption ++ [In false]))).
Proof.
  split; [vm_compute; reflexivity|]. split; [vm_compute; reflexivity|].
  apply (proj2 (processor_keeps_uninterruptible "p" _ (outcome_reachable _))).
  apply (NoDup_fmap_1 (fun it => id (frame it))). apply (bool_decide_unpack _). vm_compute. exact I.
Defined.

Lemma processor_pause_holds_witness :
  begun (outcome midway) = [text 10] /\
  begun (from_nil (New "p") (plays quietly (run_ 4) (PauseProcessingFrames (outcome midway)))) = begun (outcome midway) /\
  pos 0 (from_nil (New "p") (plays quietly (run_ 5) (PauseProcessingFrames (outcome midway)))) = Some (PWait (text 11) 1 0).
Proof.
  split; [vm_compute; reflexivity|]. split; [|vm_compute; reflexivity].
  apply (processor_pause_holds (outcome midway)).
  - repeat constructor.
  - apply (quietly_run (run_ 4)). vm_compute. reflexivity.
Defined.

Lemma processor_resume_reaches_witness :
  pos 0 (outcome onHold) = Some (PWait (text 10) 1 0) /\
  exists b', play (ownTurns 0) (PauseProcessingFrames (ResumeProcessingFrames (outcome onHold))) = Some b' /\
    begun b' = begun (PauseProcessingFrames (ResumeProcessingFrames (outcome onHold))) ++ [text 10].
Proof.
  split; [vm_compute; reflexivity|].
  apply (processor_resume_reaches "p" (outcome onHold) 0 (text 10) 0).
  - apply outcome_reachable.
  - vm_compute. reflexivity.
  - apply rtc_once. eexists. apply s_pause.
  - vm_compute. reflexivity.
Defined.

End ProcRuns.
