(* ===== verification/Parallel.v ===== *)
(** * Parallel pipelines

    [src/pipeline/parallel.go]: a frame goes to every branch, what the branches let
    out is merged, each frame escaping once, and the lifecycle frames wait for every
    branch.  The branches are goroutines, so every handler is split at its locks:
    an operation is one critical section, and what a call still has to do after it
    (push a frame on, flush the buffer, resume) is its program, run step by step
    among those of the others.  What the branches do with a frame is open.

    [src/pipeline/syncparallel.go] is in [Module SyncParallel]. *)

From S2P Require Import Prelude Frames.

Module Parallel.

Definition bufferedFrame : Type := Frame * Direction.

(** What a call of [sinkPush] has left to do. *)
Inductive stmt :=
| EmitSynchronized (f : Frame) (dir : Direction)
| FlushBuffered
| Resume.

(** A call in progress: the frame it is about to push, unlocked, and the rest. *)
Record call := mkCall { pushing : option bufferedFrame; rest : list stmt }.

Record ParallelPipeline := mkPar {
  branches : nat;
  seen : gset Z;
  counter : gmap Z nat;
  syncing : bool;
  buffered : list bufferedFrame;
  calls : list call;
  (* what happened *)
  out : list bufferedFrame;          (** pushed out, in order *)
  fanned : list Z;                   (** lifecycle frames fanned out *)
  reports : list (nat * Z);          (** lifecycle frames the branches' sinks reported *)
  sourced : list Z                   (** frames emitted by the branches' sources *)
}.

#[export] Instance eta_ParallelPipeline : Eta ParallelPipeline := fun p =>
  mkPar (branches p) (seen p) (counter p) (syncing p) (buffered p) (calls p)
    (out p) (fanned p) (reports p) (sourced p).

(** [NewParallel], which refuses no branch at all. *)
Definition NewParallel (n : nat) : option ParallelPipeline :=
  if Nat.eqb n 0 then None
  else Some (mkPar n ∅ ∅ false [] [] [] [] [] []).

Definition isLifecycle (f : Frame) : bool :=
  match payload f with StartFrame | EndFrame _ | CancelFrame _ => true | _ => false end.

(** [ProcessFrame] of a lifecycle frame, up to fanning it out. *)
Definition arm (f : Frame) (p : ParallelPipeline) : ParallelPipeline :=
  p <| counter ::= insert (id f) (branches p) |> <| syncing := true |>.

(** [emit] under its lock: the frame to push, if it goes straight out. *)
Definition emit (f : Frame) (dir : Direction) (p : ParallelPipeline) : option bufferedFrame * ParallelPipeline :=
  if decide (id f ∈ seen p) then (None, p)
  else
    let p := p <| seen ::= union {[ id f ]} |> in
    if syncing p then (None, p <| buffered ::= fun l => l ++ [(f, dir)] |>)
    else (Some (f, dir), p).

(** [emitSynchronized] under its lock. *)
Definition emitSynchronized (f : Frame) (dir : Direction) (p : ParallelPipeline) :
  option bufferedFrame * ParallelPipeline :=
  if decide (id f ∈ seen p) then (None, p)
  else (Some (f, dir), p <| seen ::= union {[ id f ]} |>).

(** One turn of the loop of [flushBuffered]: the frame taken, or the end of the
    synchronization. *)
Definition flushOne (p : ParallelPipeline) : option bufferedFrame * ParallelPipeline :=
  match buffered p with
  | [] => (None, p <| syncing := false |>)
  | x :: l => (Some x, p <| buffered := l |>)
  end.

(** What [sinkPush] goes on to do once the last branch has reported [f]. *)
Definition release (f : Frame) (dir : Direction) : list stmt :=
  match payload f with
  | StartFrame => [EmitSynchronized f dir; FlushBuffered; Resume]
  | _ => [FlushBuffered; EmitSynchronized f dir; Resume]
  end.

(** [sinkPush] of a lifecycle frame under its lock. *)
Definition sinkPush (f : Frame) (dir : Direction) (p : ParallelPipeline) : option (list stmt) * ParallelPipeline :=
  let n := from_nil 0 (counter p !! id f) in
  let p := if Nat.ltb 0 n then p <| counter ::= insert (id f) (pred n) |> else p in
  if Nat.ltb 0 (pred n) then (None, p)
  else (Some (release f dir), p <| counter ::= delete (id f) |>).

(** One statement of a call. *)
Definition exec (c : call) (p : ParallelPipeline) : option (call * ParallelPipeline) :=
  match pushing c, rest c with
  | Some x, k => Some (mkCall None k, p <| out ::= fun l => l ++ [x] |>)
  | None, EmitSynchronized f dir :: k => let '(x, p) := emitSynchronized f dir p in Some (mkCall x k, p)
  | None, FlushBuffered :: k =>
      match flushOne p with
      | (None, p) => Some (mkCall None k, p)
      | (x, p) => Some (mkCall x (FlushBuffered :: k), p)
      end
  | None, Resume :: k => Some (mkCall None k, p)
  | None, [] => None
  end.

Definition spawn (x : option bufferedFrame) (k : list stmt) (p : ParallelPipeline) : ParallelPipeline :=
  p <| calls ::= fun l => l ++ [mkCall x k] |>.

(** ** Steps

    A lifecycle frame is fanned out once, before any branch has it, each branch's
    sink reports it at most once, and no other frame has its id. *)
Inductive event :=
| Fan (f : Frame)
| Source (f : Frame)
| Sink (f : Frame) (dir : Direction)
| Report (f : Frame) (dir : Direction)
| Call.

Inductive step : event -> ParallelPipeline -> ParallelPipeline -> Prop :=
| s_fan f p : isLifecycle f = true -> id f ∉ fanned p -> id f ∉ seen p -> id f ∉ (reports p).*2 ->
    step (Fan f) p ((arm f p) <| fanned ::= cons (id f) |>)
| s_source f p x p' : emit f Upstream p = (x, p') ->
    step (Source f) p ((spawn x [] p') <| sourced ::= cons (id f) |>)
| s_sink f dir p x p' : isLifecycle f = false -> id f ∉ fanned p -> emit f dir p = (x, p') ->
    step (Sink f dir) p (spawn x [] p')
| s_report b f dir p k p' : isLifecycle f = true -> b < branches p -> (b, id f) ∉ reports p ->
    sinkPush f dir p = (k, p') ->
    step (Report f dir) p ((match k with Some k => spawn None k p' | None => p' end) <| reports ::= cons (b, id f) |>)
| s_call i c c' p p' : calls p !! i = Some c -> exec c p = Some (c', p') ->
    step Call p (p' <| calls ::= <[ i := c' ]> |>).

Definition anystep (p p' : ParallelPipeline) : Prop := exists e, step e p p'.

(** ** Nothing escapes twice *)

Definition inflight (p : ParallelPipeline) : list bufferedFrame :=
  List.flat_map (fun c => option_list (pushing c)) (calls p).

(** The frames accepted: pushed out, being pushed, or held back. *)
Definition accepted (p : ParallelPipeline) : list Z :=
  map (fun x => id x.1) (out p ++ inflight p ++ buffered p).

Definition once (p : ParallelPipeline) : Prop :=
  NoDup (accepted p) /\ forall i, i ∈ accepted p <-> i ∈ seen p.

Lemma flat_map_insert {X Y} (f : X -> list Y) l i x y :
  l !! i = Some x -> List.flat_map f (<[ i := y ]> l) ++ f x ≡ₚ List.flat_map f l ++ f y.
Proof.
  revert i. induction l as [|z l IH]; intros [|i] Hl; simplify_eq/=; [solve_Permutation|].
  rewrite <- !app_assoc. f_equiv. by apply IH.
Qed.

Lemma inflight_insert p i c c' :
  calls p !! i = Some c ->
  inflight (p <| calls ::= <[ i := c' ]> |>) ++ option_list (pushing c) ≡ₚ inflight p ++ option_list (pushing c').
Proof. intros Hc. exact (flat_map_insert (fun c => option_list (pushing c)) _ _ _ _ Hc). Qed.

Lemma inflight_spawn x k p : inflight (spawn x k p) = inflight p ++ option_list x.
Proof. unfold inflight, spawn. simpl. rewrite List.flat_map_app. simpl. by rewrite app_nil_r. Qed.

Lemma once_same p p' : accepted p' ≡ₚ accepted p -> seen p' = seen p -> once p -> once p'.
Proof. intros E Hs [H1 H2]. split; [by rewrite E|]. intros i. by rewrite E, Hs. Qed.

Lemma once_new p p' i :
  accepted p' ≡ₚ i :: accepted p -> i ∉ seen p -> seen p' = {[ i ]} ∪ seen p -> once p -> once p'.
Proof.
  intros E Hi Es [H1 H2]. split.
  - rewrite E. constructor; [|done]. intros Hin. by apply Hi, H2.
  - intros j. rewrite E, Es, elem_of_cons, H2. set_solver.
Qed.

(** What a section does to the frames accepted: it takes a frame not seen, or none. *)
Definition admits (x : option bufferedFrame) (k : list bufferedFrame) (p p' : ParallelPipeline) : Prop :=
  out p' = out p /\ calls p' = calls p /\
  ((buffered p' = buffered p /\ x = None /\ k = [] /\ seen p' = seen p) \/
   exists f dir, (id f ∉ seen p) /\ seen p' = {[ id f ]} ∪ seen p /\
     buffered p' ++ option_list x = buffered p ++ [(f, dir)] /\ k = [(f, dir)]).

Lemma emit_admits f dir p x p' : emit f dir p = (x, p') -> exists k, admits x k p p'.
Proof.
  unfold emit, admits. case_decide; [intros [= <- <-]; exists []; auto 10|].
  simpl. case_match; intros [= <- <-]; exists [(f, dir)]; (split; [done|split; [done|right]]);
    exists f, dir; simpl; by rewrite ?app_nil_r.
Qed.

Lemma synced_admits f dir p x p' : emitSynchronized f dir p = (x, p') -> exists k, admits x k p p'.
Proof.
  unfold emitSynchronized, admits. case_decide; intros [= <- <-]; [exists []; auto 10|].
  exists [(f, dir)]. split; [done|]. split; [done|]. right. exists f, dir. done.
Qed.

Lemma once_admits x k p p' p2 :
  admits x k p p' -> seen p2 = seen p' -> 
  accepted p2 ≡ₚ map (fun y => id y.1) (out p' ++ inflight p' ++ option_list x ++ buffered p') ->
  once p -> once p2.
Proof.
  intros (Eo & Ec & H) Es Ea Ho.
  assert (inflight p' = inflight p) as Ei by (unfold inflight; by rewrite Ec).
  rewrite Eo, Ei in Ea. destruct H as [(Eb & -> & -> & E)|(f & dir & Hf & E & Eb & ->)].
  - apply (once_same p); [|by rewrite Es, E|done]. rewrite Ea, Eb. done.
  - apply (once_new p _ (id f)); [|done|by rewrite Es, E|done].
    rewrite Ea, (Permutation_app_comm (option_list x)), Eb. unfold accepted. rewrite !map_app. simpl. solve_Permutation.
Qed.

Lemma once_spawn x k p p' : admits x k p p' -> once p -> once (spawn x [] p').
Proof.
  intros Ha. apply (once_admits _ _ _ _ _ Ha); [done|]. unfold accepted. rewrite inflight_spawn.
  unfold spawn. simpl. by rewrite <- !app_assoc.
Qed.

Lemma once_exec i c c' p p' :
  calls p !! i = Some c -> exec c p = Some (c', p') -> once p -> once (p' <| calls ::= <[ i := c' ]> |>).
Proof.
  intros Hc He.
  assert (forall p0, calls p0 = calls p -> pushing c = None ->
    inflight (p0 <| calls ::= <[ i := c' ]> |>) ≡ₚ inflight p ++ option_list (pushing c')) as Hi.
  { intros p0 E Hn. assert (inflight p0 = inflight p) as <- by (unfold inflight; by rewrite E).
    rewrite <- E in Hc. pose proof (inflight_insert p0 i c c' Hc) as H. rewrite Hn in H. by rewrite app_nil_r in H. }
  unfold exec in He. destruct (pushing c) as [x|] eqn:Ex.
  - injection He as <- <-. apply once_same; [|done]. unfold accepted. apply Permutation_map.
    pose proof (inflight_insert (p <| out ::= fun l => l ++ [x] |>) i c (mkCall None (rest c)) Hc) as H.
    rewrite Ex in H. simpl in H. rewrite app_nil_r in H.
    change (inflight (p <| out ::= fun l => l ++ [x] |>)) with (inflight p) in H. rewrite <- H. simpl. solve_Permutation.
  - destruct (rest c) as [|[f dir| |] k] eqn:Er; [done|..].
    + destruct (emitSynchronized f dir p) as [x p1] eqn:E. injection He as <- <-.
      destruct (synced_admits _ _ _ _ _ E) as [l Ha].
      apply (once_admits _ _ _ _ _ Ha); [done|]. destruct Ha as (_ & Ec & _). unfold accepted. rewrite (Hi p1 Ec eq_refl).
      simpl. assert (inflight p1 = inflight p) as -> by (unfold inflight; by rewrite Ec). by rewrite <- !app_assoc.
    + unfold flushOne in He. destruct (buffered p) as [|x l] eqn:Eb; injection He as <- <-;
        (apply once_same; [|done]; unfold accepted; apply Permutation_map).
      * rewrite (Hi _ eq_refl eq_refl). simpl. by rewrite Eb, app_nil_r.
      * rewrite (Hi (p <| buffered := l |>) eq_refl eq_refl). simpl. rewrite Eb. solve_Permutation.
    + injection He as <- <-. apply once_same; [|done]. unfold accepted. rewrite (Hi p eq_refl eq_refl). simpl.
      by rewrite app_nil_r.
Qed.

Lemma sinkPush_same f dir p k p' :
  sinkPush f dir p = (k, p') ->
  out p' = out p /\ calls p' = calls p /\ buffered p' = buffered p /\ seen p' = seen p /\ syncing p' = syncing p /\
  branches p' = branches p /\ fanned p' = fanned p /\ reports p' = reports p /\ sourced p' = sourced p.
Proof. unfold sinkPush. repeat case_match; intros [= <- <-]; done. Qed.

Lemma once_step p p' : anystep p p' -> once p -> once p'.
Proof.
  intros [e Hs]. destruct Hs as [f p|f p x p1 E|f dir p x p1 _ _ E|b f dir p k p1 _ _ _ E|i c c' p p1 Hc He].
  - by apply once_same.
  - intros Ho. destruct (emit_admits _ _ _ _ _ E) as [k Ha]. exact (once_spawn _ _ _ _ Ha Ho).
  - intros Ho. destruct (emit_admits _ _ _ _ _ E) as [k Ha]. exact (once_spawn _ _ _ _ Ha Ho).
  - destruct (sinkPush_same _ _ _ _ _ E) as (E1 & E2 & E3 & E4 & _).
    apply once_same; unfold accepted, inflight.
    + destruct k; simpl; rewrite ?List.flat_map_app, E1, E2, E3; simpl; by rewrite ?app_nil_r.
    + destruct k; simpl; by rewrite E4.
  - by eapply once_exec.
Qed.

(** ** The lifecycle frames wait for every branch *)

(** The branches whose sink reported frame [i]. *)
Definition reporters (i : Z) (l : list (nat * Z)) : list nat :=
  map fst (List.filter (fun x => Z.eqb x.2 i) l).

Definition mentions (i : Z) (s : stmt) : bool :=
  match s with EmitSynchronized f _ => Z.eqb (id f) i | _ => false end.

(** A fanned-out frame some branch has yet to report: its counter is what is
    missing, and nothing is about to let it out. *)
Definition awaited (i : Z) (p : ParallelPipeline) : Prop :=
  length (reporters i (reports p)) < branches p /\
  counter p !! i = Some (branches p - length (reporters i (reports p))) /\
  (i ∈ seen p -> i ∈ sourced p) /\
  Forall (fun c => Forall (fun s => mentions i s = false) (rest c)) (calls p).

Definition barrier_inv (p : ParallelPipeline) : Prop :=
  0 < branches p /\ Forall (fun c => Forall (fun s => forall i, mentions i s = true -> i ∈ (reports p).*2) (rest c)) (calls p) /\
  NoDup (reports p) /\ (forall b i, (b, i) ∈ reports p -> b < branches p) /\
  (forall i, i ∈ fanned p -> awaited i p \/ length (reporters i (reports p)) = branches p).

Lemma reporters_cons i b j l :
  reporters i ((b, j) :: l) = if Z.eqb j i then b :: reporters i l else reporters i l.
Proof. unfold reporters. simpl. by destruct (Z.eqb j i). Qed.

Lemma reporters_In i b l : b ∈ reporters i l -> (b, i) ∈ l.
Proof.
  unfold reporters. intros H. apply list_elem_of_In, in_map_iff in H as ([b' j] & <- & H).
  apply filter_In in H as [H E]. apply Z.eqb_eq in E. simpl in *. subst. by apply list_elem_of_In.
Qed.

Lemma reporters_NoDup i l : NoDup l -> NoDup (reporters i l).
Proof.
  induction 1 as [|[b j] l Hn _ IH]; [constructor|]. rewrite reporters_cons.
  destruct (Z.eqb_spec j i) as [->|]; [|done]. constructor; [|done]. intros H. by apply Hn, reporters_In.
Qed.

(** At most every branch has reported. *)
Lemma reporters_bound i p :
  NoDup (reports p) -> (forall b j, (b, j) ∈ reports p -> b < branches p) ->
  length (reporters i (reports p)) <= branches p.
Proof.
  intros Hn Hb. rewrite <- (length_seq (branches p) 0).
  apply NoDup_incl_length; [by apply NoDup_ListNoDup, reporters_NoDup|].
  intros b Hin. apply in_seq. apply list_elem_of_In, reporters_In in Hin. apply Hb in Hin. lia.
Qed.

(** What leaves a frame awaited. *)
Lemma awaited_ext i p p' :
  branches p' = branches p -> reports p' = reports p -> counter p' !! i = counter p !! i ->
  (i ∈ seen p' -> i ∈ seen p \/ i ∈ sourced p') -> sourced p ⊆ sourced p' ->
  (Forall (fun c => Forall (fun s => mentions i s = false) (rest c)) (calls p) ->
   Forall (fun c => Forall (fun s => mentions i s = false) (rest c)) (calls p')) ->
  awaited i p -> awaited i p'.
Proof.
  intros E1 E2 E3 E4 E5 E6 (H1 & H2 & H3 & H4). unfold awaited. rewrite E1, E2, E3.
  split; [done|]. split; [done|]. split; [|by apply E6]. intros Hi. destruct (E4 Hi); [|done]. by apply E5, H3.
Qed.

Lemma emit_keeps f dir p x p' :
  emit f dir p = (x, p') ->
  branches p' = branches p /\ reports p' = reports p /\ counter p' = counter p /\ calls p' = calls p /\
  sourced p' = sourced p /\ fanned p' = fanned p /\ (seen p' = seen p \/ seen p' = {[ id f ]} ∪ seen p).
Proof. unfold emit. repeat case_match; intros [= <- <-]; simpl; auto 10. Qed.

Lemma barrier_ext p p' :
  branches p' = branches p -> reports p' = reports p -> fanned p' = fanned p -> counter p' = counter p ->
  (forall i, i ∈ fanned p -> i ∈ seen p' -> i ∈ seen p \/ i ∈ sourced p') -> sourced p ⊆ sourced p' ->
  (forall P, Forall (fun c => Forall P (rest c)) (calls p) -> Forall (fun c => Forall P (rest c)) (calls p')) ->
  barrier_inv p -> barrier_inv p'.
Proof.
  intros E1 E2 E3 E4 E5 E6 E7 (H0 & Hm & H1 & H2 & H3). unfold barrier_inv. rewrite E1, E2, E3.
  split; [done|]. split; [by apply E7|]. split; [done|]. split; [done|].
  intros i Hi. destruct (H3 i Hi) as [Ha|Ha]; [left|by right].
  eapply awaited_ext; try done; [by rewrite E4|by apply E5|apply E7].
Qed.

Lemma Forall_spawn P x k p :
  Forall (fun c => Forall P (rest c)) (calls p) -> Forall P k -> Forall (fun c => Forall P (rest c)) (calls (spawn x k p)).
Proof. intros H1 H2. apply Forall_app. split; [done|]. by constructor. Qed.

Lemma exec_keeps i c c' p p' :
  calls p !! i = Some c -> exec c p = Some (c', p') ->
  branches p' = branches p /\ reports p' = reports p /\ fanned p' = fanned p /\ counter p' = counter p /\
  sourced p' = sourced p /\ calls p' = calls p /\ (exists k, rest c = k ++ rest c') /\
  (forall j, j ∈ seen p' -> j ∈ seen p \/ exists s, s ∈ rest c /\ mentions j s = true).
Proof.
  intros _ He. unfold exec in He. destruct (pushing c) as [x|].
  - injection He as <- <-. simpl. repeat split; auto. by exists [].
  - destruct (rest c) as [|[f dir| |] k] eqn:Er; [done|..].
    + unfold emitSynchronized in He. case_decide; injection He as <- <-; simpl;
        do 6 (split; [done|]); (split; [by eexists [_]|]); [auto|].
      intros j [->%elem_of_singleton|?]%elem_of_union; [right|by left].
      eexists. split; [by left|]. simpl. apply Z.eqb_refl.
    + unfold flushOne in He. destruct (buffered p); injection He as <- <-; simpl; repeat split; auto;
        [by eexists [_]|by exists []].
    + injection He as <- <-. simpl. repeat split; auto. by eexists [_].
Qed.

Lemma barrier_call i c c' p p' :
  calls p !! i = Some c -> exec c p = Some (c', p') -> barrier_inv p -> barrier_inv (p' <| calls ::= <[ i := c' ]> |>).
Proof.
  intros Hc He Hb. destruct (exec_keeps _ _ _ _ _ Hc He) as (E1 & E2 & E3 & E4 & E5 & E6 & [k Ek] & Es).
  revert Hb. pose proof Hc as Hc'. intros (H0 & Hm & H1 & H2 & H3).
  unfold barrier_inv. simpl. rewrite E1, E2, E3, E6.
  assert (forall P : stmt -> Prop, Forall (fun c => Forall P (rest c)) (calls p) ->
    Forall (fun c => Forall P (rest c)) (<[ i := c' ]> (calls p))) as Hk.
  { intros P H. apply Forall_insert; [done|]. pose proof (Forall_lookup_1 _ _ _ _ H Hc) as H'. simpl in H'.
    rewrite Ek in H'. apply Forall_app in H' as [_ H']. exact H'. }
  split; [done|]. split; [by apply Hk|]. split; [done|]. split; [done|].
  intros j Hj. destruct (H3 j Hj) as [(A1 & A2 & A3 & A4)|]; [left|by right].
  unfold awaited. simpl. rewrite ?E1, ?E2, ?E4, ?E5, ?E6. split; [done|]. split; [done|]. split.
  - intros Hin. destruct (Es j Hin) as [?|(s & Hs & Hms)]; [by apply A3|]. exfalso.
    pose proof (Forall_lookup_1 _ _ _ _ A4 Hc') as H. rewrite Forall_forall in H. specialize (H s Hs). congruence.
  - by apply Hk.
Qed.

Lemma sinkPush_counter f dir p k p' :
  sinkPush f dir p = (k, p') ->
  let n := from_nil 0 (counter p !! id f) in
  (forall i, i <> id f -> counter p' !! i = counter p !! i) /\
  ((k = None /\ 1 < n /\ counter p' !! id f = Some (pred n)) \/ (k = Some (release f dir) /\ n <= 1)).
Proof.
  unfold sinkPush. set (n := from_nil 0 (counter p !! id f)).
  destruct (Nat.ltb_spec 0 n), (Nat.ltb_spec 0 (pred n)); intros [= <- <-]; simpl; split; try lia;
    intros; rewrite ?lookup_delete_ne, ?lookup_insert_ne by done; auto; rewrite ?lookup_insert_eq; auto with lia.
Qed.

Lemma release_mentions f dir i : Forall (fun s => mentions i s = true -> i = id f) (release f dir).
Proof.
  assert (forall s, s ∈ release f dir -> mentions i s = true -> i = id f) as H;
    [|by apply Forall_forall].
  intros s Hs Hm. assert (s = EmitSynchronized f dir) as ->.
  { unfold release in Hs. destruct (payload f); set_solver. }
  simpl in Hm. by apply Z.eqb_eq in Hm.
Qed.

Lemma barrier_report b f dir p k p1 :
  b < branches p -> (b, id f) ∉ reports p -> sinkPush f dir p = (k, p1) -> barrier_inv p ->
  barrier_inv ((match k with Some k => spawn None k p1 | None => p1 end) <| reports ::= cons (b, id f) |>).
Proof.
  intros Hb Hn Ek Hi. pose proof Hi as (H0 & Hm & H1 & H2 & H3).
  destruct (sinkPush_same _ _ _ _ _ Ek) as (E1 & E2 & E3 & E4 & E5 & E6 & E7 & E8 & E9).
  destruct (sinkPush_counter _ _ _ _ _ Ek) as [Co Cn].
  set (p2 := _ <| reports ::= _ |>).
  assert (branches p2 = branches p /\ reports p2 = (b, id f) :: reports p /\ fanned p2 = fanned p /\
    counter p2 = counter p1 /\ seen p2 = seen p /\ sourced p2 = sourced p /\
    calls p2 = calls p ++ match k with Some k => [mkCall None k] | None => [] end)
    as (F1 & F2 & F3 & F4 & F5 & F6 & F7)
    by (destruct k; simpl; rewrite ?E2, ?E6, ?E7, ?E8, ?E9, ?E4, ?app_nil_r; done).
  assert (forall c, c ∈ match k with Some k => [mkCall None k] | None => [] end -> rest c = release f dir) as Fk
    by (destruct Cn as [(-> & _)|(-> & _)]; set_solver).
  clearbody p2. unfold barrier_inv. rewrite F1, F2, F3, F7.
  assert (NoDup ((b, id f) :: reports p)) as Hnd by (by constructor).
  assert (forall c j, (c, j) ∈ (b, id f) :: reports p -> c < branches p) as Hbd
    by (intros c j [[= -> ->]|?]%elem_of_cons; [done|by eapply H2]).
  split; [done|]. split; [|split; [done|split; [done|]]].
  - apply Forall_app. split.
    + eapply Forall_impl; [exact Hm|]. intros c Hc. eapply Forall_impl; [exact Hc|]. intros s Hs j Hj. right. by apply Hs.
    + apply Forall_forall. intros c Hc. rewrite (Fk c Hc). apply Forall_forall. intros s Hs j Hj.
      pose proof (proj1 (Forall_forall _ _) (release_mentions f dir j) s Hs Hj) as ->. by left.
  - intros i Hif. pose proof (reporters_bound i p2) as Hub. rewrite F1, F2 in Hub. specialize (Hub Hnd Hbd).
    destruct (H3 i Hif) as [(A1 & A2 & A3 & A4)|Hr]; rewrite reporters_cons in *; destruct (Z.eqb_spec (id f) i) as [Ef|Ef]; simpl in *.
    + subst i. rewrite A2 in Cn. simpl in Cn. destruct Cn as [(-> & Hlt & Ec)|(-> & Hle)]; [left|right; lia].
      unfold awaited. rewrite F1, F2, F4, F5, F6, F7, reporters_cons, Z.eqb_refl, app_nil_r. simpl.
      split; [lia|]. split; [|done]. rewrite Ec. f_equal. lia.
    + left. unfold awaited. rewrite F1, F2, F4, F5, F6, F7, reporters_cons. destruct (Z.eqb_spec (id f) i) as [|_]; [done|].
      split; [done|]. split; [by rewrite Co|]. split; [done|]. apply Forall_app. split; [done|].
      apply Forall_forall. intros c Hc. rewrite (Fk c Hc). apply Forall_forall. intros s Hs.
      destruct (mentions i s) eqn:Em; [|done].
      by pose proof (proj1 (Forall_forall _ _) (release_mentions f dir i) s Hs Em).
    + lia.
    + by right.
Qed.

Lemma barrier_step p p' : anystep p p' -> barrier_inv p -> barrier_inv p'.
Proof.
  intros [e Hs]. destruct Hs as [f p Hl Hf Hs Hr|f p x p1 E|f dir p x p1 _ Hf E|b f dir p k p1 _ Hb Hn E|i c c' p p1 Hc He].
  - intros (H0 & Hm & H1 & H2 & H3). split; [done|]. split; [done|]. split; [done|]. split; [done|].
    assert (length (reporters (id f) (reports p)) = 0) as E0.
    { destruct (reporters (id f) (reports p)) as [|b l] eqn:E; [done|]. exfalso. apply Hr.
      apply list_elem_of_fmap. exists (b, id f). split; [done|]. apply reporters_In. rewrite E. by left. }
    intros i Hi. destruct (decide (i = id f)) as [->|Hne].
    + left. unfold awaited. simpl. rewrite E0, Nat.sub_0_r, lookup_insert_eq. split; [done|]. split; [done|].
      split; [done|]. eapply Forall_impl; [exact Hm|]. intros c Hc. eapply Forall_impl; [exact Hc|].
      intros s Hs'. destruct (mentions (id f) s) eqn:Em; [|done]. by apply Hs' in Em.
    + simpl in Hi. apply elem_of_cons in Hi as [?|Hi]; [done|]. destruct (H3 i Hi) as [Ha|Ha]; [left|by right].
      eapply awaited_ext; [..|exact Ha]; simpl; auto. by rewrite lookup_insert_ne.
  - destruct (emit_keeps _ _ _ _ _ E) as (E1 & E2 & E3 & E4 & E5 & E6 & E7).
    apply barrier_ext; simpl; try done.
    + intros i _. rewrite E5. destruct E7 as [-> | ->]; [by left|]. intros [->%elem_of_singleton|?]%elem_of_union; [right; by left|by left].
    + rewrite E5. set_solver.
    + intros P H. rewrite E4. by apply Forall_app; split; [|constructor].
  - destruct (emit_keeps _ _ _ _ _ E) as (E1 & E2 & E3 & E4 & E5 & E6 & E7).
    apply barrier_ext; simpl; try done.
    + intros i Hi. destruct E7 as [-> | ->]; [by left|]. intros [->%elem_of_singleton|?]%elem_of_union; [done|by left].
    + by rewrite E5.
    + intros P H. rewrite E4. by apply Forall_app; split; [|constructor].
  - by eapply barrier_report.
  - by eapply barrier_call.
Qed.

(** ** One lifecycle frame at a time *)

(** Nothing in progress: what [NewParallel] starts from, and what every
    synchronization ends in. *)
Record idle (p : ParallelPipeline) : Prop := {
  i_once : once p;
  i_barrier : barrier_inv p;
  i_sync : syncing p = false;
  i_buffered : buffered p = [];
  i_calls : calls p = []
}.

(** The steps of a run in which [f] is the only lifecycle frame about. *)
Definition solo (f : Frame) (p p' : ParallelPipeline) : Prop :=
  exists e, step e p p' /\
    match e with
    | Fan _ => False
    | Source g | Sink g _ => id g <> id f
    | Report g _ => g = f
    | Call => True
    end.

Definition finished (c : call) : Prop := c = mkCall None [].

(** Every call is finished, but for one. *)
Definition busy (c : call) (p : ParallelPipeline) : Prop :=
  exists i, calls p !! i = Some c /\ forall j c', calls p !! j = Some c' -> j <> i -> finished c'.

Definition full (f : Frame) (p : ParallelPipeline) : Prop := length (reporters (id f) (reports p)) = branches p.

(** The stages of a synchronization of [f], which finds [out0] pushed out: what
    each still holds back begins with [X].  A StartFrame goes out before the
    buffer is flushed, any other after. *)
Inductive stage (f : Frame) (out0 X : list bufferedFrame) (p : ParallelPipeline) : Prop :=
| g_waiting : syncing p = true -> Forall finished (calls p) -> out p = out0 -> X `prefix_of` buffered p ->
    id f ∉ seen p -> counter p !! id f = Some (branches p - length (reporters (id f) (reports p))) ->
    length (reporters (id f) (reports p)) < branches p -> stage f out0 X p
| g_start dir : payload f = StartFrame -> full f p -> syncing p = true -> out p = out0 -> id f ∉ seen p ->
    busy (mkCall None [EmitSynchronized f dir; FlushBuffered; Resume]) p -> stage f out0 X p
| g_starting dir : payload f = StartFrame -> full f p -> syncing p = true -> out p = out0 ->
    busy (mkCall (Some (f, dir)) [FlushBuffered; Resume]) p -> stage f out0 X p
| g_started dir : payload f = StartFrame -> full f p -> (out0 ++ [(f, dir)]) `prefix_of` out p -> stage f out0 X p
| g_flushing x dir : payload f <> StartFrame -> full f p -> syncing p = true -> id f ∉ seen p ->
    (out0 ++ X) `prefix_of` out p ++ option_list x ++ buffered p ->
    busy (mkCall x [FlushBuffered; EmitSynchronized f dir; Resume]) p -> stage f out0 X p
| g_flushed : payload f <> StartFrame -> full f p -> (out0 ++ X) `prefix_of` out p -> stage f out0 X p.

Lemma full_no_report b f p : barrier_inv p -> full f p -> b < branches p -> (b, id f) ∉ reports p -> False.
Proof.
  intros (_ & _ & H1 & H2 & _) Hf Hb Hn.
  assert (NoDup ((b, id f) :: reports p)) as Hnd by (by constructor).
  pose proof (reporters_bound (id f) (p <| reports := (b, id f) :: reports p |>)) as H. simpl in H.
  rewrite reporters_cons, Z.eqb_refl in H. simpl in H. unfold full in Hf.
  specialize (H Hnd ltac:(intros c j [[= -> _]|?]%elem_of_cons; [done|by eapply H2])). lia.
Qed.

Lemma busy_other c i c0 c1 p0 p1 p :
  busy c p -> calls p !! i = Some c0 -> exec c0 p0 = Some (c1, p1) -> c0 = c.
Proof.
  intros (j & Hj & Ho) Hi He. destruct (decide (i = j)) as [->|Hne]; [congruence|].
  specialize (Ho _ _ Hi Hne). unfold finished in Ho. by subst.
Qed.

Lemma busy_update c c' p p' i :
  busy c p -> calls p !! i = Some c -> ~ finished c -> calls p' = <[ i := c' ]> (calls p) -> busy c' p'.
Proof.
  intros (j & Hj & Ho) Hi Hf E. assert (i = j) as ->.
  { destruct (decide (i = j)); [done|]. by exfalso; eapply Hf, Ho. }
  exists j. rewrite E. split.
  - apply list_lookup_insert_eq. by eapply lookup_lt_Some.
  - intros k c0 Hk Hne. rewrite list_lookup_insert_ne in Hk by done. by eapply Ho.
Qed.

Lemma busy_spawn c p p' :
  busy c p -> calls p' = calls p ++ [mkCall None []] -> busy c p'.
Proof.
  intros (j & Hj & Ho) E. exists j. rewrite E. split; [by apply lookup_app_l_Some|].
  intros k c0 [Hk|[_ Hk]]%lookup_app_Some Hne; [by eapply Ho|]. by destruct (k - length (calls p)); simplify_eq/=.
Qed.

(** What stays the same, and what only grows. *)
Lemma step_keeps e p p' :
  step e p p' -> branches p' = branches p /\ (exists k, out p' = out p ++ k) /\
    (reports p' = reports p \/ exists f dir b, e = Report f dir /\ b < branches p /\ (b, id f) ∉ reports p).
Proof.
  assert (forall l : list bufferedFrame, exists k, l = l ++ k) as Hn by (intros l; exists []; by rewrite app_nil_r).
  destruct 1 as [f p Hl Hf Hs Hr|f p x p1 E|f dir p x p1 _ Hf E|b f dir p k p1 _ Hb Hnr E|i c c' p p1 Hc He].
  - auto.
  - destruct (emit_keeps _ _ _ _ _ E) as (E1 & E2 & _). destruct (emit_admits _ _ _ _ _ E) as (k & Eo & _).
    simpl. rewrite E1, E2, Eo. auto.
  - destruct (emit_keeps _ _ _ _ _ E) as (E1 & E2 & _). destruct (emit_admits _ _ _ _ _ E) as (k & Eo & _).
    simpl. rewrite E1, E2, Eo. auto.
  - destruct (sinkPush_same _ _ _ _ _ E) as (E1 & _ & _ & _ & _ & E6 & _). destruct k; simpl; rewrite E1, E6; split; auto;
      split; [auto|right; eauto 6|auto|right; eauto 6].
  - destruct (exec_keeps _ _ _ _ _ Hc He) as (E1 & E2 & _). simpl. rewrite E1, E2. split; [done|]. split; [|by left].
    unfold exec in He. destruct (pushing c) as [x|]; [injection He as <- <-; simpl; eauto|].
    destruct (rest c) as [|[f dir| |] k]; [done|..].
    + unfold emitSynchronized in He. case_decide; injection He as <- <-; simpl; auto.
    + unfold flushOne in He. destruct (buffered p); injection He as <- <-; simpl; auto.
    + injection He as <- <-. auto.
Qed.

(** While synchronizing, what a branch lets out is held back. *)
Lemma emit_syncing g dir p x p' :
  syncing p = true -> emit g dir p = (x, p') ->
  x = None /\ syncing p' = true /\ out p' = out p /\ (exists k, buffered p' = buffered p ++ k) /\
  (forall i, i <> id g -> i ∉ seen p -> i ∉ seen p').
Proof.
  intros Hs. unfold emit. case_decide; [intros [= <- <-]|simpl; rewrite Hs; intros [= <- <-]; simpl].
  - repeat split; try done. exists []. by rewrite app_nil_r.
  - repeat split; try done; [eauto|]. by intros i Hi Hn [->%elem_of_singleton|?]%elem_of_union.
Qed.

Lemma stage_emit f out0 X g dir p x p' l :
  barrier_inv p -> id g <> id f -> emit g dir p = (x, p') -> stage f out0 X p ->
  stage f out0 X ((spawn x [] p') <| sourced := l |>).
Proof.
  intros Hb Hg E Hst. destruct (emit_keeps _ _ _ _ _ E) as (E1 & E2 & E3 & E4 & E5 & E6 & E7).
  destruct (emit_admits _ _ _ _ _ E) as (k & Eo & _).
  assert (full f p -> full f ((spawn x [] p') <| sourced := l |>)) as Hfull
    by (unfold full; simpl; by rewrite E1, E2).
  destruct Hst as [Hs Hc Ho HX Hseen Hn Hr|d Hp Hf Hs Ho Hseen Hc|d Hp Hf Hs Ho Hc|d Hp Hf Ho|y d Hp Hf Hs Hseen Ho Hc|Hp Hf Ho];
    try destruct (emit_syncing _ _ _ _ _ Hs E) as (-> & Es & _ & [kb Ek] & Hseen').
  - apply g_waiting; simpl; rewrite ?E1, ?E2, ?E3, ?E4, ?Eo; try done; [|rewrite Ek; by apply prefix_app_r|by apply Hseen'].
    apply Forall_app. split; [done|by repeat constructor].
  - apply (g_start _ _ _ _ d); simpl; auto; [by rewrite Eo|]. eapply busy_spawn; [exact Hc|]. simpl. by rewrite E4.
  - apply (g_starting _ _ _ _ d); simpl; auto; [by rewrite Eo|]. eapply busy_spawn; [exact Hc|]. simpl. by rewrite E4.
  - apply (g_started _ _ _ _ d); simpl; auto. by rewrite Eo.
  - apply (g_flushing _ _ _ _ y d); simpl; auto.
    + rewrite Eo, Ek, !app_assoc. apply prefix_app_r. by rewrite <- !app_assoc in *.
    + eapply busy_spawn; [exact Hc|]. simpl. by rewrite E4.
  - apply g_flushed; simpl; auto. by rewrite Eo.
Qed.

Lemma stage_call f out0 X i c c' p p' :
  barrier_inv p -> calls p !! i = Some c -> exec c p = Some (c', p') -> stage f out0 X p ->
  stage f out0 X (p' <| calls ::= <[ i := c' ]> |>).
Proof.
  intros Hb Hi He Hst. destruct (exec_keeps _ _ _ _ _ Hi He) as (E1 & E2 & E3 & E4 & E5 & E6 & _).
  destruct (step_keeps _ _ _ (s_call i c c' p p' Hi He)) as (_ & [ko Eo] & _). simpl in Eo.
  assert (full f p -> full f (p' <| calls ::= <[ i := c' ]> |>)) as Hfull by (unfold full; simpl; by rewrite E1, E2).
  destruct Hst as [Hs Hc Ho HX Hseen Hn Hr|d Hp Hf Hs Ho Hseen Hc|d Hp Hf Hs Ho Hc|d Hp Hf Ho|y d Hp Hf Hs Hseen Ho Hc|Hp Hf Ho].
  - pose proof (Forall_lookup_1 _ _ _ _ Hc Hi) as Hfin. unfold finished in Hfin. by subst.
  - pose proof (busy_other _ _ _ _ _ _ _ Hc Hi He) as ->. unfold exec, emitSynchronized in He.
    cbn [pushing rest] in He. case_decide; [done|]. injection He as <- <-. apply (g_starting _ _ _ _ d); simpl; auto.
    by eapply busy_update.
  - pose proof (busy_other _ _ _ _ _ _ _ Hc Hi He) as ->. injection He as <- <-.
    apply (g_started _ _ _ _ d); simpl; auto. by rewrite Ho.
  - apply (g_started _ _ _ _ d); simpl; auto. rewrite Eo. by apply prefix_app_r.
  - pose proof (busy_other _ _ _ _ _ _ _ Hc Hi He) as ->. destruct y as [y|].
    + injection He as <- <-. apply (g_flushing _ _ _ _ None d); simpl; auto; [|by eapply busy_update].
      by rewrite <- app_assoc.
    + unfold exec, flushOne in He. cbn [pushing rest] in He. destruct (buffered p) as [|z l] eqn:Eb; injection He as <- <-.
      * apply g_flushed; simpl; auto. by rewrite app_nil_r in Ho.
      * apply (g_flushing _ _ _ _ (Some z) d); simpl; auto. by eapply busy_update.
  - apply g_flushed; simpl; auto. rewrite Eo. by apply prefix_app_r.
Qed.

Lemma busy_last c p :
  Forall finished (removelast (calls p)) -> last (calls p) = Some c -> busy c p.
Proof.
  intros Hf Hl. unfold busy. destruct (calls p) as [|c0 l] using rev_ind; [done|].
  rewrite removelast_last in Hf. rewrite last_snoc in Hl. injection Hl as ->.
  exists (length l). split; [by rewrite lookup_app_r, Nat.sub_diag|].
  intros j c' [Hj|[Hge Hj]]%lookup_app_Some Hne; [by eapply Forall_lookup_1|].
  destruct (j - length l) eqn:E; [lia|by destruct n].
Qed.

Lemma stage_report b f out0 X dir p k p1 :
  isLifecycle f = true -> barrier_inv p -> b < branches p -> (b, id f) ∉ reports p -> sinkPush f dir p = (k, p1) ->
  stage f out0 X p ->
  stage f out0 X ((match k with Some k => spawn None k p1 | None => p1 end) <| reports ::= cons (b, id f) |>).
Proof.
  intros Hl Hb Hlt Hn E Hst.
  destruct Hst as [Hs Hc Ho HX Hseen Hct Hr|? ? Hf|? ? Hf|? ? Hf|? ? ? Hf|? Hf];
    try (exfalso; by eapply full_no_report).
  destruct (sinkPush_same _ _ _ _ _ E) as (E1 & E2 & E3 & E4 & E5 & E6 & E7 & E8 & E9).
  destruct (sinkPush_counter _ _ _ _ _ E) as [_ Cn]. rewrite Hct in Cn. simpl in Cn.
  set (p2 := _ <| reports ::= _ |>).
  assert (branches p2 = branches p /\ reports p2 = (b, id f) :: reports p /\ syncing p2 = true /\ out p2 = out0 /\
    counter p2 = counter p1 /\ seen p2 = seen p /\ buffered p2 = buffered p /\
    calls p2 = calls p ++ match k with Some k => [mkCall None k] | None => [] end)
    as (F1 & F2 & F3 & F4 & F5 & F6 & F7 & F8)
    by (destruct k; simpl; rewrite ?E1, ?E2, ?E3, ?E4, ?E5, ?E6, ?E8, ?app_nil_r; done).
  clearbody p2.
  assert (length (reporters (id f) (reports p2)) = S (length (reporters (id f) (reports p)))) as Elen
    by (rewrite F2, reporters_cons, Z.eqb_refl; done).
  destruct Cn as [(-> & Hgt & Ec)|(-> & Hle)].
  - apply g_waiting; rewrite ?F1, ?F3, ?F4, ?F5, ?F6, ?F7, ?F8, ?Elen; try done; [by rewrite app_nil_r| |lia].
    rewrite Ec. f_equal. lia.
  - assert (full f p2) as Hfull by (unfold full; rewrite Elen, F1; lia).
    assert (busy (mkCall None (release f dir)) p2) as Hbusy.
    { apply busy_last; rewrite F8; [by rewrite removelast_last|by rewrite last_snoc]. }
    unfold release, isLifecycle in *. destruct (payload f) eqn:Ep; try done.
    + apply (g_start _ _ _ _ dir); auto. by rewrite F6.
    + apply (g_flushing _ _ _ _ None dir); auto; [by rewrite Ep|by rewrite F6|].
      rewrite F4, F7. simpl. by apply prefix_app.
    + apply (g_flushing _ _ _ _ None dir); auto; [by rewrite Ep|by rewrite F6|].
      rewrite F4, F7. simpl. by apply prefix_app.
Qed.

Lemma stage_step f out0 X p p' :
  isLifecycle f = true -> solo f p p' -> barrier_inv p -> stage f out0 X p -> stage f out0 X p'.
Proof.
  intros Hl (e & Hs & He) Hb Hst.
  destruct Hs as [|g p x p1 E|g dir p x p1 _ Hf E|b g dir p k p1 _ Hlt Hn E|i c c' p p1 Hc Hx]; [done|..].
  - by eapply (stage_emit f out0 X g Upstream p x p1 _ Hb He E).
  - exact (stage_emit f out0 X g dir p x p1 (sourced p1) Hb He E Hst).
  - subst g. by eapply stage_report.
  - by eapply stage_call.
Qed.

Lemma stage_run f out0 X p p' :
  isLifecycle f = true -> rtc (solo f) p p' -> barrier_inv p -> stage f out0 X p -> barrier_inv p' /\ stage f out0 X p'.
Proof.
  intros Hl Hr Hb Hst. apply (rtc_invariant (solo f) (fun p => barrier_inv p /\ stage f out0 X p) _ _ Hr); [|done].
  intros a c Hs [Ha Hsa]. split; [|by eapply stage_step]. destruct Hs as (e & Hs & _).
  eapply barrier_step; [by exists e|done].
Qed.

(** [f] fanned out of an idle parallel pipeline. *)
Lemma stage_fan f p p1 :
  idle p -> step (Fan f) p p1 -> isLifecycle f = true /\ barrier_inv p1 /\ stage f (out p) [] p1.
Proof.
  intros [Ho Hb Hs Hbuf Hc] Hst. pose proof (barrier_step _ _ (ex_intro _ _ Hst) Hb) as Hb1.
  inversion Hst as [f' p' Hl Hf Hseen Hr| | | |]; subst. split; [done|]. split; [done|].
  assert (reporters (id f) (reports p) = []) as E0.
  { destruct (reporters (id f) (reports p)) as [|b l] eqn:E; [done|]. exfalso. apply Hr.
    apply list_elem_of_fmap. exists (b, id f). split; [done|]. apply reporters_In. rewrite E. by left. }
  apply g_waiting; simpl; try done.
  - by rewrite Hc.
  - apply prefix_nil.
  - by rewrite E0, lookup_insert_eq, Nat.sub_0_r.
  - rewrite E0. by destruct Hb.
Qed.

(** ** The guarantees *)

(** A parallel pipeline some run of the branches has reached. *)
Definition reachable (n : nat) (p : ParallelPipeline) : Prop :=
  exists p0, NewParallel n = Some p0 /\ rtc anystep p0 p.

Lemma NewParallel_idle n p : NewParallel n = Some p -> idle p.
Proof.
  unfold NewParallel. destruct (Nat.eqb_spec n 0); [done|]. intros [= <-]. split; try done.
  - split; [constructor|]. intros i. unfold accepted. simpl. split; [by intros ?%elem_of_nil|set_solver].
  - split; [simpl; lia|]. split; [constructor|]. split; [constructor|]. split; [by intros ?? ?%elem_of_nil|].
    by intros i ?%elem_of_nil.
Qed.

(** The runs, with the events that made them, the latest first. *)
Inductive run (n : nat) : list event -> ParallelPipeline -> Prop :=
| r_new p : NewParallel n = Some p -> run n [] p
| r_step es e p p' : run n es p -> step e p p' -> run n (e :: es) p'.

(** What the branches hand over in an event, at either end. *)
Definition handed1 (e : event) : list bufferedFrame :=
  match e with
  | Source f => [(f, Upstream)]
  | Sink f dir | Report f dir => [(f, dir)]
  | Fan _ | Call => []
  end.
Definition handed (es : list event) : list bufferedFrame := List.flat_map handed1 es.

(** The frames that have left, are leaving or wait for the end of a synchronization. *)
Definition kept (p : ParallelPipeline) : list bufferedFrame := out p ++ inflight p ++ buffered p.

(** A call that is about to let a lifecycle frame out. *)
Definition releasing (i : Z) (p : ParallelPipeline) : Prop :=
  exists c s, c ∈ calls p /\ s ∈ rest c /\ mentions i s = true.

Lemma run_reachable n es p : run n es p -> reachable n p.
Proof.
  induction 1 as [p E|es e p p' _ (p0 & E & Hr) Hs]; [by exists p|]. exists p0. split; [done|].
  eapply rtc_r; [exact Hr|by exists e].
Qed.

Lemma run_inv n es p : run n es p -> once p /\ barrier_inv p.
Proof.
  intros (p0 & E & Hr)%run_reachable. pose proof (NewParallel_idle _ _ E) as [Ho Hb _ _ _].
  split; [by eapply rtc_invariant; [exact Hr|exact once_step|]|by eapply rtc_invariant; [exact Hr|exact barrier_step|]].
Qed.

(** Only what was handed over is kept. *)
Definition from_branches (hs : list bufferedFrame) (p : ParallelPipeline) : Prop :=
  (forall x, x ∈ kept p -> x ∈ hs) /\
  Forall (fun c => Forall (fun s => forall f dir, s = EmitSynchronized f dir -> (f, dir) ∈ hs) (rest c)) (calls p).

Lemma kept_elem x p : x ∈ kept p <-> x ∈ out p \/ (exists c, c ∈ calls p /\ pushing c = Some x) \/ x ∈ buffered p.
Proof.
  unfold kept. rewrite !elem_of_app. assert (x ∈ inflight p <-> exists c, c ∈ calls p /\ pushing c = Some x) as ->; [|done].
  unfold inflight. rewrite list_elem_of_In, in_flat_map.
  split; intros (c & Hc & Hx); exists c; (split; [by apply list_elem_of_In|]).
  - destruct (pushing c); simpl in Hx; [by destruct Hx as [->|[]]|done].
  - rewrite Hx. by left.
Qed.
Lemma from_more hs hs' p : hs ⊆ hs' -> from_branches hs p -> from_branches hs' p.
Proof.
  intros Hi [H1 H2]. split; [by intros x Hx; apply Hi, H1|]. eapply Forall_impl; [exact H2|]. intros c Hc.
  eapply Forall_impl; [exact Hc|]. eauto.
Qed.

(** Where a frame kept after a change comes from. *)
Lemma from_change hs p p' :
  from_branches hs p ->
  (forall x, x ∈ out p' \/ x ∈ buffered p' -> x ∈ kept p \/ x ∈ hs) ->
  (forall c, c ∈ calls p' -> c ∈ calls p \/
     (forall x, pushing c = Some x -> x ∈ kept p \/ x ∈ hs) /\
     (forall f dir, EmitSynchronized f dir ∈ rest c -> (f, dir) ∈ hs)) ->
  from_branches hs p'.
Proof.
  intros [H1 H2] Ho Hc. rewrite Forall_forall in H2. assert (forall x, x ∈ kept p \/ x ∈ hs -> x ∈ hs) as Hk by (intros x []; auto).
  split.
  - intros x [Hx|[(c & Hin & Ex)|Hx]]%kept_elem; [apply Hk, Ho; auto| |apply Hk, Ho; auto].
    destruct (Hc c Hin) as [Hin'|[Hp _]]; [|by apply Hk, Hp]. apply H1, kept_elem. eauto.
  - apply Forall_forall. intros c Hin. destruct (Hc c Hin) as [Hin'|[_ Hp]]; [by apply H2|].
    apply Forall_forall. intros s Hs f dir ->. by apply Hp.
Qed.

Lemma kept_out x p : x ∈ out p -> x ∈ kept p.
Proof. intros. apply kept_elem. auto. Qed.
Lemma kept_buffered x p : x ∈ buffered p -> x ∈ kept p.
Proof. intros. apply kept_elem. auto. Qed.

Lemma from_emit f dir p x p' s hs :
  emit f dir p = (x, p') -> from_branches hs p -> from_branches ((f, dir) :: hs) ((spawn x [] p') <| sourced := s |>).
Proof.
  intros E H. apply (from_more _ ((f, dir) :: hs)) in H; [|set_solver].
  assert (out p' = out p /\ calls p' = calls p /\ (forall y, y ∈ buffered p' -> y ∈ buffered p \/ y = (f, dir)) /\
    (forall y, x = Some y -> y = (f, dir))) as (Eo & Ec & Eb & Ex).
  { unfold emit in E. repeat case_match; injection E as <- <-; simpl; repeat split; try done; auto; [|congruence].
    intros y [?|?%list_elem_of_singleton]%elem_of_app; auto. }
  apply (from_change _ p); [done|..]; simpl; rewrite ?Eo, ?Ec.
  - intros y [Hy|[Hy| ->]%Eb]; [left; by apply kept_out|left; by apply kept_buffered|right; by left].
  - intros c [?| ->%list_elem_of_singleton]%elem_of_app; [by left|right]. simpl. split.
    + intros y ->%Ex. right. by left.
    + by intros ? ? ?%elem_of_nil.
Qed.

Lemma from_exec i c c' p p' hs :
  calls p !! i = Some c -> exec c p = Some (c', p') -> from_branches hs p -> from_branches hs (p' <| calls ::= <[ i := c' ]> |>).
Proof.
  intros Hc He H. pose proof (list_elem_of_lookup_2 _ _ _ Hc) as Hin. pose proof (proj1 (Forall_forall _ _) (proj2 H) c Hin) as Hr.
  destruct (exec_keeps _ _ _ _ _ Hc He) as (_ & _ & _ & _ & _ & Ec & [k Ek] & _). simpl in Hr. rewrite Ek in Hr. apply Forall_app in Hr as [Hk Hr].
  assert (forall x, x ∈ out p' \/ x ∈ buffered p' \/ pushing c' = Some x -> x ∈ kept p \/ x ∈ hs) as Hx.
  { unfold exec in He. destruct (pushing c) as [y|] eqn:Ey; [injection He as <- <-|destruct (rest c) as [|[f dir| |] l] eqn:El; [done|..]].
    - intros x [[Hx|Hx%list_elem_of_singleton]%elem_of_app|[Hx|[=]]]; left; [by apply kept_out| |by apply kept_buffered].
      subst. apply kept_elem. eauto.
    - pose proof (proj1 (Forall_forall _ _) (proj2 H) c Hin) as Hr'. simpl in Hr'. rewrite El in Hr'. apply Forall_cons in Hr' as [Hd _].
      unfold emitSynchronized in He. case_decide; injection He as <- <-; simpl; intros x [Hx|[Hx|Hx]]; simplify_eq;
        eauto using kept_out, kept_buffered.
    - unfold flushOne in He. destruct (buffered p) as [|y b] eqn:Eb; injection He as <- <-; simpl;
        intros x [Hx|[Hx|Hx]]; simplify_eq; left; eauto using kept_out; [|apply kept_buffered; rewrite Eb; by right|apply kept_buffered; rewrite Eb; by left].
      rewrite Eb in Hx. by apply elem_of_nil in Hx.
    - injection He as <- <-. intros x [Hx|[Hx|[=]]]; left; eauto using kept_out, kept_buffered. }
  apply (from_change _ p); [done|by intros x [?|?]; apply Hx; simpl; auto|].
  intros d Hd. simpl in Hd. rewrite Ec in Hd. apply list_elem_of_lookup in Hd as [j Hj].
  destruct (decide (j = i)) as [->|Hne].
  - rewrite list_lookup_insert_eq in Hj by (by eapply lookup_lt_Some). injection Hj as <-. right. split.
    + intros x E. apply Hx. auto.
    + intros f dir Hf. exact (proj1 (Forall_forall _ _) Hr _ Hf f dir eq_refl).
  - rewrite list_lookup_insert_ne in Hj by done. left. by eapply list_elem_of_lookup_2.
Qed.

Lemma from_step e p p' hs : step e p p' -> from_branches hs p -> from_branches (handed1 e ++ hs) p'.
Proof.
  destruct 1 as [f p Hl Hf Hs Hr|f p x p1 E|f dir p x p1 _ Hf E|b f dir p k p1 _ Hb Hn E|i c c' p p1 Hc He]; intros H; simpl.
  - done.
  - exact (from_emit f Upstream p x p1 (id f :: sourced p1) hs E H).
  - exact (from_emit f dir p x p1 (sourced p1) hs E H).
  - destruct (sinkPush_same _ _ _ _ _ E) as (E1 & E2 & E3 & _). destruct (sinkPush_counter _ _ _ _ _ E) as [_ Hk].
    apply (from_change _ p); [by eapply (from_more hs); [set_solver|]|..].
    + intros y Hy. left. destruct k; simpl in Hy; rewrite E1, E3 in Hy; destruct Hy; auto using kept_out, kept_buffered.
    + intros c Hc. destruct k as [k|]; simpl in Hc; rewrite E2 in Hc; [|by left].
      apply elem_of_app in Hc as [?| ->%list_elem_of_singleton]; [by left|right]. split; [done|]. simpl.
      destruct Hk as [(? & _)|([= ->] & _)]; [done|]. intros g d Hg.
      unfold release in Hg. destruct (payload f); set_solver.
  - by eapply from_exec.
Qed.

Lemma seen_mono e p p' : step e p p' -> seen p ⊆ seen p'.
Proof.
  destruct 1 as [f p Hl Hf Hs Hr|f p x p1 E|f dir p x p1 _ Hf E|b f dir p k p1 _ Hb Hn E|i c c' p p1 Hc He]; simpl; try done.
  - destruct (emit_keeps _ _ _ _ _ E) as (_ & _ & _ & _ & _ & _ & [-> | ->]); set_solver.
  - destruct (emit_keeps _ _ _ _ _ E) as (_ & _ & _ & _ & _ & _ & [-> | ->]); set_solver.
  - destruct (sinkPush_same _ _ _ _ _ E) as (_ & _ & _ & Es & _). destruct k; simpl; by rewrite Es.
  - unfold exec, emitSynchronized, flushOne in He. repeat case_match; simplify_eq/=; set_solver.
Qed.

Lemma emit_takes f dir p x p' : emit f dir p = (x, p') -> id f ∈ seen p'.
Proof. unfold emit. repeat case_match; intros [= <- <-]; simpl; [done|set_solver..]. Qed.

(** The buffer is empty but for a synchronization. *)
Lemma sync_step e p p' : step e p p' -> (syncing p = false -> buffered p = []) -> syncing p' = false -> buffered p' = [].
Proof.
  destruct 1 as [f p Hl Hf Hs Hr|f p x p1 E|f dir p x p1 _ Hf E|b f dir p k p1 _ Hb Hn E|i c c' p p1 Hc He]; intros Hb' He'; try done.
  - unfold emit in E. repeat case_match; injection E as <- <-; simpl in *; auto. congruence.
  - unfold emit in E. repeat case_match; injection E as <- <-; simpl in *; auto. congruence.
  - destruct (sinkPush_same _ _ _ _ _ E) as (_ & _ & Eb & _ & Es & _). destruct k; simpl in *; rewrite Eb; apply Hb'; congruence.
  - unfold exec, emitSynchronized, flushOne in He. repeat case_match; simplify_eq/=; auto.
    by specialize (Hb' He').
Qed.

(** ** What every branch reported is let out *)

Definition releases (p : ParallelPipeline) : Prop :=
  (forall i, i ∉ fanned p -> counter p !! i = None) /\
  (forall i, i ∈ (reports p).*2 -> i ∉ fanned p \/ length (reporters i (reports p)) = branches p ->
     i ∈ seen p \/ releasing i p).

Lemma releasing_app i l p p' : calls p' = calls p ++ l -> releasing i p -> releasing i p'.
Proof. intros E (c & s & Hc & H). exists c, s. split; [rewrite E; by apply elem_of_app; left|done]. Qed.

Lemma releases_ext e p p' l :
  step e p p' -> counter p' = counter p -> fanned p' = fanned p -> reports p' = reports p ->
  calls p' = calls p ++ l -> releases p -> releases p'.
Proof.
  intros Hs E1 E2 E3 E4 [H1 H2]. destruct (step_keeps _ _ _ Hs) as (Eb & _). unfold releases. rewrite E1, E2, E3, Eb. split; [done|].
  intros i Hi Hf. destruct (H2 i Hi Hf); [left; by eapply seen_mono|right; by eapply releasing_app].
Qed.

Lemma releases_call i c c' p p' :
  calls p !! i = Some c -> exec c p = Some (c', p') -> releases p -> releases (p' <| calls ::= <[ i := c' ]> |>).
Proof.
  intros Hc He [H1 H2]. pose proof (s_call _ _ _ _ _ Hc He) as Hs. pose proof (seen_mono _ _ _ Hs) as Hm.
  destruct (exec_keeps _ _ _ _ _ Hc He) as (E1 & E2 & E3 & E4 & E5 & E6 & [k Ek] & _).
  unfold releases. simpl in *. rewrite E1, E2, E3, E4, ?E6. split; [done|]. intros j Hj Hf.
  destruct (H2 j Hj Hf) as [?|(d & s & Hd & Hin & Hms)]; [left; by apply Hm|].
  apply list_elem_of_lookup in Hd as [n Hn]. destruct (decide (n = i)) as [->|Hne].
  - assert (d = c) as -> by congruence.
    assert (s ∈ rest c' \/ j ∈ seen p') as [Hin'|?]; [|right|by left].
    + clear Ek. unfold exec in He. destruct (pushing c) as [y|]; [injection He as <- <-; by left|].
      destruct (rest c) as [|[f dir| |] l]; [done|..]; apply elem_of_cons in Hin as [-> |Hin].
      * simpl in Hms. apply Z.eqb_eq in Hms as <-. right. unfold emitSynchronized in He.
        case_decide; injection He as <- <-; [done|set_solver].
      * left. by destruct (emitSynchronized f dir p); injection He as <- <-.
      * done.
      * left. destruct (flushOne p) as [[x|] p2]; injection He as <- <-; [by right|done].
      * done.
      * left. by injection He as <- <-.
    + exists c', s. split; [|done]. simpl. rewrite ?E6. apply list_elem_of_insert. by eapply lookup_lt_Some.
  - right. exists d, s. split; [|done]. simpl. rewrite ?E6. apply (list_elem_of_lookup_2 _ n).
    by rewrite list_lookup_insert_ne.
Qed.

Lemma releases_report b f dir p k p1 :
  b < branches p -> (b, id f) ∉ reports p -> sinkPush f dir p = (k, p1) -> barrier_inv p -> releases p ->
  releases ((match k with Some k => spawn None k p1 | None => p1 end) <| reports ::= cons (b, id f) |>).
Proof.
  intros Hb Hn E Hbar [H1 H2].
  destruct (sinkPush_same _ _ _ _ _ E) as (E1 & E2 & E3 & E4 & E5 & E6 & E7 & E8 & E9).
  destruct (sinkPush_counter _ _ _ _ _ E) as [Co Cn].
  set (p2 := _ <| reports ::= _ |>).
  assert (branches p2 = branches p /\ reports p2 = (b, id f) :: reports p /\ fanned p2 = fanned p /\
    counter p2 = counter p1 /\ seen p2 = seen p /\
    calls p2 = calls p ++ match k with Some k => [mkCall None k] | None => [] end)
    as (F1 & F2 & F3 & F4 & F5 & F6)
    by (destruct k; simpl; rewrite ?E2, ?E6, ?E7, ?E8, ?E9, ?E4, ?app_nil_r; done).
  clearbody p2. unfold releases. rewrite F1, F2, F3, F4, F5. split.
  - intros i Hi. destruct (decide (i = id f)) as [->|Hne]; [|rewrite Co by done; by apply H1].
    destruct Cn as [(_ & Hlt & _)|(-> & _)]; [rewrite (H1 _ Hi) in Hlt; simpl in Hlt; lia|].
    unfold sinkPush in E. rewrite (H1 _ Hi) in E. simpl in E. injection E as <-. simpl. by rewrite lookup_delete_eq.
  - intros i Hi Hf. rewrite reporters_cons in Hf. destruct (Z.eqb_spec (id f) i) as [<-|Hne].
    + right. assert (k = Some (release f dir)) as ->.
      { destruct Cn as [(_ & Hlt & _)|(-> & _)]; [|done]. exfalso. destruct Hf as [Hf|Hf]; [rewrite (H1 _ Hf) in Hlt; simpl in Hlt; lia|].
        simpl in Hf. destruct Hbar as (_ & _ & _ & _ & Hw). destruct (decide (id f ∈ fanned p)) as [Hin|Hno]; [|rewrite (H1 _ Hno) in Hlt; simpl in Hlt; lia].
        destruct (Hw _ Hin) as [(A1 & A2 & _)|Hr]; [rewrite A2 in Hlt; simpl in Hlt; lia|lia]. }
      exists (mkCall None (release f dir)), (EmitSynchronized f dir). rewrite F6. split; [apply elem_of_app; right; by left|].
      split; [|simpl; apply Z.eqb_refl]. simpl. unfold release. destruct (payload f); set_solver.
    + simpl in Hi. apply elem_of_cons in Hi as [?|Hi]; [done|].
      destruct (H2 i Hi Hf); [by left|right; by eapply releasing_app].
Qed.

Lemma releases_step e p p' : step e p p' -> barrier_inv p -> releases p -> releases p'.
Proof.
  intros Hs Hb H. pose proof Hs as Hs'.
  destruct Hs as [f p Hl Hf Hse Hr|f p x p1 E|f dir p x p1 _ Hf E|b f dir p k p1 _ Hlt Hn E|i c c' p p1 Hc He].
  - destruct H as [H1 H2]. split; simpl.
    + intros i Hi. rewrite lookup_insert_ne; [apply H1|]; set_solver.
    + intros i Hi Hor. destruct (H2 i Hi) as [?|?]; [|by left|by right]. destruct Hor as [?|?]; [set_solver|by right].
  - destruct (emit_keeps _ _ _ _ _ E) as (E1 & E2 & E3 & E4 & E5 & E6 & _).
    apply (releases_ext _ _ _ [mkCall x []] Hs'); simpl; by rewrite ?E2, ?E3, ?E4, ?E6.
  - destruct (emit_keeps _ _ _ _ _ E) as (E1 & E2 & E3 & E4 & E5 & E6 & _).
    apply (releases_ext _ _ _ [mkCall x []] Hs'); simpl; by rewrite ?E2, ?E3, ?E4, ?E6.
  - by eapply releases_report.
  - by eapply releases_call.
Qed.

(** C13: whatever the branches hand over leaves a parallel pipeline once, and
    nothing else does.  However the branches interleave, the frames that have left,
    are being pushed out or wait for the end of a synchronization are all different,
    and all were handed over by a branch as they are; every frame handed to [emit]
    is among them, and every lifecycle frame too that all branches have reported, or
    that a branch raised on its own, unless the call that releases it is still on
    its way; and outside a synchronization nothing waits. *)
Theorem parallel_escapes_once n es p :
  run n es p ->
  NoDup (accepted p) /\
  (forall x, x ∈ kept p -> x ∈ handed es) /\
  (forall f dir, Source f ∈ es \/ Sink f dir ∈ es -> id f ∈ accepted p) /\
  (forall f dir, Report f dir ∈ es ->
     id f ∉ fanned p \/ length (reporters (id f) (reports p)) = branches p ->
     id f ∈ accepted p \/ releasing (id f) p) /\
  (syncing p = false -> buffered p = []).
Proof.
  intros Hr. destruct (run_inv _ _ _ Hr) as [[Hnd Hse] _].
  assert (from_branches (handed es) p /\ (forall f dir, Source f ∈ es \/ Sink f dir ∈ es -> id f ∈ seen p) /\
    ((forall f dir, Report f dir ∈ es -> id f ∈ (reports p).*2) /\ releases p) /\
    (syncing p = false -> buffered p = [])) as ([Hk _] & Ht & [Hrep [_ Hrel]] & Hsy).
  { clear Hnd Hse. induction Hr as [p E|es e p p' Hr (IH1 & IH2 & [IH3 IH4] & IH5) Hs].
    - unfold NewParallel in E. destruct (Nat.eqb n 0); simplify_eq. split; [split; [by intros x ?%elem_of_nil|constructor]|].
      split; [by intros f dir [?%elem_of_nil|?%elem_of_nil]|]. split; [|done].
      split; [by intros f dir ?%elem_of_nil|]. split; [done|by intros i ?%elem_of_nil].
    - split; [by eapply from_step|]. split; [|split; [split|by eapply sync_step]].
      + pose proof (seen_mono _ _ _ Hs) as Hm. intros f dir [[<- |H]%elem_of_cons|[<- |H]%elem_of_cons]; [|apply Hm, (IH2 f dir); auto| |apply Hm, (IH2 f dir); auto].
        * inversion Hs; subst. simpl. by eapply emit_takes.
        * inversion Hs; subst. simpl. by eapply emit_takes.
      + intros f dir [<- |H]%elem_of_cons; [inversion Hs; subst; by left|]. apply IH3 in H.
        destruct (step_keeps _ _ _ Hs) as (_ & _ & [-> |(g & d & b & -> & _ & _)]); [done|].
        inversion Hs; subst. match goal with E : sinkPush _ _ _ = (?k, _) |- _ =>
          destruct (sinkPush_same _ _ _ _ _ E) as (_ & _ & _ & _ & _ & _ & _ & Er & _); destruct k end; simpl; rewrite Er; by right.
      + eapply releases_step; [exact Hs|by destruct (run_inv _ _ _ Hr)|done]. }
  split; [done|]. split; [done|]. split; [|split; [|done]].
  - intros f dir H. apply Hse. by apply (Ht f dir).
  - intros f dir Hf Hor. destruct (Hrel _ (Hrep _ _ Hf) Hor); [left; by apply Hse|by right].
Qed.

(** A lifecycle frame waits for every branch.  However the branches interleave,
    a lifecycle frame fanned out has been accepted only once the sink of every
    branch has reported it, unless a branch sent that very frame back upstream. *)
Theorem parallel_waits_for_branches n p i :
  reachable n p -> i ∈ fanned p -> i ∈ accepted p -> i ∉ sourced p ->
  forall b, b < n -> (b, i) ∈ reports p.
Proof.
  intros (p0 & E & Hr) Hf Ha Hs b Hlt.
  assert (once p) as [_ Ho] by (eapply rtc_invariant; [exact Hr|exact once_step|by apply NewParallel_idle in E as []]).
  assert (barrier_inv p) as (_ & _ & H1 & H2 & H3)
    by (eapply rtc_invariant; [exact Hr|exact barrier_step|by apply NewParallel_idle in E as []]).
  assert (branches p = n) as En.
  { apply (rtc_invariant anystep (fun p => branches p = n) _ _ Hr).
    - intros a c [e Hst] <-. by destruct (step_keeps _ _ _ Hst).
    - unfold NewParallel in E. destruct (Nat.eqb n 0); by simplify_eq. }
  destruct (H3 i Hf) as [(_ & _ & Hse & _)|Hlen]; [by exfalso; apply Hs, Hse, Ho|].
  apply reporters_In. apply list_elem_of_In.
  apply (NoDup_length_incl (l := reporters i (reports p)) (l' := List.seq 0 n)).
  - by apply NoDup_ListNoDup, reporters_NoDup.
  - rewrite length_seq. lia.
  - intros c Hc. apply in_seq. apply list_elem_of_In, reporters_In in Hc. apply H2 in Hc. lia.
  - apply in_seq. lia.
Qed.

Lemma once_run f p p' : rtc (solo f) p p' -> once p -> once p'.
Proof.
  intros Hr. apply (rtc_invariant (solo f) once _ _ Hr). intros a c (e & Hs & _). apply once_step. by exists e.
Qed.

Lemma out_seen f dir p : once p -> (f, dir) ∈ out p -> id f ∈ seen p.
Proof.
  intros [_ H] Hin. apply H. unfold accepted. apply list_elem_of_In, in_map_iff. exists (f, dir). split; [done|].
  apply list_elem_of_In, elem_of_app. by left.
Qed.

Lemma buffered_seen f dir p : once p -> (f, dir) ∈ buffered p -> id f ∈ seen p.
Proof.
  intros [_ H] Hin. apply H. unfold accepted. apply list_elem_of_In, in_map_iff. exists (f, dir). split; [done|].
  apply list_elem_of_In. rewrite !elem_of_app. auto.
Qed.

(** Nothing overtakes a StartFrame.  From an idle parallel pipeline that fans a
    StartFrame out, with no other lifecycle frame about, whatever the branches emit
    and however they interleave, the next frame to be pushed out is that StartFrame. *)
Theorem parallel_start_first f p p1 p2 :
  payload f = StartFrame -> idle p -> step (Fan f) p p1 -> rtc (solo f) p1 p2 ->
  out p2 = out p \/ exists dir k, out p2 = out p ++ (f, dir) :: k.
Proof.
  intros Hp Hi Hs Hr. destruct (stage_fan _ _ _ Hi Hs) as (Hl & Hb & Hst).
  destruct (stage_run _ _ _ _ _ Hl Hr Hb Hst) as [_ [| | |d _ _ [k E]|? ? Hnp|Hnp]]; auto; try congruence.
  right. exists d, k. by rewrite E, <- app_assoc.
Qed.

(** An EndFrame or CancelFrame comes last.  From an idle parallel pipeline that
    fans one out, with no other lifecycle frame about: whatever the branches let out
    before the last of them reported it is pushed out, in the order it was let out,
    before it. *)
Theorem parallel_end_last f p p1 p2 p3 :
  payload f <> StartFrame -> idle p -> step (Fan f) p p1 ->
  rtc (solo f) p1 p2 -> length (reporters (id f) (reports p2)) < branches p2 ->
  rtc (solo f) p2 p3 -> (exists dir, (f, dir) ∈ out p3) ->
  out p2 = out p /\ exists k, out p3 = out p ++ buffered p2 ++ k /\ exists dir, (f, dir) ∈ k.
Proof.
  intros Hp Hi Hs Hr1 Hlt Hr2 [dir Hin]. destruct (stage_fan _ _ _ Hi Hs) as (Hl & Hb & Hst).
  destruct (stage_run _ _ _ _ _ Hl Hr1 Hb Hst) as [Hb2 Hst2].
  assert (once p1) as H1 by (eapply once_step; [by eexists|by destruct Hi]).
  pose proof (once_run _ _ _ Hr1 H1) as H2. pose proof (once_run _ _ _ Hr2 H2) as H3.
  assert (id f ∉ seen p1) as Hf1 by (by inversion Hs; subst).
  destruct Hst2 as [Hsy Hc Ho HX Hseen Hn Hr|? ? Hf|? ? Hf|? ? Hf|? ? ? Hf|? Hf]; try (unfold full in Hf; lia).
  split; [done|].
  destruct (stage_run f (out p) (buffered p2) p2 p3 Hl Hr2 Hb2) as [_ Hst3]; [by apply g_waiting|].
  assert (id f ∈ seen p3) as Hf3 by (by eapply out_seen).
  destruct Hst3 as [| | | |? ? ? ? ? Hns|? _ [k E]]; try congruence; try done.
  exists k. split; [by rewrite E, <- app_assoc|]. exists dir.
  rewrite E in Hin. apply elem_of_app in Hin as [[Hin|Hin]%elem_of_app|Hin]; [..|done].
  - exfalso. apply Hseen. rewrite <- Ho in Hin. by eapply out_seen.
  - exfalso. apply Hseen. by eapply buffered_seen.
Qed.

(** ** The guarantees at work *)

(** Two branches; the events of a run, by the functions of the steps. *)
Definition two : ParallelPipeline := mkPar 2 ∅ ∅ false [] [] [] [] [] [].
Definition frame_ (i : Z) (p : Payload) : Frame := mkFrame i None None EmptyString EmptyString p.
Definition text : Frame := frame_ 2 (OtherFrame "TextFrame" DataFrame false).

Definition fan (f : Frame) (p : ParallelPipeline) : ParallelPipeline := (arm f p) <| fanned ::= cons (id f) |>.
Definition let_out (f : Frame) (p : ParallelPipeline) : ParallelPipeline :=
  let '(x, p) := emit f Downstream p in spawn x [] p.
Definition report (b : nat) (f : Frame) (p : ParallelPipeline) : ParallelPipeline :=
  let '(k, p) := sinkPush f Downstream p in
  (match k with Some k => spawn None k p | None => p end) <| reports ::= cons (b, id f) |>.
Definition turn (i : nat) (p : ParallelPipeline) : ParallelPipeline :=
  match calls p !! i with
  | Some c => match exec c p with Some (c', p') => p' <| calls ::= <[ i := c' ]> |> | None => p end
  | None => p
  end.

Lemma solo_let_out f g p :
  isLifecycle g = false -> id g ∉ fanned p -> id g <> id f -> solo f p (let_out g p).
Proof.
  intros Hl Hn Hi. exists (Sink g Downstream). split; [|done]. unfold let_out. destruct (emit g Downstream p) eqn:E. by eapply s_sink.
Qed.

Lemma solo_report f b p :
  isLifecycle f = true -> b < branches p -> (b, id f) ∉ reports p -> solo f p (report b f p).
Proof.
  intros Hl Hb Hn. exists (Report f Downstream). split; [|done]. unfold report. destruct (sinkPush f Downstream p) eqn:E.
  by eapply s_report.
Qed.

Lemma solo_turn f i p : rtc (solo f) p (turn i p).
Proof.
  unfold turn. destruct (calls p !! i) as [c|] eqn:E; [|done]. destruct (exec c p) as [[c' p']|] eqn:E'; [|done].
  apply rtc_once. exists Call. split; [by eapply s_call|done].
Qed.

Lemma solo_turns f i n p : rtc (solo f) p (Nat.iter n (turn i) p).
Proof. induction n as [|n IH]; [done|]. etrans; [exact IH|apply solo_turn]. Qed.

Lemma two_idle : idle two.
Proof. by apply (NewParallel_idle 2). Qed.

(** A StartFrame, with a frame let out before the slower branch reports it. *)
Definition startF : Frame := frame_ 1 StartFrame.
Definition starting : ParallelPipeline := let_out text (report 0 startF (fan startF two)).
Definition startRun : ParallelPipeline := Nat.iter 6 (turn 1) (report 1 startF starting).

Definition endF : Frame := frame_ 1 (EndFrame EmptyString).
Definition ending : ParallelPipeline := let_out text (report 0 endF (fan endF two)).
Definition endRun : ParallelPipeline := Nat.iter 6 (turn 1) (report 1 endF ending).

Lemma fan_two f : isLifecycle f = true -> step (Fan f) two (fan f two).
Proof. intros Hl. apply s_fan; [done|by apply not_elem_of_nil|apply not_elem_of_empty|by apply not_elem_of_nil]. Qed.

Lemma start_part : rtc (solo startF) (fan startF two) startRun.
Proof.
  eapply rtc_l; [apply (solo_report _ 0); [done|simpl; lia|by apply not_elem_of_nil]|].
  eapply rtc_l; [apply (solo_let_out _ text); [done|by vm_compute; set_solver|done]|].
  eapply rtc_l; [apply (solo_report _ 1); [done|vm_compute; lia|vm_compute; set_solver]|]. apply solo_turns.
Qed.

Lemma end_part : rtc (solo endF) (fan endF two) ending /\ rtc (solo endF) ending endRun.
Proof.
  split.
  - eapply rtc_l; [apply (solo_report _ 0); [done|simpl; lia|by apply not_elem_of_nil]|].
    eapply rtc_l; [apply (solo_let_out _ text); [done|by vm_compute; set_solver|done]|]. done.
  - eapply rtc_l; [apply (solo_report _ 1); [done|vm_compute; lia|vm_compute; set_solver]|]. apply solo_turns.
Qed.

Lemma start_run : exists es, run 2 es startRun /\ Sink text Downstream ∈ es /\ Report startF Downstream ∈ es.
Proof.
  assert (forall es p n, run 2 es p -> exists es', run 2 (es' ++ es) (Nat.iter n (turn 1) p)) as Ht.
  { intros es p n Hr. induction n as [|n [es' IH]]; [by exists []|]. simpl. unfold turn at 1.
    destruct (calls _ !! 1) as [c|] eqn:Ec; [|by exists es']. destruct (exec c _) as [[c' p']|] eqn:Ee; [|by exists es'].
    exists (Call :: es'). eapply r_step; [exact IH|by eapply s_call]. }
  assert (run 2 [Report startF Downstream; Sink text Downstream; Report startF Downstream; Fan startF] (report 1 startF starting)) as Hr.
  { eapply r_step; [eapply r_step; [eapply r_step; [eapply r_step; [by apply r_new|by apply (fan_two startF)]|]|]|].
    - apply (s_report 0); [done|simpl; lia|by apply not_elem_of_nil|reflexivity].
    - apply s_sink; [done|by vm_compute; set_solver|reflexivity].
    - apply (s_report 1); [done|vm_compute; lia|vm_compute; set_solver|reflexivity]. }
  destruct (Ht _ _ 6 Hr) as [es' Hes]. exists (es' ++ [Report startF Downstream; Sink text Downstream; Report startF Downstream; Fan startF]).
  split; [exact Hes|]. split; apply elem_of_app; right; [right; by left|by left].
Qed.

Lemma start_reachable : reachable 2 startRun.
Proof. destruct start_run as (es & Hr & _). by eapply run_reachable. Qed.

Lemma parallel_escapes_once_witness :
  out startRun = [(startF, Downstream); (text, Downstream)] /\
  exists es, run 2 es startRun /\ Sink text Downstream ∈ es /\
    (NoDup (accepted startRun) /\ id text ∈ accepted startRun).
Proof.
  split; [vm_compute; reflexivity|]. destruct start_run as (es & Hr & Hs & Hf). exists es.
  pose proof (parallel_escapes_once 2 es startRun Hr) as (Hnd & _ & Ht & _).
  split; [exact Hr|]. split; [exact Hs|]. split; [exact Hnd|]. apply (Ht text Downstream). by right.
Defined.

Lemma parallel_waits_for_branches_witness : (1%nat, 1%Z) ∈ reports startRun.
Proof.
  apply (parallel_waits_for_branches 2 startRun 1 start_reachable); [vm_compute; by left|vm_compute; by left| |lia].
  vm_compute. by apply not_elem_of_nil.
Defined.

Lemma parallel_start_first_witness :
  out startRun = out two \/ exists dir k, out startRun = out two ++ (startF, dir) :: k.
Proof. exact (parallel_start_first startF two _ _ eq_refl two_idle (fan_two startF eq_refl) start_part). Defined.

Lemma parallel_end_last_witness :
  out endRun = [(text, Downstream); (endF, Downstream)] /\
  (out ending = out two /\ exists k, out endRun = out two ++ buffered ending ++ k /\ exists dir, (endF, dir) ∈ k).
Proof.
  split; [vm_compute; reflexivity|].
  apply (parallel_end_last endF two (fan endF two) ending endRun); [done|exact two_idle|exact (fan_two endF eq_refl)| | | |].
  - apply end_part.
  - apply Nat.ltb_lt. vm_compute. reflexivity.
  - apply end_part.
  - exists Downstream. assert (out endRun = [(text, Downstream); (endF, Downstream)]) as -> by (vm_compute; reflexivity).
    right. by left.
Defined.

End Parallel.
