(* ===== verification/SyncParallel.v ===== *)
(** * Synchronized parallel pipelines

    [src/pipeline/syncparallel.go]: what the branches produce for one frame is held
    back until every branch is done with it, which a sentinel sent in behind the
    frame shows.  The branches are open: a call is given what each branch puts in
    the queue of each of its ends while it is handled, sentinel included, and a wait
    whose sentinel never comes is [None].  The branches fill the shared queue
    concurrently, so in arrival order the result is any interleaving. *)

From S2P Require Import Prelude Frames.

Module SyncParallel.

Inductive FrameOrder := FrameOrderArrival | FrameOrderPipeline.

(** The queue each branch's far end fills, for each direction. *)
Record SyncParallelPipeline := mkSync {
  frameOrder : FrameOrder;
  downQs : list (list Frame);
  upQs : list (list Frame)
}.

#[export] Instance eta_Sync : Eta SyncParallelPipeline := fun p =>
  mkSync (frameOrder p) (downQs p) (upQs p).

(** [NewSyncParallel] of [n] branches. *)
Definition NewSyncParallel (order : FrameOrder) (n : nat) : option SyncParallelPipeline :=
  if Nat.eqb n 0 then None else Some (mkSync order (replicate n []) (replicate n [])).

Definition isSyncFrame (f : Frame) : bool :=
  match payload f with OtherFrame n _ _ => String.eqb n "SyncFrame" | _ => false end.
Definition isEndFrame (f : Frame) : bool := match payload f with EndFrame _ => true | _ => false end.

(** [NewSyncFrame] *)
Definition NewSyncFrame (i : Z) : Frame := mkFrame i None None "" "" (OtherFrame "SyncFrame" ControlFrame false).

(** The loops of [waitForSync]: frames up to the sentinel, which is dropped. *)
Fixpoint collectUntil (sentinel : Frame -> bool) (q : list Frame) : option (list Frame * list Frame) :=
  match q with
  | [] => None
  | next :: q =>
      if sentinel next then Some ([], q)
      else match collectUntil sentinel q with
           | Some (l, q) => Some (next :: l, q)
           | None => None
           end
  end.

(** [waitForSync] on a branch whose queue comes to hold [q]: what it collects, and
    what it leaves. *)
Definition waitForSync (f : Frame) (q : list Frame) : option (list Frame * list Frame) :=
  if isEndFrame f then
    match q with
    | [] => None
    | next :: q' => if isEndFrame next then Some ([next], q') else collectUntil isEndFrame q
    end
  else collectUntil isSyncFrame q.

(** The waits of every branch, and [wg.Wait]. *)
Fixpoint waitAll (f : Frame) (qs : list (list Frame)) : option (list (list Frame) * list (list Frame)) :=
  match qs with
  | [] => Some ([], [])
  | q :: qs =>
      match waitForSync f q, waitAll f qs with
      | Some (l, q), Some (ls, qs) => Some (l :: ls, q :: qs)
      | _, _ => None
      end
  end.

(** [drain], and the loop of the branch order: duplicates dropped, first kept. *)
Fixpoint dedup (seen : list Z) (l : list Frame) : list Frame :=
  match l with
  | [] => []
  | f :: l => if decide (id f ∈ seen) then dedup seen l else f :: dedup (id f :: seen) l
  end.

(** The orders a queue filled by several goroutines can end up in. *)
Inductive interleaving {X} : list (list X) -> list X -> Prop :=
| i_nil ls : Forall (fun l => l = []) ls -> interleaving ls []
| i_cons ls i x l m : ls !! i = Some (x :: l) -> interleaving (<[ i := l ]> ls) m -> interleaving ls (x :: m).

Definition queued (dir : Direction) (p : SyncParallelPipeline) : list (list Frame) :=
  match dir with Downstream => downQs p | Upstream => upQs p end.

Definition setQueued (dir : Direction) (qs : list (list Frame)) (p : SyncParallelPipeline) : SyncParallelPipeline :=
  match dir with Downstream => p <| downQs := qs |> | Upstream => p <| upQs := qs |> end.

(** What the branches put in their queues meanwhile. *)
Definition respond (down up : list (list Frame)) (p : SyncParallelPipeline) : SyncParallelPipeline :=
  p <| downQs ::= fun qs => zip_with app qs down |> <| upQs ::= fun qs => zip_with app qs up |>.

(** [ProcessFrame]: what is pushed, all of it in direction [dir]. *)
Inductive processes (f : Frame) (dir : Direction) (down up : list (list Frame)) (p : SyncParallelPipeline) :
  list Frame -> SyncParallelPipeline -> Prop :=
| p_system : isSystemFrame f = true -> processes f dir down up p [f] (respond down up p)
| p_frame ls qs m :
    isSystemFrame f = false ->
    waitAll f (queued dir (respond down up p)) = Some (ls, qs) ->
    (frameOrder p = FrameOrderPipeline -> m = concat ls) ->
    (frameOrder p = FrameOrderArrival -> interleaving ls m) ->
    processes f dir down up p (dedup [] m) (setQueued dir qs (respond down up p)).

(** ** Lemmas *)

Lemma dedup_elem seen l f : f ∈ dedup seen l -> f ∈ l /\ id f ∉ seen.
Proof.
  revert seen. induction l as [|g l IH]; intros seen; simpl; [by intros ?%elem_of_nil|].
  case_decide as Hg.
  - intros [H1 H2]%IH. split; [by right|done].
  - intros [->|[H1 H2]%IH]%elem_of_cons; [split; [by left|done]|]. split; [by right|].
    intros H. apply H2. by right.
Qed.

Lemma dedup_ids seen l : NoDup (map id (dedup seen l)).
Proof.
  revert seen. induction l as [|g l IH]; intros seen; simpl; [constructor|].
  case_decide; [apply IH|]. simpl. constructor; [|apply IH].
  intros (f & E & Hf)%list_elem_of_fmap. apply dedup_elem in Hf as [_ Hf]. apply Hf. rewrite <- E. by left.
Qed.

Lemma dedup_covers seen l f : f ∈ l -> id f ∉ seen -> exists g, g ∈ dedup seen l /\ id g = id f.
Proof.
  revert seen. induction l as [|g l IH]; intros seen; simpl; [by intros ?%elem_of_nil|].
  intros Hf Hs. case_decide as Hg.
  - apply elem_of_cons in Hf as [->|Hf]; [done|]. by apply IH.
  - destruct (decide (id f = id g)) as [E|Hne]; [exists g; split; [by left|done]|].
    apply elem_of_cons in Hf as [->|Hf]; [done|].
    destruct (IH (id g :: seen) Hf) as (h & Hh & E); [|exists h; split; [by right|done]].
    intros [?|?]%elem_of_cons; done.
Qed.

Lemma interleaving_elem {X} (ls : list (list X)) m x : interleaving ls m -> (x ∈ m <-> exists l, l ∈ ls /\ x ∈ l).
Proof.
  induction 1 as [ls H|ls i y l m Hi _ IH].
  - split; [by intros ?%elem_of_nil|]. intros (l & Hl & Hx). rewrite Forall_forall in H. rewrite (H l Hl) in Hx. done.
  - rewrite elem_of_cons, IH. split.
    + intros [->|(k & Hk & Hx)].
      * exists (y :: l). split; [by eapply list_elem_of_lookup_2|by left].
      * apply list_elem_of_lookup in Hk as (j & Hj). destruct (decide (i = j)) as [->|Hne].
        -- rewrite list_lookup_insert_eq in Hj by (by eapply lookup_lt_Some). injection Hj as <-.
           exists (y :: l). split; [by eapply list_elem_of_lookup_2|by right].
        -- rewrite list_lookup_insert_ne in Hj by done. exists k. split; [by eapply list_elem_of_lookup_2|done].
    + intros (k & Hk & Hx). apply list_elem_of_lookup in Hk as (j & Hj). destruct (decide (i = j)) as [->|Hne].
      * rewrite Hi in Hj. injection Hj as <-. apply elem_of_cons in Hx as [->|Hx]; [by left|right].
        exists l. split; [|done]. eapply list_elem_of_lookup_2. apply list_lookup_insert_eq. by eapply lookup_lt_Some.
      * right. exists k. split; [|done]. eapply list_elem_of_lookup_2. by rewrite list_lookup_insert_ne.
Qed.

Lemma collectUntil_app s l x q :
  Forall (fun f => s f = false) l -> s x = true -> collectUntil s (l ++ x :: q) = Some (l, q).
Proof.
  intros Hl Hx. induction Hl as [|y l Hy _ IH]; simpl; [by rewrite Hx|]. by rewrite Hy, IH.
Qed.

Lemma collectUntil_clean s q l q' : collectUntil s q = Some (l, q') -> Forall (fun f => s f = false) l.
Proof.
  revert l. induction q as [|x q IH]; intros l; simpl; [done|].
  destruct (s x) eqn:E; [intros [= <- <-]; constructor|].
  destruct (collectUntil s q) as [[l' q'']|]; [|done]. intros [= <- <-]. constructor; [done|by apply IH].
Qed.

Lemma waitAll_Forall2 f qs ls qs' :
  waitAll f qs = Some (ls, qs') -> Forall2 (fun q l => exists q', waitForSync f q = Some (l, q')) qs ls.
Proof.
  revert ls qs'. induction qs as [|q qs IH]; intros ls qs'; simpl; [intros [= <- <-]; constructor|].
  destruct (waitForSync f q) as [[l q1]|] eqn:E; [|done].
  destruct (waitAll f qs) as [[ls1 qs1]|]; [|done]. intros [= <- <-]. constructor; eauto.
Qed.

Lemma waitAll_done f qs bodies :
  isEndFrame f = false ->
  Forall2 (fun q body => exists s, isSyncFrame s = true /\ Forall (fun f => isSyncFrame f = false) body /\ q = body ++ [s]) qs bodies ->
  waitAll f qs = Some (bodies, map (fun _ => []) qs).
Proof.
  intros He. induction 1 as [|q body qs bodies (s & Hs & Hb & ->) _ IH]; [done|]. simpl. unfold waitForSync.
  by rewrite He, (collectUntil_app _ _ _ _ Hb Hs), IH.
Qed.

Lemma interleaving_concat {X} (ls : list (list X)) : interleaving ls (concat ls).
Proof.
  remember (length (concat ls)) as n eqn:En. revert ls En.
  induction n as [|n IH]; intros ls En.
  - destruct (concat ls) eqn:E; [|done]. constructor.
    clear En. induction ls as [|[|x l] ls IH]; simplify_eq/=; constructor; auto.
  - assert (exists i x l, ls !! i = Some (x :: l) /\ concat ls = x :: concat (<[ i := l ]> ls)) as (i & x & l & Hi & E).
    { clear IH. induction ls as [|[|x l] ls IH]; simplify_eq/=.
      - destruct (IH En) as (i & x & l & Hi & E). by exists (S i), x, l.
      - by exists 0, x, l. }
    rewrite E. eapply i_cons; [exact Hi|]. apply IH. rewrite E in En. simpl in En. lia.
Qed.

Lemma elem_of_concat {X} (ls : list (list X)) x : x ∈ concat ls <-> exists l, l ∈ ls /\ x ∈ l.
Proof.
  rewrite list_elem_of_In, in_concat. split; intros (l & H1 & H2); exists l; by rewrite ?list_elem_of_In in *.
Qed.

Lemma merged_elem order (ls : list (list Frame)) m :
  (order = FrameOrderPipeline -> m = concat ls) -> (order = FrameOrderArrival -> interleaving ls m) ->
  forall g, g ∈ m <-> g ∈ concat ls.
Proof.
  intros H1 H2 g. destruct order; [|by rewrite H1]. by rewrite (interleaving_elem _ _ _ (H2 eq_refl)), elem_of_concat.
Qed.

Lemma collectUntil_sub s q l q' : collectUntil s q = Some (l, q') -> l ⊆ q.
Proof.
  revert l. induction q as [|x q IH]; intros l; simpl; [done|].
  destruct (s x); [intros [= <- <-]; set_solver|].
  destruct (collectUntil s q) as [[l' q'']|]; [|done]. intros [= <- <-]. specialize (IH l' eq_refl). set_solver.
Qed.

Lemma collected_sub f q l q' : waitForSync f q = Some (l, q') -> l ⊆ q.
Proof.
  unfold waitForSync. destruct (isEndFrame f); [|apply collectUntil_sub].
  destruct q as [|x q]; [done|]. destruct (isEndFrame x); [intros [= <- <-]; set_solver|apply collectUntil_sub].
Qed.

Lemma waitAll_lookup f qs ls qs' :
  waitAll f qs = Some (ls, qs') ->
  (forall l, l ∈ ls -> exists q q', q ∈ qs /\ waitForSync f q = Some (l, q')) /\
  (forall q, q ∈ qs -> exists l q', l ∈ ls /\ waitForSync f q = Some (l, q')).
Proof.
  intros H%waitAll_Forall2. split.
  - intros l (i & Hi)%list_elem_of_lookup. destruct (Forall2_lookup_r _ _ _ _ _ H Hi) as (q & Hq & q' & E).
    exists q, q'. split; [by eapply list_elem_of_lookup_2|done].
  - intros q (i & Hi)%list_elem_of_lookup. destruct (Forall2_lookup_l _ _ _ _ _ H Hi) as (l & Hl & q' & E).
    exists l, q'. split; [by eapply list_elem_of_lookup_2|done].
Qed.

(** ** The guarantees *)

(** What the branches make of a data or control frame leaves together, once
    each.  When every branch's queue comes to hold what the branch produced (what
    earlier system frames left there included) and then its SyncFrame, the frame is
    answered: exactly those frames are pushed, by id, no id twice, with nothing
    left behind; in pipeline order, the first branch's first. *)
Theorem sync_releases_together f dir down up p bodies :
  isSystemFrame f = false -> isEndFrame f = false ->
  Forall2 (fun q body => exists s, isSyncFrame s = true /\ Forall (fun f => isSyncFrame f = false) body /\ q = body ++ [s])
    (queued dir (respond down up p)) bodies ->
  (exists pushed p', processes f dir down up p pushed p') /\
  forall pushed p', processes f dir down up p pushed p' ->
    NoDup (map id pushed) /\
    (forall i, i ∈ map id pushed <-> i ∈ map id (concat bodies)) /\
    Forall (fun q => q = []) (queued dir p') /\
    (frameOrder p = FrameOrderPipeline -> pushed = dedup [] (concat bodies)).
Proof.
  intros Hs He Hq. pose proof (waitAll_done f _ _ He Hq) as Hw. split.
  - pose proof (interleaving_concat bodies) as Hcat.
    eexists _, _. eapply (p_frame f dir down up p bodies _ (concat bodies)); [done|exact Hw|done|by intros _].
  - intros pushed p' Hp. inversion Hp as [Hs'|ls qs m _ Hw' Hpipe Harr]; subst; [congruence|].
    rewrite Hw in Hw'. injection Hw' as <- <-. split; [apply dedup_ids|]. split; [|split].
    + pose proof (merged_elem _ _ _ Hpipe Harr) as Hm.
      intros i. split.
      * intros (g & -> & Hg)%list_elem_of_fmap. apply list_elem_of_fmap. exists g. split; [done|].
        apply dedup_elem in Hg as [Hg _]. by apply Hm.
      * intros (g & -> & Hg)%list_elem_of_fmap. apply Hm in Hg.
        destruct (dedup_covers [] m g Hg) as (h & Hh & <-); [by apply not_elem_of_nil|].
        apply list_elem_of_fmap. by exists h.
    + assert (queued dir (setQueued dir (map (fun _ => []) (queued dir (respond down up p))) (respond down up p)) =
        map (fun _ => []) (queued dir (respond down up p))) as -> by (by destruct dir).
      apply Forall_forall. intros q. by intros (? & -> & _)%list_elem_of_fmap.
    + intros Ho. by rewrite (Hpipe Ho).
Qed.

(** An EndFrame leaves only when nothing precedes it.  When the branches have
    answered it, an EndFrame is pushed exactly when one is at the head of some
    branch's queue.  So were every branch to have put anything before it (an answer
    to the EndFrame, or just a system frame that passed since the last frame
    synchronized), the EndFrame stops here, and what is downstream is never told
    to end. *)
Theorem sync_end_leaves_iff f dir down up p pushed p' :
  isSystemFrame f = false -> isEndFrame f = true ->
  (forall g h, g ∈ concat (queued dir (respond down up p)) -> h ∈ concat (queued dir (respond down up p)) ->
    id g = id h -> g = h) ->
  processes f dir down up p pushed p' ->
  ((exists e, e ∈ pushed /\ isEndFrame e = true) <->
   exists q e, q ∈ queued dir (respond down up p) /\ head q = Some e /\ isEndFrame e = true).
Proof.
  intros Hs He Hid Hp. inversion Hp as [Hs'|ls qs m _ Hw Hpipe Harr]; subst; [congruence|]. clear Hp.
  pose proof (merged_elem _ _ _ Hpipe Harr) as Hm. destruct (waitAll_lookup _ _ _ _ Hw) as [Hl Hq].
  assert (forall g, g ∈ m -> g ∈ concat (queued dir (respond down up p))) as Hsub.
  { intros g Hg. apply Hm, elem_of_concat in Hg as (l & Hin & Hg). destruct (Hl l Hin) as (q & q' & Hqin & E).
    apply elem_of_concat. exists q. split; [done|]. by eapply collected_sub. }
  split.
  - intros (e & Hin & Ee). apply dedup_elem in Hin as [Hin _]. apply Hm, elem_of_concat in Hin as (l & Hlin & Hin).
    destruct (Hl l Hlin) as (q & q' & Hqin & E). exists q. unfold waitForSync in E. rewrite He in E.
    destruct q as [|x q]; [done|]. destruct (isEndFrame x) eqn:Ex; [by exists x|].
    apply collectUntil_clean in E. rewrite Forall_forall in E. rewrite (E e Hin) in Ee. done.
  - intros (q & e & Hqin & Hhd & Ee). destruct (Hq q Hqin) as (l & q' & Hlin & E). unfold waitForSync in E. rewrite He in E.
    destruct q as [|x q]; [done|]. injection Hhd as ->. rewrite Ee in E. injection E as <- <-.
    assert (e ∈ m) as Hem by (apply Hm, elem_of_concat; exists [e]; split; [done|by left]).
    destruct (dedup_covers [] m e Hem) as (g & Hg & Eg); [by apply not_elem_of_nil|].
    exists g. split; [done|]. apply dedup_elem in Hg as [Hg _]. by rewrite (Hid g e (Hsub g Hg) (Hsub e Hem) Eg).
Qed.

(** ** The guarantees at work *)

Definition frame_ (i : Z) (p : Payload) : Frame := mkFrame i None None "" "" p.
Definition startF : Frame := frame_ 1 StartFrame.
Definition endF : Frame := frame_ 2 (EndFrame "").
Definition text (i : Z) : Frame := frame_ i (OtherFrame "TextFrame" DataFrame false).

Definition two (order : FrameOrder) : SyncParallelPipeline := mkSync order [[]; []] [[]; []].

(** A text frame, which one branch answers with frame 4 and the other passes on
    ahead of frame 5. *)
Lemma sync_releases_together_witness :
  exists pushed p',
  processes (text 3) Downstream [[text 4; text 3; NewSyncFrame 9]; [text 3; text 5; NewSyncFrame 10]] [[]; []]
    (two FrameOrderPipeline) pushed p' /\ pushed = [text 4; text 3; text 5].
Proof.
  destruct (sync_releases_together (text 3) Downstream [[text 4; text 3; NewSyncFrame 9]; [text 3; text 5; NewSyncFrame 10]]
    [[]; []] (two FrameOrderPipeline) [[text 4; text 3]; [text 3; text 5]]) as [(pushed & p' & Hp) H]; [done|done| |].
  - repeat constructor; eexists; (split; [|split; [|done]]); [done|by repeat constructor|done|by repeat constructor].
  - exists pushed, p'. split; [exact Hp|]. destruct (H _ _ Hp) as (_ & _ & _ & E). rewrite (E eq_refl).
    vm_compute. reflexivity.
Defined.

(** A StartFrame and then an EndFrame, through two branches that pass frames on: the
    EndFrame does not come out. *)
Lemma sync_end_leaves_iff_witness :
  let p := respond [[startF]; [startF]] [[]; []] (two FrameOrderArrival) in
  processes startF Downstream [[startF]; [startF]] [[]; []] (two FrameOrderArrival) [startF] p /\
  exists p', processes endF Downstream [[endF]; [endF]] [[]; []] p [startF] p' /\
    ~ (exists e, e ∈ [startF] /\ isEndFrame e = true).
Proof.
  intros p. split; [by apply p_system|]. eexists.
  assert (processes endF Downstream [[endF]; [endF]] [[]; []] p [startF]
    (setQueued Downstream [[]; []] (respond [[endF]; [endF]] [[]; []] p))) as Hp.
  { eapply (p_frame endF Downstream [[endF]; [endF]] [[]; []] p [[startF]; [startF]] [[]; []] [startF; startF]);
      [done|reflexivity|done|]. intros _.
    apply (i_cons _ 0 startF []); [done|]. apply (i_cons _ 1 startF []); [done|]. constructor. by repeat constructor. }
  split; [exact Hp|]. rewrite (sync_end_leaves_iff endF Downstream [[endF]; [endF]] [[]; []] p [startF]
    (setQueued Downstream [[]; []] (respond [[endF]; [endF]] [[]; []] p)) eq_refl eq_refl); [| |exact Hp].
  - intros (q & e & Hq & Hh & Ee). vm_compute in Hq.
    apply elem_of_cons in Hq as [->|[->|[]%not_elem_of_nil]%elem_of_cons]; injection Hh as <-; done.
  - intros g h Hg Hh. vm_compute in Hg, Hh.
    repeat (apply elem_of_cons in Hg as [->|Hg]); repeat (apply elem_of_cons in Hh as [->|Hh]); try done;
      by apply elem_of_nil in Hg || by apply elem_of_nil in Hh.
Defined.

End SyncParallel.
