(* ===== verification/Switcher.v ===== *)
(** * Service switchers

    - [Module Errors]: the error categories of [src/utils/errors/errors.go];
    - [Module Switcher]: [src/pipeline/switcher.go] (its strategies, gating, error
      handling and settings updates), with the usability of its services from
      [src/processor/usable.go] and the filter of [src/processor/filter.go].

    A processor is named by a number, which is both its identity and its name.  The
    parallel pipeline the switcher is built on is [Parallel.v]: here a frame that is
    let out of a branch is simply handed to the switcher's [PushFrame].  What makes
    a service usable or not, and when, is open. *)

From S2P Require Import Prelude Frames.

Module Errors.

Inductive Category :=
| Unset | Unknown | Authentication | Authorization | InvalidRequest | RateLimit | Quota | Connectivity | Server
| Application.

#[export] Instance Category_eq_dec : EqDecision Category.
Proof. solve_decision. Defined.

Definition IsPermanent (c : Category) : bool :=
  match c with Authentication | Authorization | InvalidRequest => true | _ => false end.

Definition statusCategories (status : Z) : option Category :=
  match status with
  | 400 => Some InvalidRequest
  | 401 => Some Authentication
  | 402 => Some Quota
  | 403 => Some Authorization
  | 404 => Some InvalidRequest
  | 422 => Some InvalidRequest
  | 429 => Some RateLimit
  | _ => None
  end%Z.

Definition ClassifyHTTPStatusCode (status : Z) : Category :=
  match statusCategories status with
  | Some c => c
  | None => if (500 <=? status)%Z && (status <? 600)%Z then Server else Unknown
  end.

(** An error as the classification reads it: the HTTP status it carries, and
    whether it is a failure to reach the service. *)
Record error := mkError { httpStatus : option Z; isConnectivity : bool }.

Definition ClassifyError (e : option error) : Category :=
  match e with
  | None => Unknown
  | Some e =>
      match httpStatus e with
      | Some status => ClassifyHTTPStatusCode status
      | None => if isConnectivity e then Connectivity else Unknown
      end
  end.

(** The category [PushErrorFrame] settles on: the one given, the service's own
    classification, the shared one, or unknown. *)
Definition settle (given : Category) (err : option error) (classifier : option (error -> Category)) : Category :=
  let c := match given, err with
           | Unset, Some e =>
               let c := match classifier with Some cl => cl e | None => Unset end in
               match c with Unset => ClassifyError (Some e) | _ => c end
           | c, _ => c
           end in
  match c with Unset => Unknown | _ => c end.
End Errors.

Module Switcher.
Import Errors.

(** The frames the switcher tells apart. *)
Inductive sframe :=
| ManuallySwitchServiceFrame (service : nat)
| ServiceSwitcherRequestMetadataFrame (service : nat)
| ServiceMetadata (service : nat)
| SettingsUpdate (fid : Z) (service : option nat) (reachInactiveServices : bool)
| ErrorReport (fatal : bool) (source : option nat) (category : Category)
| Plain (f : Frame).

Record ServiceSwitcher := mkSwitcher {
  self : nat;
  services : list nat;
  failover : bool;                   (** which of the two strategies *)
  active : nat;
  usability : gmap nat bool;         (** the processors set unusable so far, or back *)
  inactiveUpdates : list Z;
  announcedUsable : bool;
  (* what happened *)
  announced : list bool;             (** EventUsableChanged *)
  onSwitch : list nat;               (** OnServiceSwitched *)
  direct : list (nat * sframe);      (** queued straight onto a service *)
  pushed : list sframe               (** let out of the switcher *)
}.

#[export] Instance eta_ServiceSwitcher : Eta ServiceSwitcher := fun s =>
  mkSwitcher (self s) (services s) (failover s) (active s) (usability s) (inactiveUpdates s) (announcedUsable s)
    (announced s) (onSwitch s) (direct s) (pushed s).

(** [Base.Usable] of a processor: it is usable until something says otherwise. *)
Definition svcUsable (i : nat) (s : ServiceSwitcher) : bool := from_nil true (usability s !! i).

(** [ServiceSwitcher.Usable]: a reading of the services. *)
Definition Usable (s : ServiceSwitcher) : bool := existsb (fun i => svcUsable i s) (services s).

Definition NewServiceSwitcher (self : nat) (svcs : list nat) (fo : bool) : option ServiceSwitcher :=
  match svcs with
  | [] => None
  | a :: _ =>
      let s := mkSwitcher self svcs fo a ∅ [] true [] [] [] [] in
      Some (s <| announcedUsable := Usable s |>)
  end.

(** [Base.SetUsable] of a service. *)
Definition SetUsable (i : nat) (v : bool) (s : ServiceSwitcher) : ServiceSwitcher :=
  s <| usability ::= insert i v |>.

Definition announceUsable (s : ServiceSwitcher) : ServiceSwitcher :=
  let usable := Usable s in
  if eqb usable (announcedUsable s) then s
  else s <| announcedUsable := usable |> <| announced ::= fun l => l ++ [usable] |>.

Definition isMember (i : nat) (s : ServiceSwitcher) : bool := existsb (Nat.eqb i) (services s).

Definition setActiveIfAvailable (target : nat) (s : ServiceSwitcher) : option nat * ServiceSwitcher :=
  if negb (isMember target s) then (None, s)
  else if negb (svcUsable target s) then (None, s)
  else (Some target, s <| active := target |> <| onSwitch ::= fun l => l ++ [target] |>).

(** [HandleFrame], the same in both strategies. *)
Definition HandleFrame (f : sframe) (s : ServiceSwitcher) : option nat * ServiceSwitcher :=
  match f with
  | ManuallySwitchServiceFrame svc => setActiveIfAvailable svc s
  | _ => (None, s)
  end.

(** The index the failover walk starts from: 0 if the active service is not found. *)
Fixpoint index (a : nat) (l : list nat) : option nat :=
  match l with
  | [] => None
  | x :: l => if Nat.eqb x a then Some 0 else S <$> index a l
  end.
Definition indexOf (a : nat) (l : list nat) : nat := from_nil 0 (index a l).

(** The walk: offsets 1 to [len - 1], wrapping around. *)
Fixpoint walk (idx offset fuel : nat) (s : ServiceSwitcher) : option nat :=
  match fuel with
  | 0 => None
  | S fuel =>
      let candidate := services s !!! ((idx + offset) mod length (services s)) in
      if svcUsable candidate s then Some candidate else walk idx (S offset) fuel s
  end.

Definition HandleError (source : option nat) (s : ServiceSwitcher) : option nat * ServiceSwitcher :=
  if negb (failover s) then (None, s)
  else
    let failed := from_nil (active s) source in
    if svcUsable failed s then (None, s)
    else
      match walk (indexOf (active s) (services s)) 1 (length (services s) - 1) s with
      | Some candidate => setActiveIfAvailable candidate s
      | None => (None, s)
      end.

Definition requestMetadata (svc : nat) (s : ServiceSwitcher) : ServiceSwitcher :=
  s <| direct ::= fun l => l ++ [(svc, ServiceSwitcherRequestMetadataFrame svc)] |>.

Definition basePush (f : sframe) (s : ServiceSwitcher) : ServiceSwitcher := s <| pushed ::= fun l => l ++ [f] |>.

(** [reportServiceFailure]: the switcher's own [PushError], whose frame comes back
    to its [PushFrame] naming the switcher as its source: none of the services, so
    it goes on out. *)
Definition reportServiceFailure (s : ServiceSwitcher) : ServiceSwitcher :=
  let ef := ErrorReport false (Some (self s)) (settle Unknown None None) in
  if isMember (self s) s then s else basePush ef s.

(** [handleServiceError]: whether the error goes no further. *)
Definition handleServiceError (fatal : bool) (source : option nat) (s : ServiceSwitcher) : bool * ServiceSwitcher :=
  if fatal then (false, s)
  else
    match source with
    | None => (false, s)
    | Some failed =>
        if negb (Nat.eqb failed (active s)) then (isMember failed s, s)
        else
          let '(switched, s) := HandleError source s in
          match switched with
          | Some svc => (true, requestMetadata svc s)
          | None => if negb (svcUsable failed s) then (true, reportServiceFailure s) else (false, s)
          end
    end.

Fixpoint remove_first (i : Z) (l : list Z) : option (list Z) :=
  match l with
  | [] => None
  | x :: l => if Z.eqb x i then Some l else match remove_first i l with Some l => Some (x :: l) | None => None end
  end.

Definition consumeInactiveUpdate (i : Z) (s : ServiceSwitcher) : bool * ServiceSwitcher :=
  match remove_first i (inactiveUpdates s) with
  | Some l => (true, s <| inactiveUpdates := l |>)
  | None => (false, s)
  end.

Definition inactiveUpdateRing : nat := 64.

Definition rememberInactiveUpdate (i : Z) (s : ServiceSwitcher) : ServiceSwitcher :=
  s <| inactiveUpdates ::= fun l =>
         (if Nat.eqb (length l) inactiveUpdateRing then tail l else l) ++ [i] |>.

(** [PushFrame]: what leaves the switcher. *)
Definition PushFrame (f : sframe) (s : ServiceSwitcher) : ServiceSwitcher :=
  match f with
  | ServiceSwitcherRequestMetadataFrame svc => if Nat.eqb svc (active s) then s else basePush f s
  | ServiceMetadata svc => if negb (Nat.eqb svc (active s)) then s else basePush f s
  | SettingsUpdate fid _ _ =>
      let '(consumed, s) := consumeInactiveUpdate fid s in if consumed then s else basePush f s
  | ErrorReport fatal source _ =>
      let '(handled, s) := handleServiceError fatal source s in if handled then s else basePush f s
  | _ => basePush f s
  end.

Definition inactiveUpdateTargets (service : option nat) (reach : bool) (s : ServiceSwitcher) : list nat :=
  let inactive := List.filter (fun i => negb (Nat.eqb i (active s))) (services s) in
  match service with
  | Some svc => if existsb (Nat.eqb svc) inactive then [svc] else []
  | None => if reach then inactive else []
  end.

(** [updateInactiveServices]: [nextID] names the copies. *)
Fixpoint updateInactive (targets : list nat) (service : option nat) (reach : bool) (counter : Z) (s : ServiceSwitcher) :
  Z * ServiceSwitcher :=
  match targets with
  | [] => (counter, s)
  | svc :: targets =>
      let i := nextID counter in
      let s := rememberInactiveUpdate i s in
      updateInactive targets service reach i (s <| direct ::= fun l => l ++ [(svc, SettingsUpdate i service reach)] |>)
  end.

(** [FunctionFilter] as the switcher builds it: it gates [dir], and decides system
    frames too. *)
Definition lifecycle (f : sframe) : bool :=
  match f with
  | Plain f => match payload f with StartFrame | EndFrame _ | CancelFrame _ => true | _ => false end
  | _ => false
  end.
Definition passthrough (gated d : Direction) (f : sframe) : bool :=
  negb (bool_decide (d = gated)) || lifecycle f.
Definition gate (svc : nat) (s : ServiceSwitcher) : bool := Nat.eqb (active s) svc.
Definition filterLets (gated : Direction) (svc : nat) (f : sframe) (d : Direction) (s : ServiceSwitcher) : bool :=
  passthrough gated d f || gate svc s.

(** A frame fanned out downstream meets each service's In filter first, one fanned
    out upstream its Out filter. *)
Definition hears (f : sframe) (d : Direction) (s : ServiceSwitcher) : list nat :=
  List.filter (fun svc => filterLets d svc f d s) (services s).

(** [ProcessFrame]: the services that hear the frame, and the frame counter. *)
Definition ProcessFrame (f : sframe) (d : Direction) (counter : Z) (s : ServiceSwitcher) :
  list nat * Z * ServiceSwitcher :=
  match HandleFrame f s with
  | (Some switched, s) => ([], counter, requestMetadata switched s)
  | (None, s) =>
      match f with
      | SettingsUpdate _ service reach =>
          let h := hears f d s in
          let '(c, s) := updateInactive (inactiveUpdateTargets service reach s) service reach counter s in
          (h, c, s)
      | _ => (hears f d s, counter, s)
      end
  end.

(** ** Errors under way

    What is done about a service's error takes many short sections: the service
    loses its usability; its error frame travels to the switcher; the switcher reads
    which service is active; the strategy looks whether the one that failed works,
    reads where to begin, looks at one service after the other, and makes the one it
    found active.  Other errors, switches and services coming back go in between. *)

Inductive section :=
| Losing                              (** about to lose its usability *)
| OnTheWay                            (** its frame on the way to [PushFrame] *)
| Reported                            (** it was the active service: [HandleError] begins *)
| Picking                             (** it cannot work: about to read where the active one stands *)
| Walking (idx offset : nat)
| Switching (candidate : nat)
| Unswitched                          (** no switch was made: about to look whether it works *)
| Dealt.

#[export] Instance section_eq_dec : EqDecision section.
Proof. solve_decision. Defined.

Record report := mkReport { failed : nat; category : Category; at_ : section }.
Definition to (p : section) (r : report) : report := mkReport (failed r) (category r) p.
Definition errorFrame (r : report) : sframe := ErrorReport false (Some (failed r)) (category r).

(** [Base.PushErrorFrame] of a non-fatal error of service [svc], up to the verdict
    that comes with it. *)
Definition raise (svc : nat) (given : Category) (err : option error)
  (classifier : option (error -> Category)) (force : bool) : report :=
  let c := settle given err classifier in
  mkReport svc c (if force || IsPermanent c then Losing else OnTheWay).

(** The next section of a report: of [PushErrorFrame], [handleServiceError] or
    [HandleError]. *)
Definition proceed (r : report) (s : ServiceSwitcher) : report * ServiceSwitcher :=
  match at_ r with
  | Losing => (to OnTheWay r, SetUsable (failed r) false s)
  | OnTheWay =>
      if negb (Nat.eqb (failed r) (active s))
      then (to Dealt r, if isMember (failed r) s then s else basePush (errorFrame r) s)
      else (to (if failover s then Reported else Unswitched) r, s)
  | Reported => (to (if svcUsable (failed r) s then Unswitched else Picking) r, s)
  | Picking => (to (Walking (indexOf (active s) (services s)) 1) r, s)
  | Walking idx offset =>
      if Nat.ltb offset (length (services s)) then
        let candidate := services s !!! ((idx + offset) mod length (services s)) in
        (to (if svcUsable candidate s then Switching candidate else Walking idx (S offset)) r, s)
      else (to Unswitched r, s)
  | Switching candidate =>
      match setActiveIfAvailable candidate s with
      | (Some svc, s) => (to Dealt r, requestMetadata svc s)
      | (None, s) => (to Unswitched r, s)
      end
  | Unswitched =>
      (to Dealt r, if negb (svcUsable (failed r) s) then reportServiceFailure s else basePush (errorFrame r) s)
  | Dealt => (r, s)
  end.

Record config := mkConfig {
  switcher : ServiceSwitcher;
  errors : list report;
  (* what happened *)
  missed : list nat   (** the switches made by the time a candidate could not be made active *)
}.
#[export] Instance eta_config : Eta config := fun c => mkConfig (switcher c) (errors c) (missed c).

(** Whether a failover finds its candidate gone. *)
Definition misses (r : report) (s : ServiceSwitcher) : bool :=
  match at_ r with
  | Switching candidate => match setActiveIfAvailable candidate s with (Some _, _) => false | _ => true end
  | _ => false
  end.

Definition isError (f : sframe) : bool := match f with ErrorReport _ _ _ => true | _ => false end.

(** The steps: a service reports a non-fatal error, what is done about one goes a
    section further, a frame is taken in or let out, and a service is brought back,
    while the active one works or when it is the active one.  A service is lost in
    no other way. *)
Inductive fstep : config -> config -> Prop :=
| f_raise svc given err cl force c :
    fstep c (c <| errors ::= fun l => l ++ [raise svc given err cl force] |>)
| f_proceed i r r' s' c :
    errors c !! i = Some r -> proceed r (switcher c) = (r', s') ->
    fstep c (mkConfig s' (<[ i := r' ]> (errors c))
      (if misses r (switcher c) then length (onSwitch (switcher c)) :: missed c else missed c))
| f_frame f d counter c : fstep c (c <| switcher ::= fun s => (ProcessFrame f d counter s).2 |>)
| f_out f c : isError f = false -> fstep c (c <| switcher ::= PushFrame f |>)
| f_announce c : fstep c (c <| switcher ::= announceUsable |>)
| f_revive svc c :
    (svcUsable (active (switcher c)) (switcher c) = true \/ svc = active (switcher c)) ->
    fstep c (c <| switcher ::= SetUsable svc true |>).

(** ** Lemmas *)

Lemma isMember_elem i s : isMember i s = true <-> i ∈ services s.
Proof.
  unfold isMember. rewrite existsb_exists, list_elem_of_In. split.
  - intros (x & Hx & ->%Nat.eqb_eq). done.
  - intros Hi. exists i. by rewrite Nat.eqb_refl.
Qed.

Lemma index_Some a l k : index a l = Some k -> l !! k = Some a.
Proof.
  revert k. induction l as [|x l IH]; intros k; simpl; [done|].
  destruct (Nat.eqb_spec x a) as [->|]; [by intros [= <-]|].
  intros (k' & Hk & ->)%fmap_Some. by apply IH.
Qed.

Lemma index_elem a l : a ∈ l -> exists k, index a l = Some k.
Proof.
  induction l as [|x l IH]; [by intros ?%elem_of_nil|]. simpl.
  destruct (Nat.eqb_spec x a); [eauto|]. intros [->|Ha]%elem_of_cons; [done|].
  destruct (IH Ha) as [k ->]. by exists (S k).
Qed.

(** The services after the active one, then those before it: the order failover
    tries them in. *)
Definition others (s : ServiceSwitcher) : list nat :=
  let k := indexOf (active s) (services s) in drop (S k) (services s) ++ take k (services s).

Definition nextUsable (s : ServiceSwitcher) : option nat := List.find (fun i => svcUsable i s) (others s).

Lemma walk_find idx o fuel s :
  walk idx o fuel s =
  List.find (fun i => svcUsable i s) (map (fun o => services s !!! ((idx + o) mod length (services s))) (seq o fuel)).
Proof. revert o. induction fuel as [|n IH]; intros o; [done|]. simpl. by rewrite IH. Qed.

Lemma rotation (l : list nat) idx :
  idx < length l ->
  map (fun o => l !!! ((idx + o) mod length l)) (seq 1 (length l - 1)) = drop (S idx) l ++ take idx l.
Proof.
  intros Hi. apply list_eq. intros j.
  destruct (decide (j < length l - 1)) as [Hj|Hj].
  - change (map (fun o => l !!! ((idx + o) mod length l)) (seq 1 (length l - 1)) !! j) with
      (((fun o => l !!! ((idx + o) mod length l)) <$> seq 1 (length l - 1)) !! j).
    rewrite list_lookup_fmap, lookup_seq_lt by done. simpl.
    destruct (decide (j < length l - S idx)) as [H1|H1].
    + rewrite Nat.mod_small, lookup_app_l by (rewrite ?length_drop; lia). rewrite lookup_drop.
      rewrite (list_lookup_lookup_total_lt l (S idx + j)) by lia. f_equal. f_equal. lia.
    + rewrite lookup_app_r by (rewrite length_drop; lia). rewrite length_drop, lookup_take_lt by lia.
      replace (idx + S j) with (idx + S j - length l + 1 * length l) by lia.
      rewrite Nat.Div0.mod_add, Nat.mod_small by lia.
      rewrite (list_lookup_lookup_total_lt l (j - (length l - S idx))) by lia. f_equal. f_equal. lia.
  - rewrite !lookup_ge_None_2; [done| |]; rewrite ?length_app, ?length_drop, ?length_take, ?length_map, ?length_seq; lia.
Qed.

Lemma walk_next s :
  active s ∈ services s ->
  walk (indexOf (active s) (services s)) 1 (length (services s) - 1) s = nextUsable s.
Proof.
  intros Ha. rewrite walk_find. unfold nextUsable, others. f_equal. apply rotation.
  unfold indexOf. destruct (index_elem _ _ Ha) as [k E]. rewrite E. simpl.
  by eapply lookup_lt_Some, index_Some.
Qed.

Lemma nextUsable_Some s b : nextUsable s = Some b -> b ∈ services s /\ svcUsable b s = true.
Proof.
  intros [Hin Hu]%find_some. split; [|done]. apply list_elem_of_In in Hin. unfold others in Hin.
  set (k := indexOf _ _) in Hin. apply elem_of_app in Hin as [Hin|Hin].
  - rewrite <- (take_drop (S k) (services s)), elem_of_app. auto.
  - rewrite <- (take_drop k (services s)), elem_of_app. auto.
Qed.

(** What a run goes through. *)
Inductive op :=
| Frame_ (f : sframe) (d : Direction) (counter : Z)
| LetOut (f : sframe)
| Set_ (svc : nat) (v : bool)
| Announce.

Definition exec (o : op) (s : ServiceSwitcher) : ServiceSwitcher :=
  match o with
  | Frame_ f d counter => (ProcessFrame f d counter s).2
  | LetOut f => PushFrame f s
  | Set_ svc v => SetUsable svc v s
  | Announce => announceUsable s
  end.
Definition run (os : list op) (s : ServiceSwitcher) : ServiceSwitcher := fold_left (fun s o => exec o s) os s.

(** What never changes, and who is active. *)
Record shape (s s' : ServiceSwitcher) : Prop := {
  sh_services : services s' = services s;
  sh_failover : failover s' = failover s;
  sh_self : self s' = self s;
  sh_member : active s ∈ services s -> active s' ∈ services s'
}.

#[export] Instance shape_preorder : PreOrder shape.
Proof. split; [by split|]. intros a b c [] []. split; try congruence. auto. Qed.

Lemma shape_setActive t s : shape s (setActiveIfAvailable t s).2.
Proof.
  unfold setActiveIfAvailable. destruct (isMember t s) eqn:E; simpl; [|done]. case_match; simpl; [done|].
  split; try done. intros _. by apply isMember_elem.
Qed.

Lemma shape_HandleFrame f s : shape s (HandleFrame f s).2.
Proof. destruct f; simpl; try done. apply shape_setActive. Qed.

Lemma shape_HandleError o s : shape s (HandleError o s).2.
Proof. unfold HandleError. repeat case_match; try done. apply shape_setActive. Qed.

Lemma shape_same s s' :
  services s' = services s -> failover s' = failover s -> self s' = self s -> active s' = active s -> shape s s'.
Proof. intros E1 E2 E3 E4. split; try done. by rewrite E1, E4. Qed.

Lemma shape_updateInactive ts service reach c s : shape s (updateInactive ts service reach c s).2.
Proof.
  revert c s. induction ts as [|t ts IH]; intros c s; simpl; [done|]. etrans; [|apply IH]. by apply shape_same.
Qed.

Lemma shape_PushFrame f s : shape s (PushFrame f s).
Proof.
  destruct f as [svc|svc|svc|fid service reach|fatal source c|f]; simpl; try (repeat case_match; by apply shape_same).
  - unfold consumeInactiveUpdate. repeat case_match; simplify_eq; by apply shape_same.
  - unfold handleServiceError. destruct fatal; [by apply shape_same|]. destruct source as [failed|]; [|by apply shape_same].
    destruct (negb (Nat.eqb failed (active s))); [destruct (isMember failed s); by apply shape_same|].
    pose proof (shape_HandleError (Some failed) s) as H. destruct (HandleError (Some failed) s) as [[svc|] s1]; simpl in H.
    + etrans; [exact H|]. by apply shape_same.
    + destruct (negb (svcUsable failed s1)); (etrans; [exact H|]); [|by apply shape_same].
      unfold reportServiceFailure. case_match; by apply shape_same.
Qed.

Lemma shape_exec o s : shape s (exec o s).
Proof.
  destruct o as [f d c|f|svc v|]; simpl.
  - unfold ProcessFrame. pose proof (shape_HandleFrame f s) as H. destruct (HandleFrame f s) as [[svc|] s1]; simpl in *.
    + etrans; [exact H|]. by apply shape_same.
    + etrans; [exact H|]. destruct f; try done.
      pose proof (shape_updateInactive (inactiveUpdateTargets service reachInactiveServices s1) service reachInactiveServices c s1) as H1.
      by destruct (updateInactive _ _ _ _ _).
  - apply shape_PushFrame.
  - by apply shape_same.
  - unfold announceUsable. case_match; by apply shape_same.
Qed.

Lemma shape_run os s : shape s (run os s).
Proof.
  revert s. induction os as [|o os IH]; intros s; simpl; [done|]. etrans; [apply shape_exec|apply IH].
Qed.

(** Where the active service may move: to one that can work. *)
Record moved (s s' : ServiceSwitcher) : Prop := {
  mv_usability : usability s' = usability s;
  mv_services : services s' = services s;
  mv_active : active s' = active s /\ onSwitch s' = onSwitch s \/ svcUsable (active s') s' = true
}.

Lemma active_same s s' :
  usability s' = usability s -> services s' = services s -> active s' = active s -> onSwitch s' = onSwitch s -> moved s s'.
Proof. split; auto. Qed.

Lemma active_then s s1 s2 :
  moved s s1 -> usability s2 = usability s1 -> services s2 = services s1 -> active s2 = active s1 -> onSwitch s2 = onSwitch s1 ->
  moved s s2.
Proof. intros [E1 E2 E3] F1 F2 F3 F4. split; [congruence..|]. unfold svcUsable in *. by rewrite F1, F3, F4. Qed.

Lemma moved_setActive t s : moved s (setActiveIfAvailable t s).2.
Proof.
  unfold setActiveIfAvailable. destruct (isMember t s); simpl; [|by apply active_same].
  destruct (svcUsable t s) eqn:E; simpl; [|by apply active_same]. split; auto.
Qed.

Lemma moved_HandleError o s : moved s (HandleError o s).2.
Proof. unfold HandleError. repeat case_match; try by apply active_same. apply moved_setActive. Qed.

Lemma moved_HandleFrame f s : moved s (HandleFrame f s).2.
Proof. destruct f; simpl; try by apply active_same. apply moved_setActive. Qed.

Lemma moved_PushFrame f s : moved s (PushFrame f s).
Proof.
  destruct f as [svc|svc|svc|fid service reach|fatal source c|f]; simpl; try (repeat case_match; by apply active_same).
  - unfold consumeInactiveUpdate. repeat case_match; simplify_eq; by apply active_same.
  - unfold handleServiceError. destruct fatal; [by apply active_same|]. destruct source as [failed|]; [|by apply active_same].
    destruct (negb (Nat.eqb failed (active s))); [destruct (isMember failed s); by apply active_same|].
    pose proof (moved_HandleError (Some failed) s) as H. destruct (HandleError (Some failed) s) as [[svc|] s1]; simpl in H.
    + by eapply active_then.
    + destruct (negb (svcUsable failed s1)); [|by eapply active_then].
      unfold reportServiceFailure. case_match; [done|]. by eapply active_then.
Qed.

Lemma moved_updateInactive ts service reach c s : moved s (updateInactive ts service reach c s).2.
Proof.
  enough (usability (updateInactive ts service reach c s).2 = usability s /\
          services (updateInactive ts service reach c s).2 = services s /\
          active (updateInactive ts service reach c s).2 = active s /\
          onSwitch (updateInactive ts service reach c s).2 = onSwitch s) as (?&?&?&?) by by apply active_same.
  revert c s. induction ts as [|t ts IH]; intros c s; simpl; [done|].
  destruct (IH (nextID c) (rememberInactiveUpdate (nextID c) s <| direct ::= fun l => l ++ [(t, SettingsUpdate (nextID c) service reach)] |>))
    as (E1 & E2 & E3 & E4). simpl in *. auto.
Qed.

Lemma moved_ProcessFrame f d c s : moved s (ProcessFrame f d c s).2.
Proof.
  unfold ProcessFrame. pose proof (moved_HandleFrame f s) as H.
  destruct f as [svc|svc|svc|fid service reach|fatal source cat|f]; simpl in *; try by apply active_same.
  - destruct (setActiveIfAvailable svc s) as [[t|] s1]; simpl in *; [by eapply active_then|done].
  - pose proof (moved_updateInactive (inactiveUpdateTargets service reach s) service reach c s) as H1.
    by destruct (updateInactive _ _ _ _ _).
Qed.

(** *** The answer to an error of the active service *)

Lemma answer_active s fatal c :
  active s ∈ services s -> self s ∉ services s ->
  PushFrame (ErrorReport fatal (Some (active s)) c) s =
    if fatal || svcUsable (active s) s then basePush (ErrorReport fatal (Some (active s)) c) s
    else match (if failover s then nextUsable s else None) with
         | Some b => requestMetadata b (s <| active := b |> <| onSwitch ::= fun l => l ++ [b] |>)
         | None => basePush (ErrorReport false (Some (self s)) Unknown) s
         end.
Proof.
  intros Ha Hself. unfold PushFrame, handleServiceError. destruct fatal; [done|]. simpl.
  rewrite Nat.eqb_refl. simpl. unfold HandleError. simpl.
  assert (isMember (self s) s = false) as Hm.
  { destruct (isMember (self s) s) eqn:E; [|done]. by apply isMember_elem in E. }
  destruct (failover s) eqn:Ef; simpl; destruct (svcUsable (active s) s) eqn:Eu; simpl; rewrite ?Eu; simpl; try done.
  - rewrite (walk_next s Ha). destruct (nextUsable s) as [b|] eqn:En.
    + destruct (nextUsable_Some _ _ En) as [Hb Hu]. unfold setActiveIfAvailable.
      rewrite (proj2 (isMember_elem b s) Hb), Hu. destruct s. simpl in *. by subst.
    + rewrite Eu. simpl. unfold reportServiceFailure. by rewrite Hm.
  - unfold reportServiceFailure. by rewrite Hm.
Qed.

(** ** The settings ring *)

Definition lastn (n : nat) (l : list Z) : list Z := drop (length l - n) l.

Lemma remember_all l s :
  length (inactiveUpdates s) <= inactiveUpdateRing ->
  inactiveUpdates (fold_left (fun s i => rememberInactiveUpdate i s) l s) = lastn inactiveUpdateRing (inactiveUpdates s ++ l).
Proof.
  revert s. induction l as [|x l IH]; intros s Hl.
  - rewrite app_nil_r. simpl. unfold lastn. by replace (length (inactiveUpdates s) - inactiveUpdateRing) with 0 by lia.
  - simpl. rewrite IH; unfold rememberInactiveUpdate; simpl.
    + destruct (Nat.eqb_spec (length (inactiveUpdates s)) inactiveUpdateRing) as [E|E].
      * destruct (inactiveUpdates s) as [|y r] eqn:Er; [done|]. simpl. rewrite <- app_assoc. simpl.
        unfold lastn, inactiveUpdateRing in *. simpl in E.
        assert (length (y :: r ++ x :: l) - 64 = S (length (r ++ x :: l) - 64)) as ->; [|done].
        cbn [length]. rewrite length_app. cbn [length]. lia.
      * by rewrite <- app_assoc.
    + destruct (Nat.eqb_spec (length (inactiveUpdates s)) inactiveUpdateRing) as [E|E]; rewrite length_app; simpl; [|lia].
      unfold inactiveUpdateRing in *. destruct (inactiveUpdates s); simpl in *; lia.
Qed.

Lemma remove_first_In i l : (exists l', remove_first i l = Some l') <-> i ∈ l.
Proof.
  induction l as [|x l IH]; simpl; [split; [by intros [? ?]|by intros ?%elem_of_nil]|].
  destruct (Z.eqb_spec x i) as [->|Hne]; [split; [by left|eauto]|].
  rewrite elem_of_cons, <- IH. destruct (remove_first i l); split.
  - intros _. right. eauto.
  - intros _. eauto.
  - by intros [? ?].
  - intros [?|[? ?]]; congruence.
Qed.

(** ** The guarantees *)

(** C14: what an error of the active service does, handled with nothing coming
    between.  A fatal one, and one the service can carry on from, goes on upstream and
    switches nothing, though the guide and the comment of [NewFailoverStrategy] say
    that failover moves on at any non-fatal error.  One that leaves it
    unable to work is absorbed: the failover strategy makes active the first
    service after it, wrapping around, that can still work, and asks it for its
    metadata; when there is none, and always in the manual strategy, the failure is
    reported as the switcher's own, with a category that does not cost the switcher
    its usability. *)
Theorem switcher_answers_errors n svcs fo s0 os fatal c :
  NewServiceSwitcher n svcs fo = Some s0 -> n ∉ svcs ->
  let s := run os s0 in
  PushFrame (ErrorReport fatal (Some (active s)) c) s =
    if fatal || svcUsable (active s) s then basePush (ErrorReport fatal (Some (active s)) c) s
    else match (if fo then List.find (fun i => svcUsable i s) (others s) else None) with
         | Some b => requestMetadata b (s <| active := b |> <| onSwitch ::= fun l => l ++ [b] |>)
         | None => basePush (ErrorReport false (Some n) Unknown) s
         end.
Proof.
  intros E Hn s. destruct (shape_run os s0) as [E1 E2 E3 E4]. fold s in E1, E2, E3, E4. clearbody s.
  assert (services s0 = svcs /\ failover s0 = fo /\ self s0 = n /\ active s0 ∈ services s0) as (F1 & F2 & F3 & F4).
  { destruct svcs as [|a l]; [done|]. injection E as <-. do 3 (split; [done|]). by left. }
  rewrite (answer_active s fatal c); [|by apply E4|rewrite E3, E1, F1, F3; done]. by rewrite E2, E3, F2, F3.
Qed.

(** *** A report that nothing comes between *)

Lemma nat_iter_r {A} n (f : A -> A) x : Nat.iter (S n) f x = Nat.iter n f (f x).
Proof. induction n as [|n IH]; [done|]. simpl. by rewrite <- IH. Qed.

Definition proceeds (x : report * ServiceSwitcher) : report * ServiceSwitcher := proceed x.1 x.2.

Lemma proceed_walk r s idx fuel o :
  o + fuel = length (services s) ->
  exists n, Nat.iter n proceeds (to (Walking idx o) r, s) =
    (to (match walk idx o fuel s with Some b => Switching b | None => Unswitched end) r, s).
Proof.
  revert o. induction fuel as [|fuel IH]; intros o Hl.
  - exists 1. simpl. unfold proceeds, proceed. simpl. by rewrite (proj2 (Nat.ltb_ge _ _)) by lia.
  - simpl. assert (proceeds (to (Walking idx o) r, s) =
      (to (if svcUsable (services s !!! ((idx + o) mod length (services s))) s
           then Switching (services s !!! ((idx + o) mod length (services s))) else Walking idx (S o)) r, s)) as E.
    { unfold proceeds, proceed. simpl. by rewrite (proj2 (Nat.ltb_lt _ _)) by lia. }
    destruct (svcUsable _ s); [by exists 1|].
    destruct (IH (S o) ltac:(lia)) as [n En]. exists (S n). rewrite nat_iter_r, E. exact En.
Qed.

(** Left alone, a report comes to what [PushFrame] makes of its frame. *)
Theorem report_alone r s :
  0 < length (services s) -> at_ r = OnTheWay ->
  exists n, Nat.iter n proceeds (r, s) = (to Dealt r, PushFrame (errorFrame r) s).
Proof.
  intros Hl Er. destruct r as [f c p]. simpl in Er. subst p.
  assert (forall s', exists n, Nat.iter n proceeds (mkReport f c Unswitched, s') =
    (mkReport f c Dealt, if negb (svcUsable f s') then reportServiceFailure s' else basePush (errorFrame (mkReport f c Dealt)) s'))
    as Hu by (intros s'; by exists 1).
  assert (forall n m x y z, Nat.iter n proceeds x = y -> Nat.iter m proceeds y = z -> Nat.iter (m + n) proceeds x = z) as Hc.
  { intros n m x y z <- <-. apply Nat.iter_add. }
  unfold PushFrame, errorFrame, handleServiceError. cbn [failed category].
  destruct (negb (Nat.eqb f (active s))) eqn:Ea.
  { exists 1. simpl. unfold proceeds, proceed. simpl. rewrite Ea. by destruct (isMember f s). }
  unfold HandleError. destruct (failover s) eqn:Ef; simpl.
  - assert (Nat.iter 1 proceeds (mkReport f c OnTheWay, s) = (mkReport f c Reported, s)) as E1
      by (simpl; unfold proceeds, proceed; simpl; by rewrite Ea, Ef).
    destruct (svcUsable f s) eqn:Eu; simpl.
    + destruct (Hu s) as [n En]. rewrite Eu in En. rewrite Eu.
      assert (Nat.iter 1 proceeds (mkReport f c Reported, s) = (mkReport f c Unswitched, s)) as E2
        by (simpl; unfold proceeds, proceed; simpl; by rewrite Eu).
      eexists. eapply Hc; [exact E1|]. eapply Hc; [exact E2|exact En].
    + assert (Nat.iter 2 proceeds (mkReport f c Reported, s) = (mkReport f c (Walking (indexOf (active s) (services s)) 1), s)) as E2
        by (simpl; unfold proceeds, proceed; simpl; by rewrite Eu).
      destruct (proceed_walk (mkReport f c Dealt) s (indexOf (active s) (services s)) (length (services s) - 1) 1) as [n En]; [lia|].
      unfold to in En. cbn [failed category] in En.
      destruct (walk _ _ _ _) as [b|]; cbn [failed category] in En.
      * destruct (setActiveIfAvailable b s) as [[svc|] s'] eqn:Es.
        -- assert (Nat.iter 1 proceeds (mkReport f c (Switching b), s) = (mkReport f c Dealt, requestMetadata svc s')) as E4
             by (simpl; unfold proceeds, proceed; simpl; by rewrite Es).
           eexists. eapply Hc; [exact E1|]. eapply Hc; [exact E2|]. eapply Hc; [exact En|exact E4].
        -- assert (Nat.iter 1 proceeds (mkReport f c (Switching b), s) = (mkReport f c Unswitched, s')) as E4
             by (simpl; unfold proceeds, proceed; simpl; by rewrite Es).
           destruct (Hu s') as [m Em].
           eexists. eapply Hc; [exact E1|]. eapply Hc; [exact E2|]. eapply Hc; [exact En|]. eapply Hc; [exact E4|].
           rewrite Em. by destruct (negb (svcUsable f s')).
      * destruct (Hu s) as [m Em]. eexists. eapply Hc; [exact E1|]. eapply Hc; [exact E2|]. eapply Hc; [exact En|].
        rewrite Em. by rewrite Eu.
  - assert (Nat.iter 1 proceeds (mkReport f c OnTheWay, s) = (mkReport f c Unswitched, s)) as E1
      by (simpl; unfold proceeds, proceed; simpl; by rewrite Ea, Ef).
    destruct (Hu s) as [m Em]. eexists. eapply Hc; [exact E1|]. rewrite Em. by destruct (negb (svcUsable f s)).
Qed.

(** *** Failover works *)

Lemma Usable_iff s : Usable s = true <-> exists i, i ∈ services s /\ svcUsable i s = true.
Proof. unfold Usable. rewrite existsb_exists. setoid_rewrite list_elem_of_In. done. Qed.

Lemma svcUsable_Set i j v s : svcUsable i (SetUsable j v s) = if decide (i = j) then v else svcUsable i s.
Proof. unfold svcUsable, SetUsable. simpl. case_decide; subst; by rewrite ?lookup_insert_eq, ?lookup_insert_ne. Qed.

(** A report that will find the active service unable to work, and look at every
    service that can. *)
Definition covers (r : report) (s : ServiceSwitcher) : Prop :=
  match at_ r with
  | OnTheWay | Reported => failed r = active s
  | Picking | Switching _ => True
  | Walking idx o =>
      forall i, i ∈ services s -> svcUsable i s = true ->
        exists o', o <= o' < length (services s) /\ services s !!! ((idx + o') mod length (services s)) = i
  | Losing | Unswitched | Dealt => False
  end.

(** The active service cannot work though another can. *)
Definition stuck (s : ServiceSwitcher) : Prop := svcUsable (active s) s = false /\ Usable s = true.

Definition attended (c : config) : Prop :=
  stuck (switcher c) ->
    (exists r, r ∈ errors c /\ covers r (switcher c)) \/ length (onSwitch (switcher c)) ∈ missed c.

Definition sound (n : nat) (svcs : list nat) (s : ServiceSwitcher) : Prop :=
  services s = svcs /\ failover s = true /\ self s = n /\ active s ∈ services s.

Lemma sound_shape n svcs s s' : shape s s' -> sound n svcs s -> sound n svcs s'.
Proof. intros [E1 E2 E3 E4] (H1 & H2 & H3 & H4). unfold sound. rewrite E1 in *. rewrite E2, E3. auto. Qed.

Lemma covers_less r s s' :
  active s' = active s -> services s' = services s -> (forall i, svcUsable i s' = true -> svcUsable i s = true) ->
  covers r s -> covers r s'.
Proof. intros E1 E2 E3. unfold covers. rewrite E1, E2. destruct (at_ r); auto. Qed.

Lemma stuck_less s s' :
  active s' = active s -> services s' = services s -> (forall i, svcUsable i s' = true -> svcUsable i s = true) ->
  svcUsable (active s) s = false -> stuck s' -> stuck s.
Proof.
  intros E1 E2 E3 E4 [_ Hu]. split; [done|]. apply Usable_iff in Hu as (i & Hi & Hu). apply Usable_iff.
  exists i. rewrite <- E2. auto.
Qed.

(** Whatever moves the active service, if it does, moves it to one that works. *)
Lemma attended_moved c s' es :
  moved (switcher c) s' -> (forall r, r ∈ errors c -> covers r (switcher c) -> stuck (switcher c) -> exists r', r' ∈ es /\ covers r' (switcher c)) ->
  forall ms, missed c ⊆ ms -> attended c -> attended (mkConfig s' es ms).
Proof.
  intros [E1 E2 E3] Hes ms Hms Ha [Hd Hu]. simpl in *. destruct E3 as [[E3 E4]|E3]; [|congruence].
  assert (forall i, svcUsable i s' = svcUsable i (switcher c)) as Hsv by (intros i; unfold svcUsable; by rewrite E1).
  assert (stuck (switcher c)) as Hst.
  { apply (stuck_less _ s'); [done|done|by intros i; rewrite Hsv|by rewrite <- E3, <- Hsv|done]. }
  rewrite E4. destruct (Ha Hst) as [(r & Hr & Hc)|Hm]; [left|right; by apply Hms].
  destruct (Hes r Hr Hc Hst) as (r' & Hr' & Hc'). exists r'. split; [done|].
  apply (covers_less _ (switcher c)); [done|done|by intros i; rewrite Hsv|done].
Qed.

(** From the active service the walk comes by every other. *)
Lemma walk_reaches s i :
  active s ∈ services s -> i ∈ services s -> i <> active s ->
  exists o, 1 <= o < length (services s) /\
    services s !!! ((indexOf (active s) (services s) + o) mod length (services s)) = i.
Proof.
  intros Ha Hi Hne. destruct (index_elem _ _ Ha) as [k Ek]. unfold indexOf. rewrite Ek. simpl.
  pose proof (index_Some _ _ _ Ek) as Hk. pose proof (lookup_lt_Some _ _ _ Hk) as Hlt.
  apply list_elem_of_lookup in Hi as [j Hj]. pose proof (lookup_lt_Some _ _ _ Hj) as Hlj.
  assert (j <> k) as Hjk by (intros ->; congruence).
  exists (if decide (k < j) then j - k else length (services s) + j - k).
  assert ((k + (if decide (k < j) then j - k else length (services s) + j - k)) mod length (services s) = j) as ->.
  { case_decide; [by replace (k + (j - k)) with j by lia; rewrite Nat.mod_small by lia|].
    replace (k + (length (services s) + j - k)) with (j + 1 * length (services s)) by lia.
    rewrite Nat.Div0.mod_add, Nat.mod_small by lia. done. }
  split; [case_decide; lia|]. by apply list_lookup_total_correct.
Qed.

Lemma proceed_moved r s r' s' : at_ r <> Losing -> proceed r s = (r', s') -> moved s s'.
Proof.
  intros Hl. unfold proceed. destruct (at_ r) as [| | | |idx o|b| |]; try done.
  - case_match; intros [= <- <-]; [case_match; by apply active_same|by apply active_same].
  - intros [= <- <-]. by apply active_same.
  - intros [= <- <-]. by apply active_same.
  - case_match; intros [= <- <-]; by apply active_same.
  - pose proof (moved_setActive b s) as H. destruct (setActiveIfAvailable b s) as [[svc|] s1]; simpl in H;
      intros [= <- <-]; [by eapply active_then|done].
  - intros [= <- <-]. unfold reportServiceFailure. repeat case_match; by apply active_same.
  - intros [= <- <-]. by apply active_same.
Qed.

Lemma proceed_shape r s r' s' : proceed r s = (r', s') -> shape s s'.
Proof.
  unfold proceed. destruct (at_ r) as [| | | |idx o|b| |].
  - intros [= <- <-]. by apply shape_same.
  - case_match; intros [= <- <-]; [case_match; by apply shape_same|done].
  - by intros [= <- <-].
  - by intros [= <- <-].
  - case_match; by intros [= <- <-].
  - pose proof (shape_setActive b s) as H. destruct (setActiveIfAvailable b s) as [[svc|] s1]; simpl in H;
      intros [= <- <-]; [|done]. etrans; [exact H|by apply shape_same].
  - intros [= <- <-]. unfold reportServiceFailure. repeat case_match; by apply shape_same.
  - by intros [= <- <-].
Qed.

(** What covers a stuck switcher goes on covering it, section by section. *)
Lemma proceed_covers r s r' s' :
  failover s = true -> active s ∈ services s -> stuck s -> covers r s -> proceed r s = (r', s') ->
  covers r' s \/ svcUsable (active s') s' = true \/ misses r s = true.
Proof.
  intros Hf Ha [Hd Hu]. unfold covers at 1, proceed, misses. destruct (at_ r) as [| | | |idx o|b| |] eqn:Er; try done.
  - intros Hc. rewrite Hc, Nat.eqb_refl, Hf. simpl. intros [= <- <-]. by left.
  - intros Hc. rewrite Hc, Hd. intros [= <- <-]. left. done.
  - intros _ [= <- <-]. left. unfold covers. simpl. intros i Hi Hi'. apply walk_reaches; [done|done|congruence].
  - intros Hc. destruct (Nat.ltb_spec o (length (services s))) as [Hlt|Hge].
    + destruct (svcUsable (services s !!! ((idx + o) mod length (services s))) s) eqn:Es; intros [= <- <-]; left; [done|].
      unfold covers. simpl. intros i Hi Hi'. destruct (Hc i Hi Hi') as (o' & Ho' & E). exists o'. split; [|done].
      assert (o <> o') by (intros ->; congruence). lia.
    + exfalso. apply Usable_iff in Hu as (i & Hi & Hi'). destruct (Hc i Hi Hi') as (o' & Ho' & _). lia.
  - intros _. unfold setActiveIfAvailable. destruct (isMember b s); simpl; [|intros [= <- <-]; by right; right].
    destruct (svcUsable b s) eqn:Es; simpl; intros [= <- <-]; [right; left|by right; right]. exact Es.
Qed.

Lemma attended_step n svcs c c' :
  fstep c c' -> sound n svcs (switcher c) -> attended c -> sound n svcs (switcher c') /\ attended c'.
Proof.
  destruct 1 as [svc given err cl force c|i r r' s' c Hi Hp|f d k c|f c Hf|c|svc c Hr]; intros Hs Ha.
  - split; [done|]. intros Hst. destruct (Ha Hst) as [(r & Hr & Hc)|]; [left|by right].
    exists r. split; [|done]. simpl. apply elem_of_app. by left.
  - split; [by eapply sound_shape; [eapply proceed_shape|]|].
    pose proof Hs as (H1 & H2 & H3 & H4). pose proof (lookup_lt_Some _ _ _ Hi) as Hlt.
    assert (forall r0, r0 ∈ errors c -> r0 = r \/ r0 ∈ <[i:=r']> (errors c)) as Hother.
    { intros r0 [j Hj]%list_elem_of_lookup. destruct (decide (j = i)) as [->|Hne]; [left; congruence|right].
      apply (list_elem_of_lookup_2 _ j). by rewrite list_lookup_insert_ne. }
    destruct (decide (at_ r = Losing)) as [El|Hl].
    + unfold proceed in Hp. rewrite El in Hp. injection Hp as <- <-. unfold misses. rewrite El. intros Hst. simpl in *.
      destruct (decide (failed r = active (switcher c))) as [Ef|Ef].
      * left. exists (to OnTheWay r). split; [by apply list_elem_of_insert|done].
      * assert (forall j, svcUsable j (SetUsable (failed r) false (switcher c)) = true -> svcUsable j (switcher c) = true) as Hless
          by (intros j; rewrite svcUsable_Set; by case_decide).
        assert (svcUsable (active (switcher c)) (switcher c) = false) as Hd.
        { destruct Hst as [Hd _]. rewrite svcUsable_Set in Hd. case_decide as E; [|done]. by symmetry in E. }
        destruct (Ha (stuck_less (switcher c) (SetUsable (failed r) false (switcher c)) eq_refl eq_refl Hless Hd Hst)) as [(r0 & Hr0 & Hc)|]; [left|by right].
        destruct (Hother r0 Hr0) as [-> |]; [unfold covers in Hc; by rewrite El in Hc|].
        exists r0. split; [done|]. by apply (covers_less _ (switcher c)).
    + pose proof (proceed_moved _ _ _ _ Hl Hp) as Hm. intros Hst.
      assert (misses r (switcher c) = true \/
        forall r0, r0 ∈ errors c -> covers r0 (switcher c) -> stuck (switcher c) -> exists r1, r1 ∈ <[i:=r']> (errors c) /\ covers r1 (switcher c))
        as [Hmiss|Hcov].
      { destruct (misses r (switcher c)) eqn:Em; [by left|right]. intros r0 Hr0 Hc Hst0. destruct (Hother r0 Hr0) as [-> |]; [|eauto].
        destruct (proceed_covers _ _ _ _ H2 H4 Hst0 Hc Hp) as [Hc'|[Hw|?]]; [|destruct Hst; simpl in *; congruence|congruence].
        exists r'. split; [by apply list_elem_of_insert|done]. }
      * right. simpl. rewrite Hmiss. assert (onSwitch s' = onSwitch (switcher c)) as ->; [|by left].
        destruct Hm as [_ _ [[_ E]|E]]; [done|]. destruct Hst as [Hd _]. simpl in Hd. congruence.
      * eapply (attended_moved c s'); [done|exact Hcov| |done|exact Hst]. case_match; [by set_solver|done].
  - split; [by eapply sound_shape; [apply (shape_exec (Frame_ f d k))|]|].
    apply (attended_moved c _ (errors c)); [apply moved_ProcessFrame|eauto|done|done].
  - split; [by eapply sound_shape; [apply (shape_exec (LetOut f))|]|].
    apply (attended_moved c _ (errors c)); [apply moved_PushFrame|eauto|done|done].
  - split; [by eapply sound_shape; [apply (shape_exec Announce)|]|].
    apply (attended_moved c _ (errors c)); [|eauto|done|done]. unfold announceUsable. case_match; by apply active_same.
  - split; [by eapply sound_shape; [by apply (shape_exec (Set_ svc true))|]|].
    intros [Hd _]. exfalso. simpl in Hd. rewrite svcUsable_Set in Hd. simpl in Hd.
    case_decide as E; [done|]. destruct Hr as [Hr|Hr]; congruence.
Qed.

Definition freach (n : nat) (svcs : list nat) (c : config) : Prop :=
  exists s0, NewServiceSwitcher n svcs true = Some s0 /\ rtc fstep (mkConfig s0 [] []) c.

(** C15: a failover switcher keeps working while it can, whatever errors, switches
    and recoveries go on at once and however their sections interleave, as long as
    services are lost through the non-fatal errors they report and are brought back
    only while the active one works, or when it is the active one.  The active
    service is one of the switcher's, and it can work whenever any can, or else an
    error is still being dealt with that will come by every service that can work,
    or, since the last switch, a failover gave up because the service it had picked
    was lost before it was made active. *)
Theorem failover_keeps_working n svcs c :
  freach n svcs c ->
  let s := switcher c in
  active s ∈ svcs /\
  (Usable s = true ->
     svcUsable (active s) s = true \/ (exists r, r ∈ errors c /\ covers r s) \/ length (onSwitch s) ∈ missed c).
Proof.
  intros (s0 & E & Hr). assert (sound n svcs (switcher c) /\ attended c) as [(H1 & _ & _ & H4) Ha].
  { apply (rtc_invariant fstep (fun c => sound n svcs (switcher c) /\ attended c) _ _ Hr).
    - intros a b Hst [Hs Ha]. by eapply attended_step.
    - destruct svcs as [|a l]; [done|]. injection E as <-. split; [split; [done|]; split; [done|]; split; [done|by left]|].
      by intros [[=] _]. }
  split; [by rewrite <- H1|]. intros Hu. destruct (svcUsable (active (switcher c)) (switcher c)) eqn:Ed; [by left|right].
  apply Ha. by split.
Qed.

(** Runs by the numbers of the errors that go on. *)
Definition go (c : config) (i : nat) : config :=
  match errors c !! i with
  | Some r =>
      let '(r', s') := proceed r (switcher c) in
      mkConfig s' (<[ i := r' ]> (errors c))
        (if misses r (switcher c) then length (onSwitch (switcher c)) :: missed c else missed c)
  | None => c
  end.
Definition fails (svc : nat) (c : config) : config :=
  c <| errors ::= fun l => l ++ [raise svc Authentication None None false] |>.

Lemma go_steps l c : rtc fstep c (fold_left go l c).
Proof.
  revert c. induction l as [|i l IH]; intros c; simpl; [done|]. etrans; [|apply IH]. unfold go.
  destruct (errors c !! i) as [r|] eqn:E; [|done]. destruct (proceed r (switcher c)) as [r' s'] eqn:Ep.
  apply rtc_once. by eapply f_proceed.
Qed.

Lemma fails_then svc l c : rtc fstep c (fold_left go l (fails svc c)).
Proof. eapply rtc_l; [apply (f_raise svc Authentication None None false)|apply go_steps]. Qed.

(** Three services, the first active. *)
Definition three : list nat := [0; 1; 2].
Definition fresh : ServiceSwitcher := mkSwitcher 9 three true 0 ∅ [] true [] [] [] [].
Definition idle3 : config := mkConfig fresh [] [].

(** A failover gives up on a candidate that is lost under it, though a third service
    works.  Service 0 fails; service 1 is picked and fails before it is made active:
    its own error finds it idle and is absorbed, the failover of 0 is refused, and
    the switcher reports that it can go on while everything goes to a dead service. *)
Theorem failover_candidate_lost :
  exists c, freach 9 three c /\ Forall (fun r => at_ r = Dealt) (errors c) /\
    active (switcher c) = 0 /\ svcUsable 0 (switcher c) = false /\ svcUsable 2 (switcher c) = true /\
    Usable (switcher c) = true /\ pushed (switcher c) = [ErrorReport false (Some 9) Unknown].
Proof.
  exists (fold_left go [1; 1; 0; 0] (fails 1 (fold_left go [0; 0; 0; 0; 0] (fails 0 idle3)))).
  split; [|split; [vm_compute; by repeat constructor|by repeat split]].
  exists fresh. split; [reflexivity|]. etrans; apply fails_then.
Qed.

(** One service hears the conversation, all hear the lifecycle.  In any state a
    run reaches, a StartFrame, EndFrame or CancelFrame reaches every service, and
    any other frame, system frames included, the active one alone. *)
Theorem switcher_one_hears n svcs fo s0 os f d :
  NewServiceSwitcher n svcs fo = Some s0 -> NoDup svcs ->
  let s := run os s0 in
  hears f d s = if lifecycle f then svcs else [active s].
Proof.
  intros E Hnd s. destruct (shape_run os s0) as [E1 _ _ E4]. fold s in E1, E4. clearbody s.
  assert (services s0 = svcs /\ active s0 ∈ services s0) as (F1 & F2).
  { destruct svcs as [|a l]; [done|]. injection E as <-. split; [done|]. by left. }
  rewrite F1 in E1. specialize (E4 F2). unfold hears, filterLets, passthrough, gate. rewrite E1 in *.
  rewrite bool_decide_eq_true_2 by done. cbn [negb orb]. clear -Hnd E4. destruct (lifecycle f); cbn [orb].
  - clear. induction svcs as [|x l IH]; [done|]. simpl. by rewrite IH.
  - induction Hnd as [|x l Hx Hnd IH]; [by apply elem_of_nil in E4|]. cbn [List.filter].
    destruct (Nat.eqb_spec (active s) x) as [->|Hne].
    + f_equal. clear -Hx. induction l as [|y l IH]; [done|]. cbn [List.filter].
      destruct (Nat.eqb_spec x y) as [->|]; [by exfalso; apply Hx; left|]. apply IH. intros ?. apply Hx. by right.
    + apply IH. by apply elem_of_cons in E4 as [?|?].
Qed.

(** Only one copy of a settings update leaves.  Of the copies handed to inactive
    services since the ring was last empty, the switcher absorbs, on the way out,
    exactly the last 64: any later one is dropped, and an earlier one would escape. *)
Theorem settings_copies_absorbed l s service reach i :
  inactiveUpdates s = [] ->
  let s' := fold_left (fun s i => rememberInactiveUpdate i s) l s in
  pushed (PushFrame (SettingsUpdate i service reach) s') =
    if decide (i ∈ lastn inactiveUpdateRing l) then pushed s' else pushed s' ++ [SettingsUpdate i service reach].
Proof.
  intros E s'. assert (inactiveUpdates s' = lastn inactiveUpdateRing l) as Er.
  { unfold s'. rewrite remember_all by (rewrite E; simpl; lia). by rewrite E. }
  clearbody s'. cbn [PushFrame]. unfold consumeInactiveUpdate. rewrite Er.
  case_decide as Hin; destruct (remove_first i (lastn inactiveUpdateRing l)) as [k|] eqn:Ek; try done.
  - apply remove_first_In in Hin as [k E']. congruence.
  - exfalso. apply Hin, remove_first_In. eauto.
Qed.

(** A switcher can report itself usable and send everything to a dead service.
    Two services on failover: both reject their key, then the second is brought
    back.  The switcher announces itself usable again, but the first service stays
    active: whatever frame comes is heard by that service alone, and nothing but a
    manual switch, or one more error of the dead service, changes that. *)
Theorem switcher_revived_to_the_dead :
  exists s0 os, NewServiceSwitcher 9 [0; 1] true = Some s0 /\
    let s := run os s0 in
    Usable s = true /\ announced s = [false; true] /\ svcUsable (active s) s = false /\ svcUsable 0 s = true /\
    forall f d c, (forall svc, f <> ManuallySwitchServiceFrame svc) ->
      active (ProcessFrame f d c s).2 = active s /\ (lifecycle f = false -> (ProcessFrame f d c s).1.1 = [active s]).
Proof.
  eexists. exists [Set_ 0 false; LetOut (ErrorReport false (Some 0) Authentication);
    Set_ 1 false; LetOut (ErrorReport false (Some 1) Authentication); Announce; Set_ 0 true; Announce]. split; [reflexivity|]. cbv zeta.
  split; [vm_compute; reflexivity|]. split; [vm_compute; reflexivity|]. split; [vm_compute; reflexivity|].
  split; [vm_compute; reflexivity|]. intros f d c Hf.
  set (s := run _ _). assert (services s = [0; 1] /\ active s = 1) as [Es Ea] by (split; vm_compute; reflexivity).
  clearbody s.
  assert (lifecycle f = false -> hears f d s = [active s]) as Hh.
  { intros Hl. unfold hears, filterLets, passthrough, gate. rewrite Es, Ea, Hl, bool_decide_eq_true_2 by done. done. }
  destruct f as [svc|svc|svc|fid service reach|fatal source cat|f]; try (by split; [|exact Hh]); [by exfalso; eapply Hf|].
  unfold ProcessFrame. cbn [HandleFrame].
  pose proof (moved_updateInactive (inactiveUpdateTargets service reach s) service reach c s) as _.
  assert (forall ts c s, active (updateInactive ts service reach c s).2 = active s) as Hu.
  { clear. induction ts as [|t ts IH]; intros c s; simpl; [done|]. by rewrite IH. }
  specialize (Hu (inactiveUpdateTargets service reach s) c s).
  destruct (updateInactive _ _ _ _ _) as [c' s']. split; [exact Hu|exact Hh].
Qed.

(** ** The guarantees at work *)

(** The last of three fails: the first takes over. *)
Lemma switcher_answers_errors_witness :
  NewServiceSwitcher 9 three true = Some fresh /\
  let s := run [Frame_ (ManuallySwitchServiceFrame 2) Downstream 0; Set_ 2 false] fresh in
  active s = 2 /\ active (PushFrame (ErrorReport false (Some (active s)) Authentication) s) = 0.
Proof.
  split; [done|]. cbv zeta. split; [vm_compute; reflexivity|].
  rewrite (switcher_answers_errors 9 three true fresh [Frame_ (ManuallySwitchServiceFrame 2) Downstream 0; Set_ 2 false]
    false Authentication eq_refl); [vm_compute; reflexivity|]. apply (bool_decide_unpack _). vm_compute. exact I.
Defined.

(** The first two services fail, one upon the other: the third is in use. *)
Definition twice : config := fold_left go [0; 0; 0; 0; 0; 0; 1; 1; 1; 1; 1; 1] (fails 1 (fold_left go [0] (fails 0 idle3))).

Lemma twice_reached : freach 9 three twice.
Proof. exists fresh. split; [reflexivity|]. etrans; apply fails_then. Qed.

Lemma failover_keeps_working_witness :
  (Usable (switcher twice) = true /\ active (switcher twice) = 2 /\ missed twice = [] /\
   Forall (fun r => at_ r = Dealt) (errors twice)) /\
  (active (switcher twice) ∈ three /\
   (Usable (switcher twice) = true ->
     svcUsable (active (switcher twice)) (switcher twice) = true \/
     (exists r, r ∈ errors twice /\ covers r (switcher twice)) \/ length (onSwitch (switcher twice)) ∈ missed twice)).
Proof.
  split; [vm_compute; by repeat constructor|]. exact (failover_keeps_working 9 three twice twice_reached).
Defined.

Lemma switcher_one_hears_witness :
  hears (ServiceMetadata 1) Downstream (run [] fresh) = [0] /\
  hears (Plain (mkFrame 1 None None "" "" StartFrame)) Downstream (run [] fresh) = three.
Proof.
  split; [apply (switcher_one_hears 9 three true fresh [] (ServiceMetadata 1) Downstream eq_refl)|
          apply (switcher_one_hears 9 three true fresh [] (Plain (mkFrame 1 None None "" "" StartFrame)) Downstream eq_refl)];
    apply (bool_decide_unpack _); vm_compute; exact I.
Defined.

Lemma settings_copies_absorbed_witness :
  pushed (PushFrame (SettingsUpdate 5 None true) (fold_left (fun s i => rememberInactiveUpdate i s) [4; 5]%Z fresh)) = [] /\
  pushed (PushFrame (SettingsUpdate 6 None true) (fold_left (fun s i => rememberInactiveUpdate i s) [4; 5]%Z fresh)) =
    [SettingsUpdate 6 None true].
Proof.
  split.
  - rewrite (settings_copies_absorbed [4; 5]%Z fresh None true 5 eq_refl). vm_compute. reflexivity.
  - rewrite (settings_copies_absorbed [4; 5]%Z fresh None true 6 eq_refl). vm_compute. reflexivity.
Defined.

End Switcher.
