(* ===== verification/Worker.v ===== *)
(** * The pipeline worker

    [src/pipeline/worker.go], with its monitors ([monitors.go]), the filters on the frames
    reaching either end ([filter.go]) and what is cleaned up after a set-up given up on
    ([setup.go]).

    The run, the handlers of frames reaching either end, the monitors' rounds and the
    callers are goroutines over one state, each a program of [Prog.v].  A timer may fire
    whenever it is waited on; the caller's context ends at any time.  The pipeline is
    what the worker is not: frames enter it, which may fail, and reach its ends at any
    time, a frame that ends the run or starts it only once it has entered.

    Observers, tracing, metrics, the RTVI processor, the bridges and the base every
    worker has ([src/workers/]) are left out; the texts of reasons are kept. *)

From S2P Require Import Prelude Strings Text Prog.
Import Prog.

Module Worker.
Local Open Scope Z_scope.
Local Open Scope prog_scope.

(** ** Frames *)

(** An error frame carries the processor it comes from, by its identifier and its name,
    and whether that is still usable. *)
Record errorInfo := mkError { Fatal : bool; Source : option (nat * gostring); usable : bool }.
Inductive frame :=
| StartFrame
| EndFrame (reason : gostring)
| StopFrame
| CancelFrame (reason : gostring)
| EndWorkerFrame (reason : gostring)
| StopWorkerFrame
| CancelWorkerFrame (reason : gostring)
| InterruptionWorkerFrame
| InterruptionFrame
| ErrorFrame (e : errorInfo)
| HeartbeatFrame (at_ : Z)
| PipelineFlushFrame (id : Z)
| MetricsFrame
| TTSSpeakFrame (text : gostring) (append : bool)
| OtherFrame (n : nat).

#[export] Instance errorInfo_dec : EqDecision errorInfo. Proof. solve_decision. Defined.
#[export] Instance frame_dec : EqDecision frame. Proof. solve_decision. Defined.

Definition isPipelineEnd (f : frame) : bool := match f with EndFrame _ | CancelFrame _ | StopFrame => true | _ => false end.
Definition isCancel (f : frame) : bool := match f with CancelFrame _ => true | _ => false end.
(** What only the worker puts into the pipeline. *)
Definition lifecycle (f : frame) : bool := match f with StartFrame => true | f => isPipelineEnd f end.
Definition workerFrameEcho (f : frame) : option frame :=
  match f with EndWorkerFrame _ | StopWorkerFrame | CancelWorkerFrame _ | InterruptionWorkerFrame => Some f | _ => None end.

(** ** Filters *)

Definition FrameFilter := option (frame -> bool).
Definition selects (ff : FrameFilter) (f : frame) : bool := match ff with Some p => p f | None => false end.
Definition AnyFrame : FrameFilter := Some (fun _ => true).
Definition Or (a b : FrameFilter) : FrameFilter :=
  match a, b with
  | None, b => b
  | a, None => a
  | Some p, Some q => Some (fun f => p f || q f)
  end.

(** ** The worker *)

Inductive ProcessorUnusablePolicy := UnusableContinue | UnusableEnd | UnusableCancel.
#[export] Instance policy_dec : EqDecision ProcessorUnusablePolicy. Proof. solve_decision. Defined.

Record WorkerConfig := mkConfig {
  Name : gostring;
  idleWatched : bool;                     (** [IdleTimeout > 0] *)
  CancelOnIdleTimeout : option bool;
  CancelRunnerOnIdleTimeout : option bool;
  Policy : ProcessorUnusablePolicy;
  EnableMetrics : bool;
  SendInitialEmptyMetrics : option bool;
  EnableHeartbeats : bool;
  HandleFlushFrame : option bool;
  isBridged : bool;
  ReachedDownstreamFilter : FrameFilter;
  ReachedUpstreamFilter : FrameFilter
}.
Definition boolOrDefault (p : option bool) (def : bool) : bool := match p with Some b => b | None => def end.
Definition boolOrTrue (p : option bool) : bool := boolOrDefault p true.

Inductive workerEvent :=
| FrameReachedUpstream (f : frame)
| FrameReachedDownstream (f : frame)
| HeartbeatTimeout
| IdleTimeoutEvent
| PipelineStarted
| PipelineFinished (f : frame)
| PipelineTimeout (f : frame)
| SetupTimeoutEvent
| PipelineError (e : errorInfo).

(** What is done, in order. *)
Inductive event :=
| Raised (e : workerEvent)
| Queued (f : frame)                  (** onto the worker's queue *)
| Took (f : frame)                    (** off it *)
| Entered (f : frame)                 (** into the pipeline, at its head *)
| Entering (f : frame) (ok : bool)    (** the same, by a handler or a monitor *)
| Bounced (f : frame)                 (** pushed back up by the sink *)
| Sent (f : frame)                    (** pushed down again by the source *)
| ToRunner                            (** the session is canceled *)
| Reported (flush : Z) (to : gostring)
| CleanedUp.

(** A probe is shared by whoever holds it. *)
Record probe := mkProbe { Origin : gostring; Returning : bool; Done : bool }.
#[export] Instance eta_probe : Eta probe := fun p => mkProbe (Origin p) (Returning p) (Done p).

Record W := mkW {
  cfg : WorkerConfig;
  handleFlush : bool;
  pushQueue : list frame;
  heartbeats : list frame;
  idleSig : bool;
  startSig : bool;                      (** closed *)
  endSig : bool;
  finished : bool;
  canceling : bool;
  cancelReason : gostring;
  cancelFrame : option frame;
  finishOnce : bool;
  unusable : gset nat;
  downFilter : FrameFilter;
  upFilter : FrameFilter;
  idleLooping : bool;                   (** the monitors' goroutines *)
  heartbeatsStarted : bool;
  monitorsOpen : bool;
  framesAtSink : Z;
  foreignProbes : gmap Z gostring;
  flushProgress : gmap Z Z;
  flushProgressSent : Z;
  probes : gmap Z probe;
  drawn : Z;
  now : Z;
  ctxDone : bool;                       (** the context of the caller of [Run] *)
  log : list event
}.
#[export] Instance eta_W : Eta W := fun s =>
  mkW (cfg s) (handleFlush s) (pushQueue s) (heartbeats s) (idleSig s) (startSig s) (endSig s) (finished s) (canceling s) (cancelReason s)
    (cancelFrame s) (finishOnce s) (unusable s) (downFilter s) (upFilter s) (idleLooping s) (heartbeatsStarted s) (monitorsOpen s)
    (framesAtSink s) (foreignProbes s) (flushProgress s) (flushProgressSent s) (probes s) (drawn s) (now s) (ctxDone s) (log s).

Definition NewWorker (c : WorkerConfig) : W :=
  mkW c (boolOrDefault (HandleFlushFrame c) (negb (isBridged c))) [] [] false false false false false [] None false ∅
    (ReachedDownstreamFilter c) (ReachedUpstreamFilter c) false false false 0 ∅ ∅ 0 ∅ 0 0 false [].

Abbreviation prog := (Prog.prog W unit unit).
Definition emit (e : event) (s : W) : W := s <| log ::= fun l => l ++ [e] |>.
Definition log_ (e : event) : prog unit := do_ (emit e).

(** [Registry.Call]: the handlers are queued, not waited for. *)
Definition Call (e : workerEvent) : prog unit := log_ (Raised e).

Definition push (f : frame) (s : W) : W := emit (Queued f) (s <| pushQueue ::= fun l => l ++ [f] |>).
Definition QueueFrame (f : frame) : prog unit := do_ (push f).
Definition QueueFrames (fs : list frame) : prog unit := each fs QueueFrame.

(** The pipeline's own queue, which may refuse a frame. *)
Definition enter (f : frame) : prog bool := Act (fun s => [(true, emit (Entered f) s); (false, s)]) Ret.
Definition enterAside (f : frame) : prog bool := Act (fun s => [(true, emit (Entering f true) s); (false, emit (Entering f false) s)]) Ret.

Definition SetReachedDownstreamFilter (f : FrameFilter) : prog unit := do_ (fun s => s <| downFilter := f |>).
Definition SetReachedUpstreamFilter (f : FrameFilter) : prog unit := do_ (fun s => s <| upFilter := f |>).
Definition AddReachedDownstreamFilter (f : FrameFilter) : prog unit := do_ (fun s => s <| downFilter ::= fun g => Or g f |>).
Definition AddReachedUpstreamFilter (f : FrameFilter) : prog unit := do_ (fun s => s <| upFilter ::= fun g => Or g f |>).
Definition notifyReachedDownstream (f : frame) : prog unit :=
  let! ff := get downFilter in when (selects ff f) (Call (FrameReachedDownstream f)).
Definition notifyReachedUpstream (f : frame) : prog unit :=
  let! ff := get upFilter in when (selects ff f) (Call (FrameReachedUpstream f)).

(** ** Ending *)

Definition callPipelineFinished (f : frame) : prog unit :=
  do_ (fun s => if finishOnce s then s else emit (Raised (PipelineFinished f)) (s <| finishOnce := true |>)).
Definition closeStart : prog unit := do_ (fun s => s <| startSig := true |>).
Definition closeEnd : prog unit := do_ (fun s => s <| endSig := true |>).

Definition cancelWithReason (reason : gostring) : prog unit :=
  let! already := act (fun s =>
    if canceling s || finished s then (true, s) else (false, s <| canceling := true |> <| cancelReason := reason |>)) in
  if already then skip
  else
    closeStart ;;;
    QueueFrame (CancelFrame reason).
Definition HasFinished : prog bool := get finished.
Definition Cancel (reason : gostring) : prog unit :=
  let! f := HasFinished in if f then skip else cancelWithReason reason.
Definition StopWhenDone : prog unit := QueueFrame (EndFrame []).

Definition handleUnusableProcessor (p : nat * gostring) : prog unit :=
  let! again := act (fun s => (bool_decide (p.1 ∈ unusable s), s <| unusable ::= fun u => {[p.1]} ∪ u |>)) in
  if again then skip
  else
    let! c := get cfg in
    match Policy c with
    | UnusableEnd => StopWhenDone
    | UnusableCancel => cancelWithReason (p.2 ++ bytes_of " can no longer do its job")
    | UnusableContinue => skip
    end.
Definition unusableSource (e : errorInfo) : option (nat * gostring) := if usable e then None else Source e.

(** ** Waiting *)

(** Which of the channels is taken, where several are ready, is Go's choice; [true] is the
    frame's arrival.  [bounded]: under the run's context, which the caller's ends. *)
Definition waitPipelineEnd (bounded : bool) (f : frame) : prog bool :=
  if negb (isCancel f) then
    Act (fun s => (if endSig s then [(true, s)] else []) ++ (if bounded && ctxDone s then [(false, s)] else [])) Ret
  else
    do_ (fun s => s <| cancelFrame := Some f |>) ;;;
    let! r := Act (fun s => (if endSig s then [(Some true, s)] else []) ++ [(None, s)] ++ (if bounded && ctxDone s then [(Some false, s)] else [])) Ret in
    let! ok := (match r with Some b => Ret b | None => Call (PipelineTimeout f) ;;; Ret true end) in
    callPipelineFinished f ;;;
    Ret ok.

(** The run's errors: the context's, or the pipeline's refusal. *)
Inductive runError := ContextError | QueueError.
Inductive starting := CameUp | StartTimedOut | StartCanceled.

(** The queue drained, with fuel: as many frames as it takes. *)
Fixpoint drain (fuel : nat) : prog (option (option frame * option runError)) :=
  match fuel with
  | O => Ret None
  | S fuel =>
    let! g := Act (fun s =>
      match pushQueue s with
      | f :: rest => [(Some f, emit (Took f) (s <| pushQueue := rest |>))]
      | [] => if ctxDone s then [(None, s)] else []
      end) Ret in
    match g with
    | None => Ret (Some (None, Some ContextError))
    | Some f =>
      let! ok := enter f in
      if negb ok then Ret (Some (None, Some QueueError))
      else if isPipelineEnd f then
        let! ok := waitPipelineEnd true f in
        Ret (Some (Some f, if ok then None else Some ContextError))
      else drain fuel
    end
  end.
Definition runLoop (fuel : nat) : prog (option (option frame * option runError)) :=
  let! c := get cfg in
  when (idleWatched c) (do_ (fun s => s <| idleLooping := monitorsOpen s |>)) ;;;
  let! ok := enter StartFrame in
  if negb ok then Ret (Some (None, Some QueueError))
  else
    let! st := Act (fun s => (if startSig s then [(CameUp, s)] else []) ++ [(StartTimedOut, s)] ++ (if ctxDone s then [(StartCanceled, s)] else [])) Ret in
    match st with
    | StartTimedOut => Call (PipelineTimeout StartFrame) ;;; Ret (Some (Some StartFrame, None))
    | StartCanceled => Ret (Some (None, Some ContextError))
    | CameUp =>
      let! ok := (if EnableMetrics c && boolOrTrue (SendInitialEmptyMetrics c) then enter MetricsFrame else Ret true) in
      if negb ok then Ret (Some (None, Some QueueError)) else drain fuel
    end.

Definition cancelOnContextEnd : prog (option frame) :=
  let! r := act (fun s => ((cancelFrame s, cancelReason s), s <| canceling := true |>)) in
  match r.1 with
  | Some sent => waitPipelineEnd false sent ;;; Ret (Some sent)
  | None =>
    let f := CancelFrame (match r.2 with [] => bytes_of "context canceled" | r => r end) in
    let! ok := enter f in
    if ok then waitPipelineEnd false f ;;; Ret (Some f)
    else callPipelineFinished f ;;; Ret None
  end.

(** ** The run *)

Inductive setupOutcome := SetUp | SetupFailed | SetupTimedOut.
Inductive runOutcome :=
| AlreadyFinished
| FailedSetup
| TimedOutSetup
| Ran (endFrame : option frame) (err : option runError).
Definition setupWithinTimeout : prog setupOutcome :=
  let! r := Act (fun s => [(SetUp, s); (SetupFailed, s); (SetupTimedOut, s)]) Ret in
  match r with SetupTimedOut => Call SetupTimeoutEvent ;;; Ret SetupTimedOut | r => Ret r end.
Definition setFinished : prog unit := do_ (fun s => s <| finished := true |>).
Definition Run (fuel : nat) : prog (option runOutcome) :=
  let! already := HasFinished in
  if already then Ret (Some AlreadyFinished)
  else
    let! up := setupWithinTimeout in
    match up with
    | SetupFailed => Ret (Some FailedSetup)
    | SetupTimedOut => log_ CleanedUp ;;; setFinished ;;; Ret (Some TimedOutSetup)
    | SetUp =>
      do_ (fun s => s <| monitorsOpen := true |>) ;;;
      let! r := runLoop fuel in
      match r with
      | None => Ret None
      | Some (endFrame, err) =>
        let! over := get ctxDone in
        let! endFrame := (match err with Some _ => if over then cancelOnContextEnd else Ret endFrame | None => Ret endFrame end) in
        do_ (fun s => s <| monitorsOpen := false |> <| idleLooping := false |>) ;;;
        when (match endFrame with Some StopFrame => false | _ => true end) (log_ CleanedUp) ;;;
        setFinished ;;;
        Ret (Some (Ran endFrame err))
      end
    end.

(** ** Flushing *)

Definition FlushNoProgressTimeout : Z := 5 * 1000000000.
Definition flushProgressPeriod : Z := 1000000000.

Definition newProbe (origin : gostring) : prog Z :=
  act (fun s => (drawn s, s <| drawn ::= fun n => n + 1 |> <| probes ::= insert (drawn s) (mkProbe origin false false) |>)).
Definition flushReports (id : Z) (s : W) : Z := default 0 (flushProgress s !! id).
Inductive flushResult := Flushed | FlushContext | ErrFlushNoProgress.
(** A round of the wait: what was seen at its start, and what becomes of it. *)
Definition flushRound (id : Z) : prog (option flushResult) :=
  let! seen := get (fun s => (framesAtSink s, flushReports id s)) in
  let! r := Act (fun s => (if match probes s !! id with Some p => Done p | None => false end then [(Some Flushed, s)] else [])
                          ++ [(Some FlushContext, s); (None, s)]) Ret in
  match r with
  | Some r => Ret (Some r)
  | None => get (fun s => if (flushReports id s =? seen.2) && (framesAtSink s =? seen.1) then Some ErrFlushNoProgress else None)
  end.
Fixpoint flushWait (rounds : nat) (id : Z) : prog (option flushResult) :=
  match rounds with
  | O => Ret None
  | S rounds => let! r := flushRound id in match r with Some r => Ret (Some r) | None => flushWait rounds id end
  end.
Definition Flush (rounds : nat) : prog (option flushResult) :=
  let! up := Act (fun s => (if startSig s then [(true, s)] else []) ++ [(false, s)]) Ret in
  if negb up then Ret (Some FlushContext)
  else
    let! c := get cfg in
    let! id := newProbe (Name c) in
    do_ (fun s => s <| flushProgress ::= insert id 0 |>) ;;;
    QueueFrame (PipelineFlushFrame id) ;;;
    let! r := flushWait rounds id in
    do_ (fun s => s <| flushProgress ::= delete id |>) ;;;
    Ret r.
Definition drainPipeline (rounds : nat) : prog unit :=
  let! up := get startSig in
  if negb up then skip else let! f := HasFinished in if f then skip else Flush rounds ;;; skip.

Definition TrackFlushProbe (id : Z) : prog unit :=
  do_ (fun s =>
    match probes s !! id with
    | Some p => if negb (handleFlush s) || bool_decide (Origin p = []) || bool_decide (Origin p = Name (cfg s)) then s
                else s <| foreignProbes ::= insert id (Origin p) |>
    | None => s
    end).
Definition advanceFlushProbe (id : Z) (atSink : bool) : prog unit :=
  let! returning := get (fun s => match probes s !! id with Some p => Returning p | None => false end) in
  if negb atSink then
    do_ (fun s => s <| probes ::= alter (fun p => p <| Returning := true |>) id |>) ;;;
    log_ (Sent (PipelineFlushFrame id))
  else if negb returning then log_ (Bounced (PipelineFlushFrame id))
  else
    do_ (fun s => s <| foreignProbes ::= delete id |>) ;;;
    do_ (fun s => s <| probes ::= alter (fun p => p <| Done := true |>) id |>).
Definition reportFlushProgress : prog unit :=
  let! pending := act (fun s =>
    if bool_decide (foreignProbes s = ∅) || (now s - flushProgressSent s <? flushProgressPeriod) then ([], s)
    else (map_to_list (foreignProbes s), s <| flushProgressSent := now s |>)) in
  each pending (fun p => log_ (Reported p.1 p.2)).
Definition onFlushProgress (id : Z) : prog unit :=
  do_ (fun s => match flushProgress s !! id with Some n => s <| flushProgress ::= insert id (n + 1) |> | None => s end).

(** ** The ends of the pipeline *)

Definition startHeartbeats : prog unit :=
  do_ (fun s => if negb (EnableHeartbeats (cfg s)) || heartbeatsStarted s then s else s <| heartbeatsStarted := true |>).
Definition sinkPush (f : frame) : prog unit :=
  notifyReachedDownstream f ;;;
  when (match f with HeartbeatFrame _ => false | _ => true end)
    (do_ (fun s => s <| framesAtSink ::= fun n => wrapU 64 (n + 1) |>) ;;; reportFlushProgress) ;;;
  match f with
  | PipelineFlushFrame id => let! h := get handleFlush in if h then advanceFlushProbe id true else skip
  | _ =>
    match workerFrameEcho f with
    | Some back => log_ (Bounced back)
    | None =>
      match f with
      | StartFrame => Call PipelineStarted ;;; startHeartbeats ;;; closeStart
      | HeartbeatFrame _ => do_ (fun s => s <| heartbeats ::= fun l => l ++ [f] |>)
      | EndFrame _ | StopFrame => callPipelineFinished f ;;; closeEnd
      | CancelFrame _ => closeEnd
      | _ => skip
      end
    end
  end.
Definition sourcePush (f : frame) : prog unit :=
  notifyReachedUpstream f ;;;
  match f with
  | PipelineFlushFrame id => let! h := get handleFlush in if h then advanceFlushProbe id false else skip
  | EndWorkerFrame r => QueueFrame (EndFrame r)
  | CancelWorkerFrame r => cancelWithReason r
  | StopWorkerFrame => QueueFrame StopFrame
  | InterruptionWorkerFrame => enterAside InterruptionFrame ;;; skip
  | ErrorFrame e =>
    Call (PipelineError e) ;;;
    if Fatal e then cancelWithReason []
    else match unusableSource e with Some p => handleUnusableProcessor p | None => skip end
  | _ => skip
  end.

(** ** The monitors, a round at a time *)

Definition heartbeatPush : prog unit := let! t := get now in enterAside (HeartbeatFrame t) ;;; skip.
Definition heartbeatRound : prog unit :=
  let! r := Act (fun s => match heartbeats s with f :: rest => [(true, s <| heartbeats := rest |>)] | [] => [(false, s)] end) Ret in
  when (negb r) (Call HeartbeatTimeout).
Definition OnPushFrame (matches : frame -> bool) (f : frame) : prog unit :=
  when (match f with StartFrame => true | f => matches f end) (do_ (fun s => s <| idleSig := true |>)).
Definition idleTimeoutReached : prog bool :=
  let! c := get canceling in
  if c then Ret false
  else
    Call IdleTimeoutEvent ;;;
    let! c := get cfg in
    if negb (boolOrTrue (CancelOnIdleTimeout c)) then Ret true
    else
      cancelWithReason (bytes_of "idle timeout") ;;;
      when (boolOrTrue (CancelRunnerOnIdleTimeout c)) (log_ ToRunner) ;;;
      Ret false.
Definition idleRound : prog unit :=
  let! fired := Act (fun s => (if idleSig s then [(false, s <| idleSig := false |>)] else []) ++ [(true, s)]) Ret in
  if negb fired then skip
  else
    let! on := idleTimeoutReached in
    when (negb on) (do_ (fun s => s <| idleLooping := false |>)).

(** ** Messages from other workers *)

Definition onSpeak (text : gostring) (append : bool) : prog unit := QueueFrame (TTSSpeakFrame text append).
Definition HandleWorkerEnd (reason : gostring) : prog unit := QueueFrame (EndFrame reason).
Definition HandleWorkerCancel (reason : gostring) : prog unit := Cancel reason.

(** ** The goroutines *)

Inductive call :=
| ReachSink (f : frame)
| ReachSource (f : frame)
| CallQueue (fs : list frame)
| CallCancel (reason : gostring)
| CallStopWhenDone
| CallFlush (rounds : nat)
| CallDrain (rounds : nat)
| CallTrack (id : Z)
| CallProgress (id : Z)
| CallSpeak (text : gostring) (append : bool)
| CallEnd (reason : gostring)
| CallFilter (down add : bool) (f : FrameFilter)
| HeartbeatPush | HeartbeatRound | IdleRound
| Observed (matches : frame -> bool) (f : frame).
Definition start (c : call) : prog unit :=
  match c with
  | ReachSink f => sinkPush f
  | ReachSource f => sourcePush f
  | CallQueue fs => QueueFrames fs
  | CallCancel r => HandleWorkerCancel r
  | CallStopWhenDone => StopWhenDone
  | CallFlush n => Flush n ;;; skip
  | CallDrain n => drainPipeline n
  | CallTrack id => TrackFlushProbe id
  | CallProgress id => onFlushProgress id
  | CallSpeak t a => onSpeak t a
  | CallEnd r => HandleWorkerEnd r
  | CallFilter true false f => SetReachedDownstreamFilter f
  | CallFilter false false f => SetReachedUpstreamFilter f
  | CallFilter true true f => AddReachedDownstreamFilter f
  | CallFilter false true f => AddReachedUpstreamFilter f
  | HeartbeatPush => heartbeatPush
  | HeartbeatRound => heartbeatRound
  | IdleRound => idleRound
  | Observed m f => OnPushFrame m f
  end.
(** When a call may come. *)
Definition entered (s : W) : list frame := omap (fun e => match e with Entered f => Some f | _ => None end) (log s).
Definition mayCall (c : call) (s : W) : bool :=
  match c with
  | ReachSink f => negb (lifecycle f) || bool_decide (f ∈ entered s)
  | HeartbeatPush | HeartbeatRound => heartbeatsStarted s && monitorsOpen s
  | IdleRound => idleLooping s
  | _ => true
  end.

Record Sys := mkSys { w : W; main : prog (option runOutcome); others : list (prog unit) }.
#[export] Instance eta_Sys : Eta Sys := fun y => mkSys (w y) (main y) (others y).
Definition boot (fuel : nat) (c : WorkerConfig) : Sys := mkSys (NewWorker c) (Run fuel) [].

Inductive choice :=
| RunMain (n : nat)                (** an action of the run, by its [n]-th outcome *)
| RunOther (i n : nat)
| Begin (c : call)
| EndContext                       (** the caller's context ends *)
| Tick (d : nat).
Definition runNth {A} (p : prog A) (n : nat) (s : W) : option (prog A * W) :=
  match p with Act f k => '(r, s') ← List.nth_error (f s) n; Some (k r, s') | _ => None end.
Definition step (c : choice) (y : Sys) : option Sys :=
  match c with
  | RunMain n => '(p, s) ← runNth (main y) n (w y); Some (mkSys s p (others y))
  | RunOther i n => p ← others y !! i; '(p, s) ← runNth p n (w y); Some (mkSys s (main y) (<[i := p]> (others y)))
  | Begin c => if mayCall c (w y) then Some (mkSys (w y) (main y) (others y ++ [start c])) else None
  | EndContext => Some (mkSys ((w y) <| ctxDone := true |>) (main y) (others y))
  | Tick d => Some (mkSys ((w y) <| now ::= fun t => t + Z.of_nat d |>) (main y) (others y))
  end.
Fixpoint exec (cs : list choice) (y : Sys) : option Sys :=
  match cs with [] => Some y | c :: cs => y ← step c y; exec cs y end.

(** ** What is cleaned up after a set-up given up on

    [setupTracker]: the processors whose set-up began, and those whose is done. *)
Record setupTracker := mkTracker { began : gset nat; done_ : gset nat }.
Definition begin (procs : list nat) (_ : setupTracker) : setupTracker := mkTracker (list_to_set procs) ∅.
Definition finish (p : nat) (t : setupTracker) : setupTracker := mkTracker (began t) ({[p]} ∪ done_ t).
(** A processor by its identifier, and whether it holds others. *)
Definition settledFor (p : nat * bool) (t : setupTracker) : bool :=
  p.2 || negb (bool_decide (p.1 ∈ began t)) || bool_decide (p.1 ∈ done_ t).
Definition cleanupProcessors (procs : list (nat * bool)) (t : setupTracker) : list nat :=
  List.map fst (List.filter (fun p => settledFor p t) procs).
End Worker.
