(* ===== verification/WorkerFacts.v ===== *)
(** * What the pipeline worker promises

    What it puts into the pipeline and in which order, that the end of a run is reported
    once, that a canceled run goes on to its end, and the one wait that cancellation does
    not reach. *)

From S2P Require Import Prelude Strings Text Prog Worker.
Import Prog Worker.

Module WorkerFacts.
Local Open Scope Z_scope.
Local Open Scope prog_scope.

(** ** What a log says *)

Definition queued (s : W) : list frame := omap (fun e => match e with Queued f => Some f | _ => None end) (log s).
Definition took (s : W) : list frame := omap (fun e => match e with Took f => Some f | _ => None end) (log s).
Definition finishings (s : W) : list frame := omap (fun e => match e with Raised (PipelineFinished f) => Some f | _ => None end) (log s).
(** What else is put into the pipeline: at its head by a handler or a monitor, or from its
    source down again; and all there is. *)
Definition asides (s : W) : list frame := omap (fun e => match e with Entering f true | Sent f => Some f | _ => None end) (log s).
Definition beside (f : frame) : bool := match f with HeartbeatFrame _ | InterruptionFrame | PipelineFlushFrame _ => true | _ => false end.
Definition has (p : frame -> bool) (l : list frame) : Prop := exists f, f ∈ l /\ p f = true.
Lemma has_app p l l' : has p (l ++ l') <-> has p l \/ has p l'.
Proof. unfold has. setoid_rewrite elem_of_app. naive_solver. Qed.

Lemma queued_emit e s : queued (emit e s) = queued s ++ match e with Queued f => [f] | _ => [] end.
Proof. unfold queued, emit. cbn. rewrite omap_app. by destruct e. Qed.
Lemma took_emit e s : took (emit e s) = took s ++ match e with Took f => [f] | _ => [] end.
Proof. unfold took, emit. cbn. rewrite omap_app. by destruct e. Qed.
Lemma entered_emit e s : entered (emit e s) = entered s ++ match e with Entered f => [f] | _ => [] end.
Proof. unfold entered, emit. cbn. rewrite omap_app. by destruct e. Qed.
Lemma asides_emit e s : asides (emit e s) = asides s ++ match e with Entering f true | Sent f => [f] | _ => [] end.
Proof. unfold asides, emit. cbn. rewrite omap_app. by destruct e as [| | | |f []| | | | |]. Qed.
Lemma finishings_emit e s : finishings (emit e s) = finishings s ++ match e with Raised (PipelineFinished f) => [f] | _ => [] end.
Proof. unfold finishings, emit. cbn. rewrite omap_app. by destruct e as [[]| | | | | | | | |]. Qed.

(** ** What every goroutine keeps *)

Definition sentOk (s : W) : Prop :=
  match cancelFrame s with Some f => isCancel f = true | None => True end /\ Forall (fun f => beside f = true) (asides s).
Lemma sentOk_emit e s : match e with Entering f true | Sent f => beside f = true | _ => True end -> sentOk s -> sentOk (emit e s).
Proof.
  intros He [H1 H2]. split; [exact H1|]. rewrite asides_emit. apply Forall_app. split; [exact H2|]. destruct e as [| | | |f []| | | | |]; by repeat constructor.
Qed.
Record inv (s : W) : Prop := {
  i_once : length (finishings s) = if finishOnce s then 1%nat else 0%nat;
  i_end : endSig s = true -> finishOnce s = true \/ has isCancel (entered s);
  i_queue : queued s = took s ++ pushQueue s;
  i_sent : sentOk s
}.
(** What only grows, whoever acts. *)
Record grows (s s' : W) : Prop := {
  g_finish : finishOnce s = true -> finishOnce s' = true;
  g_start : startSig s = true -> startSig s' = true;
  g_cancel : canceling s = true -> canceling s' = true;
  g_ctx : ctxDone s = true -> ctxDone s' = true;
  g_queued : exists tr, queued s' = queued s ++ tr;
  g_entered : exists tr, entered s' = entered s ++ tr
}.
Definition canceled (s : W) : Prop := startSig s = true /\ has isCancel (queued s).

(** Those beside the run put nothing at the pipeline's head and take nothing off the
    queue.  One of them may be about to say that the pipeline has ended, and may be
    canceling and not done with it: it has said so, or has released the run too. *)
Inductive debt := Free | Owing | Opened.
Record role := mkRole { closes : bool; owes : debt }.
Definition holds (v : role) (s : W) : Prop :=
  (closes v = true -> finishOnce s = true \/ has isCancel (entered s)) /\ (owes v <> Free -> canceling s = true) /\ (owes v = Opened -> startSig s = true).
Definition knows (v : role) (s : W) : Prop := inv s /\ holds v s.
Record aside (v : role) (s s' : W) (v' : role) : Prop := {
  a_inv : inv s';
  a_holds : holds v' s';
  a_grows : grows s s';
  a_entered : entered s' = entered s;
  a_took : took s' = took s;
  a_owes : canceling s' = true -> canceling s = true \/ owes v' <> Free;
  a_paid : owes v <> Free -> owes v' = Free -> canceled s'
}.

Lemma grows_refl s : grows s s.
Proof. split; try done; exists []; by rewrite app_nil_r. Qed.
Lemma grows_trans a b c : grows a b -> grows b c -> grows a c.
Proof.
  intros [A1 A2 A3 A4 [x Ax] [y Ay]] [B1 B2 B3 B4 [x' Bx] [y' By]]. split; auto.
  - exists (x ++ x'). by rewrite Bx, Ax, app_assoc.
  - exists (y ++ y'). by rewrite By, Ay, app_assoc.
Qed.
Lemma holds_grows v s s' : grows s s' -> holds v s -> holds v s'.
Proof.
  intros [A1 A2 A3 A4 [x Ax] [y Ay]] (H1 & H2 & H3). split_and!; [|auto..]. intros Hc. destruct (H1 Hc); [auto|]. right. rewrite Ay. by apply has_app; left.
Qed.

(** Nothing of the above is touched. *)
Definition same (s s' : W) : Prop :=
  finishOnce s' = finishOnce s /\ endSig s' = endSig s /\ startSig s' = startSig s /\ canceling s' = canceling s /\ ctxDone s' = ctxDone s
  /\ pushQueue s' = pushQueue s /\ queued s' = queued s /\ took s' = took s /\ entered s' = entered s /\ finishings s' = finishings s
  /\ (sentOk s -> sentOk s').
Lemma aside_same v s s' : knows v s -> same s s' -> aside v s s' v.
Proof.
  intros [[I1 I2 I3 I4] (H1 & H2 & H3)] (E1 & E2 & E3 & E4 & E5 & E6 & E7 & E8 & E9 & E10 & E11). split.
  - split; [by rewrite E10, E1|by rewrite E2, E1, E9|by rewrite E7, E8, E6|auto].
  - split_and!; [by rewrite E1, E9|by rewrite E4|by rewrite E3].
  - split; rewrite ?E1, ?E3, ?E4, ?E5, ?E7, ?E9; try done; exists []; by rewrite app_nil_r.
  - done.
  - done.
  - rewrite E4. by left.
  - done.
Qed.
(** Something else is logged. *)
Definition plain (e : event) : bool :=
  match e with Queued _ | Took _ | Entered _ | Raised (PipelineFinished _) => false | Entering f _ | Sent f => beside f | _ => true end.
Lemma same_emit e s s1 : plain e = true -> same s s1 -> same s (emit e s1).
Proof.
  intros He (E1 & E2 & E3 & E4 & E5 & E6 & E7 & E8 & E9 & E10 & E11). unfold same.
  assert (sentOk s -> sentOk (emit e s1)) as Hs by (intros Hs%E11; apply sentOk_emit; [destruct e as [| | | |f []| | | | |]|]; done).
  rewrite queued_emit, took_emit, entered_emit, finishings_emit. destruct e as [[]| | | | | | | | |]; try done; by rewrite !app_nil_r.
Qed.

(** A program beside the run, from a role to a role. *)
Abbreviation plays p P v := (takes knows aside p P v).
Definition quiet {A} (p : prog A) : Prop := forall c, plays p (fun _ v' => v' = mkRole c Free) (mkRole c Free).

Lemma quiet_ret {A} (a : A) : quiet (Ret a).
Proof. by intros v. Qed.
Lemma quiet_bind {A B} (p : prog A) (k : A -> prog B) : quiet p -> (forall a, quiet (k a)) -> quiet (bind p k).
Proof. intros Hp Hk c. eapply takes_seq; [apply Hp|]. intros a v' ->. apply Hk. Qed.
Lemma quiet_act {A} (f : W -> list (A * W)) : (forall s r s', In (r, s') (f s) -> same s s') -> quiet (Act f Ret).
Proof. intros H c s r s' Hin Hk. eexists. split; [|done]. apply aside_same; [done|by eapply H]. Qed.
Lemma quiet_get {A} (f : W -> A) : quiet (get f).
Proof. apply quiet_act. intros s r s' [[= <- <-]|[]]. by split_and!. Qed.
Lemma quiet_do (f : W -> W) : (forall s, same s (f s)) -> quiet (do_ f).
Proof. intros H. apply quiet_act. intros s r s' [[= <- <-]|[]]. apply H. Qed.
Lemma quiet_log e : plain e = true -> quiet (log_ e).
Proof. intros He. apply quiet_do. intros s. apply same_emit; [done|by split_and!]. Qed.
Lemma quiet_when b p : quiet p -> quiet (when b p).
Proof. destruct b; [done|intros _; apply quiet_ret]. Qed.
Lemma quiet_each {A} (l : list A) p : (forall a, quiet (p a)) -> quiet (each l p).
Proof. intros H c. apply takes_each. intros a. apply H. Qed.

(** A frame onto the queue; the one that cancels completes the cancellation. *)
Lemma aside_push f v s : knows v s -> (owes v <> Free -> isCancel f = true /\ startSig s = true) -> aside v s (push f s) (mkRole (closes v) Free).
Proof.
  intros [[I1 I2 I3 I4] (H1 & H2 & H3)] Ho. unfold push.
  pose (s1 := s <| pushQueue ::= fun l => l ++ [f] |>).
  assert (entered (emit (Queued f) s1) = entered s) as Ee by (rewrite entered_emit; apply app_nil_r).
  assert (took (emit (Queued f) s1) = took s) as Et by (rewrite took_emit; apply app_nil_r).
  assert (queued (emit (Queued f) s1) = queued s ++ [f]) as Eq by exact (queued_emit (Queued f) s1).
  assert (finishings (emit (Queued f) s1) = finishings s) as Ef by (rewrite finishings_emit; apply app_nil_r).
  fold s1. split; [split|split_and!| |exact Ee|exact Et|by left|].
  - rewrite Ef. exact I1.
  - rewrite Ee. exact I2.
  - rewrite Eq, Et, I3, <- app_assoc. done.
  - by apply sentOk_emit.
  - rewrite Ee. exact H1.
  - done.
  - done.
  - split; try done; [rewrite Eq; eauto|rewrite Ee; exists []; by rewrite app_nil_r].
  - intros [Hf Hs]%Ho _. split; [exact Hs|]. rewrite Eq. apply has_app. right. exists f. by rewrite list_elem_of_singleton.
Qed.
Lemma quiet_queue f : quiet (QueueFrame f).
Proof. intros c s r s' [[= <- <-]|[]] Hk. eexists. split; [by apply aside_push|done]. Qed.
Lemma quiet_queues fs : quiet (QueueFrames fs).
Proof. apply quiet_each. apply quiet_queue. Qed.

(** The end reported, once. *)
Lemma aside_finish f v s : knows v s ->
  aside v s (if finishOnce s then s else emit (Raised (PipelineFinished f)) (s <| finishOnce := true |>)) (mkRole true (owes v)).
Proof.
  intros [[I1 I2 I3 I4] (H1 & H2 & H3)]. destruct (finishOnce s) eqn:Ef.
  { split; [split; rewrite ?Ef; try done|split_and!; [by left|done..]|apply grows_refl|done|done|by left|done]. }
  pose (s1 := s <| finishOnce := true |>). fold s1.
  set (e := Raised (PipelineFinished f)).
  assert (entered (emit e s1) = entered s) as Ee by (rewrite entered_emit; apply app_nil_r).
  assert (took (emit e s1) = took s) as Et by (rewrite took_emit; apply app_nil_r).
  assert (queued (emit e s1) = queued s) as Eq by (rewrite queued_emit; apply app_nil_r).
  assert (finishings (emit e s1) = finishings s ++ [f]) as En by exact (finishings_emit e s1).
  split; [split|split_and!| |exact Ee|exact Et|by left|done].
  - rewrite En, length_app, I1. done.
  - by left.
  - rewrite Eq, Et. exact I3.
  - by apply sentOk_emit.
  - by left.
  - exact H2.
  - exact H3.
  - split; try done; [rewrite Eq; exists []; by rewrite app_nil_r|rewrite Ee; exists []; by rewrite app_nil_r].
Qed.
Lemma aside_close v s : knows v s -> closes v = true -> aside v s (s <| endSig := true |>) v.
Proof.
  intros [[I1 I2 I3 I4] (H1 & H2 & H3)] Hc. split; [split; [done| |done|done]|done| |done|done|by left|done].
  - intros _. exact (H1 Hc).
  - split; try done; exists []; by rewrite app_nil_r.
Qed.
Lemma aside_start v s : knows v s -> aside v s (s <| startSig := true |>) (mkRole (closes v) (match owes v with Free => Free | _ => Opened end)).
Proof.
  intros [[I1 I2 I3 I4] (H1 & H2 & H3)]. split; [by split| | |done|done|by left|by destruct (owes v)].
  { split_and!; [done|cbn; intros Hne; apply H2; by destruct (owes v)|done]. }
  split; try done; exists []; by rewrite app_nil_r.
Qed.
Lemma quiet_closeStart : quiet closeStart.
Proof. intros c s r s' [[= <- <-]|[]] Hk. eexists. split; [by apply aside_start|done]. Qed.

Lemma quiet_cancelWithReason r : quiet (cancelWithReason r).
Proof.
  intros c. unfold cancelWithReason. apply takes_act. intros s [[I1 I2 I3 I4] (H1 & H2 & H3)]. destruct (canceling s || finished s) eqn:E.
  - exists (mkRole c Free). split; [|done]. apply aside_same; [by split; [split|split_and!]|by split_and!].
  - exists (mkRole c Owing). split; [cbn [snd]; split; [by split|by split_and!| |done|done|by right|done]|].
    { split; try done; exists []; by rewrite app_nil_r. }
    cbn [fst]. intros s1 u s1' [[= <- <-]|[]] Hk1. exists (mkRole c Opened). split; [by apply aside_start|].
    intros s2 u' s2' [[= <- <-]|[]] Hk2. exists (mkRole c Free). split; [|done]. apply (aside_push _ (mkRole c Opened)); [done|].
    intros _. split; [done|]. by apply Hk2.
Qed.
Ltac same := intros; repeat match goal with |- context [match ?x with _ => _ end] => destruct x end; by split_and!.
Ltac quieten := repeat first
  [ apply quiet_ret | apply quiet_get | apply quiet_queue | apply quiet_queues | apply quiet_cancelWithReason | apply quiet_closeStart
  | apply quiet_log; reflexivity | apply quiet_when | apply quiet_do; solve [same] | apply quiet_each; intros ?
  | apply quiet_bind; [|intros ?]
  | match goal with |- quiet (match ?x with _ => _ end) => destruct x end ].

Lemma quiet_handleUnusable p : quiet (handleUnusableProcessor p).
Proof. unfold handleUnusableProcessor. apply quiet_bind; [apply quiet_act; intros s r s' [[= <- <-]|[]]; by split_and!|]. intros []; quieten. Qed.

Lemma quiet_notifyDown f : quiet (notifyReachedDownstream f).
Proof. unfold notifyReachedDownstream. quieten. Qed.
Lemma quiet_notifyUp f : quiet (notifyReachedUpstream f).
Proof. unfold notifyReachedUpstream. quieten. Qed.
Lemma quiet_advance id b : quiet (advanceFlushProbe id b).
Proof. unfold advanceFlushProbe. quieten. Qed.
Lemma quiet_reportProgress : quiet reportFlushProgress.
Proof.
  unfold reportFlushProgress. apply quiet_bind; [apply quiet_act|intros l; quieten].
  intros s r s' Hin. destruct Hin as [E|[]]. destruct (_ || _); injection E as <- <-; by split_and!.
Qed.
Lemma quiet_enterAside f : beside f = true -> quiet (enterAside f).
Proof. intros Hf. apply quiet_act. intros s r s' [[= <- <-]|[[= <- <-]|[]]]; by apply same_emit; [|split_and!]. Qed.
Lemma quiet_source f : quiet (sourcePush f).
Proof.
  unfold sourcePush. apply quiet_bind; [apply quiet_notifyUp|intros _]. destruct f; try by quieten.
  - apply quiet_bind; [by apply quiet_enterAside|intros ?; quieten].
  - apply quiet_bind; [quieten|intros _]. destruct (Fatal e); [quieten|]. destruct (unusableSource e); [apply quiet_handleUnusable|quieten].
Qed.
Lemma quiet_flushRound id : quiet (flushRound id).
Proof.
  unfold flushRound. apply quiet_bind; [quieten|intros seen]. apply quiet_bind.
  - apply quiet_act. intros s r s' Hin. assert (s' = s) as ->; [|by split_and!].
    destruct (probes s !! id) as [p|]; [destruct (Done p)|]; repeat (destruct Hin as [[= <- <-]|Hin]; [done|]); done.
  - intros [r|]; quieten.
Qed.
Lemma quiet_Flush rounds : quiet (Flush rounds).
Proof.
  unfold Flush. apply quiet_bind.
  { apply quiet_act. intros s r s' Hin. assert (s' = s) as ->; [|by split_and!].
    destruct (startSig s); repeat (destruct Hin as [[= <- <-]|Hin]; [done|]); done. }
  intros []; [|quieten]. apply quiet_bind; [quieten|intros c]. apply quiet_bind; [apply quiet_act; intros s r s' [[= <- <-]|[]]; by split_and!|intros id].
  do 2 (apply quiet_bind; [quieten|intros _]). apply quiet_bind; [|intros r; quieten].
  induction rounds as [|n IH]; [quieten|]. cbn [flushWait]. apply quiet_bind; [apply quiet_flushRound|]. intros [r|]; [quieten|exact IH].
Qed.
Lemma quiet_idleRound : quiet idleRound.
Proof.
  unfold idleRound. apply quiet_bind.
  { apply quiet_act. intros s r s' Hin. destruct (idleSig s); cbn in Hin; repeat (destruct Hin as [[= <- <-]|Hin]; [by split_and!|]); done. }
  intros []; [|quieten]. cbn [negb]. apply quiet_bind; [|intros on; quieten]. unfold idleTimeoutReached.
  apply quiet_bind; [quieten|intros []; [quieten|]]. apply quiet_bind; [quieten|intros _]. apply quiet_bind; [quieten|intros c]. quieten.
Qed.
Lemma quiet_heartbeatRound : quiet heartbeatRound.
Proof.
  unfold heartbeatRound. apply quiet_bind; [|intros r; quieten]. apply quiet_act. intros s r s' Hin.
  destruct (heartbeats s); destruct Hin as [[= <- <-]|[]]; by split_and!.
Qed.

(** A frame reaching the end. *)
Lemma plays_sink f v : owes v = Free -> closes v = isCancel f -> plays (sinkPush f) (fun _ v' => owes v' = Free) v.
Proof.
  destruct v as [c o]. intros Ho Hc. cbn in Ho, Hc. subst o c. unfold sinkPush. eapply takes_seq; [apply quiet_notifyDown|]. intros _ v ->.
  eapply takes_seq; [apply quiet_when, quiet_bind; [quieten|intros _; apply quiet_reportProgress]|]. intros _ v ->.
  assert (forall {A} (p : prog A) c, quiet p -> plays p (fun _ v' => owes v' = Free) (mkRole c Free)) as Hq.
  { intros A p c Hp. eapply takes_mono; [apply Hp|]. by intros a v ->. }
  destruct f; cbn [workerFrameEcho isCancel]; try (apply Hq; by quieten).
  - intros s u s' [[= <- <-]|[]] Hk. exists (mkRole true Free). split; [by apply (aside_finish _ (mkRole false Free))|].
    intros s1 u' s1' [[= <- <-]|[]] Hk1. exists (mkRole true Free). split; [by apply aside_close|done].
  - intros s u s' [[= <- <-]|[]] Hk. exists (mkRole true Free). split; [by apply (aside_finish _ (mkRole false Free))|].
    intros s1 u' s1' [[= <- <-]|[]] Hk1. exists (mkRole true Free). split; [by apply aside_close|done].
  - intros s1 u' s1' [[= <- <-]|[]] Hk1. exists (mkRole true Free). split; [by apply aside_close|done].
Qed.
(** The role a call starts in. *)
Definition roleOf (c : call) : role := mkRole (match c with ReachSink f => isCancel f | _ => false end) Free.
Lemma plays_start c : plays (start c) (fun _ v' => owes v' = Free) (roleOf c).
Proof.
  assert (forall p : prog unit, quiet p -> plays p (fun _ v' => owes v' = Free) (mkRole false Free)) as Hq.
  { intros p Hp. eapply takes_mono; [apply Hp|]. by intros a v ->. }
  destruct c as [f|f|fs|r| |n|n|id|id|t a|r|[] [] f| | | |m f]; try (apply Hq; cbn [start]; by quieten).
  - by apply plays_sink.
  - apply Hq, quiet_source.
  - apply Hq, quiet_bind; [apply quiet_Flush|intros; quieten].
  - apply Hq, quiet_bind; [quieten|]. intros []; [|quieten]. apply quiet_bind; [quieten|]. intros []; [quieten|]. apply quiet_bind; [apply quiet_Flush|intros; quieten].
  - apply Hq. cbn [start]. apply quiet_bind; [quieten|intros t]. apply quiet_bind; [by apply quiet_enterAside|intros; quieten].
  - apply Hq, quiet_heartbeatRound.
  - apply Hq, quiet_idleRound.
Qed.

(** ** The run

    What it has put into the pipeline and taken off the queue, whether the end has been
    reported, its context is over, and it cancels for that. *)
Record course := mkCourse { E : list frame; T : list frame; F : bool; X : bool; C : bool }.
Definition nonend (f : frame) : bool := negb (isPipelineEnd f).
(** The StartFrame, the first metrics, what was taken off the queue, at most its last an
    end and at most its last refused, and what cancels the run its caller gave up. *)
Definition shape (e t : list frame) : Prop := exists h m u x tail,
  e = h ++ m ++ u ++ tail /\ t = u ++ x /\ (h = [StartFrame] \/ h = [] /\ m = [] /\ t = [])
  /\ (m = [] \/ m = [MetricsFrame]) /\ (x = [] \/ exists f, x = [f]) /\ (tail = [] \/ exists r, tail = [CancelFrame r])
  /\ Forall (fun f => nonend f = true) (List.removelast t).
Record at_ (v : course) (s : W) : Prop := {
  at_entered : entered s = E v;
  at_took : took s = T v;
  at_finish : F v = true -> finishOnce s = true;
  at_ctx : X v = true -> ctxDone s = true;
  at_shape : shape (E v) (T v)
}.
Definition seen (v : course) (s : W) : Prop := inv s /\ at_ v s.
Record ahead (v : course) (s s' : W) (v' : course) : Prop := {
  h_inv : inv s';
  h_at : at_ v' s';
  h_grows : grows s s';
  h_cancel : canceling s' = true -> canceling s = true \/ C v' = true;
  h_canceling : C v = true -> C v' = true
}.
(** Where it may wait: for the next frame, or for an EndFrame or a StopFrame to arrive. *)
Definition ending (v : course) : Prop := C v = false /\ exists f t, T v = t ++ [f] /\ isPipelineEnd f = true /\ isCancel f = false.
Definition may (v : course) (s : W) : Prop := ending v \/ pushQueue s = [] /\ C v = false /\ Forall (fun f => nonend f = true) (T v).
Abbreviation runs p P v := (goes seen ahead may p P v).

Lemma ahead_same v s s' v' : seen v s -> same s s' -> E v' = E v -> T v' = T v -> (F v' = true -> F v = true) -> (X v' = true -> X v = true \/ ctxDone s = true) ->
  C v' = C v -> ahead v s s' v'.
Proof.
  intros [[I1 I2 I3 I4] [A1 A2 A3 A4 A5]] (E1 & E2 & E3 & E4 & E5 & E6 & E7 & E8 & E9 & E10 & E11) H1 H2 H3 H4 H5. split.
  - split; [by rewrite E10, E1|by rewrite E2, E1, E9|by rewrite E7, E8, E6|auto].
  - split; [by rewrite E9, H1|by rewrite E8, H2|rewrite E1; auto|rewrite E5; intros [?|?]%H4; auto|by rewrite H1, H2].
  - split; rewrite ?E1, ?E3, ?E4, ?E5, ?E7, ?E9; try done; exists []; by rewrite app_nil_r.
  - rewrite E4. by left.
  - by rewrite H5.
Qed.
Lemma runs_act {A B} (f : W -> list (A * W)) (k : A -> prog B) P v :
  (forall s, f s <> []) -> (forall s r s', In (r, s') (f s) -> same s s') -> (forall r, runs (k r) P v) -> runs (bind (Act f Ret) k) P v.
Proof.
  intros Hne Hs Hk. split; [by intros s _ ?%Hne|]. intros s r s' Hin Hv. exists v. split; [|apply Hk]. apply ahead_same; auto. by eapply Hs.
Qed.
Lemma runs_get {A B} (f : W -> A) (k : A -> prog B) P v : (forall a, runs (k a) P v) -> runs (bind (get f) k) P v.
Proof. apply runs_act; [done|]. intros s r s' [[= <- <-]|[]]. by split_and!. Qed.
Lemma runs_do {B} (f : W -> W) (k : unit -> prog B) P v : (forall s, same s (f s)) -> runs (k tt) P v -> runs (bind (do_ f) k) P v.
Proof. intros Hf Hk. apply runs_act; [done| |by intros []]. intros s r s' [[= <- <-]|[]]. apply Hf. Qed.
Lemma runs_log {B} e (k : unit -> prog B) P v : plain e = true -> runs (k tt) P v -> runs (bind (log_ e) k) P v.
Proof. intros He. apply runs_do. intros s. apply same_emit; [done|by split_and!]. Qed.
Lemma runs_when {B} (b : bool) p (k : unit -> prog B) P v : runs (bind p k) P v -> runs (k tt) P v -> runs (bind (when b p) k) P v.
Proof. by destruct b. Qed.

(** A frame into the pipeline. *)
Lemma ahead_enter f v s : seen v s -> shape (E v ++ [f]) (T v) -> ahead v s (emit (Entered f) s) (mkCourse (E v ++ [f]) (T v) (F v) (X v) (C v)).
Proof.
  intros [[I1 I2 I3 I4] [A1 A2 A3 A4 A5]] Hsh.
  assert (entered (emit (Entered f) s) = entered s ++ [f]) as Ee by apply entered_emit.
  assert (took (emit (Entered f) s) = took s) as Et by (rewrite took_emit; apply app_nil_r).
  assert (queued (emit (Entered f) s) = queued s) as Eq by (rewrite queued_emit; apply app_nil_r).
  assert (finishings (emit (Entered f) s) = finishings s) as En by (rewrite finishings_emit; apply app_nil_r).
  split; [split|split| |by left|done].
  - by rewrite En.
  - rewrite Ee. intros [?|?]%I2; [by left|]. right. apply has_app. by left.
  - by rewrite Eq, Et.
  - by apply sentOk_emit.
  - by rewrite Ee, A1.
  - by rewrite Et.
  - exact A3.
  - exact A4.
  - done.
  - split; try done; [rewrite Eq; exists []; by rewrite app_nil_r|rewrite Ee; eauto].
Qed.
Lemma runs_enter {B} f (k : bool -> prog B) P v : shape (E v ++ [f]) (T v) ->
  runs (k true) P (mkCourse (E v ++ [f]) (T v) (F v) (X v) (C v)) -> runs (k false) P v -> runs (bind (enter f) k) P v.
Proof.
  intros Hsh Ht Hf. split; [done|]. intros s r s' Hin Hv. destruct Hin as [[= <- <-]|[[= <- <-]|[]]].
  - eexists. split; [by apply ahead_enter|done].
  - exists v. split; [|done]. apply ahead_same; auto. by split_and!.
Qed.
(** The end reported. *)
Lemma runs_finish {B} f (k : unit -> prog B) P v : runs (k tt) P (mkCourse (E v) (T v) true (X v) (C v)) -> runs (bind (callPipelineFinished f) k) P v.
Proof.
  intros Hk. split; [done|]. intros s r s' [[= <- <-]|[]] [HI [A1 A2 A3 A4 A5]]. eexists. split; [|done].
  destruct (aside_finish f (mkRole false Free) s) as [B1 [B2 _] B3 B4 B5 B6 B7]; [by split|].
  split; [done| |done|by intros [?|?]%B6; [left|]|done]. split; cbn.
  - etrans; [exact B4|exact A1].
  - etrans; [exact B5|exact A2].
  - intros _. by destruct (finishOnce s) eqn:Ef.
  - intros Hx. apply B3. auto.
  - done.
Qed.

Lemma no_cancel h m t f : (h = [StartFrame] \/ h = []) -> (m = [] \/ m = [MetricsFrame]) -> Forall (fun f => nonend f = true) t -> isCancel f = false ->
  ~ has isCancel (h ++ m ++ t ++ [f]).
Proof.
  intros Hh Hm Ht Hf (g & Hin & Hg). rewrite !elem_of_app, list_elem_of_singleton in Hin.
  destruct Hin as [Hin|[Hin|[Hin| ->]]]; [| | |congruence].
  - destruct Hh as [-> | ->]; [|by apply not_elem_of_nil in Hin]. by apply list_elem_of_singleton in Hin as ->.
  - destruct Hm as [-> | ->]; [by apply not_elem_of_nil in Hin|]. by apply list_elem_of_singleton in Hin as ->.
  - rewrite Forall_forall in Ht. specialize (Ht g Hin). by destruct g.
Qed.

(** Waiting for an end to arrive. *)
Lemma runs_waitPipelineEnd bounded f v P :
  (isCancel f = false -> bounded = true /\ ending v /\ ~ has isCancel (E v)) ->
  P true (mkCourse (E v) (T v) true (X v) (C v)) ->
  (bounded = true -> forall F', P false (mkCourse (E v) (T v) F' true (C v))) ->
  runs (waitPipelineEnd bounded f) P v.
Proof.
  intros Hend Ht Hf. unfold waitPipelineEnd. destruct (isCancel f) eqn:Ec; cbn [negb].
  - apply runs_do; [intros s; split_and!; try done; by intros [_ ?]|].
    assert (forall b v', E v' = E v -> T v' = T v -> C v' = C v -> (b = true -> X v' = X v) -> (b = false -> bounded = true /\ X v' = true) -> runs (callPipelineFinished f ;;; Ret b) P v') as Hret.
    { intros b v' E1 E2 E3 E4 E5. apply runs_finish. cbn. rewrite E1, E2, E3. destruct b; [by rewrite E4|]. destruct (E5 eq_refl) as [Hb ->]. by apply Hf. }
    split; [intros s _; by destruct (endSig s)|]. intros s r s' Hin Hv. rewrite !in_app_iff in Hin.
    destruct Hin as [Hin|[Hin|Hin]].
    + destruct (endSig s); [|done]. destruct Hin as [[= <- <-]|[]]. exists v. split; [apply ahead_same; auto; by split_and!|]. by apply Hret.
    + destruct Hin as [[= <- <-]|[]]. exists v. split; [apply ahead_same; auto; by split_and!|]. apply runs_log; [done|]. by apply Hret.
    + destruct (bounded && ctxDone s) eqn:Eb; [|done]. destruct Hin as [[= <- <-]|[]]. apply andb_prop in Eb as [Hb Hx].
      exists (mkCourse (E v) (T v) (F v) true (C v)). split; [apply ahead_same; auto; by split_and!|]. by apply Hret.
  - destruct (Hend eq_refl) as (-> & He & Hno). split; [by left|]. intros s r s' Hin [HI Hat]. rewrite in_app_iff in Hin. destruct Hin as [Hin|Hin].
    + destruct (endSig s) eqn:Es; [|done]. destruct Hin as [[= <- <-]|[]]. exists (mkCourse (E v) (T v) true (X v) (C v)). split; [|exact Ht].
      assert (finishOnce s = true) as Hfin.
      { destruct (i_end s HI Es) as [|Hc]; [done|]. rewrite (at_entered v s Hat) in Hc. done. }
      destruct Hat as [A1 A2 A3 A4 A5]. split; [done| |apply grows_refl|by left|done]. by split.
    + destruct (ctxDone s) eqn:Ex; [|done]. destruct Hin as [[= <- <-]|[]]. exists (mkCourse (E v) (T v) (F v) true (C v)).
      split; [apply ahead_same; auto; by split_and!|by apply Hf].
Qed.

(** The queue drained. *)
Definition drained (fuel : nat) (v : course) (r : option (option frame * option runError)) (v' : course) : Prop :=
  match r with
  | None => length (T v') = (length (T v) + fuel)%nat
  | Some (ef, err) =>
    C v' = false /\ (err = Some ContextError -> X v' = true) /\ (err = None -> F v' = true)
    /\ exists h m u x, E v' = h ++ m ++ u /\ T v' = u ++ x /\ (h = [StartFrame] \/ h = [] /\ m = [] /\ T v' = []) /\ (m = [] \/ m = [MetricsFrame])
       /\ (x = [] \/ exists f, x = [f]) /\ Forall (fun f => nonend f = true) (List.removelast (T v'))
  end.
Lemma removelast_Forall {A} (P : A -> Prop) l : Forall P l -> Forall P (List.removelast l).
Proof. induction 1 as [|a [|b l] Ha Hl IH]; [constructor|constructor|]. cbn [List.removelast] in *. by constructor. Qed.
Lemma runs_drain fuel : forall v m, E v = [StartFrame] ++ m ++ T v -> (m = [] \/ m = [MetricsFrame]) -> Forall (fun f => nonend f = true) (T v) -> C v = false ->
  runs (drain fuel) (drained fuel v) v.
Proof.
  induction fuel as [|fuel IH]; intros v m HE Hm HT HC; cbn [drain]; [by cbn; lia|].
  assert (forall f, List.removelast (T v ++ [f]) = T v) as Hrl by (intros f; apply List.removelast_last).
  split.
  { intros s _ Hs. destruct (pushQueue s) eqn:Eq; [|done]. right. by split_and!. }
  intros s r s' Hin Hv. destruct (pushQueue s) as [|f rest] eqn:Eq.
  - destruct (ctxDone s) eqn:Ex; [|done]. destruct Hin as [[= <- <-]|[]]. exists (mkCourse (E v) (T v) (F v) true (C v)).
    split; [apply ahead_same; auto; by split_and!|]. cbn. split_and!; try done. exists [StartFrame], m, (T v), []. rewrite app_nil_r.
    split_and!; [exact HE|done|by left|done|by left|by apply removelast_Forall].
  - destruct Hin as [[= <- <-]|[]]. exists (mkCourse (E v) (T v ++ [f]) (F v) (X v) (C v)). split.
    { destruct Hv as [[I1 I2 I3 I4] [A1 A2 A3 A4 A5]]. pose (s1 := s <| pushQueue := rest |>).
      assert (entered (emit (Took f) s1) = entered s) as Ee by (rewrite entered_emit; apply app_nil_r).
      assert (took (emit (Took f) s1) = took s ++ [f]) as Et by exact (took_emit (Took f) s1).
      assert (queued (emit (Took f) s1) = queued s) as Eqd by (rewrite queued_emit; apply app_nil_r).
      assert (finishings (emit (Took f) s1) = finishings s) as En by (rewrite finishings_emit; apply app_nil_r).
      change (ahead v s (emit (Took f) s1) (mkCourse (E v) (T v ++ [f]) (F v) (X v) (C v))).
      split; [split|split| |by left|done].
      - rewrite En. exact I1.
      - rewrite Ee. exact I2.
      - rewrite Eqd, Et, I3, Eq, <- app_assoc. done.
      - by apply sentOk_emit.
      - by rewrite Ee.
      - by rewrite Et, A2.
      - exact A3.
      - exact A4.
      - cbn. exists [StartFrame], m, (T v), [f], []. rewrite Hrl, app_nil_r. split_and!; eauto.
      - split; try done; [rewrite Eqd; exists []; by rewrite app_nil_r|rewrite Ee; exists []; by rewrite app_nil_r]. }
    assert (E v ++ [f] = [StartFrame] ++ m ++ (T v ++ [f])) as HE' by (rewrite HE, <- !app_assoc; done).
    apply runs_enter; cbn [E T F X C].
    + exists [StartFrame], m, (T v ++ [f]), [], []. rewrite Hrl, !app_nil_r. split_and!; auto.
    + cbn [negb]. destruct (isPipelineEnd f) eqn:Ef.
      * assert (forall b F' X', (b = true -> F' = true) -> (b = false -> X' = true) ->
          drained (S fuel) v (Some (Some f, if b : bool then None else Some ContextError)) (mkCourse (E v ++ [f]) (T v ++ [f]) F' X' (C v))) as Hd.
        { intros b F' X' HF HX. cbn. split_and!; [done|by destruct b; auto|by destruct b; auto|].
          exists [StartFrame], m, (T v ++ [f]), []. rewrite Hrl, app_nil_r. split_and!; auto. }
        eapply goes_seq; [apply (runs_waitPipelineEnd true f _ (fun b v' => drained (S fuel) v (Some (Some f, if b : bool then None else Some ContextError)) v'))|].
        -- intros Hc. split_and!; [done|split; [done|by exists f, (T v)]|]. cbn [E]. rewrite HE'. apply no_cancel; auto.
        -- exact (Hd true true (X v) (fun _ => eq_refl) (fun H => False_ind _ (Bool.diff_true_false H))).
        -- intros _ F'. exact (Hd false F' true (fun H => False_ind _ (Bool.diff_false_true H)) (fun _ => eq_refl)).
        -- intros b v' Hb. exact Hb.
      * eapply goes_mono; [apply (IH (mkCourse (E v ++ [f]) (T v ++ [f]) (F v) (X v) (C v)) m); cbn; auto|].
        -- apply Forall_app. split; [done|]. constructor; [|done]. unfold nonend. by rewrite Ef.
        -- intros r v'. unfold drained. cbn. rewrite length_app. destruct r as [[ef err]|]; [done|]. cbn. lia.
    + cbn [negb]. split_and!; try done. exists [StartFrame], m, (T v), [f]. cbn. rewrite Hrl. split_and!; eauto.
Qed.

(** What the loop has made of the run, when it is over. *)
Definition looped (fuel : nat) (r : option (option frame * option runError)) (v' : course) : Prop :=
  match r with
  | None => length (T v') = fuel
  | Some (ef, err) =>
    C v' = false /\ (err = Some ContextError -> X v' = true) /\ (err = None -> F v' = true \/ ef = Some StartFrame)
    /\ exists h m u x, E v' = h ++ m ++ u /\ T v' = u ++ x /\ (h = [StartFrame] \/ h = [] /\ m = [] /\ T v' = []) /\ (m = [] \/ m = [MetricsFrame])
       /\ (x = [] \/ exists f, x = [f]) /\ Forall (fun f => nonend f = true) (List.removelast (T v'))
  end.
Lemma drained_looped fuel v r v' : T v = [] -> drained fuel v r v' -> looped fuel r v'.
Proof. intros HT. destruct r as [[ef err]|]; cbn; [|by rewrite HT]. intros (H1 & H2 & H3 & H4). split_and!; auto. Qed.

Definition fresh (e : list frame) (x : bool) : course := mkCourse e [] false x false.
Lemma looped_started fuel m ef err f x : (m = [] \/ m = [MetricsFrame]) -> (err = Some ContextError -> x = true) -> (err = None -> f = true \/ ef = Some StartFrame) ->
  looped fuel (Some (ef, err)) (mkCourse (StartFrame :: m) [] f x false).
Proof. intros Hm Hx Hf. cbn. split_and!; try done. exists [StartFrame], m, [], []. rewrite app_nil_r. split_and!; auto. Qed.
Lemma runs_metrics fuel (b : bool) :
  runs (let! ok := (if b then enter MetricsFrame else Ret true) in if negb ok then Ret (Some (None, Some QueueError)) else drain fuel)
    (looped fuel) (fresh [StartFrame] false).
Proof.
  assert (forall m, m = [] \/ m = [MetricsFrame] -> runs (drain fuel) (looped fuel) (fresh (StartFrame :: m) false)) as Hd.
  { intros m Hm. eapply goes_mono; [apply (runs_drain fuel _ m); cbn; [by rewrite app_nil_r|done..]|]. intros r v'. by apply drained_looped. }
  destruct b; [|by apply (Hd []); left]. apply runs_enter; cbn [E T F X C fresh app negb].
  - exists [StartFrame], [MetricsFrame], [], [], []. by split_and!; auto.
  - by apply (Hd [MetricsFrame]); right.
  - apply (looped_started fuel []); auto; done.
Qed.
Lemma runs_runLoop fuel : runs (runLoop fuel) (looped fuel) (fresh [] false).
Proof.
  unfold runLoop. apply runs_get. intros c.
  assert (runs (let! ok := enter StartFrame in
    if negb ok then Ret (Some (None, Some QueueError))
    else
      let! st := Act (fun s => (if startSig s then [(CameUp, s)] else []) ++ [(StartTimedOut, s)] ++ (if ctxDone s then [(StartCanceled, s)] else [])) Ret in
      match st with
      | StartTimedOut => Call (PipelineTimeout StartFrame) ;;; Ret (Some (Some StartFrame, None))
      | StartCanceled => Ret (Some (None, Some ContextError))
      | CameUp =>
        let! ok := (if EnableMetrics c && boolOrTrue (SendInitialEmptyMetrics c) then enter MetricsFrame else Ret true) in
        if negb ok then Ret (Some (None, Some QueueError)) else drain fuel
      end) (looped fuel) (fresh [] false)) as Hgo.
  { apply runs_enter; cbn [E T F X C fresh app negb].
    - exists [StartFrame], [], [], [], []. by split_and!; auto.
    - split; [intros s _; by destruct (startSig s)|]. intros s r s' Hin Hv. rewrite in_app_iff in Hin. destruct Hin as [Hin|[E|Hin]].
      + destruct (startSig s); [|done]. destruct Hin as [[= <- <-]|[]]. exists (fresh [StartFrame] false).
        split; [apply ahead_same; auto; by split_and!|]. apply runs_metrics.
      + injection E as <- <-. exists (fresh [StartFrame] false). split; [apply ahead_same; auto; by split_and!|].
        apply runs_log; [done|]. apply (looped_started fuel []); auto; done.
      + destruct (ctxDone s) eqn:Ex; [|done]. destruct Hin as [[= <- <-]|[]]. exists (fresh [StartFrame] true).
        split; [apply ahead_same; auto; by split_and!|]. apply (looped_started fuel []); auto; done.
    - cbn. split_and!; try done. exists [], [], [], []. by split_and!; auto. }
  apply runs_when; [apply runs_do; [intros s; by split_and!|]|]; exact Hgo.
Qed.

(** A run its caller gave up. *)
Lemma runs_cancelOnContextEnd v : C v = false ->
  (exists h m u x, E v = h ++ m ++ u /\ T v = u ++ x /\ (h = [StartFrame] \/ h = [] /\ m = [] /\ T v = []) /\ (m = [] \/ m = [MetricsFrame])
       /\ (x = [] \/ exists f, x = [f]) /\ Forall (fun f => nonend f = true) (List.removelast (T v))) ->
  runs cancelOnContextEnd (fun _ v' => F v' = true) v.
Proof.
  intros HC (h & m & u & x & HE & HT & Hh & Hm & Hx & Hn). unfold cancelOnContextEnd. split; [done|].
  intros s r s' Hin Hv. destruct Hin as [[= <- <-]|[]]. exists (mkCourse (E v) (T v) (F v) (X v) true). split.
  { destruct Hv as [[I1 I2 I3 I4] [A1 A2 A3 A4 A5]]. split; [by split|by split| |by right|done]. split; try done; exists []; by rewrite app_nil_r. }
  cbn [Prog.bind fst snd]. pose proof (i_sent s (proj1 Hv)) as Hsent. destruct Hsent as [Hsent _]. destruct (cancelFrame s) as [f|].
  - eapply goes_seq; [apply (runs_waitPipelineEnd false f _ (fun _ v' => F v' = true)); cbn; [congruence|done|done]|]. by intros b v' Hb.
  - apply runs_enter; cbn [E T F X C].
    + exists h, m, u, x, [CancelFrame (match cancelReason s with [] => bytes_of "context canceled" | r => r end)].
      split_and!; eauto. rewrite HE, <- !app_assoc. done.
    + eapply goes_seq; [apply (runs_waitPipelineEnd false _ _ (fun _ v' => F v' = true)); cbn; done|]. by intros b v' Hb.
    + by apply runs_finish.
Qed.

Definition ran (fuel : nat) (r : option runOutcome) (v' : course) : Prop :=
  match r with
  | None => length (T v') = fuel
  | Some (Ran ef err) => F v' = true \/ err = Some QueueError \/ ef = Some StartFrame
  | Some _ => True
  end.
Lemma runs_Run fuel : runs (Run fuel) (ran fuel) (fresh [] false).
Proof.
  unfold Run. apply runs_get. intros []; [done|]. unfold setupWithinTimeout.
  eapply goes_seq with (P' := fun _ v' => v' = fresh [] false).
  { apply runs_act; [done| |].
    - intros s r s' Hin. repeat (destruct Hin as [[= <- <-]|Hin]; [by split_and!|]); done.
    - intros []; [done|done|]. by apply runs_log. }
  intros up v ->. destruct up; [|done|].
  2: { apply runs_log; [done|]. apply runs_do; [intros s; by split_and!|done]. }
  apply runs_do; [intros s; by split_and!|]. eapply goes_seq; [apply runs_runLoop|].
  intros r v Hr. destruct r as [[ef err]|]; [|done]. destruct Hr as (HC & HX & HF & Hsh).
  assert (forall ef v', ran fuel (Some (Ran ef err)) v' -> runs
    (do_ (fun s => s <| monitorsOpen := false |> <| idleLooping := false |>) ;;;
     when (match ef with Some StopFrame => false | _ => true end) (log_ CleanedUp) ;;;
     setFinished ;;; Ret (Some (Ran ef err))) (ran fuel) v') as Htail.
  { intros ef' v' Hr. apply runs_do; [intros s; by split_and!|].
    apply runs_when; [apply runs_log; [done|]|]; (apply runs_do; [intros s; by split_and!|exact Hr]). }
  apply goes_get; [intros s Hs; apply ahead_same; auto; by split_and!|]. intros s [_ Hat].
  destruct err as [[]|]; [| |apply Htail; destruct (HF eq_refl); cbn; auto].
  - rewrite (at_ctx v s Hat (HX eq_refl)). eapply goes_seq; [by apply runs_cancelOnContextEnd|]. intros ef' v' Hf. apply Htail. by left.
  - destruct (ctxDone s); [eapply goes_seq; [by apply runs_cancelOnContextEnd|]; intros ef' v' Hf|]; apply Htail; cbn; auto.
Qed.

(** ** Every run *)

Definition playing (s : W) (p : prog unit) (v : role) : Prop := plays p (fun _ v' => owes v' = Free) v /\ holds v s.
Record sound (fuel : nat) (y : Sys) : Prop := {
  so_parts : exists v vs, runs (main y) (ran fuel) v /\ seen v (w y) /\ Forall2 (playing (w y)) (others y) vs
    /\ (canceling (w y) = true -> Exists (fun v => owes v <> Free) vs \/ canceled (w y) \/ C v = true)
}.

Lemma canceled_grows s s' : grows s s' -> canceled s -> canceled s'.
Proof. intros [_ G2 _ _ [tr G5] _] [H1 H2]. split; [auto|]. rewrite G5. apply has_app. by left. Qed.
Lemma playing_grows s s' ps vs : grows s s' -> Forall2 (playing s) ps vs -> Forall2 (playing s') ps vs.
Proof. intros Hg H. eapply Forall2_impl; [exact H|]. intros p v [H1 H2]. split; [done|by eapply holds_grows]. Qed.
Lemma Exists_insert_ne {A} (P : A -> Prop) (l : list A) i x y : l !! i = Some x -> Exists P l -> (P x -> P y) -> Exists P (<[i := y]> l).
Proof.
  intros Hi He Hxy. apply Exists_exists in He as (z & Hz & HP). apply list_elem_of_lookup in Hz as [j Hj]. apply Exists_exists.
  destruct (decide (i = j)) as [->|Hne].
  - simplify_eq. exists y. split; [|auto]. apply list_elem_of_lookup. exists j. apply list_lookup_insert_eq. by eapply lookup_lt_Some.
  - exists z. split; [|done]. apply list_elem_of_lookup. exists j. by rewrite list_lookup_insert_ne.
Qed.

Lemma worker_step fuel c y y' : sound fuel y -> step c y = Some y' -> sound fuel y'.
Proof.
  intros [(v & vs & Hm & [HI Hat] & Ho & Hc)]. destruct c as [n|i n|c| |d]; cbn [step].
  - destruct (main y) as [r|R f k|q k] eqn:Em; [done| |done]. cbn [runNth]. destruct (List.nth_error (f (w y)) n) as [[r s]|] eqn:E; [|done].
    intros [= <-]. destruct Hm as [_ Hm]. destruct (Hm (w y) r s) as (v' & [A1 A2 A3 A4 A5] & Hk); [by eapply List.nth_error_In|done|].
    split. exists v', vs. split_and!; [done|done|by eapply playing_grows|]. cbn. intros [Hcs|Hv']%A4; [|by right; right].
    destruct (Hc Hcs) as [?|[?|?]]; [by left|right; left; by eapply canceled_grows|right; right; auto].
  - destruct (others y !! i) as [p|] eqn:Ei; [|done]. cbn [mbind option_bind].
    destruct (Forall2_lookup_l _ _ _ _ _ Ho Ei) as (u & Eu & [Hp Hh]). destruct p as [r|R f k|q k]; [done| |done]. cbn [runNth].
    destruct (List.nth_error (f (w y)) n) as [[r s]|] eqn:E; [|done]. intros [= <-].
    destruct (Hp (w y) r s) as (u' & [A1 A2 A3 A4 A5 A6 A7] & Hk); [by eapply List.nth_error_In|by split|].
    split. exists v, (<[i := u']> vs). destruct Hat as [B1 B2 B3 B4 B5]. split_and!; [done|split; [done|]| |].
    + destruct A3. split; cbn [w]; [by etrans; [exact A4|exact B1]|by etrans; [exact A5|exact B2]|auto|auto|done].
    + apply Forall2_insert; [by eapply playing_grows|]. by split.
    + cbn. intros Hcs. destruct (A6 Hcs) as [Hcs'|Hu'].
      * destruct (Hc Hcs') as [He|[?|?]]; [|right; left; by eapply canceled_grows|by right; right].
        destruct (owes u') eqn:Eu'; [|left; eapply Exists_insert_ne; [done|done|by rewrite Eu']..].
        destruct (owes u) eqn:Ef; [|right; left; by apply A7..].
        left. eapply Exists_insert_ne; [done|done|by rewrite Ef].
      * left. apply Exists_exists. exists u'. split; [|done]. apply list_elem_of_lookup. exists i. apply list_lookup_insert_eq. by eapply lookup_lt_Some.
  - destruct (mayCall c (w y)) eqn:Ec; [|done]. intros [= <-]. split. exists v, (vs ++ [roleOf c]). split_and!; [done|by split| |].
    + apply Forall2_app; [done|]. constructor; [|constructor]. split; [apply plays_start|]. split_and!; [|by cbn..]. cbn. intros Hcl. right.
      destruct c as [f| | | | | | | | | | | | | | |]; try done. exists f. split; [|done]. cbn in Ec.
      assert (lifecycle f = true) as Hl by by destruct f. rewrite Hl in Ec. by apply bool_decide_eq_true in Ec.
    + cbn. intros Hcs. destruct (Hc Hcs) as [He|[?|?]]; auto. left. apply Exists_app. by left.
  - intros [= <-]. assert (grows (w y) ((w y) <| ctxDone := true |>)) as Hg by (split; try done; exists []; by rewrite app_nil_r).
    split. exists v, vs. split_and!; [done|split; [by destruct HI|destruct Hat; by split]|by eapply playing_grows|exact Hc].
  - intros [= <-]. assert (grows (w y) ((w y) <| now ::= fun t => t + Z.of_nat d |>)) as Hg by (split; try done; exists []; by rewrite app_nil_r).
    split. exists v, vs. split_and!; [done|split; [by destruct HI|destruct Hat; by split]|by eapply playing_grows|exact Hc].
Qed.
Lemma worker_exec fuel cs : forall y y', sound fuel y -> exec cs y = Some y' -> sound fuel y'.
Proof.
  induction cs as [|c cs IH]; intros y y' Hs; [by intros [= <-]|]. cbn [exec]. destruct (step c y) as [y1|] eqn:E; [|done].
  apply IH. by eapply worker_step.
Qed.
Lemma worker_boot fuel c : sound fuel (boot fuel c).
Proof.
  split. exists (fresh [] false), []. split_and!; [apply runs_Run|split; [by split|]|constructor|done].
  split; try done. exists [], [], [], [], []. by split_and!; auto.
Qed.

(** One that is over owes nothing. *)
Lemma no_debt s ps vs u : Forall2 (playing s) ps vs -> forallb idle ps = true -> u ∈ vs -> owes u = Free.
Proof.
  induction 1 as [|p v ps vs [Hp _] _ IH]; cbn; [by intros _ ?%not_elem_of_nil|]. intros [Hi Hr]%andb_prop [->|Hin]%elem_of_cons; [|auto].
  by destruct p.
Qed.

(** Whatever goes on beside it, a run reports that it is over at most once; and when it
    returns it has, unless the pipeline refused a frame with the caller still there, or
    never came up. *)
Theorem finish_reported_once fuel c cs y : exec cs (boot fuel c) = Some y ->
  (length (finishings (w y)) <= 1)%nat
  /\ forall ef err, main y = Ret (Some (Ran ef err)) -> length (finishings (w y)) = 1%nat \/ err = Some QueueError \/ ef = Some StartFrame.
Proof.
  intros H. pose proof (worker_exec fuel cs _ _ (worker_boot fuel c) H) as [(v & vs & Hm & [HI Hat] & _ & _)].
  split; [rewrite (i_once _ HI); destruct (finishOnce _); lia|]. intros ef err Em. rewrite Em in Hm.
  destruct Hm as [HF|?]; [|auto]. left. by rewrite (i_once _ HI), (at_finish _ _ Hat HF).
Qed.


(** A run that is canceled goes on, once whoever canceled it has done so: it never
    waits for anything but a clock, except for an EndFrame or a StopFrame it had already
    put into the pipeline. *)
Theorem canceled_run_goes_on fuel c cs y : exec cs (boot fuel c) = Some y ->
  canceling (w y) = true -> forallb idle (others y) = true ->
  idle (main y) = true \/ is_Some (step (RunMain 0) y)
  \/ exists f t, took (w y) = t ++ [f] /\ isPipelineEnd f = true /\ isCancel f = false.
Proof.
  intros H Hcan Hidle. pose proof (worker_exec fuel cs _ _ (worker_boot fuel c) H) as [(v & vs & Hm & [HI Hat] & Ho & Hc)].
  destruct (main y) as [r|R f k|q k] eqn:Em; [by left| |done]. destruct (f (w y)) as [|[r s] l] eqn:Ef.
  - destruct (proj1 Hm (w y) (conj HI Hat) Ef) as [(_ & g & t & Et & Hg)|(Hq & HC & Hn)].
    { right; right. exists g, t. by rewrite (at_took _ _ Hat). }
    exfalso. destruct (Hc Hcan) as [He|[[_ (g & Hin & Hg)]|?]]; [|..|congruence].
    + eapply Exists_exists in He as (u & Hu & Ho'). apply Ho'. eapply no_debt; eauto.
    + rewrite (i_queue _ HI), Hq, app_nil_r, (at_took _ _ Hat) in Hin. rewrite Forall_forall in Hn. specialize (Hn g Hin). by destruct g.
  - right; left. cbn [step]. rewrite Em. cbn [runNth]. rewrite Ef. cbn. eauto.
Qed.

(** ** Runs *)

Definition plainly : WorkerConfig :=
  mkConfig (bytes_of "main") false None None UnusableContinue false None false None false AnyFrame None.
Abbreviation played cs := (exec cs (boot 4 plainly)).
Definition played_ok (cs : list choice) : bool := match played cs with Some _ => true | None => false end.
Definition playedOut (cs : list choice) : Sys := default (boot 4 plainly) (played cs).
Lemma played_run cs : played_ok cs = true -> played cs = Some (playedOut cs).
Proof. unfold played_ok, playedOut. by destruct (played cs). Qed.
Definition moves (y : Sys) : bool := match main y with Act f _ => match f (w y) with [] => false | _ => true end | _ => false end.
Lemma moves_not y n : moves y = false -> step (RunMain n) y = None.
Proof.
  unfold moves. cbn [step]. destruct (main y) as [r|R f k|q k]; [done| |done]. cbn [runNth]. intros H. destruct (f (w y)); [|done]. by destruct n.
Qed.
Definition reaches (i : nat) (f : frame) (n : nat) : list choice := Begin (ReachSink f) :: List.repeat (RunOther i 0) n.
(** The pipeline comes up, and speaks; then it is told to end. *)
Definition toUp : list choice := List.repeat (RunMain 0) 5 ++ reaches 0 StartFrame 7 ++ [RunMain 0].
Definition toEnding : list choice :=
  toUp ++ [Begin (CallSpeak (bytes_of "bye") true); RunOther 1 0; Begin CallStopWhenDone; RunOther 2 0] ++ List.repeat (RunMain 0) 4.
Definition toOver : list choice := toEnding ++ reaches 3 (EndFrame []) 6 ++ List.repeat (RunMain 0) 5.
(** Then it is canceled, which may be before the end was taken off the queue, or after. *)
Definition toCanceled : list choice := toUp ++ Begin (CallCancel (bytes_of "now")) :: List.repeat (RunOther 1 0) 4.
Definition toTooLate : list choice := toEnding ++ Begin (CallCancel (bytes_of "now")) :: List.repeat (RunOther 3 0) 4.

Lemma finish_reported_once_witness :
  (length (finishings (w (playedOut toOver))) <= 1)%nat
  /\ forall ef err, main (playedOut toOver) = Ret (Some (Ran ef err)) ->
     length (finishings (w (playedOut toOver))) = 1%nat \/ err = Some QueueError \/ ef = Some StartFrame.
Proof. apply (finish_reported_once 4 plainly toOver). apply played_run. vm_compute. reflexivity. Defined.


Lemma canceled_run_goes_on_witness :
  idle (main (playedOut toCanceled)) = true \/ is_Some (step (RunMain 0) (playedOut toCanceled))
  \/ exists f t, took (w (playedOut toCanceled)) = t ++ [f] /\ isPipelineEnd f = true /\ isCancel f = false.
Proof.
  apply (canceled_run_goes_on 4 plainly toCanceled).
  - apply played_run. vm_compute. reflexivity.
  - vm_compute. reflexivity.
  - vm_compute. reflexivity.
Defined.

(** What the runs above come to. *)
Lemma over_as_meant :
  match main (playedOut toOver) with Ret (Some (Ran ef err)) => ef = Some (EndFrame []) /\ err = None | _ => False end
  /\ entered (w (playedOut toOver)) = [StartFrame; TTSSpeakFrame (bytes_of "bye") true; EndFrame []]
  /\ finishings (w (playedOut toOver)) = [EndFrame []].
Proof. vm_compute. by repeat split. Qed.
Lemma canceled_as_meant :
  moves (playedOut toCanceled) = true
  /\ match main (playedOut (toCanceled ++ List.repeat (RunMain 0) 10)) with
     | Ret (Some (Ran ef err)) => ef = Some (CancelFrame (bytes_of "now")) /\ err = None
     | _ => False
     end.
Proof. vm_compute. by repeat split. Qed.

(** Once an EndFrame is on its way nothing takes a CancelFrame off the queue: a run
    canceled then waits for the EndFrame as before, however long it is held up. *)
Lemma cancel_after_end_ignored :
  played toTooLate = Some (playedOut toTooLate) /\ canceling (w (playedOut toTooLate)) = true /\ forallb idle (others (playedOut toTooLate)) = true
  /\ pushQueue (w (playedOut toTooLate)) = [CancelFrame (bytes_of "now")] /\ (CancelFrame (bytes_of "now") ∉ entered (w (playedOut toTooLate)))
  /\ forall n, step (RunMain n) (playedOut toTooLate) = None.
Proof.
  split; [apply played_run; vm_compute; reflexivity|]. split; [vm_compute; reflexivity|]. split; [vm_compute; reflexivity|].
  split; [vm_compute; reflexivity|]. split; [|intros n; apply moves_not; vm_compute; reflexivity].
  apply (bool_decide_eq_false_1 _). vm_compute. reflexivity.
Qed.

(** A pipeline that never came up has its end reported to nobody. *)
Definition toNoStart : list choice := List.repeat (RunMain 0) 5 ++ List.repeat (RunMain 0) 6.
Lemma no_start_not_reported :
  match main (playedOut toNoStart) with Ret (Some (Ran ef err)) => ef = Some StartFrame /\ err = None | _ => False end
  /\ finishings (w (playedOut toNoStart)) = [] /\ CleanedUp ∈ log (w (playedOut toNoStart)).
Proof. vm_compute. repeat split. by repeat constructor. Qed.
End WorkerFacts.
