(* ===== verification/Jobs.v ===== *)
(** * Jobs between workers

    [src/workers/jobs.go] and [src/pipeline/jobcontext/]: the long work one worker asks
    others for.  The requester opens a group ([group.go]), one entry for each worker asked;
    the worker asked runs a handler beside everything else and answers.

    One worker's state, both as requester and as asked, is shared by the goroutines that
    deliver messages (system messages on one, the others on another), by the handlers of
    jobs, by timeouts and by whoever calls: programs of [Prog.v].  What the workers do on
    the other end is open: any message may come at any time.  The same holds of the
    handlers' own code and the worker's hooks: what they may do is call, and a handler
    returns at some time.  Where Go ranges over a map, the order is that of the keys.

    Payloads and responses are texts; [None] is nil.  The texts of reasons are shortened. *)

From S2P Require Import Prelude Text Strings Prog.
Import Prog.

Module Jobs.
Local Open Scope prog_scope.

Inductive JobStatus := JobCompleted | JobCancelled | JobFailed | JobError.
#[export] Instance JobStatus_dec : EqDecision JobStatus. Proof. solve_decision. Defined.

(** ** Messages *)

(** From one worker to another; [urgent] is a message of the system's band. *)
Inductive body :=
| JobRequest (JobID JobName : gostring) (Payload : option gostring)
| JobResponse (urgent : bool) (JobID : gostring) (Status : JobStatus) (Response : option gostring)
| JobUpdate (urgent : bool) (JobID : gostring) (Update : option gostring)
| JobUpdateRequest (JobID : gostring)
| JobCancel (JobID Reason : gostring)
| JobStreamStart (JobID : gostring) (Data : option gostring)
| JobStreamData (JobID : gostring) (Data : option gostring)
| JobStreamEnd (JobID : gostring) (Data : option gostring).
Record message := mkMessage { From : gostring; To : gostring; what : body }.
#[export] Instance body_dec : EqDecision body. Proof. solve_decision. Defined.
#[export] Instance message_dec : EqDecision message. Proof. solve_decision. Defined.

(** ** Groups *)

Inductive reported := EventUpdate | EventStreamStart | EventStreamData | EventStreamEnd.
Record GroupEvent := mkGroupEvent { Type_ : reported; WorkerName : gostring; Data_ : option gostring }.
Definition eventBuffer : nat := 64.
(** How a group ended: well, or cut short for a reason. *)
Inductive outcome := Completed | CutShort (reason : gostring).
#[export] Instance outcome_dec : EqDecision outcome. Proof. solve_decision. Defined.

Record Group := mkGroup {
  JobID_ : gostring;
  WorkerNames : list gostring;
  CancelOnError : bool;
  responses : gmap gostring gostring;
  closed : option outcome;
  events : list GroupEvent;
  timed : bool                        (** [stopTimeout] is set *)
}.
#[export] Instance eta_Group : Eta Group := fun g =>
  mkGroup (JobID_ g) (WorkerNames g) (CancelOnError g) (responses g) (closed g) (events g) (timed g).
Fixpoint once (seen : gset gostring) (l : list gostring) : list gostring :=
  match l with [] => [] | x :: l => if decide (x ∈ seen) then once seen l else x :: once ({[x]} ∪ seen) l end.
Definition NewGroup (jobID : gostring) (workerNames : list gostring) (cancelOnError : bool) : Group :=
  mkGroup jobID (once ∅ workerNames) cancelOnError ∅ None [] false.
Definition SetResponse (source response : gostring) (g : Group) : Group := g <| responses ::= insert source response |>.
Definition Report (e : GroupEvent) (g : Group) : Group :=
  if closed g is Some _ then g else if Nat.ltb (length (events g)) eventBuffer then g <| events ::= fun l => l ++ [e] |> else g.
Definition finish (o : outcome) (g : Group) : Group := if closed g is Some _ then g else g <| closed := Some o |>.
Definition respondedToAll (g : Group) : bool := forallb (fun n => bool_decide (is_Some (responses g !! n))) (WorkerNames g).
Definition orEmpty (r : option gostring) : gostring := default [] r.

(** ** The worker *)

(** A handler under way: its request, and if it takes its turn, what it waits for and
    what it releases; the channels are numbered, and the handlers in the order begun. *)
Record run := mkRun { request : message; rID : gostring; rName : option gostring; rWait : option nat; rRelease : option nat }.

(** What is done, in order. *)
Inductive event :=
| Send (m : message)
| OnJobRequest (m : message)
| OnJobResponse (m : message) | OnJobUpdate (m : message) | OnJobUpdateRequested (m : message) | OnJobCancelled (m : message)
| OnJobStream (m : message)
| OnJobCompleted (g : nat) (rs : gmap gostring gostring) | OnJobError (g : nat) (m : message)
| Opened (g : nat)
| Finished (g : nat) (o : outcome)
| Accepted (m : message)
| Began (r : nat) | Returned (r : nat)
| Stopped.

#[export] Instance event_dec : EqDecision event. Proof. solve_decision. Defined.

Record B := mkB {
  activeJobs : gmap gostring message;
  jobHandlers : gmap gostring nat;
  groups : gmap gostring nat;
  objects : list Group;
  sequential : gmap gostring nat;
  runs : list run;
  releases : gset nat;                (** the closed ones *)
  canceled : gset nat;                (** the handlers whose context is *)
  channels : nat;
  drawn : nat;
  timers : list nat;                  (** the groups timed, the timer still going *)
  log : list event
}.
#[export] Instance eta_B : Eta B := fun b =>
  mkB (activeJobs b) (jobHandlers b) (groups b) (objects b) (sequential b) (runs b) (releases b) (canceled b) (channels b) (drawn b) (timers b) (log b).
Definition New : B := mkB ∅ ∅ ∅ [] ∅ [] ∅ ∅ 0 0 [] [].

Abbreviation prog := (Prog.prog B unit unit).
Definition emit (e : event) (b : B) : B := b <| log ::= fun l => l ++ [e] |>.
Definition log_ (e : event) : prog unit := do_ (emit e).
Definition upd (g : nat) (f : Group -> Group) (b : B) : B := b <| objects ::= alter f g |>.

Section Worker.
(** The worker's name, the handlers it declares and whether they take turns, and
    [uuid.NewString]. *)
Context (name : gostring) (handlers : gmap gostring bool) (NewString : nat -> gostring).

Definition SendBusMessage (to : gostring) (x : body) : prog unit := log_ (Send (mkMessage name to x)).
Definition activeJob (jobID : gostring) : prog (option message) := get (fun b => activeJobs b !! jobID).
Definition forgetActiveJob (jobID : gostring) : prog unit := do_ (fun b => b <| activeJobs ::= delete jobID |>).
Definition groupOf (jobID : gostring) : prog (option nat) := get (fun b => groups b !! jobID).
Definition HasGroup (jobID : gostring) : prog bool := get (fun b => bool_decide (is_Some (groups b !! jobID))).

(** *** Calling off *)

Definition CancelTimeout (g : nat) : prog unit := do_ (upd g (fun x => x <| timed := false |>)).
(** [Complete] and [Fail]; the log has the first of them. *)
Definition finishGroup (g : nat) (o : outcome) : prog unit :=
  do_ (fun b => match objects b !! g with
                | Some x => if closed x is Some _ then b else emit (Finished g o) (upd g (finish o) b)
                | None => b
                end).
Definition workerNames (g : nat) : prog (list gostring) := get (fun b => match objects b !! g with Some x => WorkerNames x | None => [] end).
Definition CancelGroup (jobID reason : gostring) : prog unit :=
  let! g := act (fun b => (groups b !! jobID, b <| groups ::= delete jobID |>)) in
  match g with
  | None => skip
  | Some g =>
    CancelTimeout g ;;;
    let! names := workerNames g in
    each names (fun n => SendBusMessage n (JobCancel jobID reason)) ;;;
    finishGroup g (CutShort reason)
  end.
(** [runningJob.stop]: the wait for the handler is bounded. *)
Definition stopRun (r : nat) : prog unit :=
  do_ (fun b => b <| canceled ::= union {[r]} |>) ;;;
  Act (fun b => [(tt, b)]) Ret.

(** *** Being asked *)

Definition SendJobResponse (jobID : gostring) (response : option gostring) (status : JobStatus) (urgent : bool) : prog bool :=
  let! r := activeJob jobID in
  match r with
  | None => Ret false
  | Some m =>
    SendBusMessage (From m) (JobResponse urgent jobID status response) ;;;
    forgetActiveJob jobID ;;;
    Ret true
  end.
Definition sendAbout (jobID : gostring) (x : body) : prog bool :=
  let! r := activeJob jobID in
  match r with None => Ret false | Some m => SendBusMessage (From m) x ;;; Ret true end.
Definition SendJobUpdate (jobID : gostring) (update : option gostring) (urgent : bool) : prog bool := sendAbout jobID (JobUpdate urgent jobID update).
Definition SendJobStreamStart (jobID : gostring) (data : option gostring) : prog bool := sendAbout jobID (JobStreamStart jobID data).
Definition SendJobStreamData (jobID : gostring) (data : option gostring) : prog bool := sendAbout jobID (JobStreamData jobID data).
Definition SendJobStreamEnd (jobID : gostring) (data : option gostring) : prog bool :=
  let! ok := sendAbout jobID (JobStreamEnd jobID data) in
  if ok then forgetActiveJob jobID ;;; Ret true else Ret false.

Definition isSequential (jobName : gostring) : bool :=
  match jobName with [] => false | _ => default false (handlers !! jobName) end.
Definition accept (m : message) (jobID jobName : gostring) (b : B) : B :=
  let r := length (runs b) in
  let seq := isSequential jobName in
  let b := emit (Accepted m) (b <| activeJobs ::= insert jobID m |> <| jobHandlers ::= insert jobID r |>) in
  let x := mkRun m jobID (if seq then Some jobName else None) (if seq then sequential b !! jobName else None) (if seq then Some (channels b) else None) in
  let b := b <| runs ::= fun l => l ++ [x] |> in
  if seq then b <| sequential ::= insert jobName (channels b) |> <| channels ::= S |> else b.
Definition handleJobRequest (m : message) (jobID jobName : gostring) : prog unit :=
  do_ (accept m jobID jobName) ;;;
  log_ (OnJobRequest m).
(** [runJobHandler]: the handler begins at its turn, or not at all, and returns. *)
Definition runJobHandler (r : nat) (x : run) : prog unit :=
  let! turn := Act (fun b =>
    match rWait x with
    | None => [(true, b)]
    | Some c => (if bool_decide (c ∈ releases b) then [(true, b)] else []) ++ (if bool_decide (r ∈ canceled b) then [(false, b)] else [])
    end) Ret in
  when turn (log_ (Began r) ;;; log_ (Returned r)) ;;;
  (match rRelease x with Some c => do_ (fun b => b <| releases ::= union {[c]} |>) | None => skip end) ;;;
  do_ (fun b => b <| jobHandlers ::= delete (rID x) |>).

Definition handleJobUpdateRequest (m : message) (jobID : gostring) : prog unit :=
  let! r := activeJob jobID in
  when (bool_decide (is_Some r)) (log_ (OnJobUpdateRequested m)).
Definition handleJobCancel (m : message) (jobID : gostring) : prog unit :=
  let! a := activeJob jobID in
  match a with
  | None => skip
  | Some _ =>
    let! running := get (fun b => jobHandlers b !! jobID) in
    (match running with Some r => stopRun r | None => skip end) ;;;
    log_ (OnJobCancelled m) ;;;
    SendJobResponse jobID None JobCancelled false ;;;
    skip
  end.

(** *** Asking *)

Definition reportGroupEvent (jobID : gostring) (e : GroupEvent) : prog unit :=
  let! g := groupOf jobID in
  match g with Some g => do_ (upd g (Report e)) | None => skip end.
Definition trackGroupResponse (jobID source : gostring) (response : option gostring) : prog unit :=
  let! g := groupOf jobID in
  match g with
  | None => skip
  | Some g =>
    do_ (upd g (SetResponse source (orEmpty response))) ;;;
    let! complete := act (fun b =>
      let c := bool_decide (is_Some (groups b !! jobID)) && match objects b !! g with Some x => respondedToAll x | None => false end in
      (c, if c then b <| groups ::= delete jobID |> else b)) in
    if complete then
      CancelTimeout g ;;;
      let! rs := get (fun b => match objects b !! g with Some x => responses x | None => ∅ end) in
      log_ (OnJobCompleted g rs) ;;;
      finishGroup g Completed
    else skip
  end.
Definition errored : gostring := bytes_of "errored".
Definition handleJobResponse (m : message) (jobID : gostring) (status : JobStatus) (response : option gostring) : prog unit :=
  log_ (OnJobResponse m) ;;;
  let! off := (if bool_decide (status = JobError) || bool_decide (status = JobFailed)
               then get (fun b => match groups b !! jobID with
                               | Some g => match objects b !! g with Some x => if CancelOnError x then Some g else None | None => None end
                               | None => None
                               end)
               else Ret None) in
  match off with
  | Some g =>
    do_ (upd g (SetResponse (From m) (orEmpty response))) ;;;
    log_ (OnJobError g m) ;;;
    CancelGroup jobID (From m ++ errored)
  | None => trackGroupResponse jobID (From m) response
  end.

(** What a request says; no timeout is zero. *)
Record Request := mkRequest { Name : gostring; Payload_ : option gostring; hasTimeout : bool; CancelOnError_ : option bool }.
Definition CancelsOnError (r : Request) : bool := match CancelOnError_ r with Some b => b | None => true end.
Definition createGroup (names : list gostring) (req : Request) : prog nat :=
  let! g := act (fun b =>
    let g := length (objects b) in
    (g, emit (Opened g) (b <| objects ::= fun l => l ++ [NewGroup (NewString (drawn b)) names (CancelsOnError req)] |>
                           <| groups ::= insert (NewString (drawn b)) g |> <| drawn ::= S |>))) in
  (if hasTimeout req
   then do_ (fun b => upd g (fun x => x <| timed := true |>) b) ;;; do_ (fun b => b <| timers ::= fun l => l ++ [g] |>)
   else skip) ;;;
  Ret g.
(** The timer: it may win over the channel that stops it. *)
Definition timeout_ (g : nat) : prog unit :=
  do_ (fun b => b <| timers ::= fun l => List.filter (fun h => negb (Nat.eqb h g)) l |>) ;;;
  let! id := get (fun b => match objects b !! g with Some x => JobID_ x | None => [] end) in
  let! fires := Act (fun b => (if match objects b !! g with Some x => timed x | None => false end then [] else [(false, b)]) ++ [(true, b)]) Ret in
  when fires (CancelGroup id (bytes_of "timeout")).
(** Whether the workers asked come up in time is the registry's business. *)
Definition CreateGroupAndRequestJob (names : list gostring) (req : Request) : prog (option nat) :=
  let! ready := Act (fun b => [(true, b); (false, b)]) Ret in
  if negb ready then Ret None
  else
    let! g := createGroup names req in
    let! id := get (fun b => match objects b !! g with Some x => JobID_ x | None => [] end) in
    each names (fun n => SendBusMessage n (JobRequest id (Name req) (Payload_ req))) ;;;
    Ret (Some g).
Definition cancellingOnError (r : Request) : Request := mkRequest (Name r) (Payload_ r) (hasTimeout r) (Some true).
Definition RequestJob (worker : gostring) (req : Request) : prog (option nat) := CreateGroupAndRequestJob [worker] (cancellingOnError req).
Definition RequestJobGroup (names : list gostring) (req : Request) : prog (option nat) := CreateGroupAndRequestJob names req.
Definition RequestJobUpdate (jobID worker : gostring) : prog unit := SendBusMessage worker (JobUpdateRequest jobID).

Inductive waited := Ended (o : outcome) | ContextEnded | BlockFailed | NotReady.
Definition Wait (g : nat) : prog waited :=
  Act (fun b => (match objects b !! g with Some x => match closed x with Some o => [(Ended o, b)] | None => [] end | None => [] end)
                ++ [(ContextEnded, b)]) Ret.
(** Somebody takes what was reported, or learns that no more will be. *)
Definition nextEvent (g : nat) : prog (option GroupEvent) :=
  Act (fun b => match objects b !! g with
                | Some x => match events x with
                            | e :: _ => [(Some e, upd g (fun x => x <| events ::= tail |>) b)]
                            | [] => if closed x is Some _ then [(None, b)] else []
                            end
                | None => []
                end) Ret.
Definition blockFailedReason : gostring := bytes_of "context exited with error".
(** The block is the caller's, which fails or not. *)
Definition RunGroup (names : list gostring) (req : Request) : prog waited :=
  let! g := CreateGroupAndRequestJob names req in
  match g with
  | None => Ret NotReady
  | Some g =>
    let! ok := Act (fun b => [(true, b); (false, b)]) Ret in
    if ok then Wait g
    else
      let! id := get (fun b => match objects b !! g with Some x => JobID_ x | None => [] end) in
      let! has := HasGroup id in
      when has (CancelGroup id blockFailedReason) ;;;
      Ret BlockFailed
  end.
Definition RunJob (worker : gostring) (req : Request) : prog waited := RunGroup [worker] (cancellingOnError req).

(** *** Stopping *)

Definition takeRunningJobs : prog (list nat) :=
  act (fun b => (List.map snd (map_to_list (jobHandlers b)), b <| jobHandlers := ∅ |>)).
Definition Stop : prog unit :=
  let! gs := get (fun b => List.map fst (map_to_list (groups b))) in
  each gs (fun id => CancelGroup id (bytes_of "stopped")) ;;;
  let! js := get (fun b => List.map fst (map_to_list (activeJobs b))) in
  each js (fun id => SendJobResponse id None JobCancelled false ;;; skip) ;;;
  let! rs := takeRunningJobs in
  each rs stopRun ;;;
  do_ (fun b => if bool_decide (Stopped ∈ log b) then b else emit Stopped b).

(** *** Messages *)

Definition handleJobMessage (m : message) : prog unit :=
  match what m with
  | JobRequest id n _ => handleJobRequest m id n
  | JobResponse _ id st r => handleJobResponse m id st r
  | JobUpdate _ id u => log_ (OnJobUpdate m) ;;; reportGroupEvent id (mkGroupEvent EventUpdate (From m) u)
  | JobUpdateRequest id => handleJobUpdateRequest m id
  | JobCancel id _ => handleJobCancel m id
  | JobStreamStart id d => log_ (OnJobStream m) ;;; reportGroupEvent id (mkGroupEvent EventStreamStart (From m) d)
  | JobStreamData id d => log_ (OnJobStream m) ;;; reportGroupEvent id (mkGroupEvent EventStreamData (From m) d)
  | JobStreamEnd id d =>
    log_ (OnJobStream m) ;;; reportGroupEvent id (mkGroupEvent EventStreamEnd (From m) d) ;;; trackGroupResponse id (From m) d
  end.
(** One addressed to another worker is dropped. *)
Definition OnBusMessage (m : message) : prog unit :=
  if negb (bool_decide (To m = [])) && negb (bool_decide (To m = name)) then skip else handleJobMessage m.

(** ** The goroutines *)

Inductive call :=
| Deliver (m : message)
| CallRunGroup (names : list gostring) (req : Request)
| CallRequestGroup (names : list gostring) (req : Request)
| CallCancelGroup (jobID reason : gostring)
| CallRespond (jobID : gostring) (response : option gostring) (status : JobStatus) (urgent : bool)
| CallUpdate (jobID : gostring) (update : option gostring) (urgent : bool)
| CallStreamStart (jobID : gostring) (data : option gostring)
| CallStreamData (jobID : gostring) (data : option gostring)
| CallStreamEnd (jobID : gostring) (data : option gostring)
| CallStop
| CallNext (g : nat)
| Handle (r : nat)                    (** the goroutine of a handler *)
| TimeoutOf (g : nat).
Definition start (c : call) (b : B) : option (prog unit) :=
  match c with
  | Deliver m => Some (OnBusMessage m)
  | CallRunGroup ns req => Some (RunGroup ns req ;;; skip)
  | CallRequestGroup ns req => Some (RequestJobGroup ns req ;;; skip)
  | CallCancelGroup id r => Some (CancelGroup id r)
  | CallRespond id r st u => Some (SendJobResponse id r st u ;;; skip)
  | CallUpdate id d u => Some (SendJobUpdate id d u ;;; skip)
  | CallStreamStart id d => Some (SendJobStreamStart id d ;;; skip)
  | CallStreamData id d => Some (SendJobStreamData id d ;;; skip)
  | CallStreamEnd id d => Some (SendJobStreamEnd id d ;;; skip)
  | CallStop => Some Stop
  | CallNext g => Some (nextEvent g ;;; skip)
  | Handle r => match runs b !! r with Some x => Some (runJobHandler r x) | None => None end
  | TimeoutOf g => if decide (g ∈ timers b) then Some (timeout_ g) else None
  end.
Record Sys := mkSys { state : B; procs : list (prog unit); begun : gset nat }.
Inductive choice := Begin (c : call) | Run (i n : nat).
Definition runNth {A} (p : prog A) (n : nat) (b : B) : option (prog A * B) :=
  match p with Act f k => match List.nth_error (f b) n with Some (r, b') => Some (k r, b') | None => None end | _ => None end.
(** A handler's goroutine begins once. *)
Definition step (c : choice) (y : Sys) : option Sys :=
  match c with
  | Begin (Handle r) =>
    if decide (r ∈ begun y) then None
    else match start (Handle r) (state y) with Some p => Some (mkSys (state y) (procs y ++ [p]) ({[r]} ∪ begun y)) | None => None end
  | Begin c => match start c (state y) with Some p => Some (mkSys (state y) (procs y ++ [p]) (begun y)) | None => None end
  | Run i n =>
    match procs y !! i with
    | Some p => match runNth p n (state y) with Some (p, b) => Some (mkSys b (<[i := p]> (procs y)) (begun y)) | None => None end
    | None => None
    end
  end.
Definition boot : Sys := mkSys New [] ∅.
Fixpoint exec (cs : list choice) (y : Sys) : option Sys :=
  match cs with [] => Some y | c :: cs => match step c y with Some y => exec cs y | None => None end end.
End Worker.
End Jobs.
