(* ===== verification/JobFacts.v ===== *)
(** * What jobs promise

    That a group ends, once and one way, with its workers told; that a job taken on is
    answered; that the handlers that take turns do; and the cases where it is otherwise. *)

From S2P Require Import Prelude Text Strings Prog Jobs.
Import Prog Jobs.

Module JobFacts.
Local Open Scope prog_scope.

Section Facts.
Context (name : gostring) (handlers : gmap gostring bool) (NewString : nat -> gostring) (fresh : forall m n, NewString m = NewString n -> m = n).

(** ** What a log says *)

Definition fins (g : nat) (l : list event) : nat := length (List.filter (fun e => match e with Finished h _ => Nat.eqb h g | _ => false end) l).
Definition told (g : nat) (l : list event) : nat := length (List.filter (fun e => match e with OnJobCompleted h _ => Nat.eqb h g | _ => false end) l).
Definition tells (g : nat) (e : event) : nat := match e with OnJobCompleted h _ => if Nat.eqb h g then 1 else 0 | _ => 0 end.
Definition ends (g : nat) (e : event) : nat := match e with Finished h _ => if Nat.eqb h g then 1 else 0 | _ => 0 end.
Lemma fins_snoc g l e : fins g (l ++ [e]) = fins g l + ends g e.
Proof. unfold fins. rewrite List.filter_app, length_app. destruct e; cbn; try lia. by destruct (Nat.eqb _ _). Qed.
Lemma told_snoc g l e : told g (l ++ [e]) = told g l + tells g e.
Proof. unfold told. rewrite List.filter_app, length_app. destruct e; cbn; try lia. by destruct (Nat.eqb _ _). Qed.
(** The worker has been sent word that the group is off; a job has been answered. *)
Definition callsOff (n id reason : gostring) : event := Send (mkMessage name n (JobCancel id reason)).
Definition answer (id : gostring) (e : event) : bool :=
  match e with Send m => match what m with JobResponse _ i _ _ | JobStreamEnd i _ => bool_decide (i = id) | _ => false end | _ => false end.
Definition answered (id : gostring) (b : B) : Prop := exists e, e ∈ log b /\ answer id e = true.
Definition requestOf (m : message) : option gostring := match what m with JobRequest id _ _ => Some id | _ => None end.

(** ** What every goroutine keeps *)

(** Handlers that take turns: the last of each name is the one the next waits for. *)
Definition named (n : gostring) (b : B) (r : nat) : Prop := exists x, runs b !! r = Some x /\ rName x = Some n.
Definition lastBefore (n : gostring) (b : B) (r r' : nat) : Prop := named n b r' /\ r' < r /\ forall q, named n b q -> q < r -> q <= r'.
Definition releasing (b : B) (r c : nat) : Prop := exists x, runs b !! r = Some x /\ rRelease x = Some c.
Record turnsOk (b : B) : Prop := {
  t_channel : forall r c, releasing b r c -> c < channels b;
  t_channels : forall r r' c, releasing b r c -> releasing b r' c -> r = r';
  t_named : forall r x n, runs b !! r = Some x -> rName x = Some n -> exists c, rRelease x = Some c;
  t_first : forall r x n, runs b !! r = Some x -> rName x = Some n -> rWait x = None -> forall q, named n b q -> r <= q;
  t_next : forall r x n c, runs b !! r = Some x -> rName x = Some n -> rWait x = Some c -> exists q, lastBefore n b r q /\ releasing b q c;
  t_none : forall n, sequential b !! n = None -> forall r, ~ named n b r;
  t_last : forall n c, sequential b !! n = Some c -> exists q, lastBefore n b (length (runs b)) q /\ releasing b q c;
  t_released : forall r c, releasing b r c -> c ∈ releases b -> Returned r ∈ log b \/ r ∈ canceled b;
  t_began : forall r x c, runs b !! r = Some x -> rWait x = Some c -> Began r ∈ log b -> c ∈ releases b;
  t_returned : forall r, Returned r ∈ log b -> Began r ∈ log b;
  t_closed : forall c, c ∈ releases b -> c < channels b;
  t_known : forall r, Began r ∈ log b -> r < length (runs b)
}.
Record inv (b : B) : Prop := {
  i_ids : forall g x, objects b !! g = Some x -> JobID_ x = NewString g;
  i_drawn : drawn b = length (objects b);
  i_groups : forall id g, groups b !! id = Some g -> exists x, objects b !! g = Some x /\ JobID_ x = id;
  i_answered : forall m id, Accepted m ∈ log b -> requestOf m = Some id -> is_Some (activeJobs b !! id) \/ answered id b;
  i_turns : turnsOk b
}.

(** A goroutine that took a group off the books has to end it: calling it off, with
    those still to be told, or as complete, having said so or not. *)
Inductive claim := Cut (g : nat) (reason : gostring) (todo : option (list gostring)) | Comp (g : nat) (said : bool).
Definition claimed (c : claim) : nat := match c with Cut g _ _ => g | Comp g _ => g end.
Definition claimOk (c : claim) (b : B) (x : Group) : Prop :=
  match c with
  | Cut g reason todo =>
    told g (log b) = 0
    /\ match todo with None => True | Some todo => forall n, n ∈ WorkerNames x -> n ∈ todo \/ callsOff n (JobID_ x) reason ∈ log b end
  | Comp g said => told g (log b) = (if said then 1 else 0) /\ respondedToAll x = true
  end.
Definition settled (g : nat) (o : outcome) (b : B) (x : Group) : Prop :=
  match o with
  | Completed => told g (log b) = 1 /\ respondedToAll x = true
  | CutShort reason => told g (log b) = 0 /\ forall n, n ∈ WorkerNames x -> callsOff n (JobID_ x) reason ∈ log b
  end.
Definition groupOk (own : list claim) (b : B) (g : nat) (x : Group) : Prop :=
  match closed x with
  | Some o => fins g (log b) = 1 /\ groups b !! JobID_ x <> Some g /\ ~ g ∈ List.map claimed own /\ settled g o b x
  | None =>
    fins g (log b) = 0
    /\ (groups b !! JobID_ x = Some g /\ ~ g ∈ List.map claimed own /\ told g (log b) = 0
        \/ groups b !! JobID_ x <> Some g /\ exists c, c ∈ own /\ claimed c = g /\ claimOk c b x)
  end.
Definition groupsOk (own : list claim) (b : B) : Prop :=
  NoDup (List.map claimed own) /\ (forall c, c ∈ own -> is_Some (objects b !! claimed c))
  /\ (forall g, length (objects b) <= g -> fins g (log b) = 0 /\ told g (log b) = 0)
  /\ forall g x, objects b !! g = Some x -> groupOk own b g x.

(** What a goroutine has to itself: a group it took, a job it answered, the handler it is
    and where that stands, and a group it looked up, with its name. *)
Inductive phase := Waiting | AtTurn | Inside | Gone.
Record role := mkRole { owns : option claim; sent : option gostring; ran : option (nat * run * phase); about : option (nat * gostring) }.
Definition free : role := mkRole None None None None.
Definition claims (v : role) : list claim := match owns v with Some c => [c] | None => [] end.
Definition standing (r : nat) (x : run) (d : phase) (b : B) : Prop :=
  match d with
  | Waiting => True
  | AtTurn => forall c, rWait x = Some c -> c ∈ releases b
  | Inside => Began r ∈ log b
  | Gone => Returned r ∈ log b \/ r ∈ canceled b
  end.
Record holds (v : role) (b : B) : Prop := {
  h_sent : forall id, sent v = Some id -> answered id b;
  h_ran : forall r x d, ran v = Some (r, x, d) -> runs b !! r = Some x /\ standing r x d b;
  h_about : forall g id, about v = Some (g, id) -> exists x, objects b !! g = Some x /\ JobID_ x = id
}.
Record grows (b b' : B) : Prop := {
  g_log : exists tr, log b' = log b ++ tr;
  g_objects : forall g x, objects b !! g = Some x -> exists x', objects b' !! g = Some x' /\ JobID_ x' = JobID_ x /\ WorkerNames x' = WorkerNames x;
  g_canceled : canceled b ⊆ canceled b';
  g_releases : releases b ⊆ releases b';
  g_runs : exists l, runs b' = runs b ++ l
}.
Definition knows (v : role) (b : B) : Prop := inv b /\ holds v b.
Record turn (v : role) (b b' : B) (v' : role) : Prop := {
  r_inv : inv b';
  r_holds : holds v' b';
  r_grows : grows b b';
  r_groups : forall rest, groupsOk (claims v ++ rest) b -> groupsOk (claims v' ++ rest) b'
}.
Abbreviation plays p P v := (takes knows turn p P v).

Lemma grows_log b b' e : grows b b' -> e ∈ log b -> e ∈ log b'.
Proof. intros [[tr ->] _ _ _ _] H. apply elem_of_app. by left. Qed.
Lemma answered_grows id b b' : grows b b' -> answered id b -> answered id b'.
Proof. intros Hg (e & He & Ha). exists e. split; [by eapply grows_log|done]. Qed.
Lemma jobs_holds_grows v b b' : grows b b' -> holds v b -> holds v b'.
Proof.
  intros Hg [H1 H2 H3]. split.
  - intros id E. by eapply answered_grows; eauto.
  - intros r x d E. destruct (H2 r x d E) as [Er Hd]. split.
    + destruct (g_runs _ _ Hg) as [l ->]. by apply lookup_app_l_Some.
    + destruct d; cbn [standing] in *; [done|intros c Hc; by apply Hg, Hd|by eapply grows_log|].
      destruct Hd as [?|?]; [left; by eapply grows_log|right; by apply Hg].
  - intros g id E. destruct (H3 g id E) as (x & Ex & Ei). destruct (g_objects _ _ Hg g x Ex) as (x' & Ex' & Ei' & _). exists x'. by rewrite Ei'.
Qed.

(** ** What changes little of it *)

(** Nothing of jobs and handlers, and no group comes on the books. *)
Definition aloof (e : event) : bool := match e with Accepted _ | Began _ | Returned _ => false | _ => true end.
Record mild (b b' : B) (tr : list event) : Prop := {
  m_log : log b' = log b ++ tr;
  m_aloof : Forall (fun e => aloof e = true) tr;
  m_groups : forall id g, groups b' !! id = Some g -> groups b !! id = Some g;
  m_drawn : drawn b' = drawn b;
  m_length : length (objects b') = length (objects b);
  m_objects : forall g x, objects b !! g = Some x -> exists x', objects b' !! g = Some x' /\ JobID_ x' = JobID_ x /\ WorkerNames x' = WorkerNames x;
  m_active : activeJobs b' = activeJobs b;
  m_runs : runs b' = runs b;
  m_seq : sequential b' = sequential b;
  m_releases : releases b' = releases b;
  m_channels : channels b' = channels b;
  m_canceled : canceled b ⊆ canceled b'
}.
(** Nor of groups, but that what they were answered is kept. *)
Definition neutral (e : event) : bool := aloof e && match e with Finished _ _ | OnJobCompleted _ _ => false | _ => true end.
Definition alike (x x' : Group) : Prop :=
  JobID_ x' = JobID_ x /\ WorkerNames x' = WorkerNames x /\ closed x' = closed x /\ forall n, is_Some (responses x !! n) -> is_Some (responses x' !! n).
Record calm (b b' : B) (tr : list event) : Prop := {
  c_mild : mild b b' tr;
  c_neutral : Forall (fun e => neutral e = true) tr;
  c_groups : groups b' = groups b;
  c_alike : forall g x, objects b !! g = Some x -> exists x', objects b' !! g = Some x' /\ alike x x'
}.
Lemma alike_refl x : alike x x.
Proof. by split_and!. Qed.
Lemma responded_alike x x' : alike x x' -> respondedToAll x = true -> respondedToAll x' = true.
Proof.
  intros (_ & En & _ & Hr). unfold respondedToAll. rewrite En, !forallb_forall. intros H n Hn. specialize (H n Hn).
  rewrite bool_decide_eq_true in *. auto.
Qed.
(** Nothing of groups at all. *)
Definition unfinished (e : event) : bool := match e with Finished _ _ | OnJobCompleted _ _ => false | _ => true end.
Record books (b b' : B) : Prop := {
  k_log : exists tr, log b' = log b ++ tr /\ Forall (fun e => unfinished e = true) tr;
  k_groups : groups b' = groups b;
  k_length : length (objects b') = length (objects b);
  k_alike : forall g x, objects b !! g = Some x -> exists x', objects b' !! g = Some x' /\ alike x x'
}.
Lemma unfinished_counts tr g l : Forall (fun e => unfinished e = true) tr -> fins g (l ++ tr) = fins g l /\ told g (l ++ tr) = told g l.
Proof.
  revert l. induction tr as [|e tr IH]; intros l H; [by rewrite app_nil_r|]. inversion H as [|? ? He Ht]; subst.
  rewrite (app_assoc l [e] tr : l ++ e :: tr = _). destruct (IH (l ++ [e]) Ht) as [-> ->]. rewrite fins_snoc, told_snoc. destruct e; cbn in *; done || lia.
Qed.
Lemma calm_books b b' tr : calm b b' tr -> books b b'.
Proof.
  intros [[] Hn Hg Ha]. split; try done. exists tr. split; [done|]. eapply Forall_impl; [exact Hn|]. intros e [_ He]%andb_prop. by destruct e.
Qed.
Lemma aloof_in tr e l : Forall (fun e => aloof e = true) tr -> aloof e = false -> e ∈ l ++ tr -> e ∈ l.
Proof. intros H He [?|Hin]%elem_of_app; [done|]. rewrite Forall_forall in H. specialize (H e Hin). congruence. Qed.
Lemma mild_grows b b' tr : mild b b' tr -> grows b b'.
Proof. intros []. split; [by exists tr|done|done|by rewrite m_releases0|exists []; by rewrite app_nil_r]. Qed.
Lemma mild_turns b b' tr : mild b b' tr -> turnsOk b -> turnsOk b'.
Proof.
  intros [] [].
  assert (forall r c, releasing b' r c <-> releasing b r c) as Hr by (unfold releasing; by rewrite m_runs0).
  assert (forall n r, named n b' r <-> named n b r) as Hn by (unfold named; by rewrite m_runs0).
  assert (forall n r q, lastBefore n b' r q <-> lastBefore n b r q) as Hl by (intros; unfold lastBefore; by setoid_rewrite Hn).
  split; rewrite ?m_runs0, ?m_seq0, ?m_releases0, ?m_channels0; setoid_rewrite Hr || idtac; try setoid_rewrite Hn; try setoid_rewrite Hl; try done.
  - intros r c H1 H2. destruct (t_released0 r c H1 H2) as [?|?]; [left; rewrite m_log0; apply elem_of_app; by left|right; auto].
  - intros r x c H1 H2 H3. eapply t_began0; eauto. rewrite m_log0 in H3. by eapply aloof_in.
  - intros r H. rewrite m_log0 in *. apply elem_of_app. left. apply t_returned0. by eapply aloof_in.
  - intros r H. rewrite m_log0 in H. apply t_known0. by eapply aloof_in.
Qed.
Lemma mild_inv b b' tr : mild b b' tr -> inv b -> inv b'.
Proof.
  intros H [I1 I2 I3 I4 I5]. split.
  - intros g x' Ex. assert (is_Some (objects b !! g)) as [x Ey].
    { apply lookup_lt_is_Some. rewrite <- (m_length _ _ _ H). by eapply lookup_lt_Some. }
    destruct (m_objects _ _ _ H g x Ey) as (y & Ey' & E & _). simplify_eq. rewrite E. eauto.
  - by rewrite (m_drawn _ _ _ H), (m_length _ _ _ H).
  - intros id g Eg%(m_groups _ _ _ H). destruct (I3 id g Eg) as (x & Ex & <-). destruct (m_objects _ _ _ H g x Ex) as (x' & Ex' & E & _). eauto.
  - intros m id Hm Hr. rewrite (m_active _ _ _ H). destruct (I4 m id) as [?|?]; [|done|by left|].
    + rewrite (m_log _ _ _ H) in Hm. eapply aloof_in; [apply H|done|exact Hm].
    + right. eapply answered_grows; [by eapply mild_grows|done].
  - by eapply mild_turns.
Qed.
Lemma mild_turn v v' b b' tr : knows v b -> mild b b' tr -> (holds v b' -> holds v' b') ->
  (forall rest, groupsOk (claims v ++ rest) b -> groupsOk (claims v' ++ rest) b') -> turn v b b' v'.
Proof.
  intros [HI Hh] Hc Hv Hr. pose proof (mild_grows _ _ _ Hc) as Hg. split; [by eapply mild_inv|apply Hv; by eapply jobs_holds_grows|done|done].
Qed.

Lemma books_back b b' g x' : books b b' -> objects b' !! g = Some x' -> exists x, objects b !! g = Some x /\ alike x x'.
Proof.
  intros H Ex. assert (is_Some (objects b !! g)) as [x Ey].
  { apply lookup_lt_is_Some. rewrite <- (k_length _ _ H). by eapply lookup_lt_Some. }
  destruct (k_alike _ _ H g x Ey) as (y & Ey' & Ha). exists x. split; [done|]. by simplify_eq.
Qed.
Lemma books_groups b b' own : books b b' -> groupsOk own b -> groupsOk own b'.
Proof.
  intros H (G1 & G2 & G3 & G4). pose proof H as [(tr & El & Htr) Hg Hlen Ha].
  assert (forall g, fins g (log b') = fins g (log b) /\ told g (log b') = told g (log b)) as Hc by (intros g; rewrite El; by apply unfinished_counts).
  assert (forall e, e ∈ log b -> e ∈ log b') as Hin by (intros e; rewrite El, elem_of_app; by left).
  split_and!; [done| | |].
  - intros c Hc'. destruct (G2 c Hc') as [x Ex]. destruct (Ha _ _ Ex) as (x' & Ex' & _). by eexists.
  - intros g. rewrite Hlen. destruct (Hc g) as [-> ->]. apply G3.
  - intros g x' Ex'. destruct (books_back _ _ _ _ H Ex') as (x & Ex & Hal). pose proof Hal as (E1 & E2 & E3 & _). specialize (G4 g x Ex). unfold groupOk in *.
    rewrite E3, E1, Hg. destruct (Hc g) as [-> Ht]. destruct (closed x) as [o|].
    + destruct G4 as (F1 & F2 & F3 & F4). split_and!; [done..|]. destruct o as [|reason]; cbn [settled] in *; rewrite Ht.
      * split; [apply F4|]. eapply responded_alike; [done|apply F4].
      * split; [apply F4|]. rewrite E1, E2. intros n Hm. apply Hin. by apply F4.
    + rewrite Ht. destruct G4 as (F1 & F2). split; [done|]. destruct F2 as [?|(F2 & c & F3 & F4 & F5)]; [by left|right].
      split; [done|]. exists c. split_and!; [done..|]. destruct c as [g' reason todo|g' said]; cbn [claimed claimOk] in *; subst g'; rewrite Ht.
      * destruct F5 as [F5 F6]. split; [done|]. destruct todo; [|done]. rewrite E1, E2. intros n Hm. destruct (F6 n Hm); auto.
      * split; [apply F5|]. eapply responded_alike; [done|apply F5].
Qed.
Lemma calm_groups b b' tr own : calm b b' tr -> groupsOk own b -> groupsOk own b'.
Proof. intros H. apply books_groups. by eapply calm_books. Qed.
Lemma calm_turn v b b' tr : knows v b -> calm b b' tr -> turn v b b' v.
Proof. intros Hk Hc. eapply mild_turn; [done|apply Hc|done|]. intros rest. by apply (calm_groups _ _ _ _ Hc). Qed.

Lemma turn_weaken v b b' v1 v2 : turn v b b' v1 -> owns v2 = owns v1 -> holds v2 b' -> turn v b b' v2.
Proof. intros [H1 H2 H3 H4] E Hh. split; [done..|]. unfold claims. rewrite E. exact H4. Qed.
Lemma holds_free b : holds free b.
Proof. by split. Qed.

Definition clean (v : role) : Prop := sent v = None /\ owns v = None /\ about v = None.
Definition quiet {A} (p : prog A) : Prop := forall v, clean v -> plays p (fun _ v' => v' = v) v.
Lemma jobs_quiet_ret {A} (a : A) : quiet (Ret a).
Proof. by intros v _. Qed.
Lemma jobs_quiet_bind {A B'} (p : prog A) (k : A -> prog B') : quiet p -> (forall a, quiet (k a)) -> quiet (bind p k).
Proof. intros Hp Hk v E. eapply takes_seq; [by apply Hp|]. intros a v' ->. by apply Hk. Qed.
Lemma jobs_quiet_act {A} (f : B -> list (A * B)) : (forall b r b', In (r, b') (f b) -> exists tr, calm b b' tr) -> quiet (Act f Ret).
Proof. intros H v _ b r b' Hin Hk. exists v. split; [|done]. destruct (H b r b' Hin) as [tr Hc]. by eapply calm_turn. Qed.
Lemma mild_refl b : mild b b [].
Proof. split; try done; [by rewrite app_nil_r|eauto]. Qed.
Lemma mild_emit e b : aloof e = true -> mild b (emit e b) [e].
Proof. intros He. split; try done; [by repeat constructor|eauto]. Qed.
Lemma jobs_calm_refl b : calm b b [].
Proof. split; try done; [apply mild_refl|]. intros g x Ex. exists x. split; [done|apply alike_refl]. Qed.
Lemma calm_emit e b : neutral e = true -> calm b (emit e b) [e].
Proof.
  intros He. split; try done; [apply mild_emit; by apply andb_prop in He as [? _]|by repeat constructor|].
  intros g x Ex. exists x. split; [done|apply alike_refl].
Qed.
Lemma upd_objects g f b h x : objects b !! h = Some x -> objects (upd g f b) !! h = Some (if decide (g = h) then f x else x).
Proof.
  intros Ex. unfold upd. cbn. destruct (decide (g = h)) as [->|Hne]; [by rewrite list_lookup_alter_eq, Ex|by rewrite list_lookup_alter_ne].
Qed.
Lemma mild_upd g f b : (forall x, JobID_ (f x) = JobID_ x /\ WorkerNames (f x) = WorkerNames x) -> mild b (upd g f b) [].
Proof.
  intros Hf. split; try done; [by rewrite app_nil_r|by unfold upd; cbn; rewrite length_alter|].
  intros h x Ex. rewrite (upd_objects g f b h x Ex). eexists. split; [done|]. destruct (decide (g = h)); [apply Hf|done].
Qed.
Lemma calm_upd g f b : (forall x, alike x (f x)) -> calm b (upd g f b) [].
Proof.
  intros Hf. split; try done; [apply mild_upd; intros x; by destruct (Hf x) as (? & ? & _)|].
  intros h x Ex. rewrite (upd_objects g f b h x Ex). eexists. split; [done|]. destruct (decide (g = h)); [apply Hf|apply alike_refl].
Qed.
Lemma jobs_quiet_get {A} (f : B -> A) : quiet (get f).
Proof. apply jobs_quiet_act. intros b r b' [[= <- <-]|[]]. exists []. apply jobs_calm_refl. Qed.
Lemma jobs_quiet_log e : neutral e = true -> quiet (log_ e).
Proof. intros He. apply jobs_quiet_act. intros b r b' [[= <- <-]|[]]. exists [e]. by apply calm_emit. Qed.
Lemma jobs_quiet_upd g f : (forall x, alike x (f x)) -> quiet (do_ (upd g f)).
Proof. intros Hf. apply jobs_quiet_act. intros b r b' [[= <- <-]|[]]. exists []. by apply calm_upd. Qed.
Lemma jobs_quiet_when c p : quiet p -> quiet (when c p).
Proof. destruct c; [done|intros _; apply jobs_quiet_ret]. Qed.
Lemma jobs_quiet_each {A} (l : list A) p : (forall a, quiet (p a)) -> quiet (each l p).
Proof. intros Hp v E. apply takes_each. intros a. by apply Hp. Qed.
Lemma jobs_quiet_choose {A} (l : B -> list A) : quiet (Act (fun b => List.map (fun a => (a, b)) (l b)) Ret).
Proof. apply jobs_quiet_act. intros b r b' Hin. apply in_map_iff in Hin as (a & [= <- <-] & _). exists []. apply jobs_calm_refl. Qed.

Lemma alike_report e x : alike x (Report e x).
Proof. unfold Report. destruct (closed x); [apply alike_refl|]. destruct (Nat.ltb _ _); [by split_and!|apply alike_refl]. Qed.
Lemma alike_response n r x : alike x (SetResponse n r x).
Proof.
  split_and!; [done..|]. intros m Hm. cbn. destruct (decide (n = m)) as [->|Hne]; [rewrite lookup_insert_eq; eauto|by rewrite lookup_insert_ne].
Qed.
Lemma alike_timed t x : alike x (x <| timed := t |>).
Proof. by split_and!. Qed.
Lemma jobs_quiet_stopRun r : quiet (stopRun r).
Proof.
  apply jobs_quiet_bind; [|intros _; apply jobs_quiet_act; intros b u b' [[= <- <-]|[]]; exists []; apply jobs_calm_refl].
  apply jobs_quiet_act. intros b u b' [[= <- <-]|[]]. exists []. split; try done.
  - split; try done; [by rewrite app_nil_r|eauto|cbn; set_solver].
  - intros g x Ex. exists x. split; [done|apply alike_refl].
Qed.
Lemma jobs_quiet_sendAbout id x : quiet (sendAbout name id x).
Proof. apply jobs_quiet_bind; [apply jobs_quiet_get|]. intros [m|]; [|apply jobs_quiet_ret]. apply jobs_quiet_bind; [by apply jobs_quiet_log|intros _; apply jobs_quiet_ret]. Qed.
Lemma jobs_quiet_report id e : quiet (reportGroupEvent id e).
Proof. apply jobs_quiet_bind; [apply jobs_quiet_get|]. intros [g|]; [apply jobs_quiet_upd; apply alike_report|apply jobs_quiet_ret]. Qed.

(** A job answered is forgotten. *)
Lemma turn_forget id v b : knows v b -> answered id b -> turn v b (b <| activeJobs ::= delete id |>) v.
Proof.
  intros [[I1 I2 I3 I4 I5] Hh] Ha.
  assert (grows b (b <| activeJobs ::= delete id |>)) as Hg.
  { split; try done; [exists []; by rewrite app_nil_r|by eauto|exists []; by rewrite app_nil_r]. }
  split; [split; try done; [|by destruct I5]|by eapply jobs_holds_grows|done|done].
  intros m i Hm Hr. destruct (I4 m i Hm Hr) as [?|?]; [|by right]. destruct (decide (id = i)) as [->|Hne]; [by right|left]. cbn.
  by rewrite lookup_delete_ne.
Qed.
(** Something sent that answers a job. *)
Lemma plays_answer id to x v {A} (k : unit -> prog A) P : answer id (Send (mkMessage name to x)) = true ->
  plays (k tt) P (mkRole (owns v) (Some id) (ran v) (about v)) -> plays (bind (SendBusMessage name to x) k) P v.
Proof.
  intros Ha Hk b u b' [[= <- <-]|[]] Hkn. eexists. split; [|exact Hk].
  pose proof (calm_turn v b (emit (Send (mkMessage name to x)) b) _ Hkn (calm_emit (Send (mkMessage name to x)) b eq_refl)) as Ht.
  eapply turn_weaken; [exact Ht|done|]. destruct (r_holds _ _ _ _ Ht) as [H1 H2 H3]. split; [|done..].
  intros i [= <-]. exists (Send (mkMessage name to x)). split; [apply elem_of_app; right; by apply list_elem_of_singleton|done].
Qed.
Definition sends (v : role) (id : gostring) : role := mkRole (owns v) (Some id) (ran v) (about v).
Lemma plays_forget id v {A} (k : unit -> prog A) P : clean v -> plays (k tt) P v -> plays (bind (forgetActiveJob id) k) P (sends v id).
Proof.
  intros (E & _) Hk b u b' [[= <- <-]|[]] Hkn. exists v. split; [|exact Hk].
  pose proof (turn_forget id (sends v id) b Hkn (h_sent _ _ (proj2 Hkn) id eq_refl)) as Ht. eapply turn_weaken; [exact Ht|done|].
  destruct (r_holds _ _ _ _ Ht) as [H1 H2 H3]. split; [by rewrite E|done..].
Qed.
Lemma jobs_quiet_SendJobResponse id r st u : quiet (SendJobResponse name id r st u).
Proof.
  apply jobs_quiet_bind; [apply jobs_quiet_get|]. intros [m|]; [|apply jobs_quiet_ret]. intros v E.
  apply (plays_answer id); [by cbn; rewrite bool_decide_eq_true_2|]. by apply plays_forget.
Qed.
Lemma jobs_quiet_SendJobStreamEnd id d : quiet (SendJobStreamEnd name id d).
Proof.
  intros v E. unfold SendJobStreamEnd, sendAbout. cbn [bind]. apply takes_get.
  { intros b Hk. apply calm_turn with []; [done|apply jobs_calm_refl]. }
  intros b Hk. destruct (activeJobs b !! id) as [m|]; [|done]. cbn [bind].
  apply (plays_answer id (From m) (JobStreamEnd id d) v (fun _ => bind (forgetActiveJob id) (fun _ => Ret true))); [by cbn; rewrite bool_decide_eq_true_2|].
  by apply plays_forget.
Qed.

(** ** Calling a group off *)

Definition taking (v : role) (c : claim) : role := mkRole (Some c) (sent v) (ran v) (about v).
Lemma holds_taking v c b : holds v b -> holds (taking v c) b.
Proof. by intros []. Qed.
Lemma takes_calm {A} f (k : unit -> prog A) P v : (forall b, exists tr, calm b (f b) tr) -> plays (k tt) P v -> plays (bind (do_ f) k) P v.
Proof. intros Hf Hk. eapply takes_do; [|exact Hk]. intros b Hkn. destruct (Hf b) as [tr Hc]. by eapply calm_turn. Qed.

(** A claim put another way. *)
Lemma groups_restate c c' rest b : claimed c' = claimed c ->
  (forall x, objects b !! claimed c = Some x -> claimOk c b x -> claimOk c' b x) -> groupsOk (c :: rest) b -> groupsOk (c' :: rest) b.
Proof.
  intros Ec Hc (G1 & G2 & G3 & G4). cbn [List.map] in *. unfold groupsOk. cbn [List.map]. rewrite Ec. split_and!; [done| |done|].
  - intros d [->|Hd]%elem_of_cons; [rewrite Ec; apply G2; by left|]. apply G2. by right.
  - intros g x Ex. specialize (G4 g x Ex). unfold groupOk in *. cbn [List.map] in *. rewrite Ec. destruct (closed x); [done|].
    destruct G4 as (F1 & F2). split; [done|]. destruct F2 as [?|(F2 & d & F3 & F4 & F5)]; [by left|right]. split; [done|].
    apply elem_of_cons in F3 as [->|F3].
    + exists c'. split_and!; [by apply elem_of_cons; left|by rewrite Ec|]. apply Hc; [by rewrite F4|done].
    + exists d. split_and!; [by apply elem_of_cons; right|done..].
Qed.
Lemma turn_restate v b b' tr c c' : knows v b -> calm b b' tr -> owns v = Some c -> claimed c' = claimed c ->
  (forall x, objects b' !! claimed c = Some x -> claimOk c b' x -> claimOk c' b' x) -> turn v b b' (taking v c').
Proof.
  intros Hk Hc Eo Ec Hx. eapply mild_turn; [done|apply Hc|apply holds_taking|]. unfold claims. rewrite Eo. cbn.
  intros rest Hr. apply (groups_restate c c'); [done..|]. by apply (calm_groups _ _ _ _ Hc).
Qed.

(** Taking one off the books. *)
Lemma mild_take id b : mild b (b <| groups ::= delete id |>) [].
Proof. split; try done; [by rewrite app_nil_r| |by eauto]. cbn. intros i g. rewrite lookup_delete_Some. by intros [_ ?]. Qed.
Lemma groups_take id g c rest b : inv b -> groups b !! id = Some g -> claimed c = g ->
  (forall x, objects b !! g = Some x -> told g (log b) = 0 -> claimOk c b x) ->
  groupsOk rest b -> groupsOk (c :: rest) (b <| groups ::= delete id |>).
Proof using fresh.
  intros HI Eg Ec Hc (G1 & G2 & G3 & G4). destruct (i_groups _ HI id g Eg) as (x & Ex & Eid).
  assert (groupOk rest b g x) as Hg by auto. unfold groupOk in Hg. rewrite Eid in Hg.
  destruct (closed x) eqn:Ecl; [by destruct Hg as (_ & Hg & _)|]. destruct Hg as (Hf & [(_ & Hnot & Ht)|(? & _)]); [|done].
  split_and!.
  - cbn [List.map]. rewrite Ec. by constructor.
  - intros d [->|Hd]%elem_of_cons; [rewrite Ec; by eexists|by apply G2].
  - exact G3.
  - intros h y Ey. cbn in Ey. specialize (G4 h y Ey). unfold groupOk in *. cbn [groups log]. change (log (b <| groups ::= delete id |>)) with (log b).
    change (groups (b <| groups ::= delete id |>)) with (delete id (groups b)). cbn [List.map]. rewrite Ec.
    destruct (decide (h = g)) as [->|Hne].
    + assert (y = x) as -> by congruence. rewrite Ecl in G4 |- *. split; [done|]. right. rewrite Eid, lookup_delete_eq. split; [done|].
      exists c. split_and!; [by apply elem_of_cons; left|done|]. specialize (Hc x Ex Ht). by destruct c.
    + assert (forall z, delete id (groups b) !! JobID_ y = Some z <-> groups b !! JobID_ y = Some z) as Hd.
      { intros z. rewrite lookup_delete_ne; [done|]. intros E. apply Hne, fresh. rewrite <- (i_ids _ HI h y Ey), <- (i_ids _ HI g x Ex). congruence. }
      destruct (closed y) as [o|].
      * destruct G4 as (F1 & F2 & F3 & F4). split_and!; [done|by rewrite Hd|by intros [?|?]%elem_of_cons|]. by destruct o.
      * destruct G4 as (F1 & F2). split; [done|]. destruct F2 as [(F2 & F3 & F4)|(F2 & d & F3 & F4 & F5)]; [left|right].
        -- split_and!; [by rewrite Hd|by intros [?|?]%elem_of_cons|done].
        -- split; [by rewrite Hd|]. exists d. split_and!; [by apply elem_of_cons; right|done|]. by destruct d.
Qed.

(** Ending it. *)
Lemma mild_finish g o b x : objects b !! g = Some x -> closed x = None -> mild b (emit (Finished g o) (upd g (finish o) b)) [Finished g o].
Proof.
  intros Ex Ecl. assert (forall y, JobID_ (finish o y) = JobID_ y /\ WorkerNames (finish o y) = WorkerNames y) as Hf by (intros y; unfold finish; by destruct (closed y)).
  pose proof (mild_upd g (finish o) b Hf) as []. split; try done. by repeat constructor.
Qed.
Lemma groups_finish g o c rest b x : objects b !! g = Some x -> closed x = None -> claimed c = g -> (claimOk c b x -> settled g o b x) ->
  groupsOk (c :: rest) b -> groupsOk rest (emit (Finished g o) (upd g (finish o) b)).
Proof.
  intros Ex Ecl Ec Hs (G1 & G2 & G3 & G4). cbn [List.map] in *. rewrite Ec in *. inversion G1 as [|? ? Hnot Hnd]; subst.
  set (b' := emit _ _).
  assert (log b' = log b ++ [Finished (claimed c) o]) as El by done.
  assert (forall h, fins h (log b') = fins h (log b) + (if Nat.eqb (claimed c) h then 1 else 0) /\ told h (log b') = told h (log b)) as Hcnt.
  { intros h. rewrite El, fins_snoc, told_snoc. cbn. lia. }
  assert (forall e, e ∈ log b -> e ∈ log b') as Hin by (intros e; rewrite El, elem_of_app; by left).
  assert (forall y, objects b !! claimed c = Some y -> settled (claimed c) o b' y <-> settled (claimed c) o b y) as _Hs.
  { intros y Ey. destruct (Hcnt (claimed c)) as [_ Ht]. destruct o; cbn [settled]; rewrite Ht; [done|]. split; intros [H1 H2]; (split; [done|]).
    - intros n Hn. specialize (H2 n Hn). rewrite El in H2. apply elem_of_app in H2 as [?|H2]; [done|]. by apply list_elem_of_singleton in H2.
    - auto. }
  split_and!; [done| | |].
  - intros d Hd. destruct (G2 d) as [y Ey]; [by apply elem_of_cons; right|]. exists (if decide (claimed c = claimed d) then finish o y else y). by apply (upd_objects _ _ b).
  - intros h Hh. cbn in Hh. rewrite length_alter in Hh. destruct (Hcnt h) as [-> ->]. destruct (G3 h Hh) as [-> ->].
    destruct (Nat.eqb_spec (claimed c) h) as [<-|_]; [|done]. apply lookup_lt_Some in Ex. lia.
  - intros h y' Ey'. assert (is_Some (objects b !! h)) as [y Ey].
    { apply lookup_lt_is_Some. apply lookup_lt_Some in Ey'. unfold b' in Ey'. cbn in Ey'. by rewrite length_alter in Ey'. }
    change (objects b') with (objects (upd (claimed c) (finish o) b)) in Ey'. rewrite (upd_objects _ _ b h y Ey) in Ey'. injection Ey' as <-.
    specialize (G4 h y Ey). unfold groupOk in *. change (groups b') with (groups b). destruct (Hcnt h) as [-> Htold].
    destruct (decide (claimed c = h)) as [<-|Hne].
    + assert (y = x) as -> by congruence. rewrite Ecl in G4. unfold finish. rewrite Ecl. cbn [closed JobID_ WorkerNames].
      rewrite Nat.eqb_refl. cbn. destruct G4 as (F1 & [(_ & F2 & _)|(F2 & d & F3 & F4 & F5)]); [by destruct F2; apply elem_of_cons; left|].
      assert (d = c) as ->.
      { apply elem_of_cons in F3 as [?|F3]; [done|]. destruct Hnot. rewrite <- F4. by apply list_elem_of_fmap_2. }
      split_and!; [lia|done|done|]. specialize (Hs F5). apply _Hs in Hs; [|done]. destruct o; cbn in *; exact Hs.
    + destruct (Nat.eqb_spec (claimed c) h) as [?|_]; [done|]. rewrite Nat.add_0_r. destruct (closed y) as [o'|].
      * destruct G4 as (F1 & F2 & F3 & F4). split_and!; [done..|intros ?; apply F3; by apply elem_of_cons; right|].
        destruct o'; cbn [settled] in *; rewrite Htold; [exact F4|]. split; [apply F4|]. intros n Hn. apply Hin. by apply F4.
      * rewrite Htold. destruct G4 as (F1 & F2). split; [done|]. destruct F2 as [(F2 & F3 & F4)|(F2 & d & F3 & F4 & F5)]; [left|right].
        -- split_and!; [done|intros ?; apply F3; by apply elem_of_cons; right|done].
        -- split; [done|]. apply elem_of_cons in F3 as [->|F3]; [done|]. exists d. split_and!; [done..|].
           destruct d as [g' reason todo|g' said]; cbn [claimed claimOk] in *; subst g'; rewrite Htold; [|exact F5].
           destruct F5 as [F5 F6]. split; [done|]. destruct todo; [|done]. intros n Hn. destruct (F6 n Hn); auto.
Qed.

Lemma clean_is v : clean v -> v = mkRole None None (ran v) None.
Proof. destruct v; intros (E1 & E2 & E3); cbn in *; by subst. Qed.
Definition taken (v : role) (c : claim) (id : gostring) : role := mkRole (Some c) None (ran v) (Some (claimed c, id)).
Lemma holds_taken v c id b x : holds v b -> objects b !! claimed c = Some x -> JobID_ x = id -> holds (taken v c id) b.
Proof. intros [H1 H2 H3] Ex E. split; [done|exact H2|]. intros g i [= <- <-]. eauto. Qed.
Lemma holds_retaken v c c' id b : claimed c' = claimed c -> holds (taken v c id) b -> holds (taken v c' id) b.
Proof. intros E [H1 H2 H3]. split; [done|exact H2|]. unfold taken. cbn. rewrite E. exact H3. Qed.
Lemma turn_retaken v b b' tr c c' id : knows (taken v c id) b -> calm b b' tr -> claimed c' = claimed c ->
  (forall x, objects b' !! claimed c = Some x -> JobID_ x = id -> claimOk c b' x -> claimOk c' b' x) -> turn (taken v c id) b b' (taken v c' id).
Proof.
  intros Hk Hc Ec Hx. eapply mild_turn; [done|apply Hc|by apply holds_retaken|]. intros rest Hr. cbn in *.
  apply (groups_restate c c'); [done| |by apply (calm_groups _ _ _ _ Hc)]. intros x Ex. apply Hx; [done|].
  destruct Hk as [_ [_ _ H3]]. destruct (H3 _ _ eq_refl) as (y & Ey & Ei). destruct (c_alike _ _ _ Hc _ _ Ey) as (y' & Ey' & Ha & _). simplify_eq. congruence.
Qed.
Lemma turn_take v id g c b : knows v b -> owns v = None -> groups b !! id = Some g -> claimed c = g ->
  (forall x, objects b !! g = Some x -> told g (log b) = 0 -> claimOk c b x) -> turn v b (b <| groups ::= delete id |>) (taken v c id).
Proof using fresh.
  intros Hk Hv Eg Ec Hc. destruct (i_groups _ (proj1 Hk) id g Eg) as (x & Ex & Eid). eapply mild_turn; [done|apply mild_take| |].
  - intros Hh. eapply holds_taken; [done|by rewrite Ec|done].
  - intros rest. unfold claims. rewrite Hv. cbn. apply (groups_take id g c); [apply Hk|done..].
Qed.
(** The end of a group that was taken. *)
Lemma plays_finish v c id o : clean v -> (forall b x, claimOk c b x -> settled (claimed c) o b x) ->
  plays (finishGroup (claimed c) o) (fun _ v' => v' = v) (taken v c id).
Proof.
  intros Hv Ho b u b' [[= <- <-]|[]] [HI Hh]. exists v. split; [|done].
  assert (holds v b) as Hvb by (rewrite (clean_is v Hv); destruct Hh as [_ H2 _]; split; [done|exact H2|done]).
  destruct (h_about _ _ Hh _ _ eq_refl) as (x & Ex & Ei). rewrite Ex. destruct (closed x) as [o'|] eqn:Ecl.
  - split; [done|done|by eapply mild_grows, mild_refl|]. intros rest (_ & _ & _ & Hg). specialize (Hg _ x Ex). unfold groupOk in Hg. rewrite Ecl in Hg.
    destruct Hg as (_ & _ & Hnot & _). destruct Hnot. by apply elem_of_cons; left.
  - pose proof (mild_finish _ o b x Ex Ecl) as Hm. pose proof (mild_grows _ _ _ Hm) as Hg. split; [by eapply mild_inv|by eapply jobs_holds_grows|done|].
    intros rest Hr. rewrite (clean_is v Hv). cbn in *. eapply groups_finish; [done..|by apply Ho|done].
Qed.
(** Sending word of it. *)
Lemma plays_tell v id g reason l {A} (k : unit -> prog A) P : clean v ->
  plays (k tt) P (taken v (Cut g reason (Some [])) id) ->
  plays (bind (each l (fun n => SendBusMessage name n (JobCancel id reason))) k) P (taken v (Cut g reason (Some l)) id).
Proof.
  intros Hv Hk. induction l as [|n l IH]; [done|]. cbn [each]. intros b u b' [[= <- <-]|[]] Hkn. exists (taken v (Cut g reason (Some l)) id).
  split; [|exact IH]. eapply turn_retaken; [done|by apply (calm_emit (callsOff n id reason))|done|].
  intros x Ex Ei [Ht Hn]. split; [done|]. intros m Hm. destruct (Hn m Hm) as [[->|?]%elem_of_cons|?]; [right|by left|by right].
  rewrite Ei. apply elem_of_app. right. by apply list_elem_of_singleton.
Qed.
Lemma jobs_quiet_CancelGroup id reason : quiet (CancelGroup name id reason).
Proof using fresh.
  intros v Hv. unfold CancelGroup. apply takes_act. intros b Hk. cbn [fst snd]. destruct (groups b !! id) as [g|] eqn:Eg.
  - exists (taken v (Cut g reason None) id). split; [apply (turn_take v id g (Cut g reason None)); [done|apply Hv|done..]|].
    apply takes_calm; [intros b'; exists []; apply calm_upd; apply alike_timed|].
    intros b1 names b1' [[= <- <-]|[]] Hk1. destruct (h_about _ _ (proj2 Hk1) _ _ eq_refl) as (x & Ex & Ei). cbn [claimed] in Ex. rewrite Ex.
    exists (taken v (Cut g reason (Some (WorkerNames x))) id). split.
    + eapply turn_retaken; [done|apply jobs_calm_refl|done|]. intros y Ey _ [Ht _]. cbn in Ey. assert (y = x) as -> by congruence. split; [done|]. intros n Hn. by left.
    + cbn [bind]. apply plays_tell; [done|]. apply (plays_finish v (Cut g reason (Some []))); [done|].
      intros b' y [Ht Hn]. cbn in *. split; [done|]. intros n Hin. destruct (Hn n Hin) as [[]%not_elem_of_nil|?]; done.
  - exists v. split; [|done]. eapply calm_turn; [done|]. split; [apply mild_take|done|cbn; by rewrite delete_id|].
    intros g x Ex. exists x. split; [done|apply alike_refl].
Qed.

(** ** Answers *)

Definition knowing (v : role) (g : nat) (id : gostring) : role := mkRole None None (ran v) (Some (g, id)).
Lemma holds_knowing v g id b : holds v b -> (exists x, objects b !! g = Some x /\ JobID_ x = id) -> holds (knowing v g id) b.
Proof. intros [H1 H2 H3] Hx. split; [done|exact H2|]. by intros h i [= <- <-]. Qed.
Lemma same_group g id h b : knows (knowing free g id) b -> groups b !! id = Some h -> h = g.
Proof using fresh.
  intros [HI Hh] Eh. destruct (i_groups _ HI id h Eh) as (x & Ex & Ei). destruct (h_about _ _ Hh _ _ eq_refl) as (y & Ey & Ej).
  apply fresh. rewrite <- (i_ids _ HI _ _ Ex), <- (i_ids _ HI _ _ Ey). congruence.
Qed.
Lemma mild_said g rs b : mild b (emit (OnJobCompleted g rs) b) [OnJobCompleted g rs].
Proof. by apply mild_emit. Qed.
(** It is said once that a group is complete, by whoever took it for that. *)
Lemma groups_said g rs rest b : groupsOk (Comp g false :: rest) b -> groupsOk (Comp g true :: rest) (emit (OnJobCompleted g rs) b).
Proof.
  intros (G1 & G2 & G3 & G4). set (b' := emit _ _). assert (log b' = log b ++ [OnJobCompleted g rs]) as El by done.
  assert (forall h, fins h (log b') = fins h (log b) /\ told h (log b') = told h (log b) + (if Nat.eqb g h then 1 else 0)) as Hc.
  { intros h. rewrite El, fins_snoc, told_snoc. cbn. lia. }
  assert (forall e, e ∈ log b -> e ∈ log b') as Hin by (intros e; rewrite El, elem_of_app; by left).
  cbn [List.map claimed] in G1. inversion G1 as [|? ? Hnot Hnd]; subst.
  split_and!; [done| | |].
  - intros d [->|Hd]%elem_of_cons; [apply (G2 (Comp g false)); by left|apply G2; by right].
  - intros h Hh. destruct (Hc h) as [-> ->]. destruct (G3 h Hh) as [-> ->]. destruct (Nat.eqb_spec g h) as [<-|_]; [|done].
    destruct (G2 (Comp g false)) as [x Ex]; [by left|]. apply lookup_lt_Some in Ex. cbn in *. lia.
  - intros h y Ey. specialize (G4 h y Ey). unfold groupOk in *. change (groups b') with (groups b). destruct (Hc h) as [-> Ht]. cbn [List.map claimed] in *.
    destruct (closed y) as [o|].
    + destruct G4 as (F1 & F2 & F3 & F4). split_and!; [done..|]. destruct (Nat.eqb_spec g h) as [<-|_]; [by destruct F3; left|].
      rewrite Nat.add_0_r in Ht. destruct o; cbn [settled] in *; rewrite Ht; [done|]. split; [apply F4|]. intros n Hn. apply Hin. by apply F4.
    + destruct G4 as (F1 & F2). split; [done|]. destruct F2 as [(F2 & F3 & F4)|(F2 & d & F3 & F4 & F5)]; [left|right].
      * split_and!; [done..|]. rewrite Ht. destruct (Nat.eqb_spec g h) as [<-|_]; [by destruct F3; left|lia].
      * split; [done|]. apply elem_of_cons in F3 as [->|F3].
        -- cbn in F4. subst h. rewrite Nat.eqb_refl in Ht. exists (Comp g true). split_and!; [by left|done|]. cbn [claimOk] in *. split; [lia|apply F5].
        -- destruct (Nat.eqb_spec g h) as [<-|_]; [destruct Hnot; rewrite <- F4; by apply list_elem_of_fmap_2|]. rewrite Nat.add_0_r in Ht.
           exists d. split_and!; [by right|done|]. destruct d as [g' reason todo|g' said]; cbn [claimed claimOk] in *; subst g'; rewrite Ht; [|exact F5].
           destruct F5 as [F5 F6]. split; [done|]. destruct todo; [|done]. intros n Hn. destruct (F6 n Hn); auto.
Qed.
Lemma jobs_quiet_track id source r : quiet (trackGroupResponse id source r).
Proof using fresh.
  intros v Hv. unfold trackGroupResponse. intros b og b' [[= <- <-]|[]] Hk. destruct (groups b !! id) as [g|] eqn:Eg.
  2: { exists v. split; [|done]. by apply calm_turn with [], jobs_calm_refl. }
  exists (knowing v g id). split.
  { eapply turn_weaken; [by apply calm_turn with [], jobs_calm_refl|cbn; symmetry; apply Hv|]. apply holds_knowing; [apply Hk|]. by eapply i_groups; [apply Hk|]. }
  cbn [bind]. apply takes_calm; [intros b'; exists []; apply calm_upd; apply alike_response|]. apply takes_act. clear b Hk Eg. intros b Hk. cbn [fst snd].
  destruct (h_about _ _ (proj2 Hk) _ _ eq_refl) as (x & Ex & Ei). rewrite Ex. destruct (groups b !! id) as [h|] eqn:Eh.
  2: { exists v. split; [|done]. cbn. eapply turn_weaken; [by apply calm_turn with [], jobs_calm_refl|cbn; apply Hv|]. rewrite (clean_is v Hv). by destruct (proj2 Hk). }
  assert (h = g) as -> by (eapply same_group; [|done]; split; [apply Hk|by destruct (proj2 Hk)]). rewrite bool_decide_eq_true_2 by done. cbn [andb].
  destruct (respondedToAll x) eqn:Er.
  2: { exists v. split; [|done]. eapply turn_weaken; [by apply calm_turn with [], jobs_calm_refl|cbn; apply Hv|]. rewrite (clean_is v Hv). by destruct (proj2 Hk). }
  exists (taken v (Comp g false) id). split.
  { apply (turn_take (knowing v g id) id g (Comp g false)); [done..|]. intros y Ey Ht. cbn. split; [done|]. congruence. }
  apply takes_calm; [intros b'; exists []; apply calm_upd; apply alike_timed|].
  intros b1 rs b1' [[= <- <-]|[]] Hk1. eexists. split; [by apply calm_turn with [], jobs_calm_refl|]. cbn [bind].
  intros b2 u b2' [[= <- <-]|[]] Hk2. exists (taken v (Comp g true) id). split.
  { eapply mild_turn; [done|apply mild_said|by apply holds_retaken|]. intros rest. apply groups_said. }
  apply (plays_finish v (Comp g true)); [done|]. by intros b' y.
Qed.
Lemma jobs_quiet_handleJobResponse m id st r : quiet (handleJobResponse name m id st r).
Proof using fresh.
  apply jobs_quiet_bind; [by apply jobs_quiet_log|intros _]. apply jobs_quiet_bind; [destruct (_ || _); [apply jobs_quiet_get|apply jobs_quiet_ret]|].
  intros [g|]; [|apply jobs_quiet_track]. repeat (apply jobs_quiet_bind; [|intros _]).
  - apply jobs_quiet_upd, alike_response.
  - by apply jobs_quiet_log.
  - apply jobs_quiet_CancelGroup.
Qed.

(** ** Asking *)

Definition opened (names : list gostring) (req : Request) (b : B) : B :=
  emit (Opened (length (objects b))) (b <| objects ::= fun l => l ++ [NewGroup (NewString (drawn b)) names (CancelsOnError req)] |>
    <| groups ::= insert (NewString (drawn b)) (length (objects b)) |> <| drawn ::= S |>).
Lemma opened_old names req b g x : objects b !! g = Some x -> objects (opened names req b) !! g = Some x.
Proof. intros Ex. cbn. by apply lookup_app_l_Some. Qed.
Lemma opened_grows names req b : grows b (opened names req b).
Proof. split; [by eexists|intros g x Ex; exists x; by rewrite (opened_old names req b g x Ex)|done|done|exists []; by rewrite app_nil_r]. Qed.
Lemma opened_inv names req b : inv b -> inv (opened names req b).
Proof.
  intros [I1 I2 I3 I4 I5].
  pose proof (opened_grows names req b) as Hg.
  assert (forall e, aloof e = false -> e ∈ log (opened names req b) -> e ∈ log b) as Hin.
  { intros e He H. eapply (aloof_in [Opened (length (objects b))]); [by repeat constructor|exact He|exact H]. }
  split.
  - intros g x. cbn. rewrite lookup_app_Some. intros [Ex|[Hle Ex]]; [by apply I1|]. destruct (g - length (objects b)) as [|k] eqn:E; [|done].
    injection Ex as <-. cbn. rewrite I2. f_equal. lia.
  - cbn. rewrite I2, length_app. cbn. lia.
  - intros id g. cbn. rewrite lookup_insert_Some. intros [[<- <-]|[_ Eg]].
    + eexists. split; [by apply list_lookup_middle|done].
    + destruct (I3 id g Eg) as (x & Ex & E). exists x. split; [by apply lookup_app_l_Some|done].
  - intros m id Hm Hr. destruct (I4 m id) as [?|?]; [by apply Hin|done|by left|right; by eapply answered_grows].
  - destruct I5. split; try done.
    + intros r c H1 H2. destruct (t_released0 r c H1 H2) as [?|?]; [left; by eapply grows_log|by right].
    + intros r x c H1 H2 H3. eapply t_began0; eauto.
    + intros r H. eapply grows_log; [done|]. apply t_returned0. by apply Hin.
    + intros r H. apply t_known0. by apply Hin.
Qed.
Lemma opened_groups names req own b : inv b -> groupsOk own b -> groupsOk own (opened names req b).
Proof using fresh.
  intros HI (G1 & G2 & G3 & G4). set (b' := opened names req b).
  assert (log b' = log b ++ [Opened (length (objects b))]) as El by done.
  assert (forall g, fins g (log b') = fins g (log b) /\ told g (log b') = told g (log b)) as Hc.
  { intros g. rewrite El, fins_snoc, told_snoc. cbn. lia. }
  assert (forall e, e ∈ log b -> e ∈ log b') as Hin by (intros e; rewrite El, elem_of_app; by left).
  split_and!; [done| | |].
  - intros c Hc'. destruct (G2 c Hc') as [x Ex]. exists x. by apply opened_old.
  - intros g Hg. destruct (Hc g) as [-> ->]. apply G3. unfold b' in Hg. cbn in Hg. rewrite length_app in Hg. cbn in Hg. lia.
  - intros g x Ex. cbn in Ex. rewrite lookup_app_Some in Ex. destruct Ex as [Ex|[Hle Ex]].
    + assert (groups b' !! JobID_ x = groups b !! JobID_ x) as Hg.
      { cbn. rewrite lookup_insert_ne; [done|]. rewrite (i_ids _ HI g x Ex), (i_drawn _ HI). intros E%fresh. apply lookup_lt_Some in Ex. lia. }
      specialize (G4 g x Ex). unfold groupOk in *. rewrite Hg. destruct (Hc g) as [-> Ht]. rewrite Ht. destruct (closed x) as [o|].
      * destruct G4 as (F1 & F2 & F3 & F4). split_and!; [done..|]. destruct o; cbn [settled] in *; rewrite Ht; [done|]. split; [apply F4|].
        intros n Hn. apply Hin. by apply F4.
      * destruct G4 as (F1 & F2). split; [done|]. destruct F2 as [?|(F2 & c & F3 & F4 & F5)]; [by left|right]. split; [done|]. exists c. split_and!; [done..|].
        destruct c as [g' reason todo|g' said]; cbn [claimed claimOk] in *; subst g'; rewrite Ht; [|done].
        destruct F5 as [F5 F6]. split; [done|]. destruct todo; [|done]. intros n Hn. destruct (F6 n Hn); auto.
    + destruct (g - length (objects b)) as [|k] eqn:E; [|done]. assert (g = length (objects b)) as -> by lia. injection Ex as <-.
      destruct (Hc (length (objects b))) as [H1 H2]. destruct (G3 (length (objects b)) ltac:(lia)) as [H3 H4]. unfold groupOk. cbn [closed NewGroup].
      rewrite H1, H2. split; [done|]. left. split_and!; [cbn; by rewrite lookup_insert_eq| |done].
      intros Hm. apply list_elem_of_fmap in Hm as (c & Ec & Hm). destruct (G2 c Hm) as [x Ex]. rewrite <- Ec in Ex. apply lookup_lt_Some in Ex. lia.
Qed.
Lemma jobs_quiet_createGroup names req : quiet (createGroup NewString names req).
Proof using fresh.
  intros v Hv. unfold createGroup. apply takes_act. intros b Hk. cbn [fst snd]. exists v. split.
  - change (turn v b (opened names req b) v).
    pose proof (opened_grows names req b) as Hg.
    split; [by apply opened_inv, Hk|by eapply jobs_holds_grows, Hk|done|]. intros rest. by apply opened_groups, Hk.
  - clear Hk. revert v Hv. change (quiet (let! _ := (if hasTimeout req then do_ (fun b0 => upd (length (objects b)) (fun x => x <| timed := true |>) b0) ;;;
      do_ (fun b0 => b0 <| timers ::= fun l => l ++ [length (objects b)] |>) else skip) in Ret (length (objects b)))).
    apply jobs_quiet_bind; [|intros; apply jobs_quiet_ret]. destruct (hasTimeout req); [|apply jobs_quiet_ret].
    apply jobs_quiet_bind; [apply jobs_quiet_upd; apply alike_timed|intros _]. apply jobs_quiet_act. intros b1 u b2 [[= <- <-]|[]]. exists [].
    split; try done; [split; try done; [by rewrite app_nil_r|eauto]|]. intros g x Ex. exists x. split; [done|apply alike_refl].
Qed.

(** ** Handlers *)

Lemma books_turn v v' b b' : knows v b -> books b b' -> grows b b' -> inv b' -> owns v' = owns v -> (holds v b' -> holds v' b') -> turn v b b' v'.
Proof.
  intros [HI Hh] Hb Hg HI' Eo Hv. split; [done|apply Hv; by eapply jobs_holds_grows|done|]. intros rest. unfold claims. rewrite Eo. by apply books_groups.
Qed.
Lemma snoc_lookup {A} (l : list A) x r y : (l ++ [x]) !! r = Some y <-> l !! r = Some y \/ r = length l /\ y = x.
Proof.
  rewrite lookup_app_Some. split; (intros [?|[H1 H2]]; [by left|right]).
  - destruct (r - length l) as [|k] eqn:E; [|done]. injection H2 as ->. split; [lia|done].
  - subst. rewrite Nat.sub_diag. by split.
Qed.
Lemma snoc_in (l : list event) e e' : e' ∈ l ++ [e] <-> e' ∈ l \/ e' = e.
Proof. by rewrite elem_of_app, list_elem_of_singleton. Qed.
Lemma accept_parts m id nm b : exists x,
  runs (accept handlers m id nm b) = runs b ++ [x]
  /\ log (accept handlers m id nm b) = log b ++ [Accepted m]
  /\ releases (accept handlers m id nm b) = releases b /\ canceled (accept handlers m id nm b) = canceled b
  /\ (rName x = None /\ rWait x = None /\ rRelease x = None /\ sequential (accept handlers m id nm b) = sequential b /\ channels (accept handlers m id nm b) = channels b
      \/ rName x = Some nm /\ rWait x = sequential b !! nm /\ rRelease x = Some (channels b)
         /\ sequential (accept handlers m id nm b) = <[nm := channels b]> (sequential b) /\ channels (accept handlers m id nm b) = S (channels b)).
Proof. unfold accept. destruct (isSequential handlers nm); eexists; (split_and!; [done..|]); [by right|by left]. Qed.
Lemma accept_turns m id nm b : turnsOk b -> turnsOk (accept handlers m id nm b).
Proof.
  intros T. destruct (accept_parts m id nm b) as (x & Er & El & Ee & Ec & Hx). set (b' := accept _ _ _ _ _) in *.
  assert (forall n r, named n b' r <-> named n b r \/ r = length (runs b) /\ rName x = Some n) as Hn.
  { intros n r. unfold named. rewrite Er. setoid_rewrite snoc_lookup. naive_solver. }
  assert (forall r c, releasing b' r c <-> releasing b r c \/ r = length (runs b) /\ rRelease x = Some c) as Hr.
  { intros n r. unfold releasing. rewrite Er. setoid_rewrite snoc_lookup. naive_solver. }
  assert (forall n r, named n b r -> r < length (runs b)) as Hlt by (intros n r (y & Ey & _); by eapply lookup_lt_Some).
  assert (forall n r q, r <= length (runs b) -> lastBefore n b r q -> lastBefore n b' r q) as Hlast.
  { intros n r q Hle (L1 & L2 & L3). split_and!; [apply Hn; by left|done|]. intros p [Hp|[-> _]]%Hn Hlt'; [by apply L3|lia]. }
  assert (forall e, e ∈ log b -> e ∈ log b') as Hin by (intros e H; rewrite El; apply snoc_in; by left).
  assert (forall r, Began r ∈ log b' -> Began r ∈ log b) as Hb by (intros r; rewrite El, snoc_in; by intros [?|?]).
  assert (forall r, Returned r ∈ log b' -> Returned r ∈ log b) as Hb' by (intros r; rewrite El, snoc_in; by intros [?|?]).
  split.
  - intros r c [H|[-> H]]%Hr; [apply (t_channel _ T) in H; destruct Hx as [(_ & _ & _ & _ & ->)|(_ & _ & _ & _ & ->)]; lia|].
    destruct Hx as [(_ & _ & E & _ & ->)|(_ & _ & E & _ & ->)]; [congruence|]. rewrite E in H. injection H as <-. lia.
  - intros r r' c H%Hr H'%Hr. destruct H as [H|[-> H]], H' as [H'|[-> H']]; [by eapply (t_channels _ T)| | |done].
    + apply (t_channel _ T) in H. destruct Hx as [(_ & _ & E & _)|(_ & _ & E & _)]; [congruence|]. rewrite E in H'. injection H' as <-. lia.
    + apply (t_channel _ T) in H'. destruct Hx as [(_ & _ & E & _)|(_ & _ & E & _)]; [congruence|]. rewrite E in H. injection H as <-. lia.
  - intros r y n. rewrite Er, snoc_lookup. intros [Ey|[-> ->]] En; [by eapply (t_named _ T)|]. destruct Hx as [(E & _)|(_ & _ & E & _)]; [congruence|eauto].
  - intros r y n. rewrite Er, snoc_lookup. intros [Ey|[-> ->]] En Ew q [Hq|[-> Hq]]%Hn; [by eapply (t_first _ T)|apply lookup_lt_Some in Ey; lia| |done].
    destruct Hx as [(E & _)|(E & E' & _)]; [congruence|]. rewrite E in En. injection En as <-. rewrite E' in Ew. by destruct (t_none _ T _ Ew q).
  - intros r y n c. rewrite Er, snoc_lookup. intros [Ey|[-> ->]] En Ew.
    + destruct (t_next _ T r y n c) as (q & H1 & H2); [done..|]. exists q. split; [apply Hlast; [apply lookup_lt_Some in Ey; lia|done]|apply Hr; by left].
    + destruct Hx as [(E & _)|(E & E' & _)]; [congruence|]. rewrite E in En. injection En as <-. rewrite E' in Ew.
      destruct (t_last _ T _ _ Ew) as (q & H1 & H2). exists q. split; [by apply Hlast|apply Hr; by left].
  - intros n Es r [H|[-> H]]%Hn; destruct Hx as [(E & _ & _ & E' & _)|(E & _ & _ & E' & _)]; rewrite E' in Es; [by apply (t_none _ T n Es r)| |congruence|].
    + apply lookup_insert_None in Es as [Es _]. by apply (t_none _ T n Es r).
    + apply lookup_insert_None in Es as [_ Es]. congruence.
  - intros n c Es. rewrite Er, length_app. cbn [length]. destruct Hx as [(E & _ & _ & E' & _)|(E & _ & E'' & E' & _)]; rewrite E' in Es.
    + destruct (t_last _ T n c Es) as (q & (L1 & L2 & L3) & H2). exists q. split; [|apply Hr; by left]. split_and!; [apply Hn; by left|lia|].
      intros p [Hp|[-> Hp]]%Hn _; [apply L3; [done|by eapply Hlt]|congruence].
    + apply lookup_insert_Some in Es as [[<- <-]|[Hne Es]].
      * exists (length (runs b)). split; [|apply Hr; by right]. split_and!; [apply Hn; by right|lia|]. intros p _. lia.
      * destruct (t_last _ T n c Es) as (q & (L1 & L2 & L3) & H2). exists q. split; [|apply Hr; by left]. split_and!; [apply Hn; by left|lia|].
        intros p [Hp|[-> Hp]]%Hn _; [apply L3; [done|by eapply Hlt]|congruence].
  - intros r c [H|[-> H]]%Hr; rewrite Ee; intros Hc; [destruct (t_released _ T r c H Hc) as [?|?]; [left; auto|right; by rewrite Ec]|].
    destruct Hx as [(_ & _ & E & _)|(_ & _ & E & _)]; [congruence|]. rewrite E in H. injection H as <-. apply (t_closed _ T) in Hc. lia.
  - intros r y c. rewrite Er, snoc_lookup, Ee. intros [Ey|[-> ->]] Ew HB%Hb; [by eapply (t_began _ T)|]. apply (t_known _ T) in HB. lia.
  - intros r H%Hb'. apply Hin. by apply (t_returned _ T).
  - intros c. rewrite Ee. intros Hc%(t_closed _ T). destruct Hx as [(_ & _ & _ & _ & ->)|(_ & _ & _ & _ & ->)]; lia.
  - intros r H%Hb%(t_known _ T). rewrite Er, length_app. lia.
Qed.
Lemma turn_accept m id nm v b : knows v b -> requestOf m = Some id -> turn v b (accept handlers m id nm b) v.
Proof.
  intros Hk Hm. destruct (accept_parts m id nm b) as (x & Er & El & Ee & Ec & _). destruct Hk as [HI Hh].
  assert (forall b0, objects (accept handlers m id nm b0) = objects b0 /\ groups (accept handlers m id nm b0) = groups b0 /\ drawn (accept handlers m id nm b0) = drawn b0
    /\ activeJobs (accept handlers m id nm b0) = <[id := m]> (activeJobs b0)) as Hsame by (intros b0; unfold accept; by destruct (isSequential _ _)).
  destruct (Hsame b) as (Eo & Eg & Ed & Ea). assert (grows b (accept handlers m id nm b)) as Hg.
  { split; [by eexists|rewrite Eo; eauto|by rewrite Ec|by rewrite Ee|by eexists]. }
  apply books_turn; [done| |done| |done|done].
  - split; [exists [Accepted m]; split; [done|by repeat constructor]|done|by rewrite Eo|]. rewrite Eo. intros g y Ey. exists y. split; [done|apply alike_refl].
  - destruct HI as [I1 I2 I3 I4 I5]. split; rewrite ?Eo, ?Eg, ?Ed; [done..| |by apply accept_turns].
    intros m' i Hin Hr. rewrite Ea. rewrite El, snoc_in in Hin. destruct (decide (id = i)) as [->|Hne]; [left; rewrite lookup_insert_eq; eauto|].
    destruct Hin as [Hin|[= ->]]; [|congruence]. rewrite lookup_insert_ne by done. destruct (I4 m' i Hin Hr); [by left|right; by eapply answered_grows].
Qed.

(** One handler's goroutine. *)
Definition handling (r : nat) (x : run) (d : phase) : role := mkRole None None (Some (r, x, d)) None.
Lemma holds_handling r x d d' b : holds (handling r x d) b -> standing r x d' b -> holds (handling r x d') b.
Proof. intros [H1 H2 H3] Hd. split; [done| |done]. intros r' x' d'' [= <- <- <-]. split; [|done]. by eapply (H2 r x d). Qed.
Lemma emit_books e b : unfinished e = true -> books b (emit e b).
Proof. intros He. split; [exists [e]; split; [done|by repeat constructor]|done..|]. intros g x Ex. exists x. split; [done|apply alike_refl]. Qed.
Lemma emit_grows e b : grows b (emit e b).
Proof. split; [by exists [e]|by eauto|done|done|exists []; by rewrite app_nil_r]. Qed.
(** The log alone: what it says of handlers is put right by whoever writes it. *)
Lemma emit_inv e b : inv b -> (forall m, e <> Accepted m) ->
  (forall r x c, e = Began r -> runs b !! r = Some x -> rWait x = Some c -> c ∈ releases b) ->
  (forall r, e = Began r -> r < length (runs b)) -> (forall r, e = Returned r -> Began r ∈ log b) -> inv (emit e b).
Proof.
  intros [I1 I2 I3 I4 [T1 T2 T3 T4 T5 T6 T7 T8 T9 T10 T11 T12]] Ha H1 H2 H3.
  assert (forall e', e' ∈ log (emit e b) <-> e' ∈ log b \/ e' = e) as Hin by (intros e'; apply snoc_in).
  split; [done..| |].
  - intros m id [Hm|Hm]%Hin Hr; [|by destruct (Ha m)]. destruct (I4 m id Hm Hr) as [?|?]; [by left|right]. eapply answered_grows; [apply emit_grows|done].
  - split; try done.
    + intros r c Hr Hc. destruct (T8 r c Hr Hc) as [?|?]; [left; apply Hin; by left|by right].
    + intros r x c Hx Hw [HB|HB]%Hin; [by eapply T9|by eapply H1].
    + intros r [HB|HB]%Hin; apply Hin; left; [by apply T10|by apply H3].
    + intros r [HB|HB]%Hin; [by apply T12|by eapply H2].
Qed.
Lemma release_inv r x c b : inv b -> runs b !! r = Some x -> rRelease x = Some c -> Returned r ∈ log b \/ r ∈ canceled b ->
  inv (b <| releases ::= union {[c]} |>).
Proof.
  intros [I1 I2 I3 I4 [T1 T2 T3 T4 T5 T6 T7 T8 T9 T10 T11 T12]] Ex Ec Hd. assert (releasing b r c) as Hr by (by exists x).
  split; try done. split; try done.
  - intros r' c' Hr' [->%elem_of_singleton|Hc']%elem_of_union; [|by apply T8 with c']. by rewrite (T2 r' r c Hr' Hr).
  - intros r' x' c' Ex' Ew HB. cbn. apply elem_of_union. right. by eapply T9.
  - intros c' [->%elem_of_singleton|Hc']%elem_of_union; [by eapply T1|by apply T11].
Qed.
Lemma plays_runJobHandler r x : plays (runJobHandler r x) (fun _ v' => clean v') (handling r x Waiting).
Proof.
  assert (plays (let! _ := match rRelease x return Jobs.prog unit with Some c => do_ (fun b => b <| releases ::= union {[c]} |>) | None => skip end in
    do_ (fun b => b <| jobHandlers ::= delete (rID x) |>)) (fun _ v' => clean v') (handling r x Gone)) as Hend.
  { assert (plays (do_ (fun b => b <| jobHandlers ::= delete (rID x) |>) : Jobs.prog unit) (fun _ v' => clean v') (handling r x Gone)) as Hforget.
    { intros b u b' [[= <- <-]|[]] Hk. exists (handling r x Gone). split; [|done]. apply calm_turn with []; [done|].
      split; try done; [split; try done; [by rewrite app_nil_r|eauto]|]. intros g y Ey. exists y. split; [done|apply alike_refl]. }
    destruct (rRelease x) as [c|] eqn:Ec; [|exact Hforget]. eapply takes_do; [|exact Hforget]. intros b Hk.
    destruct (h_ran _ _ (proj2 Hk) _ _ _ eq_refl) as [Ex Hd]. apply books_turn; [done| | |by eapply release_inv; [apply Hk|..]|done|done].
    - split; [exists []; by rewrite app_nil_r|done..|]. intros g y Ey. exists y. split; [done|apply alike_refl].
    - split; [exists []; by rewrite app_nil_r|eauto|done|cbn; set_solver|exists []; by rewrite app_nil_r]. }
  intros b turns b' Hin Hk. destruct (h_ran _ _ (proj2 Hk) _ _ _ eq_refl) as [Ex _].
  assert (b' = b /\ exists d, standing r x d b /\ d = if turns then AtTurn else Gone) as [-> (d & Hd & ->)].
  { destruct (rWait x) as [c|] eqn:Ew.
    - apply in_app_or in Hin as [Hin|Hin]; (case_bool_decide as Hc; [|done]); destruct Hin as [[= <- <-]|[]]; (split; [done|eexists; split; [|reflexivity]]).
      + intros c' E. rewrite Ew in E. by injection E as <-.
      + by right.
    - destruct Hin as [[= <- <-]|[]]. split; [done|]. exists AtTurn. split; [|done]. cbn. congruence. }
  exists (handling r x (if turns then AtTurn else Gone)). split.
  { eapply turn_weaken; [by apply calm_turn with [], jobs_calm_refl|done|]. by eapply holds_handling; [apply Hk|]. }
  cbn [bind]. destruct turns; [|exact Hend]. cbn [when bind].
  intros b1 u b1' [[= <- <-]|[]] Hk1. destruct (h_ran _ _ (proj2 Hk1) _ _ _ eq_refl) as [Ex1 Hd1]. exists (handling r x Inside). split.
  { apply books_turn; [done|by apply emit_books|apply emit_grows| |done|].
    - apply emit_inv; [apply Hk1|done| | |done].
      + intros r' x' c [= <-] Ex' Ew. apply Hd1. congruence.
      + intros r' [= <-]. by eapply lookup_lt_Some.
    - intros Hh. eapply holds_handling; [exact Hh|]. apply snoc_in. by right. }
  cbn [bind]. intros b2 u2 b2' [[= <- <-]|[]] Hk2. destruct (h_ran _ _ (proj2 Hk2) _ _ _ eq_refl) as [Ex2 Hd2]. exists (handling r x Gone). split; [|exact Hend].
  apply books_turn; [done|by apply emit_books|apply emit_grows| |done|].
  - apply emit_inv; [apply Hk2|done|done|done|]. by intros r' [= <-].
  - intros Hh. eapply holds_handling; [exact Hh|]. left. apply snoc_in. by right.
Qed.

(** ** Everything that goes on *)

Lemma jobs_quiet_timeout g : quiet (timeout_ name g).
Proof using fresh.
  apply jobs_quiet_bind; [|intros _].
  { apply jobs_quiet_act. intros b u b' [[= <- <-]|[]]. exists []. split; try done; [split; try done; [by rewrite app_nil_r|eauto]|].
    intros h x Ex. exists x. split; [done|apply alike_refl]. }
  apply jobs_quiet_bind; [apply jobs_quiet_get|intros id]. apply jobs_quiet_bind; [|intros fires; apply jobs_quiet_when, jobs_quiet_CancelGroup].
  apply jobs_quiet_act. intros b fires b' Hin. exists []. assert (b' = b) as ->; [|apply jobs_calm_refl].
  destruct (objects b !! g) as [x|]; [destruct (timed x)|]; cbn in Hin; naive_solver.
Qed.
Lemma jobs_quiet_send to x : quiet (SendBusMessage name to x).
Proof. by apply jobs_quiet_log. Qed.
Lemma jobs_quiet_either {A} (l : list A) : quiet (Act (fun b => List.map (fun a => (a, b)) l) Ret).
Proof. apply (jobs_quiet_choose (fun _ => l)). Qed.
Lemma jobs_quiet_request names req : quiet (CreateGroupAndRequestJob name NewString names req).
Proof using fresh.
  apply jobs_quiet_bind; [apply (jobs_quiet_either [true; false])|]. intros []; [|apply jobs_quiet_ret]. cbn [negb].
  apply jobs_quiet_bind; [apply jobs_quiet_createGroup|intros g]. apply jobs_quiet_bind; [apply jobs_quiet_get|intros id].
  apply jobs_quiet_bind; [apply jobs_quiet_each; intros n; apply jobs_quiet_send|intros _; apply jobs_quiet_ret].
Qed.
Lemma jobs_quiet_Wait g : quiet (Wait g).
Proof.
  apply jobs_quiet_act. intros b w b' Hin. exists []. assert (b' = b) as ->; [|apply jobs_calm_refl].
  destruct (objects b !! g) as [x|]; [destruct (closed x)|]; cbn in Hin; naive_solver.
Qed.
Lemma jobs_quiet_RunGroup names req : quiet (RunGroup name NewString names req).
Proof using fresh.
  apply jobs_quiet_bind; [apply jobs_quiet_request|]. intros [g|]; [|apply jobs_quiet_ret].
  apply jobs_quiet_bind; [apply (jobs_quiet_either [true; false])|]. intros []; [apply jobs_quiet_Wait|].
  apply jobs_quiet_bind; [apply jobs_quiet_get|intros id]. apply jobs_quiet_bind; [apply jobs_quiet_get|intros has].
  apply jobs_quiet_bind; [apply jobs_quiet_when, jobs_quiet_CancelGroup|intros _; apply jobs_quiet_ret].
Qed.
Lemma jobs_quiet_next g : quiet (nextEvent g).
Proof.
  apply jobs_quiet_act. intros b e b' Hin. exists []. destruct (objects b !! g) as [x|]; [|done]. destruct (events x) as [|e' l].
  - destruct (closed x); [|done]. destruct Hin as [[= <- <-]|[]]. apply jobs_calm_refl.
  - destruct Hin as [[= <- <-]|[]]. apply calm_upd. by intros y; split_and!.
Qed.
Lemma jobs_quiet_Stop : quiet (Stop name).
Proof using fresh.
  apply jobs_quiet_bind; [apply jobs_quiet_get|intros gs]. apply jobs_quiet_bind; [apply jobs_quiet_each; intros id; apply jobs_quiet_CancelGroup|intros _].
  apply jobs_quiet_bind; [apply jobs_quiet_get|intros js].
  apply jobs_quiet_bind; [apply jobs_quiet_each; intros id; apply jobs_quiet_bind; [apply jobs_quiet_SendJobResponse|intros _; apply jobs_quiet_ret]|intros _].
  apply jobs_quiet_bind; [|intros rs; apply jobs_quiet_bind; [apply jobs_quiet_each, jobs_quiet_stopRun|intros _]].
  2: { apply jobs_quiet_act. intros b u b' [[= <- <-]|[]]. case_bool_decide; [exists []; apply jobs_calm_refl|exists [Stopped]; by apply calm_emit]. }
  apply jobs_quiet_act. intros b u b' [[= <- <-]|[]]. exists []. split; try done; [split; try done; [by rewrite app_nil_r|eauto]|].
  intros h x Ex. exists x. split; [done|apply alike_refl].
Qed.
Lemma jobs_quiet_message m : quiet (OnBusMessage name handlers m).
Proof using fresh.
  unfold OnBusMessage. destruct (_ && _); [apply jobs_quiet_ret|]. unfold handleJobMessage. destruct (what m) eqn:Em.
  - apply jobs_quiet_bind; [|intros _; by apply jobs_quiet_log]. intros v Hv b u b' [[= <- <-]|[]] Hk. exists v. split; [|done].
    apply turn_accept; [done|]. unfold requestOf. by rewrite Em.
  - apply jobs_quiet_handleJobResponse.
  - apply jobs_quiet_bind; [by apply jobs_quiet_log|intros _; apply jobs_quiet_report].
  - apply jobs_quiet_bind; [apply jobs_quiet_get|intros a; by apply jobs_quiet_when, jobs_quiet_log].
  - apply jobs_quiet_bind; [apply jobs_quiet_get|]. intros [a|]; [|apply jobs_quiet_ret]. apply jobs_quiet_bind; [apply jobs_quiet_get|intros running].
    apply jobs_quiet_bind; [destruct running; [apply jobs_quiet_stopRun|apply jobs_quiet_ret]|intros _]. apply jobs_quiet_bind; [by apply jobs_quiet_log|intros _].
    apply jobs_quiet_bind; [apply jobs_quiet_SendJobResponse|intros _; apply jobs_quiet_ret].
  - apply jobs_quiet_bind; [by apply jobs_quiet_log|intros _; apply jobs_quiet_report].
  - apply jobs_quiet_bind; [by apply jobs_quiet_log|intros _; apply jobs_quiet_report].
  - apply jobs_quiet_bind; [by apply jobs_quiet_log|intros _]. apply jobs_quiet_bind; [apply jobs_quiet_report|intros _; apply jobs_quiet_track].
Qed.

(** ** Every run *)

Lemma groups_perm own own' b : own ≡ₚ own' -> groupsOk own b -> groupsOk own' b.
Proof.
  intros Hp (G1 & G2 & G3 & G4). assert (List.map claimed own ≡ₚ List.map claimed own') as Hm by (by apply Permutation_map).
  split_and!; [by rewrite <- Hm|intros c Hc; apply G2; by rewrite Hp|done|]. intros g x Ex. specialize (G4 g x Ex). unfold groupOk in *.
  destruct (closed x); [by rewrite <- Hm|]. destruct G4 as (F1 & F2). split; [done|]. destruct F2 as [F2|(F2 & c & F3 & F4)]; [left; by rewrite <- Hm|right].
  split; [done|]. exists c. by rewrite <- Hp.
Qed.
Definition going (b : B) (p : Jobs.prog unit) (v : role) : Prop := plays p (fun _ v' => clean v') v /\ holds v b.
Definition sound_ (y : Sys) : Prop :=
  inv (state y) /\ exists vs, Forall2 (going (state y)) (procs y) vs /\ groupsOk (flat_map claims vs) (state y).
Lemma going_grows b b' p v : grows b b' -> going b p v -> going b' p v.
Proof. intros Hg [Hp Hh]. split; [done|by eapply jobs_holds_grows]. Qed.
Lemma jobs_quiet_going p b : quiet p -> going b p free.
Proof. intros Hp. split; [|apply holds_free]. eapply takes_mono; [by apply Hp|]. by intros [] v' ->. Qed.
Lemma jobs_quiet_then {A} (p : Jobs.prog A) : quiet p -> quiet (p ;;; skip).
Proof. intros Hp. apply jobs_quiet_bind; [done|intros _; apply jobs_quiet_ret]. Qed.
Lemma start_going c b p : start name handlers NewString c b = Some p -> exists v, claims v = [] /\ going b p v.
Proof using fresh.
  intros E. assert (quiet p \/ exists r x, p = runJobHandler r x /\ runs b !! r = Some x) as [Hq|(r & x & -> & Ex)].
  { destruct c as [| | | | | | | | | | |r|g]; cbn [start] in E; try (apply (inj Some) in E as <-; left); try apply jobs_quiet_then.
    - apply jobs_quiet_message.
    - apply jobs_quiet_RunGroup.
    - apply jobs_quiet_request.
    - apply jobs_quiet_CancelGroup.
    - apply jobs_quiet_SendJobResponse.
    - apply jobs_quiet_sendAbout.
    - apply jobs_quiet_sendAbout.
    - apply jobs_quiet_sendAbout.
    - apply jobs_quiet_SendJobStreamEnd.
    - apply jobs_quiet_Stop.
    - apply jobs_quiet_next.
    - right. destruct (runs b !! r) as [x|] eqn:Ex; [|done]. injection E as <-. by exists r, x.
    - case_decide; [|done]. injection E as <-. left. apply jobs_quiet_timeout. }
  - exists free. split; [done|by apply jobs_quiet_going].
  - exists (handling r x Waiting). split; [done|]. split; [apply plays_runJobHandler|]. split; [done| |done]. by intros r' x' d [= <- <- <-].
Qed.
Lemma sound_begin c p y bs : sound_ y -> start name handlers NewString c (state y) = Some p -> sound_ (mkSys (state y) (procs y ++ [p]) bs).
Proof using fresh.
  intros (HI & vs & Hvs & Hg) E. destruct (start_going c (state y) p E) as (v & Ev & Hp). split; [done|]. exists (vs ++ [v]).
  split; [apply Forall2_app; [done|by constructor]|]. cbn [state]. rewrite flat_map_app. cbn [flat_map]. by rewrite Ev, !app_nil_r.
Qed.
Lemma sound_turn l1 p l2 p' b b' bs v vs1 vs2 : inv b -> Forall2 (going b) l1 vs1 -> Forall2 (going b) l2 vs2 -> groupsOk (flat_map claims (vs1 ++ v :: vs2)) b ->
  (exists v', turn v b b' v' /\ plays p' (fun _ v' => clean v') v') -> sound_ (mkSys b' (<[length l1 := p']> (l1 ++ p :: l2)) bs).
Proof.
  intros HI H1 H2 Hg (v' & [R1 R2 R3 R4] & Hp). split; [done|]. exists (vs1 ++ v' :: vs2). cbn [procs state]. split.
  - rewrite insert_at. apply (Forall2_around (going b)); [intros q w; by apply going_grows|done..|by split].
  - assert (forall w, flat_map claims (vs1 ++ w :: vs2) ≡ₚ claims w ++ flat_map claims (vs1 ++ vs2)) as E.
    { intros w. rewrite !flat_map_app. cbn. by rewrite Permutation_app_swap_app. }
    eapply groups_perm; [symmetry; apply E|]. apply R4. by eapply groups_perm; [apply E|].
Qed.
Lemma jobs_step c y y' : sound_ y -> step name handlers NewString c y = Some y' -> sound_ y'.
Proof using fresh.
  intros Hy E. assert (forall c bs, match start name handlers NewString c (state y) with Some p => Some (mkSys (state y) (procs y ++ [p]) bs) | None => None end = Some y' -> sound_ y') as Hb.
  { intros c' bs E'. destruct (start _ _ _ c' (state y)) as [p|] eqn:Ep; [|done]. injection E' as <-. by eapply sound_begin. }
  destruct c as [c|i n]; [destruct c; cbn [step] in E; try (by eapply Hb)|].
  { case_decide; [done|]. by eapply Hb. }
  cbn in E. destruct (procs y !! i) as [p|] eqn:Ep; [|done]. destruct (runNth p n (state y)) as [[p' b']|] eqn:Er; [|done]. injection E as <-.
  destruct Hy as (HI & vs & Hvs & Hg). destruct (lookup_at _ _ _ Ep) as (l1 & l2 & -> & El).
  rewrite El in Hvs |- *. destruct (Forall2_at _ _ _ _ _ Hvs) as (vs1 & v & vs2 & -> & H1 & [Hp Hh] & H2).
  eapply sound_turn; [done..|]. unfold runNth in Er. destruct p as [| |]; [done| |done]. destruct (List.nth_error (f (state y)) n) as [[r b1]|] eqn:En; [|done].
  injection Er as <- <-. apply nth_error_In in En. by apply (Hp _ _ _ En).
Qed.
Lemma jobs_exec cs : forall y y', sound_ y -> exec name handlers NewString cs y = Some y' -> sound_ y'.
Proof using fresh.
  induction cs as [|c cs IH]; intros y y' Hy E; cbn in E; [by injection E as <-|]. destruct (step _ _ _ c y) as [y1|] eqn:E1; [|done].
  eapply IH; [|exact E]. by eapply jobs_step.
Qed.
Lemma jobs_boot : sound_ boot.
Proof.
  assert (forall l : list event, forall e, e ∈ @nil event -> False) as Hno by (intros l e He; by apply not_elem_of_nil in He).
  split.
  - split; cbn; try done; [intros m id Hm; by destruct (Hno [] _ Hm)|]. split; cbn; try done; unfold named, lastBefore, releasing; cbn; try (by intros; naive_solver).
    all: try (intros ? H; by destruct (Hno [] _ H)).
    all: intros; set_solver.
  - exists []. split; [by constructor|]. split_and!; [by constructor|intros c Hc; by apply not_elem_of_nil in Hc|done|done].
Qed.
Lemma idle_claims b ps vs : Forall2 (going b) ps vs -> Forall (fun p => idle p = true) ps -> flat_map claims vs = [].
Proof.
  induction 1 as [|p v ps vs [Hp _] _ IH]; intros Hi; [done|]. inversion Hi as [|? ? Hp' Hi']; subst. cbn. rewrite IH by done.
  destruct p; [|done|done]. destruct Hp as (_ & Eo & _). unfold claims. by rewrite Eo.
Qed.

Definition ran_to (cs : list choice) (y : Sys) : Prop := exec name handlers NewString cs boot = Some y.
Lemma ran_sound cs y : ran_to cs y -> sound_ y.
Proof using fresh. intros E. eapply jobs_exec; [apply jobs_boot|exact E]. Qed.

(** C36: However answers, errors, timeouts, cancellations and the stop of the worker
    interleave: when every goroutine has done, a group that was opened is still on the
    books, with nothing said of it; or it is off them and has ended once.  One that ended
    as complete was reported so once and all its workers had answered; one cut short was
    never reported complete, and each of its workers was told to cancel. *)
Theorem group_settled cs y g x : ran_to cs y -> Forall (fun p => idle p = true) (procs y) -> objects (state y) !! g = Some x ->
  groups (state y) !! JobID_ x = Some g /\ closed x = None /\ fins g (log (state y)) = 0 /\ told g (log (state y)) = 0
  \/ groups (state y) !! JobID_ x <> Some g /\ fins g (log (state y)) = 1 /\ exists o, closed x = Some o /\ settled g o (state y) x.
Proof using fresh.
  intros E Hi Ex. destruct (ran_sound _ _ E) as (_ & vs & Hvs & Hg). rewrite (idle_claims _ _ _ Hvs Hi) in Hg.
  destruct Hg as (_ & _ & _ & Hg). specialize (Hg g x Ex). unfold groupOk in Hg. destruct (closed x) as [o|].
  - right. destruct Hg as (H1 & H2 & _ & H4). eauto.
  - left. destruct Hg as (H1 & [(H2 & _ & H3)|(_ & c & Hc & _)]); [done|by apply not_elem_of_nil in Hc].
Qed.

(** At any moment of any run a group has ended at most once, and how it ended is
    how its caller and its workers were told. *)
Theorem group_ends_once cs y g x : ran_to cs y -> objects (state y) !! g = Some x ->
  match closed x with
  | None => fins g (log (state y)) = 0
  | Some o => fins g (log (state y)) = 1 /\ groups (state y) !! JobID_ x <> Some g /\ settled g o (state y) x
  end.
Proof using fresh.
  intros E Ex. destruct (ran_sound _ _ E) as (_ & vs & Hvs & _ & _ & _ & Hg). specialize (Hg g x Ex). unfold groupOk in Hg.
  destruct (closed x); [by destruct Hg as (? & ? & _ & ?)|apply Hg].
Qed.

(** A job taken on is on the list of those being worked on until it is answered,
    whoever ends it: its handler, a cancellation or the stop of the worker. *)
Theorem job_kept_or_answered cs y m id : ran_to cs y -> Accepted m ∈ log (state y) -> requestOf m = Some id ->
  is_Some (activeJobs (state y) !! id) \/ answered id (state y).
Proof using fresh. intros E. destruct (ran_sound _ _ E) as [HI _]. apply (i_answered _ HI). Qed.

(** C37: The handlers of a job that takes turns run one at a time and in the order of
    their requests, as long as none of those before was called off: when one has
    begun, every earlier one has returned. *)
Theorem turns_are_taken cs y n r r' : ran_to cs y -> named n (state y) r -> named n (state y) r' -> r < r' ->
  (forall q, named n (state y) q -> q < r' -> ~ q ∈ canceled (state y)) -> Began r' ∈ log (state y) -> Returned r ∈ log (state y).
Proof using fresh.
  intros E Hr Hr' Hlt. destruct (ran_sound _ _ E) as [HI _]. pose proof (i_turns _ HI) as T. revert Hr' Hlt.
  induction (lt_wf r') as [r' _ IH]. intros (x & Ex & En) Hlt Hc HB.
  destruct (rWait x) as [c|] eqn:Ew; [|specialize (t_first _ T r' x n Ex En Ew r Hr); lia].
  destruct (t_next _ T r' x n c Ex En Ew) as (q & (L1 & L2 & L3) & Hq). pose proof (t_began _ T r' x c Ex Ew HB) as Hrel.
  assert (Returned q ∈ log (state y)) as Hret.
  { destruct (t_released _ T q c Hq Hrel) as [?|?]; [done|]. by destruct (Hc q L1 L2). }
  destruct (Nat.eq_dec r q) as [->|Hne]; [done|]. apply (IH q); [done|done| | |by apply (t_returned _ T)].
  - specialize (L3 r Hr Hlt). lia.
  - intros p Hp Hlt'. apply Hc; [done|lia].
Qed.
End Facts.

(** ** Runs *)

Definition me : gostring := bytes_of "me".
Definition doers : gmap gostring bool := {[ bytes_of "sums" := true ]}.
Definition numbered (n : nat) : gostring := [Z.of_nat n].
Lemma numbered_fresh m n : numbered m = numbered n -> m = n.
Proof. intros [= H]. lia. Qed.
Abbreviation played cs := (exec me doers numbered cs boot).
Definition played_ok (cs : list choice) : bool := match played cs with Some _ => true | None => false end.
Definition playedOut (cs : list choice) : Sys := default boot (played cs).
Lemma played_ran cs : played_ok cs = true -> ran_to me doers numbered cs (playedOut cs).
Proof. unfold played_ok, ran_to, playedOut. by destruct (played cs). Qed.
Definition alice : gostring := bytes_of "alice".
Definition bob : gostring := bytes_of "bob".
Definition asking : Request := mkRequest (bytes_of "look") None false None.
Definition answers (from : gostring) (st : JobStatus) : message := mkMessage from me (JobResponse false (numbered 0) st None).
Definition requests (id : nat) : message := mkMessage alice me (JobRequest (numbered id) (bytes_of "sums") None).
Definition gives (i n : nat) : list choice := List.repeat (Run i 0) n.

(** Two workers are asked and both answer. *)
Definition toAnswered : list choice :=
  Begin (CallRequestGroup [alice; bob] asking) :: gives 0 5 ++ Begin (Deliver (answers alice JobCompleted)) :: gives 1 4
    ++ Begin (Deliver (answers bob JobCompleted)) :: gives 2 8.
Definition theGroup (cs : list choice) : Group := default (NewGroup [] [] true) (objects (state (playedOut cs)) !! 0).
Lemma group_settled_witness :
  closed (theGroup toAnswered) = Some Completed
  /\ (groups (state (playedOut toAnswered)) !! JobID_ (theGroup toAnswered) = Some 0 /\ closed (theGroup toAnswered) = None
       /\ fins 0 (log (state (playedOut toAnswered))) = 0 /\ told 0 (log (state (playedOut toAnswered))) = 0
     \/ groups (state (playedOut toAnswered)) !! JobID_ (theGroup toAnswered) <> Some 0 /\ fins 0 (log (state (playedOut toAnswered))) = 1
       /\ exists o, closed (theGroup toAnswered) = Some o /\ settled me 0 o (state (playedOut toAnswered)) (theGroup toAnswered)).
Proof.
  split; [vm_compute; reflexivity|]. apply (group_settled me doers numbered numbered_fresh toAnswered).
  - apply played_ran. vm_compute. reflexivity.
  - apply List.Forall_forall, List.forallb_forall. vm_compute. reflexivity.
  - vm_compute. reflexivity.
Defined.

(** One of them fails, and the other is told to stop. *)
Definition toFailed : list choice :=
  Begin (CallRequestGroup [alice; bob] asking) :: gives 0 5 ++ Begin (Deliver (answers alice JobFailed)) :: gives 1 10.
Lemma group_ends_once_witness :
  match closed (theGroup toFailed) with
  | None => fins 0 (log (state (playedOut toFailed))) = 0
  | Some o => fins 0 (log (state (playedOut toFailed))) = 1 /\ groups (state (playedOut toFailed)) !! JobID_ (theGroup toFailed) <> Some 0
    /\ settled me 0 o (state (playedOut toFailed)) (theGroup toFailed)
  end.
Proof.
  apply (group_ends_once me doers numbered numbered_fresh toFailed).
  - apply played_ran. vm_compute. reflexivity.
  - vm_compute. reflexivity.
Defined.
Lemma failed_as_meant :
  log (state (playedOut toFailed)) =
    [Opened 0; Send (mkMessage me alice (JobRequest (numbered 0) (bytes_of "look") None)); Send (mkMessage me bob (JobRequest (numbered 0) (bytes_of "look") None));
     OnJobResponse (answers alice JobFailed); OnJobError 0 (answers alice JobFailed);
     callsOff me alice (numbered 0) (alice ++ errored); callsOff me bob (numbered 0) (alice ++ errored); Finished 0 (CutShort (alice ++ errored))].
Proof. vm_compute. reflexivity. Qed.

(** Two requests of a job that takes turns: the first is handled, then the second. *)
Definition toTurns : list choice :=
  Begin (Deliver (requests 0)) :: gives 0 2 ++ Begin (Deliver (requests 1)) :: gives 1 2
    ++ Begin (Handle 0) :: Begin (Handle 1) :: gives 2 5 ++ gives 3 2.
Lemma turns_are_taken_witness : Returned 0 ∈ log (state (playedOut toTurns)).
Proof.
  apply (turns_are_taken me doers numbered numbered_fresh toTurns _ (bytes_of "sums") 0 1).
  - apply played_ran. vm_compute. reflexivity.
  - eexists. split; vm_compute; reflexivity.
  - eexists. split; vm_compute; reflexivity.
  - lia.
  - intros q _ _. assert (canceled (state (playedOut toTurns)) = ∅) as -> by (vm_compute; reflexivity). apply not_elem_of_empty.
  - apply (bool_decide_eq_true_1 _). vm_compute. reflexivity.
Defined.
Lemma job_kept_or_answered_witness : is_Some (activeJobs (state (playedOut toTurns)) !! numbered 0) \/ answered (numbered 0) (state (playedOut toTurns)).
Proof.
  apply (job_kept_or_answered me doers numbered numbered_fresh toTurns _ (requests 0)).
  - apply played_ran. vm_compute. reflexivity.
  - apply (bool_decide_eq_true_1 _). vm_compute. reflexivity.
  - reflexivity.
Defined.

(** ** Where it falls short *)

(** A request that is called off while it waits lets the next one in at once, though the
    one both waited for is still going on. *)
Definition toOverlap : list choice :=
  Begin (Deliver (requests 0)) :: gives 0 2 ++ Begin (Deliver (requests 1)) :: gives 1 2 ++ Begin (Deliver (requests 2)) :: gives 2 2
    ++ Begin (Handle 0) :: gives 3 2 ++ [Begin (Deliver (mkMessage alice me (JobCancel (numbered 1) [])))] ++ gives 4 7
    ++ Begin (Handle 1) :: gives 5 2 ++ Begin (Handle 2) :: gives 6 2.
Lemma overlapping_turns :
  let l := log (state (playedOut toOverlap)) in
  played_ok toOverlap = true /\ (Began 0 ∈ l) /\ (Began 2 ∈ l) /\ (Returned 0 ∉ l)
  /\ List.map rName (runs (state (playedOut toOverlap))) = List.repeat (Some (bytes_of "sums")) 3.
Proof.
  split_and!; [vm_compute; reflexivity|apply (bool_decide_eq_true_1 _); vm_compute; reflexivity
    |apply (bool_decide_eq_true_1 _); vm_compute; reflexivity|apply (bool_decide_eq_false_1 _); vm_compute; reflexivity|vm_compute; reflexivity].
Qed.

(** A worker named twice is one worker of the group, but is asked twice. *)
Definition toTwice : list choice := Begin (CallRequestGroup [alice; alice] asking) :: gives 0 5.
Lemma asked_twice :
  WorkerNames (theGroup toTwice) = [alice]
  /\ log (state (playedOut toTwice)) =
       [Opened 0; Send (mkMessage me alice (JobRequest (numbered 0) (bytes_of "look") None)); Send (mkMessage me alice (JobRequest (numbered 0) (bytes_of "look") None))].
Proof. vm_compute. by split. Qed.

(** One worker fails, and while the group is being called off the other answers: the
    group is reported failed and complete, and ends as complete. *)
Definition toBoth : list choice :=
  Begin (CallRequestGroup [alice; bob] asking) :: gives 0 5 ++ Begin (Deliver (answers alice JobFailed)) :: gives 1 4
    ++ Begin (Deliver (answers bob JobCompleted)) :: gives 2 8 ++ gives 1 1.
Lemma failed_and_completed :
  closed (theGroup toBoth) = Some Completed /\ CancelOnError (theGroup toBoth) = true
  /\ (OnJobError 0 (answers alice JobFailed) ∈ log (state (playedOut toBoth))) /\ told 0 (log (state (playedOut toBoth))) = 1
  /\ forallb idle (procs (playedOut toBoth)) = true.
Proof. split_and!; try (vm_compute; reflexivity). apply (bool_decide_eq_true_1 _). vm_compute. reflexivity. Qed.

(** A job is answered while it is being called off: it is answered twice. *)
Definition toAnsweredTwice : list choice :=
  Begin (Deliver (requests 0)) :: gives 0 2 ++ Begin (CallRespond (numbered 0) None JobCompleted false) :: gives 1 1
    ++ Begin (Deliver (mkMessage alice me (JobCancel (numbered 0) []))) :: gives 2 8 ++ gives 1 2.
Lemma answered_twice :
  List.filter (answer (numbered 0)) (log (state (playedOut toAnsweredTwice))) =
    [Send (mkMessage me alice (JobResponse false (numbered 0) JobCancelled None)); Send (mkMessage me alice (JobResponse false (numbered 0) JobCompleted None))]
  /\ forallb idle (procs (playedOut toAnsweredTwice)) = true.
Proof. vm_compute. by split. Qed.

(** What nobody takes off a group is kept, and what comes after is dropped. *)
Lemma full_drops_newest g e : closed g = None -> length (events g) = eventBuffer -> Report e g = g.
Proof. intros Ec El. unfold Report. by rewrite Ec, El. Qed.
End JobFacts.
