(* ===== verification/Calls.v ===== *)
(** * Phone calls

    What a model and a caller do to a phone call: control tags in the text a model streams
    ([src/internal/tagscan/]), menus navigated by them ([src/processor/ivr/]), voicemail
    told from a person by them ([src/processor/voicemail/]), and the keys a caller presses
    gathered ([src/processor/dtmf/]).

    The processors are taken frame by frame, a handler giving what it pushed or raised, in
    order; pushes succeed.  The names of tags are the letters the processors give. *)

From S2P Require Import Prelude Text Strings.

(** ** Tags *)

Module TagScan.
Local Open Scope Z_scope.

Abbreviation LT := 60.
Abbreviation GT := 62.

Section Scan.
Context (tags : list gostring).

(** One of the names and a closing bracket. *)
Definition named (s : gostring) : option (gostring * gostring) :=
  match List.find (fun t => HasPrefix s (t ++ [GT])) tags with
  | Some t => Some (t, List.skipn (S (length t)) s)
  | None => None
  end.
Fixpoint plainOf (s : gostring) : gostring * gostring :=
  match s with
  | [] => ([], [])
  | b :: r => if b =? LT then ([], s) else let '(v, r) := plainOf r in (b :: v, r)
  end.
(** The expression of [New], at the front of a text: the name, the value, what follows. *)
Definition matchAt (s : gostring) : option (gostring * gostring * gostring) :=
  match s with
  | 60 :: s =>
    match named s with
    | Some (t, s) =>
      let '(v, s) := plainOf s in
      match s with
      | 60 :: 47 :: s => match named s with Some (_, rest) => Some (t, v, rest) | None => None end
      | _ => None
      end
    | None => None
    end
  | _ => None
  end.
(** Its first match: what is before, the name, the value, what follows. *)
Fixpoint find (s : gostring) : option (gostring * gostring * gostring * gostring) :=
  match matchAt s with
  | Some (t, v, rest) => Some ([], t, v, rest)
  | None => match s with
            | [] => None
            | b :: s => match find s with Some (p, t, v, rest) => Some (b :: p, t, v, rest) | None => None end
            end
  end.
Fixpoint extract (fuel : nat) (s : gostring) : list (gostring * gostring) * gostring :=
  match fuel with
  | O => ([], s)
  | S fuel => match find s with
              | Some (p, t, v, rest) => let '(l, out) := extract fuel (p ++ rest) in ((t, v) :: l, out)
              | None => ([], s)
              end
  end.
(** The tags of a text, and the text without them. *)
Definition stripped (s : gostring) : list (gostring * gostring) * gostring := extract (length s) s.

(** What [onTag] is called with, what may be spoken, and what is held back. *)
Definition Feed (buf chunk : gostring) : list (gostring * gostring) * gostring * gostring :=
  let '(l, s) := stripped (buf ++ chunk) in
  let '(out, held) := plainOf s in (l, out, held).
Definition Flush (buf : gostring) : gostring * gostring := (buf, []).
Fixpoint feeds (buf : gostring) (chunks : list gostring) : list (gostring * gostring) * gostring * gostring :=
  match chunks with
  | [] => ([], [], buf)
  | c :: cs => let '(l, out, buf) := Feed buf c in let '(l', out', buf) := feeds buf cs in (l ++ l', out ++ out', buf)
  end.

(** *** What the expression matches *)

Definition letter (b : Z) : Prop := 97 <= b <= 122.
Context (letters : Forall (Forall letter) tags).

Lemma letter_not t b : t ∈ tags -> ~ letter b -> ~ b ∈ t.
Proof using letters. intros Ht Hb Hin. rewrite Forall_forall in letters. specialize (letters t Ht). rewrite Forall_forall in letters. auto. Qed.
Lemma upto_same (x : Z) a b r r' : ~ x ∈ a -> ~ x ∈ b -> a ++ x :: r = b ++ x :: r' -> a = b /\ r = r'.
Proof.
  revert b. induction a as [|y a IH]; intros [|z b] Ha Hb E; cbn in E; simplify_eq; [done|set_solver..|].
  destruct (IH b) as [-> ->]; [set_solver..|done|done].
Qed.
Lemma named_spec s t r : named s = Some (t, r) <-> t ∈ tags /\ s = t ++ GT :: r.
Proof using letters.
  assert (forall t, HasPrefix s (t ++ [GT]) = true -> s = t ++ GT :: List.skipn (S (length t)) s) as Hsk.
  { intros u [k ->]%HasPrefix_spec. rewrite drop_app_length' by (rewrite length_app; cbn; lia). by rewrite <- app_assoc. }
  unfold named. split.
  - destruct (List.find _ _) as [u|] eqn:Ef; [|done]. intros [= <- <-]. apply List.find_some in Ef as [Hin Hp].
    split; [by apply list_elem_of_In|]. by apply Hsk.
  - intros [Hin E]. destruct (List.find _ _) as [u|] eqn:Ef.
    + apply List.find_some in Ef as [Hu Hp]. pose proof (Hsk u Hp) as E'. apply list_elem_of_In in Hu.
      assert (forall t, t ∈ tags -> ~ GT ∈ t) as Hno by (intros w Hw; apply letter_not; [done|unfold letter; lia]).
      rewrite E in E' at 1. destruct (upto_same GT t u r (List.skipn (S (length u)) s)) as [-> ->]; auto.
    + exfalso. apply list_elem_of_In in Hin. pose proof (List.find_none _ _ Ef t Hin) as Hn. cbn in Hn.
      assert (HasPrefix s (t ++ [GT]) = true); [|congruence]. apply HasPrefix_spec. exists r. by rewrite E, <- app_assoc.
Qed.
Lemma plainOf_spec s : let '(v, r) := plainOf s in s = v ++ r /\ ~ LT ∈ v /\ (r = [] \/ exists r', r = LT :: r').
Proof.
  induction s as [|b s IH]; cbn [plainOf]; [split_and!; [done|set_solver|by left]|]. destruct (Z.eqb_spec b LT) as [->|Hne].
  - split_and!; [done|set_solver|right; eauto].
  - destruct (plainOf s) as [v r]. destruct IH as (-> & Hv & Hr). split_and!; [done|set_solver|done].
Qed.
Lemma plainOf_at v r : ~ LT ∈ v -> plainOf (v ++ LT :: r) = (v, LT :: r).
Proof.
  induction v as [|b v IH]; intros Hv; cbn [app plainOf]; [done|]. destruct (Z.eqb_spec b LT) as [->|_]; [set_solver|].
  rewrite IH by set_solver. done.
Qed.
Lemma plainOf_all v : ~ LT ∈ v -> plainOf v = (v, []).
Proof.
  induction v as [|b v IH]; intros Hv; cbn [plainOf]; [done|]. destruct (Z.eqb_spec b LT) as [->|_]; [set_solver|].
  rewrite IH by set_solver. done.
Qed.
Definition tagText (t v t' : gostring) : gostring := LT :: t ++ GT :: v ++ LT :: 47 :: t' ++ [GT].
Lemma matchAt_spec s t v rest :
  matchAt s = Some (t, v, rest) <-> exists t', t ∈ tags /\ t' ∈ tags /\ ~ LT ∈ v /\ s = tagText t v t' ++ rest.
Proof using letters.
  assert (forall t, t ∈ tags -> ~ LT ∈ t) as Hno by (intros w Hw; apply letter_not; [done|unfold letter; lia]).
  unfold tagText. split.
  - intros H. destruct s as [|b s]; [done|]. cbn [matchAt] in H. destruct (decide (b = LT)) as [->|Hb].
    2: { exfalso. revert H. repeat (case_match; try done). }
    destruct (named s) as [[u r]|] eqn:Eu; [|done]. apply named_spec in Eu as [Hu ->].
    pose proof (plainOf_spec r) as Hr. destruct (plainOf r) as [w q]. destruct Hr as (-> & Hw & Hq).
    destruct Hq as [->|[q' ->]]; [done|]. destruct q' as [|c q']; [done|]. destruct (decide (c = 47)) as [->|Hc].
    2: { exfalso. revert H. repeat (case_match; try done). }
    destruct (named q') as [[u' r']|] eqn:Eu'; [|done]. apply named_spec in Eu' as [Hu' ->]. injection H as -> -> ->.
    exists u'. split_and!; [done..|]. cbn. rewrite <- !app_assoc. cbn. by rewrite <- !app_assoc; cbn; rewrite <- app_assoc.
  - intros (t' & Ht & Ht' & Hv & ->). cbn [app matchAt].
    assert (forall r, named (t ++ GT :: r) = Some (t, r)) as E1 by (intros r; by apply named_spec).
    assert (forall r, named (t' ++ GT :: r) = Some (t', r)) as E2 by (intros r; by apply named_spec).
    rewrite <- app_assoc. cbn [app]. rewrite E1, <- app_assoc. cbn [app]. rewrite plainOf_at by done. cbn [app]. rewrite <- app_assoc. cbn [app].
    by rewrite E2.
Qed.

(** *** The first match stays the first *)

Definition lts (s : gostring) : nat := count_occ Z.eq_dec s LT.
Lemma lts_app a b : lts (a ++ b) = (lts a + lts b)%nat.
Proof. apply count_occ_app. Qed.
Lemma lts_none a : ~ LT ∈ a -> lts a = 0%nat.
Proof. intros H. apply count_occ_not_In. by rewrite <- list_elem_of_In. Qed.
Lemma lts_tag t v t' : t ∈ tags -> t' ∈ tags -> ~ LT ∈ v -> lts (tagText t v t') = 2%nat.
Proof using letters.
  assert (forall t, t ∈ tags -> ~ LT ∈ t) as Hno by (intros w Hw; apply letter_not; [done|unfold letter; lia]).
  intros Ht Ht' Hv. unfold tagText. change (LT :: t ++ GT :: v ++ LT :: 47 :: t' ++ [GT]) with ([LT] ++ t ++ [GT] ++ v ++ [LT; 47] ++ t' ++ [GT]).
  rewrite !lts_app, (lts_none t), (lts_none v), (lts_none t') by auto. done.
Qed.
Lemma find_spec s p t v rest : find s = Some (p, t, v, rest) -> exists t', t ∈ tags /\ t' ∈ tags /\ ~ LT ∈ v /\ s = p ++ tagText t v t' ++ rest.
Proof using letters.
  revert p. induction s as [|b s IH]; intros p; cbn [find].
  - cbn. done.
  - destruct (matchAt (b :: s)) as [[[u w] r]|] eqn:Em.
    + intros [= <- <- <- <-]. apply matchAt_spec in Em as (t' & H1 & H2 & H3 & ->). by exists t'.
    + destruct (find s) as [[[[q u] w] r]|]; [|done]. intros [= <- <- <- <-]. destruct (IH q eq_refl) as (t' & H1 & H2 & H3 & ->). by exists t'.
Qed.
Lemma tag_front t v t' b s c r : b :: s ++ c = tagText t v t' ++ r -> ~ (exists k, b :: s = tagText t v t' ++ k) -> exists k, tagText t v t' = b :: s ++ k.
Proof.
  intros E Hn. destruct (decide (length (tagText t v t') <= length (b :: s))%nat) as [Hle|Hlt].
  - destruct Hn. exists (List.skipn (length (tagText t v t')) (b :: s)). rewrite <- (take_drop (length (tagText t v t')) (b :: s)) at 1. f_equal.
    apply (f_equal (List.firstn (length (tagText t v t')))) in E. rewrite (take_app_length (tagText t v t') r) in E.
    change (b :: s ++ c) with ((b :: s) ++ c) in E. rewrite take_app_le in E by done. exact E.
  - exists (List.skipn (length (b :: s)) (tagText t v t')). change (b :: s ++ List.skipn (length (b :: s)) (tagText t v t')) with ((b :: s) ++ List.skipn (length (b :: s)) (tagText t v t')).
    rewrite <- (take_drop (length (b :: s)) (tagText t v t')) at 1. f_equal.
    apply (f_equal (List.firstn (length (b :: s)))) in E. change (b :: s ++ c) with ((b :: s) ++ c) in E. rewrite (take_app_length (b :: s) c) in E.
    rewrite take_app_le in E by (cbn in *; lia). by symmetry.
Qed.
Lemma find_app b c p t v rest : find b = Some (p, t, v, rest) -> find (b ++ c) = Some (p, t, v, rest ++ c).
Proof using letters.
  revert p. induction b as [|x b IH]; intros p; [done|]. cbn [find]. destruct (matchAt (x :: b)) as [[[u w] r]|] eqn:Em.
  - intros [= <- <- <- <-]. apply matchAt_spec in Em as (t' & H1 & H2 & H3 & E). cbn [app find].
    assert (matchAt (x :: b ++ c) = Some (u, w, r ++ c)) as ->; [|done]. apply matchAt_spec. exists t'. split_and!; [done..|].
    change (x :: b ++ c) with ((x :: b) ++ c). by rewrite E, <- app_assoc.
  - destruct (find b) as [[[[q u] w] r]|] eqn:Ef; [|done]. intros [= <- <- <- <-]. cbn [app find].
    assert (matchAt (x :: b ++ c) = None) as ->; [|by rewrite (IH q)].
    destruct (matchAt (x :: b ++ c)) as [[[u1 w1] r1]|] eqn:Em1; [exfalso|done].
    apply matchAt_spec in Em1 as (t1 & H1 & H2 & H3 & E). pose proof (lts_tag u1 w1 t1 H1 H2 H3) as Hl.
    destruct (tag_front _ _ _ _ _ _ _ E) as [k Ek].
    { intros [k Ek]. assert (matchAt (x :: b) = Some (u1, w1, k)); [|congruence]. apply matchAt_spec. by exists t1. }
    apply find_spec in Ef as (t' & G1 & G2 & G3 & ->). assert (x = LT) as -> by (unfold tagText in Ek; congruence).
    rewrite Ek in Hl. change (LT :: (q ++ tagText u w t' ++ r) ++ k) with ([LT] ++ (q ++ tagText u w t' ++ r) ++ k) in Hl.
    rewrite !lts_app, (lts_tag u w t' G1 G2 G3) in Hl. cbn in Hl. lia.
Qed.
Lemma find_plain o s : ~ LT ∈ o -> find (o ++ s) = match find s with Some (p, t, v, rest) => Some (o ++ p, t, v, rest) | None => None end.
Proof.
  induction o as [|b o IH]; intros Ho; cbn [app]; [by destruct (find s) as [[[[? ?] ?] ?]|]|]. cbn [find].
  assert (matchAt (b :: o ++ s) = None) as ->.
  { cbn [matchAt]. assert (b <> LT) by set_solver. repeat (case_match; try done). }
  rewrite IH by set_solver. by destruct (find s) as [[[[? ?] ?] ?]|].
Qed.
Lemma find_shorter s p t v rest : find s = Some (p, t, v, rest) -> (length (p ++ rest) < length s)%nat.
Proof using letters.
  intros (t' & _ & _ & _ & ->)%find_spec. unfold tagText. rewrite !length_app. cbn. rewrite !length_app. cbn. lia.
Qed.

(** *** Taking all of them out *)

Lemma extract_fuel f g s : (length s <= f)%nat -> (length s <= g)%nat -> extract f s = extract g s.
Proof using letters.
  revert g s. induction f as [|f IH]; intros g s Hf Hg.
  - destruct s; [|cbn in Hf; lia]. by destruct g.
  - destruct g as [|g]; [destruct s; [done|cbn in Hg; lia]|]. cbn [extract]. destruct (find s) as [[[[p t] v] rest]|] eqn:Ef; [|done].
    apply find_shorter in Ef. by rewrite (IH g) by lia.
Qed.
Lemma stripped_eq s : stripped s = match find s with Some (p, t, v, rest) => let '(l, out) := stripped (p ++ rest) in ((t, v) :: l, out) | None => ([], s) end.
Proof using letters.
  unfold stripped. destruct s as [|b s]; [done|]. cbn [length extract]. destruct (find (b :: s)) as [[[[p t] v] rest]|] eqn:Ef; [|done].
  apply find_shorter in Ef. rewrite (extract_fuel (length s) (length (p ++ rest))); [done|cbn in Ef; lia|lia].
Qed.
(** Text that comes later changes nothing of what was taken out. *)
Lemma stripped_app b c : stripped (b ++ c) =
  let '(l, r) := stripped b in let '(l', r') := stripped (r ++ c) in (l ++ l', r').
Proof using letters.
  induction b as [b IH] using (induction_ltof1 _ (@length Z)). unfold ltof in IH. rewrite (stripped_eq b).
  destruct (find b) as [[[[p t] v] rest]|] eqn:Ef; [|by destruct (stripped (b ++ c))].
  rewrite (stripped_eq (b ++ c)), (find_app b c p t v rest Ef), app_assoc, (IH (p ++ rest)) by (by eapply find_shorter).
  destruct (stripped (p ++ rest)) as [l r]. by destruct (stripped (r ++ c)).
Qed.
Lemma stripped_plain o s : ~ LT ∈ o -> stripped (o ++ s) = let '(l, r) := stripped s in (l, o ++ r).
Proof using letters.
  intros Ho. induction s as [s IH] using (induction_ltof1 _ (@length Z)). unfold ltof in IH. rewrite (stripped_eq (o ++ s)), (stripped_eq s), find_plain by done.
  destruct (find s) as [[[[p t] v] rest]|] eqn:Ef; [|done]. rewrite <- app_assoc, IH by (by eapply find_shorter). by destruct (stripped (p ++ rest)).
Qed.
Lemma stripped_done s : find (stripped s).2 = None.
Proof using letters.
  induction s as [s IH] using (induction_ltof1 _ (@length Z)). unfold ltof in IH. rewrite stripped_eq. destruct (find s) as [[[[p t] v] rest]|] eqn:Ef; [|done].
  specialize (IH (p ++ rest) (find_shorter _ _ _ _ _ Ef)). by destruct (stripped (p ++ rest)).
Qed.

(** A text comes to the same tags and the same words however it is cut. *)
Lemma feeds_stripped cs : forall buf, find buf = None -> let '(l, out, held) := feeds buf cs in stripped (buf ++ List.concat cs) = (l, out ++ held) /\ find held = None.
Proof using letters.
  induction cs as [|c cs IH]; intros buf Hb; cbn [feeds List.concat].
  { by rewrite app_nil_r, stripped_eq, Hb. }
  unfold Feed. destruct (stripped (buf ++ c)) as [l s] eqn:Es. pose proof (stripped_done (buf ++ c)) as Hd. rewrite Es in Hd. cbn in Hd.
  pose proof (plainOf_spec s) as Hs. destruct (plainOf s) as [out held]. destruct Hs as (-> & Hout & _).
  assert (find held = None) as Hh by (rewrite find_plain in Hd by done; by destruct (find held) as [[[[? ?] ?] ?]|]).
  specialize (IH held Hh). destruct (feeds held cs) as [[l' out'] held']. destruct IH as [IH Hh']. split; [|done].
  by rewrite app_assoc, (stripped_app (buf ++ c)), Es, <- app_assoc, stripped_plain, IH, app_assoc.
Qed.
End Scan.
End TagScan.

(** ** Menus *)

Module Ivr.
Import TagScan.
Local Open Scope Z_scope.

Inductive frame := LLMTextFrame (t : gostring) | LLMFullResponseEndFrame | OtherFrame (n : nat).
(** What a handler did: a text pushed, a key pressed, a status reported, a frame passed on. *)
Inductive done_ := Spoke (t : gostring) | Pressed (key : gostring) | StatusChanged (status : gostring) | Passed (f : frame).
#[export] Instance frame_dec : EqDecision frame. Proof. solve_decision. Defined.
#[export] Instance done_dec : EqDecision done_. Proof. solve_decision. Defined.

Definition dtmfTag : gostring := Eval vm_compute in bytes_of "dtmf".
Definition ivrTag : gostring := Eval vm_compute in bytes_of "ivr".
Definition tags : list gostring := [dtmfTag; ivrTag].
Lemma tags_letters : Forall (Forall letter) tags.
Proof. repeat constructor; unfold letter; lia. Qed.

(** [reports]: [OnStatusChanged] is given. *)
Definition act (reports : bool) (x : gostring * gostring) : list done_ :=
  let '(tag, value) := x in
  if bool_decide (tag = dtmfTag) then List.map (fun r => Pressed (EncodeRune r)) (runesOf (TrimSpace value))
  else if bool_decide (tag = ivrTag) then if reports then [StatusChanged (TrimSpace value)] else []
  else [].
Definition speak (t : gostring) : list done_ := match t with [] => [] | _ => [Spoke t] end.
Definition ProcessFrame (reports : bool) (buf : gostring) (f : frame) : list done_ * gostring :=
  match f with
  | LLMTextFrame t => let '(l, cleaned, buf) := Feed tags buf t in (flat_map (act reports) l ++ speak cleaned, buf)
  | LLMFullResponseEndFrame => let '(rest, buf) := Flush buf in (speak rest ++ [Passed f], buf)
  | OtherFrame _ => ([Passed f], buf)
  end.
Fixpoint process (reports : bool) (buf : gostring) (fs : list frame) : list done_ * gostring :=
  match fs with
  | [] => ([], buf)
  | f :: fs => let '(o, buf) := ProcessFrame reports buf f in let '(o', buf) := process reports buf fs in (o ++ o', buf)
  end.

Definition words (l : list done_) : gostring := flat_map (fun o => match o with Spoke t => t | _ => [] end) l.
Definition acts (l : list done_) : list done_ := List.filter (fun o => match o with Spoke _ | Passed _ => false | _ => true end) l.
Lemma words_app a b : words (a ++ b) = words a ++ words b.
Proof. apply flat_map_app. Qed.
Lemma acts_app a b : acts (a ++ b) = acts a ++ acts b.
Proof. apply List.filter_app. Qed.
Lemma words_speak t : words (speak t) = t.
Proof. destruct t; [done|]. unfold speak, words. cbn. by rewrite app_nil_r. Qed.
Lemma acts_speak t : acts (speak t) = [].
Proof. by destruct t. Qed.
Lemma acting r l : words (flat_map (act r) l) = [] /\ acts (flat_map (act r) l) = flat_map (act r) l.
Proof.
  induction l as [|x l [IH1 IH2]]; [done|]. cbn [flat_map]. rewrite words_app, acts_app, IH1, IH2.
  assert (words (act r x) = [] /\ acts (act r x) = act r x) as [-> ->]; [|done]. destruct x as [tag value]. unfold act.
  repeat case_bool_decide; [|by destruct r|done]. by induction (runesOf (TrimSpace value)) as [|y ys [I1 I2]]; [|cbn; unfold words, acts in *; cbn; rewrite I1, I2].
Qed.
Lemma texts_process r cs : forall buf,
  let '(o, buf') := process r buf (List.map LLMTextFrame cs) in
  let '(l, out, held) := feeds tags buf cs in buf' = held /\ words o = out /\ acts o = flat_map (act r) l.
Proof.
  induction cs as [|c cs IH]; intros buf; [done|]. cbn [List.map process ProcessFrame feeds]. destruct (Feed tags buf c) as [[l out] held].
  specialize (IH held). destruct (process r held (List.map LLMTextFrame cs)) as [o b]. destruct (feeds tags held cs) as [[l' out'] held'].
  destruct IH as (-> & H2 & H3). destruct (acting r l) as [A1 A2].
  by rewrite !words_app, !acts_app, A1, A2, words_speak, acts_speak, H2, H3, flat_map_app, app_nil_r.
Qed.
Lemma process_app r fs gs : forall buf, process r buf (fs ++ gs) =
  let '(o, buf) := process r buf fs in let '(o', buf) := process r buf gs in (o ++ o', buf).
Proof.
  induction fs as [|f fs IH]; intros buf; cbn [app process]; [by destruct (process r buf gs)|]. destruct (ProcessFrame r buf f) as [o b].
  rewrite IH. destruct (process r b fs) as [o1 b1]. destruct (process r b1 gs) as [o2 b2]. by rewrite app_assoc.
Qed.

(** C35: However a model's response is cut into pieces, by the time it ends the keys pressed
    and the statuses reported are those of its tags, in order, what was spoken is the rest
    of it, and nothing of it is left for the next. *)
Theorem response_navigated reports cs : exists o,
  process reports [] (List.map LLMTextFrame cs ++ [LLMFullResponseEndFrame]) = (o ++ [Passed LLMFullResponseEndFrame], [])
  /\ words o = (stripped tags (List.concat cs)).2 /\ acts o = flat_map (act reports) (stripped tags (List.concat cs)).1.
Proof.
  rewrite process_app. pose proof (texts_process reports cs []) as Ht. pose proof (feeds_stripped tags tags_letters cs [] eq_refl) as Hs.
  destruct (process reports [] (List.map LLMTextFrame cs)) as [o b]. destruct (feeds tags [] cs) as [[l out] held].
  destruct Ht as (-> & H2 & H3). destruct Hs as [Hs _]. cbn [app] in Hs. rewrite Hs. exists (o ++ speak held). cbn [process ProcessFrame Flush fst snd].
  split_and!; [by rewrite app_nil_r, app_assoc|by rewrite words_app, H2, words_speak|by rewrite acts_app, H3, acts_speak, app_nil_r].
Qed.

(** A key is pressed before the words that come ahead of it in the same piece of text. *)
Lemma keys_jump_words :
  ProcessFrame true [] (LLMTextFrame (bytes_of "press <dtmf>1</dtmf>")) = ([Pressed (bytes_of "1"); Spoke (bytes_of "press ")], []).
Proof. vm_compute. reflexivity. Qed.
(** Everything from a bracket on is held back to the end of the response, whether or not it
    can begin a tag. *)
Lemma bracket_holds_back :
  process true [] [LLMTextFrame (bytes_of "if a < b. "); LLMTextFrame (bytes_of "Then go on. ")]
  = ([Spoke (bytes_of "if a ")], bytes_of "< b. Then go on. ").
Proof. vm_compute. reflexivity. Qed.
(** What an interrupted response left is spoken with the next. *)
Lemma interrupted_left_over :
  (process true [] [LLMTextFrame (bytes_of "one <dt"); OtherFrame 0; LLMTextFrame (bytes_of "two"); LLMFullResponseEndFrame]).1
  = [Spoke (bytes_of "one "); Passed (OtherFrame 0); Spoke (bytes_of "<dttwo"); Passed LLMFullResponseEndFrame].
Proof. vm_compute. reflexivity. Qed.
End Ivr.

(** ** Voicemail *)

Module Voicemail.
Import TagScan.
Local Open Scope Z_scope.

Definition voicemailTag : gostring := Eval vm_compute in bytes_of "voicemail".
Definition tags : list gostring := Eval vm_compute in [bytes_of "voicemail"; bytes_of "human"; bytes_of "conversation"].
Inductive frame := LLMTextFrame (t : gostring) | LLMFullResponseEndFrame | OtherFrame (n : nat).
Inductive done_ := Spoke (t : gostring) | VoicemailDetected | ConversationDetected | Passed (f : frame).
(** [timer]: the one [AfterFunc] of the processor is still going. *)
Record V := mkV { buf : gostring; decided : bool; timer : bool }.
#[export] Instance eta_V : Eta V := fun v => mkV (buf v) (decided v) (timer v).
Definition New : V := mkV [] false false.

Section Detector.
(** The callbacks given, and whether there is a delay. *)
Context (onVoicemail onConversation delayed : bool).

Definition tells (b : bool) (o : done_) : list done_ := if b then [o] else [].
Definition decide (v : V) (tag : gostring) : list done_ * V :=
  if decided v then ([], v)
  else
    let v := v <| decided := true |> in
    if bool_decide (tag = voicemailTag) then
      if delayed then ([], v <| timer := true |>) else (tells onVoicemail VoicemailDetected, v)
    else (tells onConversation ConversationDetected, v).
Fixpoint decides (v : V) (l : list (gostring * gostring)) : list done_ * V :=
  match l with [] => ([], v) | (tag, _) :: l => let '(o, v) := decide v tag in let '(o', v) := decides v l in (o ++ o', v) end.
Definition speak (t : gostring) : list done_ := match t with [] => [] | _ => [Spoke t] end.
Definition ProcessFrame (v : V) (f : frame) : list done_ * V :=
  match f with
  | LLMTextFrame t =>
    let '(l, cleaned, b) := Feed tags (buf v) t in
    let '(o, v) := decides (v <| buf := b |>) l in (o ++ speak cleaned, v)
  | LLMFullResponseEndFrame => let '(rest, b) := Flush (buf v) in (speak rest ++ [Passed f], v <| buf := b |>)
  | OtherFrame _ => ([Passed f], v)
  end.
(** What comes: a frame, the timer running out, or the end. *)
Inductive input := Frame (f : frame) | TimerFires | Cleanup.
Definition step (v : V) (i : input) : list done_ * V :=
  match i with
  | Frame f => ProcessFrame v f
  | TimerFires => if timer v then (tells onVoicemail VoicemailDetected, v <| timer := false |>) else ([], v)
  | Cleanup => ([], v <| timer := false |>)
  end.
Fixpoint steps (v : V) (ins : list input) : list done_ * V :=
  match ins with [] => ([], v) | i :: ins => let '(o, v) := step v i in let '(o', v) := steps v ins in (o ++ o', v) end.

Definition decision (o : done_) : bool := match o with VoicemailDetected | ConversationDetected => true | _ => false end.
Definition decisions (l : list done_) : nat := length (List.filter decision l).
(** What may still be told: one thing before the decision, and one while its timer goes. *)
Definition owed (v : V) : nat := if decided v then if timer v then 1 else 0 else 1.
Definition valid (v : V) : Prop := timer v = true -> decided v = true.

Lemma decisions_app a b : decisions (a ++ b) = (decisions a + decisions b)%nat.
Proof. unfold decisions. by rewrite List.filter_app, length_app. Qed.
Lemma speak_decisions t : decisions (speak t) = 0%nat.
Proof. by destruct t. Qed.
Lemma decide_owed v tag : valid v -> (decisions (decide v tag).1 + owed (decide v tag).2 <= owed v)%nat /\ valid (decide v tag).2.
Proof.
  intros Hv. unfold decide. destruct (decided v) eqn:Ed; [by split|].
  assert (timer v = false) as Et by (destruct (timer v) eqn:E; [rewrite Hv in Ed by done; done|done]).
  unfold owed, valid. rewrite Ed. case_bool_decide; [destruct delayed|]; cbn; rewrite ?Et; split; try done.
  - destruct onVoicemail; cbn; lia.
  - destruct onConversation; cbn; lia.
Qed.
Lemma decides_owed l : forall v, valid v -> (decisions (decides v l).1 + owed (decides v l).2 <= owed v)%nat /\ valid (decides v l).2.
Proof.
  induction l as [|[tag x] l IH]; intros v Hv; [done|]. cbn [decides]. destruct (decide_owed v tag Hv) as [H1 H2]. destruct (decide v tag) as [o v1].
  destruct (IH v1 H2) as [H3 H4]. destruct (decides v1 l) as [o' v2]. cbn [fst snd] in *. rewrite decisions_app. split; [lia|done].
Qed.
Lemma step_owed v i : valid v -> (decisions (step v i).1 + owed (step v i).2 <= owed v)%nat /\ valid (step v i).2.
Proof.
  intros Hv. destruct i as [[t| |n]| |]; cbn [step ProcessFrame].
  - destruct (Feed tags (buf v) t) as [[l cleaned] b]. pose proof (decides_owed l (mkV b (decided v) (timer v)) Hv) as H.
    change (decides _ l) with (decides (mkV b (decided v) (timer v)) l). destruct (decides _ l) as [o v1]. destruct H as [H1 H2].
    cbn [fst snd] in *. rewrite decisions_app, speak_decisions. split; [unfold owed in *; cbn in *; lia|done].
  - unfold Flush. cbn [fst snd]. rewrite decisions_app, speak_decisions. by split.
  - by split.
  - destruct (timer v) eqn:Et; [|by split]. cbn. unfold owed, valid. cbn. rewrite Et, (Hv Et). split; [destruct onVoicemail; cbn; lia|done].
  - cbn. unfold owed, valid. cbn. split; [destruct (decided v), (timer v); lia|done].
Qed.

(** Whatever the model says, however often, and whenever the delay runs out, the caller
    is told at most once what the call reached. *)
Theorem decided_once ins : (decisions (steps New ins).1 <= 1)%nat.
Proof.
  assert (forall v, valid v -> (decisions (steps v ins).1 <= owed v)%nat) as H; [|by apply H].
  induction ins as [|i ins IH]; intros v Hv; [cbn; lia|]. cbn [steps]. destruct (step_owed v i Hv) as [H1 H2]. destruct (step v i) as [o v1].
  specialize (IH v1 H2). destruct (steps v1 ins) as [o' v2]. cbn [fst snd] in *. rewrite decisions_app. lia.
Qed.
End Detector.
End Voicemail.

(** ** Keys pressed *)

Module Dtmf.
Local Open Scope Z_scope.

Definition KeypadPound : gostring := Eval vm_compute in bytes_of "#".
(** [hasTimeout]: the timeout is not 0. *)
Record AggregatorConfig := mkConfig { Terminator : gostring; hasTimeout : bool; Prefix : gostring }.
Definition NewAggregator (c : AggregatorConfig) : AggregatorConfig :=
  mkConfig (match Terminator c with [] => KeypadPound | t => t end) (hasTimeout c) (Prefix c).

(** Timers are numbered: [armed] those still to fire, [firing] those that fired and wait
    for the lock, [timer] the one the processor holds.  What was taken from the buffer is
    pushed after the lock is given back: [handling] is what the handler is to push,
    [timing] what callbacks are.  [takes] are all the texts taken, [pressed] the keys. *)
Record A := mkA {
  buf : gostring; timer : option nat; armed : list nat; firing : list nat; drawn : nat;
  handling : option gostring; timing : list gostring;
  pressed : list gostring; takes : list gostring; pushed : list gostring
}.
#[export] Instance eta_A : Eta A := fun a =>
  mkA (buf a) (timer a) (armed a) (firing a) (drawn a) (handling a) (timing a) (pressed a) (takes a) (pushed a).
Definition New : A := mkA [] None [] [] 0 None [] [] [] [].

Section Aggregator.
Context (cfg : AggregatorConfig).

(** [Stop] comes too late for a timer that fired. *)
Definition stopTimer (a : A) : A :=
  match timer a with
  | Some i => a <| armed ::= List.filter (fun j => negb (Nat.eqb i j)) |> <| timer := None |>
  | None => a
  end.
Definition armTimer (a : A) : A :=
  if negb (hasTimeout cfg) then a
  else
    let a := stopTimer a in
    a <| timer := Some (drawn a) |> <| armed ::= fun l => l ++ [drawn a] |> <| drawn ::= S |>.
Definition handle (button : gostring) (a : A) : A :=
  if bool_decide (button = Terminator cfg)
  then stopTimer (a <| handling := Some (buf a) |> <| takes ::= fun l => l ++ [buf a] |> <| buf := [] |>)
  else armTimer (a <| buf ::= fun b => b ++ button |> <| pressed ::= fun l => l ++ [button] |>).
Definition emit (text : gostring) (a : A) : A :=
  match text with [] => a | _ => a <| pushed ::= fun l => l ++ [Prefix cfg ++ text] |> end.

Inductive choice :=
| Press (button : gostring)        (** the next frame; the handler is done with the last *)
| Fire (i : nat)
| Callback (i : nat)               (** it has the lock *)
| EmitHandler | EmitTimer (k : nat)
| Cleanup.
Definition step (c : choice) (a : A) : option A :=
  match c with
  | Press button => if handling a is Some _ then None else Some (handle button a)
  | Fire i => if decide (i ∈ armed a) then Some (a <| armed ::= List.filter (fun j => negb (Nat.eqb i j)) |> <| firing ::= fun l => l ++ [i] |>) else None
  | Callback i =>
    if decide (i ∈ firing a)
    then Some (a <| firing ::= List.filter (fun j => negb (Nat.eqb i j)) |> <| timing ::= fun l => l ++ [buf a] |> <| takes ::= fun l => l ++ [buf a] |>
                 <| buf := [] |> <| timer := None |>)
    else None
  | EmitHandler => match handling a with Some t => Some (emit t (a <| handling := None |>)) | None => None end
  | EmitTimer k => match timing a !! k with Some t => Some (emit t (a <| timing ::= delete k |>)) | None => None end
  | Cleanup => Some (stopTimer a)
  end.
Fixpoint run (cs : list choice) (a : A) : option A :=
  match cs with [] => Some a | c :: cs => match step c a with Some a => run cs a | None => None end end.

Definition somewhat (t : gostring) : bool := match t with [] => false | _ => true end.
Definition due (a : A) : list gostring := option_list (handling a) ++ timing a.
Definition prefixed (l : list gostring) : list gostring := flat_map (fun t => if somewhat t then [Prefix cfg ++ t] else []) l.
Record typed (a : A) : Prop := {
  y_keys : List.concat (takes a) ++ buf a = List.concat (pressed a);
  y_pushed : prefixed (takes a) ≡ₚ pushed a ++ prefixed (due a);
  y_order : hasTimeout cfg = false -> firing a = [] /\ armed a = [] /\ timing a = [] /\ prefixed (takes a) = pushed a ++ prefixed (option_list (handling a))
}.
Arguments prefixed : simpl never.
Lemma prefixed_app a b : prefixed (a ++ b) = prefixed a ++ prefixed b.
Proof. apply flat_map_app. Qed.
Lemma prefixed_perm a b : a ≡ₚ b -> prefixed a ≡ₚ prefixed b.
Proof. apply Permutation_flat_map. Qed.
Lemma typed_same a a' : buf a' = buf a -> handling a' = handling a -> timing a' = timing a -> pressed a' = pressed a -> takes a' = takes a -> pushed a' = pushed a ->
  (hasTimeout cfg = false -> firing a = [] -> armed a = [] -> firing a' = [] /\ armed a' = []) -> typed a -> typed a'.
Proof.
  intros E1 E2 E3 E4 E5 E6 H [K1 K2 K3]. split; unfold due; rewrite ?E1, ?E2, ?E3, ?E4, ?E5, ?E6; [done|done|]. intros Ht. destruct (K3 Ht) as (F1 & F2 & ? & ?).
  destruct (H Ht F1 F2) as [? ?]. by split_and!.
Qed.
Lemma typed_stop a : typed a -> typed (stopTimer a).
Proof. apply typed_same; unfold stopTimer; destruct (timer a); try done. cbn. intros _ -> ->. done. Qed.
Lemma typed_arm a : typed a -> typed (armTimer a).
Proof.
  unfold armTimer. destruct (hasTimeout cfg) eqn:Et; cbn [negb]; [|done]. intros H%typed_stop. revert H. apply typed_same; try done. by rewrite Et.
Qed.
Lemma typed_press k a : handling a = None -> typed a -> typed (handle k a).
Proof.
  intros Eh [K1 K2 K3]. unfold handle. case_bool_decide.
  - apply typed_stop. split.
    + cbn. rewrite List.concat_app, app_nil_r. cbn. by rewrite app_nil_r.
    + unfold due in *. rewrite Eh in K2. cbn in *. rewrite prefixed_app, K2. change (buf a :: timing a) with ([buf a] ++ timing a). rewrite prefixed_app. solve_Permutation.
    + intros Ht. destruct (K3 Ht) as (? & ? & ? & E). rewrite Eh in E. cbn in *. rewrite app_nil_r in E. split_and!; [done..|]. by rewrite prefixed_app, E.
  - apply typed_arm. split; [|done|done]. cbn. by rewrite app_assoc, K1, List.concat_app, (app_nil_r k : List.concat [k] = k).
Qed.
Lemma typed_emit t a : prefixed (takes a) ≡ₚ pushed a ++ prefixed (t :: due a) -> List.concat (takes a) ++ buf a = List.concat (pressed a) ->
  (hasTimeout cfg = false -> firing a = [] /\ armed a = [] /\ timing a = [] /\ prefixed (takes a) = (pushed a ++ prefixed [t]) ++ prefixed (option_list (handling a))) ->
  typed (emit t a).
Proof.
  intros K2 K1 K3. change (t :: due a) with ([t] ++ due a) in K2. rewrite prefixed_app in K2. destruct t as [|b t]; cbn [emit].
  - split; [done|done|]. intros Ht. destruct (K3 Ht) as (? & ? & ? & E). cbn in E. rewrite app_nil_r in E. by split_and!.
  - split; cbn; [done|by rewrite <- app_assoc|]. exact K3.
Qed.
Lemma typed_step c a a' : typed a -> step c a = Some a' -> typed a'.
Proof.
  intros H E. pose proof H as [K1 K2 K3]. destruct c as [k|i|i| |k|]; cbn [step] in E.
  - destruct (handling a) eqn:Eh; [done|]. injection E as <-. by apply typed_press.
  - case_decide as Hi; [|done]. injection E as <-. revert H. apply typed_same; try done. intros _ _ E. rewrite E in Hi. by apply not_elem_of_nil in Hi.
  - case_decide as Hi; [|done]. injection E as <-. split.
    + cbn. rewrite List.concat_app, app_nil_r. cbn. by rewrite app_nil_r.
    + unfold due in *. cbn. rewrite app_assoc, !prefixed_app, K2, prefixed_app. solve_Permutation.
    + intros Ht. destruct (K3 Ht) as (E & _). rewrite E in Hi. by apply not_elem_of_nil in Hi.
  - destruct (handling a) as [t|] eqn:Eh; [|done]. injection E as <-. unfold due in *. rewrite Eh in *. apply typed_emit; [done|done|]. intros Ht.
    destruct (K3 Ht) as (? & ? & ? & E). cbn [handling takes pushed]. split_and!; [done..|]. cbn in *. by rewrite app_nil_r.
  - destruct (timing a !! k) as [t|] eqn:Et; [|done]. injection E as <-. apply typed_emit; [|done|].
    + unfold due in *. cbn. rewrite K2. apply Permutation_app_head, prefixed_perm. rewrite (delete_Permutation _ _ _ Et) at 1. solve_Permutation.
    + intros Ht. destruct (K3 Ht) as (_ & _ & E & _). by rewrite E in Et.
  - injection E as <-. by apply typed_stop.
Qed.

Lemma typed_run cs : forall a a', typed a -> run cs a = Some a' -> typed a'.
Proof.
  induction cs as [|c cs IH]; intros a a' H E; cbn [run] in E; [by injection E as <-|]. destruct (step c a) as [a1|] eqn:Ec; [|done].
  eapply IH; [|exact E]. by eapply typed_step.
Qed.

(** However keys, timeouts and pushes interleave, every key pressed but the terminator is
    in just one of the texts taken from the buffer, in the order pressed, or still in it;
    and each text taken that says something is pushed just once, with the prefix, or about
    to be.  Without a timeout they are pushed in order. *)
Theorem keys_typed_once cs a : run cs New = Some a ->
  List.concat (takes a) ++ buf a = List.concat (pressed a)
  /\ prefixed (takes a) ≡ₚ pushed a ++ prefixed (due a)
  /\ (hasTimeout cfg = false -> handling a = None -> pushed a = prefixed (takes a)).
Proof.
  intros E. assert (typed a) as [K1 K2 K3].
  { eapply typed_run; [|exact E]. split; [done|done|]. by intros _. }
  split_and!; [done|done|]. intros Ht Eh. destruct (K3 Ht) as (_ & _ & _ & K). rewrite Eh in K. by rewrite K, app_nil_r.
Qed.
End Aggregator.

(** ** Runs *)

Definition phone : AggregatorConfig := NewAggregator (mkConfig [] true (bytes_of "Keys: ")).
Definition digit (n : Z) : gostring := [48 + n].
Definition result (cs : list choice) : A := default New (run phone cs New).
Definition toTyped : list choice := [Press (digit 1); Press (digit 2); Press KeypadPound; EmitHandler; Press (digit 3); Fire 2; Callback 2; EmitTimer 0].
Lemma keys_typed_once_witness :
  pushed (result toTyped) = [bytes_of "Keys: 12"; bytes_of "Keys: 3"]
  /\ List.concat (takes (result toTyped)) ++ buf (result toTyped) = List.concat (pressed (result toTyped))
  /\ prefixed phone (takes (result toTyped)) ≡ₚ pushed (result toTyped) ++ prefixed phone (due (result toTyped))
  /\ (hasTimeout phone = false -> handling (result toTyped) = None -> pushed (result toTyped) = prefixed phone (takes (result toTyped))).
Proof. split; [vm_compute; reflexivity|]. apply (keys_typed_once phone toTyped). vm_compute. reflexivity. Defined.

(** A timer that fired as the next key came lets go of that key's timer, which then fires
    however many keys follow: what is typed after is cut off before its time is up. *)
Lemma stale_timer_flushes :
  let a := result [Press (digit 1); Fire 0; Press (digit 2); Callback 0; Press (digit 3); Fire 1; Callback 1] in
  takes a = [digit 1 ++ digit 2; digit 3] /\ armed a = [2%nat].
Proof. vm_compute. by split. Qed.
(** Keys taken by a timer can be pushed behind those the terminator ended after. *)
Lemma keys_pushed_out_of_order :
  pushed (result [Press (digit 1); Fire 0; Callback 0; Press (digit 2); Press KeypadPound; EmitHandler; EmitTimer 0]) = [bytes_of "Keys: 2"; bytes_of "Keys: 1"].
Proof. vm_compute. reflexivity. Qed.
End Dtmf.
