(* ===== verification/Recording.v ===== *)
(** * Recordings

    PCM audio put together and wrapped ([src/audio/utils.go]), and the processor that
    records a conversation ([src/processor/audiobuffer/audiobuffer.go]).

    Audio is its bytes.  The resamplers are a library's.  The recorder is taken call by
    call, as its lock makes them; what it delivers after it gives the lock back is listed
    with the call.  Times are the clock's nanoseconds as it reads them. *)

From S2P Require Import Prelude Float64 WsService.

(** ** PCM *)

Module Pcm.
Local Open Scope Z_scope.

(** A byte of a buffer, and the 16-bit sample at one, low byte first. *)
Definition byteAt (l : list Z) (i : nat) : Z := nth i l 0.
Definition sampleAt (l : list Z) (i : nat) : Z := int16 (byteAt l i + 256 * byteAt l (S i)).
Definition putSample (s : Z) : list Z := [uint16 s mod 256; uint16 s / 256].
Definition clampInt16 (v : Z) : Z := if 32767 <? v then 32767 else if v <? -32768 then -32768 else v.
(** [for i := 0; i+1 < n; i += 2] of an even [n]. *)
Definition steps (n : nat) : list nat := List.map (fun k => 2 * k)%nat (seq 0 (n / 2)).

Definition speakingThreshold : Z := 20.
Definition IsSilence (pcm : list Z) : bool :=
  forallb (fun i => Z.abs (sampleAt pcm i) <=? speakingThreshold) (steps (length pcm)).
Definition RemoveDCOffset (pcm : list Z) : list Z :=
  let n := (length pcm - length pcm mod 2)%nat in
  if Nat.eqb n 0 then pcm
  else
    let sum := foldr Z.add 0 (List.map (sampleAt pcm) (steps n)) in
    let mean := Z.quot sum (Z.of_nat (n / 2)) in
    if mean =? 0 then List.firstn n pcm
    else flat_map (fun i => putSample (clampInt16 (sampleAt pcm i - mean))) (steps n).
Definition MixAudio (a b : list Z) : list Z :=
  let n := (Nat.max (length a) (length b))%nat in
  flat_map (fun i =>
    let s := (if Nat.ltb (i + 1) (length a) then sampleAt a i else 0) + (if Nat.ltb (i + 1) (length b) then sampleAt b i else 0) in
    putSample (clampInt16 s)) (steps (n - n mod 2)).
Definition InterleaveStereo (left right : list Z) : list Z :=
  let n := (Nat.min (length left) (length right))%nat in
  flat_map (fun i => [byteAt left i; byteAt left (S i); byteAt right i; byteAt right (S i)]) (steps (n - n mod 2)).

(** Little-endian integers of two and four bytes, wrapping. *)
Definition le16 (v : Z) : list Z := [v mod 256; (v / 256) mod 256].
Definition le32 (v : Z) : list Z := [v mod 256; (v / 256) mod 256; (v / 65536) mod 256; (v / 16777216) mod 256].
Definition wavHeaderLen : Z := 36.
Definition riff : list Z := [82; 73; 70; 70].
Definition wave : list Z := [87; 65; 86; 69].
Definition fmt_ : list Z := [102; 109; 116; 32].
Definition data : list Z := [100; 97; 116; 97].
Definition PCMToWAV (pcm : list Z) (sampleRate numChannels : Z) : list Z :=
  let numChannels := if numChannels <? 1 then 1 else numChannels in
  let blockAlign := 2 * numChannels in
  let pcm := List.firstn (length pcm - Z.to_nat (Z.of_nat (length pcm) mod blockAlign)) pcm in
  riff ++ le32 (wavHeaderLen + Z.of_nat (length pcm)) ++ wave ++ fmt_ ++ le32 16 ++ le16 1 ++ le16 numChannels ++ le32 sampleRate
  ++ le32 (sampleRate * blockAlign) ++ le16 blockAlign ++ le16 16 ++ data ++ le32 (Z.of_nat (length pcm)) ++ pcm.

(** *** Samples *)

(** The samples of a buffer, and a buffer of samples. *)
Fixpoint samples (l : list Z) : list Z := match l with lo :: hi :: l => int16 (lo + 256 * hi) :: samples l | _ => [] end.
Definition ofSamples (l : list Z) : list Z := flat_map putSample l.
Definition bytes (l : list Z) : Prop := Forall u8 l.

Lemma even_div n : (n - n mod 2)%nat = (2 * (n / 2))%nat.
Proof. pose proof (Nat.div_mod_eq n 2). lia. Qed.
Lemma steps_even n : steps (n - n mod 2) = steps n.
Proof. unfold steps. rewrite even_div, Nat.mul_comm, Nat.div_mul by done. done. Qed.
Lemma steps_SS n : steps (S (S n)) = 0%nat :: List.map (fun i => S (S i)) (steps n).
Proof.
  unfold steps. replace (S (S n) / 2)%nat with (S (n / 2)).
  2: { replace (S (S n)) with (n + 1 * 2)%nat by lia. rewrite Nat.div_add by lia. lia. }
  cbn [seq List.map]. f_equal. rewrite <- seq_shift, !List.map_map. apply List.map_ext. intros k. lia.
Qed.
Lemma samples_at l : samples l = List.map (sampleAt l) (steps (length l)).
Proof.
  induction l as [l IH] using (induction_ltof1 _ (@length Z)). unfold ltof in IH. destruct l as [|lo [|hi l]]; [done|done|].
  cbn [samples length]. rewrite steps_SS. cbn [List.map]. rewrite List.map_map, (IH l) by (cbn; lia). done.
Qed.
Lemma putSample_back s : s16 s -> int16 (uint16 s mod 256 + 256 * (uint16 s / 256)) = s.
Proof. unfold s16, int16, uint16. intros. Z.to_euclidean_division_equations. lia. Qed.
Lemma samples_of l : Forall s16 l -> samples (ofSamples l) = l.
Proof. induction 1 as [|s l Hs _ IH]; [done|]. cbn. rewrite putSample_back by done. f_equal. exact IH. Qed.
Lemma int16_range z : s16 (int16 z).
Proof. unfold s16, int16. Z.to_euclidean_division_equations. lia. Qed.
Lemma samples_range l : Forall s16 (samples l).
Proof.
  induction l as [l IH] using (induction_ltof1 _ (@length Z)). unfold ltof in IH. destruct l as [|lo [|hi l]]; [constructor|constructor|].
  cbn. constructor; [apply int16_range|]. apply IH. cbn. lia.
Qed.
Lemma clamp_range v : s16 (clampInt16 v).
Proof. unfold s16, clampInt16. repeat case_match; lia. Qed.
Lemma clamp_id v : s16 v -> clampInt16 v = v.
Proof. unfold s16, clampInt16. intros. repeat case_match; lia. Qed.

(** Two tracks added sample by sample, the shorter one followed by silence. *)
Fixpoint added (xs ys : list Z) : list Z :=
  match xs, ys with
  | [], _ => ys
  | _, [] => xs
  | x :: xs, y :: ys => clampInt16 (x + y) :: added xs ys
  end.
Lemma added_nil_r xs : added xs [] = xs.
Proof. by destruct xs. Qed.
Lemma flat_map_map {A B C} (f : A -> B) (g : B -> list C) l : flat_map g (List.map f l) = flat_map (fun a => g (f a)) l.
Proof. induction l as [|a l IH]; [done|]. cbn. by rewrite IH. Qed.
Lemma flat_map_same {A B} (f g : A -> list B) l : (forall a, In a l -> f a = g a) -> flat_map f l = flat_map g l.
Proof. induction l as [|a l IH]; intros H; [done|]. cbn. rewrite H by (by left). f_equal. apply IH. intros b Hb. apply H. by right. Qed.
Lemma MixAudio_SS a0 a1 a b0 b1 b : MixAudio (a0 :: a1 :: a) (b0 :: b1 :: b) = putSample (clampInt16 (int16 (a0 + 256 * a1) + int16 (b0 + 256 * b1))) ++ MixAudio a b.
Proof.
  unfold MixAudio. cbn [length]. rewrite !steps_even. change (Nat.max (S (S (length a))) (S (S (length b)))) with (S (S (Nat.max (length a) (length b)))).
  rewrite steps_SS. cbn [flat_map]. f_equal. rewrite flat_map_map. apply List.flat_map_ext. intros i. done.
Qed.
Lemma MixAudio_one a : MixAudio a [] = ofSamples (samples a) /\ MixAudio [] a = ofSamples (samples a).
Proof.
  unfold MixAudio. rewrite Nat.max_0_r, Nat.max_0_l, !steps_even. unfold ofSamples. rewrite samples_at, flat_map_map.
  assert (forall i, In i (steps (length a)) -> Nat.ltb (i + 1) (length a) = true) as Hi.
  { intros i Hin. apply in_map_iff in Hin as (k & <- & Hk%in_seq). apply Nat.ltb_lt. pose proof (Nat.div_mod_eq (length a) 2). lia. }
  assert (forall i, In i (steps (length a)) -> Nat.ltb (i + 1) (@length Z []) = false) as Hn by (intros; apply Nat.ltb_ge; cbn; lia).
  split; apply flat_map_same; intros i Hin; rewrite Hi, Hn by done; rewrite ?Z.add_0_r, ?Z.add_0_l, clamp_id by apply int16_range; done.
Qed.

(** Mixing adds the tracks sample by sample, clipped, the shorter one going on in
    silence: no sample wraps around, and none is dropped but half a one at the end. *)
Theorem mixed_as_added a b : samples (MixAudio a b) = added (samples a) (samples b).
Proof.
  revert b. induction a as [a IH] using (induction_ltof1 _ (@length Z)). unfold ltof in IH. intros b.
  destruct a as [|a0 [|a1 a]].
  - rewrite (proj2 (MixAudio_one b)). cbn [samples added]. apply samples_of, samples_range.
  - destruct b as [|b0 [|b1 b]]; [done|done|].
    assert (MixAudio [a0] (b0 :: b1 :: b) = MixAudio [] (b0 :: b1 :: b)) as ->.
    { unfold MixAudio. cbn [length]. replace (Nat.max 1 (S (S (length b)))) with (Nat.max 0 (S (S (length b)))) by lia. apply List.flat_map_ext. intros i.
      by replace (Nat.ltb (i + 1) 1) with false by (symmetry; apply Nat.ltb_ge; lia). }
    rewrite (proj2 (MixAudio_one _)). cbn [samples added]. apply (samples_of (_ :: samples b)). constructor; [apply int16_range|apply samples_range].
  - destruct b as [|b0 [|b1 b]].
    + rewrite (proj1 (MixAudio_one _)), added_nil_r. apply samples_of, samples_range.
    + assert (MixAudio (a0 :: a1 :: a) [b0] = MixAudio (a0 :: a1 :: a) []) as ->.
      { unfold MixAudio. cbn [length]. replace (Nat.max (S (S (length a))) 1) with (Nat.max (S (S (length a))) 0) by lia. apply List.flat_map_ext. intros i.
        by replace (Nat.ltb (i + 1) 1) with false by (symmetry; apply Nat.ltb_ge; lia). }
      rewrite (proj1 (MixAudio_one _)), added_nil_r. apply samples_of, samples_range.
    + rewrite MixAudio_SS. cbn [samples added putSample app]. rewrite putSample_back by apply clamp_range. f_equal. apply IH. cbn. lia.
Qed.

(** The channels of a stereo buffer. *)
Fixpoint channelsOf (l : list Z) : list Z * list Z :=
  match l with
  | a :: b :: c :: d :: l => let '(x, y) := channelsOf l in (a :: b :: x, c :: d :: y)
  | _ => ([], [])
  end.
Lemma Interleave_SS a0 a1 a b0 b1 b : InterleaveStereo (a0 :: a1 :: a) (b0 :: b1 :: b) = [a0; a1; b0; b1] ++ InterleaveStereo a b.
Proof.
  unfold InterleaveStereo. cbn [length]. rewrite !steps_even. change (Nat.min (S (S (length a))) (S (S (length b)))) with (S (S (Nat.min (length a) (length b)))).
  rewrite steps_SS. cbn [flat_map]. f_equal. rewrite flat_map_map. apply List.flat_map_ext. intros i. done.
Qed.
(** Interleaving keeps both channels, as far as both have whole samples. *)
Theorem interleaved_apart left right :
  let n := (Nat.min (length left) (length right) - Nat.min (length left) (length right) mod 2)%nat in
  channelsOf (InterleaveStereo left right) = (List.firstn n left, List.firstn n right).
Proof.
  cbn zeta. revert right. induction left as [a IH] using (induction_ltof1 _ (@length Z)). unfold ltof in IH. intros b.
  destruct a as [|a0 [|a1 a]]; [done| |].
  - destruct b as [|b0 b]; [done|]. unfold InterleaveStereo. cbn [length]. by replace (Nat.min 1 (S (length b))) with 1%nat by lia.
  - destruct b as [|b0 [|b1 b]]; [done| |].
    + unfold InterleaveStereo. cbn [length]. by replace (Nat.min (S (S (length a))) 1) with 1%nat by lia.
    + rewrite Interleave_SS. cbn [app channelsOf]. rewrite IH by (cbn; lia). cbn [length].
      change (Nat.min (S (S (length a))) (S (S (length b)))) with (S (S (Nat.min (length a) (length b)))). rewrite !even_div.
      replace (S (S (Nat.min (length a) (length b))) / 2)%nat with (S (Nat.min (length a) (length b) / 2)).
      2: { replace (S (S (Nat.min (length a) (length b)))) with (Nat.min (length a) (length b) + 1 * 2)%nat by lia. rewrite Nat.div_add by lia. lia. }
      replace (2 * S (Nat.min (length a) (length b) / 2))%nat with (S (S (2 * (Nat.min (length a) (length b) / 2)))) by lia. done.
Qed.

(** A buffer is silence when none of its samples is louder than the threshold. *)
Theorem silence_is_quiet pcm : IsSilence pcm = true <-> Forall (fun s => Z.abs s <= speakingThreshold) (samples pcm).
Proof.
  unfold IsSilence. rewrite samples_at, forallb_forall, Forall_map, List.Forall_forall. setoid_rewrite Z.leb_le. done.
Qed.

(** *** Reading a WAV file *)

Definition sub (i n : nat) (l : list Z) : list Z := List.firstn n (List.skipn i l).
Fixpoint fromLE (l : list Z) : Z := match l with [] => 0 | b :: l => b + 256 * fromLE l end.
(** The channels, the rate and the samples, if the header agrees with itself. *)
Definition readWAV (l : list Z) : option (Z * Z * list Z) :=
  let ch := fromLE (sub 22 2 l) in
  let rate := fromLE (sub 24 4 l) in
  let pcm := List.skipn 44 l in
  if bool_decide (sub 0 4 l = riff) && bool_decide (sub 8 8 l = wave ++ fmt_) && (fromLE (sub 4 4 l) =? wavHeaderLen + Z.of_nat (length pcm))
     && (fromLE (sub 16 4 l) =? 16) && (fromLE (sub 20 2 l) =? 1) && (fromLE (sub 32 2 l) =? 2 * ch) && (fromLE (sub 34 2 l) =? 16)
     && bool_decide (sub 36 4 l = data) && (fromLE (sub 40 4 l) =? Z.of_nat (length pcm)) && (Z.of_nat (length pcm) mod (2 * ch) =? 0)
  then Some (ch, rate, pcm) else None.
Lemma le16_back v : 0 <= v < 65536 -> fromLE (le16 v) = v.
Proof. intros. unfold le16, fromLE. Z.to_euclidean_division_equations. lia. Qed.
Lemma le32_back v : 0 <= v < 4294967296 -> fromLE (le32 v) = v.
Proof. intros. unfold le32, fromLE. Z.to_euclidean_division_equations. lia. Qed.

(** What is wrapped is read back: the format and the samples, without what does not
    complete a frame, the header agreeing with them. *)
Theorem wav_read_back pcm rate ch : 1 <= ch < 32768 -> 0 <= rate < 4294967296 -> 36 + Z.of_nat (length pcm) < 4294967296 ->
  readWAV (PCMToWAV pcm rate ch) = Some (ch, rate, List.firstn (length pcm - Z.to_nat (Z.of_nat (length pcm) mod (2 * ch))) pcm).
Proof.
  intros Hc Hr Hl. unfold PCMToWAV. destruct (Z.ltb_spec ch 1) as [?|_]; [lia|]. set (body := List.firstn _ pcm).
  assert (length body = (length pcm - Z.to_nat (Z.of_nat (length pcm) mod (2 * ch)))%nat) as Hb by (unfold body; rewrite length_firstn; lia).
  pose proof (Z.mod_pos_bound (Z.of_nat (length pcm)) (2 * ch) ltac:(lia)) as Hm.
  assert (Z.of_nat (length body) mod (2 * ch) = 0) as Hz.
  { pose proof (Z.mod_le (Z.of_nat (length pcm)) (2 * ch) ltac:(lia) ltac:(lia)). rewrite Hb, Nat2Z.inj_sub by lia. rewrite Z2Nat.id by lia.
    rewrite (Z.div_mod (Z.of_nat (length pcm)) (2 * ch)) at 1 by lia. rewrite Z.add_simpl_r, Z.mul_comm. apply Z.mod_mul. lia. }
  unfold readWAV. cbv zeta.
  change (sub 22 2 _) with (le16 ch). change (sub 24 4 _) with (le32 rate). change (List.skipn 44 _) with body.
  change (sub 4 4 _) with (le32 (wavHeaderLen + Z.of_nat (length body))). change (sub 16 4 _) with (le32 16). change (sub 20 2 _) with (le16 1).
  change (sub 32 2 _) with (le16 (2 * ch)). change (sub 34 2 _) with (le16 16). change (sub 40 4 _) with (le32 (Z.of_nat (length body))).
  rewrite !le16_back, !le32_back by (unfold wavHeaderLen; lia). rewrite Hz, !Z.eqb_refl. rewrite !bool_decide_eq_true_2 by done. done.
Qed.
End Pcm.

(** ** The recorder *)

Module Recorder.
Import Pcm.
Local Open Scope Z_scope.

Definition second : Z := 1000000000.
Definition silenceGapThreshold : Z := 200000000.

Record Config := mkConfig { SampleRate : Z; NumChannels : Z; BufferSize : Z; AutoStart : bool; EnableTurnAudio : bool }.

(** The frames the recorder tells apart; audio with its rate and channels. *)
Inductive frame :=
| StartFrame | CancelFrame | EndFrame
| AudioBufferStartRecordingFrame | AudioBufferStopRecordingFrame
| UserStartedSpeakingFrame | UserStoppedSpeakingFrame
| BotStartedSpeakingFrame | BotStoppedSpeakingFrame
| InputAudioRawFrame (audio : list Z) (rate ch : Z)
| TTSAudioRawFrame (audio : list Z) (rate ch : Z)
| OutputAudioRawFrame (audio : list Z) (rate ch : Z)
| OtherFrame (n : nat).
Inductive audioKind := kindNone | kindUser | kindBot.
#[export] Instance audioKind_dec : EqDecision audioKind. Proof. solve_decision. Defined.
Definition classify (f : frame) : list Z * Z * Z * audioKind :=
  match f with
  | InputAudioRawFrame a r c => (a, r, c, kindUser)
  | TTSAudioRawFrame a r c => (a, r, c, kindBot)
  | OutputAudioRawFrame a r c => (a, r, c, kindBot)
  | _ => ([], 0, 0, kindNone)
  end.

(** What the callbacks are given. *)
Record recording := mkRecording { merged : list Z; user : list Z; bot : list Z; sampleRate_ : Z; channels_ : Z }.
Inductive told :=
| RecordingStarted | RecordingStopped
| AudioData (r : recording)            (** [OnAudioData] and [OnTrackAudioData] *)
| UserRun (audio : list Z) | BotRun (audio : list Z)
| UserTurn (turn : nat) (audio : list Z) | BotTurn (turn : nat) (audio : list Z).

(** Silence up to a length. *)
Definition padTo (buf : list Z) (target : nat) : list Z := buf ++ List.repeat 0 (target - length buf).
(** [now.Sub(last)]: it saturates. *)
Definition Sub (now last : Z) : Z := Z.max (- 9223372036854775808) (Z.min 9223372036854775807 (now - last)).

Section Recorder.
(** A resampler is the library's: how one is made, for a rate to another and so many
    channels, and what it makes of a piece of audio. *)
Context {Res : Type} (newResampler : Z -> Z -> Z -> option Res) (Process : Res -> list Z -> list Z * Res).
(** Whether the worker tracks turns. *)
Context (tracked : bool) (cfg : Config).

Record P := mkP {
  recording_ : bool; sampleRate : Z; bufSize : Z; channels : Z;
  userBuf : list Z; botBuf : list Z; userSpeaking : bool; botSpeaking : bool;
  lastUser : option Z; lastBot : option Z;
  userTurnBuf : list Z; botTurnBuf : list Z; userTurnAudio : list Z; botTurnAudio : list Z;
  turnTrackerAttached : bool; oneSecond : Z;
  inRes : option (Res * Z); outRes : option (Res * Z)
}.
#[export] Instance eta_P : Eta P := fun p =>
  mkP (recording_ p) (sampleRate p) (bufSize p) (channels p) (userBuf p) (botBuf p) (userSpeaking p) (botSpeaking p) (lastUser p) (lastBot p)
    (userTurnBuf p) (botTurnBuf p) (userTurnAudio p) (botTurnAudio p) (turnTrackerAttached p) (oneSecond p) (inRes p) (outRes p).
(** [New] and [Setup], given the pipeline's rate. *)
Definition New : P :=
  mkP false 0 0 (if NumChannels cfg =? 0 then 1 else NumChannels cfg) [] [] false false None None [] [] [] [] false 0 None None.
Definition Setup (AudioOutSampleRate : Z) (p : P) : P :=
  let p := p <| sampleRate := if SampleRate cfg =? 0 then AudioOutSampleRate else SampleRate cfg |> in
  p <| oneSecond := int64 (sampleRate p * 2) |>.

Definition reset (now : option Z) (p : P) : P :=
  p <| userBuf := [] |> <| botBuf := [] |> <| userTurnBuf := [] |> <| botTurnBuf := [] |> <| lastUser := now |> <| lastBot := now |>.
Definition resetPrimary (now : Z) (p : P) : P :=
  p <| userBuf := [] |> <| botBuf := [] |> <| lastUser := Some now |> <| lastBot := Some now |>.

Definition fillSilenceGap (rate : Z) (buf : list Z) (last : option Z) (now : Z) (frameBytes : nat) : list Z :=
  match last with
  | None => buf
  | Some last =>
    if rate =? 0 then buf
    else
      let elapsed := Sub now last in
      let frameDur := to_int (f64_trunc (f64_mul (f64_div (f64_of_Z (Z.of_nat frameBytes)) (f64_of_Z (int64 (rate * 2)))) (f64_of_Z second))) in
      let gap := int64 (elapsed - frameDur) in
      if silenceGapThreshold <? gap then
        let sb := to_int (f64_trunc (f64_mul (f64_mul (Network.Seconds gap) (f64_of_Z rate)) (f64_of_Z 2))) in
        let sb := sb - Z.rem sb 2 in
        if 0 <? sb then buf ++ List.repeat 0 (Z.to_nat sb) else buf
      else buf
  end.

(** [now] and [later] are the two readings of the clock. *)
Definition addUserAudio (now later : Z) (res : list Z) (p : P) : P :=
  let p := p <| userBuf := fillSilenceGap (sampleRate p) (userBuf p) (lastUser p) now (length res) |> <| lastUser := Some now |> in
  let p := if negb (botSpeaking p) then p <| botBuf := padTo (botBuf p) (length (userBuf p)) |> <| lastBot := Some later |> else p in
  p <| userBuf ::= fun b => b ++ res |>.
Definition addBotAudio (now later : Z) (res : list Z) (p : P) : P :=
  let p := p <| botBuf := fillSilenceGap (sampleRate p) (botBuf p) (lastBot p) now (length res) |> <| lastBot := Some now |> in
  let p := if negb (userSpeaking p) then p <| userBuf := padTo (userBuf p) (length (botBuf p)) |> <| lastUser := Some later |> else p in
  p <| botBuf ::= fun b => b ++ res |>.

Definition resampled (held : option (Res * Z)) (target : Z) (audio : list Z) (rate ch : Z) : list Z * option (Res * Z) :=
  if (rate =? target) || (rate =? 0) then (audio, held)
  else
    let fresh := match newResampler rate target ch with
                 | Some r => let '(a, r) := Process r audio in (a, Some (r, rate))
                 | None => (audio, held)
                 end in
    match held with
    | Some (r, from) => if from =? rate then let '(a, r) := Process r audio in (a, Some (r, rate)) else fresh
    | None => fresh
    end.
Definition resampleInput (audio : list Z) (rate ch : Z) (p : P) : list Z * P :=
  let '(a, r) := resampled (inRes p) (sampleRate p) audio rate ch in (a, p <| inRes := r |>).
Definition resampleOutput (audio : list Z) (rate ch : Z) (p : P) : list Z * P :=
  let '(a, r) := resampled (outRes p) (sampleRate p) audio rate ch in (a, p <| outRes := r |>).

Definition snapshot (p : P) : option recording :=
  if Nat.eqb (length (userBuf p)) 0 && Nat.eqb (length (botBuf p)) 0 then None
  else
    let target := Nat.max (length (userBuf p)) (length (botBuf p)) in
    let u := padTo (userBuf p) target in
    let b := padTo (botBuf p) target in
    Some (mkRecording (if channels p =? 2 then InterleaveStereo u b else MixAudio u b) u b (sampleRate p) (channels p)).
Definition deliver (r : option recording) : list told := match r with Some r => [AudioData r] | None => [] end.

Definition endUserRun (p : P) : P := p <| userTurnAudio ::= fun a => a ++ userTurnBuf p |> <| userTurnBuf := [] |>.
Definition endBotRun (p : P) : P := p <| botTurnAudio ::= fun a => a ++ botTurnBuf p |> <| botTurnBuf := [] |>.
Definition recordTurn (f : frame) (kind : audioKind) (res : list Z) (p : P) : list told * P :=
  let '(o, p) := match f with
                 | UserStoppedSpeakingFrame => ([UserRun (userTurnBuf p)], endUserRun p)
                 | BotStoppedSpeakingFrame => ([BotRun (botTurnBuf p)], endBotRun p)
                 | _ => ([], p)
                 end in
  let some := Nat.ltb 0 (length res) in
  match kind with
  | kindUser =>
    if some then
      let p := p <| userTurnBuf ::= fun b => b ++ res |> in
      (o, if negb (userSpeaking p) && (0 <? oneSecond p) && (oneSecond p <? Z.of_nat (length (userTurnBuf p)))
          then p <| userTurnBuf ::= fun b => List.skipn (length b - Z.to_nat (oneSecond p)) b |> else p)
    else (o, p)
  | kindBot => (o, if botSpeaking p && some then p <| botTurnBuf ::= fun b => b ++ res |> else p)
  | kindNone => (o, p)
  end.
(** The steps of [record]: the speaking flags, the audio, and the flush at [BufferSize]. *)
Definition flagged (f : frame) (p : P) : P :=
  match f with
  | UserStartedSpeakingFrame => p <| userSpeaking := true |>
  | UserStoppedSpeakingFrame => p <| userSpeaking := false |>
  | BotStartedSpeakingFrame => p <| botSpeaking := true |>
  | BotStoppedSpeakingFrame => p <| botSpeaking := false |>
  | _ => p
  end.
Definition buffered (f : frame) (now later : Z) (p : P) : list Z * P :=
  let '(audio, rate, ch, kind) := classify f in
  match kind with
  | kindUser => let '(res, p) := resampleInput audio rate ch p in (res, if Nat.ltb 0 (length res) then addUserAudio now later res p else p)
  | kindBot => let '(res, p) := resampleOutput audio rate ch p in (res, if Nat.ltb 0 (length res) then addBotAudio now later res p else p)
  | kindNone => ([], p)
  end.
Definition flush (flushed : Z) (p : P) : list told * P :=
  if (0 <? bufSize p) && ((bufSize p <=? Z.of_nat (length (userBuf p))) || (bufSize p <=? Z.of_nat (length (botBuf p))))
  then (deliver (snapshot p), resetPrimary flushed p) else ([], p).
Definition record (f : frame) (now later flushed : Z) (p : P) : list told * P :=
  if negb (recording_ p) then ([], p)
  else
    let '(res, p) := buffered f now later (flagged f p) in
    let '(snap, p) := flush flushed p in
    let '(turn, p) := if EnableTurnAudio cfg then recordTurn f (classify f).2 res p else ([], p) in
    (snap ++ turn, p).

Definition startRecording (p : P) : list told * P :=
  if recording_ p then ([], p) else ([RecordingStarted], reset None (p <| recording_ := true |>)).
Definition stopRecording (p : P) : list told * P :=
  if negb (recording_ p) then ([], p)
  else (deliver (snapshot p) ++ [RecordingStopped], (reset None p) <| recording_ := false |>).
Definition attachTurnTracker (p : P) : P :=
  if turnTrackerAttached p then p else if tracked then p <| turnTrackerAttached := true |> else p.
Definition onStart (p : P) : list told * P :=
  let p := p <| bufSize := BufferSize cfg |> in
  let p := if EnableTurnAudio cfg then attachTurnTracker p else p in
  if AutoStart cfg then startRecording p else ([], p).
Definition emitTurnAudio (turn : nat) (p : P) : list told * P :=
  let p := endBotRun p in
  let u := userTurnAudio p in
  let b := botTurnAudio p in
  ((if Nat.ltb 0 (length u) then [UserTurn turn u] else []) ++ (if Nat.ltb 0 (length b) then [BotTurn turn b] else []),
   p <| userTurnAudio := [] |> <| botTurnAudio := [] |>).

Definition before (f : frame) (p : P) : list told * P :=
  match f with
  | StartFrame => onStart p
  | AudioBufferStartRecordingFrame => startRecording p
  | AudioBufferStopRecordingFrame => stopRecording p
  | _ => ([], p)
  end.
Definition ProcessFrame (f : frame) (now later flushed : Z) (p : P) : list told * P :=
  let '(o1, p) := before f p in
  let '(o2, p) := record f now later flushed p in
  let '(o3, p) := match f with CancelFrame | EndFrame => stopRecording p | _ => ([], p) end in
  (o1 ++ o2 ++ o3, p).

(** A call: a frame and when the clock was read for it, the caller starting or stopping
    the recording, or the tracker telling that a turn ended. *)
Inductive call := Frame (f : frame) (now later flushed : Z) | StartRecording | StopRecording | TurnEnded (turn : nat).
Definition handle (c : call) (p : P) : list told * P :=
  match c with
  | Frame f now later flushed => ProcessFrame f now later flushed p
  | StartRecording => startRecording p
  | StopRecording => stopRecording p
  | TurnEnded n => if turnTrackerAttached p then emitTurnAudio n p else ([], p)
  end.
Fixpoint handles (cs : list call) (p : P) : list told * P :=
  match cs with [] => ([], p) | c :: cs => let '(o, p) := handle c p in let '(o', p) := handles cs p in (o ++ o', p) end.

(** ** The tracks *)

(** One stretch of a track from another: some audio added, silence put in between. *)
Inductive woven (t : list Z) : list Z -> list Z -> Prop :=
| woven_refl : woven t [] t
| woven_gap x t' n : woven t x t' -> woven t x (t' ++ List.repeat 0 n)
| woven_add x t' y : woven t x t' -> woven t (x ++ y) (t' ++ y).
Lemma woven_front d t x t' : woven t x t' -> woven (d ++ t) x (d ++ t').
Proof. induction 1 as [|x t' n _ IH|x t' y _ IH]; [constructor|rewrite app_assoc; by constructor|rewrite app_assoc; by constructor]. Qed.
Lemma woven_trans t x t' y t'' : woven t x t' -> woven t' y t'' -> woven t (x ++ y) t''.
Proof.
  intros H. induction 1 as [|y t'' n _ IH|y t'' z _ IH]; [by rewrite app_nil_r|by constructor|]. rewrite app_assoc. by constructor.
Qed.
Lemma woven_pad t n : woven t [] (padTo t n).
Proof. unfold padTo. constructor. constructor. Qed.
Lemma woven_gapped rate t last now n : woven t [] (fillSilenceGap rate t last now n).
Proof.
  unfold fillSilenceGap. destruct last as [last|]; [|constructor]. repeat case_match; try constructor; constructor.
Qed.

Definition usersOf (o : list told) : list Z := flat_map (fun x => match x with AudioData r => user r | _ => [] end) o.
Definition botsOf (o : list told) : list Z := flat_map (fun x => match x with AudioData r => bot r | _ => [] end) o.
Lemma usersOf_app a b : usersOf (a ++ b) = usersOf a ++ usersOf b.
Proof. apply flat_map_app. Qed.
Lemma botsOf_app a b : botsOf (a ++ b) = botsOf a ++ botsOf b.
Proof. apply flat_map_app. Qed.
(** What a call adds to the tracks, what it delivers counted with what it leaves. *)
Record tracks (p : P) (o : list told) (p' : P) (u b : list Z) : Prop := {
  k_user : woven (userBuf p) u (usersOf o ++ userBuf p');
  k_bot : woven (botBuf p) b (botsOf o ++ botBuf p')
}.
Lemma tracks_trans p o p1 u b o' p2 u' b' : tracks p o p1 u b -> tracks p1 o' p2 u' b' -> tracks p (o ++ o') p2 (u ++ u') (b ++ b').
Proof.
  intros [H1 H2] [H3 H4]. split.
  - rewrite usersOf_app, <- app_assoc. eapply woven_trans; [exact H1|]. by apply woven_front.
  - rewrite botsOf_app, <- app_assoc. eapply woven_trans; [exact H2|]. by apply woven_front.
Qed.
Lemma tracks_same p p' : userBuf p' = userBuf p -> botBuf p' = botBuf p -> tracks p [] p' [] [].
Proof. intros E1 E2. split; cbn; rewrite ?E1, ?E2; constructor. Qed.
(** What is taken out is delivered. *)
Lemma tracks_snapshot p p' : userBuf p' = [] -> botBuf p' = [] -> tracks p (deliver (snapshot p)) p' [] [].
Proof.
  intros E1 E2. split; rewrite ?E1, ?E2, app_nil_r; unfold snapshot; destruct (Nat.eqb _ 0 && Nat.eqb _ 0) eqn:E; cbn; rewrite ?app_nil_r; try apply woven_pad;
    apply andb_prop in E as [F1%Nat.eqb_eq F2%Nat.eqb_eq]; [apply nil_length_inv in F1 as ->|apply nil_length_inv in F2 as ->]; constructor.
Qed.
Definition valid (p : P) : Prop := recording_ p = false -> userBuf p = [] /\ botBuf p = [].
Lemma tracks_quiet p o p' u b o' : usersOf o' = usersOf o -> botsOf o' = botsOf o -> tracks p o p' u b -> tracks p o' p' u b.
Proof. intros E1 E2 [H1 H2]. split; [by rewrite E1|by rewrite E2]. Qed.
Lemma start_tracks p : valid p -> tracks p (startRecording p).1 (startRecording p).2 [] [] /\ valid (startRecording p).2.
Proof.
  intros Hv. unfold startRecording. destruct (recording_ p) eqn:Er; [split; [by apply tracks_same|done]|]. split; [|done].
  destruct (Hv Er) as [E1 E2]. eapply (tracks_quiet _ []); [done|done|]. by apply tracks_same; rewrite ?E1, ?E2.
Qed.
Lemma stop_tracks p : valid p -> tracks p (stopRecording p).1 (stopRecording p).2 [] [] /\ valid (stopRecording p).2.
Proof.
  intros Hv. unfold stopRecording. destruct (recording_ p) eqn:Er; cbn [negb]; [|split; [by apply tracks_same|done]]. split; [|done].
  eapply (tracks_quiet _ (deliver (snapshot p))); [cbn [fst]; rewrite usersOf_app; cbn; apply app_nil_r|cbn [fst]; rewrite botsOf_app; cbn; apply app_nil_r|].
  by apply tracks_snapshot.
Qed.
Lemma addUser_tracks now later res p : tracks p [] (addUserAudio now later res p) res [].
Proof.
  unfold addUserAudio. split.
  - destruct (negb (botSpeaking _)); cbn; apply (woven_add _ []), woven_gapped.
  - destruct (negb (botSpeaking _)); cbn; [apply woven_pad|constructor].
Qed.
Lemma addBot_tracks now later res p : tracks p [] (addBotAudio now later res p) [] res.
Proof.
  unfold addBotAudio. split.
  - destruct (negb (userSpeaking _)); cbn; [apply woven_pad|constructor].
  - destruct (negb (userSpeaking _)); cbn; apply (woven_add _ []), woven_gapped.
Qed.
Lemma recordTurn_tracks f k res p : userBuf (recordTurn f k res p).2 = userBuf p /\ botBuf (recordTurn f k res p).2 = botBuf p
  /\ recording_ (recordTurn f k res p).2 = recording_ p /\ usersOf (recordTurn f k res p).1 = [] /\ botsOf (recordTurn f k res p).1 = [].
Proof. unfold recordTurn. destruct f, k; cbn; repeat case_match; by split_and!. Qed.

(** What of a call is heard: audio, resampled, while a recording goes on. *)
Definition heardIn (f : frame) (p : P) : list Z * list Z :=
  if negb (recording_ p) then ([], [])
  else match f with
       | InputAudioRawFrame a r ch => ((resampleInput a r ch p).1, [])
       | TTSAudioRawFrame a r ch | OutputAudioRawFrame a r ch => ([], (resampleOutput a r ch p).1)
       | _ => ([], [])
       end.
Definition heard (c : call) (p : P) : list Z * list Z := match c with Frame f _ _ _ => heardIn f (before f p).2 | _ => ([], []) end.
Fixpoint heards (cs : list call) (p : P) : list Z * list Z :=
  match cs with
  | [] => ([], [])
  | c :: cs => let '(u, b) := heard c p in let '(u', b') := heards cs (handle c p).2 in (u ++ u', b ++ b')
  end.
Lemma none_heard (res : list Z) : Nat.ltb 0 (length res) = false -> res = [].
Proof. destruct res; [done|]. cbn. discriminate. Qed.
Lemma buffered_tracks f now later p : recording_ p = true ->
  tracks p [] (buffered f now later (flagged f p)).2 (heardIn f p).1 (heardIn f p).2 /\ recording_ (buffered f now later (flagged f p)).2 = true.
Proof.
  intros Hr. unfold heardIn. rewrite Hr. cbn [negb].
  assert (forall a r ch (c : bool), tracks p [] (let '(res, p1) := resampleInput a r ch p in if Nat.ltb 0 (length res) then addUserAudio now later res p1 else p1) (resampleInput a r ch p).1 []
    /\ recording_ (let '(res, p1) := resampleInput a r ch p in if Nat.ltb 0 (length res) then addUserAudio now later res p1 else p1) = true) as Hu.
  { intros a r ch _. unfold resampleInput. destruct (resampled _ _ _ _ _) as [res h]. cbn [fst]. set (p1 := p <| inRes := h |>).
    destruct (Nat.ltb 0 (length res)) eqn:E; [|apply none_heard in E as ->; split; [by apply tracks_same|done]].
    destruct (addUser_tracks now later res p1) as [H1 H2]. split; [by split|]. unfold addUserAudio. by destruct (negb (botSpeaking _)). }
  assert (forall a r ch (c : bool), tracks p [] (let '(res, p1) := resampleOutput a r ch p in if Nat.ltb 0 (length res) then addBotAudio now later res p1 else p1) [] (resampleOutput a r ch p).1
    /\ recording_ (let '(res, p1) := resampleOutput a r ch p in if Nat.ltb 0 (length res) then addBotAudio now later res p1 else p1) = true) as Hb.
  { intros a r ch _. unfold resampleOutput. destruct (resampled _ _ _ _ _) as [res h]. cbn [fst]. set (p1 := p <| outRes := h |>).
    destruct (Nat.ltb 0 (length res)) eqn:E; [|apply none_heard in E as ->; split; [by apply tracks_same|done]].
    destruct (addBot_tracks now later res p1) as [H1 H2]. split; [by split|]. unfold addBotAudio. by destruct (negb (userSpeaking _)). }
  destruct f as [| | | | | | | | |a r ch|a r ch|a r ch|n]; try (split; [by apply tracks_same|exact Hr]); unfold buffered, flagged; cbn [classify fst snd].
  - specialize (Hu a r ch true). by destruct (resampleInput a r ch p).
  - specialize (Hb a r ch true). by destruct (resampleOutput a r ch p).
  - specialize (Hb a r ch true). by destruct (resampleOutput a r ch p).
Qed.
Lemma flush_tracks t p : tracks p (flush t p).1 (flush t p).2 [] [] /\ recording_ (flush t p).2 = recording_ p.
Proof. unfold flush. destruct (_ && _); [split; [by apply tracks_snapshot|done]|split; [by apply tracks_same|done]]. Qed.
Lemma record_tracks f now later t p : valid p -> tracks p (record f now later t p).1 (record f now later t p).2 (heardIn f p).1 (heardIn f p).2 /\ valid (record f now later t p).2.
Proof.
  intros Hv. unfold record. destruct (recording_ p) eqn:Er; cbn [negb].
  2: { unfold heardIn. rewrite Er. split; [by apply tracks_same|done]. }
  destruct (buffered_tracks f now later p Er) as [H1 R1]. destruct (buffered f now later (flagged f p)) as [res p1]. cbn [snd] in *.
  destruct (flush_tracks t p1) as [H2 R2]. destruct (flush t p1) as [snap p2]. cbn [fst snd] in *.
  pose proof (tracks_trans _ _ _ _ _ _ _ _ _ H1 H2) as H. cbn [app] in H. rewrite !app_nil_r in H.
  destruct (EnableTurnAudio cfg).
  - destruct (recordTurn_tracks f (classify f).2 res p2) as (E1 & E2 & E3 & E4 & E5). destruct (recordTurn f (classify f).2 res p2) as [turn p3]. cbn [fst snd] in *.
    split; [|intros E; congruence]. destruct H as [HU HB]. split; rewrite ?usersOf_app, ?botsOf_app, ?E1, ?E2, ?E4, ?E5, ?app_nil_r; done.
  - cbn [fst snd]. rewrite app_nil_r. split; [done|]. intros E; congruence.
Qed.
Lemma before_tracks f p : valid p -> tracks p (before f p).1 (before f p).2 [] [] /\ valid (before f p).2.
Proof.
  intros Hv. destruct f; cbn [before]; try (split; [by apply tracks_same|done]).
  - unfold onStart. set (p1 := if EnableTurnAudio cfg then _ else _). assert (userBuf p1 = userBuf p /\ botBuf p1 = botBuf p /\ recording_ p1 = recording_ p) as (E1 & E2 & E3).
    { unfold p1, attachTurnTracker. destruct (EnableTurnAudio cfg); [|done]. cbn. destruct (turnTrackerAttached p); [done|]. by destruct tracked. }
    assert (valid p1) as Hv1 by (intros E; rewrite E1, E2; apply Hv; congruence).
    destruct (AutoStart cfg); [|split; [by apply tracks_same|done]]. destruct (start_tracks p1 Hv1) as [[H1 H2] H3]. split; [|done]. rewrite E1 in H1. rewrite E2 in H2. by split.
  - by apply start_tracks.
  - by apply stop_tracks.
Qed.
Lemma handle_tracks c p : valid p -> tracks p (handle c p).1 (handle c p).2 (heard c p).1 (heard c p).2 /\ valid (handle c p).2.
Proof.
  intros Hv. destruct c as [f now later t| | |n]; cbn [handle heard fst snd].
  - unfold ProcessFrame. destruct (before_tracks f p Hv) as [H1 V1]. destruct (before f p) as [o1 p1]. cbn [fst snd] in *.
    destruct (record_tracks f now later t p1 V1) as [H2 V2]. destruct (record f now later t p1) as [o2 p2]. cbn [fst snd] in *.
    assert (exists o3 p3, (match f with CancelFrame | EndFrame => stopRecording p2 | _ => ([], p2) end) = (o3, p3) /\ tracks p2 o3 p3 [] [] /\ valid p3) as (o3 & p3 & -> & H3 & V3).
    { destruct (stop_tracks p2 V2) as [S1 S2]. destruct (stopRecording p2) as [o p3]. destruct f; (do 2 eexists; split; [done|]); try (split; [by apply tracks_same|exact V2]); by split. }
    split; [|exact V3]. pose proof (tracks_trans _ _ _ _ _ _ _ _ _ H1 (tracks_trans _ _ _ _ _ _ _ _ _ H2 H3)) as H. cbn [app] in H. by rewrite !app_nil_r in H.
  - by apply start_tracks.
  - by apply stop_tracks.
  - destruct (turnTrackerAttached p); [|split; [by apply tracks_same|done]]. unfold emitTurnAudio. cbn [fst snd]. split; [|done].
    eapply (tracks_quiet _ []); [by repeat case_match|by repeat case_match|]. by apply tracks_same.
Qed.
Lemma handles_tracks cs : forall p, valid p -> tracks p (handles cs p).1 (handles cs p).2 (heards cs p).1 (heards cs p).2 /\ valid (handles cs p).2.
Proof.
  induction cs as [|c cs IH]; intros p Hv; cbn [handles heards]; [split; [by apply tracks_same|done]|].
  destruct (handle_tracks c p Hv) as [H1 V1]. destruct (handle c p) as [o1 p1]. cbn [fst snd] in *. destruct (IH p1 V1) as [H2 V2].
  destruct (handles cs p1) as [o2 p2], (heard c p) as [u b], (heards cs p1) as [u' b']. cbn [fst snd] in *. split; [|done]. by eapply tracks_trans.
Qed.

(** C34: Whatever the frames and their timing, whoever starts and stops the recording, and
    wherever the buffer is cut: the user's track, as delivered and still buffered, is the
    user's audio heard while recording, each piece once and in order, with only silence
    between; and so is the bot's. *)
Theorem recorded_whole rate cs : let p := Setup rate New in
  woven [] (heards cs p).1 (usersOf (handles cs p).1 ++ userBuf (handles cs p).2)
  /\ woven [] (heards cs p).2 (botsOf (handles cs p).1 ++ botBuf (handles cs p).2).
Proof. cbn zeta. destruct (handles_tracks cs (Setup rate New)) as [[H1 H2] _]; [by intros _|]. by split. Qed.

(** ** What is delivered *)

Definition ev (l : list Z) : Prop := Nat.even (length l) = true.
Lemma ev_app a b : ev a -> ev b -> ev (a ++ b).
Proof. unfold ev. rewrite length_app, Nat.even_add. by intros -> ->. Qed.
Lemma ev_pad l n : ev l -> Nat.even n = true -> ev (padTo l n).
Proof.
  unfold ev, padTo. rewrite length_app, repeat_length. intros Hl Hn. destruct (decide (length l <= n)%nat).
  - by replace (length l + (n - length l))%nat with n by lia.
  - by replace (length l + (n - length l))%nat with (length l) by lia.
Qed.
Lemma ev_gap rate l last now n : ev l -> ev (fillSilenceGap rate l last now n).
Proof.
  intros Hl. unfold fillSilenceGap. destruct last as [last|]; [|done]. repeat case_match; try done. apply ev_app; [done|]. unfold ev. rewrite repeat_length.
  apply Nat.even_spec. match goal with H : (0 <? ?sb - _) = true |- _ => apply Z.ltb_lt in H; exists (Z.to_nat (Z.quot sb 2)); pose proof (Z.quot_rem' sb 2) end. lia.
Qed.
(** Its two tracks are as long, in whole samples, and the mix has just what they have. *)
Definition aligned (r : recording) : Prop :=
  length (user r) = length (bot r) /\ ev (user r)
  /\ (if channels_ r =? 2 then channelsOf (merged r) = (user r, bot r) else samples (merged r) = added (samples (user r)) (samples (bot r))).
Definition allAligned (o : list told) : Prop := Forall (fun x => match x with AudioData r => aligned r | _ => True end) o.
Definition evens (p : P) : Prop := ev (userBuf p) /\ ev (botBuf p).
Lemma snapshot_aligned p : evens p -> allAligned (deliver (snapshot p)).
Proof.
  intros [Hu Hb]. unfold snapshot. destruct (_ && _); [constructor|]. cbn [deliver]. constructor; [|constructor]. set (n := Nat.max _ _).
  assert (Nat.even n = true) as Hn by (unfold n; destruct (Nat.max_spec (length (userBuf p)) (length (botBuf p))) as [[_ ->]|[_ ->]]; [exact Hb|exact Hu]).
  assert (length (padTo (userBuf p) n) = n /\ length (padTo (botBuf p) n) = n) as [L1 L2] by (unfold padTo; rewrite !length_app, !repeat_length; unfold n; lia).
  assert (forall l : list Z, length l = n -> List.firstn (n - n mod 2) l = l) as Hf.
  { intros l <-. rewrite (proj2 (Nat.Div0.mod_divides _ _)), Nat.sub_0_r; [apply List.firstn_all|]. apply Nat.even_spec in Hn as [k Hk]. exists k. lia. }
  unfold aligned. cbn [user bot merged channels_]. split_and!; [congruence|unfold ev; by rewrite L1|]. destruct (channels p =? 2); [|apply mixed_as_added].
  rewrite interleaved_apart, L1, L2, Nat.min_id. by rewrite !Hf.
Qed.

(** The audio that comes is in whole samples, and what the resamplers make of it. *)
Definition whole (c : call) : Prop := match c with Frame f _ _ _ => ev (classify f).1.1.1 | _ => True end.
Context (wholeProcess : forall r a, ev a -> ev (Process r a).1).
Lemma resampled_ev h t a r ch : ev a -> ev (resampled h t a r ch).1.
Proof using wholeProcess.
  intros Ha. unfold resampled. destruct (_ || _); [done|].
  assert (forall r', ev (let '(a', r0) := Process r' a in (a', Some (r0, r))).1) as Hp by (intros r'; pose proof (wholeProcess r' a Ha); by destruct (Process r' a)).
  assert (ev (match newResampler r t ch with Some r0 => let '(a', r1) := Process r0 a in (a', Some (r1, r)) | None => (a, h) end).1) as Hf by (destruct (newResampler r t ch); [apply Hp|done]).
  destruct h as [[r0 from]|]; [|done]. destruct (from =? r); [apply Hp|done].
Qed.
Lemma evens_same p p' : userBuf p' = userBuf p -> botBuf p' = botBuf p -> evens p -> evens p'.
Proof. unfold evens. by intros -> ->. Qed.
Lemma addUser_ev now later res p : ev res -> evens p -> evens (addUserAudio now later res p).
Proof.
  intros Hr [Hu Hb]. unfold addUserAudio. set (g := fillSilenceGap _ _ _ _ _). assert (ev g) as Hg by by apply ev_gap.
  destruct (negb (botSpeaking _)); split; cbn; try (by apply ev_app); [by apply ev_pad|done].
Qed.
Lemma addBot_ev now later res p : ev res -> evens p -> evens (addBotAudio now later res p).
Proof.
  intros Hr [Hu Hb]. unfold addBotAudio. set (g := fillSilenceGap _ _ _ _ _). assert (ev g) as Hg by by apply ev_gap.
  destruct (negb (userSpeaking _)); split; cbn; try (by apply ev_app); [by apply ev_pad|done].
Qed.
Lemma buffered_ev f now later p : ev (classify f).1.1.1 -> evens p -> evens (buffered f now later p).2.
Proof using wholeProcess.
  intros Hf Hp. unfold buffered. destruct (classify f) as [[[a r] ch] k]. cbn [fst] in Hf. destruct k; [done| |].
  - unfold resampleInput. pose proof (resampled_ev (inRes p) (sampleRate p) a r ch Hf) as He. destruct (resampled _ _ _ _ _) as [res h]. cbn [snd fst] in *.
    destruct (Nat.ltb 0 (length res)); [by apply addUser_ev|done].
  - unfold resampleOutput. pose proof (resampled_ev (outRes p) (sampleRate p) a r ch Hf) as He. destruct (resampled _ _ _ _ _) as [res h]. cbn [snd fst] in *.
    destruct (Nat.ltb 0 (length res)); [by apply addBot_ev|done].
Qed.
Lemma start_ev p : evens p -> allAligned (startRecording p).1 /\ evens (startRecording p).2.
Proof. intros Hp. unfold startRecording. destruct (recording_ p); [split; [constructor|done]|]. split; [by repeat constructor|done]. Qed.
Lemma stop_ev p : evens p -> allAligned (stopRecording p).1 /\ evens (stopRecording p).2.
Proof.
  intros Hp. unfold stopRecording. destruct (negb (recording_ p)); [split; [constructor|done]|]. split; [|done]. apply Forall_app. split; [by apply snapshot_aligned|by repeat constructor].
Qed.
Lemma record_ev f now later t p : ev (classify f).1.1.1 -> evens p -> allAligned (record f now later t p).1 /\ evens (record f now later t p).2.
Proof using wholeProcess.
  intros Hf Hp. unfold record. destruct (negb (recording_ p)); [split; [constructor|done]|].
  assert (evens (flagged f p)) as Hp' by (by destruct f). pose proof (buffered_ev f now later _ Hf Hp') as H1. destruct (buffered f now later (flagged f p)) as [res p1]. cbn [snd] in H1.
  assert (allAligned (flush t p1).1 /\ evens (flush t p1).2) as [A1 H2] by (unfold flush; destruct (_ && _); [split; [by apply snapshot_aligned|done]|split; [constructor|done]]).
  destruct (flush t p1) as [snap p2]. cbn [fst snd] in *. destruct (EnableTurnAudio cfg); [|rewrite app_nil_r; by split].
  destruct (recordTurn_tracks f (classify f).2 res p2) as (E1 & E2 & _).
  assert (allAligned (recordTurn f (classify f).2 res p2).1) as A2.
  { unfold recordTurn. destruct f; cbn; repeat case_match; by repeat constructor. }
  destruct (recordTurn f (classify f).2 res p2) as [turn p3]. cbn [fst snd] in *. split; [by apply Forall_app|by eapply evens_same].
Qed.
Lemma handle_ev c p : whole c -> evens p -> allAligned (handle c p).1 /\ evens (handle c p).2.
Proof using wholeProcess.
  intros Hc Hp. destruct c as [f now later t| | |n]; cbn [handle whole] in *.
  - unfold ProcessFrame. assert (allAligned (before f p).1 /\ evens (before f p).2) as [A1 H1].
    { destruct f; cbn [before]; try (split; [constructor|exact Hp]).
      - unfold onStart. set (p1 := if EnableTurnAudio cfg then _ else _). assert (evens p1) as Hp1.
        { unfold p1, attachTurnTracker. destruct (EnableTurnAudio cfg); [|done]. cbn. destruct (turnTrackerAttached p); [done|]. by destruct tracked. }
        destruct (AutoStart cfg); [by apply start_ev|split; [constructor|done]].
      - by apply start_ev.
      - by apply stop_ev. }
    destruct (before f p) as [o1 p1]. cbn [fst snd] in *. destruct (record_ev f now later t p1 Hc H1) as [A2 H2]. destruct (record f now later t p1) as [o2 p2]. cbn [fst snd] in *.
    destruct (stop_ev p2 H2) as [A3 H3]. destruct (stopRecording p2) as [o3 p3]. cbn [fst snd] in *.
    destruct f; cbn [fst snd]; rewrite ?app_nil_r; (split; [repeat (apply Forall_app; split); done|done]).
  - by apply start_ev.
  - by apply stop_ev.
  - destruct (turnTrackerAttached p); [|split; [constructor|done]]. unfold emitTurnAudio. split; [|done]. cbn [fst].
    apply Forall_app. split; case_match; by repeat constructor.
Qed.

(** Every recording delivered has both tracks of one length, in whole samples; in stereo
    its channels are just the tracks, and in mono it is their sum, clipped. *)
Theorem delivered_aligned rate cs : Forall whole cs -> allAligned (handles cs (Setup rate New)).1.
Proof using wholeProcess.
  intros Hcs. assert (evens (Setup rate New)) as Hp by done. revert Hp. generalize (Setup rate New).
  induction Hcs as [|c cs Hc _ IH]; intros p Hp; cbn [handles]; [constructor|]. destruct (handle_ev c p Hc Hp) as [A1 H1]. destruct (handle c p) as [o p1].
  specialize (IH p1 H1). destruct (handles cs p1) as [o' p2]. cbn [fst snd] in *. by apply Forall_app.
Qed.

(** ** Turns *)

(** Neither starts nor stops a recording. *)
Definition steady (c : call) : bool :=
  match c with
  | Frame f _ _ _ => match f with StartFrame | CancelFrame | EndFrame | AudioBufferStartRecordingFrame | AudioBufferStopRecordingFrame => false | _ => true end
  | StartRecording | StopRecording => false
  | TurnEnded _ => true
  end.
Definition botTurns (o : list told) : list Z := flat_map (fun x => match x with BotTurn _ a => a | _ => [] end) o.
Arguments botTurns : simpl never.
Lemma botTurns_app a b : botTurns (a ++ b) = botTurns a ++ botTurns b.
Proof. apply flat_map_app. Qed.
Lemma user_reported n u : botTurns (if Nat.ltb 0 (length u) then [UserTurn n u] else []) = [].
Proof. by case_match. Qed.
Lemma bot_reported n b : botTurns (if Nat.ltb 0 (length b) then [BotTurn n b] else []) = b.
Proof. destruct (Nat.ltb 0 (length b)) eqn:E; [unfold botTurns; cbn [flat_map]; by rewrite app_nil_r|by rewrite (none_heard _ E)]. Qed.
(** What the bot is heard to say while it is known to be speaking. *)
Definition said (c : call) (p : P) : list Z :=
  match c with Frame f _ _ _ => if botSpeaking (flagged f p) then (heardIn f p).2 else [] | _ => [] end.
Fixpoint saids (cs : list call) (p : P) : list Z := match cs with [] => [] | c :: cs => said c p ++ saids cs (handle c p).2 end.

(** The parts of the state that turns are made of, and what leaves them alone. *)
Record apart (p p' : P) : Prop := {
  a_recording : recording_ p' = recording_ p;
  a_user : userTurnBuf p' = userTurnBuf p;
  a_bot : botTurnBuf p' = botTurnBuf p;
  a_userAudio : userTurnAudio p' = userTurnAudio p;
  a_botAudio : botTurnAudio p' = botTurnAudio p;
  a_userSpeaking : userSpeaking p' = userSpeaking p;
  a_botSpeaking : botSpeaking p' = botSpeaking p;
  a_second : oneSecond p' = oneSecond p
}.
Lemma apart_refl p : apart p p.
Proof. by split. Qed.
Lemma apart_trans p p1 p2 : apart p p1 -> apart p1 p2 -> apart p p2.
Proof. intros [] []. split; congruence. Qed.
Lemma addUser_apart now later res p : apart p (addUserAudio now later res p).
Proof. unfold addUserAudio. by destruct (negb (botSpeaking _)). Qed.
Lemma addBot_apart now later res p : apart p (addBotAudio now later res p).
Proof. unfold addBotAudio. by destruct (negb (userSpeaking _)). Qed.
Lemma flush_apart t p : apart p (flush t p).2.
Proof. unfold flush. by destruct (_ && _). Qed.
Lemma deliver_turns s : botTurns (deliver s) = [].
Proof. by destruct s. Qed.
Lemma flush_turns t p : botTurns (flush t p).1 = [].
Proof. unfold flush. destruct (_ && _); [apply deliver_turns|done]. Qed.
(** The audio part of [record]: what it comes to, and that it leaves the turns alone. *)
Lemma buffered_apart f now later p :
  apart p (buffered f now later p).2 /\ (buffered f now later p).1 = (if recording_ p then match (classify f).2 with kindUser => (heardIn f p).1 | kindBot => (heardIn f p).2 | kindNone => [] end else (buffered f now later p).1).
Proof.
  unfold buffered, heardIn. destruct f as [| | | | | | | | |a r ch|a r ch|a r ch|n]; cbn [classify snd]; try (split; [apply apart_refl|by destruct (recording_ p)]).
  - unfold resampleInput. destruct (resampled _ _ _ _ _) as [res h]. cbn [snd fst]. split; [|by destruct (recording_ p)].
    destruct (Nat.ltb 0 (length res)); [|done]. eapply apart_trans; [|apply addUser_apart]. done.
  - unfold resampleOutput. destruct (resampled _ _ _ _ _) as [res h]. cbn [snd fst]. split; [|by destruct (recording_ p)].
    destruct (Nat.ltb 0 (length res)); [|done]. eapply apart_trans; [|apply addBot_apart]. done.
  - unfold resampleOutput. destruct (resampled _ _ _ _ _) as [res h]. cbn [snd fst]. split; [|by destruct (recording_ p)].
    destruct (Nat.ltb 0 (length res)); [|done]. eapply apart_trans; [|apply addBot_apart]. done.
Qed.
Lemma turn_bot f k res p : k = (classify f).2 ->
  botTurns (recordTurn f k res p).1 = []
  /\ botTurnAudio (recordTurn f k res p).2 ++ botTurnBuf (recordTurn f k res p).2
     = botTurnAudio p ++ botTurnBuf p ++ (if botSpeaking p then match k with kindBot => res | _ => [] end else [])
  /\ recording_ (recordTurn f k res p).2 = recording_ p.
Proof.
  intros ->. unfold recordTurn. destruct f; cbn [classify snd]; cbn; rewrite ?app_nil_r; try (destruct (botSpeaking p); by rewrite ?app_nil_r);
    destruct (Nat.ltb 0 (length res)) eqn:E; cbn; rewrite ?andb_true_r, ?andb_false_r; try apply none_heard in E as ->;
    repeat (case_match; cbn; rewrite ?app_nil_r; try done).
  all: by rewrite ?app_assoc.
Qed.
Lemma handle_bot c p : EnableTurnAudio cfg = true -> recording_ p = true -> steady c = true ->
  botTurns (handle c p).1 ++ botTurnAudio (handle c p).2 ++ botTurnBuf (handle c p).2 = botTurnAudio p ++ botTurnBuf p ++ said c p
  /\ recording_ (handle c p).2 = true.
Proof.
  intros He Hr Hs. destruct c as [f now later t| | |n]; [|done|done|].
  - cbn [handle]. unfold ProcessFrame. assert (before f p = ([], p)) as -> by (by destruct f). assert (exists o p', record f now later t p = (o, p')
      /\ botTurns o ++ botTurnAudio p' ++ botTurnBuf p' = botTurnAudio p ++ botTurnBuf p ++ said (Frame f now later t) p /\ recording_ p' = true) as (o & p' & -> & H1 & H2).
    2: { destruct f; (done || (cbn [fst snd app]; rewrite app_nil_r; by split)). }
    unfold record. rewrite Hr, He. cbn [negb]. destruct (buffered_apart f now later (flagged f p)) as [Ha Hb].
    assert (recording_ (flagged f p) = true) as Hrf by (by destruct f). rewrite Hrf in Hb.
    assert (heardIn f (flagged f p) = heardIn f p) as Hh by (by destruct f). rewrite Hh in Hb.
    destruct (buffered f now later (flagged f p)) as [res p1]. cbn [fst snd] in *. pose proof (flush_apart t p1) as Hf. pose proof (flush_turns t p1) as Hft.
    destruct (flush t p1) as [snap p2]. cbn [fst snd] in *. pose proof (apart_trans _ _ _ Ha Hf) as Hap.
    destruct (turn_bot f (classify f).2 res p2 eq_refl) as (T1 & T2 & T3). destruct (recordTurn f (classify f).2 res p2) as [turn p3]. cbn [fst snd] in *.
    do 2 eexists. split; [done|]. rewrite botTurns_app, Hft, T1. cbn [app]. rewrite T2, T3, (a_recording _ _ Hap), Hrf, (a_botAudio _ _ Hap), (a_bot _ _ Hap), (a_botSpeaking _ _ Hap).
    split; [|done]. assert (botTurnAudio (flagged f p) = botTurnAudio p /\ botTurnBuf (flagged f p) = botTurnBuf p) as [-> ->] by (by destruct f).
    unfold said. do 2 f_equal. rewrite Hb. destruct f; cbn [classify snd]; done || (unfold heardIn; rewrite Hr; cbn; by destruct (botSpeaking p)).
  - cbn [handle said]. rewrite app_nil_r. destruct (turnTrackerAttached p); [|done]. unfold emitTurnAudio, endBotRun. cbn [fst snd userTurnAudio botTurnAudio botTurnBuf]. rewrite !app_nil_r, botTurns_app. split; [|done].
    rewrite user_reported, bot_reported. done.
Qed.
(** While a recording goes on, the bot's audio reported turn by turn, with that of the
    turn still going, is all it was heard to say, once and in order. *)
Theorem bot_turns_whole cs p : EnableTurnAudio cfg = true -> recording_ p = true -> forallb steady cs = true ->
  botTurns (handles cs p).1 ++ botTurnAudio (handles cs p).2 ++ botTurnBuf (handles cs p).2 = botTurnAudio p ++ botTurnBuf p ++ saids cs p.
Proof.
  intros He. revert p. induction cs as [|c cs IH]; intros p Hr Hs; cbn [handles saids]; [by rewrite app_nil_r|]. cbn [forallb] in Hs. apply andb_prop in Hs as [Hc Hs].
  destruct (handle_bot c p He Hr Hc) as [H1 H2]. destruct (handle c p) as [o p1]. cbn [fst snd] in *. specialize (IH p1 H2 Hs). destruct (handles cs p1) as [o' p2]. cbn [fst snd] in *.
  rewrite botTurns_app, <- app_assoc, IH, (app_assoc (botTurnAudio p1)), (app_assoc (botTurns o)), H1. by rewrite <- !app_assoc.
Qed.

(** The last of what was heard. *)
Definition lastOf (n : nat) (l : list Z) : list Z := List.skipn (length l - n) l.
Lemma lastOf_app n a b : lastOf n (lastOf n a ++ b) = lastOf n (a ++ b).
Proof.
  unfold lastOf. rewrite !length_app, length_skipn. destruct (decide (length a <= n)%nat) as [Hle|Hgt].
  - replace (length a - n)%nat with 0%nat by lia. cbn [List.skipn]. by rewrite Nat.sub_0_r.
  - rewrite !List.skipn_app, List.skipn_skipn, length_skipn. f_equal; f_equal; lia.
Qed.
Lemma lastOf_short n l : (length l <= n)%nat -> lastOf n l = l.
Proof. intros H. unfold lastOf. by replace (length l - n)%nat with 0%nat by lia. Qed.
(** Some of the user's audio, at the rate of the recording. *)
Definition userHears (p : P) (x : list Z * (Z * Z * Z)) : call := let '(a, (now, later, t)) := x in Frame (InputAudioRawFrame a (sampleRate p) 1) now later t.
Definition userRuns (o : list told) : list (list Z) := flat_map (fun x => match x with UserRun a => [a] | _ => [] end) o.
Arguments userRuns : simpl never.
Lemma userRuns_app a b : userRuns (a ++ b) = userRuns a ++ userRuns b.
Proof. apply flat_map_app. Qed.
Lemma flush_runs t p : userRuns (flush t p).1 = [].
Proof. unfold flush. destruct (_ && _); [|done]. by destruct (snapshot p). Qed.
Lemma rate_kept f now later p : sampleRate (buffered f now later p).2 = sampleRate p.
Proof.
  unfold buffered. destruct (classify f) as [[[a r] ch] k]. destruct k; [done| |].
  - unfold resampleInput. destruct (resampled _ _ _ _ _) as [res h]. cbn [snd]. destruct (Nat.ltb 0 (length res)); [|done]. unfold addUserAudio. by destruct (negb (botSpeaking _)).
  - unfold resampleOutput. destruct (resampled _ _ _ _ _) as [res h]. cbn [snd]. destruct (Nat.ltb 0 (length res)); [|done]. unfold addBotAudio. by destruct (negb (userSpeaking _)).
Qed.
Lemma flush_rate t p : sampleRate (flush t p).2 = sampleRate p.
Proof. unfold flush. by destruct (_ && _). Qed.
(** How one piece of the user's audio counts for the turn. *)
Definition ready (p : P) : Prop := recording_ p = true /\ EnableTurnAudio cfg = true /\ 0 < oneSecond p.
Record steadily (p p' : P) : Prop := { s_ready : ready p'; s_rate : sampleRate p' = sampleRate p; s_second : oneSecond p' = oneSecond p }.
Lemma hears_one p q a ts : ready p -> sampleRate q = sampleRate p -> a <> [] ->
  userRuns (handle (userHears q (a, ts)) p).1 = []
  /\ userTurnBuf (handle (userHears q (a, ts)) p).2 = (if userSpeaking p then userTurnBuf p ++ a else lastOf (Z.to_nat (oneSecond p)) (userTurnBuf p ++ a))
  /\ userSpeaking (handle (userHears q (a, ts)) p).2 = userSpeaking p /\ steadily p (handle (userHears q (a, ts)) p).2.
Proof.
  intros (Hr & He & Hs) Eq Ha. destruct ts as [[now later] t]. cbn [userHears handle]. unfold ProcessFrame. cbn [before]. unfold record. rewrite Hr, He. cbn [negb flagged].
  set (f := InputAudioRawFrame a (sampleRate q) 1). destruct (buffered_apart f now later p) as [Hap Hb]. rewrite Hr in Hb.
  assert ((heardIn f p).1 = a) as Eh.
  { unfold heardIn, resampleInput, resampled, f. rewrite Hr, Eq, Z.eqb_refl. done. }
  cbn [classify snd f] in Hb. fold f in Hb. rewrite Eh in Hb. pose proof (rate_kept f now later p) as Hrate. destruct (buffered f now later p) as [res p1]. cbn [fst snd] in *. subst res.
  pose proof (flush_apart t p1) as Hf. pose proof (flush_runs t p1) as Hfr. pose proof (flush_rate t p1) as Hfr'. destruct (flush t p1) as [snap p2]. cbn [fst snd] in *.
  destruct (apart_trans _ _ _ Hap Hf) as [A1 A2 A3 A4 A5 A6 A7 A8]. cbn [classify snd f]. unfold recordTurn.
  assert (Nat.ltb 0 (length a) = true) as -> by (by destruct a). cbn [app].
  subst f. cbv beta iota.
  match goal with |- context [if negb ?b && ?c && ?d then _ else _] => set (cond := negb b && c && d) end.
  assert (cond = negb (userSpeaking p) && (oneSecond p <? Z.of_nat (length (userTurnBuf p ++ a)))) as Ec.
  { unfold cond. cbn. rewrite A2, A6, A8. destruct (Z.ltb_spec 0 (oneSecond p)); [by rewrite andb_true_r|lia]. }
  rewrite Ec. clear cond Ec. destruct (userSpeaking p) eqn:Es; cbn [negb andb].
  - cbn. rewrite !userRuns_app, Hfr, A2, A6. split_and!; [done..|split; [split_and!|..]]; cbn; congruence || lia.
  - destruct (Z.ltb_spec (oneSecond p) (Z.of_nat (length (userTurnBuf p ++ a)))).
    + cbn. rewrite !userRuns_app, Hfr, A2, A6, A8. split_and!; [done..|split; [split_and!|..]]; cbn; congruence || lia.
    + cbn. rewrite !userRuns_app, Hfr, A2, A6. rewrite lastOf_short by lia. split_and!; [done..|split; [split_and!|..]]; cbn; congruence || lia.
Qed.
Lemma hears_all q cs : forall p, ready p -> sampleRate q = sampleRate p -> Forall (fun x => fst x <> []) cs -> (userSpeaking p = false -> Z.of_nat (length (userTurnBuf p)) <= oneSecond p) ->
  let '(o, p') := handles (List.map (userHears q) cs) p in
  userRuns o = []
  /\ userTurnBuf p' = (if userSpeaking p then userTurnBuf p ++ List.concat (List.map fst cs) else lastOf (Z.to_nat (oneSecond p)) (userTurnBuf p ++ List.concat (List.map fst cs)))
  /\ userSpeaking p' = userSpeaking p /\ steadily p p'.
Proof.
  induction cs as [|[a ts] cs IH]; intros p Hp Eq Hcs Hlen; cbn [List.map List.concat handles].
  - rewrite app_nil_r. split_and!; [done| |done|by split]. destruct (userSpeaking p) eqn:Es; [done|]. symmetry. apply lastOf_short. specialize (Hlen eq_refl). lia.
  - inversion Hcs as [|? ? Ha Hcs']; subst. destruct (hears_one p q a ts Hp Eq Ha) as (H1 & H2 & H3 & [S1 S2 S3]). destruct (handle (userHears q (a, ts)) p) as [o p1]. cbn [fst snd] in *.
    specialize (IH p1 S1 ltac:(congruence) Hcs'). destruct (handles (List.map (userHears q) cs) p1) as [o' p2]. destruct IH as (I1 & I2 & I3 & [S4 S5 S6]).
    { rewrite H3, H2, S3. intros ->. unfold lastOf. rewrite length_skipn. destruct Hp as (_ & _ & ?). lia. }
    rewrite userRuns_app, H1, I1, I2, H3, H2, S3. split_and!; [done| |congruence|split; [done|congruence..]].
    destruct (userSpeaking p); [by rewrite <- app_assoc|]. by rewrite lastOf_app, <- app_assoc.
Qed.

Lemma recorder_handles_app a b : forall p, handles (a ++ b) p = let '(o, p1) := handles a p in let '(o', p2) := handles b p1 in (o ++ o', p2).
Proof.
  induction a as [|c a IH]; intros p; cbn [app handles]; [by destruct (handles b p)|]. destruct (handle c p) as [o p1]. rewrite IH.
  destruct (handles a p1) as [o1 p2]. destruct (handles b p2) as [o2 p3]. by rewrite app_assoc.
Qed.
Lemma handle_flag f now later t p : ready p -> f = UserStartedSpeakingFrame \/ f = UserStoppedSpeakingFrame ->
  userRuns (handle (Frame f now later t) p).1 = (match f with UserStoppedSpeakingFrame => [userTurnBuf p] | _ => [] end)
  /\ userTurnBuf (handle (Frame f now later t) p).2 = (match f with UserStoppedSpeakingFrame => [] | _ => userTurnBuf p end)
  /\ userSpeaking (handle (Frame f now later t) p).2 = (match f with UserStoppedSpeakingFrame => false | _ => true end)
  /\ steadily p (handle (Frame f now later t) p).2.
Proof.
  intros (Hr & He & Hs) Hf. cbn [handle]. unfold ProcessFrame, record. destruct Hf as [-> | ->]; cbn [before]; rewrite Hr, He; cbn [negb flagged buffered classify].
  - set (p1 := p <| userSpeaking := true |>). pose proof (flush_apart t p1) as []. pose proof (flush_runs t p1) as Hr'. pose proof (flush_rate t p1) as Hrate.
    destruct (flush t p1) as [snap p2]. cbn in *. rewrite app_nil_r, userRuns_app, Hr'. split_and!; [done|congruence|congruence|split; [split_and!|..]]; cbn; congruence || lia.
  - set (p1 := p <| userSpeaking := false |>). pose proof (flush_apart t p1) as []. pose proof (flush_runs t p1) as Hr'. pose proof (flush_rate t p1) as Hrate.
    destruct (flush t p1) as [snap p2]. cbn in *. rewrite !userRuns_app, Hr'. unfold userRuns. cbn [flat_map app]. split_and!; [cbn; congruence|congruence|congruence|split; [split_and!|..]]; cbn; congruence || lia.
Qed.

(** What is reported of the user as they stop is all they said since it was known that
    they speak, behind the last second of what was heard before: the beginning, which
    comes ahead of that report, is not lost, and no more than a second before it is kept. *)
Theorem user_run_with_runup p pre during n1 l1 t1 n2 l2 t2 :
  ready p -> userSpeaking p = false -> Z.of_nat (length (userTurnBuf p)) <= oneSecond p ->
  Forall (fun x => fst x <> []) pre -> Forall (fun x => fst x <> []) during ->
  userRuns (handles (List.map (userHears p) pre ++ Frame UserStartedSpeakingFrame n1 l1 t1 :: List.map (userHears p) during ++ [Frame UserStoppedSpeakingFrame n2 l2 t2]) p).1
  = [lastOf (Z.to_nat (oneSecond p)) (userTurnBuf p ++ List.concat (List.map fst pre)) ++ List.concat (List.map fst during)].
Proof.
  intros Hp Hs Hlen Hpre Hdur. rewrite recorder_handles_app. pose proof (hears_all p pre p Hp eq_refl Hpre (fun _ => Hlen)) as H1.
  destruct (handles (List.map (userHears p) pre) p) as [o1 p1]. destruct H1 as (R1 & B1 & S1 & [Y1 E1 Z1]). cbn [handles].
  destruct (handle_flag UserStartedSpeakingFrame n1 l1 t1 p1 Y1 (or_introl eq_refl)) as (R2 & B2 & S2 & [Y2 E2 Z2]).
  destruct (handle (Frame UserStartedSpeakingFrame n1 l1 t1) p1) as [o2 p2]. cbn [fst snd] in *. rewrite recorder_handles_app.
  pose proof (hears_all p during p2 Y2 ltac:(congruence) Hdur ltac:(congruence)) as H3.
  destruct (handles (List.map (userHears p) during) p2) as [o3 p3]. destruct H3 as (R3 & B3 & S3 & [Y3 E3 Z3]). cbn [handles].
  destruct (handle_flag UserStoppedSpeakingFrame n2 l2 t2 p3 Y3 (or_intror eq_refl)) as (R4 & _).
  destruct (handle (Frame UserStoppedSpeakingFrame n2 l2 t2) p3) as [o4 p4]. cbn [fst snd] in *.
  rewrite !userRuns_app, R1, R2, R3, R4. cbn [app]. by rewrite B3, S2, B2, B1, Hs.
Qed.
End Recorder.

(** ** Runs *)

(** Resamplers that change nothing, a recording from the start, turn by turn. *)
Definition noRes (a b c : Z) : option unit := Some tt.
Definition asIs (r : unit) (a : list Z) : list Z * unit := (a, r).
Definition turnwise : Config := mkConfig 2 2 0 true true.
Abbreviation recorded cs := (handles noRes asIs true turnwise cs (Setup turnwise 0 (New turnwise))).
Definition userSays (now : Z) (a : list Z) : call := Frame (InputAudioRawFrame a 2 1) now now now.
Definition botSays (now : Z) (a : list Z) : call := Frame (OutputAudioRawFrame a 2 1) now now now.
Definition happens (f : frame) : call := Frame f 0 0 0.

(** The user, then the bot half a second after; stopped in the end. *)
Definition toStopped : list call :=
  [happens StartFrame; userSays 0 [1; 0]; happens BotStartedSpeakingFrame; botSays 2000000000 [2; 0]; happens BotStoppedSpeakingFrame; TurnEnded 1; StopRecording].
Lemma delivered_aligned_witness :
  (recorded toStopped).1 = [RecordingStarted; BotRun [2; 0]; BotTurn 1 [2; 0];
    AudioData (mkRecording [1; 0; 0; 0; 0; 0; 0; 0; 0; 0; 0; 0; 0; 0; 2; 0] [1; 0; 0; 0; 0; 0; 0; 0] [0; 0; 0; 0; 0; 0; 2; 0] 2 2); RecordingStopped]
  /\ allAligned (recorded toStopped).1.
Proof. split; [vm_compute; reflexivity|]. apply (delivered_aligned noRes asIs true turnwise); [done|by repeat constructor]. Defined.
Definition toBot : list call := [happens BotStartedSpeakingFrame; botSays 0 [2; 0]; TurnEnded 1; botSays 0 [3; 0]].
Lemma bot_turns_whole_witness : let p := (recorded [happens StartFrame]).2 in
  botTurns (handles noRes asIs true turnwise toBot p).1 ++ botTurnAudio (handles noRes asIs true turnwise toBot p).2 ++ botTurnBuf (handles noRes asIs true turnwise toBot p).2
  = botTurnAudio p ++ botTurnBuf p ++ saids noRes asIs true turnwise toBot p.
Proof. apply (bot_turns_whole noRes asIs true turnwise); vm_compute; reflexivity. Defined.
Lemma user_run_with_runup_witness : let p := (recorded [happens StartFrame]).2 in
  userRuns (handles noRes asIs true turnwise
    (List.map (userHears p) [([1; 0; 2; 0; 3; 0], (0, 0, 0))] ++ Frame UserStartedSpeakingFrame 0 0 0 :: List.map (userHears p) [([4; 0], (0, 0, 0))] ++ [Frame UserStoppedSpeakingFrame 0 0 0]) p).1
  = [lastOf (Z.to_nat (oneSecond p)) (userTurnBuf p ++ List.concat (List.map fst [([1; 0; 2; 0; 3; 0], (0, 0, 0))])) ++ List.concat (List.map fst [([4; 0], (0, 0, 0))])].
Proof.
  apply (user_run_with_runup noRes asIs true turnwise).
  - repeat split.
  - reflexivity.
  - vm_compute. discriminate.
  - by repeat constructor.
  - by repeat constructor.
Defined.

(** ** Where it falls short *)

(** What was said in one recording is reported with a turn of the next. *)
Lemma left_over_turn :
  (recorded [happens StartFrame; happens UserStartedSpeakingFrame; userSays 0 [1; 0]; happens UserStoppedSpeakingFrame; StopRecording; StartRecording; TurnEnded 1]).1
  = [RecordingStarted; UserRun [1; 0]; AudioData (mkRecording [1; 0; 0; 0] [1; 0] [0; 0] 2 2); RecordingStopped; RecordingStarted; UserTurn 1 [1; 0]].
Proof. vm_compute. reflexivity. Qed.
(** A user who stops speaking while nothing is recorded is taken to speak in the next
    recording: the tracks are not kept in time, and what they say after the bot is
    recorded as if it came with the bot's first word. *)
Lemma stale_speaking :
  let p := (recorded [happens StartFrame; happens UserStartedSpeakingFrame; StopRecording; happens UserStoppedSpeakingFrame; StartRecording;
                      botSays 0 [1; 0; 2; 0]; userSays 1000000000 [3; 0]]).2 in
  userSpeaking p = true /\ userBuf p = [3; 0] /\ botBuf p = [1; 0; 2; 0].
Proof. vm_compute. by repeat split. Qed.
End Recorder.
