(* ===== verification/Stt.v ===== *)
(** * Speech recognition

    The base of the recognition services, [src/service/stt/]: the session a streaming
    service keeps and replaces ([stream.go]), the wait for a transcript it measures
    ([ttfb.go]), and the service that transcribes segments ([segment.go]).

    A streaming service's state is shared by the goroutines that handle frames (system
    frames on one, the others on another), the read loop of its connection, its keepalive
    and its deadline: programs of [Prog.v].  A provider answers as it likes, a dial or a
    write succeeds or not, and when the read loop ends or replaces its session is for
    [WsService.v].  Times are the clock's.  What is done is a log; tracing, the processing
    time and what metrics cost are left out. *)

From S2P Require Import Prelude Float64 Strings Prog.
Import Prog.

(** ** Segments *)

Module Segment.

(** The frames a segment depends on. *)
Inductive frame := UserStartedSpeakingFrame | UserStoppedSpeakingFrame | InputAudioRawFrame (audio : list Z) | OtherFrame (n : nat).
Record SegmentService := mkService { buf : list Z; speaking : bool }.
#[export] Instance eta_SegmentService : Eta SegmentService := fun s => mkService (buf s) (speaking s).
Definition NewSegment : SegmentService := mkService [] false.

(** What is handed to the transcriber, on a goroutine of its own, if anything. *)
Definition transcribe (usable : bool) (s : SegmentService) : list (list Z) * SegmentService :=
  let audio := buf s in
  let s := s <| buf := [] |> <| speaking := false |> in
  (if Nat.eqb (length audio) 0 then [] else if negb usable then [] else [audio], s).
Definition ProcessFrame (usable : bool) (f : frame) (s : SegmentService) : list (list Z) * SegmentService :=
  match f with
  | UserStartedSpeakingFrame => ([], s <| buf := [] |> <| speaking := true |>)
  | InputAudioRawFrame a => ([], if speaking s then s <| buf ::= fun b => b ++ a |> else s)
  | UserStoppedSpeakingFrame => transcribe usable s
  | OtherFrame _ => ([], s)
  end.
(** The frames, each with whether the service was usable then. *)
Fixpoint process (fs : list (frame * bool)) (s : SegmentService) : list (list Z) * SegmentService :=
  match fs with [] => ([], s) | (f, u) :: fs => let '(o, s) := ProcessFrame u f s in let '(o', s) := process fs s in (o ++ o', s) end.

Definition heardIn (f : frame) : list Z := match f with InputAudioRawFrame a => a | _ => [] end.
Definition inside (f : frame) : bool := match f with InputAudioRawFrame _ | OtherFrame _ => true | _ => false end.
Lemma segments_app fs gs : forall s, process (fs ++ gs) s = let '(o, s) := process fs s in let '(o', s) := process gs s in (o ++ o', s).
Proof.
  induction fs as [|[f u] fs IH]; intros s; cbn [app process]; [by destruct (process gs s)|]. destruct (ProcessFrame u f s) as [o s1]. rewrite IH.
  destruct (process fs s1) as [o1 s2]. destruct (process gs s2) as [o2 s3]. by rewrite app_assoc.
Qed.
Lemma process_inside fs : forall s, forallb (fun x => inside x.1) fs = true ->
  process fs s = ([], if speaking s then s <| buf ::= fun b => b ++ flat_map (fun x => heardIn x.1) fs |> else s).
Proof.
  induction fs as [|[f u] fs IH]; intros s H; cbn [process flat_map]; [destruct s as [b []]; cbn; by rewrite ?app_nil_r|]. cbn [forallb fst] in H. apply andb_prop in H as [Hf H].
  destruct f as [| |a|n]; try done; cbn [ProcessFrame heardIn fst]; rewrite IH by done; destruct s as [b []]; cbn; by rewrite ?app_assoc.
Qed.

(** Whatever came before, what is transcribed as the user stops is just the audio heard
    since they started, and nothing of it is kept. *)
Theorem segment_transcribed pre u fs s : forallb (fun x => inside x.1) fs = true -> flat_map (fun x => heardIn x.1) fs <> [] ->
  process (pre ++ (UserStartedSpeakingFrame, u) :: fs ++ [(UserStoppedSpeakingFrame, true)]) s
  = ((process pre s).1 ++ [flat_map (fun x => heardIn x.1) fs], NewSegment).
Proof.
  intros Hf Hne. rewrite segments_app. destruct (process pre s) as [o s1]. cbn [process ProcessFrame]. rewrite segments_app, process_inside by done. cbn.
  unfold transcribe. cbn. destruct (flat_map _ fs) as [|b l]; [done|]. cbn. done.
Qed.
Lemma segment_transcribed_witness :
  process ([] ++ (UserStartedSpeakingFrame, true) :: [(InputAudioRawFrame [1%Z], true); (OtherFrame 0, true); (InputAudioRawFrame [2%Z], true)] ++ [(UserStoppedSpeakingFrame, true)]) NewSegment
  = ((process [] NewSegment).1 ++ [[1%Z; 2%Z]], NewSegment).
Proof. apply (segment_transcribed [] true [(InputAudioRawFrame [1%Z], true); (OtherFrame 0, true); (InputAudioRawFrame [2%Z], true)] NewSegment); [reflexivity|discriminate]. Defined.
End Segment.

(** ** Streams *)

Module Stream.
Local Open Scope prog_scope.

Inductive SpeechState := SpeechUnknown | SpeechStarted | SpeechStopped.
#[export] Instance SpeechState_dec : EqDecision SpeechState. Proof. solve_decision. Defined.
Record Result := mkResult { Text : gostring; Final : bool; EndOfTurn : bool; Speech : SpeechState; FromFinalize : bool }.

(** What is done, in order.  Audio given is what the handler of a frame has for the
    provider; lost is what it will not be sent. *)
Inductive event :=
| Given (audio : list Z) | Sent (session : nat) (audio : list Z) | Lost (audio : list Z)
| Dialed (session : nat) | Closed (session : nat) | Usage (bytes : Z)
| KeptAlive (session : nat)
| SpeechBegan (session : nat)
| Asked (session : nat) | Confirmed | Marked
| Proposed (started : bool)
| Interim (text : gostring) | Transcription (text : gostring) (finalized : bool)
| Measuring | Reported (ttfb : Z)
| PushError.

Record S_ := mkS {
  usable : bool;
  stream : option nat; sessions : nat; sendFailed : bool;
  readCancel : option nat; connections : nat; canceled : gset nat; reading : gset nat;
  audioBytes : Z; speaking : bool; finalizeRequested : bool; finalizePending : bool;
  keepaliveCancel : option nat; keepalives : nat; kaCanceled : gset nat; kaLive : gset nat; lastAudio : Z;
  canReopen : bool; needReopen : bool; reopening : bool; held : list (list Z);
  start : option Z; lastTranscript : option Z; cancel : option nat; deadlines : nat; dlCanceled : gset nat; dlLive : gset nat;
  now : Z; log : list event
}.
#[export] Instance eta_S : Eta S_ := fun s =>
  mkS (usable s) (stream s) (sessions s) (sendFailed s) (readCancel s) (connections s) (canceled s) (reading s) (audioBytes s) (speaking s)
    (finalizeRequested s) (finalizePending s) (keepaliveCancel s) (keepalives s) (kaCanceled s) (kaLive s) (lastAudio s) (canReopen s) (needReopen s)
    (reopening s) (held s) (start s) (lastTranscript s) (cancel s) (deadlines s) (dlCanceled s) (dlLive s) (now s) (log s).
Definition NewStream : S_ :=
  mkS true None 0 false None 0 ∅ ∅ 0 false false false None 0 ∅ ∅ 0 true false false [] None None None 0 ∅ ∅ 0 [].

Abbreviation prog := (Prog.prog S_ unit unit).
Definition emit (e : event) (s : S_) : S_ := s <| log ::= fun l => l ++ [e] |>.
Definition log_ (e : event) : prog unit := do_ (emit e).
(** It goes well or it does not. *)
Definition either : prog bool := Act (fun s => [(true, s); (false, s)]) Ret.
Definition await (b : S_ -> bool) : prog unit := Act (fun s => if b s then [(tt, s)] else []) Ret.
Definition none (l : gset nat) : bool := bool_decide (l = ∅).

(** The provider: whether it is told of a finished utterance, of the start of one, and
    how it wants an idle session held open. *)
Record Provider := mkProvider { finalizer : bool; starter : bool; Timeout : Z; ownKeepalive : bool; silenceBytes : Z }.
Section Service.
Context (pr : Provider).

(** *** The wait for the transcript *)

Definition stopDeadline : prog unit :=
  let! c := act (fun s => (cancel s, s <| cancel := None |>)) in
  match c with None => skip | Some d => do_ (fun s => s <| dlCanceled ::= union {[d]} |>) ;;; await (fun s => none (dlLive s)) end.
Definition startDeadline : prog unit :=
  stopDeadline ;;;
  let! d := act (fun s => (deadlines s, s <| cancel := Some (deadlines s) |> <| deadlines ::= S |>)) in
  do_ (fun s => s <| dlLive ::= union {[d]} |>).
Definition ttfbSpeechStarted : prog unit := stopDeadline ;;; do_ (fun s => s <| lastTranscript := None |>).
Definition interrupted : prog unit := stopDeadline.
(** [BeginTTFB] says whether this one is to be measured. *)
Definition speechEnded (silence : Z) (stamp : option Z) : prog unit :=
  match stamp with
  | None => skip
  | Some t =>
    if Z.eqb silence 0 then skip
    else
      let! first := either in
      when first (do_ (fun s => emit Measuring (s <| start := Some (t - silence)%Z |>)) ;;; startDeadline)
  end.
(** What is reported is listed as it is taken. *)
Definition report (end_ : Z) : prog unit :=
  do_ (fun s => match start s with Some t => emit (Reported (end_ - t)%Z) (s <| start := None |>) | None => s end).
Definition reportNow : prog unit := stopDeadline ;;; let! t := get now in report t.
Definition transcript (finalized : bool) : prog unit :=
  let! t := get now in
  do_ (fun s => s <| lastTranscript := Some t |>) ;;;
  when finalized (stopDeadline ;;; report t).
Definition waitForTranscript (d : nat) : prog unit :=
  let! passed := Act (fun s => (if bool_decide (d ∈ dlCanceled s) then [(false, s)] else []) ++ [(true, s)]) Ret in
  (if passed then let! t := get lastTranscript in match t with Some t => report t | None => skip end else skip) ;;;
  do_ (fun s => s <| dlLive ::= fun l => l ∖ {[d]} |>).

(** *** The session *)

Definition stopKeepalive : prog unit :=
  let! c := act (fun s => (keepaliveCancel s, s <| keepaliveCancel := None |>)) in
  match c with None => skip | Some k => do_ (fun s => s <| kaCanceled ::= union {[k]} |>) ;;; await (fun s => none (kaLive s)) end.
Definition startKeepalive : prog unit :=
  if (Timeout pr <=? 0)%Z then skip
  else
    stopKeepalive ;;;
    let! k := act (fun s => (keepalives s, s <| keepaliveCancel := Some (keepalives s) |> <| keepalives ::= S |> <| lastAudio := now s |>)) in
    do_ (fun s => s <| kaLive ::= union {[k]} |>).
Definition sendKeepalive : prog bool :=
  let! st := get stream in
  match st with
  | None => Ret false
  | Some i =>
    let! ok := either in
    if negb ok then Ret false
    else
      log_ (KeptAlive i) ;;;
      (if ownKeepalive pr then skip else do_ (fun s => s <| audioBytes ::= Z.add (silenceBytes pr) |>)) ;;;
      Ret true
  end.
(** One round of the loop; it gives up when it cannot send. *)
Definition keepaliveRound (k : nat) : prog unit :=
  let! st := get stream in
  match st with
  | None => skip
  | Some _ =>
    let! idle := get (fun s => (now s - lastAudio s)%Z) in
    if (idle <? Timeout pr)%Z then skip
    else
      let! ok := sendKeepalive in
      if ok then do_ (fun s => s <| lastAudio := now s |>) else do_ (fun s => s <| kaLive ::= fun l => l ∖ {[k]} |>)
  end.

Definition DisconnectWebsocket : prog unit :=
  stopKeepalive ;;;
  let! st := act (fun s => (stream s, s <| stream := None |>)) in
  match st with Some i => log_ (Closed i) | None => skip end.
Definition ConnectWebsocket : prog bool :=
  let! ok := either in
  if negb ok then Ret false
  else
    do_ (fun s => emit (Dialed (sessions s)) (s <| stream := Some (sessions s) |> <| sessions ::= S |> <| sendFailed := false |>)) ;;;
    startKeepalive ;;;
    Ret true.
Definition connect : prog bool :=
  let! ok := ConnectWebsocket in
  if negb ok then Ret false
  else
    let! c := act (fun s => (connections s, s <| readCancel := Some (connections s) |> <| connections ::= S |> <| audioBytes := 0%Z |>)) in
    do_ (fun s => s <| reading ::= union {[c]} |>) ;;;
    Ret true.
Definition disconnect : prog unit :=
  let! x := act (fun s => ((readCancel s, audioBytes s), s <| readCancel := None |>)) in
  match x.1 with
  | None => skip
  | Some c =>
    do_ (fun s => s <| canceled ::= union {[c]} |>) ;;;
    await (fun s => none (reading s)) ;;;
    DisconnectWebsocket ;;;
    log_ (Usage x.2)
  end.

(** *** Audio *)

Definition send (audio : list Z) : prog unit :=
  let! to := act (fun s =>
    if reopening s then (None, s <| held ::= fun l => l ++ [audio] |>)
    else
      let s' := s <| lastAudio := now s |> in
      (Some (stream s, sendFailed s), match stream s with Some _ => s' <| audioBytes ::= Z.add (Z.of_nat (length audio)) |> | None => s' end)) in
  match to with
  | None => skip
  | Some (Some i, false) =>
    let! ok := Act (fun s => [(true, emit (Sent i audio) s); (false, emit (Lost audio) s)]) Ret in
    when (negb ok) (do_ (fun s => s <| sendFailed := true |>))
  | Some _ => log_ (Lost audio)
  end.
Definition sendAudio (audio : list Z) : prog unit :=
  log_ (Given audio) ;;;
  let! u := get usable in
  if u then send audio else log_ (Lost audio).

(** *** Another session *)

(** What is held of an earlier reopening is dropped. *)
Definition dropHeld (s : S_) : S_ := s <| log ::= fun l => l ++ List.map Lost (held s) |> <| held := [] |>.
Definition reopen : prog unit :=
  do_ (fun s => dropHeld s <| reopening := true |> <| needReopen := false |>) ;;;
  disconnect ;;;
  let! ok := connect in
  let! kept := act (fun s => (held s, s <| reopening := false |> <| held := [] |>)) in
  if ok then each kept send else each kept (fun a => log_ (Lost a)) ;;; log_ PushError.
Definition requestReopen : prog unit :=
  let! can := act (fun s => (canReopen s, if canReopen s then s else s <| needReopen := true |>)) in
  when can reopen.
Definition reopenIfDeferred : prog unit :=
  let! deferred := act (fun s => (needReopen s, s <| canReopen := true |>)) in
  when deferred reopen.
(** Whether a change asks for another session is the provider's. *)
Definition updateSettings : prog unit :=
  let! ok := either in
  if negb ok then log_ PushError
  else let! again := either in when again requestReopen.

(** *** Utterances *)

Definition speechStarted : prog unit :=
  let! x := get (fun s => (stream s, reopening s)) in
  match x with (Some i, false) => when (starter pr) (log_ (SpeechBegan i)) | _ => skip end.
Definition finalize : prog unit :=
  let! x := get (fun s => (stream s, reopening s)) in
  match x with
  | (Some i, false) => when (finalizer pr) (do_ (fun s => emit (Asked i) (s <| finalizeRequested := true |>)))
  | _ => skip
  end.
Definition confirmFinalize : prog unit :=
  do_ (fun s => if finalizeRequested s then emit Confirmed (s <| finalizePending := true |> <| finalizeRequested := false |>) else s).
Definition takeFinalizePending : prog bool :=
  act (fun s => (finalizePending s, if finalizePending s then emit Marked (s <| finalizePending := false |>) else s)).
Definition pushTranscription (text : gostring) (eot : bool) : prog unit :=
  let! p := takeFinalizePending in
  transcript (p || eot) ;;;
  log_ (Transcription text (p || eot)).
Definition emitTranscript (r : Result) : prog unit :=
  let answered := Final r && FromFinalize r in
  when answered confirmFinalize ;;;
  match Text r with
  | [] => when answered reportNow
  | t => if negb (Final r) then log_ (Interim t) else pushTranscription t (EndOfTurn r)
  end.
(** A proposal is listed as it is decided; the broadcast follows. *)
Definition emitSpeech (r : Result) : prog unit :=
  match Speech r with
  | SpeechStarted => do_ (fun s => if speaking s then s else emit (Proposed true) (s <| speaking := true |>))
  | SpeechStopped => do_ (fun s => if speaking s then emit (Proposed false) (s <| speaking := false |>) else s)
  | SpeechUnknown => skip
  end.
Definition emitResult (r : Result) : prog unit :=
  when (bool_decide (Speech r = SpeechStarted)) (emitSpeech r) ;;;
  emitTranscript r ;;;
  when (bool_decide (Speech r = SpeechStopped)) (emitSpeech r).
(** The read loop lost its session for good. *)
Definition reportConnectionError : prog unit := reportNow ;;; log_ PushError.

(** *** Frames *)

Inductive frame :=
| InputAudioRawFrame (audio : list Z)
| STTUpdateSettingsFrame
| VADUserStartedSpeakingFrame | VADUserStoppedSpeakingFrame (silence : Z) (stamp : option Z)
| InterruptionFrame | UserStoppedSpeakingFrame | EndOrCancelFrame.
Definition ProcessFrame (f : frame) : prog unit :=
  match f with
  | InputAudioRawFrame a => sendAudio a
  | STTUpdateSettingsFrame => updateSettings
  | VADUserStartedSpeakingFrame =>
    do_ (fun s => s <| canReopen := false |> <| finalizeRequested := false |> <| finalizePending := false |>) ;;;
    speechStarted ;;; ttfbSpeechStarted
  | VADUserStoppedSpeakingFrame silence stamp => speechEnded silence stamp ;;; finalize
  | InterruptionFrame => interrupted
  | UserStoppedSpeakingFrame => reopenIfDeferred
  | EndOrCancelFrame => disconnect
  end.

(** *** The goroutines *)

(** What may begin: a handler, the opening, a result for a read loop, its session
    replaced or given up, a round of the keepalive, a deadline. *)
Inductive call :=
| Handle (f : frame) | Setup
| Receive (c : nat) (r : Result) | Replace (c : nat) | GiveUp (c : nat)
| KeepaliveTick (k : nat) | Deadline (d : nat).
Definition begin (c : call) (s : S_) : option (prog unit) :=
  match c with
  | Handle f => Some (ProcessFrame f)
  | Setup => Some (connect ;;; skip)
  | Receive c r => if decide (c ∈ reading s) then Some (emitResult r) else None
  | Replace c => if decide (c ∈ reading s) then Some (DisconnectWebsocket ;;; ConnectWebsocket ;;; skip) else None
  | GiveUp c => if decide (c ∈ reading s) then Some (reportConnectionError ;;; do_ (fun s => s <| reading ::= fun l => l ∖ {[c]} |>)) else None
  | KeepaliveTick k => if decide (k ∈ kaLive s) then Some (keepaliveRound k) else None
  | Deadline d => if decide (d ∈ dlLive s) then Some (waitForTranscript d) else None
  end.
(** What happens by itself: time passes, a service becomes usable or not, a read loop or
    a keepalive that was called off ends. *)
Inductive change := Tick (d : Z) | Usability (b : bool) | ReadEnds (c : nat) | KeepaliveEnds (k : nat).
Definition changed (c : change) (s : S_) : option S_ :=
  match c with
  | Tick d => if (0 <=? d)%Z then Some (s <| now ::= Z.add d |>) else None
  | Usability b => Some (s <| usable := b |>)
  | ReadEnds c => if decide (c ∈ canceled s) then Some (s <| reading ::= fun l => l ∖ {[c]} |>) else None
  | KeepaliveEnds k => if decide (k ∈ kaCanceled s) then Some (s <| kaLive ::= fun l => l ∖ {[k]} |>) else None
  end.
Record Sys := mkSys { state : S_; procs : list (prog unit) }.
Inductive choice := Begin (c : call) | Run (i n : nat) | Change (c : change).
Definition runNth {A} (p : prog A) (n : nat) (s : S_) : option (prog A * S_) :=
  match p with Act f k => match List.nth_error (f s) n with Some (r, s') => Some (k r, s') | None => None end | _ => None end.
Definition step (c : choice) (y : Sys) : option Sys :=
  match c with
  | Begin c => match begin c (state y) with Some p => Some (mkSys (state y) (procs y ++ [p])) | None => None end
  | Run i n =>
    match procs y !! i with
    | Some p => match runNth p n (state y) with Some (p, s) => Some (mkSys s (<[i := p]> (procs y))) | None => None end
    | None => None
    end
  | Change c => match changed c (state y) with Some s => Some (mkSys s (procs y)) | None => None end
  end.
Definition boot : Sys := mkSys NewStream [].
Fixpoint exec (cs : list choice) (y : Sys) : option Sys :=
  match cs with [] => Some y | c :: cs => match step c y with Some y => exec cs y | None => None end end.
End Service.
End Stream.
