(* ===== verification/SttFacts.v ===== *)
(** * What speech recognition promises

    That every piece of audio given is sent once, or held, or lost for a reason; that the
    speech proposed begins and ends in turn; that a finalized transcript is marked once for
    each finalize, and a wait reported once for each utterance.  And where it falls short. *)

From S2P Require Import Prelude Float64 Text Strings Prog Stt.
Import Prog Stream.

Module SttFacts.
Local Open Scope prog_scope.

Section Facts.
Context (pr : Provider).

(** ** What a log says *)

Definition givens (l : list event) : list (list Z) := flat_map (fun e => match e with Given a => [a] | _ => [] end) l.
Definition sents (l : list event) : list (list Z) := flat_map (fun e => match e with Sent _ a => [a] | _ => [] end) l.
Definition losts (l : list event) : list (list Z) := flat_map (fun e => match e with Lost a => [a] | _ => [] end) l.
Definition proposals (l : list event) : list bool := flat_map (fun e => match e with Proposed b => [b] | _ => [] end) l.
Definition count (f : event -> bool) (l : list event) : nat := length (List.filter f l).
Definition asks (e : event) : bool := match e with Asked _ => true | _ => false end.
Definition confirms (e : event) : bool := match e with Confirmed => true | _ => false end.
Definition marks (e : event) : bool := match e with Marked => true | _ => false end.
Definition measures (e : event) : bool := match e with Measuring => true | _ => false end.
Definition reports (e : event) : bool := match e with Reported _ => true | _ => false end.
Arguments givens : simpl never. Arguments sents : simpl never. Arguments losts : simpl never. Arguments proposals : simpl never. Arguments count : simpl never.
Lemma givens_app a b : givens (a ++ b) = givens a ++ givens b. Proof. apply flat_map_app. Qed.
Lemma sents_app a b : sents (a ++ b) = sents a ++ sents b. Proof. apply flat_map_app. Qed.
Lemma losts_app a b : losts (a ++ b) = losts a ++ losts b. Proof. apply flat_map_app. Qed.
Lemma proposals_app a b : proposals (a ++ b) = proposals a ++ proposals b. Proof. apply flat_map_app. Qed.
Lemma givens_one e : givens [e] = match e with Given a => [a] | _ => [] end. Proof. by destruct e. Qed.
Lemma sents_one e : sents [e] = match e with Sent _ a => [a] | _ => [] end. Proof. by destruct e. Qed.
Lemma losts_one e : losts [e] = match e with Lost a => [a] | _ => [] end. Proof. by destruct e. Qed.
Lemma proposals_one e : proposals [e] = match e with Proposed b => [b] | _ => [] end. Proof. by destruct e. Qed.
Lemma count_one f e : count f [e] = if f e then 1 else 0. Proof. unfold count. cbn. by destruct (f e). Qed.
Lemma count_app f a b : count f (a ++ b) = count f a + count f b. Proof. unfold count. by rewrite List.filter_app, length_app. Qed.

(** Each differs from the one before, the first from [open]; what the last was. *)
Fixpoint inTurn (open : bool) (l : list bool) : option bool :=
  match l with [] => Some open | b :: l => if Bool.eqb b open then None else inTurn b l end.
Lemma inTurn_snoc l b : forall open o, inTurn open l = Some o -> o <> b -> inTurn open (l ++ [b]) = Some b.
Proof.
  induction l as [|x l IH]; intros open o H Hne; cbn in *; [injection H as <-|].
  - destruct (Bool.eqb_spec b open); [congruence|done].
  - destruct (Bool.eqb x open); [done|]. by eapply IH.
Qed.

(** ** What every goroutine keeps *)

Record inv (s : S_) : Prop := {
  i_speech : inTurn false (proposals (log s)) = Some (speaking s);
  i_marks : count marks (log s) + (if finalizePending s then 1 else 0) <= count confirms (log s);
  i_confirms : count confirms (log s) + (if finalizeRequested s then 1 else 0) <= count asks (log s);
  i_reports : count reports (log s) + (if start s is Some _ then 1 else 0) <= count measures (log s)
}.
(** [own]: the audio the goroutines have in hand. *)
Definition accounted (own : list (list Z)) (s : S_) : Prop := givens (log s) ≡ₚ sents (log s) ++ losts (log s) ++ held s ++ own.
Abbreviation role := (list (list Z)).
Definition knows (v : role) (s : S_) : Prop := inv s.
Record turn (v : role) (s s' : S_) (v' : role) : Prop := {
  r_inv : inv s';
  r_audio : forall rest, accounted (v ++ rest) s -> accounted (v' ++ rest) s'
}.
Local Abbreviation plays p P v := (takes knows turn p P v).

Definition plain (e : event) : bool :=
  match e with Given _ | Sent _ _ | Lost _ | Asked _ | Confirmed | Marked | Proposed _ | Measuring | Reported _ => false | _ => true end.
Record calm (s s' : S_) : Prop := {
  c_log : exists tr, log s' = log s ++ tr /\ Forall (fun e => plain e = true) tr;
  c_held : held s' = held s;
  c_speaking : speaking s' = speaking s;
  c_pending : finalizePending s' = true -> finalizePending s = true;
  c_requested : finalizeRequested s' = true -> finalizeRequested s = true;
  c_start : start s' = start s
}.
Lemma plain_says tr : Forall (fun e => plain e = true) tr -> givens tr = [] /\ sents tr = [] /\ losts tr = [] /\ proposals tr = []
  /\ count marks tr = 0 /\ count confirms tr = 0 /\ count asks tr = 0 /\ count reports tr = 0 /\ count measures tr = 0.
Proof.
  induction 1 as [|e tr He _ IH]; [done|]. destruct IH as (I1 & I2 & I3 & I4 & I5 & I6 & I7 & I8 & I9).
  change (e :: tr) with ([e] ++ tr). rewrite givens_app, sents_app, losts_app, proposals_app, !count_app, I1, I2, I3, I4, I5, I6, I7, I8, I9. by destruct e.
Qed.
Lemma stt_calm_turn v s s' : inv s -> calm s s' -> turn v s s' v.
Proof.
  intros [I1 I2 I3 I4] [(tr & El & Ht) C2 C3 C4 C5 C6]. destruct (plain_says tr Ht) as (P1 & P2 & P3 & P4 & P5 & P6 & P7 & P8 & P9). split.
  - split; rewrite El, ?proposals_app, ?count_app, ?P4, ?P5, ?P6, ?P7, ?P8, ?P9, ?app_nil_r, ?Nat.add_0_r, ?C3, ?C6; [done| | |done].
    + destruct (finalizePending s'); [rewrite C4 in I2 by done; done|destruct (finalizePending s); lia].
    + destruct (finalizeRequested s'); [rewrite C5 in I3 by done; done|destruct (finalizeRequested s); lia].
  - intros rest. unfold accounted. by rewrite El, givens_app, sents_app, losts_app, P1, P2, P3, !app_nil_r, C2.
Qed.
Lemma stt_calm_refl s : calm s s.
Proof. split; try done. exists []. by rewrite app_nil_r. Qed.
Lemma stt_calm_emit e s : plain e = true -> calm s (emit e s).
Proof. intros He. split; try done. exists [e]. split; [done|by repeat constructor]. Qed.

Definition quiet {A} (p : Prog.prog S_ unit unit A) : Prop := forall v, plays p (fun _ v' => v' = v) v.
Lemma stt_quiet_ret {A} (a : A) : quiet (Ret a).
Proof. by intros v. Qed.
Lemma stt_quiet_bind {A B} (p : Prog.prog S_ unit unit A) (k : A -> Prog.prog S_ unit unit B) : quiet p -> (forall a, quiet (k a)) -> quiet (bind p k).
Proof. intros Hp Hk v. eapply takes_seq; [apply Hp|]. intros a v' ->. apply Hk. Qed.
Lemma quiet_turns {A} (f : S_ -> list (A * S_)) : (forall v s r s', In (r, s') (f s) -> inv s -> turn v s s' v) -> quiet (Act f Ret).
Proof. intros H v s r s' Hin Hk. exists v. split; [by eapply H|done]. Qed.
Lemma stt_quiet_act {A} (f : S_ -> list (A * S_)) : (forall s r s', In (r, s') (f s) -> calm s s') -> quiet (Act f Ret).
Proof. intros H. apply quiet_turns. intros v s r s' Hin HI. apply stt_calm_turn; [done|by eapply H]. Qed.
Lemma quiet_one {A} (f : S_ -> A * S_) : (forall s, calm s (f s).2) -> quiet (act f).
Proof. intros H. apply stt_quiet_act. intros s r s' [E|[]]. specialize (H s). by rewrite E in H. Qed.
Lemma stt_quiet_do f : (forall s, calm s (f s)) -> quiet (do_ f).
Proof. intros H. apply stt_quiet_act. intros s r s' [[= <- <-]|[]]. apply H. Qed.
Lemma stt_quiet_get {A} (f : S_ -> A) : quiet (get f).
Proof. apply stt_quiet_act. intros s r s' [[= <- <-]|[]]. apply stt_calm_refl. Qed.
Lemma stt_quiet_log e : plain e = true -> quiet (log_ e).
Proof. intros He. apply stt_quiet_do. intros s. by apply stt_calm_emit. Qed.
Lemma stt_quiet_when b p : quiet p -> quiet (when b p).
Proof. destruct b; [done|intros _; apply stt_quiet_ret]. Qed.
Lemma quiet_either : quiet either.
Proof. apply stt_quiet_act. intros s r s' [[= <- <-]|[[= <- <-]|[]]]; apply stt_calm_refl. Qed.
Lemma quiet_await b : quiet (await b).
Proof. apply stt_quiet_act. intros s r s' Hin. destruct (b s); [|done]. destruct Hin as [[= <- <-]|[]]. apply stt_calm_refl. Qed.
(** What one more event says, counted. *)
Ltac tally := cbn; rewrite ?givens_app, ?sents_app, ?losts_app, ?proposals_app, ?count_app, ?givens_one, ?sents_one, ?losts_one, ?proposals_one, ?count_one; cbn; rewrite ?app_nil_r.
Ltac calm := intros; split; try done; exists []; by rewrite app_nil_r.

(** ** The wait for the transcript *)

Lemma quiet_stopDeadline : quiet stopDeadline.
Proof. apply stt_quiet_bind; [apply quiet_one; calm|]. intros [d|]; [|apply stt_quiet_ret]. apply stt_quiet_bind; [apply stt_quiet_do; calm|intros _; apply quiet_await]. Qed.
Lemma quiet_startDeadline : quiet startDeadline.
Proof. apply stt_quiet_bind; [apply quiet_stopDeadline|intros _]. apply stt_quiet_bind; [apply quiet_one; calm|intros d; apply stt_quiet_do; calm]. Qed.
Lemma turn_said v e s s' : inv s -> inv s' -> log s' = log s ++ [e] -> held s' = held s -> match e with Given _ | Sent _ _ | Lost _ => False | _ => True end ->
  turn v s s' v.
Proof. intros HI HI' El Eh He. split; [done|]. intros rest. unfold accounted. rewrite El, Eh. destruct e; try done; by tally. Qed.
Lemma quiet_said (f : S_ -> S_) : (forall s, inv s -> calm s (f s) \/ inv (f s) /\ held (f s) = held s /\ exists e, log (f s) = log s ++ [e] /\ match e with Given _ | Sent _ _ | Lost _ => False | _ => True end) ->
  quiet (do_ f).
Proof.
  intros H. apply quiet_turns. intros v s r s' [[= <- <-]|[]] HI. destruct (H s HI) as [Hc|(HI' & Eh & e & El & He)]; [by apply stt_calm_turn|by eapply turn_said].
Qed.
Ltac said := split_and!; [split; tally|done|eexists; split; [reflexivity|done]].
Lemma quiet_speechEnded x t : quiet (speechEnded x t).
Proof.
  destruct t as [t|]; [|apply stt_quiet_ret]. unfold speechEnded. destruct (Z.eqb x 0); [apply stt_quiet_ret|]. apply stt_quiet_bind; [apply quiet_either|intros first]. apply stt_quiet_when.
  apply stt_quiet_bind; [|intros _; apply quiet_startDeadline]. apply quiet_said. intros s [I1 I2 I3 I4]. right. said; try done; try lia; destruct (start s); lia.
Qed.
Lemma quiet_report t : quiet (report t).
Proof.
  apply quiet_said. intros s [I1 I2 I3 I4]. destruct (start s) as [t0|] eqn:Es; [right; said; try done; lia|left; apply stt_calm_refl].
Qed.
Lemma quiet_reportNow : quiet reportNow.
Proof. apply stt_quiet_bind; [apply quiet_stopDeadline|intros _]. apply stt_quiet_bind; [apply stt_quiet_get|intros t; apply quiet_report]. Qed.
Lemma quiet_transcript b : quiet (transcript b).
Proof.
  apply stt_quiet_bind; [apply stt_quiet_get|intros t]. apply stt_quiet_bind; [apply stt_quiet_do; calm|intros _]. apply stt_quiet_when.
  apply stt_quiet_bind; [apply quiet_stopDeadline|intros _; apply quiet_report].
Qed.
Lemma quiet_waitForTranscript d : quiet (waitForTranscript d).
Proof.
  apply stt_quiet_bind; [apply stt_quiet_act|intros passed].
  - intros s r s' Hin. apply in_app_or in Hin as [Hin|[[= <- <-]|[]]]; [|apply stt_calm_refl]. destruct (bool_decide _); [|done]. destruct Hin as [[= <- <-]|[]]. apply stt_calm_refl.
  - apply stt_quiet_bind; [|intros _; apply stt_quiet_do; calm]. destruct passed; [|apply stt_quiet_ret].
    apply stt_quiet_bind; [apply stt_quiet_get|intros [t|]; [apply quiet_report|apply stt_quiet_ret]].
Qed.

(** ** The session *)

Lemma quiet_stopKeepalive : quiet stopKeepalive.
Proof. apply stt_quiet_bind; [apply quiet_one; calm|]. intros [k|]; [|apply stt_quiet_ret]. apply stt_quiet_bind; [apply stt_quiet_do; calm|intros _; apply quiet_await]. Qed.
Lemma quiet_startKeepalive : quiet (startKeepalive pr).
Proof.
  unfold startKeepalive. destruct (Timeout pr <=? 0)%Z; [apply stt_quiet_ret|]. apply stt_quiet_bind; [apply quiet_stopKeepalive|intros _].
  apply stt_quiet_bind; [apply quiet_one; calm|intros k; apply stt_quiet_do; calm].
Qed.
Lemma quiet_sendKeepalive : quiet (sendKeepalive pr).
Proof.
  apply stt_quiet_bind; [apply stt_quiet_get|intros [i|]; [|apply stt_quiet_ret]]. apply stt_quiet_bind; [apply quiet_either|intros []; [|apply stt_quiet_ret]].
  apply stt_quiet_bind; [by apply stt_quiet_log|intros _]. apply stt_quiet_bind; [|intros _; apply stt_quiet_ret]. destruct (ownKeepalive pr); [apply stt_quiet_ret|apply stt_quiet_do; calm].
Qed.
Lemma quiet_keepaliveRound k : quiet (keepaliveRound pr k).
Proof.
  apply stt_quiet_bind; [apply stt_quiet_get|intros [i|]; [|apply stt_quiet_ret]]. apply stt_quiet_bind; [apply stt_quiet_get|intros idle]. destruct (idle <? Timeout pr)%Z; [apply stt_quiet_ret|].
  apply stt_quiet_bind; [apply quiet_sendKeepalive|intros []; apply stt_quiet_do; calm].
Qed.
Lemma quiet_DisconnectWebsocket : quiet DisconnectWebsocket.
Proof.
  apply stt_quiet_bind; [apply quiet_stopKeepalive|intros _]. apply stt_quiet_bind; [apply quiet_one; calm|intros [i|]; [by apply stt_quiet_log|apply stt_quiet_ret]].
Qed.
Lemma quiet_ConnectWebsocket : quiet (ConnectWebsocket pr).
Proof.
  apply stt_quiet_bind; [apply quiet_either|intros []; [|apply stt_quiet_ret]]. apply stt_quiet_bind; [|intros _; apply stt_quiet_bind; [apply quiet_startKeepalive|intros _; apply stt_quiet_ret]].
  apply stt_quiet_do. intros s. split; try done. eexists. split; [reflexivity|by repeat constructor].
Qed.
Lemma quiet_connect : quiet (connect pr).
Proof.
  apply stt_quiet_bind; [apply quiet_ConnectWebsocket|intros []; [|apply stt_quiet_ret]]. apply stt_quiet_bind; [apply quiet_one; calm|intros c].
  apply stt_quiet_bind; [apply stt_quiet_do; calm|intros _; apply stt_quiet_ret].
Qed.
Lemma quiet_disconnect : quiet disconnect.
Proof.
  apply stt_quiet_bind; [apply quiet_one; calm|intros [[c|] n]; [|apply stt_quiet_ret]]. apply stt_quiet_bind; [apply stt_quiet_do; calm|intros _].
  apply stt_quiet_bind; [apply quiet_await|intros _]. apply stt_quiet_bind; [apply quiet_DisconnectWebsocket|intros _; by apply stt_quiet_log].
Qed.

(** ** Utterances *)

Lemma quiet_speechStarted : quiet (speechStarted pr).
Proof. apply stt_quiet_bind; [apply stt_quiet_get|intros [[i|] []]; try apply stt_quiet_ret]. apply stt_quiet_when. by apply stt_quiet_log. Qed.
Lemma quiet_finalize : quiet (finalize pr).
Proof.
  apply stt_quiet_bind; [apply stt_quiet_get|intros [[i|] []]; try apply stt_quiet_ret]. apply stt_quiet_when. apply quiet_said. intros s [I1 I2 I3 I4]. right.
  said; try done; try lia; destruct (finalizeRequested s); lia.
Qed.
Lemma quiet_confirmFinalize : quiet confirmFinalize.
Proof.
  apply quiet_said. intros s [I1 I2 I3 I4]. destruct (finalizeRequested s) eqn:Er; [right|left; apply stt_calm_refl]. said; try done; try lia; destruct (finalizePending s); lia.
Qed.
Lemma quiet_takeFinalizePending : quiet takeFinalizePending.
Proof.
  apply quiet_turns. intros v s r s' [[= <- <-]|[]] HI. destruct (finalizePending s) eqn:Ep; [|by apply stt_calm_turn; [|apply stt_calm_refl]].
  eapply (turn_said _ Marked); [done| |done..]. destruct HI as [I1 I2 I3 I4]. rewrite Ep in I2. split; tally; try done; lia.
Qed.
Lemma quiet_emitSpeech r : quiet (emitSpeech r).
Proof.
  unfold emitSpeech. destruct (Speech r); [apply stt_quiet_ret| |]; apply quiet_said; intros s [I1 I2 I3 I4]; destruct (speaking s) eqn:Es;
    first [left; apply stt_calm_refl|right; said; try lia; by eapply inTurn_snoc].
Qed.
Lemma quiet_pushTranscription t b : quiet (pushTranscription t b).
Proof. apply stt_quiet_bind; [apply quiet_takeFinalizePending|intros p]. apply stt_quiet_bind; [apply quiet_transcript|intros _; by apply stt_quiet_log]. Qed.
Lemma quiet_emitTranscript r : quiet (emitTranscript r).
Proof.
  apply stt_quiet_bind; [apply stt_quiet_when, quiet_confirmFinalize|intros _]. destruct (Text r); [apply stt_quiet_when, quiet_reportNow|].
  destruct (negb (Final r)); [by apply stt_quiet_log|apply quiet_pushTranscription].
Qed.
Lemma quiet_emitResult r : quiet (emitResult r).
Proof.
  apply stt_quiet_bind; [apply stt_quiet_when, quiet_emitSpeech|intros _]. apply stt_quiet_bind; [apply quiet_emitTranscript|intros _]. apply stt_quiet_when, quiet_emitSpeech.
Qed.

(** ** Audio *)

Lemma plays_send a v : plays (send a) (fun _ v' => v' = v) (a :: v).
Proof.
  intros s r s' [E|[]] HI. destruct (reopening s) eqn:Er; injection E as <- <-.
  - exists v. split; [|done]. split; [by destruct HI|]. intros rest. unfold accounted. cbn. intros ->. by rewrite <- (app_assoc (held s)).
  - exists (a :: v). split; [apply stt_calm_turn; [done|destruct (stream s); calm]|]. cbn.
    assert (Hlost : plays (log_ (Lost a)) (fun _ v' => v' = v) (a :: v)).
    { clear. intros s r s' [[= <- <-]|[]] [I1 I2 I3 I4]. exists v. split; [|done]. split; [split; tally; try done; lia|]. intros rest. unfold accounted. tally. intros ->. solve_Permutation. }
    destruct (stream s) as [i|]; [|done]. destruct (sendFailed s); [done|]. clear s HI Er. intros s r s' Hin [I1 I2 I3 I4].
    exists v. destruct Hin as [[= <- <-]|[[= <- <-]|[]]]; (split; [split; [split; tally; try done; lia|intros rest; unfold accounted; tally; intros ->; solve_Permutation]|]).
    + done.
    + cbn. apply stt_quiet_do. calm.
Qed.
Lemma plays_given a v {A} (k : unit -> Prog.prog S_ unit unit A) P : plays (k tt) P (a :: v) -> plays (bind (log_ (Given a)) k) P v.
Proof.
  intros Hk s r s' [[= <- <-]|[]] [I1 I2 I3 I4]. exists (a :: v). split; [|done]. split; [split; tally; try done; lia|]. intros rest. unfold accounted. tally. intros ->. solve_Permutation.
Qed.
Lemma plays_lost a v : plays (log_ (Lost a)) (fun _ v' => v' = v) (a :: v).
Proof.
  intros s r s' [[= <- <-]|[]] [I1 I2 I3 I4]. exists v. split; [|done]. split; [split; tally; try done; lia|]. intros rest. unfold accounted. tally. intros ->. solve_Permutation.
Qed.
Lemma quiet_sendAudio a : quiet (sendAudio a).
Proof.
  intros v. apply plays_given. eapply takes_seq; [apply (stt_quiet_get usable)|]. intros [] v' ->; [apply plays_send|apply plays_lost].
Qed.
Lemma plays_each (p : list Z -> Stream.prog unit) : (forall a v, plays (p a) (fun _ v' => v' = v) (a :: v)) -> forall l v, plays (each l p) (fun _ v' => v' = v) (l ++ v).
Proof. intros Hp. induction l as [|a l IH]; intros v; [done|]. eapply takes_seq; [apply Hp|]. intros _ v' ->. apply IH. Qed.

(** ** Another session *)

Lemma lost_says l : givens (List.map Lost l) = [] /\ sents (List.map Lost l) = [] /\ losts (List.map Lost l) = l /\ proposals (List.map Lost l) = []
  /\ forall f, (forall a, f (Lost a) = false) -> count f (List.map Lost l) = 0.
Proof.
  unfold givens, sents, losts, proposals. split_and!.
  1-4: induction l as [|a l IH]; [done|cbn; by rewrite ?IH].
  intros f Hf. unfold count. induction l as [|a l IH]; [done|]. cbn. by rewrite Hf.
Qed.
Lemma turn_dropHeld v s : inv s -> turn v s (dropHeld s <| reopening := true |> <| needReopen := false |>) v.
Proof.
  intros [I1 I2 I3 I4]. destruct (lost_says (held s)) as (L1 & L2 & L3 & L4 & L5). split.
  - split; cbn; rewrite ?proposals_app, ?count_app, ?L4, ?L5, ?app_nil_r, ?Nat.add_0_r by done; done.
  - intros rest. unfold accounted. cbn. rewrite givens_app, sents_app, losts_app, L1, L2, L3, !app_nil_r. intros ->. solve_Permutation.
Qed.
Lemma quiet_reopen : quiet (reopen pr).
Proof.
  intros v. eapply takes_do; [intros s; apply turn_dropHeld|]. eapply takes_seq; [apply quiet_disconnect|]. intros _ v' ->. eapply takes_seq; [apply quiet_connect|]. intros ok v' ->.
  apply takes_act. intros s [I1 I2 I3 I4]. exists (held s ++ v). split.
  - split; [by split|]. intros rest. unfold accounted. cbn. intros ->. by rewrite <- (app_assoc (held s)).
  - cbn. destruct ok; [apply plays_each, plays_send|]. eapply takes_seq; [apply plays_each, plays_lost|]. intros _ v' ->. by apply stt_quiet_log.
Qed.
Lemma quiet_requestReopen : quiet (requestReopen pr).
Proof. apply stt_quiet_bind; [apply quiet_one; intros s; destruct (canReopen s) eqn:E; cbn; [apply stt_calm_refl|calm]|intros can; apply stt_quiet_when, quiet_reopen]. Qed.
Lemma quiet_reopenIfDeferred : quiet (reopenIfDeferred pr).
Proof. apply stt_quiet_bind; [apply quiet_one; calm|intros d; apply stt_quiet_when, quiet_reopen]. Qed.
Lemma quiet_updateSettings : quiet (updateSettings pr).
Proof.
  apply stt_quiet_bind; [apply quiet_either|intros []; [|by apply stt_quiet_log]]. apply stt_quiet_bind; [apply quiet_either|intros b; apply stt_quiet_when, quiet_requestReopen].
Qed.

(** ** Every goroutine *)

Lemma quiet_ProcessFrame f : quiet (ProcessFrame pr f).
Proof.
  destruct f as [a| | |x t| | |]; cbn [ProcessFrame].
  - apply quiet_sendAudio.
  - apply quiet_updateSettings.
  - apply stt_quiet_bind; [apply stt_quiet_do; intros s; split; try done; exists []; by rewrite app_nil_r|intros _]. apply stt_quiet_bind; [apply quiet_speechStarted|intros _].
    apply stt_quiet_bind; [apply quiet_stopDeadline|intros _; apply stt_quiet_do; calm].
  - apply stt_quiet_bind; [apply quiet_speechEnded|intros _; apply quiet_finalize].
  - apply quiet_stopDeadline.
  - apply quiet_reopenIfDeferred.
  - apply quiet_disconnect.
Qed.
Lemma quiet_begin c s p : begin pr c s = Some p -> quiet p.
Proof.
  destruct c as [f| |c r|c|c|k|d]; cbn [begin]; repeat case_decide; try done; intros E; apply (inj Some) in E as <-.
  - apply quiet_ProcessFrame.
  - apply stt_quiet_bind; [apply quiet_connect|intros _; apply stt_quiet_ret].
  - apply quiet_emitResult.
  - apply stt_quiet_bind; [apply quiet_DisconnectWebsocket|intros _]. apply stt_quiet_bind; [apply quiet_ConnectWebsocket|intros _; apply stt_quiet_ret].
  - apply stt_quiet_bind; [apply stt_quiet_bind; [apply quiet_reportNow|intros _; by apply stt_quiet_log]|intros _; apply stt_quiet_do; calm].
  - apply quiet_keepaliveRound.
  - apply quiet_waitForTranscript.
Qed.
Lemma calm_changed c s s' : changed c s = Some s' -> calm s s'.
Proof. destruct c as [d|b|c|k]; cbn; [destruct (0 <=? d)%Z| |case_decide|case_decide]; intros [= <-]; calm. Qed.

(** ** The whole service *)

(** What a goroutine has in hand it is done with when it ends. *)
Definition ends_clean (p : Stream.prog unit) (v : role) : Prop := plays p (fun _ v' => v' = []) v.
Definition sound (y : Sys) : Prop := inv (state y) /\ exists vs, Forall2 ends_clean (procs y) vs /\ accounted (concat vs) (state y).
Lemma accounted_perm a b s : a ≡ₚ b -> accounted a s -> accounted b s.
Proof. unfold accounted. by intros ->. Qed.
Lemma stt_step c y y' : sound y -> step pr c y = Some y' -> sound y'.
Proof.
  intros (HI & vs & Hvs & Ha). destruct c as [c|i n|c]; cbn [step].
  - destruct (begin pr c (state y)) as [p|] eqn:Eb; [|done]. intros [= <-]. split; [done|]. exists (vs ++ [[]]). split.
    + apply Forall2_app; [done|]. constructor; [by eapply quiet_begin|constructor].
    + rewrite concat_app. cbn. by rewrite app_nil_r.
  - destruct (procs y !! i) as [p|] eqn:Ep; [|done]. destruct (runNth p n (state y)) as [[p' s']|] eqn:Er; [|done]. intros [= <-].
    destruct (lookup_at _ _ _ Ep) as (l1 & l2 & -> & El). rewrite El in Hvs |- *. destruct (Forall2_at _ _ _ _ _ Hvs) as (vs1 & v & vs2 & -> & H1 & Hp & H2).
    unfold runNth in Er. destruct p as [|R f k|]; [done| |done]. destruct (List.nth_error (f (state y)) n) as [[r b1]|] eqn:En; [|done].
    injection Er as <- <-. apply nth_error_In in En. destruct (Hp _ _ _ En HI) as (v' & [R1 R2] & Hk). split; [done|]. exists (vs1 ++ v' :: vs2). cbn [procs state]. split.
    + rewrite insert_at. by apply (Forall2_around ends_clean).
    + assert (forall w, w ++ concat (vs1 ++ vs2) ≡ₚ concat (vs1 ++ w :: vs2)) as E by (intros w; rewrite !concat_app; cbn; by rewrite Permutation_app_swap_app).
      eapply accounted_perm; [apply E|]. apply R2. eapply accounted_perm; [symmetry; apply E|done].
  - destruct (changed c (state y)) as [s'|] eqn:Ec; [|done]. intros [= <-]. destruct (stt_calm_turn [] _ _ HI (calm_changed _ _ _ Ec)) as [R1 R2].
    split; [done|]. exists vs. split; [done|]. by apply (R2 (concat vs)).
Qed.
Lemma stt_exec cs : forall y y', sound y -> exec pr cs y = Some y' -> sound y'.
Proof.
  induction cs as [|c cs IH]; intros y y' Hy E; cbn [exec] in E; [by injection E as <-|]. destruct (step pr c y) as [y1|] eqn:E1; [|done]. eapply IH; [|exact E]. by eapply stt_step.
Qed.
Lemma stt_boot : sound boot.
Proof. split; [by split; cbn|]. exists []. split; [by constructor|exact (Permutation_refl [])]. Qed.
Lemma idle_hands ps vs : Forall2 ends_clean ps vs -> Forall (fun p => idle p = true) ps -> concat vs = [].
Proof. induction 1 as [|p v ps vs Hp _ IH]; intros Hi; inversion Hi; subst; [done|]. destruct p; try done. cbn in *. subst v. auto. Qed.

(** Whatever the schedule, once every goroutine is done every piece of audio the service
    was given was sent to one session once, or is held for one being opened, or was lost
    for a reason: no session, a write that failed, a service that cannot be used, a
    session that did not open. *)
Theorem audio_accounted cs y : exec pr cs boot = Some y -> Forall (fun p => idle p = true) (procs y) ->
  givens (log (state y)) ≡ₚ sents (log (state y)) ++ losts (log (state y)) ++ held (state y).
Proof.
  intros E Hi. destruct (stt_exec _ _ _ stt_boot E) as (_ & vs & Hvs & Ha). rewrite (idle_hands _ _ Hvs Hi) in Ha. unfold accounted in Ha. by rewrite app_nil_r in Ha.
Qed.
(** The provider's turns are proposed in turn, a start first, and each once: never two
    starts with no stop between them. *)
Theorem proposed_in_turn cs y : exec pr cs boot = Some y -> inTurn false (proposals (log (state y))) = Some (speaking (state y)).
Proof. intros E. by destruct (stt_exec _ _ _ stt_boot E) as ([I _ _ _] & _). Qed.
(** A transcript is marked as the last for a finalize that was confirmed, a finalize is
    confirmed that was asked for, and a wait is reported that was measured: once each. *)
Theorem each_once cs y : exec pr cs boot = Some y ->
  count marks (log (state y)) <= count confirms (log (state y)) <= count asks (log (state y)) /\ count reports (log (state y)) <= count measures (log (state y)).
Proof. intros E. destruct (stt_exec _ _ _ stt_boot E) as ([_ I2 I3 I4] & _). lia. Qed.
End Facts.

(** ** On a run *)

Definition aProvider : Provider := mkProvider true true 0 true 0.
Definition playedOut (cs : list choice) : Sys := default boot (exec aProvider cs boot).
Definition played_ok (cs : list choice) : bool := match exec aProvider cs boot with Some _ => true | None => false end.
Lemma stt_played_ran cs : played_ok cs = true -> exec aProvider cs boot = Some (playedOut cs).
Proof. unfold played_ok, playedOut. by destruct (exec aProvider cs boot). Qed.
Definition gives (i n : nat) : list choice := List.repeat (Run i 0) n.
Definition up : list choice := Begin Setup :: gives 0 4.
Definition comes (b : Z) : choice := Begin (Handle (InputAudioRawFrame [b])).
Definition changes : choice := Begin (Handle STTUpdateSettingsFrame).
Definition tells (x : SpeechState) : choice := Begin (Receive 0 (mkResult [] false false x false)).

Lemma idle_all (ps : list (Stream.prog unit)) : forallb idle ps = true -> Forall (fun p => idle p = true) ps.
Proof. induction ps as [|p ps IH]; cbn; intros H; [constructor|]. apply andb_prop in H as [H1 H2]. constructor; auto. Qed.

(** The session is being replaced as one piece of audio comes, and the next comes as the
    new one has just opened: both are sent, the later one first. *)
Definition toHeld : list choice :=
  up ++ changes :: gives 1 6 ++ comes 1 :: gives 2 3 ++ [Change (ReadEnds 0)] ++ gives 1 10 ++ comes 2 :: gives 3 4 ++ gives 1 2.
Lemma audio_accounted_witness :
  givens (log (state (playedOut toHeld))) ≡ₚ sents (log (state (playedOut toHeld))) ++ losts (log (state (playedOut toHeld))) ++ held (state (playedOut toHeld)).
Proof. apply (audio_accounted aProvider toHeld); [apply stt_played_ran; vm_compute; reflexivity|apply idle_all; vm_compute; reflexivity]. Defined.
Lemma held_sent_late :
  log (state (playedOut toHeld)) = [Dialed 0; Given [1]; Closed 0; Usage 0; Dialed 1; Given [2]; Sent 1 [2]; Sent 1 [1]]%Z
  /\ forallb idle (procs (playedOut toHeld)) = true.
Proof. vm_compute. by split. Qed.

(** A segment is heard, and its transcript closes the turn. *)
Definition answers : choice := Begin (Receive 0 (mkResult (bytes_of "yes") true true SpeechStopped true)).
Definition toAnswer : list choice :=
  up ++ tells SpeechStarted :: gives 1 1 ++ Change (Tick 1200) :: Begin (Handle (VADUserStoppedSpeakingFrame 200 (Some 1000%Z))) :: gives 2 7
    ++ answers :: gives 3 6 ++ Begin (Deadline 0) :: gives 4 2 ++ gives 3 4.
Lemma each_once_witness :
  let l := log (state (playedOut toAnswer)) in count marks l <= count confirms l <= count asks l /\ count reports l <= count measures l.
Proof. apply (each_once aProvider toAnswer). apply stt_played_ran. vm_compute. reflexivity. Defined.
Lemma answered_for :
  log (state (playedOut toAnswer)) =
    [Dialed 0; Proposed true; Measuring; Asked 0; Confirmed; Marked; Reported 400; Transcription (bytes_of "yes") true; Proposed false].
Proof. vm_compute. reflexivity. Qed.

(** The user stops speaking as the settings change again: the one handler is about to
    replace the session as it was asked to before, and the other does.  The first then
    waits for every read loop to end, the new session's with the rest, which nobody has
    called off; and it is the handler of the system frames, audio among them. *)
Definition toHang : list choice :=
  up ++ Begin (Handle VADUserStartedSpeakingFrame) :: gives 1 5 ++ changes :: gives 2 3 ++ Begin (Handle UserStoppedSpeakingFrame) :: gives 3 1
    ++ changes :: gives 4 3 ++ gives 3 2 ++ gives 4 7 ++ gives 3 1 ++ [Change (ReadEnds 0)].
Lemma overlapping_reopens :
  let y := playedOut toHang in
  played_ok toHang = true /\ List.map idle (procs y) = [true; true; true; false; true]
  /\ elements (reading (state y)) = [1] /\ elements (canceled (state y)) = [0] /\ readCancel (state y) = Some 1
  /\ forall n, match step aProvider (Run 3 n) y with Some _ => False | None => True end.
Proof. cbn zeta. split_and!; [vm_compute; reflexivity..|]. intros n. vm_compute. by destruct n. Qed.

(** The user stops, and starts again before the transcript comes: the wait is reported
    for the transcript of what they say next, the speaking included. *)
Definition toLate : list choice :=
  up ++ Change (Tick 1200) :: Begin (Handle (VADUserStoppedSpeakingFrame 200 (Some 1000%Z))) :: gives 1 7
    ++ Begin (Handle VADUserStartedSpeakingFrame) :: gives 2 5 ++ Begin (Deadline 0) :: gives 3 2 ++ gives 2 2
    ++ Change (Tick 3800) :: Begin (Receive 0 (mkResult (bytes_of "yes") true true SpeechUnknown false)) :: gives 4 6.
Lemma old_wait_reported :
  log (state (playedOut toLate)) = [Dialed 0; Measuring; Asked 0; SpeechBegan 0; Reported 4200; Transcription (bytes_of "yes") true].
Proof. vm_compute. reflexivity. Qed.

(** The session is lost while the provider has the user speaking: the next one's first
    word of it is no change, and is not proposed. *)
Definition toDropped : list choice := up ++ tells SpeechStarted :: gives 1 1 ++ Begin (Replace 0) :: gives 2 5 ++ tells SpeechStarted :: gives 3 1.
Lemma proposed_in_turn_witness : inTurn false (proposals (log (state (playedOut toDropped)))) = Some (speaking (state (playedOut toDropped))).
Proof. apply (proposed_in_turn aProvider toDropped). apply stt_played_ran. vm_compute. reflexivity. Defined.
Lemma start_swallowed : log (state (playedOut toDropped)) = [Dialed 0; Proposed true; Closed 0; Dialed 1] /\ forallb idle (procs (playedOut toDropped)) = true.
Proof. vm_compute. by split. Qed.
End SttFacts.
