(* ===== verification/MediaSender.v ===== *)
(** * The output of a transport

    [src/transport/mediasender.go], with what it uses of [output.go]: outgoing frames are
    routed to the sender of the destination they name; a sender cuts audio into chunks of one size,
    queues them ([framequeue.go]), and a loop paces what is queued out to the transport,
    marking when the bot holds the floor.  The routing, and the mixer, are in [TransportOutput.v].

    A sender's state is shared by the handlers of frames (system frames on one goroutine,
    the others in order on another) and its loop: programs of [Prog.v], one round of the
    loop at a time.  What the transport does with a write, and what the clock queue
    ([ClockQueue.v]) delivers, is left free; what is asked of the mixer and the resampler
    is answered by whoever runs the program.  A wake-up of the loop may be stale: that
    none is lost is the queue's ([Queues.v]).  Times are the clock's, in nanoseconds. *)

From S2P Require Import Prelude Float64 Strings Prog Recording.
Import Prog.

Module Sender.
Local Open Scope prog_scope.

(** ** Frames *)

Inductive kind := TTSAudio | SpeechAudio | PlainAudio.
#[export] Instance kind_dec : EqDecision kind. Proof. solve_decision. Defined.
Inductive frame :=
| OutputAudio (k : kind) (pcm : list Z) (rate channels : Z)
| TTSStoppedFrame (n : nat)
| OutputTransportMessageFrame (n : nat)
| OutputDTMFFrame (n : nat)
| OtherFrame (n : nat) (uninterruptible : bool).
#[export] Instance frame_dec : EqDecision frame. Proof. solve_decision. Defined.
Inductive item := Item (f : frame) | drainMarker.
Definition outputAudio (f : frame) : option (list Z * Z * Z) :=
  match f with OutputAudio _ pcm r c => Some (pcm, r, c) | _ => None end.
Definition setOutputAudio (f : frame) (pcm : list Z) : frame :=
  match f with OutputAudio k _ r c => OutputAudio k pcm r c | _ => f end.
Definition isUninterruptible (i : item) : bool := match i with Item (OtherFrame _ u) => u | _ => false end.

(** ** State *)

Record Params := mkParams {
  AudioOutEnabled : bool; sampleRate : Z; channels : Z; chunkSize : nat; mixer : bool; AudioOutEndSilenceSecs : Z
}.

(** What is done, in order.  Bytes given are appended to the buffer; cut or dropped ones
    leave it, what is cut as a frame for a queue, where there is one.  A frame the loop has
    to play is sourced as it is, the mixer blended in. *)
Inductive event :=
| Given (pcm : list Z) | Cut (pcm : list Z) (f : frame) (out : option nat) | Dropped (pcm : list Z) | BargeIn
| Queued (l : nat) (i : item) | Unpaced (f : frame) | Panicked (i : item)
| Took (l : nat) (i : item) | Sourced (f : frame) | Restarted (l : nat)
| Floor (held : bool) | BotSpeakingFrame
| Written (f : frame) | Unsent (f : frame) | TimedOut
| SentMessage (n : nat) | WroteDTMF (n : nat) | WroteFrame (n : nat)
| Forwarded (f : frame) | PassedOn (f : frame)
| ClockPushed (pts : Z) (f : frame) | ClockDropped | ClockStopped
| MixerTold (n : nat) | DrainOver.

Record S_ := mkS {
  usable : bool; ctxDone : bool;
  buffer : list Z; newChunk : option kind;
  lifeMu : bool; audioCtx : option nat; audioCancel : option nat; audioOut : option nat;
  loops : nat; queues : gmap nat (list item); canceled : gset nat; live : gset nat; round : bool; handling : bool;
  clockQ : bool;
  drainWait : option nat; drains : nat; drained : gset nat;
  botSpeaking : bool; ttsAudioReceived : bool; botSpeakingFrameAt : option Z; botSpeechLastAt : option Z;
  idleAt : Z; lastAudioAt : option Z;
  now : Z; log : list event
}.
#[export] Instance eta_S : Eta S_ := fun s =>
  mkS (usable s) (ctxDone s) (buffer s) (newChunk s) (lifeMu s) (audioCtx s) (audioCancel s) (audioOut s) (loops s) (queues s) (canceled s) (live s)
    (round s) (handling s) (clockQ s) (drainWait s) (drains s) (drained s) (botSpeaking s) (ttsAudioReceived s) (botSpeakingFrameAt s) (botSpeechLastAt s)
    (idleAt s) (lastAudioAt s) (now s) (log s).
Definition newMediaSender : S_ :=
  mkS true false [] None false None None None 0 ∅ ∅ ∅ false false false None 0 ∅ false false None None 0 None 0 [].

(** What is asked of code that is not the sender's: audio mixed, if it can be; audio at
    the output's rate, if a resampler can be made. *)
Inductive question := Mix (pcm : list Z) | Resample (pcm : list Z) (rate channels : Z).
Abbreviation prog := (Prog.prog S_ question (option (list Z))).
Definition emit (e : event) (s : S_) : S_ := s <| log ::= fun l => l ++ [e] |>.
Definition log_ (e : event) : prog unit := do_ (emit e).
Definition await (b : S_ -> bool) : prog unit := Act (fun s => if b s then [(tt, s)] else []) Ret.
Definition none (l : gset nat) : bool := bool_decide (l = ∅).
Definition since (t : option Z) (s : S_) (d : Z) : bool := match t with None => true | Some t => (d <? now s - t)%Z end.

Definition queueOf (l : nat) (s : S_) : list item := match queues s !! l with Some q => q | None => [] end.
(** [frameQueue]. *)
Definition pushed (out : option nat) (i : item) (s : S_) : S_ :=
  match out with
  | None => emit (Panicked i) s
  | Some l => emit (Queued l i) (s <| queues := <[l := queueOf l s ++ [i]]> (queues s) |>)
  end.
Definition push (out : option nat) (i : item) : prog unit := do_ (pushed out i).
Definition tryGet (l : nat) (s : S_) : option item * S_ :=
  match queueOf l s with [] => (None, s) | i :: q => (Some i, emit (Took l i) (s <| queues := <[l := q]> (queues s) |>)) end.
Definition hasUninterruptible (l : nat) (s : S_) : bool := existsb isUninterruptible (queueOf l s).
Definition reset (l : nat) : prog unit := do_ (fun s => s <| queues := <[l := List.filter isUninterruptible (queueOf l s)]> (queues s) |>).
Definition dropBuffer (s : S_) : S_ := emit (Dropped (buffer s)) (s <| buffer := [] |>).

Section Service.
Context (p : Params).

(** ** The floor *)

Definition botVADStop : Z := 350000000.
Definition botVADStopFallback : Z := 3000000000.
Definition botSpeakingFramePeriod : Z := 200000000.

(** Who takes the floor or gives it up is listed as it is decided; the broadcast follows. *)
Definition botStartedSpeaking : prog unit :=
  do_ (fun s => if botSpeaking s then s else emit (Floor true) (s <| botSpeaking := true |>)).
Definition botStoppedSpeaking : prog unit :=
  let! was := act (fun s => if botSpeaking s then (true, emit (Floor false) (s <| botSpeaking := false |> <| ttsAudioReceived := false |>)) else (false, s)) in
  when was (do_ dropBuffer).
Definition botCurrentlySpeaking : prog unit :=
  botStartedSpeaking ;;;
  let! due := act (fun s =>
    let due := match botSpeakingFrameAt s with None => true | Some t => (botSpeakingFramePeriod <=? now s - t)%Z end in
    (due, (if due then s <| botSpeakingFrameAt := Some (now s) |> else s) <| botSpeechLastAt := Some (now s) |>)) in
  when due (log_ BotSpeakingFrame).
Definition maybeBotCurrentlySpeaking (pcm : list Z) : prog unit :=
  if negb (Pcm.IsSilence pcm) then botCurrentlySpeaking
  else
    let! quiet := get (fun s => since (botSpeechLastAt s) s botVADStop) in
    when quiet botStoppedSpeaking.
Definition handleBotSpeech (k : kind) (pcm : list Z) : prog unit :=
  match k with
  | TTSAudio => do_ (fun s => s <| ttsAudioReceived := true |>) ;;; botCurrentlySpeaking
  | SpeechAudio => maybeBotCurrentlySpeaking pcm
  | PlainAudio => skip
  end.
Definition ttsStopped : prog unit :=
  let! received := get ttsAudioReceived in
  when received botStoppedSpeaking.

(** ** Audio in *)

Definition padChunk (b : list Z) (size : nat) : list Z := b ++ List.repeat 0%Z (size - length b).
Definition chunkBuilder (k : option kind) (pcm : list Z) (rate ch : Z) : frame :=
  OutputAudio (match k with Some k => k | None => PlainAudio end) pcm rate ch.
Fixpoint chunksOf (fuel : nat) (b : list Z) : list (list Z) * list Z :=
  match fuel with
  | O => ([], b)
  | S fuel => if chunkSize p <=? length b then let '(cs, r) := chunksOf fuel (List.skipn (chunkSize p) b) in (List.firstn (chunkSize p) b :: cs, r) else ([], b)
  end.
Definition cutAll (k : kind) (ch : Z) (pcm : list Z) (s : S_) : list frame * S_ :=
  let b := buffer s ++ pcm in
  let '(cs, r) := chunksOf (length b) b in
  let build c := chunkBuilder (Some k) c (sampleRate p) ch in
  (List.map build cs, s <| newChunk := Some k |> <| buffer := r |> <| log ::= fun l => l ++ Given pcm :: List.map (fun c => Cut c (build c) (audioOut s)) cs |>).
Definition resample (pcm : list Z) (rate ch : Z) : prog (list Z) :=
  if Z.eqb rate (sampleRate p) then Ret pcm
  else
    let! r := ask (Resample pcm rate ch) in
    Ret (match r with Some pcm => pcm | None => pcm end).
Definition handleAudioFrame (k : kind) (pcm : list Z) (rate ch : Z) : prog unit :=
  if negb (AudioOutEnabled p) || (chunkSize p =? 0) then skip
  else
    let! pcm := resample pcm rate ch in
    let! x := act (fun s => let '(cs, s) := cutAll k ch pcm s in ((cs, audioOut s), s)) in
    each x.1 (fun c => push x.2 (Item c)).
Definition pacing (s : S_) : option nat := match audioCtx s with Some _ => audioOut s | None => None end.
Definition cutTail (s : S_) : option (frame * option nat) * S_ :=
  if (length (buffer s) =? 0) || (chunkSize p =? 0) then (None, s)
  else
    let f := chunkBuilder (newChunk s) (padChunk (buffer s) (chunkSize p)) (sampleRate p) (channels p) in
    (Some (f, pacing s), emit (Cut (buffer s) f (pacing s)) (s <| buffer := [] |>)).
Definition enqueueFlushedAudioBuffer : prog unit :=
  let! x := act cutTail in
  match x with
  | None => skip
  | Some (f, None) => log_ (Unpaced f)
  | Some (f, Some l) => push (Some l) (Item f)
  end.
Definition handleSyncFrame (f : frame) : prog unit :=
  let! out := get pacing in
  match out with None => log_ (PassedOn f) | Some l => push (Some l) (Item f) end.
Definition handleTTSStopped (n : nat) : prog unit := enqueueFlushedAudioBuffer ;;; handleSyncFrame (TTSStoppedFrame n).
(** A frame with the time it is to be presented at, if it has one. *)
Definition handleFrame (f : frame) (pts : option Z) : prog unit :=
  match f, pts with
  | OutputAudio k pcm r ch, _ => handleAudioFrame k pcm r ch
  | TTSStoppedFrame n, _ => handleTTSStopped n
  | _, Some t => let! k := get clockQ in if k then log_ (ClockPushed t f) else handleSyncFrame f
  | _, None => handleSyncFrame f
  end.
Definition handleMixerControl (n : nat) : prog unit := when (mixer p) (log_ (MixerTold n)).

(** ** The loop *)

Definition writeAudio (l : nat) (f : frame) : prog bool :=
  let! u := get usable in
  if negb u then log_ (Unsent f) ;;; Ret false
  else
    Act (fun s => [(true, emit (Written f) s); (false, emit (Unsent f) s);
                   (false, if decide (l ∈ canceled s) then emit (Unsent f) s else emit TimedOut (emit (Unsent f) s) <| usable := false |>)]) Ret.
(** The frame's own effect, and whether it goes on downstream. *)
Definition effect (l : nat) (f : frame) : prog bool :=
  match f with
  | OutputAudio k pcm _ _ => handleBotSpeech k pcm ;;; writeAudio l f
  | OutputTransportMessageFrame n => log_ (SentMessage n) ;;; Ret true
  | TTSStoppedFrame _ => ttsStopped ;;; Ret true
  | OutputDTMFFrame n => log_ (WroteDTMF n) ;;; Ret true
  | OtherFrame n _ => log_ (WroteFrame n) ;;; Ret true
  end.
Definition handleQueuedFrame (l : nat) (f : frame) : prog bool :=
  let! pushDownstream := effect l f in
  let! c := get (fun s => bool_decide (l ∈ canceled s)) in
  if c then Ret false
  else when pushDownstream (log_ (Forwarded f)) ;;; Ret true.
Definition sendEndSilence (l : nat) : prog unit :=
  if (AudioOutEndSilenceSecs p <=? 0)%Z then skip
  else
    let! _ := writeAudio l (OutputAudio PlainAudio (List.repeat 0%Z (Z.to_nat (sampleRate p * 2 * AudioOutEndSilenceSecs p))) (sampleRate p) 1) in
    skip.
Definition signalDrained : prog unit :=
  do_ (fun s => match drainWait s with Some d => s <| drainWait := None |> <| drained ::= union {[d]} |> | None => s end).
Definition roundOver (l : nat) (again : bool) : prog unit :=
  do_ (fun s => (if again then s else s <| live ::= fun x => x ∖ {[l]} |>) <| round := false |>).
Definition play (l : nat) (f : frame) : prog unit := let! ok := handleQueuedFrame l f in roundOver l ok.
Definition blendMixer (f : frame) : prog (frame * bool) :=
  match outputAudio f with
  | None => Ret (f, false)
  | Some (pcm, _, _) => let! m := ask (Mix pcm) in Ret (match m with Some pcm => setOutputAudio f pcm | None => f end, true)
  end.
Inductive wake := Stopped | Idle | Woken.
(** One round of the loop, from its look whether it is called off. *)
Definition loopWithoutMixer (l : nat) : prog unit :=
  let! got := act (fun s =>
    match tryGet l s with
    | (Some (Item f), s) => (Some (Item f), emit (Sourced f) (s <| idleAt := now s |>))
    | (Some drainMarker, s) => (Some drainMarker, s <| idleAt := now s |>)
    | (None, s) => (None, s)
    end) in
  match got with
  | Some drainMarker => sendEndSilence l ;;; signalDrained ;;; roundOver l true
  | Some (Item f) => play l f
  | None =>
    let! w := Act (fun s =>
      (if decide (l ∈ canceled s) then [(Stopped, s)] else [])
      ++ (if (botVADStopFallback <=? now s - idleAt s)%Z then [(Idle, s)] else []) ++ [(Woken, s)]) Ret in
    match w with
    | Stopped => roundOver l false
    | Idle => botStoppedSpeaking ;;; do_ (fun s => s <| idleAt := now s |>) ;;; roundOver l true
    | Woken => roundOver l true
    end
  end.
Definition loopWithMixer (l : nat) : prog unit :=
  let! got := act (tryGet l) in
  match got with
  | Some drainMarker => sendEndSilence l ;;; signalDrained ;;; roundOver l true
  | Some (Item f) =>
    let! x := blendMixer f in
    do_ (fun s => emit (Sourced x.1) (if x.2 then s <| lastAudioAt := Some (now s) |> else s)) ;;;
    play l x.1
  | None =>
    let! quiet := get (fun s => since (lastAudioAt s) s botVADStopFallback) in
    when quiet botStoppedSpeaking ;;;
    let silence := List.repeat 0%Z (chunkSize p) in
    let! m := ask (Mix silence) in
    let f := OutputAudio PlainAudio (match m with Some pcm => pcm | None => silence end) (sampleRate p) (channels p) in
    log_ (Sourced f) ;;; play l f
  end.
Definition audioLoop (l : nat) : prog unit :=
  let! c := get (fun s => bool_decide (l ∈ canceled s)) in
  if c then roundOver l false else if mixer p then loopWithMixer l else loopWithoutMixer l.

(** ** Its life *)

Definition lock : prog unit := Act (fun s => if lifeMu s then [] else [(tt, s <| lifeMu := true |>)]) Ret.
Definition unlock : prog unit := do_ (fun s => s <| lifeMu := false |>).
Definition spawn (s : S_) : S_ :=
  let l := loops s in
  emit (Restarted l) (s <| loops := S l |> <| audioCtx := Some l |> <| audioCancel := Some l |> <| audioOut := Some l |> <| queues ::= <[l := []]> |>
    <| live ::= union {[l]} |> <| idleAt := now s |> <| lastAudioAt := None |>).
(** Under the lock from end to end, and nothing in it waits. *)
Definition start (s : S_) : S_ := spawn (dropBuffer s) <| clockQ := true |>.
Definition stop : prog unit :=
  botStoppedSpeaking ;;;
  lock ;;;
  let! c := act (fun s => (audioCancel s, match audioCancel s with Some l => s <| audioCancel := None |> <| canceled ::= union {[l]} |> | None => s end)) in
  match c with Some _ => await (fun s => none (live s)) | None => skip end ;;;
  let! k := get clockQ in
  when k (log_ ClockStopped) ;;;
  unlock.
Definition restartAudioLoop : prog unit :=
  lock ;;;
  let! c := act (fun s => (audioCancel s, match audioCancel s with Some l => s <| canceled ::= union {[l]} |> | None => s end)) in
  match c with
  | None => unlock
  | Some _ => await (fun s => none (live s)) ;;; do_ spawn ;;; unlock
  end.
Definition drainAudio : prog unit :=
  let! ac := get audioCtx in
  match ac with
  | None => skip
  | Some l =>
    enqueueFlushedAudioBuffer ;;;
    let! d := act (fun s => (drains s, s <| drainWait := Some (drains s) |> <| drains ::= S |>)) in
    let! out := get audioOut in
    push out drainMarker ;;;
    await (fun s => bool_decide (d ∈ drained s) || bool_decide (l ∈ canceled s) || ctxDone s) ;;;
    log_ DrainOver
  end.
Definition handleInterruption : prog unit :=
  do_ (fun s => dropBuffer (emit BargeIn s)) ;;;
  let! k := get clockQ in
  when k (log_ ClockDropped) ;;;
  let! q := get audioOut in
  match q with
  | None => skip
  | Some l =>
    let! keeps := get (hasUninterruptible l) in
    if keeps || mixer p then reset l else restartAudioLoop
  end.

(** ** The goroutines *)

Inductive call :=
| HandleFrame (f : frame) (pts : option Z) | HandleControl (n : nat) | HandleEnd
| HandleInterruption | HandleCancel
| Loop (l : nat).
Definition handled (q : prog unit) : prog unit := q ;;; do_ (fun s => s <| handling := false |>).
Definition inOrder (c : call) : bool := match c with HandleFrame _ _ | HandleControl _ | HandleEnd => true | _ => false end.
Definition program (c : call) : prog unit :=
  match c with
  | HandleFrame f pts => handled (handleFrame f pts)
  | HandleControl n => handled (handleMixerControl n)
  | HandleEnd => handled (drainAudio ;;; stop)
  | HandleInterruption => handleInterruption ;;; botStoppedSpeaking
  | HandleCancel => stop
  | Loop l => audioLoop l
  end.
Definition begin (c : call) (s : S_) : option (prog unit * S_) :=
  match c with
  | Loop l => if decide (l ∈ live s) then if round s then None else Some (program c, s <| round := true |>) else None
  | _ => if inOrder c then if handling s then None else Some (program c, s <| handling := true |>) else Some (program c, s)
  end.
(** What happens by itself: time passes, the sender is started, the context a drain waits
    under ends, the transport becomes usable or not. *)
Inductive change := Tick (d : Z) | Starts | ContextDone | Usability (b : bool).
Definition changed (c : change) (s : S_) : option S_ :=
  match c with
  | Tick d => if (0 <=? d)%Z then Some (s <| now ::= Z.add d |>) else None
  | Starts => match audioOut s with None => if lifeMu s then None else Some (start s) | Some _ => None end
  | ContextDone => Some (s <| ctxDone := true |>)
  | Usability b => Some (s <| usable := b |>)
  end.
Record Sys := mkSys { state : S_; procs : list (prog unit) }.
Inductive choice := Begin (c : call) | Run (i n : nat) | Answer (i : nat) (x : option (list Z)) | Change (c : change).
Definition runNth {A} (q : prog A) (n : nat) (s : S_) : option (prog A * S_) :=
  match q with Act f k => match List.nth_error (f s) n with Some (r, s') => Some (k r, s') | None => None end | _ => None end.
Definition answer {A} (q : prog A) (x : option (list Z)) : option (prog A) := match q with Ask _ k => Some (k x) | _ => None end.
Definition step (c : choice) (y : Sys) : option Sys :=
  match c with
  | Begin c => match begin c (state y) with Some (q, s) => Some (mkSys s (procs y ++ [q])) | None => None end
  | Run i n =>
    match procs y !! i with
    | Some q => match runNth q n (state y) with Some (q, s) => Some (mkSys s (<[i := q]> (procs y))) | None => None end
    | None => None
    end
  | Answer i x =>
    match procs y !! i with
    | Some q => match answer q x with Some q => Some (mkSys (state y) (<[i := q]> (procs y))) | None => None end
    | None => None
    end
  | Change c => match changed c (state y) with Some s => Some (mkSys s (procs y)) | None => None end
  end.
Definition boot : Sys := mkSys newMediaSender [].
Fixpoint exec (cs : list choice) (y : Sys) : option Sys :=
  match cs with [] => Some y | c :: cs => match step c y with Some y => exec cs y | None => None end end.
End Service.
End Sender.
