(* ===== verification/TransportOutput.v ===== *)
(** * A transport's destinations, and the background mixed in

    [src/transport/output.go]: the shape of the audio settled at set-up, the senders made
    for the destinations that open, and which sender a frame goes to.
    [src/audio/mixer/mixer.go]: the background sound mixed into outgoing audio. *)

From S2P Require Import Prelude Float64 Strings Prog Recording.
From S2P Require Import MediaSender.
From Stdlib Require Import ZArith SpecFloat Lia.

(** ** Destinations *)

Module Output.

Definition defaultDestination : gostring := [].
Definition defaultOut10msChunks : Z := 4.
(** A mixer by a number of its own; [None] is the nil one. *)
Record Params := mkParams {
  AudioOutEnabled : bool; AudioOutSampleRate : Z; AudioOutChannels : Z; AudioOut10msChunks : Z; AudioOutEndSilenceSecs : Z;
  AudioOutMixer : option nat; AudioOutMixers : gmap gostring (option nat); AudioOutDestinations : list gostring
}.
Record BaseOutput := mkOutput { params : Params; sampleRate : Z; channels : Z; chunkSize : Z; senders : gmap gostring Sender.Params }.
#[export] Instance eta_BaseOutput : Eta BaseOutput := fun o => mkOutput (params o) (sampleRate o) (channels o) (chunkSize o) (senders o).
Definition NewBaseOutput (ps : Params) : BaseOutput := mkOutput ps 0 0 0 ∅.
Definition pick (configured fallback : Z) : Z := if Z.eqb configured 0 then fallback else configured.

Section Transport.
(** Whether the media path opens, whether a destination does, and which messages the wire
    has no use for, are the transport's. *)
Context (StartWriting : bool) (RegisterAudioDestination : gostring -> bool) (IgnoresMessage : nat -> bool).

Definition Setup (pipelineRate : Z) (o : BaseOutput) : BaseOutput :=
  let rate := pick (AudioOutSampleRate (params o)) pipelineRate in
  let ch := pick (AudioOutChannels (params o)) 1 in
  o <| sampleRate := rate |> <| channels := ch |>
    <| chunkSize := (Z.quot rate 100 * ch * 2 * pick (AudioOut10msChunks (params o)) defaultOut10msChunks)%Z |>.
Definition mixerFor (d : gostring) (o : BaseOutput) : option nat :=
  match AudioOutMixers (params o) !! d with
  | Some m => m
  | None => if decide (d = defaultDestination) then AudioOutMixer (params o) else None
  end.
Definition senderOf (o : BaseOutput) (d : gostring) : Sender.Params :=
  Sender.mkParams (AudioOutEnabled (params o)) (sampleRate o) (channels o) (Z.to_nat (chunkSize o))
    (match mixerFor d o with Some _ => true | None => false end) (AudioOutEndSilenceSecs (params o)).

Inductive frame :=
| StartFrame | EndFrame | CancelFrame | InterruptionFrame (destination : gostring)
| OutputDTMFUrgentFrame (n : nat) | OutputTransportMessageUrgentFrame (n : nat)
| SystemFrame (n : nat)
| MixerControlFrame (n : nat) (destination : gostring)
| OtherFrame (f : Sender.frame) (pts : option Z) (destination : gostring).
Inductive act :=
| Push (f : frame) (downstream : bool) | Ready
| Starts (d : gostring) | ToSender (d : gostring) (c : Sender.call)
| WriteDTMF (n : nat) | SendMessage (n : nat)
| PushError (fatal : bool) | NotRegistered.

(** The destinations named besides the default one, each opened or given up. *)
Fixpoint register (ds : list gostring) : list gostring * list act :=
  match ds with
  | [] => ([], [])
  | d :: ds =>
    let '(ok, errs) := register ds in
    if decide (d = defaultDestination) then (ok, errs)
    else if RegisterAudioDestination d then (d :: ok, errs) else (ok, PushError false :: errs)
  end.
Definition setTransportReady (o : BaseOutput) : list act * BaseOutput :=
  let '(ds, errs) := register (AudioOutDestinations (params o)) in
  let o := o <| senders := list_to_map (List.map (fun d => (d, senderOf o d)) (defaultDestination :: ds)) |> in
  (errs ++ List.map (fun d => Starts d) (List.map fst (map_to_list (senders o))), o).
Definition startStreaming (o : BaseOutput) : list act * BaseOutput :=
  if StartWriting then setTransportReady o else ([PushError true], o).
(** In some order. *)
Definition eachSender (c : Sender.call) (o : BaseOutput) : list act := List.map (fun d => ToSender d c) (List.map fst (map_to_list (senders o))).
Definition senderFor (d : gostring) (o : BaseOutput) : bool := bool_decide (is_Some (senders o !! d)).
Definition sendTransportMessage (n : nat) : list act := if IgnoresMessage n then [] else [SendMessage n].
Definition handleFrame (f : frame) (o : BaseOutput) : list act :=
  let to d c := if senderFor d o then [ToSender d c] else [NotRegistered] in
  match f with
  | MixerControlFrame n d => to d (Sender.HandleControl n)
  | OtherFrame f pts d => to d (Sender.HandleFrame f pts)
  | _ => []
  end.
(** What one frame makes the output do. *)
Definition ProcessFrame (f : frame) (downstream : bool) (o : BaseOutput) : list act * BaseOutput :=
  match f with
  | StartFrame => let '(a, o) := startStreaming o in (Push f downstream :: a ++ [Ready], o)
  | EndFrame => (eachSender Sender.HandleEnd o ++ [Push f downstream], o)
  | CancelFrame => (eachSender Sender.HandleCancel o ++ [Push f downstream], o)
  | InterruptionFrame d => (Push f downstream :: (if senderFor d o then [ToSender d Sender.HandleInterruption] else [NotRegistered]), o)
  | OutputDTMFUrgentFrame n => ([WriteDTMF n], o)
  | OutputTransportMessageUrgentFrame n => (sendTransportMessage n, o)
  | SystemFrame _ => ([Push f downstream], o)
  | MixerControlFrame _ _ | OtherFrame _ _ _ => (if downstream then handleFrame f o else [Push f downstream], o)
  end.

(** *** What holds of it *)

(** A frame that names a destination reaches that sender and no other. *)
Definition destinationOf (f : frame) : option gostring :=
  match f with InterruptionFrame d | MixerControlFrame _ d | OtherFrame _ _ d => Some d | _ => None end.
Lemma destinations_apart f down o d c : ToSender d c ∈ (ProcessFrame f down o).1 -> destinationOf f = Some d /\ is_Some (senders o !! d) \/ f = EndFrame \/ f = CancelFrame \/ f = StartFrame.
Proof.
  intros Hin. destruct f; cbn [ProcessFrame fst destinationOf] in *; auto.
  - left. apply elem_of_cons in Hin as [?|Hin]; [done|]. unfold senderFor in Hin. case_bool_decide; apply list_elem_of_singleton in Hin; [|done]. by simplify_eq.
  - by apply list_elem_of_singleton in Hin.
  - unfold sendTransportMessage in Hin. destruct (IgnoresMessage n); [by apply not_elem_of_nil in Hin|by apply list_elem_of_singleton in Hin].
  - by apply list_elem_of_singleton in Hin.
  - left. destruct down; [|by apply list_elem_of_singleton in Hin]. cbn in Hin. unfold senderFor in Hin. case_bool_decide; apply list_elem_of_singleton in Hin; [|done]. by simplify_eq.
  - left. destruct down; [|by apply list_elem_of_singleton in Hin]. cbn in Hin. unfold senderFor in Hin. case_bool_decide; apply list_elem_of_singleton in Hin; [|done]. by simplify_eq.
Qed.
(** The senders are those of the destinations that opened, and the default one. *)
Lemma register_opens ds d : d ∈ (register ds).1 <-> d ∈ ds /\ d <> defaultDestination /\ RegisterAudioDestination d = true.
Proof.
  induction ds as [|e ds IH]; cbn [register]; [set_solver|]. destruct (register ds) as [ok errs]. cbn [fst] in IH. case_decide as He; cbn [fst]; [set_solver|].
  destruct (RegisterAudioDestination e) eqn:Ee; cbn [fst]; [set_solver|]. rewrite IH. split; [set_solver|]. intros (Hin & Hne & Hr). apply elem_of_cons in Hin as [->|Hin]; [congruence|done].
Qed.
Theorem senders_made o d : is_Some (senders (setTransportReady o).2 !! d) <->
  d = defaultDestination \/ d ∈ AudioOutDestinations (params o) /\ RegisterAudioDestination d = true.
Proof.
  unfold setTransportReady. pose proof (register_opens (AudioOutDestinations (params o)) d) as Hr. destruct (register _) as [ok errs]. cbn [fst snd senders] in *.
  set (l := defaultDestination :: ok). assert (forall l, (List.map (fun d => (d, senderOf o d)) l).*1 = l) as E by (intros k; induction k as [|x k IH]; cbn; by rewrite ?IH).
  change (is_Some ((list_to_map (List.map (fun d => (d, senderOf o d)) l) : gmap gostring Sender.Params) !! d) <-> d = defaultDestination \/ d ∈ AudioOutDestinations (params o) /\ RegisterAudioDestination d = true).
  rewrite <- elem_of_dom, dom_list_to_map_L, elem_of_list_to_set, E. unfold l. rewrite elem_of_cons, Hr.
  split; [intros [->|(H & _ & Ho)]; auto|]. intros [->|[H Ho]]; [by left|]. destruct (decide (d = defaultDestination)); auto.
Qed.
(** A chunk is a whole number of samples of every channel. *)
Lemma chunk_whole o rate : (2 * channels (Setup rate o) | chunkSize (Setup rate o))%Z.
Proof.
  exists (Z.quot (sampleRate (Setup rate o)) 100 * pick (AudioOut10msChunks (params o)) defaultOut10msChunks)%Z. unfold Setup. cbn.
  generalize (Z.quot (pick (AudioOutSampleRate (params o)) rate) 100) (pick (AudioOutChannels (params o)) 1) (pick (AudioOut10msChunks (params o)) defaultOut10msChunks). intros a b c. lia.
Qed.
End Transport.
End Output.

(** ** The background *)

Module Background.
Local Open Scope Z_scope.

Record Sound := mkSound { PCM : list Z; SampleRate : Z }.
Record Config := mkConfig { Sounds : gmap gostring Sound; Default : gostring; Volume : f64; StartDisabled : bool; NoLoop : bool }.
Record B := mkB { sounds : gmap gostring (list Z); current : gostring; pos : Z; volume : f64; enabled : bool; loop : bool; cfg : Config }.
#[export] Instance eta_B : Eta B := fun b => mkB (sounds b) (current b) (pos b) (volume b) (enabled b) (loop b) (cfg b).
Definition defaultVolume : f64 := f64_lit 4 10.
Definition NewBackground (c : Config) : B :=
  mkB ∅ (Default c) 0 (if SFeqb (Volume c) f64_zero then defaultVolume else Volume c) (negb (StartDisabled c)) (negb (NoLoop c)) c.
Definition Start (rate : Z) (m : B) : B :=
  m <| sounds := PCM <$> filter (fun x => SampleRate x.2 = 0 \/ SampleRate x.2 = rate) (Sounds (cfg m)) |> <| pos := 0 |>.
Definition clamp (v : f64) : Z :=
  if f64_ltb (f64_of_Z 32767) v then 32767 else if f64_ltb v (f64_of_Z (-32768)) then -32768 else to_int (f64_trunc v).
Definition mixed (vol : f64) (pcm chunk : list Z) : list Z :=
  flat_map (fun i => Pcm.putSample (clamp (f64_add (f64_of_Z (Pcm.sampleAt pcm i)) (f64_mul (f64_of_Z (Pcm.sampleAt chunk i)) vol)))) (Pcm.steps (length chunk)).
Definition Mix (pcm : list Z) (m : B) : list Z * B :=
  match sounds m !! current m with
  | None => (pcm, m)
  | Some sound =>
    let len := Z.of_nat (length sound) in
    let n := (length pcm - length pcm mod 2)%nat in
    if negb (enabled m) || (len <? 2) then (pcm, m)
    else if Nat.eqb n 0 then (pcm, m)
    else if (len <? pos m + Z.of_nat n) && negb (loop m) then (pcm, m)
    else
      let m := if len <? pos m + Z.of_nat n then m <| pos := 0 |> else m in
      if len <? pos m + Z.of_nat n then (pcm, m)
      else (mixed (volume m) pcm (List.firstn n (List.skipn (Z.to_nat (pos m)) sound)), m <| pos ::= Z.add (Z.of_nat n) |>)
  end.
Definition changeSound (name : gostring) (m : B) : B :=
  if bool_decide (is_Some (sounds m !! name)) then m <| current := name |> <| pos := 0 |> else m.
(** The settings an update names, each if it is of its type. *)
Record Settings := mkSettings { sound_ : option gostring; volume_ : option f64; loop_ : option bool }.
Definition updateSettings (s : Settings) (m : B) : B :=
  let m := match sound_ s with Some n => changeSound n m | None => m end in
  let m := match volume_ s with Some v => m <| volume := v |> | None => m end in
  match loop_ s with Some l => m <| loop := l |> | None => m end.
Inductive frame := MixerUpdateSettingsFrame (s : Settings) | MixerEnableFrame (on : bool).
Definition ProcessFrame (f : frame) (m : B) : B :=
  match f with MixerUpdateSettingsFrame s => updateSettings s m | MixerEnableFrame b => m <| enabled := b |> end.

(** *** What holds of it *)

Inductive op := OpStart (rate : Z) | OpMix (pcm : list Z) | OpFrame (f : frame).
Definition did (o : op) (m : B) : B := match o with OpStart r => Start r m | OpMix pcm => (Mix pcm m).2 | OpFrame f => ProcessFrame f m end.
(** Where the sound has got to is a sample of it, or its end. *)
Definition placed (m : B) : Prop :=
  0 <= pos m /\ Z.even (pos m) = true /\ pos m <= Z.of_nat (length (match sounds m !! current m with Some s => s | None => [] end)).
Lemma even_part (pcm : list Z) : Z.even (Z.of_nat (length pcm - length pcm mod 2)) = true.
Proof.
  pose proof (Nat.div_mod (length pcm) 2 ltac:(done)) as E. replace (length pcm - length pcm mod 2)%nat with (2 * (length pcm / 2))%nat by lia.
  rewrite Nat2Z.inj_mul, Z.even_mul. done.
Qed.
Lemma mixed_length vol pcm chunk : length (mixed vol pcm chunk) = (2 * (length chunk / 2))%nat.
Proof. unfold mixed. assert (length (Pcm.steps (length chunk)) = (length chunk / 2)%nat) as <- by (unfold Pcm.steps; by rewrite length_map, length_seq). induction (Pcm.steps _); cbn; lia. Qed.
(** Left alone, or mixed from where the sound has got to or from its beginning. *)
Lemma Mix_ways pcm m : Mix pcm m = (pcm, m) \/ exists sound m1, sounds m !! current m = Some sound /\ (m1 = m \/ m1 = m <| pos := 0 |>) /\
  let n := (length pcm - length pcm mod 2)%nat in
  (Mix pcm m = (pcm, m1) \/ pos m1 + Z.of_nat n <= Z.of_nat (length sound)
    /\ Mix pcm m = (mixed (volume m1) pcm (List.firstn n (List.skipn (Z.to_nat (pos m1)) sound)), m1 <| pos ::= Z.add (Z.of_nat n) |>)).
Proof.
  unfold Mix. destruct (sounds m !! current m) as [sound|]; [|by left]. set (n := (length pcm - length pcm mod 2)%nat). destruct (negb (enabled m) || _); [by left|].
  destruct (Nat.eqb n 0); [by left|]. destruct (Z.ltb_spec (Z.of_nat (length sound)) (pos m + Z.of_nat n)) as [Hlt|Hge]; cbn [andb].
  - destruct (loop m); cbn [negb]; [right|by left]. exists sound, (m <| pos := 0 |>). split_and!; [done|by right|].
    destruct (Z.ltb_spec (Z.of_nat (length sound)) (pos (m <| pos := 0 |>) + Z.of_nat n)) as [?|?]; [by left|by right].
  - right. exists sound, m. split_and!; [done|by left|]. right. split; [done|]. destruct (Z.ltb_spec (Z.of_nat (length sound)) (pos m + Z.of_nat n)) as [?|?]; [lia|done].
Qed.
Lemma placed_rewound m m1 : placed m -> m1 = m \/ m1 = m <| pos := 0 |> -> placed m1.
Proof. intros Hm [-> | ->]; [done|]. split_and!; cbn; [lia|done|lia]. Qed.
Lemma placed_did o m : placed m -> placed (did o m).
Proof.
  intros Hm. destruct o as [r|pcm|f]; cbn [did].
  - split_and!; cbn; [lia|done|lia].
  - destruct (Mix_ways pcm m) as [->|(sound & m1 & Es & Hc & [->|[Hle ->]])]; [done|by eapply placed_rewound|].
    destruct (placed_rewound m m1 Hm Hc) as (P0 & Pe & _). split_and!; cbn -[Nat.modulo]; [lia|by rewrite Z.even_add, even_part, Pe|].
    assert (sounds m1 !! current m1 = Some sound) as -> by (by destruct Hc as [-> | ->]). lia.
  - destruct f as [[n v l]|b]; cbn [ProcessFrame updateSettings sound_ volume_ loop_]; [|exact Hm].
    assert (placed (match n with Some n => changeSound n m | None => m end)) as Hn.
    { destruct n as [n|]; [|done]. unfold changeSound. case_bool_decide; [split_and!; cbn; [lia|done|lia]|done]. }
    destruct n as [n|], v as [v|], l as [l|]; exact Hn.
Qed.
(** Whatever is asked of it, and in whatever order, the mixer never reads beyond its sound
    nor between samples, and gives back what it was given or as many whole samples. *)
Theorem background_in_place c ops pcm : let m := fold_left (fun m o => did o m) ops (NewBackground c) in
  placed m /\ ((Mix pcm m).1 = pcm \/ length (Mix pcm m).1 = (2 * (length pcm / 2))%nat).
Proof.
  intros m. assert (placed m) as Hm.
  { subst m. assert (placed (NewBackground c)) as H0 by (split_and!; cbn; [lia|done|lia]). revert H0. generalize (NewBackground c).
    induction ops as [|o ops IH]; intros m Hm; [done|]. cbn. apply IH. by apply placed_did. }
  clearbody m. split; [done|]. destruct (Mix_ways pcm m) as [->|(sound & m1 & Es & Hc & [->|[Hle ->]])]; [by left..|right]. cbn [fst].
  destruct (placed_rewound m m1 Hm Hc) as (P0 & _ & _). rewrite mixed_length, length_firstn, length_skipn. pose proof (Nat.div_mod (length pcm) 2 ltac:(done)).
  replace (Nat.min _ _) with (length pcm / 2 * 2)%nat by lia. by rewrite Nat.div_mul.
Qed.
End Background.
