(* ===== verification/MediaAudio.v ===== *)
(** * What becomes of the audio given to a transport

    That buffered audio is dropped only for a reason, each drop for one of its own; that
    a turn's end finds all it was given cut and on its way; and that nothing cut goes
    nowhere once the sender was started.  [MediaFacts.v] has what this comes to. *)

From S2P Require Import Prelude Float64 Text Strings Prog Recording.
From S2P Require Import MediaSender.
Import Prog Sender.

Module MediaAudio.
Local Open Scope prog_scope.

(** ** What a log says *)

Definition audios (l : list frame) : list frame := List.filter (fun f => match f with OutputAudio _ _ _ _ => true | _ => false end) l.
Definition given (l : list event) : list Z := flat_map (fun e => match e with Given b => b | _ => [] end) l.
Definition consumed (l : list event) : list Z := flat_map (fun e => match e with Cut b _ _ => b | Dropped b => b | _ => [] end) l.
(** The chunks cut, each with the queue it is for, if there is one. *)
Definition chunksCut (l : list event) : list (frame * option nat) := flat_map (fun e => match e with Cut _ f out => [(f, out)] | _ => [] end) l.
(** What became of them: queued, or given up where there is no queue. *)
Definition fates (l : list event) : list (frame * option nat) :=
  flat_map (fun e => match e with
    | Queued l (Item f) => List.map (fun f => (f, Some l)) (audios [f])
    | Panicked (Item f) | Unpaced f => List.map (fun f => (f, None)) (audios [f])
    | _ => [] end) l.
Definition one (b : bool) : nat := if b then 1 else 0.
Definition count (q : event -> bool) (l : list event) : nat := length (List.filter q l).
Definition drops : list event -> nat := count (fun e => match e with Dropped _ => true | _ => false end).
(** The bot gave up the floor, or was interrupted. *)
Definition reasons : list event -> nat := count (fun e => match e with Floor false | BargeIn => true | _ => false end).
Definition restarts : list event -> nat := count (fun e => match e with Restarted _ => true | _ => false end).
(** What goes on downstream without having been queued: with nothing that paces, or by the
    clock queue. *)
Definition bypasses (e : event) : option frame := match e with PassedOn f | ClockPushed _ f => Some f | _ => None end.
(** A turn ends behind what was given of it; so does the session. *)
Definition turnEnd (e : event) : bool :=
  match e with Queued _ (Item (TTSStoppedFrame _)) | PassedOn (TTSStoppedFrame _) | Queued _ drainMarker => true | _ => false end.
(** What may be said after [l]. *)
Definition fitting (l : list event) (e : event) : Prop :=
  match e with Cut _ _ None => restarts l = 0 | _ => True end
  /\ (turnEnd e = true -> given l = consumed l /\ chunksCut l = fates l)
  /\ match bypasses e with Some f => audios [f] = [] | None => True end.
Definition always (P : list event -> event -> Prop) (l : list event) : Prop := forall l1 e l2, l = l1 ++ e :: l2 -> P l1 e.

#[global] Arguments given : simpl never.
#[global] Arguments consumed : simpl never.
#[global] Arguments chunksCut : simpl never.
#[global] Arguments fates : simpl never.
#[global] Arguments drops : simpl never.
#[global] Arguments reasons : simpl never.
#[global] Arguments restarts : simpl never.

Lemma audio_count_app q a b : count q (a ++ b) = count q a + count q b.
Proof. unfold count. by rewrite List.filter_app, length_app. Qed.
Lemma audio_count_one q e : count q [e] = one (q e).
Proof. unfold count. cbn. by destruct (q e). Qed.
Lemma always_snoc P l e : always P l -> P l e -> always P (l ++ [e]).
Proof.
  intros Hl He l1 x l2 E. destruct l2 as [|y l2 _] using rev_ind.
  - by apply app_inj_tail in E as [-> ->].
  - rewrite app_comm_cons, app_assoc in E. apply app_inj_tail in E as [-> _]. by eapply Hl.
Qed.

(** Nothing that goes by the queue is audio. *)
Lemma always_bypasses l : always fitting l -> audios (omap bypasses l) = [].
Proof.
  intros Hl. assert (forall f, f ∈ omap bypasses l -> audios [f] = []) as H.
  { intros f (e & He & Hb)%list_elem_of_omap. apply list_elem_of_split in He as (l1 & l2 & ->). destruct (Hl _ _ _ eq_refl) as (_ & _ & Hf). by rewrite Hb in Hf. }
  clear Hl. induction (omap bypasses l) as [|f fs IH]; [done|]. change (f :: fs) with ([f] ++ fs). unfold audios. rewrite List.filter_app.
  fold (audios [f]) (audios fs). rewrite H by by left. apply IH. intros g Hg. apply H. by right.
Qed.

(** What one more event says. *)
Definition givenBy e := match e with Given b => b | _ => [] end.
Definition consumedBy e := match e with Cut b _ _ => b | Dropped b => b | _ => [] end.
Definition cutBy e := match e with Cut _ f out => [(f, out)] | _ => [] end.
Definition fateBy e := match e with
  | Queued l (Item f) => List.map (fun f => (f, Some l)) (audios [f])
  | Panicked (Item f) | Unpaced f => List.map (fun f => (f, None)) (audios [f])
  | _ => [] end.
Lemma log_says l e : given (l ++ [e]) = given l ++ givenBy e /\ consumed (l ++ [e]) = consumed l ++ consumedBy e
  /\ chunksCut (l ++ [e]) = chunksCut l ++ cutBy e /\ fates (l ++ [e]) = fates l ++ fateBy e
  /\ drops (l ++ [e]) = drops l + match e with Dropped _ => 1 | _ => 0 end
  /\ reasons (l ++ [e]) = reasons l + match e with Floor false | BargeIn => 1 | _ => 0 end
  /\ restarts (l ++ [e]) = restarts l + match e with Restarted _ => 1 | _ => 0 end.
Proof.
  unfold given, consumed, chunksCut, fates, drops, reasons, restarts. rewrite !flat_map_app, !audio_count_app, !audio_count_one. cbn [flat_map].
  rewrite !app_nil_r. split_and!; try done; destruct e as [| | | | | | | | | |[]| | | | | | | | | | | | | |]; done.
Qed.

Section Audio.
Context (p : Params).

(** ** What every goroutine keeps *)

Definition started (s : S_) : nat := match audioOut s with Some _ => 1 | None => 0 end.
(** What a goroutine has to itself: the drops it has a reason for and is still to make; the
    handler of frames in order, the chunks it has cut and not queued, and whether it knows
    the buffer to be empty. *)
Record role := mkRole { owed : nat; lane : list (list (frame * option nat) * bool) }.
Definition both (v w : role) : role := mkRole (owed v + owed w) (lane v ++ lane w).
Definition nothing : role := mkRole 0 [].
Definition inLane (q : list (list (frame * option nat) * bool)) (s : S_) : Prop :=
  if handling s then exists c b, q = [(c, b)] /\ chunksCut (log s) = fates (log s) ++ c /\ (b = true -> buffer s = [])
  else q = [] /\ chunksCut (log s) = fates (log s).
Record good (own : role) (s : S_) : Prop := {
  g_bytes : given (log s) = consumed (log s) ++ buffer s;
  g_drops : drops (log s) + owed own <= reasons (log s) + started s;
  g_lane : inLane (lane own) s;
  g_ctx : audioCtx s = audioOut s;
  g_starts : audioOut s = None -> restarts (log s) = 0;
  g_size : chunkSize p = 0 -> buffer s = [];
  g_fitting : always fitting (log s)
}.
Definition knows (v : role) (s : S_) : Prop := exists rest, good (both v rest) s.
Definition turn (v : role) (s s' : S_) (v' : role) : Prop := forall rest, good (both v rest) s -> good (both v' rest) s'.
Local Abbreviation plays q P v := (takes knows turn q P v).

(** Events that are nothing of the above. *)
Definition plainItem (i : item) : bool := match i with Item (OutputAudio _ _ _ _) | Item (TTSStoppedFrame _) | drainMarker => false | _ => true end.
Definition plain (e : event) : bool :=
  match e with
  | Given _ | Cut _ _ _ | Dropped _ | BargeIn | Floor false | Unpaced _ | Restarted _ => false
  | Queued _ i | Panicked i => plainItem i
  | PassedOn f | ClockPushed _ f => plainItem (Item f)
  | _ => true
  end.
Lemma audio_plain_says l e : plain e = true -> given (l ++ [e]) = given l /\ consumed (l ++ [e]) = consumed l /\ chunksCut (l ++ [e]) = chunksCut l
  /\ fates (l ++ [e]) = fates l /\ drops (l ++ [e]) = drops l /\ reasons (l ++ [e]) = reasons l /\ restarts (l ++ [e]) = restarts l /\ fitting l e.
Proof.
  intros He. destruct (log_says l e) as (-> & -> & -> & -> & -> & -> & ->). unfold fitting.
  destruct e as [| | | |? [[]|]| |[[]|]| | | |[]| | | | | | | | |[]|? []| | | |]; try done; cbn; rewrite ?app_nil_r, ?Nat.add_0_r; by split_and!.
Qed.
Record calm (s s' : S_) : Prop := {
  c_log : exists tr, log s' = log s ++ tr /\ Forall (fun e => plain e = true) tr;
  c_buffer : buffer s' = buffer s;
  c_out : audioOut s' = audioOut s;
  c_ctx : audioCtx s' = audioCtx s;
  c_handling : handling s' = handling s
}.
Lemma audio_calm_turn v s s' : calm s s' -> turn v s s' v.
Proof.
  intros [(tr & El & Ht) C1 C2 C3 C4] rest [G1 G2 G3 G4 G5 G6 G7]. unfold started, inLane in *.
  assert (given (log s') = given (log s) /\ consumed (log s') = consumed (log s) /\ chunksCut (log s') = chunksCut (log s) /\ fates (log s') = fates (log s)
    /\ drops (log s') = drops (log s) /\ reasons (log s') = reasons (log s) /\ restarts (log s') = restarts (log s) /\ always fitting (log s')) as (E1 & E2 & E3 & E4 & E5 & E6 & E7 & E8).
  { rewrite El. clear -Ht G7. induction tr as [|e tr IH] using rev_ind; [by rewrite app_nil_r|]. apply Forall_app in Ht as [Ht He]. inversion He; subst.
    rewrite app_assoc. destruct (IH Ht) as (I1 & I2 & I3 & I4 & I5 & I6 & I7 & I8). destruct (audio_plain_says (log s ++ tr) e) as (-> & -> & -> & -> & -> & -> & -> & Hf); [done|].
    split_and!; try done. by apply always_snoc. }
  split; unfold started, inLane; rewrite ?C1, ?C2, ?C3, ?C4, ?E1, ?E2, ?E3, ?E4, ?E5, ?E6, ?E7; done.
Qed.
Lemma audio_calm_refl s : calm s s.
Proof. split; try done. exists []. by rewrite app_nil_r. Qed.
Lemma audio_calm_emit e s : plain e = true -> calm s (emit e s).
Proof. intros He. split; try done. exists [e]. split; [done|by repeat constructor]. Qed.

Definition quiet {A} (q : Prog.prog S_ question (option (list Z)) A) : Prop := forall v, plays q (fun _ v' => v' = v) v.
Lemma audio_quiet_ret {A} (a : A) : quiet (Ret a).
Proof. by intros v. Qed.
Lemma quiet_ask u : quiet (ask u).
Proof. by intros v x. Qed.
Lemma audio_quiet_bind {A B} (q : Prog.prog S_ question (option (list Z)) A) (k : A -> Prog.prog S_ question (option (list Z)) B) : quiet q -> (forall a, quiet (k a)) -> quiet (bind q k).
Proof. intros Hp Hk v. eapply takes_seq; [apply Hp|]. intros a v' ->. apply Hk. Qed.
Lemma audio_quiet_act {A} (f : S_ -> list (A * S_)) : (forall s r s', In (r, s') (f s) -> calm s s') -> quiet (Act f Ret).
Proof. intros H v s r s' Hin _. exists v. split; [by eapply audio_calm_turn, H|done]. Qed.
Lemma audio_quiet_one {A} (f : S_ -> A * S_) : (forall s, calm s (f s).2) -> quiet (act f).
Proof. intros H. apply audio_quiet_act. intros s r s' [E|[]]. specialize (H s). by rewrite E in H. Qed.
Lemma audio_quiet_do f : (forall s, calm s (f s)) -> quiet (do_ f).
Proof. intros H. apply audio_quiet_act. intros s r s' [[= <- <-]|[]]. apply H. Qed.
Lemma audio_quiet_get {A} (f : S_ -> A) : quiet (get f).
Proof. apply audio_quiet_act. intros s r s' [[= <- <-]|[]]. apply audio_calm_refl. Qed.
Lemma audio_quiet_log e : plain e = true -> quiet (log_ e).
Proof. intros He. apply audio_quiet_do. intros s. by apply audio_calm_emit. Qed.
Lemma audio_quiet_when b q : quiet q -> quiet (when b q).
Proof. destruct b; [done|intros _; apply audio_quiet_ret]. Qed.
Lemma audio_quiet_await b : quiet (await b).
Proof. apply audio_quiet_act. intros s r s' Hin. destruct (b s); [|done]. destruct Hin as [[= <- <-]|[]]. apply audio_calm_refl. Qed.
Ltac same := intros; split; try done; exists []; by rewrite app_nil_r.
Ltac calmly := intros; repeat case_match; cbn [fst snd]; first [apply audio_calm_refl|by apply audio_calm_emit|same|split; try done; eexists [_]; split; [reflexivity|by repeat constructor]].
Ltac quieten := repeat first
  [ apply audio_quiet_ret | apply quiet_ask | apply audio_quiet_get | apply audio_quiet_await | apply audio_quiet_log; reflexivity | apply audio_quiet_when
  | apply audio_quiet_do; solve [calmly] | apply audio_quiet_one; solve [calmly] | apply audio_quiet_bind; [|intros ?]
  | match goal with |- quiet (match ?x with _ => _ end) => destruct x end ].

Ltac says l e := let S1 := fresh "LS" in let S2 := fresh "LS" in let S3 := fresh "LS" in let S4 := fresh "LS" in let S5 := fresh "LS" in let S6 := fresh "LS" in let S7 := fresh "LS" in
  destruct (log_says l e) as (S1 & S2 & S3 & S4 & S5 & S6 & S7); rewrite ?S1, ?S2, ?S3, ?S4, ?S5, ?S6, ?S7.

(** ** Drops *)

Lemma turn_reason v e s s' : e = Floor false \/ e = BargeIn -> log s' = log s ++ [e] -> buffer s' = buffer s -> audioOut s' = audioOut s -> audioCtx s' = audioCtx s ->
  handling s' = handling s -> turn v s s' (mkRole (S (owed v)) (lane v)).
Proof.
  intros He El C1 C2 C3 C4 rest [G1 G2 G3 G4 G5 G6 G7]. unfold started, inLane in *.
  split; unfold started, inLane; rewrite ?El, ?C1, ?C2, ?C3, ?C4; [..|apply always_snoc; [done|by destruct He as [-> | ->]]];
    says (log s) e; destruct He as [-> | ->]; cbn in *; rewrite ?app_nil_r, ?Nat.add_0_r; try done; lia.
Qed.
Lemma turn_drop v s : turn (mkRole (S (owed v)) (lane v)) s (dropBuffer s) v.
Proof.
  intros rest [G1 G2 G3 G4 G5 G6 G7]. unfold started, inLane in *. assert (log (dropBuffer s) = log s ++ [Dropped (buffer s)]) as El by done.
  split; unfold started, inLane; rewrite ?El; [..|by apply always_snoc];
    says (log s) (Dropped (buffer s)); cbn in *; rewrite ?app_nil_r, ?Nat.add_0_r; try done; [lia|].
  destruct (handling s); [|done]. destruct G3 as (c & b & H1 & H2 & H3). by exists c, b.
Qed.
Lemma audio_quiet_botStoppedSpeaking : quiet botStoppedSpeaking.
Proof.
  intros v. apply takes_act. intros s _. destruct (botSpeaking s); cbn [fst snd].
  - exists (mkRole (S (owed v)) (lane v)). split; [apply (turn_reason v (Floor false)); auto|]. intros s1 r s1' [[= <- <-]|[]] _. exists v. split; [apply turn_drop|done].
  - exists v. split; [apply audio_calm_turn, audio_calm_refl|done].
Qed.
Lemma audio_quiet_bargeIn : quiet (do_ (fun s => dropBuffer (emit BargeIn s))).
Proof.
  intros v s r s' [[= <- <-]|[]] _. exists v. split; [|done]. intros rest Hg. apply turn_drop. by apply (turn_reason v BargeIn s); auto.
Qed.

(** ** Audio in *)

Definition having (c : list (frame * option nat)) (b : bool) : role := mkRole 0 [(c, b)].
(** The handler in order logs what is its own. *)
Lemma turn_lane e s s' c b c' b' : (knows (having c b) s -> fitting (log s) e) -> log s' = log s ++ [e] -> audioOut s' = audioOut s -> audioCtx s' = audioCtx s -> handling s' = handling s ->
  match e with Given _ | Dropped _ | BargeIn | Floor _ | Restarted _ => False | _ => True end -> buffer s = consumedBy e ++ buffer s' ->
  fateBy e ++ c' = c ++ cutBy e -> (b' = true -> b = true \/ buffer s' = []) -> turn (having c b) s s' (having c' b').
Proof.
  intros Hf El C2 C3 C4 He Hb Hc Hb' rest HG. specialize (Hf (ex_intro _ rest HG)). destruct HG as [G1 G2 G3 G4 G5 G6 G7]. unfold started, inLane in *.
  assert (buffer s = [] -> buffer s' = []) as Hnil by (intros E; rewrite E in Hb; symmetry in Hb; by apply app_nil in Hb as [_ ?]).
  split; unfold started, inLane; rewrite ?El, ?C2, ?C3, ?C4; [..|by apply always_snoc];
    says (log s) e.
  - rewrite G1, Hb. destruct e; try done; cbn; by rewrite ?app_nil_r, <- ?app_assoc.
  - cbn [both having owed] in *. destruct e; try done; rewrite ?Nat.add_0_r; done.
  - cbn [both having lane] in *. destruct (handling s); [|by destruct G3]. destruct G3 as (c0 & b0 & [= <- <- Hr] & H2 & H3). rewrite Hr. exists c', b'.
    split_and!; [done|by rewrite H2, <- !app_assoc, Hc|]. intros Ht. destruct (Hb' Ht) as [Hbt|?]; [auto|done].
  - done.
  - intros Hn. rewrite G5 by done. by destruct e.
  - auto.
Qed.
Lemma lane_knows c b s : knows (having c b) s -> chunksCut (log s) = fates (log s) ++ c /\ (b = true -> buffer s = [])
  /\ given (log s) = consumed (log s) ++ buffer s /\ (audioOut s = None -> restarts (log s) = 0) /\ audioCtx s = audioOut s /\ (chunkSize p = 0 -> buffer s = []).
Proof.
  intros [rest [G1 G2 G3 G4 G5 G6 G7]]. unfold inLane in G3. cbn [both having lane] in G3. destruct (handling s); [|by destruct G3].
  destruct G3 as (c0 & b0 & [= <- <- _] & H2 & H3). by split_and!.
Qed.
Lemma turn_empty c b s : buffer s = [] -> turn (having c b) s s (having c true).
Proof.
  intros Hb rest [G1 G2 G3 G4 G5 G6 G7]. split; try done. unfold inLane in *. cbn [both having lane] in *. destruct (handling s); [|by destruct G3].
  destruct G3 as (c0 & b0 & [= <- <- Hr] & H2 & H3). rewrite Hr. by exists c, true.
Qed.
Lemma turn_trans v1 v2 v3 s1 s2 s3 : turn v1 s1 s2 v2 -> turn v2 s2 s3 v3 -> turn v1 s1 s3 v3.
Proof. intros H1 H2 rest Hg. by apply H2, H1. Qed.

Lemma turn_given pcm s s' c b : log s' = log s ++ [Given pcm] -> buffer s' = buffer s ++ pcm -> chunkSize p <> 0 -> audioOut s' = audioOut s ->
  audioCtx s' = audioCtx s -> handling s' = handling s -> turn (having c b) s s' (having c false).
Proof.
  intros El Eb Hp C2 C3 C4 rest [G1 G2 G3 G4 G5 G6 G7]. unfold started, inLane in *.
  split; unfold started, inLane; rewrite ?El, ?Eb, ?C2, ?C3, ?C4; [..|by apply always_snoc]; says (log s) (Given pcm); cbn [givenBy consumedBy cutBy fateBy]; rewrite ?app_nil_r, ?Nat.add_0_r; try done.
  - by rewrite G1, <- app_assoc.
  - cbn [both having lane] in *. destruct (handling s); [|by destruct G3]. destruct G3 as (c0 & b0 & [= <- <- Hr] & H2 & H3). rewrite Hr. by exists c, false.
Qed.
Lemma turn_cuts (build : list Z -> frame) out cs : forall s s' c, buffer s = concat cs ++ buffer s' ->
  log s' = log s ++ List.map (fun c => Cut c (build c) out) cs -> out = audioOut s -> audioOut s' = audioOut s -> audioCtx s' = audioCtx s -> handling s' = handling s ->
  turn (having c false) s s' (having (c ++ List.map (fun c => (build c, out)) cs) false).
Proof.
  induction cs as [|x cs IH]; intros s s' c Hb El Ho C2 C3 C4; cbn in *.
  - rewrite app_nil_r. apply audio_calm_turn. split; try done. by exists [].
  - pose (s1 := s <| buffer := concat cs ++ buffer s' |> <| log ::= fun l => l ++ [Cut x (build x) out] |>).
    apply (turn_trans _ (having (c ++ [(build x, out)]) false) _ s s1).
    + apply (turn_lane (Cut x (build x) out)); try done; [|by rewrite Hb, <- app_assoc]. intros (_ & _ & _ & Hr & _)%lane_knows. split_and!; [|done|done].
      destruct out; [done|]. by apply Hr.
    + replace (c ++ (build x, out) :: List.map (fun c => (build c, out)) cs) with ((c ++ [(build x, out)]) ++ List.map (fun c => (build c, out)) cs) by by rewrite <- app_assoc.
      apply IH; try done. cbn. by rewrite El, <- app_assoc.
Qed.
Lemma chunks_whole fuel b : let '(cs, r) := chunksOf p fuel b in b = concat cs ++ r.
Proof.
  revert b. induction fuel as [|fuel IH]; intros b; cbn [chunksOf]; [done|]. destruct (chunkSize p <=? length b); [|done].
  specialize (IH (List.skipn (chunkSize p) b)). destruct (chunksOf p fuel _) as [cs r]. cbn [concat]. by rewrite <- app_assoc, <- IH, List.firstn_skipn.
Qed.
Lemma audio_turn_cutAll k ch pcm s b : chunkSize p <> 0 ->
  turn (having [] b) s (cutAll p k ch pcm s).2 (having (List.map (fun f => (f, audioOut s)) (cutAll p k ch pcm s).1) false).
Proof.
  intros Hp. unfold cutAll. pose proof (chunks_whole (length (buffer s ++ pcm)) (buffer s ++ pcm)) as Hc. destruct (chunksOf p _ _) as [cs r]. cbn [fst snd].
  set (build := fun c => chunkBuilder (Some k) c (sampleRate p) ch). pose (s1 := emit (Given pcm) (s <| buffer ::= fun b => b ++ pcm |>)).
  apply (turn_trans _ (having [] false) _ s s1); [by apply (turn_given pcm)|].
  rewrite List.map_map. apply (turn_cuts build (audioOut s) cs s1 _ []); try done. cbn. by rewrite <- app_assoc.
Qed.

(** A handler that begins with nothing cut ends so. *)
Definition tends (q : Prog.prog S_ question (option (list Z)) unit) : Prop := forall b, plays q (fun _ v => exists b', v = having [] b') (having [] b).
Lemma audio_quiet_tends q : quiet q -> tends q.
Proof. intros Hq b. eapply takes_mono; [apply Hq|]. intros _ v ->. by exists b. Qed.
Lemma audio_tends_bind {A} (q : Prog.prog S_ question (option (list Z)) A) k : quiet q -> (forall a, tends (k a)) -> tends (bind q k).
Proof. intros Hq Hk b. eapply takes_seq; [apply Hq|]. intros a v ->. apply Hk. Qed.
Lemma audio_plays_push out f c b : audios [f] = [f] -> plays (push out (Item f)) (fun _ v => v = having c b) (having ((f, out) :: c) b).
Proof.
  intros Hf s r s' [[= <- <-]|[]] _. exists (having c b). split; [|done].
  assert (forall l, turnEnd (Queued l (Item f)) = false) as Hn by (intros l; by destruct f).
  destruct out as [l|]; [apply (turn_lane (Queued l (Item f)))|apply (turn_lane (Panicked (Item f)))]; try done; auto; cbn [fateBy cutBy]; try (by rewrite Hf, app_nil_r).
  intros _. split_and!; [done|by rewrite Hn|done].
Qed.
Lemma audio_plays_pushes out b cs : Forall (fun f => audios [f] = [f]) cs ->
  plays (each cs (fun c => push out (Item c))) (fun _ v => v = having [] b) (having (List.map (fun f => (f, out)) cs) b).
Proof. induction 1 as [|f cs Hf _ IH]; [done|]. eapply takes_seq; [by apply audio_plays_push|]. by intros _ v ->. Qed.
Lemma audio_tends_handleAudioFrame k pcm r ch : tends (handleAudioFrame p k pcm r ch).
Proof.
  unfold handleAudioFrame. destruct (negb (AudioOutEnabled p)); [apply audio_quiet_tends, audio_quiet_ret|]. destruct (Nat.eqb_spec (chunkSize p) 0) as [|Hp]; [apply audio_quiet_tends, audio_quiet_ret|]. cbn [orb].
  apply audio_tends_bind; [unfold resample; quieten|]. intros pcm' b. apply takes_act. intros s _.
  exists (having (List.map (fun f => (f, audioOut s)) (cutAll p k ch pcm' s).1) false). pose proof (audio_turn_cutAll k ch pcm' s b Hp) as Ht.
  unfold cutAll in *. destruct (chunksOf p _ _) as [cs r']. cbn [fst snd] in *. split; [done|].
  eapply takes_mono; [apply audio_plays_pushes; apply List.Forall_map, List.Forall_forall; done|]. intros _ v ->. by exists false.
Qed.
Lemma plays_enqueueFlushedAudioBuffer b : plays (enqueueFlushedAudioBuffer p) (fun _ v => v = having [] true) (having [] b).
Proof.
  apply takes_act. intros s (_ & _ & _ & Hr & Hctx & Hsz)%lane_knows. unfold cutTail.
  destruct (Nat.eqb_spec (length (buffer s)) 0) as [E|Hb]; cbn [orb fst snd].
  { exists (having [] true). split; [|done]. apply turn_empty. by apply nil_length_inv. }
  destruct (Nat.eqb_spec (chunkSize p) 0) as [E|Hp]; cbn [fst snd]; [exists (having [] true); split; [by apply turn_empty, Hsz|done]|].
  set (f := chunkBuilder _ _ _ _). exists (having [(f, pacing s)] true). split.
  - apply (turn_lane (Cut (buffer s) f (pacing s))); try done; [|by rewrite app_nil_r|by right]. intros _. split_and!; [|done|done].
    unfold pacing in *. destruct (audioCtx s); [destruct (audioOut s) eqn:E; [done|by apply Hr]|]. by apply Hr.
  - destruct (pacing s) as [l|]; [by apply audio_plays_push|]. intros s1 r s1' [[= <- <-]|[]] _. exists (having [] true). split; [|done].
    apply (turn_lane (Unpaced f)); auto; done.
Qed.
(** What ends a turn, behind the rest of it. *)
Lemma turn_end e s s' : turnEnd e = true \/ (exists i, e = Panicked i) -> match bypasses e with Some f => audios [f] = [] | None => True end -> fateBy e = [] -> cutBy e = [] -> consumedBy e = [] ->
  log s' = log s ++ [e] -> buffer s' = buffer s -> audioOut s' = audioOut s -> audioCtx s' = audioCtx s -> handling s' = handling s ->
  turn (having [] true) s s' (having [] true).
Proof.
  intros He Hby Hfa Hcu Hco El Eb C2 C3 C4. apply (turn_lane e); try done; auto; rewrite ?Hfa, ?Hcu, ?Hco, ?Eb; try done.
  - intros (Hc & Hb & Hg & _)%lane_knows. split_and!; [by destruct e|intros _|done]. rewrite app_nil_r in Hc. by rewrite Hg, Hb, app_nil_r.
  - destruct He as [He|[i ->]]; [by destruct e|done].
Qed.
Lemma audio_tends_handleTTSStopped n : tends (handleTTSStopped p n).
Proof.
  intros b. eapply takes_seq; [apply plays_enqueueFlushedAudioBuffer|]. intros _ v ->. eapply takes_seq; [apply audio_quiet_get|]. intros out v ->.
  destruct out as [l|]; intros s r s' [[= <- <-]|[]] _; exists (having [] true); (split; [|by exists true]);
    [apply (turn_end (Queued l (Item (TTSStoppedFrame n))))|apply (turn_end (PassedOn (TTSStoppedFrame n)))]; try done; by left.
Qed.
Lemma audio_quiet_push out i : plainItem i = true -> quiet (push out i).
Proof. intros Hi. apply audio_quiet_do. intros s. destruct out as [l|]; split; try done; eexists [_]; (split; [reflexivity|by repeat constructor]). Qed.
Lemma audio_quiet_handleSyncFrame f : plainItem (Item f) = true -> quiet (handleSyncFrame f).
Proof. intros Hf. apply audio_quiet_bind; [apply audio_quiet_get|intros [l|]; [by apply audio_quiet_push|by apply audio_quiet_log]]. Qed.
Lemma audio_tends_handleFrame f pts : tends (handleFrame p f pts).
Proof.
  destruct f as [k pcm r ch|n|n|n|n u]; cbn [handleFrame]; [apply audio_tends_handleAudioFrame|apply audio_tends_handleTTSStopped|..]; apply audio_quiet_tends.
  all: destruct pts as [t|]; [|by apply audio_quiet_handleSyncFrame].
  all: apply audio_quiet_bind; [apply audio_quiet_get|intros []; [by apply audio_quiet_log|by apply audio_quiet_handleSyncFrame]].
Qed.

(** ** The loop *)

Lemma audio_quiet_botStartedSpeaking : quiet botStartedSpeaking.
Proof. unfold botStartedSpeaking. quieten. Qed.
Lemma audio_quiet_botCurrentlySpeaking : quiet botCurrentlySpeaking.
Proof. unfold botCurrentlySpeaking. apply audio_quiet_bind; [apply audio_quiet_botStartedSpeaking|intros _]. quieten. Qed.
Lemma audio_quiet_handleBotSpeech k pcm : quiet (handleBotSpeech k pcm).
Proof.
  destruct k; cbn [handleBotSpeech]; [apply audio_quiet_bind; [quieten|intros _; apply audio_quiet_botCurrentlySpeaking]| |apply audio_quiet_ret].
  unfold maybeBotCurrentlySpeaking. destruct (negb _); [apply audio_quiet_botCurrentlySpeaking|].
  apply audio_quiet_bind; [quieten|intros q; apply audio_quiet_when, audio_quiet_botStoppedSpeaking].
Qed.
Lemma audio_quiet_writeAudio l f : quiet (writeAudio l f).
Proof.
  unfold writeAudio. apply audio_quiet_bind; [quieten|intros []; [|quieten]]. apply audio_quiet_act.
  intros s r s' [[= <- <-]|[[= <- <-]|[[= <- <-]|[]]]]; [by apply audio_calm_emit..|]. case_decide; [by apply audio_calm_emit|].
  split; try done. exists [Unsent f; TimedOut]. cbn. by rewrite <- app_assoc; split; [|repeat constructor].
Qed.
Lemma quiet_play l f : quiet (play l f).
Proof.
  unfold play, handleQueuedFrame. apply audio_quiet_bind.
  - apply audio_quiet_bind; [|intros push; quieten].
    destruct f as [k pcm r ch|n|n|n|n u]; cbn [effect]; [|apply audio_quiet_bind; [|intros _; quieten]|quieten..].
    + apply audio_quiet_bind; [apply audio_quiet_handleBotSpeech|intros _; apply audio_quiet_writeAudio].
    + unfold ttsStopped. apply audio_quiet_bind; [quieten|intros q; apply audio_quiet_when, audio_quiet_botStoppedSpeaking].
  - intros ok. unfold roundOver. quieten.
Qed.
Lemma audio_quiet_sendEndSilence l : quiet (sendEndSilence p l).
Proof. unfold sendEndSilence. destruct (_ <=? 0)%Z; [quieten|]. apply audio_quiet_bind; [apply audio_quiet_writeAudio|intros _; quieten]. Qed.
Lemma quiet_marker l : quiet (sendEndSilence p l ;;; signalDrained ;;; roundOver l true).
Proof. apply audio_quiet_bind; [apply audio_quiet_sendEndSilence|intros _]. unfold signalDrained, roundOver. quieten. Qed.
Lemma calm_tryGet l s : calm s (tryGet l s).2.
Proof. unfold tryGet. destruct (queueOf l s) as [|i q]; [apply audio_calm_refl|]. split; try done. exists [Took l i]. split; [done|by repeat constructor]. Qed.
Lemma quiet_loopWithoutMixer l : quiet (loopWithoutMixer p l).
Proof.
  unfold loopWithoutMixer. apply audio_quiet_bind.
  - apply audio_quiet_one. intros s. pose proof (calm_tryGet l s) as Hc. destruct (tryGet l s) as [[[f|]|] s'] eqn:E; cbn [snd] in *; [|by destruct Hc|done].
    destruct Hc as [(tr & El & Ht) H1 H2 H3 H4]. split; try done. exists (tr ++ [Sourced f]). cbn. rewrite El, <- app_assoc. split; [done|]. apply Forall_app. by repeat constructor.
  - intros [[f|]|]; [apply quiet_play|apply quiet_marker|]. apply audio_quiet_bind.
    + apply audio_quiet_act. intros s r s' Hin. repeat (apply in_app_or in Hin as [Hin|Hin]); repeat case_match; cbn in Hin;
        repeat (destruct Hin as [[= <- <-]|Hin]; [apply audio_calm_refl|]); done.
    + unfold roundOver. intros []; [quieten| |quieten]. apply audio_quiet_bind; [apply audio_quiet_botStoppedSpeaking|intros _]. quieten.
Qed.
Lemma quiet_loopWithMixer l : quiet (loopWithMixer p l).
Proof.
  unfold loopWithMixer. apply audio_quiet_bind; [apply audio_quiet_one; intros s; apply calm_tryGet|]. intros [[f|]|]; [|apply quiet_marker|].
  - apply audio_quiet_bind; [unfold blendMixer; destruct (outputAudio f) as [[[pcm r] c]|]; quieten|intros x].
    apply audio_quiet_bind; [|intros _; apply quiet_play]. apply audio_quiet_do. intros s. split; try (by destruct x.2). exists [Sourced x.1]. split; [by destruct x.2|by repeat constructor].
  - apply audio_quiet_bind; [quieten|intros q]. apply audio_quiet_bind; [apply audio_quiet_when, audio_quiet_botStoppedSpeaking|intros _]. apply audio_quiet_bind; [quieten|intros m].
    apply audio_quiet_bind; [quieten|intros _; apply quiet_play].
Qed.
Lemma quiet_audioLoop l : quiet (audioLoop p l).
Proof.
  unfold audioLoop. apply audio_quiet_bind; [quieten|]. intros []; [unfold roundOver; quieten|]. destruct (mixer p); [apply quiet_loopWithMixer|apply quiet_loopWithoutMixer].
Qed.

(** ** Its life *)

Lemma audio_turn_spawn v s : turn v s (spawn s) v.
Proof.
  intros rest [G1 G2 G3 G4 G5 G6 G7]. assert (log (spawn s) = log s ++ [Restarted (loops s)]) as El by done. unfold started, inLane in *.
  split; unfold started, inLane; rewrite ?El; [..|by apply always_snoc]; says (log s) (Restarted (loops s)); cbn [givenBy consumedBy cutBy fateBy]; rewrite ?app_nil_r, ?Nat.add_0_r; try done.
  revert G2. cbn. destruct (audioOut s); lia.
Qed.
Lemma quiet_lock : quiet lock.
Proof. apply audio_quiet_act. intros s r s' Hin. destruct (lifeMu s); [done|]. destruct Hin as [[= <- <-]|[]]. same. Qed.
Lemma quiet_stop : quiet stop.
Proof.
  unfold stop, unlock. apply audio_quiet_bind; [apply audio_quiet_botStoppedSpeaking|intros _]. apply audio_quiet_bind; [apply quiet_lock|intros _]. quieten.
Qed.
Lemma quiet_restartAudioLoop : quiet restartAudioLoop.
Proof.
  unfold restartAudioLoop, unlock. apply audio_quiet_bind; [apply quiet_lock|intros _]. apply audio_quiet_bind; [quieten|]. intros [l|]; [|quieten].
  apply audio_quiet_bind; [quieten|intros _]. apply audio_quiet_bind; [|intros _; quieten]. intros v s r s' [[= <- <-]|[]] _. exists v. split; [apply audio_turn_spawn|done].
Qed.
Lemma quiet_handleInterruption : quiet (handleInterruption p).
Proof.
  unfold handleInterruption. apply audio_quiet_bind; [apply audio_quiet_bargeIn|intros _]. apply audio_quiet_bind; [quieten|intros k]. apply audio_quiet_bind; [quieten|intros _].
  apply audio_quiet_bind; [quieten|intros [l|]; [|quieten]]. apply audio_quiet_bind; [quieten|intros keeps]. destruct (keeps || mixer p); [unfold reset; quieten|apply quiet_restartAudioLoop].
Qed.
Lemma audio_tends_drainAudio : tends (drainAudio p).
Proof.
  unfold drainAudio. apply audio_tends_bind; [quieten|intros [l|]; [|apply audio_quiet_tends; quieten]]. intros b. eapply takes_seq; [apply plays_enqueueFlushedAudioBuffer|]. intros _ v ->.
  eapply takes_seq; [apply (audio_quiet_one (fun s => (drains s, s <| drainWait := Some (drains s) |> <| drains ::= S |>))); same|]. intros d v ->.
  eapply takes_seq; [apply audio_quiet_get|]. intros out v ->. eapply takes_seq with (P' := fun _ v => v = having [] true).
  - intros s r s' [[= <- <-]|[]] _. exists (having [] true). split; [|done]. destruct out as [l'|]; [apply (turn_end (Queued l' drainMarker)); try done; by left|].
    apply (turn_end (Panicked drainMarker)); try done. right. by exists drainMarker.
  - intros _ v ->. apply (takes_mono _ _ _ (fun _ v => v = having [] true)); [|by intros ? ? ->; exists true]. assert (quiet (await (fun s => bool_decide (d ∈ drained s) || bool_decide (l ∈ canceled s) || ctxDone s) ;;; log_ DrainOver)) as Hq by quieten.
    apply Hq.
Qed.

(** ** Every goroutine *)

Lemma audio_plays_handled q : tends q -> plays (handled q) (fun _ v => v = nothing) (having [] false).
Proof.
  intros Hq. eapply takes_seq; [apply Hq|]. intros _ v (b & ->). intros s r s' [[= <- <-]|[]] _. exists nothing. split; [|done].
  intros rest [G1 G2 G3 G4 G5 G6 G7]. split; try done. unfold inLane in *. cbn in *. destruct (handling s); [|by destruct G3].
  destruct G3 as (c & b0 & [= <- <- Hr] & Em & _). rewrite app_nil_r in Em. by rewrite Hr.
Qed.
Definition roleOf (c : call) : role := if inOrder c then having [] false else nothing.
Lemma audio_plays_program c : plays (program p c) (fun _ v => v = nothing) (roleOf c).
Proof.
  destruct c as [f pts|n| | | |l]; cbn [program roleOf inOrder].
  - apply audio_plays_handled, audio_tends_handleFrame.
  - apply audio_plays_handled, audio_quiet_tends. unfold handleMixerControl. quieten.
  - apply audio_plays_handled. intros b. eapply takes_seq; [apply audio_tends_drainAudio|]. intros _ v (b' & ->). by apply (audio_quiet_tends _ quiet_stop).
  - assert (quiet (handleInterruption p ;;; botStoppedSpeaking)) as Hq by (apply audio_quiet_bind; [apply quiet_handleInterruption|intros _; apply audio_quiet_botStoppedSpeaking]). apply Hq.
  - apply quiet_stop.
  - apply quiet_audioLoop.
Qed.
Lemma audio_good_alike a b s : owed a = owed b -> lane a ≡ₚ lane b -> good a s -> good b s.
Proof.
  intros Ho Hl [G1 G2 G3 G4 G5 G6 G7]. split; try done; [by rewrite <- Ho|]. unfold inLane in *. destruct (handling s).
  - destruct G3 as (c & b0 & E & H). rewrite E in Hl. apply Permutation_singleton_l in Hl. by exists c, b0.
  - destruct G3 as [E H]. rewrite E in Hl. by apply Permutation_nil_l in Hl.
Qed.
Lemma audio_both_nothing v : both nothing v = v.
Proof. by destruct v. Qed.
Lemma audio_turn_good s s' own : turn nothing s s' nothing -> good own s -> good own s'.
Proof. intros Ht Hg. specialize (Ht own). rewrite audio_both_nothing in Ht. auto. Qed.
Lemma audio_good_begin c s q s' own : begin p c s = Some (q, s') -> good own s -> q = program p c /\ good (both (roleOf c) own) s'.
Proof.
  intros E [G1 G2 G3 G4 G5 G6 G7]. destruct c as [f pts|n| | | |l]; cbn [begin inOrder roleOf] in *; unfold roleOf; cbn [inOrder].
  1-3: destruct (handling s) eqn:Eh; [done|]; injection E as <- <-; split; [done|]; split; try done; unfold inLane in *; rewrite Eh in G3; destruct G3 as [El Em]; cbn; rewrite El; exists [], false; by rewrite app_nil_r.
  1-2: injection E as <- <-; split; [done|by rewrite audio_both_nothing].
  case_decide as Hl; [|done]. destruct (round s) eqn:Er; [done|]. injection E as <- <-. split; [done|]. by rewrite audio_both_nothing.
Qed.
Lemma audio_good_changed c s s' own : changed c s = Some s' -> good own s -> good own s'.
Proof.
  destruct c as [d| | |b]; cbn [changed].
  - destruct (0 <=? d)%Z; intros [= <-]. apply audio_turn_good, audio_calm_turn. same.
  - destruct (audioOut s) eqn:Eo; [done|]. destruct (lifeMu s) eqn:El; intros [= <-] Hg. apply (audio_turn_good (spawn (dropBuffer s))); [apply audio_calm_turn; same|].
    destruct Hg as [G1 G2 G3 G4 G5 G6 G7]. unfold started in G2. rewrite Eo in G2.
    assert (log (spawn (dropBuffer s)) = (log s ++ [Dropped (buffer s)]) ++ [Restarted (loops s)]) as Elog by done. unfold inLane in *.
    split; unfold started, inLane; rewrite ?Elog; [..|by apply always_snoc; [apply always_snoc|]];
      says (log s ++ [Dropped (buffer s)]) (Restarted (loops s)); says (log s) (Dropped (buffer s)); cbn [givenBy consumedBy cutBy fateBy]; rewrite ?app_nil_r, ?Nat.add_0_r; try done.
    + cbn. lia.
    + change (handling (spawn (dropBuffer s))) with (handling s). destruct (handling s); [|done]. destruct G3 as (c & b & H1 & H2 & H3). by exists c, b.
  - intros [= <-]. apply audio_turn_good, audio_calm_turn. same.
  - intros [= <-]. apply audio_turn_good, audio_calm_turn. same.
Qed.

(** ** The whole sender *)

Definition all (vs : list role) : role := foldr both nothing vs.
Lemma audio_all_app a b : owed (all (a ++ b)) = owed (all a) + owed (all b) /\ lane (all (a ++ b)) = lane (all a) ++ lane (all b).
Proof. unfold all. induction a as [|v a [IH1 IH2]]; [done|]. cbn. rewrite IH1, IH2, <- app_assoc. split; [lia|done]. Qed.
Lemma audio_good_around v vs1 vs2 s : good (all (vs1 ++ v :: vs2)) s <-> good (both v (all (vs1 ++ vs2))) s.
Proof.
  destruct (audio_all_app vs1 (v :: vs2)) as [E1 E2], (audio_all_app vs1 vs2) as [E3 E4].
  split; apply audio_good_alike; unfold all in *; cbn in *; rewrite ?E1, ?E2, ?E3, ?E4; try lia; by rewrite Permutation_app_swap_app.
Qed.
Definition sound (y : Sys) : Prop := exists vs, Forall2 (fun q v => plays q (fun _ v' => v' = nothing) v) (procs y) vs /\ good (all vs) (state y).
Lemma audio_step c y y' : sound y -> step p c y = Some y' -> sound y'.
Proof.
  intros (vs & Hvs & Hg). destruct c as [c|i n|i x|c]; cbn [step].
  - destruct (begin p c (state y)) as [[q s]|] eqn:Eb; [|done]. intros [= <-]. destruct (audio_good_begin _ _ _ _ _ Eb Hg) as [-> Hg']. exists (vs ++ [roleOf c]). split.
    + apply Forall2_app; [done|]. constructor; [apply audio_plays_program|constructor].
    + apply audio_good_around. by rewrite app_nil_r.
  - destruct (procs y !! i) as [q|] eqn:Ep; [|done]. destruct (runNth q n (state y)) as [[q' s']|] eqn:Er; [|done]. intros [= <-].
    destruct (lookup_at _ _ _ Ep) as (l1 & l2 & -> & El). rewrite El in Hvs |- *. destruct (Forall2_at _ _ _ _ _ Hvs) as (vs1 & v & vs2 & -> & H1 & Hp & H2).
    apply audio_good_around in Hg. unfold runNth in Er. destruct q as [|R f k|]; [done| |done]. destruct (List.nth_error (f (state y)) n) as [[r b1]|] eqn:En; [|done].
    injection Er as <- <-. apply nth_error_In in En. destruct (Hp _ _ _ En) as (v' & Ht & Hk); [by exists (all (vs1 ++ vs2))|]. exists (vs1 ++ v' :: vs2). cbn [procs state]. split.
    + rewrite insert_at. by apply (Forall2_around (fun q v => plays q (fun _ v' => v' = nothing) v)).
    + apply audio_good_around. by apply Ht.
  - destruct (procs y !! i) as [q|] eqn:Ep; [|done]. destruct (answer q x) as [q'|] eqn:Er; [|done]. intros [= <-].
    destruct (lookup_at _ _ _ Ep) as (l1 & l2 & -> & El). rewrite El in Hvs |- *. destruct (Forall2_at _ _ _ _ _ Hvs) as (vs1 & v & vs2 & -> & H1 & Hp & H2).
    unfold answer in Er. destruct q as [| |u k]; [done|done|]. apply (inj Some) in Er as <-. exists (vs1 ++ v :: vs2). cbn [procs state]. split; [|done].
    rewrite insert_at. apply (Forall2_around (fun q v => plays q (fun _ v' => v' = nothing) v)); [done|done|done|]. apply Hp.
  - destruct (changed c (state y)) as [s'|] eqn:Ec; [|done]. intros [= <-]. exists vs. split; [done|]. by eapply audio_good_changed.
Qed.
Lemma audio_exec cs : forall y y', sound y -> exec p cs y = Some y' -> sound y'.
Proof.
  induction cs as [|c cs IH]; intros y y' Hy E; cbn [exec] in E; [by injection E as <-|]. destruct (step p c y) as [y1|] eqn:E1; [|done]. eapply IH; [|exact E]. by eapply audio_step.
Qed.
Lemma audio_good cs y : exec p cs boot = Some y -> exists own, good own (state y).
Proof.
  intros E. destruct (audio_exec cs boot y) as (vs & _ & Hg); [|done|by eexists]. exists []. split; [constructor|]. split; try done. by intros [].
Qed.
End Audio.
End MediaAudio.
