(* ===== verification/MediaFacts.v ===== *)
(** * What a transport's output promises

    That what the loop sends on was queued, in that order and once; that the audio queued
    is the audio given, cut up with nothing lost but what is dropped for a reason
    ([MediaAudio.v] has the invariant); that the bot takes
    the floor and gives it up in turn; that a barge-in leaves nothing of what was queued
    before it.  And where it falls short. *)

From S2P Require Import Prelude Float64 Text Strings Prog Recording.
From S2P Require Import MediaSender MediaAudio.
Import Prog Sender.
Import MediaAudio(audios, given, consumed, chunksCut, fates, drops, reasons, restarts, bypasses, turnEnd, always, fitting).

Module MediaFacts.
Local Open Scope prog_scope.

Section Facts.
Context (p : Params).

(** ** What a log says *)

Definition forwards (l : list event) : list frame := flat_map (fun e => match e with Forwarded f => [f] | _ => [] end) l.
Definition sources (l : list event) : list frame := flat_map (fun e => match e with Sourced f => [f] | _ => [] end) l.
Definition takens (l : list event) : list item := flat_map (fun e => match e with Took _ i => [i] | _ => [] end) l.
Definition queueds (l : list event) : list item := flat_map (fun e => match e with Queued _ i => [i] | _ => [] end) l.
Definition framesOf (l : list item) : list frame := flat_map (fun i => match i with Item f => [f] | drainMarker => [] end) l.
Definition cuts (l : list event) : list (list Z * frame) := flat_map (fun e => match e with Cut b f _ => [(b, f)] | _ => [] end) l.
(** The audio of a chunk, once it is decided where it goes. *)
Definition outs (l : list event) : list frame :=
  flat_map (fun e => match e with Queued _ (Item f) | Panicked (Item f) => audios [f] | Unpaced f => audios [f] | _ => [] end) l.
Definition floors (l : list event) : list bool := flat_map (fun e => match e with Floor b => [b] | _ => [] end) l.
Definition made (l : list event) : list frame := List.map snd (cuts l).
(** What came after the loop was last started. *)
Definition sinceStep (acc : list event) (e : event) : list event := match e with Restarted _ => [] | _ => acc ++ [e] end.
Definition sinceStart (l : list event) : list event := fold_left sinceStep l [].
Arguments forwards : simpl never. Arguments sources : simpl never. Arguments takens : simpl never. Arguments queueds : simpl never.
Arguments cuts : simpl never. Arguments outs : simpl never. Arguments floors : simpl never. Arguments made : simpl never. Arguments sinceStart : simpl never.
Lemma forwards_app a b : forwards (a ++ b) = forwards a ++ forwards b. Proof. apply flat_map_app. Qed.
Lemma sources_app a b : sources (a ++ b) = sources a ++ sources b. Proof. apply flat_map_app. Qed.
Lemma takens_app a b : takens (a ++ b) = takens a ++ takens b. Proof. apply flat_map_app. Qed.
Lemma queueds_app a b : queueds (a ++ b) = queueds a ++ queueds b. Proof. apply flat_map_app. Qed.
Lemma framesOf_app a b : framesOf (a ++ b) = framesOf a ++ framesOf b. Proof. apply flat_map_app. Qed.
Lemma given_app a b : given (a ++ b) = given a ++ given b. Proof. apply flat_map_app. Qed.
Lemma consumed_app a b : consumed (a ++ b) = consumed a ++ consumed b. Proof. apply flat_map_app. Qed.
Lemma cuts_app a b : cuts (a ++ b) = cuts a ++ cuts b. Proof. apply flat_map_app. Qed.
Lemma made_app a b : made (a ++ b) = made a ++ made b. Proof. unfold made. by rewrite cuts_app, map_app. Qed.
Lemma outs_app a b : outs (a ++ b) = outs a ++ outs b. Proof. apply flat_map_app. Qed.
Lemma floors_app a b : floors (a ++ b) = floors a ++ floors b. Proof. apply flat_map_app. Qed.
Lemma since_snoc l e : sinceStart (l ++ [e]) = sinceStep (sinceStart l) e. Proof. unfold sinceStart. by rewrite fold_left_app. Qed.
Lemma since_app l tr : Forall (fun e => match e with Restarted _ => False | _ => True end) tr -> sinceStart (l ++ tr) = sinceStart l ++ tr.
Proof.
  induction tr as [|e tr IH] using rev_ind; intros H; [by rewrite !app_nil_r|]. apply Forall_app in H as [Ht He]. inversion He; subst.
  rewrite !app_assoc, since_snoc, IH by done. by destruct e.
Qed.
(** Each differs from the one before, the first from [open]. *)
Fixpoint inTurn (open : bool) (l : list bool) : option bool :=
  match l with [] => Some open | b :: l => if Bool.eqb b open then None else inTurn b l end.
Lemma turn_snoc l b : forall open o, inTurn open l = Some o -> o <> b -> inTurn open (l ++ [b]) = Some b.
Proof.
  induction l as [|x l IH]; intros open o H Hne; cbn in *; [injection H as <-|].
  - destruct (Bool.eqb_spec b open); [congruence|done].
  - destruct (Bool.eqb x open); [done|]. by eapply IH.
Qed.

Lemma sublist_List_filter {A} (f : A -> bool) l : List.filter f l `sublist_of` l.
Proof. induction l as [|x l IH]; cbn; [constructor|]. destruct (f x); by constructor. Qed.

(** ** What every goroutine keeps *)

Definition current (s : S_) : list item := match audioOut s with Some l => queueOf l s | None => [] end.
(** A chunk is so many bytes, the last of them silence where there were not enough. *)
Definition wellCut (x : list Z * frame) : Prop := x.1 <> [] /\ exists k r c, x.2 = OutputAudio k (padChunk x.1 (chunkSize p)) r c /\ length x.1 <= chunkSize p.
Record inv (s : S_) : Prop := {
  i_floor : inTurn false (floors (log s)) = Some (botSpeaking s);
  i_bytes : given (log s) = consumed (log s) ++ buffer s;
  i_cuts : Forall wellCut (cuts (log s));
  i_short : chunkSize p <> 0 -> length (buffer s) < chunkSize p;
  i_live : forall l, l ∈ live s -> audioOut s = Some l;
  i_cancel : forall l, audioCancel s = Some l -> audioOut s = Some l;
  i_took : takens (log s) ++ current s `sublist_of` queueds (log s);
  i_since : takens (sinceStart (log s)) ++ current s `sublist_of` queueds (sinceStart (log s));
  i_source : mixer p = false -> sources (log s) = framesOf (takens (log s))
}.

(** What a goroutine has to itself: the loop, what it has in hand; the handler of frames
    in order, the chunks it has cut and not queued; who is under the lock, whether the
    loops are known to be over. *)
Record role := mkRole { hand : list (nat * list frame); chunks : list (list frame); under : list bool }.
#[local] Instance eta_role : Eta role := fun v => mkRole (hand v) (chunks v) (under v).
Definition both (v w : role) : role := mkRole (hand v ++ hand w) (chunks v ++ chunks w) (under v ++ under w).
Definition nothing : role := mkRole [] [] [].
Record accounted (own : role) (s : S_) : Prop := {
  a_hand : if round s then exists l h, hand own = [(l, h)] /\ l ∈ live s /\ forwards (log s) ++ h `sublist_of` sources (log s)
           else hand own = [] /\ forwards (log s) `sublist_of` sources (log s);
  a_chunks : if handling s then exists c, chunks own = [c] /\ made (log s) = outs (log s) ++ c else chunks own = [] /\ made (log s) = outs (log s);
  a_under : if lifeMu s then exists q, under own = [q] /\ (q = true -> live s = ∅) else under own = []
}.
Definition good (own : role) (s : S_) : Prop := inv s /\ accounted own s.
Definition knows (v : role) (s : S_) : Prop := exists rest, good (both v rest) s.
Definition turn (v : role) (s s' : S_) (v' : role) : Prop := forall rest, good (both v rest) s -> good (both v' rest) s'.
Local Abbreviation plays q P v := (takes knows turn q P v).

Definition plain (e : event) : bool :=
  match e with
  | Given _ | Cut _ _ _ | Dropped _ | Queued _ _ | Unpaced _ | Panicked _ | Took _ _ | Sourced _ | Restarted _ | Floor _ | Forwarded _ => false
  | _ => true
  end.
Lemma media_plain_says tr : Forall (fun e => plain e = true) tr -> forwards tr = [] /\ sources tr = [] /\ takens tr = [] /\ queueds tr = [] /\ given tr = [] /\ consumed tr = []
  /\ cuts tr = [] /\ outs tr = [] /\ floors tr = [] /\ forall l, sinceStart (l ++ tr) = sinceStart l ++ tr.
Proof.
  induction 1 as [|e tr He _ IH].
  - split_and!; try done. intros l. by rewrite !app_nil_r.
  - destruct IH as (I1 & I2 & I3 & I4 & I5 & I6 & I7 & I8 & I9 & I10). change (e :: tr) with ([e] ++ tr).
    rewrite forwards_app, sources_app, takens_app, queueds_app, given_app, consumed_app, cuts_app, outs_app, floors_app, I1, I2, I3, I4, I5, I6, I7, I8, I9.
    split_and!; try by destruct e. intros l. rewrite !app_assoc, I10, since_snoc. by destruct e.
Qed.
Record calm (s s' : S_) : Prop := {
  c_log : exists tr, log s' = log s ++ tr /\ Forall (fun e => plain e = true) tr;
  c_speaking : botSpeaking s' = botSpeaking s;
  c_buffer : buffer s' = buffer s;
  c_loops : live s' = live s /\ audioOut s' = audioOut s /\ queues s' = queues s /\ round s' = round s;
  c_cancel : audioCancel s' = audioCancel s \/ audioCancel s' = None;
  c_locks : lifeMu s' = lifeMu s /\ handling s' = handling s
}.
Lemma media_calm_turn v s s' : calm s s' -> turn v s s' v.
Proof.
  intros [(tr & El & Ht) C2 C3 (C4 & C5 & C6 & C7) C8 (C9 & C10)] rest [[I1 I2 I3 I3' I4 I5 I6 I7 I8] [A1 A2 A3]].
  destruct (media_plain_says tr Ht) as (P1 & P2 & P3 & P4 & P5 & P6 & P7 & P8 & P9 & P10).
  assert (current s' = current s) as Ec by (unfold current, queueOf; by rewrite C5, C6).
  assert (made tr = []) as Pm by (unfold made; by rewrite P7).
  split; split; rewrite ?El, ?Ec, ?C2, ?C3, ?C4, ?C5, ?C7, ?C9, ?C10, ?P10, ?forwards_app, ?sources_app, ?takens_app, ?queueds_app, ?given_app, ?consumed_app, ?cuts_app, ?outs_app, ?floors_app, ?made_app,
    ?P1, ?P2, ?P3, ?P4, ?P5, ?P6, ?P7, ?P8, ?P9, ?Pm, ?app_nil_r; try done.
  intros l Hl. apply I5. destruct C8 as [C8|C8]; congruence.
Qed.
Lemma media_calm_refl s : calm s s.
Proof. split; try done; [|by left]. exists []. by rewrite app_nil_r. Qed.
Lemma media_calm_emit e s : plain e = true -> calm s (emit e s).
Proof. intros He. split; try done; [|by left]. exists [e]. split; [done|by repeat constructor]. Qed.

Definition quiet {A} (q : Prog.prog S_ question (option (list Z)) A) : Prop := forall v, plays q (fun _ v' => v' = v) v.
Lemma media_quiet_ret {A} (a : A) : quiet (Ret a).
Proof. by intros v. Qed.
Lemma media_quiet_bind {A B} (q : Prog.prog S_ question (option (list Z)) A) (k : A -> Prog.prog S_ question (option (list Z)) B) : quiet q -> (forall a, quiet (k a)) -> quiet (bind q k).
Proof. intros Hp Hk v. eapply takes_seq; [apply Hp|]. intros a v' ->. apply Hk. Qed.
Lemma media_quiet_turns {A} (f : S_ -> list (A * S_)) : (forall v s r s', In (r, s') (f s) -> turn v s s' v) -> quiet (Act f Ret).
Proof. intros H v s r s' Hin Hk. exists v. split; [by eapply H|done]. Qed.
Lemma media_quiet_act {A} (f : S_ -> list (A * S_)) : (forall s r s', In (r, s') (f s) -> calm s s') -> quiet (Act f Ret).
Proof. intros H. apply media_quiet_turns. intros v s r s' Hin. by eapply media_calm_turn, H. Qed.
Lemma media_quiet_one {A} (f : S_ -> A * S_) : (forall s, calm s (f s).2) -> quiet (act f).
Proof. intros H. apply media_quiet_act. intros s r s' [E|[]]. specialize (H s). by rewrite E in H. Qed.
Lemma media_quiet_do f : (forall s, calm s (f s)) -> quiet (do_ f).
Proof. intros H. apply media_quiet_act. intros s r s' [[= <- <-]|[]]. apply H. Qed.
Lemma media_quiet_get {A} (f : S_ -> A) : quiet (get f).
Proof. apply media_quiet_act. intros s r s' [[= <- <-]|[]]. apply media_calm_refl. Qed.
Lemma media_quiet_log e : plain e = true -> quiet (log_ e).
Proof. intros He. apply media_quiet_do. intros s. by apply media_calm_emit. Qed.
Lemma media_quiet_when b q : quiet q -> quiet (when b q).
Proof. destruct b; [done|intros _; apply media_quiet_ret]. Qed.
Lemma media_quiet_await b : quiet (await b).
Proof. apply media_quiet_act. intros s r s' Hin. destruct (b s); [|done]. destruct Hin as [[= <- <-]|[]]. apply media_calm_refl. Qed.
Ltac calm := intros; split; try done; [exists []; by rewrite app_nil_r|by auto].
(** What one more event says. *)
Lemma forwards_one e : forwards [e] = match e with Forwarded f => [f] | _ => [] end. Proof. by destruct e. Qed.
Lemma sources_one e : sources [e] = match e with Sourced f => [f] | _ => [] end. Proof. by destruct e. Qed.
Lemma takens_one e : takens [e] = match e with Took _ i => [i] | _ => [] end. Proof. by destruct e. Qed.
Lemma queueds_one e : queueds [e] = match e with Queued _ i => [i] | _ => [] end. Proof. by destruct e. Qed.
Lemma given_one e : given [e] = match e with Given b => b | _ => [] end. Proof. destruct e; try done. apply app_nil_r. Qed.
Lemma consumed_one e : consumed [e] = match e with Cut b _ _ => b | Dropped b => b | _ => [] end. Proof. destruct e; try done; apply app_nil_r. Qed.
Lemma cuts_one e : cuts [e] = match e with Cut b f _ => [(b, f)] | _ => [] end. Proof. by destruct e. Qed.
Lemma made_one e : made [e] = match e with Cut _ f _ => [f] | _ => [] end. Proof. by destruct e. Qed.
Lemma outs_one e : outs [e] = match e with Queued _ (Item f) | Panicked (Item f) => audios [f] | Unpaced f => audios [f] | _ => [] end.
Proof. destruct e; try match goal with i : item |- _ => destruct i end; try done; apply app_nil_r. Qed.
Lemma floors_one e : floors [e] = match e with Floor b => [b] | _ => [] end. Proof. by destruct e. Qed.
Ltac reckon :=
  rewrite ?since_snoc; cbn [sinceStep]; rewrite ?forwards_app, ?sources_app, ?takens_app, ?queueds_app, ?given_app, ?consumed_app, ?cuts_app, ?outs_app, ?floors_app, ?made_app,
    ?forwards_one, ?sources_one, ?takens_one, ?queueds_one, ?given_one, ?consumed_one, ?cuts_one, ?outs_one, ?floors_one, ?made_one.

(** One act that says one thing, and leaves alone what [calm] does but for what is asked. *)
Record calmBut (e : event) (s s' : S_) : Prop := {
  b_log : log s' = log s ++ [e];
  b_loops : live s' = live s /\ audioOut s' = audioOut s /\ queues s' = queues s /\ round s' = round s;
  b_cancel : audioCancel s' = audioCancel s;
  b_locks : lifeMu s' = lifeMu s /\ handling s' = handling s
}.
(** ** The floor *)

Lemma turn_floor v b s s' : calmBut (Floor b) s s' -> buffer s' = buffer s -> botSpeaking s <> b -> botSpeaking s' = b -> turn v s s' v.
Proof.
  intros [El (C4 & C5 & C6 & C7) C8 (C9 & C10)] Eb Hne Hb rest [[I1 I2 I3 I3' I4 I5 I6 I7 I8] [A1 A2 A3]].
  assert (current s' = current s) as Ec by (unfold current, queueOf; by rewrite C5, C6).
  split; split; rewrite ?El, ?Ec, ?Eb, ?C4, ?C5, ?C7, ?C8, ?C9, ?C10; reckon; rewrite ?app_nil_r; try done.
  rewrite Hb. by eapply turn_snoc.
Qed.
Lemma turn_dropBuffer v s : turn v s (dropBuffer s) v.
Proof.
  intros rest [[I1 I2 I3 I3' I4 I5 I6 I7 I8] [A1 A2 A3]]. split; split; cbn -[Nat.lt]; reckon; rewrite ?app_nil_r; try done; try (intros; lia).
Qed.
Lemma quiet_dropBuffer : quiet (do_ dropBuffer).
Proof. apply media_quiet_turns. intros v s r s' [[= <- <-]|[]]. apply turn_dropBuffer. Qed.
Lemma quiet_bargeIn : quiet (do_ (fun s => dropBuffer (emit BargeIn s))).
Proof.
  apply media_quiet_turns. intros v s r s' [[= <- <-]|[]] rest Hg. apply turn_dropBuffer. by apply (media_calm_turn v s); [apply media_calm_emit|].
Qed.
Lemma quiet_botStartedSpeaking : quiet botStartedSpeaking.
Proof.
  apply media_quiet_turns. intros v s r s' [[= <- <-]|[]]. destruct (botSpeaking s) eqn:Es; [apply media_calm_turn, media_calm_refl|]. apply (turn_floor _ true); try done. by rewrite Es.
Qed.
Lemma quiet_botStoppedSpeaking : quiet botStoppedSpeaking.
Proof.
  apply media_quiet_bind; [|intros was; apply media_quiet_when, quiet_dropBuffer].
  apply media_quiet_turns. intros v s r s' [E|[]]. destruct (botSpeaking s) eqn:Es; injection E as <- <-; [|apply media_calm_turn, media_calm_refl].
  apply (turn_floor _ false); try done. by rewrite Es.
Qed.
Lemma quiet_botCurrentlySpeaking : quiet botCurrentlySpeaking.
Proof.
  apply media_quiet_bind; [apply quiet_botStartedSpeaking|intros _]. apply media_quiet_bind; [|intros due; apply media_quiet_when; by apply media_quiet_log].
  apply media_quiet_one. intros s. destruct (match botSpeakingFrameAt s with Some _ => _ | None => _ end); calm.
Qed.
Lemma quiet_handleBotSpeech k pcm : quiet (handleBotSpeech k pcm).
Proof.
  destruct k; cbn [handleBotSpeech]; [|unfold maybeBotCurrentlySpeaking; destruct (negb _)|apply media_quiet_ret].
  - apply media_quiet_bind; [apply media_quiet_do; calm|intros _; apply quiet_botCurrentlySpeaking].
  - apply quiet_botCurrentlySpeaking.
  - apply media_quiet_bind; [apply media_quiet_get|intros q; apply media_quiet_when, quiet_botStoppedSpeaking].
Qed.
Lemma quiet_ttsStopped : quiet ttsStopped.
Proof. apply media_quiet_bind; [apply media_quiet_get|intros r; apply media_quiet_when, quiet_botStoppedSpeaking]. Qed.

(** ** Audio in *)

Lemma pushed_says i out s : exists e, log (pushed out i s) = log s ++ [e] /\ (e = Panicked i \/ exists l, out = Some l /\ e = Queued l i).
Proof. destruct out as [l|]; cbn; eexists; (split; [reflexivity|]); [right; by exists l|by left]. Qed.
Lemma current_pushed out i s : current (pushed out i s) = current s \/ current (pushed out i s) = current s ++ [i] /\ out = audioOut s.
Proof.
  destruct out as [l|]; [|by left]. unfold current, queueOf. cbn. destruct (audioOut s) as [l'|]; [|by left].
  destruct (decide (l = l')) as [<-|Hne]; [right; by rewrite lookup_insert_eq|left; by rewrite lookup_insert_ne].
Qed.
Lemma inv_pushed out i s : inv s -> inv (pushed out i s).
Proof.
  intros [I1 I2 I3 I3' I4 I5 I6 I7 I8]. destruct out as [l|].
  - assert (log (pushed (Some l) i s) = log s ++ [Queued l i]) as El by done.
    assert (forall a b, a ++ current s `sublist_of` b -> a ++ current (pushed (Some l) i s) `sublist_of` b ++ [i]) as Hs.
    { intros a b Hab. destruct (current_pushed (Some l) i s) as [->|[-> _]]; [by apply sublist_inserts_r|]. rewrite app_assoc. by apply sublist_app. }
    split; rewrite ?El; reckon; rewrite ?app_nil_r; try done; by apply Hs.
  - assert (log (pushed None i s) = log s ++ [Panicked i]) as El by done. split; rewrite ?El; reckon; rewrite ?app_nil_r; done.
Qed.
Lemma turn_pushed v v' out i s :
  (forall f, i = Item f -> audios [f] = [] /\ v' = v \/ audios [f] = [f] /\ exists c, chunks v = [f :: c] /\ v' = v <| chunks := [c] |>) ->
  (i = drainMarker -> v' = v) -> turn v s (pushed out i s) v'.
Proof.
  intros Hv Hm rest [HI [A1 A2 A3]]. split; [by apply inv_pushed|]. destruct (pushed_says i out s) as (e & El & He).
  assert (live (pushed out i s) = live s /\ round (pushed out i s) = round s /\ handling (pushed out i s) = handling s /\ lifeMu (pushed out i s) = lifeMu s) as (E1 & E2 & E3 & E4) by by destruct out.
  assert (hand v' = hand v /\ under v' = under v) as [Eh Eu].
  { destruct i as [f|]; [|by rewrite Hm]. destruct (Hv f eq_refl) as [[_ ->]|(_ & c & _ & ->)]; done. }
  assert (made (log s ++ [e]) = made (log s) /\ forwards (log s ++ [e]) = forwards (log s) /\ sources (log s ++ [e]) = sources (log s)) as (F1 & F2 & F3).
  { destruct He as [->|(l & _ & ->)]; reckon; by rewrite !app_nil_r. }
  assert (outs (log s ++ [e]) = outs (log s) ++ match i with Item f => audios [f] | drainMarker => [] end) as F4 by (destruct He as [->|(l & _ & ->)]; by reckon).
  split; cbn [both hand chunks under] in *; rewrite ?El, ?E1, ?E2, ?E3, ?E4, ?Eh, ?Eu, ?F1, ?F2, ?F3, ?F4; [done| |done].
  destruct i as [f|]; [|rewrite Hm, app_nil_r by done; done].
  destruct (Hv f eq_refl) as [[-> ->]|(-> & c & Hc & ->)]; [by rewrite app_nil_r|]. cbn. rewrite Hc in A2. cbn in A2.
  destruct (handling s); [|by destruct A2]. destruct A2 as (c' & Hc' & Em). injection Hc' as <- Hr. exists c. rewrite Em, Hr. split; [done|by rewrite <- app_assoc].
Qed.
Lemma quiet_push out i : match i with Item f => audios [f] = [] | drainMarker => True end -> quiet (push out i).
Proof.
  intros Hi. apply media_quiet_turns. intros v s r s' [[= <- <-]|[]]. apply turn_pushed; [|done]. intros f ->. by left.
Qed.
Definition having (c : list frame) : role := mkRole [] [c] [].
Lemma plays_push out f c : audios [f] = [f] -> plays (push out (Item f)) (fun _ v => v = having c) (having (f :: c)).
Proof.
  intros Hf s r s' [[= <- <-]|[]] _. exists (having c). split; [|done]. apply turn_pushed; [|done]. intros f' [= <-]. right. split; [done|]. by exists c.
Qed.

Lemma chunksOf_whole fuel : chunkSize p <> 0 -> forall b, length b <= fuel -> let '(cs, r) := chunksOf p fuel b in
  b = concat cs ++ r /\ Forall (fun c => length c = chunkSize p) cs /\ length r < chunkSize p.
Proof.
  intros Hp. induction fuel as [|fuel IH]; intros b Hb; cbn [chunksOf].
  - split_and!; [done|constructor|lia].
  - destruct (Nat.leb_spec (chunkSize p) (length b)) as [Hle|Hlt]; [|split_and!; [done|constructor|lia]].
    specialize (IH (List.skipn (chunkSize p) b)). rewrite length_skipn in IH. specialize (IH ltac:(lia)). destruct (chunksOf p fuel _) as [cs r]. destruct IH as (E & Hc & Hr).
    split_and!; [|constructor; [rewrite length_firstn; lia|done]|done]. cbn [concat]. rewrite <- app_assoc, <- E. by rewrite List.firstn_skipn.
Qed.
Lemma cuts_says (build : list Z -> frame) out cs : let l := List.map (fun c => Cut c (build c) out) cs in
  forwards l = [] /\ sources l = [] /\ takens l = [] /\ queueds l = [] /\ given l = [] /\ consumed l = concat cs /\ cuts l = List.map (fun c => (c, build c)) cs
  /\ outs l = [] /\ floors l = [] /\ made l = List.map build cs /\ forall k, sinceStart (k ++ l) = sinceStart k ++ l.
Proof.
  cbn zeta. split_and!.
  1-9: unfold forwards, sources, takens, queueds, given, consumed, cuts, outs, floors; induction cs as [|c cs IH]; [done|cbn; by rewrite ?IH].
  - unfold made, cuts. induction cs as [|c cs IH]; [done|]. cbn. by rewrite IH.
  - intros k. apply since_app. apply Forall_forall. intros e (c & -> & _)%list_elem_of_fmap. done.
Qed.
Lemma full_pad c : length c = chunkSize p -> padChunk c (chunkSize p) = c.
Proof. intros E. unfold padChunk. by rewrite E, Nat.sub_diag, app_nil_r. Qed.
Lemma turn_cutAll k ch pcm s : chunkSize p <> 0 -> turn (having []) s (cutAll p k ch pcm s).2 (having (cutAll p k ch pcm s).1).
Proof.
  intros Hp rest [[I1 I2 I3 I3' I4 I5 I6 I7 I8] [A1 A2 A3]]. unfold cutAll. pose proof (chunksOf_whole (length (buffer s ++ pcm)) Hp (buffer s ++ pcm) ltac:(lia)) as Hc.
  destruct (chunksOf p _ _) as [cs r]. destruct Hc as (Hb & Hc & Hr). cbn [fst snd].
  set (build := fun c => chunkBuilder (Some k) c (sampleRate p) ch). set (s' := s <| newChunk := _ |> <| buffer := _ |> <| log ::= _ |>).
  assert (log s' = (log s ++ [Given pcm]) ++ List.map (fun c => Cut c (build c) (audioOut s)) cs) as El by (unfold s'; cbn; by rewrite <- app_assoc).
  assert (buffer s' = r /\ current s' = current s) as [Eb Ec] by done.
  destruct (cuts_says build (audioOut s) cs) as (Q1 & Q2 & Q3 & Q4 & Q5 & Q6 & Q7 & Q8 & Q9 & Q10 & Q11).
  split; split; rewrite ?El, ?Eb, ?Ec, ?Q11; reckon; rewrite ?Q1, ?Q2, ?Q3, ?Q4, ?Q5, ?Q6, ?Q7, ?Q8, ?Q9, ?Q10, ?app_nil_r; try done.
  - rewrite I2, <- !app_assoc. by rewrite Hb.
  - apply Forall_app. split; [done|]. apply Forall_forall. intros [c f] (c' & [= -> ->] & Hin)%list_elem_of_fmap. rewrite Forall_forall in Hc. specialize (Hc c' Hin).
    split; cbn [fst snd]; [by intros ->|]. exists k, (sampleRate p), ch. rewrite full_pad by done. split; [done|lia].
  - change (handling s') with (handling s). cbn [both having chunks] in *. destruct (handling s); [|by destruct A2]. destruct A2 as (c & [= <- Hr'] & Em).
    rewrite Hr'. eexists. split; [reflexivity|]. by rewrite Em, app_nil_r.
Qed.
(** A handler that begins with nothing cut ends so. *)
Definition tends (q : Prog.prog S_ question (option (list Z)) unit) : Prop := plays q (fun _ v => v = having []) (having []).
Lemma quiet_tends q : quiet q -> tends q.
Proof. intros Hq. apply Hq. Qed.
Lemma tends_bind {A} (q : Prog.prog S_ question (option (list Z)) A) k : quiet q -> (forall a, tends (k a)) -> tends (bind q k).
Proof. intros Hq Hk. eapply takes_seq; [apply Hq|]. intros a v ->. apply Hk. Qed.
Lemma tends_seq q k : tends q -> tends k -> tends (q ;;; k).
Proof. intros Hq Hk. eapply takes_seq; [apply Hq|]. by intros a v ->. Qed.
Lemma plays_pushes out k r ch cs : plays (each (List.map (fun c => chunkBuilder k c r ch) cs) (fun c => push out (Item c))) (fun _ v => v = having [])
  (having (List.map (fun c => chunkBuilder k c r ch) cs)).
Proof. induction cs as [|c cs IH]; [done|]. eapply takes_seq; [by apply plays_push|]. by intros _ v ->. Qed.
Lemma tends_handleAudioFrame k pcm r ch : tends (handleAudioFrame p k pcm r ch).
Proof.
  unfold handleAudioFrame. destruct (negb (AudioOutEnabled p)); [done|]. destruct (Nat.eqb_spec (chunkSize p) 0) as [|Hp]; [done|]. cbn [orb].
  apply tends_bind.
  { unfold resample. destruct (Z.eqb r (sampleRate p)); [apply media_quiet_ret|]. intros v x. by destruct x. }
  intros pcm'. apply takes_act. intros s _. exists (having (cutAll p k ch pcm' s).1). pose proof (turn_cutAll k ch pcm' s Hp) as Ht.
  unfold cutAll in *. destruct (chunksOf p _ _) as [cs r']. cbn [fst snd] in *. split; [done|]. apply plays_pushes.
Qed.
Lemma turn_cutTail s f out s' : cutTail p s = (Some (f, out), s') -> turn (having []) s s' (having [f]) /\ audios [f] = [f].
Proof.
  unfold cutTail. destruct (Nat.eqb_spec (length (buffer s)) 0) as [|Hb]; [done|]. destruct (Nat.eqb_spec (chunkSize p) 0) as [|Hp]; [done|]. intros [= <- <- <-]. split; [|done].
  intros rest [[I1 I2 I3 I3' I4 I5 I6 I7 I8] [A1 A2 A3]]. specialize (I3' Hp). set (f := chunkBuilder _ _ _ _). set (s' := emit _ _).
  assert (log s' = log s ++ [Cut (buffer s) f (pacing s)]) as El by done. assert (buffer s' = [] /\ current s' = current s) as [Eb Ec] by done.
  split; split; rewrite ?El, ?Eb, ?Ec; reckon; rewrite ?app_nil_r; try done.
  - apply Forall_app. split; [done|]. constructor; [|constructor]. split; cbn [fst snd]; [by intros E; rewrite E in Hb|].
    exists (match newChunk s with Some k => k | None => PlainAudio end), (sampleRate p), (channels p). split; [done|lia].
  - intros _. cbn. lia.
  - change (handling s') with (handling s). cbn [both having chunks] in *. destruct (handling s); [|by destruct A2]. destruct A2 as (c & [= <- Hr'] & Em).
    rewrite Hr'. eexists. split; [reflexivity|]. by rewrite Em, app_nil_r.
Qed.
Lemma turn_unpaced f s : audios [f] = [f] -> turn (having [f]) s (emit (Unpaced f) s) (having []).
Proof.
  intros Hf rest [[I1 I2 I3 I3' I4 I5 I6 I7 I8] [A1 A2 A3]]. set (s' := emit _ _). assert (log s' = log s ++ [Unpaced f]) as El by done. assert (current s' = current s) as Ec by done.
  split; split; rewrite ?El, ?Ec; reckon; rewrite ?app_nil_r; try done.
  change (handling s') with (handling s). cbn [both having chunks] in *. destruct (handling s); [|by destruct A2]. destruct A2 as (c & [= <- Hr'] & Em).
  rewrite Hr'. exists []. split; [done|]. by rewrite Em, Hf, app_nil_r.
Qed.
Lemma tends_enqueueFlushedAudioBuffer : tends (enqueueFlushedAudioBuffer p).
Proof.
  apply takes_act. intros s _. destruct (cutTail p s) as [[[f out]|] s'] eqn:E; cbn [fst snd].
  - destruct (turn_cutTail _ _ _ _ E) as [Ht Hf]. exists (having [f]). split; [done|]. destruct out as [l|]; [by apply plays_push|].
    intros s1 r s1' [[= <- <-]|[]] _. exists (having []). split; [by apply turn_unpaced|done].
  - exists (having []). split; [|done]. unfold cutTail in E. destruct (_ || _); [|done]. injection E as <-. apply media_calm_turn, media_calm_refl.
Qed.
Lemma quiet_handleSyncFrame f : audios [f] = [] -> quiet (handleSyncFrame f).
Proof. intros Hf. apply media_quiet_bind; [apply media_quiet_get|intros [l|]; [by apply quiet_push|by apply media_quiet_log]]. Qed.
Lemma tends_handleTTSStopped n : tends (handleTTSStopped p n).
Proof. apply tends_seq; [apply tends_enqueueFlushedAudioBuffer|apply quiet_tends]. by apply quiet_handleSyncFrame. Qed.
Lemma tends_handleFrame f pts : tends (handleFrame p f pts).
Proof.
  destruct f as [k pcm r ch|n|n|n|n u]; cbn [handleFrame]; [apply tends_handleAudioFrame|apply tends_handleTTSStopped|..]; apply quiet_tends.
  all: destruct pts as [t|]; [|by apply quiet_handleSyncFrame].
  all: apply media_quiet_bind; [apply media_quiet_get|intros []; [by apply media_quiet_log|by apply quiet_handleSyncFrame]].
Qed.

(** ** The loop *)

Definition holding (l : nat) (h : list frame) : role := mkRole [(l, h)] [] [].
Lemma quiet_writeAudio l f : quiet (writeAudio l f).
Proof.
  apply media_quiet_bind; [apply media_quiet_get|intros []; cbn [negb]].
  - apply media_quiet_act. intros s r s' [[= <- <-]|[[= <- <-]|[[= <- <-]|[]]]]; [by apply media_calm_emit..|]. case_decide; [by apply media_calm_emit|].
    split; try done; [|by left]. exists [Unsent f; TimedOut]. cbn. by rewrite <- app_assoc; split; [|repeat constructor].
  - apply media_quiet_bind; [by apply media_quiet_log|intros _; apply media_quiet_ret].
Qed.
Lemma quiet_effect l f : quiet (effect l f).
Proof.
  destruct f as [k pcm r ch|n|n|n|n u]; cbn [effect]; (apply media_quiet_bind; [|intros _; first [apply media_quiet_ret|apply quiet_writeAudio]]); try by apply media_quiet_log.
  - apply quiet_handleBotSpeech.
  - apply quiet_ttsStopped.
Qed.
Lemma turn_forward l f s : turn (holding l [f]) s (emit (Forwarded f) s) (holding l []).
Proof.
  intros rest [[I1 I2 I3 I3' I4 I5 I6 I7 I8] [A1 A2 A3]]. set (s' := emit _ _). assert (log s' = log s ++ [Forwarded f]) as El by done. assert (current s' = current s) as Ec by done.
  split; split; rewrite ?El, ?Ec; reckon; rewrite ?app_nil_r; try done.
  change (round s') with (round s). cbn [both holding hand] in *. destruct (round s); [|by destruct A1]. destruct A1 as (l' & h & [= <- <- Hr] & Hl & Hs).
  rewrite Hr. exists l, []. by rewrite !app_nil_r.
Qed.
Lemma plays_handleQueuedFrame l f : plays (handleQueuedFrame l f) (fun _ v => exists h, v = holding l h) (holding l [f]).
Proof.
  eapply takes_seq; [apply quiet_effect|]. intros push v ->. eapply takes_seq; [apply media_quiet_get|]. intros [] v ->; [by exists [f]|].
  destruct push; [|by exists [f]]. intros s r s' [[= <- <-]|[]] _. exists (holding l []). split; [apply turn_forward|by exists []].
Qed.
Lemma sublist_less {A} (a h b : list A) : a ++ h `sublist_of` b -> a `sublist_of` b.
Proof. intros H. etrans; [|exact H]. by apply sublist_inserts_r. Qed.
Lemma plays_roundOver l h again : plays (roundOver l again) (fun _ v => v = nothing) (holding l h).
Proof.
  intros s r s' [[= <- <-]|[]] _. exists nothing. split; [|done]. intros rest [[I1 I2 I3 I3' I4 I5 I6 I7 I8] [A1 A2 A3]].
  cbn [both holding nothing hand chunks under] in *. destruct (round s) eqn:Er; [|by destruct A1]. destruct A1 as (l' & h' & [= <- <- Hr] & Hl & Hs).
  match goal with |- good _ ?x => set (s' := x) end.
  assert (live s' ⊆ live s /\ log s' = log s /\ current s' = current s /\ audioOut s' = audioOut s /\ audioCancel s' = audioCancel s /\ buffer s' = buffer s
    /\ botSpeaking s' = botSpeaking s /\ round s' = false /\ handling s' = handling s /\ lifeMu s' = lifeMu s) as (E1 & E2 & E3 & E4 & E5 & E6 & E7 & E8 & E9 & E10).
  { subst s'. split_and!; try by destruct again. destruct again; cbn; set_solver. }
  clearbody s'. split; split; rewrite ?E2, ?E3, ?E4, ?E5, ?E6, ?E7, ?E8, ?E9, ?E10; try done; cbn [both nothing hand chunks under].
  - intros x Hx. apply I4. set_solver.
  - split; [done|by eapply sublist_less].
  - destruct (lifeMu s); [|done]. destruct A3 as (q & Hq & Hq'). exists q. split; [done|]. intros ->. specialize (Hq' eq_refl). set_solver.
Qed.
Lemma plays_play l f : plays (play l f) (fun _ v => v = nothing) (holding l [f]).
Proof. eapply takes_seq; [apply plays_handleQueuedFrame|]. intros ok v (h & ->). apply plays_roundOver. Qed.
Lemma quiet_sendEndSilence l : quiet (sendEndSilence p l).
Proof. unfold sendEndSilence. destruct (_ <=? 0)%Z; [apply media_quiet_ret|]. apply media_quiet_bind; [apply quiet_writeAudio|intros _; apply media_quiet_ret]. Qed.
Lemma quiet_signalDrained : quiet signalDrained.
Proof. apply media_quiet_do. intros s. destruct (drainWait s); [calm|apply media_calm_refl]. Qed.
Lemma plays_marker l : plays (sendEndSilence p l ;;; signalDrained ;;; roundOver l true) (fun _ v => v = nothing) (holding l []).
Proof. eapply takes_seq; [apply quiet_sendEndSilence|]. intros _ v ->. eapply takes_seq; [apply quiet_signalDrained|]. intros _ v ->. apply plays_roundOver. Qed.

(** Taking what is at the head, of the loop that runs. *)
Lemma turn_took l i q s s' h : queueOf l s = i :: q -> mixer p = false /\ (exists f, i = Item f /\ h = [f]) \/ (mixer p = true \/ i = drainMarker) /\ h = [] ->
  log s' = (log s ++ [Took l i]) ++ List.map Sourced h -> queues s' = <[l := q]> (queues s) ->
  botSpeaking s' = botSpeaking s -> buffer s' = buffer s -> live s' = live s -> audioOut s' = audioOut s -> audioCancel s' = audioCancel s ->
  round s' = round s -> handling s' = handling s -> lifeMu s' = lifeMu s -> turn (holding l []) s s' (holding l h).
Proof.
  intros Hq Hh El Eq E1 E2 E3 E4 E5 E6 E7 E8 rest [[I1 I2 I3 I3' I4 I5 I6 I7 I8] [A1 A2 A3]].
  cbn [both holding hand chunks under] in *. destruct (round s) eqn:Er; [|by destruct A1]. destruct A1 as (l' & h' & [= <- <- Hr] & Hl & Hs).
  assert (audioOut s = Some l) as Ho by auto. assert (current s = i :: current s') as Ec.
  { unfold current. rewrite E4, Ho. unfold queueOf at 2. rewrite Eq, lookup_insert_eq. done. }
  assert (framesOf [i] = h \/ mixer p = true) as Hf by (destruct Hh as [(_ & f & -> & ->)|([Hm| ->] & ->)]; [by left|by right|by left]).
  assert (exists tr, log s' = log s ++ Took l i :: tr /\ tr = List.map Sourced h) as (tr & El' & Et) by (eexists; split; [rewrite El, <- app_assoc|]; reflexivity).
  assert (takens tr = [] /\ queueds tr = [] /\ given tr = [] /\ consumed tr = [] /\ cuts tr = [] /\ outs tr = [] /\ floors tr = [] /\ forwards tr = [] /\ made tr = [] /\ sources tr = h
    /\ sinceStart (log s') = sinceStart (log s) ++ Took l i :: tr) as (P1 & P2 & P3 & P4 & P5 & P6 & P7 & P8 & P9 & P10 & P11).
  { rewrite El', since_app by (subst tr; destruct Hh as [(_ & f & _ & ->)|(_ & ->)]; by repeat constructor).
    subst tr. destruct Hh as [(_ & f & _ & ->)|(_ & ->)]; by split_and!. }
  change (Took l i :: tr) with ([Took l i] ++ tr) in El', P11.
  split; split; rewrite ?P11, ?El', ?E1, ?E2, ?E3, ?E4, ?E5, ?E6, ?E7, ?E8; reckon; rewrite ?P1, ?P2, ?P3, ?P4, ?P5, ?P6, ?P7, ?P8, ?P9, ?P10, ?app_nil_r; try done.
  - rewrite Ec in I6. by rewrite <- (app_assoc (takens (log s))).
  - rewrite Ec in I7. by rewrite <- (app_assoc (takens (sinceStart (log s)))).
  - intros Hm. rewrite framesOf_app, I8 by done. destruct Hf as [-> |?]; [done|congruence].
  - cbn [both holding hand]. exists l, h. rewrite Hr. split_and!; [done|done|]. rewrite app_nil_r in Hs. by apply sublist_app.
Qed.
Lemma plays_loopWithoutMixer l : mixer p = false -> plays (loopWithoutMixer p l) (fun _ v => v = nothing) (holding l []).
Proof.
  intros Hm. apply takes_act. intros s _. unfold tryGet. destruct (queueOf l s) as [|[f|] q] eqn:Eq; cbn [fst snd].
  - exists (holding l []). split; [apply media_calm_turn, media_calm_refl|]. eapply takes_seq with (P' := fun _ v => v = holding l []).
    + clear. intros s r s' Hin _. exists (holding l []). split; [|done]. apply in_app_or in Hin as [Hin|Hin]; [case_decide; [|done]; destruct Hin as [[= <- <-]|[]]; apply media_calm_turn, media_calm_refl|].
      apply in_app_or in Hin as [Hin|[[= <- <-]|[]]]; [destruct (_ <=? _)%Z; [|done]; destruct Hin as [[= <- <-]|[]]|]; apply media_calm_turn, media_calm_refl.
    + intros [] v ->; [apply plays_roundOver| |apply plays_roundOver]. eapply takes_seq; [apply quiet_botStoppedSpeaking|]. intros _ v ->.
      eapply takes_seq; [apply media_quiet_do; calm|]. intros _ v ->. apply plays_roundOver.
  - exists (holding l [f]). split; [|apply plays_play]. eapply (turn_took l (Item f) q); try done. left. split; [done|]. by exists f.
  - exists (holding l []). split; [|apply plays_marker]. eapply (turn_took l drainMarker q); try done; [right; by split; [right|]|]. cbn. by rewrite app_nil_r.
Qed.
Lemma turn_sourced l f s : mixer p = true -> turn (holding l []) s (emit (Sourced f) s) (holding l [f]).
Proof.
  intros Hm rest [[I1 I2 I3 I3' I4 I5 I6 I7 I8] [A1 A2 A3]]. set (s' := emit _ _). assert (log s' = log s ++ [Sourced f]) as El by done. assert (current s' = current s) as Ec by done.
  split; split; rewrite ?El, ?Ec; reckon; rewrite ?app_nil_r; try done; [by rewrite Hm|].
  change (round s') with (round s). cbn [both holding hand] in *. destruct (round s); [|by destruct A1]. destruct A1 as (l' & h & [= <- <- Hr] & Hl & Hs).
  rewrite Hr. exists l, [f]. rewrite app_nil_r in Hs. split_and!; [done|done|by apply sublist_app].
Qed.
Lemma turn_calm v v' s1 s2 s3 : calm s1 s2 -> turn v s2 s3 v' -> turn v s1 s3 v'.
Proof. intros H1 H2 rest Hg. apply H2. by eapply media_calm_turn. Qed.
Lemma plays_loopWithMixer l : mixer p = true -> plays (loopWithMixer p l) (fun _ v => v = nothing) (holding l []).
Proof.
  intros Hm. apply takes_act. intros s _. unfold tryGet. destruct (queueOf l s) as [|[f|] q] eqn:Eq; cbn [fst snd].
  - exists (holding l []). split; [apply media_calm_turn, media_calm_refl|]. eapply takes_seq; [apply media_quiet_get|]. intros b v ->.
    eapply takes_seq; [apply media_quiet_when, quiet_botStoppedSpeaking|]. intros _ v ->. intros m.
    eapply takes_do; [intros s1 _; by apply turn_sourced|apply plays_play].
  - exists (holding l []). split; [eapply (turn_took l (Item f) q); try done; [right; by split; [left|]|]; cbn; by rewrite app_nil_r|].
    assert (quiet (blendMixer f)) as Hb by (unfold blendMixer; destruct (outputAudio f) as [[[pcm r] c]|]; [intros v m; done|apply media_quiet_ret]).
    eapply takes_seq; [apply Hb|]. intros [f' b] v ->. cbn [fst snd]. eapply takes_seq with (P' := fun _ v => v = holding l [f']).
    + clear -Hm. intros s r s' [[= <- <-]|[]] _. exists (holding l [f']). split; [|done]. eapply turn_calm; [|by apply turn_sourced]. destruct b; [calm|apply media_calm_refl].
    + intros _ v ->. apply plays_play.
  - exists (holding l []). split; [|apply plays_marker]. eapply (turn_took l drainMarker q); try done; [right; by split; [right|]|]. cbn. by rewrite app_nil_r.
Qed.
Lemma plays_audioLoop l : plays (audioLoop p l) (fun _ v => v = nothing) (holding l []).
Proof.
  eapply takes_seq; [apply media_quiet_get|]. intros [] v ->; [apply plays_roundOver|]. destruct (mixer p) eqn:Em; [by apply plays_loopWithMixer|by apply plays_loopWithoutMixer].
Qed.

(** ** Its life *)

Lemma plays_lock v : under v = [] -> plays lock (fun _ v' => v' = v <| under := [false] |>) v.
Proof.
  intros Hu s r s' Hin _. destruct (lifeMu s) eqn:El; [done|]. destruct Hin as [[= <- <-]|[]]. exists (v <| under := [false] |>). split; [|done].
  intros rest [[I1 I2 I3 I3' I4 I5 I6 I7 I8] [A1 A2 A3]]. rewrite El in A3. split; [by split|]. split; [done|done|]. cbn in *. exists false. split; [|done].
  destruct (app_eq_nil _ _ A3) as [_ ->]. done.
Qed.
Lemma plays_unlock v q : under v = [] -> plays unlock (fun _ v' => v' = v) (v <| under := [q] |>).
Proof.
  intros Hu s r s' [[= <- <-]|[]] _. exists v. split; [|done]. intros rest [[I1 I2 I3 I3' I4 I5 I6 I7 I8] [A1 A2 A3]]. split; [by split|]. split; [done|done|].
  cbn in *. rewrite Hu. destruct (lifeMu s); [|done]. destruct A3 as (q' & [= _ Hr] & _). done.
Qed.
Lemma plays_loopsOver v q : plays (await (fun s => none (live s))) (fun _ v' => v' = v <| under := [true] |>) (v <| under := [q] |>).
Proof.
  intros s r s' Hin _. unfold none in Hin. case_bool_decide as Hl; [|done]. destruct Hin as [[= <- <-]|[]]. exists (v <| under := [true] |>). split; [|done].
  intros rest [HI [A1 A2 A3]]. split; [done|]. split; [done|done|]. cbn in *. destruct (lifeMu s); [|done]. destruct A3 as (q' & [= _ Hr] & _). exists true. by rewrite Hr.
Qed.
Lemma turn_spawn v v' s : (exists q, under v = [q] /\ v' = v <| under := [false] |> /\ q = true) \/ v' = v /\ lifeMu s = false /\ audioOut s = None ->
  turn v s (spawn s) v'.
Proof.
  intros Hv rest [[I1 I2 I3 I3' I4 I5 I6 I7 I8] [A1 A2 A3]].
  assert (live s = ∅) as Hl.
  { destruct Hv as [(q & Hq & -> & ->)|(-> & Hm & Ho)].
    - cbn in A3. rewrite Hq in A3. destruct (lifeMu s); [|done]. destruct A3 as (q' & [= <- _] & H). auto.
    - apply set_eq. intros l. split; [|set_solver]. intros Hl%I4. congruence. }
  assert (hand v' = hand v /\ chunks v' = chunks v) as [Eh Ec] by by destruct Hv as [(q & _ & -> & _)|(-> & _)].
  assert (log (spawn s) = log s ++ [Restarted (loops s)]) as El by done.
  assert (current (spawn s) = []) as Ecu by (unfold current, queueOf; cbn; by rewrite lookup_insert_eq).
  split; split; rewrite ?El, ?Ecu; reckon; rewrite ?app_nil_r; try done; cbn [both hand chunks under] in *; rewrite ?Eh, ?Ec; try done.
  - intros l. cbn. rewrite Hl. set_solver.
  - by eapply sublist_less.
  - change (round (spawn s)) with (round s). destruct (round s); [|done]. destruct A1 as (l & h & _ & Hin & _). rewrite Hl in Hin. set_solver.
  - change (lifeMu (spawn s)) with (lifeMu s). destruct Hv as [(q & Hq & -> & ->)|(-> & Hm & Ho)].
    + rewrite Hq in A3. destruct (lifeMu s); [|done]. destruct A3 as (q' & [= <- Hr] & H). exists false. cbn. by rewrite Hr.
    + by rewrite Hm in A3 |- *.
Qed.
Definition free (q : Prog.prog S_ question (option (list Z)) unit) : Prop := forall v, under v = [] -> plays q (fun _ v' => v' = v) v.
Lemma quiet_free q : quiet q -> free q.
Proof. intros H v _. apply H. Qed.
Lemma free_bind {A} (q : Prog.prog S_ question (option (list Z)) A) k : quiet q -> (forall a, free (k a)) -> free (bind q k).
Proof. intros Hq Hk v Hu. eapply takes_seq; [apply Hq|]. intros a v' ->. by apply Hk. Qed.
Lemma quiet_cancelLoop b : quiet (act (fun s => (audioCancel s, match audioCancel s with Some l => (if b : bool then s <| audioCancel := None |> else s) <| canceled ::= union {[l]} |> | None => s end))).
Proof.
  apply media_quiet_one. intros s. cbn [snd]. destruct (audioCancel s) eqn:E; [|apply media_calm_refl].
  destruct b; (split; try done; [exists []; by rewrite app_nil_r|cbn; rewrite ?E; auto]).
Qed.
Lemma free_stop : free stop.
Proof.
  apply free_bind; [apply quiet_botStoppedSpeaking|intros _]. intros v Hu. eapply takes_seq; [by apply plays_lock|]. intros _ v' ->.
  eapply takes_seq; [apply (quiet_cancelLoop true)|]. intros c v' ->. eapply takes_seq with (P' := fun _ v' => exists q, v' = v <| under := [q] |>).
  - destruct c; [eapply takes_mono; [apply plays_loopsOver|]; intros _ v' ->; by exists true|by exists false].
  - intros _ v' (q & ->). eapply takes_seq; [apply media_quiet_get|]. intros k v' ->. eapply takes_seq; [apply media_quiet_when; by apply media_quiet_log|]. intros _ v' ->. by apply plays_unlock.
Qed.
Lemma free_restartAudioLoop : free restartAudioLoop.
Proof.
  intros v Hu. eapply takes_seq; [by apply plays_lock|]. intros _ v' ->. eapply takes_seq; [apply (quiet_cancelLoop false)|]. intros [l|] v' ->; [|by apply plays_unlock].
  eapply takes_seq; [apply plays_loopsOver|]. intros _ v' ->. eapply takes_do with (v' := v <| under := [false] |>); [|by apply plays_unlock].
  intros s _. apply turn_spawn. left. by exists true.
Qed.
Lemma turn_reset l v s : turn v s (s <| queues := <[l := List.filter isUninterruptible (queueOf l s)]> (queues s) |>) v.
Proof.
  intros rest [[I1 I2 I3 I3' I4 I5 I6 I7 I8] [A1 A2 A3]]. match goal with |- good _ ?x => set (s' := x) end.
  assert (current s' `sublist_of` current s) as Hc.
  { unfold current. change (audioOut s') with (audioOut s). destruct (audioOut s) as [l'|]; [|done]. unfold queueOf at 1, s'. cbn. destruct (decide (l = l')) as [<-|Hne].
    - rewrite lookup_insert_eq. apply sublist_List_filter.
    - by rewrite lookup_insert_ne. }
  split; [split; try done|by split]; (etrans; [|eassumption]); by apply sublist_app.
Qed.
Lemma free_handleInterruption : free (handleInterruption p).
Proof.
  apply free_bind; [apply quiet_bargeIn|intros _]. apply free_bind; [apply media_quiet_get|intros k]. apply free_bind; [apply media_quiet_when; by apply media_quiet_log|intros _].
  apply free_bind; [apply media_quiet_get|intros [l|]; [|apply quiet_free, media_quiet_ret]]. apply free_bind; [apply media_quiet_get|intros keeps].
  destruct (keeps || mixer p); [|apply free_restartAudioLoop]. apply quiet_free, media_quiet_turns. intros v s r s' [[= <- <-]|[]]. apply turn_reset.
Qed.
Lemma tends_drainAudio : tends (drainAudio p).
Proof.
  apply tends_bind; [apply media_quiet_get|intros [l|]; [|by apply quiet_tends, media_quiet_ret]]. apply tends_seq; [apply tends_enqueueFlushedAudioBuffer|apply quiet_tends].
  apply media_quiet_bind; [apply media_quiet_one; calm|intros d]. apply media_quiet_bind; [apply media_quiet_get|intros out]. apply media_quiet_bind; [by apply quiet_push|intros _].
  apply media_quiet_bind; [apply media_quiet_await|intros _; by apply media_quiet_log].
Qed.

(** ** Every goroutine *)

Lemma media_plays_handled q : tends q -> plays (handled q) (fun _ v => v = nothing) (having []).
Proof.
  intros Hq. eapply takes_seq; [apply Hq|]. intros _ v ->. intros s r s' [[= <- <-]|[]] _. exists nothing. split; [|done].
  intros rest [HI [A1 A2 A3]]. split; [by destruct HI; split|]. split; [done| |done]. cbn in *. destruct (handling s); [|by destruct A2].
  destruct A2 as (c & [= <- Hr] & Em). rewrite app_nil_r in Em. by rewrite Hr.
Qed.
Definition roleOf (c : call) : role := match c with Loop l => holding l [] | _ => if inOrder c then having [] else nothing end.
Lemma plays_program c : plays (program p c) (fun _ v => v = nothing) (roleOf c).
Proof.
  destruct c as [f pts|n| | | |l]; cbn [program roleOf inOrder].
  - apply media_plays_handled, tends_handleFrame.
  - apply media_plays_handled, quiet_tends, media_quiet_when. by apply media_quiet_log.
  - apply media_plays_handled, tends_seq; [apply tends_drainAudio|by apply free_stop].
  - eapply takes_seq; [by apply free_handleInterruption|]. intros _ v ->. apply quiet_botStoppedSpeaking.
  - by apply free_stop.
  - apply plays_audioLoop.
Qed.
Lemma accounted_alike a b s : hand a ≡ₚ hand b -> chunks a ≡ₚ chunks b -> under a ≡ₚ under b -> accounted a s -> accounted b s.
Proof.
  intros Hh Hc Hu [A1 A2 A3]. split.
  - destruct (round s); [destruct A1 as (l & h & E & H); rewrite E in Hh; apply Permutation_singleton_l in Hh; by exists l, h|destruct A1 as [E H]; rewrite E in Hh; by apply Permutation_nil_l in Hh].
  - destruct (handling s); [destruct A2 as (c & E & H); rewrite E in Hc; apply Permutation_singleton_l in Hc; by exists c|destruct A2 as [E H]; rewrite E in Hc; by apply Permutation_nil_l in Hc].
  - destruct (lifeMu s); [destruct A3 as (q & E & H); rewrite E in Hu; apply Permutation_singleton_l in Hu; by exists q|rewrite A3 in Hu; by apply Permutation_nil_l in Hu].
Qed.
Lemma good_begin c s q s' own : begin p c s = Some (q, s') -> good own s -> q = program p c /\ good (both (roleOf c) own) s'.
Proof.
  intros E [HI [A1 A2 A3]]. destruct c as [f pts|n| | | |l]; cbn [begin inOrder roleOf] in *.
  1-3: destruct (handling s) eqn:Eh; [done|]; injection E as <- <-; split; [done|]; split; [by destruct HI; split|]; split; [done| |done]; cbn; destruct A2 as [-> Em]; exists []; by rewrite app_nil_r.
  1-2: injection E as <- <-; split; [done|by split; [|split]].
  case_decide as Hl; [|done]. destruct (round s) eqn:Er; [done|]. injection E as <- <-. split; [done|]. split; [by destruct HI; split|]. split; [|done|done].
  cbn. destruct A1 as [-> Hs]. exists l, []. by rewrite app_nil_r.
Qed.
Lemma both_nothing v : both nothing v = v.
Proof. by destruct v. Qed.
Lemma turn_good s s' own : turn nothing s s' nothing -> good own s -> good own s'.
Proof. intros Ht Hg. specialize (Ht own). rewrite both_nothing in Ht. auto. Qed.
Lemma good_changed c s s' own : changed c s = Some s' -> good own s -> good own s'.
Proof.
  destruct c as [d| | |b]; cbn [changed].
  - destruct (0 <=? d)%Z; intros [= <-]. apply turn_good, media_calm_turn. calm.
  - destruct (audioOut s) eqn:Eo; [done|]. destruct (lifeMu s) eqn:El; intros [= <-] Hg.
    apply (turn_good _ _ _ (turn_dropBuffer nothing s)) in Hg. apply (turn_good _ (spawn (dropBuffer s))) in Hg; [|apply turn_spawn; by right].
    eapply turn_good; [|exact Hg]. apply media_calm_turn. calm.
  - intros [= <-]. apply turn_good, media_calm_turn. calm.
  - intros [= <-]. apply turn_good, media_calm_turn. calm.
Qed.

(** ** The whole sender *)

Definition all (vs : list role) : role := foldr both nothing vs.
Lemma both_assoc a b c : both a (both b c) = both (both a b) c.
Proof. unfold both. cbn. by rewrite !app_assoc. Qed.
Lemma all_app a b : all (a ++ b) = both (all a) (all b).
Proof. induction a as [|v a IH]; [symmetry; apply both_nothing|]. change (both v (all (a ++ b)) = both (both v (all a)) (all b)). by rewrite IH, both_assoc. Qed.
Lemma good_alike a b s : hand a ≡ₚ hand b -> chunks a ≡ₚ chunks b -> under a ≡ₚ under b -> good a s -> good b s.
Proof. intros H1 H2 H3 [HI HA]. split; [done|by eapply accounted_alike]. Qed.
Lemma good_around v vs1 vs2 s : good (all (vs1 ++ v :: vs2)) s <-> good (both v (all (vs1 ++ vs2))) s.
Proof. rewrite !all_app. cbn. split; apply good_alike; cbn; by rewrite Permutation_app_swap_app. Qed.
Definition ends_clean (q : Sender.prog unit) (v : role) : Prop := plays q (fun _ v' => v' = nothing) v.
Definition sound (y : Sys) : Prop := exists vs, Forall2 ends_clean (procs y) vs /\ good (all vs) (state y).
Lemma media_step c y y' : sound y -> step p c y = Some y' -> sound y'.
Proof.
  intros (vs & Hvs & Hg). destruct c as [c|i n|i x|c]; cbn [step].
  - destruct (begin p c (state y)) as [[q s]|] eqn:Eb; [|done]. intros [= <-]. destruct (good_begin _ _ _ _ _ Eb Hg) as [-> Hg']. exists (vs ++ [roleOf c]). split.
    + apply Forall2_app; [done|]. constructor; [apply plays_program|constructor].
    + apply good_around. by rewrite app_nil_r.
  - destruct (procs y !! i) as [q|] eqn:Ep; [|done]. destruct (runNth q n (state y)) as [[q' s']|] eqn:Er; [|done]. intros [= <-].
    destruct (lookup_at _ _ _ Ep) as (l1 & l2 & -> & El). rewrite El in Hvs |- *. destruct (Forall2_at _ _ _ _ _ Hvs) as (vs1 & v & vs2 & -> & H1 & Hp & H2).
    apply good_around in Hg. unfold runNth in Er. destruct q as [|R f k|]; [done| |done]. destruct (List.nth_error (f (state y)) n) as [[r b1]|] eqn:En; [|done].
    injection Er as <- <-. apply nth_error_In in En. destruct (Hp _ _ _ En) as (v' & Ht & Hk); [by exists (all (vs1 ++ vs2))|]. exists (vs1 ++ v' :: vs2). cbn [procs state]. split.
    + rewrite insert_at. by apply (Forall2_around ends_clean).
    + apply good_around. by apply Ht.
  - destruct (procs y !! i) as [q|] eqn:Ep; [|done]. destruct (answer q x) as [q'|] eqn:Er; [|done]. intros [= <-].
    destruct (lookup_at _ _ _ Ep) as (l1 & l2 & -> & El). rewrite El in Hvs |- *. destruct (Forall2_at _ _ _ _ _ Hvs) as (vs1 & v & vs2 & -> & H1 & Hp & H2).
    unfold answer in Er. destruct q as [| |u k]; [done|done|]. apply (inj Some) in Er as <-. exists (vs1 ++ v :: vs2). cbn [procs state]. split; [|done].
    rewrite insert_at. apply (Forall2_around ends_clean); [done|done|done|]. apply Hp.
  - destruct (changed c (state y)) as [s'|] eqn:Ec; [|done]. intros [= <-]. exists vs. split; [done|]. by eapply good_changed.
Qed.
Lemma media_exec cs : forall y y', sound y -> exec p cs y = Some y' -> sound y'.
Proof.
  induction cs as [|c cs IH]; intros y y' Hy E; cbn [exec] in E; [by injection E as <-|]. destruct (step p c y) as [y1|] eqn:E1; [|done]. eapply IH; [|exact E]. by eapply media_step.
Qed.
Lemma media_boot : sound boot.
Proof.
  exists []. split; [by constructor|]. split; split; try done. cbn. lia.
Qed.
Lemma media_good cs y : exec p cs boot = Some y -> exists own, good own (state y).
Proof. intros E. destruct (media_exec _ _ _ media_boot E) as (vs & _ & Hg). eauto. Qed.


(** C40: The audio given is the audio cut, dropped or waiting for more, in order, with nothing
    of it missing.  It is dropped no oftener than the bot gives up the floor, is
    interrupted, or the sender is started.  What is cut goes out in chunks of one size, and
    each is queued for the loop there is, in the order cut, or given up where the sender has
    not been started; none is held back once no frame is being handled.  Where a turn ends,
    or the session, nothing of what was given is left behind. *)
Theorem audio_cut_whole cs y : exec p cs boot = Some y -> let l := log (state y) in
  given l = consumed l ++ buffer (state y)
  /\ drops l <= reasons l + match audioOut (state y) with Some _ => 1 | None => 0 end
  /\ Forall wellCut (cuts l)
  /\ (exists c, chunksCut l = fates l ++ c /\ (handling (state y) = false -> c = []))
  /\ (forall l1 b f l2, l = l1 ++ Cut b f None :: l2 -> restarts l1 = 0)
  /\ (forall l1 e l2, l = l1 ++ e :: l2 -> turnEnd e = true -> given l1 = consumed l1 /\ chunksCut l1 = fates l1).
Proof.
  intros E. destruct (media_good _ _ E) as (own & [] & Ha). destruct (MediaAudio.audio_good _ _ _ E) as (own' & [G1 G2 G3 _ _ _ Hf]). cbn zeta. split_and!; [done| |done| | |].
  - unfold MediaAudio.started in G2. destruct (audioOut (state y)); lia.
  - unfold MediaAudio.inLane in G3. destruct (handling (state y)); [destruct G3 as (c & b & _ & Ec & _); by exists c|]. exists []. rewrite app_nil_r. by destruct G3.
  - intros l1 b f l2 El. apply (Hf _ _ _ El).
  - intros l1 e l2 El. apply (Hf _ _ _ El).
Qed.
(** The bot takes the floor and gives it up in turn. *)
Theorem floor_in_turn cs y : exec p cs boot = Some y -> inTurn false (floors (log (state y))) = Some (botSpeaking (state y)).
Proof. intros E. by destruct (media_good _ _ E) as (own & [] & Ha). Qed.
(** A loop started afresh plays nothing that was queued before it, and what was queued
    since in that order. *)
Theorem fresh_loop_plays_fresh cs y : exec p cs boot = Some y -> takens (sinceStart (log (state y))) `sublist_of` queueds (sinceStart (log (state y))).
Proof. intros E. destruct (media_good _ _ E) as (own & [] & Ha). by eapply sublist_less. Qed.
End Facts.

(** ** On a run *)

Definition aSender (mixed : bool) : Params := mkParams true 8000 1 4 mixed 0.
Definition playedOut (mixed : bool) (cs : list choice) : Sys := default boot (exec (aSender mixed) cs boot).
Definition played_ok (mixed : bool) (cs : list choice) : bool := match exec (aSender mixed) cs boot with Some _ => true | None => false end.
Lemma media_played m cs : played_ok m cs = true -> exec (aSender m) cs boot = Some (playedOut m cs).
Proof. unfold played_ok, playedOut. by destruct (exec (aSender m) cs boot). Qed.
Definition gives (i n : nat) : list choice := List.repeat (Run i 0) n.
Definition speech (x : list Z) : frame := OutputAudio TTSAudio x 8000 1.
Definition comes (f : frame) : choice := Begin (HandleFrame f None).

(** A turn of six bytes is played in two chunks, the second filled up with silence, and
    ends behind them. *)
Definition toTurn : list choice :=
  Change Starts :: comes (speech [5; 5; 5; 5; 6; 6]%Z) :: gives 0 3 ++ comes (TTSStoppedFrame 0) :: gives 1 5
    ++ Begin (Loop 0) :: gives 2 11 ++ Begin (Loop 0) :: gives 3 10 ++ Begin (Loop 0) :: gives 4 8.
Lemma turn_played :
  forwards (log (state (playedOut false toTurn))) = [speech [5; 5; 5; 5]%Z; speech [6; 6; 0; 0]%Z; TTSStoppedFrame 0]
  /\ floors (log (state (playedOut false toTurn))) = [true; false].
Proof. vm_compute. by split. Qed.
Lemma audio_cut_whole_witness : let s := state (playedOut false toTurn) in let l := log s in
  given l = consumed l ++ buffer s /\ drops l <= reasons l + 1 /\ Forall (wellCut (aSender false)) (cuts l) /\ chunksCut l = fates l.
Proof.
  cbn zeta. destruct (audio_cut_whole (aSender false) toTurn (playedOut false toTurn)) as (H1 & H2 & H3 & (c & H4 & H5) & _).
  { apply media_played. vm_compute. reflexivity. }
  split_and!; [exact H1|destruct (audioOut _); lia|exact H3|]. rewrite H4, H5; [apply app_nil_r|vm_compute; reflexivity].
Defined.
Lemma floor_in_turn_witness : inTurn false (floors (log (state (playedOut false toTurn)))) = Some (botSpeaking (state (playedOut false toTurn))).
Proof. apply (floor_in_turn (aSender false) toTurn). apply media_played. vm_compute. reflexivity. Defined.
Lemma fresh_loop_plays_fresh_witness :
  takens (sinceStart (log (state (playedOut false toTurn)))) `sublist_of` queueds (sinceStart (log (state (playedOut false toTurn)))).
Proof. apply (fresh_loop_plays_fresh (aSender false) toTurn). apply media_played. vm_compute. reflexivity. Defined.

(** ** Where it falls short *)

(** The pipeline ends while the bot speaks, with a mixer, and the user barges in: what is
    queued is dropped, the marker the end waits for with the rest.  Nothing else ends the
    wait but the context's. *)
Definition toHang : list choice :=
  Change Starts :: comes (speech [5; 5; 5; 5]%Z) :: gives 0 3 ++ Begin HandleEnd :: gives 1 5 ++ Begin HandleInterruption :: gives 2 7.
Lemma drain_waits_for_ever :
  let y := playedOut true toHang in
  played_ok true toHang = true /\ List.map idle (procs y) = [true; false; true] /\ queueOf 0 (state y) = [] /\ elements (canceled (state y)) = []
  /\ forall n, match step (aSender true) (Run 1 n) y with Some _ => False | None => True end.
Proof. cbn zeta. split_and!; [vm_compute; reflexivity..|]. intros n. vm_compute. by destruct n. Qed.

(** The next turn has begun to come when the last is played to its end: what is cut of
    the next one is not touched, and what is left in the buffer is dropped. *)
Definition toClipped : list choice :=
  Change Starts :: comes (speech [5; 5; 5; 5]%Z) :: gives 0 3 ++ comes (TTSStoppedFrame 0) :: gives 1 4 ++ comes (speech [7; 7]%Z) :: gives 2 2
    ++ Begin (Loop 0) :: gives 3 11 ++ Begin (Loop 0) :: gives 4 8.
Definition dropped (l : list event) : list Z := flat_map (fun e => match e with Dropped b => b | _ => [] end) l.
Lemma next_turn_clipped :
  played_ok false toClipped = true /\ dropped (log (state (playedOut false toClipped))) = [7; 7]%Z /\ buffer (state (playedOut false toClipped)) = []
  /\ forallb idle (procs (playedOut false toClipped)) = true.
Proof. vm_compute. by split_and!. Qed.

(** A frame that must survive is queued between the look for one and the fresh start: it
    is left in the queue nobody reads. *)
Definition toLost : list choice :=
  Change Starts :: Begin HandleInterruption :: gives 0 5 ++ comes (OtherFrame 7 true) :: gives 1 3 ++ gives 0 2 ++ Begin (Loop 0) :: gives 2 2 ++ gives 0 4.
Lemma survivor_lost :
  log (state (playedOut false toLost)) = [Dropped []; Restarted 0; BargeIn; Dropped []; ClockDropped; Queued 0 (Item (OtherFrame 7 true)); Restarted 1]
  /\ audioOut (state (playedOut false toLost)) = Some 1 /\ forallb idle (procs (playedOut false toLost)) = true.
Proof. vm_compute. by split_and!. Qed.

(** With a mixer the loop goes on through a barge-in with the chunk it has in hand: the
    bot takes the floor again after it gave it up, with nothing left to say. *)
Definition toSpeaks : list choice :=
  Change Starts :: comes (speech [5; 5; 5; 5]%Z) :: gives 0 3 ++ Begin (Loop 0) :: gives 1 2 ++ Answer 1 None :: gives 1 10
    ++ comes (speech [6; 6; 6; 6]%Z) :: gives 2 3 ++ Begin (Loop 0) :: gives 3 2 ++ Begin HandleInterruption :: gives 4 8 ++ Answer 3 None :: gives 3 9.
Lemma speaks_through_barge_in :
  floors (log (state (playedOut true toSpeaks))) = [true; false; true] /\ forwards (log (state (playedOut true toSpeaks))) = [speech [5; 5; 5; 5]%Z; speech [6; 6; 6; 6]%Z]
  /\ queueOf 0 (state (playedOut true toSpeaks)) = [] /\ forallb idle (procs (playedOut true toSpeaks)) = true.
Proof. vm_compute. by split_and!. Qed.

(** What is left of synthesized speech goes out as what comes next, of another kind. *)
Definition toMixed : list choice := Change Starts :: comes (speech [5; 5; 5]%Z) :: gives 0 2 ++ comes (OutputAudio SpeechAudio [6; 6]%Z 8000 1) :: gives 1 3.
Lemma kind_of_the_last : queueds (log (state (playedOut false toMixed))) = [Item (OutputAudio SpeechAudio [5; 5; 5; 6]%Z 8000 1)].
Proof. vm_compute. reflexivity. Qed.
End MediaFacts.
